(* ===== verification/_CoqProject ===== *)
-Q . S2P
Prelude.v
JsCollections.v
JsStrings.v
LaneQueue.v
WorkAdmission.v
AdmissionGate.v
NumberCoercion.v
QueueState.v
CapacityGroups.v
CommandQueue.v
TaskTimeout.v
Utf16.v
QueueHelpers.v
BoundedQueues.v
KeyedQueues.v
AuthRateLimit.v
TranscriptTree.v
SessionRegistry.v
SessionLifecycle.v
HeartbeatWake.v
ToolPairing.v
SessionKeys.v
Routing.v
CronSchedule.v
CronJobs.v
Effects.v
AgentMessages.v
ToolBatch.v
ToolBatchFacts.v
ParallelTools.v
AgentLoop.v
AgentLoopFacts.v
LoopSteps.v
AgentProgress.v
ToolResources.v
ScriptedWorld.v
AgentRuns.v
Agent.v
AgentQueues.v
AgentDelivery.v
AgentHands.v
AgentCalls.v
AgentLife.v
ScriptedOutside.v
AgentPromises.v
Truncate.v
SessionContext.v
Compaction.v
CompactionFacts.v
CompactionPromises.v
Retry.v
RetryPromises.v
EventStream.v
BranchSummary.v
ToolCallGrammar.v
ToolCallPayload.v
ToolCallFacts.v
ToolCallRepair.v
ProtectionFastPath.v
ProtectionFacts.v
ToolCallPromote.v
ToolCallPromises.v
