(* ===== verification/Prelude.v ===== *)
(** * The coordination core of the OpenClaw gateway

    A verification of the code that decides when work runs, who may start it
    and what of it is kept: [src/packages/openclaw-core/upstream/], from here
    on without that prefix.

    ** The program and its parts

    A message is routed first: the bindings of the configuration choose its
    agent ([src/routing/resolve-route.ts]) and the agent and the peer its
    session key ([src/routing/session-key.ts]).

    The gateway is one JavaScript process.  Requests and timers pass the
    gateway's work admission ([src/process/gateway-work-admission.ts]), which
    can be fenced by a restart signal, a restart drain or a host suspension.
    Admitted work is put on the lanes of the command queue
    ([src/process/command-queue*.ts]), which starts entries by priority within
    the width of a lane and the budget of a group of lanes, and races each
    task against its timeout.  A turn works on a session: its admission and
    the exclusive mutations of a session's life exclude each other
    ([src/sessions/session-lifecycle-*.ts]), on top of the writers of a store
    path ([src/shared/store-writer-queue.ts]).  What a turn leaves is a tree of
    transcript rows ([src/config/sessions/transcript-tree.ts]).  Periodic work
    reaches the agents as heartbeat wakes ([src/infra/heartbeat-wake.ts]),
    each turn of which is admitted like any other, and as automation jobs whose
    slots the scheduler keeps ([src/cron/service/jobs-scheduling.ts]).  A turn
    that reaches an agent runs the agent loop
    ([packages/agent-core/src/agent-loop.ts]): it streams an answer of the model,
    executes the tools that the answer asks for, and goes on until nothing
    waits.  The agent object ([packages/agent-core/src/agent.ts]) owns the
    transcript that the loop extends and the messages that callers queue for
    it.  What the model sees of a session, and how a session that grew too
    long is summarised, is the harness's part
    ([packages/agent-core/src/harness/]): its context, its compaction, and the
    truncation of what tools print.  Callers are throttled by the authentication rate limiter
    ([src/gateway/auth-rate-limit.ts]), and pending items wait in capped queues
    ([src/utils/queue-helpers.ts], [src/shared/*.ts]).

    ** Files

    - Prelude (this file): record update, JavaScript numbers and strings,
      shared lemmas.  JsCollections: [Map] and [Set] in insertion order.
    - LaneQueue, CapacityGroups, QueueState, CommandQueue, TaskTimeout: the
      command queue.  Lanes and groups are objects in heaps; the queue asks the
      gate through the class of AdmissionGate, whose laws WorkAdmission
      discharges.
    - WorkAdmission: the gate, its roots, continuation scopes and fences.
    - NumberCoercion, Utf16: readers of numbers, clamps of timeouts, slices of
      strings of code units.
    - QueueHelpers: the overflow policy, draining, the collect prompt.
      BoundedQueues (Modules Serial, Buffer, Requests): three bounded owners of
      pending work.  KeyedQueues (Modules Lease, StoreWriter): order per key.
    - AuthRateLimit: failures, lockouts, the cap on clients, loopback delays.
    - TranscriptTree: rows, the scan, path selection and merging.
    - SessionRegistry: identities, admissions, hand-over tokens.
      SessionLifecycle: the concurrent protocol over the registry.
    - HeartbeatWake: requests, coalescing, batches and dispatch of heartbeat
      turns per target ([src/infra/heartbeat-wake*.ts]).
    - ToolPairing: which tool result belongs to which call
      ([packages/agent-core/src/harness/session/tool-result-pairing.ts]) and the
      repair of a transcript ([src/agents/session-transcript-repair.ts]).
    - JsStrings: trimmed and lowered strings, cutting and joining, bounded maps.
      SessionKeys: ids of agents and accounts and the grammar of session keys
      ([src/routing/session-key.ts], [src/sessions/session-key-utils.ts],
      [src/routing/account-id.ts]).  Routing: bindings, their index, the tiers
      and the caches of routes ([src/routing/resolve-route.ts]).
    - CronSchedule: instants, intervals and cron expressions
      ([src/cron/schedule.ts], [stagger.ts], [parse.ts]).  CronJobs: slots,
      backoff, maintenance and runnable jobs
      ([src/cron/service/jobs-scheduling.ts], [timer-runnable.ts],
      [auto-disable.ts]).
    - Effects: programs over a state that return, throw or run out of fuel, and
      their logic of preconditions.  AgentMessages: messages, events and
      operations of the agent loop.  ToolBatch: the execution of tool calls, one
      after the other or at once.  AgentLoop: the loop of turns
      ([packages/agent-core/src/agent-loop.ts], [turn-interruption.ts],
      [reasoning.ts]).
    - ToolBatchFacts and ParallelTools: what every function of ToolBatch adds to
      the trace.  AgentLoopFacts: the same for the loop.  LoopSteps: relations
      on states that each step keeps.  AgentProgress: a run whose world runs dry
      ends.  ToolResources: executions prepared and disposed of.  ScriptedWorld:
      a concrete world.  AgentRuns: the contracts.
    - Agent: the object that owns a transcript ([packages/agent-core/src/agent.ts]);
      it is a world of the loop.  AgentQueues: what became of every message of a
      caller.  AgentDelivery, AgentHands: what the loop holds and announces.
      AgentCalls, AgentLife: the same for calls, the transcript, and calls that
      end.  ScriptedOutside: a concrete outside.  AgentPromises: the contracts.
    - Truncate: tool output cut by lines and bytes
      ([harness/utils/truncate.ts]).  SessionContext: entries of a session and
      the messages that the model sees of them ([harness/session/session.ts]).
      Compaction: estimates of tokens, the cut, preparation and summary
      ([harness/compaction/compaction.ts], [utils.ts],
      [packages/normalization-core/src/cjk-chars.ts]).  CompactionFacts: lemmas on
      cuts and budgets.  CompactionPromises: the contracts.
    - Retry: backoff, waits, the supervisor and the runner of retries
      ([packages/retry/src/index.ts]).  RetryPromises: the contracts.
    - EventStream: events between a provider and its consumers
      ([packages/llm-core/src/utils/event-stream.ts]).  BranchSummary: what is
      summarised when a session leaves a branch
      ([harness/compaction/branch-summarization.ts]).
    - ToolCallGrammar, ToolCallPayload: tool calls that a model writes as text,
      scanned, read, and removed from what a user sees
      ([packages/tool-call-repair/src/grammar.ts], [payload.ts], [contracts.ts]).
      ToolCallFacts: positions and the ends of the scans.  ToolCallRepair: the
      contracts of the parser and of the removal.
    - ProtectionFastPath: code fences of a text that streams in
      ([packages/tool-call-repair/src/protection-fast-path.ts]).
      ProtectionFacts: the state of pieces and of the whole, and the answers.
    - ToolCallPromote: an answer that becomes the calls it writes ([promote.ts]).
      ToolCallPromises: what is promoted, and where its parts go.
    ** How the code is modelled

    Synchronous code is a function from state to state (and result), with the
    source's branches and early returns; a thrown error is a value of the
    result.  Objects compared by identity live in a heap and are named by
    references.  Time is an argument.  Asynchronous code is cut at its awaits:
    an event or a step runs the code up to the next one, and theorems range
    over every order of events.  A promise is its number; settling it appends
    to a list, so that settling it twice or never can be told.  Numbers are
    [jsnum] where [NaN] or an infinity can reach the code, and integers
    elsewhere.  Libraries and services the source only calls are parameters.

    Loops that are not structural take fuel: [drainLane] and the group pump
    one unit per queued entry, [pathLoop] one per row of the transcript,
    [runTasks] four per call, [runLoop] one per pass (two passes for every unit
    of what the provider and the user still have to say), and so on; the
    theorems prove that the fuel the model passes is enough, never
    that a run which happens to end is right.

    ** What the theorems show

    - Exclusion and progress: session admissions against mutations, leases and
      store writes per key, the fences of the gate, roots and their releases.
    - Conservation: no promise of the command queue and no item of a capped
      queue is lost or settled twice; every pending request settles once.
    - Budgets: lane widths, group budgets and reservations, the caps of the
      rate limiter and of the bounded queues.
    - Order: the lane queue refines a stable priority queue; drains start what
      the order demands.
    - Data: transcript paths are the finite walks of the tree and do not leave
      the history after a reset; slices keep surrogate pairs whole; integers
      read back as printed.
    - Errors: invalid group specifications and rejected configurations change
      nothing.
    - Heartbeats: one turn per target, four in all, a turn for all agents
      alone; requested work is kept until a turn reports it done; pending work
      always has a timer or a running turn behind it.
    - Transcripts for a provider: after a repair every call is followed by its
      result, nothing else is lost, and a second repair changes nothing.
    - Keys and routes: a session key parses back to the conversation it was
      built for, different conversations have different keys, ids are
      canonical; a route is the first binding by precedence, and the caches do
      not change it.
    - Automations: next runs lie ahead and previous ones behind, on the grid of
      an interval and after a backoff; the searches over time zone transitions
      end; a due slot survives maintenance, a broken schedule disables its job
      once.
    - Agent runs: every tool call is answered once and in order, and is said to
      have started exactly if its body did; a run returns the messages it
      announced, in turns that are opened before they end; content of the
      network marks the answers after it; an aborted run starts nothing more;
      every prepared execution is disposed of once; a run ends when the world
      runs dry.
    - Agents: a message that a caller steers or queues is delivered once, waits,
      or was withdrawn, whatever callers do while a run waits; calls end and leave
      an idle agent; the transcript grows by what is announced.
    - Sessions that are summarised: a message is summarised or kept, a call stays
      with its results, about as much is kept as was asked for, and the summary
      keeps its bound; cut tool output is as many complete lines as fit.
    - Retries: delays keep their bounds and honour a server's hint, a run ends in
      a success or in the failure made of its errors, and a supervisor has one
      retry pending.
    - Streams: events are delivered once and in order, and one result settles.
    - Calls written as text: the parser reads exactly the texts that are calls and
      white space, what is removed from a visible text is unprotected calls on
      lines of their own, a promoted answer has its calls where their texts stood,
      and the tracker of fences answers for the state of the whole text.
    ** Not modelled

    Logging, diagnostics and metrics; the texts of errors; the loading of the
    process-wide singletons; [AsyncLocalStorage] other than as an argument;
    the event loop other than as an order of events.  Of the command queue the
    read-only snapshots; of the store writers the test helpers.  Of the agent
    loop the updates that a tool sends while it runs, timestamps and usage, and
    what concurrent calls still do once one of them has made the run throw.
    Of the agent a reset while a run is active, the set of listeners, and a
    message object that is handed over twice.  Of compaction the texts of the
    prompts and the conversation written into them; of messages and entries
    their timestamps.  Of the repair of tool calls the normaliser of streams.
    The rest of the repository (servers, channels, agents, plugins, user
    interfaces, command line, scripts) is listed in the manifest with the
    reason. *)
From stdpp Require Export prelude strings list gmap.
From Stdlib Require QArith.Qround.

(** ** Functional record update

    [r <| field := v |>] and [r <| field ::= f |>].  A record opts in with one
    [Eta] instance that lists its fields; the [Setter] of a field is derived
    from it. *)
Class Eta (R : Type) := eta_expand : R → R.

Class Setter {R E : Type} (field : R → E) := update_field : (E → E) → R → R.
Arguments update_field {R E} field {_} _ _ /.

Ltac solve_setter :=
  lazymatch goal with
  | |- @Setter ?R ?E ?p =>
      let i := constr:(_ : Eta R) in
      let i := eval red in i in
      let f := fresh "f" in
      let r := fresh "r" in
      refine (λ (f : E → E) (r : R), _);
      let b := eval cbv beta in (i r) in
      match eval pattern (p r) in b with
      | ?k _ => let t := eval cbv beta in (k (f (p r))) in exact t
      end
  end.
#[export] Hint Extern 1 (Setter _) => solve_setter : typeclass_instances.

Declare Scope agentos_scope.
Delimit Scope agentos_scope with agentos.
Notation "r <| p := v |>" := (update_field p (λ _, v) r)
  (at level 1, left associativity, p at level 1, format "r <| p := v |>")
  : agentos_scope.
Notation "r <| p ::= f |>" := (update_field p f r)
  (at level 1, left associativity, p at level 1, format "r <| p ::= f |>")
  : agentos_scope.
Global Open Scope agentos_scope.

(** ** JavaScript numbers

    A double is a rational, an infinity or NaN.  Comparison, [Math.floor],
    [Math.max] and [Math.min] are exact on doubles, so the model keeps the
    argument of an option as [jsnum] and the result of [Math.floor] as
    [jsint].  Counters and millisecond instants that the program itself
    produces are integers far below 2^53 and are plain [Z]. *)
Inductive jsval (A : Type) : Type :=
| Fin (a : A)
| PosInf
| NegInf
| NaN.
Arguments Fin {A} a.
Arguments PosInf {A}.
Arguments NegInf {A}.
Arguments NaN {A}.

Abbreviation jsnum := (jsval QArith_base.Q).
Abbreviation jsint := (jsval Z).

Definition jsnum_of_Z (z : Z) : jsnum := Fin (QArith_base.inject_Z z).

(** [Math.floor] *)
Definition js_floor (x : jsnum) : jsint :=
  match x with
  | Fin q => Fin (Qround.Qfloor q)
  | PosInf => PosInf
  | NegInf => NegInf
  | NaN => NaN
  end.

(** [Math.max(n, x)] for an integer [n]: NaN is contagious. *)
Definition js_max (n : Z) (x : jsint) : jsint :=
  match x with
  | Fin z => Fin (n `max` z)%Z
  | PosInf => PosInf
  | NegInf => Fin n
  | NaN => NaN
  end.

(** [n < x]; every comparison with NaN is false. *)
Definition js_ltb (n : Z) (x : jsint) : bool :=
  match x with
  | Fin z => (n <? z)%Z
  | PosInf => true
  | NegInf | NaN => false
  end.

(** [n >= x]; not the negation of [n < x] when [x] is NaN. *)
Definition js_geb (n : Z) (x : jsint) : bool :=
  match x with
  | Fin z => (z <=? n)%Z
  | NegInf => true
  | PosInf | NaN => false
  end.

(** [x === n] *)
Definition js_eqb (x : jsint) (n : Z) : bool :=
  match x with
  | Fin z => (z =? n)%Z
  | _ => false
  end.

(** [x < y] and [x > y] on integral doubles. *)
Definition js_lt (x y : jsint) : bool :=
  match x, y with
  | NaN, _ | _, NaN => false
  | Fin a, Fin b => (a <? b)%Z
  | NegInf, NegInf => false
  | NegInf, _ => true
  | _, NegInf => false
  | PosInf, _ => false
  | Fin _, PosInf => true
  end.

(** [x + y] *)
Definition js_add (x y : jsint) : jsint :=
  match x, y with
  | NaN, _ | _, NaN => NaN
  | Fin a, Fin b => Fin (a + b)%Z
  | PosInf, NegInf | NegInf, PosInf => NaN
  | PosInf, _ | _, PosInf => PosInf
  | NegInf, _ | _, NegInf => NegInf
  end.

(** [x - n] for an integer [n]. *)
Definition js_sub (x : jsint) (n : Z) : jsint := js_add x (Fin (- n)%Z).

(** The integer of a finite value. *)
Definition fin_value (x : jsint) : Z :=
  match x with
  | Fin z => z
  | _ => 0%Z
  end.

Lemma js_ltb_geb n x : js_ltb n x = true → js_geb n x = false.
Proof. destruct x; simpl; try done. intros. apply Z.leb_gt. by apply Z.ltb_lt. Qed.

Lemma js_floor_of_Z z : js_floor (jsnum_of_Z z) = Fin z.
Proof. unfold js_floor, jsnum_of_Z. by rewrite Qround.Qfloor_Z. Qed.

(** ** Strings

    A JavaScript string is modelled by the string of its UTF-16 code units,
    restricted to code units below 256. *)

(** The white space [String.prototype.trim] removes, below code unit 256. *)
Definition is_js_space (c : Ascii.ascii) : bool :=
  let n := Ascii.nat_of_ascii c in
  ((9 <=? n) && (n <=? 13) || (n =? 32) || (n =? 160))%nat.

Fixpoint trim_start (s : string) : string :=
  match s with
  | String c r => if is_js_space c then trim_start r else s
  | EmptyString => EmptyString
  end.

Fixpoint trim_end (s : string) : string :=
  match s with
  | String c r =>
      match trim_end r with
      | EmptyString => if is_js_space c then EmptyString else String c EmptyString
      | r' => String c r'
      end
  | EmptyString => EmptyString
  end.

Definition js_trim (s : string) : string := trim_end (trim_start s).

(** [a || b] on strings: only the empty string is falsy. *)
Definition str_or (a b : string) : string :=
  match a with
  | EmptyString => b
  | _ => a
  end.

(** [s.startsWith(p)] *)
Definition starts_with (p s : string) : bool := String.prefix p s.

(** [left < right] on strings: by code unit, then by length. *)
Definition js_string_ltb (a b : string) : bool := String.ltb a b.

Lemma ascii_compare_Eq c d : Ascii.compare c d = Eq → c = d.
Proof.
  unfold Ascii.compare. intros H%N.compare_eq.
  rewrite <-(Ascii.ascii_N_embedding c), <-(Ascii.ascii_N_embedding d). by rewrite H.
Qed.

(** The order of [sort()] on strings. *)
Definition string_le (a b : string) : Prop := js_string_ltb b a = false.

#[export] Instance string_le_dec : RelDecision string_le.
Proof. intros a b. unfold string_le. solve_decision. Defined.

Lemma js_string_ltb_cons c a d b :
  js_string_ltb (String c a) (String d b) = true ↔
    Ascii.compare c d = Lt ∨ c = d ∧ js_string_ltb a b = true.
Proof.
  unfold js_string_ltb, String.ltb. simpl. destruct (Ascii.compare c d) eqn:E.
  - apply ascii_compare_Eq in E as ->. destruct (String.compare a b); naive_solver.
  - naive_solver.
  - split; [done|]. intros [|[-> _]]; [done|]. unfold Ascii.compare in E.
    by rewrite N.compare_refl in E.
Qed.

Lemma js_string_ltb_irrefl a : js_string_ltb a a = false.
Proof.
  induction a as [|c a IH]; [done|]. apply not_true_iff_false. rewrite js_string_ltb_cons, IH.
  unfold Ascii.compare. rewrite N.compare_refl. naive_solver.
Qed.

Lemma js_string_ltb_trans a b c :
  js_string_ltb a b = true → js_string_ltb b c = true → js_string_ltb a c = true.
Proof.
  revert b c. induction a as [|x a IH]; intros [|y b] [|z c]; try done.
  rewrite !js_string_ltb_cons. unfold Ascii.compare. rewrite !N.compare_lt_iff.
  intros [H1|[-> H1]] [H2|[-> H2]]; [left; lia|by left|by left|right]. split; [done|].
  by eapply IH.
Qed.

Lemma js_string_ltb_total a b :
  js_string_ltb a b = true ∨ a = b ∨ js_string_ltb b a = true.
Proof.
  revert b. induction a as [|x a IH]; intros [|y b]; auto.
  rewrite !js_string_ltb_cons. unfold Ascii.compare. rewrite !N.compare_lt_iff.
  destruct (N.lt_trichotomy (Ascii.N_of_ascii x) (Ascii.N_of_ascii y)) as [H|[H|H]]; auto.
  assert (x = y) as ->
    by (rewrite <-(Ascii.ascii_N_embedding x), <-(Ascii.ascii_N_embedding y); by rewrite H).
  destruct (IH b) as [?|[->|?]]; auto.
Qed.

Lemma str_or_nonempty a b : b ≠ EmptyString → str_or a b ≠ EmptyString.
Proof. by destruct a. Qed.

Lemma trim_end_idemp s : trim_end (trim_end s) = trim_end s.
Proof.
  induction s as [|c r IH]; [done|]; simpl.
  destruct (trim_end r) as [|c' r'] eqn:E.
  - destruct (is_js_space c) eqn:Hc; simpl; [done|by rewrite Hc].
  - simpl in *. by rewrite IH.
Qed.

Lemma trim_start_idemp s : trim_start (trim_start s) = trim_start s.
Proof.
  induction s as [|c r IH]; [done|]; simpl.
  destruct (is_js_space c) eqn:Hc; [done|]. simpl. by rewrite Hc.
Qed.

Lemma trim_start_trim_end s : trim_start s = s → trim_start (trim_end s) = trim_end s.
Proof.
  destruct s as [|c r]; [done|]; simpl. intros H.
  destruct (is_js_space c) eqn:Hc.
  - exfalso. assert (Hlen : ∀ t, (String.length (trim_start t) ≤ String.length t)%nat).
    { induction t as [|c' t IH]; simpl; [lia|]. case_match; simpl; lia. }
    specialize (Hlen r). rewrite H in Hlen. simpl in Hlen. lia.
  - destruct (trim_end r); simpl; by rewrite Hc.
Qed.

Lemma js_trim_idemp s : js_trim (js_trim s) = js_trim s.
Proof.
  unfold js_trim. rewrite (trim_start_trim_end (trim_start s)).
  - apply trim_end_idemp.
  - apply trim_start_idemp.
Qed.

(** ** Lists *)

(** The sum of an integer measure over a list. *)
Definition sumZ {A} (f : A → Z) (l : list A) : Z := foldr (λ a n, (f a + n)%Z) 0%Z l.

Section sumZ.
Context {A : Type}.
Implicit Types (f g : A → Z) (l : list A).

Lemma sumZ_nil f : sumZ f [] = 0%Z.
Proof. done. Qed.

Lemma sumZ_cons f a l : sumZ f (a :: l) = (f a + sumZ f l)%Z.
Proof. done. Qed.

Lemma sumZ_app f l1 l2 : sumZ f (l1 ++ l2) = (sumZ f l1 + sumZ f l2)%Z.
Proof. induction l1; simpl; lia. Qed.

Lemma sumZ_ext f g l : (∀ a, a ∈ l → f a = g a) → sumZ f l = sumZ g l.
Proof.
  induction l as [|a l IH]; simpl; [done|]. intros H.
  rewrite (H a), IH; [done|set_solver..].
Qed.

Lemma sumZ_le f g l : (∀ a, a ∈ l → (f a ≤ g a)%Z) → (sumZ f l ≤ sumZ g l)%Z.
Proof.
  induction l as [|a l IH]; simpl; [done|]. intros H.
  pose proof (H a ltac:(set_solver)). specialize (IH ltac:(set_solver)). lia.
Qed.

Lemma sumZ_nonneg f l : (∀ a, a ∈ l → (0 ≤ f a)%Z) → (0 ≤ sumZ f l)%Z.
Proof.
  induction l as [|a l IH]; simpl; [done|]. intros H.
  pose proof (H a ltac:(set_solver)). specialize (IH ltac:(set_solver)). lia.
Qed.

Lemma sumZ_add f g l : sumZ (λ a, f a + g a)%Z l = (sumZ f l + sumZ g l)%Z.
Proof. induction l; simpl; lia. Qed.

Lemma sumZ_zero l : sumZ (λ _ : A, 0%Z) l = 0%Z.
Proof. by induction l. Qed.

Lemma sumZ_Permutation f l1 l2 : l1 ≡ₚ l2 → sumZ f l1 = sumZ f l2.
Proof. induction 1; simpl; lia. Qed.

(** Two measures that differ at one element only. *)
Lemma sumZ_update `{EqDecision A} f g a l :
  NoDup l → a ∈ l → (∀ b, b ∈ l → b ≠ a → g b = f b) →
  sumZ g l = (sumZ f l + (g a - f a))%Z.
Proof.
  induction l as [|b l IH]; [set_solver|].
  intros [Hb Hnd]%NoDup_cons Ha Hne. rewrite !sumZ_cons.
  destruct (decide (b = a)) as [->|Hba].
  - rewrite (sumZ_ext g f l); [lia|]. intros c Hc. apply Hne; set_solver.
  - rewrite IH; [|done|set_solver|set_solver]. rewrite (Hne b); [lia|set_solver|done].
Qed.

End sumZ.

(** A filter that removes nothing. *)
Lemma filter_all {A} (P : A → Prop) `{∀ x, Decision (P x)} l :
  Forall P l → filter P l = l.
Proof.
  induction 1 as [|a l Ha _ IH]; [done|]. by rewrite filter_cons_True, IH.
Qed.

Lemma NoDup_fmap_filter {A B} (f : A → B) (P : A → Prop) `{∀ x, Decision (P x)} l :
  NoDup (f <$> l) → NoDup (f <$> filter P l).
Proof.
  induction l as [|a l IH]; [done|]. rewrite fmap_cons. intros [Ha Hl]%NoDup_cons.
  rewrite filter_cons. case_decide; [|auto]. rewrite fmap_cons. apply NoDup_cons.
  split; [|auto]. intros (b & E & Hb)%list_elem_of_fmap. apply Ha. rewrite E.
  apply list_elem_of_filter in Hb as [_ Hb]. by apply list_elem_of_fmap_2.
Qed.

(** [xs.find(p)] *)
Definition list_first {A} (p : A → bool) (l : list A) : option A := List.find p l.

(** ** Tactics and hints *)

Create HintDb agentos.
#[export] Hint Rewrite @sumZ_nil @sumZ_cons @sumZ_app : agentos.

(** Split every conjunction of the hypotheses and of the goal, then try the
    component hints. *)
Ltac crush := repeat split; simpl in *; eauto with agentos; try lia; try set_solver.
