(* ===== verification/JsCollections.v ===== *)
(** * JavaScript [Map] and [Set]

    Both iterate in insertion order; assigning to a key that is present keeps
    its position.  A [Map] is the list of its entries and a [Set] the list of
    its members, oldest first, so the iteration order that the program relies
    on is the order of the list. *)
From S2P Require Import Prelude.

(** ** [Map] *)
Module JsMap.
Section map.
Context {K V : Type} `{EqDecision K}.
Implicit Types (m : list (K * V)) (k : K) (v : V).

(** [m.get(k)] *)
Fixpoint get k m : option V :=
  match m with
  | [] => None
  | (k', v) :: m' => if decide (k = k') then Some v else get k m'
  end.

(** [m.has(k)] *)
Definition has k m : bool := bool_decide (is_Some (get k m)).

(** [m.set(k, v)] *)
Fixpoint set k v m : list (K * V) :=
  match m with
  | [] => [(k, v)]
  | (k', v') :: m' =>
      if decide (k = k') then (k', v) :: m' else (k', v') :: set k v m'
  end.

(** [m.delete(k)] *)
Definition delete k m : list (K * V) := filter (λ p, p.1 ≠ k) m.

(** [m.size], [m.keys()], [m.values()] *)
Definition size m : nat := length m.
Definition keys m : list K := m.*1.
Definition values m : list V := m.*2.

Lemma get_set_eq k v m : get k (set k v m) = Some v.
Proof.
  induction m as [|[k' v'] m IH]; simpl.
  - by rewrite decide_True.
  - destruct (decide (k = k')); simpl; [by rewrite decide_True|by rewrite decide_False].
Qed.

Lemma get_set_ne k k' v m : k' ≠ k → get k' (set k v m) = get k' m.
Proof.
  intros Hne. induction m as [|[k'' v''] m IH]; simpl.
  - by rewrite decide_False.
  - destruct (decide (k = k'')) as [->|]; simpl.
    + by rewrite !decide_False.
    + by rewrite IH.
Qed.

Lemma get_set k k' v m :
  get k' (set k v m) = if decide (k' = k) then Some v else get k' m.
Proof. case_decide; subst; [apply get_set_eq|by apply get_set_ne]. Qed.

Lemma get_delete_eq k m : get k (delete k m) = None.
Proof.
  unfold delete. induction m as [|[k' v] m IH]; [done|].
  rewrite filter_cons; simpl. case_decide; simpl; [|done].
  by rewrite decide_False.
Qed.

Lemma get_delete_ne k k' m : k' ≠ k → get k' (delete k m) = get k' m.
Proof.
  intros Hne. unfold delete. induction m as [|[k'' v] m IH]; [done|].
  rewrite filter_cons; simpl. case_decide as Hk; simpl.
  - by rewrite IH.
  - rewrite decide_False; [done|]. congruence.
Qed.

Lemma get_delete k k' m :
  get k' (delete k m) = if decide (k' = k) then None else get k' m.
Proof. case_decide; subst; [apply get_delete_eq|by apply get_delete_ne]. Qed.

Lemma get_elem k v m : get k m = Some v → (k, v) ∈ m.
Proof.
  induction m as [|[k' v'] m IH]; simpl; [done|].
  case_decide; subst; [intros [= ->]; set_solver|set_solver].
Qed.

Lemma elem_get k v m : NoDup (keys m) → (k, v) ∈ m → get k m = Some v.
Proof.
  induction m as [|[k' v'] m IH]; simpl; [set_solver|].
  intros [Hk Hnd]%NoDup_cons [[= -> ->]|Hin]%elem_of_cons.
  - by rewrite decide_True.
  - rewrite decide_False; [by apply IH|]. intros ->. apply Hk.
    apply list_elem_of_fmap. by exists (k', v).
Qed.

Lemma get_None_keys k m : get k m = None ↔ k ∉ keys m.
Proof.
  induction m as [|[k' v'] m IH]; simpl; [set_solver|].
  case_decide; subst; set_solver.
Qed.

Lemma get_Some_keys k m : is_Some (get k m) ↔ k ∈ keys m.
Proof.
  rewrite <-not_eq_None_Some, get_None_keys. split; [|auto].
  intros Hk. by apply dec_stable.
Qed.

Lemma has_keys k m : has k m = bool_decide (k ∈ keys m).
Proof. unfold has. apply bool_decide_ext, get_Some_keys. Qed.

Lemma keys_set k v m :
  keys (set k v m) = if decide (k ∈ keys m) then keys m else keys m ++ [k].
Proof.
  induction m as [|[k' v'] m IH]; [by simpl|]. simpl.
  destruct (decide (k = k')) as [->|Hne].
  - simpl. rewrite decide_True; [done|set_solver].
  - simpl. unfold keys in *. rewrite IH. repeat case_decide; set_solver.
Qed.

Lemma keys_delete k m : keys (delete k m) = filter (.≠ k) (keys m).
Proof.
  unfold keys, delete. induction m as [|[k' v] m IH]; [done|].
  destruct (decide (k' = k)) as [->|Hne].
  - rewrite filter_cons_False, fmap_cons, filter_cons_False by auto. apply IH.
  - rewrite filter_cons_True, !fmap_cons, filter_cons_True by done. by f_equal.
Qed.

Lemma NoDup_keys_set k v m : NoDup (keys m) → NoDup (keys (set k v m)).
Proof.
  intros. rewrite keys_set. case_decide; [done|].
  apply NoDup_app. split; [done|]. split; [set_solver|]. apply NoDup_singleton.
Qed.

Lemma NoDup_keys_delete k m : NoDup (keys m) → NoDup (keys (delete k m)).
Proof. intros. rewrite keys_delete. by apply NoDup_filter. Qed.

Lemma elem_keys_set k k' v m : k' ∈ keys (set k v m) ↔ k' = k ∨ k' ∈ keys m.
Proof. rewrite keys_set. case_decide; set_solver. Qed.

Lemma size_set k v m :
  size (set k v m) = if decide (k ∈ keys m) then size m else S (size m).
Proof.
  unfold size. rewrite <-!(length_fmap fst). fold (keys (set k v m)) (keys m).
  rewrite keys_set. case_decide; [done|]. rewrite length_app; simpl; lia.
Qed.

Lemma size_delete_le k m : (size (delete k m) ≤ size m)%nat.
Proof. apply length_filter. Qed.

Lemma delete_None k m : get k m = None → delete k m = m.
Proof.
  rewrite get_None_keys. unfold delete. intros Hk.
  induction m as [|[k' v] m IH]; [done|]. simpl in Hk.
  rewrite filter_cons_True; [|set_solver]. rewrite IH; set_solver.
Qed.

Lemma set_fresh k v m : get k m = None → set k v m = m ++ [(k, v)].
Proof.
  induction m as [|[k' v'] m IH]; simpl; [done|].
  case_decide; [done|]. intros Hg. by rewrite IH.
Qed.

Lemma delete_Permutation k v m :
  NoDup (keys m) → get k m = Some v → m ≡ₚ (k, v) :: delete k m.
Proof.
  induction m as [|[k' v'] m IH]; [done|].
  change (keys ((k', v') :: m)) with (k' :: keys m). intros [Hk Hnd]%NoDup_cons. cbn [get].
  destruct (decide (k = k')) as [<-|Hne].
  - intros [= ->]. unfold delete. rewrite filter_cons_False by auto.
    fold (delete k m). rewrite delete_None; [done|]. by apply get_None_keys.
  - intros Hg. unfold delete in *. rewrite filter_cons_True by (simpl; auto).
    rewrite IH at 1 by done. apply Permutation_swap.
Qed.

Lemma values_delete k v m :
  NoDup (keys m) → get k m = Some v → values m ≡ₚ v :: values (delete k m).
Proof.
  intros Hnd Hg. unfold values. by rewrite (delete_Permutation k v m Hnd Hg) at 1.
Qed.

End map.
End JsMap.

#[export] Hint Resolve JsMap.NoDup_keys_set JsMap.NoDup_keys_delete : agentos.
#[export] Hint Rewrite @JsMap.get_set_eq @JsMap.get_delete_eq : agentos.

(** ** [Set] *)
Module JsSet.
Section set.
Context {A : Type} `{EqDecision A}.
Implicit Types (s : list A) (a b : A).

(** [s.add(a)], [s.delete(a)], [s.has(a)], [s.size] *)
Definition add a s : list A := if decide (a ∈ s) then s else s ++ [a].
Definition delete a s : list A := filter (.≠ a) s.
Definition has a s : bool := bool_decide (a ∈ s).
Definition size s : Z := Z.of_nat (length s).

(** [new Set(xs)] *)
Definition of_list (l : list A) : list A := foldl (λ s a, add a s) [] l.

Lemma elem_of_add a b s : b ∈ add a s ↔ b = a ∨ b ∈ s.
Proof. unfold add. case_decide; set_solver. Qed.

Lemma elem_of_delete a b s : b ∈ delete a s ↔ b ≠ a ∧ b ∈ s.
Proof. unfold delete. rewrite list_elem_of_filter. done. Qed.

Lemma NoDup_add a s : NoDup s → NoDup (add a s).
Proof.
  unfold add. case_decide; [done|]. intros. apply NoDup_app.
  split; [done|]. split; [set_solver|]. apply NoDup_singleton.
Qed.

Lemma NoDup_delete a s : NoDup s → NoDup (delete a s).
Proof. apply NoDup_filter. Qed.

Lemma size_add_fresh a s : a ∉ s → size (add a s) = (size s + 1)%Z.
Proof.
  intros. unfold size, add. rewrite decide_False by done.
  rewrite length_app; simpl; lia.
Qed.

Lemma size_nonneg s : (0 ≤ size s)%Z.
Proof. unfold size. lia. Qed.

Lemma size_delete_elem a s : NoDup s → a ∈ s → size (delete a s) = (size s - 1)%Z.
Proof.
  unfold size, delete. induction s as [|b s IH]; [set_solver|].
  intros [Hb Hnd]%NoDup_cons Ha. rewrite filter_cons.
  destruct (decide (b = a)) as [->|Hne].
  - rewrite decide_False by auto. rewrite (filter_all _ s); simpl; [lia|].
    apply Forall_forall. set_solver.
  - rewrite decide_True by done. simpl. rewrite Nat2Z.inj_succ.
    specialize (IH Hnd ltac:(set_solver)). lia.
Qed.

Lemma delete_notin a s : a ∉ s → delete a s = s.
Proof. intros. apply filter_all, Forall_forall. set_solver. Qed.

Lemma elem_of_foldl_add l s b : b ∈ foldl (λ s a, add a s) s l ↔ b ∈ s ∨ b ∈ l.
Proof.
  revert s. induction l as [|a l IH]; intros s; simpl; [set_solver|].
  rewrite IH, elem_of_add. set_solver.
Qed.

Lemma elem_of_of_list l b : b ∈ of_list l ↔ b ∈ l.
Proof. unfold of_list. rewrite elem_of_foldl_add. set_solver. Qed.

Lemma NoDup_foldl_add l s : NoDup s → NoDup (foldl (λ s a, add a s) s l).
Proof. revert s. induction l; simpl; eauto using NoDup_add. Qed.

Lemma NoDup_of_list l : NoDup (of_list l).
Proof. apply NoDup_foldl_add, NoDup_nil_2. Qed.

End set.
End JsSet.

#[export] Hint Resolve JsSet.NoDup_add JsSet.NoDup_delete JsSet.NoDup_of_list : agentos.
