(* ===== verification/JsStrings.v ===== *)
(** * Strings of the routing layer

    The operations of JavaScript strings that the keys of sessions and routes
    are made with - case, slices, searches, splitting - with their lemmas, the
    coercions of [packages/normalization-core/src/string-coerce.ts], and the
    pruning of a [Map] ([src/infra/map-size.ts]).  Positions count code units;
    patterns that ignore case are compared with the lowered string, which is
    the same for patterns of ASCII letters. *)
From Stdlib Require QArith.QArith.
From Stdlib Require Import Ascii.
From S2P Require Import Prelude JsCollections.

(** ** Operations *)

(** [toLowerCase] below code unit 256. *)
Definition js_lower_char (c : Ascii.ascii) : Ascii.ascii :=
  let n := Ascii.nat_of_ascii c in
  if ((65 <=? n) && (n <=? 90) || (192 <=? n) && (n <=? 222) && negb (n =? 215))%nat
  then Ascii.ascii_of_nat (n + 32) else c.

Fixpoint js_lower (s : string) : string :=
  match s with
  | EmptyString => EmptyString
  | String c r => String (js_lower_char c) (js_lower r)
  end.

(** [slice(n)] and [slice(0, n)]. *)
Fixpoint str_drop (n : nat) (s : string) : string :=
  match n, s with
  | O, _ => s
  | S n, String _ r => str_drop n r
  | S _, EmptyString => EmptyString
  end.

Fixpoint str_take (n : nat) (s : string) : string :=
  match n, s with
  | O, _ => EmptyString
  | S n, String c r => String c (str_take n r)
  | S _, EmptyString => EmptyString
  end.

(** [slice(i, j)]. *)
Definition str_slice (i j : nat) (s : string) : string := str_take (j - i) (str_drop i s).

(** [indexOf] and [lastIndexOf]; [None] is [-1]. *)
Fixpoint index_of (p s : string) : option nat :=
  if starts_with p s then Some 0%nat
  else match s with
       | EmptyString => None
       | String _ r => S <$> index_of p r
       end.

Fixpoint last_index_of (p s : string) : option nat :=
  match s with
  | EmptyString => if starts_with p s then Some 0%nat else None
  | String _ r =>
      match last_index_of p r with
      | Some i => Some (S i)
      | None => if starts_with p s then Some 0%nat else None
      end
  end.

Definition includes (p s : string) : bool := bool_decide (is_Some (index_of p s)).

(** [split] at a character, which never yields the empty array, and [join]. *)
Fixpoint split_on (sep : Ascii.ascii) (s : string) : list string :=
  match s with
  | EmptyString => [EmptyString]
  | String c r =>
      if decide (c = sep) then EmptyString :: split_on sep r
      else match split_on sep r with
           | h :: t => String c h :: t
           | [] => [String c EmptyString]
           end
  end.

Fixpoint join (sep : string) (l : list string) : string :=
  match l with
  | [] => EmptyString
  | [s] => s
  | s :: l => s +:+ sep +:+ join sep l
  end.

Definition str_has (c : Ascii.ascii) (s : string) : bool := bool_decide (c ∈ String.list_ascii_of_string s).

(** ** Coercions *)

Definition normalizeOptionalString (value : option string) : option string :=
  match value with
  | None => None
  | Some v => match js_trim v with EmptyString => None | trimmed => Some trimmed end
  end.

Definition normalizeOptionalLowercaseString (value : option string) : option string :=
  js_lower <$> normalizeOptionalString value.

Definition normalizeLowercaseStringOrEmpty (value : option string) : string :=
  default EmptyString (normalizeOptionalLowercaseString value).

(** [(value ?? "").trim()]. *)
Definition trimmedOrEmpty (value : option string) : string := js_trim (default EmptyString value).

(** ** Bounded maps *)

Definition pruneMapToMaxSize {K V} (m : list (K * V)) (maxSize : jsnum) : list (K * V) :=
  match maxSize with
  | NaN | PosInf => m
  | _ =>
      let limit := fin_value (js_max 0 (js_floor maxSize)) in
      if (limit <=? 0)%Z then [] else drop (length m - Z.to_nat limit) m
  end.

(** ** Lemmas *)

Lemma normalizeOptional_trimmed v n : normalizeOptionalString v = Some n → js_trim n = n ∧ n ≠ EmptyString.
Proof.
  destruct v as [v|]; cbn; [|done]. pose proof (js_trim_idemp v) as Hi. destruct (js_trim v); [done|].
  by intros [= <-].
Qed.

Lemma normalizeOptional_fix n : js_trim n = n → n ≠ EmptyString → normalizeOptionalString (Some n) = Some n.
Proof. intros Ht Hn. cbn. rewrite Ht. by destruct n. Qed.

(** *** Appending and cutting *)

#[local] Arguments String.append : simpl nomatch.
#[local] Arguments js_trim : simpl never.

Lemma str_app_assoc a b c : (a +:+ b) +:+ c = a +:+ (b +:+ c).
Proof. induction a as [|x a IH]; [done|]. cbn. by rewrite IH. Qed.

Lemma str_app_nil a : a +:+ EmptyString = a.
Proof. induction a as [|x a IH]; [done|]. cbn. by rewrite IH. Qed.

Lemma str_length_app a b : String.length (a +:+ b) = (String.length a + String.length b)%nat.
Proof. induction a as [|x a IH]; [done|]. cbn. by rewrite IH. Qed.

Lemma str_drop_app a b : str_drop (String.length a) (a +:+ b) = b.
Proof. by induction a. Qed.

Lemma str_take_app a b : str_take (String.length a) (a +:+ b) = a.
Proof. induction a as [|x a IH]; [done|]. cbn. by rewrite IH. Qed.

Lemma starts_with_cons x y a b :
  starts_with (String x a) (String y b) = if decide (x = y) then starts_with a b else false.
Proof. unfold starts_with. cbn. case_decide as E; destruct (ascii_dec x y); congruence. Qed.

Lemma starts_with_app a b : starts_with a (a +:+ b) = true.
Proof.
  induction a as [|x a IH]; [by destruct b|]. change (String x a +:+ b) with (String x (a +:+ b)).
  by rewrite starts_with_cons, decide_True.
Qed.

Lemma str_app_inj_r a b c : a +:+ b = a +:+ c → b = c.
Proof. intros H. apply (f_equal (str_drop (String.length a))) in H. by rewrite !str_drop_app in H. Qed.

Lemma str_has_app c a b : str_has c (a +:+ b) = str_has c a || str_has c b.
Proof.
  unfold str_has. rewrite <-bool_decide_or. apply bool_decide_ext. rewrite <-elem_of_app. f_equiv.
  induction a as [|x a IH]; [done|]. cbn. by rewrite IH.
Qed.

Lemma str_has_cons c x a : str_has c (String x a) = bool_decide (c = x) || str_has c a.
Proof. unfold str_has. cbn. rewrite <-bool_decide_or. apply bool_decide_ext. by rewrite elem_of_cons. Qed.

(** Two strings cut at their first [c]. *)
Lemma str_cut_unique c a b x y :
  str_has c a = false → str_has c b = false → a +:+ String c x = b +:+ String c y → a = b ∧ x = y.
Proof.
  revert b. induction a as [|k a IH]; intros [|l b] Ha Hb H; cbn in H.
  - by injection H as ->.
  - injection H as -> H. rewrite str_has_cons, bool_decide_true in Hb by done. done.
  - injection H as <- H. rewrite str_has_cons, bool_decide_true in Ha by done. done.
  - injection H as -> H. rewrite str_has_cons in Ha, Hb. apply orb_false_iff in Ha as [_ Ha], Hb as [_ Hb].
    by destruct (IH b Ha Hb H) as [-> ->].
Qed.

(** *** Searching *)

Lemma index_of_char c a b :
  str_has c a = false → index_of (String c EmptyString) (a +:+ String c b) = Some (String.length a).
Proof.
  induction a as [|x a IH]; intros H; cbn [index_of String.append].
  - rewrite starts_with_cons, decide_True by done. by destruct b.
  - rewrite str_has_cons in H. apply orb_false_iff in H as [Hx%bool_decide_eq_false H].
    rewrite starts_with_cons, decide_False by done. by rewrite IH.
Qed.

Lemma split_on_cut c a b : str_has c a = false → split_on c (a +:+ String c b) = a :: split_on c b.
Proof.
  induction a as [|x a IH]; intros H; cbn [split_on String.append]; [by rewrite decide_True|].
  rewrite str_has_cons in H. apply orb_false_iff in H as [Hx%bool_decide_eq_false H].
  rewrite decide_False by congruence. by rewrite IH.
Qed.

Lemma split_on_cons c s : ∃ h t, split_on c s = h :: t.
Proof.
  destruct s as [|x s]; [by exists EmptyString, []|]. cbn. destruct (decide _); [by eexists _, _|].
  destruct (split_on c s); by eexists _, _.
Qed.

Lemma join_split c s : join (String c EmptyString) (split_on c s) = s.
Proof.
  induction s as [|x s IH]; [done|]. cbn [split_on]. destruct (split_on_cons c s) as (h & t & E). rewrite E in *.
  case_decide as Hx.
  - subst x. change (join ?p (EmptyString :: h :: t)) with (EmptyString +:+ p +:+ join p (h :: t)). by rewrite IH.
  - destruct t as [|k t]; cbn in *; by rewrite IH.
Qed.

(** The head of a split is what stands before the first separator. *)
Lemma split_on_head c s : ∃ h t, split_on c s = h :: t ∧ str_has c h = false ∧ starts_with h s = true.
Proof.
  induction s as [|x s IH]; [by exists EmptyString, []|]. cbn [split_on]. case_decide as Hx.
  - by exists EmptyString, (split_on c s).
  - destruct IH as (h & t & E & Hh & Hs). rewrite E. exists (String x h), t. split; [done|]. rewrite str_has_cons, Hh.
    rewrite bool_decide_false by congruence. split; [done|].
    by rewrite starts_with_cons, decide_True.
Qed.

Lemma last_index_of_cons p x r :
  last_index_of p (String x r) =
  match last_index_of p r with
  | Some i => Some (S i)
  | None => if starts_with p (String x r) then Some 0%nat else None
  end.
Proof. done. Qed.

(** The last marker of [base ++ p ++ t] is the one in the middle, where none
    starts behind its first character. *)
Lemma last_index_of_middle p c base t :
  last_index_of (String c p) (p +:+ t) = None →
  last_index_of (String c p) (base +:+ String c p +:+ t) = Some (String.length base).
Proof.
  intros H. induction base as [|x base IH].
  - change (EmptyString +:+ String c p +:+ t) with (String c (p +:+ t)). rewrite last_index_of_cons, H.
    change (String c (p +:+ t)) with (String c p +:+ t). by rewrite starts_with_app.
  - change (String x base +:+ String c p +:+ t) with (String x (base +:+ String c p +:+ t)).
    by rewrite last_index_of_cons, IH.
Qed.

(** *** Case and white space *)

Lemma js_lower_char_idemp c : js_lower_char (js_lower_char c) = js_lower_char c.
Proof. by destruct c as [[] [] [] [] [] [] [] []]. Qed.

Lemma is_js_space_lower c : is_js_space (js_lower_char c) = is_js_space c.
Proof. by destruct c as [[] [] [] [] [] [] [] []]. Qed.

Lemma js_lower_idemp s : js_lower (js_lower s) = js_lower s.
Proof. induction s as [|c s IH]; [done|]. cbn. by rewrite js_lower_char_idemp, IH. Qed.

Lemma js_lower_app a b : js_lower (a +:+ b) = js_lower a +:+ js_lower b.
Proof. induction a as [|c a IH]; [done|]. cbn. by rewrite IH. Qed.

Lemma js_lower_length s : String.length (js_lower s) = String.length s.
Proof. induction s as [|c s IH]; [done|]. cbn. by rewrite IH. Qed.

Lemma js_lower_nil s : js_lower s = EmptyString ↔ s = EmptyString.
Proof. by destruct s. Qed.

Lemma trim_start_lower s : trim_start (js_lower s) = js_lower (trim_start s).
Proof. induction s as [|c s IH]; [done|]. cbn. rewrite is_js_space_lower. by destruct (is_js_space c). Qed.

Lemma trim_end_lower s : trim_end (js_lower s) = js_lower (trim_end s).
Proof.
  induction s as [|c s IH]; [done|]. cbn. rewrite IH, is_js_space_lower.
  destruct (trim_end s); cbn; [|done]. by destruct (is_js_space c).
Qed.

Lemma js_trim_lower s : js_trim (js_lower s) = js_lower (js_trim s).
Proof. unfold js_trim. by rewrite trim_start_lower, trim_end_lower. Qed.

(** A character that only itself is lowered to. *)
Lemma str_has_lower c s : (∀ x, js_lower_char x = c ↔ x = c) → str_has c (js_lower s) = str_has c s.
Proof.
  intros Hc. induction s as [|x s IH]; [done|]. cbn [js_lower]. rewrite !str_has_cons, IH. f_equal.
  apply bool_decide_ext. split; [intros ->; symmetry; by apply Hc|intros ->; symmetry; by apply Hc].
Qed.

(** The words that normalisations return: trimmed and lowered. *)
Definition lowered (s : string) : Prop := js_trim s = s ∧ js_lower s = s.

Lemma normalizeLower_spec v : normalizeLowercaseStringOrEmpty v = js_lower (trimmedOrEmpty v).
Proof.
  unfold normalizeLowercaseStringOrEmpty, normalizeOptionalLowercaseString, normalizeOptionalString, trimmedOrEmpty.
  destruct v as [v|]; [|done]. change (default EmptyString (Some v)) with v. by destruct (js_trim v).
Qed.

Lemma normalizeLower_lowered v : lowered (normalizeLowercaseStringOrEmpty v).
Proof.
  rewrite normalizeLower_spec. unfold trimmedOrEmpty. split; [by rewrite js_trim_lower, js_trim_idemp|apply js_lower_idemp].
Qed.

Lemma normalizeLower_fix s : lowered s → normalizeLowercaseStringOrEmpty (Some s) = s.
Proof. intros [Ht Hl]. rewrite normalizeLower_spec. unfold trimmedOrEmpty. cbn. by rewrite Ht. Qed.

Lemma trim_end_app a b : trim_end b ≠ EmptyString → trim_end (a +:+ b) = a +:+ trim_end b.
Proof.
  intros Hb. induction a as [|c a IH]; [done|]. cbn. rewrite IH. destruct (a +:+ trim_end b) eqn:E; [|done].
  destruct a; [cbn in E; congruence|done].
Qed.

Lemma trimmed_end b : js_trim b = b → trim_end b = b.
Proof. intros H. transitivity (trim_end (js_trim b)); [by rewrite H|]. unfold js_trim. by rewrite trim_end_idemp. Qed.

(** A string that starts with no white space and ends in a trimmed part. *)
Lemma js_trim_app c a b :
  is_js_space c = false → js_trim b = b → b ≠ EmptyString → js_trim (String c a +:+ b) = String c a +:+ b.
Proof.
  intros Hc Hb Hn. unfold js_trim. cbn [String.append trim_start]. rewrite Hc.
  change (String c (a +:+ b)) with (String c a +:+ b). rewrite trim_end_app; rewrite trimmed_end by done; done.
Qed.

(** *** Characters *)

Fixpoint str_all (f : ascii → bool) (s : string) : bool :=
  match s with
  | EmptyString => true
  | String c r => f c && str_all f r
  end.

Lemma str_all_list f s : forallb f (String.list_ascii_of_string s) = str_all f s.
Proof. induction s as [|c s IH]; [done|]. cbn. by rewrite IH. Qed.

Lemma str_all_impl f g s : (∀ c, f c = true → g c = true) → str_all f s = true → str_all g s = true.
Proof.
  intros H. induction s as [|c s IH]; [done|]. cbn. rewrite !andb_true_iff. intros [Hc Hs]. split; [by apply H|by apply IH].
Qed.

Lemma str_all_take f n s : str_all f s = true → str_all f (str_take n s) = true.
Proof.
  revert n. induction s as [|c s IH]; intros [|n]; try done. cbn. rewrite !andb_true_iff. intros [Hc Hs].
  split; [done|by apply IH].
Qed.

Lemma str_all_has f c s : str_all f s = true → f c = false → str_has c s = false.
Proof.
  intros Hs Hc. induction s as [|x s IH]; [done|]. cbn in Hs. apply andb_true_iff in Hs as [Hx Hs].
  rewrite str_has_cons, (IH Hs), orb_false_r. apply bool_decide_eq_false. congruence.
Qed.

Lemma str_all_trim f s :
  (∀ c, f c = true → is_js_space c = false) → str_all f s = true → js_trim s = s.
Proof.
  intros H Hs. assert (He : trim_end s = s).
  { induction s as [|c s IH]; [done|]. cbn in Hs |- *. apply andb_true_iff in Hs as [Hc Hs]. rewrite (IH Hs), (H c Hc).
    by destruct s. }
  unfold js_trim. destruct s as [|c s]; [done|]. cbn in Hs |- *. apply andb_true_iff in Hs as [Hc _]. by rewrite (H c Hc).
Qed.

Lemma str_all_lower f s : (∀ c, f c = true → js_lower_char c = c) → str_all f s = true → js_lower s = s.
Proof.
  intros H. induction s as [|c s IH]; [done|]. cbn. intros [Hc Hs]%andb_true_iff. by rewrite (H c Hc), (IH Hs).
Qed.

Lemma str_take_length n s : (String.length (str_take n s) ≤ n)%nat.
Proof. revert n. induction s as [|c s IH]; intros [|n]; cbn; try lia. specialize (IH n). lia. Qed.

Lemma str_take_all n s : (String.length s ≤ n)%nat → str_take n s = s.
Proof. revert n. induction s as [|c s IH]; intros [|n]; cbn; intros; try done; try lia. by rewrite IH by lia. Qed.

(** ** Pruned maps *)

Lemma prune_sublist {K V} (m : list (K * V)) maxSize : ∃ n, pruneMapToMaxSize m maxSize = drop n m.
Proof.
  assert (H : ∃ n, @nil (K * V) = drop n m) by (exists (length m); by rewrite drop_all).
  unfold pruneMapToMaxSize. destruct maxSize; [..|by exists 0%nat]; try (by exists 0%nat); destruct (_ <=? _)%Z; eauto.
Qed.

(** Pruning only forgets. *)
Lemma prune_get {K V} `{EqDecision K} (m : list (K * V)) maxSize k v :
  NoDup (JsMap.keys m) → JsMap.get k (pruneMapToMaxSize m maxSize) = Some v → JsMap.get k m = Some v.
Proof.
  destruct (prune_sublist m maxSize) as [n ->]. intros Hn H%JsMap.get_elem. apply JsMap.elem_get; [done|].
  rewrite <-(take_drop n m). apply elem_of_app. by right.
Qed.

Lemma prune_NoDup {K V} `{EqDecision K} (m : list (K * V)) maxSize :
  NoDup (JsMap.keys m) → NoDup (JsMap.keys (pruneMapToMaxSize m maxSize)).
Proof.
  destruct (prune_sublist m maxSize) as [n ->]. unfold JsMap.keys. intros Hn.
  rewrite <-(take_drop n m), fmap_app in Hn. by apply NoDup_app in Hn as (_ & _ & ?).
Qed.

Lemma prune_bound {K V} (m : list (K * V)) (n : Z) :
  (0 < n)%Z → (Z.of_nat (length (pruneMapToMaxSize m (jsnum_of_Z n))) ≤ n)%Z.
Proof.
  intros Hn. unfold pruneMapToMaxSize. cbn [jsnum_of_Z]. change (Fin (QArith_base.inject_Z n)) with (jsnum_of_Z n).
  rewrite js_floor_of_Z. cbn [js_max fin_value]. destruct (Z.leb_spec (0 `max` n) 0); [cbn; lia|]. rewrite length_drop. lia.
Qed.

(** A cache holds what it caches, once per key. *)
Definition caches {K V} `{EqDecision K} (f : K → V) (cache : list (K * V)) : Prop :=
  NoDup (JsMap.keys cache) ∧ ∀ k v, JsMap.get k cache = Some v → v = f k.

Lemma caches_set {K V} `{EqDecision K} (f : K → V) cache k maxSize :
  caches f cache → caches f (pruneMapToMaxSize (JsMap.set k (f k) cache) maxSize).
Proof.
  intros [Hn Hc]. split; [apply prune_NoDup, JsMap.NoDup_keys_set, Hn|].
  intros k' v H%prune_get; [|by apply JsMap.NoDup_keys_set]. rewrite JsMap.get_set in H. case_decide; [|by apply Hc].
  subst. by injection H as <-.
Qed.
