(* ===== verification/LaneQueue.v ===== *)
(** * Priority lane queues

    The three fixed FIFO rings of one command lane
    ([src/process/command-queue.state.ts]), their abstract specification as a
    list sorted by priority, and the one-time conversion of the array-backed
    queues an older process image left behind. *)
From S2P Require Import Prelude JsCollections.

(** ** Queue entries *)

(** The numbers -1, 0 and 1. *)
Inductive QueuePriority := Background | Normal | Foreground.

Definition priority_number (p : QueuePriority) : Z :=
  match p with
  | Background => -1
  | Normal => 0
  | Foreground => 1
  end.

#[export] Instance QueuePriority_eq_dec : EqDecision QueuePriority.
Proof. solve_decision. Defined.

(** Closures are handles: [task] of the task function, [promise] of the pair
    [resolve]/[reject] of one promise, [entryContext] of the async context the
    entry was enqueued in, the other handles of callbacks and signals. *)
Record QueueEntry := mkEntry {
  task : nat;
  entryContext : option nat;
  promise : nat;
  enqueuedAt : Z;
  sequence : Z;
  priority : QueuePriority;
  warnAfterMs : Z;
  queuedAheadAtEnqueue : Z;
  activeAheadAtEnqueue : Z;
  taskTimeoutMs : option Z;
  taskTimeoutProgressAtMs : option nat;
  taskTimeoutAbortSignal : option nat;
  taskTimeoutAbortGraceMs : option Z;
  taskTimeoutReleaseSignal : option nat;
  onWait : option nat
}.
#[export] Instance eta_QueueEntry : Eta QueueEntry := λ e,
  mkEntry (task e) (entryContext e) (promise e) (enqueuedAt e) (sequence e) (priority e)
    (warnAfterMs e) (queuedAheadAtEnqueue e) (activeAheadAtEnqueue e) (taskTimeoutMs e)
    (taskTimeoutProgressAtMs e) (taskTimeoutAbortSignal e) (taskTimeoutAbortGraceMs e)
    (taskTimeoutReleaseSignal e) (onWait e).

(** ** Rings *)

Record QueueRing (A : Type) := mkRing {
  entries : list (option A);
  ring_head : nat;
  ring_length : nat
}.
Arguments mkRing {A} _ _ _.
Arguments entries {A} _.
Arguments ring_head {A} _.
Arguments ring_length {A} _.

Definition INITIAL_QUEUE_RING_CAPACITY : nat := 16.

Section ring.
Context {A : Type}.
Implicit Types (ring : QueueRing A) (entry : A).

Definition createQueueRing : QueueRing A := mkRing [] 0 0.

(** [ring.entries[i]]; reading out of range gives undefined. *)
Definition slot ring (i : nat) : option A := mjoin (entries ring !! i).

(** The reallocation of [appendQueueRing]: copy to the front of a larger
    backing array. *)
Definition growQueueRing ring : QueueRing A :=
  let nextCapacity := INITIAL_QUEUE_RING_CAPACITY `max` (ring_length ring * 2) in
  let nextEntries :=
    foldl (λ next index,
             <[index := slot ring ((ring_head ring + index) mod length (entries ring))]> next)
      (replicate nextCapacity None) (seq 0 (ring_length ring)) in
  mkRing nextEntries 0 (ring_length ring).

Definition appendQueueRing ring entry : QueueRing A :=
  let ring :=
    if bool_decide (ring_length ring = length (entries ring))
    then growQueueRing ring else ring in
  mkRing
    (<[(ring_head ring + ring_length ring) mod length (entries ring) := Some entry]>
       (entries ring))
    (ring_head ring) (S (ring_length ring)).

Definition peekQueueRing ring : option A :=
  if bool_decide (0 < ring_length ring) then slot ring (ring_head ring) else None.

Definition dequeueQueueRing ring : option A * QueueRing A :=
  if bool_decide (ring_length ring = 0) then (None, ring)
  else
    let entry := slot ring (ring_head ring) in
    let cleared := <[ring_head ring := None]> (entries ring) in
    let remaining := ring_length ring - 1 in
    if bool_decide (remaining = 0) then (entry, mkRing [] 0 0)
    else (entry, mkRing cleared ((ring_head ring + 1) mod length cleared) remaining).

(** *** Abstraction and invariant *)

(** The slot of the [i]-th queued entry. *)
Definition ring_slot ring (i : nat) : option A :=
  slot ring ((ring_head ring + i) mod length (entries ring)).

Definition ring_contents ring : list A :=
  omap (ring_slot ring) (seq 0 (ring_length ring)).

(** The live window of [ring_length] slots that starts at the head is filled
    and every other slot is cleared. *)
Record ring_window ring : Prop := {
  window_fits : ring_length ring ≤ length (entries ring);
  window_head : entries ring = [] ∨ ring_head ring < length (entries ring);
  window_filled i : i < ring_length ring → is_Some (ring_slot ring i);
  window_cleared i :
    ring_length ring ≤ i → i < length (entries ring) → ring_slot ring i = None
}.

(** A drained ring additionally holds no backing array. *)
Definition ring_ok ring : Prop :=
  ring_window ring ∧ (ring_length ring = 0 → entries ring = []).

Lemma ring_index (h i c : nat) :
  h < c → i ≤ c → (h + i) mod c = if decide (h + i < c) then h + i else h + i - c.
Proof.
  intros Hh Hi. case_decide as Hlt; [by apply Nat.mod_small|].
  replace (h + i) with ((h + i - c) + 1 * c) at 1 by lia.
  rewrite Nat.Div0.mod_add. apply Nat.mod_small. lia.
Qed.

Lemma ring_index_inj (h i j c : nat) :
  h < c → i < c → j < c → (h + i) mod c = (h + j) mod c → i = j.
Proof.
  intros Hh Hi Hj. rewrite !ring_index by lia. repeat case_decide; lia.
Qed.

Lemma length_copy_loop (f : nat → option A) n (l : list (option A)) :
  length (foldl (λ next i, <[i := f i]> next) l (seq 0 n)) = length l.
Proof.
  induction n as [|n IH]; [done|].
  rewrite seq_S, foldl_app; simpl. by rewrite length_insert.
Qed.

Lemma lookup_copy_loop (f : nat → option A) n (l : list (option A)) i :
  n ≤ length l →
  foldl (λ next i, <[i := f i]> next) l (seq 0 n) !! i =
    if decide (i < n) then Some (f i) else l !! i.
Proof.
  induction n as [|n IH]; intros Hn; [done|].
  rewrite seq_S, foldl_app; simpl.
  destruct (decide (i = n)) as [->|Hne].
  - rewrite list_lookup_insert_eq by (rewrite length_copy_loop; lia).
    by rewrite decide_True by lia.
  - rewrite list_lookup_insert_ne, IH by lia. repeat case_decide; done || lia.
Qed.

Lemma omap_ext_elem {B} (f g : nat → option B) (l : list nat) :
  (∀ i, i ∈ l → f i = g i) → omap f l = omap g l.
Proof.
  induction l as [|i l IH]; [done|]. intros H.
  assert (E : omap f l = omap g l) by (apply IH; set_solver).
  simpl. rewrite (H i) by set_solver. destruct (g i); [f_equal|]; exact E.
Qed.

Lemma omap_filled_length {B} (f : nat → option B) (l : list nat) :
  (∀ i, i ∈ l → is_Some (f i)) → length (omap f l) = length l.
Proof.
  induction l as [|i l IH]; [done|]. intros H.
  assert (E : length (omap f l) = length l) by (apply IH; set_solver).
  simpl. destruct (H i) as [x ->]; [set_solver|]. simpl. f_equal. exact E.
Qed.

Lemma omap_shift {B} (f : nat → option B) (l : list nat) :
  omap f (S <$> l) = omap (λ i, f (S i)) l.
Proof.
  induction l as [|i l IH]; [done|]. simpl.
  destruct (f (S i)); [f_equal|]; exact IH.
Qed.

Lemma length_ring_contents ring :
  ring_window ring → length (ring_contents ring) = ring_length ring.
Proof.
  intros Hr. unfold ring_contents. rewrite omap_filled_length, length_seq; [done|].
  intros i Hi%elem_of_seq. apply Hr. lia.
Qed.

Lemma createQueueRing_ok : ring_ok createQueueRing.
Proof. split; [|done]. split; simpl; [lia|by left|lia|lia]. Qed.

(** Growing keeps the queued entries, makes room and straightens the window. *)
Lemma growQueueRing_spec ring :
  ring_window ring → ring_length ring = length (entries ring) →
  ring_window (growQueueRing ring) ∧
  ring_length ring < length (entries (growQueueRing ring)) ∧
  ring_contents (growQueueRing ring) = ring_contents ring.
Proof.
  intros Hr Hfull. set (g := growQueueRing ring).
  assert (Hcap : length (entries g) = 16 `max` (ring_length ring * 2)).
  { subst g. simpl. by rewrite length_copy_loop, length_replicate. }
  assert (Hslot : ∀ i, i < length (entries g) →
    ring_slot g i = if decide (i < ring_length ring) then ring_slot ring i else None).
  { intros i Hi. unfold ring_slot at 1, slot. change (ring_head g) with 0.
    rewrite Nat.mod_small by lia. rewrite Hcap in Hi. subst g. simpl.
    rewrite lookup_copy_loop by (rewrite length_replicate; lia).
    case_decide; [done|]. by rewrite lookup_replicate_2 by exact Hi. }
  split; [split|split].
  - simpl. rewrite length_copy_loop, length_replicate. lia.
  - right. rewrite Hcap. simpl. lia.
  - intros i Hi. simpl in Hi. rewrite Hslot by lia.
    rewrite decide_True by done. by apply Hr.
  - intros i Hi Hi2. simpl in Hi. rewrite Hslot by done. by rewrite decide_False by lia.
  - lia.
  - unfold ring_contents. simpl (ring_length g). apply omap_ext_elem.
    intros i Hi%elem_of_seq. rewrite Hslot by lia. by rewrite decide_True by lia.
Qed.

(** Writing the entry into the first cleared slot. *)
Lemma append_in_place ring entry :
  ring_window ring → ring_length ring < length (entries ring) →
  let ring' := mkRing
    (<[(ring_head ring + ring_length ring) mod length (entries ring) := Some entry]>
       (entries ring)) (ring_head ring) (S (ring_length ring)) in
  ring_window ring' ∧ ring_contents ring' = ring_contents ring ++ [entry].
Proof.
  intros Hr Hroom ring'. set (c := length (entries ring)) in *.
  assert (Hh : ring_head ring < c).
  { destruct (window_head _ Hr) as [E|]; [|done]. unfold c in *. rewrite E in Hroom.
    simpl in Hroom. lia. }
  assert (Hc : length (entries ring') = c) by (simpl; apply length_insert).
  assert (Hslot : ∀ i, i < c →
    ring_slot ring' i =
      if decide (i = ring_length ring) then Some entry else ring_slot ring i).
  { intros i Hi. unfold ring_slot at 1, slot. rewrite Hc. simpl. case_decide as Hd.
    - subst i. rewrite list_lookup_insert_eq; [done|]. apply Nat.mod_upper_bound. lia.
    - rewrite list_lookup_insert_ne; [done|]. fold c. intros E.
      apply ring_index_inj in E; lia. }
  split; [split|].
  - rewrite Hc. simpl. lia.
  - rewrite Hc. by right.
  - intros i Hi. simpl in Hi. rewrite Hslot by lia. case_decide; [by eexists|].
    apply Hr. lia.
  - intros i Hi Hi2. rewrite Hc in Hi2. simpl in Hi. rewrite Hslot by done.
    rewrite decide_False by lia. apply Hr; unfold c in *; lia.
  - unfold ring_contents. simpl (ring_length ring'). rewrite seq_S, omap_app.
    f_equal.
    + apply omap_ext_elem. intros i Hi%elem_of_seq. rewrite Hslot by lia.
      by rewrite decide_False by lia.
    + simpl. rewrite Hslot by lia. by rewrite decide_True by lia.
Qed.

Lemma appendQueueRing_spec ring entry :
  ring_ok ring →
  ring_ok (appendQueueRing ring entry) ∧
  ring_contents (appendQueueRing ring entry) = ring_contents ring ++ [entry].
Proof.
  intros [Hr _]. unfold appendQueueRing. case_bool_decide as Hfull.
  - destruct (growQueueRing_spec ring Hr Hfull) as (Hg & Hroom & <-).
    destruct (append_in_place (growQueueRing ring) entry Hg Hroom) as [Hw Hc].
    split; [|exact Hc]. split; [exact Hw|done].
  - pose proof (window_fits _ Hr).
    destruct (append_in_place ring entry Hr ltac:(lia)) as [Hw Hc].
    split; [|exact Hc]. split; [exact Hw|done].
Qed.

Lemma peekQueueRing_spec ring :
  ring_window ring → peekQueueRing ring = head (ring_contents ring).
Proof.
  intros Hr. unfold peekQueueRing, ring_contents.
  destruct (ring_length ring) as [|n] eqn:El; [done|].
  rewrite bool_decide_true by lia. simpl.
  destruct (window_filled _ Hr 0 ltac:(lia)) as [x Hx]. rewrite Hx. simpl.
  unfold ring_slot in Hx. rewrite Nat.add_0_r, Nat.mod_small in Hx; [done|].
  pose proof (window_fits _ Hr).
  destruct (window_head _ Hr) as [E|]; [|done]. rewrite E in *. simpl in *. lia.
Qed.

(** Clearing the head slot and advancing. *)
Lemma dequeue_in_place ring n :
  ring_window ring → ring_length ring = S (S n) →
  let cleared := <[ring_head ring := None]> (entries ring) in
  let ring' := mkRing cleared ((ring_head ring + 1) mod length cleared) (S n) in
  ring_window ring' ∧
  (∀ i, i < S n → ring_slot ring' i = ring_slot ring (S i)).
Proof.
  intros Hr Hlen cleared ring'. set (c := length (entries ring)) in *.
  pose proof (window_fits _ Hr) as Hfit. fold c in Hfit.
  assert (Hh : ring_head ring < c).
  { destruct (window_head _ Hr) as [E|]; [|done]. unfold c in *. rewrite E in Hfit.
    simpl in Hfit. lia. }
  assert (Hc : length cleared = c) by apply length_insert.
  assert (Hpos : ∀ i, ((ring_head ring + 1) mod c + i) mod c = (ring_head ring + S i) mod c).
  { intros i. rewrite Nat.Div0.add_mod_idemp_l. f_equal. lia. }
  assert (Hslot : ∀ i, i < c →
    ring_slot ring' i = if decide (i = c - 1) then None else ring_slot ring (S i)).
  { intros i Hi. unfold ring_slot, slot. simpl. rewrite !Hc. fold c. rewrite Hpos.
    case_decide as Hd.
    - replace ((ring_head ring + S i) mod c) with (ring_head ring).
      + unfold cleared. by rewrite list_lookup_insert_eq.
      + rewrite ring_index by lia. case_decide; lia.
    - unfold cleared. rewrite list_lookup_insert_ne; [done|].
      rewrite ring_index by lia. case_decide; lia. }
  split; [split|].
  - simpl. rewrite Hc. lia.
  - right. simpl. rewrite Hc. apply Nat.mod_upper_bound. lia.
  - intros i Hi. simpl in Hi. rewrite Hslot, decide_False by lia. apply Hr. lia.
  - intros i Hi Hi2. simpl in Hi, Hi2. rewrite Hc in Hi2. rewrite Hslot by done.
    case_decide; [done|]. apply Hr; unfold c in *; lia.
  - intros i Hi. rewrite Hslot, decide_False by lia. done.
Qed.

Lemma dequeueQueueRing_spec ring :
  ring_ok ring →
  (dequeueQueueRing ring).1 = head (ring_contents ring) ∧
  ring_ok (dequeueQueueRing ring).2 ∧
  ring_contents (dequeueQueueRing ring).2 = tail (ring_contents ring).
Proof.
  intros [Hr Hemp]. unfold dequeueQueueRing.
  case_bool_decide as Hz.
  { simpl. split_and!; [|done|]; unfold ring_contents; by rewrite Hz. }
  rewrite <-(peekQueueRing_spec ring Hr). unfold peekQueueRing.
  rewrite (bool_decide_true (0 < ring_length ring)) by lia.
  case_bool_decide as Hone; simpl.
  - split_and!; [done|apply createQueueRing_ok|]. unfold ring_contents.
    replace (ring_length ring) with 1 by lia. simpl.
    by destruct (window_filled _ Hr 0 ltac:(lia)) as [x ->].
  - destruct (ring_length ring) as [|[|n]] eqn:El; [lia|simpl in Hone; lia|].
    destruct (dequeue_in_place ring n Hr El) as [Hw Hs]. simpl in Hw.
    simpl (S (S n) - 1). split_and!; [done|split; [exact Hw|done]|].
    unfold ring_contents. rewrite El. cbn [ring_length].
    rewrite <-(cons_seq (S n) 0), <-fmap_S_seq.
    change (omap (ring_slot ring) (0 :: (S <$> seq 0 (S n)))) with
      (match ring_slot ring 0 with
       | Some x => x :: omap (ring_slot ring) (S <$> seq 0 (S n))
       | None => omap (ring_slot ring) (S <$> seq 0 (S n)) end).
    destruct (window_filled _ Hr 0 ltac:(lia)) as [x ->]. cbn [tail].
    rewrite omap_shift. apply omap_ext_elem. intros i Hi%elem_of_seq. apply Hs. lia.
Qed.

End ring.
#[export] Hint Resolve createQueueRing_ok : agentos.

(** ** Lane queues *)

Record LaneQueue := mkLaneQueue {
  background : QueueRing QueueEntry;
  normal : QueueRing QueueEntry;
  foreground : QueueRing QueueEntry;
  queue_length : Z
}.
#[export] Instance eta_LaneQueue : Eta LaneQueue := λ q,
  mkLaneQueue (background q) (normal q) (foreground q) (queue_length q).

Definition createLaneQueue : LaneQueue :=
  mkLaneQueue createQueueRing createQueueRing createQueueRing 0.

Definition getPriorityRing (queue : LaneQueue) (p : QueuePriority) : QueueRing QueueEntry :=
  match p with
  | Foreground => foreground queue
  | Background => background queue
  | Normal => normal queue
  end.

(** [getPriorityRing] returns the ring object itself, so appending to it
    updates the queue. *)
Definition setPriorityRing (queue : LaneQueue) (p : QueuePriority)
    (ring : QueueRing QueueEntry) : LaneQueue :=
  match p with
  | Foreground => queue <| foreground := ring |>
  | Background => queue <| background := ring |>
  | Normal => queue <| normal := ring |>
  end.

Definition enqueueLaneQueue (queue : LaneQueue) (entry : QueueEntry) : Z * LaneQueue :=
  let p := priority entry in
  let ring := getPriorityRing queue p in
  let queuedAhead :=
    (Z.of_nat (ring_length ring) +
     (if bool_decide (priority_number p ≤ 0)%Z
      then Z.of_nat (ring_length (foreground queue)) else 0) +
     (if bool_decide (priority_number p < 0)%Z
      then Z.of_nat (ring_length (normal queue)) else 0))%Z in
  let queue := setPriorityRing queue p (appendQueueRing ring entry) in
  (queuedAhead, queue <| queue_length ::= λ n, (n + 1)%Z |>).

Definition peekLaneQueue (queue : LaneQueue) : option QueueEntry :=
  match peekQueueRing (foreground queue) with
  | Some e => Some e
  | None =>
      match peekQueueRing (normal queue) with
      | Some e => Some e
      | None => peekQueueRing (background queue)
      end
  end.

Definition dequeueLaneQueue (queue : LaneQueue) : option QueueEntry * LaneQueue :=
  let '(e1, fg) := dequeueQueueRing (foreground queue) in
  let queue := queue <| foreground := fg |> in
  let '(entry, queue) :=
    match e1 with
    | Some e => (Some e, queue)
    | None =>
        let '(e2, nm) := dequeueQueueRing (normal queue) in
        let queue := queue <| normal := nm |> in
        match e2 with
        | Some e => (Some e, queue)
        | None =>
            let '(e3, bg) := dequeueQueueRing (background queue) in
            (e3, queue <| background := bg |>)
        end
    end in
  match entry with
  | Some e => (Some e, queue <| queue_length ::= λ n, (n - 1)%Z |>)
  | None => (None, queue)
  end.

(** *** The abstract queue: a list sorted by priority, FIFO within one *)

(** The entries of a lane queue in the order they will be dequeued. *)
Definition queue_entries (queue : LaneQueue) : list QueueEntry :=
  ring_contents (foreground queue) ++ ring_contents (normal queue) ++
  ring_contents (background queue).

(** [x] is served before a newly enqueued [e]. *)
Definition ahead_of (e x : QueueEntry) : Prop :=
  (priority_number (priority e) ≤ priority_number (priority x))%Z.
#[export] Instance ahead_of_dec e x : Decision (ahead_of e x).
Proof. unfold ahead_of. apply _. Defined.

(** Insertion behind every entry of the same or a higher priority. *)
Fixpoint abs_insert (e : QueueEntry) (l : list QueueEntry) : list QueueEntry :=
  match l with
  | [] => [e]
  | x :: r => if decide (ahead_of e x) then x :: abs_insert e r else e :: x :: r
  end.

Record queue_ok (queue : LaneQueue) : Prop := {
  ok_foreground : ring_ok (foreground queue);
  ok_normal : ring_ok (normal queue);
  ok_background : ring_ok (background queue);
  ok_fg_priority : Forall (λ e, priority e = Foreground) (ring_contents (foreground queue));
  ok_nm_priority : Forall (λ e, priority e = Normal) (ring_contents (normal queue));
  ok_bg_priority : Forall (λ e, priority e = Background) (ring_contents (background queue));
  ok_length : queue_length queue = Z.of_nat (length (queue_entries queue))
}.

Lemma createLaneQueue_ok : queue_ok createLaneQueue.
Proof. split; eauto with agentos; constructor. Qed.

Lemma abs_insert_app_ahead e l1 l2 :
  Forall (ahead_of e) l1 → abs_insert e (l1 ++ l2) = l1 ++ abs_insert e l2.
Proof.
  induction 1 as [|x l Hx _ IH]; [done|]. simpl. by rewrite decide_True, IH.
Qed.

Lemma abs_insert_behind e l :
  Forall (λ x, ¬ ahead_of e x) l → abs_insert e l = e :: l.
Proof. destruct 1; [done|]. simpl. by rewrite decide_False. Qed.

Lemma abs_insert_Permutation e l : abs_insert e l ≡ₚ e :: l.
Proof.
  induction l as [|x l IH]; [done|]. simpl. case_decide; [|done].
  rewrite IH. by constructor.
Qed.

Lemma Forall_ahead e p (l : list QueueEntry) :
  Forall (λ x, priority x = p) l →
  (priority_number (priority e) ≤ priority_number p)%Z → Forall (ahead_of e) l.
Proof. intros H Hp. eapply Forall_impl; [exact H|]. by intros x <-. Qed.

Lemma Forall_behind e p (l : list QueueEntry) :
  Forall (λ x, priority x = p) l →
  (priority_number p < priority_number (priority e))%Z → Forall (λ x, ¬ ahead_of e x) l.
Proof.
  intros H Hp. eapply Forall_impl; [exact H|]. intros x <-. unfold ahead_of. lia.
Qed.

Lemma filter_none {A} (P : A → Prop) `{∀ x, Decision (P x)} l :
  Forall (λ x, ¬ P x) l → filter P l = [].
Proof.
  induction 1 as [|a l Ha _ IH]; [done|]. by rewrite filter_cons_False, IH.
Qed.

(** Every entry of a ring ranks before, or behind, an entry of priority [p]. *)
Ltac rank_lookup :=
  match goal with E : priority ?e = _ |- context [priority ?e] => rewrite E end;
  simpl; lia.
Ltac by_rank :=
  rewrite ?Forall_app; repeat split;
  first [ eapply Forall_ahead; [eassumption|rank_lookup]
        | eapply Forall_behind; [eassumption|rank_lookup] ].

Ltac ring_case Hspec :=
  destruct Hspec as [Hok Hc];
  split_and!; [split; simpl; auto|..]; unfold queue_entries; simpl; rewrite ?Hc;
  [by rewrite Forall_app, Forall_singleton|rewrite !length_app in *; simpl; lia|..].

(** The refinement of one enqueue: the queue denotes the list with the entry
    inserted, and the result counts exactly the entries that are served
    before the new one. *)
Lemma enqueueLaneQueue_spec queue e :
  queue_ok queue →
  let '(queuedAhead, queue') := enqueueLaneQueue queue e in
  queue_ok queue' ∧
  queue_entries queue' = abs_insert e (queue_entries queue) ∧
  queuedAhead = Z.of_nat (length (filter (ahead_of e) (queue_entries queue))).
Proof.
  intros [Hfg Hnm Hbg Pfg Pnm Pbg Hlen].
  pose proof (length_ring_contents _ (proj1 Hfg)) as Lfg.
  pose proof (length_ring_contents _ (proj1 Hnm)) as Lnm.
  pose proof (length_ring_contents _ (proj1 Hbg)) as Lbg.
  unfold enqueueLaneQueue, queue_entries in *. rewrite !filter_app.
  destruct (priority e) eqn:Ep; simpl.
  - ring_case (appendQueueRing_spec _ e Hbg).
    + rewrite !abs_insert_app_ahead by by_rank.
      rewrite <-(app_nil_r (ring_contents (background queue))) at 2.
      by rewrite abs_insert_app_ahead by by_rank.
    + rewrite !filter_all by by_rank. rewrite !length_app. lia.
  - ring_case (appendQueueRing_spec _ e Hnm).
    + rewrite !abs_insert_app_ahead by by_rank.
      rewrite abs_insert_behind by by_rank. by rewrite <-app_assoc.
    + rewrite (filter_all _ (ring_contents (foreground queue))),
        (filter_all _ (ring_contents (normal queue))), filter_none by by_rank.
      rewrite !length_app. simpl. lia.
  - ring_case (appendQueueRing_spec _ e Hfg).
    + rewrite abs_insert_app_ahead, abs_insert_behind by by_rank. by rewrite <-app_assoc.
    + rewrite (filter_all _ (ring_contents (foreground queue))), !filter_none by by_rank.
      rewrite !length_app. simpl. lia.
Qed.

Lemma peekLaneQueue_spec queue :
  queue_ok queue → peekLaneQueue queue = head (queue_entries queue).
Proof.
  intros Hq. unfold peekLaneQueue, queue_entries.
  rewrite !peekQueueRing_spec by apply Hq.
  by destruct (ring_contents (foreground queue)), (ring_contents (normal queue)).
Qed.

(** The refinement of one dequeue: the head of the abstract queue. *)
Lemma dequeueLaneQueue_spec queue :
  queue_ok queue →
  let '(entry, queue') := dequeueLaneQueue queue in
  entry = head (queue_entries queue) ∧ queue_ok queue' ∧
  queue_entries queue' = tail (queue_entries queue).
Proof.
  intros [Hfg Hnm Hbg Pfg Pnm Pbg Hlen].
  destruct (dequeueQueueRing_spec _ Hfg) as (Efg & Ofg & Cfg).
  destruct (dequeueQueueRing_spec _ Hnm) as (Enm & Onm & Cnm).
  destruct (dequeueQueueRing_spec _ Hbg) as (Ebg & Obg & Cbg).
  unfold dequeueLaneQueue, queue_entries in *. simpl.
  destruct (dequeueQueueRing (foreground queue)) as [e1 fg],
    (dequeueQueueRing (normal queue)) as [e2 nm],
    (dequeueQueueRing (background queue)) as [e3 bg]. simpl in *.
  destruct (ring_contents (foreground queue)) as [|x1 r1]; simpl in *; subst e1;
    [destruct (ring_contents (normal queue)) as [|x2 r2]; simpl in *; subst e2;
     [destruct (ring_contents (background queue)) as [|x3 r3]; simpl in *; subst e3|]|];
    simpl; rewrite ?Cfg, ?Cnm, ?Cbg; (split_and!; [done| |done]);
    split; unfold queue_entries; simpl; rewrite ?Cfg, ?Cnm, ?Cbg; try done;
    try (by eapply Forall_inv_tail); rewrite !length_app in *; simpl in *; lia.
Qed.

Lemma dequeueLaneQueue_None queue :
  queue_ok queue → (dequeueLaneQueue queue).1 = None ↔ queue_length queue = 0%Z.
Proof.
  intros Hq. pose proof (dequeueLaneQueue_spec queue Hq) as H.
  destruct (dequeueLaneQueue queue) as [e q]. destruct H as (-> & _ & _).
  rewrite (ok_length _ Hq). simpl. destruct (queue_entries queue); simpl; split; done || lia.
Qed.

Arguments enqueueLaneQueue : simpl never.
Arguments dequeueLaneQueue : simpl never.
Arguments peekLaneQueue : simpl never.

(** *** Draining a burst *)

Definition enqueue_all (l : list QueueEntry) (queue : LaneQueue) : LaneQueue :=
  foldl (λ q e, (enqueueLaneQueue q e).2) queue l.

Fixpoint dequeue_all (fuel : nat) (queue : LaneQueue) : list QueueEntry :=
  match fuel with
  | O => []
  | S fuel =>
      match dequeueLaneQueue queue with
      | (Some e, queue) => e :: dequeue_all fuel queue
      | (None, _) => []
      end
  end.

Lemma enqueue_all_spec l queue :
  queue_ok queue →
  queue_ok (enqueue_all l queue) ∧
  queue_entries (enqueue_all l queue) = foldl (λ q e, abs_insert e q) (queue_entries queue) l.
Proof.
  revert queue. induction l as [|e l IH]; intros queue Hq; [done|].
  unfold enqueue_all in *. cbn [foldl].
  pose proof (enqueueLaneQueue_spec queue e Hq) as H.
  destruct (enqueueLaneQueue queue e) as [n q]. destruct H as (Hq' & He & _). cbn [snd].
  destruct (IH q Hq') as [H1 H2]. split; [done|]. by rewrite H2, He.
Qed.

Lemma dequeue_all_spec fuel queue :
  queue_ok queue → length (queue_entries queue) ≤ fuel →
  dequeue_all fuel queue = queue_entries queue.
Proof.
  revert queue. induction fuel as [|fuel IH]; intros queue Hq Hf; simpl.
  { by destruct (queue_entries queue); simpl in Hf; [|lia]. }
  pose proof (dequeueLaneQueue_spec queue Hq) as H.
  destruct (dequeueLaneQueue queue) as [e q]. destruct H as (-> & Hq' & He).
  destruct (queue_entries queue) as [|x r] eqn:E; [done|]. simpl in *.
  rewrite IH; [by rewrite He|done|]. rewrite He. simpl. lia.
Qed.

(** Three FIFO classes: a priority list inserted in arrival order is the
    stable sort of the arrivals. *)
Lemma foldl_abs_insert l (f n b : list QueueEntry) :
  Forall (λ e, priority e = Foreground) f → Forall (λ e, priority e = Normal) n →
  Forall (λ e, priority e = Background) b →
  foldl (λ q e, abs_insert e q) (f ++ n ++ b) l =
    (f ++ filter (λ e, priority e = Foreground) l) ++
    (n ++ filter (λ e, priority e = Normal) l) ++
    (b ++ filter (λ e, priority e = Background) l).
Proof.
  revert f n b. induction l as [|e l IH]; intros f n b Hf Hn Hb; simpl.
  { by rewrite !app_nil_r. }
  rewrite !filter_cons. destruct (priority e) eqn:Ep; simpl.
  - rewrite !abs_insert_app_ahead by by_rank.
    rewrite <-(app_nil_r b) at 1. rewrite abs_insert_app_ahead by by_rank. simpl.
    rewrite IH; [by rewrite <-!app_assoc|..]; auto. by rewrite Forall_app, Forall_singleton.
  - rewrite !abs_insert_app_ahead, abs_insert_behind by by_rank.
    replace (f ++ n ++ e :: b) with (f ++ (n ++ [e]) ++ b) by by rewrite <-app_assoc.
    rewrite IH; [by rewrite <-!app_assoc|..]; auto. by rewrite Forall_app, Forall_singleton.
  - rewrite abs_insert_app_ahead, abs_insert_behind by by_rank.
    replace (f ++ e :: n ++ b) with ((f ++ [e]) ++ n ++ b) by by rewrite <-app_assoc.
    rewrite IH; [by rewrite <-!app_assoc|..]; auto. by rewrite Forall_app, Forall_singleton.
Qed.


(** ** Conversion of array-backed queues *)

(** An entry written by an older image: the fields below may be absent, and
    [priority] is an arbitrary number. *)
Record LegacyQueueEntry := mkLegacyEntry {
  legacy_entry : QueueEntry;
  legacy_priority : option Z;
  legacy_sequence : option Z;
  legacy_queuedAhead : option Z;
  legacy_activeAhead : option Z
}.

Record LegacyLane := mkLegacyLane {
  legacy_queue : LaneQueue + list LegacyQueueEntry;
  legacy_active : list Z
}.

Record LegacyQueueState := mkLegacyState {
  legacy_lanes : list LegacyLane;
  legacy_nextQueueSequence : option Z;
  legacy_formatVersion : option Z
}.

(** [entry.priority === 1 || entry.priority === -1 ? entry.priority : 0] *)
Definition legacyPriority (p : option Z) : QueuePriority :=
  match p with
  | Some 1%Z => Foreground
  | Some (-1)%Z => Background
  | _ => Normal
  end.

(** One iteration of the conversion loop; the accumulator is
    [state.nextQueueSequence], [maxQueueSequence] and the new queue. *)
Definition migrateEntry (activeCount : Z) (acc : Z * Z * LaneQueue)
    (item : nat * LegacyQueueEntry) : Z * Z * LaneQueue :=
  let '(next, maxSeq, queue) := acc in
  let '(index, l) := item in
  let '(seq, next) :=
    match legacy_sequence l with
    | Some s => (s, next)
    | None => (next, (next + 1)%Z)
    end in
  let maxSeq := (maxSeq `max` seq)%Z in
  let entry := (legacy_entry l)
    <| priority := legacyPriority (legacy_priority l) |>
    <| sequence := seq |>
    <| queuedAheadAtEnqueue := default (Z.of_nat index) (legacy_queuedAhead l) |>
    <| activeAheadAtEnqueue := default activeCount (legacy_activeAhead l) |> in
  (next, maxSeq, (enqueueLaneQueue queue entry).2).

Definition migrateLane (acc : Z * Z * list LegacyLane) (lane : LegacyLane) :
    Z * Z * list LegacyLane :=
  let '(next, maxSeq, done) := acc in
  match legacy_queue lane with
  | inl _ => (next, maxSeq, done ++ [lane])
  | inr legacyQueue =>
      let '(next, maxSeq, queue) :=
        foldl (migrateEntry (JsSet.size (legacy_active lane)))
          (next, maxSeq, createLaneQueue) (imap pair legacyQueue) in
      (next, maxSeq, done ++ [mkLegacyLane (inl queue) (legacy_active lane)])
  end.

(** [getQueueState]: normalise the counter, then convert once. *)
Definition migrateQueueState (state : LegacyQueueState) : LegacyQueueState :=
  let next :=
    match legacy_nextQueueSequence state with
    | Some 0%Z | None => 1%Z
    | Some n => n
    end in
  if bool_decide (legacy_formatVersion state = Some 1%Z)
  then mkLegacyState (legacy_lanes state) (Some next) (legacy_formatVersion state)
  else
    let '(next, maxSeq, lanes) :=
      foldl migrateLane (next, (next - 1)%Z, []) (legacy_lanes state) in
    let next := if (next <=? maxSeq)%Z then (maxSeq + 1)%Z else next in
    mkLegacyState lanes (Some next) (Some 1%Z).

(** The queue a lane has after the conversion, if it has one. *)
Definition converted (lane : LegacyLane) : option LaneQueue :=
  match legacy_queue lane with
  | inl queue => Some queue
  | inr _ => None
  end.

(** The promises of a lane: what a conversion must not lose. *)
Definition legacy_promises (lane : LegacyLane) : list nat :=
  match legacy_queue lane with
  | inl queue => promise <$> queue_entries queue
  | inr l => (λ x, promise (legacy_entry x)) <$> l
  end.

Section migration.

(** Invariant of the inner loop over the entries of one lane. *)
Definition entries_inv (next0 max0 : Z) (done : list LegacyQueueEntry)
    (acc : Z * Z * LaneQueue) : Prop :=
  let '(next, maxSeq, queue) := acc in
  queue_ok queue ∧ (next0 ≤ next)%Z ∧ (max0 ≤ maxSeq)%Z ∧
  promise <$> queue_entries queue ≡ₚ (λ x, promise (legacy_entry x)) <$> done ∧
  Forall (λ e, (sequence e ≤ maxSeq)%Z) (queue_entries queue).

Lemma migrateEntry_inv active next0 max0 done acc i l :
  entries_inv next0 max0 done acc →
  entries_inv next0 max0 (done ++ [l]) (migrateEntry active acc (i, l)).
Proof.
  destruct acc as [[next maxSeq] queue]. intros (Hok & Hn & Hm & Hp & Hs).
  unfold migrateEntry.
  destruct (match legacy_sequence l with Some s => _ | None => _ end) as [seq next'] eqn:E.
  assert (Hn' : (next ≤ next')%Z) by (destruct (legacy_sequence l); simplify_eq; lia).
  clear E. cbv zeta. set (e := update_field _ _ _).
  pose proof (enqueueLaneQueue_spec queue e Hok) as H.
  destruct (enqueueLaneQueue queue e) as [n q]. destruct H as (Hok' & He & _). simpl.
  rewrite He, (abs_insert_Permutation e), fmap_app. simpl. split_and!; [done|lia|lia|..].
  - rewrite Hp. by rewrite Permutation_app_comm.
  - constructor; [simpl; lia|]. eapply Forall_impl; [exact Hs|]. simpl. lia.
Qed.

Lemma migrateEntries_inv active next0 max0 l :
  entries_inv next0 max0 l
    (foldl (migrateEntry active) (next0, max0, createLaneQueue) (imap pair l)).
Proof.
  induction l as [|x l IH] using rev_ind.
  - split_and!; [apply createLaneQueue_ok|lia|lia|done|by constructor].
  - rewrite imap_app, foldl_app. simpl. by apply migrateEntry_inv.
Qed.

(** Invariant of the outer loop over the lanes. *)
Definition lanes_inv (done : list LegacyLane) (acc : Z * Z * list LegacyLane) : Prop :=
  let '(next, maxSeq, out) := acc in
  length out = length done ∧
  (∀ i lane out_lane, done !! i = Some lane → out !! i = Some out_lane →
    legacy_promises out_lane ≡ₚ legacy_promises lane ∧
    legacy_active out_lane = legacy_active lane ∧
    ∃ queue, converted out_lane = Some queue ∧
      ∀ l, legacy_queue lane = inr l →
        queue_ok queue ∧ Forall (λ e, (sequence e ≤ maxSeq)%Z) (queue_entries queue)).

Lemma migrateLane_inv done acc lane :
  lanes_inv done acc → lanes_inv (done ++ [lane]) (migrateLane acc lane).
Proof.
  destruct acc as [[next maxSeq] out]. intros [Hlen Hout]. unfold migrateLane.
  destruct (legacy_queue lane) as [q|l] eqn:El.
  - split; [rewrite !length_app; simpl; lia|]. intros i ln oln Hi Ho.
    apply lookup_snoc_Some in Hi as [[Hi1 Hi]|[-> <-]];
      apply lookup_snoc_Some in Ho as [[Ho1 Ho]|[Ho1 <-]]; try lia; [by eapply Hout|].
    split_and!; [done|done|]. exists q. unfold converted. rewrite El. naive_solver.
  - pose proof (migrateEntries_inv (JsSet.size (legacy_active lane)) next maxSeq l) as H.
    destruct (foldl _ _ _) as [[next' maxSeq'] queue]. destruct H as (Hok & Hn & Hm & Hp & Hs).
    split; [rewrite !length_app; simpl; lia|]. intros i ln oln Hi Ho.
    apply lookup_snoc_Some in Hi as [[Hi1 Hi]|[-> <-]];
      apply lookup_snoc_Some in Ho as [[Ho1 Ho]|[Ho1 <-]]; try lia.
    + destruct (Hout i ln oln Hi Ho) as (H1 & H2 & queue' & H3 & H4).
      split_and!; [done|done|]. exists queue'. split; [done|]. intros l' Hl'.
      destruct (H4 l' Hl') as [H5 H6]. split; [done|].
      eapply Forall_impl; [exact H6|]. simpl. lia.
    + unfold legacy_promises. rewrite El. simpl. split_and!; [done|done|].
      exists queue. naive_solver.
Qed.

Lemma migrateLanes_inv lanes next maxSeq :
  lanes_inv lanes (foldl migrateLane (next, maxSeq, []) lanes).
Proof.
  induction lanes as [|lane lanes IH] using rev_ind; [by split|].
  rewrite foldl_app. simpl. by apply migrateLane_inv.
Qed.

End migration.

(** converting a state an older image left behind turns every array-backed
    lane into a well-formed lane queue that holds exactly the promises it held,
    keeps the active task ids, and leaves the global sequence counter above
    every sequence number of a converted entry, so entries enqueued later are
    younger. *)
Theorem migrateQueueState_sound state :
  legacy_formatVersion state ≠ Some 1%Z →
  ∃ next, legacy_nextQueueSequence (migrateQueueState state) = Some next ∧
    legacy_formatVersion (migrateQueueState state) = Some 1%Z ∧
    length (legacy_lanes (migrateQueueState state)) = length (legacy_lanes state) ∧
    ∀ i lane lane',
      legacy_lanes state !! i = Some lane →
      legacy_lanes (migrateQueueState state) !! i = Some lane' →
      legacy_promises lane' ≡ₚ legacy_promises lane ∧
      legacy_active lane' = legacy_active lane ∧
      ∃ queue, converted lane' = Some queue ∧
        ∀ l, legacy_queue lane = inr l →
          queue_ok queue ∧ Forall (λ e, (sequence e < next)%Z) (queue_entries queue).
Proof.
  intros Hv. unfold migrateQueueState. rewrite bool_decide_false by done.
  set (n0 := match legacy_nextQueueSequence state with Some 0%Z | None => 1%Z | Some n => n end).
  pose proof (migrateLanes_inv (legacy_lanes state) n0 (n0 - 1)%Z) as H.
  destruct (foldl _ _ _) as [[next maxSeq] out]. destruct H as [Hlen Hout]. simpl.
  eexists. split_and!; [done|done|done|]. intros i lane lane' Hi Ho.
  destruct (Hout i lane lane' Hi Ho) as (H1 & H2 & queue & H3 & H4).
  split_and!; [done|done|]. exists queue. split; [done|]. intros l Hl.
  destruct (H4 l Hl) as [H5 H6]. split; [done|].
  eapply Forall_impl; [exact H6|]. simpl. intros e He.
  destruct (Z.leb_spec next maxSeq); lia.
Qed.

Definition sample_entry (n : nat) : QueueEntry :=
  mkEntry n None n 0 0 Normal 2000 0 0 None None None None None None.

Lemma migrateQueueState_sound_witness :
  let state := mkLegacyState
    [mkLegacyLane (inr [mkLegacyEntry (sample_entry 1) (Some 7) (Some 5) None None;
                        mkLegacyEntry (sample_entry 2) (Some 1) None None None]) [3]]%Z
    (Some 2%Z) None in
  (legacy_formatVersion state ≠ Some 1%Z) ∧
  legacy_nextQueueSequence (migrateQueueState state) = Some 6%Z ∧
  ∃ next, legacy_nextQueueSequence (migrateQueueState state) = Some next.
Proof.
  intros state. split; [done|]. split; [vm_compute; reflexivity|].
  destruct (migrateQueueState_sound state ltac:(done)) as (next & Hn & _). by exists next.
Defined.

(** [normalizeLane] *)
Definition normalizeLane (lane : string) : string := str_or (js_trim lane) "main".

Lemma normalizeLane_idemp lane : normalizeLane (normalizeLane lane) = normalizeLane lane.
Proof.
  unfold normalizeLane. destruct (js_trim lane) as [|c r] eqn:E; [done|]. simpl.
  rewrite <-E, js_trim_idemp, E. done.
Qed.
