(* ===== verification/WorkAdmission.v ===== *)
(** * Gateway work admission

    The process-wide gate that root work (requests, timers) passes, with its
    three fences: the reversible restart-signal fence, the one-way restart
    drain and the reversible host suspension
    ([src/process/gateway-work-admission.ts]).

    Objects with identity live in heaps and are named by references: the
    admitted roots, the release closures handed out for them, and the
    continuation scopes.  [AsyncLocalStorage] is the [current] argument of the
    operations that read the store.  Promise resolutions, callbacks of the
    suspension coordinator and log lines are appended to [trace]. *)
From S2P Require Import Prelude JsCollections.

Inductive GatewaySuspendAdmissionPhase := Accepting | Preparing | Draining | Prepared.
#[export] Instance GatewaySuspendAdmissionPhase_eq_dec : EqDecision GatewaySuspendAdmissionPhase.
Proof. solve_decision. Defined.

Inductive AdmissionReason := RestartSignalFence | RestartDrain | SuspendPhase.

Inductive AdmissionEvent :=
| WaiterResolved (waiter : nat)
| SuspendInvalidated (callback : nat)
| DrainSignalAborted (controller : nat)
| AdmissionClosed (reason : AdmissionReason)
| AdmissionReopened (reason : AdmissionReason)
| FenceClearedWhileSuspended.

Record GatewayRootWorkAdmission := mkRoot {
  references : Z;
  released : bool;
  retiredByReset : bool
}.
#[export] Instance eta_Root : Eta GatewayRootWorkAdmission := λ r,
  mkRoot (references r) (released r) (retiredByReset r).

(** A closure made by [createGatewayRootWorkRelease]: the root it captured and
    its own [leaseReleased] flag. *)
Record RootWorkRelease := mkRelease {
  release_root : nat;
  leaseReleased : bool
}.
#[export] Instance eta_Release : Eta RootWorkRelease := λ r,
  mkRelease (release_root r) (leaseReleased r).

(** A continuation scope: the captured root, its [released] flag and the
    retained release closure, if it retains the root. *)
Record ContinuationScope := mkScope {
  scope_current : nat;
  scope_released : bool;
  scope_releaseAdmission : option nat
}.
#[export] Instance eta_Scope : Eta ContinuationScope := λ r,
  mkScope (scope_current r) (scope_released r) (scope_releaseAdmission r).

Record GatewayWorkAdmissionState := mkState {
  restartDraining : bool;
  restartDrainController : nat;
  abortedControllers : list nat;
  restartSignalPending : bool;
  restartSignalGeneration : Z;
  suspendPhase : GatewaySuspendAdmissionPhase;
  suspendGeneration : Z;
  suspendInvalidated : option nat;
  activeRootWork : list nat;
  suspendOpenWaiters : list nat;
  rootHeap : gmap nat GatewayRootWorkAdmission;
  releaseHeap : gmap nat RootWorkRelease;
  scopeHeap : gmap nat ContinuationScope;
  nextRef : nat;
  trace : list AdmissionEvent
}.
#[export] Instance eta_State : Eta GatewayWorkAdmissionState := λ s,
  mkState (restartDraining s) (restartDrainController s) (abortedControllers s)
    (restartSignalPending s) (restartSignalGeneration s) (suspendPhase s)
    (suspendGeneration s) (suspendInvalidated s) (activeRootWork s)
    (suspendOpenWaiters s) (rootHeap s) (releaseHeap s) (scopeHeap s) (nextRef s) (trace s).

Definition initialState : GatewayWorkAdmissionState :=
  mkState false 0 [] false 0 Accepting 0 None [] [] ∅ ∅ ∅ 1 [].

Implicit Types (s : GatewayWorkAdmissionState) (current : option nat).

Definition emit (ev : AdmissionEvent) s := s <| trace ::= λ t, t ++ [ev] |>.

(** ** Roots and their release closures *)

Definition createGatewayRootWorkRelease (admission : nat) s : GatewayWorkAdmissionState * nat :=
  let rid := nextRef s in
  (s <| releaseHeap ::= <[rid := mkRelease admission false]> |> <| nextRef ::= S |>, rid).

(** The lease of a new root: its root and its release closure. *)
Definition createGatewayRootWorkAdmission s : GatewayWorkAdmissionState * (nat * nat) :=
  let root := nextRef s in
  let s := s <| rootHeap ::= <[root := mkRoot 1 false false]> |> <| nextRef ::= S |> in
  let s := s <| activeRootWork ::= JsSet.add root |> in
  let '(s, rid) := createGatewayRootWorkRelease root s in
  (s, (root, rid)).

(** Calling a release closure. *)
Definition callRelease (rid : nat) s : GatewayWorkAdmissionState :=
  match releaseHeap s !! rid with
  | None => s
  | Some lease =>
      match rootHeap s !! release_root lease with
      | None => s
      | Some admission =>
          if leaseReleased lease || released admission then s
          else
            let s := s <| releaseHeap ::= <[rid := lease <| leaseReleased := true |>]> |> in
            let admission := admission <| references ::= λ n, (n - 1)%Z |> in
            if (0 <? references admission)%Z
            then s <| rootHeap ::= <[release_root lease := admission]> |>
            else
              s <| rootHeap ::= <[release_root lease := admission <| released := true |>]> |>
                <| activeRootWork ::= JsSet.delete (release_root lease) |>
      end
  end.

Definition rootReleased (r : nat) s : bool :=
  match rootHeap s !! r with
  | Some adm => released adm
  | None => true
  end.

(** ** Fences *)

Definition resolveSuspendOpenWaiters s : GatewayWorkAdmissionState :=
  let waiters := suspendOpenWaiters s in
  foldl (λ s w, emit (WaiterResolved w) s) (s <| suspendOpenWaiters := [] |>) waiters.

Definition invalidateSuspendAdmission s : GatewayWorkAdmissionState :=
  let callback := suspendInvalidated s in
  let wasClosed := bool_decide (suspendPhase s ≠ Accepting) in
  let s := s <| suspendInvalidated := None |> <| suspendPhase := Accepting |>
    <| suspendGeneration ::= λ g, (g + 1)%Z |> in
  let s := resolveSuspendOpenWaiters s in
  let s := if wasClosed && negb (restartDraining s)
           then emit (AdmissionReopened SuspendPhase) s else s in
  match callback with
  | Some cb => emit (SuspendInvalidated cb) s
  | None => s
  end.

Definition clearRestartSignalFence s : GatewayWorkAdmissionState * bool :=
  if restartDraining s || negb (restartSignalPending s) then (s, false)
  else
    let s := s <| restartSignalPending := false |>
      <| restartSignalGeneration ::= λ g, (g + 1)%Z |> in
    let s := resolveSuspendOpenWaiters s in
    let s := if bool_decide (suspendPhase s = Accepting)
             then emit (AdmissionReopened RestartSignalFence) s
             else emit FenceClearedWhileSuspended s in
    (s, true).

Definition isGatewayWorkAdmissionClosed s : bool :=
  restartDraining s || restartSignalPending s || bool_decide (suspendPhase s ≠ Accepting).

Definition isGatewaySubordinateWorkAdmissionClosed current s : bool :=
  if restartDraining s || restartSignalPending s then true
  else
    match current with
    | Some r => rootReleased r s
    | None => bool_decide (suspendPhase s ≠ Accepting)
    end.

Definition isGatewayRestartDraining s : bool := restartDraining s || restartSignalPending s.

Definition markGatewayRestartDraining s : GatewayWorkAdmissionState :=
  if restartDraining s then s
  else
    let s := s <| restartSignalPending := false |>
      <| restartSignalGeneration ::= λ g, (g + 1)%Z |>
      <| restartDraining := true |>
      <| abortedControllers ::= JsSet.add (restartDrainController s) |> in
    let s := emit (DrainSignalAborted (restartDrainController s)) s in
    let s := resolveSuspendOpenWaiters s in
    let s := emit (AdmissionClosed RestartDrain) s in
    if bool_decide (suspendPhase s ≠ Accepting) then invalidateSuspendAdmission s else s.

(** A restart-signal lease is the generation its [rollback] closure captured. *)
Definition beginGatewayRestartSignalAdmission s : GatewayWorkAdmissionState * option Z :=
  if restartDraining s || restartSignalPending s then (s, None)
  else
    let generation := (restartSignalGeneration s + 1)%Z in
    let s := s <| restartSignalPending := true |> <| restartSignalGeneration := generation |> in
    (emit (AdmissionClosed RestartSignalFence) s, Some generation).

Definition rollbackRestartSignal (generation : Z) s : GatewayWorkAdmissionState * bool :=
  if negb (restartSignalPending s) || negb (restartSignalGeneration s =? generation)%Z
  then (s, false)
  else clearRestartSignalFence s.

Definition rollbackGatewayRestartSignalFence s : GatewayWorkAdmissionState * bool :=
  clearRestartSignalFence s.

(** ** Root admission *)

(** [ownsRoot: false] leases do nothing on release. *)
Inductive GatewayRootWorkAdmissionLease :=
| NestedLease
| RootLease (root release : nat).

Definition admitRoot s : GatewayWorkAdmissionState * option GatewayRootWorkAdmissionLease :=
  let '(s, (root, rid)) := createGatewayRootWorkAdmission s in
  (s, Some (RootLease root rid)).

Definition tryBeginGatewayRootWorkAdmission current s :
    GatewayWorkAdmissionState * option GatewayRootWorkAdmissionLease :=
  if match current with Some r => negb (rootReleased r s) | None => false end
  then (s, Some NestedLease)
  else if restartDraining s || restartSignalPending s || bool_decide (suspendPhase s ≠ Accepting)
  then (s, None)
  else admitRoot s.

Definition tryBeginGatewayRestartStartupRootWorkAdmission s :
    GatewayWorkAdmissionState * option GatewayRootWorkAdmissionLease :=
  if (negb (restartDraining s) && negb (restartSignalPending s))
     || bool_decide (suspendPhase s ≠ Accepting)
  then (s, None)
  else admitRoot s.

Definition tryBeginGatewayPreparedRestartRootWorkAdmission s :
    GatewayWorkAdmissionState * option GatewayRootWorkAdmissionLease :=
  if restartDraining s || restartSignalPending s
     || bool_decide (suspendPhase s ≠ Prepared) || (0 <? JsSet.size (activeRootWork s))%Z
  then (s, None)
  else admitRoot s.

Definition tryBeginGatewayIndependentRootWorkAdmission s :
    GatewayWorkAdmissionState * option GatewayRootWorkAdmissionLease :=
  if restartDraining s || restartSignalPending s || bool_decide (suspendPhase s ≠ Accepting)
  then (s, None)
  else admitRoot s.

(** One pass of an admission loop that waits for the gate: it throws while the
    process drains, admits, or parks its resolver and awaits it. *)
Inductive AdmissionAttempt :=
| AttemptThrows
| AttemptAdmitted (lease : GatewayRootWorkAdmissionLease)
| AttemptWaits.

Definition attemptAdmission
    (tryBegin : GatewayWorkAdmissionState →
                GatewayWorkAdmissionState * option GatewayRootWorkAdmissionLease)
    (waiter : nat) s : GatewayWorkAdmissionState * AdmissionAttempt :=
  if restartDraining s then (s, AttemptThrows)
  else
    match tryBegin s with
    | (s, Some lease) => (s, AttemptAdmitted lease)
    | (s, None) => (s <| suspendOpenWaiters ::= JsSet.add waiter |>, AttemptWaits)
    end.

Definition beginGatewayRootWorkAdmissionWhenOpen current (waiter : nat) s :=
  attemptAdmission (tryBeginGatewayRootWorkAdmission current) waiter s.

Definition runWithGatewayIndependentRootWorkAdmission (waiter : nat) s :=
  attemptAdmission tryBeginGatewayIndependentRootWorkAdmission waiter s.

(** [None]: the task runs at once in the inherited context. *)
Definition runWithGatewayRootWorkReadmission current (waiter : nat) s :
    GatewayWorkAdmissionState * option AdmissionAttempt :=
  if match current with
     | Some r => match rootHeap s !! r with Some adm => retiredByReset adm | None => false end
     | None => false
     end
  then
    let '(s, a) := runWithGatewayIndependentRootWorkAdmission waiter s in (s, Some a)
  else (s, None).

Definition runWithGatewayIndependentRootWorkContinuation current (waiter : nat) s :
    GatewayWorkAdmissionState * AdmissionAttempt :=
  if match current with Some r => rootReleased r s | None => true end
  then runWithGatewayIndependentRootWorkAdmission waiter s
  else
    let '(s, (root, rid)) := createGatewayRootWorkAdmission s in
    (s, AttemptAdmitted (RootLease root rid)).

(** ** Continuation scopes *)

Definition rootLive (r : nat) s : bool := negb (rootReleased r s) && JsSet.has r (activeRootWork s).

(** [admission.references += 1] followed by a new release closure. *)
Definition retainRoot (r : nat) s : GatewayWorkAdmissionState * nat :=
  createGatewayRootWorkRelease r
    (s <| rootHeap ::= alter (λ adm, adm <| references ::= λ n, (n + 1)%Z |>) r |>).

Definition createGatewayRootWorkAdmissionContinuationScope (retain : bool) current s :
    GatewayWorkAdmissionState * option nat :=
  match current with
  | None => (s, None)
  | Some r =>
      if negb (rootLive r s) then (s, None)
      else
        let '(s, handle) :=
          if retain then let '(s, rid) := retainRoot r s in (s, Some rid) else (s, None) in
        let sid := nextRef s in
        (s <| scopeHeap ::= <[sid := mkScope r false handle]> |> <| nextRef ::= S |>, Some sid)
  end.

Definition captureGatewayRootWorkAdmissionContinuationScope :=
  createGatewayRootWorkAdmissionContinuationScope false.
Definition retainGatewayRootWorkAdmissionContinuationScope :=
  createGatewayRootWorkAdmissionContinuationScope true.

Definition scopeRelease (sid : nat) s : GatewayWorkAdmissionState :=
  match scopeHeap s !! sid with
  | None => s
  | Some scope =>
      if scope_released scope then s
      else
        let s := s <| scopeHeap ::= <[sid := scope <| scope_released := true |>]> |> in
        match scope_releaseAdmission scope with
        | Some rid => callRelease rid s
        | None => s
        end
  end.

(** [scope.run]: throws ([None]) or enters the callback under a fresh
    reference, whose closure the [finally] block calls. *)
Definition scopeRunBegin (sid : nat) s : GatewayWorkAdmissionState * option nat :=
  match scopeHeap s !! sid with
  | None => (s, None)
  | Some scope =>
      if scope_released scope || negb (rootLive (scope_current scope) s) then (s, None)
      else let '(s, rid) := retainRoot (scope_current scope) s in (s, Some rid)
  end.

Definition getActiveGatewayRootWorkCount (excludeCurrent : bool) current s : Z :=
  let count := JsSet.size (activeRootWork s) in
  let count :=
    match current with
    | Some r => if excludeCurrent && rootLive r s then (count - 1)%Z else count
    | None => count
    end in
  (0 `max` count)%Z.

(** ** Suspension *)

(** A suspension lease is the generation its closures captured. *)
Definition tryBeginGatewaySuspendAdmission (onInvalidated : nat) s :
    GatewayWorkAdmissionState * option Z :=
  if restartDraining s || restartSignalPending s || bool_decide (suspendPhase s ≠ Accepting)
  then (s, None)
  else
    let generation := (suspendGeneration s + 1)%Z in
    let s := s <| suspendPhase := Preparing |> <| suspendGeneration := generation |>
      <| suspendInvalidated := Some onInvalidated |> in
    (emit (AdmissionClosed SuspendPhase) s, Some generation).

Definition transition (generation : Z) (expected next : GatewaySuspendAdmissionPhase) s :
    GatewayWorkAdmissionState * bool :=
  if negb (suspendGeneration s =? generation)%Z || bool_decide (suspendPhase s ≠ expected)
  then (s, false)
  else
    let s := s <| suspendPhase := next |> in
    if bool_decide (next = Accepting)
    then
      let s := s <| suspendInvalidated := None |> in
      (emit (AdmissionReopened SuspendPhase) (resolveSuspendOpenWaiters s), true)
    else (s, true).

(** [a() || b()] *)
Definition orElse (a b : GatewayWorkAdmissionState → GatewayWorkAdmissionState * bool) s :
    GatewayWorkAdmissionState * bool :=
  match a s with
  | (s, true) => (s, true)
  | (s, false) => b s
  end.

Definition suspendDrain (generation : Z) := transition generation Preparing Draining.
Definition suspendCommit (generation : Z) :=
  orElse (transition generation Preparing Prepared) (transition generation Draining Prepared).
Definition suspendRollback (generation : Z) := transition generation Preparing Accepting.
Definition suspendRelease (generation : Z) :=
  orElse (transition generation Draining Accepting) (transition generation Prepared Accepting).

(** ** Reset after an in-process restart *)

Definition retireRoot (adm : GatewayRootWorkAdmission) : GatewayRootWorkAdmission :=
  adm <| references := 0%Z |> <| retiredByReset := true |> <| released := true |>.

Definition resetGatewayWorkAdmission s : GatewayWorkAdmissionState :=
  let s := foldl (λ s r, s <| rootHeap ::= alter retireRoot r |>) s (activeRootWork s) in
  let s := s <| activeRootWork := [] |> <| restartDraining := false |>
    <| restartDrainController := nextRef s |> <| nextRef ::= S |>
    <| restartSignalPending := false |>
    <| restartSignalGeneration ::= λ g, (g + 1)%Z |> in
  let s :=
    if bool_decide (suspendPhase s ≠ Accepting) then invalidateSuspendAdmission s
    else s <| suspendGeneration ::= λ g, (g + 1)%Z |> <| suspendInvalidated := None |> in
  resolveSuspendOpenWaiters s.

(** ** Operation sequences *)

Inductive AdmissionOp :=
| OpMarkRestartDraining
| OpBeginRestartSignal
| OpRollbackRestartSignal (generation : Z)
| OpRollbackFence
| OpTryBeginRoot (current : option nat)
| OpTryBeginStartup
| OpTryBeginPrepared
| OpBeginWhenOpen (current : option nat) (waiter : nat)
| OpRunReadmission (current : option nat) (waiter : nat)
| OpRunContinuation (current : option nat) (waiter : nat)
| OpRelease (release : nat)
| OpCreateScope (retain : bool) (current : option nat)
| OpScopeRelease (scope : nat)
| OpScopeRunBegin (scope : nat)
| OpTryBeginSuspend (callback : nat)
| OpSuspendDrain (generation : Z)
| OpSuspendCommit (generation : Z)
| OpSuspendRollback (generation : Z)
| OpSuspendRelease (generation : Z)
| OpResetAdmission.

(** References and generations are arbitrary: the callers may hold stale
    leases, released closures and retired roots. *)
Definition runOp (op : AdmissionOp) s : GatewayWorkAdmissionState :=
  match op with
  | OpMarkRestartDraining => markGatewayRestartDraining s
  | OpBeginRestartSignal => (beginGatewayRestartSignalAdmission s).1
  | OpRollbackRestartSignal g => (rollbackRestartSignal g s).1
  | OpRollbackFence => (rollbackGatewayRestartSignalFence s).1
  | OpTryBeginRoot c => (tryBeginGatewayRootWorkAdmission c s).1
  | OpTryBeginStartup => (tryBeginGatewayRestartStartupRootWorkAdmission s).1
  | OpTryBeginPrepared => (tryBeginGatewayPreparedRestartRootWorkAdmission s).1
  | OpBeginWhenOpen c w => (beginGatewayRootWorkAdmissionWhenOpen c w s).1
  | OpRunReadmission c w => (runWithGatewayRootWorkReadmission c w s).1
  | OpRunContinuation c w => (runWithGatewayIndependentRootWorkContinuation c w s).1
  | OpRelease rid => callRelease rid s
  | OpCreateScope r c => (createGatewayRootWorkAdmissionContinuationScope r c s).1
  | OpScopeRelease sid => scopeRelease sid s
  | OpScopeRunBegin sid => (scopeRunBegin sid s).1
  | OpTryBeginSuspend cb => (tryBeginGatewaySuspendAdmission cb s).1
  | OpSuspendDrain g => (suspendDrain g s).1
  | OpSuspendCommit g => (suspendCommit g s).1
  | OpSuspendRollback g => (suspendRollback g s).1
  | OpSuspendRelease g => (suspendRelease g s).1
  | OpResetAdmission => resetGatewayWorkAdmission s
  end.

Definition runOps (ops : list AdmissionOp) s : GatewayWorkAdmissionState :=
  foldl (λ s op, runOp op s) s ops.

(** ** Invariants *)

(** Release closures of a root that have not been called. *)
Definition open_handles (r : nat) (m : gmap nat RootWorkRelease) : Z :=
  Z.of_nat (size (filter (λ p, release_root p.2 = r ∧ leaseReleased p.2 = false) m)).

Record gate_inv s : Prop := {
  gi_drain : restartDraining s = true →
    restartSignalPending s = false ∧ suspendPhase s = Accepting;
  gi_callback : suspendPhase s = Accepting ↔ suspendInvalidated s = None;
  gi_waiters : suspendOpenWaiters s ≠ [] →
    restartDraining s = false ∧
    (restartSignalPending s = true ∨ suspendPhase s ≠ Accepting);
  gi_controller : restartDrainController s < nextRef s;
  gi_aborted c : c ∈ abortedControllers s → c < nextRef s;
  gi_signal : restartDrainController s ∈ abortedControllers s ↔ restartDraining s = true
}.

Record roots_inv s : Prop := {
  ri_nodup : NoDup (activeRootWork s);
  ri_root_fresh r adm : rootHeap s !! r = Some adm → r < nextRef s;
  ri_release_fresh rid l : releaseHeap s !! rid = Some l →
    rid < nextRef s ∧ is_Some (rootHeap s !! release_root l);
  ri_active r : r ∈ activeRootWork s ↔
    ∃ adm, rootHeap s !! r = Some adm ∧ released adm = false;
  ri_references r adm : rootHeap s !! r = Some adm → released adm = false →
    references adm = open_handles r (releaseHeap s) ∧ (1 ≤ references adm)%Z
}.

Lemma open_handles_fresh r r' rid (m : gmap nat RootWorkRelease) :
  m !! rid = None →
  open_handles r (<[rid := mkRelease r' false]> m) =
    (open_handles r m + if decide (r' = r) then 1 else 0)%Z.
Proof.
  intros Hm. unfold open_handles. rewrite map_filter_insert. case_decide as Hd; simpl in Hd.
  - rewrite map_size_insert_None by (apply map_lookup_filter_None; by left).
    rewrite decide_True by tauto. lia.
  - rewrite decide_False by tauto. rewrite delete_id by done. lia.
Qed.

Lemma open_handles_close r rid l (m : gmap nat RootWorkRelease) :
  m !! rid = Some l → leaseReleased l = false →
  open_handles r (<[rid := mkRelease (release_root l) true]> m) =
    (open_handles r m - if decide (release_root l = r) then 1 else 0)%Z.
Proof.
  intros Hm Hl. unfold open_handles. rewrite map_filter_insert.
  rewrite decide_False by (simpl; naive_solver). rewrite map_filter_delete.
  case_decide as Hd.
  - assert (Hf : filter (λ p, release_root p.2 = r ∧ leaseReleased p.2 = false) m !! rid = Some l)
      by (apply map_lookup_filter_Some; naive_solver).
    rewrite map_size_delete_Some by by eexists.
    assert (size (filter (λ p, release_root p.2 = r ∧ leaseReleased p.2 = false) m) ≠ 0);
      [|lia]. intros H0%map_size_empty_inv. by rewrite H0, lookup_empty in Hf.
  - rewrite delete_id; [lia|]. apply map_lookup_filter_None. right.
    intros x Hx [H1 _]. simplify_eq.
Qed.

(** Resolving the waiters empties the set and appends one event per waiter. *)
Lemma resolveSuspendOpenWaiters_eq s :
  resolveSuspendOpenWaiters s =
    s <| suspendOpenWaiters := [] |>
      <| trace := trace s ++ (WaiterResolved <$> suspendOpenWaiters s) |>.
Proof.
  unfold resolveSuspendOpenWaiters.
  enough (H : ∀ ws s0, foldl (λ s w, emit (WaiterResolved w) s) s0 ws =
    s0 <| trace := trace s0 ++ (WaiterResolved <$> ws) |>) by (rewrite H; done).
  induction ws as [|w ws IH]; intros s0; simpl.
  - rewrite app_nil_r. by destruct s0.
  - rewrite IH. unfold emit. simpl. by rewrite <-app_assoc.
Qed.

(** *** The gate: fences and waiters *)

(** The part of the state the fences own. *)
Definition gate_frame s s' : Prop :=
  restartDraining s' = restartDraining s ∧
  restartSignalPending s' = restartSignalPending s ∧
  suspendPhase s' = suspendPhase s ∧
  suspendInvalidated s' = suspendInvalidated s ∧
  suspendOpenWaiters s' = suspendOpenWaiters s ∧
  restartDrainController s' = restartDrainController s ∧
  abortedControllers s' = abortedControllers s ∧
  nextRef s ≤ nextRef s'.

(** The part of the state root work owns. *)
Definition roots_frame s s' : Prop :=
  activeRootWork s' = activeRootWork s ∧ rootHeap s' = rootHeap s ∧
  releaseHeap s' = releaseHeap s ∧ nextRef s ≤ nextRef s'.

#[export] Instance gate_frame_preorder : PreOrder gate_frame.
Proof.
  split.
  - intros s. by repeat split.
  - intros s1 s2 s3. unfold gate_frame. intros H1 H2. destruct_and!. repeat split; congruence || lia.
Qed.
#[export] Instance roots_frame_preorder : PreOrder roots_frame.
Proof.
  split.
  - intros s. by repeat split.
  - intros s1 s2 s3. unfold roots_frame. intros H1 H2. destruct_and!. repeat split; congruence || lia.
Qed.

Lemma gate_inv_frame s s' : gate_frame s s' → gate_inv s → gate_inv s'.
Proof.
  intros (E1 & E2 & E3 & E4 & E5 & E6 & E7 & E8) [H1 H2 H3 H4 H5 H6].
  split; rewrite ?E1, ?E2, ?E3, ?E4, ?E5, ?E6, ?E7; auto; [lia|].
  intros c Hc. specialize (H5 c Hc). lia.
Qed.

Lemma roots_inv_frame s s' : roots_frame s s' → roots_inv s → roots_inv s'.
Proof.
  intros (E1 & E2 & E3 & E4) [H1 H2 H3 H4 H5].
  split; rewrite ?E1, ?E2, ?E3; auto.
  - intros r adm Hr. specialize (H2 _ _ Hr). lia.
  - intros rid l Hl. destruct (H3 _ _ Hl). split; [lia|done].
Qed.

Ltac unfold_gate :=
  unfold markGatewayRestartDraining, beginGatewayRestartSignalAdmission, rollbackRestartSignal,
    rollbackGatewayRestartSignalFence, clearRestartSignalFence, tryBeginGatewaySuspendAdmission,
    suspendDrain, suspendCommit, suspendRollback, suspendRelease, orElse, transition,
    invalidateSuspendAdmission, emit in *;
  rewrite ?resolveSuspendOpenWaiters_eq in *.

(** A fence operation: run it on every combination of its guards, then check
    each field of the invariant. *)
Ltac solve_field :=
  simplify_eq/=; intros; rewrite ?JsSet.elem_of_add in *; destruct_or?; subst;
  try done; try split; try tauto; try lia; eauto.
Ltac solve_gate :=
  match goal with |- context [gate_inv ?s] => is_var s; 
      destruct s as [[] ? ? [] ? [] ? [?|] ? ? ? ? ? ? ?] end;
  intros [H1 H2 H3 H4 H5 H6]; simpl in *;
  try discriminate (proj1 (H1 eq_refl)); try discriminate (proj2 (H1 eq_refl));
  try discriminate (proj1 H2 eq_refl); try discriminate (proj2 H2 eq_refl);
  unfold_gate; simpl; rewrite ?resolveSuspendOpenWaiters_eq; simpl;
  repeat match goal with |- context [Z.eqb ?a ?b] => destruct (Z.eqb a b); simpl end;
  rewrite ?resolveSuspendOpenWaiters_eq; simpl; rewrite ?resolveSuspendOpenWaiters_eq; simpl;
  split; simpl; solve_field.

Lemma markGatewayRestartDraining_gate s :
  gate_inv s → gate_inv (markGatewayRestartDraining s).
Proof. solve_gate. Qed.

Lemma beginGatewayRestartSignalAdmission_gate s :
  gate_inv s → gate_inv (beginGatewayRestartSignalAdmission s).1.
Proof. solve_gate. Qed.

Lemma clearRestartSignalFence_gate s :
  gate_inv s → gate_inv (clearRestartSignalFence s).1.
Proof. solve_gate. Qed.

Lemma rollbackRestartSignal_gate g s : gate_inv s → gate_inv (rollbackRestartSignal g s).1.
Proof.
  intros H. unfold rollbackRestartSignal. case_match; [done|].
  by apply clearRestartSignalFence_gate.
Qed.

Lemma tryBeginGatewaySuspendAdmission_gate cb s :
  gate_inv s → gate_inv (tryBeginGatewaySuspendAdmission cb s).1.
Proof. solve_gate. Qed.

(** The transitions a lease can make never leave the accepting phase. *)
Lemma transition_gate g expected next s :
  expected ≠ Accepting → gate_inv s → gate_inv (transition g expected next s).1.
Proof.
  intros He H. unfold transition.
  destruct (_ || _) eqn:G; [done|].
  apply orb_false_iff in G as [_ G%bool_decide_eq_false%dec_stable].
  destruct H as [H1 H2 H3 H4 H5 H6].
  assert (Hd : restartDraining s = false).
  { destruct (restartDraining s) eqn:E; [|done]. destruct (H1 eq_refl). congruence. }
  case_bool_decide as Hn; unfold emit; rewrite ?resolveSuspendOpenWaiters_eq;
    split; simpl; rewrite ?Hd in *; auto; try done.
  split; [done|]. intros Hc%H2. congruence.
Qed.

Lemma orElse_preserves (P : GatewayWorkAdmissionState → Prop) a b s :
  (∀ s, P s → P (a s).1) → (∀ s, P s → P (b s).1) → P s → P (orElse a b s).1.
Proof.
  intros Ha Hb Hs. unfold orElse. specialize (Ha s Hs).
  destruct (a s) as [s' []]; simpl in *; auto.
Qed.

Lemma invalidateSuspendAdmission_gate s :
  gate_inv s → gate_inv (invalidateSuspendAdmission s).
Proof. solve_gate. Qed.

Lemma retire_loop_eq rs s :
  foldl (λ s r, s <| rootHeap ::= alter retireRoot r |>) s rs =
    s <| rootHeap := foldl (λ m r, alter retireRoot r m) (rootHeap s) rs |>.
Proof.
  revert s. induction rs as [|r rs IH]; intros s; simpl; [by destruct s|].
  by rewrite IH.
Qed.

Lemma resetGatewayWorkAdmission_gate s :
  gate_inv s → gate_inv (resetGatewayWorkAdmission s).
Proof.
  intros H. unfold resetGatewayWorkAdmission. rewrite retire_loop_eq. revert H.
  solve_gate; try (specialize (H5 _ H); lia); try (intros Hc; specialize (H5 _ Hc); lia).
Qed.

Lemma gate_frame_emit ev s : gate_frame s (emit ev s).
Proof. by repeat split. Qed.

Ltac solve_frame :=
  repeat case_match; simplify_eq/=; repeat split; simpl; try done; try lia.

Lemma callRelease_frame rid s : gate_frame s (callRelease rid s).
Proof. unfold callRelease. solve_frame. Qed.

Lemma admitRoot_frame s : gate_frame s (admitRoot s).1.
Proof. repeat split; simpl; lia. Qed.

Lemma retainRoot_frame r s : gate_frame s (retainRoot r s).1.
Proof. repeat split; simpl; lia. Qed.

Lemma tryBeginRoot_frame c s : gate_frame s (tryBeginGatewayRootWorkAdmission c s).1.
Proof.
  unfold tryBeginGatewayRootWorkAdmission. repeat case_match; done || apply admitRoot_frame.
Qed.

Lemma tryBeginIndependent_frame s :
  gate_frame s (tryBeginGatewayIndependentRootWorkAdmission s).1.
Proof.
  unfold tryBeginGatewayIndependentRootWorkAdmission.
  repeat case_match; done || apply admitRoot_frame.
Qed.

(** A waiter is parked only when the gate is closed and not draining. *)
Lemma attemptAdmission_gate tryBegin w s :
  (∀ s, gate_frame s (tryBegin s).1) →
  (∀ s, (tryBegin s).2 = None → isGatewayWorkAdmissionClosed s = true) →
  gate_inv s → gate_inv (attemptAdmission tryBegin w s).1.
Proof.
  intros Hf Hc Hs. unfold attemptAdmission. destruct (restartDraining s) eqn:Ed; [done|].
  specialize (Hf s). specialize (Hc s). destruct (tryBegin s) as [s' [l|]]; simpl in *.
  { by eapply gate_inv_frame. }
  specialize (Hc eq_refl). unfold isGatewayWorkAdmissionClosed in Hc. rewrite Ed in Hc.
  assert (Hs' : gate_inv s') by by eapply gate_inv_frame.
  destruct Hf as (E1 & E2 & E3 & _). destruct Hs' as [H1 H2 H3 H4 H5 H6].
  split; simpl; auto. intros _. rewrite E1, E2, E3. split; [done|].
  apply orb_true_iff in Hc as [Hc|Hc%bool_decide_eq_true]; simpl in *; auto.
Qed.

Lemma tryBeginRoot_None c s :
  (tryBeginGatewayRootWorkAdmission c s).2 = None → isGatewayWorkAdmissionClosed s = true.
Proof.
  unfold tryBeginGatewayRootWorkAdmission, isGatewayWorkAdmissionClosed.
  repeat case_match; simpl; done.
Qed.

Lemma tryBeginIndependent_None s :
  (tryBeginGatewayIndependentRootWorkAdmission s).2 = None →
  isGatewayWorkAdmissionClosed s = true.
Proof.
  unfold tryBeginGatewayIndependentRootWorkAdmission, isGatewayWorkAdmissionClosed.
  repeat case_match; simpl; done.
Qed.

Lemma createScope_frame b c s :
  gate_frame s (createGatewayRootWorkAdmissionContinuationScope b c s).1.
Proof.
  unfold createGatewayRootWorkAdmissionContinuationScope.
  destruct c as [r|]; [|done]. destruct (rootLive r s); [|done].
  destruct b; repeat split; simpl; lia.
Qed.

Lemma scopeRelease_frame sid s : gate_frame s (scopeRelease sid s).
Proof.
  unfold scopeRelease. repeat case_match; simplify_eq; try done.
  etrans; [|apply callRelease_frame]. by repeat split.
Qed.

Lemma scopeRunBegin_frame sid s : gate_frame s (scopeRunBegin sid s).1.
Proof.
  unfold scopeRunBegin. destruct (scopeHeap s !! sid); [|done].
  case_match; [done|]. exact (retainRoot_frame _ s).
Qed.

#[export] Hint Resolve markGatewayRestartDraining_gate beginGatewayRestartSignalAdmission_gate
  clearRestartSignalFence_gate rollbackRestartSignal_gate tryBeginGatewaySuspendAdmission_gate
  transition_gate resetGatewayWorkAdmission_gate callRelease_frame admitRoot_frame
  tryBeginRoot_frame tryBeginIndependent_frame tryBeginRoot_None tryBeginIndependent_None
  createScope_frame scopeRelease_frame scopeRunBegin_frame : agentos.

Lemma suspendDrain_gate g s : gate_inv s → gate_inv (suspendDrain g s).1.
Proof. by apply transition_gate. Qed.

Lemma suspendCommit_gate g s : gate_inv s → gate_inv (suspendCommit g s).1.
Proof. intros. unfold suspendCommit. apply orElse_preserves; auto with agentos. Qed.

Lemma suspendRollback_gate g s : gate_inv s → gate_inv (suspendRollback g s).1.
Proof. by apply transition_gate. Qed.

Lemma suspendRelease_gate g s : gate_inv s → gate_inv (suspendRelease g s).1.
Proof. intros. unfold suspendRelease. apply orElse_preserves; auto with agentos. Qed.

Lemma independentAdmission_gate w s :
  gate_inv s → gate_inv (runWithGatewayIndependentRootWorkAdmission w s).1.
Proof.
  intros. unfold runWithGatewayIndependentRootWorkAdmission. apply attemptAdmission_gate; auto with agentos.
Qed.

Lemma beginWhenOpen_gate c w s :
  gate_inv s → gate_inv (beginGatewayRootWorkAdmissionWhenOpen c w s).1.
Proof.
  intros. unfold beginGatewayRootWorkAdmissionWhenOpen. apply attemptAdmission_gate; eauto with agentos.
Qed.

Lemma readmission_gate c w s :
  gate_inv s → gate_inv (runWithGatewayRootWorkReadmission c w s).1.
Proof.
  intros H. unfold runWithGatewayRootWorkReadmission. case_match; [|done].
  pose proof (independentAdmission_gate w s H).
  by destruct (runWithGatewayIndependentRootWorkAdmission w s).
Qed.

Lemma continuation_gate c w s :
  gate_inv s → gate_inv (runWithGatewayIndependentRootWorkContinuation c w s).1.
Proof.
  intros H. unfold runWithGatewayIndependentRootWorkContinuation.
  destruct (match c with Some r => rootReleased r s | None => true end);
    [by apply independentAdmission_gate|].
  exact (gate_inv_frame _ _ (admitRoot_frame s) H).
Qed.

Lemma startup_frame s : gate_frame s (tryBeginGatewayRestartStartupRootWorkAdmission s).1.
Proof.
  unfold tryBeginGatewayRestartStartupRootWorkAdmission.
  case_match; [done|apply admitRoot_frame].
Qed.

Lemma prepared_frame s : gate_frame s (tryBeginGatewayPreparedRestartRootWorkAdmission s).1.
Proof.
  unfold tryBeginGatewayPreparedRestartRootWorkAdmission.
  case_match; [done|apply admitRoot_frame].
Qed.

#[export] Hint Resolve suspendDrain_gate suspendCommit_gate suspendRollback_gate
  suspendRelease_gate beginWhenOpen_gate readmission_gate continuation_gate startup_frame
  prepared_frame : agentos.

Lemma runOp_gate op s : gate_inv s → gate_inv (runOp op s).
Proof.
  intros H. destruct op; simpl;
    solve [by auto with agentos | by apply clearRestartSignalFence_gate
          | eapply gate_inv_frame; auto with agentos].
Qed.

(** *** Root work: reference counts and leases *)

Lemma roots_frame_emit ev s : roots_frame s (emit ev s).
Proof. by repeat split. Qed.

Ltac solve_roots_frame :=
  unfold_gate; unfold roots_frame;
  repeat (case_match; simplify_eq/=; rewrite ?resolveSuspendOpenWaiters_eq in *);
  repeat split; simpl; rewrite ?resolveSuspendOpenWaiters_eq; simpl; lia || done.

Lemma clearRestartSignalFence_roots s : roots_frame s (clearRestartSignalFence s).1.
Proof. solve_roots_frame. Qed.

Lemma markGatewayRestartDraining_roots s : roots_frame s (markGatewayRestartDraining s).
Proof. solve_roots_frame. Qed.

Lemma beginGatewayRestartSignalAdmission_roots s :
  roots_frame s (beginGatewayRestartSignalAdmission s).1.
Proof. solve_roots_frame. Qed.

Lemma rollbackRestartSignal_roots g s : roots_frame s (rollbackRestartSignal g s).1.
Proof.
  unfold rollbackRestartSignal. case_match; [done|]. apply clearRestartSignalFence_roots.
Qed.

Lemma tryBeginGatewaySuspendAdmission_roots cb s :
  roots_frame s (tryBeginGatewaySuspendAdmission cb s).1.
Proof. solve_roots_frame. Qed.

Lemma transition_roots g expected next s : roots_frame s (transition g expected next s).1.
Proof. solve_roots_frame. Qed.

Lemma orElse_roots a b s :
  (∀ s, roots_frame s (a s).1) → (∀ s, roots_frame s (b s).1) → roots_frame s (orElse a b s).1.
Proof.
  intros Ha Hb. unfold orElse. specialize (Ha s). destruct (a s) as [s' []]; simpl in *; [done|].
  by etrans.
Qed.

Lemma createRoot_roots s : roots_inv s → roots_inv (createGatewayRootWorkAdmission s).1.
Proof.
  intros [H1 H2 H3 H4 H5].
  assert (Hn : rootHeap s !! nextRef s = None)
    by (destruct (rootHeap s !! nextRef s) eqn:E; [specialize (H2 _ _ E); lia|done]).
  assert (Hr : releaseHeap s !! S (nextRef s) = None)
    by (destruct (releaseHeap s !! S (nextRef s)) eqn:E; [destruct (H3 _ _ E); lia|done]).
  assert (H0 : open_handles (nextRef s) (releaseHeap s) = 0%Z).
  { unfold open_handles. apply (f_equal Z.of_nat (y:=0%nat)), map_size_empty_iff, map_empty. intros rid.
    apply map_lookup_filter_None. right. intros l Hl [He _].
    destruct (H3 _ _ Hl) as [_ Hi]. simpl in He. rewrite He, Hn in Hi. by destruct Hi. }
  split; simpl.
  - by apply JsSet.NoDup_add.
  - intros r adm [[<- _]|[_ Ha]]%lookup_insert_Some; [lia|]. specialize (H2 _ _ Ha). lia.
  - intros rid l [[<- <-]|[_ Hl]]%lookup_insert_Some; simpl.
    + split; [lia|]. rewrite lookup_insert_eq. eauto.
    + destruct (H3 _ _ Hl) as [? Hi]. split; [lia|].
      destruct (decide (nextRef s = release_root l)) as [<-|]; [by rewrite lookup_insert_eq; eauto|].
      by rewrite lookup_insert_ne.
  - intros r. rewrite JsSet.elem_of_add. destruct (decide (r = nextRef s)) as [->|Hne].
    + rewrite lookup_insert_eq. split; eauto.
    + rewrite lookup_insert_ne, H4 by done. tauto.
  - intros r adm [[<- <-]|[Hne Ha]]%lookup_insert_Some Hrel; simpl;
      rewrite open_handles_fresh by done; case_decide; try done; [lia|].
    specialize (H5 _ _ Ha Hrel). lia.
Qed.

Lemma retainRoot_roots r s : rootLive r s = true → roots_inv s → roots_inv (retainRoot r s).1.
Proof.
  intros [Hrel%negb_true_iff Hact%bool_decide_eq_true]%andb_true_iff [H1 H2 H3 H4 H5].
  unfold rootReleased in Hrel. destruct (rootHeap s !! r) as [adm|] eqn:Er; [|done].
  assert (Hr : releaseHeap s !! nextRef s = None)
    by (destruct (releaseHeap s !! nextRef s) eqn:E; [destruct (H3 _ _ E); lia|done]).
  split; simpl; [done| | | |].
  - intros r' adm' Ha. destruct (decide (r = r')) as [<-|Hne].
    + specialize (H2 _ _ Er). lia.
    + rewrite lookup_alter_ne in Ha by done. specialize (H2 _ _ Ha). lia.
  - intros rid l [[<- <-]|[_ Hl]]%lookup_insert_Some; simpl.
    + split; [lia|]. rewrite lookup_alter_eq, Er. eauto.
    + destruct (H3 _ _ Hl) as [? Hi]. split; [lia|].
      destruct (decide (r = release_root l)) as [<-|]; [rewrite lookup_alter_eq, Er; eauto|].
      by rewrite lookup_alter_ne.
  - intros r'. rewrite H4. destruct (decide (r = r')) as [<-|Hne].
    + rewrite lookup_alter_eq, Er. simpl. split; intros (a & [= <-] & ?); eauto.
    + by rewrite lookup_alter_ne.
  - intros r' adm' Ha Hrel'. rewrite open_handles_fresh by done.
    destruct (decide (r = r')) as [<-|Hne].
    + rewrite lookup_alter_eq, Er in Ha. simplify_eq/=. specialize (H5 _ _ Er Hrel). lia.
    + rewrite lookup_alter_ne in Ha by done. specialize (H5 _ _ Ha Hrel'). lia.
Qed.

Lemma callRelease_roots rid s : roots_inv s → roots_inv (callRelease rid s).
Proof.
  intros Hs. unfold callRelease. destruct (releaseHeap s !! rid) as [[r lr]|] eqn:El; [|done].
  simpl. destruct (rootHeap s !! r) as [adm|] eqn:Er; [|done].
  destruct lr; [done|]. destruct (released adm) eqn:Hrel; [done|]. simpl.
  destruct Hs as [H1 H2 H3 H4 H5]. destruct (H5 _ _ Er Hrel) as [Hrefs Hpos].
  assert (Hopen : ∀ r', open_handles r' (<[rid := mkRelease r true]> (releaseHeap s)) =
      (open_handles r' (releaseHeap s) - if decide (r = r') then 1 else 0)%Z)
    by (intros r'; exact (open_handles_close r' rid _ _ El eq_refl)).
  destruct (Z.ltb_spec 0 (references adm - 1)) as [Hlt|Hge]; split; simpl;
    unfold update_field; simpl; try (by auto).
  - intros r' adm' [[<- _]|[_ Ha]]%lookup_insert_Some; eauto.
  - intros rid' l [[<- <-]|[_ Hl]]%lookup_insert_Some; simpl.
    + rewrite lookup_insert_eq. split; [by eapply (H3 rid)|eauto].
    + destruct (H3 _ _ Hl). split; [done|]. by apply lookup_insert_is_Some'; right.
  - intros r'. rewrite H4. destruct (decide (r = r')) as [<-|Hne].
    + rewrite lookup_insert_eq, Er. split; intros (a & [= <-] & ?); eauto.
    + by rewrite lookup_insert_ne.
  - intros r' adm' [[<- <-]|[Hne Ha]]%lookup_insert_Some Hrel'; rewrite Hopen; simpl.
    + rewrite decide_True by done. lia.
    + rewrite decide_False by done. specialize (H5 _ _ Ha Hrel'). lia.
  - by apply JsSet.NoDup_delete.
  - intros r' adm' [[<- _]|[_ Ha]]%lookup_insert_Some; eauto.
  - intros rid' l [[<- <-]|[_ Hl]]%lookup_insert_Some; simpl.
    + rewrite lookup_insert_eq. split; [by eapply (H3 rid)|eauto].
    + destruct (H3 _ _ Hl). split; [done|]. by apply lookup_insert_is_Some'; right.
  - intros r'. rewrite JsSet.elem_of_delete, H4. destruct (decide (r = r')) as [<-|Hne].
    + rewrite lookup_insert_eq. split; [tauto|]. by intros (a & [= <-] & ?).
    + rewrite lookup_insert_ne by done. split; [tauto|]. by intros.
  - intros r' adm' [[<- <-]|[Hne Ha]]%lookup_insert_Some Hrel'; [done|].
    rewrite Hopen, decide_False by done. specialize (H5 _ _ Ha Hrel'). lia.
Qed.

Lemma retire_lookup rs (m : gmap nat GatewayRootWorkAdmission) r :
  foldl (λ m r, alter retireRoot r m) m rs !! r =
    if decide (r ∈ rs) then retireRoot <$> m !! r else m !! r.
Proof.
  revert m. induction rs as [|r' rs IH]; intros m; simpl; [done|]. rewrite IH.
  destruct (decide (r = r')) as [->|Hne].
  - rewrite lookup_alter_eq. destruct (decide (r' ∈ rs)); rewrite decide_True by set_solver;
      by destruct (m !! r').
  - rewrite lookup_alter_ne by done. repeat case_decide; set_solver.
Qed.

(** After a reset no root is live. *)
Lemma resetGatewayWorkAdmission_retired s r adm :
  roots_inv s → rootHeap (resetGatewayWorkAdmission s) !! r = Some adm →
  released adm = true ∧ (rootHeap s !! r = Some adm ∨ retiredByReset adm = true).
Proof.
  intros Hs. unfold resetGatewayWorkAdmission. rewrite retire_loop_eq. simpl.
  assert (E : ∀ s0, rootHeap (resolveSuspendOpenWaiters s0) = rootHeap s0)
    by (intros; by rewrite resolveSuspendOpenWaiters_eq).
  assert (E' : ∀ s0, rootHeap (invalidateSuspendAdmission s0) = rootHeap s0).
  { intros s0. unfold invalidateSuspendAdmission, emit. rewrite resolveSuspendOpenWaiters_eq.
    by repeat case_match. }
  rewrite E. destruct (bool_decide _); rewrite ?E'; simpl.
  all: rewrite retire_lookup; case_decide as Hr;
    [destruct (rootHeap s !! r) eqn:Er; intros [= <-]; simpl; auto|].
  all: intros Ha; split; [|auto].
  all: destruct (released adm) eqn:Hrel; [done|];
    destruct Hr; apply (ri_active _ Hs); eauto.
Qed.

Lemma resetGatewayWorkAdmission_active s : activeRootWork (resetGatewayWorkAdmission s) = [].
Proof.
  unfold resetGatewayWorkAdmission. rewrite retire_loop_eq, resolveSuspendOpenWaiters_eq. simpl.
  case_bool_decide; [|done]. unfold invalidateSuspendAdmission, emit.
  rewrite resolveSuspendOpenWaiters_eq. by repeat case_match.
Qed.

Lemma resetGatewayWorkAdmission_heaps s :
  let s' := resetGatewayWorkAdmission s in
  rootHeap s' = foldl (λ m r, alter retireRoot r m) (rootHeap s) (activeRootWork s) ∧
  releaseHeap s' = releaseHeap s ∧ nextRef s' = S (nextRef s).
Proof.
  unfold resetGatewayWorkAdmission. rewrite retire_loop_eq, resolveSuspendOpenWaiters_eq. simpl.
  destruct (bool_decide _); simpl; [|done]. unfold invalidateSuspendAdmission, emit.
  rewrite resolveSuspendOpenWaiters_eq. by repeat case_match.
Qed.

Lemma resetGatewayWorkAdmission_roots s :
  roots_inv s → roots_inv (resetGatewayWorkAdmission s).
Proof.
  intros Hs. destruct (resetGatewayWorkAdmission_heaps s) as (E1 & E2 & E3).
  pose proof (resetGatewayWorkAdmission_active s) as E4.
  assert (Hl : ∀ r, is_Some (rootHeap s !! r) ↔ is_Some (rootHeap (resetGatewayWorkAdmission s) !! r)).
  { intros r. rewrite E1, retire_lookup. case_decide; [|done]. by rewrite fmap_is_Some. }
  pose proof Hs as [H1 H2 H3 H4 H5]. split.
  - rewrite E4. apply NoDup_nil_2.
  - intros r adm Ha. rewrite E3. destruct (Hl r) as [_ [adm' Ha']]; [by rewrite Ha|].
    specialize (H2 _ _ Ha'). lia.
  - intros rid l. rewrite E2, E3. intros Hrid. destruct (H3 _ _ Hrid) as [? Hi].
    split; [lia|by apply Hl].
  - intros r. rewrite E4. split; [set_solver|]. intros (adm & Ha & Hrel).
    destruct (resetGatewayWorkAdmission_retired s r adm Hs Ha) as [? _]. congruence.
  - intros r adm Ha Hrel.
    destruct (resetGatewayWorkAdmission_retired s r adm Hs Ha) as [? _]. congruence.
Qed.

Lemma admitRoot_roots s : roots_inv s → roots_inv (admitRoot s).1.
Proof. exact (createRoot_roots s). Qed.

Lemma tryBeginRoot_roots c s :
  roots_inv s → roots_inv (tryBeginGatewayRootWorkAdmission c s).1.
Proof.
  intros. unfold tryBeginGatewayRootWorkAdmission.
  destruct (match c with Some r => negb (rootReleased r s) | None => false end); [done|].
  case_match; [done|]. by apply admitRoot_roots.
Qed.

Lemma tryBeginIndependent_roots s :
  roots_inv s → roots_inv (tryBeginGatewayIndependentRootWorkAdmission s).1.
Proof.
  intros. unfold tryBeginGatewayIndependentRootWorkAdmission.
  case_match; [done|]. by apply admitRoot_roots.
Qed.

Lemma attemptAdmission_roots tryBegin w s :
  (∀ s, roots_inv s → roots_inv (tryBegin s).1) →
  roots_inv s → roots_inv (attemptAdmission tryBegin w s).1.
Proof.
  intros Hf Hs. unfold attemptAdmission. destruct (restartDraining s); [done|]. specialize (Hf s Hs).
  destruct (tryBegin s) as [s' [l|]]; simpl in *; [done|].
  eapply roots_inv_frame; [|exact Hf]. by repeat split.
Qed.

Lemma readmission_roots c w s :
  roots_inv s → roots_inv (runWithGatewayRootWorkReadmission c w s).1.
Proof.
  intros H. unfold runWithGatewayRootWorkReadmission.
  destruct (match c with Some r => _ | None => false end); [|done].
  pose proof (attemptAdmission_roots _ w s tryBeginIndependent_roots H) as Ha.
  unfold runWithGatewayIndependentRootWorkAdmission. by destruct (attemptAdmission _ _ _).
Qed.

Lemma continuation_roots c w s :
  roots_inv s → roots_inv (runWithGatewayIndependentRootWorkContinuation c w s).1.
Proof.
  intros H. unfold runWithGatewayIndependentRootWorkContinuation.
  destruct (match c with Some r => rootReleased r s | None => true end).
  - apply attemptAdmission_roots; auto using tryBeginIndependent_roots.
  - exact (createRoot_roots s H).
Qed.

Lemma createScope_roots b c s :
  roots_inv s → roots_inv (createGatewayRootWorkAdmissionContinuationScope b c s).1.
Proof.
  intros H. unfold createGatewayRootWorkAdmissionContinuationScope.
  destruct c as [r|]; [|done]. destruct (rootLive r s) eqn:El; [|done].
  destruct b.
  - eapply roots_inv_frame; [|exact (retainRoot_roots r s El H)]. repeat split; simpl; lia.
  - eapply roots_inv_frame; [|exact H]. repeat split; simpl; lia.
Qed.

Lemma scopeRelease_roots sid s : roots_inv s → roots_inv (scopeRelease sid s).
Proof.
  intros H. unfold scopeRelease. repeat case_match; simplify_eq; try done;
    [apply callRelease_roots|]; (eapply roots_inv_frame; [|exact H]); by repeat split.
Qed.

Lemma scopeRunBegin_roots sid s : roots_inv s → roots_inv (scopeRunBegin sid s).1.
Proof.
  intros H. unfold scopeRunBegin. destruct (scopeHeap s !! sid) as [sc|]; [|done].
  destruct (scope_released sc); [done|]. destruct (rootLive (scope_current sc) s) eqn:El; [|done].
  exact (retainRoot_roots _ s El H).
Qed.

Lemma startup_roots s :
  roots_inv s → roots_inv (tryBeginGatewayRestartStartupRootWorkAdmission s).1.
Proof.
  intros. unfold tryBeginGatewayRestartStartupRootWorkAdmission.
  case_match; [done|by apply admitRoot_roots].
Qed.

Lemma prepared_roots s :
  roots_inv s → roots_inv (tryBeginGatewayPreparedRestartRootWorkAdmission s).1.
Proof.
  intros. unfold tryBeginGatewayPreparedRestartRootWorkAdmission.
  case_match; [done|by apply admitRoot_roots].
Qed.

(** The operations on the fences do not touch root work. *)
Definition fence_op (op : AdmissionOp) : bool :=
  match op with
  | OpMarkRestartDraining | OpBeginRestartSignal | OpRollbackRestartSignal _ | OpRollbackFence
  | OpTryBeginSuspend _ | OpSuspendDrain _ | OpSuspendCommit _ | OpSuspendRollback _
  | OpSuspendRelease _ => true
  | _ => false
  end.

Lemma fence_op_frame op s : fence_op op = true → roots_frame s (runOp op s).
Proof.
  destruct op; intros Hop; try done; simpl;
    solve [apply markGatewayRestartDraining_roots | apply beginGatewayRestartSignalAdmission_roots
      | apply rollbackRestartSignal_roots | apply clearRestartSignalFence_roots
      | apply tryBeginGatewaySuspendAdmission_roots | apply transition_roots
      | unfold suspendCommit, suspendRelease; apply orElse_roots; intros; apply transition_roots].
Qed.

Lemma runOp_roots op s : roots_inv s → roots_inv (runOp op s).
Proof.
  intros H. destruct (fence_op op) eqn:Ef.
  { eapply roots_inv_frame; [by apply fence_op_frame|done]. }
  destruct op; try discriminate; simpl;
    auto using tryBeginRoot_roots, startup_roots, prepared_roots, attemptAdmission_roots,
      readmission_roots, continuation_roots, callRelease_roots, createScope_roots,
      scopeRelease_roots, scopeRunBegin_roots, resetGatewayWorkAdmission_roots.
  apply attemptAdmission_roots; auto using tryBeginRoot_roots.
Qed.

(** *** Reachable states *)

Lemma runOps_ind (P : GatewayWorkAdmissionState → Prop) ops s :
  (∀ op s, P s → P (runOp op s)) → P s → P (runOps ops s).
Proof. intros Hop. revert s. induction ops; simpl; auto. Qed.

Lemma initial_gate : gate_inv initialState.
Proof. split; simpl; try done; try lia; set_solver. Qed.

Lemma initial_roots : roots_inv initialState.
Proof.
  split; simpl; try done; [apply NoDup_nil_2|]. intros r. split; [set_solver|]. by intros (?&?&?).
Qed.

Lemma reachable_gate ops : gate_inv (runOps ops initialState).
Proof. apply runOps_ind; auto using runOp_gate, initial_gate. Qed.

Lemma reachable_roots ops : roots_inv (runOps ops initialState).
Proof. apply runOps_ind; auto using runOp_roots, initial_roots. Qed.

(** *** Waiters and generations across an operation *)

(** Waiters stay parked until an event of the operation resolves them. *)
Definition waiters_step s s' : Prop :=
  ∃ tr, trace s' = trace s ++ tr ∧
    ∀ w, w ∈ suspendOpenWaiters s → w ∈ suspendOpenWaiters s' ∨ WaiterResolved w ∈ tr.

#[export] Instance waiters_step_preorder : PreOrder waiters_step.
Proof.
  split.
  - intros s. exists []. rewrite app_nil_r. auto.
  - intros s1 s2 s3 (t1 & E1 & H1) (t2 & E2 & H2). exists (t1 ++ t2).
    rewrite E2, E1, app_assoc. split; [done|]. intros w Hw.
    destruct (H1 w Hw) as [Hw'|]; [destruct (H2 w Hw')|]; set_solver.
Qed.

Lemma waiters_step_same s s' :
  trace s' = trace s → suspendOpenWaiters s' = suspendOpenWaiters s → waiters_step s s'.
Proof. intros Et Ew. exists []. rewrite app_nil_r, Ew. auto. Qed.

Lemma waiters_step_emit ev s : waiters_step s (emit ev s).
Proof. exists [ev]. auto. Qed.

Lemma waiters_step_resolve s : waiters_step s (resolveSuspendOpenWaiters s).
Proof.
  rewrite resolveSuspendOpenWaiters_eq. eexists. split; [done|]. intros w Hw. right.
  by apply list_elem_of_fmap_2.
Qed.

Ltac waiters_chain :=
  repeat first
    [ reflexivity
    | (etrans; [|apply waiters_step_emit])
    | (etrans; [|apply waiters_step_resolve])
    | by apply waiters_step_same ].

Lemma invalidateSuspendAdmission_waiters s : waiters_step s (invalidateSuspendAdmission s).
Proof. unfold invalidateSuspendAdmission. repeat case_match; waiters_chain. Qed.

Lemma clearRestartSignalFence_waiters s : waiters_step s (clearRestartSignalFence s).1.
Proof. unfold clearRestartSignalFence. repeat case_match; simpl; waiters_chain. Qed.

Lemma transition_waiters g e n s : waiters_step s (transition g e n s).1.
Proof. unfold transition. repeat case_match; simpl; waiters_chain. Qed.

Lemma orElse_waiters a b s :
  (∀ s, waiters_step s (a s).1) → (∀ s, waiters_step s (b s).1) → waiters_step s (orElse a b s).1.
Proof.
  intros Ha Hb. unfold orElse. specialize (Ha s). destruct (a s) as [s' []]; simpl in *; [done|].
  by etrans.
Qed.

Lemma mark_waiters s : waiters_step s (markGatewayRestartDraining s).
Proof.
  unfold markGatewayRestartDraining. destruct (restartDraining s); [done|].
  case_match; [etrans; [|apply invalidateSuspendAdmission_waiters]|]; waiters_chain.
Qed.

Lemma reset_waiters s : waiters_step s (resetGatewayWorkAdmission s).
Proof.
  unfold resetGatewayWorkAdmission. rewrite retire_loop_eq.
  etrans; [|apply waiters_step_resolve].
  case_match; [etrans; [|apply invalidateSuspendAdmission_waiters]|]; waiters_chain.
Qed.

Lemma gate_frame_waiters s s' :
  gate_frame s s' → trace s' = trace s → waiters_step s s'.
Proof. intros (_ & _ & _ & _ & Ew & _) Et. by apply waiters_step_same. Qed.

Lemma attemptAdmission_waiters tryBegin w s :
  (∀ s, gate_frame s (tryBegin s).1) → (∀ s, trace (tryBegin s).1 = trace s) →
  waiters_step s (attemptAdmission tryBegin w s).1.
Proof.
  intros Hf Ht. unfold attemptAdmission. destruct (restartDraining s); [done|].
  specialize (Hf s). specialize (Ht s). destruct (tryBegin s) as [s' [l|]]; simpl in *.
  { by apply gate_frame_waiters. }
  etrans; [by apply gate_frame_waiters|]. exists []. rewrite app_nil_r. split; [done|].
  intros w' Hw. left. simpl. apply JsSet.elem_of_add. auto.
Qed.

Lemma tryBeginRoot_trace c s : trace (tryBeginGatewayRootWorkAdmission c s).1 = trace s.
Proof. unfold tryBeginGatewayRootWorkAdmission. by repeat case_match. Qed.

Lemma tryBeginIndependent_trace s :
  trace (tryBeginGatewayIndependentRootWorkAdmission s).1 = trace s.
Proof. unfold tryBeginGatewayIndependentRootWorkAdmission. by repeat case_match. Qed.

Lemma callRelease_trace rid s : trace (callRelease rid s) = trace s.
Proof. unfold callRelease. by repeat case_match. Qed.

Lemma independentAdmission_waiters w s :
  waiters_step s (runWithGatewayIndependentRootWorkAdmission w s).1.
Proof.
  apply attemptAdmission_waiters; [apply tryBeginIndependent_frame|apply tryBeginIndependent_trace].
Qed.

Lemma runOp_waiters op s : waiters_step s (runOp op s).
Proof.
  destruct op; simpl.
  - apply mark_waiters.
  - unfold beginGatewayRestartSignalAdmission. case_match; simpl; waiters_chain.
  - unfold rollbackRestartSignal. case_match; [done|apply clearRestartSignalFence_waiters].
  - apply clearRestartSignalFence_waiters.
  - apply gate_frame_waiters; [apply tryBeginRoot_frame|apply tryBeginRoot_trace].
  - apply gate_frame_waiters; [apply startup_frame|].
    unfold tryBeginGatewayRestartStartupRootWorkAdmission. by case_match.
  - apply gate_frame_waiters; [apply prepared_frame|].
    unfold tryBeginGatewayPreparedRestartRootWorkAdmission. by case_match.
  - apply attemptAdmission_waiters; [apply tryBeginRoot_frame|apply tryBeginRoot_trace].
  - unfold runWithGatewayRootWorkReadmission.
    destruct (match current with Some r => _ | None => false end); [|done].
    pose proof (independentAdmission_waiters waiter s) as Hw.
    by destruct (runWithGatewayIndependentRootWorkAdmission waiter s).
  - unfold runWithGatewayIndependentRootWorkContinuation.
    destruct (match current with Some r => rootReleased r s | None => true end);
      [apply independentAdmission_waiters|by apply waiters_step_same].
  - apply gate_frame_waiters; [apply callRelease_frame|apply callRelease_trace].
  - apply gate_frame_waiters; [apply createScope_frame|].
    unfold createGatewayRootWorkAdmissionContinuationScope.
    destruct current as [r|]; [|done]. destruct (rootLive r s); [|done]. by destruct retain.
  - apply gate_frame_waiters; [apply scopeRelease_frame|]. unfold scopeRelease.
    repeat case_match; [done| |done|done]. by rewrite callRelease_trace.
  - apply gate_frame_waiters; [apply scopeRunBegin_frame|]. unfold scopeRunBegin.
    destruct (scopeHeap s !! scope); [|done]. by case_match.
  - unfold tryBeginGatewaySuspendAdmission. case_match; simpl; waiters_chain.
  - apply transition_waiters.
  - apply orElse_waiters; intros; apply transition_waiters.
  - apply transition_waiters.
  - apply orElse_waiters; intros; apply transition_waiters.
  - apply reset_waiters.
Qed.

(** The phases of a suspension: a lease drains and commits, or ends. *)
Definition phase_step (p p' : GatewaySuspendAdmissionPhase) : bool :=
  match p, p' with
  | Accepting, (Accepting | Preparing) => true
  | Preparing, _ => true
  | Draining, (Draining | Prepared | Accepting) => true
  | Prepared, (Prepared | Accepting) => true
  | _, _ => false
  end.

(** The generation never decreases; only a new suspension leaves the accepting
    phase, and it takes a new generation. *)
Record suspend_step s s' : Prop := {
  ss_generation : (suspendGeneration s ≤ suspendGeneration s')%Z;
  ss_phase : phase_step (suspendPhase s) (suspendPhase s') = true;
  ss_begin : suspendPhase s = Accepting → suspendPhase s' ≠ Accepting →
    suspendGeneration s' = (suspendGeneration s + 1)%Z
}.

Lemma suspend_step_same s s' :
  suspendGeneration s' = suspendGeneration s → suspendPhase s' = suspendPhase s →
  suspend_step s s'.
Proof. intros Eg Ep. split; rewrite ?Eg, ?Ep; [lia|by destruct (suspendPhase s)|done]. Qed.

Lemma invalidate_suspend s :
  suspendPhase (invalidateSuspendAdmission s) = Accepting ∧
  suspendGeneration (invalidateSuspendAdmission s) = (suspendGeneration s + 1)%Z.
Proof.
  unfold invalidateSuspendAdmission, emit. rewrite resolveSuspendOpenWaiters_eq.
  by repeat case_match.
Qed.

Lemma clearRestartSignalFence_suspend s : suspend_step s (clearRestartSignalFence s).1.
Proof.
  apply suspend_step_same; unfold clearRestartSignalFence, emit;
    rewrite resolveSuspendOpenWaiters_eq; by repeat case_match.
Qed.

Lemma to_accepting s s' :
  suspendPhase s' = Accepting → (suspendGeneration s ≤ suspendGeneration s')%Z →
  suspend_step s s'.
Proof. intros Ep Eg. split; rewrite ?Ep; [done|by destruct (suspendPhase s)|done]. Qed.

Lemma transition_suspend g e n s :
  phase_step e n = true → e ≠ Accepting → suspend_step s (transition g e n s).1.
Proof.
  intros Hp He. unfold transition.
  destruct (_ || _) eqn:G; [by apply suspend_step_same|].
  apply orb_false_iff in G as [_ G%bool_decide_eq_false%dec_stable].
  case_bool_decide; unfold emit; rewrite ?resolveSuspendOpenWaiters_eq; split; simpl; rewrite ?G;
    done || congruence.
Qed.

(** The second alternative runs only when the first was a no-op. *)
Lemma orElse_suspend g e1 n1 e2 n2 s :
  phase_step e1 n1 = true → e1 ≠ Accepting → phase_step e2 n2 = true → e2 ≠ Accepting →
  suspend_step s (orElse (transition g e1 n1) (transition g e2 n2) s).1.
Proof.
  intros P1 A1 P2 A2. unfold orElse. pose proof (transition_suspend g e1 n1 s P1 A1) as Hs.
  destruct (transition g e1 n1 s) as [s' []] eqn:E; simpl in *; [done|].
  assert (s' = s) as ->; [|by apply transition_suspend].
  unfold transition in E. repeat case_match; by simplify_eq.
Qed.

Lemma attemptAdmission_suspend tryBegin w s :
  (∀ s, suspendGeneration (tryBegin s).1 = suspendGeneration s) →
  (∀ s, suspendPhase (tryBegin s).1 = suspendPhase s) →
  suspend_step s (attemptAdmission tryBegin w s).1.
Proof.
  intros Hg Hp. unfold attemptAdmission. destruct (restartDraining s); [by apply suspend_step_same|].
  specialize (Hg s). specialize (Hp s).
  destruct (tryBegin s) as [s' [l|]]; simpl in *; by apply suspend_step_same.
Qed.

Lemma tryBeginRoot_suspend c s :
  suspendGeneration (tryBeginGatewayRootWorkAdmission c s).1 = suspendGeneration s ∧
  suspendPhase (tryBeginGatewayRootWorkAdmission c s).1 = suspendPhase s.
Proof. unfold tryBeginGatewayRootWorkAdmission. by repeat case_match. Qed.

Lemma independentAdmission_suspend w s :
  suspend_step s (runWithGatewayIndependentRootWorkAdmission w s).1.
Proof.
  apply attemptAdmission_suspend; intros s0;
    unfold tryBeginGatewayIndependentRootWorkAdmission; by repeat case_match.
Qed.

Lemma callRelease_suspend rid s : suspend_step s (callRelease rid s).
Proof. apply suspend_step_same; unfold callRelease; by repeat case_match. Qed.

Lemma mark_suspend s : suspend_step s (markGatewayRestartDraining s).
Proof.
  unfold markGatewayRestartDraining, emit. rewrite resolveSuspendOpenWaiters_eq.
  destruct (restartDraining s); [by apply suspend_step_same|].
  case_bool_decide; [|by apply suspend_step_same].
  match goal with |- suspend_step _ (invalidateSuspendAdmission ?s1) =>
    destruct (invalidate_suspend s1) as [Hp1 Hg1] end.
  apply to_accepting; [done|]. rewrite Hg1. simpl. lia.
Qed.

Lemma reset_suspend s :
  suspend_step s (resetGatewayWorkAdmission s) ∧
  suspendGeneration (resetGatewayWorkAdmission s) = (suspendGeneration s + 1)%Z ∧
  suspendPhase (resetGatewayWorkAdmission s) = Accepting.
Proof.
  unfold resetGatewayWorkAdmission. rewrite retire_loop_eq, resolveSuspendOpenWaiters_eq. simpl.
  case_bool_decide as Hb; simpl.
  - match goal with |- context [invalidateSuspendAdmission ?s1] =>
      destruct (invalidate_suspend s1) as [Hp1 Hg1] end.
    simpl in *. split; [|by rewrite Hg1, Hp1].
    apply to_accepting; simpl; [by rewrite Hp1|rewrite Hg1; lia].
  - split; [|done]. apply to_accepting; simpl; [done|lia].
Qed.

Lemma runOp_suspend op s : suspend_step s (runOp op s).
Proof.
  destruct op; simpl.
  - apply mark_suspend.
  - apply suspend_step_same; unfold beginGatewayRestartSignalAdmission; by case_match.
  - unfold rollbackRestartSignal.
    case_match; [by apply suspend_step_same|apply clearRestartSignalFence_suspend].
  - apply clearRestartSignalFence_suspend.
  - destruct (tryBeginRoot_suspend current s). by apply suspend_step_same.
  - apply suspend_step_same; unfold tryBeginGatewayRestartStartupRootWorkAdmission; by case_match.
  - apply suspend_step_same; unfold tryBeginGatewayPreparedRestartRootWorkAdmission; by case_match.
  - apply attemptAdmission_suspend; intros; apply tryBeginRoot_suspend.
  - unfold runWithGatewayRootWorkReadmission.
    destruct (match current with Some r => _ | None => false end); [|by apply suspend_step_same].
    pose proof (independentAdmission_suspend waiter s) as Hw.
    by destruct (runWithGatewayIndependentRootWorkAdmission waiter s).
  - unfold runWithGatewayIndependentRootWorkContinuation.
    destruct (match current with Some r => rootReleased r s | None => true end);
      [apply independentAdmission_suspend|by apply suspend_step_same].
  - apply callRelease_suspend.
  - apply suspend_step_same; unfold createGatewayRootWorkAdmissionContinuationScope;
    (destruct current as [r|]; [|done]); (destruct (rootLive r s); [|done]); by destruct retain.
  - unfold scopeRelease. repeat case_match; try by apply suspend_step_same.
    apply suspend_step_same; unfold callRelease; by repeat case_match.
  - apply suspend_step_same; unfold scopeRunBegin;
      (destruct (scopeHeap s !! scope); [|done]); by case_match.
  - unfold tryBeginGatewaySuspendAdmission. destruct (_ || _) eqn:G; [by apply suspend_step_same|].
    apply orb_false_iff in G as [_ G%bool_decide_eq_false%dec_stable].
    split; simpl; [lia|by rewrite G|done].
  - by apply transition_suspend.
  - by apply orElse_suspend.
  - by apply transition_suspend.
  - by apply orElse_suspend.
  - apply reset_suspend.
Qed.

Lemma transition_draining g e n s :
  restartDraining (transition g e n s).1 = restartDraining s.
Proof.
  unfold transition. case_match; [done|]. case_match; [|done]. unfold emit. simpl.
  by rewrite resolveSuspendOpenWaiters_eq.
Qed.

Lemma orElse_draining g e1 n1 e2 n2 s :
  restartDraining (orElse (transition g e1 n1) (transition g e2 n2) s).1 = restartDraining s.
Proof.
  unfold orElse. pose proof (transition_draining g e1 n1 s) as H1.
  destruct (transition g e1 n1 s) as [s' []]; simpl in *; [done|].
  by rewrite transition_draining.
Qed.

Lemma runOp_draining op s :
  op ≠ OpResetAdmission → restartDraining s = true → restartDraining (runOp op s) = true.
Proof.
  assert (Hf : ∀ s', gate_frame s s' → restartDraining s' = restartDraining s)
    by (intros s' Hs'; apply Hs').
  assert (Ha : ∀ tb w, (attemptAdmission tb w s).1 = s ∨ restartDraining s = false)
    by (intros; unfold attemptAdmission; destruct (restartDraining s); auto).
  intros Hop Hd. destruct op; try done; simpl.
  - unfold markGatewayRestartDraining. by rewrite Hd.
  - unfold beginGatewayRestartSignalAdmission. by rewrite Hd.
  - unfold rollbackRestartSignal, clearRestartSignalFence. rewrite Hd. by case_match.
  - unfold rollbackGatewayRestartSignalFence, clearRestartSignalFence. by rewrite Hd.
  - rewrite (Hf _ (tryBeginRoot_frame _ s)). done.
  - rewrite (Hf _ (startup_frame s)). done.
  - rewrite (Hf _ (prepared_frame s)). done.
  - unfold beginGatewayRootWorkAdmissionWhenOpen.
    destruct (Ha (tryBeginGatewayRootWorkAdmission current) waiter) as [->|]; congruence.
  - unfold runWithGatewayRootWorkReadmission, runWithGatewayIndependentRootWorkAdmission.
    unfold attemptAdmission. rewrite Hd. by destruct (match current with Some r => _ | None => _ end).
  - unfold runWithGatewayIndependentRootWorkContinuation, runWithGatewayIndependentRootWorkAdmission.
    unfold attemptAdmission. rewrite Hd. by destruct (match current with Some r => _ | None => _ end).
  - rewrite (Hf _ (callRelease_frame _ s)). done.
  - rewrite (Hf _ (createScope_frame _ _ s)). done.
  - rewrite (Hf _ (scopeRelease_frame _ s)). done.
  - rewrite (Hf _ (scopeRunBegin_frame _ s)). done.
  - unfold tryBeginGatewaySuspendAdmission. by rewrite Hd.
  - unfold suspendDrain. by rewrite transition_draining.
  - unfold suspendCommit. by rewrite orElse_draining.
  - unfold suspendRollback. by rewrite transition_draining.
  - unfold suspendRelease. by rewrite orElse_draining.
Qed.

Lemma runOps_generation ops s : (suspendGeneration s ≤ suspendGeneration (runOps ops s))%Z.
Proof.
  revert s. induction ops as [|op ops IH]; intros s; simpl; [lia|].
  pose proof (ss_generation _ _ (runOp_suspend op s)). specialize (IH (runOp op s)). lia.
Qed.

Lemma transition_stale g e n s : suspendGeneration s ≠ g → transition g e n s = (s, false).
Proof. intros Hg. unfold transition. by rewrite (proj2 (Z.eqb_neq _ _) Hg). Qed.

(** ** Properties *)


(** a root is active exactly as long as one of its release closures has
    not been called: calling an open closure of an active root closes exactly
    that closure, the root stays active if and only if another one is open,
    and calling it again changes nothing. *)
Theorem root_work_reference_counting ops rid r :
  let s := runOps ops initialState in
  releaseHeap s !! rid = Some (mkRelease r false) → r ∈ activeRootWork s →
  let s' := callRelease rid s in
  (1 ≤ open_handles r (releaseHeap s))%Z ∧
  open_handles r (releaseHeap s') = (open_handles r (releaseHeap s) - 1)%Z ∧
  (r ∈ activeRootWork s' ↔ (1 ≤ open_handles r (releaseHeap s'))%Z) ∧
  callRelease rid s' = s'.
Proof.
  intros s Hrid Hr s'. pose proof (reachable_roots ops) as Hs. fold s in Hs.
  apply (ri_active _ Hs) in Hr as (adm & Ha & Hrel).
  destruct (ri_references _ Hs _ _ Ha Hrel) as [Href Hpos].
  pose proof (open_handles_close r rid _ _ Hrid eq_refl) as Hopen. simpl in Hopen.
  rewrite decide_True in Hopen by done.
  assert (E1 : releaseHeap s' = <[rid := mkRelease r true]> (releaseHeap s)).
  { unfold s', callRelease. rewrite Hrid. simpl. rewrite Ha, Hrel. simpl. by case_match. }
  assert (E2 : callRelease rid s' = s').
  { unfold callRelease at 1. rewrite E1, lookup_insert_eq. simpl. by case_match. }
  rewrite E1, Hopen. repeat split; try done; try lia.
  - intros Hin. apply (ri_active _ (callRelease_roots rid s Hs)) in Hin as (adm' & Ha' & Hrel').
    destruct (ri_references _ (callRelease_roots rid s Hs) _ _ Ha' Hrel') as [Href' Hpos'].
    fold s' in Href'. rewrite E1, Hopen in Href'. lia.
  - intros Hge. unfold s', callRelease. rewrite Hrid. simpl. rewrite Ha, Hrel. simpl.
    destruct (Z.ltb_spec 0 (references adm - 1)); [|lia]. simpl. apply (ri_active _ Hs). eauto.
Qed.

Lemma root_work_reference_counting_witness :
  let s := runOps [OpTryBeginRoot None; OpCreateScope true (Some 1)] initialState in
  open_handles 1 (releaseHeap s) = 2%Z ∧ (1 ≤ open_handles 1 (releaseHeap s))%Z ∧
  callRelease 2 (callRelease 2 s) = callRelease 2 s.
Proof.
  intros s. split; [vm_compute; reflexivity|].
  destruct (root_work_reference_counting
    [OpTryBeginRoot None; OpCreateScope true (Some 1)] 2 1) as (H1 & _ & _ & H2);
    [vm_compute; reflexivity|set_solver|]. split; [exact H1|exact H2].
Defined.

(** no wake-up is lost: across any operation a parked admission either
    stays parked, and then the gate is closed by a reversible fence, or its
    resolver is called by that operation. *)
Theorem parked_admissions_are_woken ops op w :
  let s := runOps ops initialState in
  let s' := runOp op s in
  w ∈ suspendOpenWaiters s →
  (w ∈ suspendOpenWaiters s' ∧ restartDraining s' = false ∧
     isGatewayWorkAdmissionClosed s' = true) ∨
  (∃ tr, trace s' = trace s ++ tr ∧ WaiterResolved w ∈ tr).
Proof.
  intros s s' Hw. destruct (runOp_waiters op s) as (tr & Etr & Htr).
  destruct (Htr w Hw) as [Hin|]; [left|by eauto]. split; [done|].
  pose proof (gi_waiters _ (runOp_gate op s (reachable_gate ops))) as Hg.
  destruct Hg as [Hd Hc]; [intros E; apply (not_elem_of_nil w); rewrite <-E; exact Hin|].
  split; [done|]. unfold isGatewayWorkAdmissionClosed. apply orb_true_iff.
  destruct Hc as [Hc|Hc]; [left; apply orb_true_iff; by right|right; by apply bool_decide_eq_true].
Qed.

Lemma parked_admissions_are_woken_witness :
  let s := runOps [OpTryBeginSuspend 5; OpBeginWhenOpen None 7] initialState in
  let s' := runOp (OpSuspendRollback 1) s in
  (7 ∈ suspendOpenWaiters s' ∧ restartDraining s' = false ∧
     isGatewayWorkAdmissionClosed s' = true) ∨
  (∃ tr, trace s' = trace s ++ tr ∧ WaiterResolved 7 ∈ tr).
Proof.
  apply (parked_admissions_are_woken [OpTryBeginSuspend 5; OpBeginWhenOpen None 7]
    (OpSuspendRollback 1) 7). vm_compute. left.
Defined.

(** a restart drain is one-way: until the in-process restart resets the
    admission no operation ends it, and no new root, restart signal or
    suspension is admitted; admissions that wait for the gate throw. *)
Theorem restart_drain_one_way ops s c w cb :
  restartDraining s = true → OpResetAdmission ∉ ops →
  let s' := runOps ops s in
  restartDraining s' = true ∧
  tryBeginGatewayRootWorkAdmission None s' = (s', None) ∧
  tryBeginGatewayIndependentRootWorkAdmission s' = (s', None) ∧
  tryBeginGatewayPreparedRestartRootWorkAdmission s' = (s', None) ∧
  beginGatewayRootWorkAdmissionWhenOpen c w s' = (s', AttemptThrows) ∧
  beginGatewayRestartSignalAdmission s' = (s', None) ∧
  tryBeginGatewaySuspendAdmission cb s' = (s', None).
Proof.
  intros Hd Hops s'.
  assert (Hd' : restartDraining s' = true).
  { unfold s'. clear s'. revert s Hd Hops. induction ops as [|op ops IH]; intros s Hd Hops; [done|].
    simpl. apply IH; [apply runOp_draining; set_solver|set_solver]. }
  unfold tryBeginGatewayRootWorkAdmission, tryBeginGatewayIndependentRootWorkAdmission,
    tryBeginGatewayPreparedRestartRootWorkAdmission, beginGatewayRootWorkAdmissionWhenOpen,
    attemptAdmission, beginGatewayRestartSignalAdmission, tryBeginGatewaySuspendAdmission.
  by rewrite Hd'.
Qed.

Lemma restart_drain_one_way_witness :
  restartDraining (runOps [OpMarkRestartDraining; OpTryBeginStartup] initialState) = true ∧
  tryBeginGatewayIndependentRootWorkAdmission
    (runOps [OpRollbackFence; OpRelease 2]
       (runOps [OpMarkRestartDraining; OpTryBeginStartup] initialState)) =
    (runOps [OpRollbackFence; OpRelease 2]
       (runOps [OpMarkRestartDraining; OpTryBeginStartup] initialState), None).
Proof.
  split; [reflexivity|].
  apply (restart_drain_one_way [OpRollbackFence; OpRelease 2] _ None 0 0);
    [reflexivity|set_solver].
Defined.

(** a suspension lease is exclusive: once a later suspension has begun,
    every operation of the earlier lease is refused and changes nothing,
    whatever happens in between and afterwards. *)
Theorem suspension_lease_exclusive s0 s1 cb g ops s2 cb' g' ops' :
  tryBeginGatewaySuspendAdmission cb s0 = (s1, Some g) →
  tryBeginGatewaySuspendAdmission cb' (runOps ops s1) = (s2, Some g') →
  let s := runOps ops' s2 in
  suspendDrain g s = (s, false) ∧ suspendCommit g s = (s, false) ∧
  suspendRollback g s = (s, false) ∧ suspendRelease g s = (s, false).
Proof.
  intros H1 H2 s.
  assert (Hb : ∀ cb s s' g, tryBeginGatewaySuspendAdmission cb s = (s', Some g) →
    g = (suspendGeneration s + 1)%Z ∧ suspendGeneration s' = g).
  { clear. intros cb s s' g. unfold tryBeginGatewaySuspendAdmission.
    case_match; intros [= <- <-]. done. }
  apply Hb in H1 as [_ H1]. apply Hb in H2 as [E2 H2].
  pose proof (runOps_generation ops s1). pose proof (runOps_generation ops' s2).
  assert (Hne : suspendGeneration s ≠ g) by (unfold s; lia).
  unfold suspendDrain, suspendCommit, suspendRollback, suspendRelease, orElse.
  by rewrite !transition_stale by done.
Qed.

Lemma suspension_lease_exclusive_witness :
  let s1 := (tryBeginGatewaySuspendAdmission 1 initialState).1 in
  let s2 := (tryBeginGatewaySuspendAdmission 2 (runOps [OpSuspendRollback 1] s1)).1 in
  suspendCommit 1 (runOps [OpSuspendDrain 2] s2) = (runOps [OpSuspendDrain 2] s2, false).
Proof.
  intros s1 s2.
  destruct (suspension_lease_exclusive initialState s1 1 1 [OpSuspendRollback 1] s2 2 2
    [OpSuspendDrain 2]) as (_ & H & _ & _);
    [vm_compute; reflexivity|vm_compute; reflexivity|exact H].
Defined.

(** resetting the admission after an in-process restart retires every
    root: none stays active, subordinate work of a retired root is refused,
    its readmission takes the independent path, and a release closure it left
    behind changes nothing. *)
Theorem reset_retires_root_work ops r rid l w :
  let s := runOps ops initialState in
  let s' := resetGatewayWorkAdmission s in
  r ∈ activeRootWork s → releaseHeap s !! rid = Some l → release_root l = r →
  activeRootWork s' = [] ∧
  isGatewaySubordinateWorkAdmissionClosed (Some r) s' = true ∧
  (runWithGatewayRootWorkReadmission (Some r) w s').2 ≠ None ∧
  callRelease rid s' = s'.
Proof.
  intros s s' Hr Hl Hlr. pose proof (reachable_roots ops) as Hs. fold s in Hs.
  split; [apply resetGatewayWorkAdmission_active|].
  destruct (resetGatewayWorkAdmission_heaps s) as (E1 & E2 & _). fold s' in E1, E2.
  apply (ri_active _ Hs) in Hr as Hr'. destruct Hr' as (adm & Ha & Hrel).
  assert (Ha' : rootHeap s' !! r = Some (retireRoot adm))
    by (by rewrite E1, retire_lookup, decide_True, Ha).
  unfold isGatewaySubordinateWorkAdmissionClosed, runWithGatewayRootWorkReadmission, rootReleased,
    callRelease. rewrite E2, Hl, Hlr, Ha'. simpl. rewrite orb_true_r. split; [by case_match|].
  by destruct (runWithGatewayIndependentRootWorkAdmission w s').
Qed.

Lemma reset_retires_root_work_witness :
  let s := runOps [OpTryBeginRoot None; OpMarkRestartDraining] initialState in
  1 ∈ activeRootWork s ∧
  callRelease 2 (resetGatewayWorkAdmission s) = resetGatewayWorkAdmission s.
Proof.
  intros s. split; [vm_compute; left|].
  destruct (reset_retires_root_work [OpTryBeginRoot None; OpMarkRestartDraining] 1 2
    (mkRelease 1 false) 3) as (_ & _ & _ & H);
    [vm_compute; left|vm_compute; reflexivity|reflexivity|exact H].
Defined.
