(* ===== verification/AdmissionGate.v ===== *)
(** * The admission gate as an interface

    What the command queue needs of [gateway-work-admission.ts]: an interface
    with its laws, so that the queue is verified against the promise, and the
    instance that discharges it. *)
From S2P Require Import Prelude JsCollections WorkAdmission.

Class AdmissionGate (G : Type) := {
  gate_subordinateClosed : option nat → G → bool;
  gate_closed : G → bool;
  gate_markDraining : G → G;
  gate_reset : G → G
}.

Class AdmissionGateLaws (G : Type) `{AdmissionGate G} := {
  gate_mark_closed c g : gate_subordinateClosed c (gate_markDraining g) = true;
  gate_mark_closes g : gate_closed (gate_markDraining g) = true;
  gate_reset_opens g : gate_closed (gate_reset g) = false;
  gate_reset_subordinate g : gate_subordinateClosed None (gate_reset g) = false;
  gate_closed_root g : gate_subordinateClosed None g = gate_closed g
}.

#[export] Instance gateway_gate : AdmissionGate GatewayWorkAdmissionState := {|
  gate_subordinateClosed := isGatewaySubordinateWorkAdmissionClosed;
  gate_closed := isGatewayWorkAdmissionClosed;
  gate_markDraining := markGatewayRestartDraining;
  gate_reset := resetGatewayWorkAdmission
|}.

Lemma invalidate_gate s :
  restartDraining (invalidateSuspendAdmission s) = restartDraining s ∧
  restartSignalPending (invalidateSuspendAdmission s) = restartSignalPending s ∧
  suspendPhase (invalidateSuspendAdmission s) = Accepting.
Proof.
  unfold invalidateSuspendAdmission, emit. rewrite resolveSuspendOpenWaiters_eq.
  by repeat case_match.
Qed.

Lemma mark_draining s : restartDraining (markGatewayRestartDraining s) = true.
Proof.
  unfold markGatewayRestartDraining, emit. rewrite resolveSuspendOpenWaiters_eq.
  destruct (restartDraining s) eqn:E; [done|]. case_match; [|done].
  by rewrite (proj1 (invalidate_gate _)).
Qed.

Lemma reset_gate s :
  let s' := resetGatewayWorkAdmission s in
  restartDraining s' = false ∧ restartSignalPending s' = false ∧ suspendPhase s' = Accepting.
Proof.
  unfold resetGatewayWorkAdmission. rewrite retire_loop_eq, resolveSuspendOpenWaiters_eq. simpl.
  case_bool_decide as Hb; simpl; [|done].
  match goal with |- context [invalidateSuspendAdmission ?s1] =>
    destruct (invalidate_gate s1) as (-> & -> & ->) end. done.
Qed.

#[export] Instance gateway_gate_laws : AdmissionGateLaws GatewayWorkAdmissionState.
Proof.
  split; simpl.
  - intros c g. unfold isGatewaySubordinateWorkAdmissionClosed. by rewrite mark_draining.
  - intros g. unfold isGatewayWorkAdmissionClosed. by rewrite mark_draining.
  - intros g. unfold isGatewayWorkAdmissionClosed. by destruct (reset_gate g) as (-> & -> & ->).
  - intros g. unfold isGatewaySubordinateWorkAdmissionClosed.
    by destruct (reset_gate g) as (-> & -> & ->).
  - intros g. unfold isGatewaySubordinateWorkAdmissionClosed, isGatewayWorkAdmissionClosed.
    by destruct (restartDraining g || restartSignalPending g).
Qed.
