(* ===== verification/NumberCoercion.v ===== *)
(** * Number coercion

    The strict number readers and the timer clamps every component takes its
    timeouts through ([packages/normalization-core/src/number-coercion.ts]). *)
From Stdlib Require Import QArith.QArith QArith.Qround Strings.Ascii.
From S2P Require Import Prelude.
Local Open Scope Z_scope.

(** An [unknown] argument: what the readers distinguish. *)
Inductive jsvalue :=
| JNum (n : jsnum)
| JStr (s : string)
| JOther.

Definition asFiniteNumber (value : jsvalue) : option Q :=
  match value with
  | JNum (Fin q) => Some q
  | _ => None
  end.

Definition asPositiveFiniteNumber (value : jsvalue) : option Q :=
  match asFiniteNumber value with
  | Some q => if Qlt_le_dec 0 q then Some q else None
  | None => None
  end.

Definition asNonNegativeFiniteNumber (value : jsvalue) : option Q :=
  match asFiniteNumber value with
  | Some q => if Qlt_le_dec q 0 then None else Some q
  | None => None
  end.

Record NumberRange := mkRange {
  range_min : option Q;
  range_max : option Q;
  minExclusive : bool;
  maxExclusive : bool
}.

Definition asFiniteNumberInRange (value : jsvalue) (range : NumberRange) : option Q :=
  match asFiniteNumber value with
  | None => None
  | Some number =>
      if match range_min range with
         | Some m => if minExclusive range then Qle_bool number m
                     else negb (Qle_bool m number)
         | None => false
         end
      then None
      else if match range_max range with
         | Some m => if maxExclusive range then Qle_bool m number
                     else negb (Qle_bool number m)
         | None => false
         end
      then None
      else Some number
  end.

Definition MAX_SAFE_INTEGER : Z := 9007199254740991.

(** [Number.isSafeInteger], with the integer. *)
Definition safe_integer (value : jsvalue) : option Z :=
  match asFiniteNumber value with
  | Some q =>
      let z := Qfloor q in
      if Qeq_bool q (inject_Z z) && (Z.abs z <=? MAX_SAFE_INTEGER) then Some z else None
  | None => None
  end.

Definition asSafeIntegerInRange (value : jsvalue) (rmin rmax : option Z) : option Z :=
  match safe_integer value with
  | None => None
  | Some z =>
      if match rmin with Some m => z <? m | None => false end then None
      else if match rmax with Some m => m <? z | None => false end then None
      else Some z
  end.

Definition asPositiveSafeInteger (value : jsvalue) : option Z :=
  match safe_integer value with
  | Some z => if 0 <? z then Some z else None
  | None => None
  end.

(** ** Strict decimal integers *)

Definition digit_value (c : Ascii.ascii) : option Z :=
  let n := Z.of_nat (Ascii.nat_of_ascii c) in
  if (48 <=? n) && (n <=? 57) then Some (n - 48) else None.

(** [/\d+$/] with the value of the digits read so far. *)
Fixpoint parse_digits (acc : Z) (s : string) : option Z :=
  match s with
  | EmptyString => Some acc
  | String c r =>
      match digit_value c with
      | Some d => parse_digits (acc * 10 + d) r
      | None => None
      end
  end.

Definition parse_unsigned (s : string) : option Z :=
  match s with
  | EmptyString => None
  | _ => parse_digits 0 s
  end.

(** [/^[+-]?\d+$/] and [Number]; the double of an integer outside the safe
    range is outside the safe range, so reading the exact integer and testing
    it is the same. *)
Definition parse_signed (s : string) : option Z :=
  match s with
  | String c r =>
      if Ascii.eqb c "+"%char then parse_unsigned r
      else if Ascii.eqb c "-"%char then Z.opp <$> parse_unsigned r
      else parse_unsigned s
  | EmptyString => None
  end.

Definition normalizeNumericString (value : string) : option string :=
  match js_trim value with
  | EmptyString => None
  | trimmed => Some trimmed
  end.

Definition parseStrictInteger (value : jsvalue) : option Z :=
  match value with
  | JNum _ => safe_integer value
  | JStr s =>
      match normalizeNumericString s with
      | None => None
      | Some normalized =>
          match parse_signed normalized with
          | Some z => if Z.abs z <=? MAX_SAFE_INTEGER then Some z else None
          | None => None
          end
      end
  | JOther => None
  end.

Definition parseStrictPositiveInteger (value : jsvalue) : option Z :=
  match parseStrictInteger value with
  | Some z => if 0 <? z then Some z else None
  | None => None
  end.

Definition parseStrictNonNegativeInteger (value : jsvalue) : option Z :=
  match parseStrictInteger value with
  | Some z => if 0 <=? z then Some z else None
  | None => None
  end.

(** ** Timers *)

Definition MAX_TIMER_TIMEOUT_MS : Z := 2147000000.

Definition clampTimerTimeoutMs (valueMs : jsvalue) (minMs : Q) : option Z :=
  match asFiniteNumber valueMs with
  | None => None
  | Some value =>
      let min := 1 `max` Qfloor minMs in
      Some ((Qfloor value `max` min) `min` MAX_TIMER_TIMEOUT_MS)
  end.

Definition clampPositiveTimerTimeoutMs (valueMs : jsvalue) : option Z :=
  match asFiniteNumber valueMs with
  | None => None
  | Some value => if Qle_bool value 0 then None else clampTimerTimeoutMs (JNum (Fin value)) 1
  end.

Definition resolveTimerTimeoutMs (valueMs fallbackMs : jsvalue) (minMs : Q) : Z :=
  let value :=
    match asFiniteNumber valueMs with
    | Some v => Some v
    | None => asFiniteNumber fallbackMs
    end in
  let min := 0 `max` Qfloor minMs in
  match value with
  | None => min
  | Some value => (Qfloor value `max` min) `min` MAX_TIMER_TIMEOUT_MS
  end.

Definition resolvePositiveTimerTimeoutMs (valueMs fallbackMs : jsvalue) : Z :=
  match clampPositiveTimerTimeoutMs valueMs with
  | Some t => t
  | None => resolveTimerTimeoutMs fallbackMs (JNum (Fin 1%Q)) 1
  end.

(** ** Integer options *)

Definition resolveIntegerOption (value : jsvalue) (fallback : Q) (rmin rmax : option Z) : Z :=
  let candidate := default fallback (asFiniteNumber value) in
  let floored := Qfloor candidate in
  let minBounded := match rmin with Some m => m `max` floored | None => floored end in
  match rmax with Some m => m `min` minBounded | None => minBounded end.

Definition resolveOptionalIntegerOption (value : jsvalue) (rmin rmax : option Z) : option Z :=
  match asFiniteNumber value with
  | None => None
  | Some q => Some (resolveIntegerOption value q rmin rmax)
  end.

Definition resolveNonNegativeIntegerOption (value : jsvalue) (fallback : Q) : Z :=
  resolveIntegerOption value fallback (Some 0) None.

(** ** Bounds *)

Lemma Qfloor_mono (p q : Q) : (p <= q)%Q → Qfloor p ≤ Qfloor q.
Proof. apply Qfloor_resp_le. Qed.

Lemma clampPositiveTimerTimeoutMs_bounds v t :
  clampPositiveTimerTimeoutMs v = Some t → 1 ≤ t ≤ MAX_TIMER_TIMEOUT_MS.
Proof.
  unfold clampPositiveTimerTimeoutMs, clampTimerTimeoutMs, MAX_TIMER_TIMEOUT_MS.
  destruct (asFiniteNumber v); [|done]. case_match; [done|]. simpl. intros [= <-]. lia.
Qed.

(** ** Decimal round trip *)

Definition digit_char (d : Z) : Ascii.ascii := Ascii.ascii_of_nat (Z.to_nat (d + 48)).

Lemma digit_value_char d : 0 ≤ d < 10 → digit_value (digit_char d) = Some d.
Proof.
  intros Hd. assert (d = 0 ∨ d = 1 ∨ d = 2 ∨ d = 3 ∨ d = 4 ∨ d = 5 ∨ d = 6 ∨ d = 7 ∨ d = 8 ∨ d = 9)
    as H by lia. by destruct H as [->|[->|[->|[->|[->|[->|[->|[->|[->| ->]]]]]]]]].
Qed.

(** The decimal digits of a natural number, most significant first. *)
Fixpoint show_digits (fuel : nat) (n : Z) (rest : string) : string :=
  match fuel with
  | O => rest
  | S fuel =>
      let rest := String (digit_char (n mod 10)) rest in
      if n <? 10 then rest else show_digits fuel (n / 10) rest
  end.

Definition show_nat (n : Z) : string := show_digits (S (Z.to_nat n)) n EmptyString.

Definition show_int (z : Z) : string :=
  if z <? 0 then String "-"%char (show_nat (- z)) else show_nat z.

Lemma parse_show_digits fuel n rest :
  0 ≤ n < Z.of_nat fuel →
  ∀ acc, ∃ p, parse_digits acc (show_digits fuel n rest) = parse_digits (acc * p + n) rest.
Proof.
  revert n rest. induction fuel as [|fuel IH]; intros n rest Hn acc; [lia|]. simpl.
  destruct (Z.ltb_spec n 10) as [Hlt|Hge].
  - exists 10. simpl. rewrite digit_value_char by (apply Z.mod_pos_bound; lia).
    by rewrite Z.mod_small by lia.
  - assert (Hq : 0 ≤ n / 10 < Z.of_nat fuel).
    { split; [apply Z.div_pos; lia|]. apply Z.div_lt_upper_bound; lia. }
    destruct (IH (n / 10) (String (digit_char (n mod 10)) rest) Hq acc) as (p & ->).
    exists (p * 10). simpl. rewrite digit_value_char by (apply Z.mod_pos_bound; lia).
    f_equal. pose proof (Z.div_mod n 10 ltac:(lia)). lia.
Qed.

Lemma show_digits_head fuel n rest :
  0 ≤ n → ∃ c r, show_digits (S fuel) n rest = String c r ∧
    ∃ d, 0 ≤ d < 10 ∧ c = digit_char d.
Proof.
  revert n rest. induction fuel as [|fuel IH]; intros n rest Hn.
  - simpl. exists (digit_char (n mod 10)), rest. split; [by case_match|].
    exists (n mod 10). split; [apply Z.mod_pos_bound; lia|done].
  - change (show_digits (S (S fuel)) n rest) with
      (let rest := String (digit_char (n mod 10)) rest in
       if n <? 10 then rest else show_digits (S fuel) (n / 10) rest). cbv zeta.
    case_match; [|apply IH, Z.div_pos; lia]. eexists _, _. split; [done|].
    exists (n mod 10). split; [apply Z.mod_pos_bound; lia|done].
Qed.

Lemma parse_show_nat n : 0 ≤ n → parse_unsigned (show_nat n) = Some n.
Proof.
  intros Hn. unfold show_nat.
  destruct (show_digits_head (Z.to_nat n) n EmptyString Hn) as (c & r & E & _).
  assert (Hp : parse_digits 0 (show_digits (S (Z.to_nat n)) n EmptyString) = Some n).
  { destruct (parse_show_digits (S (Z.to_nat n)) n EmptyString ltac:(lia) 0) as (p & ->).
    simpl. f_equal. }
  unfold parse_unsigned. by rewrite E in *.
Qed.

Lemma digit_char_plain d : 0 ≤ d < 10 →
  is_js_space (digit_char d) = false ∧ Ascii.eqb (digit_char d) "+"%char = false ∧
  Ascii.eqb (digit_char d) "-"%char = false.
Proof.
  intros Hd. assert (d = 0 ∨ d = 1 ∨ d = 2 ∨ d = 3 ∨ d = 4 ∨ d = 5 ∨ d = 6 ∨ d = 7 ∨ d = 8 ∨ d = 9)
    as H by lia. by destruct H as [->|[->|[->|[->|[->|[->|[->|[->|[->| ->]]]]]]]]].
Qed.

(** A string without white space is its own trimming. *)
Fixpoint no_space (s : string) : bool :=
  match s with
  | EmptyString => true
  | String c r => negb (is_js_space c) && no_space r
  end.

Lemma js_trim_no_space s : no_space s = true → js_trim s = s.
Proof.
  intros Hs. unfold js_trim.
  assert (H1 : trim_start s = s).
  { destruct s as [|c r]; [done|]. simpl in *. apply andb_true_iff in Hs as [Hc _].
    apply negb_true_iff in Hc. by rewrite Hc. }
  rewrite H1. clear H1. induction s as [|c r IH]; [done|]. simpl in *.
  apply andb_true_iff in Hs as [Hc%negb_true_iff Hr]. rewrite IH by done.
  destruct r; [by rewrite Hc|done].
Qed.

Lemma show_digits_no_space fuel n rest :
  0 ≤ n → no_space rest = true → no_space (show_digits fuel n rest) = true.
Proof.
  revert n rest. induction fuel as [|fuel IH]; intros n rest Hn Hr; simpl; [done|].
  assert (Hd : no_space (String (digit_char (n mod 10)) rest) = true).
  { cbn [no_space]. rewrite Hr.
    by rewrite (proj1 (digit_char_plain (n mod 10) (Z.mod_pos_bound n 10 ltac:(lia)))). }
  case_match; [done|]. apply IH; [apply Z.div_pos; lia|done].
Qed.

Lemma parse_show_int z : parse_signed (show_int z) = Some z.
Proof.
  unfold show_int. destruct (Z.ltb_spec z 0) as [Hz|Hz].
  - simpl. rewrite parse_show_nat by lia. simpl. by rewrite Z.opp_involutive.
  - pose proof (parse_show_nat z Hz) as Hp. unfold show_nat in *.
    destruct (show_digits_head (Z.to_nat z) z EmptyString Hz) as (c & r & E & d & Hd & ->).
    rewrite E in *. unfold parse_signed.
    destruct (digit_char_plain d Hd) as (_ & -> & ->). done.
Qed.

(** printing an integer in decimal and reading it back with
    [parseStrictInteger] is the identity on the safe integers and is refused
    outside them; white space around the digits is ignored. *)
Theorem parseStrictInteger_show z :
  parseStrictInteger (JStr (show_int z)) =
    if Z.abs z <=? MAX_SAFE_INTEGER then Some z else None.
Proof.
  unfold parseStrictInteger, normalizeNumericString.
  assert (Hs : no_space (show_int z) = true).
  { unfold show_int. case_match; simpl; apply show_digits_no_space; try done; lia. }
  rewrite js_trim_no_space by done. pose proof (parse_show_int z) as Hp.
  destruct (show_int z) as [|c r]; [done|]. by rewrite Hp.
Qed.

(** a timeout read by [clampPositiveTimerTimeoutMs] or
    [resolvePositiveTimerTimeoutMs] is an integer number of milliseconds that
    a timer can hold, it is the floor of a positive finite argument within that
    range, and anything else is refused or replaced. *)
Theorem timer_timeout_bounds v fallback :
  1 ≤ resolvePositiveTimerTimeoutMs v fallback ≤ MAX_TIMER_TIMEOUT_MS ∧
  match clampPositiveTimerTimeoutMs v with
  | Some t => ∃ q, v = JNum (Fin q) ∧ (0 < q)%Q ∧ 1 ≤ t ≤ MAX_TIMER_TIMEOUT_MS ∧
      (1 ≤ Qfloor q ≤ MAX_TIMER_TIMEOUT_MS → t = Qfloor q)
  | None => ∀ q, v = JNum (Fin q) → (q <= 0)%Q
  end.
Proof.
  split.
  - unfold resolvePositiveTimerTimeoutMs.
    destruct (clampPositiveTimerTimeoutMs v) as [t|] eqn:E;
      [by eapply clampPositiveTimerTimeoutMs_bounds|].
    unfold resolveTimerTimeoutMs, MAX_TIMER_TIMEOUT_MS. change (Qfloor 1) with 1.
    change (0 `max` 1) with 1. destruct v as [[]| |], fallback as [[]| |]; simpl; lia.
  - destruct (clampPositiveTimerTimeoutMs v) as [t|] eqn:E.
    + pose proof (clampPositiveTimerTimeoutMs_bounds v t E) as Hb.
      unfold clampPositiveTimerTimeoutMs, clampTimerTimeoutMs in E.
      destruct v as [[q| | |]| |]; simpl in E; try done.
      destruct (Qle_bool q 0) eqn:Eq; [done|]. injection E as <-. exists q.
      split; [done|]. split; [|split; [done|]].
      * apply Qnot_le_lt. intros Hq. apply Qle_bool_iff in Hq. congruence.
      * change (1 `div` 1) with 1. lia.
    + intros q ->. unfold clampPositiveTimerTimeoutMs, clampTimerTimeoutMs in E. simpl in E.
      destruct (Qle_bool q 0) eqn:Eq; [by apply Qle_bool_iff|done].
Qed.
