(* ===== verification/QueueState.v ===== *)
(** * Command queue state

    The process-wide state of the command queue: lanes, capacity groups, the
    tasks in flight and the promises already settled
    ([src/process/command-queue.state.ts], the registry of
    [src/process/command-queue.capacity-groups.ts]).

    Lane states and group states are objects the code compares by identity and
    keeps references to after they left their registry, so they live in heaps
    and the registries map names to references. *)
From S2P Require Import Prelude JsCollections LaneQueue.

Record LaneState := mkLane {
  lane : string;
  queue : LaneQueue;
  activeTaskIds : list Z;
  maxConcurrent : jsint;
  draining : bool;
  generation : Z
}.
#[export] Instance eta_LaneState : Eta LaneState := λ st,
  mkLane (lane st) (queue st) (activeTaskIds st) (maxConcurrent st) (draining st) (generation st).

Record LaneGroupState := mkGroup {
  group : string;
  budget : jsint;
  members : list string;
  reservations : list (string * jsint)
}.
#[export] Instance eta_LaneGroupState : Eta LaneGroupState := λ g,
  mkGroup (group g) (budget g) (members g) (reservations g).

Record CommandLaneTaskMarker := mkMarker {
  marker_lane : string;
  marker_taskId : Z;
  marker_generation : Z
}.

(** The locals of one admitted task: the lane name and the lane state its
    closure captured, its id, its generation and its entry. *)
Record RunningTask := mkTask {
  t_lane : string;
  t_state : nat;
  t_taskId : Z;
  t_generation : Z;
  t_entry : QueueEntry
}.

Inductive Settlement :=
| Resolved (value : nat)
| Rejected (error : nat)
| RejectedCleared (lane : string)
| RejectedDraining.

Record QueueState := mkQueueState {
  lanes : list (string * nat);
  laneHeap : gmap nat LaneState;
  nextTaskId : Z;
  nextQueueSequence : Z;
  laneGroups : list (string * nat);
  groupHeap : gmap nat LaneGroupState;
  laneGroupByLane : list (string * string);
  drainingGroups : list nat;
  nextRef : nat;
  clock : Z;
  running : list RunningTask;
  settled : list (nat * Settlement)
}.
#[export] Instance eta_QueueState : Eta QueueState := λ s,
  mkQueueState (lanes s) (laneHeap s) (nextTaskId s) (nextQueueSequence s) (laneGroups s)
    (groupHeap s) (laneGroupByLane s) (drainingGroups s) (nextRef s) (clock s) (running s)
    (settled s).

Definition initialQueueState : QueueState :=
  mkQueueState [] ∅ 1 1 [] ∅ [] [] 0 0 [] [].

(** The object behind a reference; references are never dangling
    ([lane_at] and [group_at] are total to keep the code readable). *)
Definition freshLane (name : string) : LaneState :=
  mkLane name createLaneQueue [] (Fin 1%Z) false 0.
Definition lane_at (r : nat) (s : QueueState) : LaneState :=
  default (freshLane EmptyString) (laneHeap s !! r).
Definition upd_lane (r : nat) (f : LaneState → LaneState) (s : QueueState) : QueueState :=
  s <| laneHeap ::= alter f r |>.
Definition group_at (r : nat) (s : QueueState) : LaneGroupState :=
  default (mkGroup EmptyString (Fin 0%Z) [] []) (groupHeap s !! r).
Definition upd_group (r : nat) (f : LaneGroupState → LaneGroupState) (s : QueueState) : QueueState :=
  s <| groupHeap ::= alter f r |>.

(** [getQueueState().lanes.get(lane)], dereferenced. *)
Definition find_lane (name : string) (s : QueueState) : option LaneState :=
  (λ r, lane_at r s) <$> JsMap.get name (lanes s).

Definition getLaneState (name : string) (s : QueueState) : QueueState * nat :=
  match JsMap.get name (lanes s) with
  | Some existing => (s, existing)
  | None =>
      let r := nextRef s in
      (s <| laneHeap ::= <[r := freshLane name]> |> <| nextRef ::= S |>
         <| lanes ::= JsMap.set name r |>, r)
  end.

Definition activeCount (st : LaneState) : Z := JsSet.size (activeTaskIds st).

Definition getLaneDepth (st : LaneState) : Z := (queue_length (queue st) + activeCount st)%Z.

Lemma activeCount_nonneg st : (0 ≤ activeCount st)%Z.
Proof. apply JsSet.size_nonneg. Qed.

Lemma lane_at_upd r r' f s :
  is_Some (laneHeap s !! r') →
  lane_at r (upd_lane r' f s) = if decide (r = r') then f (lane_at r s) else lane_at r s.
Proof.
  intros [st Hst]. unfold lane_at, upd_lane. simpl. case_decide as Hr.
  - subst. by rewrite lookup_alter_eq, Hst.
  - by rewrite lookup_alter_ne.
Qed.

Lemma lane_at_lookup r s st : laneHeap s !! r = Some st → lane_at r s = st.
Proof. intros Hr. unfold lane_at. by rewrite Hr. Qed.
