(* ===== verification/CapacityGroups.v ===== *)
(** * Capacity groups

    A shared, hard budget across several command lanes, with per-member
    reservations ([src/process/command-queue.capacity-groups.ts]). *)
From S2P Require Import Prelude JsCollections LaneQueue QueueState.

Inductive CommandLaneBlockReason := BlockLane | BlockGroupBudget | BlockSiblingReservation.
#[export] Instance CommandLaneBlockReason_eq_dec : EqDecision CommandLaneBlockReason.
Proof. solve_decision. Defined.

(** [reservations] is the entry list of the object. *)
Record CommandLaneGroupSpec := mkSpec {
  spec_budget : jsnum;
  spec_members : list string;
  spec_reservations : list (string * jsnum)
}.

Inductive GroupSpecError :=
| IneligibleLane (lane : string)
| ReservesForNonMember (member : string)
| OverReserved (reservedTotal budget : jsint).

Definition GROUP_INELIGIBLE_LANES : list string := ["cron"; "main"; "subagent"; "nested"].
Definition GROUP_INELIGIBLE_PREFIXES : list string :=
  ["session:"; "nested:"; "context-engine-turn-maintenance:"].

(** [true]: [assertGroupEligibleLane] returns; [false]: it throws. *)
Definition assertGroupEligibleLane (name : string) : bool :=
  negb (bool_decide (name ∈ GROUP_INELIGIBLE_LANES)) &&
  negb (existsb (λ prefix, starts_with prefix name) GROUP_INELIGIBLE_PREFIXES).

(** ** Admission *)

(** [getLaneGroup]: an empty group id is falsy. *)
Definition getLaneGroup (name : string) (s : QueueState) : option nat :=
  match JsMap.get name (laneGroupByLane s) with
  | Some groupId =>
      if String.eqb groupId EmptyString then None else JsMap.get groupId (laneGroups s)
  | None => None
  end.

Definition getMemberActiveCount (name : string) (s : QueueState) : Z :=
  match find_lane name s with
  | Some st => activeCount st
  | None => 0
  end.

(** [group.reservations.get(member) ?? 0] *)
Definition reservationOf (g : LaneGroupState) (member : string) : jsint :=
  default (Fin 0%Z) (JsMap.get member (reservations g)).

(** The loop over the members: the active total and the reserve held back for
    the siblings of [name]. *)
Definition groupUsage (g : LaneGroupState) (name : string) (active : string → Z) : Z * jsint :=
  foldl (λ '(groupActive, held) member,
    let a := active member in
    let groupActive := (groupActive + a)%Z in
    let held :=
      if bool_decide (member = name) then held
      else js_add held (js_max 0 (js_sub (reservationOf g member) a)) in
    (groupActive, held)) (0%Z, Fin 0%Z) (members g).

Definition resolveLaneBlockReason (name : string) (s : QueueState) : option CommandLaneBlockReason :=
  if match find_lane name s with
     | Some st => js_geb (activeCount st) (maxConcurrent st)
     | None => false
     end
  then Some BlockLane
  else
    match getLaneGroup name s with
    | None => None
    | Some r =>
        let g := group_at r s in
        let '(groupActive, held) := groupUsage g name (λ m, getMemberActiveCount m s) in
        if js_geb groupActive (budget g) then Some BlockGroupBudget
        else if js_ltb (getMemberActiveCount name s) (reservationOf g name) then None
        else if js_lt (js_add (Fin groupActive) held) (budget g) then None
        else Some BlockSiblingReservation
    end.

Definition canAdmitInGroup (name : string) (s : QueueState) : bool :=
  match resolveLaneBlockReason name s with
  | None | Some BlockLane => true
  | _ => false
  end.

(** ** Definition and installation of groups *)

(** The loop over [Object.entries(spec.reservations)]. *)
Fixpoint validateReservations (mems : list string) (entries : list (string * jsnum))
    (acc : list (string * jsint)) (reservedTotal : jsint) :
    GroupSpecError + list (string * jsint) * jsint :=
  match entries with
  | [] => inr (acc, reservedTotal)
  | (rawLane, count) :: rest =>
      let member := normalizeLane rawLane in
      if bool_decide (member ∈ mems) then
        let reserved := js_max 0 (js_floor count) in
        validateReservations mems rest (JsMap.set member reserved acc) (js_add reservedTotal reserved)
      else inl (ReservesForNonMember member)
  end.

Definition validateCommandLaneGroupSpec (name : string) (spec : CommandLaneGroupSpec) :
    GroupSpecError + LaneGroupState :=
  let mems := normalizeLane <$> spec_members spec in
  match list_first (λ m, negb (assertGroupEligibleLane m)) mems with
  | Some m => inl (IneligibleLane m)
  | None =>
      match validateReservations mems (spec_reservations spec) [] (Fin 0%Z) with
      | inl e => inl e
      | inr (res, reservedTotal) =>
          let bud := js_max 0 (js_floor (spec_budget spec)) in
          if js_lt bud reservedTotal then inl (OverReserved reservedTotal bud)
          else inr (mkGroup name bud (JsSet.of_list mems) res)
      end
  end.

(** [new] allocates the group object. *)
Definition newGroup (next : LaneGroupState) (s : QueueState) : QueueState * nat :=
  (s <| groupHeap ::= <[nextRef s := next]> |> <| nextRef ::= S |>, nextRef s).

(** [groupByLane.delete(member)] and [groupByLane.set(member, group)] in a loop. *)
Definition detachMembers (mems : list string) (s : QueueState) : QueueState :=
  s <| laneGroupByLane ::= λ idx, foldl (λ idx m, JsMap.delete m idx) idx mems |>.
Definition attachMembers (g : string) (mems : list string) (s : QueueState) : QueueState :=
  s <| laneGroupByLane ::= λ idx, foldl (λ idx m, JsMap.set m g idx) idx mems |>.

(** A member of the new group leaves the group that owned it. *)
Definition disownMember (g : string) (s : QueueState) (member : string) : QueueState :=
  match JsMap.get member (laneGroupByLane s) with
  | Some owner =>
      if negb (String.eqb owner EmptyString) && negb (String.eqb owner g) then
        match JsMap.get owner (laneGroups s) with
        | Some r => upd_group r (λ g, g <| members ::= JsSet.delete member |>) s
        | None => s
        end
      else s
  | None => s
  end.

Definition installCommandLaneGroup (nextGroup : nat) (s : QueueState) : QueueState :=
  let next := group_at nextGroup s in
  let s :=
    match JsMap.get (group next) (laneGroups s) with
    | Some previous => detachMembers (members (group_at previous s)) s
    | None => s
    end in
  let s := foldl (disownMember (group next)) s (members next) in
  let s := s <| laneGroups ::= JsMap.set (group next) nextGroup |> in
  attachMembers (group next) (members next) s.

(** ** Arbitration *)

Record Selected := mkSelected {
  sel_lane : string;
  sel_priority : Z;
  sel_sequence : Z
}.

(** The head of a member that can be started now. *)
Definition groupCandidate (s : QueueState) (name : string) : option Selected :=
  match find_lane name s with
  | None => None
  | Some st =>
      match peekLaneQueue (queue st) with
      | None => None
      | Some h =>
          if draining st || bool_decide (resolveLaneBlockReason name s ≠ None) then None
          else Some (mkSelected name (priority_number (priority h)) (sequence h))
      end
  end.

Definition beats (c selected : Selected) : bool :=
  (sel_priority selected <? sel_priority c)%Z ||
  ((sel_priority c =? sel_priority selected)%Z &&
   ((sel_sequence c <? sel_sequence selected)%Z ||
    ((sel_sequence c =? sel_sequence selected)%Z &&
     js_string_ltb (sel_lane c) (sel_lane selected)))).

Definition resolveNextGroupLane (r : nat) (s : QueueState) : option string :=
  let selected :=
    foldl (λ selected name,
      match groupCandidate s name with
      | None => selected
      | Some c =>
          match selected with
          | None => Some c
          | Some best => if beats c best then Some c else selected
          end
      end) None (members (group_at r s)) in
  sel_lane <$> selected.

(** ** The budget invariant *)

(** A group whose budget and reservations are proper integers. *)
Record group_ok (g : LaneGroupState) : Prop := {
  go_members : NoDup (members g);
  go_budget : ∃ b, budget g = Fin b;
  go_reservations m : ∃ z, reservationOf g m = Fin z ∧ (0 ≤ z)%Z
}.

Definition budgetZ (g : LaneGroupState) : Z :=
  fin_value (budget g).
Definition reservationZ (g : LaneGroupState) (m : string) : Z :=
  fin_value (reservationOf g m).

(** The capacity the group has given away: each member holds its active tasks
    or its reservation, whichever is larger. *)
Definition committed (g : LaneGroupState) (active : string → Z) : Z :=
  sumZ (λ m, active m `max` reservationZ g m)%Z (members g).

Definition one_more (name : string) (active : string → Z) : string → Z :=
  λ m, if decide (m = name) then (active m + 1)%Z else active m.

Section admission.
Context (g : LaneGroupState) (name : string) (active : string → Z).
Context (Hg : group_ok g) (Hact : ∀ m, (0 ≤ active m)%Z) (Hname : name ∈ members g).

Lemma budgetZ_eq : budget g = Fin (budgetZ g).
Proof. unfold budgetZ. destruct (go_budget _ Hg) as [b ->]. done. Qed.

Lemma reservationZ_eq m : reservationOf g m = Fin (reservationZ g m) ∧ (0 ≤ reservationZ g m)%Z.
Proof. unfold reservationZ. by destruct (go_reservations _ Hg m) as (z & -> & ?). Qed.

Definition sibling_held (m : string) : Z :=
  if decide (m = name) then 0%Z else (0 `max` (reservationZ g m - active m))%Z.

Lemma groupUsage_eq :
  groupUsage g name active = (sumZ active (members g), Fin (sumZ sibling_held (members g))).
Proof.
  unfold groupUsage. enough (H : ∀ ms a h,
    foldl (λ '(groupActive, held) member,
      let a := active member in
      let groupActive := (groupActive + a)%Z in
      let held := if bool_decide (member = name) then held
        else js_add held (js_max 0 (js_sub (reservationOf g member) a)) in
      (groupActive, held)) (a, Fin h) ms = ((a + sumZ active ms)%Z, Fin (h + sumZ sibling_held ms)%Z))
    by (rewrite H; do 2 f_equal).
  induction ms as [|m ms IH]; intros a h; simpl; [by rewrite !Z.add_0_r|].
  unfold sibling_held at 1. destruct (reservationZ_eq m) as [-> _]. simpl.
  destruct (decide (m = name)) as [->|Hne].
  - rewrite bool_decide_true by done. rewrite IH. apply f_equal2; [lia|apply f_equal; lia].
  - rewrite bool_decide_false by done. rewrite IH. apply f_equal2; [lia|apply f_equal; lia].
Qed.

Lemma sum_at (f h : string → Z) :
  (∀ m, m ≠ name → h m = f m) →
  sumZ h (members g) = (sumZ f (members g) + (h name - f name))%Z.
Proof. intros Hm. apply sumZ_update; [apply Hg|done|auto]. Qed.

(** The commitment before and after one more task of [name]. *)
Lemma committed_split :
  (sumZ active (members g) + sumZ sibling_held (members g) =
    committed g active + (active name - active name `max` reservationZ g name))%Z.
Proof.
  rewrite <-sumZ_add.
  unfold committed. rewrite (sum_at (λ m, active m `max` reservationZ g m)%Z).
  - unfold sibling_held. rewrite decide_True by done. lia.
  - intros m Hne. unfold sibling_held. rewrite decide_False by done. lia.
Qed.

Lemma committed_one_more :
  committed g (one_more name active) =
    (committed g active +
     ((active name + 1) `max` reservationZ g name - active name `max` reservationZ g name))%Z.
Proof.
  unfold committed. rewrite (sum_at (λ m, active m `max` reservationZ g m)%Z).
  - unfold one_more. by rewrite decide_True.
  - intros m Hne. unfold one_more. by rewrite decide_False.
Qed.

Lemma active_le_committed : (sumZ active (members g) ≤ committed g active)%Z.
Proof. apply sumZ_le. intros. lia. Qed.

Lemma active_lt_committed :
  (active name < reservationZ g name)%Z → (sumZ active (members g) < committed g active)%Z.
Proof.
  intros Hlt. pose proof committed_split as Hs.
  assert (0 ≤ sumZ sibling_held (members g))%Z; [|lia].
  apply sumZ_nonneg. intros m _. unfold sibling_held. case_decide; lia.
Qed.

End admission.

Lemma getMemberActiveCount_nonneg m s : (0 ≤ getMemberActiveCount m s)%Z.
Proof. unfold getMemberActiveCount. case_match; [apply activeCount_nonneg|done]. Qed.

(** The lane's own cap. *)
Definition laneHasRoom (name : string) (s : QueueState) : bool :=
  match find_lane name s with
  | Some st => negb (js_geb (activeCount st) (maxConcurrent st))
  | None => true
  end.

Lemma resolveLaneBlockReason_room name s :
  resolveLaneBlockReason name s = Some BlockLane ↔ laneHasRoom name s = false.
Proof.
  unfold resolveLaneBlockReason, laneHasRoom.
  destruct (find_lane name s) as [st|]; [destruct (js_geb _ _); simpl|]; (split; [|done]);
    try done; intros H; repeat case_match; congruence.
Qed.

(** Admission is exact: as long as the group has not given away more than its
    budget, a member is admitted if and only if its own cap has room and one
    more task of it keeps the group within its budget. *)
Lemma resolveLaneBlockReason_exact name r s :
  let g := group_at r s in
  let active := λ m, getMemberActiveCount m s in
  getLaneGroup name s = Some r → group_ok g → name ∈ members g →
  (committed g active ≤ budgetZ g)%Z →
  resolveLaneBlockReason name s = None ↔
    laneHasRoom name s = true ∧ (committed g (one_more name active) ≤ budgetZ g)%Z.
Proof.
  intros g active Hr Hg Hn Hc. unfold resolveLaneBlockReason, laneHasRoom. rewrite Hr.
  fold g active.
  assert (Hact : ∀ m, (0 ≤ active m)%Z) by (intros; apply getMemberActiveCount_nonneg).
  rewrite groupUsage_eq, (budgetZ_eq g Hg) by done.
  destruct (reservationZ_eq g Hg name) as [-> Hres].
  pose proof (committed_split g name active Hg Hn) as Hs.
  pose proof (committed_one_more g name active Hg Hn) as Hm.
  pose proof (active_lt_committed g name active Hg Hn) as Hlt.
  assert (0 ≤ sumZ (sibling_held g name active) (members g))%Z as Hheld
    by (apply sumZ_nonneg; intros m _; unfold sibling_held; case_decide; lia).
  change (getMemberActiveCount name s) with (active name).
  destruct (match find_lane name s with Some st => _ | None => false end) eqn:E.
  { split; [done|]. by destruct (find_lane name s); simplify_eq/=; rewrite ?E; intros []. }
  assert ((match find_lane name s with
    | Some st => negb (js_geb (activeCount st) (maxConcurrent st)) | None => true end) = true) as ->
    by (by destruct (find_lane name s); rewrite ?E).
  simpl. destruct (Z.leb_spec (budgetZ g) (sumZ active (members g))).
  { split; [done|]. intros [_ ?]. lia. }
  destruct (Z.ltb_spec (active name) (reservationZ g name)).
  { split; [|done]. intros _. split; [done|]. lia. }
  destruct (Z.ltb_spec (sumZ active (members g) + sumZ (sibling_held g name active) (members g))
    (budgetZ g)); simpl; split; try done; try lia; intros; destruct_and?; split; done || lia.
Qed.

(** A hard reservation is always claimable. *)
Lemma resolveLaneBlockReason_reserved name r s :
  let g := group_at r s in
  let active := λ m, getMemberActiveCount m s in
  getLaneGroup name s = Some r → group_ok g → name ∈ members g →
  (committed g active ≤ budgetZ g)%Z →
  laneHasRoom name s = true → (active name < reservationZ g name)%Z →
  resolveLaneBlockReason name s = None.
Proof.
  intros g active Hr Hg Hn Hc Hroom Hlt.
  apply (resolveLaneBlockReason_exact name r s Hr Hg Hn Hc). split; [done|].
  fold g active. rewrite (committed_one_more g name active Hg Hn). lia.
Qed.

(** ** Validation *)

(** Every number of the specification is an integer the caller meant. *)
Definition spec_finite (spec : CommandLaneGroupSpec) : Prop :=
  (∃ z, js_floor (spec_budget spec) = Fin z) ∧
  Forall (λ p, ∃ z, js_floor p.2 = Fin z) (spec_reservations spec).

Definition normalized_members (spec : CommandLaneGroupSpec) : list string :=
  normalizeLane <$> spec_members spec.

(** [reservedTotal] after the loop: repeated names count repeatedly. *)
Definition reserved_total (entries : list (string * jsnum)) : jsint :=
  foldl (λ t p, js_add t (js_max 0 (js_floor p.2))) (Fin 0%Z) entries.

Lemma validateReservations_accepts mems entries acc t :
  (∃ res, validateReservations mems entries acc t =
     inr (res, foldl (λ t p, js_add t (js_max 0 (js_floor p.2))) t entries)) ↔
  Forall (λ p, normalizeLane p.1 ∈ mems) entries.
Proof.
  revert acc t. induction entries as [|[k v] rest IH]; intros acc t; simpl.
  { split; [by constructor|eauto]. }
  case_bool_decide as Hm.
  - rewrite IH, Forall_cons. naive_solver.
  - rewrite Forall_cons. naive_solver.
Qed.

Lemma validateReservations_result mems entries acc t :
  (∃ res, validateReservations mems entries acc t =
     inr (res, foldl (λ t p, js_add t (js_max 0 (js_floor p.2))) t entries)) ∨
  (∃ m, m ∉ mems ∧ validateReservations mems entries acc t = inl (ReservesForNonMember m)).
Proof.
  revert acc t. induction entries as [|[k v] rest IH]; intros acc t; simpl; [by left; eauto|].
  case_bool_decide; [apply IH|right; eauto].
Qed.

(** A reservation map of proper integers that sums to at most [t]. *)
Definition res_inv (mems : list string) (acc : list (string * jsint)) (t : Z) : Prop :=
  NoDup (JsMap.keys acc) ∧
  Forall (λ p, p.1 ∈ mems ∧ ∃ z, p.2 = Fin z ∧ (0 ≤ z)%Z) acc ∧
  (sumZ (λ p, fin_value p.2) acc ≤ t)%Z.

Lemma sum_set_le k z (acc : list (string * jsint)) :
  Forall (λ p, ∃ z, p.2 = Fin z ∧ (0 ≤ z)%Z) acc →
  (0 ≤ z)%Z →
  (sumZ (λ p, fin_value p.2) (JsMap.set k (Fin z) acc) ≤
   sumZ (λ p, fin_value p.2) acc + z)%Z.
Proof.
  intros Hacc Hz. induction Hacc as [|[k' v] acc (z' & Hv & Hz') Hacc IH]; simpl; [lia|].
  simpl in Hv. subst v. case_decide; simpl; lia.
Qed.

Lemma Forall_set {A} (P : string * A → Prop) k v (m : list (string * A)) :
  (∀ k', k' = k → P (k', v)) → Forall P m → Forall P (JsMap.set k v m).
Proof.
  intros Hk Hm. induction Hm as [|[k' v'] m Hp Hm IH]; simpl; [by constructor; auto|].
  case_decide; constructor; auto.
Qed.

Lemma validateReservations_inv mems entries acc t res t' :
  Forall (λ p, ∃ z, js_floor p.2 = Fin z) entries → res_inv mems acc t →
  validateReservations mems entries acc (Fin t) = inr (res, t') →
  ∃ z, t' = Fin z ∧ res_inv mems res z.
Proof.
  intros Hf. revert acc t. induction Hf as [|[k v] rest (z & Hz) Hf IH]; intros acc t Hi; simpl.
  { intros [= <- <-]. eauto. }
  case_bool_decide as Hm; [|done]. simpl in Hz. rewrite Hz. simpl. apply IH.
  destruct Hi as (Hn & Hall & Hsum). split_and!.
  - by apply JsMap.NoDup_keys_set.
  - apply Forall_set; [|done]. intros k' ->. simpl. split; [done|]. eexists. split; [done|lia].
  - etrans; [apply sum_set_le; [|lia]|lia]. eapply Forall_impl; [exact Hall|]. naive_solver.
Qed.

Lemma res_inv_nil mems : res_inv mems [] 0.
Proof. split; [apply NoDup_nil_2|]. by split. Qed.

(** The reservations of distinct members are among the entries of the map. *)
Lemma sum_reservations_le (ms : list string) (res : list (string * jsint)) :
  NoDup ms → NoDup (JsMap.keys res) →
  Forall (λ p, ∃ z, p.2 = Fin z ∧ (0 ≤ z)%Z) res →
  (sumZ (λ m, fin_value (default (Fin 0%Z) (JsMap.get m res))) ms ≤
   sumZ (λ p, fin_value p.2) res)%Z.
Proof.
  intros Hms Hk Hall. revert ms Hms.
  induction Hall as [|[k v] res (z & Hv & Hz) Hall IH]; intros ms Hms.
  { simpl. by rewrite sumZ_zero. }
  simpl in Hv. subst v. rewrite sumZ_cons. cbn [JsMap.get fst snd fin_value].
  change (NoDup (k :: JsMap.keys res)) in Hk. apply NoDup_cons in Hk as [Hk Hk'].
  assert (Hres : JsMap.get k res = None) by exact (proj2 (JsMap.get_None_keys k res) Hk).
  destruct (decide (k ∈ ms)) as [Hin|Hin].
  - rewrite (sumZ_update
      (λ m, fin_value (default (Fin 0%Z) (JsMap.get m res))) _ k).
    + rewrite decide_True, Hres by done. simpl. specialize (IH Hk' ms Hms). lia.
    + done.
    + done.
    + intros b _ Hb. by rewrite decide_False.
  - specialize (IH Hk' ms Hms). etrans; [|etrans; [exact IH|lia]].
    apply Z.eq_le_incl, sumZ_ext. intros b Hb. rewrite decide_False; [done|]. by intros ->.
Qed.

(** A specification is accepted exactly when its members are eligible, its
    reservations are for members and do not exceed the budget. *)
Lemma validateCommandLaneGroupSpec_accepts name spec :
  (∃ g, validateCommandLaneGroupSpec name spec = inr g) ↔
    Forall (λ m, assertGroupEligibleLane m = true) (normalized_members spec) ∧
    Forall (λ p, normalizeLane p.1 ∈ normalized_members spec) (spec_reservations spec) ∧
    js_lt (js_max 0 (js_floor (spec_budget spec)))
      (reserved_total (spec_reservations spec)) = false.
Proof.
  unfold validateCommandLaneGroupSpec, normalized_members, list_first.
  assert (He : Forall (λ m, assertGroupEligibleLane m = true) (normalizeLane <$> spec_members spec) ↔
    List.find (λ m, negb (assertGroupEligibleLane m)) (normalizeLane <$> spec_members spec) = None).
  { induction (normalizeLane <$> spec_members spec) as [|m ms IH]; simpl; [done|].
    rewrite Forall_cons. destruct (assertGroupEligibleLane m); simpl; [|naive_solver].
    rewrite IH. naive_solver. }
  rewrite He. destruct (List.find _ _) as [m|]; [naive_solver|].
  rewrite <-(validateReservations_accepts _ _ [] (Fin 0%Z)). fold (reserved_total (spec_reservations spec)).
  destruct (validateReservations_result (normalizeLane <$> spec_members spec)
    (spec_reservations spec) [] (Fin 0%Z)) as [(res & ->)|(m & _ & ->)]; [|naive_solver].
  fold (reserved_total (spec_reservations spec)).
  destruct (js_lt _ _) eqn:E; [|naive_solver].
  split; [by intros (g & ?)|]. intros (_ & _ & ?). done.
Qed.

(** What acceptance promises: the group is well formed and has not given away
    more than its budget while its members are idle. *)
Lemma validateCommandLaneGroupSpec_sound name spec g :
  spec_finite spec → validateCommandLaneGroupSpec name spec = inr g →
  group g = name ∧ group_ok g ∧ (committed g (λ _, 0%Z) ≤ budgetZ g)%Z ∧
  (∀ m, m ∈ members g ↔ m ∈ normalized_members spec).
Proof.
  intros [(b & Hb) Hfin]. unfold validateCommandLaneGroupSpec. rewrite Hb.
  case_match; [done|].
  destruct (validateReservations _ _ _ _) as [|[res t]] eqn:Ev; [done|].
  destruct (validateReservations_inv _ _ [] 0 _ _ Hfin (res_inv_nil _) Ev) as (z & -> & Hn & Hall & Hsum).
  simpl. destruct (Z.ltb_spec (0 `max` b) z) as [|Hle]; [done|]. intros [= <-].
  assert (Hr : Forall (λ p, ∃ z, p.2 = Fin z ∧ (0 ≤ z)%Z) res)
    by (eapply Forall_impl; [exact Hall|naive_solver]).
  assert (Hres : ∀ m, ∃ z, default (Fin 0%Z) (JsMap.get m res) = Fin z ∧ (0 ≤ z)%Z).
  { intros m. destruct (JsMap.get m res) eqn:Em; simpl; [|by exists 0%Z].
    apply JsMap.get_elem in Em. rewrite Forall_forall in Hr. by apply (Hr _ Em). }
  split; [done|]. split; [|split].
  - split; simpl; [apply JsSet.NoDup_of_list|by eexists|exact Hres].
  - unfold committed, budgetZ, reservationZ, reservationOf. simpl.
    etrans; [|exact Hle]. etrans; [|exact Hsum].
    etrans; [|apply (sum_reservations_le (JsSet.of_list (normalizeLane <$> spec_members spec)) res
      (JsSet.NoDup_of_list _) Hn Hr)].
    apply sumZ_le. intros m _. destruct (Hres m) as (z' & -> & ?). simpl. lia.
  - intros m. simpl. apply JsSet.elem_of_of_list.
Qed.

(** ** Arbitration picks one definite head *)

Lemma beats_trans a b c : beats a b = true → beats b c = true → beats a c = true.
Proof.
  unfold beats. rewrite !orb_true_iff, !andb_true_iff, !orb_true_iff, !andb_true_iff,
    !Z.ltb_lt, !Z.eqb_eq.
  intros [H1|[H1 [H1'|[H1' H1'']]]] [H2|[H2 [H2'|[H2' H2'']]]];
    try (left; lia); right; (split; [lia|]); try (left; lia).
  right. split; [lia|]. by eapply js_string_ltb_trans.
Qed.

Lemma beats_total a b : sel_lane a ≠ sel_lane b → beats a b = true ∨ beats b a = true.
Proof.
  intros Hne. unfold beats. rewrite !orb_true_iff, !andb_true_iff, !orb_true_iff, !andb_true_iff,
    !Z.ltb_lt, !Z.eqb_eq.
  destruct (Z.lt_trichotomy (sel_priority a) (sel_priority b)) as [?|[?|?]]; [by right; left| |by left; left].
  destruct (Z.lt_trichotomy (sel_sequence a) (sel_sequence b)) as [?|[?|?]]; [left; auto| |right; auto].
  destruct (js_string_ltb_total (sel_lane a) (sel_lane b)) as [?|[?|?]];
    [left|done|right]; right; (split; [done|]); right; auto.
Qed.

Lemma groupCandidate_lane s name c : groupCandidate s name = Some c → sel_lane c = name.
Proof. unfold groupCandidate. intros. repeat case_match; by simplify_eq/=. Qed.

(** The selected candidate beats every other one. *)
Definition best_of (s : QueueState) (ms : list string) (sel : option Selected) : Prop :=
  match sel with
  | None => ∀ m, m ∈ ms → groupCandidate s m = None
  | Some b => sel_lane b ∈ ms ∧ groupCandidate s (sel_lane b) = Some b ∧
      ∀ m c, m ∈ ms → groupCandidate s m = Some c → m = sel_lane b ∨ beats b c = true
  end.

Lemma resolveNextGroupLane_best r s :
  ∃ sel, best_of s (members (group_at r s)) sel ∧ resolveNextGroupLane r s = sel_lane <$> sel.
Proof.
  unfold resolveNextGroupLane. eexists. split; [|done].
  generalize (members (group_at r s)). intros ms.
  enough (H : ∀ done sel, best_of s done sel → best_of s (done ++ ms)
    (foldl (λ selected name,
      match groupCandidate s name with
      | None => selected
      | Some c =>
          match selected with
          | None => Some c
          | Some best => if beats c best then Some c else selected
          end
      end) sel ms)) by (apply (H [] None); intros m Hm; set_solver).
  induction ms as [|n ms IH]; intros done sel Hd; simpl; [by rewrite app_nil_r|].
  replace (done ++ n :: ms) with ((done ++ [n]) ++ ms) by by rewrite <-app_assoc.
  apply IH. clear IH. destruct (groupCandidate s n) as [c|] eqn:Ec.
  - pose proof (groupCandidate_lane _ _ _ Ec) as Hl. destruct sel as [b|]; simpl in *.
    + destruct Hd as (Hb1 & Hb2 & Hb3). destruct (beats c b) eqn:Eb; simpl.
      * rewrite Hl. split_and!; [set_solver|done|]. intros m c' Hm Hc'.
        apply elem_of_app in Hm as [Hm|Hm]; [|left; set_solver].
        destruct (Hb3 m c' Hm Hc') as [->|Hbe]; right; [by simplify_eq|by eapply beats_trans].
      * split_and!; [set_solver|done|]. intros m c' Hm Hc'.
        apply elem_of_app in Hm as [Hm|Hm]; [by eapply Hb3|].
        apply list_elem_of_singleton in Hm as ->.
        assert (c' = c) as -> by congruence.
        destruct (decide (sel_lane c = sel_lane b)) as [|Hne]; [left; congruence|right].
        destruct (beats_total c b Hne); congruence.
    + rewrite Hl. split_and!; [set_solver|done|]. intros m c' Hm Hc'.
      apply elem_of_app in Hm as [Hm|Hm]; [by rewrite Hd in Hc'|left; set_solver].
  - destruct sel as [b|]; simpl in *.
    + destruct Hd as (Hb1 & Hb2 & Hb3). split_and!; [set_solver|done|]. intros m c' Hm Hc'.
      apply elem_of_app in Hm as [Hm|Hm]; [by eapply Hb3|].
      apply list_elem_of_singleton in Hm as ->. congruence.
    + intros m Hm. apply elem_of_app in Hm as [Hm|Hm]; [by apply Hd|]. set_solver.
Qed.

(** ** The registry: a lane belongs to at most one group *)

Record registry_ok (s : QueueState) : Prop := {
  rg_groups : NoDup (JsMap.keys (laneGroups s));
  rg_bylane : NoDup (JsMap.keys (laneGroupByLane s));
  rg_name g r : JsMap.get g (laneGroups s) = Some r →
    g ≠ EmptyString ∧ ∃ st, groupHeap s !! r = Some st ∧ group st = g;
  rg_index m g : JsMap.get m (laneGroupByLane s) = Some g ↔
    ∃ r, JsMap.get g (laneGroups s) = Some r ∧ m ∈ members (group_at r s)
}.

Lemma group_at_lookup r s st : groupHeap s !! r = Some st → group_at r s = st.
Proof. intros Hr. unfold group_at. by rewrite Hr. Qed.

(** In a consistent registry the lane index finds the group that lists the lane. *)
Lemma getLaneGroup_spec name s :
  registry_ok s →
  (∀ r, getLaneGroup name s = Some r ↔
    ∃ g, JsMap.get g (laneGroups s) = Some r ∧ name ∈ members (group_at r s)).
Proof.
  intros Hs r. unfold getLaneGroup. split.
  - destruct (JsMap.get name (laneGroupByLane s)) as [g|] eqn:E; [|done].
    case_match; [done|]. intros Hg. apply (rg_index _ Hs) in E as (r' & Hr' & Hin).
    simplify_eq. eauto.
  - intros (g & Hg & Hin).
    assert (JsMap.get name (laneGroupByLane s) = Some g) as -> by (apply (rg_index _ Hs); eauto).
    destruct (rg_name _ Hs g r Hg) as [Hne _].
    by rewrite (proj2 (String.eqb_neq _ _) Hne).
Qed.

Lemma get_detach mems m (idx : list (string * string)) :
  JsMap.get m (foldl (λ idx m, JsMap.delete m idx) idx mems) =
    if decide (m ∈ mems) then None else JsMap.get m idx.
Proof.
  revert idx. induction mems as [|x mems IH]; intros idx; simpl; [done|].
  rewrite IH, JsMap.get_delete. repeat case_decide; set_solver.
Qed.

Lemma get_attach g mems m (idx : list (string * string)) :
  JsMap.get m (foldl (λ idx m, JsMap.set m g idx) idx mems) =
    if decide (m ∈ mems) then Some g else JsMap.get m idx.
Proof.
  revert idx. induction mems as [|x mems IH]; intros idx; simpl; [done|].
  rewrite IH, JsMap.get_set. repeat case_decide; set_solver.
Qed.

Lemma NoDup_detach mems (idx : list (string * string)) :
  NoDup (JsMap.keys idx) → NoDup (JsMap.keys (foldl (λ idx m, JsMap.delete m idx) idx mems)).
Proof. revert idx. induction mems; simpl; auto using JsMap.NoDup_keys_delete. Qed.

Lemma NoDup_attach g mems (idx : list (string * string)) :
  NoDup (JsMap.keys idx) → NoDup (JsMap.keys (foldl (λ idx m, JsMap.set m g idx) idx mems)).
Proof. revert idx. induction mems; simpl; auto using JsMap.NoDup_keys_set. Qed.

(** Whether [disownMember] removes [m] from the group [r]. *)
Definition disowned (g : string) (s : QueueState) (r : nat) (m : string) : bool :=
  match JsMap.get m (laneGroupByLane s) with
  | Some owner => negb (String.eqb owner EmptyString) && negb (String.eqb owner g) &&
      bool_decide (JsMap.get owner (laneGroups s) = Some r)
  | None => false
  end.

Definition keep_members (g : string) (s : QueueState) (mems : list string) (r : nat)
    (st : LaneGroupState) : LaneGroupState :=
  st <| members ::= filter (λ m, ¬ (m ∈ mems ∧ disowned g s r m = true)) |>.

Lemma keep_members_id g s mems r st :
  (∀ m, m ∈ mems → disowned g s r m = false) → keep_members g s mems r st = st.
Proof.
  intros H. destruct st. unfold keep_members. simpl. f_equal.
  apply filter_all, Forall_forall. intros m _ [Hm Hd]. by rewrite H in Hd.
Qed.

Lemma disownMember_spec g s x :
  ∃ h, disownMember g s x = s <| groupHeap := h |> ∧
    ∀ r, h !! r = keep_members g s [x] r <$> groupHeap s !! r.
Proof.
  assert (Hsame : (∀ r, disowned g s r x = false) →
    ∃ h, s = s <| groupHeap := h |> ∧ ∀ r, h !! r = keep_members g s [x] r <$> groupHeap s !! r).
  { intros Hd. exists (groupHeap s). split; [by destruct s|]. intros r.
    destruct (groupHeap s !! r); simpl; [|done].
    rewrite keep_members_id; [done|]. intros m ->%list_elem_of_singleton. apply Hd. }
  unfold disownMember. unfold disowned in Hsame at 1.
  destruct (JsMap.get x (laneGroupByLane s)) as [owner|] eqn:Eo; [|by apply Hsame].
  destruct (negb (String.eqb owner EmptyString) && negb (String.eqb owner g)) eqn:En;
    [|by apply Hsame].
  destruct (JsMap.get owner (laneGroups s)) as [ro|] eqn:Er; [|by apply Hsame].
  exists (alter (λ g, g <| members ::= JsSet.delete x |>) ro (groupHeap s)). split; [done|].
  assert (Hd : ∀ r, disowned g s r x = bool_decide (ro = r)).
  { intros r. unfold disowned. rewrite Eo, En, Er. apply bool_decide_ext. naive_solver. }
  intros r. destruct (decide (ro = r)) as [->|Hne].
  - rewrite lookup_alter_eq. destruct (groupHeap s !! r) as [st|]; simpl; [|done].
    f_equal. unfold keep_members. destruct st. simpl. f_equal. unfold JsSet.delete.
    apply list_filter_iff. intros m. rewrite list_elem_of_singleton. split.
    + intros Hm [-> _]. done.
    + intros Hm ->. apply Hm. by rewrite Hd, bool_decide_true.
  - rewrite lookup_alter_ne by done. destruct (groupHeap s !! r); simpl; [|done].
    rewrite keep_members_id; [done|]. intros m ->%list_elem_of_singleton.
    by rewrite Hd, bool_decide_false.
Qed.

Lemma disownMembers_spec g mems s :
  ∃ h, foldl (disownMember g) s mems = s <| groupHeap := h |> ∧
    ∀ r, h !! r = keep_members g s mems r <$> groupHeap s !! r.
Proof.
  revert s. induction mems as [|x mems IH]; intros s; cbn [foldl].
  { exists (groupHeap s). split; [by destruct s|]. intros r.
    destruct (groupHeap s !! r); simpl; [|done]. by rewrite keep_members_id by set_solver. }
  destruct (disownMember_spec g s x) as (h1 & E1 & H1). rewrite E1.
  destruct (IH (s <| groupHeap := h1 |>)) as (h2 & E2 & H2). exists h2. rewrite E2.
  split; [done|]. intros r. rewrite H2. simpl. rewrite H1, <-option_fmap_compose.
  apply option_fmap_ext. intros st. destruct st. unfold keep_members. simpl. f_equal.
  rewrite list_filter_filter. apply list_filter_iff. intros m.
  change (disowned g (s <| groupHeap := h1 |>) r m) with (disowned g s r m).
  rewrite !elem_of_cons, !elem_of_nil. tauto.
Qed.

Section install.
Context (nextGroup : nat) (next : LaneGroupState) (s : QueueState).
Context (Hs : registry_ok s) (Hnext : groupHeap s !! nextGroup = Some next).
Context (Hname : group next ≠ EmptyString).
Context (Hfresh : ∀ g, JsMap.get g (laneGroups s) ≠ Some nextGroup).

Definition previous_members : list string :=
  match JsMap.get (group next) (laneGroups s) with
  | Some previous => members (group_at previous s)
  | None => []
  end.

(** Detaching the replaced group empties exactly its part of the index. *)
Lemma index_after_detach m g :
  JsMap.get m (laneGroupByLane (detachMembers previous_members s)) = Some g ↔
    g ≠ group next ∧ JsMap.get m (laneGroupByLane s) = Some g.
Proof.
  unfold detachMembers. simpl. rewrite get_detach. unfold previous_members.
  case_decide as Hm.
  - split; [done|]. intros [Hne Hg]. destruct (JsMap.get (group next) (laneGroups s)) as [p|] eqn:Ep;
      [|set_solver]. exfalso. apply Hne.
    assert (JsMap.get m (laneGroupByLane s) = Some (group next)) by (apply (rg_index _ Hs); eauto).
    congruence.
  - split; [|tauto]. intros Hg. split; [|done]. intros ->.
    apply (rg_index _ Hs) in Hg as (r & Hr & Hin). by rewrite Hr in Hm.
Qed.

(** The groups after their members that join the new group left them. *)
Lemma groups_after_disown :
  ∃ h, foldl (disownMember (group next)) (detachMembers previous_members s) (members next) =
      (detachMembers previous_members s) <| groupHeap := h |> ∧
    h !! nextGroup = Some next ∧
    ∀ g r, JsMap.get g (laneGroups s) = Some r → g ≠ group next →
      ∃ st, h !! r = Some st ∧ group st = g ∧
        ∀ m, m ∈ members st ↔ m ∈ members (group_at r s) ∧ m ∉ members next.
Proof.
  destruct (disownMembers_spec (group next) (members next) (detachMembers previous_members s))
    as (h & E & Hh).
  change (groupHeap (detachMembers previous_members s)) with (groupHeap s) in Hh.
  exists h. split; [done|]. split.
  { rewrite Hh, Hnext. simpl. rewrite keep_members_id; [done|]. intros m _. unfold disowned.
    case_match; [|done]. apply andb_false_iff. right. by apply bool_decide_eq_false. }
  intros g r Hg Hne. destruct (rg_name _ Hs g r Hg) as (Hg0 & st & Hst & Hgn).
  eexists. split; [by rewrite Hh, Hst|]. split; [done|].
  intros m. rewrite (group_at_lookup _ _ _ Hst). unfold keep_members. simpl.
  rewrite list_elem_of_filter. split; intros [H1 H2]; (split; [tauto|]); [|tauto].
  intros Hin. apply H1. split; [done|]. unfold disowned.
  assert (JsMap.get m (laneGroupByLane (detachMembers previous_members s)) = Some g) as ->.
  { apply index_after_detach. split; [done|]. apply (rg_index _ Hs). exists r. split; [done|].
    by rewrite (group_at_lookup _ _ _ Hst). }
  rewrite (proj2 (String.eqb_neq _ _) Hg0), (proj2 (String.eqb_neq _ _) Hne).
  by apply bool_decide_eq_true.
Qed.

(** Installing a freshly validated group keeps the registry consistent: its
    members leave their previous group, the old members of a replaced group
    that are not in the new one become ungrouped. *)
Lemma installCommandLaneGroup_spec :
  let s' := installCommandLaneGroup nextGroup s in
  registry_ok s' ∧ JsMap.get (group next) (laneGroups s') = Some nextGroup ∧
  groupHeap s' !! nextGroup = Some next ∧
  (∀ g, g ≠ group next → JsMap.get g (laneGroups s') = JsMap.get g (laneGroups s)) ∧
  (∀ g r, JsMap.get g (laneGroups s) = Some r → g ≠ group next → ∀ m,
    m ∈ members (group_at r s') ↔ m ∈ members (group_at r s) ∧ m ∉ members next).
Proof.
  intros s'. destruct groups_after_disown as (h & E & Hn & Hmem).
  assert (Es' : s' = attachMembers (group next) (members next)
    ((detachMembers previous_members s) <| groupHeap := h |>
       <| laneGroups ::= JsMap.set (group next) nextGroup |>)).
  { unfold s', installCommandLaneGroup. rewrite (group_at_lookup _ _ _ Hnext), <-E.
    unfold previous_members. case_match; [done|]. by destruct s. }
  rewrite Es'. clear Es' E s'. unfold attachMembers, group_at. simpl.
  split; [split; simpl|split_and!].
  - apply JsMap.NoDup_keys_set, Hs.
  - apply NoDup_attach, NoDup_detach, Hs.
  - intros g r. rewrite JsMap.get_set. case_decide as Hg.
    + intros [= <-]. subst g. eauto.
    + intros Hr. destruct (Hmem g r Hr Hg) as (st & Hst & Hgn & _).
      split; [by apply (rg_name _ Hs g r)|eauto].
  - intros m g. rewrite get_attach. pose proof (index_after_detach m g) as Hidx.
    unfold detachMembers in Hidx. simpl in Hidx. unfold group_at. simpl.
    assert (Hother : ∀ r, g ≠ group next → JsMap.get g (laneGroups s) = Some r →
      m ∈ members (default (mkGroup EmptyString (Fin 0%Z) [] []) (h !! r)) ↔
      m ∈ members (group_at r s) ∧ m ∉ members next).
    { intros r Hg Hr. destruct (Hmem g r Hr Hg) as (st & -> & _ & Hx). apply Hx. }
    destruct (decide (g = group next)) as [->|Hg].
    + case_decide as Hm.
      * split; [|done]. intros _. exists nextGroup. by rewrite JsMap.get_set_eq, Hn.
      * rewrite Hidx. split; [tauto|]. intros (r & Hr & Hin).
        rewrite JsMap.get_set_eq in Hr. injection Hr as <-. by rewrite Hn in Hin.
    + rewrite JsMap.get_set_ne by done. case_decide as Hm.
      * split; [congruence|]. intros (r & Hr & Hin%(Hother r Hg Hr)). tauto.
      * rewrite Hidx, (rg_index _ Hs). split.
        -- intros (_ & r & Hr & Hin). exists r. split; [done|]. by apply (Hother r Hg Hr).
        -- intros (r & Hr & Hin%(Hother r Hg Hr)). split; [done|]. exists r. tauto.
  - by rewrite JsMap.get_set_eq.
  - done.
  - intros g Hg. by rewrite JsMap.get_set_ne.
  - intros g r Hr Hg m. destruct (Hmem g r Hr Hg) as (st & -> & _ & Hx). apply Hx.
Qed.

End install.

Lemma beats_irrefl a : beats a a = false.
Proof.
  unfold beats. by rewrite !Z.ltb_irrefl, Z.eqb_refl, js_string_ltb_irrefl, andb_false_r.
Qed.

(** ** Properties *)

(** admission into a capacity group is exact: while the group has not
    committed more than its budget (each member counting its active tasks or
    its reservation, whichever is larger), a member may start a task if and
    only if its own width has room and the commitment stays within the budget;
    so admission never breaks the budget, and a member below its reservation
    is never refused by its siblings. *)
Theorem group_admission_exact name r s :
  let g := group_at r s in
  let active := λ m, getMemberActiveCount m s in
  registry_ok s → getLaneGroup name s = Some r → group_ok g →
  (committed g active ≤ budgetZ g)%Z →
  (resolveLaneBlockReason name s = None ↔
    laneHasRoom name s = true ∧ (committed g (one_more name active) ≤ budgetZ g)%Z) ∧
  ((active name < reservationZ g name)%Z → canAdmitInGroup name s = true).
Proof.
  intros g active Hs Hr Hg Hc.
  assert (Hn : name ∈ members g) by (by apply (getLaneGroup_spec name s Hs) in Hr as (? & _ & ?)).
  split; [by apply (resolveLaneBlockReason_exact name r s Hr Hg Hn Hc)|]. intros Hlt.
  unfold canAdmitInGroup. destruct (laneHasRoom name s) eqn:Eroom.
  - by rewrite (resolveLaneBlockReason_reserved name r s Hr Hg Hn Hc Eroom Hlt).
  - by rewrite (proj2 (resolveLaneBlockReason_room name s) Eroom).
Qed.

(** a group specification is accepted exactly when every member may join
    a group, every reservation is for a member and the reservations do not
    exceed the budget; an accepted specification of proper numbers yields a
    well-formed group whose reservations can all be honoured at once. *)
Theorem validateCommandLaneGroupSpec_promise name spec :
  ((∃ g, validateCommandLaneGroupSpec name spec = inr g) ↔
    Forall (λ m, assertGroupEligibleLane m = true) (normalized_members spec) ∧
    Forall (λ p, normalizeLane p.1 ∈ normalized_members spec) (spec_reservations spec) ∧
    js_lt (js_max 0 (js_floor (spec_budget spec)))
      (reserved_total (spec_reservations spec)) = false) ∧
  (∀ g, spec_finite spec → validateCommandLaneGroupSpec name spec = inr g →
    group_ok g ∧ (committed g (λ _, 0%Z) ≤ budgetZ g)%Z ∧
    (∀ m, m ∈ members g ↔ m ∈ normalized_members spec)).
Proof.
  split; [apply validateCommandLaneGroupSpec_accepts|]. intros g Hf Hg.
  by destruct (validateCommandLaneGroupSpec_sound name spec g Hf Hg).
Qed.

(** installing a group keeps the registry consistent: every lane belongs
    to at most one registered group, the lane index agrees with the member
    lists, and the other groups lose exactly the members that moved. *)
Theorem installCommandLaneGroup_consistent next s :
  registry_ok s → group next ≠ EmptyString →
  (∀ g r, JsMap.get g (laneGroups s) = Some r → r < nextRef s) →
  let '(s1, r) := newGroup next s in
  let s' := installCommandLaneGroup r s1 in
  registry_ok s' ∧ JsMap.get (group next) (laneGroups s') = Some r ∧
  (∀ m, m ∈ members next → getLaneGroup m s' = Some r) ∧
  (∀ g r', JsMap.get g (laneGroups s) = Some r' → g ≠ group next →
    JsMap.get g (laneGroups s') = Some r' ∧
    ∀ m, m ∈ members (group_at r' s') ↔ m ∈ members (group_at r' s) ∧ m ∉ members next).
Proof.
  intros Hs Hname Hfresh. simpl.
  set (s1 := s <| groupHeap ::= <[nextRef s := next]> |> <| nextRef ::= S |>).
  assert (Hat : ∀ g r, JsMap.get g (laneGroups s) = Some r →
    groupHeap s1 !! r = groupHeap s !! r).
  { intros g r Hr. simpl. rewrite lookup_insert_ne; [done|]. specialize (Hfresh g r Hr). lia. }
  assert (Hga : ∀ g r, JsMap.get g (laneGroups s) = Some r → group_at r s1 = group_at r s)
    by (intros g r Hr; unfold group_at; by rewrite (Hat g r Hr)).
  assert (Hs1 : registry_ok s1).
  { split; [apply Hs|apply Hs| |].
    - intros g r Hr. rewrite (Hat g r Hr). by apply Hs.
    - intros m g. change (laneGroupByLane s1) with (laneGroupByLane s).
      change (laneGroups s1) with (laneGroups s). rewrite (rg_index _ Hs).
      split; intros (r & Hr & Hin); exists r; (split; [done|]);
        [by rewrite (Hga g r Hr)|by rewrite <-(Hga g r Hr)]. }
  destruct (installCommandLaneGroup_spec (nextRef s) next s1 Hs1) as (H1 & H2 & H3 & H4 & H5).
  { simpl. by rewrite lookup_insert_eq. }
  { done. }
  { intros g Hg. specialize (Hfresh g _ Hg). lia. }
  split; [done|]. split; [done|]. split.
  - intros m Hm. apply (getLaneGroup_spec m _ H1). exists (group next). split; [done|].
    by rewrite (group_at_lookup _ _ _ H3).
  - intros g r' Hr' Hne. split; [by rewrite H4|]. intros m. etrans; [exact (H5 g r' Hr' Hne m)|].
    by rewrite (Hga g r' Hr').
Qed.

(** the arbiter of a group selects the one member that can start now and
    whose head has the highest priority, then the lowest sequence number, then
    the least name; so the choice does not depend on the order of the members. *)
Theorem resolveNextGroupLane_selects_best r s name :
  resolveNextGroupLane r s = Some name ↔
    ∃ c, name ∈ members (group_at r s) ∧ groupCandidate s name = Some c ∧
      ∀ m c', m ∈ members (group_at r s) → groupCandidate s m = Some c' →
        m = name ∨ beats c c' = true.
Proof.
  destruct (resolveNextGroupLane_best r s) as (sel & Hb & ->). split.
  - destruct sel as [b|]; [|done]. intros [= <-]. exists b. simpl in Hb. tauto.
  - intros (c & Hin & Hc & Hbest). destruct sel as [b|]; simpl in *; [|by rewrite Hb in Hc].
    destruct Hb as (Hb1 & Hb2 & Hb3). f_equal.
    destruct (Hbest _ _ Hb1 Hb2) as [|Hcb]; [done|].
    destruct (Hb3 _ _ Hin Hc) as [|Hbc]; [done|].
    pose proof (beats_trans _ _ _ Hcb Hbc) as H. by rewrite beats_irrefl in H.
Qed.

(** ** Witnesses *)

Definition sample_group : LaneGroupState :=
  mkGroup "cron" (Fin 3%Z) ["cron-nested"; "hook-dispatch"]
    [("cron-nested", Fin 1%Z); ("hook-dispatch", Fin 1%Z)].
Definition sample_grouped : QueueState :=
  let '(s, r) := newGroup sample_group initialQueueState in installCommandLaneGroup r s.

Lemma sample_grouped_ok : registry_ok sample_grouped.
Proof.
  assert (E1 : laneGroups sample_grouped = [("cron", 0)]) by reflexivity.
  assert (E2 : laneGroupByLane sample_grouped =
    [("cron-nested", "cron"); ("hook-dispatch", "cron")]) by reflexivity.
  assert (E3 : groupHeap sample_grouped !! 0 = Some sample_group) by reflexivity.
  split; rewrite ?E1, ?E2; [by apply (bool_decide_unpack _)|by apply (bool_decide_unpack _)| |].
  - intros g r. simpl. case_decide; [|done]. intros [= <-]. subst. split; [done|]. by eexists.
  - intros m g. simpl. split.
    + intros Hm. exists 0. rewrite (group_at_lookup _ _ _ E3).
      repeat case_decide; simplify_eq; (split; [done|]); simpl; set_solver.
    + intros (r & Hr & Hin). case_decide; simplify_eq.
      rewrite (group_at_lookup _ _ _ E3) in Hin. simpl in Hin.
      repeat case_decide; try done. set_solver.
Qed.

Lemma sample_group_ok : group_ok sample_group.
Proof.
  split; [by apply (bool_decide_unpack _)|by eexists|]. intros m. unfold reservationOf. simpl.
  repeat case_decide; simpl; eexists; (split; [done|lia]).
Qed.

Lemma group_admission_exact_witness :
  canAdmitInGroup "hook-dispatch" sample_grouped = true ∧
  (resolveLaneBlockReason "hook-dispatch" sample_grouped = None ↔
    laneHasRoom "hook-dispatch" sample_grouped = true ∧
    (committed (group_at 0 sample_grouped)
      (one_more "hook-dispatch" (λ m, getMemberActiveCount m sample_grouped)) ≤
        budgetZ (group_at 0 sample_grouped))%Z).
Proof.
  destruct (group_admission_exact "hook-dispatch" 0 sample_grouped) as [H1 H2];
    [apply sample_grouped_ok|reflexivity|apply sample_group_ok|vm_compute; discriminate|].
  split; [apply H2; vm_compute; reflexivity|exact H1].
Defined.

Lemma installCommandLaneGroup_consistent_witness :
  let next := mkGroup "hooks" (Fin 2%Z) ["hook-dispatch"] [] in
  let '(s1, r) := newGroup next sample_grouped in
  registry_ok (installCommandLaneGroup r s1).
Proof.
  destruct (installCommandLaneGroup_consistent (mkGroup "hooks" (Fin 2%Z) ["hook-dispatch"] [])
    sample_grouped) as [H _]; [apply sample_grouped_ok|discriminate| |exact H].
  intros g r. change (laneGroups sample_grouped) with [("cron", 0)].
  change (nextRef sample_grouped) with 1. simpl. case_decide; [|done]. intros [= <-]. lia.
Defined.

(** a reservation that is not a number passes validation, and then no
    sibling is ever admitted beyond its own reservation. *)
Example nan_reservation_starves_siblings :
  let spec := mkSpec (jsnum_of_Z 4) ["cron-nested"; "hook-dispatch"] [("cron-nested", NaN)] in
  ∃ g, validateCommandLaneGroupSpec "cron" spec = inr g ∧
    let '(s, r) := newGroup g initialQueueState in
    resolveLaneBlockReason "hook-dispatch" (installCommandLaneGroup r s) =
      Some BlockSiblingReservation.
Proof. eexists. split; reflexivity. Qed.
