(* ===== verification/CommandQueue.v ===== *)
(** * The command queue

    Lanes that start their queued entries up to their own width and their
    group's budget, task completion with generations, the atomic publication
    of lane configuration, and the resets after a restart
    ([src/process/command-queue.ts]). *)
From S2P Require Import Prelude JsCollections LaneQueue AdmissionGate NumberCoercion.
From S2P Require Import QueueState CapacityGroups.

(** ** Lane bookkeeping *)

Definition isQuietProbeLane (name : string) : bool :=
  starts_with "auth-probe:" name || starts_with "session:probe-" name ||
  starts_with "session:temp:setup-inference:probe-setup-inference-" name.

(** Returns whether the task belonged to the lane's current generation. *)
Definition completeTask (ref : nat) (taskId taskGeneration : Z) (s : QueueState) :
    QueueState * bool :=
  if negb (taskGeneration =? generation (lane_at ref s))%Z then (s, false)
  else (upd_lane ref (λ st, st <| activeTaskIds ::= JsSet.delete taskId |>) s, true).

Definition isScopedLane (name : string) : bool :=
  starts_with "session:" name || starts_with "nested:" name ||
  starts_with "context-engine-turn-maintenance:" name.

Definition retireIdleScopedCommandLane (ref : nat) (s : QueueState) : QueueState :=
  let st := lane_at ref s in
  if draining st || (0 <? activeCount st)%Z || (0 <? queue_length (queue st))%Z
     || negb (js_eqb (maxConcurrent st) 1) || negb (isScopedLane (lane st))
  then s
  else if bool_decide (JsMap.get (lane st) (lanes s) = Some ref)
  then s <| lanes ::= JsMap.delete (lane st) |>
  else s.

Definition normalizeTaskTimeoutMs (value : option jsnum) : option Z :=
  match value with
  | None => None
  | Some v => clampPositiveTimerTimeoutMs (JNum v)
  end.

(** [None]: [priority] is absent. *)
Definition resolveQueuePriority (p : option QueuePriority) : QueuePriority :=
  match p with
  | Some Foreground => Foreground
  | Some Background => Background
  | _ => Normal
  end.

Definition enqueueLaneEntry (ref : nat) (entry : QueueEntry) (s : QueueState) : QueueState :=
  let st := lane_at ref s in
  let '(queuedAhead, _) := enqueueLaneQueue (queue st) entry in
  let entry := entry <| queuedAheadAtEnqueue := queuedAhead |>
    <| activeAheadAtEnqueue := activeCount st |> in
  upd_lane ref (λ st, st <| queue := (enqueueLaneQueue (queue st) entry).2 |>) s.

(** The entry takes a task id and a slot of the lane's current generation. *)
Definition admitEntry (name : string) (ref : nat) (entry : QueueEntry) (rest : LaneQueue)
    (s : QueueState) : QueueState :=
  let taskId := nextTaskId s in
  let taskGeneration := generation (lane_at ref s) in
  let s := s <| nextTaskId ::= λ n, (n + 1)%Z |> in
  let s := upd_lane ref (λ st, st <| queue := rest |> <| activeTaskIds ::= JsSet.add taskId |>) s in
  s <| running ::= λ l, l ++ [mkTask name ref taskId taskGeneration entry] |>.

Section queue.
(** The wait callback of an entry: it runs in the middle of a drain and may
    call back into the queue. *)
Context (run_on_wait : nat → Z → Z → QueueState → QueueState).

(** ** Draining *)

Definition drainGuard (name : string) (ref : nat) (maxStarts : option nat) (started : nat)
    (s : QueueState) : bool :=
  let st := lane_at ref s in
  match maxStarts with Some m => started <? m | None => true end &&
  js_ltb (activeCount st) (maxConcurrent st) &&
  (0 <? queue_length (queue st))%Z && canAdmitInGroup name s.

(** The body of the loop for the dequeued [entry]: the admission is committed,
    and the task is in flight from here on, before the callback runs. *)
Definition startEntry (name : string) (ref : nat) (entry : QueueEntry) (rest : LaneQueue)
    (s : QueueState) : QueueState :=
  let waitedMs := (clock s - enqueuedAt entry)%Z in
  let s := admitEntry name ref entry rest s in
  if (warnAfterMs entry <=? waitedMs)%Z then
    match onWait entry with
    | Some callback => run_on_wait callback waitedMs (queuedAheadAtEnqueue entry) s
    | None => s
    end
  else s.

(** [None]: out of fuel, or the impossible dequeue of a non-empty queue that
    yields nothing. *)
Fixpoint drainLoop (fuel : nat) (name : string) (ref : nat) (maxStarts : option nat)
    (started : nat) (s : QueueState) : option (nat * QueueState) :=
  match fuel with
  | O => None
  | S fuel =>
      if drainGuard name ref maxStarts started s then
        match dequeueLaneQueue (queue (lane_at ref s)) with
        | (Some entry, rest) =>
            drainLoop fuel name ref maxStarts (S started) (startEntry name ref entry rest s)
        | (None, _) => None
        end
      else Some (started, s)
  end.

Definition drainLane (fuel : nat) (name : string) (maxStarts : option nat)
    (state : option nat) (s : QueueState) : option (nat * QueueState) :=
  let '(s, ref) := match state with Some r => (s, r) | None => getLaneState name s end in
  if draining (lane_at ref s) then Some (0, s)
  else
    match drainLoop fuel name ref maxStarts 0
            (upd_lane ref (λ st, st <| draining := true |>) s) with
    | Some (started, s) =>
        Some (started, retireIdleScopedCommandLane ref
                         (upd_lane ref (λ st, st <| draining := false |>) s))
    | None => None
    end.

(** The loop of [drainCommandLaneGroup]. *)
Fixpoint drainGroupLoop (fuel : nat) (g : nat) (s : QueueState) : option QueueState :=
  match fuel with
  | O => None
  | S fuel =>
      if bool_decide (JsMap.get (group (group_at g s)) (laneGroups s) = Some g) then
        match resolveNextGroupLane g s with
        | None => Some s
        | Some selectedLane =>
            if String.eqb selectedLane EmptyString then Some s
            else
              match drainLane fuel selectedLane (Some 1) None s with
              | None => None
              | Some (O, s) => Some s
              | Some (S _, s) => drainGroupLoop fuel g s
              end
        end
      else Some s
  end.

Definition drainCommandLaneGroup (fuel : nat) (name : string) (s : QueueState) :
    option QueueState :=
  match getLaneGroup name s with
  | None => Some s
  | Some g =>
      if bool_decide (g ∈ drainingGroups s) then Some s
      else
        match drainGroupLoop fuel g (s <| drainingGroups ::= JsSet.add g |>) with
        | Some s => Some (s <| drainingGroups ::= JsSet.delete g |>)
        | None => None
        end
  end.

Definition drainReadyCommandLane (fuel : nat) (name : string) (completedState : option nat)
    (s : QueueState) : option QueueState :=
  match getLaneGroup name s with
  | Some _ => drainCommandLaneGroup fuel name s
  | None => snd <$> drainLane fuel name None completedState s
  end.

(** ** Task completion *)

(** The end of the task [taskId]: its closure completes the task, pumps the
    lane and settles the promise of the entry. *)
Definition taskEnds (fuel : nat) (taskId : Z) (outcome : Settlement) (s : QueueState) :
    option QueueState :=
  match List.find (λ t, (t_taskId t =? taskId)%Z) (running s) with
  | None => Some s
  | Some t =>
      let s := s <| running ::= filter (λ t, t_taskId t ≠ taskId) |> in
      let '(s, current) := completeTask (t_state t) taskId (t_generation t) s in
      match (if current then drainReadyCommandLane fuel (t_lane t) (Some (t_state t)) s
             else Some s) with
      | None => None
      | Some s => Some (s <| settled ::= λ l, l ++ [(promise (t_entry t), outcome)] |>)
      end
  end.

(** ** Enqueue *)

Record CommandQueueEnqueueOptions := mkOpts {
  opt_warnAfterMs : option Z;
  opt_onWait : option nat;
  opt_taskTimeoutMs : option jsnum;
  opt_taskTimeoutProgressAtMs : option nat;
  opt_taskTimeoutAbortSignal : option nat;
  opt_taskTimeoutAbortGraceMs : option jsnum;
  opt_taskTimeoutReleaseSignal : option nat;
  opt_priority : option QueuePriority
}.

(** [new Promise]: a fresh promise. *)
Definition newPromise (s : QueueState) : QueueState * nat :=
  (s <| nextRef ::= S |>, nextRef s).

Definition makeEntry (current : option nat) (tsk : nat) (opts : CommandQueueEnqueueOptions)
    (p : nat) (s : QueueState) : QueueEntry :=
  {| task := tsk; entryContext := current; promise := p; enqueuedAt := clock s;
     sequence := nextQueueSequence s; priority := resolveQueuePriority (opt_priority opts);
     warnAfterMs := default 2000%Z (opt_warnAfterMs opts);
     queuedAheadAtEnqueue := 0; activeAheadAtEnqueue := 0;
     taskTimeoutMs := normalizeTaskTimeoutMs (opt_taskTimeoutMs opts);
     taskTimeoutProgressAtMs := opt_taskTimeoutProgressAtMs opts;
     taskTimeoutAbortSignal := opt_taskTimeoutAbortSignal opts;
     taskTimeoutAbortGraceMs := normalizeTaskTimeoutMs (opt_taskTimeoutAbortGraceMs opts);
     taskTimeoutReleaseSignal := opt_taskTimeoutReleaseSignal opts;
     onWait := opt_onWait opts |}.

(** Returns the promise handed to the caller.  [current] is the admission the
    caller runs under. *)
Definition enqueueCommandInLane {G} `{AdmissionGate G} (fuel : nat) (gate : G)
    (current : option nat) (name : string) (tsk : nat) (opts : CommandQueueEnqueueOptions)
    (s : QueueState) : option (QueueState * nat) :=
  if gate_subordinateClosed current gate then
    let '(s, p) := newPromise s in
    Some (s <| settled ::= λ l, l ++ [(p, RejectedDraining)] |>, p)
  else
    let cleaned := normalizeLane name in
    let '(s, ref) := getLaneState cleaned s in
    let '(s, p) := newPromise s in
    let entry := makeEntry current tsk opts p s in
    let s := s <| nextQueueSequence ::= λ n, (n + 1)%Z |> in
    let s := enqueueLaneEntry ref entry s in
    match drainReadyCommandLane fuel cleaned None s with
    | Some s => Some (s, p)
    | None => None
    end.

(** ** Configuration *)

Definition setWidth (cleaned : string) (width : jsnum) (ref : nat) (s : QueueState) : QueueState :=
  let minConcurrent := if isQuietProbeLane cleaned then 1%Z else 0%Z in
  upd_lane ref (λ st, st <| maxConcurrent := js_max minConcurrent (js_floor width) |>) s.

Definition setCommandLaneConcurrency (fuel : nat) (name : string) (width : jsnum)
    (s : QueueState) : option QueueState :=
  let cleaned := normalizeLane name in
  let '(s, ref) := getLaneState cleaned s in
  let s := setWidth cleaned width ref s in
  if js_ltb 0 (maxConcurrent (lane_at ref s)) then drainReadyCommandLane fuel cleaned None s
  else Some s.

Record LaneConfiguration := mkConfig {
  cfg_lanes : list (string * jsnum);
  cfg_groups : list (string * CommandLaneGroupSpec);
  cfg_clearGroups : list string
}.

(** Phase 0: validate everything. *)
Fixpoint validateGroups (groups : list (string * CommandLaneGroupSpec)) :
    GroupSpecError + list LaneGroupState :=
  match groups with
  | [] => inr []
  | (name, spec) :: rest =>
      match validateCommandLaneGroupSpec name spec with
      | inl e => inl e
      | inr g =>
          match validateGroups rest with
          | inl e => inl e
          | inr gs => inr (g :: gs)
          end
      end
  end.

(** Phase 1: lane widths, removed groups, new groups; the state and the lanes
    touched so far are threaded through. *)
Definition applyWidth (acc : QueueState * list string) (p : string * jsnum) :
    QueueState * list string :=
  let '(s, touched) := acc in
  let name := normalizeLane p.1 in
  let '(s, ref) := getLaneState name s in
  (setWidth name p.2 ref s, JsSet.add name touched).

Definition clearGroup (acc : QueueState * list string) (g : string) : QueueState * list string :=
  let '(s, touched) := acc in
  match JsMap.get g (laneGroups s) with
  | None => acc
  | Some existing =>
      let mems := members (group_at existing s) in
      ((detachMembers mems s) <| laneGroups ::= JsMap.delete g |>,
       foldl (λ t m, JsSet.add m t) touched mems)
  end.

Definition installValidated (acc : QueueState * list string) (next : LaneGroupState) :
    QueueState * list string :=
  let '(s, touched) := acc in
  let previous :=
    match JsMap.get (group next) (laneGroups s) with
    | Some r => members (group_at r s)
    | None => []
    end in
  let touched := foldl (λ t m, JsSet.add m t) touched previous in
  let touched :=
    foldl (λ t member,
      let owner := default EmptyString (JsMap.get member (laneGroupByLane s)) in
      match JsMap.get owner (laneGroups s) with
      | Some r => foldl (λ t m, JsSet.add m t) t (members (group_at r s))
      | None => t
      end) touched (members next) in
  let '(s, r) := newGroup next s in
  (installCommandLaneGroup r s, foldl (λ t m, JsSet.add m t) touched (members next)).

(** Phase 2: the commit-time drain pass. *)
Fixpoint drainTouched (fuel : nat) (touched : list string) (s : QueueState) : option QueueState :=
  match touched with
  | [] => Some s
  | name :: rest =>
      match find_lane name s with
      | Some st =>
          if js_ltb 0 (maxConcurrent st) && (0 <? queue_length (queue st))%Z && negb (draining st)
          then
            match drainReadyCommandLane fuel name None s with
            | Some s => drainTouched fuel rest s
            | None => None
            end
          else drainTouched fuel rest s
      | None => drainTouched fuel rest s
      end
  end.

Definition installConfiguration (config : LaneConfiguration) (validated : list LaneGroupState)
    (s : QueueState) : QueueState * list string :=
  let acc := foldl applyWidth (s, []) (cfg_lanes config) in
  let acc := foldl clearGroup acc (cfg_clearGroups config) in
  foldl installValidated acc validated.

(** The exception, if any, and the state afterwards. *)
Definition publishLaneConfiguration (fuel : nat) (config : LaneConfiguration) (s : QueueState) :
    option (option GroupSpecError * QueueState) :=
  match validateGroups (cfg_groups config) with
  | inl e => Some (Some e, s)
  | inr validated =>
      let '(s, touched) := installConfiguration config validated s in
      match drainTouched fuel touched s with
      | Some s => Some (None, s)
      | None => None
      end
  end.

(** ** Clearing and resets *)

Fixpoint clearLoop (fuel : nat) (name : string) (ref : nat) (s : QueueState) : QueueState :=
  match fuel with
  | O => s
  | S fuel =>
      match dequeueLaneQueue (queue (lane_at ref s)) with
      | (None, _) => s
      | (Some entry, rest) =>
          let s := upd_lane ref (λ st, st <| queue := rest |>) s in
          clearLoop fuel name ref
            (s <| settled ::= λ l, l ++ [(promise entry, RejectedCleared name)] |>)
      end
  end.

(** One more iteration than there are entries, which sees the empty queue. *)
Definition clearCommandLane (name : string) (s : QueueState) : QueueState * Z :=
  let cleaned := normalizeLane name in
  match JsMap.get cleaned (lanes s) with
  | None => (s, 0%Z)
  | Some ref =>
      let removed := queue_length (queue (lane_at ref s)) in
      (clearLoop (S (Z.to_nat removed)) cleaned ref s, removed)
  end.

Definition idleLane (st : LaneState) : LaneState :=
  st <| generation ::= λ g, (g + 1)%Z |> <| activeTaskIds := [] |> <| draining := false |>.

Definition resetCommandLane (fuel : nat) (name : string) (s : QueueState) :
    option (QueueState * Z) :=
  let cleaned := normalizeLane name in
  match JsMap.get cleaned (lanes s) with
  | None => Some (s, 0%Z)
  | Some ref =>
      let released := activeCount (lane_at ref s) in
      match drainReadyCommandLane fuel cleaned None (upd_lane ref idleLane s) with
      | Some s => Some (s, released)
      | None => None
      end
  end.

(** The reset pass over [lanes.values()] with the lanes to drain. *)
Definition resetPass (s : QueueState) : QueueState * list string :=
  foldl (λ '(s, toDrain) ref,
    let s := upd_lane ref idleLane s in
    let st := lane_at ref s in
    (s, if (0 <? queue_length (queue st))%Z then toDrain ++ [lane st] else toDrain))
    (s, []) (JsMap.values (lanes s)).

Fixpoint drainLanes (fuel : nat) (names : list string) (s : QueueState) : option QueueState :=
  match names with
  | [] => Some s
  | name :: rest =>
      match drainReadyCommandLane fuel name None s with
      | Some s => drainLanes fuel rest s
      | None => None
      end
  end.

Definition resetAllLanes {G} `{AdmissionGate G} (fuel : nat) (gate : G) (s : QueueState) :
    option (G * QueueState) :=
  let gate := gate_reset gate in
  let '(s, lanesToDrain) := resetPass s in
  match drainLanes fuel lanesToDrain s with
  | Some s => Some (gate, s)
  | None => None
  end.

End queue.

(** ** Queries *)

Definition markGatewayDraining {G} `{AdmissionGate G} (gate : G) : G := gate_markDraining gate.
Definition isGatewayDraining {G} `{AdmissionGate G} (gate : G) : bool := gate_closed gate.

Record CommandLaneSnapshot := mkSnapshot {
  snap_lane : string;
  snap_queuedCount : Z;
  snap_activeCount : Z;
  snap_maxConcurrent : jsint;
  snap_draining : bool;
  snap_generation : Z;
  snap_group : option string;
  snap_groupActive : option Z;
  snap_groupBudget : option jsint;
  snap_reservedForLane : option jsint;
  snap_blockedBy : option CommandLaneBlockReason
}.

Definition groupActiveOf (g : LaneGroupState) (s : QueueState) : Z :=
  foldl (λ n member, (n + getMemberActiveCount member s)%Z) 0%Z (members g).

Definition createCommandLaneSnapshot (st : LaneState) (s : QueueState) : CommandLaneSnapshot :=
  let g := (λ r, group_at r s) <$> getLaneGroup (lane st) s in
  {| snap_lane := lane st; snap_queuedCount := queue_length (queue st);
     snap_activeCount := activeCount st; snap_maxConcurrent := maxConcurrent st;
     snap_draining := draining st; snap_generation := generation st;
     snap_group := group <$> g; snap_groupActive := (λ g, groupActiveOf g s) <$> g;
     snap_groupBudget := budget <$> g;
     snap_reservedForLane := (λ g, reservationOf g (lane st)) <$> g;
     snap_blockedBy := resolveLaneBlockReason (lane st) s |}.

(** A lane that does not exist is reported as a fresh one, with its group. *)
Definition getCommandLaneSnapshot (name : string) (s : QueueState) : CommandLaneSnapshot :=
  let resolved := normalizeLane name in
  match find_lane resolved s with
  | Some st => createCommandLaneSnapshot st s
  | None => createCommandLaneSnapshot (freshLane resolved) s
  end.

Definition getQueueSize (name : string) (s : QueueState) : Z :=
  match find_lane (normalizeLane name) s with
  | Some st => getLaneDepth st
  | None => 0
  end.

Definition listCommandLaneTotals (s : QueueState) : list (string * Z * Z) :=
  (λ r, let st := lane_at r s in (lane st, activeCount st, queue_length (queue st)))
    <$> JsMap.values (lanes s).

Definition getTotalQueueSize (s : QueueState) : Z :=
  foldl (λ n r, (n + getLaneDepth (lane_at r s))%Z) 0%Z (JsMap.values (lanes s)).

Definition getCommandLaneActiveTaskIds (name : string) (s : QueueState) : list Z :=
  match find_lane (normalizeLane name) s with
  | Some st => activeTaskIds st
  | None => []
  end.

Definition isCommandLaneTaskMarkerCurrent (marker : option CommandLaneTaskMarker)
    (s : QueueState) : bool :=
  match marker with
  | None => false
  | Some m =>
      match find_lane (normalizeLane (marker_lane m)) s with
      | None => false
      | Some st =>
          (generation st =? marker_generation m)%Z && JsSet.has (marker_taskId m) (activeTaskIds st)
      end
  end.

(** ** The queue invariant *)

(** Every active task id of a lane is a task in flight of the lane's current
    generation, and conversely; lanes that left the registry are empty. *)
Record queue_inv (s : QueueState) : Prop := {
  qi_names : NoDup (JsMap.keys (lanes s));
  qi_registered n r : JsMap.get n (lanes s) = Some r →
    ∃ st, laneHeap s !! r = Some st ∧ lane st = n;
  qi_fresh r st : laneHeap s !! r = Some st → r < nextRef s;
  qi_queue r st : laneHeap s !! r = Some st → queue_ok (queue st);
  qi_ids r st : laneHeap s !! r = Some st → NoDup (activeTaskIds st);
  qi_retired r st : laneHeap s !! r = Some st → JsMap.get (lane st) (lanes s) ≠ Some r →
    queue_entries (queue st) = [] ∧ activeTaskIds st = [];
  qi_running : NoDup (t_taskId <$> running s);
  qi_task t : t ∈ running s → (t_taskId t < nextTaskId s)%Z ∧
    ∃ st, laneHeap s !! t_state t = Some st ∧ lane st = t_lane t ∧
      (t_generation t ≤ generation st)%Z;
  qi_slots r st id : laneHeap s !! r = Some st →
    (id ∈ activeTaskIds st ↔
      ∃ t, t ∈ running s ∧ t_taskId t = id ∧ t_state t = r ∧ t_generation t = generation st)
}.

(** The promises of the entries that wait in the lanes of a heap. *)
Definition entry_promises (st : LaneState) : list nat := promise <$> queue_entries (queue st).
Definition queued_promises (m : gmap nat LaneState) : list nat :=
  flat_map (λ p, entry_promises p.2) (map_to_list m).

(** Every promise the queue is responsible for. *)
Definition promises (s : QueueState) : list nat :=
  queued_promises (laneHeap s) ++ ((λ t, promise (t_entry t)) <$> running s) ++ (settled s).*1.

(** What any operation does to the rest: lanes keep their identity and their
    generation never decreases, counters never decrease, and no promise is
    lost, settled twice or made up. *)
Record extends (s s' : QueueState) : Prop := {
  ex_lane r st : laneHeap s !! r = Some st →
    ∃ st', laneHeap s' !! r = Some st' ∧ lane st' = lane st ∧ (generation st ≤ generation st')%Z;
  ex_taskId : (nextTaskId s ≤ nextTaskId s')%Z;
  ex_ref : nextRef s ≤ nextRef s';
  ex_promises : ∃ new, promises s' ≡ₚ new ++ promises s ∧ NoDup new ∧
    ∀ p, p ∈ new → nextRef s ≤ p < nextRef s'
}.

#[export] Instance extends_preorder : PreOrder extends.
Proof.
  split.
  - intros s. split; [|lia|lia|].
    + intros r st Hr. exists st. split; [done|]. split; [done|lia].
    + exists (@nil nat). split; [done|]. split; [apply NoDup_nil_2|set_solver].
  - intros s1 s2 s3 [L1 T1 R1 (n1 & P1 & N1 & F1)] [L2 T2 R2 (n2 & P2 & N2 & F2)].
    split; [|lia|lia|].
    + intros r st Hr. destruct (L1 r st Hr) as (st1 & Hr1 & <- & G1).
      destruct (L2 r st1 Hr1) as (st2 & Hr2 & <- & G2). exists st2. split; [done|]. split; [done|lia].
    + exists (n2 ++ n1). rewrite P2, P1, app_assoc. split; [done|]. split.
      * apply NoDup_app. split; [done|]. split; [|done]. intros p H2 H1.
        specialize (F1 p H1). specialize (F2 p H2). lia.
      * intros p [Hp|Hp]%elem_of_app; [specialize (F2 p Hp)|specialize (F1 p Hp)]; lia.
Qed.

(** A step that preserves the invariant and extends the state. *)
Definition safe_step (s s' : QueueState) : Prop := queue_inv s → queue_inv s' ∧ extends s s'.

#[export] Instance safe_step_preorder : PreOrder safe_step.
Proof.
  split.
  - intros s Hs. split; [done|reflexivity].
  - intros s1 s2 s3 H12 H23 Hs. destruct (H12 Hs) as [H2 E12]. destruct (H23 H2) as [H3 E23].
    split; [done|by etrans].
Qed.

Lemma queued_insert m r st :
  m !! r = None → queued_promises (<[r := st]> m) ≡ₚ entry_promises st ++ queued_promises m.
Proof.
  intros Hr. unfold queued_promises. by rewrite (map_to_list_insert m r st Hr).
Qed.

Lemma queued_split m r st :
  m !! r = Some st →
  queued_promises m ≡ₚ entry_promises st ++ queued_promises (delete r m).
Proof.
  intros Hr. rewrite <-(insert_delete_id m r st Hr) at 1.
  apply queued_insert, lookup_delete_eq.
Qed.

Lemma queued_alter f m r st :
  m !! r = Some st →
  queued_promises (alter f r m) ≡ₚ entry_promises (f st) ++ queued_promises (delete r m).
Proof.
  intros Hr. assert (alter f r m = <[r := f st]> (delete r m)) as ->.
  { apply map_eq. intros r'. destruct (decide (r = r')) as [<-|Hne].
    - by rewrite lookup_alter_eq, Hr, lookup_insert_eq.
    - by rewrite lookup_alter_ne, lookup_insert_ne, lookup_delete_ne. }
  apply queued_insert, lookup_delete_eq.
Qed.

Lemma alter_absent f (m : gmap nat LaneState) r : m !! r = None → alter f r m = m.
Proof.
  intros Hr. apply map_eq. intros r'. destruct (decide (r = r')) as [<-|Hne].
  - by rewrite lookup_alter_eq, Hr.
  - by rewrite lookup_alter_ne.
Qed.

(** An update of one lane is safe if it is safe on the lane that is there. *)
Lemma upd_lane_safe r f s :
  (∀ st, laneHeap s !! r = Some st → queue_inv s →
    lane (f st) = lane st ∧ (generation st ≤ generation (f st))%Z ∧
    queue_ok (queue (f st)) ∧ NoDup (activeTaskIds (f st)) ∧
    (JsMap.get (lane st) (lanes s) ≠ Some r →
      queue_entries (queue (f st)) = [] ∧ activeTaskIds (f st) = []) ∧
    (∀ id, id ∈ activeTaskIds (f st) ↔
      ∃ t, t ∈ running s ∧ t_taskId t = id ∧ t_state t = r ∧ t_generation t = generation (f st)) ∧
    queue_entries (queue (f st)) = queue_entries (queue st)) →
  safe_step s (upd_lane r f s).
Proof.
  intros Hf Hs. destruct (laneHeap s !! r) as [st|] eqn:Er.
  2:{ assert (upd_lane r f s = s) as ->; [|done].
      unfold upd_lane. destruct s. simpl in *. by rewrite (alter_absent f _ _ Er). }
  destruct (Hf st eq_refl Hs) as (Hl & Hg & Hq & Hn & Hret & Hsl & Hqe). clear Hf.
  assert (Hat : ∀ r' st', laneHeap (upd_lane r f s) !! r' = Some st' →
    r' = r ∧ st' = f st ∨ r' ≠ r ∧ laneHeap s !! r' = Some st').
  { intros r' st'. simpl. destruct (decide (r = r')) as [<-|Hne].
    - rewrite lookup_alter_eq, Er. naive_solver.
    - rewrite lookup_alter_ne by done. naive_solver. }
  assert (Hto : ∀ r' st', laneHeap s !! r' = Some st' →
    ∃ st'', laneHeap (upd_lane r f s) !! r' = Some st'' ∧ lane st'' = lane st' ∧
      (generation st' ≤ generation st'')%Z).
  { intros r' st' Hr'. simpl. destruct (decide (r = r')) as [<-|Hne].
    - rewrite lookup_alter_eq, Er. assert (st' = st) as -> by congruence. by exists (f st).
    - rewrite lookup_alter_ne by done. exists st'. split; [done|]. split; [done|lia]. }
  destruct Hs as [I1 I2 I3 I4 I5 I6 I7 I8 I9]. split; split; try done; simpl.
  - intros n r' Hr'. destruct (I2 n r' Hr') as (st' & Hst' & <-).
    destruct (Hto r' st' Hst') as (st'' & ? & ? & _). eauto.
  - intros r' st' [[-> ->]|[_ Hr']]%Hat; [by eapply I3|by eapply I3].
  - intros r' st' [[-> ->]|[_ Hr']]%Hat; [done|by eapply I4].
  - intros r' st' [[-> ->]|[_ Hr']]%Hat; [done|by eapply I5].
  - intros r' st' [[-> ->]|[_ Hr']]%Hat; [rewrite Hl; done|by eapply I6].
  - intros t Ht. destruct (I8 t Ht) as (? & st' & Hst' & ? & ?). split; [done|].
    destruct (Hto _ st' Hst') as (st'' & ? & ? & ?). exists st''. split; [done|].
    split; [congruence|lia].
  - intros r' st' id [[-> ->]|[_ Hr']]%Hat; [done|by apply I9].
  - exists (@nil nat). split; [|split; [apply NoDup_nil_2|set_solver]].
    unfold promises. simpl. apply Permutation_app; [|done].
    rewrite (queued_alter f _ _ _ Er), (queued_split _ _ _ Er). unfold entry_promises. by rewrite Hqe.
Qed.

(** The operations on groups do not touch the lanes. *)
Lemma lane_frame_safe s s' :
  lanes s' = lanes s → laneHeap s' = laneHeap s → nextTaskId s' = nextTaskId s →
  running s' = running s → settled s' = settled s → nextRef s ≤ nextRef s' → safe_step s s'.
Proof.
  intros E1 E2 E3 E4 E5 E6 Hs. destruct Hs as [I1 I2 I3 I4 I5 I6 I7 I8 I9]. split.
  - split; rewrite ?E1, ?E2, ?E3, ?E4; auto. intros r st Hr. specialize (I3 r st Hr). lia.
  - split; rewrite ?E2, ?E3; [|done|done|].
    { intros r st Hr. exists st. split; [done|]. split; [done|lia]. }
    exists (@nil nat).
    unfold promises. rewrite E2, E4, E5. split; [done|]. split; [apply NoDup_nil_2|set_solver].
Qed.

(** The lane state [r] exists and has the name [name]. *)
Definition names_lane (name : string) (r : nat) (s : QueueState) : Prop :=
  ∃ st, laneHeap s !! r = Some st ∧ lane st = name.

Lemma names_lane_extends name r s s' :
  extends s s' → names_lane name r s → names_lane name r s'.
Proof.
  intros He (st & Hr & Hn). destruct (ex_lane _ _ He r st Hr) as (st' & ? & ? & _).
  exists st'. split; [done|congruence].
Qed.

Lemma queued_fresh m r st : m !! r = None → entry_promises st = [] →
  queued_promises (<[r := st]> m) ≡ₚ queued_promises m.
Proof. intros Hr He. by rewrite (queued_insert m r st Hr), He. Qed.

Lemma getLaneState_safe name s : safe_step s (getLaneState name s).1.
Proof.
  unfold getLaneState. destruct (JsMap.get name (lanes s)) as [r|] eqn:En; [reflexivity|].
  intros [I1 I2 I3 I4 I5 I6 I7 I8 I9]. simpl.
  assert (Hf : laneHeap s !! nextRef s = None).
  { destruct (laneHeap s !! nextRef s) as [st|] eqn:E; [specialize (I3 _ _ E); lia|done]. }
  assert (Hat : ∀ r st, (<[nextRef s := freshLane name]> (laneHeap s)) !! r = Some st →
    (r = nextRef s ∧ st = freshLane name) ∨ (r ≠ nextRef s ∧ laneHeap s !! r = Some st))
    by (intros r st [[<- <-]|[? ?]]%lookup_insert_Some; auto).
  assert (Hin : ∀ r st, laneHeap s !! r = Some st →
    (<[nextRef s := freshLane name]> (laneHeap s)) !! r = Some st)
    by (intros r st Hr; rewrite lookup_insert_ne by (intros <-; congruence); done).
  split; split; simpl.
  - by apply JsMap.NoDup_keys_set.
  - intros n r. rewrite JsMap.get_set. case_decide as Hn.
    + intros [= <-]. exists (freshLane name). by rewrite lookup_insert_eq, Hn.
    + intros Hr. destruct (I2 n r Hr) as (st & Hst & <-). eauto.
  - intros r st [[-> _]|[_ Hr]]%Hat; [lia|]. specialize (I3 _ _ Hr). lia.
  - intros r st [[-> ->]|[_ Hr]]%Hat; [apply createLaneQueue_ok|by eapply I4].
  - intros r st [[-> ->]|[_ Hr]]%Hat; [apply NoDup_nil_2|by eapply I5].
  - intros r st [[-> ->]|[_ Hr]]%Hat Hget; [done|]. apply (I6 r st Hr).
    intros Hg. apply Hget. rewrite JsMap.get_set_ne; [done|]. congruence.
  - done.
  - intros t Ht. destruct (I8 t Ht) as (? & st & ? & ?). eauto 6.
  - intros r st id [[-> ->]|[Hne Hr]]%Hat; [|by apply I9]. simpl.
    split; [set_solver|]. intros (t & Ht & _ & Htr & _).
    destruct (I8 t Ht) as (_ & st & Hst & _). congruence.
  - intros r st Hr. exists st. split; [by apply Hin|]. split; [done|lia].
  - done.
  - lia.
  - exists (@nil nat). split; [|split; [apply NoDup_nil_2|set_solver]]. unfold promises. simpl.
    apply Permutation_app; [|done]. by apply queued_fresh.
Qed.

Lemma getLaneState_names name s :
  queue_inv s → names_lane name (getLaneState name s).2 (getLaneState name s).1 ∧
    JsMap.get name (lanes (getLaneState name s).1) = Some (getLaneState name s).2.
Proof.
  intros Hs. unfold getLaneState. destruct (JsMap.get name (lanes s)) as [r|] eqn:En; simpl.
  - split; [|done]. by apply (qi_registered _ Hs).
  - split; [|apply JsMap.get_set_eq]. exists (freshLane name). simpl. by rewrite lookup_insert_eq.
Qed.

Ltac lane_update :=
  apply upd_lane_safe; intros st Hst Hi; simpl; split_and!;
  try done; try lia;
  try (by eapply (qi_queue _ Hi)); try (by eapply (qi_ids _ Hi));
  try (by eapply (qi_retired _ Hi)); try (by intros; eapply (qi_slots _ Hi)).

Lemma setDraining_safe r b s : safe_step s (upd_lane r (λ st, st <| draining := b |>) s).
Proof. lane_update. Qed.

Lemma setWidth_safe name w r s : safe_step s (setWidth name w r s).
Proof. unfold setWidth. lane_update. Qed.

(** A reset bumps the generation, which disowns every task in flight. *)
Lemma idleLane_safe r s : safe_step s (upd_lane r idleLane s).
Proof.
  lane_update.
  - apply NoDup_nil_2.
  - intros Hg. split; [|done]. by apply (qi_retired _ Hi _ _ Hst Hg).
  - intros id. split; [set_solver|]. intros (t & Ht & _ & Hr & Hg). exfalso.
    destruct (qi_task _ Hi t Ht) as (_ & st' & Hst' & _ & Hle). rewrite Hr in Hst'.
    assert (st' = st) as -> by congruence. unfold idleLane in Hg. simpl in Hg. lia.
Qed.

Lemma retire_safe r s : safe_step s (retireIdleScopedCommandLane r s).
Proof.
  unfold retireIdleScopedCommandLane.
  destruct (_ || _ || _ || _ || _) eqn:G; [reflexivity|].
  rewrite !orb_false_iff in G. destruct G as [[[[_ Ga] Gq] _] _].
  case_bool_decide as Hreg; [|reflexivity]. intros Hs. pose proof Hs as Hi.
  destruct Hi as [I1 I2 I3 I4 I5 I6 I7 I8 I9].
  destruct (I2 _ _ Hreg) as (st & Hst & _). rewrite (lane_at_lookup _ _ _ Hst) in *.
  assert (Hempty : queue_entries (queue st) = [] ∧ activeTaskIds st = []).
  { apply Z.ltb_ge in Ga, Gq. unfold activeCount, JsSet.size in Ga.
    rewrite (ok_length _ (I4 _ _ Hst)) in Gq.
    split; apply nil_length_inv; lia. }
  split.
  - split; simpl; auto.
    + by apply JsMap.NoDup_keys_delete.
    + intros n r'. rewrite JsMap.get_delete. case_decide; [done|]. apply I2.
    + intros r' st' Hr'. rewrite JsMap.get_delete. case_decide as Hn; [|by apply I6].
      intros _. destruct (decide (r' = r)) as [->|Hne]; [by simplify_eq|].
      apply (I6 r' st' Hr'). rewrite Hn, Hreg. congruence.
  - split; simpl; [|done|done|].
    + intros r' st' Hr'. exists st'. split; [done|]. split; [done|lia].
    + exists (@nil nat). split; [done|]. split; [apply NoDup_nil_2|set_solver].
Qed.

(** Dequeuing yields an entry only from a lane that is in the registry. *)
Lemma dequeue_registered r s e q :
  queue_inv s → dequeueLaneQueue (queue (lane_at r s)) = (Some e, q) →
  ∃ st, laneHeap s !! r = Some st ∧ JsMap.get (lane st) (lanes s) = Some r ∧
    queue_ok q ∧ queue_entries (queue st) = e :: queue_entries q.
Proof.
  intros Hs Hd. unfold lane_at in Hd. destruct (laneHeap s !! r) as [st|] eqn:Er; simpl in Hd.
  2:{ pose proof (dequeueLaneQueue_spec createLaneQueue createLaneQueue_ok) as Hsp.
      rewrite Hd in Hsp. by destruct Hsp as [? _]. }
  pose proof (dequeueLaneQueue_spec _ (qi_queue _ Hs _ _ Er)) as Hsp. rewrite Hd in Hsp.
  destruct Hsp as (He & Hok & Ht). exists st. split; [done|].
  destruct (queue_entries (queue st)) as [|e' l] eqn:El; [done|]. simpl in *. simplify_eq.
  split; [|done]. destruct (decide (JsMap.get (lane st) (lanes s) = Some r)) as [|Hn]; [done|].
  destruct (qi_retired _ Hs _ _ Er Hn). congruence.
Qed.

Lemma move_last {A} (p : A) (xs ys zs : list A) :
  xs ++ (ys ++ [p]) ++ zs ≡ₚ (p :: xs) ++ ys ++ zs.
Proof.
  rewrite <-(app_assoc ys), (app_assoc xs). simpl. rewrite <-Permutation_middle.
  by rewrite <-app_assoc.
Qed.

(** Admitting a dequeued entry, up to its wait callback. *)
Lemma admit_safe name r e q s :
  names_lane name r s → dequeueLaneQueue (queue (lane_at r s)) = (Some e, q) →
  safe_step s (admitEntry name r e q s).
Proof.
  intros (st0 & Hst0 & Hname) Hd Hs. unfold admitEntry.
  destruct (dequeue_registered r s e q Hs Hd) as (st & Hst & Hreg & Hok & Hqe).
  assert (st0 = st) as -> by congruence. clear Hst0. rewrite (lane_at_lookup _ _ _ Hst).
  destruct Hs as [I1 I2 I3 I4 I5 I6 I7 I8 I9].
  set (st' := st <| queue := q |> <| activeTaskIds ::= JsSet.add (nextTaskId s) |>).
  set (f := λ st, st <| queue := q |> <| activeTaskIds ::= JsSet.add (nextTaskId s) |>).
  assert (Hat : ∀ r' st'', alter f r (laneHeap s) !! r' = Some st'' →
    (r' = r ∧ st'' = st') ∨ (r' ≠ r ∧ laneHeap s !! r' = Some st'')).
  { intros r' st''. destruct (decide (r = r')) as [<-|Hne].
    - rewrite lookup_alter_eq, Hst. intros [= <-]. auto.
    - rewrite lookup_alter_ne by done. auto. }
  assert (Hto : ∀ r' st'', laneHeap s !! r' = Some st'' →
    ∃ st3, alter f r (laneHeap s) !! r' = Some st3 ∧ lane st3 = lane st'' ∧
      generation st3 = generation st'').
  { intros r' st'' Hr'. destruct (decide (r = r')) as [<-|Hne].
    - rewrite lookup_alter_eq, Hst. assert (st'' = st) as -> by congruence. by exists st'.
    - rewrite lookup_alter_ne by done. eauto. }
  assert (Hfresh : ∀ t, t ∈ running s → t_taskId t ≠ nextTaskId s)
    by (intros t Ht; destruct (I8 t Ht) as [? _]; lia).
  split; split; simpl; try done.
  - intros n r' Hr'. destruct (I2 n r' Hr') as (st2 & Hst2 & <-).
    destruct (Hto r' st2 Hst2) as (st3 & ? & ? & _). eauto.
  - intros r' st'' [[-> ->]|[_ Hr']]%Hat; [by eapply I3|by eapply I3].
  - intros r' st'' [[-> ->]|[_ Hr']]%Hat; [done|by eapply I4].
  - intros r' st'' [[-> ->]|[_ Hr']]%Hat; [|by eapply I5]. apply JsSet.NoDup_add. exact (I5 r st Hst).
  - intros r' st'' [[-> ->]|[_ Hr']]%Hat; [done|by eapply I6].
  - rewrite fmap_app. apply NoDup_app. split; [done|]. split; [|apply NoDup_singleton].
    intros id (t & -> & Ht)%list_elem_of_fmap Hid%list_elem_of_singleton.
    by apply (Hfresh t Ht).
  - intros t [Ht|Ht%list_elem_of_singleton]%elem_of_app.
    + destruct (I8 t Ht) as (? & st2 & Hst2 & ? & ?). split; [lia|].
      destruct (Hto _ _ Hst2) as (st3 & ? & ? & ?). exists st3. split; [done|].
      split; [congruence|lia].
    + subst t. simpl. split; [lia|]. exists st'. split; [by rewrite lookup_alter_eq, Hst|]. done.
  - intros r' st'' id Hr'. setoid_rewrite elem_of_app. setoid_rewrite list_elem_of_singleton.
    apply Hat in Hr' as [[-> ->]|[Hne Hr']].
    + simpl. rewrite JsSet.elem_of_add, (I9 _ _ _ Hst). split.
      * intros [->|(t & Ht & ?)]; [|by exists t; auto]. eexists. split; [right; reflexivity|]. done.
      * intros (t & [Ht| ->] & <- & ? & ?); [right; by exists t|by left].
    + rewrite (I9 _ _ _ Hr'). split.
      * intros (t & Ht & ?). exists t. auto.
      * intros (t & [Ht| ->] & ? & Htr & ?); [by exists t|]. simpl in Htr. congruence.
  - intros r' st'' Hr'. destruct (Hto _ _ Hr') as (st3 & ? & ? & ?). exists st3.
    split; [done|]. split; [done|lia].
  - lia.
  - exists (@nil nat). split; [|split; [apply NoDup_nil_2|set_solver]]. unfold promises. simpl.
    change (alter _ r (laneHeap s)) with (alter f r (laneHeap s)).
    rewrite (queued_alter f _ _ _ Hst), (queued_split _ _ _ Hst), fmap_app. simpl.
    unfold entry_promises at 1 2. rewrite Hqe. simpl. apply move_last.
Qed.

Section safety.
Context (run_on_wait : nat → Z → Z → QueueState → QueueState).
Context (Hcb : ∀ h w q s, safe_step s (run_on_wait h w q s)).

Lemma startEntry_safe name r e q s :
  names_lane name r s → dequeueLaneQueue (queue (lane_at r s)) = (Some e, q) →
  safe_step s (startEntry run_on_wait name r e q s).
Proof.
  intros Hn Hd. unfold startEntry. pose proof (admit_safe name r e q s Hn Hd) as Ha.
  case_match; [|done]. case_match; [|done]. etrans; [exact Ha|apply Hcb].
Qed.

Lemma drainLoop_safe fuel name r ms n s n' s' :
  names_lane name r s → drainLoop run_on_wait fuel name r ms n s = Some (n', s') →
  safe_step s s'.
Proof.
  revert n s. induction fuel as [|fuel IH]; intros n s Hn; simpl; [done|].
  case_match; [|intros [= <- <-]; reflexivity].
  destruct (dequeueLaneQueue (queue (lane_at r s))) as [[e|] q] eqn:Hd; [|done].
  intros Hrun Hs. destruct (startEntry_safe name r e q s Hn Hd Hs) as [Hs1 He1].
  destruct (IH _ _ (names_lane_extends _ _ _ _ He1 Hn) Hrun Hs1) as [Hs2 He2].
  split; [done|by etrans].
Qed.

(** The lane state a drain is asked to pump is the named one. *)
Definition drains (name : string) (state : option nat) (s : QueueState) : Prop :=
  match state with Some r => names_lane name r s | None => True end.

Lemma drainLane_safe fuel name ms state s n s' :
  drains name state s → drainLane run_on_wait fuel name ms state s = Some (n, s') →
  safe_step s s'.
Proof.
  intros Hst Hrun Hs. unfold drainLane in Hrun.
  assert (Hget : ∃ s1 r, match state with Some r => (s, r) | None => getLaneState name s end = (s1, r) ∧
    queue_inv s1 ∧ extends s s1 ∧ names_lane name r s1).
  { destruct state as [r|].
    { exists s, r. split; [done|]. split; [done|]. split; [reflexivity|done]. }
    exists (getLaneState name s).1, (getLaneState name s).2. split; [by destruct (getLaneState _ _)|].
    destruct (getLaneState_safe name s Hs) as [? ?]. split; [done|]. split; [done|].
    by apply getLaneState_names. }
  destruct Hget as (s1 & r & E & Hs1 & He1 & Hn1). rewrite E in Hrun. clear E.
  case_match; [by simplify_eq|].
  destruct (setDraining_safe r true s1 Hs1) as [Hs2 He2].
  destruct (drainLoop _ _ _ _ _ _ _) as [[n' s3]|] eqn:Eloop; [|done]. simplify_eq.
  destruct (drainLoop_safe _ _ _ _ _ _ _ _ (names_lane_extends _ _ _ _ He2 Hn1) Eloop Hs2)
    as [Hs3 He3].
  destruct (setDraining_safe r false s3 Hs3) as [Hs4 He4].
  destruct (retire_safe r _ Hs4) as [Hs5 He5]. split; [done|].
  etrans; [exact He1|]. etrans; [exact He2|]. etrans; [exact He3|]. by etrans.
Qed.

Lemma drainGroupLoop_safe fuel g s s' :
  drainGroupLoop run_on_wait fuel g s = Some s' → safe_step s s'.
Proof.
  revert s. induction fuel as [|fuel IH]; intros s; simpl; [done|].
  case_bool_decide; [|intros [= <-]; reflexivity].
  destruct (resolveNextGroupLane g s) as [sel|]; [|intros [= <-]; reflexivity].
  case_match; [intros [= <-]; reflexivity|].
  destruct (drainLane _ _ _ _ _ _) as [[n s1]|] eqn:E; [|done].
  pose proof (drainLane_safe _ _ _ None _ _ _ I E) as H1.
  destruct n; [intros [= <-]; done|]. intros H2%IH. by etrans.
Qed.

Lemma drainCommandLaneGroup_safe fuel name s s' :
  drainCommandLaneGroup run_on_wait fuel name s = Some s' → safe_step s s'.
Proof.
  unfold drainCommandLaneGroup. destruct (getLaneGroup name s) as [g|]; [|intros [= <-]; reflexivity].
  case_bool_decide; [intros [= <-]; reflexivity|].
  destruct (drainGroupLoop _ _ _ _) as [s1|] eqn:E; [|done]. intros [= <-].
  etrans; [|etrans; [apply (drainGroupLoop_safe _ _ _ _ E)|]]; by apply lane_frame_safe.
Qed.

Lemma drainReadyCommandLane_safe fuel name state s s' :
  drains name state s → drainReadyCommandLane run_on_wait fuel name state s = Some s' →
  safe_step s s'.
Proof.
  intros Hst. unfold drainReadyCommandLane. case_match.
  - apply drainCommandLaneGroup_safe.
  - destruct (drainLane _ _ _ _ _ _) as [[n s1]|] eqn:E; [|done]. intros [= <-].
    by eapply drainLane_safe.
Qed.

(** *** Operations *)

Lemma find_task id (l : list RunningTask) t :
  List.find (λ t, (t_taskId t =? id)%Z) l = Some t → t ∈ l ∧ t_taskId t = id.
Proof.
  intros H. apply List.find_some in H as [H1 H2]. split; [by apply list_elem_of_In|lia].
Qed.

(** The closure of a task leaves the list of tasks in flight and releases its
    slot in one step. *)
Lemma finish_inv t s :
  queue_inv s → t ∈ running s →
  let s1 := s <| running ::= filter (λ t', t_taskId t' ≠ t_taskId t) |> in
  queue_inv (completeTask (t_state t) (t_taskId t) (t_generation t) s1).1.
Proof.
  intros Hs Ht s1. destruct (qi_task _ Hs t Ht) as (_ & st & Hst & _ & Hle).
  assert (Hrest : ∀ t', t' ∈ running s1 ↔ t_taskId t' ≠ t_taskId t ∧ t' ∈ running s)
    by (intros t'; unfold s1; simpl; by rewrite list_elem_of_filter).
  assert (Huniq : ∀ t', t' ∈ running s → t_taskId t' = t_taskId t → t' = t).
  { intros t' Ht' Hid. pose proof (qi_running _ Hs) as Hn.
    apply list_elem_of_lookup_1 in Ht as [i Hi]. apply list_elem_of_lookup_1 in Ht' as [j Hj].
    assert (i = j) as ->; [|congruence]. eapply (NoDup_lookup _ i j (t_taskId t) Hn);
      rewrite list_lookup_fmap; [by rewrite Hi|by rewrite Hj; simpl; f_equal]. }
  destruct Hs as [I1 I2 I3 I4 I5 I6 I7 I8 I9].
  assert (Hnd : NoDup (t_taskId <$> running s1)) by by apply NoDup_fmap_filter.
  unfold completeTask. rewrite (lane_at_lookup _ s1 _ Hst).
  destruct (Z.eqb_spec (t_generation t) (generation st)) as [Eg|Eg]; simpl.
  2:{ split; simpl; try done.
      - intros t' Ht'. apply Hrest in Ht' as [_ Ht']. by apply I8.
      - intros r st' id Hr. rewrite (I9 _ _ _ Hr). split.
        + intros (t' & Ht' & Hid & Hr' & Hg). exists t'. split; [|done]. apply Hrest.
          split; [|done]. intros E. assert (t' = t) as -> by by apply Huniq.
          assert (st' = st) as -> by congruence. done.
        + intros (t' & Ht' & ?). apply Hrest in Ht' as [_ Ht']. by exists t'. }
  set (f := λ st, st <| activeTaskIds ::= JsSet.delete (t_taskId t) |>).
  assert (Hat : ∀ r st', alter f (t_state t) (laneHeap s) !! r = Some st' →
    ∃ st0, laneHeap s !! r = Some st0 ∧ st' = if decide (r = t_state t) then f st0 else st0).
  { intros r st' Hr. destruct (decide (t_state t = r)) as [<-|Hne].
    - rewrite lookup_alter_eq, Hst in Hr. simplify_eq/=. exists st. by rewrite decide_True.
    - rewrite lookup_alter_ne in Hr by done. exists st'. by rewrite decide_False. }
  assert (Hto : ∀ r st0, laneHeap s !! r = Some st0 →
    ∃ st', alter f (t_state t) (laneHeap s) !! r = Some st' ∧ lane st' = lane st0 ∧
      generation st' = generation st0).
  { intros r st0 Hr. destruct (decide (t_state t = r)) as [<-|Hne].
    - rewrite lookup_alter_eq, Hr. by exists (f st0).
    - rewrite lookup_alter_ne by done. by exists st0. }
  split; simpl; try done.
  - intros n r Hr. destruct (I2 n r Hr) as (st0 & H0 & <-).
    destruct (Hto _ _ H0) as (st' & ? & ? & _). eauto.
  - intros r st' (st0 & Hr & _)%Hat. by eapply I3.
  - intros r st' (st0 & Hr & ->)%Hat. case_decide; exact (I4 _ _ Hr).
  - intros r st' (st0 & Hr & ->)%Hat. case_decide; [apply JsSet.NoDup_delete|]; exact (I5 _ _ Hr).
  - intros r st' (st0 & Hr & ->)%Hat Hg.
    assert (Hg' : JsMap.get (lane st0) (lanes s) ≠ Some r) by (by case_decide).
    destruct (I6 _ _ Hr Hg') as [Hq Ha]. case_decide; [|done]. simpl. by rewrite Ha.
  - intros t' Ht'. apply Hrest in Ht' as [_ Ht']. destruct (I8 t' Ht') as (? & st0 & H0 & ? & ?).
    split; [done|]. destruct (Hto _ _ H0) as (st' & ? & ? & ?). exists st'. split; [done|].
    split; [congruence|lia].
  - intros r st' id (st0 & Hr & ->)%Hat.
    assert (Hsl : id ∈ activeTaskIds st0 ∧ (r = t_state t → id ≠ t_taskId t) ↔
      ∃ t', t' ∈ running s1 ∧ t_taskId t' = id ∧ t_state t' = r ∧ t_generation t' = generation st0).
    { rewrite (I9 _ _ _ Hr). split.
      - intros [(t' & Ht' & <- & Hr' & Hg) Hne]. exists t'. split; [|done]. apply Hrest.
        split; [|done]. intros E. assert (t' = t) as -> by by apply Huniq. by apply Hne.
      - intros (t' & Ht' & <- & Hr' & Hg). apply Hrest in Ht' as [Hne Ht'].
        split; [by exists t'|]. auto. }
    case_decide as Hd; (etrans; [|exact Hsl]); simpl; rewrite ?JsSet.elem_of_delete; tauto.
Qed.

Lemma filter_task t s :
  queue_inv s → t ∈ running s →
  (λ t, promise (t_entry t)) <$> running s ≡ₚ
    promise (t_entry t) ::
      ((λ t, promise (t_entry t)) <$> filter (λ t', t_taskId t' ≠ t_taskId t) (running s)).
Proof.
  intros Hs Ht. pose proof (qi_running _ Hs) as Hn. revert Hn Ht. clear.
  generalize (running s). intros l. induction l as [|t' l IH]; [set_solver|].
  rewrite fmap_cons. intros [Hnin Hnd]%NoDup_cons [<-|Ht]%elem_of_cons.
  - rewrite filter_cons_False, filter_all; [done| |tauto].
    apply Forall_forall. intros t' Ht' E. apply Hnin. rewrite <-E. by apply list_elem_of_fmap_2.
  - rewrite filter_cons_True; [|intros E; apply Hnin; rewrite E; by apply list_elem_of_fmap_2].
    rewrite !fmap_cons, IH by done. apply Permutation_swap.
Qed.

Lemma completeTask_frame r id g s :
  let s' := (completeTask r id g s).1 in
  lanes s' = lanes s ∧ nextTaskId s' = nextTaskId s ∧ nextRef s' = nextRef s ∧
  running s' = running s ∧ settled s' = settled s ∧
  (∀ r' st, laneHeap s !! r' = Some st → ∃ st', laneHeap s' !! r' = Some st' ∧
    lane st' = lane st ∧ generation st' = generation st ∧ queue st' = queue st) ∧
  queued_promises (laneHeap s') ≡ₚ queued_promises (laneHeap s).
Proof.
  unfold completeTask. case_match; simpl.
  { repeat split; try done. intros r' st Hr. by exists st. }
  repeat split; try done.
  - intros r' st Hr. destruct (decide (r = r')) as [<-|Hne].
    + rewrite lookup_alter_eq, Hr. by eexists.
    + rewrite lookup_alter_ne by done. by exists st.
  - destruct (laneHeap s !! r) as [st|] eqn:Er; [|by rewrite alter_absent].
    by rewrite (queued_alter _ _ _ _ Er), (queued_split _ _ _ Er).
Qed.

Lemma taskEnds_safe fuel id o s s' : taskEnds run_on_wait fuel id o s = Some s' → safe_step s s'.
Proof.
  unfold taskEnds. destruct (List.find _ _) as [t|] eqn:Ef; [|intros [= <-]; reflexivity].
  apply find_task in Ef as [Ht <-]. intros Hrun Hs.
  pose proof (finish_inv t s Hs Ht) as Hs1. cbn zeta in Hs1.
  set (s0 := s <| running ::= filter (λ t', t_taskId t' ≠ t_taskId t) |>) in *.
  destruct (completeTask_frame (t_state t) (t_taskId t) (t_generation t) s0)
    as (_ & F2 & F3 & F4 & F5 & F6 & F7).
  destruct (completeTask (t_state t) (t_taskId t) (t_generation t) s0) as [s1 cur] eqn:Ec.
  simpl in *. destruct (qi_task _ Hs t Ht) as (_ & st & Hst & Hname & _).
  assert (Hn : names_lane (t_lane t) (t_state t) s1).
  { destruct (F6 _ _ Hst) as (st' & ? & ? & _). exists st'. split; [done|congruence]. }
  assert (H2 : ∃ s2, queue_inv s2 ∧ extends s1 s2 ∧
    s' = s2 <| settled ::= λ l, l ++ [(promise (t_entry t), o)] |>).
  { destruct cur.
    - destruct (drainReadyCommandLane _ _ _ _ _) as [s2|] eqn:Ed; [|done]. injection Hrun as <-.
      exists s2. destruct (drainReadyCommandLane_safe _ _ (Some (t_state t)) _ _ Hn Ed Hs1). done.
    - injection Hrun as <-. exists s1. split; [done|]. split; [reflexivity|done]. }
  destruct H2 as (s2 & Hs2 & [L T R (new & P & N & F)] & ->). split.
  { destruct Hs2 as [I1 I2 I3 I4 I5 I6 I7 I8 I9]. by split. }
  split; simpl; [|lia|lia|].
  - intros r st0 Hr. destruct (F6 r st0 Hr) as (st1 & Hr1 & E1 & E2 & _).
    destruct (L r st1 Hr1) as (st2 & Hr2 & E3 & E4). exists st2. split; [done|].
    split; [congruence|lia].
  - exists new. split; [|split; [done|by rewrite <-F3]].
    unfold promises in *. simpl in *. rewrite F7, F4, F5 in P.
    rewrite (filter_task t s Hs Ht). simpl in P |- *. rewrite fmap_app. simpl.
    rewrite !app_assoc. rewrite <-Permutation_cons_append. rewrite <-!app_assoc, P. simpl.
    rewrite <-!Permutation_middle. done.
Qed.

(** A fresh promise is settled at once. *)
Lemma reject_fresh_safe s o :
  safe_step s ((newPromise s).1 <| settled ::= λ l, l ++ [(nextRef s, o)] |>).
Proof.
  intros Hs. split.
  - destruct Hs as [I1 I2 I3 I4 I5 I6 I7 I8 I9]. split; simpl; auto.
    intros r st Hr. specialize (I3 r st Hr). lia.
  - split; simpl; [|done|lia|].
    + intros r st Hr. exists st. split; [done|]. split; [done|lia].
    + exists [nextRef s]. split; [|split; [apply NoDup_singleton|]].
      * unfold promises. simpl. rewrite fmap_app. simpl. rewrite !app_assoc.
        by rewrite <-Permutation_cons_append.
      * intros p ->%list_elem_of_singleton. lia.
Qed.

(** Enqueueing an entry with a fresh promise on a registered lane. *)
Lemma enqueueLaneEntry_safe r entry s :
  JsMap.get (lane (lane_at r s)) (lanes s) = Some r → promise entry = nextRef s →
  safe_step s (enqueueLaneEntry r entry
    ((newPromise s).1 <| nextQueueSequence ::= λ n, (n + 1)%Z |>)).
Proof.
  intros Hreg Hp Hs. pose proof Hs as [I1 I2 I3 I4 I5 I6 I7 I8 I9].
  destruct (I2 _ _ Hreg) as (st & Hst & Hl). clear Hl.
  rewrite (lane_at_lookup _ _ _ Hst) in Hreg.
  unfold enqueueLaneEntry, newPromise. cbn [fst].
  set (s1 := s <| nextRef ::= S |> <| nextQueueSequence ::= λ n, (n + 1)%Z |>).
  rewrite (lane_at_lookup r s1 st Hst). destruct (enqueueLaneQueue (queue st) entry) as [qa q0].
  set (entry' := entry <| queuedAheadAtEnqueue := qa |> <| activeAheadAtEnqueue := activeCount st |>).
  set (f := λ st, st <| queue := (enqueueLaneQueue (queue st) entry').2 |>).
  pose proof (enqueueLaneQueue_spec (queue st) entry' (I4 _ _ Hst)) as Hsp.
  destruct (enqueueLaneQueue (queue st) entry') as [qa' q] eqn:Eq. destruct Hsp as (Hok & Hq & _).
  assert (Hfst : f st = st <| queue := q |>) by (unfold f; by rewrite Eq).
  assert (Hat : ∀ r' st', alter f r (laneHeap s) !! r' = Some st' →
    ∃ st0, laneHeap s !! r' = Some st0 ∧ (r' = r ∧ st' = st <| queue := q |> ∧ st0 = st ∨ r' ≠ r ∧ st' = st0)).
  { intros r' st' Hr'. destruct (decide (r = r')) as [<-|Hne].
    - rewrite lookup_alter_eq, Hst in Hr'. injection Hr' as <-. exists st. rewrite Hfst. auto.
    - rewrite lookup_alter_ne in Hr' by done. exists st'. auto. }
  assert (Hto : ∀ r' st0, laneHeap s !! r' = Some st0 →
    ∃ st', alter f r (laneHeap s) !! r' = Some st' ∧ lane st' = lane st0 ∧
      generation st' = generation st0).
  { intros r' st0 Hr'. destruct (decide (r = r')) as [<-|Hne].
    - rewrite lookup_alter_eq, Hst. assert (st0 = st) as -> by congruence. exists (f st).
      split; [done|]. by rewrite Hfst.
    - rewrite lookup_alter_ne by done. by exists st0. }
  split; split; simpl; try done.
  - intros n r' Hr'. destruct (I2 n r' Hr') as (st0 & H0 & <-).
    destruct (Hto _ _ H0) as (st' & ? & ? & _). eauto.
  - intros r' st' (st0 & H0 & _)%Hat. specialize (I3 _ _ H0). lia.
  - intros r' st' (st0 & H0 & [(-> & -> & ->)|(_ & ->)])%Hat; [done|exact (I4 _ _ H0)].
  - intros r' st' (st0 & H0 & [(-> & -> & ->)|(_ & ->)])%Hat; exact (I5 _ _ H0).
  - intros r' st' (st0 & H0 & [(-> & -> & ->)|(_ & ->)])%Hat; [done|exact (I6 _ _ H0)].
  - intros t Ht. destruct (I8 t Ht) as (? & st0 & H0 & ? & ?). split; [done|].
    destruct (Hto _ _ H0) as (st' & ? & ? & ?). exists st'. split; [done|]. split; [congruence|lia].
  - intros r' st' id (st0 & H0 & [(-> & -> & ->)|(_ & ->)])%Hat; exact (I9 _ _ _ H0).
  - intros r' st0 H0. destruct (Hto _ _ H0) as (st' & ? & ? & ?). exists st'. split; [done|].
    split; [done|lia].
  - lia.
  - exists [nextRef s]. split; [|split; [apply NoDup_singleton|]].
    + unfold promises. simpl. apply (Permutation_app (l' := nextRef s :: queued_promises (laneHeap s)));
        [|done]. rewrite (queued_alter f _ _ _ Hst), (queued_split _ _ _ Hst), Hfst.
      unfold entry_promises at 1. simpl. rewrite Hq, abs_insert_Permutation. simpl. by rewrite <-Hp.
    + intros p ->%list_elem_of_singleton. lia.
Qed.

Lemma enqueueCommandInLane_safe {G} `{AdmissionGate G} fuel gate c name tsk opts s s' p :
  enqueueCommandInLane run_on_wait fuel gate c name tsk opts s = Some (s', p) → safe_step s s'.
Proof.
  unfold enqueueCommandInLane. case_match.
  { unfold newPromise. intros [= <- <-]. apply reject_fresh_safe. }
  destruct (getLaneState (normalizeLane name) s) as [s1 r] eqn:Eg.
  assert (E1 : (getLaneState (normalizeLane name) s).1 = s1) by by rewrite Eg.
  assert (E2 : (getLaneState (normalizeLane name) s).2 = r) by by rewrite Eg.
  unfold newPromise. intros Hrun Hs.
  destruct (getLaneState_safe (normalizeLane name) s Hs) as [Hs1 He1].
  destruct (getLaneState_names (normalizeLane name) s Hs) as [(st & Hst & Hn) Hreg].
  rewrite E1, ?E2 in *.
  assert (Hreg' : JsMap.get (lane (lane_at r s1)) (lanes s1) = Some r)
    by (by rewrite (lane_at_lookup _ _ _ Hst), Hn).
  destruct (drainReadyCommandLane _ _ _ _ _) as [s2|] eqn:Ed; [|done]. injection Hrun as <- <-.
  match type of Ed with drainReadyCommandLane _ _ _ _ (enqueueLaneEntry _ ?e _) = _ =>
    destruct (enqueueLaneEntry_safe r e s1 Hreg' eq_refl Hs1) as [Hs2 He2] end.
  destruct (drainReadyCommandLane_safe _ _ None _ _ I Ed Hs2) as [Hs3 He3].
  split; [done|]. etrans; [exact He1|]. by etrans.
Qed.

Lemma drainTouched_safe fuel names s s' :
  drainTouched run_on_wait fuel names s = Some s' → safe_step s s'.
Proof.
  revert s. induction names as [|n names IH]; intros s; simpl; [intros [= <-]; reflexivity|].
  destruct (find_lane n s) as [st|]; [|apply IH]. case_match; [|apply IH].
  destruct (drainReadyCommandLane _ _ _ _ _) as [s1|] eqn:Ed; [|done]. intros H2%IH.
  etrans; [exact (drainReadyCommandLane_safe _ _ None _ _ I Ed)|done].
Qed.

Lemma drainLanes_safe fuel names s s' :
  drainLanes run_on_wait fuel names s = Some s' → safe_step s s'.
Proof.
  revert s. induction names as [|n names IH]; intros s; simpl; [intros [= <-]; reflexivity|].
  destruct (drainReadyCommandLane _ _ _ _ _) as [s1|] eqn:Ed; [|done]. intros H2%IH.
  etrans; [exact (drainReadyCommandLane_safe _ _ None _ _ I Ed)|done].
Qed.

Lemma setCommandLaneConcurrency_safe fuel name w s s' :
  setCommandLaneConcurrency run_on_wait fuel name w s = Some s' → safe_step s s'.
Proof.
  unfold setCommandLaneConcurrency. pose proof (getLaneState_safe (normalizeLane name) s) as H1.
  destruct (getLaneState _ s) as [s1 r]. simpl in H1.
  assert (H2 : safe_step s (setWidth (normalizeLane name) w r s1))
    by (etrans; [exact H1|apply setWidth_safe]).
  case_match; [|intros [= <-]; exact H2]. intros Ed. etrans; [exact H2|].
  exact (drainReadyCommandLane_safe _ _ None _ _ I Ed).
Qed.

(** Group installation leaves the lanes alone. *)
Lemma disownMembers_lanes g ms s :
  let s' := foldl (disownMember g) s ms in
  lanes s' = lanes s ∧ laneHeap s' = laneHeap s ∧ nextTaskId s' = nextTaskId s ∧
  running s' = running s ∧ settled s' = settled s ∧ nextRef s' = nextRef s.
Proof.
  destruct (disownMembers_spec g ms s) as (h & -> & _). done.
Qed.

Lemma install_safe r s : safe_step s (installCommandLaneGroup r s).
Proof.
  unfold installCommandLaneGroup.
  set (s0 := match JsMap.get _ (laneGroups s) with Some _ => _ | None => _ end).
  assert (H0 : lanes s0 = lanes s ∧ laneHeap s0 = laneHeap s ∧ nextTaskId s0 = nextTaskId s ∧
    running s0 = running s ∧ settled s0 = settled s ∧ nextRef s0 = nextRef s)
    by (unfold s0; by case_match).
  destruct H0 as (A1 & A2 & A3 & A4 & A5 & A6).
  destruct (disownMembers_lanes (group (group_at r s)) (members (group_at r s)) s0)
    as (B1 & B2 & B3 & B4 & B5 & B6).
  apply lane_frame_safe; simpl; congruence || lia.
Qed.

Lemma installConfiguration_safe config validated s :
  safe_step s (installConfiguration config validated s).1.
Proof.
  unfold installConfiguration.
  assert (Hfold : ∀ {A} (f : QueueState * list string → A → QueueState * list string) l acc,
    (∀ acc a, safe_step acc.1 (f acc a).1) → safe_step acc.1 (foldl f acc l).1).
  { intros A f l. induction l as [|a l IH]; intros acc Hf; simpl; [reflexivity|].
    etrans; [apply Hf|by apply IH]. }
  etrans; [|apply Hfold]; [etrans; [|apply Hfold]|].
  - apply (Hfold _ applyWidth _ (s, [])). intros [s0 t] [n w]. unfold applyWidth.
    pose proof (getLaneState_safe (normalizeLane n) s0) as H1. simpl.
    destruct (getLaneState _ s0) as [s1 r]. simpl in *. etrans; [exact H1|apply setWidth_safe].
  - intros [s0 t] g. unfold clearGroup. case_match; [|reflexivity].
    by apply lane_frame_safe.
  - intros [s0 t] g. unfold installValidated. simpl. etrans; [|apply install_safe].
    apply lane_frame_safe; simpl; try done. lia.
Qed.

Lemma publishLaneConfiguration_safe fuel config s e s' :
  publishLaneConfiguration run_on_wait fuel config s = Some (e, s') → safe_step s s'.
Proof.
  unfold publishLaneConfiguration. case_match; [intros [= _ <-]; reflexivity|].
  pose proof (installConfiguration_safe config l s) as H1.
  destruct (installConfiguration config l s) as [s1 t]. simpl in H1.
  destruct (drainTouched _ _ _ _) as [s2|] eqn:Ed; [|done]. intros [= _ <-].
  etrans; [exact H1|by eapply drainTouched_safe].
Qed.

(** One entry cleared: its promise moves from the queue to the settled ones. *)
Lemma clear_step_safe r e q o s :
  dequeueLaneQueue (queue (lane_at r s)) = (Some e, q) →
  safe_step s ((upd_lane r (λ st, st <| queue := q |>) s)
                 <| settled ::= λ l, l ++ [(promise e, o)] |>).
Proof.
  clear Hcb run_on_wait.
  intros Hd Hs. destruct (dequeue_registered r s e q Hs Hd) as (st & Hst & Hreg & Hok & Hqe).
  destruct Hs as [I1 I2 I3 I4 I5 I6 I7 I8 I9].
  set (f := λ st, st <| queue := q |>).
  assert (Hat : ∀ r' st', alter f r (laneHeap s) !! r' = Some st' →
    ∃ st0, laneHeap s !! r' = Some st0 ∧ (r' = r ∧ st' = f st0 ∧ st0 = st ∨ r' ≠ r ∧ st' = st0)).
  { intros r' st' Hr'. destruct (decide (r = r')) as [<-|Hne].
    - rewrite lookup_alter_eq, Hst in Hr'. injection Hr' as <-. exists st. auto.
    - rewrite lookup_alter_ne in Hr' by done. exists st'. auto. }
  assert (Hto : ∀ r' st0, laneHeap s !! r' = Some st0 →
    ∃ st', alter f r (laneHeap s) !! r' = Some st' ∧ lane st' = lane st0 ∧
      generation st' = generation st0).
  { intros r' st0 Hr'. destruct (decide (r = r')) as [<-|Hne].
    - rewrite lookup_alter_eq, Hr'. by exists (f st0).
    - rewrite lookup_alter_ne by done. by exists st0. }
  split; split; simpl; try done.
  - intros n r' Hr'. destruct (I2 n r' Hr') as (st0 & H0 & <-).
    destruct (Hto _ _ H0) as (st' & ? & ? & _). eauto.
  - intros r' st' (st0 & H0 & _)%Hat. exact (I3 _ _ H0).
  - intros r' st' (st0 & H0 & [(-> & -> & ->)|(_ & ->)])%Hat; [done|exact (I4 _ _ H0)].
  - intros r' st' (st0 & H0 & [(-> & -> & ->)|(_ & ->)])%Hat; exact (I5 _ _ H0).
  - intros r' st' (st0 & H0 & [(-> & -> & ->)|(_ & ->)])%Hat; [done|exact (I6 _ _ H0)].
  - intros t Ht. destruct (I8 t Ht) as (? & st0 & H0 & ? & ?). split; [done|].
    destruct (Hto _ _ H0) as (st' & ? & ? & ?). exists st'. split; [done|]. split; [congruence|lia].
  - intros r' st' id (st0 & H0 & [(-> & -> & ->)|(_ & ->)])%Hat; exact (I9 _ _ _ H0).
  - intros r' st0 H0. destruct (Hto _ _ H0) as (st' & ? & ? & ?). exists st'. split; [done|].
    split; [done|lia].
  - exists (@nil nat). split; [|split; [apply NoDup_nil_2|set_solver]]. unfold promises. simpl.
    change (alter _ r (laneHeap s)) with (alter f r (laneHeap s)).
    rewrite (queued_alter f _ _ _ Hst), (queued_split _ _ _ Hst), fmap_app. simpl.
    unfold entry_promises at 1 2. rewrite Hqe. simpl.
    rewrite !app_assoc, <-Permutation_cons_append. done.
Qed.

Lemma clearLoop_safe fuel name r s : safe_step s (clearLoop fuel name r s).
Proof.
  clear Hcb run_on_wait.
  revert s. induction fuel as [|fuel IH]; intros s; simpl; [reflexivity|].
  destruct (dequeueLaneQueue (queue (lane_at r s))) as [[e|] q] eqn:Hd; [|reflexivity].
  etrans; [|apply IH]. by apply clear_step_safe.
Qed.

Lemma clearCommandLane_safe name s : safe_step s (clearCommandLane name s).1.
Proof. unfold clearCommandLane. case_match; [apply clearLoop_safe|reflexivity]. Qed.

Lemma resetCommandLane_safe fuel name s s' n :
  resetCommandLane run_on_wait fuel name s = Some (s', n) → safe_step s s'.
Proof.
  unfold resetCommandLane. case_match; [|intros [= <- _]; reflexivity].
  destruct (drainReadyCommandLane _ _ _ _ _) as [s1|] eqn:Ed; [|done]. intros [= <- _].
  etrans; [apply idleLane_safe|exact (drainReadyCommandLane_safe _ _ None _ _ I Ed)].
Qed.

Lemma resetPass_safe s : safe_step s (resetPass s).1.
Proof.
  unfold resetPass. generalize (JsMap.values (lanes s)). intros rs.
  enough (H : ∀ acc, safe_step acc.1 (foldl (λ '(s, toDrain) ref,
    let s := upd_lane ref idleLane s in
    let st := lane_at ref s in
    (s, if (0 <? queue_length (queue st))%Z then toDrain ++ [lane st] else toDrain)) acc rs).1)
    by exact (H (s, [])).
  induction rs as [|r rs IH]; intros [s0 t]; [reflexivity|].
  cbn [foldl]. etrans; [|apply IH]. apply idleLane_safe.
Qed.

Lemma resetAllLanes_safe {G} `{AdmissionGate G} fuel gate gate' s s' :
  resetAllLanes run_on_wait fuel gate s = Some (gate', s') → safe_step s s'.
Proof.
  unfold resetAllLanes. pose proof (resetPass_safe s) as H1.
  destruct (resetPass s) as [s1 names]. simpl in H1.
  destruct (drainLanes _ _ _ _) as [s2|] eqn:Ed; [|done]. intros [= _ <-].
  etrans; [exact H1|by eapply drainLanes_safe].
Qed.

End safety.

(** ** What a drain does

    Without re-entrant callbacks: how many entries a drain starts, which, and
    with which ids. *)
Section inert.
Context (run_on_wait : nat → Z → Z → QueueState → QueueState).
Context (Hinert : ∀ h w q s, run_on_wait h w q s = s).

Lemma startEntry_inert name r e q s :
  startEntry run_on_wait name r e q s = admitEntry name r e q s.
Proof. unfold startEntry. repeat case_match; rewrite ?Hinert; done. Qed.

(** The number of entries a lane can start. *)
Definition startable (st : LaneState) : nat :=
  match maxConcurrent st with
  | Fin w => Nat.min (Z.to_nat (w - activeCount st)) (length (queue_entries (queue st)))
  | PosInf => length (queue_entries (queue st))
  | NegInf | NaN => 0
  end.

Definition started_tasks (name : string) (r : nat) (st : LaneState) (n : nat) (first : Z) :
    list RunningTask :=
  zip_with (λ id e, mkTask name r id (generation st) e) (seqZ first (Z.of_nat n))
    (take n (queue_entries (queue st))).

(** The state after a lane started [n] entries. *)
Record started_from (name : string) (r : nat) (st : LaneState) (n : nat) (s s' : QueueState) :
    Prop := {
  sf_lane : ∃ st', laneHeap s' !! r = Some st' ∧ queue_ok (queue st') ∧
    queue_entries (queue st') = drop n (queue_entries (queue st)) ∧
    activeTaskIds st' = activeTaskIds st ++ seqZ (nextTaskId s) (Z.of_nat n) ∧
    lane st' = lane st ∧ maxConcurrent st' = maxConcurrent st ∧
    draining st' = draining st ∧ generation st' = generation st;
  sf_others r' : r' ≠ r → laneHeap s' !! r' = laneHeap s !! r';
  sf_running : running s' = running s ++ started_tasks name r st n (nextTaskId s);
  sf_taskId : nextTaskId s' = (nextTaskId s + Z.of_nat n)%Z;
  sf_settled : settled s' = settled s;
  sf_lanes : lanes s' = lanes s;
  sf_groups : laneGroups s' = laneGroups s ∧ laneGroupByLane s' = laneGroupByLane s ∧
    groupHeap s' = groupHeap s
}.

Lemma drainGuard_startable name r k s st :
  laneHeap s !! r = Some st → queue_ok (queue st) → getLaneGroup name s = None →
  drainGuard name r None k s = bool_decide (startable st ≠ 0).
Proof.
  intros Hst Hok Hg. unfold drainGuard, canAdmitInGroup, resolveLaneBlockReason. rewrite Hg.
  rewrite (lane_at_lookup _ _ _ Hst), (ok_length _ Hok).
  assert (Hc : (match (if match find_lane name s with
      | Some st0 => js_geb (activeCount st0) (maxConcurrent st0) | None => false end
    then Some BlockLane else None) with None | Some BlockLane => true | _ => false end) = true)
    by (by repeat case_match; simplify_eq). rewrite Hc, andb_true_r. clear Hc.
  unfold startable. simpl.
  pose proof (Z.ltb_spec 0 (Z.of_nat (length (queue_entries (queue st))))) as Hq.
  destruct (maxConcurrent st) as [w| | |]; simpl; symmetry.
  - destruct (Z.ltb_spec (activeCount st) w), Hq; simpl;
      [apply bool_decide_eq_true|apply bool_decide_eq_false..]; lia.
  - destruct Hq; [apply bool_decide_eq_true|apply bool_decide_eq_false]; lia.
  - done.
  - done.
Qed.

Lemma seqZ_S a n : seqZ a (Z.of_nat (S n)) = a :: seqZ (a + 1) (Z.of_nat n).
Proof. rewrite seqZ_cons by lia. do 2 f_equal; lia. Qed.

Lemma drainLoop_spec fuel name r k s st :
  laneHeap s !! r = Some st → queue_ok (queue st) → getLaneGroup name s = None →
  (∀ id, id ∈ activeTaskIds st → (id < nextTaskId s)%Z) → startable st < fuel →
  ∃ s', drainLoop run_on_wait fuel name r None k s = Some (k + startable st, s') ∧
    started_from name r st (startable st) s s'.
Proof.
  revert k s st. induction fuel as [|fuel IH]; intros k s st Hst Hok Hg Hids Hf; [lia|].
  simpl. rewrite (drainGuard_startable _ _ _ _ _ Hst Hok Hg).
  destruct (startable st) as [|n] eqn:En; simpl.
  { exists s. split; [by rewrite Nat.add_0_r|]. split; try done.
    - exists st. by rewrite drop_0, app_nil_r.
    - unfold started_tasks. simpl. by rewrite app_nil_r.
    - lia. }
  rewrite (lane_at_lookup _ _ _ Hst).
  pose proof (dequeueLaneQueue_spec _ Hok) as Hd.
  destruct (dequeueLaneQueue (queue st)) as [e q]. destruct Hd as (-> & Hokq & Hq).
  destruct (queue_entries (queue st)) as [|e l] eqn:El.
  { exfalso. unfold startable in En. rewrite El in En. destruct (maxConcurrent st); simpl in En; lia. }
  simpl in Hq |- *. rewrite startEntry_inert.
  set (st1 := st <| queue := q |> <| activeTaskIds ::= JsSet.add (nextTaskId s) |>).
  assert (Hst1 : laneHeap (admitEntry name r e q s) !! r = Some st1)
    by (simpl; by rewrite lookup_alter_eq, Hst).
  assert (Hact : activeTaskIds st1 = activeTaskIds st ++ [nextTaskId s]).
  { simpl. unfold JsSet.add. rewrite decide_False; [done|]. intros Hin. specialize (Hids _ Hin). lia. }
  assert (En1 : startable st1 = n).
  { unfold startable in *. change (maxConcurrent st1) with (maxConcurrent st).
    change (queue st1) with q. unfold activeCount, JsSet.size in *. rewrite Hact, Hq, length_app.
    rewrite El in En. simpl in *. destruct (maxConcurrent st); lia. }
  destruct (IH (S k) (admitEntry name r e q s) st1 Hst1 Hokq Hg) as (s' & Hrun & Hsf).
  { rewrite Hact. intros id [Hin|Hin]%elem_of_app; simpl; [specialize (Hids _ Hin); lia|].
    apply list_elem_of_singleton in Hin as ->. lia. }
  { lia. }
  rewrite En1 in *. exists s'. split; [by rewrite Hrun; do 2 f_equal; lia|].
  destruct Hsf as [(st' & H1 & H2 & H3 & H4 & H5 & H6 & H7 & H8) S2 S3 S4 S5 S6 S7].
  simpl in S2, S3, S4, S5, S6, S7. split; try done.
  - exists st'. split; [done|]. split; [done|]. split; [by rewrite H3; change (queue st1) with q; rewrite Hq, El|].
    split; [|done]. rewrite H4, Hact, seqZ_S, <-app_assoc. done.
  - intros r' Hr'. rewrite S2 by done. by rewrite lookup_alter_ne.
  - rewrite S3. unfold started_tasks. rewrite El, seqZ_S. change (queue st1) with q.
    rewrite Hq, (lane_at_lookup _ _ _ Hst). simpl. by rewrite <-app_assoc.
  - lia.
Qed.

End inert.

(** ** What a group drain does *)
Section group_drain.
Context (run_on_wait : nat → Z → Z → QueueState → QueueState).
Context (Hinert : ∀ h w q s, run_on_wait h w q s = s).

Lemma admit_active name r e q s st m :
  queue_inv s → JsMap.get name (lanes s) = Some r → laneHeap s !! r = Some st →
  getMemberActiveCount m (admitEntry name r e q s) =
    one_more name (λ m, getMemberActiveCount m s) m.
Proof.
  intros Hs Hreg Hst. unfold getMemberActiveCount, one_more, find_lane. simpl.
  assert (Hfresh : nextTaskId s ∉ activeTaskIds st).
  { intros Hin. apply (qi_slots _ Hs _ _ _ Hst) in Hin as (t & Ht & Hid & _).
    destruct (qi_task _ Hs t Ht). lia. }
  destruct (JsMap.get m (lanes s)) as [r'|] eqn:Em; simpl.
  - destruct (qi_registered _ Hs _ _ Em) as (st' & Hst' & Hl').
    unfold lane_at. simpl. destruct (decide (r = r')) as [<-|Hne].
    + destruct (qi_registered _ Hs _ _ Hreg) as (st0 & Hst0 & Hl0).
      rewrite decide_True by congruence. rewrite lookup_alter_eq, Hst. simpl.
      unfold activeCount. simpl. by rewrite JsSet.size_add_fresh.
    + rewrite lookup_alter_ne by done. rewrite decide_False; [done|]. intros ->. congruence.
  - rewrite decide_False; [done|]. intros ->. congruence.
Qed.

(** The draining flag of a lane plays no part in admission. *)
Lemma canAdmit_draining name r b s st :
  laneHeap s !! r = Some st →
  canAdmitInGroup name (upd_lane r (λ st, st <| draining := b |>) s) = canAdmitInGroup name s.
Proof.
  intros Hst. set (s1 := upd_lane r (λ st, st <| draining := b |>) s).
  assert (Hact : ∀ m, find_lane m s1 =
    (λ st', if decide (JsMap.get m (lanes s) = Some r) then st' <| draining := b |> else st')
      <$> find_lane m s).
  { intros m. unfold find_lane. change (lanes s1) with (lanes s).
    destruct (JsMap.get m (lanes s)) as [r'|]; simpl; [|done]. f_equal. unfold s1.
    rewrite lane_at_upd by eauto. repeat case_decide; simplify_eq; done. }
  assert (Hcount : ∀ m, getMemberActiveCount m s1 = getMemberActiveCount m s).
  { intros m. unfold getMemberActiveCount. rewrite Hact.
    destruct (find_lane m s); simpl; [|done]. by case_decide. }
  unfold canAdmitInGroup, resolveLaneBlockReason.
  change (getLaneGroup name s1) with (getLaneGroup name s).
  assert (Hcap : match find_lane name s1 with
    | Some st => js_geb (activeCount st) (maxConcurrent st) | None => false end =
    match find_lane name s with
    | Some st => js_geb (activeCount st) (maxConcurrent st) | None => false end).
  { rewrite Hact. destruct (find_lane name s); simpl; [|done]. by case_decide. }
  rewrite Hcap, Hcount. destruct (getLaneGroup name s) as [g|]; [|done].
  change (group_at g s1) with (group_at g s).
  assert (Hus : groupUsage (group_at g s) name (λ m, getMemberActiveCount m s1) =
    groupUsage (group_at g s) name (λ m, getMemberActiveCount m s)); [|by rewrite Hus].
  unfold groupUsage. generalize (0%Z, Fin 0%Z : jsint) as acc.
  induction (members (group_at g s)) as [|m ms IH]; intros [ga h]; [done|].
  cbn [foldl]. cbv beta zeta iota. rewrite Hcount. apply IH.
Qed.

(** A bounded drain of a lane whose head may start admits exactly that head. *)
Lemma drain_one fuel name s st r :
  queue_inv s → JsMap.get name (lanes s) = Some r → laneHeap s !! r = Some st →
  draining st = false → queue_entries (queue st) ≠ [] → canAdmitInGroup name s = true →
  js_ltb (activeCount st) (maxConcurrent st) = true →
  ∃ e q, dequeueLaneQueue (queue st) = (Some e, q) ∧
    drainLane run_on_wait (S (S fuel)) name (Some 1) None s = Some (1, admitEntry name r e q s).
Proof.
  intros Hs Hreg Hst Hd Hq Hadm Hroom.
  pose proof (dequeueLaneQueue_spec _ (qi_queue _ Hs _ _ Hst)) as Hdq.
  destruct (dequeueLaneQueue (queue st)) as [e q] eqn:Edq. destruct Hdq as (-> & Hok & Hq').
  destruct (queue_entries (queue st)) as [|e l] eqn:El; [done|]. exists e, q. split; [done|].
  unfold drainLane, getLaneState. rewrite Hreg, (lane_at_lookup _ _ _ Hst), Hd.
  set (s1 := upd_lane r (λ st, st <| draining := true |>) s).
  assert (Hs1 : lane_at r s1 = st <| draining := true |>)
    by (apply lane_at_lookup; simpl; by rewrite lookup_alter_eq, Hst).
  assert (Hadm1 : canAdmitInGroup name s1 = true) by (by unfold s1; rewrite (canAdmit_draining _ _ _ _ _ Hst)).
  cbn [drainLoop]. unfold drainGuard at 1. rewrite Hs1.
  change (activeCount (st <| draining := true |>)) with (activeCount st).
  change (maxConcurrent (st <| draining := true |>)) with (maxConcurrent st).
  change (queue (st <| draining := true |>)) with (queue st).
  rewrite Hroom, Hadm1, (ok_length _ (qi_queue _ Hs _ _ Hst)), El. cbn [length Nat.ltb Nat.leb andb].
  rewrite (proj2 (Z.ltb_lt 0 (Z.of_nat (S (length l))))) by lia. cbn [andb].
  rewrite Edq. cbn [head]. cbv beta iota. rewrite startEntry_inert by done.
  unfold drainGuard. cbn [Nat.ltb Nat.leb andb].
  assert (E : upd_lane r (λ st, st <| draining := false |>) (admitEntry name r e q s1) =
    admitEntry name r e q s).
  { unfold admitEntry. rewrite Hs1, (lane_at_lookup _ _ _ Hst). unfold s1, upd_lane.
    clear -Hst Hd. destruct s. simpl in *.
    f_equal. apply map_eq. intros r'. destruct (decide (r = r')) as [<-|Hne].
    - rewrite !lookup_alter_eq, Hst. simpl. destruct st. simpl in *. by subst.
    - by rewrite !lookup_alter_ne. }
  rewrite E. do 2 f_equal. unfold retireIdleScopedCommandLane.
  assert (Ha : lane_at r (admitEntry name r e q s) =
    st <| queue := q |> <| activeTaskIds ::= JsSet.add (nextTaskId s) |>)
    by (apply lane_at_lookup; simpl; by rewrite lookup_alter_eq, Hst).
  rewrite Ha. assert ((0 <? activeCount (st <| queue := q |>
    <| activeTaskIds ::= JsSet.add (nextTaskId s) |>))%Z = true) as ->; [|by rewrite orb_true_r].
  apply Z.ltb_lt. unfold activeCount, JsSet.size, JsSet.add. simpl.
  case_decide as Hin; [|rewrite length_app; simpl; lia].
  destruct (activeTaskIds st); [set_solver|simpl; lia].
Qed.

(** A drain of an idle lane that may not start anything changes nothing. *)
Lemma drain_none fuel name s st r :
  queue_inv s → JsMap.get name (lanes s) = Some r → laneHeap s !! r = Some st →
  draining st = false → queue_entries (queue st) ≠ [] →
  js_ltb (activeCount st) (maxConcurrent st) = false →
  drainLane run_on_wait (S fuel) name (Some 1) None s = Some (0, s).
Proof.
  intros Hs Hreg Hst Hd Hq Hroom. unfold drainLane, getLaneState.
  rewrite Hreg, (lane_at_lookup _ _ _ Hst), Hd.
  set (s1 := upd_lane r (λ st, st <| draining := true |>) s).
  assert (Hs1 : lane_at r s1 = st <| draining := true |>)
    by (apply lane_at_lookup; simpl; by rewrite lookup_alter_eq, Hst).
  cbn [drainLoop]. unfold drainGuard. rewrite Hs1.
  change (activeCount (st <| draining := true |>)) with (activeCount st).
  change (maxConcurrent (st <| draining := true |>)) with (maxConcurrent st).
  rewrite Hroom, andb_false_r. cbn [andb]. cbv iota beta.
  assert (E : upd_lane r (λ st, st <| draining := false |>) s1 = s).
  { unfold s1, upd_lane. clear -Hst Hd. destruct s. simpl in *. f_equal. apply map_eq. intros r'.
    destruct (decide (r = r')) as [<-|Hne].
    - rewrite !lookup_alter_eq, Hst. simpl. destruct st. simpl in *. by subst.
    - by rewrite !lookup_alter_ne. }
  rewrite E. do 2 f_equal. unfold retireIdleScopedCommandLane.
  rewrite (lane_at_lookup _ _ _ Hst), (ok_length _ (qi_queue _ Hs _ _ Hst)).
  assert ((0 <? Z.of_nat (length (queue_entries (queue st))))%Z = true) as ->.
  { destruct (queue_entries (queue st)); [done|]. apply Z.ltb_lt. simpl. lia. }
  by rewrite !orb_true_r.
Qed.

Lemma resolve_none_room name s st :
  find_lane name s = Some st → resolveLaneBlockReason name s = None →
  js_ltb (activeCount st) (maxConcurrent st) = true ∨ maxConcurrent st = NaN.
Proof.
  intros Hf. unfold resolveLaneBlockReason. rewrite Hf.
  destruct (js_geb (activeCount st) (maxConcurrent st)) eqn:E; [done|]. intros _.
  destruct (maxConcurrent st); simpl in *; try done; auto. left. lia.
Qed.

(** The arbiter stops only when no member can start: its choice is empty, or
    the chosen lane has a width that is not a number. *)
Definition group_settled (g : nat) (s : QueueState) : Prop :=
  resolveNextGroupLane g s = None ∨
  ∃ name st, resolveNextGroupLane g s = Some name ∧ find_lane name s = Some st ∧
    maxConcurrent st = NaN.

(** What the loop preserves. *)
Record arbitrated (g : nat) (s0 s : QueueState) : Prop := {
  ar_inv : queue_inv s;
  ar_registry : registry_ok s;
  ar_groups : laneGroups s = laneGroups s0 ∧ group_at g s = group_at g s0 ∧
    laneGroupByLane s = laneGroupByLane s0;
  ar_budget : (committed (group_at g s) (λ m, getMemberActiveCount m s) ≤
    budgetZ (group_at g s))%Z
}.

Lemma committed_ext g f h : (∀ m, f m = h m) → committed g f = committed g h.
Proof. intros Hfh. apply sumZ_ext. intros m _. by rewrite Hfh. Qed.

(** One admission decided by the arbiter keeps the group within its budget. *)
Lemma arbitrate_one fuel g s name :
  arbitrated g s s → JsMap.get (group (group_at g s)) (laneGroups s) = Some g →
  group_ok (group_at g s) → resolveNextGroupLane g s = Some name →
  (∃ st, find_lane name s = Some st ∧ maxConcurrent st = NaN) ∧
    drainLane run_on_wait (S (S fuel)) name (Some 1) None s = Some (0, s) ∨
  ∃ s', drainLane run_on_wait (S (S fuel)) name (Some 1) None s = Some (1, s') ∧
    arbitrated g s s' ∧
    S (length (queued_promises (laneHeap s'))) = length (queued_promises (laneHeap s)).
Proof.
  intros [Hs Hreg _ Hbud] Hg Hok Hsel.
  destruct (resolveNextGroupLane_best g s) as (sel & Hbest & E). rewrite Hsel in E.
  destruct sel as [c|]; [|done]. injection E as ->. destruct Hbest as (Hin & Hc & _).
  set (name := sel_lane c) in *. unfold groupCandidate in Hc.
  destruct (find_lane name s) as [st|] eqn:Ef; [|done].
  destruct (peekLaneQueue (queue st)) as [h|] eqn:Ep; [|done].
  destruct (draining st || _) eqn:G; [done|]. clear Hc.
  apply orb_false_iff in G as [Hdr Hres%bool_decide_eq_false%dec_stable].
  pose proof (resolve_none_room _ _ _ Ef Hres) as Hw. pose proof Ef as Ef0.
  unfold find_lane in Ef. destruct (JsMap.get name (lanes s)) as [r|] eqn:Er; [|done].
  destruct (qi_registered _ Hs _ _ Er) as (st' & Hst & Hname).
  simpl in Ef. rewrite (lane_at_lookup _ _ _ Hst) in Ef. injection Ef as ->.
  rewrite (peekLaneQueue_spec _ (qi_queue _ Hs _ _ Hst)) in Ep.
  assert (Hq : queue_entries (queue st) ≠ []) by (by destruct (queue_entries (queue st))).
  destruct Hw as [Hroom|Hnan].
  2:{ left. split; [by exists st|]. apply (drain_none _ _ _ st r); try done. by rewrite Hnan. }
  right.
  assert (Hadm : canAdmitInGroup name s = true) by (unfold canAdmitInGroup; by rewrite Hres).
  destruct (drain_one fuel name s st r Hs Er Hst Hdr Hq Hadm Hroom) as (e & q & Hdq & Hrun).
  rewrite Hrun. eexists. split; [done|].
  assert (Hn : names_lane name r s) by (exists st; done).
  assert (Hdq' : dequeueLaneQueue (queue (lane_at r s)) = (Some e, q))
    by (by rewrite (lane_at_lookup _ _ _ Hst)).
  destruct (admit_safe name r e q s Hn Hdq' Hs) as [Hs' _]. split.
  - split; [done| |done|].
    + destruct Hreg as [R1 R2 R3 R4]. by split.
    + change (group_at g (admitEntry name r e q s)) with (group_at g s).
      rewrite (committed_ext _ _ _ (λ m, admit_active name r e q s st m Hs Er Hst)).
      assert (Hlg : getLaneGroup name s = Some g)
        by (apply (getLaneGroup_spec name s Hreg); eauto).
      by apply (resolveLaneBlockReason_exact name g s Hlg Hok Hin Hbud).
  - destruct (dequeue_registered _ _ _ _ Hs Hdq') as (st2 & Hst2 & _ & _ & Hqe).
    assert (st2 = st) as -> by congruence. simpl.
    rewrite (queued_alter _ _ _ _ Hst), (queued_split _ _ _ Hst). unfold entry_promises at 1 2.
    rewrite Hqe. simpl. by rewrite !length_app.
Qed.

Lemma drainGroupLoop_spec fuel g s :
  arbitrated g s s → JsMap.get (group (group_at g s)) (laneGroups s) = Some g →
  group_ok (group_at g s) → EmptyString ∉ members (group_at g s) →
  length (queued_promises (laneHeap s)) + 2 < fuel →
  ∃ s', drainGroupLoop run_on_wait fuel g s = Some s' ∧ arbitrated g s s' ∧ group_settled g s'.
Proof.
  revert s. induction fuel as [|fuel IH]; intros s Ha Hg Hok Hne Hf; [lia|].
  destruct fuel as [|[|fuel]]; [lia|lia|].
  cbn [drainGroupLoop]. rewrite bool_decide_true by done.
  destruct (resolveNextGroupLane g s) as [name|] eqn:Hsel.
  2:{ exists s. split; [done|]. split; [done|by left]. }
  destruct (resolveNextGroupLane_best g s) as (sel & Hbest & E). rewrite Hsel in E.
  assert (Hname : String.eqb name EmptyString = false).
  { apply String.eqb_neq. intros ->. destruct sel as [c|]; [|done]. injection E as E.
    destruct Hbest as [Hin _]. by rewrite <-E in Hin. }
  rewrite Hname. destruct (arbitrate_one fuel g s name Ha Hg Hok Hsel) as
    [[(st & Hst & Hnan) Hrun]|(s1 & Hrun & Ha1 & Hlen)]; rewrite Hrun.
  - exists s. split; [done|]. split; [done|]. right. by exists name, st.
  - destruct (ar_groups _ _ _ Ha1) as (E1 & E2 & E3).
    assert (Hs1 : arbitrated g s1 s1) by (destruct Ha1 as [A1 A2 A3 A4]; split; try done).
    destruct (IH s1 Hs1) as (s' & Hrun' & Ha' & Hset).
    + by rewrite E1, E2.
    + by rewrite E2.
    + by rewrite E2.
    + lia.
    + exists s'. split; [done|]. split; [|done]. destruct Ha' as [B1 B2 (B3 & B4 & B5) B6].
      split; [done|done| |done]. split_and!; congruence.
Qed.

End group_drain.

(** ** Reachable states *)

Section reachable.
Context {G : Type} `{AdmissionGate G}.
Context (run_on_wait : nat → Z → Z → QueueState → QueueState).

(** One operation of the process; time passes and the admission gate changes
    on its own in between. *)
Inductive queue_step : G * QueueState → G * QueueState → Prop :=
| step_enqueue fuel gate c name tsk opts s s' p :
    enqueueCommandInLane run_on_wait fuel gate c name tsk opts s = Some (s', p) →
    queue_step (gate, s) (gate, s')
| step_taskEnds fuel gate id o s s' :
    taskEnds run_on_wait fuel id o s = Some s' → queue_step (gate, s) (gate, s')
| step_width fuel gate name w s s' :
    setCommandLaneConcurrency run_on_wait fuel name w s = Some s' →
    queue_step (gate, s) (gate, s')
| step_publish fuel gate config e s s' :
    publishLaneConfiguration run_on_wait fuel config s = Some (e, s') →
    queue_step (gate, s) (gate, s')
| step_clear gate name s : queue_step (gate, s) (gate, (clearCommandLane name s).1)
| step_resetLane fuel gate name s s' n :
    resetCommandLane run_on_wait fuel name s = Some (s', n) → queue_step (gate, s) (gate, s')
| step_resetAll fuel gate gate' s s' :
    resetAllLanes run_on_wait fuel gate s = Some (gate', s') → queue_step (gate, s) (gate', s')
| step_gate gate gate' s : queue_step (gate, s) (gate', s)
| step_clock gate d s : (0 ≤ d)%Z → queue_step (gate, s) (gate, s <| clock ::= λ n, (n + d)%Z |>).

Context (Hcb : ∀ h w q s, safe_step s (run_on_wait h w q s)).

Lemma queue_step_safe x y : queue_step x y → safe_step x.2 y.2.
Proof.
  destruct 1; simpl.
  - by eapply enqueueCommandInLane_safe.
  - by eapply taskEnds_safe.
  - by eapply setCommandLaneConcurrency_safe.
  - by eapply publishLaneConfiguration_safe.
  - apply clearCommandLane_safe.
  - by eapply resetCommandLane_safe.
  - by eapply resetAllLanes_safe.
  - reflexivity.
  - by apply lane_frame_safe.
Qed.

Lemma queue_steps_safe x y : rtc queue_step x y → safe_step x.2 y.2.
Proof. induction 1 as [|x y z Hxy _ IH]; [reflexivity|]. etrans; [by apply queue_step_safe|done]. Qed.

End reachable.

Lemma initial_queue_inv : queue_inv initialQueueState.
Proof. split; simpl; try done; try (apply NoDup_nil_2); set_solver. Qed.

(** Every promise handed out has a fresh identity and is accounted for once. *)
Definition promises_ok (s : QueueState) : Prop :=
  NoDup (promises s) ∧ ∀ p, p ∈ promises s → p < nextRef s.

Lemma promises_ok_extends s s' : extends s s' → promises_ok s → promises_ok s'.
Proof.
  intros [_ _ Hr (new & P & N & F)] [Hn Hf]. split.
  - rewrite P. apply NoDup_app. split; [done|]. split; [|done].
    intros p Hp Hp'. specialize (F p Hp). specialize (Hf p Hp'). lia.
  - intros p. rewrite P, elem_of_app. intros [Hp|Hp]; [by apply F|].
    specialize (Hf p Hp). lia.
Qed.

(** A group drain leaves the group within its budget and nothing startable. *)
Lemma drainReady_group run_on_wait fuel name state g s :
  (∀ h w q s, run_on_wait h w q s = s) →
  arbitrated g s s → getLaneGroup name s = Some g → g ∉ drainingGroups s →
  group_ok (group_at g s) → EmptyString ∉ members (group_at g s) →
  length (queued_promises (laneHeap s)) + 2 < fuel →
  ∃ s', drainReadyCommandLane run_on_wait fuel name state s = Some s' ∧
    arbitrated g s s' ∧ group_settled g s'.
Proof.
  intros Hinert Ha Hg Hnd Hok Hne Hf. unfold drainReadyCommandLane, drainCommandLaneGroup.
  rewrite Hg, bool_decide_false by done.
  set (s1 := s <| drainingGroups ::= JsSet.add g |>).
  assert (Hs1 : arbitrated g s1 s1).
  { destruct Ha as [A1 A2 A3 A4]. split; [| |done|done].
    - by apply (lane_frame_safe s s1).
    - destruct A2. by split. }
  apply (getLaneGroup_spec name s (ar_registry _ _ _ Ha)) in Hg as (n & Hn & _).
  destruct (rg_name _ (ar_registry _ _ _ Ha) _ _ Hn) as (_ & st & Hst & Hnm).
  destruct (drainGroupLoop_spec run_on_wait Hinert fuel g s1 Hs1) as (s' & Hrun & Ha' & Hset);
    try done.
  { unfold s1. simpl. unfold group_at. simpl. rewrite Hst. simpl. by rewrite Hnm. }
  rewrite Hrun. eexists. split; [done|].
  destruct Ha' as [B1 B2 B3 B4]. split; [split|]; try done.
  - by apply (lane_frame_safe s' _).
  - destruct B2. by split.
Qed.

(** ** Properties *)

(** in every reachable state, whatever the wait callbacks do through safe
    operations of the queue, the active ids of a lane are exactly its tasks in
    flight of the current generation, no id is used twice, lanes outside the
    registry hold no work, and every promise the queue handed out waits in one
    queue, belongs to one task in flight or was settled once. *)
Theorem command_queue_invariant {G} `{AdmissionGate G} run_on_wait (g0 g : G) s :
  (∀ h w q s, safe_step s (run_on_wait h w q s)) →
  rtc (queue_step run_on_wait) (g0, initialQueueState) (g, s) →
  queue_inv s ∧ promises_ok s.
Proof.
  intros Hcb Hsteps.
  destruct (queue_steps_safe run_on_wait Hcb _ _ Hsteps initial_queue_inv) as [Hs He].
  split; [done|]. apply (promises_ok_extends _ _ He). split; [apply NoDup_nil_2|].
  simpl. set_solver.
Qed.


(** the completion of a task from an earlier generation of its lane
    releases no slot and starts nothing: it only settles its own promise. *)
Theorem stale_completion_starts_nothing run_on_wait fuel t outcome s :
  queue_inv s → t ∈ running s → t_generation t ≠ generation (lane_at (t_state t) s) →
  taskEnds run_on_wait fuel (t_taskId t) outcome s =
    Some (s <| running ::= filter (λ t', t_taskId t' ≠ t_taskId t) |>
            <| settled ::= λ l, l ++ [(promise (t_entry t), outcome)] |>).
Proof.
  intros Hs Ht Hg. unfold taskEnds.
  destruct (List.find _ _) as [t'|] eqn:Ef.
  2:{ apply list_elem_of_In in Ht.
      pose proof (List.find_none _ _ Ef _ Ht) as Hf. simpl in Hf. lia. }
  apply find_task in Ef as [Ht' Hid].
  assert (t' = t) as ->.
  { pose proof (qi_running _ Hs) as Hn.
    apply list_elem_of_lookup_1 in Ht as [i Hi]. apply list_elem_of_lookup_1 in Ht' as [j Hj].
    assert (i = j) as ->; [|congruence]. eapply (NoDup_lookup _ i j (t_taskId t) Hn);
      rewrite list_lookup_fmap; [by rewrite Hi|by rewrite Hj; simpl; f_equal]. }
  unfold completeTask. change (lane_at (t_state t) (s <| running ::= _ |>))
    with (lane_at (t_state t) s). by rewrite (proj2 (Z.eqb_neq _ _) Hg).
Qed.

(** draining an ungrouped lane returns, starts exactly as many entries as
    its width leaves room for (none if the width is not a number), takes them
    in priority order, gives them consecutive fresh ids in the lane's current
    generation and leaves the rest queued. *)
Theorem drainLane_starts_in_order run_on_wait fuel name r st s :
  (∀ h w q s, run_on_wait h w q s = s) →
  queue_inv s → JsMap.get name (lanes s) = Some r → laneHeap s !! r = Some st →
  getLaneGroup name s = None → draining st = false → startable st < fuel →
  ∃ s' st', drainLane run_on_wait fuel name None None s = Some (startable st, s') ∧
    laneHeap s' !! r = Some st' ∧ draining st' = false ∧
    queue_entries (queue st') = drop (startable st) (queue_entries (queue st)) ∧
    activeTaskIds st' = activeTaskIds st ++ seqZ (nextTaskId s) (Z.of_nat (startable st)) ∧
    running s' = running s ++ started_tasks name r st (startable st) (nextTaskId s) ∧
    settled s' = settled s.
Proof.
  intros Hinert Hs Hreg Hst Hg Hd Hf. unfold drainLane, getLaneState.
  rewrite Hreg, (lane_at_lookup _ _ _ Hst), Hd.
  set (s1 := upd_lane r (λ st, st <| draining := true |>) s).
  assert (Hst1 : laneHeap s1 !! r = Some (st <| draining := true |>))
    by (simpl; by rewrite lookup_alter_eq, Hst).
  assert (Hids : ∀ id, id ∈ activeTaskIds st → (id < nextTaskId s1)%Z).
  { intros id Hin. apply (qi_slots _ Hs _ _ _ Hst) in Hin as (t & Ht & <- & _).
    by destruct (qi_task _ Hs t Ht). }
  destruct (drainLoop_spec run_on_wait Hinert fuel name r 0 s1 _ Hst1 (qi_queue _ Hs _ _ Hst) Hg
    Hids Hf) as (s2 & Hrun & [(st2 & L1 & L2 & L3 & L4 & L5 & L6 & L7 & L8) F2 F3 F4 F5 F6 F7]).
  change (startable (st <| draining := true |>)) with (startable st) in *.
  rewrite Hrun. eexists _, (st2 <| draining := false |>). split; [done|].
  assert (Hret : ∀ s0, laneHeap (retireIdleScopedCommandLane r s0) = laneHeap s0 ∧
    running (retireIdleScopedCommandLane r s0) = running s0 ∧
    settled (retireIdleScopedCommandLane r s0) = settled s0)
    by (intros s0; unfold retireIdleScopedCommandLane; by repeat case_match).
  destruct (Hret (upd_lane r (λ st, st <| draining := false |>) s2)) as (-> & -> & ->).
  simpl. rewrite lookup_alter_eq, L1. done.
Qed.

(** pumping a capacity group returns, keeps the group within its budget
    at every admission, and stops only when no member can start another task
    (or the best member's width is not a number). *)
Theorem group_drain_within_budget run_on_wait fuel name state g s :
  (∀ h w q s, run_on_wait h w q s = s) →
  queue_inv s → registry_ok s → getLaneGroup name s = Some g → g ∉ drainingGroups s →
  group_ok (group_at g s) → EmptyString ∉ members (group_at g s) →
  (committed (group_at g s) (λ m, getMemberActiveCount m s) ≤ budgetZ (group_at g s))%Z →
  length (queued_promises (laneHeap s)) + 2 < fuel →
  ∃ s', drainReadyCommandLane run_on_wait fuel name state s = Some s' ∧
    queue_inv s' ∧ registry_ok s' ∧ group_at g s' = group_at g s ∧
    (committed (group_at g s') (λ m, getMemberActiveCount m s') ≤ budgetZ (group_at g s'))%Z ∧
    group_settled g s'.
Proof.
  intros Hinert Hs Hr Hg Hnd Hok Hne Hb Hf.
  destruct (drainReady_group run_on_wait fuel name state g s Hinert) as (s' & Hrun & Ha & Hset);
    try done.
  exists s'. split; [done|]. destruct Ha as [A1 A2 (A3 & A4 & A5) A6]. done.
Qed.

(** a lane configuration is published atomically: if one of its groups is
    rejected nothing changes at all, and otherwise no task is started and no
    promise is touched before every width and every group is installed. *)
Theorem publishLaneConfiguration_atomic run_on_wait fuel config s :
  match validateGroups (cfg_groups config) with
  | inl e => publishLaneConfiguration run_on_wait fuel config s = Some (Some e, s)
  | inr validated =>
      let '(s1, touched) := installConfiguration config validated s in
      running s1 = running s ∧ settled s1 = settled s ∧ nextTaskId s1 = nextTaskId s ∧
      publishLaneConfiguration run_on_wait fuel config s =
        (λ s2, (None, s2)) <$> drainTouched run_on_wait fuel touched s1
  end.
Proof.
  unfold publishLaneConfiguration. destruct (validateGroups _) as [e|validated]; [done|].
  destruct (installConfiguration config validated s) as [s1 touched] eqn:E.
  assert (Hq : running s1 = running s ∧ settled s1 = settled s ∧ nextTaskId s1 = nextTaskId s).
  { assert (Hfold : ∀ {A} (f : QueueState * list string → A → QueueState * list string) l acc,
      (∀ acc a, running (f acc a).1 = running acc.1 ∧ settled (f acc a).1 = settled acc.1 ∧
        nextTaskId (f acc a).1 = nextTaskId acc.1) →
      running (foldl f acc l).1 = running acc.1 ∧ settled (foldl f acc l).1 = settled acc.1 ∧
        nextTaskId (foldl f acc l).1 = nextTaskId acc.1).
    { intros A f l. induction l as [|a l IH]; intros acc Hf; simpl; [done|].
      destruct (Hf acc a) as (<- & <- & <-). by apply IH. }
    change s1 with (s1, touched).1. rewrite <-E. unfold installConfiguration.
    destruct (Hfold _ installValidated validated
      (foldl clearGroup (foldl applyWidth (s, []) (cfg_lanes config)) (cfg_clearGroups config)))
      as (-> & -> & ->).
    { intros [s0 t] a. simpl.
      destruct (disownMembers_lanes (group a) (members a) s0) as (_ & _ & _).
      unfold installCommandLaneGroup. case_match;
      match goal with |- context [foldl (disownMember ?g) ?s ?m] =>
        destruct (disownMembers_lanes g m s) as (_ & _ & D1 & D2 & D3 & _) end; simpl;
        by rewrite D1, D2, D3. }
    destruct (Hfold _ clearGroup (cfg_clearGroups config) (foldl applyWidth (s, []) (cfg_lanes config)))
      as (-> & -> & ->); [intros [s0 t] a; unfold clearGroup; by case_match|].
    apply (Hfold _ applyWidth). intros [s0 t] a. unfold applyWidth, getLaneState.
    destruct (JsMap.get _ (lanes s0)); done. }
  destruct Hq as (H1 & H2 & H3). by split_and!.
Qed.

(** once the gateway drains for a restart every enqueue is rejected at
    once, leaves the lanes untouched and settles the caller's promise with the
    draining error; after the reset the gate admits root work again. *)
Theorem enqueue_rejected_while_draining {G} `{AdmissionGateLaws G} run_on_wait fuel (gate : G)
    c name tsk opts s :
  enqueueCommandInLane run_on_wait fuel (markGatewayDraining gate) c name tsk opts s =
    Some (s <| nextRef ::= S |> <| settled ::= λ l, l ++ [(nextRef s, RejectedDraining)] |>,
          nextRef s) ∧
  isGatewayDraining (markGatewayDraining gate) = true ∧
  isGatewayDraining (gate_reset gate) = false ∧
  gate_subordinateClosed None (gate_reset gate) = false.
Proof.
  unfold enqueueCommandInLane, markGatewayDraining, isGatewayDraining.
  rewrite gate_mark_closed, gate_mark_closes, gate_reset_opens, gate_reset_subordinate. done.
Qed.

Lemma clearLoop_spec fuel name r s st :
  laneHeap s !! r = Some st → queue_ok (queue st) → length (queue_entries (queue st)) < fuel →
  ∃ q, queue_ok q ∧ queue_entries q = [] ∧
    clearLoop fuel name r s =
      (upd_lane r (λ st, st <| queue := q |>) s)
        <| settled ::= λ l, l ++ ((λ e, (promise e, RejectedCleared name)) <$>
                                    queue_entries (queue st)) |>.
Proof.
  revert s st. induction fuel as [|fuel IH]; intros s st Hst Hok Hf; [lia|]. cbn [clearLoop].
  rewrite (lane_at_lookup _ _ _ Hst). pose proof (dequeueLaneQueue_spec _ Hok) as Hd.
  destruct (dequeueLaneQueue (queue st)) as [e q]. destruct Hd as (-> & Hokq & Hq).
  destruct (queue_entries (queue st)) as [|e l] eqn:El; simpl in Hq |- *.
  - exists (queue st). split; [done|]. split; [done|]. unfold upd_lane. destruct s. simpl in *.
    rewrite app_nil_r. f_equal. apply map_eq. intros r'. destruct (decide (r = r')) as [<-|Hne].
    + rewrite lookup_alter_eq, Hst. by destruct st.
    + by rewrite lookup_alter_ne.
  - set (s1 := (upd_lane r (λ st, st <| queue := q |>) s)
      <| settled ::= λ l, l ++ [(promise e, RejectedCleared name)] |>).
    assert (Hst1 : laneHeap s1 !! r = Some (st <| queue := q |>))
      by (simpl; by rewrite lookup_alter_eq, Hst).
    destruct (IH s1 _ Hst1 Hokq) as (q' & H1 & H2 & H3).
    { simpl in *. rewrite Hq. lia. }
    exists q'. split; [done|]. split; [done|]. fold s1. unfold s1 in H3 |- *.
    etrans; [exact H3|]. simpl. rewrite Hq. unfold upd_lane. simpl.
    clear -Hst. destruct s. simpl in *. f_equal; [|by rewrite <-app_assoc].
    apply map_eq. intros r'. destruct (decide (r = r')) as [<-|Hne].
    + by rewrite !lookup_alter_eq, Hst.
    + by rewrite !lookup_alter_ne.
Qed.

(** clearing a lane rejects every queued entry, in the order the lane
    would have started them, reports how many there were, and leaves the tasks
    in flight alone. *)
Theorem clearCommandLane_rejects_all name r st s :
  queue_inv s → JsMap.get (normalizeLane name) (lanes s) = Some r → laneHeap s !! r = Some st →
  let '(s', removed) := clearCommandLane name s in
  removed = Z.of_nat (length (queue_entries (queue st))) ∧
  settled s' = settled s ++ ((λ e, (promise e, RejectedCleared (normalizeLane name))) <$>
                               queue_entries (queue st)) ∧
  running s' = running s ∧
  ∃ q, queue_ok q ∧ queue_entries q = [] ∧ laneHeap s' !! r = Some (st <| queue := q |>).
Proof.
  intros Hs Hreg Hst. unfold clearCommandLane. rewrite Hreg, (lane_at_lookup _ _ _ Hst).
  rewrite (ok_length _ (qi_queue _ Hs _ _ Hst)).
  destruct (clearLoop_spec (S (Z.to_nat (Z.of_nat (length (queue_entries (queue st))))))
    (normalizeLane name) r s st Hst (qi_queue _ Hs _ _ Hst)) as (q & H1 & H2 & ->); [lia|].
  split; [done|]. split; [done|]. split; [done|]. exists q. split; [done|]. split; [done|].
  simpl. by rewrite lookup_alter_eq, Hst.
Qed.

(** a task marker is current exactly while its task is in flight in the
    registered lane of that name and in the lane's current generation. *)
Theorem marker_current_iff_owns_slot marker s :
  queue_inv s → normalizeLane (marker_lane marker) = marker_lane marker →
  isCommandLaneTaskMarkerCurrent (Some marker) s = true ↔
    ∃ r st t, JsMap.get (marker_lane marker) (lanes s) = Some r ∧ laneHeap s !! r = Some st ∧
      t ∈ running s ∧ t_state t = r ∧ t_lane t = marker_lane marker ∧
      t_taskId t = marker_taskId marker ∧ t_generation t = marker_generation marker ∧
      generation st = marker_generation marker.
Proof.
  intros Hs Hn. unfold isCommandLaneTaskMarkerCurrent, find_lane. rewrite Hn.
  destruct (JsMap.get (marker_lane marker) (lanes s)) as [r|] eqn:Er; simpl.
  2:{ split; [done|]. by intros (r & st & t & ? & _). }
  destruct (qi_registered _ Hs _ _ Er) as (st & Hst & Hl). rewrite (lane_at_lookup _ _ _ Hst).
  rewrite andb_true_iff, Z.eqb_eq. unfold JsSet.has. rewrite bool_decide_eq_true.
  rewrite (qi_slots _ Hs _ _ _ Hst). split.
  - intros (Hg & t & Ht & Hid & Hr & Htg). exists r, st, t. split_and!; try done; [|congruence].
    destruct (qi_task _ Hs t Ht) as (_ & st' & Hst' & Hl' & _). congruence.
  - intros (r' & st' & t & Hr' & Hst' & Ht & Htr & _ & Hid & Htg & Hg).
    assert (r' = r) as -> by congruence. assert (st' = st) as -> by congruence.
    split; [done|]. exists t. split_and!; congruence.
Qed.

(** ** Witnesses *)

Definition sample_opts : CommandQueueEnqueueOptions :=
  mkOpts (Some 0%Z) (Some 1) None None None None None None.
(** A wait callback that calls back into the queue. *)
Definition sample_callback (_ : nat) (_ _ : Z) (s : QueueState) : QueueState :=
  (clearCommandLane "main" s).1.
Definition no_callback (_ : nat) (_ _ : Z) (s : QueueState) : QueueState := s.

Lemma sample_callback_safe h w q s : safe_step s (sample_callback h w q s).
Proof. apply clearCommandLane_safe. Qed.

Definition enqueued (name : string) (s : QueueState) : QueueState :=
  match enqueueCommandInLane sample_callback 10 WorkAdmission.initialState None name 7 sample_opts s with
  | Some (s, _) => s
  | None => s
  end.

Lemma enqueued_step name s :
  is_Some (enqueueCommandInLane sample_callback 10 WorkAdmission.initialState None name 7 sample_opts s) →
  queue_step sample_callback (WorkAdmission.initialState, s)
    (WorkAdmission.initialState, enqueued name s).
Proof.
  intros [[s' p] Hs]. unfold enqueued. rewrite Hs. by eapply step_enqueue.
Qed.

Lemma enqueued_inv name s : queue_inv s → queue_inv (enqueued name s).
Proof.
  intros Hs. unfold enqueued.
  destruct (enqueueCommandInLane _ _ _ _ _ _ _ _) as [[s' p]|] eqn:E; [|done].
  exact (proj1 (enqueueCommandInLane_safe _ sample_callback_safe _ _ _ _ _ _ _ _ _ E Hs)).
Qed.

(** One task runs in [main], the second entry waits. *)
Definition sample_queue : QueueState := enqueued "main" (enqueued "main" initialQueueState).

Lemma sample_queue_inv : queue_inv sample_queue.
Proof. by apply enqueued_inv, enqueued_inv, initial_queue_inv. Qed.

Lemma sample_step1 : queue_step sample_callback (WorkAdmission.initialState, initialQueueState)
  (WorkAdmission.initialState, enqueued "main" initialQueueState).
Proof. apply enqueued_step. vm_compute. eauto. Qed.

Lemma sample_step2 : queue_step sample_callback
  (WorkAdmission.initialState, enqueued "main" initialQueueState)
  (WorkAdmission.initialState, sample_queue).
Proof. apply enqueued_step. vm_compute. eauto. Qed.

Lemma command_queue_invariant_witness : queue_inv sample_queue ∧ promises_ok sample_queue.
Proof.
  exact (command_queue_invariant sample_callback WorkAdmission.initialState
    WorkAdmission.initialState sample_queue sample_callback_safe
    (rtc_l _ _ _ _ sample_step1 (rtc_once _ _ sample_step2))).
Defined.


(** The lane is reset while its task is still in flight. *)
Definition sample_reset : QueueState := (resetPass sample_queue).1.

Lemma stale_completion_starts_nothing_witness :
  ∃ t, t ∈ running sample_reset ∧
    taskEnds no_callback 10 (t_taskId t) (Resolved 1) sample_reset =
      Some (sample_reset <| running ::= filter (λ t', t_taskId t' ≠ t_taskId t) |>
              <| settled ::= λ l, l ++ [(promise (t_entry t), Resolved 1)] |>).
Proof.
  assert (Hs : queue_inv sample_reset) by (apply resetPass_safe, sample_queue_inv).
  destruct (running sample_reset) as [|t l] eqn:E; [vm_compute in E; discriminate|].
  exists t. split; [left|].
  apply (stale_completion_starts_nothing no_callback 10 t (Resolved 1) sample_reset Hs).
  - rewrite E. left.
  - vm_compute in E. injection E as <- <-. vm_compute. discriminate.
Defined.

(** The lane is widened without a drain. *)
Definition sample_wide : QueueState := setWidth "main" (jsnum_of_Z 3) 0 sample_queue.

Lemma drainLane_starts_in_order_witness :
  ∃ s' st', drainLane no_callback 5 "main" None None sample_wide = Some (1, s') ∧
    laneHeap s' !! 0 = Some st' ∧ draining st' = false.
Proof.
  assert (Hs : queue_inv sample_wide) by (apply setWidth_safe, sample_queue_inv).
  assert (H1 : JsMap.get "main" (lanes sample_wide) = Some 0) by (vm_compute; reflexivity).
  assert (H2 : laneHeap sample_wide !! 0 = Some (lane_at 0 sample_wide))
    by (vm_compute; reflexivity).
  assert (H3 : getLaneGroup "main" sample_wide = None) by (vm_compute; reflexivity).
  assert (H4 : draining (lane_at 0 sample_wide) = false) by (vm_compute; reflexivity).
  assert (H5 : startable (lane_at 0 sample_wide) < 5) by (vm_compute; lia).
  assert (H6 : startable (lane_at 0 sample_wide) = 1) by (vm_compute; reflexivity).
  destruct (drainLane_starts_in_order no_callback 5 "main" 0 (lane_at 0 sample_wide) sample_wide
    (λ _ _ _ _, eq_refl) Hs H1 H2 H3 H4 H5) as (s' & st' & R1 & R2 & R3 & _).
  rewrite H6 in R1. exists s', st'. split; [exact R1|]. split; [exact R2|exact R3].
Defined.

Lemma sample_grouped_inv : queue_inv sample_grouped.
Proof.
  unfold sample_grouped, newGroup. apply install_safe.
  apply (lane_frame_safe initialQueueState); [done..|simpl; lia|apply initial_queue_inv].
Qed.

Lemma group_drain_within_budget_witness :
  ∃ s', drainReadyCommandLane no_callback 5 "hook-dispatch" None sample_grouped = Some s' ∧
    group_settled 0 s'.
Proof.
  assert (H1 : getLaneGroup "hook-dispatch" sample_grouped = Some 0) by (vm_compute; reflexivity).
  assert (H2 : 0 ∉ drainingGroups sample_grouped) by (vm_compute; set_solver).
  assert (H3 : group_at 0 sample_grouped = sample_group) by (vm_compute; reflexivity).
  assert (H4 : group_ok (group_at 0 sample_grouped)) by (rewrite H3; apply sample_group_ok).
  assert (H5 : EmptyString ∉ members (group_at 0 sample_grouped))
    by (rewrite H3; simpl; set_solver).
  assert (H6 : (committed (group_at 0 sample_grouped) (λ m, getMemberActiveCount m sample_grouped)
    ≤ budgetZ (group_at 0 sample_grouped))%Z) by (vm_compute; discriminate).
  assert (H7 : length (queued_promises (laneHeap sample_grouped)) + 2 < 5) by (vm_compute; lia).
  destruct (group_drain_within_budget no_callback 5 "hook-dispatch" None 0 sample_grouped
    (λ _ _ _ _, eq_refl) sample_grouped_inv sample_grouped_ok H1 H2 H4 H5 H6 H7)
    as (s' & R1 & _ & _ & _ & _ & R2).
  exists s'. split; [exact R1|exact R2].
Defined.

Lemma enqueue_rejected_while_draining_witness :
  isGatewayDraining (markGatewayDraining WorkAdmission.initialState) = true.
Proof.
  exact (proj1 (proj2 (enqueue_rejected_while_draining no_callback 5 WorkAdmission.initialState
    None "main" 7 sample_opts initialQueueState))).
Defined.

Lemma clearCommandLane_rejects_all_witness :
  (clearCommandLane "main" sample_queue).2 =
    Z.of_nat (length (queue_entries (queue (lane_at 0 sample_queue)))).
Proof.
  assert (H1 : JsMap.get (normalizeLane "main") (lanes sample_queue) = Some 0)
    by (vm_compute; reflexivity).
  assert (H2 : laneHeap sample_queue !! 0 = Some (lane_at 0 sample_queue))
    by (vm_compute; reflexivity).
  pose proof (clearCommandLane_rejects_all "main" 0 (lane_at 0 sample_queue) sample_queue
    sample_queue_inv H1 H2) as H.
  destruct (clearCommandLane "main" sample_queue) as [s' n]. destruct H as [H _]. exact H.
Defined.

Lemma marker_current_iff_owns_slot_witness :
  isCommandLaneTaskMarkerCurrent (Some (mkMarker "main" 1 0)) sample_queue = true ↔
    ∃ r st t, JsMap.get "main" (lanes sample_queue) = Some r ∧
      laneHeap sample_queue !! r = Some st ∧
      t ∈ running sample_queue ∧ t_state t = r ∧ t_lane t = "main" ∧
      t_taskId t = 1%Z ∧ t_generation t = 0%Z ∧ generation st = 0%Z.
Proof.
  assert (H : normalizeLane "main" = "main") by (vm_compute; reflexivity).
  exact (marker_current_iff_owns_slot (mkMarker "main" 1 0) sample_queue sample_queue_inv H).
Defined.
