(* ===== verification/TaskTimeout.v ===== *)
(** * Task timeouts

    The race of a lane task against its timeout
    ([runQueueEntryTask] of [src/process/command-queue.ts]): the progress-aware
    budget, the grace after an abort and the release signal.

    Time is the argument of the events.  Timers fire at or after their
    deadline; a signal dispatches its abort event once. *)
From Stdlib Require Import QArith.QArith QArith.Qround.
From S2P Require Import Prelude NumberCoercion.
Local Open Scope Z_scope.

(** What the entry asks for, after [normalizeTaskTimeoutMs]: [taskTimeoutMs],
    the grace, and which callbacks and signals it has.  [progressAt] is the
    caller's [taskTimeoutProgressAtMs] at a given time. *)
Record TimeoutOptions := mkTimeoutOptions {
  o_timeoutMs : Z;
  o_graceMs : option Z;
  o_progress : option (Z → option jsnum);
  o_abort : bool;
  o_release : bool
}.

Inductive TimeoutCause :=
| TaskBudget
| ProgressIdle (idleMs : Z)
| AbortGrace (graceMs : Z)
| ReleaseSignal.

Inductive RaceOutcome :=
| TaskSettled
| TimedOut (cause : TimeoutCause) (elapsedMs : Z).

Inductive TimerCallback :=
| CheckProgress
| AbortExpired (abortStartedAtMs : Z).

(** The locals of the race: the clock, the armed timer with its deadline, the
    listeners still attached and the first settlement. *)
Record RaceState := mkRace {
  startedAtMs : Z;
  nowMs : Z;
  timeoutHandle : option (Z * TimerCallback);
  abortListener : bool;
  releaseListener : bool;
  race : option RaceOutcome
}.
#[export] Instance eta_Race : Eta RaceState := λ s,
  mkRace (startedAtMs s) (nowMs s) (timeoutHandle s) (abortListener s) (releaseListener s) (race s).

Section race.
Context (o : TimeoutOptions).

(** [normalizeTaskTimeoutMs(entry.taskTimeoutAbortGraceMs) ?? taskTimeoutMs] *)
Definition taskTimeoutAbortGraceMs : Z := default (o_timeoutMs o) (o_graceMs o).

Definition readLastProgressAtMs (s : RaceState) : Z :=
  match o_progress o with
  | None => startedAtMs s
  | Some progress =>
      match progress (nowMs s) with
      | Some (Fin q) => if Qlt_le_dec 0 q then startedAtMs s `max` Qfloor q else startedAtMs s
      | _ => startedAtMs s
      end
  end.

(** The first settlement wins. *)
Definition settle (r : RaceOutcome) (s : RaceState) : RaceState :=
  match race s with
  | None => s <| race := Some r |>
  | Some _ => s
  end.

Definition rejectForTimeout (cause : TimeoutCause) (s : RaceState) : RaceState :=
  settle (TimedOut cause (0 `max` (nowMs s - startedAtMs s))) s.

(** [armTimer] for a positive delay. *)
Definition setTimer (delayMs : Z) (callback : TimerCallback) (s : RaceState) : RaceState :=
  s <| timeoutHandle := Some (nowMs s + delayMs, callback) |>.

Definition armProgressTimeout (s : RaceState) : RaceState :=
  let elapsedMs := 0 `max` (nowMs s - readLastProgressAtMs s) in
  let remainingMs := o_timeoutMs o - elapsedMs in
  if remainingMs <=? 0 then
    rejectForTimeout
      (match o_progress o with Some _ => ProgressIdle elapsedMs | None => TaskBudget end) s
  else setTimer remainingMs CheckProgress s.

Definition abortExpired (abortStartedAtMs : Z) (s : RaceState) : RaceState :=
  rejectForTimeout (AbortGrace (0 `max` (nowMs s - abortStartedAtMs))) s.

Definition armAbortTimeout (s : RaceState) : RaceState :=
  if taskTimeoutAbortGraceMs <=? 0 then
    abortExpired (nowMs s) (s <| timeoutHandle := None |>)
  else setTimer taskTimeoutAbortGraceMs (AbortExpired (nowMs s)) s.

Definition onRelease (s : RaceState) : RaceState :=
  rejectForTimeout ReleaseSignal (s <| releaseListener := false |>).

(** The executor of the timeout promise, at time [t], for signals that may be
    aborted already. *)
Definition startRace (t : Z) (aborted released : bool) : RaceState :=
  let s := mkRace t t None false false None in
  if o_release o && released then onRelease s
  else if o_abort o && aborted then armAbortTimeout s
  else
    (armProgressTimeout s) <| abortListener := o_abort o |> <| releaseListener := o_release o |>.

Inductive RaceEvent :=
| TaskSettles (t : Z)
| TimerFires (t : Z)
| AbortFires (t : Z)
| ReleaseFires (t : Z).

Definition event_time (ev : RaceEvent) : Z :=
  match ev with
  | TaskSettles t | TimerFires t | AbortFires t | ReleaseFires t => t
  end.

(** After the race is settled the [finally] block clears the timer and removes
    the listeners, so nothing happens any more. *)
Definition raceEvent (s : RaceState) (ev : RaceEvent) : RaceState :=
  match race s with
  | Some _ => s <| timeoutHandle := None |> <| abortListener := false |>
                <| releaseListener := false |>
  | None =>
      let s := s <| nowMs := nowMs s `max` event_time ev |> in
      match ev with
      | TaskSettles _ => settle TaskSettled s
      | TimerFires _ =>
          match timeoutHandle s with
          | Some (deadline, callback) =>
              if deadline <=? nowMs s then
                let s := s <| timeoutHandle := None |> in
                match callback with
                | CheckProgress => armProgressTimeout s
                | AbortExpired t0 => abortExpired t0 s
                end
              else s
          | None => s
          end
      | AbortFires _ =>
          if abortListener s then armAbortTimeout (s <| abortListener := false |>) else s
      | ReleaseFires _ => if releaseListener s then onRelease s else s
      end
  end.

Definition runRace (t : Z) (aborted released : bool) (evs : list RaceEvent) : RaceState :=
  foldl raceEvent (startRace t aborted released) evs.

(** ** Invariant *)

(** While the race is open a timer is armed, its deadline is at most one budget
    (or one grace) ahead, and an abort timer gives the whole grace; a timeout
    is reported only for its reason. *)
Record race_inv (s : RaceState) : Prop := {
  rv_clock : startedAtMs s ≤ nowMs s;
  rv_open : race s = None → ∃ deadline callback, timeoutHandle s = Some (deadline, callback) ∧
    match callback with
    | CheckProgress => deadline ≤ nowMs s + o_timeoutMs o
    | AbortExpired t0 => deadline = t0 + taskTimeoutAbortGraceMs ∧ startedAtMs s ≤ t0 ≤ nowMs s
    end;
  rv_settled cause elapsed : race s = Some (TimedOut cause elapsed) →
    elapsed = nowMs s - startedAtMs s ∧
    match cause with
    | TaskBudget => o_progress o = None ∧ o_timeoutMs o ≤ elapsed
    | ProgressIdle idle => o_progress o ≠ None ∧ o_timeoutMs o ≤ idle ≤ elapsed
    | AbortGrace grace => o_abort o = true ∧ taskTimeoutAbortGraceMs ≤ grace ≤ elapsed
    | ReleaseSignal => o_release o = true
    end;
  rv_abort : abortListener s = true → o_abort o = true;
  rv_release : releaseListener s = true → o_release o = true;
  rv_abort_timer d t0 : timeoutHandle s = Some (d, AbortExpired t0) → o_abort o = true
}.

Context (Hbudget : 1 ≤ o_timeoutMs o) (Hgrace : ∀ g, o_graceMs o = Some g → 1 ≤ g).

Lemma grace_positive : 1 ≤ taskTimeoutAbortGraceMs.
Proof.
  unfold taskTimeoutAbortGraceMs. destruct (o_graceMs o) eqn:E; simpl; [by apply Hgrace|done].
Qed.

Lemma readLast_ge s : startedAtMs s ≤ readLastProgressAtMs s.
Proof. unfold readLastProgressAtMs. repeat case_match; lia. Qed.

Lemma armProgress_inv s :
  race s = None → startedAtMs s ≤ nowMs s →
  (abortListener s = true → o_abort o = true) → (releaseListener s = true → o_release o = true) →
  (∀ d t0, timeoutHandle s = Some (d, AbortExpired t0) → o_abort o = true) →
  race_inv (armProgressTimeout s).
Proof.
  intros Hr Hc Ha Hl Ht. pose proof (readLast_ge s) as Hread. unfold armProgressTimeout.
  destruct (Z.leb_spec (o_timeoutMs o - 0 `max` (nowMs s - readLastProgressAtMs s)) 0).
  - unfold rejectForTimeout, settle. rewrite Hr. split; simpl; try done.
    intros cause elapsed [= <- <-]. split; [lia|].
    assert (Hno : o_progress o = None → readLastProgressAtMs s = startedAtMs s)
      by (intros E; unfold readLastProgressAtMs; by rewrite E).
    destruct (o_progress o); [split; [done|lia]|]. specialize (Hno eq_refl). split; [done|]. lia.
  - split; simpl; try done; [|by rewrite Hr]. intros _. eexists _, _. split; [done|]. simpl. lia.
Qed.

Lemma armAbort_inv s :
  race s = None → startedAtMs s ≤ nowMs s → o_abort o = true →
  (abortListener s = true → o_abort o = true) → (releaseListener s = true → o_release o = true) →
  race_inv (armAbortTimeout s).
Proof.
  intros Hr Hc Hab Ha Hl. pose proof grace_positive. unfold armAbortTimeout.
  destruct (Z.leb_spec taskTimeoutAbortGraceMs 0); [lia|].
  split; simpl; try done; [|by rewrite Hr]. intros _. eexists _, _. split; [done|]. simpl. lia.
Qed.

Lemma startRace_inv t aborted released : race_inv (startRace t aborted released).
Proof.
  unfold startRace. destruct (o_release o && released) eqn:E1.
  { apply andb_true_iff in E1 as [E1 _]. unfold onRelease, rejectForTimeout, settle. simpl.
    split; simpl; try done. intros cause elapsed [= <- <-]. split; [lia|done]. }
  destruct (o_abort o && aborted) eqn:E2.
  { apply andb_true_iff in E2 as [E2 _]. by apply armAbort_inv. }
  assert (Hp : race_inv (armProgressTimeout (mkRace t t None false false None)))
    by (apply armProgress_inv; simpl; done || lia).
  destruct Hp as [H1 H2 H3 H4 H5 H6]. split; [exact H1|exact H2|exact H3|by simpl|by simpl|exact H6].
Qed.

Lemma raceEvent_inv s ev : race_inv s → race_inv (raceEvent s ev).
Proof.
  intros [H1 H2 H3 H4 H5 H6]. unfold raceEvent. destruct (race s) as [r|] eqn:Er.
  { split; simpl; try done; [by rewrite Er|]. by rewrite Er. }
  destruct (H2 eq_refl) as (d & cb & Ht & Hcb).
  set (s1 := s <| nowMs := nowMs s `max` event_time ev |>).
  assert (Hs1 : race_inv s1).
  { split; simpl; try done; [lia| |by rewrite Er]. intros _. exists d, cb. split; [done|].
    destruct cb; lia. }
  destruct ev as [t|t|t|t]; fold s1.
  - unfold settle. change (race s1) with (race s). rewrite Er. destruct Hs1. by split.
  - change (timeoutHandle s1) with (timeoutHandle s). rewrite Ht.
    destruct (Z.leb_spec d (nowMs s1)); [|done]. destruct Hs1 as [I1 I2 I3 I4 I5 I6].
    destruct cb as [|t0]; [by apply armProgress_inv|].
    unfold abortExpired, rejectForTimeout, settle. simpl. rewrite Er. split; simpl; try done.
    intros cause elapsed [= <- <-]. specialize (H6 _ _ Ht). simpl in *. split; [lia|].
    split; [done|]. lia.
  - change (abortListener s1) with (abortListener s). destruct (abortListener s) eqn:Ea; [|done].
    destruct Hs1 as [I1 I2 I3 I4 I5 I6]. apply armAbort_inv; simpl; auto.
  - change (releaseListener s1) with (releaseListener s).
    destruct (releaseListener s) eqn:El; [|done]. destruct Hs1 as [I1 I2 I3 I4 I5 I6].
    unfold onRelease, rejectForTimeout, settle. simpl. rewrite Er. split; simpl; try done.
    intros cause elapsed [= <- <-]. simpl in *. split; [lia|auto].
Qed.

Lemma runRace_inv t aborted released evs : race_inv (runRace t aborted released evs).
Proof.
  unfold runRace. pose proof (startRace_inv t aborted released) as H.
  revert H. generalize (startRace t aborted released).
  induction evs as [|ev evs IH]; intros s H; simpl; [done|]. by apply IH, raceEvent_inv.
Qed.

End race.

(** ** Properties *)

(** the race of a task against its timeout is sound and never stuck: a
    timeout is reported only after the whole budget without progress, the
    whole grace after an abort, or a release signal, and with the true elapsed
    time; and as long as neither side has settled, a timer is armed whose
    deadline is at most one budget, or one grace after the abort, away. *)
Theorem task_race_sound o t aborted released evs :
  1 ≤ o_timeoutMs o → (∀ g, o_graceMs o = Some g → 1 ≤ g) →
  let s := runRace o t aborted released evs in
  match race s with
  | Some (TimedOut cause elapsed) =>
      elapsed = nowMs s - startedAtMs s ∧
      match cause with
      | TaskBudget => o_progress o = None ∧ o_timeoutMs o ≤ elapsed
      | ProgressIdle idle => o_progress o ≠ None ∧ o_timeoutMs o ≤ idle ≤ elapsed
      | AbortGrace grace => o_abort o = true ∧ taskTimeoutAbortGraceMs o ≤ grace ≤ elapsed
      | ReleaseSignal => o_release o = true
      end
  | Some TaskSettled => True
  | None => ∃ deadline callback, timeoutHandle s = Some (deadline, callback) ∧
      match callback with
      | CheckProgress => deadline ≤ nowMs s + o_timeoutMs o
      | AbortExpired t0 => deadline = t0 + taskTimeoutAbortGraceMs o ∧ startedAtMs s ≤ t0 ≤ nowMs s
      end
  end.
Proof.
  intros Hb Hg s. destruct (runRace_inv o Hb Hg t aborted released evs) as [H1 H2 H3 _ _ _].
  fold s in H1, H2, H3. destruct (race s) as [[|cause elapsed]|] eqn:Er; [done| |by apply H2].
  by apply H3.
Qed.

Definition sample_race : TimeoutOptions := mkTimeoutOptions 100 (Some 30) None true true.

Lemma task_race_sound_witness :
  race (runRace sample_race 1000 false false [AbortFires 1050; TimerFires 1081]) =
    Some (TimedOut (AbortGrace 31) 81) ∧ 81 = 1081 - 1000.
Proof.
  split; [reflexivity|].
  destruct (task_race_sound sample_race 1000 false false [AbortFires 1050; TimerFires 1081])
    as [H _]; [simpl; lia|intros g [= <-]; lia|exact H].
Defined.

(** a task whose abort signal is already aborted when it starts does not
    listen to its release signal: however often the release signal fires, only
    the task itself or the whole abort grace ends the race. *)
Theorem release_ignored_after_early_abort o t evs :
  1 ≤ o_timeoutMs o → (∀ g, o_graceMs o = Some g → 1 ≤ g) → o_abort o = true →
  Forall (λ ev, ∃ t', ev = ReleaseFires t') evs →
  race (runRace o t true false evs) = None.
Proof.
  intros Hb Hg Hab Hevs. unfold runRace.
  assert (Hs : race (startRace o t true false) = None ∧
    releaseListener (startRace o t true false) = false).
  { unfold startRace. rewrite andb_false_r, Hab. simpl. unfold armAbortTimeout.
    pose proof (grace_positive o Hb Hg). by destruct (Z.leb_spec (taskTimeoutAbortGraceMs o) 0); [lia|]. }
  revert Hs. generalize (startRace o t true false). induction Hevs as [|ev evs [t' ->] _ IH];
    intros s [H1 H2]; [done|]. cbn [foldl]. apply IH. unfold raceEvent. rewrite H1. simpl.
  rewrite H2. done.
Qed.

Lemma release_ignored_after_early_abort_witness :
  race (runRace sample_race 1000 true false [ReleaseFires 1001; ReleaseFires 1002]) = None.
Proof.
  apply (release_ignored_after_early_abort sample_race 1000 [ReleaseFires 1001; ReleaseFires 1002]).
  - simpl. lia.
  - intros g [= <-]. lia.
  - reflexivity.
  - repeat constructor; eexists; reflexivity.
Defined.
