(* ===== verification/Utf16.v ===== *)
(** * UTF-16 strings

    JavaScript strings as lists of code units, white space trimming and the
    surrogate-safe slices ([packages/normalization-core/src/utf16-slice.ts]). *)
From S2P Require Import Prelude.
Local Open Scope Z_scope.

Abbreviation jsstr := (list Z).

(** A string literal of the source, below code unit 256. *)
Definition lit (s : string) : jsstr :=
  (λ c, Z.of_nat (Ascii.nat_of_ascii c)) <$> String.list_ascii_of_string s.

Definition isHighSurrogate (u : Z) : bool := (55296 <=? u) && (u <=? 56319).
Definition isLowSurrogate (u : Z) : bool := (56320 <=? u) && (u <=? 57343).

Definition unit_at (text : jsstr) (i : Z) : option Z :=
  if i <? 0 then None else text !! Z.to_nat i.
(** [pred(text.charCodeAt(i))]; NaN, the value out of range, satisfies nothing. *)
Definition unit_is (p : Z → bool) (text : jsstr) (i : Z) : bool :=
  match unit_at text i with
  | Some u => p u
  | None => false
  end.

Definition js_length (text : jsstr) : Z := Z.of_nat (length text).

(** [input.slice(from, to)] for non-negative bounds. *)
Definition js_slice (text : jsstr) (from to : Z) : jsstr :=
  take (Z.to_nat (to - from)) (drop (Z.to_nat from) text).

Definition avoidTrailingHighSurrogateBreak (text : jsstr) (start stop : Z) : Z :=
  if (stop <=? start) || (js_length text <=? stop)
     || negb (unit_is isHighSurrogate text (stop - 1))
     || negb (unit_is isLowSurrogate text stop)
  then stop
  else
    let adjusted := stop - 1 in
    if start <? adjusted then adjusted else stop + 1.

Definition sliceUtf16Safe (input : jsstr) (start : Z) (stop : option Z) : jsstr :=
  let len := js_length input in
  let from := if start <? 0 then (len + start) `max` 0 else start `min` len in
  let to :=
    match stop with
    | None => len
    | Some e => if e <? 0 then (len + e) `max` 0 else e `min` len
    end in
  if to <=? from then []
  else
    let from' :=
      if (0 <? from) && (from <? len) && unit_is isLowSurrogate input from
         && unit_is isHighSurrogate input (from - 1)
      then from + 1 else from in
    let to' :=
      if (0 <? to) && (to <? len) && unit_is isHighSurrogate input (to - 1)
         && unit_is isLowSurrogate input to
      then to - 1 else to in
    js_slice input from' to'.

(** The limit of every caller modelled is integral, so [Math.floor] is the identity. *)
Definition truncateUtf16Safe (input : jsstr) (maxLen : Z) : jsstr :=
  let limit := 0 `max` maxLen in
  if js_length input <=? limit then input else sliceUtf16Safe input 0 (Some limit).

(** The code units [\s] matches, the white space of [trim]. *)
Definition is_space_unit (u : Z) : bool :=
  (9 <=? u) && (u <=? 13) || (u =? 32) || (u =? 160) || (u =? 5760)
  || (8192 <=? u) && (u <=? 8202) || (u =? 8232) || (u =? 8233) || (u =? 8239)
  || (u =? 8287) || (u =? 12288) || (u =? 65279).

Fixpoint trimStart (text : jsstr) : jsstr :=
  match text with
  | u :: r => if is_space_unit u then trimStart r else text
  | [] => []
  end.
Definition trimEnd (text : jsstr) : jsstr := reverse (trimStart (reverse text)).
Definition js_trim16 (text : jsstr) : jsstr := trimEnd (trimStart text).

(** [parts.join(sep)] *)
Fixpoint js_join (sep : jsstr) (parts : list jsstr) : jsstr :=
  match parts with
  | [] => []
  | [p] => p
  | p :: r => p ++ sep ++ js_join sep r
  end.

Definition truncateWithMarker (value : jsstr) (max : Z) (marker : jsstr) (reserve : Z)
    (trim_end : bool) : jsstr :=
  if js_length value <=? max then value
  else
    let prefix := truncateUtf16Safe value (max - reserve) in
    (if trim_end then trimEnd prefix else prefix) ++ marker.

(** ** Well-formed strings *)

(** Every surrogate is half of a pair. *)
Fixpoint well_formed (text : jsstr) : bool :=
  match text with
  | [] => true
  | u :: r =>
      if isHighSurrogate u then
        match r with
        | v :: r' => isLowSurrogate v && well_formed r'
        | [] => false
        end
      else negb (isLowSurrogate u) && well_formed r
  end.

Lemma high_not_low u : isHighSurrogate u = true → isLowSurrogate u = false.
Proof. unfold isHighSurrogate, isLowSurrogate. lia. Qed.

(** The cut between [l1] and [l2] does not split a pair. *)
Definition clean_cut (l1 l2 : jsstr) : Prop :=
  match last l1, head l2 with
  | Some u, Some v => isHighSurrogate u && isLowSurrogate v = false
  | _, _ => True
  end.

Lemma well_formed_cut_len n l1 l2 :
  (length l1 < n)%nat → well_formed (l1 ++ l2) = true → clean_cut l1 l2 →
  well_formed l1 = true ∧ well_formed l2 = true.
Proof.
  revert l1. induction n as [|n IH]; intros l1 Hn; [lia|].
  destruct l1 as [|u [|v r]]; [done| |].
  - unfold clean_cut. simpl. destruct (isHighSurrogate u) eqn:Eh; simpl.
    + destruct l2 as [|w l2]; [done|]. simpl. intros [Hl _]%andb_true_iff Hc. congruence.
    + by intros [-> Hw]%andb_true_iff _.
  - intros Hw Hc.
    assert (Hc' : clean_cut (v :: r) l2) by exact Hc.
    assert (Hc'' : clean_cut r l2).
    { unfold clean_cut in *. destruct r as [|w r]; [done|]. exact Hc. }
    simpl in Hw |- *. destruct (isHighSurrogate u) eqn:Eh.
    + apply andb_true_iff in Hw as [-> Hw]. simpl in Hn.
      destruct (IH r ltac:(lia) Hw Hc'') as [-> ?]. done.
    + apply andb_true_iff in Hw as [-> Hw].
      destruct (IH (v :: r) ltac:(simpl in *; lia) Hw Hc') as [H1 H2].
      split; [exact H1|done].
Qed.

Lemma well_formed_cut l1 l2 :
  well_formed (l1 ++ l2) = true → clean_cut l1 l2 →
  well_formed l1 = true ∧ well_formed l2 = true.
Proof. apply (well_formed_cut_len (S (length l1))). lia. Qed.

(** A cut at position [i], read with [charCodeAt]. *)
Lemma clean_cut_at text i :
  0 ≤ i → unit_is isHighSurrogate text (i - 1) && unit_is isLowSurrogate text i = false →
  clean_cut (take (Z.to_nat i) text) (drop (Z.to_nat i) text).
Proof.
  intros Hi Hu. unfold clean_cut. destruct (last (take (Z.to_nat i) text)) as [u|] eqn:El; [|done].
  destruct (head (drop (Z.to_nat i) text)) as [v|] eqn:Eh; [|done].
  rewrite last_lookup in El. rewrite head_lookup, lookup_drop, Nat.add_0_r in Eh.
  assert (Hlt : (Z.to_nat i < length text)%nat) by (by eapply lookup_lt_Some).
  rewrite length_take, Nat.min_l in El by lia.
  destruct (Z.to_nat i) as [|k] eqn:Ek; [done|].
  rewrite lookup_take_lt in El by (simpl; lia). simpl in El.
  unfold unit_is, unit_at in Hu.
  assert (E1 : Z.to_nat (i - 1) = k) by lia.
  destruct (Z.ltb_spec (i - 1) 0); [lia|]. destruct (Z.ltb_spec i 0); [lia|].
  by rewrite E1, Ek, El, Eh in Hu.
Qed.

Lemma well_formed_drop text i :
  0 ≤ i → well_formed text = true →
  unit_is isHighSurrogate text (i - 1) && unit_is isLowSurrogate text i = false →
  well_formed (drop (Z.to_nat i) text) = true.
Proof.
  intros Hi Hw Hu. rewrite <-(take_drop (Z.to_nat i) text) in Hw.
  by destruct (well_formed_cut _ _ Hw (clean_cut_at _ _ Hi Hu)).
Qed.

Lemma well_formed_take text i :
  0 ≤ i → well_formed text = true →
  unit_is isHighSurrogate text (i - 1) && unit_is isLowSurrogate text i = false →
  well_formed (take (Z.to_nat i) text) = true.
Proof.
  intros Hi Hw Hu. rewrite <-(take_drop (Z.to_nat i) text) in Hw.
  by destruct (well_formed_cut _ _ Hw (clean_cut_at _ _ Hi Hu)).
Qed.

Lemma unit_is_drop p text f i :
  0 ≤ f → 0 ≤ i → unit_is p (drop (Z.to_nat f) text) i = unit_is p text (f + i).
Proof.
  intros Hf Hi. unfold unit_is, unit_at.
  destruct (Z.ltb_spec i 0); [lia|]. destruct (Z.ltb_spec (f + i) 0); [lia|].
  rewrite lookup_drop, Z2Nat.inj_add by lia. done.
Qed.

Lemma unit_is_outside p text i : i < 0 ∨ js_length text ≤ i → unit_is p text i = false.
Proof.
  unfold unit_is, unit_at, js_length. intros Hi.
  destruct (Z.ltb_spec i 0); [done|]. rewrite lookup_ge_None_2 by lia. done.
Qed.

Lemma unit_is_low_high text i :
  unit_is isLowSurrogate text i = true → unit_is isHighSurrogate text i = false.
Proof.
  unfold unit_is. destruct (unit_at text i) as [u|]; [|done].
  destruct (isHighSurrogate u) eqn:E; [|done]. rewrite high_not_low by done. done.
Qed.

(** Position [i] does not lie between the halves of a pair. *)
Definition splits_pair (text : jsstr) (i : Z) : bool :=
  unit_is isHighSurrogate text (i - 1) && unit_is isLowSurrogate text i.

Lemma splits_pair_outside text i : i ≤ 0 ∨ js_length text ≤ i → splits_pair text i = false.
Proof.
  unfold splits_pair. intros [H|H].
  - rewrite unit_is_outside by lia. done.
  - rewrite (unit_is_outside isLowSurrogate) by lia. apply andb_false_r.
Qed.

Lemma splits_pair_pred text i : splits_pair text i = true → splits_pair text (i - 1) = false.
Proof.
  unfold splits_pair. intros [H _]%andb_true_iff. destruct (unit_is isLowSurrogate text (i - 1)) eqn:E.
  - apply unit_is_low_high in E. congruence.
  - apply andb_false_r.
Qed.

Lemma splits_pair_succ text i : splits_pair text i = true → splits_pair text (i + 1) = false.
Proof.
  unfold splits_pair. intros [_ H]%andb_true_iff. apply unit_is_low_high in H.
  replace (i + 1 - 1) with i by lia. by rewrite H.
Qed.

Lemma well_formed_slice text f t :
  0 ≤ f → well_formed text = true → splits_pair text f = false → splits_pair text t = false →
  well_formed (js_slice text f t) = true.
Proof.
  intros Hf Hw H1 H2. unfold js_slice. destruct (decide (t ≤ f)) as [Htf|Htf].
  { replace (Z.to_nat (t - f)) with 0%nat by lia. by rewrite take_0. }
  apply well_formed_take; [lia|by apply well_formed_drop|].
  rewrite !unit_is_drop by lia. unfold splits_pair in H2.
  replace (f + (t - f - 1)) with (t - 1) by lia. by replace (f + (t - f)) with t by lia.
Qed.

Lemma length_js_slice text f t :
  0 ≤ f → f ≤ t → js_length (js_slice text f t) ≤ t - f.
Proof. unfold js_length, js_slice. rewrite length_take. lia. Qed.

(** The bounds after the surrogate adjustment. *)
Lemma slice_from_safe text i :
  splits_pair text (if (0 <? i) && (i <? js_length text) && unit_is isLowSurrogate text i
                       && unit_is isHighSurrogate text (i - 1) then i + 1 else i) = false.
Proof.
  destruct (splits_pair text i) eqn:E.
  - destruct (decide (i ≤ 0 ∨ js_length text ≤ i)) as [Ho|Ho].
    { rewrite splits_pair_outside in E by done. done. }
    pose proof (splits_pair_succ _ _ E) as Hs. unfold splits_pair in E.
    apply andb_true_iff in E as [-> ->].
    destruct (Z.ltb_spec 0 i); [|lia]. destruct (Z.ltb_spec i (js_length text)); [|lia]. done.
  - unfold splits_pair in E. rewrite <-andb_assoc, (andb_comm (unit_is isLowSurrogate _ _)), E.
    by rewrite andb_false_r.
Qed.

Lemma slice_to_safe text i :
  splits_pair text (if (0 <? i) && (i <? js_length text) && unit_is isHighSurrogate text (i - 1)
                       && unit_is isLowSurrogate text i then i - 1 else i) = false.
Proof.
  destruct (splits_pair text i) eqn:E.
  - destruct (decide (i ≤ 0 ∨ js_length text ≤ i)) as [Ho|Ho].
    { rewrite splits_pair_outside in E by done. done. }
    pose proof (splits_pair_pred _ _ E) as Hs. unfold splits_pair in E.
    apply andb_true_iff in E as [-> ->].
    destruct (Z.ltb_spec 0 i); [|lia]. destruct (Z.ltb_spec i (js_length text)); [|lia]. done.
  - unfold splits_pair in E. rewrite <-andb_assoc, E. by rewrite andb_false_r.
Qed.

Lemma sliceUtf16Safe_well_formed input start stop :
  well_formed input = true → well_formed (sliceUtf16Safe input start stop) = true.
Proof.
  intros Hw. unfold sliceUtf16Safe. cbv zeta.
  set (from := if start <? 0 then _ else _). set (to := match stop with Some _ => _ | None => _ end).
  assert (0 ≤ from). { unfold from, js_length. destruct (Z.ltb_spec start 0); lia. }
  destruct (to <=? from); [done|].
  apply well_formed_slice; [|done|apply slice_from_safe|apply slice_to_safe].
  destruct (_ && _); lia.
Qed.

(** Every boundary the chunker chooses keeps pairs whole and makes progress. *)
Lemma avoidTrailingHighSurrogateBreak_safe text start stop :
  start < stop → 
  let cut := avoidTrailingHighSurrogateBreak text start stop in
  splits_pair text cut = false ∧ start < cut ∧ stop - 1 ≤ cut ≤ stop + 1.
Proof.
  intros Hs. unfold avoidTrailingHighSurrogateBreak. cbv zeta.
  destruct (Z.leb_spec stop start); [lia|]. simpl.
  destruct (Z.leb_spec (js_length text) stop) as [Ho|Ho]; simpl.
  { split; [apply splits_pair_outside; lia|lia]. }
  destruct (unit_is isHighSurrogate text (stop - 1)) eqn:E1; simpl;
    [destruct (unit_is isLowSurrogate text stop) eqn:E2; simpl|].
  - assert (E : splits_pair text stop = true) by (unfold splits_pair; by rewrite E1, E2).
    destruct (Z.ltb_spec start (stop - 1)).
    + split; [by apply splits_pair_pred|lia].
    + split; [by apply splits_pair_succ|lia].
  - unfold splits_pair. rewrite E1, E2. split; [done|lia].
  - unfold splits_pair. rewrite E1. split; [done|lia].
Qed.

Lemma truncateUtf16Safe_length input maxLen :
  js_length (truncateUtf16Safe input maxLen) ≤ 0 `max` maxLen.
Proof.
  unfold truncateUtf16Safe. cbv zeta. destruct (Z.leb_spec (js_length input) (0 `max` maxLen)); [done|].
  unfold sliceUtf16Safe. cbv zeta. simpl.
  replace (0 `min` js_length input) with 0 by lia.
  destruct (Z.ltb_spec (0 `max` maxLen) 0); [lia|].
  rewrite (Z.min_l (0 `max` maxLen)) by lia.
  destruct (Z.leb_spec (0 `max` maxLen) 0); simpl; [unfold js_length; simpl; lia|].
  set (b := _ && _). unfold js_slice, js_length. rewrite length_take. destruct b; lia.
Qed.

Lemma truncateUtf16Safe_well_formed input maxLen :
  well_formed input = true → well_formed (truncateUtf16Safe input maxLen) = true.
Proof.
  intros Hw. unfold truncateUtf16Safe. cbv zeta. case_match; [done|].
  by apply sliceUtf16Safe_well_formed.
Qed.

Lemma unit_at_prefix text n i :
  0 ≤ i < Z.of_nat n → unit_at (take n text) i = unit_at text i.
Proof.
  intros Hi. unfold unit_at. destruct (Z.ltb_spec i 0); [done|].
  rewrite lookup_take_lt by lia. done.
Qed.

(** Truncation loses at most one unit more than the limit demands, and only
    where keeping it would split a pair. *)
Lemma truncateUtf16Safe_prefix input maxLen :
  0 ≤ maxLen → maxLen < js_length input →
  truncateUtf16Safe input maxLen =
    take (Z.to_nat (if splits_pair input maxLen then maxLen - 1 else maxLen)) input.
Proof.
  intros H0 Hl. unfold truncateUtf16Safe. cbv zeta. rewrite Z.max_r by lia.
  destruct (Z.leb_spec (js_length input) maxLen); [lia|].
  unfold sliceUtf16Safe. cbv zeta. simpl. replace (0 `min` js_length input) with 0 by lia.
  destruct (Z.ltb_spec maxLen 0); [lia|]. rewrite (Z.min_l maxLen) by lia.
  destruct (Z.leb_spec maxLen 0); simpl.
  - replace maxLen with 0 by lia. rewrite splits_pair_outside by lia. by rewrite take_0.
  - unfold js_slice. rewrite drop_0. destruct (Z.ltb_spec 0 maxLen); [|lia].
    destruct (Z.ltb_spec maxLen (js_length input)); [|lia]. simpl.
    fold (splits_pair input maxLen). by rewrite Z.sub_0_r.
Qed.

(** Truncating a well-formed string to a limit below its length gives a
    well-formed string no longer than the limit, which is the prefix of that
    length or, where that prefix would end in half a surrogate pair, the
    prefix one unit shorter.  Slicing a well-formed string anywhere, with
    negative or missing bounds too, never leaves half a pair at either end. *)
Theorem truncation_keeps_pairs_whole input maxLen :
  well_formed input = true → 0 ≤ maxLen < js_length input →
  let out := truncateUtf16Safe input maxLen in
  well_formed out = true ∧ js_length out ≤ maxLen ∧
  out = take (Z.to_nat (if splits_pair input maxLen then maxLen - 1 else maxLen)) input ∧
  ∀ start stop, well_formed (sliceUtf16Safe input start stop) = true.
Proof.
  intros Hw [H0 Hl] out. split_and!.
  - by apply truncateUtf16Safe_well_formed.
  - pose proof (truncateUtf16Safe_length input maxLen). unfold out. lia.
  - by apply truncateUtf16Safe_prefix.
  - intros. by apply sliceUtf16Safe_well_formed.
Qed.

(** U+1F600 between two letters, cut in the middle of the pair. *)
Example truncation_keeps_pairs_whole_witness :
  truncateUtf16Safe [97; 55357; 56832; 98] 2 = [97] ∧
  well_formed (truncateUtf16Safe [97; 55357; 56832; 98] 2) = true.
Proof.
  destruct (truncation_keeps_pairs_whole [97; 55357; 56832; 98] 2) as (H1 & _ & H2 & _);
    [by vm_compute|by vm_compute|].
  split; [rewrite H2; by vm_compute|exact H1].
Defined.
