(* ===== verification/QueueHelpers.v ===== *)
(** * Capped queues

    The helpers that queue owners share: the overflow policy with its summary,
    debounced draining, the delivery of one item and the collect prompt
    ([src/utils/queue-helpers.ts]).  The callbacks of a queue owner are
    functions of the item; what they are called with is part of the result. *)
From S2P Require Import Prelude JsCollections NumberCoercion Utf16.
Local Open Scope Z_scope.

Inductive QueueDropPolicy :=
| DropSummarize
| DropOld
| DropNew.

#[export] Instance QueueDropPolicy_eq_dec : EqDecision QueueDropPolicy.
Proof. solve_decision. Defined.

Record QueueSummaryState := {
  droppedCount : Z;
  summaryLines : list jsstr;
}.

Record CappedQueue (T : Type) := {
  items : list T;
  cap : jsint;
  dropPolicy : QueueDropPolicy;
  summary : QueueSummaryState;
}.
Arguments items {T} _.
Arguments cap {T} _.
Arguments dropPolicy {T} _.
Arguments summary {T} _.

#[export] Instance CappedQueue_eta T : Eta (CappedQueue T) := λ q,
  {| items := q.(items); cap := q.(cap); dropPolicy := q.(dropPolicy); summary := q.(summary) |}.

(** [-x] *)
Definition js_neg (x : jsint) : jsint :=
  match x with
  | Fin z => Fin (- z)
  | PosInf => NegInf
  | NegInf => PosInf
  | NaN => NaN
  end.

(** ** Text *)

Definition newline : jsstr := [10].

Definition previewQueueSummaryPrompt (state : QueueSummaryState) (noun : jsstr)
    (title : option jsstr) : option jsstr :=
  if state.(droppedCount) <=? 0 then None
  else
    let title' := default
      (lit "[Queue overflow] Dropped " ++ lit (show_int state.(droppedCount)) ++ lit " " ++ noun
         ++ (if state.(droppedCount) =? 1 then [] else lit "s") ++ lit " due to cap.") title in
    Some (js_join newline (title' ::
      match state.(summaryLines) with
      | [] => []
      | lines => lit "Summary:" :: ((λ line, lit "- " ++ line) <$> lines)
      end)).

(** [text.replace(/\s+/g, " ")]; [after_space] holds inside a run. *)
Fixpoint collapse_spaces (after_space : bool) (text : jsstr) : jsstr :=
  match text with
  | [] => []
  | u :: r =>
      if is_space_unit u
      then (if after_space then [] else [32]) ++ collapse_spaces true r
      else u :: collapse_spaces false r
  end.

Definition buildQueueSummaryLine (text : jsstr) (limit : Z) : jsstr :=
  let cleaned := js_trim16 (collapse_spaces false text) in
  if js_length cleaned <=? limit then cleaned
  else trimEnd (truncateUtf16Safe cleaned (0 `max` (limit - 1))) ++ [8230].

Definition summaryLineLimit : Z := 160.

(** ** Settings *)

Record QueueRuntimeTarget (TMode : Type) := {
  mode : TMode;
  debounceMs : jsint;
  targetCap : jsint;
  targetDropPolicy : QueueDropPolicy;
}.
Arguments mode {TMode} _.
Arguments debounceMs {TMode} _.
Arguments targetCap {TMode} _.
Arguments targetDropPolicy {TMode} _.

Record QueueRuntimeSettings (TMode : Type) := {
  setMode : TMode;
  setDebounceMs : option jsint;
  setCap : option jsnum;
  setDropPolicy : option QueueDropPolicy;
}.
Arguments setMode {TMode} _.
Arguments setDebounceMs {TMode} _.
Arguments setCap {TMode} _.
Arguments setDropPolicy {TMode} _.

(** [x > 0] on doubles. *)
Definition jsnum_pos (x : jsnum) : bool :=
  match x with
  | Fin q => negb (QArith_base.Qle_bool q (QArith_base.inject_Z 0))
  | PosInf => true
  | NegInf | NaN => false
  end.

Definition applyQueueRuntimeSettings {TMode} (target : QueueRuntimeTarget TMode)
    (settings : QueueRuntimeSettings TMode) : QueueRuntimeTarget TMode :=
  {| mode := settings.(setMode);
     debounceMs :=
       match settings.(setDebounceMs) with
       | Some d => js_max 0 d
       | None => target.(debounceMs)
       end;
     targetCap :=
       match settings.(setCap) with
       | Some c => if jsnum_pos c then js_floor c else target.(targetCap)
       | None => target.(targetCap)
       end;
     targetDropPolicy := default target.(targetDropPolicy) settings.(setDropPolicy) |}.

(** ** The queue *)
Section queue.
Context {T : Type} `{EqDecision T}.
Implicit Types (q : CappedQueue T) (item next : T).

Definition shouldSkipQueueItem item (queued : list T)
    (dedupe : option (T → list T → bool)) : bool :=
  match dedupe with
  | None => false
  | Some f => f item queued
  end.

(** [inFlight] is an insertion-ordered set, absent for some owners. *)
Definition countPendingQueueItems (queued : list T) (inFlight : option (list T)) : Z :=
  match inFlight with
  | None | Some [] => Z.of_nat (length queued)
  | Some s => foldl (λ count item, count + (if JsSet.has item s then 0 else 1)) 0 queued
  end.

(** The indices of the victims, found from the front. *)
Fixpoint collectVictims (keep : T → bool) (dropCount : jsint) (index : nat)
    (queued : list T) (victimIndices : list nat) : list nat :=
  match queued with
  | [] => victimIndices
  | item :: r =>
      if keep item then collectVictims keep dropCount (S index) r victimIndices
      else
        let victimIndices' := victimIndices ++ [index] in
        if js_eqb dropCount (Z.of_nat (length victimIndices')) then victimIndices'
        else collectVictims keep dropCount (S index) r victimIndices'
  end.

(** [items.splice(i, 1)]: what remains and what is removed. *)
Definition splice1 (i : nat) (queued : list T) : list T * list T :=
  (take i queued ++ drop (S i) queued, take 1 (drop i queued)).

(** From the last index to the first, so that earlier indices stay valid. *)
Definition removeVictims (victimIndices : list nat) (queued : list T) : list T * list T :=
  foldr (λ i '(queued', dropped),
    let '(queued'', removed) := splice1 i queued' in (queued'', removed ++ dropped))
    (queued, []) victimIndices.

(** [while (lines.length > limit) lines.shift()]: what remains and what is elided. *)
Fixpoint elideLines (limit : jsint) (lines : list jsstr) : list jsstr * list jsstr :=
  match lines with
  | [] => ([], [])
  | line :: r =>
      if js_lt limit (Fin (Z.of_nat (length lines))) then
        let '(kept, elided) := elideLines limit r in (kept, line :: elided)
      else (lines, [])
  end.

Record DropResult := {
  admitted : bool;
  queueAfter : CappedQueue T;
  onDrop : option (list T);
  onSummaryElide : option (list jsstr);
}.

Definition summarizeDropped (summarize : T → jsstr) (limit : jsint) (dropped : list T)
    (s : QueueSummaryState) : QueueSummaryState * list jsstr :=
  let s' := foldl (λ s item,
      {| droppedCount := s.(droppedCount) + 1;
         summaryLines := s.(summaryLines) ++ [buildQueueSummaryLine (summarize item) summaryLineLimit] |})
      s dropped in
  let '(kept, elided) := elideLines limit s'.(summaryLines) in
  ({| droppedCount := s'.(droppedCount); summaryLines := kept |}, elided).

Definition applyQueueDropPolicy q (summarize : T → jsstr) (summaryLimit : option jsint)
    (inFlight : option (list T)) (isProtected : option (T → bool)) : DropResult :=
  let unchanged b :=
    {| admitted := b; queueAfter := q; onDrop := None; onSummaryElide := None |} in
  let pendingCount := countPendingQueueItems q.(items) inFlight in
  if js_geb 0 q.(cap) || js_ltb pendingCount q.(cap) then unchanged true
  else if decide (q.(dropPolicy) = DropNew) then unchanged false
  else
    let dropCount := js_add (Fin (pendingCount + 1)) (js_neg q.(cap)) in
    let keep item :=
      (match inFlight with Some s => JsSet.has item s | None => false end)
      || (match isProtected with Some f => f item | None => false end) in
    let victimIndices := collectVictims keep dropCount 0 q.(items) [] in
    if js_ltb (Z.of_nat (length victimIndices)) dropCount then unchanged false
    else
      let '(items', dropped) := removeVictims victimIndices q.(items) in
      let q' := q <| items := items' |> in
      if decide (q.(dropPolicy) = DropSummarize) then
        let limit := js_max 0 (default q.(cap) summaryLimit) in
        let '(summary', elided) := summarizeDropped summarize limit dropped q.(summary) in
        {| admitted := true; queueAfter := q' <| summary := summary' |>;
           onDrop := Some dropped;
           onSummaryElide := match elided with [] => None | _ => Some elided end |}
      else {| admitted := true; queueAfter := q'; onDrop := Some dropped; onSummaryElide := None |}.

(** [items.splice(items.indexOf(item), 1)] when it is there. *)
Fixpoint removeFirst item (queued : list T) : list T :=
  match queued with
  | [] => []
  | x :: r => if decide (x = item) then r else x :: removeFirst item r
  end.

Definition removeQueuedItemsByRef (queued processed : list T) : list T :=
  foldl (λ queued item, removeFirst item queued) queued processed.

(** *** Delivery of one item

    [drainNextQueueItem] up to the call of [run] and from its settlement on;
    in between the caller's queue goes on changing. *)
Record DrainQueueItemOptions := {
  useInFlight : bool;
  shouldRestoreOnError : option (T → bool);
}.

Definition drainBegin (queued : list T) (options : DrainQueueItemOptions)
    (inFlight : list T) : option (T * list T) :=
  match queued with
  | [] => None
  | next :: _ => Some (next, if options.(useInFlight) then JsSet.add next inFlight else inFlight)
  end.

Inductive RunOutcome :=
| RunResolved
| RunRejected.

Record DrainEnd := {
  queuedAfter : list T;
  inFlightAfter : list T;
  onDiscard : option T;
  (** [true] when the promise resolves with [true], [false] when it rejects. *)
  drainResolved : bool;
}.

Definition drainEnd (queued : list T) (options : DrainQueueItemOptions) (inFlight : list T)
    next (outcome : RunOutcome) : DrainEnd :=
  let inFlight' := if options.(useInFlight) then JsSet.delete next inFlight else inFlight in
  match outcome with
  | RunResolved =>
      {| queuedAfter := removeQueuedItemsByRef queued [next]; inFlightAfter := inFlight';
         onDiscard := None; drainResolved := true |}
  | RunRejected =>
      let restore :=
        match options.(shouldRestoreOnError) with
        | Some f => f next
        | None => true
        end in
      if restore then
        {| queuedAfter := queued; inFlightAfter := inFlight'; onDiscard := None;
           drainResolved := false |}
      else
        {| queuedAfter := removeQueuedItemsByRef queued [next]; inFlightAfter := inFlight';
           onDiscard := Some next; drainResolved := false |}
  end.

Inductive CollectStep :=
| CollectSkipped
| CollectEmpty
| CollectRuns (next : T) (inFlight : list T).

(** Up to the call of [run]; the flag is [collectState.forceIndividualCollect]. *)
Definition drainCollectQueueStep (forceIndividualCollect isCrossChannel : bool)
    (queued : list T) (options : DrainQueueItemOptions) (inFlight : list T) : bool * CollectStep :=
  if negb forceIndividualCollect && negb isCrossChannel
  then (forceIndividualCollect, CollectSkipped)
  else
    let force := if isCrossChannel then true else forceIndividualCollect in
    (force,
     match drainBegin queued options inFlight with
     | None => CollectEmpty
     | Some (next, inFlight') => CollectRuns next inFlight'
     end).

Definition buildCollectPrompt (title : jsstr) (queued : list T) (summary : option jsstr)
    (renderItem : T → nat → jsstr) : jsstr :=
  js_join (newline ++ newline)
    (title ::
     (match summary with
      | None | Some [] => []
      | Some s => [s]
      end) ++ imap (λ idx item, renderItem item idx) queued).

Record ResolvedKey := {
  key : option string;
  cross : bool;
}.

Fixpoint crossChannelLoop (resolveKey : T → ResolvedKey) (queued : list T)
    (keys : list string) : bool :=
  match queued with
  | [] => (1 <? JsSet.size keys)
  | item :: r =>
      let resolved := resolveKey item in
      if resolved.(cross) then true
      else
        match resolved.(key) with
        | None | Some EmptyString => crossChannelLoop resolveKey r keys
        | Some k => crossChannelLoop resolveKey r (JsSet.add k keys)
        end
  end.

Definition hasCrossChannelItems (queued : list T) (resolveKey : T → ResolvedKey) : bool :=
  crossChannelLoop resolveKey queued [].

End queue.
Arguments DropResult : clear implicits.
Arguments DrainQueueItemOptions : clear implicits.
Arguments DrainEnd : clear implicits.
Arguments CollectStep : clear implicits.

(** ** One drain per queue *)

Definition beginQueueDrain {Q} (draining : Q → bool) (setDraining : Q → Q)
    (map : list (string * Q)) (key : string) : option Q * list (string * Q) :=
  match JsMap.get key map with
  | Some queue =>
      if draining queue then (None, map)
      else (Some (setDraining queue), JsMap.set key (setDraining queue) map)
  | None => (None, map)
  end.

(** ** Debounce *)

Record DebounceWait := {
  settled : bool;
  (** The delay of the pending timer. *)
  timer : option jsint;
  listening : bool;
}.

#[export] Instance DebounceWait_eta : Eta DebounceWait := λ w,
  {| settled := w.(settled); timer := w.(timer); listening := w.(listening) |}.

Definition debounceFinish (w : DebounceWait) : DebounceWait :=
  if w.(settled) then w
  else {| settled := true; timer := None; listening := false |}.

(** [check]; [lastEnqueuedAt] is read from the queue at that moment. *)
Definition debounceCheck (quietMs : jsint) (lastEnqueuedAt now : Z) (aborted : bool)
    (w : DebounceWait) : DebounceWait :=
  if aborted then debounceFinish w
  else
    let since := now - lastEnqueuedAt in
    if js_geb since quietMs then debounceFinish w
    else w <| timer := Some (js_sub quietMs since) |>.

Definition waitForQueueDebounce (fastTest : bool) (queueDebounceMs : jsint)
    (lastEnqueuedAt now : Z) (aborted : bool) : DebounceWait :=
  let done := {| settled := true; timer := None; listening := false |} in
  let quietMs := js_max 0 queueDebounceMs in
  if fastTest || js_geb 0 quietMs || aborted then done
  else debounceCheck quietMs lastEnqueuedAt now aborted
         {| settled := false; timer := None; listening := true |}.

Inductive DebounceEvent :=
| DebounceTimer (lastEnqueuedAt now : Z) (aborted : bool)
| DebounceAbort.

Definition debounceEvent (quietMs : jsint) (e : DebounceEvent) (w : DebounceWait) : DebounceWait :=
  match e with
  | DebounceTimer last now aborted =>
      match w.(timer) with
      | Some _ => debounceCheck quietMs last now aborted (w <| timer := None |>)
      | None => w
      end
  | DebounceAbort => if w.(listening) then debounceFinish w else w
  end.

(** ** The overflow policy drops the oldest eligible items *)

(** Reference: [l] without its first [n] items that [keep] does not hold. *)
Fixpoint drop_oldest {T} (keep : T → bool) (n : nat) (l : list T) : list T :=
  match l with
  | [] => []
  | x :: r =>
      if keep x then x :: drop_oldest keep n r
      else match n with
           | O => l
           | S n' => drop_oldest keep n' r
           end
  end.

Definition eligible {T} (keep : T → bool) (l : list T) : list T := filter (λ x, keep x = false) l.

Section victims.
Context {T : Type} (keep : T → bool).
Implicit Types (l : list T).

Lemma eligible_cons x l :
  eligible keep (x :: l) = if keep x then eligible keep l else x :: eligible keep l.
Proof. unfold eligible. rewrite filter_cons. by destruct (keep x). Qed.

Lemma drop_oldest_0 l : drop_oldest keep 0 l = l.
Proof. induction l as [|x l IH]; [done|]. simpl. destruct (keep x); by rewrite ?IH. Qed.

Lemma drop_oldest_Permutation n l :
  l ≡ₚ take n (eligible keep l) ++ drop_oldest keep n l.
Proof.
  revert n. induction l as [|x l IH]; intros n; simpl; [by destruct n|].
  rewrite eligible_cons. destruct (keep x); [by rewrite <-Permutation_middle, <-IH|].
  destruct n; [done|]. simpl. by rewrite <-IH.
Qed.

Lemma drop_oldest_sublist n l : drop_oldest keep n l `sublist_of` l.
Proof.
  revert n. induction l as [|x l IH]; intros n; simpl; [done|].
  destruct (keep x); [by constructor|]. destruct n; [done|]. by constructor.
Qed.

Lemma drop_oldest_kept n l :
  filter (λ x, keep x = true) (drop_oldest keep n l) = filter (λ x, keep x = true) l.
Proof.
  revert n. induction l as [|x l IH]; intros n; [done|]. simpl. destruct (keep x) eqn:E.
  - by rewrite !filter_cons_True, IH.
  - destruct n; [done|]. rewrite IH, filter_cons_False; [done|]. by rewrite E.
Qed.

Lemma splice1_app pre x l : splice1 (length pre) (pre ++ x :: l) = (pre ++ l, [x]).
Proof.
  unfold splice1. rewrite take_app_length, drop_app_length.
  f_equal. f_equal. rewrite (cons_middle x pre l), app_assoc.
  by rewrite drop_app_length' by (rewrite length_app; simpl; lia).
Qed.

Lemma removeVictims_cons pre x l V l' dropped :
  removeVictims V (pre ++ x :: l) = (pre ++ x :: l', dropped) →
  removeVictims (length pre :: V) (pre ++ x :: l) = (pre ++ l', x :: dropped).
Proof.
  unfold removeVictims. cbn [foldr]. intros ->. by rewrite splice1_app.
Qed.

Lemma collectVictims_spec d l k acc :
  Z.of_nat (length acc) < d →
  let m := Z.to_nat (d - Z.of_nat (length acc)) in
  ∃ V, collectVictims keep (Fin d) k l acc = acc ++ V ∧
    length V = (m `min` length (eligible keep l))%nat ∧
    ∀ pre, length pre = k →
      removeVictims V (pre ++ l) = (pre ++ drop_oldest keep m l, take m (eligible keep l)).
Proof.
  cbv zeta. revert k acc. induction l as [|x l IH]; intros k acc Hd; simpl.
  - exists []. rewrite app_nil_r. split_and!; [done|simpl; lia|].
    intros pre _. by destruct (Z.to_nat _).
  - rewrite eligible_cons. destruct (keep x) eqn:Ek.
    + destruct (IH (S k) acc Hd) as (V & -> & HV & Hr). exists V. split_and!; [done..|].
      intros pre Hp. specialize (Hr (pre ++ [x])). rewrite length_app in Hr. simpl in Hr.
      rewrite <-!app_assoc in Hr. apply Hr. lia.
    + destruct (Z.to_nat (d - Z.of_nat (length acc))) as [|m] eqn:Em; [lia|].
      destruct (Z.eqb_spec d (Z.of_nat (length (acc ++ [k])))) as [He|He];
        rewrite length_app in He; simpl in He.
      * exists [k]. assert (m = 0%nat) as -> by lia. split_and!; [done|simpl; lia|].
        intros pre Hp. rewrite drop_oldest_0, <-Hp. by apply removeVictims_cons.
      * destruct (IH (S k) (acc ++ [k])) as (V & -> & HV & Hr).
        { rewrite length_app. simpl. lia. }
        rewrite length_app in HV, Hr. simpl in HV, Hr.
        replace (Z.to_nat (d - Z.of_nat (length acc + 1))) with m in HV, Hr by lia.
        exists (k :: V). split_and!; [by rewrite <-app_assoc|simpl; lia|].
        intros pre Hp. specialize (Hr (pre ++ [x])). rewrite length_app in Hr. simpl in Hr.
        rewrite <-!app_assoc in Hr. rewrite <-Hp. apply removeVictims_cons, Hr. lia.
Qed.

End victims.

Lemma elideLines_spec n lines :
  0 ≤ n →
  elideLines (Fin n) lines =
    (drop (length lines - Z.to_nat n) lines, take (length lines - Z.to_nat n) lines).
Proof.
  intros Hn. induction lines as [|x r IH]; [done|]. cbn [elideLines js_lt length].
  destruct (Z.ltb_spec n (Z.of_nat (S (length r)))) as [H|H].
  - rewrite IH.
    destruct (Z.to_nat n) as [|k] eqn:E.
    { by rewrite !Nat.sub_0_r. }
    replace (S (length r) - S k)%nat with (S (length r - S k)) by lia. done.
  - by replace (S (length r) - Z.to_nat n)%nat with 0%nat by lia.
Qed.

Lemma foldl_summaryLines {T} (line : T → jsstr) (dropped : list T) s :
  foldl (λ s item, {| droppedCount := s.(droppedCount) + 1;
                      summaryLines := s.(summaryLines) ++ [line item] |}) s dropped =
  {| droppedCount := s.(droppedCount) + Z.of_nat (length dropped);
     summaryLines := s.(summaryLines) ++ (line <$> dropped) |}.
Proof.
  revert s. induction dropped as [|x r IH]; intros [n l]; simpl.
  - by rewrite Z.add_0_r, app_nil_r.
  - rewrite IH. simpl. rewrite <-app_assoc. simpl. f_equal. lia.
Qed.

Section policy.
Context {T : Type} `{EqDecision T}.
Implicit Types (q : CappedQueue T).

Definition is_kept (inFlight : option (list T)) (isProtected : option (T → bool)) (item : T) : bool :=
  (match inFlight with Some s => JsSet.has item s | None => false end)
  || (match isProtected with Some f => f item | None => false end).

Lemma countPending_filter (l : list T) inFlight :
  countPendingQueueItems l inFlight =
    Z.of_nat (length (eligible (λ x, is_kept inFlight None x) l)).
Proof.
  unfold countPendingQueueItems.
  assert (Hnone : ∀ f : T → bool, (∀ x, f x = false) → eligible f l = l).
  { intros f Hf. apply filter_all, Forall_forall. auto. }
  destruct inFlight as [[|y s]|]; [by rewrite Hnone| |by rewrite Hnone].
  assert (Hgen : ∀ c, foldl (λ count item, count + (if JsSet.has item (y :: s) then 0 else 1)) c l
    = c + Z.of_nat (length (eligible (λ x, is_kept (Some (y :: s)) None x) l))).
  { induction l as [|x l' IH]; intros c; [simpl; lia|].
    rewrite eligible_cons. cbn [foldl]. rewrite IH by (intros f Hf; apply filter_all, Forall_forall; auto).
    unfold is_kept at 2. rewrite orb_false_r. destruct (JsSet.has x (y :: s)); simpl; lia. }
  rewrite Hgen. lia.
Qed.

(** What the policy does to a queue that is full, for a finite cap. *)
Lemma applyQueueDropPolicy_full q summarize summaryLimit inFlight isProtected c :
  q.(cap) = Fin c → 0 < c → c ≤ countPendingQueueItems q.(items) inFlight →
  let keep := is_kept inFlight isProtected in
  let n := Z.to_nat (countPendingQueueItems q.(items) inFlight - c + 1) in
  applyQueueDropPolicy q summarize summaryLimit inFlight isProtected =
    if decide (q.(dropPolicy) = DropNew ∨ (length (eligible keep q.(items)) < n)%nat)
    then {| admitted := false; queueAfter := q; onDrop := None; onSummaryElide := None |}
    else
      let dropped := take n (eligible keep q.(items)) in
      let q' := q <| items := drop_oldest keep n q.(items) |> in
      if decide (q.(dropPolicy) = DropSummarize) then
        let '(summary', elided) :=
          summarizeDropped summarize (js_max 0 (default q.(cap) summaryLimit)) dropped q.(summary) in
        {| admitted := true; queueAfter := q' <| summary := summary' |>;
           onDrop := Some dropped;
           onSummaryElide := match elided with [] => None | _ => Some elided end |}
      else {| admitted := true; queueAfter := q'; onDrop := Some dropped; onSummaryElide := None |}.
Proof.
  intros Hc Hpos Hfull. cbv zeta. unfold applyQueueDropPolicy. cbv zeta. rewrite Hc. simpl.
  set (p := countPendingQueueItems q.(items) inFlight) in *.
  destruct (Z.leb_spec c 0); [lia|]. destruct (Z.ltb_spec p c); [lia|]. simpl.
  destruct (decide (q.(dropPolicy) = DropNew)) as [Hn|Hn].
  { rewrite decide_True by auto. done. }
  fold (is_kept inFlight isProtected).
  destruct (collectVictims_spec (is_kept inFlight isProtected) (p + 1 + - c) q.(items) 0 [])
    as (V & HV & Hlen & Hr); [simpl; lia|].
  change (λ item, is_kept inFlight isProtected item) with (is_kept inFlight isProtected).
  rewrite HV. simpl app. simpl length in Hlen, Hr.
  replace (Z.to_nat (p + 1 + - c - Z.of_nat 0)) with (Z.to_nat (p - c + 1)) in Hlen, Hr by lia.
  rewrite Hlen. specialize (Hr [] eq_refl). simpl in Hr. rewrite Hr.
  destruct (Z.ltb_spec (Z.of_nat (Z.to_nat (p - c + 1)
      `min` length (eligible (is_kept inFlight isProtected) q.(items)))) (p + 1 + - c)).
  - destruct (decide (_ ∨ _)) as [_|Hno]; [done|]. destruct Hno. right. lia.
  - destruct (decide (_ ∨ _)) as [[?|?]|_]; [done|lia|done].
Qed.

End policy.

Section policy_facts.
Context {T : Type} `{EqDecision T}.
Implicit Types (q : CappedQueue T).

Lemma countPending_Permutation (l l' : list T) inFlight :
  l ≡ₚ l' → countPendingQueueItems l inFlight = countPendingQueueItems l' inFlight.
Proof. intros Hp. rewrite !countPending_filter. unfold eligible. by rewrite Hp. Qed.

Lemma countPending_app (l l' : list T) inFlight :
  countPendingQueueItems (l ++ l') inFlight =
    countPendingQueueItems l inFlight + countPendingQueueItems l' inFlight.
Proof.
  rewrite !countPending_filter. unfold eligible. rewrite filter_app, length_app. lia.
Qed.

Lemma countPending_nonneg (l : list T) inFlight : 0 ≤ countPendingQueueItems l inFlight.
Proof. rewrite countPending_filter. lia. Qed.

(** Victims are pending: none of them is in flight. *)
Lemma countPending_victims n (l : list T) inFlight isProtected :
  countPendingQueueItems (take n (eligible (is_kept inFlight isProtected) l)) inFlight =
    Z.of_nat (length (take n (eligible (is_kept inFlight isProtected) l))).
Proof.
  rewrite countPending_filter. unfold eligible at 1. rewrite filter_all; [done|].
  apply Forall_forall. intros x Hx. apply elem_of_take in Hx as (i & Hx & _).
  apply list_elem_of_lookup_2 in Hx. unfold eligible in Hx.
  apply list_elem_of_filter in Hx as [Hx _]. unfold is_kept in *. simpl in Hx.
  apply orb_false_iff in Hx as [Hx _]. by rewrite Hx.
Qed.

Lemma countPending_after_drop n (l : list T) inFlight isProtected :
  let keep := is_kept inFlight isProtected in
  (n ≤ length (eligible keep l))%nat →
  countPendingQueueItems (drop_oldest keep n l) inFlight =
    countPendingQueueItems l inFlight - Z.of_nat n.
Proof.
  cbv zeta. intros Hn.
  rewrite (countPending_Permutation l _ _
    (drop_oldest_Permutation (is_kept inFlight isProtected) n l)).
  rewrite countPending_app, countPending_victims, length_take_le by done. lia.
Qed.

(** The summary grows by one line per dropped item and loses its oldest lines. *)
Lemma summarizeDropped_spec summarize n dropped s :
  0 ≤ n →
  let lines := s.(summaryLines) ++
    ((λ item : T, buildQueueSummaryLine (summarize item) summaryLineLimit) <$> dropped) in
  let k := (length lines - Z.to_nat n)%nat in
  summarizeDropped summarize (Fin n) dropped s =
    ({| droppedCount := s.(droppedCount) + Z.of_nat (length dropped);
        summaryLines := drop k lines |}, take k lines).
Proof.
  intros Hn. cbv zeta. unfold summarizeDropped.
  rewrite (foldl_summaryLines (λ item, buildQueueSummaryLine (summarize item) summaryLineLimit)).
  cbv zeta. cbn [summaryLines droppedCount]. by rewrite elideLines_spec.
Qed.

Lemma policy_admitted q summarize summaryLimit inFlight isProtected c :
  q.(cap) = Fin c → 0 < c → c ≤ countPendingQueueItems q.(items) inFlight →
  let r := applyQueueDropPolicy q summarize summaryLimit inFlight isProtected in
  let keep := is_kept inFlight isProtected in
  let n := Z.to_nat (countPendingQueueItems q.(items) inFlight - c + 1) in
  (r.(admitted) = false → r.(queueAfter) = q ∧ r.(onDrop) = None) ∧
  (r.(admitted) = true →
     r.(onDrop) = Some (take n (eligible keep q.(items))) ∧
     r.(queueAfter).(items) = drop_oldest keep n q.(items) ∧
     countPendingQueueItems r.(queueAfter).(items) inFlight = c - 1).
Proof.
  intros Hc Hpos Hfull r keep n.
  pose proof (applyQueueDropPolicy_full q summarize summaryLimit inFlight isProtected c Hc Hpos Hfull)
    as Hr. cbv zeta in Hr. fold r keep n in Hr.
  destruct (decide (_ ∨ _)) as [Ho|Ho] in Hr; [by rewrite Hr|].
  assert (Hres : r.(admitted) = true ∧ r.(onDrop) = Some (take n (eligible keep q.(items))) ∧
    r.(queueAfter).(items) = drop_oldest keep n q.(items)).
  { rewrite Hr. cbv zeta. destruct (decide (q.(dropPolicy) = DropSummarize)); [|done].
    by destruct (summarizeDropped _ _ _ _). }
  destruct Hres as (Ha & Hd & Hi). rewrite Ha. split; [done|]. intros _. split_and!; [done..|].
  rewrite Hi. unfold keep. rewrite countPending_after_drop; [|fold keep; lia]. unfold n. lia.
Qed.

Lemma policy_below_cap q summarize summaryLimit inFlight isProtected c :
  q.(cap) = Fin c → countPendingQueueItems q.(items) inFlight < c →
  applyQueueDropPolicy q summarize summaryLimit inFlight isProtected =
    {| admitted := true; queueAfter := q; onDrop := None; onSummaryElide := None |}.
Proof.
  intros Hc Hlt. unfold applyQueueDropPolicy. cbv zeta. rewrite Hc. cbn [js_geb js_ltb].
  destruct (Z.ltb_spec (countPendingQueueItems q.(items) inFlight) c); [|lia]. by rewrite orb_true_r.
Qed.

Lemma policy_keeps_cap q summarize summaryLimit inFlight isProtected :
  (applyQueueDropPolicy q summarize summaryLimit inFlight isProtected).(queueAfter).(cap) = q.(cap).
Proof.
  unfold applyQueueDropPolicy. cbv zeta. destruct (_ || _); [done|].
  destruct (decide _); [done|]. destruct (js_ltb _ _); [done|].
  destruct (removeVictims _ _). destruct (decide _); [|done].
  by destruct (summarizeDropped _ _ _ _).
Qed.

Lemma default_elided (l : list jsstr) :
  default [] (match l with [] => None | _ :: _ => Some l end) = l.
Proof. by destruct l. Qed.

End policy_facts.

(** Below its cap a queue admits and changes nothing.  A full queue under
    the policy [new], or with fewer droppable items than the overflow, refuses
    and changes nothing, not even in part.  Otherwise exactly the oldest items
    that are neither in flight nor protected are dropped, just enough for the
    pending count to be one below the cap; the others keep their order, and
    the owner is told the dropped items, oldest first. *)
Theorem overflow_drops_oldest_eligible {T} `{EqDecision T} (q : CappedQueue T)
    summarize summaryLimit inFlight isProtected c :
  q.(cap) = Fin c → 0 < c →
  let r := applyQueueDropPolicy q summarize summaryLimit inFlight isProtected in
  let pending := countPendingQueueItems q.(items) inFlight in
  let keep := is_kept inFlight isProtected in
  let n := Z.to_nat (pending - c + 1) in
  let dropped := take n (eligible keep q.(items)) in
  (pending < c → r.(admitted) = true ∧ r.(queueAfter) = q ∧ r.(onDrop) = None) ∧
  (c ≤ pending →
     (r.(admitted) = false ↔ q.(dropPolicy) = DropNew ∨ (length (eligible keep q.(items)) < n)%nat)
     ∧ (r.(admitted) = false → r.(queueAfter) = q ∧ r.(onDrop) = None)
     ∧ (r.(admitted) = true →
          r.(onDrop) = Some dropped ∧
          q.(items) ≡ₚ dropped ++ r.(queueAfter).(items) ∧
          r.(queueAfter).(items) `sublist_of` q.(items) ∧
          (∀ x, x ∈ q.(items) → keep x = true → x ∈ r.(queueAfter).(items)) ∧
          countPendingQueueItems r.(queueAfter).(items) inFlight = c - 1)).
Proof.
  intros Hc Hpos r pending keep n dropped. split.
  { intros Hlt. unfold r. by rewrite (policy_below_cap _ _ _ _ _ c). }
  intros Hfull.
  pose proof (applyQueueDropPolicy_full q summarize summaryLimit inFlight isProtected c Hc Hpos Hfull)
    as Hr. cbv zeta in Hr. fold r pending keep n in Hr.
  destruct (decide (q.(dropPolicy) = DropNew ∨ (length (eligible keep q.(items)) < n)%nat)) as [Ho|Ho].
  { rewrite Hr. simpl. split_and!; [done|done|]. done. }
  destruct (policy_admitted q summarize summaryLimit inFlight isProtected c Hc Hpos Hfull) as [Hn Hres].
  fold r pending keep n in Hn, Hres.
  assert (Ha : r.(admitted) = true).
  { rewrite Hr. cbv zeta. destruct (decide (q.(dropPolicy) = DropSummarize)); [|done].
    by destruct (summarizeDropped _ _ _ _). }
  clear Hr. rewrite Ha. split_and!; [naive_solver|done|].
  intros _. destruct (Hres Ha) as (Hd & Hi & Hp). rewrite Hi.
  split_and!; [done|apply drop_oldest_Permutation|apply drop_oldest_sublist| |by rewrite <-Hi].
  intros x Hx Hk. assert (Hf : x ∈ filter (λ x, keep x = true) q.(items)).
  { apply list_elem_of_filter. done. }
  rewrite <-(drop_oldest_kept keep n), list_elem_of_filter in Hf. by destruct Hf.
Qed.

(** Item 1 is in flight and item 2 protected: a cap of two drops item 3. *)
Example overflow_drops_oldest_eligible_witness :
  let q := {| items := [1; 2; 3]; cap := Fin 2; dropPolicy := DropOld;
              summary := {| droppedCount := 0; summaryLines := [] |} |} in
  let r := applyQueueDropPolicy q (λ _, []) None (Some [1]) (Some (λ x, x =? 2)) in
  r.(onDrop) = Some [3] ∧ countPendingQueueItems r.(queueAfter).(items) (Some [1]) = 1.
Proof.
  intros q r.
  destruct (overflow_drops_oldest_eligible q (λ _, []) None (Some [1]) (Some (λ x, x =? 2)) 2)
    as [_ H]; [done|done|].
  assert (Hf : 2 ≤ countPendingQueueItems q.(items) (Some [1])) by (by vm_compute).
  destruct (H Hf) as (_ & _ & Ht). assert (Ha : r.(admitted) = true) by (by vm_compute).
  destruct (Ht Ha) as (Hd & _ & _ & _ & Hp). split; [exact (eq_trans Hd eq_refl)|exact Hp].
Defined.

(** Under the policy [summarize] every dropped item is counted and leaves
    one line; lines are only ever lost from the front, the owner is handed
    each one lost, and no more than the limit are kept. *)
Theorem overflow_summary_conserved {T} `{EqDecision T} (q : CappedQueue T)
    summarize limit inFlight isProtected c dropped :
  q.(cap) = Fin c → 0 < c → q.(dropPolicy) = DropSummarize →
  let r := applyQueueDropPolicy q summarize (Some (Fin limit)) inFlight isProtected in
  r.(onDrop) = Some dropped →
  let lines := q.(summary).(summaryLines) ++
    ((λ item, buildQueueSummaryLine (summarize item) summaryLineLimit) <$> dropped) in
  let s := r.(queueAfter).(summary) in
  s.(droppedCount) = q.(summary).(droppedCount) + Z.of_nat (length dropped) ∧
  default [] r.(onSummaryElide) ++ s.(summaryLines) = lines ∧
  Z.of_nat (length s.(summaryLines)) = Z.of_nat (length lines) `min` (0 `max` limit) ∧
  (r.(onSummaryElide) ≠ Some []).
Proof.
  intros Hc Hpos Hs r Hd lines s.
  destruct (decide (c ≤ countPendingQueueItems q.(items) inFlight)) as [Hf|Hf].
  2: { unfold r in Hd. by rewrite (policy_below_cap _ _ _ _ _ c) in Hd by (done || lia). }
  pose proof (applyQueueDropPolicy_full q summarize (Some (Fin limit)) inFlight isProtected c Hc Hpos Hf)
    as Hr. cbv zeta in Hr. fold r in Hr. cbn [default js_max] in Hr.
  destruct (decide (_ ∨ _)) as [Ho|Ho] in Hr; [by rewrite Hr in Hd|].
  rewrite decide_True in Hr by done.
  unfold default in Hr. cbn [from_option js_max id] in Hr.
  rewrite summarizeDropped_spec in Hr by lia. rewrite Hr in Hd. cbn [onDrop] in Hd.
  injection Hd as Hd. rewrite Hd in Hr. fold lines in Hr. clear Ho Hd.
  unfold s. rewrite Hr. cbn -[lines]. split_and!; [done| | |].
  - rewrite default_elided. apply take_drop.
  - rewrite length_drop. lia.
  - by destruct (take _ lines).
Qed.

(** A cap of one and a limit of one line: the old line goes to the owner. *)
Example overflow_summary_conserved_witness :
  let q := {| items := [1; 2]; cap := Fin 2; dropPolicy := DropSummarize;
              summary := {| droppedCount := 3; summaryLines := [[97]] |} |} in
  let r := applyQueueDropPolicy q (λ _, [98; 32; 9; 99]) (Some (Fin 1)) None None in
  r.(queueAfter).(summary).(droppedCount) = 4 ∧
  default [] r.(onSummaryElide) ++ r.(queueAfter).(summary).(summaryLines) = [[97]; [98; 32; 99]].
Proof.
  intros q r.
  destruct (overflow_summary_conserved q (λ _, [98; 32; 9; 99]) 1 None None 2 [1])
    as (H1 & H2 & _); [done|done|done|by vm_compute|].
  split; [exact H1|exact (eq_trans H2 eq_refl)].
Defined.

(** ** A queue under delivery

    An owner puts the policy in front of every push and delivers one item at a
    time; between the two halves of a delivery it goes on enqueueing. *)
Section idle.
Context {T : Type} `{EqDecision T}.
Implicit Types (x y : T) (l : list T).

Lemma eligible_length_ne x l :
  NoDup l → x ∈ l →
  Z.of_nat (length (eligible (λ y, is_kept (Some [x]) None y) l)) = Z.of_nat (length l) - 1.
Proof.
  intros Hnd Hx. pose proof (JsSet.size_delete_elem x l Hnd Hx) as Hs.
  unfold JsSet.size, JsSet.delete in Hs. rewrite <-Hs. do 2 f_equal.
  unfold eligible. apply list_filter_iff. intros y.
  unfold is_kept, JsSet.has. rewrite orb_false_r, bool_decide_eq_false. set_solver.
Qed.

Lemma countPending_active x l :
  NoDup l → x ∈ l → countPendingQueueItems l (Some [x]) = Z.of_nat (length l) - 1.
Proof. intros. by rewrite countPending_filter, eligible_length_ne. Qed.

Lemma countPending_idle l : countPendingQueueItems l (Some []) = Z.of_nat (length l).
Proof. done. Qed.

Lemma removeFirst_Permutation x l : x ∈ l → l ≡ₚ x :: removeFirst x l.
Proof.
  induction l as [|y l IH]; [set_solver|]. intros Hx. simpl. case_decide as E; [by subst|].
  rewrite <-Permutation_swap, <-IH; [done|set_solver].
Qed.

End idle.

#[local] Arguments countPendingQueueItems : simpl never.

Section owner.
Context {T : Type} `{EqDecision T}.
Variables (summarize : T → jsstr) (summaryLimit : option jsint) (isProtected : T → bool).
Variable options : DrainQueueItemOptions T.
Hypothesis uses_in_flight : options.(useInFlight T) = true.
Implicit Types (x y : T) (l : list T).

Record Owner := {
  ownQueue : CappedQueue T;
  ownInFlight : list T;
  active : option T;
  delivered : list T;
  discarded : list T;
  overflowed : list T;
  refused : list T;
}.

Inductive OwnerEvent :=
| OwnerEnqueue (item : T)
| OwnerBegin
| OwnerEnd (outcome : RunOutcome).

Definition ownerEvent (e : OwnerEvent) (o : Owner) : Owner :=
  match e with
  | OwnerEnqueue item =>
      let r := applyQueueDropPolicy o.(ownQueue) summarize summaryLimit
                 (Some o.(ownInFlight)) (Some isProtected) in
      {| ownQueue :=
           if r.(admitted _) then r.(queueAfter _) <| items ::= λ l, l ++ [item] |>
           else r.(queueAfter _);
         ownInFlight := o.(ownInFlight); active := o.(active);
         delivered := o.(delivered); discarded := o.(discarded);
         overflowed := o.(overflowed) ++ default [] r.(onDrop _);
         refused := if r.(admitted _) then o.(refused) else o.(refused) ++ [item] |}
  | OwnerBegin =>
      match o.(active), drainBegin o.(ownQueue).(items) options o.(ownInFlight) with
      | None, Some (next, inFlight) =>
          {| ownQueue := o.(ownQueue); ownInFlight := inFlight; active := Some next;
             delivered := o.(delivered); discarded := o.(discarded);
             overflowed := o.(overflowed); refused := o.(refused) |}
      | _, _ => o
      end
  | OwnerEnd outcome =>
      match o.(active) with
      | Some next =>
          let d := drainEnd o.(ownQueue).(items) options o.(ownInFlight) next outcome in
          {| ownQueue := o.(ownQueue) <| items := d.(queuedAfter _) |>;
             ownInFlight := d.(inFlightAfter _); active := None;
             delivered :=
               if d.(drainResolved _) then o.(delivered) ++ [next] else o.(delivered);
             discarded :=
               match d.(onDiscard _) with
               | Some x => o.(discarded) ++ [x]
               | None => o.(discarded)
               end;
             overflowed := o.(overflowed); refused := o.(refused) |}
      | None => o
      end
  end.

Definition enqueuedBy (e : OwnerEvent) : list T :=
  match e with
  | OwnerEnqueue x => [x]
  | _ => []
  end.

Definition accounted (o : Owner) : list T :=
  o.(ownQueue).(items) ++ o.(delivered) ++ o.(discarded) ++ o.(overflowed) ++ o.(refused).

Record owner_ok (c : Z) (o : Owner) : Prop := {
  ok_cap : o.(ownQueue).(cap) = Fin c;
  ok_nodup : NoDup o.(ownQueue).(items);
  ok_active : ∀ x, o.(active) = Some x → x ∈ o.(ownQueue).(items);
  ok_in_flight : o.(ownInFlight) = match o.(active) with Some x => [x] | None => [] end;
  ok_pending : countPendingQueueItems o.(ownQueue).(items) (Some o.(ownInFlight)) ≤
    match o.(active) with Some _ => c | None => c + 1 end;
}.

Lemma owner_ok_length c o :
  owner_ok c o → Z.of_nat (length o.(ownQueue).(items)) ≤ c + 1.
Proof using Type.
  intros [_ Hnd Ha Hf Hp]. rewrite Hf in Hp. destruct o.(active) as [x|].
  - rewrite countPending_active in Hp; [lia|done|by apply Ha].
  - by rewrite countPending_idle in Hp.
Qed.

Lemma owner_enqueue_ok c o x :
  0 < c → owner_ok c o → x ∉ o.(ownQueue).(items) →
  owner_ok c (ownerEvent (OwnerEnqueue x) o) ∧
  accounted (ownerEvent (OwnerEnqueue x) o) ≡ₚ x :: accounted o.
Proof.
  intros Hpos [Hc Hnd Ha Hf Hp] Hx.
  destruct (decide (c ≤ countPendingQueueItems o.(ownQueue).(items) (Some o.(ownInFlight)))) as [Hfull|Hfull].
  - pose proof (policy_admitted o.(ownQueue) summarize summaryLimit (Some o.(ownInFlight))
      (Some isProtected) c Hc Hpos Hfull) as Hr. cbv zeta in Hr.
    pose proof (policy_keeps_cap o.(ownQueue) summarize summaryLimit (Some o.(ownInFlight))
      (Some isProtected)) as Hcap.
    unfold ownerEvent, accounted. cbv zeta.
    set (r := applyQueueDropPolicy _ _ _ _ _) in *.
    destruct r.(admitted) eqn:E; [destruct Hr as [_ Hr]|destruct Hr as [Hr _]];
      destruct (Hr eq_refl) as [H1 H2]; cbn.
    + destruct H2 as [Hi Hpend]. rewrite H1, Hi. rewrite Hi in Hpend. cbn [default from_option id].
      pose proof (drop_oldest_Permutation (is_kept (Some o.(ownInFlight)) (Some isProtected))
        (Z.to_nat (countPendingQueueItems o.(ownQueue).(items) (Some o.(ownInFlight)) - c + 1))
        o.(ownQueue).(items)) as Hperm.
      set (dr := take _ _) in *. set (kp := drop_oldest _ _ _) in *.
      assert (Hsub : kp ⊆ o.(ownQueue).(items)) by (rewrite Hperm; set_solver).
      assert (Hkn : NoDup kp) by (rewrite Hperm in Hnd; by apply NoDup_app in Hnd as (_ & _ & ?)).
      split; [constructor; cbn|].
      * by rewrite Hcap.
      * apply NoDup_app. split; [done|]. split; [set_solver|apply NoDup_singleton].
      * intros y Hy. apply elem_of_app. left. unfold kp.
        assert (Hk : y ∈ filter (λ z, is_kept (Some o.(ownInFlight)) (Some isProtected) z = true)
          o.(ownQueue).(items)).
        { apply list_elem_of_filter. split; [|by apply Ha].
          unfold is_kept, JsSet.has. rewrite Hf, Hy. simpl. rewrite bool_decide_true; [done|set_solver]. }
        erewrite <-drop_oldest_kept, list_elem_of_filter in Hk. by destruct Hk as [_ Hk].
      * done.
      * rewrite countPending_app, Hpend.
        assert (countPendingQueueItems [x] (Some o.(ownInFlight)) ≤ 1).
        { rewrite countPending_filter. pose proof (length_filter (λ y,
            is_kept (Some o.(ownInFlight)) None y = false) [x]) as Hl.
          unfold eligible. simpl in Hl |- *. lia. }
        destruct o.(active); lia.
      * rewrite Hperm. rewrite <-!app_assoc. simpl. solve_Permutation.
    + rewrite H1, H2. cbn. split; [by constructor|]. rewrite app_nil_r. solve_Permutation.
  - unfold ownerEvent, accounted. cbv zeta. rewrite (policy_below_cap _ _ _ _ _ c) by (done || lia).
    cbn. rewrite app_nil_r. split; [|rewrite <-app_assoc; simpl; solve_Permutation].
    constructor; cbn; [done| | |done|].
    + apply NoDup_app. split; [done|]. split; [set_solver|apply NoDup_singleton].
    + intros y Hy. apply elem_of_app. left. by apply Ha.
    + rewrite countPending_app.
      assert (countPendingQueueItems [x] (Some o.(ownInFlight)) ≤ 1).
      { rewrite countPending_filter. pose proof (length_filter (λ y,
          is_kept (Some o.(ownInFlight)) None y = false) [x]) as Hl.
        unfold eligible. simpl in Hl |- *. lia. }
      destruct o.(active); lia.
Qed.

Lemma owner_begin_ok c o :
  owner_ok c o → owner_ok c (ownerEvent OwnerBegin o) ∧
  accounted (ownerEvent OwnerBegin o) = accounted o.
Proof.
  intros Hok. unfold ownerEvent, drainBegin. rewrite uses_in_flight.
  destruct o.(active) eqn:Ea; [by destruct o.(ownQueue).(items)|].
  destruct o.(ownQueue).(items) as [|next r] eqn:Ei; [done|].
  pose proof (owner_ok_length _ _ Hok) as Hlen. destruct Hok as [Hc Hnd Ha Hf Hp].
  rewrite Ea in Hf. split; [|done]. constructor; cbn; [done..| | |].
  - intros x [= <-]. rewrite Ei. set_solver.
  - by rewrite Hf.
  - rewrite Hf. unfold JsSet.add. rewrite decide_False by set_solver. simpl app.
    rewrite countPending_active; [lia|done|]. rewrite Ei. set_solver.
Qed.

Lemma removed_ok c (o : Owner) next :
  owner_ok c o → o.(active) = Some next →
  let l := removeFirst next o.(ownQueue).(items) in
  NoDup l ∧ countPendingQueueItems l (Some []) ≤ c + 1 ∧ o.(ownQueue).(items) ≡ₚ next :: l.
Proof.
  intros Hok Hn. pose proof (owner_ok_length _ _ Hok) as Hlen. destruct Hok as [_ Hnd Ha _ _].
  pose proof (removeFirst_Permutation next _ (Ha _ Hn)) as Hp. cbv zeta.
  pose proof Hnd as Hnd'. rewrite Hp in Hnd'. apply NoDup_cons in Hnd' as [_ Hnd'].
  split_and!; [done| |done]. rewrite countPending_idle. apply Permutation_length in Hp.
  simpl in Hp. lia.
Qed.

Lemma owner_end_ok c outcome o :
  owner_ok c o → owner_ok c (ownerEvent (OwnerEnd outcome) o) ∧
  accounted (ownerEvent (OwnerEnd outcome) o) ≡ₚ accounted o.
Proof.
  intros Hok. unfold ownerEvent. destruct o.(active) as [next|] eqn:Ea; [|done].
  destruct (removed_ok c o next Hok Ea) as (Hn & Hl & Hp). unfold accounted.
  pose proof (owner_ok_length _ _ Hok) as Hlen. destruct Hok as [Hc Hnd Ha Hf _].
  rewrite Ea in Hf. revert Hn Hl Hp. unfold drainEnd. rewrite uses_in_flight, Hf.
  assert (Hd : JsSet.delete next [next] = []).
  { unfold JsSet.delete. rewrite filter_cons_False; [done|]. auto. }
  rewrite Hd. destruct outcome; [|destruct (match options.(shouldRestoreOnError) with
    Some f => f next | None => true end)]; cbn; generalize (removeFirst next o.(ownQueue).(items));
    intros rest Hn Hl Hp.
  - split; [by constructor|]. rewrite Hp. rewrite <-app_assoc. simpl. solve_Permutation.
  - split; [|done]. constructor; [done..|cbn]. rewrite countPending_idle. done.
  - split; [by constructor|]. rewrite Hp. rewrite <-!app_assoc. simpl. solve_Permutation.
Qed.

Definition ownerRun (es : list OwnerEvent) (o : Owner) : Owner :=
  foldl (λ o e, ownerEvent e o) o es.

Lemma owner_run_ok c es o :
  0 < c → owner_ok c o → NoDup (accounted o ++ (es ≫= enqueuedBy)) →
  owner_ok c (ownerRun es o) ∧
  accounted (ownerRun es o) ≡ₚ accounted o ++ (es ≫= enqueuedBy).
Proof.
  intros Hpos. revert o. induction es as [|e es IH]; intros o Hok Hnd; cbn.
  { by rewrite app_nil_r. }
  assert (Hstep : owner_ok c (ownerEvent e o) ∧
    accounted (ownerEvent e o) ≡ₚ accounted o ++ enqueuedBy e).
  { destruct e as [x| |out]; cbn [enqueuedBy]; rewrite ?app_nil_r.
    - rewrite <-Permutation_cons_append. apply owner_enqueue_ok; [done..|].
      cbn in Hnd. apply NoDup_app in Hnd as (_ & Hnd & _). intros Hx.
      apply (Hnd x); [unfold accounted|]; set_solver.
    - destruct (owner_begin_ok c o Hok) as [? ->]. done.
    - by apply owner_end_ok. }
  destruct Hstep as [Hok' Hp]. cbn in Hnd. rewrite app_assoc, <-Hp in Hnd.
  destruct (IH _ Hok' Hnd) as [H1 H2]. split; [done|]. fold (ownerRun es (ownerEvent e o)).
  rewrite H2, Hp, <-app_assoc. done.
Qed.

End owner.

Definition newOwner {T} (c : Z) (policy : QueueDropPolicy) : Owner (T := T) :=
  {| ownQueue := {| items := []; cap := Fin c; dropPolicy := policy;
                    summary := {| droppedCount := 0; summaryLines := [] |} |};
     ownInFlight := []; active := None; delivered := []; discarded := []; overflowed := [];
     refused := [] |}.

(** Whatever the order of pushes and deliveries, restored failures
    included: every item pushed is at every moment in exactly one of the
    queue, the delivered, the discarded, the dropped and the refused items; an
    item under delivery is still queued, so it is never dropped by the
    overflow policy; and the queue holds at most one item more than its cap. *)
Theorem queued_items_are_conserved {T} `{EqDecision T} summarize summaryLimit isProtected
    (options : DrainQueueItemOptions T) c policy es :
  options.(useInFlight T) = true → 0 < c → NoDup (es ≫= enqueuedBy (T := T)) →
  let o := ownerRun summarize summaryLimit isProtected options es (newOwner c policy) in
  o.(ownQueue).(items) ++ o.(delivered) ++ o.(discarded) ++ o.(overflowed) ++ o.(refused)
    ≡ₚ es ≫= enqueuedBy ∧
  (∀ x, o.(active) = Some x → x ∈ o.(ownQueue).(items) ∧ x ∉ o.(overflowed)) ∧
  Z.of_nat (length o.(ownQueue).(items)) ≤ c + 1.
Proof.
  intros Hu Hc Hnd o.
  destruct (owner_run_ok summarize summaryLimit isProtected options Hu c es (newOwner c policy))
    as [Hok Hp]; [done| |done|].
  { constructor; cbn; [done|constructor|done|done|]. vm_compute countPendingQueueItems. lia. }
  fold o in Hok, Hp. split; [exact Hp|]. split; [|exact (owner_ok_length c o Hok)].
  intros x Hx. pose proof (ok_active _ _ Hok _ Hx) as Hi. split; [done|].
  cbn in Hp. rewrite <-Hp in Hnd. unfold accounted in Hnd.
  apply NoDup_app in Hnd as (_ & Hnd & _). intros Ho. apply (Hnd x Hi). set_solver.
Qed.

(** A failed delivery is restored, the next push overflows past it. *)
Example queued_items_are_conserved_witness :
  let o := ownerRun (λ _, []) None (λ _, false)
    {| useInFlight := true; shouldRestoreOnError := None |}
    [OwnerEnqueue 1; OwnerBegin; OwnerEnqueue 2; OwnerEnqueue 3; OwnerEnd RunRejected; OwnerEnqueue 4]
    (newOwner 1 DropOld) in
  o.(overflowed) = [2; 1; 3] ∧
  o.(ownQueue).(items) ++ o.(delivered) ++ o.(discarded) ++ o.(overflowed) ++ o.(refused) ≡ₚ [1; 2; 3; 4].
Proof.
  destruct (queued_items_are_conserved (λ _, []) None (λ _, false)
    {| useInFlight := true; shouldRestoreOnError := None |} 1 DropOld
    [OwnerEnqueue 1; OwnerBegin; OwnerEnqueue 2; OwnerEnqueue 3; OwnerEnd RunRejected; OwnerEnqueue 4])
    as [H _]; [done|done| |].
  { apply (bool_decide_unpack _). by vm_compute. }
  split; [by vm_compute|exact H].
Defined.

(** ** Cross-channel detection *)
Section cross.
Context {T : Type} (resolveKey : T → ResolvedKey).

(** The non-empty key of an item. *)
Definition route_key (item : T) : option string :=
  match (resolveKey item).(key) with
  | Some EmptyString | None => None
  | Some k => Some k
  end.

Lemma crossChannelLoop_no_cross l keys :
  (∀ x, x ∈ l → (resolveKey x).(cross) = false) →
  crossChannelLoop resolveKey l keys =
    (1 <? JsSet.size (foldl (λ s k, JsSet.add k s) keys (omap route_key l))).
Proof.
  revert keys. induction l as [|x l IH]; intros keys Hl; [done|].
  cbn [crossChannelLoop omap list_omap]. rewrite (Hl x) by set_solver.
  unfold route_key at 1. destruct (resolveKey x).(key) as [[|a k]|]; cbn;
    apply IH; set_solver.
Qed.

Lemma set_size_gt1 (l : list string) :
  NoDup l → (1 < JsSet.size l ↔ ∃ a b, a ∈ l ∧ b ∈ l ∧ a ≠ b).
Proof.
  unfold JsSet.size. intros Hnd. split.
  - destruct l as [|a [|b l]]; simpl; [lia|lia|]. intros _.
    apply NoDup_cons in Hnd as [Ha _]. exists a, b. set_solver.
  - intros (a & b & Ha & Hb & Hab). destruct l as [|x [|y l]]; simpl; [set_solver| |lia].
    apply list_elem_of_singleton in Ha as ->. apply list_elem_of_singleton in Hb as ->. done.
Qed.

Lemma hasCrossChannelItems_spec l :
  hasCrossChannelItems l resolveKey = true ↔
    (∃ x, x ∈ l ∧ (resolveKey x).(cross) = true) ∨
    (∃ x y k k', x ∈ l ∧ y ∈ l ∧ route_key x = Some k ∧ route_key y = Some k' ∧ k ≠ k').
Proof.
  destruct (decide (Exists (λ x, (resolveKey x).(cross) = true) l)) as [He|He].
  - apply Exists_exists in He as (x & Hx & Hc). split; [eauto|]. intros _.
    unfold hasCrossChannelItems. generalize (@nil string) as keys. revert Hx.
    induction l as [|y l IH]; [set_solver|]. intros [->|Hx]%elem_of_cons keys; cbn;
      [by rewrite Hc|].
    destruct (resolveKey y).(cross); [done|]. destruct (resolveKey y).(key) as [[]|]; auto.
  - assert (Hno : ∀ x, x ∈ l → (resolveKey x).(cross) = false).
    { intros x Hx. apply not_true_iff_false. intros Hc. apply He, Exists_exists. eauto. }
    unfold hasCrossChannelItems. rewrite crossChannelLoop_no_cross by done.
    fold (JsSet.of_list (omap route_key l)).
    rewrite Z.ltb_lt, set_size_gt1 by apply JsSet.NoDup_of_list.
    setoid_rewrite JsSet.elem_of_of_list. setoid_rewrite list_elem_of_omap. split.
    + intros (k & k' & (x & Hx & Hk) & (y & Hy & Hk') & Hne). right. eauto 10.
    + intros [(x & Hx & Hc)|(x & y & k & k' & Hx & Hy & Hk & Hk' & Hne)].
      * rewrite Hno in Hc; done.
      * exists k, k'. eauto 10.
Qed.

End cross.

(** ** The debounce window *)

(** A check settles exactly when the queue has been quiet for the window or
    the wait is aborted; otherwise its timer is due at the first instant at
    which the queue can have been quiet. *)
Lemma debounceCheck_spec d last now aborted w :
  w.(settled) = false →
  let w' := debounceCheck (Fin d) last now aborted w in
  (w'.(settled) = true ↔ aborted = true ∨ d ≤ now - last) ∧
  (w'.(settled) = false → ∃ delay, w'.(timer) = Some (Fin delay) ∧ 0 < delay ∧ now + delay = last + d).
Proof.
  intros Hs. unfold debounceCheck, debounceFinish. rewrite Hs. cbv zeta. simpl.
  destruct aborted; simpl; [naive_solver|].
  destruct (Z.leb_spec d (now - last)); simpl; [naive_solver lia|]. rewrite Hs.
  split; [naive_solver lia|]. intros _. exists (d + - (now - last)). split; [done|lia].
Qed.

(** An unsettled wait always has a timer pending, so it cannot hang. *)
Definition debounce_live (w : DebounceWait) : Prop :=
  if w.(settled) then w.(timer) = None ∧ w.(listening) = false
  else is_Some w.(timer) ∧ w.(listening) = true.

Lemma debounceCheck_live quiet last now aborted w :
  w.(settled) = false → w.(listening) = true →
  debounce_live (debounceCheck quiet last now aborted w).
Proof.
  intros Hs Hl. unfold debounceCheck, debounceFinish. rewrite Hs.
  destruct aborted; [done|]. cbv zeta. destruct (js_geb _ _); [done|].
  unfold debounce_live. simpl. rewrite Hs. eauto.
Qed.

Lemma waitForQueueDebounce_live fast d last now aborted :
  debounce_live (waitForQueueDebounce fast d last now aborted).
Proof.
  unfold waitForQueueDebounce. cbv zeta. destruct (_ || _); [done|]. by apply debounceCheck_live.
Qed.

Lemma debounceEvent_live quiet e w : debounce_live w → debounce_live (debounceEvent quiet e w).
Proof.
  intros Hw. destruct e as [last now aborted|]; simpl.
  - destruct w.(timer) eqn:Et; [|done]. unfold debounce_live in Hw.
    destruct w.(settled) eqn:Es; [by destruct Hw; congruence|]. destruct Hw as [_ Hl].
    by apply debounceCheck_live.
  - destruct w.(listening) eqn:El; [|done]. unfold debounceFinish. by destruct w.(settled).
Qed.
