(* ===== verification/BoundedQueues.v ===== *)
(** * Bounded queues

    Three small owners of pending work: the single-worker queue with a bounded
    waiting budget ([src/shared/bounded-serial-queue.ts]), the bounded buffer
    with its overflow modes ([src/shared/bounded-buffer.ts]) and the registry
    of requests that wait for a reply ([src/shared/pending-request-registry.ts]). *)
From S2P Require Import Prelude JsCollections.
Local Open Scope Z_scope.

(** ** The serial queue

    A promise is the number of its task.  The task body is asynchronous: its
    settlement is an event, and so is the microtask that starts the next task.
    Weights are integral doubles. *)
Module Serial.
Section serial.
(** The reason of a rejection. *)
Context {E : Type}.

Record Options := {
  maxPendingCount : Z;
  maxPendingWeight : Z;
}.

(** The constructor's checks. *)
Definition newOptions (count weight : jsint) : option Options :=
  match count, weight with
  | Fin c, Fin w =>
      if (0 <=? c) && (c <=? 9007199254740991) && (0 <=? w)
      then Some {| maxPendingCount := c; maxPendingWeight := w |} else None
  | _, _ => None
  end.

Record Task := {
  task_id : nat;
  weight : Z;
}.

(** Who runs: nobody, a task whose start is a queued microtask, a task. *)
Inductive Worker :=
| NoWorker
| Scheduled (t : Task)
| Running (t : Task).

Record SerialQueue := {
  pending : list Task;
  pendingWeight : Z;
  active : bool;
  sealed : bool;
  overflowed : bool;
  (** [failed] and [firstFailure]. *)
  firstFailure : option E;
  (** The last accepted task, whose settlement settles [settledPrefix]. *)
  settledPrefix : option nat;
  worker : Worker;
  (** The settled completions in order, with the reason of a rejection. *)
  settled : list (nat * option E);
  next_id : nat;
}.

#[export] Instance SerialQueue_eta : Eta SerialQueue := λ q,
  {| pending := q.(pending); pendingWeight := q.(pendingWeight); active := q.(active);
     sealed := q.(sealed); overflowed := q.(overflowed); firstFailure := q.(firstFailure);
     settledPrefix := q.(settledPrefix); worker := q.(worker); settled := q.(settled);
     next_id := q.(next_id) |}.

Definition newSerialQueue : SerialQueue :=
  {| pending := []; pendingWeight := 0; active := false; sealed := false; overflowed := false;
     firstFailure := None; settledPrefix := None; worker := NoWorker; settled := [];
     next_id := 0 |}.

Definition isIdle (q : SerialQueue) : bool :=
  negb q.(active) && match q.(pending) with [] => true | _ => false end.

Inductive Admission :=
| Accepted (completion : nat)
| RefusedCapacity
| RefusedOverflow
| RefusedSealed
(** The error of a weight that is not a non-negative finite number. *)
| InvalidWeight.

Definition startTask (t : Task) (q : SerialQueue) : SerialQueue := q <| worker := Running t |>.

Definition enqueue (o : Options) (weightOption : option jsint) (sealOnOverflow : bool)
    (q : SerialQueue) : Admission * SerialQueue :=
  if q.(sealed) then (RefusedSealed, q)
  else
    match default (Fin 1) weightOption with
    | Fin w =>
        if w <? 0 then (InvalidWeight, q)
        else if q.(active) && ((o.(maxPendingCount) <=? Z.of_nat (length q.(pending)))
                             || (o.(maxPendingWeight) <? q.(pendingWeight) + w))
        then
          if negb sealOnOverflow then (RefusedCapacity, q)
          else (RefusedOverflow, q <| sealed := true |> <| overflowed := true |>)
        else
          let t := {| task_id := q.(next_id); weight := w |} in
          let q' := q <| next_id := S q.(next_id) |> <| settledPrefix := Some q.(next_id) |> in
          (Accepted q.(next_id),
           if q.(active)
           then q' <| pending ::= λ p, p ++ [t] |> <| pendingWeight ::= λ n, n + w |>
           else startTask t (q' <| active := true |>))
    | _ => (InvalidWeight, q)
    end.

Definition seal (q : SerialQueue) : SerialQueue := q <| sealed := true |>.

(** [runTask] once [task.run()] has settled, with the rejection's reason. *)
Definition finishTask (failure : option E) (q : SerialQueue) : SerialQueue :=
  match q.(worker) with
  | Running t =>
      let q1 :=
        match failure, q.(firstFailure) with
        | Some e, None => q <| firstFailure := Some e |>
        | _, _ => q
        end in
      let q2 := q1 <| settled ::= λ l, l ++ [(t.(task_id), failure)] |> in
      match q2.(pending) with
      | next :: r =>
          q2 <| pending := r |> <| pendingWeight ::= λ n, n - next.(weight) |>
             <| worker := Scheduled next |>
      | [] => q2 <| active := false |> <| worker := NoWorker |>
      end
  | _ => q
  end.

(** The queued microtask. *)
Definition runMicrotask (q : SerialQueue) : SerialQueue :=
  match q.(worker) with
  | Scheduled t => startTask t q
  | _ => q
  end.

(** What [flush] waits for, and what it then reports. *)
Definition flush (q : SerialQueue) : option nat := q.(settledPrefix).
Definition prefixSettled (barrier : option nat) (q : SerialQueue) : bool :=
  match barrier with
  | None => true
  | Some n => bool_decide (n ∈ q.(settled).*1)
  end.
Definition flushOutcome (requireSuccess : bool) (q : SerialQueue) : option E :=
  if requireSuccess then q.(firstFailure) else None.

Inductive Event :=
| Enqueue (weightOption : option jsint) (sealOnOverflow : bool)
| Settle (failure : option E)
| Microtask
| Seal.

Definition event (o : Options) (e : Event) (q : SerialQueue) : SerialQueue :=
  match e with
  | Enqueue w s => (enqueue o w s q).2
  | Settle f => finishTask f q
  | Microtask => runMicrotask q
  | Seal => seal q
  end.

Definition run (o : Options) (es : list Event) (q : SerialQueue) : SerialQueue :=
  foldl (λ q e, event o e q) q es.

Definition worker_ids (w : Worker) : list nat :=
  match w with
  | NoWorker => []
  | Scheduled t | Running t => [t.(task_id)]
  end.

Record serial_ok (o : Options) (q : SerialQueue) : Prop := {
  ok_order : q.(settled).*1 ++ worker_ids q.(worker) ++ (task_id <$> q.(pending)) = seq 0 q.(next_id);
  ok_weight : q.(pendingWeight) = sumZ weight q.(pending);
  ok_count : Z.of_nat (length q.(pending)) ≤ o.(maxPendingCount);
  ok_budget : q.(pendingWeight) ≤ o.(maxPendingWeight);
  ok_active : q.(active) = true ↔ q.(worker) ≠ NoWorker;
  ok_idle : q.(active) = false → q.(pending) = [];
  ok_prefix : q.(settledPrefix) = match q.(next_id) with O => None | S n => Some n end;
  ok_failure : q.(firstFailure) = head (omap snd q.(settled));
  ok_overflow : q.(overflowed) = true → q.(sealed) = true;
  ok_weights : Forall (λ t, 0 ≤ weight t) q.(pending);
}.

Lemma new_ok o : 0 ≤ o.(maxPendingCount) → 0 ≤ o.(maxPendingWeight) → serial_ok o newSerialQueue.
Proof. intros. by constructor. Qed.

Lemma seal_ok o q : serial_ok o q → serial_ok o (seal q).
Proof. intros []. by constructor. Qed.

Lemma enqueue_ok o w s q : serial_ok o q → serial_ok o (enqueue o w s q).2.
Proof.
  intros Hok. unfold enqueue. destruct q.(sealed) eqn:Es; [done|].
  destruct (default (Fin 1) w) as [z| | |]; [|done..].
  destruct (Z.ltb_spec z 0); [done|].
  destruct (_ && _) eqn:Efull.
  { destruct s; [|done]. simpl. destruct Hok. by constructor. }
  destruct Hok as [Hord Hw Hc Hb Ha Hi Hp Hf Ho Hws]. cbv zeta. simpl.
  destruct q.(active) eqn:Ea; simpl in Efull.
  - apply orb_false_iff in Efull as [E1%Z.leb_gt E2%Z.ltb_ge]. constructor; cbn -[seq sumZ]; try done.
    + rewrite fmap_app, (app_assoc (worker_ids _)), (app_assoc q.(settled).*1), Hord.
      by rewrite seq_S.
    + rewrite sumZ_app. simpl. lia.
    + rewrite length_app. simpl. lia.
    + apply Forall_app. auto.
  - rewrite Hi in * by done. constructor; cbn -[seq sumZ]; try done.
    + destruct q.(worker); cbn -[seq] in *.
      * rewrite seq_S, <-Hord. by rewrite app_nil_r.
      * destruct Ha as [_ Ha]. by discriminate Ha.
      * destruct Ha as [_ Ha]. by discriminate Ha.
Qed.

Lemma finish_ok o f q : serial_ok o q → serial_ok o (finishTask f q).
Proof.
  intros Hok. unfold finishTask. destruct q.(worker) as [|t|t] eqn:Ew; [done..|].
  destruct Hok as [Hord Hw Hc Hb Ha Hi Hp Hf Ho Hws]. rewrite Ew in Hord, Ha. cbn -[seq] in Hord.
  set (q1 := match f, q.(firstFailure) with Some e, None => q <| firstFailure := Some e |> | _, _ => q end).
  assert (Hq1 : q1 = q <| firstFailure := head (omap snd (q.(settled) ++ [(t.(task_id), f)])) |>).
  { unfold q1. rewrite omap_app, Hf. cbn. destruct q. cbn in *.
    destruct f, (omap snd settled0); cbn in *; by rewrite ?Hf. }
  rewrite Hq1. cbn. destruct q.(pending) as [|next r] eqn:Er.
  - constructor; cbn -[seq sumZ]; try done.
    + rewrite fmap_app, <-app_assoc. exact Hord.
  - cbn -[seq sumZ] in Hord, Hc, Hw. apply Forall_cons in Hws as [Hn Hws]. rewrite sumZ_cons in Hw.
    constructor; cbn -[seq sumZ]; try done; try lia.
    + rewrite fmap_app, <-app_assoc. exact Hord.
    + split; [done|]. intros _. by apply Ha.
    + intros Hact. by specialize (Hi Hact).
Qed.

Lemma microtask_ok o q : serial_ok o q → serial_ok o (runMicrotask q).
Proof.
  intros Hok. unfold runMicrotask, startTask. destruct q.(worker) as [|t|t] eqn:Ew; [done| |done].
  destruct Hok as [Hord Hw Hc Hb Ha Hi Hp Hf Ho Hws]. rewrite Ew in Hord, Ha.
  constructor; cbn -[seq sumZ]; try done. split; [done|]. intros _. by apply Ha.
Qed.

Lemma serial_run_ok o es q : serial_ok o q → serial_ok o (run o es q).
Proof.
  revert q. induction es as [|e es IH]; intros q Hq; [done|]. apply IH.
  destruct e; simpl; auto using enqueue_ok, finish_ok, microtask_ok, seal_ok.
Qed.

(** A settled task settles the whole prefix accepted before it. *)
Lemma settled_prefix_closed o q n m :
  serial_ok o q → n ∈ q.(settled).*1 → (m ≤ n)%nat → m ∈ q.(settled).*1.
Proof.
  intros Hok Hn Hm. pose proof (ok_order _ _ Hok) as Ho.
  apply list_elem_of_lookup in Hn as [i Hi]. apply list_elem_of_lookup. exists m.
  assert (Hlt : (i < length q.(settled).*1)%nat) by (by eapply lookup_lt_Some).
  assert (Hseq : (seq 0 q.(next_id)) !! i = Some n) by (by rewrite <-Ho, lookup_app_l).
  apply lookup_seq in Hseq as [-> Hi']. simpl in *.
  rewrite <-(lookup_app_l _ (worker_ids q.(worker) ++ (task_id <$> q.(pending)))) by lia.
  rewrite Ho. apply lookup_seq. lia.
Qed.

End serial.
Arguments SerialQueue : clear implicits.
Arguments Event : clear implicits.

(** In every run of a serial queue the accepted tasks settle in the order
    of their admission, each exactly once, and no task starts before the one
    before it has settled; the waiting tasks stay within the count and the
    weight the options allow; the barrier a flush waits for is settled exactly
    when every task accepted before it is; and a flush that demands success
    reports the first failure there was. *)
Theorem serial_queue_runs_in_order {E} (o : Options) (es : list (Event E)) q :
  0 ≤ o.(maxPendingCount) → 0 ≤ o.(maxPendingWeight) → q = run o es newSerialQueue →
  q.(settled).*1 ++ worker_ids q.(worker) ++ (task_id <$> q.(pending)) = seq 0 q.(next_id) ∧
  Z.of_nat (length q.(pending)) ≤ o.(maxPendingCount) ∧
  sumZ weight q.(pending) ≤ o.(maxPendingWeight) ∧
  (isIdle q = true ↔ q.(settled).*1 = seq 0 q.(next_id)) ∧
  (∀ es', prefixSettled (flush q) (run o es' q) = true ↔
     ∀ n, (n < q.(next_id))%nat → n ∈ (run o es' q).(settled).*1) ∧
  flushOutcome true q = head (omap snd q.(settled)).
Proof.
  intros Hc Hw Hq. assert (Hok : serial_ok o q) by (subst q; apply serial_run_ok, new_ok; done).
  clear Hq. pose proof Hok as [Hord Hwt Hcnt Hb Ha Hi Hp Hf _ _]. split_and!; [done..|lia| | |done].
  - unfold isIdle. split.
    + intros [Hact%negb_true_iff _]%andb_true_iff. rewrite Hi in Hord by done.
      destruct q.(worker); [by rewrite app_nil_r in Hord|..];
        destruct Ha as [_ Ha]; by rewrite Ha in Hact.
    + intros Hs. rewrite Hs in Hord. rewrite <-(app_nil_r (seq 0 q.(next_id))) in Hord at 2.
      apply app_inv_head, app_eq_nil in Hord as [E1 E2]. apply fmap_nil_inv in E2. rewrite E2.
      destruct q.(worker); [|done..]. rewrite andb_true_r. apply negb_true_iff, not_true_iff_false.
      intros Hact. by apply Ha in Hact.
  - intros es'. pose proof (serial_run_ok o es' q Hok) as Hok'. unfold flush. rewrite Hp.
    destruct q.(next_id) as [|n]; simpl; [split; [lia|done]|].
    rewrite bool_decide_eq_true. split; [|intros H; apply H; lia].
    intros Hn m Hm. apply (settled_prefix_closed o _ n m Hok' Hn). lia.
Qed.

(** The second task fails, the fourth overflows the budget and seals. *)
Example serial_queue_runs_in_order_witness :
  let o := {| maxPendingCount := 2; maxPendingWeight := 5 |} in
  let q := run (E := string) o
    [Enqueue None true; Enqueue (Some (Fin 2)) true; Enqueue (Some (Fin 3)) true;
     Enqueue None true; Settle None; Microtask; Settle (Some "late"); Enqueue None true]
    newSerialQueue in
  q.(settled) = [(0%nat, None); (1%nat, Some "late")] ∧ q.(sealed) = true ∧
  q.(settled).*1 ++ worker_ids q.(worker) ++ (task_id <$> q.(pending)) = [0; 1; 2]%nat ∧
  flushOutcome true q = Some "late".
Proof.
  intros o q.
  destruct (serial_queue_runs_in_order o
    [Enqueue None true; Enqueue (Some (Fin 2)) true; Enqueue (Some (Fin 3)) true;
     Enqueue None true; Settle None; Microtask; Settle (Some "late"); Enqueue None true]
    q) as (H1 & _ & _ & _ & _ & H6); [done|done|done|].
  split_and!; [done|done|exact H1|exact H6].
Defined.
End Serial.

(** ** The bounded buffer *)
Module Buffer.
Section buffer.
Context {T : Type}.

Inductive Overflow :=
| Latch
| DropOldest (fit : option (T → Z → T))
| FailClosed.

Record BoundedBuffer := {
  values : list T;
  size : Z;
  closed : bool;
  (** The calls of [onOverflow]. *)
  overflows : nat;
}.

#[export] Instance BoundedBuffer_eta : Eta BoundedBuffer := λ b,
  {| values := b.(values); size := b.(size); closed := b.(closed); overflows := b.(overflows) |}.

Definition newBoundedBuffer : BoundedBuffer :=
  {| values := []; size := 0; closed := false; overflows := 0 |}.

Variables (capacity : Z) (overflow : Overflow) (measure : T → Z).

(** [while (size > capacity && values.length > 1) size -= measure(values.shift())] *)
Fixpoint shrink (values : list T) (size : Z) : list T * Z :=
  match values with
  | v :: ((_ :: _) as r) => if capacity <? size then shrink r (size - measure v) else (values, size)
  | _ => (values, size)
  end.

Definition push (value : T) (b : BoundedBuffer) : bool * BoundedBuffer :=
  if b.(closed) then (false, b)
  else
    let valueSize := measure value in
    if b.(size) + valueSize <=? capacity then
      (true, b <| values ::= λ l, l ++ [value] |> <| size ::= λ n, n + valueSize |>)
    else
      match overflow with
      | Latch => (false, b <| closed := true |>)
      | FailClosed =>
          (false, {| values := []; size := 0; closed := true; overflows := S b.(overflows) |})
      | DropOldest fit =>
          let '(values', size') := shrink (b.(values) ++ [value]) (b.(size) + valueSize) in
          (true,
           if capacity <? size' then
             match fit with
             | Some f => b <| values := [f value capacity] |> <| size := measure (f value capacity) |>
             | None => b <| values := [] |> <| size := 0 |>
             end
           else b <| values := values' |> <| size := size' |>)
      end.

Definition drain (b : BoundedBuffer) : list T * BoundedBuffer :=
  (b.(values), b <| values := [] |> <| size := 0 |>).

Inductive Event :=
| Push (value : T)
| Drain.

(** The buffer and what its drains have handed out. *)
Definition event (e : Event) (s : BoundedBuffer * list T) : BoundedBuffer * list T :=
  match e with
  | Push v => ((push v s.1).2, s.2)
  | Drain => ((drain s.1).2, s.2 ++ (drain s.1).1)
  end.

Definition pushed (es : list Event) : list T :=
  es ≫= λ e, match e with Push v => [v] | Drain => [] end.

Definition run (es : list Event) : BoundedBuffer * list T :=
  foldl (λ s e, event e s) (newBoundedBuffer, []) es.

Lemma run_snoc es e : run (es ++ [e]) = event e (run es).
Proof. unfold run. by rewrite foldl_app. Qed.

Lemma pushed_snoc es e : pushed (es ++ [e]) = pushed es ++ pushed [e].
Proof. unfold pushed. by rewrite bind_app. Qed.

Lemma shrink_cons2 v w r n :
  shrink (v :: w :: r) n =
    if capacity <? n then shrink (w :: r) (n - measure v) else (v :: w :: r, n).
Proof. done. Qed.

Lemma shrink_spec l n :
  n = sumZ measure l →
  let '(l', n') := shrink l n in
  n' = sumZ measure l' ∧ (∃ k, l' = drop k l) ∧ (l ≠ [] → l' ≠ []) ∧
  (capacity < n' → (length l' ≤ 1)%nat).
Proof.
  revert n. induction l as [|v r IH]; intros n Hn.
  { simpl. split_and!; [done|by exists 0%nat|done|simpl; lia]. }
  destruct r as [|w r].
  { simpl. split_and!; [done|by exists 0%nat|done|simpl; lia]. }
  rewrite shrink_cons2. destruct (Z.ltb_spec capacity n).
  - specialize (IH (n - measure v)). rewrite sumZ_cons in Hn.
    destruct (shrink (w :: r) (n - measure v)) as [l' n'].
    destruct IH as (H1 & [k ->] & H3 & H4); [lia|]. cbv iota. split_and!; [done|by exists (S k)| |done].
    intros _. by apply H3.
  - cbv iota. split_and!; [done|by exists 0%nat|done|lia].
Qed.

Definition fit_respects : Prop :=
  match overflow with
  | DropOldest (Some f) => ∀ v, measure (f v capacity) ≤ capacity
  | _ => True
  end.

Definition buffer_ok (b : BoundedBuffer) : Prop :=
  b.(size) = sumZ measure b.(values) ∧ b.(size) ≤ capacity.

Lemma push_ok v b : 0 ≤ capacity → fit_respects → buffer_ok b → buffer_ok (push v b).2.
Proof.
  intros Hc Hf [Hs Hle]. unfold push. destruct b.(closed); [done|]. cbv zeta.
  destruct (Z.leb_spec (b.(size) + measure v) capacity).
  { split; cbn -[sumZ]; [rewrite sumZ_app; simpl; lia|done]. }
  unfold fit_respects in Hf. destruct overflow as [|fit|]; [done| |done].
  pose proof (shrink_spec (b.(values) ++ [v]) (b.(size) + measure v)) as Hsh.
  destruct (shrink _ _) as [l' n'].
  destruct Hsh as (H1 & _); [rewrite sumZ_app; simpl; lia|].
  destruct (Z.ltb_spec capacity n'); [|split; cbn -[sumZ]; [done|lia]].
  destruct fit as [f|]; cbn -[sumZ]; [|done]. split; simpl; [lia|apply Hf].
Qed.

Lemma run_buffer_ok es : 0 ≤ capacity → fit_respects → buffer_ok (run es).1.
Proof.
  intros Hc Hf. induction es as [|e es IH] using rev_ind; [by split|].
  rewrite run_snoc. destruct e; simpl; [by apply push_ok|done].
Qed.

(** The contents by mode, after pushing [ps] and draining [drained]. *)
Definition contents_ok (b : BoundedBuffer) (drained ps : list T) : Prop :=
  match overflow with
  | Latch =>
      drained ++ b.(values) `prefix_of` ps ∧
      (b.(closed) = false → drained ++ b.(values) = ps)
  | FailClosed =>
      if b.(closed) then b.(values) = [] ∧ b.(overflows) = 1%nat ∧ drained `prefix_of` ps
      else b.(overflows) = 0%nat ∧ drained ++ b.(values) = ps
  | DropOldest None => b.(closed) = false ∧ b.(values) `suffix_of` ps
  | DropOldest (Some _) => b.(closed) = false
  end.

Lemma push_contents v b d ps :
  b.(size) = sumZ measure b.(values) →
  contents_ok b d ps → contents_ok (push v b).2 d (ps ++ [v]).
Proof.
  intros Hs. unfold contents_ok, push. cbv zeta.
  destruct overflow as [|[f|]|].
  - intros [Hp Hc]. destruct b.(closed) eqn:Ec.
    { cbn. rewrite Ec. split; [by apply prefix_app_r|done]. }
    rewrite <-(Hc eq_refl). destruct (_ <=? _); cbn.
    + rewrite Ec, <-app_assoc. split; [done|done].
    + by split; [by apply prefix_app_r|].
  - intros Ec. rewrite Ec. destruct (_ <=? _); [done|]. destruct (shrink _ _).
    by destruct (capacity <? _).
  - intros [Ec Hp]. rewrite Ec. destruct (_ <=? _); cbn.
    { split; [done|]. by apply suffix_app. }
    pose proof (shrink_spec (b.(values) ++ [v]) (b.(size) + measure v)) as Hsh.
    destruct (shrink _ _) as [l' n'].
    destruct Hsh as (_ & [k Hk] & _); [rewrite sumZ_app; simpl; lia|].
    destruct (capacity <? n'); cbn; (split; [done|]); [apply suffix_nil|].
    rewrite Hk. trans (b.(values) ++ [v]); [apply suffix_drop|by apply suffix_app].
  - destruct b.(closed) eqn:Ec.
    { intros (H1 & H2 & H3). cbn. rewrite Ec. split_and!; [done..|by apply prefix_app_r]. }
    intros [Ho <-]. destruct (_ <=? _); cbn.
    + rewrite Ec. by rewrite <-app_assoc.
    + rewrite Ho. split_and!; [done..|]. by do 2 apply prefix_app_r.
Qed.

Lemma drain_contents b d ps :
  contents_ok b d ps → contents_ok (drain b).2 (d ++ (drain b).1) ps.
Proof.
  unfold contents_ok, drain. cbn. destruct overflow as [|[f|]|]; rewrite ?app_nil_r; [done|done| |].
  - intros [? _]. split; [done|apply suffix_nil].
  - destruct b.(closed); [|by intros [? ?]]. intros (-> & ? & ?). by rewrite app_nil_r.
Qed.

Lemma run_contents es :
  0 ≤ capacity → fit_respects → contents_ok (run es).1 (run es).2 (pushed es).
Proof.
  intros Hc Hf. induction es as [|e es IH] using rev_ind.
  { unfold contents_ok. cbn. destruct overflow as [|[f|]|]; naive_solver. }
  rewrite run_snoc, pushed_snoc. destruct e; cbn [event fst snd].
  - apply push_contents; [|done]. by apply run_buffer_ok.
  - rewrite app_nil_r. by apply drain_contents.
Qed.

End buffer.
Arguments Overflow : clear implicits.
Arguments Event : clear implicits.

(** A bounded buffer knows the exact total of what it holds and never
    exceeds its capacity.  A latching buffer hands out a prefix of what was
    pushed, all of it until the first value it refused; a fail-closed buffer
    hands out everything or, from the one overflow it reports, nothing more;
    a buffer that drops the oldest never closes and holds the newest values. *)
Theorem bounded_buffer_contents {T} capacity overflow (measure : T → Z) es :
  0 ≤ capacity → fit_respects capacity overflow measure →
  let '(b, drained) := run capacity overflow measure es in
  b.(size) = sumZ measure b.(values) ∧ b.(size) ≤ capacity ∧
  contents_ok overflow b drained (pushed es).
Proof.
  intros Hc Hf. destruct (run capacity overflow measure es) as [b drained] eqn:Er.
  pose proof (run_buffer_ok capacity overflow measure es Hc Hf) as [H1 H2].
  pose proof (run_contents capacity overflow measure es Hc Hf) as H3. by rewrite Er in *.
Qed.

(** Five units of room: the fourth value pushes the first two out. *)
Example bounded_buffer_contents_witness :
  let s := run 5 (DropOldest None) (λ n, n) [Push 1; Push 2; Push 2; Push 3] in
  s.1.(values) = [2; 3] ∧ s.1.(size) = 5 ∧ s.1.(values) `suffix_of` [1; 2; 2; 3].
Proof.
  intros s. assert (H0 : 0 ≤ 5) by lia.
  destruct (bounded_buffer_contents 5 (DropOldest None) (λ n, n) [Push 1; Push 2; Push 2; Push 3] H0 I)
    as (_ & _ & _ & H). split_and!; [done|done|exact H].
Defined.
End Buffer.

(** ** Requests that wait for a reply

    Entries are objects: they live in a store under their number, and [take]
    compares identities.  A callback of an entry does not call the registry. *)
Module Requests.
Section requests.
Context {K : Type} `{EqDecision K}.

Inductive Rejection :=
| TimedOut
| AllRejected.

#[export] Instance Rejection_eq_dec : EqDecision Rejection.
Proof. solve_decision. Defined.

Record Entry := {
  timer_armed : bool;
  disposals : nat;
  (** What the registry itself rejected the promise with. *)
  rejections : list Rejection;
}.

#[export] Instance Entry_eta : Eta Entry := λ e,
  {| timer_armed := e.(timer_armed); disposals := e.(disposals); rejections := e.(rejections) |}.

Record Registry := {
  pending : list (K * nat);
  entries : list Entry;
}.

#[export] Instance Registry_eta : Eta Registry := λ r,
  {| pending := r.(pending); entries := r.(entries) |}.

Definition createPendingRequestRegistry : Registry := {| pending := []; entries := [] |}.

(** [clearTimeout(entry.timer); entry.dispose?.()] *)
Definition release (id : nat) (r : Registry) : Registry :=
  r <| entries ::= alter (λ e, {| timer_armed := false; disposals := S e.(disposals);
                                  rejections := e.(rejections) |}) id |>.

Definition reject (reason : Rejection) (id : nat) (r : Registry) : Registry :=
  r <| entries ::= alter (λ e, e <| rejections ::= λ l, l ++ [reason] |>) id |>.

Definition take (key : K) (expected : option nat) (r : Registry) : option nat * Registry :=
  match JsMap.get key r.(pending) with
  | None => (None, r)
  | Some id =>
      if (match expected with Some x => negb (Nat.eqb x id) | None => false end) then (None, r)
      else (Some id, release id (r <| pending ::= JsMap.delete key |>))
  end.

(** The new entry and the registry; the timer is armed with [timeoutMs]. *)
Definition add (key : K) (r : Registry) : option nat * Registry :=
  if JsMap.has key r.(pending) then (None, r)
  else
    let id := length r.(entries) in
    (Some id,
     {| pending := JsMap.set key id r.(pending);
        entries := r.(entries) ++ [{| timer_armed := true; disposals := 0; rejections := [] |}] |}).

(** The timer callback of an entry added under [key]. *)
Definition onTimer (key : K) (id : nat) (r : Registry) : Registry :=
  let '(timedOut, r') := take key (Some id) r in
  match timedOut with
  | Some id => reject TimedOut id r'
  | None => r'
  end.

Definition rejectAll (r : Registry) : Registry :=
  let ids := JsMap.values r.(pending) in
  foldl (λ r id, reject AllRejected id (release id r)) (r <| pending := [] |>) ids.

Inductive Event :=
| Add (key : K)
| Take (key : K) (expected : option nat)
| Timer (key : K) (id : nat)
| RejectAll.

(** The registry and the entries it has handed to [take]'s callers.  A timer
    that has been cleared does not fire. *)
Definition event (e : Event) (s : Registry * list nat) : Registry * list nat :=
  match e with
  | Add key => ((add key s.1).2, s.2)
  | Take key expected =>
      let '(id, r') := take key expected s.1 in (r', s.2 ++ option_list id)
  | Timer key id =>
      match s.1.(entries) !! id with
      | Some e => if e.(timer_armed) then (onTimer key id s.1, s.2) else s
      | None => s
      end
  | RejectAll => (rejectAll s.1, s.2)
  end.

Definition run (es : list Event) : Registry * list nat :=
  foldl (λ s e, event e s) (createPendingRequestRegistry, []) es.

(** An entry is pending, or was taken, or was rejected once. *)
Definition entry_ok (r : Registry) (taken : list nat) (id : nat) (e : Entry) : Prop :=
  if decide (id ∈ JsMap.values r.(pending)) then
    e.(timer_armed) = true ∧ e.(disposals) = 0%nat ∧ e.(rejections) = [] ∧ id ∉ taken
  else
    e.(timer_armed) = false ∧ e.(disposals) = 1%nat ∧
    (id ∈ taken ∧ e.(rejections) = [] ∨ id ∉ taken ∧ ∃ reason, e.(rejections) = [reason]).

Record registry_ok (r : Registry) (taken : list nat) : Prop := {
  ok_keys : NoDup (JsMap.keys r.(pending));
  ok_values : NoDup (JsMap.values r.(pending));
  ok_bounds : ∀ id, id ∈ JsMap.values r.(pending) → (id < length r.(entries))%nat;
  ok_taken : NoDup taken ∧ ∀ id, id ∈ taken → (id < length r.(entries))%nat;
  ok_entries : ∀ id e, r.(entries) !! id = Some e → entry_ok r taken id e;
}.

Lemma take_None key expected r r' : take key expected r = (None, r') → r' = r.
Proof.
  unfold take. destruct (JsMap.get key r.(pending)); [|congruence].
  destruct (match expected with Some _ => _ | None => _ end); congruence.
Qed.

(** What a successful [take] does to the map and to the entries. *)
Lemma take_Some key expected r id r' taken :
  registry_ok r taken → take key expected r = (Some id, r') →
  JsMap.values r.(pending) ≡ₚ id :: JsMap.values r'.(pending) ∧
  NoDup (JsMap.keys r'.(pending)) ∧ r'.(entries) = (release id r).(entries).
Proof.
  intros Hok. unfold take. destruct (JsMap.get key r.(pending)) as [x|] eqn:Hg; [|done].
  destruct (match expected with Some _ => _ | None => _ end); [done|]. intros [= -> <-]. cbn.
  pose proof (ok_keys _ _ Hok) as Hk. split_and!; [by apply JsMap.values_delete| |done].
  by apply JsMap.NoDup_keys_delete.
Qed.

Lemma add_ok key r taken : registry_ok r taken → registry_ok (add key r).2 taken.
Proof.
  intros Hok. unfold add. destruct (JsMap.has key r.(pending)) eqn:Eh; [done|].
  destruct Hok as [Hk Hv Hb [Ht Htb] He]. cbn.
  unfold JsMap.has in Eh. apply bool_decide_eq_false in Eh. apply eq_None_not_Some in Eh.
  assert (Hvals : JsMap.values (JsMap.set key (length r.(entries)) r.(pending)) =
    JsMap.values r.(pending) ++ [length r.(entries)]).
  { rewrite JsMap.set_fresh by done. unfold JsMap.values. by rewrite fmap_app. }
  constructor; cbn -[JsMap.values JsMap.set].
  - by apply JsMap.NoDup_keys_set.
  - rewrite Hvals. apply NoDup_app. split; [done|]. split; [|apply NoDup_singleton].
    intros x Hx ->%list_elem_of_singleton. apply Hb in Hx. lia.
  - intros id. rewrite Hvals, length_app. simpl. intros [Hx%Hb| ->%list_elem_of_singleton]%elem_of_app; lia.
  - split; [done|]. intros id Hid%Htb. rewrite length_app. lia.
  - intros id e Hl. unfold entry_ok. cbn -[JsMap.values JsMap.set]. rewrite Hvals.
    apply lookup_app_Some in Hl as [Hl|[Hge Hl]].
    + pose proof (lookup_lt_Some _ _ _ Hl). specialize (He _ _ Hl). unfold entry_ok in He.
      destruct (decide (id ∈ JsMap.values r.(pending))).
      * rewrite decide_True by set_solver. done.
      * rewrite decide_False; [done|]. rewrite elem_of_app, list_elem_of_singleton. naive_solver lia.
    + apply list_lookup_singleton_Some in Hl as [Hid <-].
      rewrite decide_True by (apply elem_of_app; right; apply list_elem_of_singleton; lia).
      split_and!; [done..|]. intros Hx%Htb. lia.
Qed.

(** Releasing a pending entry that leaves the map, with what becomes of it. *)
Lemma entry_release_ok r r' taken taken' id f :
  registry_ok r taken →
  JsMap.values r.(pending) ≡ₚ id :: JsMap.values r'.(pending) →
  NoDup (JsMap.keys r'.(pending)) →
  r'.(entries) = alter f id r.(entries) →
  (taken' = taken ++ [id] ∧ (∀ e, f e = {| timer_armed := false; disposals := S e.(disposals);
                                          rejections := e.(rejections) |}) ∨
   taken' = taken ∧ ∃ reason, ∀ e, f e = {| timer_armed := false; disposals := S e.(disposals);
                                           rejections := e.(rejections) ++ [reason] |}) →
  registry_ok r' taken'.
Proof.
  intros [Hk Hv Hb [Ht Htb] He] Hp Hk' Hent Hcase.
  pose proof Hv as Hv'. rewrite Hp in Hv'. apply NoDup_cons in Hv' as [Hid Hv'].
  assert (Hin : id ∈ JsMap.values r.(pending)) by (rewrite Hp; set_solver).
  assert (Hfresh : id ∉ taken).
  { destruct (lookup_lt_is_Some_2 r.(entries) id (Hb _ Hin)) as [e Hl].
    pose proof (He _ _ Hl) as Ho. unfold entry_ok in Ho. rewrite decide_True in Ho by done.
    by destruct Ho as (_ & _ & _ & ?). }
  assert (Hlen : length r'.(entries) = length r.(entries)) by (by rewrite Hent, length_alter).
  constructor; [done|done| | |].
  - intros x Hx. rewrite Hlen. apply Hb. rewrite Hp. set_solver.
  - rewrite Hlen. destruct Hcase as [[-> _]|[-> _]]; [|done]. split.
    + apply NoDup_app. split; [done|]. split; [set_solver|apply NoDup_singleton].
    + intros x [?| ->%list_elem_of_singleton]%elem_of_app; auto.
  - intros x e. rewrite Hent. destruct (decide (x = id)) as [->|Hne].
    + rewrite list_lookup_alter, decide_True by done. intros (e0 & Hl & ->)%fmap_Some. specialize (He _ _ Hl).
      unfold entry_ok in He |- *. rewrite decide_True in He by done.
      rewrite decide_False by done. destruct He as (H1 & H2 & H3 & H4).
      destruct Hcase as [[-> Hf]|[-> [reason Hf]]]; rewrite Hf; cbn; rewrite H2, H3.
      * split_and!; [done..|]. left. split; [set_solver|done].
      * split_and!; [done..|]. right. eauto.
    + rewrite list_lookup_alter_ne by done. intros Hl. specialize (He _ _ Hl).
      unfold entry_ok in He |- *.
      assert (Hiff : x ∈ JsMap.values r.(pending) ↔ x ∈ JsMap.values r'.(pending))
        by (rewrite Hp; set_solver).
      assert (Ht' : x ∈ taken' ↔ x ∈ taken) by (destruct Hcase as [[-> _]|[-> _]]; set_solver).
      destruct (decide (x ∈ JsMap.values r.(pending))).
      * rewrite decide_True by tauto. by rewrite Ht'.
      * rewrite decide_False by tauto. by rewrite Ht'.
Qed.

Lemma alter_alter {A} (f g : A → A) i (l : list A) :
  alter f i (alter g i l) = alter (λ x, f (g x)) i l.
Proof. revert i. induction l as [|x l IH]; intros [|i]; [done..|]. cbn. by f_equal. Qed.

Lemma rejectAll_ok r taken : registry_ok r taken → registry_ok (rejectAll r) taken.
Proof.
  intros Hok. unfold rejectAll.
  assert (Hgen : ∀ m r0, registry_ok (r0 <| pending := m |>) taken →
    registry_ok (foldl (λ r id, reject AllRejected id (release id r)) (r0 <| pending := [] |>)
      (JsMap.values m)) taken).
  { induction m as [|[k id] m IH]; intros r0 H0; [done|]. cbn [JsMap.values fmap list_fmap foldl snd].
    change (reject AllRejected id (release id (r0 <| pending := [] |>))) with
      ((reject AllRejected id (release id r0)) <| pending := [] |>). apply IH.
    eapply (entry_release_ok _ _ _ _ id (λ e, {| timer_armed := false; disposals := S e.(disposals);
      rejections := e.(rejections) ++ [AllRejected] |}) H0); cbn.
    - done.
    - pose proof (ok_keys _ _ H0) as Hk. cbn in Hk. by apply NoDup_cons in Hk as [_ ?].
    - apply alter_alter.
    - right. split; [done|]. by exists AllRejected. }
  apply (Hgen r.(pending) r). by destruct r.
Qed.

Lemma event_ok e s : registry_ok s.1 s.2 → registry_ok (event e s).1 (event e s).2.
Proof.
  destruct s as [r taken]. intros Hok. destruct e as [key|key expected|key id|]; cbn in *.
  - by apply add_ok.
  - destruct (take key expected r) as [[id|] r'] eqn:Et; cbn.
    + destruct (take_Some _ _ _ _ _ _ Hok Et) as (H1 & H2 & H3).
      eapply (entry_release_ok r r' taken _ id _ Hok H1 H2 H3). left. done.
    + apply take_None in Et as ->. by rewrite app_nil_r.
  - destruct (r.(entries) !! id) as [e|]; [|done]. destruct e.(timer_armed); [|done]. cbn.
    unfold onTimer. destruct (take key (Some id) r) as [[x|] r'] eqn:Et; cbn.
    + destruct (take_Some _ _ _ _ _ _ Hok Et) as (H1 & H2 & H3).
      apply (entry_release_ok r (reject TimedOut x r') taken taken x (λ e,
        {| timer_armed := false; disposals := S e.(disposals);
           rejections := e.(rejections) ++ [TimedOut] |}) Hok H1 H2).
      * cbn. rewrite H3. cbn. apply alter_alter.
      * right. split; [done|]. by exists TimedOut.
    + by apply take_None in Et as ->.
  - by apply rejectAll_ok.
Qed.

Lemma requests_run_ok es : registry_ok (run es).1 (run es).2.
Proof.
  unfold run. assert (H0 : registry_ok createPendingRequestRegistry []).
  { constructor; cbn; [constructor|constructor|set_solver|split; [constructor|set_solver]|done]. }
  revert H0. generalize createPendingRequestRegistry, (@nil nat).
  induction es as [|e es IH]; intros r0 t0 H0; [done|]. cbn [foldl].
  pose proof (event_ok e (r0, t0) H0) as H1. destruct (event e (r0, t0)) as [r1 t1]. by apply IH.
Qed.

End requests.
Arguments Registry : clear implicits.
Arguments Event : clear implicits.

(** Every request is settled once and cleaned up once.  At any moment an
    entry of the registry is either still pending, its timer armed and its
    disposal not called, or it has left the registry with its timer cleared
    and its disposal called exactly once; in that case either one caller took
    it and the registry never rejects it, or nobody took it and the registry
    rejected it exactly once.  No two callers take the same entry. *)
Theorem pending_requests_settle_once {K} `{EqDecision K} (es : list (Event K)) r taken :
  run es = (r, taken) →
  NoDup taken ∧
  ∀ id e, r.(entries) !! id = Some e →
    (id ∈ JsMap.values r.(pending) ∧ e.(timer_armed) = true ∧ e.(disposals) = 0%nat ∧
       e.(rejections) = [] ∧ id ∉ taken) ∨
    (id ∉ JsMap.values r.(pending) ∧ e.(timer_armed) = false ∧ e.(disposals) = 1%nat ∧
       (id ∈ taken ∧ e.(rejections) = [] ∨ id ∉ taken ∧ ∃ reason, e.(rejections) = [reason])).
Proof.
  intros Hr. pose proof (requests_run_ok es) as Hok. rewrite Hr in Hok. cbn in Hok.
  split; [by destruct (ok_taken _ _ Hok)|]. intros id e Hl.
  pose proof (ok_entries _ _ Hok id e Hl) as He. unfold entry_ok in He.
  destruct (decide (id ∈ JsMap.values r.(pending))); [by left|by right].
Qed.

(** A key is reused; the first request's timer cannot reach the second. *)
Example pending_requests_settle_once_witness :
  let s := run [Add 7; Take 7 (Some 0%nat); Add 7; Timer 7 0; RejectAll] in
  s.2 = [0%nat] ∧ NoDup s.2 ∧ rejections <$> s.1.(entries) = [[]; [AllRejected]].
Proof.
  intros s.
  destruct (pending_requests_settle_once
    [Add 7; Take 7 (Some 0%nat); Add 7; Timer 7 0; RejectAll] s.1 s.2) as [H _]; [done|].
  split_and!; [done|exact H|done].
Defined.
End Requests.
