(* ===== verification/KeyedQueues.v ===== *)
(** * Work ordered per key

    Reservations of several keys at once in first-in first-out order
    ([src/shared/keyed-fifo-lease.ts]) and the writers of a store path, one at
    a time ([src/shared/store-writer-queue.ts]). *)
From stdpp Require Import sorting.
From S2P Require Import Prelude JsCollections.
Local Open Scope Z_scope.

(** ** Leases

    A promise chain is what it waits for: the tail a lease leaves under a key
    settles once the predecessors of the lease under that key and the lease
    itself are released.  A tail is identified by its key and its lease. *)
Module Lease.

Record Tail := {
  owner : nat;
  waits : list nat;
}.

Record LeaseRecord := {
  lease_keys : list string;
  predecessors : list (list nat);
  released : bool;
}.

#[export] Instance LeaseRecord_eta : Eta LeaseRecord := λ l,
  {| lease_keys := l.(lease_keys); predecessors := l.(predecessors); released := l.(released) |}.

Record KeyedFifoLeaseState := {
  tails : list (string * Tail);
  (** [releases]: the leases that can still be released. *)
  releases : list nat;
  leases : list LeaseRecord;
}.

#[export] Instance KeyedFifoLeaseState_eta : Eta KeyedFifoLeaseState := λ s,
  {| tails := s.(tails); releases := s.(releases); leases := s.(leases) |}.

Definition newRegistry : KeyedFifoLeaseState := {| tails := []; releases := []; leases := [] |}.

Definition tail_waits (key : string) (s : KeyedFifoLeaseState) : list nat :=
  match JsMap.get key s.(tails) with
  | Some t => t.(waits)
  | None => []
  end.

Definition reserve (inputKeys : list string) (s : KeyedFifoLeaseState) :
    option nat * KeyedFifoLeaseState :=
  let keys := merge_sort string_le (JsSet.of_list inputKeys) in
  match keys with
  | [] => (None, s)
  | _ =>
      let id := length s.(leases) in
      let preds := (λ key, tail_waits key s) <$> keys in
      let tails' := foldl (λ m key,
        JsMap.set key {| owner := id; waits := tail_waits key s ++ [id] |} m) s.(tails) keys in
      (Some id,
       {| tails := tails'; releases := JsSet.add id s.(releases);
          leases := s.(leases) ++ [{| lease_keys := keys; predecessors := preds; released := false |}] |})
  end.

Definition release (id : nat) (s : KeyedFifoLeaseState) : KeyedFifoLeaseState :=
  match s.(leases) !! id with
  | Some l =>
      if l.(released) then s
      else s <| leases ::= alter (λ l, l <| released := true |>) id |>
             <| releases ::= JsSet.delete id |>
  | None => s
  end.

Definition isReleased (s : KeyedFifoLeaseState) (id : nat) : bool :=
  match s.(leases) !! id with
  | Some l => l.(released)
  | None => false
  end.

(** Every predecessor promise has settled. *)
Definition ready (s : KeyedFifoLeaseState) (id : nat) : bool :=
  match s.(leases) !! id with
  | Some l => forallb (forallb (isReleased s)) l.(predecessors)
  | None => false
  end.

(** The callback of a released lease on the settlement of its tail. *)
Definition forgetTail (key : string) (id : nat) (s : KeyedFifoLeaseState) : KeyedFifoLeaseState :=
  match JsMap.get key s.(tails) with
  | Some t =>
      if isReleased s id && forallb (isReleased s) t.(waits) && Nat.eqb t.(owner) id
      then s <| tails ::= JsMap.delete key |> else s
  | None => s
  end.

(** Closing the registry. *)
Definition close (s : KeyedFifoLeaseState) : KeyedFifoLeaseState :=
  (foldl (λ s id, release id s) s s.(releases)) <| tails := [] |>.

(** [wait]: what it has resolved with. *)
Record Wait := {
  wait_lease : nat;
  has_signal : bool;
  result : option bool;
}.

Definition wait (id : nat) (signal : option bool) : Wait :=
  {| wait_lease := id; has_signal := bool_decide (is_Some signal);
     result := if default false signal then Some false else None |}.

Definition waitReady (s : KeyedFifoLeaseState) (w : Wait) : Wait :=
  match w.(result) with
  | None =>
      if ready s w.(wait_lease)
      then {| wait_lease := w.(wait_lease); has_signal := w.(has_signal); result := Some true |}
      else w
  | Some _ => w
  end.

Definition waitAborted (w : Wait) : Wait :=
  match w.(result) with
  | None =>
      if w.(has_signal)
      then {| wait_lease := w.(wait_lease); has_signal := true; result := Some false |} else w
  | Some _ => w
  end.

Inductive Event :=
| Reserve (keys : list string)
| Release (id : nat)
| ForgetTail (key : string) (id : nat)
| Close.

Definition event (e : Event) (s : KeyedFifoLeaseState) : KeyedFifoLeaseState :=
  match e with
  | Reserve keys => (reserve keys s).2
  | Release id => release id s
  | ForgetTail key id => forgetTail key id s
  | Close => close s
  end.

Definition run (es : list Event) : KeyedFifoLeaseState := foldl (λ s e, event e s) newRegistry es.

(** ** Exclusion *)

Record leases_ok (s : KeyedFifoLeaseState) : Prop := {
  (** An unreleased lease is waited for by the tail of each of its keys. *)
  ok_tails : ∀ i l k, s.(leases) !! i = Some l → k ∈ l.(lease_keys) → l.(released) = false →
    i ∈ tail_waits k s;
  (** A later lease waits for an earlier one with a common key. *)
  ok_order : ∀ i j li lj k, (i < j)%nat → s.(leases) !! i = Some li → s.(leases) !! j = Some lj →
    k ∈ li.(lease_keys) → k ∈ lj.(lease_keys) → li.(released) = false →
    ∃ p, p ∈ lj.(predecessors) ∧ i ∈ p;
  (** Nobody waits for a later lease. *)
  ok_preds : ∀ j lj p i, s.(leases) !! j = Some lj → p ∈ lj.(predecessors) → i ∈ p → (i < j)%nat;
  ok_waits : ∀ k i, i ∈ tail_waits k s → (i < length s.(leases))%nat;
  ok_releases : ∀ i, isReleased s i = false → (i < length s.(leases))%nat → i ∈ s.(releases);
}.

Lemma tail_waits_set s s' f keys k :
  NoDup keys → s'.(tails) = foldl (λ m key, JsMap.set key (f key) m) s.(tails) keys →
  tail_waits k s' = if decide (k ∈ keys) then (f k).(waits) else tail_waits k s.
Proof.
  unfold tail_waits. intros Hnd ->. generalize s.(tails) as m. revert Hnd.
  induction keys as [|key keys IH]; intros Hnd m; [done|].
  apply NoDup_cons in Hnd as [Hk Hnd]. cbn [foldl]. rewrite IH by done.
  destruct (decide (k ∈ keys)) as [Hin|Hin]; [rewrite decide_True by set_solver; done|].
  rewrite JsMap.get_set. destruct (decide (k = key)) as [->|Hne].
  - rewrite decide_True by set_solver. done.
  - rewrite decide_False by set_solver. done.
Qed.

Lemma isReleased_lookup s i l : s.(leases) !! i = Some l → isReleased s i = l.(released).
Proof. unfold isReleased. by intros ->. Qed.

Lemma reserve_ok keys s : leases_ok s → leases_ok (reserve keys s).2.
Proof.
  intros Hok. unfold reserve. cbv zeta.
  assert (Hnd : NoDup (merge_sort string_le (JsSet.of_list keys))).
  { rewrite merge_sort_Permutation. apply JsSet.NoDup_of_list. }
  destruct (merge_sort string_le (JsSet.of_list keys)) as [|k0 ks] eqn:Ek; [done|].
  rewrite <-Ek in *. clear Ek k0 ks. set (sorted := merge_sort _ _) in *.
  destruct Hok as [Ht Ho Hp Hw Hr]. cbn [snd].
  set (s' := {| tails := _; releases := _; leases := _ |}).
  assert (Hwaits : ∀ k, tail_waits k s' =
    if decide (k ∈ sorted) then tail_waits k s ++ [length s.(leases)] else tail_waits k s).
  { intros k. rewrite (tail_waits_set s s' (λ key,
      {| owner := length s.(leases); waits := tail_waits key s ++ [length s.(leases)] |})
      sorted k Hnd); done. }
  constructor.
  - intros i l k Hl Hk Hrel. rewrite Hwaits. cbn in Hl.
    apply lookup_app_Some in Hl as [Hl|[Hge Hl]].
    + pose proof (Ht _ _ _ Hl Hk Hrel). destruct (decide (k ∈ sorted)); set_solver.
    + apply list_lookup_singleton_Some in Hl as [Hi <-]. cbn in Hk.
      rewrite decide_True by done. assert (i = length s.(leases)) as -> by lia. set_solver.
  - intros i j li lj k Hij Hi Hj Hki Hkj Hrel. cbn in Hi, Hj.
    apply lookup_app_Some in Hi as [Hi|[Hge Hi]].
    2: { apply lookup_lt_Some in Hj. rewrite length_app in Hj. simpl in Hj. lia. }
    apply lookup_app_Some in Hj as [Hj|[Hge Hj]]; [by eapply (Ho i j)|].
    apply list_lookup_singleton_Some in Hj as [_ <-]. cbn in Hkj |- *.
    exists (tail_waits k s). split; [|by eapply Ht]. apply list_elem_of_fmap. eauto.
  - intros j lj p i Hj Hpin Hi. cbn in Hj. apply lookup_app_Some in Hj as [Hj|[Hge Hj]];
      [by eapply (Hp j)|].
    apply list_lookup_singleton_Some in Hj as [Hj <-]. cbn in Hpin.
    apply list_elem_of_fmap in Hpin as (k & -> & _). apply Hw in Hi. lia.
  - intros k i. rewrite Hwaits. cbn. rewrite length_app. cbn.
    intros Hi. assert (i = length s.(leases) ∨ i ∈ tail_waits k s) as [->|Hi'].
    { destruct (decide (k ∈ sorted)); set_solver. }
    + lia.
    + apply Hw in Hi'. lia.
  - intros i Hi Hlt. cbn. rewrite JsSet.elem_of_add. cbn in Hlt. rewrite length_app in Hlt.
    simpl in Hlt. destruct (decide (i = length s.(leases))) as [->|Hne]; [by left|right].
    apply Hr; [|lia]. unfold isReleased in *. cbn in Hi. by rewrite lookup_app_l in Hi by lia.
Qed.

Lemma release_ok id s : leases_ok s → leases_ok (release id s).
Proof.
  intros Hok. unfold release. destruct (s.(leases) !! id) as [l0|] eqn:El; [|done].
  destruct l0.(released) eqn:Er; [done|]. destruct Hok as [Ht Ho Hp Hw Hr].
  assert (Hl : ∀ i l, alter (λ l, l <| released := true |>) id s.(leases) !! i = Some l →
    ∃ l', s.(leases) !! i = Some l' ∧ l.(lease_keys) = l'.(lease_keys) ∧
      l.(predecessors) = l'.(predecessors) ∧ (l.(released) = false → l'.(released) = false)).
  { intros i l. destruct (decide (i = id)) as [->|Hne].
    - rewrite list_lookup_alter_eq, El. cbn. intros [= <-]. exists l0. done.
    - rewrite list_lookup_alter_ne by done. intros H. exists l. done. }
  constructor; cbn.
  - intros i l k (l' & Hi & E1 & _ & E3)%Hl Hk Hrel. rewrite E1 in Hk. eapply Ht; eauto.
  - intros i j li lj k Hij (li' & Hi & E1 & _ & E3)%Hl (lj' & Hj & F1 & F2 & _)%Hl Hki Hkj Hrel.
    rewrite E1 in Hki. rewrite F1 in Hkj. rewrite F2. eapply (Ho i j); eauto.
  - intros j lj p i (lj' & Hj & _ & F2 & _)%Hl. rewrite F2. by eapply (Hp j).
  - intros k i Hi. rewrite length_alter. by apply (Hw k).
  - intros i Hi. rewrite length_alter. intros Hlt. apply JsSet.elem_of_delete.
    unfold isReleased in Hi. cbn in Hi. split.
    + intros ->. by rewrite list_lookup_alter_eq, El in Hi.
    + apply Hr; [|done]. unfold isReleased. destruct (decide (i = id)) as [->|Hne].
      * by rewrite El.
      * by rewrite list_lookup_alter_ne in Hi by done.
Qed.

Lemma forget_ok key id s : leases_ok s → leases_ok (forgetTail key id s).
Proof.
  intros Hok. unfold forgetTail. destruct (JsMap.get key s.(tails)) as [t|] eqn:Et; [|done].
  destruct (_ && _) eqn:Ec; [|done]. apply andb_true_iff in Ec as [[_ Hall]%andb_true_iff _].
  destruct Hok as [Ht Ho Hp Hw Hr].
  assert (Htw : ∀ k, tail_waits k (s <| tails ::= JsMap.delete key |>) =
    if decide (k = key) then [] else tail_waits k s).
  { intros k. unfold tail_waits. cbn. rewrite JsMap.get_delete. by case_decide. }
  constructor; [|done|done| |done].
  - intros i l k Hl Hk Hrel. rewrite Htw. pose proof (Ht _ _ _ Hl Hk Hrel) as Hin.
    case_decide as Hkk; [subst k|done]. exfalso. unfold tail_waits in Hin. rewrite Et in Hin.
    rewrite forallb_forall in Hall. apply list_elem_of_In in Hin. specialize (Hall _ Hin).
    rewrite (isReleased_lookup s _ _ Hl) in Hall. congruence.
  - intros k i. rewrite Htw. case_decide; [set_solver|]. apply Hw.
Qed.

Lemma foldl_release_ok ids s : leases_ok s → leases_ok (foldl (λ s id, release id s) s ids).
Proof. revert s. induction ids; simpl; eauto using release_ok. Qed.

Lemma isReleased_release id s i :
  isReleased (release id s) i = isReleased s i || (Nat.eqb i id && bool_decide (i < length s.(leases))%nat).
Proof.
  unfold release, isReleased. destruct (s.(leases) !! id) as [l|] eqn:El.
  - destruct (Nat.eqb_spec i id) as [->|Hne].
    + rewrite bool_decide_true by (by eapply lookup_lt_Some). rewrite El.
      destruct l.(released) eqn:Er; [by rewrite El, Er|]. cbn. rewrite list_lookup_alter_eq, El. done.
    + rewrite orb_false_r. destruct l.(released); [done|]. cbn. by rewrite list_lookup_alter_ne by done.
  - destruct (Nat.eqb_spec i id) as [->|Hne]; [|by rewrite orb_false_r].
    rewrite bool_decide_false by (apply lookup_ge_None in El; lia). by rewrite orb_false_r.
Qed.

Lemma leases_release id s : length (release id s).(leases) = length s.(leases).
Proof.
  unfold release. destruct (s.(leases) !! id); [|done]. destruct released; [done|].
  apply length_alter.
Qed.

Lemma isReleased_foldl ids s i :
  (i < length s.(leases))%nat →
  isReleased (foldl (λ s id, release id s) s ids) i = isReleased s i || bool_decide (i ∈ ids).
Proof.
  revert s. induction ids as [|id ids IH]; intros s Hi; cbn [foldl].
  - rewrite bool_decide_false by set_solver. by rewrite orb_false_r.
  - rewrite IH by (by rewrite leases_release). rewrite isReleased_release.
    rewrite (bool_decide_true (i < _)%nat) by done. rewrite andb_true_r, <-orb_assoc. f_equal.
    destruct (Nat.eqb_spec i id) as [->|Hne]; simpl.
    + by rewrite bool_decide_true by set_solver.
    + apply bool_decide_ext. set_solver.
Qed.

Lemma close_releases_all s i :
  leases_ok s → (i < length s.(leases))%nat → isReleased (close s) i = true.
Proof.
  intros Hok Hi. unfold close.
  change (isReleased (foldl (λ s id, release id s) s s.(releases)) i = true).
  rewrite isReleased_foldl by done. destruct (isReleased s i) eqn:E; [done|].
  apply bool_decide_eq_true. by apply Hok.
Qed.

Lemma length_foldl_release ids s :
  length (foldl (λ s id, release id s) s ids).(leases) = length s.(leases).
Proof. revert s. induction ids as [|id ids IH]; intros s; [done|]. cbn. by rewrite IH, leases_release. Qed.

Lemma close_ok s : leases_ok s → leases_ok (close s).
Proof.
  intros Hok. pose proof (foldl_release_ok s.(releases) s Hok) as [Ht Ho Hp Hw Hr].
  constructor; [|done|done| |done].
  - intros i l k Hl Hk Hrel. exfalso.
    assert (Hlt : (i < length s.(leases))%nat).
    { apply lookup_lt_Some in Hl. unfold close in Hl. cbn in Hl. by rewrite length_foldl_release in Hl. }
    pose proof (close_releases_all s i Hok Hlt) as Hc. rewrite (isReleased_lookup _ _ _ Hl) in Hc.
    congruence.
  - intros k i Hi. by apply not_elem_of_nil in Hi.
Qed.

Lemma leases_run_ok es : leases_ok (run es).
Proof.
  unfold run. assert (H0 : leases_ok newRegistry).
  { constructor; cbn; [done|done|done|set_solver|lia]. }
  revert H0. generalize newRegistry. induction es as [|e es IH]; intros s Hs; [done|].
  apply IH. destruct e; cbn; auto using reserve_ok, release_ok, forget_ok, close_ok.
Qed.

Lemma ready_spec s j lj :
  s.(leases) !! j = Some lj →
  ready s j = true ↔ ∀ p i, p ∈ lj.(predecessors) → i ∈ p → isReleased s i = true.
Proof.
  intros Hj. unfold ready. rewrite Hj. rewrite forallb_forall. split.
  - intros H p i Hp Hi. apply list_elem_of_In in Hp. specialize (H _ Hp).
    rewrite forallb_forall in H. by apply H, list_elem_of_In.
  - intros H p Hp. apply forallb_forall. intros i Hi. apply list_elem_of_In in Hp, Hi. by eapply H.
Qed.

(** In every run of the lease registry, forgotten tails and closing
    included: a lease that is ready shares no key with an earlier lease that
    is not released, so at most one holder of a key proceeds at a time and in
    the order of reservation; the oldest unreleased lease is always ready, so
    reserving several keys at once cannot deadlock; and closing the registry
    makes every lease ready. *)
Theorem leases_exclude_in_order es s :
  s = run es →
  (∀ i j li lj k, (i < j)%nat → s.(leases) !! i = Some li → s.(leases) !! j = Some lj →
     k ∈ li.(lease_keys) → k ∈ lj.(lease_keys) → ready s j = true → li.(released) = true) ∧
  (∀ j, (j < length s.(leases))%nat → (∀ i, (i < j)%nat → isReleased s i = true) →
     ready s j = true) ∧
  (∀ j, (j < length s.(leases))%nat → ready (close s) j = true).
Proof.
  intros ->. pose proof (leases_run_ok es) as Hok. split_and!.
  - intros i j li lj k Hij Hi Hj Hki Hkj Hr. destruct li.(released) eqn:Er; [done|].
    destruct (ok_order _ Hok i j li lj k Hij Hi Hj Hki Hkj Er) as (p & Hp & Hip).
    rewrite (ready_spec _ _ _ Hj) in Hr. specialize (Hr _ _ Hp Hip).
    rewrite (isReleased_lookup _ _ _ Hi) in Hr. congruence.
  - intros j Hj Hall. apply lookup_lt_is_Some in Hj as [lj Hj]. apply (ready_spec _ _ _ Hj).
    intros p i Hp Hi. apply Hall. by eapply (ok_preds _ Hok j).
  - intros j Hj. assert (Hlt : (j < length (close (run es)).(leases))%nat).
    { unfold close. cbn. by rewrite length_foldl_release. }
    apply lookup_lt_is_Some in Hlt as [lj Hl]. apply (ready_spec _ _ _ Hl).
    intros p i Hp Hi. apply close_releases_all; [done|].
    pose proof (ok_preds _ (close_ok _ Hok) j lj p i Hl Hp Hi). lia.
Qed.

(** The third lease wants both keys and waits for both of the others. *)
Example leases_exclude_in_order_witness :
  let s := run [Reserve ["a"]; Reserve ["b"]; Reserve ["b"; "a"; "b"]; Release 0; ForgetTail "a" 0] in
  ready s 1 = true ∧ ready s 2 = false ∧ ready (close s) 2 = true.
Proof.
  intros s.
  destruct (leases_exclude_in_order
    [Reserve ["a"]; Reserve ["b"]; Reserve ["b"; "a"; "b"]; Release 0; ForgetTail "a" 0] s eq_refl)
    as (_ & H2 & H3).
  split_and!; [|by vm_compute|].
  - apply H2; [by vm_compute; lia|]. intros i Hi. assert (i = 0%nat) as -> by lia. by vm_compute.
  - apply H3. vm_compute. lia.
Defined.
End Lease.

(** ** Store writers

    Writes of one store path run one at a time.  The queue map is one of the
    registry's; an entry leaves it only at the end of its own drain, so the
    queue object a drain holds is the one under its path.  The asynchronous
    context of a caller is the number of the innermost writer around it. *)
Module StoreWriter.

Record ActiveStoreWriter := {
  w_active : bool;
  w_parent : option nat;
  w_path : string;
}.

#[export] Instance ActiveStoreWriter_eta : Eta ActiveStoreWriter := λ w,
  {| w_active := w.(w_active); w_parent := w.(w_parent); w_path := w.(w_path) |}.

(** A queued write with the context [AsyncLocalStorage.snapshot] captured. *)
Record StoreWriterTask := {
  task : nat;
  context : option nat;
}.

(** The promise [drainPromise] is present while [draining]; [running] is the
    task its loop awaits, with the writer that runs it. *)
Record StoreWriterQueue := {
  pending : list StoreWriterTask;
  draining : bool;
  running : option (nat * nat);
}.

#[export] Instance StoreWriterQueue_eta : Eta StoreWriterQueue := λ q,
  {| pending := q.(pending); draining := q.(draining); running := q.(running) |}.

Record State := {
  queues : list (string * StoreWriterQueue);
  writers : list ActiveStoreWriter;
  next_task : nat;
  (** Queued writes by path in the order of admission, and settled ones with
      whether they failed, in the order of settlement. *)
  admitted : list (string * nat);
  settled : list (string * nat * bool);
}.

#[export] Instance State_eta : Eta State := λ s,
  {| queues := s.(queues); writers := s.(writers); next_task := s.(next_task);
     admitted := s.(admitted); settled := s.(settled) |}.

Definition newState : State :=
  {| queues := []; writers := []; next_task := 0; admitted := []; settled := [] |}.

(** The parent chain; a parent is older than its child, so the number of
    writers bounds its length. *)
Fixpoint chain_active (fuel : nat) (ws : list ActiveStoreWriter) (storePath : string)
    (active : option nat) : bool :=
  match fuel, active with
  | S fuel', Some i =>
      match ws !! i with
      | Some w =>
          if w.(w_active) && bool_decide (w.(w_path) = storePath) then true
          else chain_active fuel' ws storePath w.(w_parent)
      | None => false
      end
  | _, _ => false
  end.

Definition isActiveStoreWriter (storePath : string) (ctx : option nat) (s : State) : bool :=
  chain_active (S (length s.(writers))) s.(writers) storePath ctx.

Definition getOrCreateStoreWriterQueue (storePath : string) (s : State) : StoreWriterQueue * State :=
  match JsMap.get storePath s.(queues) with
  | Some existing => (existing, s)
  | None =>
      let created := {| pending := []; draining := false; running := None |} in
      (created, s <| queues ::= JsMap.set storePath created |>)
  end.

(** One turn of the drain loop up to the next awaited write; without one the
    [finally] block ends the drain, where [pending] is empty as the loop has
    just seen, so its other branch is not reached. *)
Definition drainTurn (storePath : string) (q : StoreWriterQueue) (s : State) : State :=
  match q.(pending) with
  | t :: r =>
      let writer := {| w_active := true; w_parent := t.(context); w_path := storePath |} in
      let q' := {| pending := r; draining := true; running := Some (t.(task), length s.(writers)) |} in
      s <| writers ::= λ ws, ws ++ [writer] |> <| queues ::= JsMap.set storePath q' |>
  | [] => s <| queues ::= JsMap.delete storePath |>
  end.

Definition drainStoreWriterQueue (storePath : string) (s : State) : State :=
  match JsMap.get storePath s.(queues) with
  | None => s
  | Some q => if q.(draining) then s else drainTurn storePath (q <| draining := true |>) s
  end.

Inductive WriteStart :=
(** The error of an empty store path. *)
| InvalidPath
(** [params.fn()] runs at once inside the active writer. *)
| RunsInline
| Queued (id : nat).

Definition runQueuedStoreWrite (storePath : string) (reentrant : bool) (ctx : option nat)
    (s : State) : WriteStart * State :=
  match storePath with
  | EmptyString => (InvalidPath, s)
  | _ =>
      if reentrant && isActiveStoreWriter storePath ctx s then (RunsInline, s)
      else
        let '(q, s1) := getOrCreateStoreWriterQueue storePath s in
        let t := {| task := s1.(next_task); context := ctx |} in
        let s2 := s1 <| queues ::= JsMap.set storePath (q <| pending ::= λ p, p ++ [t] |>) |>
                     <| next_task ::= S |>
                     <| admitted ::= λ l, l ++ [(storePath, s1.(next_task))] |> in
        (Queued s1.(next_task), drainStoreWriterQueue storePath s2)
  end.

(** The write a drain awaits has settled. *)
Definition writeSettled (storePath : string) (failed : bool) (s : State) : State :=
  match JsMap.get storePath s.(queues) with
  | Some q =>
      match q.(running) with
      | Some (t, w) =>
          let s1 := s <| writers ::= alter (λ w, w <| w_active := false |>) w |>
                      <| settled ::= λ l, l ++ [(storePath, t, failed)] |> in
          drainTurn storePath (q <| running := None |>) s1
      | None => s
      end
  | None => s
  end.

Inductive Event :=
| Write (storePath : string) (reentrant : bool) (ctx : option nat)
| Settled (storePath : string) (failed : bool).

Definition event (e : Event) (s : State) : State :=
  match e with
  | Write p r c => (runQueuedStoreWrite p r c s).2
  | Settled p f => writeSettled p f s
  end.

(** A caller's context is a writer that exists. *)
Definition event_ok (e : Event) (s : State) : Prop :=
  match e with
  | Write _ _ (Some i) => (i < length s.(writers))%nat
  | _ => True
  end.

Inductive reachable : State → Prop :=
| reach_new : reachable newState
| reach_event s e : reachable s → event_ok e s → reachable (event e s).

Definition of_path {A} (p : string) (l : list (string * A)) : list A :=
  omap (λ x, if decide (x.1 = p) then Some x.2 else None) l.

#[local] Arguments of_path : simpl never.
#[local] Arguments drainTurn : simpl never.

Definition waiting_at (p : string) (s : State) : list nat :=
  match JsMap.get p s.(queues) with
  | Some q => option_list (fst <$> q.(running)) ++ (task <$> q.(pending))
  | None => []
  end.

Record writers_ok (s : State) : Prop := {
  (** Every queue has a running write, whose writer is active on its path. *)
  ok_running : ∀ p q, JsMap.get p s.(queues) = Some q → q.(draining) = true ∧
    ∃ t w r, q.(running) = Some (t, w) ∧ s.(writers) !! w = Some r ∧
      r.(w_active) = true ∧ r.(w_path) = p;
  (** Every active writer is the running one of its path. *)
  ok_active : ∀ w r, s.(writers) !! w = Some r → r.(w_active) = true →
    ∃ q t, JsMap.get r.(w_path) s.(queues) = Some q ∧ q.(running) = Some (t, w);
  ok_parents : ∀ w r i, s.(writers) !! w = Some r → r.(w_parent) = Some i → (i < w)%nat;
  ok_contexts : ∀ p q t i, JsMap.get p s.(queues) = Some q → t ∈ q.(pending) →
    t.(context) = Some i → (i < length s.(writers))%nat;
  ok_order : ∀ p, of_path p ((λ x, x.1) <$> s.(settled)) ++ waiting_at p s = of_path p s.(admitted);
  ok_keys : NoDup (JsMap.keys s.(queues));
}.

(** A turn of the drain of [p]: the queue is [q], no write of [p] is active. *)
Lemma drainTurn_ok p q s :
  q.(running) = None →
  NoDup (JsMap.keys s.(queues)) →
  (∀ p' q', p' ≠ p → JsMap.get p' s.(queues) = Some q' → q'.(draining) = true ∧
    ∃ t w r, q'.(running) = Some (t, w) ∧ s.(writers) !! w = Some r ∧
      r.(w_active) = true ∧ r.(w_path) = p') →
  (∀ w r, s.(writers) !! w = Some r → r.(w_active) = true →
    r.(w_path) ≠ p ∧ ∃ q' t, JsMap.get r.(w_path) s.(queues) = Some q' ∧ q'.(running) = Some (t, w)) →
  (∀ w r i, s.(writers) !! w = Some r → r.(w_parent) = Some i → (i < w)%nat) →
  (∀ p' q' t i, p' ≠ p → JsMap.get p' s.(queues) = Some q' → t ∈ q'.(pending) →
    t.(context) = Some i → (i < length s.(writers))%nat) →
  (∀ t i, t ∈ q.(pending) → t.(context) = Some i → (i < length s.(writers))%nat) →
  (∀ p', p' ≠ p →
    of_path p' ((λ x, x.1) <$> s.(settled)) ++ waiting_at p' s = of_path p' s.(admitted)) →
  of_path p ((λ x, x.1) <$> s.(settled)) ++ (task <$> q.(pending)) = of_path p s.(admitted) →
  writers_ok (drainTurn p q s).
Proof.
  intros Hq Hk Hrun Hact Hpar Hctx Hctxq Hord Hordp. unfold drainTurn.
  destruct q.(pending) as [|t r] eqn:Ep.
  - assert (Hget : ∀ p', JsMap.get p' (JsMap.delete p s.(queues)) =
      if decide (p' = p) then None else JsMap.get p' s.(queues)) by (intros; apply JsMap.get_delete).
    constructor; cbn.
    + intros p' q'. rewrite Hget. case_decide; [done|]. by apply Hrun.
    + intros w x Hx Ha. destruct (Hact w x Hx Ha) as [Hne H]. rewrite Hget, decide_False by done. done.
    + done.
    + intros p' q' t i. rewrite Hget. case_decide; [done|]. by apply Hctx.
    + intros p'. unfold waiting_at. cbn. rewrite Hget. case_decide as Hp; [by subst|]. by apply Hord.
    + by apply JsMap.NoDup_keys_delete.
  - set (q' := {| pending := r; draining := true; running := _ |}).
    assert (Hget : ∀ p', JsMap.get p' (JsMap.set p q' s.(queues)) =
      if decide (p' = p) then Some q' else JsMap.get p' s.(queues)) by (intros; apply JsMap.get_set).
    constructor; cbn.
    + intros p' q0. rewrite Hget. case_decide as Hp.
      * intros [= <-]. split; [done|]. eexists _, _, _. split; [done|]. subst p'.
        rewrite lookup_app_r, Nat.sub_diag by done. done.
      * intros H. destruct (Hrun p' q0 Hp H) as [Hd (t0 & w & x & H1 & H2 & H3)].
        split; [done|]. exists t0, w, x. split; [done|]. split; [|done]. by apply lookup_app_l_Some.
    + intros w x Hx Ha. apply lookup_app_Some in Hx as [Hx|[Hge Hx]].
      * destruct (Hact w x Hx Ha) as [Hne H]. by rewrite Hget, decide_False by done.
      * apply list_lookup_singleton_Some in Hx as [Hw <-]. cbn. rewrite Hget, decide_True by done.
        exists q', t.(task). split; [done|]. cbn. do 2 f_equal. lia.
    + intros w x i Hx Hi. apply lookup_app_Some in Hx as [Hx|[Hge Hx]]; [by eapply Hpar|].
      apply list_lookup_singleton_Some in Hx as [Hw <-]. cbn in Hi.
      apply (Hctxq t) in Hi; [lia|set_solver].
    + intros p' q0 t0 i. rewrite Hget, length_app. case_decide as Hp.
      * intros [= <-] Ht Hi. cbn in Ht. apply (Hctxq t0) in Hi; [lia|set_solver].
      * intros H Ht Hi. pose proof (Hctx p' q0 t0 i Hp H Ht Hi). lia.
    + intros p'. unfold waiting_at. cbn. rewrite Hget. case_decide as Hp; [subst p'|by apply Hord].
      exact Hordp.
    + by apply JsMap.NoDup_keys_set.
Qed.

Lemma of_path_snoc {A} p p' (x : A) l :
  of_path p (l ++ [(p', x)]) = of_path p l ++ (if decide (p' = p) then [x] else []).
Proof. unfold of_path. rewrite omap_app. cbn. by case_decide. Qed.

Lemma write_ok p r c s : event_ok (Write p r c) s → writers_ok s → writers_ok (runQueuedStoreWrite p r c s).2.
Proof.
  intros Hev Hok. unfold runQueuedStoreWrite. destruct p as [|a p0]; [done|].
  set (p := String a p0) in *. destruct (r && _); [done|].
  destruct Hok as [Hrun Hact Hpar Hctx Hord Hk].
  unfold getOrCreateStoreWriterQueue. destruct (JsMap.get p s.(queues)) as [q|] eqn:Eq.
  - cbn [snd]. unfold drainStoreWriterQueue. cbn. rewrite JsMap.get_set_eq. cbn.
    destruct (Hrun p q Eq) as [-> (t0 & w & x & H1 & H2 & H3)].
    set (q' := {| pending := _; draining := _; running := _ |}).
    assert (Hget : ∀ p', JsMap.get p' (JsMap.set p q' s.(queues)) =
      if decide (p' = p) then Some q' else JsMap.get p' s.(queues)) by (intros; apply JsMap.get_set).
    constructor; cbn.
    + intros p' q0. rewrite Hget. case_decide as Hp; [|by apply Hrun].
      intros [= <-]. subst p'. destruct (Hrun p q Eq). done.
    + intros w' x' Hx Ha. rewrite Hget. destruct (Hact w' x' Hx Ha) as (q0 & t & Hg & Hr).
      case_decide as Hp; [|by exists q0, t]. rewrite Hp, Eq in Hg. injection Hg as <-.
      exists q', t. done.
    + done.
    + intros p' q0 t i. rewrite Hget. case_decide as Hp; [|by apply Hctx].
      intros [= <-] Ht Hi. cbn in Ht. apply elem_of_app in Ht as [Ht| ->%list_elem_of_singleton].
      * by apply (Hctx p q t).
      * cbn in Hi. subst c. exact Hev.
    + intros p'. unfold waiting_at. cbn. rewrite Hget, of_path_snoc, <-Hord. unfold waiting_at.
      destruct (decide (p' = p)) as [->|Hne].
      * rewrite decide_True by done. rewrite Eq. cbn. rewrite fmap_app, !app_assoc. done.
      * rewrite decide_False by auto. by rewrite app_nil_r.
    + by apply JsMap.NoDup_keys_set.
  - cbn [snd]. unfold drainStoreWriterQueue. cbn. rewrite JsMap.get_set_eq. cbn.
    set (q' := {| pending := _; draining := _; running := _ |}).
    assert (Hget : ∀ p' q1 q2, p' ≠ p →
      JsMap.get p' (JsMap.set p q1 (JsMap.set p q2 s.(queues))) = JsMap.get p' s.(queues)).
    { intros. by rewrite !JsMap.get_set_ne. }
    apply drainTurn_ok; cbn.
    + done.
    + by do 2 apply JsMap.NoDup_keys_set.
    + intros p' q0 Hp. rewrite Hget by done. apply Hrun.
    + intros w x Hx Ha. destruct (Hact w x Hx Ha) as (q0 & t & Hg & Hr).
      assert (x.(w_path) ≠ p) by congruence. rewrite Hget by done. eauto.
    + done.
    + intros p' q0 t i Hp. rewrite Hget by done. by apply Hctx.
    + intros t i ->%list_elem_of_singleton. cbn. intros ->. exact Hev.
    + intros p' Hp. rewrite of_path_snoc, decide_False by auto. rewrite app_nil_r.
      rewrite <-Hord. unfold waiting_at. cbn. by rewrite Hget.
    + rewrite of_path_snoc, decide_True by done. rewrite <-Hord. unfold waiting_at.
      rewrite Eq. by rewrite app_nil_r.
Qed.

Lemma settled_ok p f s : writers_ok s → writers_ok (writeSettled p f s).
Proof.
  intros Hok. unfold writeSettled. destruct (JsMap.get p s.(queues)) as [q|] eqn:Eq; [|done].
  destruct q.(running) as [[t w]|] eqn:Er; [|done].
  destruct Hok as [Hrun Hact Hpar Hctx Hord Hk].
  assert (Hl : ∀ i x, alter (λ w, w <| w_active := false |>) w s.(writers) !! i = Some x →
    ∃ x', s.(writers) !! i = Some x' ∧ x.(w_parent) = x'.(w_parent) ∧
      (x.(w_active) = true → i ≠ w ∧ x = x')).
  { intros i x. destruct (decide (i = w)) as [->|Hne].
    - rewrite list_lookup_alter_eq. intros (x' & Hx & ->)%fmap_Some. exists x'. done.
    - rewrite list_lookup_alter_ne by done. intros Hx. exists x. done. }
  apply drainTurn_ok; cbn.
  - done.
  - done.
  - intros p' q0 Hp Hg. destruct (Hrun p' q0 Hg) as [Hd (t0 & w0 & x & H1 & H2 & H3 & H4)].
    split; [done|]. exists t0, w0, x. split; [done|]. split; [|done].
    rewrite list_lookup_alter_ne; [done|]. intros <-.
    destruct (Hrun p q Eq) as [_ (t1 & w1 & x1 & K1 & K2 & K3 & K4)]. rewrite Er in K1.
    injection K1 as <- <-. rewrite K2 in H2. injection H2 as <-. congruence.
  - intros i x (x' & Hx & _ & Hax)%Hl Ha. destruct (Hax Ha) as [Hi ->].
    destruct (Hact i x' Hx Ha) as (q0 & t0 & Hg & Hr). split; [|by exists q0, t0].
    intros Hp. rewrite Hp, Eq in Hg. injection Hg as <-. rewrite Er in Hr. congruence.
  - intros i x j (x' & Hx & E & _)%Hl. rewrite E. by eapply Hpar.
  - intros p' q0 t0 i Hp. rewrite length_alter. by apply Hctx.
  - intros t0 i. rewrite length_alter. by eapply Hctx.
  - intros p' Hp. rewrite fmap_app. cbn. rewrite of_path_snoc, decide_False by auto.
    rewrite app_nil_r. apply Hord.
  - rewrite fmap_app. cbn. rewrite of_path_snoc, decide_True by done.
    rewrite <-Hord. unfold waiting_at. rewrite Eq, Er. by rewrite <-app_assoc.
Qed.

Lemma reachable_ok s : reachable s → writers_ok s.
Proof.
  induction 1 as [|s [p r c|p f] _ IH Hev]; [|by apply write_ok|by apply settled_ok].
  constructor; cbn; [done|done|done|done|done|constructor].
Qed.

(** The writers around a context, innermost first. *)
Inductive ancestor (s : State) : option nat → nat → Prop :=
| ancestor_here i : ancestor s (Some i) i
| ancestor_parent i r j : s.(writers) !! i = Some r → ancestor s r.(w_parent) j → ancestor s (Some i) j.

Lemma chain_active_sound fuel s p ctx :
  chain_active fuel s.(writers) p ctx = true →
  ∃ w r, ancestor s ctx w ∧ s.(writers) !! w = Some r ∧ r.(w_active) = true ∧ r.(w_path) = p.
Proof.
  revert ctx. induction fuel as [|fuel IH]; intros [i|]; cbn; [done..| |done].
  destruct (s.(writers) !! i) as [r|] eqn:Er; [|done]. destruct (_ && _) eqn:Ea.
  - intros _. apply andb_true_iff in Ea as [Ha Hp%bool_decide_eq_true].
    exists i, r. split; [constructor|done].
  - intros (w & x & Hw & Hx)%IH. exists w, x. split; [by econstructor|done].
Qed.

Lemma chain_active_complete fuel s p ctx w r :
  (∀ i x j, s.(writers) !! i = Some x → x.(w_parent) = Some j → (j < i)%nat) →
  ancestor s ctx w → s.(writers) !! w = Some r → r.(w_active) = true → r.(w_path) = p →
  (match ctx with Some i => i < fuel | None => True end)%nat →
  chain_active fuel s.(writers) p ctx = true.
Proof.
  intros Hpar Hanc Hw Ha Hp. revert fuel. induction Hanc as [i|i x j Hx Hanc IH]; intros fuel Hf.
  - destruct fuel; [lia|]. cbn. rewrite Hw, Ha, bool_decide_true by done. done.
  - destruct fuel; [lia|]. cbn. rewrite Hx. destruct (_ && _); [done|]. apply IH; [done|].
    destruct x.(w_parent) as [k|] eqn:Ek; [|done]. pose proof (Hpar _ _ _ Hx Ek). lia.
Qed.

End StoreWriter.

(** In every reachable state the writes of a path settle in the order in
    which they were queued, each once, and at most one of them runs; a path
    has a queue exactly while one of its writes runs, so no queue is left
    behind; and a reentrant write runs inline exactly when the write running
    on its path is one of the writers around its caller. *)
Theorem store_writes_serialize s :
  StoreWriter.reachable s →
  (∀ p, StoreWriter.of_path p ((λ x, x.1) <$> s.(StoreWriter.settled)) ++ StoreWriter.waiting_at p s
        = StoreWriter.of_path p s.(StoreWriter.admitted)) ∧
  (∀ p q, JsMap.get p s.(StoreWriter.queues) = Some q → is_Some q.(StoreWriter.running)) ∧
  (∀ p ctx, p ≠ EmptyString →
     (match ctx with Some i => i < length s.(StoreWriter.writers) | None => True end)%nat →
     ((StoreWriter.runQueuedStoreWrite p true ctx s).1 = StoreWriter.RunsInline ↔
      ∃ q t w, JsMap.get p s.(StoreWriter.queues) = Some q ∧ q.(StoreWriter.running) = Some (t, w) ∧
               StoreWriter.ancestor s ctx w)).
Proof.
  intros Hs. apply StoreWriter.reachable_ok in Hs as Hok. split_and!.
  - apply Hok.
  - intros p q Hq. destruct (StoreWriter.ok_running _ Hok p q Hq) as [_ (t & w & r & -> & _)]. done.
  - intros p ctx Hp Hctx. unfold StoreWriter.runQueuedStoreWrite.
    destruct p as [|a p0]; [done|]. set (p := String a p0) in *. cbn [andb].
    destruct (StoreWriter.isActiveStoreWriter p ctx s) eqn:Ea; cbn [fst].
    + split; [|done]. intros _.
      apply StoreWriter.chain_active_sound in Ea as (w & r & Hanc & Hw & Hact & Hpath).
      destruct (StoreWriter.ok_active _ Hok w r Hw Hact) as (q & t & Hg & Hr).
      rewrite Hpath in Hg. by exists q, t, w.
    + destruct (StoreWriter.getOrCreateStoreWriterQueue p s). cbn [fst]. split; [done|].
      intros (q & t & w & Hg & Hr & Hanc). exfalso.
      destruct (StoreWriter.ok_running _ Hok p q Hg) as [_ (t' & w' & r & Hr' & Hw & Hact & Hpath)].
      rewrite Hr in Hr'. injection Hr' as <- <-. apply not_true_iff_false in Ea. apply Ea.
      eapply StoreWriter.chain_active_complete; eauto; [apply Hok|]. destruct ctx; [lia|done].
Qed.

(** A write inside the first write of a path runs inline; beside it, it waits. *)
Example store_writes_serialize_witness :
  let s := StoreWriter.event (StoreWriter.Write "s" true None)
    (StoreWriter.event (StoreWriter.Write "s" false None) StoreWriter.newState) in
  StoreWriter.waiting_at "s" s = [0; 1]%nat ∧
  StoreWriter.of_path "s" ((λ x, x.1) <$> s.(StoreWriter.settled)) ++ StoreWriter.waiting_at "s" s
    = [0; 1]%nat.
Proof.
  intros s. assert (Hs : StoreWriter.reachable s).
  { apply StoreWriter.reach_event; [|exact I].
    apply StoreWriter.reach_event; [constructor|exact I]. }
  destruct (store_writes_serialize s Hs) as [H _]. split; [by vm_compute|exact (H _)].
Defined.
