(* ===== verification/AuthRateLimit.v ===== *)
(** * The authentication rate limiter

    [createAuthRateLimiter] of [src/gateway/auth-rate-limit.ts]: failures per
    scope and client, lockouts, the cap on tracked clients with its overflow
    lock, and the penalty delays of loopback clients.

    Instants are milliseconds and an argument of each operation.  The parsing
    of addresses ([src/gateway/net.ts], on a library) is a parameter. *)
From Stdlib Require Import QArith.QArith.
From S2P Require Import Prelude JsCollections NumberCoercion.
Local Open Scope Z_scope.

Record RateLimitConfig := {
  c_maxAttempts : option jsint;
  c_windowMs : option jsnum;
  c_lockoutMs : option jsnum;
  c_exemptLoopback : option bool;
  c_pruneIntervalMs : option jsnum;
  c_maxEntries : option jsnum;
}.

Definition AUTH_RATE_LIMIT_SCOPE_DEFAULT : string := "default".
Definition BROWSER_ORIGIN_RATE_LIMIT_KEY_PREFIX : string := "browser-origin:".
Definition IDENTITY_RATE_LIMIT_KEY_PREFIX : string := "identity:".

Definition DEFAULT_MAX_ATTEMPTS : Z := 10.
Definition DEFAULT_WINDOW_MS : Z := 60000.
Definition DEFAULT_LOCKOUT_MS : Z := 300000.
Definition PRUNE_INTERVAL_MS : Z := 60000.
Definition DEFAULT_MAX_ENTRIES : Z := 10000.
Definition LOOPBACK_FAILURE_DELAY_BASE_MS : Z := 250.
Definition LOOPBACK_FAILURE_DELAY_MAX_MS : Z := 5000.
(** [Math.ceil(Math.log2(5000 / 250)) + 1] *)
Definition LOOPBACK_FAILURE_HISTORY_LIMIT : Z :=
  Z.log2_up (LOOPBACK_FAILURE_DELAY_MAX_MS / LOOPBACK_FAILURE_DELAY_BASE_MS) + 1.

Record RateLimitEntry := {
  attempts : list Z;
  lockedUntil : option Z;
}.

#[export] Instance RateLimitEntry_eta : Eta RateLimitEntry := λ e,
  {| attempts := e.(attempts); lockedUntil := e.(lockedUntil) |}.

Record RateLimitCheckResult := {
  allowed : bool;
  remaining : jsint;
  retryAfterMs : Z;
}.

(** The settings [createAuthRateLimiter] resolves. *)
Record Settings := {
  maxAttempts : jsint;
  windowMs : Z;
  lockoutMs : Z;
  exemptLoopback : bool;
  (** Zero: no prune timer. *)
  pruneIntervalMs : Z;
  maxEntries : Z;
}.

Definition of_option (o : option jsnum) : jsvalue :=
  match o with
  | Some n => JNum n
  | None => JOther
  end.

Definition resolvePruneIntervalMs (value : option jsnum) : Z :=
  match value with
  | None => PRUNE_INTERVAL_MS
  | Some (Fin q) =>
      if Qle_bool q 0 then 0
      else resolveTimerTimeoutMs (JNum (Fin q)) (JNum (jsnum_of_Z PRUNE_INTERVAL_MS)) 1
  | Some n => resolveTimerTimeoutMs (JNum n) (JNum (jsnum_of_Z PRUNE_INTERVAL_MS)) 1
  end.

Definition resolveSettings (config : RateLimitConfig) : Settings :=
  {| maxAttempts := default (Fin DEFAULT_MAX_ATTEMPTS) config.(c_maxAttempts);
     windowMs := resolveTimerTimeoutMs (of_option config.(c_windowMs))
                   (JNum (jsnum_of_Z DEFAULT_WINDOW_MS)) 0;
     lockoutMs := resolveTimerTimeoutMs (of_option config.(c_lockoutMs))
                    (JNum (jsnum_of_Z DEFAULT_LOCKOUT_MS)) 0;
     exemptLoopback := default true config.(c_exemptLoopback);
     pruneIntervalMs := resolvePruneIntervalMs config.(c_pruneIntervalMs);
     maxEntries := resolveIntegerOption (of_option config.(c_maxEntries))
                     (inject_Z DEFAULT_MAX_ENTRIES) (Some 1) None |}.

(** The waiters of a loopback key; the timer is due at the deadline. *)
Record PenaltyWaiters := {
  deadline : Z;
  resolvers : list nat;
}.

Record Limiter := {
  entries : list (string * RateLimitEntry);
  loopbackPenaltyUntil : list (string * Z);
  loopbackPenaltyWaiters : list (string * PenaltyWaiters);
  overflowLockedUntil : option Z;
  (** The delays begun, and those whose promise has resolved. *)
  next_waiter : nat;
  resolved : list nat;
}.

#[export] Instance Limiter_eta : Eta Limiter := λ l,
  {| entries := l.(entries); loopbackPenaltyUntil := l.(loopbackPenaltyUntil);
     loopbackPenaltyWaiters := l.(loopbackPenaltyWaiters);
     overflowLockedUntil := l.(overflowLockedUntil); next_waiter := l.(next_waiter);
     resolved := l.(resolved) |}.

Definition newLimiter : Limiter :=
  {| entries := []; loopbackPenaltyUntil := []; loopbackPenaltyWaiters := [];
     overflowLockedUntil := None; next_waiter := 0; resolved := [] |}.

Definition buildRateLimitIdentityKey (namespace identity : string) : string :=
  IDENTITY_RATE_LIMIT_KEY_PREFIX +:+ namespace +:+ ":" +:+ identity.

(** A deadline that is set and ahead; an absent or zero one is falsy. *)
Definition ahead (until : option Z) (now : Z) : bool :=
  match until with
  | Some u => negb (u =? 0) && (now <? u)
  | None => false
  end.

(** [resolveClientIp({ remoteAddr: ip })] and [isLoopbackAddress]. *)
Section limiter.
Variables (resolveClientIp : option string → option string) (isLoopbackAddress : string → bool).
Variable c : Settings.
Implicit Types (l : Limiter) (ip scope : option string) (now : Z) (key : string).

Definition normalizeRateLimitClientIp ip : string :=
  let parsed := default "unknown" (resolveClientIp ip) in
  match ip with
  | Some s =>
      if starts_with BROWSER_ORIGIN_RATE_LIMIT_KEY_PREFIX s
         || starts_with IDENTITY_RATE_LIMIT_KEY_PREFIX s
      then s else parsed
  | None => parsed
  end.

Definition normalizeScope scope : string :=
  str_or (js_trim (default AUTH_RATE_LIMIT_SCOPE_DEFAULT scope)) AUTH_RATE_LIMIT_SCOPE_DEFAULT.

Definition resolveKey ip scope : string * string :=
  let addr := normalizeRateLimitClientIp ip in
  (normalizeScope scope +:+ ":" +:+ addr, addr).

Definition isExempt (addr : string) : bool := c.(exemptLoopback) && isLoopbackAddress addr.

Definition isAuthRateLimitClientExempt ip : bool := isExempt (normalizeRateLimitClientIp ip).

Definition slideWindow now (e : RateLimitEntry) : RateLimitEntry :=
  e <| attempts ::= filter (λ ts, now - c.(windowMs) < ts) |>.

Definition pruneExpiredEntries now l : Limiter :=
  l <| entries ::= omap (λ kv,
         let '(k, e) := kv in
         if ahead e.(lockedUntil) now then Some (k, e)
         else
           let e' := slideWindow now e in
           match e'.(attempts) with
           | [] => None
           | _ => Some (k, e')
           end) |>
    <| loopbackPenaltyUntil ::= filter (λ kv, now < kv.2) |>.

Definition checkOverflowLock now l : option RateLimitCheckResult * Limiter :=
  match l.(overflowLockedUntil) with
  | None => (None, l)
  | Some u =>
      if u =? 0 then (None, l)
      else if u <=? now then (None, l <| overflowLockedUntil := None |>)
      else
        let l1 := if c.(maxEntries) <=? Z.of_nat (JsMap.size l.(entries))
                  then pruneExpiredEntries now l else l in
        if Z.of_nat (JsMap.size l1.(entries)) <? c.(maxEntries)
        then (None, l1 <| overflowLockedUntil := None |>)
        else (Some {| allowed := false; remaining := Fin 0; retryAfterMs := u - now |}, l1)
  end.

(** Without the first entry that is not locked. *)
Fixpoint evictUnlocked now (m : list (string * RateLimitEntry)) :
    option (list (string * RateLimitEntry)) :=
  match m with
  | [] => None
  | (k, e) :: r =>
      if negb (ahead e.(lockedUntil) now) then Some r
      else (λ r', (k, e) :: r') <$> evictUnlocked now r
  end.

Definition enforceMaxEntries now l : bool * Limiter :=
  if Z.of_nat (JsMap.size l.(entries)) <? c.(maxEntries) then (true, l)
  else
    let l1 := pruneExpiredEntries now l in
    if Z.of_nat (JsMap.size l1.(entries)) <? c.(maxEntries) then (true, l1)
    else
      match evictUnlocked now l1.(entries) with
      | Some m => (true, l1 <| entries := m |>)
      | None => (false, l1)
      end.

Definition allowedFully : RateLimitCheckResult :=
  {| allowed := true; remaining := c.(maxAttempts); retryAfterMs := 0 |}.

Definition check ip scope now l : RateLimitCheckResult * Limiter :=
  let '(key, addr) := resolveKey ip scope in
  if isExempt addr then (allowedFully, l)
  else
    match JsMap.get key l.(entries) with
    | None =>
        let '(overflowLock, l1) := checkOverflowLock now l in
        (default allowedFully overflowLock, l1)
    | Some e =>
        if ahead e.(lockedUntil) now then
          ({| allowed := false; remaining := Fin 0;
              retryAfterMs := default 0 e.(lockedUntil) - now |}, l)
        else
          let e1 :=
            match e.(lockedUntil) with
            | Some u => if u =? 0 then e else {| attempts := []; lockedUntil := None |}
            | None => e
            end in
          let e2 := slideWindow now e1 in
          let left := js_max 0 (js_sub c.(maxAttempts) (Z.of_nat (length e2.(attempts)))) in
          ({| allowed := js_ltb 0 left; remaining := left; retryAfterMs := 0 |},
           l <| entries ::= JsMap.set key e2 |>)
    end.

(** The entry of a failure at [now], once there is one. *)
Definition countFailure (exempt : bool) now (e : RateLimitEntry) : RateLimitEntry :=
  if ahead e.(lockedUntil) now then e
  else
    let e1 := (slideWindow now e) <| attempts ::= λ a, a ++ [now] |> in
    let n := Z.of_nat (length e1.(attempts)) in
    if exempt && (LOOPBACK_FAILURE_HISTORY_LIMIT <? n) then
      e1 <| attempts ::= drop (Z.to_nat (n - LOOPBACK_FAILURE_HISTORY_LIMIT)) |>
    else if negb exempt && js_geb n c.(maxAttempts) then
      e1 <| lockedUntil := Some (now + c.(lockoutMs)) |>
    else e1.

Definition recordFailure ip scope now l : Limiter :=
  let '(key, addr) := resolveKey ip scope in
  let exempt := isExempt addr in
  match JsMap.get key l.(entries) with
  | Some e => l <| entries ::= JsMap.set key (countFailure exempt now e) |>
  | None =>
      let '(room, l1) := enforceMaxEntries now l in
      if room then
        l1 <| entries ::= JsMap.set key (countFailure exempt now {| attempts := []; lockedUntil := None |}) |>
      else
        l1 <| overflowLockedUntil := Some (default 0 l1.(overflowLockedUntil) `max` (now + c.(lockoutMs))) |>
  end.

(** [scheduleRelease] is the timer of the waiters; the result is the number of
    the promise that the caller awaits, if it awaits one.  The clock is read
    once for the failure and once for the deadline. *)
Definition recordFailureAndDelay ip scope now now' l : option nat * Limiter :=
  let '(key, addr) := resolveKey ip scope in
  let l1 := recordFailure ip scope now l in
  if negb (isExempt addr) then (None, l1)
  else
    let failureCount :=
      match JsMap.get key l1.(entries) with
      | Some e => Z.of_nat (length e.(attempts))
      | None => 1
      end in
    let penaltyMs := (LOOPBACK_FAILURE_DELAY_BASE_MS * 2 ^ ((failureCount - 1) `min` 30))
                       `min` LOOPBACK_FAILURE_DELAY_MAX_MS in
    let until := (default 0 (JsMap.get key l1.(loopbackPenaltyUntil)) `max` (now' + penaltyMs))
                   `min` (now' + LOOPBACK_FAILURE_DELAY_MAX_MS) in
    let waiters :=
      match JsMap.get key l1.(loopbackPenaltyWaiters) with
      | Some w => {| deadline := w.(deadline) `max` until; resolvers := w.(resolvers) ++ [l1.(next_waiter)] |}
      | None => {| deadline := until; resolvers := [l1.(next_waiter)] |}
      end in
    (Some l1.(next_waiter),
     l1 <| loopbackPenaltyUntil ::= JsMap.set key until |>
        <| loopbackPenaltyWaiters ::= JsMap.set key waiters |>
        <| next_waiter ::= S |>).

(** The timer of a key has fired. *)
Definition releaseLoopbackWaiters key l : Limiter :=
  match JsMap.get key l.(loopbackPenaltyWaiters) with
  | None => l
  | Some w =>
      l <| loopbackPenaltyWaiters ::= JsMap.delete key |>
        <| resolved ::= λ r, r ++ w.(resolvers) |>
  end.

Definition reset ip scope l : Limiter :=
  let '(key, _) := resolveKey ip scope in
  l <| entries ::= JsMap.delete key |> <| loopbackPenaltyUntil ::= JsMap.delete key |>.

Definition prune now l : Limiter := pruneExpiredEntries now l.

Definition size l : nat := JsMap.size l.(entries).

Definition dispose l : Limiter :=
  foldl (λ l key, releaseLoopbackWaiters key l)
    (l <| entries := [] |> <| loopbackPenaltyUntil := [] |> <| overflowLockedUntil := None |>)
    (JsMap.keys l.(loopbackPenaltyWaiters)).

(** ** Runs *)

Inductive Op :=
| OpCheck ip scope now
| OpFailure ip scope now
| OpFailureAndDelay ip scope now now'
| OpTimer key now
| OpReset ip scope
| OpPrune now
| OpDispose.

(** A timer fires at its deadline or later. *)
Definition apply (op : Op) l : Limiter :=
  match op with
  | OpCheck ip scope now => (check ip scope now l).2
  | OpFailure ip scope now => recordFailure ip scope now l
  | OpFailureAndDelay ip scope now now' => (recordFailureAndDelay ip scope now now' l).2
  | OpTimer key now =>
      match JsMap.get key l.(loopbackPenaltyWaiters) with
      | Some w => if w.(deadline) <=? now then releaseLoopbackWaiters key l else l
      | None => l
      end
  | OpReset ip scope => reset ip scope l
  | OpPrune now => prune now l
  | OpDispose => dispose l
  end.

Definition run (ops : list Op) l : Limiter := foldl (λ l op, apply op l) l ops.

(** ** Lockouts survive other traffic *)

(** An operation before [u] that does not clear the entry of [key]. *)
Definition keeps_lock (u : Z) key (op : Op) : Prop :=
  match op with
  | OpCheck _ _ now | OpFailure _ _ now | OpPrune now => now < u
  | OpFailureAndDelay _ _ now now' => now < u
  | OpTimer _ _ => True
  | OpReset ip scope => (resolveKey ip scope).1 ≠ key
  | OpDispose => False
  end.

Definition locked_entry l key (e : RateLimitEntry) (u : Z) : Prop :=
  NoDup (JsMap.keys l.(entries)) ∧ JsMap.get key l.(entries) = Some e ∧
  e.(lockedUntil) = Some u ∧ u ≠ 0.

Lemma ahead_before u now : u ≠ 0 → now < u → ahead (Some u) now = true.
Proof. intros Hu Hn. unfold ahead. destruct (Z.eqb_spec u 0); [done|]. simpl. by apply Z.ltb_lt. Qed.

Lemma keys_prune (f : string * RateLimitEntry → option (string * RateLimitEntry)) m :
  (∀ k e k' e', f (k, e) = Some (k', e') → k' = k) →
  JsMap.keys (omap f m) `sublist_of` JsMap.keys m.
Proof.
  intros Hf. induction m as [|[k e] m IH]; [done|]. cbn. destruct (f (k, e)) as [[k' e']|] eqn:E.
  - cbn. rewrite (Hf _ _ _ _ E). by constructor.
  - by constructor.
Qed.

Definition pruneEntry now (kv : string * RateLimitEntry) : option (string * RateLimitEntry) :=
  let '(k, e) := kv in
  if ahead e.(lockedUntil) now then Some (k, e)
  else
    let e' := slideWindow now e in
    match e'.(attempts) with
    | [] => None
    | _ => Some (k, e')
    end.

Lemma pruneEntry_key now k e k' e' : pruneEntry now (k, e) = Some (k', e') → k' = k.
Proof. unfold pruneEntry. destruct (ahead _ _); [congruence|]. cbv zeta. destruct (attempts _); congruence. Qed.

Lemma keys_pruneExpired now l :
  JsMap.keys (pruneExpiredEntries now l).(entries) `sublist_of` JsMap.keys l.(entries).
Proof. apply (keys_prune (pruneEntry now)), pruneEntry_key. Qed.

Lemma NoDup_sublist (l1 l2 : list string) : l1 `sublist_of` l2 → NoDup l2 → NoDup l1.
Proof. intros Hs Hn. eapply sublist_NoDup; eauto. Qed.

Lemma pruneExpired_locked now l key e u :
  locked_entry l key e u → now < u → locked_entry (pruneExpiredEntries now l) key e u.
Proof.
  intros (Hnd & Hg & Hl & Hu) Hn. split_and!; [|cbn|done..].
  { eapply NoDup_sublist; [apply keys_pruneExpired|done]. }
  apply JsMap.elem_get.
  { eapply NoDup_sublist; [apply keys_pruneExpired|done]. }
  apply list_elem_of_omap. exists (key, e). split; [by apply JsMap.get_elem|].
  rewrite Hl, ahead_before by done. done.
Qed.

Lemma evictUnlocked_sublist now m m' : evictUnlocked now m = Some m' → m' `sublist_of` m.
Proof.
  revert m'. induction m as [|[k e] m IH]; intros m'; [done|]. cbn.
  destruct (negb _); [intros [= ->]; by constructor|]. intros (r & Hr & ->)%fmap_Some.
  constructor. by apply IH.
Qed.

Lemma evictUnlocked_locked now m m' key e u :
  evictUnlocked now m = Some m' → (key, e) ∈ m → e.(lockedUntil) = Some u → u ≠ 0 → now < u →
  (key, e) ∈ m'.
Proof.
  intros He Hin Hl Hu Hn. revert m' He. induction m as [|[k x] m IH]; intros m'; [done|]. cbn.
  destruct (ahead x.(lockedUntil) now) eqn:Ea; cbn.
  - intros (r & Hr & ->)%fmap_Some. apply elem_of_cons in Hin as [[= -> ->]|Hin]; [set_solver|].
    apply elem_of_cons. right. by apply IH.
  - intros [= ->]. apply elem_of_cons in Hin as [[= -> ->]|Hin]; [|done].
    by rewrite Hl, ahead_before in Ea.
Qed.

Lemma enforceMaxEntries_locked now l key e u :
  locked_entry l key e u → now < u → locked_entry (enforceMaxEntries now l).2 key e u.
Proof.
  intros H Hn. unfold enforceMaxEntries. cbv zeta. destruct (_ <? _); [done|].
  pose proof (pruneExpired_locked now l key e u H Hn) as H1.
  destruct (_ <? _); [done|]. destruct (evictUnlocked _ _) as [m|] eqn:Ee; [|done].
  destruct H1 as (Hnd & Hg & Hl & Hu).
  assert (Hnd' : NoDup (JsMap.keys m)).
  { eapply NoDup_sublist; [|exact Hnd]. apply fmap_sublist. by eapply evictUnlocked_sublist. }
  split_and!; cbn; [done| |done..]. apply JsMap.elem_get; [done|].
  eapply evictUnlocked_locked; eauto. by apply JsMap.get_elem.
Qed.

Lemma locked_set l key e u k x :
  locked_entry l key e u → k ≠ key → locked_entry (l <| entries ::= JsMap.set k x |>) key e u.
Proof.
  intros (Hnd & Hg & Hl & Hu) Hk. split_and!; cbn; [by apply JsMap.NoDup_keys_set| |done..].
  by rewrite JsMap.get_set_ne.
Qed.

Lemma locked_same_entries l l' key e u :
  l'.(entries) = l.(entries) → locked_entry l key e u → locked_entry l' key e u.
Proof. unfold locked_entry. by intros ->. Qed.

Lemma set_same_entry l key e u : locked_entry l key e u → locked_entry (l <| entries ::= JsMap.set key e |>) key e u.
Proof.
  intros (Hnd & Hg & Hl & Hu). split_and!; cbn; [by apply JsMap.NoDup_keys_set| |done..].
  apply JsMap.get_set_eq.
Qed.

Lemma recordFailure_locked ip scope now l key e u :
  locked_entry l key e u → now < u → locked_entry (recordFailure ip scope now l) key e u.
Proof.
  intros H Hn. unfold recordFailure. destruct (resolveKey ip scope) as [k addr].
  destruct (decide (k = key)) as [->|Hk].
  - destruct H as (Hnd & Hg & Hl & Hu) eqn:EH. rewrite Hg. unfold countFailure.
    rewrite Hl, ahead_before by done. by apply set_same_entry.
  - destruct (JsMap.get k l.(entries)) as [x|]; [by apply locked_set|].
    pose proof (enforceMaxEntries_locked now l key e u H Hn) as H1.
    destruct (enforceMaxEntries now l) as [room l1]. cbn in H1.
    destruct room; [by apply locked_set|by eapply locked_same_entries; [|exact H1]].
Qed.

Lemma check_locked ip scope now l key e u :
  locked_entry l key e u → now < u → locked_entry (check ip scope now l).2 key e u.
Proof.
  intros H Hn. unfold check. destruct (resolveKey ip scope) as [k addr].
  destruct (isExempt addr); [done|]. destruct (decide (k = key)) as [->|Hk].
  - pose proof H as (Hnd & Hg & Hl & Hu). rewrite Hg, Hl, ahead_before by done. done.
  - destruct (JsMap.get k l.(entries)) as [x|].
    + destruct (ahead _ _); [done|]. by apply locked_set.
    + unfold checkOverflowLock. destruct l.(overflowLockedUntil) as [v|]; [|done].
      destruct (v =? 0); [done|]. destruct (v <=? now); [by eapply locked_same_entries; [|exact H]|].
      cbv zeta.
      assert (H1 : locked_entry (if c.(maxEntries) <=? Z.of_nat (JsMap.size l.(entries))
        then pruneExpiredEntries now l else l) key e u).
      { destruct (_ <=? _); [by apply pruneExpired_locked|done]. }
      destruct (_ <? _); [by eapply locked_same_entries; [|exact H1]|exact H1].
Qed.

Lemma apply_locked op l key e u :
  locked_entry l key e u → keeps_lock u key op → locked_entry (apply op l) key e u.
Proof.
  intros H Hop. destruct op as [ip scope now|ip scope now|ip scope now now'|k now|ip scope|now|];
    cbn [keeps_lock apply] in *.
  - by apply check_locked.
  - by apply recordFailure_locked.
  - unfold recordFailureAndDelay. pose proof (recordFailure_locked ip scope now l key e u H Hop) as H1.
    destruct (resolveKey ip scope) as [k addr]. cbv zeta iota. destruct (negb (isExempt addr)); [exact H1|].
    by eapply locked_same_entries; [|exact H1].
  - destruct (JsMap.get k _) as [w|] eqn:Ew; [|done]. destruct (_ <=? _); [|done].
    unfold releaseLoopbackWaiters. rewrite Ew. by eapply locked_same_entries; [|exact H].
  - unfold reset. destruct (resolveKey ip scope) as [k addr]. cbn in Hop.
    destruct H as (Hnd & Hg & Hl & Hu). unfold locked_entry. cbn.
    rewrite JsMap.get_delete_ne by congruence. split_and!; [by apply JsMap.NoDup_keys_delete|done..].
  - by apply pruneExpired_locked.
  - done.
Qed.

Lemma run_locked ops l key e u :
  locked_entry l key e u → Forall (keeps_lock u key) ops → locked_entry (run ops l) key e u.
Proof.
  intros H Hops. revert l H. induction Hops as [|op ops Hop _ IH]; intros l H; [done|].
  apply IH. by apply apply_locked.
Qed.

(** The failures that still count at [now], this one included. *)
Definition failures_in_window now (e : RateLimitEntry) : Z :=
  Z.of_nat (length (filter (λ ts, now - c.(windowMs) < ts) e.(attempts))) + 1.

Lemma countFailure_locks now e :
  ahead e.(lockedUntil) now = false →
  (countFailure false now e).(lockedUntil) =
    if js_geb (failures_in_window now e) c.(maxAttempts) then Some (now + c.(lockoutMs))
    else e.(lockedUntil).
Proof.
  intros Ha. unfold countFailure, failures_in_window. rewrite Ha. cbv zeta. cbn [negb andb].
  cbn. rewrite length_app, Nat2Z.inj_add. cbn. by destruct (js_geb _ _).
Qed.

(** ** The cap on tracked clients *)

Record entries_ok l : Prop := {
  ok_keys : NoDup (JsMap.keys l.(entries));
  ok_size : Z.of_nat (JsMap.size l.(entries)) ≤ c.(maxEntries);
}.

Lemma size_sublist (l1 l2 : list (string * RateLimitEntry)) :
  JsMap.keys l1 `sublist_of` JsMap.keys l2 → (JsMap.size l1 ≤ JsMap.size l2)%nat.
Proof.
  intros Hs%sublist_length. unfold JsMap.keys, JsMap.size in *. by rewrite !length_fmap in Hs.
Qed.

Lemma entries_ok_sublist l l' :
  JsMap.keys l'.(entries) `sublist_of` JsMap.keys l.(entries) → entries_ok l → entries_ok l'.
Proof.
  intros Hs [Hk Hz]. split; [by eapply NoDup_sublist|]. apply size_sublist in Hs. lia.
Qed.

Lemma entries_ok_set_present l k x :
  k ∈ JsMap.keys l.(entries) → entries_ok l → entries_ok (l <| entries ::= JsMap.set k x |>).
Proof.
  intros Hin [Hk Hz]. split; cbn -[JsMap.size JsMap.set JsMap.keys]; [by apply JsMap.NoDup_keys_set|].
  by rewrite JsMap.size_set, decide_True.
Qed.

Lemma evictUnlocked_size now m m' :
  evictUnlocked now m = Some m' → JsMap.size m = S (JsMap.size m').
Proof.
  revert m'. unfold JsMap.size. induction m as [|[k e] m IH]; intros m'; [done|]. cbn.
  destruct (negb _); [by intros [= ->]|]. intros (r & Hr & ->)%fmap_Some. cbn. by rewrite (IH _ Hr).
Qed.

Lemma enforceMaxEntries_ok now l :
  entries_ok l →
  let '(room, l1) := enforceMaxEntries now l in
  entries_ok l1 ∧ (room = true → Z.of_nat (JsMap.size l1.(entries)) < c.(maxEntries)) ∧
  JsMap.keys l1.(entries) `sublist_of` JsMap.keys l.(entries).
Proof.
  intros Hok. unfold enforceMaxEntries. cbv zeta.
  destruct (Z.ltb_spec (Z.of_nat (JsMap.size l.(entries))) c.(maxEntries)); [done|].
  pose proof (keys_pruneExpired now l) as Hs.
  pose proof (entries_ok_sublist _ _ Hs Hok) as Hok1. set (l1 := pruneExpiredEntries now l) in *.
  destruct (Z.ltb_spec (Z.of_nat (JsMap.size l1.(entries))) c.(maxEntries)); [done|].
  destruct (evictUnlocked now l1.(entries)) as [m|] eqn:Ee; [|done].
  assert (Hm : JsMap.keys m `sublist_of` JsMap.keys l1.(entries)).
  { apply fmap_sublist. by eapply evictUnlocked_sublist. }
  split_and!.
  - by apply (entries_ok_sublist l1).
  - intros _. cbn. apply evictUnlocked_size in Ee. destruct Hok1 as [_ Hz].
    unfold JsMap.size in *. lia.
  - cbn. by trans (JsMap.keys l1.(entries)).
Qed.

Lemma recordFailure_ok ip scope now l : entries_ok l → entries_ok (recordFailure ip scope now l).
Proof.
  intros Hok. unfold recordFailure. destruct (resolveKey ip scope) as [k addr].
  destruct (JsMap.get k l.(entries)) as [x|] eqn:Eg.
  - apply entries_ok_set_present; [|done]. apply JsMap.get_Some_keys. eauto.
  - pose proof (enforceMaxEntries_ok now l Hok) as H1.
    destruct (enforceMaxEntries now l) as [room l1]. destruct H1 as (Hok1 & Hroom & Hs).
    destruct room; [|by apply (entries_ok_sublist l1)].
    specialize (Hroom eq_refl). destruct Hok1 as [Hk1 Hz1]. split; cbn -[JsMap.size JsMap.set JsMap.keys]; [by apply JsMap.NoDup_keys_set|].
    rewrite JsMap.size_set. destruct (decide _); lia.
Qed.

Lemma checkOverflowLock_ok now l : entries_ok l → entries_ok (checkOverflowLock now l).2.
Proof.
  intros Hok. unfold checkOverflowLock. destruct l.(overflowLockedUntil) as [v|]; [|done].
  destruct (v =? 0); [done|]. destruct (v <=? now); [by apply (entries_ok_sublist l)|]. cbv zeta.
  set (l1 := if c.(maxEntries) <=? Z.of_nat (JsMap.size l.(entries)) then _ else _).
  assert (H1 : entries_ok l1).
  { unfold l1. destruct (_ <=? _); [|done]. eapply entries_ok_sublist; [apply keys_pruneExpired|done]. }
  destruct (_ <? _); [by apply (entries_ok_sublist l1)|done].
Qed.

Lemma release_entries key l : (releaseLoopbackWaiters key l).(entries) = l.(entries).
Proof. unfold releaseLoopbackWaiters. by destruct (JsMap.get _ _). Qed.

Lemma dispose_entries l : (dispose l).(entries) = [].
Proof.
  unfold dispose.
  assert (Hgen : ∀ keys l0, (foldl (λ l key, releaseLoopbackWaiters key l) l0 keys).(entries) = l0.(entries)).
  { induction keys as [|k keys IH]; intros l0; [done|]. cbn [foldl]. by rewrite IH, release_entries. }
  by rewrite Hgen.
Qed.

Lemma apply_ok op l : 1 ≤ c.(maxEntries) → entries_ok l → entries_ok (apply op l).
Proof.
  intros Hmax Hok. destruct op as [ip scope now|ip scope now|ip scope now now'|k now|ip scope|now|];
    cbn [apply].
  - unfold check. destruct (resolveKey ip scope) as [k addr]. destruct (isExempt addr); [done|].
    destruct (JsMap.get k l.(entries)) as [x|] eqn:Eg.
    + destruct (ahead _ _); [done|]. apply entries_ok_set_present; [|done].
      apply JsMap.get_Some_keys. eauto.
    + pose proof (checkOverflowLock_ok now l Hok) as H1. by destruct (checkOverflowLock now l).
  - by apply recordFailure_ok.
  - unfold recordFailureAndDelay. pose proof (recordFailure_ok ip scope now l Hok) as H1.
    destruct (resolveKey ip scope) as [k addr]. cbv zeta iota.
    destruct (negb (isExempt addr)); [exact H1|].
    by apply (entries_ok_sublist (recordFailure ip scope now l)).
  - destruct (JsMap.get k _) as [w|]; [|done]. destruct (_ <=? _); [|done].
    apply (entries_ok_sublist l); [|done]. by rewrite release_entries.
  - unfold reset. destruct (resolveKey ip scope) as [k addr].
    apply (entries_ok_sublist l); [|done]. apply fmap_sublist, sublist_filter.
  - eapply entries_ok_sublist; [apply keys_pruneExpired|done].
  - constructor; rewrite dispose_entries; cbn; [constructor|lia].
Qed.

Lemma run_entries_ok ops l : 1 ≤ c.(maxEntries) → entries_ok l → entries_ok (run ops l).
Proof.
  intros Hmax. revert l. induction ops as [|op ops IH]; intros l Hok; [done|]. apply IH.
  by apply apply_ok.
Qed.

Definition all_locked now l : Prop :=
  Forall (λ kv : string * RateLimitEntry, ahead kv.2.(lockedUntil) now = true) l.(entries).

Lemma prune_all_locked now l : all_locked now l → (pruneExpiredEntries now l).(entries) = l.(entries).
Proof.
  unfold all_locked. cbn. induction 1 as [|[k e] m Ha _ IH]; [done|].
  cbn in Ha |- *. rewrite Ha. by rewrite IH.
Qed.

Lemma evict_all_locked now l : all_locked now l → evictUnlocked now l.(entries) = None.
Proof.
  unfold all_locked. induction 1 as [|[k e] m Ha _ IH]; [done|]. cbn in Ha |- *. rewrite Ha. cbn.
  by rewrite IH.
Qed.

(** ** Penalty delays *)

Definition waiting l : list nat := l.(loopbackPenaltyWaiters) ≫= λ kw, kw.2.(resolvers).

Record waiters_ok l : Prop := {
  ok_waiter_keys : NoDup (JsMap.keys l.(loopbackPenaltyWaiters));
  ok_waiters : l.(resolved) ++ waiting l ≡ₚ seq 0 l.(next_waiter);
}.

(** Operations that leave the delays alone. *)
Definition same_waiters l l' : Prop :=
  l'.(loopbackPenaltyWaiters) = l.(loopbackPenaltyWaiters) ∧
  l'.(next_waiter) = l.(next_waiter) ∧ l'.(resolved) = l.(resolved).

Lemma same_waiters_ok l l' : same_waiters l l' → waiters_ok l → waiters_ok l'.
Proof.
  intros (E1 & E2 & E3) [H1 H2]. split; [by rewrite E1|]. unfold waiting. by rewrite E1, E2, E3.
Qed.

Lemma enforce_same now l : same_waiters l (enforceMaxEntries now l).2.
Proof.
  unfold enforceMaxEntries. cbv zeta. destruct (_ <? _); [done|]. destruct (_ <? _); [done|].
  by destruct (evictUnlocked _ _).
Qed.

Lemma recordFailure_same ip scope now l : same_waiters l (recordFailure ip scope now l).
Proof.
  unfold recordFailure. destruct (resolveKey ip scope) as [k addr].
  destruct (JsMap.get k _); [done|]. pose proof (enforce_same now l) as H.
  destruct (enforceMaxEntries now l) as [[] l1]; exact H.
Qed.

Lemma check_same ip scope now l : same_waiters l (check ip scope now l).2.
Proof.
  unfold check. destruct (resolveKey ip scope) as [k addr]. destruct (isExempt addr); [done|].
  destruct (JsMap.get k _) as [e|]; [by destruct (ahead _ _)|].
  unfold checkOverflowLock. destruct l.(overflowLockedUntil) as [u|]; [|done].
  destruct (u =? 0); [done|]. destruct (u <=? now); [done|]. cbv zeta.
  destruct (c.(maxEntries) <=? _); by destruct (_ <? _).
Qed.

Lemma waiting_set key w (m : list (string * PenaltyWaiters)) :
  NoDup (JsMap.keys m) →
  (JsMap.set key w m ≫= λ kw, kw.2.(resolvers)) ≡ₚ
    w.(resolvers) ++ (JsMap.delete key m ≫= λ kw, kw.2.(resolvers)).
Proof.
  intros Hnd. destruct (JsMap.get key m) as [w0|] eqn:Eg.
  - assert (Hs : JsMap.get key (JsMap.set key w m) = Some w) by apply JsMap.get_set_eq.
    rewrite (JsMap.delete_Permutation key w (JsMap.set key w m)); [|by apply JsMap.NoDup_keys_set|done].
    cbn. f_equiv. clear Hs Eg w0. induction m as [|[k x] m IH].
    + cbn [JsMap.set]. unfold JsMap.delete. by rewrite filter_cons_False by auto.
    + apply NoDup_cons in Hnd as [Hk Hnd]. cbn [JsMap.set]. destruct (decide (key = k)) as [<-|Hne].
      * unfold JsMap.delete. by rewrite !filter_cons_False by auto.
      * unfold JsMap.delete in *. rewrite !filter_cons_True by (cbn; auto). cbn. by rewrite IH.
  - rewrite JsMap.set_fresh, JsMap.delete_None by done. rewrite bind_app. cbn. rewrite app_nil_r.
    apply Permutation_app_comm.
Qed.

Lemma waiting_split key w (m : list (string * PenaltyWaiters)) :
  NoDup (JsMap.keys m) → JsMap.get key m = Some w →
  (m ≫= λ kw, kw.2.(resolvers)) ≡ₚ
    w.(resolvers) ++ (JsMap.delete key m ≫= λ kw, kw.2.(resolvers)).
Proof. intros Hnd Hg. by rewrite (JsMap.delete_Permutation key w m Hnd Hg) at 1. Qed.

Lemma release_waiters_ok key l : waiters_ok l → waiters_ok (releaseLoopbackWaiters key l).
Proof.
  intros [Hk Hw]. unfold releaseLoopbackWaiters.
  destruct (JsMap.get key _) as [w|] eqn:Eg; [|done]. split; cbn; [by apply JsMap.NoDup_keys_delete|].
  rewrite <-Hw. unfold waiting. cbn. rewrite (waiting_split key w l.(loopbackPenaltyWaiters)) by done.
  by rewrite <-app_assoc.
Qed.

Lemma delay_waiters_ok ip scope now now' l :
  waiters_ok l → waiters_ok (recordFailureAndDelay ip scope now now' l).2.
Proof.
  intros Hok. unfold recordFailureAndDelay. destruct (resolveKey ip scope) as [key addr]. cbv zeta iota.
  pose proof (same_waiters_ok _ _ (recordFailure_same ip scope now l) Hok) as [Hk Hw].
  generalize dependent (recordFailure ip scope now l). intros l1 Hk Hw.
  destruct (negb (isExempt addr)); [done|]. cbn [snd]. split.
  { cbn -[JsMap.keys]. by apply JsMap.NoDup_keys_set. }
  unfold waiting in *. cbn -[seq]. rewrite waiting_set, seq_S, <-Hw by done. cbn -[seq].
  destruct (JsMap.get key l1.(loopbackPenaltyWaiters)) as [w|] eqn:Eg; cbn.
  - rewrite (waiting_split key w l1.(loopbackPenaltyWaiters)) by done. solve_Permutation.
  - rewrite JsMap.delete_None by done. solve_Permutation.
Qed.

Lemma apply_waiters_ok op l : waiters_ok l → waiters_ok (apply op l).
Proof.
  intros Hok. destruct op as [ip scope now|ip scope now|ip scope now now'|k now|ip scope|now|];
    cbn [apply].
  - eapply same_waiters_ok; [apply check_same|done].
  - eapply same_waiters_ok; [apply recordFailure_same|done].
  - by apply delay_waiters_ok.
  - destruct (JsMap.get k _) as [w|]; [|done]. destruct (_ <=? _); [by apply release_waiters_ok|done].
  - unfold reset. destruct (resolveKey ip scope). by eapply same_waiters_ok; [|exact Hok].
  - by eapply same_waiters_ok; [|exact Hok].
  - unfold dispose.
    assert (H0 : waiters_ok (l <| entries := [] |> <| loopbackPenaltyUntil := [] |>
      <| overflowLockedUntil := None |>)) by (by eapply same_waiters_ok; [|exact Hok]).
    revert H0. generalize (JsMap.keys l.(loopbackPenaltyWaiters)). intros keys.
    generalize (l <| entries := [] |> <| loopbackPenaltyUntil := [] |> <| overflowLockedUntil := None |>).
    induction keys as [|k keys IH]; intros l0 H0; [done|]. cbn [foldl]. by apply IH, release_waiters_ok.
Qed.

Lemma run_waiters_ok ops l : waiters_ok l → waiters_ok (run ops l).
Proof.
  revert l. induction ops as [|op ops IH]; intros l Hok; [done|]. apply IH. by apply apply_waiters_ok.
Qed.

Lemma dispose_no_waiters l : (dispose l).(loopbackPenaltyWaiters) = [].
Proof.
  unfold dispose.
  assert (Hgen : ∀ keys l0, JsMap.keys l0.(loopbackPenaltyWaiters) ⊆ keys →
    (foldl (λ l key, releaseLoopbackWaiters key l) l0 keys).(loopbackPenaltyWaiters) = []).
  { induction keys as [|k keys IH]; intros l0 Hsub; cbn [foldl].
    - destruct l0.(loopbackPenaltyWaiters) as [|[k w] m]; [done|]. exfalso.
      apply (not_elem_of_nil k). apply Hsub. cbn. set_solver.
    - apply IH. unfold releaseLoopbackWaiters. destruct (JsMap.get k _) as [w|] eqn:Eg;
        cbn -[JsMap.keys JsMap.delete].
      + rewrite JsMap.keys_delete. intros x [Hx Hin]%list_elem_of_filter. apply Hsub in Hin. set_solver.
      + intros x Hx. pose proof (Hsub x Hx) as Hin. apply elem_of_cons in Hin as [->|?]; [|done].
        by apply JsMap.get_None_keys in Eg. }
  by apply Hgen.
Qed.

End limiter.

(** A client whose key is locked out stays locked out: no traffic of any
    other client, however many keys it floods the limiter with, no pruning,
    no further failure and no check of its own before the lockout ends changes
    its entry, and every check is refused with exactly the time that is left.
    And a failure locks exactly when, with it, the failures inside the window
    reach the limit. *)
Theorem lockout_survives_flood resolveClientIp isLoopbackAddress c l ops ip scope key addr e u now :
  resolveKey resolveClientIp ip scope = (key, addr) →
  isExempt isLoopbackAddress c addr = false →
  NoDup (JsMap.keys l.(entries)) → JsMap.get key l.(entries) = Some e →
  e.(lockedUntil) = Some u → u ≠ 0 →
  Forall (keeps_lock resolveClientIp u key) ops → now < u →
  let l' := run resolveClientIp isLoopbackAddress c ops l in
  check resolveClientIp isLoopbackAddress c ip scope now l' =
    ({| allowed := false; remaining := Fin 0; retryAfterMs := u - now |}, l') ∧
  (∀ t x, ahead x.(lockedUntil) t = false →
     (countFailure c false t x).(lockedUntil) =
       if js_geb (failures_in_window c t x) c.(maxAttempts) then Some (t + c.(lockoutMs))
       else x.(lockedUntil)).
Proof.
  intros Hk Hex Hnd Hg Hl Hu Hops Hnow l'. split; [|by apply countFailure_locks].
  destruct (run_locked resolveClientIp isLoopbackAddress c ops l key e u) as (_ & Hg' & _ & _);
    [done|done|]. fold l' in Hg'.
  unfold check. rewrite Hk, Hex, Hg', Hl, ahead_before by done. done.
Qed.

(** The first client is locked out until 5020; others flood a cap of one. *)
Example lockout_survives_flood_witness :
  let ip s := default s (Some s) in
  let loopback s := bool_decide (s = "127.0.0.1") in
  let c := {| maxAttempts := Fin 2; windowMs := 1000; lockoutMs := 5000; exemptLoopback := true;
              pruneIntervalMs := 0; maxEntries := 1 |} in
  let l := run ip loopback c [OpFailure (Some "a") None 10; OpFailure (Some "a") None 20] newLimiter in
  let l' := run ip loopback c
    [OpFailure (Some "b") None 30; OpFailure (Some "c") None 40; OpPrune 4000; OpCheck (Some "a") None 50] l in
  (check ip loopback c (Some "a") None 5000 l').1 =
    {| allowed := false; remaining := Fin 0; retryAfterMs := 20 |}.
Proof.
  intros ip loopback c l l'.
  destruct (lockout_survives_flood ip loopback c l
    [OpFailure (Some "b") None 30; OpFailure (Some "c") None 40; OpPrune 4000; OpCheck (Some "a") None 50]
    (Some "a") None "default:a" "a" {| attempts := [10; 20]; lockedUntil := Some 5020 |} 5020 5000)
    as [H _]; [by vm_compute|by vm_compute| |by vm_compute|done|done| |lia|].
  - apply (bool_decide_unpack _). by vm_compute.
  - repeat constructor; cbn; lia.
  - exact (f_equal fst H).
Defined.

(** Whatever the traffic, the limiter tracks at most [maxEntries]
    clients.  When every one of them is locked out, a failure of an untracked
    client evicts nobody: it starts an overflow lock, and until that ends every
    untracked client that is not exempt is refused for as long as the tracked
    lockouts last. *)
Theorem tracked_clients_bounded resolveClientIp isLoopbackAddress c ops ip scope key addr now :
  1 ≤ c.(maxEntries) →
  let run := run resolveClientIp isLoopbackAddress c in
  let l := run ops newLimiter in
  Z.of_nat (size l) ≤ c.(maxEntries) ∧
  (resolveKey resolveClientIp ip scope = (key, addr) → JsMap.get key l.(entries) = None →
   Z.of_nat (size l) = c.(maxEntries) → all_locked now l →
   let l' := recordFailure resolveClientIp isLoopbackAddress c ip scope now l in
   l'.(entries) = l.(entries) ∧
   ∀ ip' scope' key' addr' t,
     resolveKey resolveClientIp ip' scope' = (key', addr') → isExempt isLoopbackAddress c addr' = false →
     JsMap.get key' l.(entries) = None → all_locked t l → 0 ≤ t < now + c.(lockoutMs) →
     let r := (check resolveClientIp isLoopbackAddress c ip' scope' t l').1 in
     r.(allowed) = false ∧ now + c.(lockoutMs) - t ≤ r.(retryAfterMs)).
Proof.
  intros Hmax run' l.
  assert (Hok : entries_ok c l).
  { apply run_entries_ok; [done|]. constructor; cbn; [constructor|lia]. }
  split; [apply Hok|]. intros Hk Hg Hsize Hall l'.
  assert (Hl' : l'.(entries) = l.(entries) ∧
    l'.(overflowLockedUntil) = Some (default 0 l.(overflowLockedUntil) `max` (now + c.(lockoutMs)))).
  { unfold l', recordFailure. rewrite Hk, Hg. unfold enforceMaxEntries. cbv zeta.
    unfold size in Hsize. rewrite prune_all_locked, evict_all_locked by done. rewrite Hsize, Z.ltb_irrefl.
    cbn -[pruneExpiredEntries]. rewrite prune_all_locked by done. done. }
  destruct Hl' as [He Ho]. split; [done|]. intros ip' scope' key' addr' t Hk' Hex Hg' Hall' Ht.
  unfold check. rewrite Hk', Hex, He, Hg'. unfold checkOverflowLock. rewrite Ho. cbv zeta.
  set (u := default 0 l.(overflowLockedUntil) `max` (now + c.(lockoutMs))).
  assert (Hu : t < u) by lia.
  destruct (Z.eqb_spec u 0); [lia|]. destruct (Z.leb_spec u t); [lia|].
  rewrite He. unfold size in Hsize. rewrite Hsize, Z.leb_refl.
  assert (Hall2 : all_locked t l') by (unfold all_locked; by rewrite He).
  rewrite prune_all_locked, He, Hsize, Z.ltb_irrefl by done. cbn. split; [done|lia].
Qed.

Example tracked_clients_bounded_witness :
  let ip s := default s (Some s) in
  let loopback s := bool_decide (s = "127.0.0.1") in
  let c := {| maxAttempts := Fin 1; windowMs := 1000; lockoutMs := 5000; exemptLoopback := true;
              pruneIntervalMs := 0; maxEntries := 1 |} in
  let l := run ip loopback c [OpFailure (Some "a") None 10] newLimiter in
  Z.of_nat (size l) ≤ 1 ∧
  (check ip loopback c (Some "z") None 60
    (recordFailure ip loopback c (Some "b") None 50 l)).1.(allowed) = false.
Proof.
  intros ip loopback c l. assert (H1 : 1 ≤ c.(maxEntries)) by (cbn; lia).
  destruct (tracked_clients_bounded ip loopback c [OpFailure (Some "a") None 10] (Some "b") None
    "default:b" "b" 50 H1) as [Hs H]. split; [exact Hs|].
  destruct H as [_ H]; [by vm_compute|by vm_compute|by vm_compute|by repeat constructor|].
  destruct (H (Some "z") None "default:z" "z" 60) as [Ha _];
    [by vm_compute|by vm_compute|by vm_compute|by repeat constructor|cbn; lia|exact Ha].
Defined.

(** A loopback client is never denied, in no state of the limiter; its
    failures are only delayed.  Every delay ever begun is waiting under its
    key or has been resolved, exactly once; a failure's own delay waits for a
    deadline that is at most [LOOPBACK_FAILURE_DELAY_MAX_MS] away for the
    failure and never before that of an earlier waiter of the key; and disposing of the limiter
    resolves them all. *)
Theorem loopback_is_delayed_not_denied resolveClientIp isLoopbackAddress c ops ip scope key addr now now' :
  resolveKey resolveClientIp ip scope = (key, addr) → isExempt isLoopbackAddress c addr = true →
  let l := run resolveClientIp isLoopbackAddress c ops newLimiter in
  check resolveClientIp isLoopbackAddress c ip scope now l = (allowedFully c, l) ∧
  l.(resolved) ++ waiting l ≡ₚ seq 0 l.(next_waiter) ∧
  (dispose l).(resolved) ≡ₚ seq 0 l.(next_waiter) ∧
  ∃ l' until w, recordFailureAndDelay resolveClientIp isLoopbackAddress c ip scope now now' l
      = (Some l.(next_waiter), l') ∧
    JsMap.get key l'.(loopbackPenaltyUntil) = Some until ∧
    until ≤ now' + LOOPBACK_FAILURE_DELAY_MAX_MS ∧
    JsMap.get key l'.(loopbackPenaltyWaiters) = Some w ∧
    l.(next_waiter) ∈ w.(resolvers) ∧ until ≤ w.(deadline) ∧
    ∀ w0, JsMap.get key l.(loopbackPenaltyWaiters) = Some w0 →
      w.(deadline) = w0.(deadline) `max` until ∧ w.(resolvers) = w0.(resolvers) ++ [l.(next_waiter)].
Proof.
  intros Hk Hex l.
  assert (Hok : waiters_ok l) by (apply run_waiters_ok; constructor; cbn; [constructor|done]).
  split_and!.
  - unfold check. by rewrite Hk, Hex.
  - apply Hok.
  - pose proof (apply_waiters_ok resolveClientIp isLoopbackAddress c OpDispose l Hok) as [_ Hd].
    cbn [apply] in Hd. unfold waiting in Hd. rewrite (dispose_no_waiters isLoopbackAddress), app_nil_r in Hd. rewrite Hd.
    unfold dispose. assert (Hgen : ∀ keys l0,
      (foldl (λ l key, releaseLoopbackWaiters key l) l0 keys).(next_waiter) = l0.(next_waiter)).
    { induction keys as [|k keys IH]; intros l0; [done|]. cbn [foldl]. rewrite IH.
      unfold releaseLoopbackWaiters. by destruct (JsMap.get _ _). }
    by rewrite Hgen.
  - unfold recordFailureAndDelay. rewrite Hk, Hex. cbv zeta iota. cbn [negb].
    destruct (recordFailure_same resolveClientIp isLoopbackAddress c ip scope now l) as (E1 & E2 & E3).
    rewrite E1, E2. eexists _, _, _. split; [reflexivity|]. cbn -[Z.pow]. rewrite !JsMap.get_set_eq.
    split; [done|]. split; [lia|]. split; [done|].
    destruct (JsMap.get key l.(loopbackPenaltyWaiters)) as [w0|]; cbn -[Z.pow];
      (split; [set_solver|]); (split; [lia|]).
    + intros w1 [= <-]. done.
    + done.
Qed.

Example loopback_is_delayed_not_denied_witness :
  let ip s := default s (Some s) in
  let loopback s := bool_decide (s = "127.0.0.1") in
  let c := {| maxAttempts := Fin 1; windowMs := 1000; lockoutMs := 5000; exemptLoopback := true;
              pruneIntervalMs := 0; maxEntries := 1 |} in
  let me := Some "127.0.0.1" in
  let l := run ip loopback c [OpFailureAndDelay me None 10 10; OpFailureAndDelay me None 20 20;
                              OpTimer "default:127.0.0.1" 600] newLimiter in
  (check ip loopback c me None 30 l).1.(allowed) = true ∧
  l.(resolved) = [0; 1]%nat ∧ l.(resolved) ++ waiting l ≡ₚ [0; 1]%nat.
Proof.
  intros ip loopback c me l.
  destruct (loopback_is_delayed_not_denied ip loopback c
    [OpFailureAndDelay me None 10 10; OpFailureAndDelay me None 20 20; OpTimer "default:127.0.0.1" 600]
    me None "default:127.0.0.1" "127.0.0.1" 30 30) as (H1 & H2 & _); [by vm_compute|by vm_compute|].
  split_and!; [exact (f_equal (λ r, r.1.(allowed)) H1)|by vm_compute|exact H2].
Defined.
