(* ===== verification/TranscriptTree.v ===== *)
(** * The transcript tree

    An append-only session transcript read as a tree with a cursor
    ([src/config/sessions/transcript-tree.ts]): parsing of parent-linked rows,
    the scan that resolves navigation in file order, and the selection and
    merging of paths. *)
From stdpp Require Import sorting.
From S2P Require Import Prelude JsCollections.
Local Open Scope Z_scope.

(** ** Rows *)

(** What the code distinguishes of a field's value. *)
Inductive Field :=
| Absent
| Undefined
| Null
| Str (s : string)
| Other.

#[export] Instance Field_eq_dec : EqDecision Field.
Proof. solve_decision. Defined.

(** A record; [body] stands for the fields that are only passed on. *)
Record TranscriptRecord := {
  r_type : Field;
  r_id : Field;
  r_parentId : Field;
  r_targetId : Field;
  r_appendParentId : Field;
  r_appendMode : Field;
  r_firstKeptEntryId : Field;
  body : nat;
}.

#[export] Instance TranscriptRecord_eta : Eta TranscriptRecord := λ r,
  {| r_type := r.(r_type); r_id := r.(r_id); r_parentId := r.(r_parentId);
     r_targetId := r.(r_targetId); r_appendParentId := r.(r_appendParentId);
     r_appendMode := r.(r_appendMode); r_firstKeptEntryId := r.(r_firstKeptEntryId);
     body := r.(body) |}.

(** A row is a record or some other value. *)
Abbreviation Row := (option TranscriptRecord).

(** [undefined], or [null], or a string. *)
Abbreviation maybe_id := (option (option string)).

Definition isType (t : string) (r : TranscriptRecord) : bool := bool_decide (r.(r_type) = Str t).

Definition isCanonicalSessionEntryType (value : Field) : bool :=
  match value with
  | Str s => bool_decide (s ∈ ["message"; "thinking_level_change"; "model_change"; "compaction"; "reset";
      "branch_summary"; "custom"; "custom_message"; "label"; "session_info"])
  | _ => false
  end.

Definition isCanonicalSessionTranscriptEntry (row : Row) : bool :=
  match row with
  | Some r => isCanonicalSessionEntryType r.(r_type)
  | None => false
  end.

Definition side (r : TranscriptRecord) : bool := bool_decide (r.(r_appendMode) = Str "side").

Definition isSessionTranscriptSideAppendEntry (row : Row) : bool :=
  isCanonicalSessionTranscriptEntry row && from_option side false row.

Definition readNonEmptyString (value : Field) : option string :=
  match value with
  | Str s =>
      match js_trim s with
      | EmptyString => None
      | _ => Some s
      end
  | _ => None
  end.

(** [x === null ? null : (readNonEmptyString(x) ?? undefined)] *)
Definition readNullable (value : Field) : maybe_id :=
  match value with
  | Null => Some None
  | _ => Some <$> readNonEmptyString value
  end.

Definition isUndefined (value : Field) : bool :=
  match value with
  | Absent | Undefined => true
  | _ => false
  end.

Record SessionTranscriptTreeEntry := {
  te_id : string;
  te_parentId : option string;
  te_leafId : maybe_id;
  te_appendParentId : option string;
  (** [appendMode === "side"] *)
  te_side : bool;
}.

Definition parseSessionTranscriptTreeEntry (row : Row) : option SessionTranscriptTreeEntry :=
  match row with
  | None => None
  | Some r =>
      if isType "session" r || bool_decide (r.(r_parentId) = Absent) then None
      else
        match readNonEmptyString r.(r_id), readNullable r.(r_parentId) with
        | Some id, Some parentId =>
            if isType "leaf" r then
              let targetId := readNullable r.(r_targetId) in
              let appendParentId :=
                if isUndefined r.(r_appendParentId) then targetId
                else readNullable r.(r_appendParentId) in
              match targetId, appendParentId with
              | Some target, Some appendParent =>
                  if negb (isUndefined r.(r_appendMode)) && negb (side r) then None
                  else Some {| te_id := id; te_parentId := target; te_leafId := Some target;
                               te_appendParentId := appendParent; te_side := side r |}
              | _, _ => None
              end
            else
              Some {| te_id := id; te_parentId := parentId;
                      te_leafId :=
                        if isCanonicalSessionTranscriptEntry row && negb (side r)
                        then Some (Some id) else None;
                      te_appendParentId := Some id; te_side := side r |}
        | _, _ => None
        end
  end.

Definition isSessionTranscriptLeafControl (row : Row) : bool :=
  from_option (isType "leaf") false row &&
  match parseSessionTranscriptTreeEntry row with
  | Some _ => true
  | None => false
  end.

Definition parseParentlessCanonicalEntry (row : Row) (parentId : option string) :
    option SessionTranscriptTreeEntry :=
  match row with
  | Some r =>
      if negb (isCanonicalSessionTranscriptEntry row) || negb (bool_decide (r.(r_parentId) = Absent))
      then None
      else
        match readNonEmptyString r.(r_id) with
        | Some id =>
            Some {| te_id := id; te_parentId := parentId;
                    te_leafId := if side r then None else Some (Some id);
                    te_appendParentId := Some id; te_side := side r |}
        | None => None
        end
  | None => None
  end.

(** ** The scan *)

Record SessionTranscriptTreeNode := {
  id : string;
  parentId : option string;
  leafId : maybe_id;
  appendParentId : option string;
  entry : Row;
  index : nat;
}.

Definition toNode (te : SessionTranscriptTreeEntry) (row : Row) (i : nat) : SessionTranscriptTreeNode :=
  {| id := te.(te_id); parentId := te.(te_parentId); leafId := te.(te_leafId);
     appendParentId := te.(te_appendParentId); entry := row; index := i |}.

Abbreviation NodeMap := (gmap string SessionTranscriptTreeNode).

(** One turn of the loop; [None] is running out of fuel. *)
Fixpoint canonicalParentLoop (fuel : nat) (byId : NodeMap) (seen : gset string)
    (currentId : option string) : option (option string) :=
  match currentId with
  | None => Some None
  | Some c =>
      match fuel with
      | O => None
      | S fuel' =>
          if decide (c ∈ seen) then Some (Some c)
          else
            match byId !! c with
            | None => Some (Some c)
            | Some parent =>
                if negb (isSessionTranscriptLeafControl parent.(entry)) then Some (Some c)
                else canonicalParentLoop fuel' byId ({[c]} ∪ seen) parent.(parentId)
            end
      end
  end.

(** Every turn but the last visits another node. *)
Definition resolveCanonicalParentId (parentId : option string) (byId : NodeMap) : option string :=
  default parentId (canonicalParentLoop (S (S (size byId))) byId ∅ parentId).

Record Scan := {
  nodes : list SessionTranscriptTreeNode;
  byId : NodeMap;
  s_leafId : option string;
  s_appendParentId : option string;
  hasLeafControl : bool;
  hasLeafUpdate : bool;
  hasExplicitLeafUpdate : bool;
  hasInvalidLeafControl : bool;
  latestResetId : option string;
  resetDescendantIds : gset string;
  invalidLeafControlIds : gset string;
  nextIndex : nat;
}.

#[export] Instance Scan_eta : Eta Scan := λ s,
  {| nodes := s.(nodes); byId := s.(byId); s_leafId := s.(s_leafId);
     s_appendParentId := s.(s_appendParentId); hasLeafControl := s.(hasLeafControl);
     hasLeafUpdate := s.(hasLeafUpdate); hasExplicitLeafUpdate := s.(hasExplicitLeafUpdate);
     hasInvalidLeafControl := s.(hasInvalidLeafControl); latestResetId := s.(latestResetId);
     resetDescendantIds := s.(resetDescendantIds);
     invalidLeafControlIds := s.(invalidLeafControlIds); nextIndex := s.(nextIndex) |}.

Definition newScan : Scan :=
  {| nodes := []; byId := ∅; s_leafId := None; s_appendParentId := None; hasLeafControl := false;
     hasLeafUpdate := false; hasExplicitLeafUpdate := false; hasInvalidLeafControl := false;
     latestResetId := None; resetDescendantIds := ∅; invalidLeafControlIds := ∅; nextIndex := 0 |}.

(** A leaf control that would leave the history after the last reset selects
    the current leaf instead (lines 183-196). *)
Definition fenceLeafControl (s : Scan) (row : Row) (te : SessionTranscriptTreeEntry) :
    SessionTranscriptTreeEntry :=
  match s.(latestResetId), s.(s_leafId), te.(te_leafId) with
  | Some (String _ _), Some leaf, Some target =>
      if isSessionTranscriptLeafControl row &&
         match target with
         | None => true
         | Some t => bool_decide (t ∉ s.(resetDescendantIds))
         end
      then {| te_id := te.(te_id); te_parentId := Some leaf; te_leafId := Some (Some leaf);
              te_appendParentId := Some leaf; te_side := te.(te_side) |}
      else te
  | _, _, _ => te
  end.

Definition isKnownLeafReference (s : Scan) (ref : option string) : bool :=
  match ref with
  | None => true
  | Some x => bool_decide (is_Some (s.(byId) !! x)) && bool_decide (x ∉ s.(invalidLeafControlIds))
  end.

Definition invalidLeafControl (s : Scan) (row : Row) (te : SessionTranscriptTreeEntry) : bool :=
  match te.(te_leafId) with
  | None => false
  | Some leaf =>
      isSessionTranscriptLeafControl row &&
      (negb (isKnownLeafReference s leaf) || negb (isKnownLeafReference s te.(te_appendParentId)))
  end.

(** The raw parent of a row, a nullable string for every parsed one. *)
Definition rawParentId (row : Row) : option string :=
  match row with
  | Some r => match r.(r_parentId) with Str p => Some p | _ => None end
  | None => None
  end.

(** The visible parent of a canonical row (lines 225-244). *)
Definition logicalParentId (s : Scan) (explicit : bool) (te : SessionTranscriptTreeEntry) :
    option string :=
  let canonicalParentIsStale :=
    explicit &&
    match te.(te_parentId) with
    | Some p => bool_decide (s.(byId) !! p = None)
    | None => false
    end && bool_decide (is_Some s.(s_leafId)) in
  let crossesResetBoundary :=
    bool_decide (is_Some s.(latestResetId)) && negb te.(te_side) &&
    match te.(te_parentId) with
    | None => true
    | Some p => bool_decide (p ∉ s.(resetDescendantIds))
    end in
  if crossesResetBoundary then s.(s_leafId)
  else if negb te.(te_side) && canonicalParentIsStale then s.(s_leafId)
  else if explicit && negb te.(te_side) && bool_decide (te.(te_parentId) = s.(s_appendParentId))
          && negb (bool_decide (s.(s_leafId) = s.(s_appendParentId)))
  then s.(s_leafId)
  else te.(te_parentId).

Definition normalizeParent (s : Scan) (row : Row) (explicit : bool) (te : SessionTranscriptTreeEntry) :
    SessionTranscriptTreeEntry :=
  if isCanonicalSessionTranscriptEntry row then
    {| te_id := te.(te_id);
       te_parentId := resolveCanonicalParentId (logicalParentId s explicit te) s.(byId);
       te_leafId := te.(te_leafId); te_appendParentId := te.(te_appendParentId);
       te_side := te.(te_side) |}
  else te.

Definition isReset (row : Row) : bool := from_option (isType "reset") false row.

(** The invalid control of lines 204-221. *)
Definition recordInvalid (s : Scan) (row : Row) (te : SessionTranscriptTreeEntry) : Scan :=
  let node :=
    {| id := te.(te_id); parentId := rawParentId row; leafId := None;
       appendParentId := s.(s_appendParentId); entry := row; index := s.(nextIndex) |} in
  s <| hasInvalidLeafControl := true |>
    <| invalidLeafControlIds ::= λ x, {[te.(te_id)]} ∪ x |>
    <| nodes ::= λ l, l ++ [node] |>
    <| byId ::= <[te.(te_id) := node]> |>
    <| nextIndex ::= S |>.

(** Lines 255-279. *)
Definition recordNode (s : Scan) (row : Row) (explicit : bool) (te : SessionTranscriptTreeEntry) : Scan :=
  let node := toNode te row s.(nextIndex) in
  let '(reset', descendants') :=
    if isReset row then (Some node.(id), {[node.(id)]})
    else
      (s.(latestResetId),
       match s.(latestResetId), node.(parentId) with
       | Some _, Some p =>
           if decide (p ∈ s.(resetDescendantIds)) then {[node.(id)]} ∪ s.(resetDescendantIds)
           else s.(resetDescendantIds)
       | _, _ => s.(resetDescendantIds)
       end) in
  {| nodes := s.(nodes) ++ [node];
     byId := <[node.(id) := node]> s.(byId);
     s_leafId := default s.(s_leafId) node.(leafId);
     s_appendParentId := node.(appendParentId);
     hasLeafControl := isSessionTranscriptLeafControl row || s.(hasLeafControl);
     hasLeafUpdate := bool_decide (is_Some node.(leafId)) || s.(hasLeafUpdate);
     hasExplicitLeafUpdate :=
       bool_decide (is_Some node.(leafId)) && explicit || s.(hasExplicitLeafUpdate);
     hasInvalidLeafControl := s.(hasInvalidLeafControl);
     latestResetId := reset';
     resetDescendantIds := descendants';
     invalidLeafControlIds := s.(invalidLeafControlIds);
     nextIndex := S s.(nextIndex) |}.

Definition scanRow (s : Scan) (row : Row) : Scan :=
  let explicitTreeEntry := fenceLeafControl s row <$> parseSessionTranscriptTreeEntry row in
  match explicitTreeEntry with
  | Some te =>
      if invalidLeafControl s row te then recordInvalid s row te
      else recordNode s row true (normalizeParent s row true te)
  | None =>
      match parseParentlessCanonicalEntry row s.(s_leafId) with
      | Some te => recordNode s row false (normalizeParent s row false te)
      | None => s <| nextIndex ::= S |>
      end
  end.

(** The fields from [nodes] to [hasInvalidLeafControl] are the result. *)
Definition scanSessionTranscriptTree (rows : list Row) : Scan := foldl scanRow newScan rows.

(** ** Paths *)

(** The loop's [path], innermost node last; [None] is running out of fuel,
    [Some None] a cycle. *)
Fixpoint pathLoop (fuel : nat) (byId : NodeMap) (seen : gset string) (currentId : option string)
    (path : list SessionTranscriptTreeNode) : option (option (list SessionTranscriptTreeNode)) :=
  match currentId with
  | None | Some EmptyString => Some (Some path)
  | Some c =>
      match fuel with
      | O => None
      | S fuel' =>
          if decide (c ∈ seen) then Some None
          else
            match byId !! c with
            | None => Some (Some path)
            | Some current =>
                pathLoop fuel' byId ({[c]} ∪ seen) current.(parentId)
                  (if isSessionTranscriptLeafControl current.(entry) then path else path ++ [current])
            end
      end
  end.

Definition pathFuel (byId : NodeMap) : nat := S (S (size byId)).

Definition selectSessionTranscriptTreePathNodes (byId : NodeMap) (leaf : option string) :
    list SessionTranscriptTreeNode :=
  match pathLoop (pathFuel byId) byId ∅ leaf [] with
  | Some (Some path) => reverse path
  | _ => []
  end.

(** The rows kept in front of the active path: the last compaction or reset
    before it, and what that reset retains (lines 313-340). *)
Fixpoint leadingRows {T} (byId : NodeMap) (rows : list T) (records : list Row) (n : nat) : list T :=
  match n with
  | O => []
  | S i =>
      match records !! i with
      | Some (Some r) =>
          if negb (isType "compaction" r) && negb (isType "reset" r)
          then leadingRows byId rows records i
          else
            match rows !! i with
            | None => []
            | Some row =>
                let retained :=
                  if isType "reset" r then
                    match readNonEmptyString r.(r_id), readNonEmptyString r.(r_firstKeptEntryId) with
                    | Some resetId, Some firstKept =>
                        let resetPath := selectSessionTranscriptTreePathNodes byId (Some resetId) in
                        match list_find (λ node, id node = firstKept) resetPath with
                        | Some (keptStart, _) =>
                            Some (omap (λ node, rows !! index node) (drop keptStart resetPath))
                        | None => None
                        end
                    | _, _ => None
                    end
                  else None in
                default [row] retained
            end
      | _ => leadingRows byId rows records i
      end
  end.

Definition selectSessionTranscriptActiveEntries {T} (rows : list T) (recordOf : T → Row)
    (tree : option Scan) (failClosedOnInvalidLeafControl : bool) : list T :=
  let records := recordOf <$> rows in
  let tree' := default (scanSessionTranscriptTree records) tree in
  if failClosedOnInvalidLeafControl && tree'.(hasInvalidLeafControl) then []
  else if negb tree'.(hasExplicitLeafUpdate) then rows
  else
    let activePath := selectSessionTranscriptTreePathNodes tree'.(byId) tree'.(s_leafId) in
    let activeEntries := omap (λ node, rows !! index node) activePath in
    let first := match activePath with [] => 0%nat | node :: _ => node.(index) end in
    leadingRows tree'.(byId) rows records first ++ activeEntries.

(** ** Merging paths *)

Record SelectedNode := {
  node : SessionTranscriptTreeNode;
  selectedParentId : option string;
}.

Definition mergePath (selectedById : list (string * SelectedNode)) (path : list SessionTranscriptTreeNode) :
    list (string * SelectedNode) :=
  (foldl (λ '(m, parent) n,
     (JsMap.set n.(id) {| node := n; selectedParentId := parent |} m, Some n.(id)))
     (selectedById, None) path).1.

Definition index_le (a b : SelectedNode) : Prop := (a.(node).(index) ≤ b.(node).(index))%nat.

#[export] Instance index_le_dec : RelDecision index_le.
Proof. intros a b. unfold index_le. solve_decision. Defined.

Definition mergeSessionTranscriptTreePaths (paths : list (list SessionTranscriptTreeNode)) :
    list SelectedNode :=
  merge_sort index_le (JsMap.values (foldl mergePath [] paths)).

(** The opaque rows at the end of the append path, in order. *)
Definition opaqueSuffix (selectedIds : list string) (appendPath : list SessionTranscriptTreeNode) :
    list SessionTranscriptTreeNode :=
  reverse ((fix go (l : list SessionTranscriptTreeNode) :=
    match l with
    | [] => []
    | n :: r =>
        if bool_decide (n.(id) ∈ selectedIds) || isCanonicalSessionTranscriptEntry n.(entry) then []
        else n :: go r
    end) (reverse appendPath)).

Definition lastId (l : list SelectedNode) : option string := (λ n, n.(node).(id)) <$> last l.

Definition mergeSessionTranscriptVisiblePathWithOpaqueAppendPath
    (visiblePath appendPath : list SessionTranscriptTreeNode) (appendParent : option string) :
    list SelectedNode * option string :=
  let visible := mergeSessionTranscriptTreePaths [visiblePath] in
  let selectedIds := (λ n, n.(node).(id)) <$> visible in
  let suffix := opaqueSuffix selectedIds appendPath in
  let merged :=
    foldl (λ l n, l ++ [{| node := n; selectedParentId := lastId l |}]) visible suffix in
  (merged,
   match appendParent with
   | None => None
   | Some a =>
       if decide (a ∈ selectedIds ++ (id <$> suffix)) then Some a else lastId merged
   end).

(** The selected rows, with the parents the scan has normalized. *)
Definition selectSessionTranscriptLeafControlledPath (rows : list Row) : option (list Row) :=
  let tree := scanSessionTranscriptTree rows in
  if negb tree.(hasLeafControl) then None
  else
    Some ((λ row : Row,
      match row with
      | None => row
      | Some r =>
          match tree.(byId) !! default EmptyString (readNonEmptyString r.(r_id)) with
          | None => row
          | Some n =>
              let normalized := match n.(parentId) with None => Null | Some p => Str p end in
              if decide (r.(r_parentId) = normalized) then row
              else Some (r <| r_parentId := normalized |>)
          end
      end) <$> selectSessionTranscriptActiveEntries rows (λ r, r) (Some tree) false).

(** ** Selecting a path

    The reference: follow the parents to the root or to a missing ancestor,
    leaving out the leaf controls. *)
Inductive walk (m : NodeMap) : nat → option string → list SessionTranscriptTreeNode → Prop :=
| walk_null : walk m 0 None []
| walk_empty : walk m 0 (Some EmptyString) []
| walk_missing c : c ≠ EmptyString → m !! c = None → walk m 0 (Some c) []
| walk_node k c n p :
    c ≠ EmptyString → m !! c = Some n → walk m k n.(parentId) p →
    walk m (S k) (Some c) (p ++ if isSessionTranscriptLeafControl n.(entry) then [] else [n]).

(** The nodes a walk passes. *)
Inductive visits (m : NodeMap) : option string → string → Prop :=
| visits_here c n : c ≠ EmptyString → m !! c = Some n → visits m (Some c) c
| visits_parent c n x :
    c ≠ EmptyString → m !! c = Some n → visits m n.(parentId) x → visits m (Some c) x.

Section paths.
Variable m : NodeMap.

Lemma walk_unique k k' cur p p' : walk m k cur p → walk m k' cur p' → k = k' ∧ p = p'.
Proof.
  intros H. revert k' p'. induction H as [| |c Hc Hm|k c n p Hc Hm Hw IH]; intros k' p' H';
    inversion H'; simplify_eq; try done.
  by destruct (IH _ _ ltac:(eassumption)) as [-> ->].
Qed.

Lemma walk_visits k cur p x :
  walk m k cur p → visits m cur x → ∃ k' p', walk m k' (Some x) p' ∧ (k' ≤ k)%nat.
Proof.
  intros Hw Hv. revert k p Hw. induction Hv as [c n Hc Hm|c n x Hc Hm Hv IH]; intros k p Hw.
  - eauto.
  - inversion Hw; simplify_eq. destruct (IH _ _ ltac:(eassumption)) as (k' & p' & H & Hle). eauto with lia.
Qed.

(** A walk that ends passes no node twice. *)
Lemma walk_acyclic k c n p :
  c ≠ EmptyString → m !! c = Some n → walk m k (Some c) p → ¬ visits m n.(parentId) c.
Proof.
  intros Hc Hm Hw Hv. inversion Hw; simplify_eq.
  edestruct walk_visits as (k' & p' & Hw' & Hle); [eassumption|exact Hv|].
  destruct (walk_unique _ _ _ _ _ Hw Hw') as [? _]. lia.
Qed.

Lemma pathLoop_fuel fuel seen cur path :
  seen ⊆ dom m → (size m < size seen + fuel)%nat → pathLoop fuel m seen cur path ≠ None.
Proof.
  revert seen cur path. induction fuel as [|fuel IH]; intros seen cur path Hs Hf.
  - rewrite <-size_dom in Hf. apply subseteq_size in Hs. lia.
  - destruct cur as [[|a c]|]; [done| |done]. cbn [pathLoop]. case_decide as Hc; [done|].
    destruct (m !! String a c) as [n|] eqn:Em; [|done]. apply IH.
    + apply union_subseteq. split; [|done]. apply singleton_subseteq_l, elem_of_dom. eauto.
    + rewrite size_union by set_solver. rewrite size_singleton. lia.
Qed.

Lemma pathLoop_walk k cur p fuel seen path :
  walk m k cur p → seen ⊆ dom m → (∀ x, visits m cur x → x ∉ seen) →
  pathLoop fuel m seen cur path ≠ None →
  pathLoop fuel m seen cur path = Some (Some (path ++ reverse p)).
Proof.
  intros Hw. revert fuel seen path.
  induction Hw as [| |c Hc Hm|k c n p Hc Hm Hw IH]; intros fuel seen path Hdom Hseen Hf.
  - destruct fuel; cbn; by rewrite app_nil_r.
  - destruct fuel; cbn; by rewrite app_nil_r.
  - destruct c as [|a c]; [done|]. destruct fuel as [|fuel]; [done|]. cbn [pathLoop] in *.
    rewrite Hm in *. case_decide as Hin; [|by rewrite app_nil_r].
    apply Hdom, elem_of_dom in Hin. rewrite Hm in Hin. by destruct Hin.
  - destruct c as [|a c]; [done|]. destruct fuel as [|fuel]; [done|]. cbn [pathLoop] in *.
    rewrite Hm in *. rewrite decide_False in * by (apply Hseen; by econstructor).
    rewrite IH; [| | |exact Hf].
    + rewrite reverse_app. destruct (isSessionTranscriptLeafControl n.(entry)); cbn; [done|].
      by rewrite <-app_assoc.
    + apply union_subseteq. split; [|done]. apply singleton_subseteq_l, elem_of_dom. eauto.
    + intros x Hx [->%elem_of_singleton|Hin]%elem_of_union.
      * by eapply (walk_acyclic (S k) (String a c) n); [..|econstructor| ].
      * eapply Hseen; [|exact Hin]. by econstructor.
Qed.

Lemma pathLoop_sound fuel seen cur path q :
  pathLoop fuel m seen cur path = Some (Some q) → ∃ k p, walk m k cur p.
Proof.
  assert (H1 : ∃ k p, walk m k (Some EmptyString) p) by (eexists _, _; apply walk_empty).
  assert (H2 : ∃ k p, walk m k None p) by (eexists _, _; apply walk_null).
  revert seen cur path. induction fuel as [|fuel IH]; intros seen [[|a c]|] path; cbn [pathLoop];
    [done..| |done]. case_decide; [done|]. destruct (m !! String a c) as [n|] eqn:Em.
  - intros (k & p & Hw)%IH. eexists _, _. by eapply walk_node.
  - intros _. eexists _, _. by apply walk_missing.
Qed.

End paths.

Lemma path_fuel_enough (m : NodeMap) leaf : pathLoop (pathFuel m) m ∅ leaf [] ≠ None.
Proof. apply pathLoop_fuel; [set_solver|]. rewrite size_empty. unfold pathFuel. lia. Qed.

Lemma path_of_walk (m : NodeMap) leaf k p :
  walk m k leaf p → selectSessionTranscriptTreePathNodes m leaf = p.
Proof.
  intros Hw. unfold selectSessionTranscriptTreePathNodes.
  rewrite (pathLoop_walk m k leaf p _ ∅ [] Hw (empty_subseteq _) (λ x _, not_elem_of_empty x)
    (path_fuel_enough m leaf)).
  cbn. apply reverse_involutive.
Qed.

(** The path selected from a leaf is exactly the walk along the parents:
    it ends at the root or at the first missing ancestor, in file-independent
    order from the oldest ancestor to the leaf, with the leaf controls left
    out; and where the parents run in a cycle nothing is selected.  The search
    always ends. *)
Theorem selected_path_exact (m : NodeMap) leaf :
  (∀ k p, walk m k leaf p → selectSessionTranscriptTreePathNodes m leaf = p) ∧
  ((¬ ∃ k p, walk m k leaf p) → selectSessionTranscriptTreePathNodes m leaf = []) ∧
  pathLoop (pathFuel m) m ∅ leaf [] ≠ None.
Proof.
  split_and!; [intros; by eapply path_of_walk| |apply path_fuel_enough].
  intros Hno. unfold selectSessionTranscriptTreePathNodes.
  destruct (pathLoop _ _ _ _ _) as [[q|]|] eqn:E; [|done..]. destruct Hno. by eapply pathLoop_sound.
Qed.

(** ** Resets fence the history *)

(** The id a row is scanned under. *)
Definition row_id (row : Row) : option string :=
  match parseSessionTranscriptTreeEntry row with
  | Some te => Some te.(te_id)
  | None => te_id <$> parseParentlessCanonicalEntry row None
  end.

Lemma readNonEmptyString_nonempty v x : readNonEmptyString v = Some x → x ≠ EmptyString.
Proof.
  destruct v; try done. cbn. destruct (js_trim s) eqn:E; [done|]. intros [= <-] ->.
  by vm_compute in E.
Qed.

(** What a parse yields, by the kind of row. *)
Lemma parse_canonical row te :
  parseSessionTranscriptTreeEntry row = Some te → isCanonicalSessionTranscriptEntry row = true →
  isSessionTranscriptLeafControl row = false ∧
  te.(te_leafId) = (if te.(te_side) then None else Some (Some te.(te_id))) ∧
  te.(te_side) = from_option side false row.
Proof.
  unfold parseSessionTranscriptTreeEntry. destruct row as [r|]; [|done]. intros Hp Hc.
  assert (Hleaf : isType "leaf" r = false).
  { unfold isType. cbn in Hc. destruct r.(r_type); try done. apply bool_decide_eq_false.
    intros [= ->]. by vm_compute in Hc. }
  split; [unfold isSessionTranscriptLeafControl; cbn; by rewrite Hleaf|].
  rewrite Hleaf in Hp. destruct (_ || _); [done|].
  destruct (readNonEmptyString r.(r_id)); [|done]. destruct (readNullable r.(r_parentId)); [|done].
  injection Hp as <-. cbn in *. rewrite Hc. by destruct (side r).
Qed.

Lemma parse_leaf row te :
  parseSessionTranscriptTreeEntry row = Some te → isCanonicalSessionTranscriptEntry row = false →
  (isSessionTranscriptLeafControl row = true ∧ te.(te_leafId) = Some te.(te_parentId)) ∨
  (isSessionTranscriptLeafControl row = false ∧ te.(te_leafId) = None).
Proof.
  intros Hp Hc. unfold isSessionTranscriptLeafControl. rewrite Hp, andb_true_r.
  unfold parseSessionTranscriptTreeEntry in Hp. destruct row as [r|]; [|done]. cbn [from_option].
  destruct (_ || _); [done|].
  destruct (readNonEmptyString r.(r_id)); [|done]. destruct (readNullable r.(r_parentId)); [|done].
  destruct (isType "leaf" r).
  - destruct (readNullable r.(r_targetId)) as [t|]; [|done].
    destruct (if isUndefined _ then _ else _) as [a|]; [|done].
    destruct (_ && _); [done|]. injection Hp as <-. by left.
  - rewrite Hc in Hp. injection Hp as <-. by right.
Qed.

Lemma parse_id row te :
  parseSessionTranscriptTreeEntry row = Some te → te.(te_id) ≠ EmptyString ∧ row_id row = Some te.(te_id).
Proof.
  intros Hp. split; [|unfold row_id; by rewrite Hp].
  unfold parseSessionTranscriptTreeEntry in Hp. destruct row as [r|]; [|done].
  destruct (_ || _); [done|].
  destruct (readNonEmptyString r.(r_id)) as [x|] eqn:Ex; [|done].
  apply readNonEmptyString_nonempty in Ex.
  destruct (readNullable r.(r_parentId)); [|done]. destruct (isType "leaf" r).
  - destruct (readNullable r.(r_targetId)); [|done].
    destruct (if isUndefined _ then _ else _); [|done]. destruct (_ && _); [done|]. by injection Hp as <-.
  - by injection Hp as <-.
Qed.

Lemma parentless_spec row parent te :
  parseSessionTranscriptTreeEntry row = None → parseParentlessCanonicalEntry row parent = Some te →
  isCanonicalSessionTranscriptEntry row = true ∧ te.(te_parentId) = parent ∧
  te.(te_leafId) = (if te.(te_side) then None else Some (Some te.(te_id))) ∧
  te.(te_side) = from_option side false row ∧
  te.(te_id) ≠ EmptyString ∧ row_id row = Some te.(te_id) ∧ isSessionTranscriptLeafControl row = false.
Proof.
  intros Hn Hp. assert (Hid : row_id row = Some te.(te_id)).
  { unfold row_id. rewrite Hn. unfold parseParentlessCanonicalEntry in *. destruct row as [r|]; [|done].
    destruct (_ || _); [done|]. destruct (readNonEmptyString r.(r_id)); [|done]. by injection Hp as <-. }
  unfold parseParentlessCanonicalEntry in Hp. destruct row as [r|]; [|done].
  destruct (_ || _) eqn:Ec; [done|]. apply orb_false_iff in Ec as [Ec%negb_false_iff _].
  destruct (readNonEmptyString r.(r_id)) as [x|] eqn:Ex; [|done].
  apply readNonEmptyString_nonempty in Ex. injection Hp as <-. split_and!; try done.
  unfold isSessionTranscriptLeafControl. rewrite Hn. apply andb_false_r.
Qed.

(** A reset that is written to the side does not move the leaf. *)
Definition side_reset (row : Row) : bool := isReset row && from_option side false row.

Lemma isReset_canonical row :
  isReset row = true → isCanonicalSessionTranscriptEntry row = true ∧ isSessionTranscriptLeafControl row = false.
Proof.
  destruct row as [r|]; [|done]. cbn. intros Ht%bool_decide_eq_true.
  unfold isSessionTranscriptLeafControl, isType. cbn. rewrite Ht. split; [by vm_compute|].
  by rewrite bool_decide_false.
Qed.

Record fence_ok (s : Scan) (r : string) : Prop := {
  fence_reset : r ∈ s.(resetDescendantIds) ∧ r ≠ EmptyString ∧
    ∃ n, s.(byId) !! r = Some n ∧ isReset n.(entry) = true;
  fence_leaf : ∃ l, s.(s_leafId) = Some l ∧ l ∈ s.(resetDescendantIds);
  fence_parents : ∀ x, x ∈ s.(resetDescendantIds) → x ≠ r →
    ∃ n p np, s.(byId) !! x = Some n ∧ x ≠ EmptyString ∧ n.(parentId) = Some p ∧
      p ∈ s.(resetDescendantIds) ∧ s.(byId) !! p = Some np ∧ (np.(index) < n.(index))%nat;
}.

Record scan_ok (seen : list string) (s : Scan) : Prop := {
  scan_ids : ∀ x n, s.(byId) !! x = Some n → x ∈ seen ∧ (n.(index) < s.(nextIndex))%nat;
  scan_fence : ∀ r, s.(latestResetId) = Some r → fence_ok s r;
}.

Lemma canonicalParentLoop_fuel fuel (m : NodeMap) seen cur :
  seen ⊆ dom m → (size m < size seen + fuel)%nat → canonicalParentLoop fuel m seen cur ≠ None.
Proof.
  revert seen cur. induction fuel as [|fuel IH]; intros seen cur Hs Hf.
  - rewrite <-size_dom in Hf. apply subseteq_size in Hs. lia.
  - destruct cur as [c|]; [|done]. cbn [canonicalParentLoop]. case_decide as Hc; [done|].
    destruct (m !! c) as [n|] eqn:Em; [|done]. destruct (negb _); [done|]. apply IH.
    + apply union_subseteq. split; [|done]. apply singleton_subseteq_l, elem_of_dom. eauto.
    + rewrite size_union by set_solver. rewrite size_singleton. lia.
Qed.

Lemma canonicalParentLoop_fenced s r fuel seen x o :
  fence_ok s r → x ∈ s.(resetDescendantIds) →
  canonicalParentLoop fuel s.(byId) seen (Some x) = Some o →
  ∃ y, o = Some y ∧ y ∈ s.(resetDescendantIds).
Proof.
  intros Hok. revert seen x. induction fuel as [|fuel IH]; intros seen x Hx; [done|].
  cbn [canonicalParentLoop]. case_decide; [intros [= <-]; eauto|].
  destruct (s.(byId) !! x) as [n|] eqn:En; [|intros [= <-]; eauto].
  destruct (isSessionTranscriptLeafControl n.(entry)) eqn:El; cbn [negb]; [|intros [= <-]; eauto].
  destruct (decide (x = r)) as [->|Hne].
  - destruct (fence_reset _ _ Hok) as (_ & _ & n' & Hn' & Hr). rewrite En in Hn'. injection Hn' as <-.
    apply isReset_canonical in Hr as [_ Hr]. congruence.
  - destruct (fence_parents _ _ Hok x Hx Hne) as (n' & p & np & Hn' & _ & Hp & Hpd & _).
    rewrite En in Hn'. injection Hn' as <-. rewrite Hp. by apply IH.
Qed.

Lemma resolve_fenced s r x :
  fence_ok s r → x ∈ s.(resetDescendantIds) →
  ∃ y, resolveCanonicalParentId (Some x) s.(byId) = Some y ∧ y ∈ s.(resetDescendantIds).
Proof.
  intros Hok Hx. unfold resolveCanonicalParentId.
  destruct (canonicalParentLoop _ _ _ _) as [o|] eqn:E.
  - destruct (canonicalParentLoop_fenced _ _ _ _ _ _ Hok Hx E) as (y & -> & Hy). eauto.
  - exfalso. revert E. apply canonicalParentLoop_fuel; [set_solver|]. rewrite size_empty. lia.
Qed.

(** Inside the fence the parent of a canonical row that is not written to the
    side stays inside. *)
Lemma normalizeParent_fenced s r row explicit te :
  fence_ok s r → s.(latestResetId) = Some r →
  isCanonicalSessionTranscriptEntry row = true → te.(te_side) = false →
  ∃ y, (normalizeParent s row explicit te).(te_parentId) = Some y ∧ y ∈ s.(resetDescendantIds).
Proof.
  intros Hok Hr Hc Hside. unfold normalizeParent. rewrite Hc. cbn [te_parentId].
  destruct (fence_leaf _ _ Hok) as (l & Hl & Hld).
  assert (Hlog : ∃ x, logicalParentId s explicit te = Some x ∧ x ∈ s.(resetDescendantIds)).
  { unfold logicalParentId. cbv zeta. rewrite Hr, Hside, Hl. cbn [negb].
    destruct te.(te_parentId) as [p|]; [|by exists l].
    destruct (decide (p ∈ s.(resetDescendantIds))) as [Hp|Hp].
    - rewrite (bool_decide_false (p ∉ _)) by auto. cbn. rewrite !andb_true_r, ?andb_false_r.
      destruct (explicit && bool_decide (s.(byId) !! p = None)); [by exists l|].
      destruct (_ && _); [by exists l|by exists p].
    - rewrite (bool_decide_true (p ∉ _)) by done. by exists l. }
  destruct Hlog as (x & -> & Hx). by apply (resolve_fenced s r).
Qed.

(** What a recorded node has to satisfy inside the fence. *)
Definition moves_inside (s : Scan) (te : SessionTranscriptTreeEntry) : Prop :=
  match te.(te_leafId) with
  | None => True
  | Some lf =>
      ∃ l p, lf = Some l ∧ (l ∈ s.(resetDescendantIds) ∨ l = te.(te_id)) ∧
        te.(te_parentId) = Some p ∧ p ∈ s.(resetDescendantIds)
  end.

Lemma fence_extend s r x node (s' : Scan) :
  fence_ok s r → s.(byId) !! x = None → s'.(byId) = <[x := node]> s.(byId) →
  s'.(resetDescendantIds) = s.(resetDescendantIds) → s'.(s_leafId) = s.(s_leafId) → fence_ok s' r.
Proof.
  intros [(H1 & H2 & n & Hn & Hr) H3 H4] Hx Hb Hd Hl.
  constructor; rewrite ?Hd, ?Hl, ?Hb; [|done|].
  - split_and!; [done..|]. exists n. rewrite lookup_insert_ne by congruence. done.
  - intros y Hy Hne. destruct (H4 y Hy Hne) as (ny & p & np & E1 & E2 & E3 & E4 & E5 & E6).
    exists ny, p, np. rewrite !lookup_insert_ne by congruence. done.
Qed.

Lemma recordNode_ok seen s row explicit te :
  scan_ok seen s → te.(te_id) ∉ seen → te.(te_id) ≠ EmptyString →
  (isReset row = true → te.(te_leafId) = Some (Some te.(te_id))) →
  (isReset row = false → ∀ r, s.(latestResetId) = Some r → moves_inside s te) →
  scan_ok (te.(te_id) :: seen) (recordNode s row explicit te).
Proof.
  intros Hok Hfresh Hne Hreset Hmove. set (node := toNode te row s.(nextIndex)).
  assert (Hnone : s.(byId) !! te.(te_id) = None).
  { destruct (s.(byId) !! te.(te_id)) eqn:E; [|done]. by apply (scan_ids _ _ Hok) in E as [? _]. }
  constructor.
  - intros x n. unfold recordNode. destruct (if isReset row then _ else _). cbn.
    intros [[<- <-]|[Hx Hn]]%lookup_insert_Some; [cbn; split; [set_solver|lia]|].
    apply (scan_ids _ _ Hok) in Hn as [? ?]. split; [set_solver|lia].
  - intros r. unfold recordNode. destruct (isReset row) eqn:Er.
    + cbn. intros [= <-]. rewrite (Hreset eq_refl). constructor; cbn.
      * split_and!; [set_solver|done|]. exists node. by rewrite lookup_insert_eq.
      * exists te.(te_id). set_solver.
      * intros x Hx Hxne. set_solver.
    + cbn. intros Hr. pose proof (scan_fence _ _ Hok r Hr) as Hf. specialize (Hmove eq_refl r Hr).
      rewrite Hr.
      assert (Hext : ∀ lf, lf = s.(s_leafId) → fence_ok {|
          nodes := s.(nodes) ++ [node]; byId := <[te.(te_id) := node]> s.(byId); s_leafId := lf;
          s_appendParentId := te.(te_appendParentId);
          hasLeafControl := isSessionTranscriptLeafControl row || s.(hasLeafControl);
          hasLeafUpdate := bool_decide (is_Some te.(te_leafId)) || s.(hasLeafUpdate);
          hasExplicitLeafUpdate := bool_decide (is_Some te.(te_leafId)) && explicit || s.(hasExplicitLeafUpdate);
          hasInvalidLeafControl := s.(hasInvalidLeafControl); latestResetId := Some r;
          resetDescendantIds := s.(resetDescendantIds);
          invalidLeafControlIds := s.(invalidLeafControlIds); nextIndex := S s.(nextIndex) |} r)
        by (intros lf ->; by apply (fence_extend s r te.(te_id) node)).
      destruct (match te.(te_parentId) with Some p => bool_decide (p ∈ s.(resetDescendantIds)) | None => false end)
        eqn:Ep.
      * destruct te.(te_parentId) as [p|] eqn:Etp; [|done]. apply bool_decide_eq_true in Ep.
        rewrite decide_True by done.
        destruct (Hext s.(s_leafId) eq_refl) as [(F1 & F2 & n & Fn & Fr) (l & Fl & Fd) F4]. cbn in *.
        constructor; cbn.
        -- split_and!; [set_solver|done|by exists n].
        -- unfold moves_inside in Hmove. destruct te.(te_leafId) as [lf|]; cbn; [|exists l; set_solver].
           destruct Hmove as (l' & p' & -> & Hl' & _). exists l'. set_solver.
        -- intros x [->%elem_of_singleton|Hx]%elem_of_union Hxr.
           ++ destruct (decide (p = r)) as [->|Hpr].
              ** exists node, r, n. rewrite lookup_insert_eq. split_and!; [done|done|done|set_solver|done|].
                 cbn. rewrite lookup_insert_ne in Fn by congruence. by apply (scan_ids _ _ Hok) in Fn as [_ ?].
              ** destruct (F4 p Ep Hpr) as (np & _ & _ & Hnp & _). exists node, p, np.
                 rewrite lookup_insert_eq. split_and!; [done|done|done|set_solver|done|].
                 apply lookup_insert_Some in Hnp as [[Hpe _]|[_ Hnp]].
                 { subst p. exfalso. destruct (F4 _ Ep Hpr) as (n1 & p1 & np1 & E1 & _ & E3 & E4 & E5 & E6).
                   destruct (fence_parents _ _ Hf te.(te_id) Ep Hpr) as (n2 & _ & _ & E & _). congruence. }
                 cbn. by apply (scan_ids _ _ Hok) in Hnp as [_ ?].
           ++ destruct (F4 x Hx Hxr) as (nx & px & npx & E1 & E2 & E3 & E4 & E5). exists nx, px, npx.
              split_and!; try done; set_solver.
      * assert (Hd : match te.(te_parentId) with
            | Some p => if decide (p ∈ s.(resetDescendantIds))
                        then {[te.(te_id)]} ∪ s.(resetDescendantIds) else s.(resetDescendantIds)
            | None => s.(resetDescendantIds) end = s.(resetDescendantIds)).
        { destruct te.(te_parentId); [|done]. apply bool_decide_eq_false in Ep. by rewrite decide_False. }
        rewrite Hd. apply Hext. unfold moves_inside in Hmove.
        destruct te.(te_leafId) as [lf|]; [|done]. destruct Hmove as (l & p & _ & _ & Hp & Hpd).
        rewrite Hp in Ep. by apply bool_decide_eq_false in Ep.
Qed.

Lemma scanRow_ok seen s row :
  scan_ok seen s → side_reset row = false →
  (∀ x, row_id row = Some x → x ∉ seen) →
  scan_ok (option_list (row_id row) ++ seen) (scanRow s row).
Proof.
  intros Hok Hns Hfresh. unfold scanRow.
  destruct (parseSessionTranscriptTreeEntry row) as [te0|] eqn:Hp; cbn [fmap option_fmap option_map].
  - destruct (parse_id _ _ Hp) as [Hne Hid]. rewrite Hid. specialize (Hfresh _ Hid). cbn [option_list app].
    set (te := fenceLeafControl s row te0).
    assert (Hteid : te.(te_id) = te0.(te_id)).
    { unfold te, fenceLeafControl. destruct s.(latestResetId) as [[]|]; [done| |done].
      destruct s.(s_leafId); [|done]. destruct te0.(te_leafId); [|done]. by destruct (_ && _). }
    destruct (invalidLeafControl s row te) eqn:Einv.
    + assert (Hnone : s.(byId) !! te.(te_id) = None).
      { destruct (s.(byId) !! te.(te_id)) eqn:E; [|done]. apply (scan_ids _ _ Hok) in E as [? _]. by rewrite Hteid in *. }
      constructor.
      * intros x n. cbn. rewrite Hteid.
        intros [[<- <-]|[Hx Hn]]%lookup_insert_Some; [cbn; split; [set_solver|lia]|].
        apply (scan_ids _ _ Hok) in Hn as [? ?]. split; [set_solver|lia].
      * intros r Hr. by eapply (fence_extend s r te.(te_id)); [exact (scan_fence _ _ Hok r Hr)|..].
    + assert (Hnid : (normalizeParent s row true te).(te_id) = te0.(te_id)).
      { unfold normalizeParent. by destruct (isCanonicalSessionTranscriptEntry row). }
      assert (Hnleaf : (normalizeParent s row true te).(te_leafId) = te.(te_leafId)).
      { unfold normalizeParent. by destruct (isCanonicalSessionTranscriptEntry row). }
      rewrite <-Hnid in *. apply recordNode_ok; [done..| |].
      * intros Hr. pose proof (isReset_canonical _ Hr) as [Hc Hl].
        destruct (parse_canonical _ _ Hp Hc) as (_ & H1 & H2). rewrite Hnleaf, Hnid.
        unfold side_reset in Hns. rewrite Hr in Hns. cbn in Hns. rewrite H2, Hns in H1.
        assert (Hte : te = te0).
        { unfold te, fenceLeafControl. rewrite Hl. destruct s.(latestResetId) as [[]|]; [done| |done].
          destruct s.(s_leafId); [|done]. by destruct te0.(te_leafId). }
        by rewrite Hte.
      * intros Hr r Hlr. pose proof (scan_fence _ _ Hok r Hlr) as Hf.
        destruct (isCanonicalSessionTranscriptEntry row) eqn:Ec.
        -- destruct (parse_canonical _ _ Hp Ec) as (Hl & H1 & H2).
           assert (Hte : te = te0).
           { unfold te, fenceLeafControl. rewrite Hl. destruct s.(latestResetId) as [[]|]; [done| |done].
             destruct s.(s_leafId); [|done]. by destruct te0.(te_leafId). }
           unfold moves_inside. rewrite Hnleaf, Hte, H1. destruct te0.(te_side) eqn:Es; [done|].
           destruct (normalizeParent_fenced s r row true te0 Hf Hlr Ec Es) as (y & Hy & Hyd).
           exists te0.(te_id), y. split_and!; [done| |exact Hy|done].
           right. unfold normalizeParent. by rewrite Ec.
        -- unfold moves_inside. rewrite Hnleaf.
           assert (Hnp : normalizeParent s row true te = te) by (unfold normalizeParent; by rewrite Ec).
           rewrite Hnp. destruct (parse_leaf _ _ Hp Ec) as [[Hl H1]|[Hl H1]].
           ++ destruct (fence_leaf _ _ Hf) as (l & Hll & Hld).
              destruct (fence_reset _ _ Hf) as (_ & Hrne & _). destruct r as [|ra rr]; [done|].
              unfold te, fenceLeafControl. rewrite Hlr, Hll, H1, Hl. cbn [andb].
              destruct te0.(te_parentId) as [t|] eqn:Et.
              ** destruct (decide (t ∈ s.(resetDescendantIds))) as [Ht|Ht].
                 { rewrite bool_decide_false by auto. rewrite H1. exists t, t.
                   split_and!; [done|by left|done|done]. }
                 rewrite bool_decide_true by done. cbn. exists l, l. split_and!; [done|by left|done|done].
              ** cbn. exists l, l. split_and!; [done|by left|done|done].
           ++ assert (Hte : te = te0).
              { unfold te, fenceLeafControl. rewrite H1. destruct s.(latestResetId) as [[]|]; [done| |done].
                by destruct s.(s_leafId). }
              by rewrite Hte, H1.
  - destruct (parseParentlessCanonicalEntry row s.(s_leafId)) as [te|] eqn:Hpl.
    + destruct (parentless_spec _ _ _ Hp Hpl) as (Hc & Hpar & Hleaf & Hside & Hne & Hid & Hl).
      rewrite Hid. specialize (Hfresh _ Hid). cbn [option_list app].
      assert (Hnid : (normalizeParent s row false te).(te_id) = te.(te_id)).
      { unfold normalizeParent. by rewrite Hc. }
      assert (Hnleaf : (normalizeParent s row false te).(te_leafId) = te.(te_leafId)).
      { unfold normalizeParent. by rewrite Hc. }
      rewrite <-Hnid in *. apply recordNode_ok; [done..| |].
      * intros Hr. rewrite Hnleaf, Hleaf. unfold side_reset in Hns. rewrite Hr in Hns. cbn in Hns.
        by rewrite Hside, Hns, Hnid.
      * intros Hr r Hlr. pose proof (scan_fence _ _ Hok r Hlr) as Hf. unfold moves_inside.
        rewrite Hnleaf, Hleaf. destruct te.(te_side) eqn:Es; [done|].
        destruct (normalizeParent_fenced s r row false te Hf Hlr Hc Es) as (y & Hy & Hyd).
        exists te.(te_id), y. rewrite Hnid. split_and!; [done|by right|exact Hy|done].
    + constructor; cbn.
      * intros x n Hn. apply (scan_ids _ _ Hok) in Hn as [? ?]. split; [set_solver|lia].
      * intros r Hr. destruct (scan_fence _ _ Hok r Hr). by constructor.
Qed.

Lemma scan_all_ok rows seen s :
  scan_ok seen s → Forall (λ row, side_reset row = false) rows →
  NoDup (omap row_id rows) → (∀ x, x ∈ omap row_id rows → x ∉ seen) →
  ∃ seen', scan_ok seen' (foldl scanRow s rows).
Proof.
  intros Hok Hrows. revert seen s Hok.
  induction Hrows as [|row rows Hrow _ IH]; intros seen s Hok Hnd Hfresh; [by exists seen|].
  cbn [foldl]. cbn in Hnd, Hfresh. apply (IH (option_list (row_id row) ++ seen)).
  - apply scanRow_ok; [done..|]. intros x Hx. apply Hfresh. rewrite Hx. set_solver.
  - destruct (row_id row); [by apply NoDup_cons in Hnd as [_ ?]|done].
  - intros x Hx. destruct (row_id row) as [y|].
    + apply NoDup_cons in Hnd as [Hy _]. cbn. intros [->|Hs]%elem_of_cons; [done|].
      apply (Hfresh x); set_solver.
    + cbn. by apply Hfresh.
Qed.

Lemma fenced_walk s r x k p n :
  fence_ok s r → x ∈ s.(resetDescendantIds) → s.(byId) !! x = Some n → walk s.(byId) k (Some x) p →
  ∃ nr before after, s.(byId) !! r = Some nr ∧ isReset nr.(entry) = true ∧
    p = before ++ nr :: after ∧ Forall (λ m, nr.(index) < m.(index))%nat after ∧
    (nr.(index) ≤ n.(index))%nat.
Proof.
  intros Hok. revert x p n. induction k as [|k IH]; intros x p n Hx Hn Hw.
  - inversion Hw; simplify_eq.
    destruct (fence_reset _ _ Hok) as (_ & Hre & nr & Hnr & _).
    destruct (decide (EmptyString = r)) as [<-|Hne]; [done|].
    by destruct (fence_parents _ _ Hok _ Hx Hne) as (? & ? & ? & _ & ? & _).
  - inversion Hw as [| | |k' c n' p0 Hc Hn' Hw0]; simplify_eq.
    destruct (decide (x = r)) as [->|Hne].
    + destruct (fence_reset _ _ Hok) as (_ & _ & nr & Hnr & Hr). rewrite Hn in Hnr. injection Hnr as <-.
      exists n, p0, []. pose proof (isReset_canonical _ Hr) as [_ ->]. split_and!; [done..|lia].
    + destruct (fence_parents _ _ Hok x Hx Hne) as (n1 & q & nq & E1 & _ & Hq & Hqd & Hnq & Hlt).
      rewrite Hn in E1. injection E1 as <-. rewrite Hq in Hw0.
      destruct (IH q p0 nq Hqd Hnq Hw0) as (nr & before & after & Hnr & Hr & -> & Hall & Hle).
      exists nr, before, (after ++ if isSessionTranscriptLeafControl n.(entry) then [] else [n]).
      split_and!; [done|done|by rewrite <-app_assoc| |lia].
      apply Forall_app. split; [done|]. destruct (isSessionTranscriptLeafControl _); [done|].
      apply Forall_singleton. lia.
Qed.

(** C37: In a transcript with unique row ids whose resets are not written to
    the side, the active path cannot leave the history after the last reset:
    the leaf is known, and whatever leaf controls, stale parents and parentless
    rows came after the reset, the path selected from the leaf runs through
    the reset (or the ancestry above it is cyclic and nothing is selected),
    and every row after the reset on the path was written after it. *)
Theorem reset_fences_history rows s r :
  NoDup (omap row_id rows) → Forall (λ row, side_reset row = false) rows →
  s = scanSessionTranscriptTree rows → s.(latestResetId) = Some r →
  ∃ nr, s.(byId) !! r = Some nr ∧ isReset nr.(entry) = true ∧ is_Some s.(s_leafId) ∧
    let path := selectSessionTranscriptTreePathNodes s.(byId) s.(s_leafId) in
    path = [] ∧ (¬ ∃ k p, walk s.(byId) k s.(s_leafId) p) ∨
    ∃ before after, path = before ++ nr :: after ∧ Forall (λ m, nr.(index) < m.(index))%nat after.
Proof.
  intros Hnd Hside Hs Hr.
  destruct (scan_all_ok rows [] newScan) as [seen Hok]; [|done|done|set_solver|].
  { constructor; cbn; [|done]. intros x n Hx. by rewrite lookup_empty in Hx. }
  fold (scanSessionTranscriptTree rows) in Hok. rewrite <-Hs in Hok.
  pose proof (scan_fence _ _ Hok r Hr) as Hf.
  destruct (fence_reset _ _ Hf) as (_ & _ & nr & Hnr & Hre).
  destruct (fence_leaf _ _ Hf) as (l & Hl & Hld).
  assert (Hn : is_Some (s.(byId) !! l)).
  { destruct (decide (l = r)) as [->|Hne]; [eauto|].
    destruct (fence_parents _ _ Hf l Hld Hne) as (n & ? & ? & -> & _). eauto. }
  destruct Hn as [n Hn]. exists nr. rewrite Hl. split_and!; [done|done|eauto|].
  destruct (pathLoop (pathFuel s.(byId)) s.(byId) ∅ (Some l) []) as [[q|]|] eqn:Eloop.
  - right. destruct (pathLoop_sound _ _ _ _ _ _ Eloop) as (k & p & Hw).
    destruct (fenced_walk s r l k p n Hf Hld Hn Hw) as (nr' & before & after & Hnr' & _ & Hp & Hall & _).
    rewrite Hnr in Hnr'. injection Hnr' as <-. exists before, after. split; [|done].
    rewrite <-Hp. apply (path_of_walk s.(byId) (Some l) k p Hw).
  - left. unfold selectSessionTranscriptTreePathNodes. rewrite Eloop. split; [done|].
    intros (k & p & Hw).
    assert (Hfuel : pathLoop (pathFuel s.(byId)) s.(byId) ∅ (Some l) [] ≠ None) by (by rewrite Eloop).
    pose proof (pathLoop_walk s.(byId) k (Some l) p _ ∅ [] Hw (empty_subseteq _)
      (λ x _, not_elem_of_empty x) Hfuel) as E. congruence.
  - exfalso. by apply (path_fuel_enough s.(byId) (Some l)).
Qed.

(** A leaf control tries to select a row from before the reset. *)
Example reset_fences_history_witness :
  let row t i p tgt := Some {| r_type := Str t; r_id := Str i; r_parentId := p; r_targetId := tgt;
    r_appendParentId := Absent; r_appendMode := Absent; r_firstKeptEntryId := Absent; body := 0 |} in
  let rows := [row "message" "a" Null Absent; row "message" "b" (Str "a") Absent;
               row "reset" "r" (Str "b") Absent; row "leaf" "l" (Str "r") (Str "a");
               row "message" "c" (Str "l") Absent] in
  let s := scanSessionTranscriptTree rows in
  id <$> selectSessionTranscriptTreePathNodes s.(byId) s.(s_leafId) = ["a"; "b"; "r"; "c"] ∧
  is_Some s.(s_leafId).
Proof.
  intros row rows s.
  destruct (reset_fences_history rows s "r") as (nr & _ & _ & Hl & _).
  - apply (bool_decide_unpack _). by vm_compute.
  - repeat constructor.
  - done.
  - by vm_compute.
  - split; [by vm_compute|exact Hl].
Defined.
