(* ===== verification/SessionRegistry.v ===== *)
(** * The registry of session work

    Who works on which session: the identities of a session
    ([src/sessions/session-lifecycle-identity.ts]), the admitted turns and
    lifecycle mutations indexed under them, with the synchronous operations of
    [src/sessions/session-lifecycle-admission.ts], and the hand-over of a lease
    across a call ([src/sessions/session-work-admission-handoff.ts]).

    Admissions are objects: they live in a store under their number.  The
    current admissions of an asynchronous context are an argument. *)
From stdpp Require Import sorting.
From S2P Require Import Prelude JsCollections.
Local Open Scope Z_scope.

(** ** Identities *)

Definition hex_digit (n : nat) : Ascii.ascii :=
  Ascii.ascii_of_nat (if (n <? 10)%nat then 48 + n else 87 + n).

(** The escape of one code unit in a JSON string. *)
Definition jsonEscape (c : Ascii.ascii) : string :=
  let n := Ascii.nat_of_ascii c in
  let esc d := String (Ascii.ascii_of_nat 92) (String (Ascii.ascii_of_nat d) EmptyString) in
  match n with
  | 34 => esc 34
  | 92 => esc 92
  | 8 => esc 98
  | 9 => esc 116
  | 10 => esc 110
  | 12 => esc 102
  | 13 => esc 114
  | _ =>
      if (n <? 32)%nat
      then "\u00" +:+ String (hex_digit (n / 16)) (String (hex_digit (n mod 16)) EmptyString)
      else String c EmptyString
  end%nat.

Fixpoint jsonChars (s : string) : string :=
  match s with
  | EmptyString => EmptyString
  | String c r => jsonEscape c +:+ jsonChars r
  end.

Definition quote : string := String (Ascii.ascii_of_nat 34) EmptyString.

(** [JSON.stringify] of a string and of a pair of strings. *)
Definition jsonString (s : string) : string := quote +:+ jsonChars s +:+ quote.
Definition jsonPair (a b : string) : string :=
  "[" +:+ jsonString a +:+ "," +:+ jsonString b +:+ "]".

Definition trimmedIdentity (identity : option string) : option string :=
  match identity with
  | Some i => match js_trim i with EmptyString => None | t => Some t end
  | None => None
  end.

(** [None] is the error of a blank scope. *)
Definition normalizeSessionIdentities (scope : string) (identities : list (option string)) :
    option (list string) :=
  match js_trim scope with
  | EmptyString => None
  | normalizedScope =>
      Some (merge_sort string_le
        (jsonPair normalizedScope <$> JsSet.of_list (omap trimmedIdentity identities)))
  end.

(** ** The registry *)

Inductive SessionLifecycleMutationKind :=
| Compaction.

#[export] Instance SessionLifecycleMutationKind_eq_dec : EqDecision SessionLifecycleMutationKind.
Proof. solve_decision. Defined.

Record SessionWorkAdmission := {
  handoffIds : list string;
  identities : list string;
  (** The number of the callback to call on an interruption. *)
  interrupt : option nat;
  interrupted : bool;
  released : bool;
}.

#[export] Instance SessionWorkAdmission_eta : Eta SessionWorkAdmission := λ a,
  {| handoffIds := a.(handoffIds); identities := a.(identities); interrupt := a.(interrupt);
     interrupted := a.(interrupted); released := a.(released) |}.

Record SessionLifecycleAdmissionState := {
  admissions : list SessionWorkAdmission;
  activeAdmissions : list (string * list nat);
  activeMutations : list (string * Z);
  activeMutationRuns : list nat;
  activeMutationKinds : list (string * list (SessionLifecycleMutationKind * Z));
  idleWaiters : list (string * list nat);
  handoffs : list (string * nat);
  (** The interrupt callbacks called, in order. *)
  interrupts : list nat;
}.

#[export] Instance SessionLifecycleAdmissionState_eta : Eta SessionLifecycleAdmissionState := λ s,
  {| admissions := s.(admissions); activeAdmissions := s.(activeAdmissions);
     activeMutations := s.(activeMutations); activeMutationRuns := s.(activeMutationRuns);
     activeMutationKinds := s.(activeMutationKinds); idleWaiters := s.(idleWaiters);
     handoffs := s.(handoffs); interrupts := s.(interrupts) |}.

Abbreviation State := SessionLifecycleAdmissionState.

Definition newState : State :=
  {| admissions := []; activeAdmissions := []; activeMutations := []; activeMutationRuns := [];
     activeMutationKinds := []; idleWaiters := []; handoffs := []; interrupts := [] |}.

(** *** Mutations *)

Definition mutationCount (s : State) (identity : string) : Z :=
  default 0 (JsMap.get identity s.(activeMutations)).

Definition hasActiveSessionLifecycleMutation (ids : list string) (s : State) : bool :=
  existsb (λ i, 0 <? mutationCount s i) ids.

Definition kindCount (s : State) (kind : SessionLifecycleMutationKind) (identity : string) : Z :=
  match JsMap.get identity s.(activeMutationKinds) with
  | Some kinds => default 0 (JsMap.get kind kinds)
  | None => 0
  end.

Fixpoint onlyKindLoop (ids : list string) (kind : SessionLifecycleMutationKind) (s : State)
    (found : bool) : bool :=
  match ids with
  | [] => found
  | i :: r =>
      let activeCount := mutationCount s i in
      if activeCount =? 0 then onlyKindLoop r kind s found
      else if negb (kindCount s kind i =? activeCount) then false
      else onlyKindLoop r kind s true
  end.

Definition hasOnlyActiveSessionLifecycleMutationKind (ids : list string)
    (kind : SessionLifecycleMutationKind) (s : State) : bool :=
  onlyKindLoop ids kind s false.

Definition activateOne (kind : option SessionLifecycleMutationKind) (s : State) (i : string) : State :=
  let s1 := s <| activeMutations ::= JsMap.set i (mutationCount s i + 1) |> in
  match kind with
  | None => s1
  | Some k =>
      let kinds := default [] (JsMap.get i s1.(activeMutationKinds)) in
      s1 <| activeMutationKinds ::= JsMap.set i (JsMap.set k (default 0 (JsMap.get k kinds) + 1) kinds) |>
  end.

(** The locked section that activates a mutation (lines 223-237). *)
Definition activateMutation (run : nat) (ids : list string)
    (kind : option SessionLifecycleMutationKind) (s : State) : State :=
  foldl (activateOne kind) (s <| activeMutationRuns ::= JsSet.add run |>) ids.

Definition clearKind (kind : SessionLifecycleMutationKind) (s : State) (i : string) : State :=
  match JsMap.get i s.(activeMutationKinds) with
  | None => s
  | Some kinds =>
      let remainingKindCount := default 1 (JsMap.get kind kinds) - 1 in
      if 0 <? remainingKindCount
      then s <| activeMutationKinds ::= JsMap.set i (JsMap.set kind remainingKindCount kinds) |>
      else
        let kinds' := JsMap.delete kind kinds in
        match kinds' with
        | [] => s <| activeMutationKinds ::= JsMap.delete i |>
        | _ => s <| activeMutationKinds ::= JsMap.set i kinds' |>
        end
  end.

(** The waiters of an identity are resolved by being dropped from the map. *)
Definition deactivateOne (kind : option SessionLifecycleMutationKind) (s : State) (i : string) : State :=
  let s1 := match kind with Some k => clearKind k s i | None => s end in
  let remaining := default 1 (JsMap.get i s1.(activeMutations)) - 1 in
  if 0 <? remaining then s1 <| activeMutations ::= JsMap.set i remaining |>
  else s1 <| activeMutations ::= JsMap.delete i |> <| idleWaiters ::= JsMap.delete i |>.

(** The locked section that ends a mutation (lines 250-277). *)
Definition deactivateMutation (run : nat) (ids : list string)
    (kind : option SessionLifecycleMutationKind) (s : State) : State :=
  (foldl (deactivateOne kind) s ids) <| activeMutationRuns ::= JsSet.delete run |>.

(** [waitForNormalizedSessionLifecycleMutationIdle] up to its await: the waiter
    is under every identity it found active. *)
Definition addWaiter (waiter : nat) (s : State) (i : string) : State :=
  s <| idleWaiters ::= JsMap.set i (JsSet.add waiter (default [] (JsMap.get i s.(idleWaiters)))) |>.

Definition waitForIdle (waiter : nat) (ids : list string) (s : State) : State :=
  foldl (addWaiter waiter) s (filter (λ i, 0 < mutationCount s i) ids).

Definition isWaiting (waiter : nat) (s : State) : bool :=
  existsb (λ i, bool_decide (waiter ∈ default [] (JsMap.get i s.(idleWaiters)))) (JsMap.keys s.(idleWaiters)).

Definition getActiveSessionLifecycleMutationCount (s : State) : Z :=
  if (0 <? JsSet.size s.(activeMutationRuns)) then JsSet.size s.(activeMutationRuns)
  else if (0 <? JsMap.size s.(activeMutations))%nat then 1 else 0.

(** *** Admissions *)

Definition active_at (s : State) (i : string) : list nat :=
  default [] (JsMap.get i s.(activeAdmissions)).

Definition isSessionWorkAdmissionActive (ids : list string) (s : State) : bool :=
  existsb (λ i, 0 <? JsSet.size (active_at s i)) ids.

Definition admissionIdentities (s : State) (a : nat) : list string :=
  from_option identities [] (s.(admissions) !! a).

Definition isSessionWorkAdmissionTargetActive (ids : list string) (s : State) : bool :=
  existsb (λ i, existsb (λ a,
    (length (admissionIdentities s a) =? 1)%nat
    || forallb (λ target, bool_decide (target ∈ admissionIdentities s a)) ids) (active_at s i)) ids.

Definition isCompetingSessionWorkAdmissionActive (ids : list string) (current : list nat) (s : State) : bool :=
  existsb (λ i, existsb (λ a, negb (bool_decide (a ∈ current))) (active_at s i)) ids.

(** The admissions whose release a caller of [getSessionWorkAdmissionRelease]
    awaits; none of them is the absence of a promise. *)
Definition matchingAdmissions (ids : list string) (s : State) : list nat :=
  foldl (λ found i, foldl (λ found a, JsSet.add a found) found (active_at s i)) [] ids.

Definition getActiveSessionWorkAdmissionCount (s : State) : Z :=
  JsSet.size (JsSet.of_list (mjoin (JsMap.values s.(activeAdmissions)))).

(** The registration of an admission (lines 463-476). *)
Definition indexOne (a : nat) (m : list (string * list nat)) (i : string) : list (string * list nat) :=
  JsMap.set i (JsSet.add a (default [] (JsMap.get i m))) m.

Definition registerAdmission (ids : list string) (onInterrupt : option nat) (s : State) : nat * State :=
  let a := length s.(admissions) in
  (a,
   s <| admissions ::= λ l, l ++ [{| handoffIds := []; identities := ids; interrupt := onInterrupt;
                                     interrupted := false; released := false |}] |>
     <| activeAdmissions ::= λ m, foldl (indexOne a) m ids |>).

Definition unindexOne (a : nat) (m : list (string * list nat)) (i : string) : list (string * list nat) :=
  match JsMap.get i m with
  | None => m
  | Some active =>
      match JsSet.delete a active with
      | [] => JsMap.delete i m
      | active' => JsMap.set i active' m
      end
  end.

Definition clearSessionWorkAdmissionHandoffs (a : nat) (s : State) : State :=
  match s.(admissions) !! a with
  | None => s
  | Some ad =>
      s <| handoffs ::= λ m, foldl (λ m h, JsMap.delete h m) m ad.(handoffIds) |>
        <| admissions ::= alter (λ ad, ad <| handoffIds := [] |>) a |>
  end.

(** [lease.release] *)
Definition releaseAdmission (a : nat) (s : State) : State :=
  match s.(admissions) !! a with
  | None => s
  | Some ad =>
      if ad.(released) then s
      else
        clearSessionWorkAdmissionHandoffs a
          (s <| admissions ::= alter (λ ad, ad <| released := true |>) a |>
             <| activeAdmissions ::= λ m, foldl (unindexOne a) m ad.(identities) |>)
  end.

(** [lease.run]: the current admissions inside. *)
Definition leaseRunContext (a : nat) (current : list nat) : list nat := JsSet.add a current.

(** *** Hand-over of a lease *)

(** [lease.createHandoff]; [uuid] is the fresh [randomUUID], and the result is
    [None] for the error of a released lease. *)
Definition createHandoff (uuid : string) (a : nat) (s : State) : option string * State :=
  match s.(admissions) !! a with
  | None => (None, s)
  | Some ad =>
      if ad.(released) then (None, s)
      else
        (Some uuid,
         s <| admissions ::= alter (λ ad, ad <| handoffIds ::= JsSet.add uuid |>) a |>
           <| handoffs ::= JsMap.set uuid a |>)
  end.

Definition removeHandoff (h : string) (a : nat) (s : State) : State :=
  s <| handoffs ::= JsMap.delete h |>
    <| admissions ::= alter (λ ad, ad <| handoffIds ::= JsSet.delete h |>) a |>.

Definition consumeSessionWorkAdmissionHandoff (handoffId : string) (ids : list string)
    (onInterrupt : option nat) (s : State) : option nat * State :=
  match js_trim handoffId with
  | EmptyString => (None, s)
  | h =>
      match JsMap.get h s.(handoffs) with
      | None => (None, s)
      | Some a =>
          if (match ids with [] => true | _ => false end)
             || existsb (λ i, negb (bool_decide (i ∈ admissionIdentities s a))) ids
          then (None, s)
          else
            let s1 := removeHandoff h a s in
            let s2 := s1 <| admissions ::= alter (λ ad, ad <| interrupt := onInterrupt |>) a |> in
            (Some a,
             if from_option interrupted false (s2.(admissions) !! a)
             then s2 <| interrupts ::= λ l, l ++ option_list onInterrupt |> else s2)
      end
  end.

Definition cancelSessionWorkAdmissionHandoff (handoffId : string) (s : State) : bool * State :=
  let h := js_trim handoffId in
  match JsMap.get h s.(handoffs) with
  | None => (false, s)
  | Some a => (true, releaseAdmission a (removeHandoff h a s))
  end.

(** *** Interruption *)

Definition interruptOne (s : State) (a : nat) : State :=
  match s.(admissions) !! a with
  | None => s
  | Some ad =>
      s <| admissions ::= alter (λ ad, ad <| interrupted := true |>) a |>
        <| interrupts ::= λ l, l ++ option_list ad.(interrupt) |>
  end.

(** The interrupted admissions, whose release is then awaited. *)
Definition startSessionWorkAdmissionInterruption (ids : list string) (current : list nat) (s : State) :
    list nat * State :=
  let found := filter (.∉ current) (matchingAdmissions ids s) in
  (found, foldl interruptOne s found).

(** ** Identities do not collide *)

(** The code unit a JSON string starts with, and the rest. *)
Definition jsonUnescape (s : string) : option (Ascii.ascii * string) :=
  match s with
  | String b (String d r) =>
      if (Ascii.nat_of_ascii b =? 92)%nat then
        match Ascii.nat_of_ascii d with
        | 34 => Some (Ascii.ascii_of_nat 34, r)
        | 92 => Some (Ascii.ascii_of_nat 92, r)
        | 98 => Some (Ascii.ascii_of_nat 8, r)
        | 116 => Some (Ascii.ascii_of_nat 9, r)
        | 110 => Some (Ascii.ascii_of_nat 10, r)
        | 102 => Some (Ascii.ascii_of_nat 12, r)
        | 114 => Some (Ascii.ascii_of_nat 13, r)
        | _ =>
            match r with
            | String _ (String _ (String x (String y r'))) =>
                let v c := (if Ascii.nat_of_ascii c <? 58 then Ascii.nat_of_ascii c - 48
                            else Ascii.nat_of_ascii c - 87)%nat in
                Some (Ascii.ascii_of_nat (16 * v x + v y), r')
            | _ => None
            end
        end%nat
      else Some (b, String d r)
  | String b EmptyString => Some (b, EmptyString)
  | EmptyString => None
  end.

Lemma jsonUnescape_escape c r :
  jsonUnescape (jsonEscape c +:+ r) = Some (c, r) ∧ ∀ q, jsonEscape c +:+ r ≠ quote +:+ q.
Proof.
  destruct c as [[] [] [] [] [] [] [] []]; (split; [by destruct r|]); intros q H;
    by vm_compute in H; injection H.
Qed.

Lemma string_app_assoc (a b c : string) : (a +:+ b) +:+ c = a +:+ (b +:+ c).
Proof. induction a as [|x a IH]; [done|]. exact (f_equal (String x) IH). Qed.

Lemma jsonChars_injective a b r r' :
  jsonChars a +:+ (quote +:+ r) = jsonChars b +:+ (quote +:+ r') → a = b ∧ r = r'.
Proof.
  revert b. induction a as [|c a IH]; intros [|d b]; cbn [jsonChars]; rewrite ?string_app_assoc.
  - cbn. intros H. by injection H.
  - intros H. destruct (jsonUnescape_escape d (jsonChars b +:+ (quote +:+ r'))) as [_ Hq].
    by destruct (Hq r).
  - intros H. destruct (jsonUnescape_escape c (jsonChars a +:+ (quote +:+ r))) as [_ Hq].
    by destruct (Hq r').
  - intros H. apply (f_equal jsonUnescape) in H.
    destruct (jsonUnescape_escape c (jsonChars a +:+ (quote +:+ r))) as [E1 _].
    destruct (jsonUnescape_escape d (jsonChars b +:+ (quote +:+ r'))) as [E2 _].
    rewrite E1, E2 in H. injection H as -> H. by destruct (IH b H) as [-> ->].
Qed.

(** Two identities are the same string only for the same scope and session. *)
Lemma jsonPair_injective a b a' b' : jsonPair a b = jsonPair a' b' → a = a' ∧ b = b'.
Proof.
  unfold jsonPair, jsonString. rewrite !string_app_assoc. intros H.
  assert (Hq : ∀ x y, "[" +:+ (quote +:+ x) = "[" +:+ (quote +:+ y) → x = y).
  { cbn. intros x y E. by injection E. }
  apply Hq in H. apply jsonChars_injective in H as [-> H].
  assert (Hc : ∀ x y, "," +:+ (quote +:+ x) = "," +:+ (quote +:+ y) → x = y).
  { cbn. intros x y E. by injection E. }
  apply Hc in H. by apply jsonChars_injective in H as [-> _].
Qed.

(** ** The index of admissions *)

Definition members (m : list (string * list nat)) (i : string) : list nat :=
  default [] (JsMap.get i m).

Definition index_ok (m : list (string * list nat)) : Prop :=
  NoDup (JsMap.keys m) ∧ ∀ i l, JsMap.get i m = Some l → l ≠ [] ∧ NoDup l.

Lemma members_nodup m i : index_ok m → NoDup (members m i).
Proof.
  intros [_ H]. unfold members. destruct (JsMap.get i m) eqn:E; [by apply H in E as [_ ?]|constructor].
Qed.

Lemma indexOne_ok a m i : index_ok m → index_ok (indexOne a m i).
Proof.
  intros Hok. pose proof (members_nodup m i Hok) as Hm. destruct Hok as [Hk Hv]. unfold indexOne.
  split; [by apply JsMap.NoDup_keys_set|]. intros j l. rewrite JsMap.get_set. case_decide; [|apply Hv].
  intros [= <-]. fold (members m i). split; [|by apply JsSet.NoDup_add].
  intros He. assert (Hin : a ∈ JsSet.add a (members m i)) by (apply JsSet.elem_of_add; by left).
  rewrite He in Hin. by apply not_elem_of_nil in Hin.
Qed.

Lemma members_indexOne a m i j b :
  b ∈ members (indexOne a m i) j ↔ b ∈ members m j ∨ j = i ∧ b = a.
Proof.
  unfold members, indexOne. rewrite JsMap.get_set. case_decide as Hj; cbn.
  - subst j. rewrite JsSet.elem_of_add. naive_solver.
  - naive_solver.
Qed.

Lemma index_fold a ids m :
  index_ok m → index_ok (foldl (indexOne a) m ids) ∧
  ∀ j b, b ∈ members (foldl (indexOne a) m ids) j ↔ b ∈ members m j ∨ j ∈ ids ∧ b = a.
Proof.
  revert m. induction ids as [|i ids IH]; intros m Hok; cbn [foldl]; [split; [done|set_solver]|].
  destruct (IH (indexOne a m i)) as [H1 H2]; [by apply indexOne_ok|]. split; [done|].
  intros j b. rewrite H2, members_indexOne. set_solver.
Qed.

Lemma unindexOne_ok a m i : index_ok m → index_ok (unindexOne a m i).
Proof.
  intros [Hk Hv]. unfold unindexOne. destruct (JsMap.get i m) as [l|] eqn:El; [|done].
  destruct (Hv i l El) as [_ Hl]. pose proof (JsSet.NoDup_delete a l Hl) as Hd.
  destruct (JsSet.delete a l) as [|x r] eqn:Ed.
  - split; [by apply JsMap.NoDup_keys_delete|]. intros j l'. rewrite JsMap.get_delete.
    case_decide; [done|apply Hv].
  - split; [by apply JsMap.NoDup_keys_set|]. intros j l'. rewrite JsMap.get_set.
    case_decide; [|apply Hv]. by intros [= <-].
Qed.

Lemma members_unindexOne a m i j b :
  b ∈ members (unindexOne a m i) j ↔ b ∈ members m j ∧ ¬ (j = i ∧ b = a).
Proof.
  unfold members, unindexOne. destruct (JsMap.get i m) as [l|] eqn:El.
  - pose proof (JsSet.elem_of_delete a b l) as Hd. destruct (JsSet.delete a l) as [|x r] eqn:Ed.
    + rewrite JsMap.get_delete. case_decide as Hj; cbn; [|naive_solver]. subst j. rewrite El. cbn.
      split; [set_solver|]. intros [Hb Hn]. apply Hd. naive_solver.
    + rewrite JsMap.get_set. case_decide as Hj; cbn; [|naive_solver]. subst j. rewrite El. cbn.
      rewrite Hd. naive_solver.
  - destruct (decide (j = i)) as [->|]; [rewrite El; set_solver|naive_solver].
Qed.

Lemma unindex_fold a ids m :
  index_ok m → index_ok (foldl (unindexOne a) m ids) ∧
  ∀ j b, b ∈ members (foldl (unindexOne a) m ids) j ↔ b ∈ members m j ∧ ¬ (j ∈ ids ∧ b = a).
Proof.
  revert m. induction ids as [|i ids IH]; intros m Hok; cbn [foldl]; [split; [done|set_solver]|].
  destruct (IH (unindexOne a m i)) as [H1 H2]; [by apply unindexOne_ok|]. split; [done|].
  intros j b. rewrite H2, members_unindexOne. set_solver.
Qed.

Lemma delete_fold {V} (hs : list string) (m : list (string * V)) :
  (NoDup (JsMap.keys m) → NoDup (JsMap.keys (foldl (λ m h, JsMap.delete h m) m hs))) ∧
  ∀ k, JsMap.get k (foldl (λ m h, JsMap.delete h m) m hs) = if decide (k ∈ hs) then None else JsMap.get k m.
Proof.
  revert m. induction hs as [|h hs IH]; intros m; cbn [foldl]; [done|].
  destruct (IH (JsMap.delete h m)) as [H1 H2]. split; [intros; by apply H1, JsMap.NoDup_keys_delete|].
  intros k. rewrite H2, JsMap.get_delete. repeat case_decide; set_solver.
Qed.

Record registry_ok (s : State) : Prop := {
  reg_index : index_ok s.(activeAdmissions);
  (** The index holds exactly the unreleased admissions under their identities. *)
  reg_members : ∀ i a, a ∈ active_at s i ↔
    ∃ ad, s.(admissions) !! a = Some ad ∧ ad.(released) = false ∧ i ∈ ad.(identities);
  (** A hand-off token belongs to one unreleased admission, which knows it. *)
  reg_handoffs : ∀ h a, JsMap.get h s.(handoffs) = Some a ↔
    ∃ ad, s.(admissions) !! a = Some ad ∧ ad.(released) = false ∧ h ∈ ad.(handoffIds);
  reg_released : ∀ a ad, s.(admissions) !! a = Some ad → ad.(released) = true → ad.(handoffIds) = [];
}.

Lemma lookup_snoc {A} (l : list A) x i y :
  (l ++ [x]) !! i = Some y ↔ l !! i = Some y ∨ i = length l ∧ y = x.
Proof.
  rewrite lookup_app_Some, list_lookup_singleton_Some. split.
  - intros [?|[? [? ?]]]; [by left|right; split; [lia|done]].
  - intros [?|[-> ->]]; [by left|right; split; [lia|split; [lia|done]]].
Qed.

Lemma register_ok ids cb s : registry_ok s → registry_ok (registerAdmission ids cb s).2.
Proof.
  intros [Hi Hm Hh Hr]. unfold registerAdmission. cbn [snd].
  destruct (index_fold (length s.(admissions)) ids s.(activeAdmissions) Hi) as [H1 H2].
  constructor; cbn; [done| | |].
  - intros i a. unfold active_at. cbn. fold (members (foldl (indexOne (length s.(admissions)))
      s.(activeAdmissions) ids) i). rewrite H2. setoid_rewrite lookup_snoc. unfold active_at in Hm.
    fold (members s.(activeAdmissions) i) in Hm |- *. unfold members at 1. rewrite Hm. split.
    + intros [(ad & Hl & Hrel & Hin)|[Hin ->]]; [eauto|]. eexists. split; [by right|]. done.
    + intros (ad & [Hl|[-> ->]] & Hrel & Hin); [left; eauto|by right].
  - intros h a. rewrite Hh. setoid_rewrite lookup_snoc. split.
    + intros (ad & Hl & Hrel & Hin). eauto.
    + intros (ad & [Hl|[-> ->]] & Hrel & Hin); [eauto|]. cbn in Hin. by apply not_elem_of_nil in Hin.
  - intros a ad [Hl|[-> ->]]%lookup_snoc Hrel; [by eapply Hr|done].
Qed.

Lemma alter_lookup {A} (f : A → A) i j (l : list A) y :
  alter f i l !! j = Some y ↔ ∃ x, l !! j = Some x ∧ y = if decide (j = i) then f x else x.
Proof.
  destruct (decide (j = i)) as [->|Hne].
  - by rewrite list_lookup_alter_eq, fmap_Some.
  - rewrite list_lookup_alter_ne by done. split; [eauto|]. by intros (x & Hx & ->).
Qed.

Lemma release_admission_ok a s : registry_ok s → registry_ok (releaseAdmission a s).
Proof.
  intros Hok. unfold releaseAdmission. destruct (s.(admissions) !! a) as [ad0|] eqn:Ea; [|done].
  destruct ad0.(released) eqn:Er; [done|]. destruct Hok as [Hi Hm Hh Hr].
  unfold clearSessionWorkAdmissionHandoffs. cbn. rewrite list_lookup_alter_eq, Ea. cbn.
  destruct (unindex_fold a ad0.(identities) s.(activeAdmissions) Hi) as [H1 H2].
  assert (Hl : ∀ b x, alter (λ ad, ad <| handoffIds := [] |>) a
      (alter (λ ad, ad <| released := true |>) a s.(admissions)) !! b = Some x ↔
    ∃ y, s.(admissions) !! b = Some y ∧
      (b ≠ a ∧ x = y ∨ b = a ∧ x = (y <| released := true |> <| handoffIds := [] |>))).
  { intros b x. rewrite alter_lookup. setoid_rewrite alter_lookup. split.
    - intros (y & (z & Hz & ->) & ->). exists z. split; [done|]. case_decide; [by right|by left].
    - intros (y & Hy & Hx). eexists. split; [by exists y|].
      case_decide; destruct Hx as [[? ->]|[? ->]]; congruence || done. }
  constructor; cbn; [done| | |].
  - intros i b. unfold active_at. cbn. fold (members (foldl (unindexOne a) s.(activeAdmissions) ad0.(identities)) i).
    rewrite H2. unfold active_at in Hm. fold (members s.(activeAdmissions) i) in Hm.
    unfold members at 1. rewrite Hm. setoid_rewrite Hl. split.
    + intros [(ad & Hb & Hrel & Hin) Hn]. exists ad. split; [|done].
      exists ad. split; [done|]. left. split; [|done]. intros ->. apply Hn.
      rewrite Ea in Hb. injection Hb as <-. done.
    + intros (x & (y & Hy & [[Hne ->]|[-> ->]]) & Hrel & Hin); [|done].
      split; [by exists y|]. naive_solver.
  - intros h b. destruct (delete_fold ad0.(handoffIds) s.(handoffs)) as [_ Hd]. rewrite Hd.
    setoid_rewrite Hl. destruct (decide (h ∈ ad0.(handoffIds))) as [Hin|Hin].
    + split; [done|]. intros (x & (y & Hy & [[Hne ->]|[-> ->]]) & Hrel & Hx); [exfalso|done].
      assert (E1 : JsMap.get h s.(handoffs) = Some a) by (apply Hh; eauto).
      assert (E2 : JsMap.get h s.(handoffs) = Some b) by (apply Hh; eauto). congruence.
    + rewrite Hh. split.
      * intros (y & Hy & Hrel & Hx). exists y. split; [|done]. exists y. split; [done|].
        left. split; [|done]. intros ->. rewrite Ea in Hy. by injection Hy as <-.
      * intros (x & (y & Hy & [[Hne ->]|[-> ->]]) & Hrel & Hx); [|done]. eauto.
  - intros b x (y & Hy & [[Hne ->]|[-> ->]])%Hl Hrel; [by eapply Hr|done].
Qed.

(** Changes of an admission that keep its identities, tokens and release. *)
Lemma alter_same_ok f a s s' :
  registry_ok s → (∀ ad, (f ad).(identities) = ad.(identities) ∧ (f ad).(released) = ad.(released) ∧
    (f ad).(handoffIds) = ad.(handoffIds)) →
  s'.(admissions) = alter f a s.(admissions) → s'.(activeAdmissions) = s.(activeAdmissions) →
  s'.(handoffs) = s.(handoffs) → registry_ok s'.
Proof.
  intros [Hi Hm Hh Hr] Hf E1 E2 E3.
  assert (Hl : ∀ b x, s'.(admissions) !! b = Some x → ∃ y, s.(admissions) !! b = Some y ∧
    x.(identities) = y.(identities) ∧ x.(released) = y.(released) ∧ x.(handoffIds) = y.(handoffIds)).
  { intros b x. rewrite E1, alter_lookup. intros (y & Hy & ->). exists y. split; [done|].
    case_decide; [apply Hf|done]. }
  assert (Hl' : ∀ b y, s.(admissions) !! b = Some y → ∃ x, s'.(admissions) !! b = Some x ∧
    x.(identities) = y.(identities) ∧ x.(released) = y.(released) ∧ x.(handoffIds) = y.(handoffIds)).
  { intros b y Hy. exists (if decide (b = a) then f y else y). rewrite E1, alter_lookup.
    split; [eauto|]. case_decide; [apply Hf|done]. }
  constructor.
  - by rewrite E2.
  - intros i b. unfold active_at. rewrite E2. fold (active_at s i). rewrite Hm. split.
    + intros (y & Hy & Hrel & Hin). destruct (Hl' _ _ Hy) as (x & Hx & F1 & F2 & F3).
      exists x. rewrite F1, F2. done.
    + intros (x & Hx & Hrel & Hin). destruct (Hl _ _ Hx) as (y & Hy & F1 & F2 & F3).
      exists y. rewrite <-F1, <-F2. done.
  - intros h b. rewrite E3, Hh. split.
    + intros (y & Hy & Hrel & Hin). destruct (Hl' _ _ Hy) as (x & Hx & F1 & F2 & F3).
      exists x. rewrite F2, F3. done.
    + intros (x & Hx & Hrel & Hin). destruct (Hl _ _ Hx) as (y & Hy & F1 & F2 & F3).
      exists y. rewrite <-F2, <-F3. done.
  - intros b x (y & Hy & F1 & F2 & F3)%Hl Hrel. rewrite F3. eapply Hr; [done|]. by rewrite <-F2.
Qed.

Lemma createHandoff_ok uuid a s :
  registry_ok s → JsMap.get uuid s.(handoffs) = None → registry_ok (createHandoff uuid a s).2.
Proof.
  intros Hok Hfresh. unfold createHandoff. destruct (s.(admissions) !! a) as [ad0|] eqn:Ea; [|done].
  destruct ad0.(released) eqn:Er; [done|]. destruct Hok as [Hi Hm Hh Hr]. cbn [snd].
  constructor; cbn; [done| | |].
  - intros i b. unfold active_at. cbn. fold (active_at s i). rewrite Hm. setoid_rewrite alter_lookup. split.
    + intros (y & Hy & Hrel & Hin). eexists. split; [by exists y|]. by case_decide.
    + intros (x & (y & Hy & ->) & Hrel & Hin). exists y. by case_decide.
  - intros h b. rewrite JsMap.get_set. setoid_rewrite alter_lookup. destruct (decide (h = uuid)) as [->|Hne].
    + split.
      * intros [= <-]. eexists. split; [by exists ad0|]. rewrite decide_True by done. cbn.
        split; [done|]. apply JsSet.elem_of_add. by left.
      * intros (x & (y & Hy & ->) & Hrel & Hx). destruct (decide (b = a)) as [->|Hba]; [done|].
        exfalso. assert (E : JsMap.get uuid s.(handoffs) = Some b) by (apply Hh; eauto). congruence.
    + rewrite Hh. split.
      * intros (y & Hy & Hrel & Hx). eexists. split; [by exists y|]. case_decide; [|done]. cbn.
        split; [done|]. apply JsSet.elem_of_add. by right.
      * intros (x & (y & Hy & ->) & Hrel & Hx). exists y. split; [done|].
        destruct (decide (b = a)); [|done]. cbn in *. split; [done|].
        apply JsSet.elem_of_add in Hx. naive_solver.
  - intros b x Hx Hrel. apply alter_lookup in Hx as (y & Hy & ->).
    destruct (decide (b = a)) as [->|Hba]; [|by eapply Hr]. cbn in Hrel. congruence.
Qed.

Lemma removeHandoff_ok h a s :
  registry_ok s → JsMap.get h s.(handoffs) = Some a → registry_ok (removeHandoff h a s).
Proof.
  intros [Hi Hm Hh Hr] Hg. constructor; cbn; [done| | |].
  - intros i b. unfold active_at. cbn. fold (active_at s i). rewrite Hm. setoid_rewrite alter_lookup. split.
    + intros (y & Hy & Hrel & Hin). eexists. split; [by exists y|]. by case_decide.
    + intros (x & (y & Hy & ->) & Hrel & Hin). exists y. by case_decide.
  - intros k b. rewrite JsMap.get_delete. setoid_rewrite alter_lookup. destruct (decide (k = h)) as [->|Hne].
    + split; [done|]. intros (x & (y & Hy & ->) & Hrel & Hx). destruct (decide (b = a)) as [->|Hba].
      * cbn in Hx. apply JsSet.elem_of_delete in Hx as [Hx _]. done.
      * exfalso. assert (E : JsMap.get h s.(handoffs) = Some b) by (apply Hh; eauto). congruence.
    + rewrite Hh. split.
      * intros (y & Hy & Hrel & Hx). eexists. split; [by exists y|]. case_decide; [|done]. cbn.
        split; [done|]. by apply JsSet.elem_of_delete.
      * intros (x & (y & Hy & ->) & Hrel & Hx). exists y. split; [done|].
        destruct (decide (b = a)); [|done]. cbn in *. split; [done|].
        by apply JsSet.elem_of_delete in Hx as [_ ?].
  - intros b x Hx Hrel. apply alter_lookup in Hx as (y & Hy & ->).
    destruct (decide (b = a)) as [->|Hba]; [|by eapply Hr]. cbn in *. by rewrite (Hr _ _ Hy Hrel).
Qed.

Lemma consume_Some h ids cb s a s' :
  consumeSessionWorkAdmissionHandoff h ids cb s = (Some a, s') →
  JsMap.get (js_trim h) s.(handoffs) = Some a ∧ ids ≠ [] ∧ ids ⊆ admissionIdentities s a ∧
  s'.(handoffs) = JsMap.delete (js_trim h) s.(handoffs) ∧
  ∃ f, s'.(admissions) = alter f a (removeHandoff (js_trim h) a s).(admissions) ∧
    s'.(activeAdmissions) = s.(activeAdmissions) ∧
    ∀ ad, (f ad).(identities) = ad.(identities) ∧ (f ad).(released) = ad.(released) ∧
      (f ad).(handoffIds) = ad.(handoffIds).
Proof.
  unfold consumeSessionWorkAdmissionHandoff. destruct (js_trim h) as [|c r] eqn:Et; [done|].
  destruct (JsMap.get (String c r) s.(handoffs)) as [b|] eqn:Eg; [|done].
  destruct (_ || _) eqn:Eb; [done|]. apply orb_false_iff in Eb as [Eids Eb]. intros [= -> <-].
  split_and!.
  - done.
  - by destruct ids.
  - intros i Hi. destruct (decide (i ∈ admissionIdentities s a)) as [|Hn]; [done|exfalso].
    apply not_true_iff_false in Eb. apply Eb, existsb_exists. exists i.
    split; [by apply list_elem_of_In|]. by rewrite bool_decide_false.
  - by destruct (from_option _ _ _).
  - exists (λ ad, ad <| interrupt := cb |>). by destruct (from_option _ _ _).
Qed.

Lemma consume_ok h ids cb s : registry_ok s → registry_ok (consumeSessionWorkAdmissionHandoff h ids cb s).2.
Proof.
  intros Hok. destruct (consumeSessionWorkAdmissionHandoff h ids cb s) as [[a|] s'] eqn:E; cbn [snd].
  - apply consume_Some in E as (Hg & _ & _ & Hh & f & Ha & Hact & Hf).
    by apply (alter_same_ok f a (removeHandoff (js_trim h) a s)); [by apply removeHandoff_ok|..].
  - unfold consumeSessionWorkAdmissionHandoff in E. destruct (js_trim h); [by injection E as <-|].
    destruct (JsMap.get _ _); [|by injection E as <-]. destruct (_ || _); [by injection E as <-|done].
Qed.

Lemma interrupt_fold_ok l s : registry_ok s → registry_ok (foldl interruptOne s l).
Proof.
  revert s. induction l as [|a l IH]; intros s Hok; [done|]. cbn [foldl]. apply IH.
  unfold interruptOne. destruct (s.(admissions) !! a) as [ad|]; [|done].
  by apply (alter_same_ok (λ ad, ad <| interrupted := true |>) a s).
Qed.

Inductive RegistryOp :=
| OpRegister (ids : list string) (cb : option nat)
| OpRelease (a : nat)
| OpCreateHandoff (uuid : string) (a : nat)
| OpConsume (h : string) (ids : list string) (cb : option nat)
| OpCancel (h : string)
| OpInterrupt (ids : list string) (current : list nat).

Definition registryOp (op : RegistryOp) (s : State) : State :=
  match op with
  | OpRegister ids cb => (registerAdmission ids cb s).2
  | OpRelease a => releaseAdmission a s
  | OpCreateHandoff uuid a => (createHandoff uuid a s).2
  | OpConsume h ids cb => (consumeSessionWorkAdmissionHandoff h ids cb s).2
  | OpCancel h => (cancelSessionWorkAdmissionHandoff h s).2
  | OpInterrupt ids current => (startSessionWorkAdmissionInterruption ids current s).2
  end.

(** The contract of [randomUUID]: no token in use is drawn again. *)
Definition fresh_uuid (op : RegistryOp) (s : State) : Prop :=
  match op with
  | OpCreateHandoff uuid _ => JsMap.get uuid s.(handoffs) = None
  | _ => True
  end.

Inductive reachable : State → Prop :=
| reach_new : reachable newState
| reach_op op s : reachable s → fresh_uuid op s → reachable (registryOp op s).

Lemma registryOp_ok op s : registry_ok s → fresh_uuid op s → registry_ok (registryOp op s).
Proof.
  intros Hok Hf. destruct op as [ids cb|a|uuid a|h ids cb|h|ids cur]; cbn [registryOp].
  - by apply register_ok.
  - by apply release_admission_ok.
  - by apply createHandoff_ok.
  - by apply consume_ok.
  - unfold cancelSessionWorkAdmissionHandoff. destruct (JsMap.get _ _) as [a|] eqn:E; [|done].
    by apply release_admission_ok, removeHandoff_ok.
  - by apply interrupt_fold_ok.
Qed.

Lemma newState_ok : registry_ok newState.
Proof.
  constructor; cbn.
  - split; [constructor|done].
  - intros i a. split; [by intros ?%not_elem_of_nil|]. by intros (ad & ? & _).
  - intros h a. split; [done|]. by intros (ad & ? & _).
  - done.
Qed.

Lemma registry_reachable_ok s : reachable s → registry_ok s.
Proof. induction 1 as [|op s _ IH Hf]; [exact newState_ok|by apply registryOp_ok]. Qed.

Lemma live_admission s h a :
  registry_ok s → JsMap.get h s.(handoffs) = Some a →
  ∃ ad, s.(admissions) !! a = Some ad ∧ ad.(released) = false.
Proof. intros Hok Hg. apply (reg_handoffs _ Hok) in Hg as (ad & ? & ? & _). eauto. Qed.

Lemma consume_gone h ids cb s :
  JsMap.get (js_trim h) s.(handoffs) = None →
  (consumeSessionWorkAdmissionHandoff h ids cb s).1 = None ∧
  (cancelSessionWorkAdmissionHandoff h s).1 = false.
Proof.
  intros Hg. unfold consumeSessionWorkAdmissionHandoff, cancelSessionWorkAdmissionHandoff. rewrite Hg.
  split; [|done]. destruct (js_trim h); [done|]. by rewrite Hg.
Qed.

(** A hand-off token is good once and only for a live lease.  Consuming
    it succeeds only while the admission it was made for is not released, and
    only for sessions that admission covers; afterwards neither consuming nor
    cancelling it does anything; an adopter of an admission that has already
    been interrupted is told at once; and releasing an admission takes all its
    outstanding tokens out of use. *)
Theorem handoff_is_single_use s :
  reachable s →
  (∀ h ids cb a s', consumeSessionWorkAdmissionHandoff h ids cb s = (Some a, s') →
     (∃ ad, s.(admissions) !! a = Some ad ∧ ad.(released) = false ∧ ids ≠ [] ∧
        ids ⊆ ad.(identities) ∧
        s'.(interrupts) = s.(interrupts) ++ (if ad.(interrupted) then option_list cb else [])) ∧
     (∀ ids' cb', (consumeSessionWorkAdmissionHandoff h ids' cb' s').1 = None) ∧
     (cancelSessionWorkAdmissionHandoff h s').1 = false) ∧
  (∀ a h, JsMap.get h (releaseAdmission a s).(handoffs) ≠ Some a).
Proof.
  intros Hs. pose proof (registry_reachable_ok _ Hs) as Hok. split.
  - intros h ids cb a s' E. pose proof (consume_Some _ _ _ _ _ _ E) as (Hg & Hne & Hsub & Hh & _).
    destruct (live_admission s (js_trim h) a Hok Hg) as (ad & Ha & Hr).
    assert (Hgone : JsMap.get (js_trim h) s'.(handoffs) = None).
    { rewrite Hh. apply JsMap.get_delete_eq. }
    split; [|split; [intros; by apply consume_gone|by apply consume_gone]].
    exists ad. unfold admissionIdentities in Hsub. rewrite Ha in Hsub. split_and!; [done..|].
    unfold consumeSessionWorkAdmissionHandoff in E. destruct (js_trim h); [done|]. rewrite Hg in E.
    destruct (_ || _); [done|]. injection E as <-. cbn.
    rewrite !list_lookup_alter_eq, Ha. cbn. destruct ad.(interrupted); cbn; [done|by rewrite app_nil_r].
  - intros a h Hg. pose proof (release_admission_ok a s Hok) as Hok'.
    apply (reg_handoffs _ Hok') in Hg as (ad & Ha & Hr & Hin). revert Ha. unfold releaseAdmission.
    destruct (s.(admissions) !! a) as [ad0|] eqn:E; [|by rewrite E].
    destruct ad0.(released) eqn:Er; [rewrite E; congruence|].
    unfold clearSessionWorkAdmissionHandoffs. cbn. rewrite list_lookup_alter_eq, E. cbn.
    rewrite !list_lookup_alter_eq, E. cbn. intros [= <-]. done.
Qed.

(** The adopter of an interrupted admission is told; the token is used up. *)
Example handoff_is_single_use_witness :
  let s := registryOp (OpInterrupt ["s"] []) (registryOp (OpCreateHandoff "u" 0)
             (registryOp (OpRegister ["s"; "t"] (Some 7%nat)) newState)) in
  let r := consumeSessionWorkAdmissionHandoff " u " ["t"] (Some 8%nat) s in
  r.1 = Some 0%nat ∧ r.2.(interrupts) = [7; 8]%nat ∧
  (consumeSessionWorkAdmissionHandoff "u" ["t"] None r.2).1 = None.
Proof.
  intros s r. assert (Hs : reachable s).
  { repeat (apply reach_op; [|by vm_compute || exact I]). constructor. }
  destruct (handoff_is_single_use s Hs) as [H _].
  destruct (H " u " ["t"] (Some 8%nat) 0%nat r.2) as (_ & Hgone & _); [by vm_compute|].
  split_and!; [by vm_compute|by vm_compute|].
  pose proof (Hgone ["t"] None) as Hg. exact Hg.
Defined.

(** The index of active admissions is exact in every reachable state: an
    admission is found under an identity exactly while it is not released and
    was admitted for it, so a session counts as busy exactly while some
    unreleased admission covers it; and no identity keeps an empty entry. *)
Theorem admission_index_exact s ids :
  reachable s →
  (∀ i a, a ∈ active_at s i ↔
     ∃ ad, s.(admissions) !! a = Some ad ∧ ad.(released) = false ∧ i ∈ ad.(identities)) ∧
  (isSessionWorkAdmissionActive ids s = true ↔
     ∃ i a ad, i ∈ ids ∧ s.(admissions) !! a = Some ad ∧ ad.(released) = false ∧ i ∈ ad.(identities)) ∧
  (∀ i l, JsMap.get i s.(activeAdmissions) = Some l → l ≠ []).
Proof.
  intros Hs. pose proof (registry_reachable_ok _ Hs) as Hok. split_and!; [apply Hok| |].
  - unfold isSessionWorkAdmissionActive. rewrite existsb_exists. split.
    + intros (i & Hi & Hlt%Z.ltb_lt). apply list_elem_of_In in Hi. unfold JsSet.size in Hlt.
      destruct (active_at s i) as [|a l] eqn:El; [simpl in Hlt; lia|].
      assert (Ha : a ∈ active_at s i) by (rewrite El; set_solver).
      apply (reg_members _ Hok) in Ha as (ad & ? & ? & ?). exists i, a, ad. done.
    + intros (i & a & ad & Hi & Ha & Hr & Hin). exists i. split; [by apply list_elem_of_In|].
      apply Z.ltb_lt. assert (Hm : a ∈ active_at s i) by (apply (reg_members _ Hok); eauto).
      unfold JsSet.size. destruct (active_at s i); [by apply not_elem_of_nil in Hm|simpl; lia].
  - intros i l Hl. by apply (reg_index _ Hok) in Hl as [? _].
Qed.

Example admission_index_exact_witness :
  let s := registryOp (OpRelease 0) (registryOp (OpRegister ["s"] None)
             (registryOp (OpRegister ["s"; "t"] None) newState)) in
  isSessionWorkAdmissionActive ["s"] s = true ∧ isSessionWorkAdmissionActive ["t"] s = false.
Proof.
  intros s. assert (Hs : reachable s).
  { repeat (apply reach_op; [|exact I]). constructor. }
  destruct (admission_index_exact s ["s"] Hs) as (_ & H & _).
  split; [|by vm_compute]. apply H. exists "s", 1%nat. eexists. split_and!; [set_solver|by vm_compute|done|set_solver].
Defined.
