(* ===== verification/SessionLifecycle.v ===== *)
(** * Session lifecycle admission

    The concurrent protocol of [src/sessions/session-lifecycle-admission.ts]:
    admissions of work and exclusive lifecycle mutations over the identities of
    a session, with their two families of locks.

    Every call is a thread whose program counter stands at an await; a step
    runs the code up to the next one.  A lock is what a store writer queue
    promises (KeyedQueues): one holder at a time.  A lock is free when no
    thread's program counter holds it; the locks of a section are released
    together when it ends.  Calls are not nested in one another's callbacks. *)
From S2P Require Import Prelude JsCollections SessionRegistry.
Local Open Scope Z_scope.

Inductive Pc :=
(** [beginSessionWorkAdmission]: the loop of [runExclusiveSessionLifecycle], the
    wait for idle mutations, the lifecycle locks taken so far, the caller's
    check under all of them, the writer barrier behind the registration, the
    lease in the caller's hands. *)
| AdStart
| AdWaiting
| AdLocking (k : nat)
| AdAllowing
| AdBarrier (a : nat)
| AdHolding (a : nat)
| AdReleased
| AdFailed
(** [runExclusiveSessionLifecycleMutation]: the mutation locks taken so far, then
    the lifecycle locks around the activation, the preparation, the lifecycle
    locks around the run, the finalization and those around the end. *)
| MuQueued (k : nat)
| MuActivating (k : nat)
| MuPreparing
| MuRunLocking (k : nat)
| MuRunning
| MuFinalizing
| MuClearing (k : nat)
| MuDone
| MuFailed.

Record Thread := {
  ids : list string;
  kind : option SessionLifecycleMutationKind;
  onInterrupt : option nat;
  pc : Pc;
}.

#[export] Instance Thread_eta : Eta Thread := λ t,
  {| ids := t.(ids); kind := t.(kind); onInterrupt := t.(onInterrupt); pc := t.(pc) |}.

Record System := {
  threads : list Thread;
  reg : State;
}.

#[export] Instance System_eta : Eta System := λ s, {| threads := s.(threads); reg := s.(reg) |}.

Definition newSystem : System := {| threads := []; reg := newState |}.

(** The locks a thread holds. *)
Definition holds_lifecycle (th : Thread) : list string :=
  match th.(pc) with
  | AdLocking k | MuActivating k | MuRunLocking k | MuClearing k => take k th.(ids)
  | AdAllowing | AdBarrier _ | MuRunning => th.(ids)
  | _ => []
  end.

Definition holds_mutation (th : Thread) : list string :=
  match th.(pc) with
  | MuQueued k => take k th.(ids)
  | MuActivating _ | MuPreparing | MuRunLocking _ | MuRunning | MuFinalizing | MuClearing _ => th.(ids)
  | _ => []
  end.

(** A mutation between its activation and its end. *)
Definition mutates (th : Thread) : bool :=
  match th.(pc) with
  | MuPreparing | MuRunLocking _ | MuRunning | MuFinalizing | MuClearing _ => true
  | _ => false
  end.

Definition lifecycle_free (i : string) (s : System) : bool :=
  bool_decide (i ∉ s.(threads) ≫= holds_lifecycle).
Definition mutation_free (i : string) (s : System) : bool :=
  bool_decide (i ∉ s.(threads) ≫= holds_mutation).

Definition goto (t : nat) (th : Thread) (p : Pc) (r : State) (s : System) : System :=
  {| threads := <[t := th <| pc := p |>]> s.(threads); reg := r |}.

(** The next lock of a sequence, or the section behind it. *)
Definition acquire (free : string → System → bool) (t : nat) (th : Thread) (k : nat) (next : nat → Pc)
    (section : option System) (s : System) : option System :=
  match th.(ids) !! k with
  | Some i => if free i s then Some (goto t th (next (S k)) s.(reg) s) else None
  | None => section
  end.

(** In the steps, [fail] is the rejection of what a thread awaits or, where the
    code looks at it, the caller's aborted signal; [None]: the thread is blocked. *)

(** [runExclusiveSessionLifecycle], up to the call of its callback. *)
Definition lifecycleStep (t : nat) (th : Thread) (fail : bool) (s : System) : option System :=
  let go p := Some (goto t th p s.(reg) s) in
  match th.(pc) with
  | AdStart =>
      if fail then go AdFailed
      else if hasActiveSessionLifecycleMutation th.(ids) s.(reg)
      then Some (goto t th AdWaiting (waitForIdle t th.(ids) s.(reg)) s)
      else go (AdLocking 0)
  | AdWaiting =>
      if fail then go AdFailed
      else if isWaiting t s.(reg) then None else go AdStart
  | AdLocking k =>
      acquire lifecycle_free t th k AdLocking
        (if fail then go AdFailed
         else if hasActiveSessionLifecycleMutation th.(ids) s.(reg) then go AdStart
         else go AdAllowing) s
  | _ => None
  end.

(** The callback of [beginSessionWorkAdmission], and the release of its lease. *)
Definition admissionStep (t : nat) (th : Thread) (fail : bool) (s : System) : option System :=
  let go p := Some (goto t th p s.(reg) s) in
  match th.(pc) with
  | AdAllowing =>
      if fail then go AdFailed
      else
        let '(a, r) := registerAdmission th.(ids) th.(onInterrupt) s.(reg) in
        Some (goto t th (AdBarrier a) r s)
  | AdBarrier a =>
      if fail then Some (goto t th AdFailed (releaseAdmission a s.(reg)) s)
      else go (AdHolding a)
  | AdHolding a => Some (goto t th AdReleased (releaseAdmission a s.(reg)) s)
  | _ => None
  end.

(** [runExclusiveSessionLifecycleMutation] *)
Definition mutationStep (t : nat) (th : Thread) (fail : bool) (s : System) : option System :=
  let go p := Some (goto t th p s.(reg) s) in
  match th.(pc) with
  | MuQueued k => acquire mutation_free t th k MuQueued (go (MuActivating 0)) s
  | MuActivating k =>
      acquire lifecycle_free t th k MuActivating
        (if fail then go MuFailed
         else Some (goto t th MuPreparing (activateMutation t th.(ids) th.(kind) s.(reg)) s)) s
  | MuPreparing => go (if fail then MuFinalizing else MuRunLocking 0)
  | MuRunLocking k => acquire lifecycle_free t th k MuRunLocking (go MuRunning) s
  | MuRunning => go MuFinalizing
  | MuFinalizing => go (MuClearing 0)
  | MuClearing k =>
      acquire lifecycle_free t th k MuClearing
        (Some (goto t th MuDone (deactivateMutation t th.(ids) th.(kind) s.(reg)) s)) s
  | _ => None
  end.

(** One step of thread [t]; an ended one has none. *)
Definition step (t : nat) (fail : bool) (s : System) : option System :=
  match s.(threads) !! t with
  | None => None
  | Some th =>
      match th.(pc) with
      | AdStart | AdWaiting | AdLocking _ => lifecycleStep t th fail s
      | AdAllowing | AdBarrier _ | AdHolding _ => admissionStep t th fail s
      | AdReleased | AdFailed | MuDone | MuFailed => None
      | _ => mutationStep t th fail s
      end
  end.

(** The synchronous operations on leases and tokens. *)
Definition leaseOp (op : RegistryOp) : bool :=
  match op with
  | OpRegister _ _ => false
  | _ => true
  end.

(** Identities are sorted without duplicates, as [normalizeSessionIdentities]
    and the union over several targets leave them. *)
Definition sorted_ids (l : list string) : Prop :=
  ∀ j k a b, (j < k)%nat → l !! j = Some a → l !! k = Some b → js_string_ltb a b = true.

Inductive transition : System → System → Prop :=
| tr_admission l cb s :
    sorted_ids l →
    transition s (s <| threads ::= λ ts,
      ts ++ [{| ids := l; kind := None; onInterrupt := cb; pc := AdStart |}] |>)
| tr_mutation l k s :
    sorted_ids l →
    transition s (s <| threads ::= λ ts,
      ts ++ [{| ids := l; kind := k; onInterrupt := None; pc := MuQueued 0 |}] |>)
| tr_step t fail s s' : step t fail s = Some s' → transition s s'
| tr_lease op s : leaseOp op = true → transition s (s <| reg ::= registryOp op |>).

Inductive sys_reachable : System → Prop :=
| sys_new : sys_reachable newSystem
| sys_next s s' : sys_reachable s → transition s s' → sys_reachable s'.

(** ** The state of mutations *)

#[local] Arguments JsMap.delete : simpl never.
#[local] Arguments JsMap.set : simpl never.
#[local] Arguments JsSet.add : simpl never.

Definition active_ids (ts : list Thread) : list string :=
  ts ≫= λ th, if mutates th then th.(ids) else [].

Definition counts_ok (act : list string) (r : State) : Prop :=
  ∀ i, mutationCount r i = (if decide (i ∈ act) then 1 else 0).

Lemma mutationCount_eq s s' i :
  s'.(activeMutations) = s.(activeMutations) → mutationCount s' i = mutationCount s i.
Proof. unfold mutationCount. by intros ->. Qed.

Lemma activateOne_count k s j i :
  mutationCount (activateOne k s j) i = if decide (i = j) then mutationCount s j + 1 else mutationCount s i.
Proof.
  assert (E : (activateOne k s j).(activeMutations) = JsMap.set j (mutationCount s j + 1) s.(activeMutations))
    by (unfold activateOne; by destruct k).
  unfold mutationCount at 1. rewrite E, JsMap.get_set. by case_decide.
Qed.

Lemma activate_fold_count k l s i :
  NoDup l →
  mutationCount (foldl (activateOne k) s l) i = mutationCount s i + (if decide (i ∈ l) then 1 else 0).
Proof.
  revert s. induction l as [|j l IH]; intros s Hnd; cbn [foldl]; [rewrite decide_False by set_solver; lia|].
  apply NoDup_cons in Hnd as [Hj Hnd]. rewrite IH by done.
  rewrite activateOne_count. destruct (decide (i = j)) as [->|Hne].
  - rewrite decide_False by done. rewrite decide_True by set_solver. lia.
  - destruct (decide (i ∈ l)); [rewrite decide_True by set_solver|rewrite decide_False by set_solver]; lia.
Qed.

Lemma activate_fold_waiters k l s : (foldl (activateOne k) s l).(idleWaiters) = s.(idleWaiters).
Proof.
  revert s. induction l as [|j l IH]; intros s; [done|]. cbn [foldl]. rewrite IH. unfold activateOne.
  by destruct k.
Qed.

Lemma clearKind_same k s i :
  (clearKind k s i).(activeMutations) = s.(activeMutations) ∧
  (clearKind k s i).(idleWaiters) = s.(idleWaiters).
Proof.
  unfold clearKind. destruct (JsMap.get i _) as [kinds|]; [|done]. destruct (0 <? _); [done|].
  by destruct (JsMap.delete k kinds).
Qed.

Lemma deactivateOne_spec k s j :
  mutationCount s j = 1 →
  (∀ i, mutationCount (deactivateOne k s j) i = if decide (i = j) then 0 else mutationCount s i) ∧
  (∀ i, JsMap.get i (deactivateOne k s j).(idleWaiters) =
     if decide (i = j) then None else JsMap.get i s.(idleWaiters)).
Proof.
  intros H1. unfold deactivateOne.
  set (s1 := match k with Some k => clearKind k s j | None => s end).
  assert (Hs1 : s1.(activeMutations) = s.(activeMutations) ∧ s1.(idleWaiters) = s.(idleWaiters)).
  { unfold s1. destruct k; [apply clearKind_same|done]. }
  destruct Hs1 as [E1 E2]. unfold mutationCount in H1. rewrite E1.
  destruct (JsMap.get j s.(activeMutations)) as [n|] eqn:Eg; cbn in H1; [subst n|done].
  replace (0 <? default 1 (Some 1) - 1) with false by reflexivity.
  unfold mutationCount. cbn. rewrite E1, E2. split; intros i.
  - rewrite JsMap.get_delete. by case_decide.
  - apply JsMap.get_delete.
Qed.

Lemma deactivate_fold k l s :
  NoDup l → (∀ i, i ∈ l → mutationCount s i = 1) →
  (∀ i, mutationCount (foldl (deactivateOne k) s l) i = if decide (i ∈ l) then 0 else mutationCount s i) ∧
  (∀ i, JsMap.get i (foldl (deactivateOne k) s l).(idleWaiters) =
     if decide (i ∈ l) then None else JsMap.get i s.(idleWaiters)).
Proof.
  revert s. induction l as [|j l IH]; intros s Hnd Hl; cbn [foldl].
  { split; intros i; by rewrite decide_False by set_solver. }
  apply NoDup_cons in Hnd as [Hj Hnd].
  destruct (deactivateOne_spec k s j (Hl j ltac:(set_solver))) as [D1 D2].
  destruct (IH (deactivateOne k s j) Hnd) as [F1 F2].
  { intros i Hi. rewrite D1. rewrite decide_False by (intros ->; done). apply Hl. set_solver. }
  split; intros i; rewrite ?F1, ?F2, ?D1, ?D2; repeat case_decide; set_solver.
Qed.

(** What waiting adds. *)
Lemma addWaiter_get t s i j :
  JsMap.get j (addWaiter t s i).(idleWaiters) =
    if decide (j = i) then Some (JsSet.add t (default [] (JsMap.get i s.(idleWaiters))))
    else JsMap.get j s.(idleWaiters).
Proof. unfold addWaiter. cbn. apply JsMap.get_set. Qed.

Lemma waitForIdle_spec t l s :
  (waitForIdle t l s).(activeMutations) = s.(activeMutations) ∧
  ∀ j w, (∃ ws, JsMap.get j (waitForIdle t l s).(idleWaiters) = Some ws ∧ w ∈ ws) ↔
    (∃ ws, JsMap.get j s.(idleWaiters) = Some ws ∧ w ∈ ws) ∨
    (w = t ∧ j ∈ l ∧ 0 < mutationCount s j).
Proof.
  unfold waitForIdle. set (f := filter (λ i, 0 < mutationCount s i) l).
  assert (Hf : ∀ j, j ∈ f ↔ j ∈ l ∧ 0 < mutationCount s j).
  { intros j. unfold f. rewrite list_elem_of_filter. naive_solver. }
  clearbody f.
  assert (Hgen : ∀ s0, (foldl (addWaiter t) s0 f).(activeMutations) = s0.(activeMutations) ∧
    ∀ j w, (∃ ws, JsMap.get j (foldl (addWaiter t) s0 f).(idleWaiters) = Some ws ∧ w ∈ ws) ↔
      (∃ ws, JsMap.get j s0.(idleWaiters) = Some ws ∧ w ∈ ws) ∨ (w = t ∧ j ∈ f)).
  { clear Hf. induction f as [|i f IH]; intros s0; cbn [foldl]; [split; [done|set_solver]|].
    destruct (IH (addWaiter t s0 i)) as [H1 H2]. split; [by rewrite H1|]. intros j w. rewrite H2.
    setoid_rewrite addWaiter_get. destruct (decide (j = i)) as [->|Hne].
    - split.
      + intros [(ws & [= <-] & Hw)|[-> Hj]]; [|set_solver]. apply JsSet.elem_of_add in Hw as [->|Hw]; [set_solver|].
        destruct (JsMap.get i _) as [ws|]; [eauto|by apply not_elem_of_nil in Hw].
      + intros [(ws & Hg & Hw)|[-> Hj]]; left; eexists; (split; [done|]); apply JsSet.elem_of_add.
        * right. by rewrite Hg.
        * by left.
    - set_solver. }
  destruct (Hgen s) as [H1 H2]. split; [done|]. intros j w. rewrite H2, Hf. done.
Qed.

Lemma hasActive_false l r :
  hasActiveSessionLifecycleMutation l r = false → ∀ i, i ∈ l → mutationCount r i ≤ 0.
Proof.
  intros H i Hi. apply Z.nlt_ge. intros Hlt. apply not_true_iff_false in H. apply H.
  apply existsb_exists. exists i. split; [by apply list_elem_of_In|by apply Z.ltb_lt].
Qed.

Lemma hasActive_true l r :
  hasActiveSessionLifecycleMutation l r = true → ∃ i, i ∈ l ∧ 0 < mutationCount r i.
Proof.
  intros (i & Hi & H%Z.ltb_lt)%existsb_exists. exists i. by rewrite list_elem_of_In.
Qed.


(** ** Locks *)

Section Locks.
Context (holds : Thread → list string).

Definition exclusive (ts : list Thread) : Prop :=
  ∀ t u th thu i, ts !! t = Some th → ts !! u = Some thu → i ∈ holds th → i ∈ holds thu → t = u.

Lemma elem_of_holders i ts :
  i ∈ ts ≫= holds ↔ ∃ u thu, ts !! u = Some thu ∧ i ∈ holds thu.
Proof.
  rewrite list_elem_of_bind. split.
  - intros (th & Hi & (u & Hu)%list_elem_of_lookup). eauto.
  - intros (u & th & Hu & Hi). exists th. split; [done|]. by eapply list_elem_of_lookup_2.
Qed.

Lemma exclusive_insert t th th' ts :
  exclusive ts → ts !! t = Some th →
  (∀ i, i ∈ holds th' → i ∈ holds th ∨ i ∉ ts ≫= holds) → exclusive (<[t := th']> ts).
Proof.
  intros He Ht Hh u v thu thv i Hu Hv Hi Hj.
  assert (Hnew : ∀ v thv, t ≠ v → ts !! v = Some thv → i ∈ holds thv → i ∈ holds th' → False).
  { clear -He Ht Hh. intros v thv Hne Hv Hi [H|H]%Hh; [by apply Hne; eapply He|].
    apply H, elem_of_holders. eauto. }
  apply list_lookup_insert_Some in Hu as [(<- & <- & _)|[Hu Hu']];
    apply list_lookup_insert_Some in Hv as [(<- & <- & _)|[Hv Hv']]; [done| | |by eapply He];
    exfalso; by eapply Hnew.
Qed.

Lemma exclusive_snoc th ts : exclusive ts → holds th = [] → exclusive (ts ++ [th]).
Proof.
  intros He Hth u v thu thv i Hu Hv Hi Hj.
  assert (Hold : ∀ v thv, (ts ++ [th]) !! v = Some thv → i ∈ holds thv → ts !! v = Some thv).
  { intros w x [Hw|[_ Hx]]%lookup_app_Some Hin; [done|].
    apply list_lookup_singleton_Some in Hx as [_ <-]. rewrite Hth in Hin. by apply not_elem_of_nil in Hin. }
  eauto.
Qed.

(** Locks are taken in a global order: if someone wants one, some wanted lock
    is free or held by a thread that wants none. *)
Lemma highest_wanted (want : Thread → option string) (ts : list Thread) :
  (∃ u thu j, ts !! u = Some thu ∧ want thu = Some j) →
  ∃ t th i, ts !! t = Some th ∧ want th = Some i ∧
    ∀ u thu j, ts !! u = Some thu → want thu = Some j → js_string_ltb i j = false.
Proof.
  induction ts as [|x ts IH] using rev_ind; [by intros (u & thu & j & Hu & _)|]. intros Hex.
  assert (Hsplit : ∀ v thv, (ts ++ [x]) !! v = Some thv → ts !! v = Some thv ∨ thv = x).
  { intros v thv [Hv|[_ Hv]]%lookup_app_Some; [by left|].
    apply list_lookup_singleton_Some in Hv as [_ <-]. by right. }
  assert (Hx : (ts ++ [x]) !! length ts = Some x) by (by apply list_lookup_middle).
  destruct (decide (Exists (λ th, is_Some (want th)) ts)) as [Ho|Hn].
  - destruct IH as (t & th & i & Ht & Hw & Hmax).
    { apply Exists_exists in Ho as (th & (u & Hu)%list_elem_of_lookup & [j Hj]). eauto. }
    assert (Ht' : (ts ++ [x]) !! t = Some th) by (by apply lookup_app_l_Some).
    destruct (want x) as [j|] eqn:Ej.
    + destruct (js_string_ltb i j) eqn:El.
      * exists (length ts), x, j. split_and!; [done..|]. intros u thu k [Hu| ->]%Hsplit Hk.
        { apply not_true_iff_false. intros Hlt. pose proof (Hmax _ _ _ Hu Hk) as Hm.
          apply not_true_iff_false in Hm. apply Hm. by eapply js_string_ltb_trans. }
        rewrite Ej in Hk. injection Hk as <-. apply js_string_ltb_irrefl.
      * exists t, th, i. split_and!; [done..|]. intros u thu k [Hu| ->]%Hsplit Hk; [by eapply Hmax|congruence].
    + exists t, th, i. split_and!; [done..|]. intros u thu k [Hu| ->]%Hsplit Hk; [by eapply Hmax|congruence].
  - destruct Hex as (u & thu & j & [Hu| ->]%Hsplit & Hj).
    + exfalso. apply Hn, Exists_exists. exists thu. split; [by eapply list_elem_of_lookup_2|by exists j].
    + exists (length ts), x, j. split_and!; [done..|]. intros v thv k [Hv| ->]%Hsplit Hk.
      * exfalso. apply Hn, Exists_exists. exists thv. split; [by eapply list_elem_of_lookup_2|by exists k].
      * rewrite Hj in Hk. injection Hk as <-. apply js_string_ltb_irrefl.
Qed.

Lemma lock_progress (want : Thread → option string) (ts : list Thread) :
  (∀ th i j, th ∈ ts → want th = Some j → i ∈ holds th → js_string_ltb i j = true) →
  (∃ u thu j, ts !! u = Some thu ∧ want thu = Some j) →
  (∃ t th i, ts !! t = Some th ∧ want th = Some i ∧ i ∉ ts ≫= holds) ∨
  (∃ t th i, ts !! t = Some th ∧ want th = None ∧ i ∈ holds th).
Proof.
  intros Hord (t & th & i & Ht & Hw & Hmax)%highest_wanted.
  destruct (decide (i ∈ ts ≫= holds)) as [Hin|]; [|left; eauto 10].
  apply elem_of_holders in Hin as (u & thu & Hu & Hi). destruct (want thu) as [j|] eqn:Ej.
  - assert (Hlt : js_string_ltb i j = true) by (by eapply Hord; [eapply list_elem_of_lookup_2|..]).
    rewrite (Hmax _ _ _ Hu Ej) in Hlt. done.
  - right. eauto 10.
Qed.
End Locks.

(** ** The invariant *)

(** An admission that has seen no mutation and holds its locks. *)
Definition admitting (th : Thread) : bool :=
  match th.(pc) with
  | AdAllowing | AdBarrier _ => true
  | _ => false
  end.

Lemma elem_of_active i ts :
  i ∈ active_ids ts ↔ ∃ u thu, ts !! u = Some thu ∧ mutates thu = true ∧ i ∈ thu.(ids).
Proof.
  unfold active_ids. rewrite elem_of_holders. split; intros (u & thu & Hu & H); exists u, thu.
  - destruct (mutates thu); [done|by apply not_elem_of_nil in H].
  - by destruct H as [-> ?].
Qed.

Lemma sorted_lt l i j k :
  sorted_ids l → i ∈ take k l → l !! k = Some j → js_string_ltb i j = true.
Proof.
  intros Hs (n & Hn)%list_elem_of_lookup Hk. apply lookup_take_Some in Hn as [Hn Hlt].
  by eapply (Hs n k).
Qed.

Lemma sorted_ids_NoDup l : sorted_ids l → NoDup l.
Proof.
  intros Hs. apply NoDup_alt. intros j k x Hj Hk. destruct (Nat.lt_trichotomy j k) as [Hlt|[Heq|Hlt]]; [|done|];
    [pose proof (Hs _ _ _ _ Hlt Hj Hk) as H|pose proof (Hs _ _ _ _ Hlt Hk Hj) as H];
    by rewrite js_string_ltb_irrefl in H.
Qed.

Definition same_mutations (r r' : State) : Prop :=
  r.(activeMutations) = r'.(activeMutations) ∧ r.(idleWaiters) = r'.(idleWaiters) ∧
  r.(activeMutationRuns) = r'.(activeMutationRuns).

Record sys_ok (s : System) : Prop := {
  so_sorted : ∀ t th, s.(threads) !! t = Some th → sorted_ids th.(ids);
  so_life : exclusive holds_lifecycle s.(threads);
  so_mut : exclusive holds_mutation s.(threads);
  so_counts : counts_ok (active_ids s.(threads)) s.(reg);
  so_admit : ∀ t th i, s.(threads) !! t = Some th → admitting th = true → i ∈ th.(ids) →
    i ∉ active_ids s.(threads);
  so_wait : ∀ i ws w, JsMap.get i s.(reg).(idleWaiters) = Some ws → w ∈ ws →
    i ∈ active_ids s.(threads) ∧ ∃ th, s.(threads) !! w = Some th ∧ i ∈ th.(ids);
  so_runs : NoDup s.(reg).(activeMutationRuns) ∧
    ∀ t, t ∈ s.(reg).(activeMutationRuns) ↔ ∃ th, s.(threads) !! t = Some th ∧ mutates th = true;
}.

(** What a step does, by its effect on locks and mutations. *)
Inductive move (t : nat) (th : Thread) (s : System) : Pc → State → Prop :=
| mv_keep p r :
    let th' := th <| pc := p |> in
    same_mutations r s.(reg) →
    (∀ i, i ∈ holds_lifecycle th' → i ∈ holds_lifecycle th ∨ lifecycle_free i s = true) →
    (∀ i, i ∈ holds_mutation th' → i ∈ holds_mutation th ∨ mutation_free i s = true) →
    mutates th' = mutates th →
    (admitting th' = true →
       admitting th = true ∨ hasActiveSessionLifecycleMutation th.(ids) s.(reg) = false) →
    move t th s p r
| mv_wait : th.(pc) = AdStart → move t th s AdWaiting (waitForIdle t th.(ids) s.(reg))
| mv_activate k : th.(pc) = MuActivating k → th.(ids) !! k = None →
    move t th s MuPreparing (activateMutation t th.(ids) th.(kind) s.(reg))
| mv_deactivate k : th.(pc) = MuClearing k → th.(ids) !! k = None →
    move t th s MuDone (deactivateMutation t th.(ids) th.(kind) s.(reg)).

Lemma take_all_ids (l : list string) k i : l !! k = None → i ∈ l → i ∈ take k l.
Proof. intros Hk%lookup_ge_None. by rewrite take_ge. Qed.

Lemma take_next (l : list string) (P : string → Prop) k x i :
  l !! k = Some x → P x → i ∈ take (S k) l → i ∈ take k l ∨ P i.
Proof. intros Hk Hx. rewrite (take_S_r _ _ _ Hk). set_solver. Qed.

Lemma same_mutations_refl r : same_mutations r r.
Proof. done. Qed.

Lemma register_mutations l cb r : same_mutations (registerAdmission l cb r).2 r.
Proof. done. Qed.

Lemma release_mutations a r : same_mutations (releaseAdmission a r) r.
Proof.
  unfold releaseAdmission. destruct (_ !! a) as [ad|]; [|done]. destruct ad.(released); [done|].
  unfold clearSessionWorkAdmissionHandoffs. by destruct (_ !! a).
Qed.

Lemma interrupt_mutations l r : same_mutations (foldl interruptOne r l) r.
Proof.
  revert r. induction l as [|a l IH]; intros r; [done|]. cbn [foldl].
  destruct (IH (interruptOne r a)) as (E1 & E2 & E3). unfold same_mutations. rewrite E1, E2, E3.
  unfold interruptOne. by destruct (_ !! a).
Qed.

Lemma registryOp_mutations op r : same_mutations (registryOp op r) r.
Proof.
  destruct op as [l cb|a|uuid a|h l cb|h|l cur]; cbn [registryOp].
  - apply register_mutations.
  - apply release_mutations.
  - unfold createHandoff. destruct (_ !! a) as [ad|]; [|done]. by destruct ad.(released).
  - unfold consumeSessionWorkAdmissionHandoff. destruct (js_trim h); [done|].
    destruct (JsMap.get _ _); [|done]. destruct (_ || _); [done|]. cbn. by destruct (from_option _ _ _).
  - unfold cancelSessionWorkAdmissionHandoff. destruct (JsMap.get _ _); [|done]. cbn [snd].
    exact (release_mutations _ (removeHandoff _ _ r)).
  - apply interrupt_mutations.
Qed.

Lemma acquire_inv free t th k next section s s' :
  acquire free t th k next section s = Some s' →
  (∃ i, th.(ids) !! k = Some i ∧ free i s = true ∧ s' = goto t th (next (S k)) s.(reg) s) ∨
  (th.(ids) !! k = None ∧ section = Some s').
Proof.
  unfold acquire. destruct (_ !! k) as [i|]; [|by right]. destruct (free i s) eqn:E; [|done].
  intros [= <-]. left. eauto.
Qed.

Ltac solve_keep :=
  apply mv_keep; cbn;
  first [ done | apply release_mutations
        | intros ? []%not_elem_of_nil
        | intros ? ?; left; by apply take_all_ids
        | intros ? ?; by eapply (take_next _ (λ i, lifecycle_free i _ = true))
        | intros ? ?; by eapply (take_next _ (λ i, mutation_free i _ = true))
        | set_solver | by left | by right ].
Ltac taken tac := do 2 eexists; split; [done|split; [done|tac]].
Ltac take_step H tac := injection H as <-; taken tac.

Lemma step_move t fail s s' :
  step t fail s = Some s' →
  ∃ th p r, s.(threads) !! t = Some th ∧ s' = goto t th p r s ∧ move t th s p r.
Proof.
  unfold step, lifecycleStep, admissionStep, mutationStep.
  destruct (s.(threads) !! t) as [[l kd cb pc0]|] eqn:Et; [|done]. cbn [pc ids kind onInterrupt].
  intros H. eexists {| ids := l; kind := kd; onInterrupt := cb; pc := pc0 |}.
  destruct pc0 as [| |k| |a|a| | |k|k| |k| | |k| |]; try done;
    try (apply acquire_inv in H as [(i & Hk & Hf & ->)|[Hk H]]; cbn [ids] in Hk;
         [taken solve_keep|]);
    try (take_step H solve_keep); try (destruct fail; take_step H solve_keep).
  - destruct fail; [|destruct (hasActiveSessionLifecycleMutation l s.(reg))];
      [take_step H solve_keep|take_step H ltac:(by apply mv_wait)|take_step H solve_keep].
  - destruct fail; [|destruct (isWaiting t s.(reg)); [done|]]; take_step H solve_keep.
  - destruct fail; [|destruct (hasActiveSessionLifecycleMutation l s.(reg)) eqn:Ea]; take_step H solve_keep.
  - destruct fail; [take_step H solve_keep|take_step H ltac:(by eapply mv_activate)].
  - take_step H ltac:(by eapply mv_deactivate).
Qed.

Lemma move_holds t th s p r :
  move t th s p r →
  let th' := th <| pc := p |> in
  (∀ i, i ∈ holds_lifecycle th' → i ∈ holds_lifecycle th ∨ i ∉ s.(threads) ≫= holds_lifecycle) ∧
  (∀ i, i ∈ holds_mutation th' → i ∈ holds_mutation th ∨ i ∉ s.(threads) ≫= holds_mutation).
Proof.
  intros H th'. unfold th'. destruct H as [p r th'' _ Hl Hm _ _|Hpc|k Hpc Hk|k Hpc Hk].
  - split; intros i Hi; [apply Hl in Hi as [?|Hf]|apply Hm in Hi as [?|Hf]]; try (by left);
      right; by apply bool_decide_eq_true in Hf.
  - split; by intros i ?%not_elem_of_nil.
  - unfold holds_lifecycle, holds_mutation. rewrite Hpc. cbn. split; [by intros i ?%not_elem_of_nil|by left].
  - unfold holds_lifecycle, holds_mutation. rewrite Hpc. split; by intros i ?%not_elem_of_nil.
Qed.

Lemma mutates_holds th : mutates th = true → holds_mutation th = th.(ids).
Proof. unfold mutates, holds_mutation. by destruct th.(pc). Qed.

Lemma active_insert i t th th' ts :
  ts !! t = Some th →
  i ∈ active_ids (<[t := th']> ts) ↔
    (mutates th' = true ∧ i ∈ th'.(ids)) ∨
    ∃ u thu, u ≠ t ∧ ts !! u = Some thu ∧ mutates thu = true ∧ i ∈ thu.(ids).
Proof.
  intros Ht. rewrite elem_of_active. pose proof (lookup_lt_Some _ _ _ Ht) as Hlt. split.
  - intros (u & thu & Hu & Hm & Hi). apply list_lookup_insert_Some in Hu as [(<- & <- & _)|[Hne Hu]]; [by left|].
    right. exists u, thu. done.
  - intros [[Hm Hi]|(u & thu & Hne & Hu & Hm & Hi)].
    + exists t, th'. by rewrite list_lookup_insert_eq.
    + exists u, thu. by rewrite list_lookup_insert_ne.
Qed.

Lemma active_split i t th ts :
  ts !! t = Some th →
  i ∈ active_ids ts ↔
    (mutates th = true ∧ i ∈ th.(ids)) ∨
    ∃ u thu, u ≠ t ∧ ts !! u = Some thu ∧ mutates thu = true ∧ i ∈ thu.(ids).
Proof. intros Ht. rewrite <-(active_insert i t th th ts Ht). by rewrite list_insert_id. Qed.

(** Changing a thread's position only. *)
Section Preserve.
Context (t : nat) (th : Thread) (s : System) (p : Pc) (r : State).
Hypothesis (Hok : sys_ok s) (Ht : s.(threads) !! t = Some th) (Hmove : move t th s p r).

Let th' := th <| pc := p |>.

Lemma moved_lookup u thu :
  (goto t th p r s).(threads) !! u = Some thu →
  ∃ thu0, s.(threads) !! u = Some thu0 ∧ thu.(ids) = thu0.(ids) ∧
    (thu = thu0 ∧ u ≠ t ∨ u = t ∧ thu0 = th ∧ thu = th').
Proof using Ht.
  clear Hok Hmove. cbn. intros [(-> & <- & _)|[Hne Hu]]%list_lookup_insert_Some; [exists th|exists thu]; naive_solver.
Qed.

Lemma moved_back u thu :
  s.(threads) !! u = Some thu →
  ∃ thu', (goto t th p r s).(threads) !! u = Some thu' ∧ thu'.(ids) = thu.(ids) ∧
    (thu' = thu ∧ u ≠ t ∨ u = t ∧ thu = th ∧ thu' = th').
Proof using Ht.
  clear Hok Hmove. intros Hu. cbn. destruct (decide (u = t)) as [->|Hne].
  - rewrite Ht in Hu. injection Hu as <-. exists th'.
    rewrite list_lookup_insert_eq by (by eapply lookup_lt_Some). naive_solver.
  - exists thu. rewrite list_lookup_insert_ne by done. naive_solver.
Qed.

(** Of what the invariant says, what is left to show after a step. *)
Lemma moved_ok :
  counts_ok (active_ids (goto t th p r s).(threads)) r →
  (∀ u thu i, (goto t th p r s).(threads) !! u = Some thu → admitting thu = true → i ∈ thu.(ids) →
     i ∉ active_ids (goto t th p r s).(threads)) →
  (∀ i ws w, JsMap.get i r.(idleWaiters) = Some ws → w ∈ ws →
     i ∈ active_ids (goto t th p r s).(threads) ∧ ∃ thw, s.(threads) !! w = Some thw ∧ i ∈ thw.(ids)) →
  (NoDup r.(activeMutationRuns) ∧
     ∀ u, u ∈ r.(activeMutationRuns) ↔
       if decide (u = t) then mutates th' = true
       else ∃ thu, s.(threads) !! u = Some thu ∧ mutates thu = true) →
  sys_ok (goto t th p r s).
Proof using Hok Ht Hmove.
  intros Hc Ha Hw [Hn Hr]. destruct (move_holds _ _ _ _ _ Hmove) as [Hl Hm]. constructor; [| | |done|done| |].
  - intros u thu Hu. apply moved_lookup in Hu as (thu0 & Hu & -> & _). by eapply (so_sorted _ Hok).
  - by apply (exclusive_insert _ t th); [apply Hok| |].
  - by apply (exclusive_insert _ t th); [apply Hok| |].
  - intros i ws w Hi Hin. destruct (Hw _ _ _ Hi Hin) as (? & thw & Hthw & Hids). split; [done|].
    apply moved_back in Hthw as (thw' & ? & E & _). exists thw'. by rewrite E.
  - split; [done|]. intros u. cbn [reg goto]. rewrite Hr. split.
    + case_decide as Hu; [subst u|].
      * intros Hmu. exists th'. split; [|done]. cbn. apply list_lookup_insert_eq. by eapply lookup_lt_Some.
      * intros (thu & Hthu & ?). exists thu. cbn. by rewrite list_lookup_insert_ne.
    + intros (thu & Hu & Hmu). apply moved_lookup in Hu as (thu0 & Hu & _ & [[-> Hne]|(-> & -> & ->)]).
      * rewrite decide_False by done. eauto.
      * by rewrite decide_True.
Qed.
End Preserve.

Lemma active_keep i t th th' ts :
  ts !! t = Some th → mutates th' = mutates th → th'.(ids) = th.(ids) →
  i ∈ active_ids (<[t := th']> ts) ↔ i ∈ active_ids ts.
Proof. intros Ht Hm Hi. by rewrite (active_insert i t th), (active_split i t th ts), Hm, Hi. Qed.

Lemma counts_ok_ext a b r r' :
  counts_ok a r → (∀ i, i ∈ a ↔ i ∈ b) → (∀ i, mutationCount r' i = mutationCount r i) → counts_ok b r'.
Proof.
  intros Hc Hab Hr i. rewrite Hr, Hc. destruct (decide (i ∈ a)) as [H|H].
  - rewrite decide_True; [done|by apply Hab].
  - rewrite decide_False; [done|by rewrite <-Hab].
Qed.

Lemma activate_fold_runs k l r : (foldl (activateOne k) r l).(activeMutationRuns) = r.(activeMutationRuns).
Proof.
  revert r. induction l as [|j l IH]; intros r; [done|]. cbn [foldl]. rewrite IH. unfold activateOne.
  by destruct k.
Qed.

Lemma deactivateOne_runs k r j : (deactivateOne k r j).(activeMutationRuns) = r.(activeMutationRuns).
Proof.
  assert (E : (match k with Some k => clearKind k r j | None => r end).(activeMutationRuns)
              = r.(activeMutationRuns)).
  { destruct k as [k|]; [|done]. unfold clearKind. destruct (JsMap.get j _) as [kinds|]; [|done].
    destruct (0 <? _); [done|]. by destruct (JsMap.delete k kinds). }
  unfold deactivateOne. by destruct (0 <? _).
Qed.

Lemma deactivate_fold_runs k l r : (foldl (deactivateOne k) r l).(activeMutationRuns) = r.(activeMutationRuns).
Proof.
  revert r. induction l as [|j l IH]; intros r; [done|]. cbn [foldl]. by rewrite IH, deactivateOne_runs.
Qed.

Lemma wait_runs w l r : (waitForIdle w l r).(activeMutationRuns) = r.(activeMutationRuns).
Proof.
  unfold waitForIdle. generalize (filter (λ i, 0 < mutationCount r i) l). intros f. revert r.
  induction f as [|i f IH]; intros r; [done|]. cbn [foldl]. by rewrite IH.
Qed.

Lemma counts_positive s i : sys_ok s → 0 < mutationCount s.(reg) i ↔ i ∈ active_ids s.(threads).
Proof. intros Hok. rewrite (so_counts _ Hok i). case_decide; split; (done || lia). Qed.

(** The part of the runs that a step leaves alone. *)
Lemma runs_keep t th p s :
  sys_ok s → s.(threads) !! t = Some th → mutates (th <| pc := p |>) = mutates th →
  ∀ u, u ∈ s.(reg).(activeMutationRuns) ↔
    if decide (u = t) then mutates (th <| pc := p |>) = true
    else ∃ thu, s.(threads) !! u = Some thu ∧ mutates thu = true.
Proof.
  intros Hok Ht Hm u. rewrite (proj2 (so_runs _ Hok)). case_decide; [subst u|done]. rewrite Hm, Ht.
  split; [by intros (? & [= <-] & ?)|eauto].
Qed.

Lemma keep_ok t th p r s :
  sys_ok s → s.(threads) !! t = Some th → move t th s p r →
  mutates (th <| pc := p |>) = mutates th →
  (∀ i, mutationCount r i = mutationCount s.(reg) i) → r.(activeMutationRuns) = s.(reg).(activeMutationRuns) →
  (admitting (th <| pc := p |>) = true →
     admitting th = true ∨ hasActiveSessionLifecycleMutation th.(ids) s.(reg) = false) →
  (∀ i ws w, JsMap.get i r.(idleWaiters) = Some ws → w ∈ ws →
     i ∈ active_ids s.(threads) ∧ ∃ thw, s.(threads) !! w = Some thw ∧ i ∈ thw.(ids)) →
  sys_ok (goto t th p r s).
Proof.
  intros Hok Ht Hmove Hm Hc Hr Ha Hw.
  assert (Hact : ∀ i, i ∈ active_ids (goto t th p r s).(threads) ↔ i ∈ active_ids s.(threads)).
  { intros i. by apply (active_keep i t th). }
  apply moved_ok; [done|done|done| | | |].
  - eapply counts_ok_ext; [apply (so_counts _ Hok)|intros i; by rewrite Hact|done].
  - intros u thu i Hu Had Hi. rewrite Hact.
    apply (moved_lookup t th s p r Ht) in Hu as (thu0 & Hu & E & [[-> _]|(-> & -> & ->)]).
    + by eapply (so_admit _ Hok).
    + destruct (Ha Had) as [Had0|Hno]; [by eapply (so_admit _ Hok)|].
      rewrite <-(counts_positive s i Hok). apply hasActive_false with (i := i) in Hno; [lia|done].
  - intros i ws w Hi Hin. rewrite Hact. by eapply Hw.
  - rewrite Hr. split; [apply (so_runs _ Hok)|by apply runs_keep].
Qed.

(** A thread that holds the mutation locks of its identities shares none with
    an active mutation. *)
Lemma others_disjoint t th s i :
  sys_ok s → s.(threads) !! t = Some th → holds_mutation th = th.(ids) → i ∈ th.(ids) →
  ¬ ∃ u thu, u ≠ t ∧ s.(threads) !! u = Some thu ∧ mutates thu = true ∧ i ∈ thu.(ids).
Proof.
  intros Hok Ht Hh Hi (u & thu & Hne & Hu & Hm & Hui). apply Hne.
  eapply (so_mut _ Hok _ _ _ _ i); [done|done| |]; [by rewrite mutates_holds|by rewrite Hh].
Qed.

Lemma activate_ok t th s k :
  sys_ok s → s.(threads) !! t = Some th → th.(pc) = MuActivating k → th.(ids) !! k = None →
  sys_ok (goto t th MuPreparing (activateMutation t th.(ids) th.(kind) s.(reg)) s).
Proof.
  intros Hok Ht Hpc Hk.
  assert (Hno : mutates th = false) by (unfold mutates; by rewrite Hpc).
  assert (Hh : holds_mutation th = th.(ids)) by (unfold holds_mutation; by rewrite Hpc).
  assert (Hl : holds_lifecycle th = th.(ids)).
  { unfold holds_lifecycle. rewrite Hpc. apply take_ge. by apply lookup_ge_None. }
  assert (Hact : ∀ i r, i ∈ active_ids (goto t th MuPreparing r s).(threads) ↔
    i ∈ th.(ids) ∨ i ∈ active_ids s.(threads)).
  { intros i r. cbn. rewrite (active_insert i t th), (active_split i t th s.(threads)), Hno by done. naive_solver. }
  assert (Hdis : ∀ i, i ∈ th.(ids) → i ∉ active_ids s.(threads)).
  { intros i Hi. rewrite (active_split i t th), Hno by done. intros [[? _]|?]; [done|].
    by eapply others_disjoint. }
  apply moved_ok; [done|done|by eapply mv_activate| | | |].
  - intros i. unfold activateMutation. rewrite activate_fold_count by (by eapply sorted_ids_NoDup, so_sorted).
    rewrite (mutationCount_eq s.(reg)) by done. rewrite (so_counts _ Hok i).
    destruct (decide (i ∈ th.(ids))) as [Hi|Hi].
    + rewrite (decide_False (P := i ∈ active_ids s.(threads))) by auto. rewrite decide_True; [done|]. rewrite Hact. by left.
    + destruct (decide (i ∈ active_ids s.(threads))).
      * rewrite decide_True; [done|]. rewrite Hact. by right.
      * rewrite decide_False; [done|]. rewrite Hact. tauto.
  - intros u thu i Hu Had Hi. rewrite Hact.
    apply (moved_lookup t th s _ (activateMutation t th.(ids) th.(kind) s.(reg)) Ht) in Hu
      as (thu0 & Hu & E & [[-> Hne]|(-> & -> & ->)]); [|done].
    intros [Hin|Hin]; [|by eapply (so_admit _ Hok)]. apply Hne.
    eapply (so_life _ Hok _ _ _ _ i); [done|done| |by rewrite Hl].
    unfold admitting in Had. unfold holds_lifecycle. by destruct thu0.(pc).
  - intros i ws w. unfold activateMutation. rewrite activate_fold_waiters. intros Hi Hin. rewrite Hact.
    destruct (so_wait _ Hok i ws w Hi Hin). auto.
  - unfold activateMutation. rewrite activate_fold_runs. cbn. destruct (so_runs _ Hok) as [Hn Hr].
    split; [by apply JsSet.NoDup_add|]. intros u. rewrite JsSet.elem_of_add. case_decide; [tauto|]. rewrite Hr. tauto.
Qed.

Lemma deactivate_ok t th s k :
  sys_ok s → s.(threads) !! t = Some th → th.(pc) = MuClearing k → th.(ids) !! k = None →
  sys_ok (goto t th MuDone (deactivateMutation t th.(ids) th.(kind) s.(reg)) s).
Proof.
  intros Hok Ht Hpc Hk.
  assert (Hyes : mutates th = true) by (unfold mutates; by rewrite Hpc).
  assert (Hact : ∀ i r, i ∈ active_ids (goto t th MuDone r s).(threads) ↔
    i ∉ th.(ids) ∧ i ∈ active_ids s.(threads)).
  { intros i r. cbn. rewrite (active_insert i t th), (active_split i t th s.(threads)), Hyes by done. cbn.
    pose proof (others_disjoint t th s i Hok Ht (mutates_holds _ Hyes)). naive_solver. }
  assert (Hnd : NoDup th.(ids)) by (by eapply sorted_ids_NoDup, so_sorted).
  assert (H1 : ∀ i, i ∈ th.(ids) → mutationCount s.(reg) i = 1).
  { intros i Hi. rewrite (so_counts _ Hok i). rewrite decide_True; [done|]. apply elem_of_active. eauto. }
  destruct (deactivate_fold th.(kind) th.(ids) s.(reg) Hnd H1) as [F1 F2].
  apply moved_ok; [done|done|by eapply mv_deactivate| | | |].
  - intros i. rewrite (mutationCount_eq (foldl (deactivateOne th.(kind)) s.(reg) th.(ids))) by done. rewrite F1.
    destruct (decide (i ∈ th.(ids))) as [Hi|Hi].
    + rewrite decide_False; [done|]. rewrite Hact. tauto.
    + rewrite (so_counts _ Hok i). destruct (decide (i ∈ active_ids s.(threads))).
      * rewrite decide_True; [done|]. by rewrite Hact.
      * rewrite decide_False; [done|]. rewrite Hact. tauto.
  - intros u thu i Hu Had Hi. rewrite Hact. intros [_ Hin].
    apply (moved_lookup t th s _ (deactivateMutation t th.(ids) th.(kind) s.(reg)) Ht) in Hu
      as (thu0 & Hu & E & [[-> Hne]|(-> & -> & ->)]); [|done]. by eapply (so_admit _ Hok).
  - intros i ws w Hi Hin. cbn in Hi. rewrite F2 in Hi. case_decide as Hni; [done|]. rewrite Hact.
    destruct (so_wait _ Hok i ws w Hi Hin). auto.
  - cbn. rewrite deactivate_fold_runs. destruct (so_runs _ Hok) as [Hn Hr].
    split; [by apply JsSet.NoDup_delete|]. intros u. rewrite JsSet.elem_of_delete, Hr. case_decide.
    + split; [by intros [? _]|done].
    + tauto.
Qed.

Lemma move_ok t th p r s :
  sys_ok s → s.(threads) !! t = Some th → move t th s p r → sys_ok (goto t th p r s).
Proof.
  intros Hok Ht Hmove. pose proof Hmove as Hm. destruct Hmove as [p r th' (E1 & E2 & E3) _ _ Hmu Ha|Hpc|k Hpc Hk|k Hpc Hk].
  - apply keep_ok; [done..|by intros i; apply mutationCount_eq|done|done|].
    intros i ws w. rewrite E2. apply (so_wait _ Hok).
  - destruct (waitForIdle_spec t th.(ids) s.(reg)) as [W1 W2].
    assert (Hmu : mutates (th <| pc := AdWaiting |>) = mutates th) by (unfold mutates; by rewrite Hpc).
    apply keep_ok; [done..|by intros i; apply mutationCount_eq|apply wait_runs|done|].
    intros i ws w Hi Hin. destruct (proj1 (W2 i w)) as [(ws' & Hg & Hw)|(-> & Hids & Hpos)]; [eauto| |].
    + by eapply (so_wait _ Hok).
    + split; [by apply counts_positive|eauto].
  - by eapply activate_ok.
  - by eapply deactivate_ok.
Qed.

Lemma spawn_ok l k cb p s :
  sys_ok s → sorted_ids l →
  let th := {| ids := l; kind := k; onInterrupt := cb; pc := p |} in
  holds_lifecycle th = [] → holds_mutation th = [] → mutates th = false → admitting th = false →
  sys_ok (s <| threads ::= λ ts, ts ++ [th] |>).
Proof.
  intros Hok Hl th H1 H2 H3 H4.
  assert (Hsplit : ∀ u thu, (s.(threads) ++ [th]) !! u = Some thu →
    s.(threads) !! u = Some thu ∨ thu = th).
  { intros v thv [Hv|[_ Hv]]%lookup_app_Some; [by left|].
    apply list_lookup_singleton_Some in Hv as [_ <-]. by right. }
  assert (Hold : ∀ u thu, s.(threads) !! u = Some thu → (s.(threads) ++ [th]) !! u = Some thu).
  { intros u thu. apply lookup_app_l_Some. }
  assert (Hact : ∀ i, i ∈ active_ids (s.(threads) ++ [th]) ↔ i ∈ active_ids s.(threads)).
  { intros i. rewrite !elem_of_active. split; [|naive_solver].
    intros (u & thu & [Hu| ->]%Hsplit & Hm & Hi); [eauto 10|congruence]. }
  constructor; cbn.
  - intros u thu [Hu| ->]%Hsplit; [by eapply (so_sorted _ Hok)|done].
  - apply exclusive_snoc; [apply Hok|done].
  - apply exclusive_snoc; [apply Hok|done].
  - eapply counts_ok_ext; [apply (so_counts _ Hok)|intros i; by rewrite Hact|done].
  - intros u thu i [Hu| ->]%Hsplit Had Hi; [rewrite Hact; by eapply (so_admit _ Hok)|congruence].
  - intros i ws w Hi Hin. rewrite Hact. destruct (so_wait _ Hok i ws w Hi Hin) as (? & thw & ? & ?). eauto 10.
  - destruct (so_runs _ Hok) as [Hn Hr]. split; [done|]. intros u. rewrite Hr. split.
    + intros (thu & ? & ?). eauto.
    + intros (thu & [Hu| ->]%Hsplit & Hm); [eauto|congruence].
Qed.

Lemma transition_ok s s' : sys_ok s → transition s s' → sys_ok s'.
Proof.
  intros Hok Ht. revert Hok. destruct Ht as [l cb s0 Hl|l k s0 Hl|t fail s0 s0' Hs|op s0 Hop]; intros Hok.
  - by apply (spawn_ok l None cb AdStart).
  - by apply (spawn_ok l k None (MuQueued 0)).
  - apply step_move in Hs as (th & p & r & Ht & -> & Hm). by apply move_ok.
  - destruct (registryOp_mutations op s0.(reg)) as (E1 & E2 & E3). destruct Hok as [H1 H2 H3 H4 H5 H6 H7].
    constructor; cbn; [done|done|done| |done| |].
    + intros i. rewrite (mutationCount_eq s0.(reg)) by done. apply H4.
    + rewrite E2. exact H6.
    + rewrite E3. exact H7.
Qed.

Lemma newSystem_ok : sys_ok newSystem.
Proof.
  constructor; cbn; try done.
  split; [constructor|]. intros t. split; [by intros ?%not_elem_of_nil|]. by intros (th & ? & _).
Qed.

Lemma sys_reachable_ok s : sys_reachable s → sys_ok s.
Proof. induction 1 as [|s s' _ IH Ht]; [exact newSystem_ok|by eapply transition_ok]. Qed.

Lemma isWaiting_true t r :
  isWaiting t r = true → ∃ i ws, JsMap.get i r.(idleWaiters) = Some ws ∧ t ∈ ws.
Proof.
  intros (i & _ & Hi)%existsb_exists. apply bool_decide_eq_true in Hi.
  destruct (JsMap.get i r.(idleWaiters)) as [ws|] eqn:E; [eauto|by apply not_elem_of_nil in Hi].
Qed.

(** A blocked waiter waits for a mutation that is still active. *)
Lemma waiter_blocked s t th :
  sys_ok s → s.(threads) !! t = Some th → th.(pc) = AdWaiting → step t false s = None →
  ∃ u thu i, s.(threads) !! u = Some thu ∧ mutates thu = true ∧ i ∈ thu.(ids) ∧ i ∈ th.(ids).
Proof.
  intros Hok Ht Hpc Hs. unfold step, lifecycleStep in Hs. rewrite Ht, Hpc in Hs. cbn in Hs.
  destruct (isWaiting t s.(reg)) eqn:Ew; [|done]. apply isWaiting_true in Ew as (i & ws & Hi & Hw).
  destruct (so_wait _ Hok i ws t Hi Hw) as [Hact (th' & Ht' & Hids)].
  apply elem_of_active in Hact as (u & thu & Hu & Hm & Hui). rewrite Ht in Ht'. injection Ht' as <-. eauto 10.
Qed.

(** A schedule: threads and whether what they await fails. *)
Fixpoint run_steps (l : list (nat * bool)) (s : System) : option System :=
  match l with
  | [] => Some s
  | (t, fail) :: r => step t fail s ≫= run_steps r
  end.

Lemma run_steps_reachable l s s' : sys_reachable s → run_steps l s = Some s' → sys_reachable s'.
Proof.
  revert s. induction l as [|[t fail] l IH]; intros s Hs; cbn; [by intros [= <-]|].
  destruct (step t fail s) as [s1|] eqn:E; [|done]. cbn. apply IH. eapply sys_next; [done|by eapply tr_step].
Qed.

(** A mutation of two identities and an admission for one of them. *)
Definition contended : System :=
  {| threads := [{| ids := ["a"; "b"]; kind := Some Compaction; onInterrupt := None; pc := MuQueued 0 |};
                 {| ids := ["b"]; kind := None; onInterrupt := None; pc := AdStart |}];
     reg := newState |}.

Lemma contended_reachable : sys_reachable contended.
Proof.
  eapply sys_next; [eapply sys_next; [apply sys_new|apply (tr_mutation ["a"; "b"] (Some Compaction))]|
                    apply (tr_admission ["b"] None)].
  - intros [|[|j]] [|[|k]] x y Hlt Hx Hy; try lia; try done. by simplify_eq/=.
  - intros [|j] [|k] x y Hlt Hx Hy; try lia; done.
Qed.



(** ** Progress *)

Definition ended (th : Thread) : bool :=
  match th.(pc) with
  | AdReleased | AdFailed | MuDone | MuFailed => true
  | _ => false
  end.

Definition leased (th : Thread) : bool :=
  match th.(pc) with
  | AdHolding _ => true
  | _ => false
  end.

Definition wants_lifecycle (th : Thread) : option string :=
  match th.(pc) with
  | AdLocking k | MuActivating k | MuRunLocking k | MuClearing k => th.(ids) !! k
  | _ => None
  end.

Definition wants_mutation (th : Thread) : option string :=
  match th.(pc) with
  | MuQueued k => th.(ids) !! k
  | _ => None
  end.

(** Some call can go on that is not just a caller keeping its lease. *)
Definition progress (s : System) : Prop :=
  ∃ t th s', s.(threads) !! t = Some th ∧ leased th = false ∧ step t false s = Some s'.

(** A position that waits for nothing. *)
Lemma go_on t th s :
  s.(threads) !! t = Some th → ended th = false → leased th = false →
  wants_lifecycle th = None → wants_mutation th = None → th.(pc) ≠ AdWaiting → progress s.
Proof.
  intros Ht He Hl Hw Hm Hpc.
  enough (Hs : ∃ s', step t false s = Some s') by (destruct Hs as [s' Hs]; by exists t, th, s').
  unfold step, lifecycleStep, admissionStep, mutationStep, acquire, ended, leased, wants_lifecycle, wants_mutation in *. rewrite Ht.
  destruct th.(pc); try done; rewrite ?Hw, ?Hm; eauto.
  - destruct (hasActiveSessionLifecycleMutation _ _); eauto.
  - destruct (hasActiveSessionLifecycleMutation _ _); eauto.
Qed.

Lemma take_lifecycle t th s i :
  s.(threads) !! t = Some th → wants_lifecycle th = Some i → i ∉ s.(threads) ≫= holds_lifecycle → progress s.
Proof.
  intros Ht Hw Hf. assert (Hfree : lifecycle_free i s = true) by (by apply bool_decide_eq_true).
  enough (Hs : leased th = false ∧ ∃ s', step t false s = Some s')
    by (destruct Hs as [? [s' Hs]]; by exists t, th, s').
  unfold step, lifecycleStep, admissionStep, mutationStep, acquire, leased, wants_lifecycle in *. rewrite Ht.
  destruct th.(pc); try done; rewrite ?Hw, ?Hfree; eauto.
Qed.

Lemma take_mutation t th s i :
  s.(threads) !! t = Some th → wants_mutation th = Some i → i ∉ s.(threads) ≫= holds_mutation → progress s.
Proof.
  intros Ht Hw Hf. assert (Hfree : mutation_free i s = true) by (by apply bool_decide_eq_true).
  enough (Hs : leased th = false ∧ ∃ s', step t false s = Some s')
    by (destruct Hs as [? [s' Hs]]; by exists t, th, s').
  unfold step, lifecycleStep, admissionStep, mutationStep, acquire, leased, wants_mutation in *. rewrite Ht.
  destruct th.(pc); try done; rewrite ?Hw, ?Hfree; eauto.
Qed.

Lemma lifecycle_progress s :
  sys_ok s → (∃ u thu j, s.(threads) !! u = Some thu ∧ wants_lifecycle thu = Some j) → progress s.
Proof.
  intros Hok Hex. destruct (lock_progress holds_lifecycle wants_lifecycle s.(threads)) as [H|H]; [|done| |].
  - intros th i j (t & Ht)%list_elem_of_lookup Hw Hi.
    pose proof (so_sorted _ Hok _ _ Ht) as Hs. unfold wants_lifecycle, holds_lifecycle in *.
    destruct th.(pc); try done; by eapply sorted_lt.
  - destruct H as (t & th & i & Ht & Hw & Hf). by eapply take_lifecycle.
  - destruct H as (t & th & i & Ht & Hw & Hi).
    apply (go_on t th); [done|unfold ended, leased, wants_mutation, holds_lifecycle in *..].
    all: destruct th.(pc); try done; by apply not_elem_of_nil in Hi.
Qed.

Lemma mutates_progress s t th :
  sys_ok s → s.(threads) !! t = Some th → mutates th = true → progress s.
Proof.
  intros Hok Ht Hm. destruct (wants_lifecycle th) as [j|] eqn:Ew; [apply lifecycle_progress; eauto|].
  apply (go_on t th); [done|unfold ended, leased, wants_mutation, mutates in *..].
  all: by destruct th.(pc).
Qed.


