(* ===== verification/HeartbeatWake.v ===== *)
(** * Heartbeat wakes

    The owner of heartbeat turns ([src/infra/heartbeat-wake.ts], with
    [heartbeat-wake-target.ts], [heartbeat-wake-contracts.ts] and
    [heartbeat-reason.ts]): requests coalesce per target and class, one timer
    dispatches what is due, every target runs one turn at a time, and a wake
    for all agents excludes the rest.

    An operation reads one instant [now] of the monotonic clock, and [wall] of
    the other one where it compares with a result.  The turn of a handler is
    the event that ends it: with its result, or by a throw, which includes the
    abort and a refused admission.  The order of job ids under
    [localeCompare] is a parameter. *)
From stdpp Require Import sorting.
From Stdlib Require QArith.QArith.
From S2P Require Import Prelude JsCollections NumberCoercion.
Local Open Scope Z_scope.

Inductive HeartbeatWakeIntent := Scheduled | Task | Event | Immediate | Manual.

#[export] Instance HeartbeatWakeIntent_eq_dec : EqDecision HeartbeatWakeIntent.
Proof. solve_decision. Defined.

Inductive HeartbeatWakeSource :=
| FromInterval | FromManual | ExecEvent | NotificationsEvent | Cron | Hook | BackgroundTask
| BackgroundTaskBlocked | AcpSpawn | SessionState | CliWatchdog | RestartSentinel | FromRetry | Other.

#[export] Instance HeartbeatWakeSource_eq_dec : EqDecision HeartbeatWakeSource.
Proof. solve_decision. Defined.

Inductive HeartbeatRunResult :=
| Ran
| Skipped (reason : string) (retryAtMs : option Z)
| Failed (reason : string).

Record HeartbeatWakeOverride := {
  target : option string;
  to : option string;
  accountId : option string;
}.

Record HeartbeatScheduledTask := {
  jobId : string;
  name : string;
  prompt : string;
}.

Record HeartbeatWakeRequest := {
  r_source : HeartbeatWakeSource;
  r_intent : HeartbeatWakeIntent;
  r_reason : option string;
  r_agentId : option string;
  r_sessionKey : option string;
  r_heartbeat : option HeartbeatWakeOverride;
  r_scheduledEveryMs : option Z;
  r_tasks : list HeartbeatScheduledTask;
  r_retainedWork : bool;
}.

Definition isRetryableHeartbeatSkipReason (reason : string) : bool :=
  bool_decide (reason ∈ ["requests-in-flight"; "cron-in-progress"; "preempted"; "channel-not-ready"]).
Definition isRetryableGuardSkipReason (reason : string) : bool :=
  bool_decide (reason ∈ ["not-due"; "min-spacing"; "flood"]).

(** Absent and empty task lists are not told apart by the code. *)
Record PendingWakeReason := {
  source : HeartbeatWakeSource;
  intent : HeartbeatWakeIntent;
  reason : string;
  priority : Z;
  requestedAt : Z;
  enqueueSequence : Z;
  immediateBarrierSequence : option Z;
  readyAtMs : option Z;
  agentId : option string;
  sessionKey : option string;
  heartbeat : option HeartbeatWakeOverride;
  scheduledEveryMs : option Z;
  tasks : list HeartbeatScheduledTask;
  notBeforeMs : option Z;
  retainedWork : bool;
}.

#[export] Instance PendingWakeReason_eta : Eta PendingWakeReason := λ w,
  {| source := w.(source); intent := w.(intent); reason := w.(reason); priority := w.(priority);
     requestedAt := w.(requestedAt); enqueueSequence := w.(enqueueSequence);
     immediateBarrierSequence := w.(immediateBarrierSequence); readyAtMs := w.(readyAtMs);
     agentId := w.(agentId); sessionKey := w.(sessionKey); heartbeat := w.(heartbeat);
     scheduledEveryMs := w.(scheduledEveryMs); tasks := w.(tasks); notBeforeMs := w.(notBeforeMs);
     retainedWork := w.(retainedWork) |}.

Record PendingWakeGroup := {
  task : option PendingWakeReason;
  scheduled : option PendingWakeReason;
  event : option PendingWakeReason;
  blockedUntilMs : option Z;
}.

#[export] Instance PendingWakeGroup_eta : Eta PendingWakeGroup := λ g,
  {| task := g.(task); scheduled := g.(scheduled); event := g.(event);
     blockedUntilMs := g.(blockedUntilMs) |}.

Definition emptyGroup : PendingWakeGroup :=
  {| task := None; scheduled := None; event := None; blockedUntilMs := None |}.

(** The wakes of a group, in the order of its slots. *)
Definition groupWakes (g : PendingWakeGroup) : list PendingWakeReason :=
  option_list g.(task) ++ option_list g.(scheduled) ++ option_list g.(event).

(** The abort controller is that of the dispatch with this number. *)
Record ActiveHeartbeatWakeTarget := {
  generation : Z;
  abortController : nat;
}.

(** A run of [dispatchPendingWakeGroup], inside the turn of wake [wakeIndex]. *)
Record Dispatch := {
  d_generation : Z;
  d_target : string;
  d_wakes : list PendingWakeReason;
  wakeIndex : nat;
  aborted : bool;
  finished : bool;
}.

#[export] Instance Dispatch_eta : Eta Dispatch := λ d,
  {| d_generation := d.(d_generation); d_target := d.(d_target); d_wakes := d.(d_wakes);
     wakeIndex := d.(wakeIndex); aborted := d.(aborted); finished := d.(finished) |}.

(** The armed timer: [timerDueAt] and the delay its callback captured. *)
Record WakeTimer := {
  timerDueAt : Z;
  timerDelay : Z;
}.

Record HeartbeatState := {
  heartbeatsEnabled : bool;
  handler : option nat;
  handlerGeneration : Z;
  pendingWakes : list (string * PendingWakeGroup);
  activeWakeTargets : list (string * ActiveHeartbeatWakeTarget);
  timer : option WakeTimer;
  wakeEnqueueSequence : Z;
  dispatches : list Dispatch;
}.

#[export] Instance HeartbeatState_eta : Eta HeartbeatState := λ s,
  {| heartbeatsEnabled := s.(heartbeatsEnabled); handler := s.(handler);
     handlerGeneration := s.(handlerGeneration); pendingWakes := s.(pendingWakes);
     activeWakeTargets := s.(activeWakeTargets); timer := s.(timer);
     wakeEnqueueSequence := s.(wakeEnqueueSequence); dispatches := s.(dispatches) |}.

Definition initialHeartbeat : HeartbeatState :=
  {| heartbeatsEnabled := true; handler := None; handlerGeneration := 0; pendingWakes := [];
     activeWakeTargets := []; timer := None; wakeEnqueueSequence := 0; dispatches := [] |}.

Definition setHeartbeatsEnabled (enabled : bool) (s : HeartbeatState) : HeartbeatState :=
  s <| heartbeatsEnabled := enabled |>.
Definition areHeartbeatsEnabled (s : HeartbeatState) : bool := s.(heartbeatsEnabled).

Definition DEFAULT_COALESCE_MS : Z := 250.
Definition DEFAULT_RETRY_MS : Z := 1000.
Definition HEARTBEAT_IDLE_RETRY_GRACE_MS : Z := 60000.
Definition MAX_CONCURRENT_HEARTBEAT_WAKE_TARGETS : Z := 4.
Definition GLOBAL_HEARTBEAT_WAKE_TARGET_KEY : string := "::".

(** ** Targets *)

Definition normalizeHeartbeatWakeReason (reason : option string) : string :=
  str_or (js_trim (default EmptyString reason)) "requested".

Definition normalizeHeartbeatWakeTarget (value : option string) : option string :=
  match js_trim (default EmptyString value) with
  | EmptyString => None
  | trimmed => Some trimmed
  end.

Definition resolveHeartbeatWakeTargetKey (agentId sessionKey : option string) : string :=
  match normalizeHeartbeatWakeTarget sessionKey with
  | Some k => "::" +:+ k
  | None => default EmptyString (normalizeHeartbeatWakeTarget agentId) +:+ "::"
  end.

Definition isHeartbeatWakeAfterGlobalBarrier (targetKey : string) (enqueueSequence : Z)
    (barrierSequence : option Z) : bool :=
  match barrierSequence with
  | Some b => negb (bool_decide (targetKey = GLOBAL_HEARTBEAT_WAKE_TARGET_KEY)) && (b <=? enqueueSequence)
  | None => false
  end.

(** An instant that is absent or not after [now]. *)
Definition reached (at_ : option Z) (now : Z) : bool :=
  match at_ with
  | Some t => t <=? now
  | None => true
  end.

Definition isHeartbeatWakeTargetGroupReady (group : option PendingWakeGroup) (now : Z) : bool :=
  match group with
  | Some g =>
      reached g.(blockedUntilMs) now &&
      existsb (λ w, reached w.(readyAtMs) now && reached w.(notBeforeMs) now) (groupWakes g)
  | None => false
  end.

(** ** Coalescing *)

Definition resolveWakePriority (source : HeartbeatWakeSource) (intent : HeartbeatWakeIntent)
    (reason : string) : Z :=
  if bool_decide (intent = Manual) || bool_decide (intent = Immediate) then 3
  else if bool_decide (source = FromRetry) || bool_decide (reason = "retry") then 0
  else if bool_decide (intent = Scheduled) || bool_decide (source = FromInterval)
          || bool_decide (reason = "interval") then 1
  else 2.

Section Heartbeat.
Context (localeLe : relation string) `{!RelDecision localeLe}.

Definition job_le (a b : HeartbeatScheduledTask) : Prop := localeLe a.(jobId) b.(jobId).

#[local] Instance job_le_dec : RelDecision job_le.
Proof. intros a b. unfold job_le. apply _. Defined.

Definition mergeTasks (previous next : list HeartbeatScheduledTask) : list HeartbeatScheduledTask :=
  merge_sort job_le (JsMap.values (foldl (λ m t, JsMap.set t.(jobId) t m) [] (previous ++ next))).

(** [preferred === next] *)
Definition prefersNext (previous next : PendingWakeReason) : bool :=
  if negb (eqb (bool_decide (previous.(intent) = Task)) (bool_decide (next.(intent) = Task)))
  then negb (bool_decide (previous.(intent) = Task))
  else (previous.(priority) <? next.(priority))
       || ((next.(priority) =? previous.(priority)) && (previous.(requestedAt) <=? next.(requestedAt))).

Definition min_option (a b : option Z) : option Z :=
  match a, b with
  | Some x, Some y => Some (x `min` y)
  | Some x, None => Some x
  | None, b => b
  end.

Definition or_else {A} (a b : option A) : option A :=
  match a with
  | Some _ => a
  | None => b
  end.

Definition mergePendingWakeReasons (previous next : PendingWakeReason) : PendingWakeReason :=
  let preferred := if prefersNext previous next then next else previous in
  let other := if prefersNext previous next then previous else next in
  let bypassRetainedWork :=
    (bool_decide (preferred.(intent) = Manual) || bool_decide (preferred.(intent) = Immediate))
    && negb preferred.(retainedWork) && (previous.(retainedWork) || next.(retainedWork)) in
  let deferred := negb bypassRetainedWork
    && (bool_decide (is_Some previous.(notBeforeMs)) || bool_decide (is_Some next.(notBeforeMs))) in
  let mergedTasks := mergeTasks previous.(tasks) next.(tasks) in
  {| source := preferred.(source);
     intent := preferred.(intent);
     reason := preferred.(reason);
     priority := preferred.(priority);
     requestedAt :=
       if deferred then previous.(requestedAt) `min` next.(requestedAt) else preferred.(requestedAt);
     enqueueSequence := previous.(enqueueSequence) `min` next.(enqueueSequence);
     immediateBarrierSequence :=
       min_option previous.(immediateBarrierSequence) next.(immediateBarrierSequence);
     readyAtMs :=
       Some (default previous.(requestedAt) previous.(readyAtMs)
             `min` default next.(requestedAt) next.(readyAtMs));
     agentId := preferred.(agentId);
     sessionKey := preferred.(sessionKey);
     heartbeat := or_else preferred.(heartbeat) other.(heartbeat);
     scheduledEveryMs := or_else preferred.(scheduledEveryMs) other.(scheduledEveryMs);
     tasks := match mergedTasks with [] => preferred.(tasks) | _ => mergedTasks end;
     notBeforeMs :=
       if deferred then Some (default 0 previous.(notBeforeMs) `max` default 0 next.(notBeforeMs))
       else preferred.(notBeforeMs);
     retainedWork := negb bypassRetainedWork && (previous.(retainedWork) || next.(retainedWork)) |}.

(** What [queuePendingWakeReason] is called with. *)
Record QueueParams := {
  q_source : HeartbeatWakeSource;
  q_intent : HeartbeatWakeIntent;
  q_reason : option string;
  q_requestedAt : option Z;
  q_enqueueSequence : option Z;
  q_immediateBarrierSequence : option Z;
  q_readyAtMs : option Z;
  q_agentId : option string;
  q_sessionKey : option string;
  q_heartbeat : option HeartbeatWakeOverride;
  q_scheduledEveryMs : option Z;
  q_tasks : list HeartbeatScheduledTask;
  q_notBeforeMs : option Z;
  q_blockTargetUntilMs : option Z;
  q_retainedWork : bool;
}.

(** A request, and a pending wake, as such arguments. *)
Definition requestParams (w : HeartbeatWakeRequest) : QueueParams :=
  {| q_source := w.(r_source); q_intent := w.(r_intent); q_reason := w.(r_reason);
     q_requestedAt := None; q_enqueueSequence := None; q_immediateBarrierSequence := None;
     q_readyAtMs := None; q_agentId := w.(r_agentId); q_sessionKey := w.(r_sessionKey);
     q_heartbeat := w.(r_heartbeat); q_scheduledEveryMs := w.(r_scheduledEveryMs);
     q_tasks := w.(r_tasks); q_notBeforeMs := None; q_blockTargetUntilMs := None;
     q_retainedWork := w.(r_retainedWork) |}.

Definition pendingParams (w : PendingWakeReason) : QueueParams :=
  {| q_source := w.(source); q_intent := w.(intent); q_reason := Some w.(reason);
     q_requestedAt := Some w.(requestedAt); q_enqueueSequence := Some w.(enqueueSequence);
     q_immediateBarrierSequence := w.(immediateBarrierSequence); q_readyAtMs := w.(readyAtMs);
     q_agentId := w.(agentId); q_sessionKey := w.(sessionKey); q_heartbeat := w.(heartbeat);
     q_scheduledEveryMs := w.(scheduledEveryMs); q_tasks := w.(tasks);
     q_notBeforeMs := w.(notBeforeMs); q_blockTargetUntilMs := None;
     q_retainedWork := w.(retainedWork) |}.

(** The slot of a group that an intent belongs to. *)
Definition slotOf (intent : HeartbeatWakeIntent) (g : PendingWakeGroup) : option PendingWakeReason :=
  match intent with
  | Task => g.(task)
  | Scheduled => g.(scheduled)
  | _ => g.(event)
  end.

Definition setSlot (intent : HeartbeatWakeIntent) (w : PendingWakeReason) (g : PendingWakeGroup) :
    PendingWakeGroup :=
  match intent with
  | Task => g <| task := Some w |>
  | Scheduled => g <| scheduled := Some w |>
  | _ => g <| event := Some w |>
  end.

(** The target and the wake that a call of [queuePendingWakeReason] makes. *)
Definition paramsTarget (p : QueueParams) : string :=
  resolveHeartbeatWakeTargetKey (normalizeHeartbeatWakeTarget p.(q_agentId))
    (normalizeHeartbeatWakeTarget p.(q_sessionKey)).

Definition makeWake (now sequence : Z) (p : QueueParams) : PendingWakeReason :=
  let normalizedReason := normalizeHeartbeatWakeReason p.(q_reason) in
  {| source := p.(q_source);
     intent := p.(q_intent);
     reason := normalizedReason;
     priority := resolveWakePriority p.(q_source) p.(q_intent) normalizedReason;
     requestedAt := default now p.(q_requestedAt);
     enqueueSequence := sequence;
     immediateBarrierSequence :=
       or_else p.(q_immediateBarrierSequence)
         (if bool_decide (paramsTarget p = GLOBAL_HEARTBEAT_WAKE_TARGET_KEY)
             && bool_decide (p.(q_intent) = Immediate)
          then Some sequence else None);
     readyAtMs := p.(q_readyAtMs);
     agentId := normalizeHeartbeatWakeTarget p.(q_agentId);
     sessionKey := normalizeHeartbeatWakeTarget p.(q_sessionKey);
     heartbeat := p.(q_heartbeat);
     scheduledEveryMs := p.(q_scheduledEveryMs);
     tasks := p.(q_tasks);
     notBeforeMs := p.(q_notBeforeMs);
     retainedWork := p.(q_retainedWork) |}.

Definition queuePendingWakeReason (now : Z) (p : QueueParams) (s : HeartbeatState) : HeartbeatState :=
  let s := match p.(q_enqueueSequence) with
           | Some _ => s
           | None => s <| wakeEnqueueSequence ::= λ n, n + 1 |>
           end in
  let sequence := default s.(wakeEnqueueSequence) p.(q_enqueueSequence) in
  let next := makeWake now sequence p in
  let key := paramsTarget p in
  let group := default emptyGroup (JsMap.get key s.(pendingWakes)) in
  let group :=
    match p.(q_blockTargetUntilMs) with
    | Some b => group <| blockedUntilMs := Some (default 0 group.(blockedUntilMs) `max` b) |>
    | None => group
    end in
  let wake :=
    match slotOf p.(q_intent) group with
    | None => next
    | Some previous => mergePendingWakeReasons previous next
    end in
  s <| pendingWakes ::= JsMap.set key (setSlot p.(q_intent) wake group) |>.

(** ** Taking what is due *)

Definition nonemptyGroup (g : PendingWakeGroup) : bool :=
  match g.(task), g.(scheduled), g.(event) with
  | None, None, None => false
  | _, _, _ => true
  end.

Definition keepIf (f : PendingWakeReason → bool) (slot : option PendingWakeReason) :
    option PendingWakeReason :=
  match slot with
  | Some w => if f w then Some w else None
  | None => None
  end.

Definition filterGroup (f : PendingWakeReason → bool) (g : PendingWakeGroup) : PendingWakeGroup :=
  {| task := keepIf f g.(task); scheduled := keepIf f g.(scheduled); event := keepIf f g.(event);
     blockedUntilMs := None |}.

(** A pending wake that may run now. *)
Definition takable (targetKey : string) (cutoff : option Z) (flush : bool) (now : Z)
    (w : PendingWakeReason) : bool :=
  negb (isHeartbeatWakeAfterGlobalBarrier targetKey w.(enqueueSequence) cutoff)
  && (flush || reached w.(readyAtMs) now) && reached w.(notBeforeMs) now.

Fixpoint takeLoop (maxGroups now : Z) (active : list (string * ActiveHeartbeatWakeTarget))
    (flush : bool) (cutoff : option Z) (entries : list (string * PendingWakeGroup))
    (readyGroups pending : list (string * PendingWakeGroup)) :
    list (string * PendingWakeGroup) * list (string * PendingWakeGroup) :=
  match entries with
  | [] => (readyGroups, pending)
  | (targetKey, group) :: rest =>
      let continue := takeLoop maxGroups now active flush cutoff rest in
      if maxGroups <=? Z.of_nat (length readyGroups) then (readyGroups, pending)
      else if JsMap.has targetKey active || negb (reached group.(blockedUntilMs) now)
      then continue readyGroups pending
      else if bool_decide (targetKey = GLOBAL_HEARTBEAT_WAKE_TARGET_KEY)
              && negb (bool_decide (active = []) && bool_decide (readyGroups = []))
      then continue readyGroups pending
      else
        let take := takable targetKey cutoff flush now in
        let ready := filterGroup take group in
        let remaining := filterGroup (λ w, negb (take w)) group in
        continue
          (if nonemptyGroup ready then readyGroups ++ [(targetKey, ready)] else readyGroups)
          (if nonemptyGroup remaining then JsMap.set targetKey remaining pending
           else JsMap.delete targetKey pending)
  end.

(** The order of two wakes of a target. *)
Definition eventFirst (taskWake event : PendingWakeReason) : bool :=
  if negb (eqb taskWake.(retainedWork) event.(retainedWork)) then event.(retainedWork)
  else event.(requestedAt) <? taskWake.(requestedAt).

Definition batchWakes (g : PendingWakeGroup) : list PendingWakeReason :=
  match g.(task) with
  | Some t =>
      let taskWake :=
        match g.(scheduled) with
        | Some sw => mergePendingWakeReasons sw t
        | None => t
        end in
      match g.(event) with
      | Some e => if eventFirst taskWake e then [e; taskWake] else [taskWake; e]
      | None => [taskWake]
      end
  | None =>
      match g.(event) with
      | Some e =>
          [match g.(scheduled) with
           | Some sw => mergePendingWakeReasons sw e
           | None => e
           end]
      | None => option_list g.(scheduled)
      end
  end.

Definition globalGroup (s : HeartbeatState) : option PendingWakeGroup :=
  JsMap.get GLOBAL_HEARTBEAT_WAKE_TARGET_KEY s.(pendingWakes).

Definition globalActive (s : HeartbeatState) : bool :=
  JsMap.has GLOBAL_HEARTBEAT_WAKE_TARGET_KEY s.(activeWakeTargets).

(** An unscoped immediate wake, and the sequence it is a barrier for. *)
Definition globalImmediate (s : HeartbeatState) : option PendingWakeReason :=
  match globalGroup s ≫= event with
  | Some w => if bool_decide (w.(intent) = Immediate) then Some w else None
  | None => None
  end.

Definition barrierCutoff (s : HeartbeatState) : option Z :=
  globalImmediate s ≫= immediateBarrierSequence.

Definition flushPendingCoalescing (s : HeartbeatState) (now : Z) : bool :=
  match globalImmediate s with
  | Some w =>
      negb (globalActive s) && reached (globalGroup s ≫= blockedUntilMs) now
      && reached w.(readyAtMs) now && reached w.(notBeforeMs) now
  | None => false
  end.

(** The entries that are looked at: targets before the barrier, the barrier
    alone, or all. *)
Definition pendingEntries (s : HeartbeatState) (now : Z) : list (string * PendingWakeGroup) :=
  if isHeartbeatWakeTargetGroupReady (globalGroup s) now then
    if flushPendingCoalescing s now then
      filter (λ e, e.1 ≠ GLOBAL_HEARTBEAT_WAKE_TARGET_KEY) s.(pendingWakes)
      ++ filter (λ e, e.1 = GLOBAL_HEARTBEAT_WAKE_TARGET_KEY) s.(pendingWakes)
    else
      match globalGroup s with
      | Some g => [(GLOBAL_HEARTBEAT_WAKE_TARGET_KEY, g)]
      | None => []
      end
  else s.(pendingWakes).

Definition takePendingWakeBatch (maxGroups now : Z) (s : HeartbeatState) :
    list (string * list PendingWakeReason) * HeartbeatState :=
  if maxGroups <=? 0 then ([], s)
  else if globalActive s then ([], s)
  else if isHeartbeatWakeTargetGroupReady (globalGroup s) now
          && negb (bool_decide (s.(activeWakeTargets) = [])) then ([], s)
  else
    let '(readyGroups, pending) :=
      takeLoop maxGroups now s.(activeWakeTargets) (flushPendingCoalescing s now) (barrierCutoff s)
        (pendingEntries s now) [] s.(pendingWakes) in
    (prod_map id batchWakes <$> readyGroups, s <| pendingWakes := pending |>).

(** ** The timer *)

Definition ms (z : Z) : jsvalue := JNum (jsnum_of_Z z).

Definition timerDelayOf (coalesceMs : jsvalue) : Z :=
  resolveTimerTimeoutMs coalesceMs (ms DEFAULT_COALESCE_MS) (QArith_base.inject_Z 0).

Definition schedule (now : Z) (coalesceMs : jsvalue) (s : HeartbeatState) : HeartbeatState :=
  let delay := timerDelayOf coalesceMs in
  let armed := s <| timer := Some {| timerDueAt := now + delay; timerDelay := delay |} |> in
  match s.(timer) with
  | Some t => if t.(timerDueAt) <=? now + delay then s else armed
  | None => armed
  end.

(** The earliest of two deadlines; [None] is infinity. *)
Definition earlier (a : option Z) (b : Z) : option Z := min_option a (Some b).

Fixpoint wakeDeadlines (targetKey : string) (cutoff : option Z) (now : Z)
    (wakes : list PendingWakeReason) (earliest : option Z) (hasReady : bool) : option Z * bool :=
  match wakes with
  | [] => (earliest, hasReady)
  | w :: r =>
      if isHeartbeatWakeAfterGlobalBarrier targetKey w.(enqueueSequence) cutoff
      then wakeDeadlines targetKey cutoff now r earliest hasReady
      else
        let nextReadyAtMs := default 0 w.(readyAtMs) `max` default 0 w.(notBeforeMs) in
        if nextReadyAtMs <=? now then wakeDeadlines targetKey cutoff now r earliest true
        else wakeDeadlines targetKey cutoff now r (earlier earliest nextReadyAtMs) hasReady
  end.

Fixpoint scanDeadlines (active : list (string * ActiveHeartbeatWakeTarget)) (cutoff : option Z)
    (now : Z) (entries : list (string * PendingWakeGroup)) (earliest : option Z) (hasReady : bool) :
    option Z * bool :=
  match entries with
  | [] => (earliest, hasReady)
  | (targetKey, g) :: r =>
      if JsMap.has targetKey active then scanDeadlines active cutoff now r earliest hasReady
      else if forallb (λ w, isHeartbeatWakeAfterGlobalBarrier targetKey w.(enqueueSequence) cutoff)
                (groupWakes g)
      then scanDeadlines active cutoff now r earliest hasReady
      else if negb (reached g.(blockedUntilMs) now)
      then scanDeadlines active cutoff now r (earlier earliest (default 0 g.(blockedUntilMs))) hasReady
      else
        let '(earliest, hasReady) :=
          wakeDeadlines targetKey cutoff now (groupWakes g) earliest hasReady in
        scanDeadlines active cutoff now r earliest hasReady
  end.

Definition schedulePendingWakes (now readyDelayMs : Z) (s : HeartbeatState) : HeartbeatState :=
  if MAX_CONCURRENT_HEARTBEAT_WAKE_TARGETS <=? Z.of_nat (JsMap.size s.(activeWakeTargets)) then s
  else if globalActive s
          || (negb (bool_decide (s.(activeWakeTargets) = []))
              && isHeartbeatWakeTargetGroupReady (globalGroup s) now) then s
  else
    let '(earliest, hasReady) :=
      scanDeadlines s.(activeWakeTargets) (barrierCutoff s) now s.(pendingWakes) None false in
    if hasReady then schedule now (ms readyDelayMs) s
    else
      match earliest with
      | Some t => schedule now (ms (t - now)) s
      | None => s
      end.

(** ** Retry and hand-over *)

Definition resolveHeartbeatRetrySchedule (intent : HeartbeatWakeIntent) (reason : string)
    (retryAtMs : option Z) (wall : Z) : Z * bool :=
  let deferWakeOnly :=
    bool_decide (reason = "preempted") || bool_decide (reason = "channel-not-ready")
    || (bool_decide (reason = "requests-in-flight")
        && (bool_decide (intent = Scheduled) || bool_decide (intent = Task))) in
  (match retryAtMs with
   | Some r => 0 `max` (r - wall)
   | None => if deferWakeOnly then HEARTBEAT_IDLE_RETRY_GRACE_MS else DEFAULT_RETRY_MS
   end, deferWakeOnly).

Definition retryPendingWake (now : Z) (p : QueueParams) (retrySchedule : Z * bool)
    (s : HeartbeatState) : HeartbeatState :=
  let '(delayMs, deferWakeOnly) := retrySchedule in
  let retryAtMs := now + delayMs in
  let s := queuePendingWakeReason now
    {| q_source := p.(q_source); q_intent := p.(q_intent);
       q_reason := Some (default "retry" p.(q_reason));
       q_requestedAt := p.(q_requestedAt); q_enqueueSequence := p.(q_enqueueSequence);
       q_immediateBarrierSequence := p.(q_immediateBarrierSequence); q_readyAtMs := None;
       q_agentId := p.(q_agentId); q_sessionKey := p.(q_sessionKey); q_heartbeat := p.(q_heartbeat);
       q_scheduledEveryMs := p.(q_scheduledEveryMs); q_tasks := p.(q_tasks);
       q_notBeforeMs := if deferWakeOnly then Some retryAtMs else None;
       q_blockTargetUntilMs := if deferWakeOnly then None else Some retryAtMs;
       q_retainedWork := if deferWakeOnly then true else p.(q_retainedWork) |} s in
  schedule now (ms delayMs) s.

Definition handOffPendingWakeBatch (now : Z) (pendingBatch : list PendingWakeReason)
    (startIndex : nat) (s : HeartbeatState) : HeartbeatState :=
  let s' := foldl (λ s w, queuePendingWakeReason now (pendingParams w) s) s
              (drop startIndex pendingBatch) in
  if bool_decide (is_Some s'.(handler)) && (startIndex <? length pendingBatch)%nat
  then schedulePendingWakes now DEFAULT_COALESCE_MS s'
  else s'.

(** ** Dispatch *)

(** The [finally] of [dispatchPendingWakeGroup]. *)
Definition endDispatch (now : Z) (d : nat) (x : Dispatch) (s : HeartbeatState) : HeartbeatState :=
  let s := s <| dispatches ::= alter (λ x, x <| finished := true |>) d |> in
  match JsMap.get x.(d_target) s.(activeWakeTargets) with
  | Some a =>
      if a.(generation) =? x.(d_generation) then
        let s := s <| activeWakeTargets ::= JsMap.delete x.(d_target) |> in
        match s.(pendingWakes) with
        | [] => s
        | _ => schedulePendingWakes now 0 s
        end
      else s
  | None => s
  end.

(** The head of the loop at wake [i]: it stops, hands over, or starts the turn
    whose end is the next event of the dispatch. *)
Definition beginWake (now : Z) (d : nat) (x : Dispatch) (i : nat) (s : HeartbeatState) : HeartbeatState :=
  if (i <? length x.(d_wakes))%nat then
    if s.(handlerGeneration) =? x.(d_generation)
    then s <| dispatches ::= alter (λ x, x <| wakeIndex := i |>) d |>
    else endDispatch now d x (handOffPendingWakeBatch now x.(d_wakes) i s)
  else endDispatch now d x s.

Inductive Outcome :=
| Returned (result : HeartbeatRunResult)
| Thrown.

(** Work that a spacing guard must not lose. *)
Definition guardRetains (w : PendingWakeReason) : bool :=
  negb (bool_decide (w.(tasks) = [])) || bool_decide (w.(intent) = Task)
  || bool_decide (w.(intent) = Event) || bool_decide (w.(intent) = Immediate).

Definition retainsWake (w : PendingWakeReason) (result : HeartbeatRunResult) : bool :=
  match result with
  | Skipped reason _ =>
      isRetryableHeartbeatSkipReason reason || (isRetryableGuardSkipReason reason && guardRetains w)
  | _ => false
  end.

(** The body of the loop behind the turn of a wake. *)
Definition afterTurn (now wall : Z) (w : PendingWakeReason) (outcome : Outcome) (s : HeartbeatState) :
    HeartbeatState :=
  match outcome with
  | Thrown => retryPendingWake now (pendingParams w) (DEFAULT_RETRY_MS, false) s
  | Returned (Skipped reason retryAtMs) =>
      if isRetryableHeartbeatSkipReason reason
      then retryPendingWake now (pendingParams w)
             (resolveHeartbeatRetrySchedule w.(intent) reason retryAtMs wall) s
      else if isRetryableGuardSkipReason reason && guardRetains w
      then retryPendingWake now (pendingParams w)
             ((resolveHeartbeatRetrySchedule w.(intent) reason retryAtMs wall).1, true) s
      else s
  | Returned _ => s
  end.

Definition finishTurn (now wall : Z) (d : nat) (outcome : Outcome) (s : HeartbeatState) : HeartbeatState :=
  match s.(dispatches) !! d with
  | None => s
  | Some x =>
      if x.(finished) then s
      else
        match x.(d_wakes) !! x.(wakeIndex) with
        | None => s
        | Some w =>
            if s.(handlerGeneration) =? x.(d_generation)
            then beginWake now d x (S x.(wakeIndex)) (afterTurn now wall w outcome s)
            else
              let retain := match outcome with Thrown => true | Returned r => retainsWake w r end in
              endDispatch now d x
                (handOffPendingWakeBatch now x.(d_wakes)
                   (if retain then x.(wakeIndex) else S x.(wakeIndex)) s)
        end
  end.

Definition startDispatch (now : Z) (s : HeartbeatState) (group : string * list PendingWakeReason) :
    HeartbeatState :=
  let d := length s.(dispatches) in
  let x := {| d_generation := s.(handlerGeneration); d_target := group.1; d_wakes := group.2;
              wakeIndex := 0; aborted := false; finished := false |} in
  beginWake now d x 0
    (s <| dispatches ::= λ l, l ++ [x] |>
       <| activeWakeTargets ::= JsMap.set group.1
            {| generation := s.(handlerGeneration); abortController := d |} |>).

(** The callback of the timer. *)
Definition timerFires (now : Z) (s : HeartbeatState) : HeartbeatState :=
  match s.(timer) with
  | None => s
  | Some t =>
      let s := s <| timer := None |> in
      match s.(handler) with
      | None => s
      | Some _ =>
          let availableTargetSlots :=
            MAX_CONCURRENT_HEARTBEAT_WAKE_TARGETS - Z.of_nat (JsMap.size s.(activeWakeTargets)) in
          let '(batch, s) := takePendingWakeBatch availableTargetSlots now s in
          let s := foldl (startDispatch now) s batch in
          match s.(pendingWakes) with
          | [] => s
          | _ => schedulePendingWakes now t.(timerDelay) s
          end
      end
  end.

(** ** Registration and requests *)

Definition clearGroupRetry (g : PendingWakeGroup) : PendingWakeGroup :=
  let clear w := w <| notBeforeMs := None |> <| retainedWork := false |> in
  {| task := clear <$> g.(task); scheduled := clear <$> g.(scheduled); event := clear <$> g.(event);
     blockedUntilMs := None |}.

Definition clearPendingWakeRetryState (s : HeartbeatState) : HeartbeatState :=
  s <| pendingWakes ::= fmap (prod_map id clearGroupRetry) |>.

Definition abortHeartbeatWakeGeneration (gen : Z) (s : HeartbeatState) : HeartbeatState :=
  foldl (λ s kv,
    if kv.2.(generation) =? gen
    then s <| dispatches ::= alter (λ x, x <| aborted := true |>) kv.2.(abortController) |> else s)
    s s.(activeWakeTargets).

Definition setHeartbeatWakeHandler (now : Z) (next : option nat) (s : HeartbeatState) : HeartbeatState :=
  let s := abortHeartbeatWakeGeneration s.(handlerGeneration)
             (s <| handlerGeneration ::= λ g, g + 1 |> <| handler := next |>) in
  let s := match next with
           | Some _ => clearPendingWakeRetryState (s <| timer := None |>)
           | None => s
           end in
  match s.(handler), s.(pendingWakes) with
  | Some _, _ :: _ => schedulePendingWakes now DEFAULT_COALESCE_MS s
  | _, _ => s
  end.

(** The disposer of the registration of [next] as generation [gen]. *)
Definition disposeHandler (gen : Z) (next : option nat) (s : HeartbeatState) : HeartbeatState :=
  if negb (s.(handlerGeneration) =? gen) then s
  else if negb (bool_decide (s.(handler) = next)) then s
  else (abortHeartbeatWakeGeneration gen s) <| handlerGeneration ::= λ g, g + 1 |> <| handler := None |>.

Definition requestHeartbeat (now : Z) (wake : HeartbeatWakeRequest) (requestedCoalesceMs : option jsvalue)
    (s : HeartbeatState) : HeartbeatState :=
  let coalesceMs := default (ms DEFAULT_COALESCE_MS) requestedCoalesceMs in
  let p := requestParams wake in
  let s := queuePendingWakeReason now
    {| q_source := p.(q_source); q_intent := p.(q_intent); q_reason := p.(q_reason);
       q_requestedAt := Some now; q_enqueueSequence := None; q_immediateBarrierSequence := None;
       q_readyAtMs := Some (now + timerDelayOf coalesceMs); q_agentId := p.(q_agentId);
       q_sessionKey := p.(q_sessionKey); q_heartbeat := p.(q_heartbeat);
       q_scheduledEveryMs := p.(q_scheduledEveryMs); q_tasks := p.(q_tasks); q_notBeforeMs := None;
       q_blockTargetUntilMs := None; q_retainedWork := p.(q_retainedWork) |} s in
  schedule now coalesceMs s.

Definition requestHeartbeatRetry (now wall : Z) (wake : HeartbeatWakeRequest) (reason : string)
    (retryAtMs : option Z) (s : HeartbeatState) : HeartbeatState :=
  retryPendingWake now (requestParams wake)
    (resolveHeartbeatRetrySchedule wake.(r_intent) reason retryAtMs wall) s.

Inductive HeartbeatEvent :=
| EvRequest (now : Z) (wake : HeartbeatWakeRequest) (coalesceMs : option jsvalue)
| EvRequestRetry (now wall : Z) (wake : HeartbeatWakeRequest) (reason : string) (retryAtMs : option Z)
| EvSetHandler (now : Z) (next : option nat)
| EvDispose (gen : Z) (next : option nat)
| EvTimer (now : Z)
| EvTurn (now wall : Z) (d : nat) (outcome : Outcome)
| EvEnable (enabled : bool).

Definition heartbeatEvent (e : HeartbeatEvent) (s : HeartbeatState) : HeartbeatState :=
  match e with
  | EvRequest now wake c => requestHeartbeat now wake c s
  | EvRequestRetry now wall wake reason r => requestHeartbeatRetry now wall wake reason r s
  | EvSetHandler now next => setHeartbeatWakeHandler now next s
  | EvDispose gen next => disposeHandler gen next s
  | EvTimer now => timerFires now s
  | EvTurn now wall d outcome => finishTurn now wall d outcome s
  | EvEnable b => setHeartbeatsEnabled b s
  end.

Definition heartbeatRun (es : list HeartbeatEvent) : HeartbeatState :=
  foldl (λ s e, heartbeatEvent e s) initialHeartbeat es.
(** ** What the operations leave alone *)

#[local] Arguments JsMap.set : simpl never.
#[local] Arguments JsMap.delete : simpl never.
#[local] Arguments JsMap.has : simpl never.
#[local] Arguments takeLoop : simpl never.
#[local] Arguments scanDeadlines : simpl never.
#[local] Arguments mergePendingWakeReasons : simpl never.

(** Everything but the pending wakes, the sequence and the timer. *)
Definition same_core (s s' : HeartbeatState) : Prop :=
  s'.(handler) = s.(handler) ∧ s'.(handlerGeneration) = s.(handlerGeneration) ∧
  s'.(activeWakeTargets) = s.(activeWakeTargets) ∧ s'.(dispatches) = s.(dispatches).

#[local] Instance same_core_trans : Transitive same_core.
Proof. intros a b c (?&?&?&?) (?&?&?&?). unfold same_core. split_and!; congruence. Qed.

#[local] Instance same_core_refl : Reflexive same_core.
Proof. done. Qed.

Lemma queue_core now p s : same_core s (queuePendingWakeReason now p s).
Proof. unfold queuePendingWakeReason. by destruct p.(q_enqueueSequence). Qed.

Lemma schedule_core now c s : same_core s (schedule now c s).
Proof. unfold schedule. destruct s.(timer) as [t|]; [|done]. by destruct (_ <=? _). Qed.

Lemma schedule_pending now c s : (schedule now c s).(pendingWakes) = s.(pendingWakes).
Proof. unfold schedule. destruct s.(timer) as [t|]; [|done]. by destruct (_ <=? _). Qed.

Lemma schedule_armed now c s : (schedule now c s).(timer) ≠ None.
Proof.
  unfold schedule. destruct s.(timer) as [t|] eqn:E; [|done]. destruct (_ <=? _); [by rewrite E|done].
Qed.

Lemma schedulePending_cases now d s :
  schedulePendingWakes now d s = s ∨ ∃ c, schedulePendingWakes now d s = schedule now c s.
Proof.
  unfold schedulePendingWakes. destruct (_ <=? _); [by left|]. destruct (_ || _); [by left|].
  destruct (scanDeadlines _ _ _ _ _ _) as [earliest hasReady]. destruct hasReady; [eauto|].
  destruct earliest; eauto.
Qed.

Lemma schedulePending_core now d s : same_core s (schedulePendingWakes now d s).
Proof.
  destruct (schedulePending_cases now d s) as [->|[c ->]]; [done|apply schedule_core].
Qed.

Lemma schedulePending_pending now d s : (schedulePendingWakes now d s).(pendingWakes) = s.(pendingWakes).
Proof.
  destruct (schedulePending_cases now d s) as [->|[c ->]]; [done|apply schedule_pending].
Qed.

Lemma retry_core now p r s : same_core s (retryPendingWake now p r s).
Proof. destruct r as [delay defer]. cbn. etrans; [apply queue_core|apply schedule_core]. Qed.

Lemma handOff_core now l i s : same_core s (handOffPendingWakeBatch now l i s).
Proof.
  unfold handOffPendingWakeBatch. generalize (drop i l). intros ws.
  assert (H : same_core s (foldl (λ s w, queuePendingWakeReason now (pendingParams w) s) s ws)).
  { revert s. induction ws as [|w ws IH]; intros s; [done|]. cbn [foldl]. etrans; [apply queue_core|apply IH]. }
  destruct (_ && _); [|done]. etrans; [exact H|apply schedulePending_core].
Qed.

Lemma afterTurn_core now wall w o s : same_core s (afterTurn now wall w o s).
Proof.
  destruct o as [[|reason r|reason]|]; cbn [afterTurn]; try done; [|apply retry_core].
  destruct (isRetryableHeartbeatSkipReason reason); [apply retry_core|]. destruct (_ && _); [apply retry_core|done].
Qed.

(** ** Pending wakes *)

Definition pending_ok (m : list (string * PendingWakeGroup)) : Prop :=
  NoDup (JsMap.keys m) ∧ ∀ k g, JsMap.get k m = Some g → nonemptyGroup g = true.

Lemma setSlot_nonempty i w g : nonemptyGroup (setSlot i w g) = true.
Proof. destruct g as [[] [] [] b], i; done. Qed.

Lemma pending_ok_set k g m : pending_ok m → nonemptyGroup g = true → pending_ok (JsMap.set k g m).
Proof.
  intros [Hn Hg] Hne. split; [by apply JsMap.NoDup_keys_set|]. intros k' g'. rewrite JsMap.get_set.
  case_decide; [by intros [= <-]|apply Hg].
Qed.

Lemma pending_ok_delete k m : pending_ok m → pending_ok (JsMap.delete k m).
Proof.
  intros [Hn Hg]. split; [by apply JsMap.NoDup_keys_delete|]. intros k' g'. rewrite JsMap.get_delete.
  case_decide; [done|apply Hg].
Qed.

Lemma queue_pending now p s :
  ∃ g, (queuePendingWakeReason now p s).(pendingWakes) = JsMap.set (paramsTarget p) g s.(pendingWakes) ∧
    nonemptyGroup g = true.
Proof.
  unfold queuePendingWakeReason. destruct p.(q_enqueueSequence); cbn; eexists; (split; [done|apply setSlot_nonempty]).
Qed.

Lemma queue_ok now p s : pending_ok s.(pendingWakes) → pending_ok (queuePendingWakeReason now p s).(pendingWakes).
Proof. intros Hok. destruct (queue_pending now p s) as (g & -> & Hg). by apply pending_ok_set. Qed.

Lemma queue_keys now p s k :
  k ∈ JsMap.keys (queuePendingWakeReason now p s).(pendingWakes) ↔
    k = paramsTarget p ∨ k ∈ JsMap.keys s.(pendingWakes).
Proof. destruct (queue_pending now p s) as (g & -> & _). apply JsMap.elem_keys_set. Qed.

Lemma retry_ok now p r s : pending_ok s.(pendingWakes) → pending_ok (retryPendingWake now p r s).(pendingWakes).
Proof. intros H. destruct r as [delay defer]. cbn. rewrite schedule_pending. by apply queue_ok. Qed.

Lemma handOff_pending now l i s :
  (handOffPendingWakeBatch now l i s).(pendingWakes) =
    (foldl (λ s w, queuePendingWakeReason now (pendingParams w) s) s (drop i l)).(pendingWakes).
Proof. unfold handOffPendingWakeBatch. destruct (_ && _); [apply schedulePending_pending|done]. Qed.

Lemma queue_all_ok now ws s :
  pending_ok s.(pendingWakes) →
  pending_ok (foldl (λ s w, queuePendingWakeReason now (pendingParams w) s) s ws).(pendingWakes).
Proof. revert s. induction ws as [|w ws IH]; intros s H; [done|]. cbn [foldl]. by apply IH, queue_ok. Qed.

Lemma afterTurn_ok now wall w o s :
  pending_ok s.(pendingWakes) → pending_ok (afterTurn now wall w o s).(pendingWakes).
Proof.
  intros H. destruct o as [[|reason r|reason]|]; cbn [afterTurn]; try done; [|by apply retry_ok].
  destruct (isRetryableHeartbeatSkipReason reason); [by apply retry_ok|]. destruct (_ && _); [by apply retry_ok|done].
Qed.

Lemma clearGroup_nonempty g : nonemptyGroup (clearGroupRetry g) = nonemptyGroup g.
Proof. by destruct g as [[] [] [] b]. Qed.

Lemma get_fmap_groups (f : PendingWakeGroup → PendingWakeGroup) k (m : list (string * PendingWakeGroup)) :
  JsMap.get k (prod_map id f <$> m) = f <$> JsMap.get k m.
Proof. induction m as [|[k' g] m IH]; [done|]. cbn. by case_decide. Qed.

Lemma keys_fmap_groups (f : PendingWakeGroup → PendingWakeGroup) (m : list (string * PendingWakeGroup)) :
  JsMap.keys (prod_map id f <$> m) = JsMap.keys m.
Proof. unfold JsMap.keys. rewrite <-list_fmap_compose. by apply list_fmap_ext. Qed.

Lemma clear_ok s : pending_ok s.(pendingWakes) → pending_ok (clearPendingWakeRetryState s).(pendingWakes).
Proof.
  intros [Hn Hg]. cbn. split; [by rewrite keys_fmap_groups|]. intros k g. rewrite get_fmap_groups.
  destruct (JsMap.get k _) as [g0|] eqn:E; [|done]. intros [= <-]. rewrite clearGroup_nonempty. by apply (Hg k).
Qed.

(** ** The timer is armed for what is pending *)

Lemma wakeDeadlines_keep k cutoff now ws earliest hasReady :
  is_Some earliest ∨ hasReady = true →
  is_Some (wakeDeadlines k cutoff now ws earliest hasReady).1 ∨
  (wakeDeadlines k cutoff now ws earliest hasReady).2 = true.
Proof.
  revert earliest hasReady. induction ws as [|w ws IH]; intros earliest hasReady H; [done|]. cbn [wakeDeadlines].
  destruct (isHeartbeatWakeAfterGlobalBarrier _ _ _); [by apply IH|]. destruct (_ <=? _); apply IH; [by right|].
  destruct H as [[z ->]|H]; [left; by eexists|by right].
Qed.

Lemma wakeDeadlines_found k cutoff now ws earliest hasReady :
  forallb (λ w, isHeartbeatWakeAfterGlobalBarrier k w.(enqueueSequence) cutoff) ws = false →
  is_Some (wakeDeadlines k cutoff now ws earliest hasReady).1 ∨
  (wakeDeadlines k cutoff now ws earliest hasReady).2 = true.
Proof.
  revert earliest hasReady. induction ws as [|w ws IH]; intros earliest hasReady H; [done|]. cbn in H |- *.
  destruct (isHeartbeatWakeAfterGlobalBarrier _ _ _); [by apply IH|].
  destruct (_ <=? _); apply wakeDeadlines_keep; [by right|left]. destruct earliest; by eexists.
Qed.

Lemma scanDeadlines_keep active cutoff now es earliest hasReady :
  is_Some earliest ∨ hasReady = true →
  is_Some (scanDeadlines active cutoff now es earliest hasReady).1 ∨
  (scanDeadlines active cutoff now es earliest hasReady).2 = true.
Proof.
  revert earliest hasReady. induction es as [|[k g] es IH]; intros earliest hasReady H; [done|].
  unfold scanDeadlines; fold scanDeadlines.
  destruct (JsMap.has k active); [by apply IH|]. destruct (forallb _ _); [by apply IH|].
  destruct (negb _).
  - apply IH. destruct H as [[z ->]|H]; [left; by eexists|by right].
  - pose proof (wakeDeadlines_keep k cutoff now (groupWakes g) earliest hasReady H) as Hw.
    destruct (wakeDeadlines _ _ _ _ _ _) as [e h]. by apply IH.
Qed.

(** An entry that is neither active nor behind the barrier yields a deadline. *)
Lemma scanDeadlines_found active cutoff now es earliest hasReady k g :
  (k, g) ∈ es → JsMap.has k active = false →
  forallb (λ w, isHeartbeatWakeAfterGlobalBarrier k w.(enqueueSequence) cutoff) (groupWakes g) = false →
  is_Some (scanDeadlines active cutoff now es earliest hasReady).1 ∨
  (scanDeadlines active cutoff now es earliest hasReady).2 = true.
Proof.
  intros Hin Ha Hb. revert earliest hasReady. induction es as [|[k' g'] es IH]; intros earliest hasReady.
  { by apply not_elem_of_nil in Hin. }
  unfold scanDeadlines; fold scanDeadlines. apply elem_of_cons in Hin as [[= <- <-]|Hin].
  - rewrite Ha, Hb. destruct (negb _); [apply scanDeadlines_keep; left; destruct earliest; by eexists|].
    pose proof (wakeDeadlines_found k cutoff now (groupWakes g) earliest hasReady Hb) as Hw.
    destruct (wakeDeadlines _ _ _ _ _ _) as [e h]. by apply scanDeadlines_keep.
  - destruct (JsMap.has k' active); [by apply IH|].
    destruct (forallb (λ w, isHeartbeatWakeAfterGlobalBarrier k' w.(enqueueSequence) cutoff) (groupWakes g'));
      [by apply IH|].
    destruct (negb _); [by apply IH|]. destruct (wakeDeadlines _ _ _ _ _ _) as [e h]. by apply IH.
Qed.

Lemma nonempty_wakes g : nonemptyGroup g = true → groupWakes g ≠ [].
Proof. by destruct g as [[] [] [] b]. Qed.

Lemma not_after_barrier_none k q : isHeartbeatWakeAfterGlobalBarrier k q None = false.
Proof. done. Qed.

Lemma not_after_barrier_global q cutoff :
  isHeartbeatWakeAfterGlobalBarrier GLOBAL_HEARTBEAT_WAKE_TARGET_KEY q cutoff = false.
Proof. by destruct cutoff. Qed.

Lemma some_before_barrier s :
  pending_ok s.(pendingWakes) → s.(pendingWakes) ≠ [] →
  ∃ k g, (k, g) ∈ s.(pendingWakes) ∧
    forallb (λ w, isHeartbeatWakeAfterGlobalBarrier k w.(enqueueSequence) (barrierCutoff s)) (groupWakes g) = false.
Proof.
  intros [Hn Hg] Hne. destruct (barrierCutoff s) as [c|] eqn:Ec.
  - unfold barrierCutoff, globalImmediate in Ec. destruct (globalGroup s) as [g|] eqn:Eg; [|done].
    exists GLOBAL_HEARTBEAT_WAKE_TARGET_KEY, g. split; [by apply JsMap.get_elem|].
    pose proof (nonempty_wakes g (Hg _ _ Eg)) as Hw. destruct (groupWakes g) as [|w ws]; [done|].
    cbn [forallb]. by rewrite not_after_barrier_global.
  - destruct s.(pendingWakes) as [|[k g] m] eqn:Em; [done|]. exists k, g. split; [apply elem_of_cons; by left|].
    assert (Hgk : nonemptyGroup g = true) by (apply (Hg k); cbn; by rewrite decide_True).
    pose proof (nonempty_wakes g Hgk) as Hw. by destruct (groupWakes g).
Qed.

Lemma schedulePending_armed now d s :
  pending_ok s.(pendingWakes) → s.(pendingWakes) ≠ [] →
  s.(activeWakeTargets) ≠ [] ∨ (schedulePendingWakes now d s).(timer) ≠ None.
Proof.
  intros Hok Hne. destruct s.(activeWakeTargets) as [|a l] eqn:Ea; [right|by left].
  unfold schedulePendingWakes, globalActive. rewrite Ea. cbn -[scanDeadlines].
  destruct (some_before_barrier s Hok Hne) as (k & g & Hin & Hb).
  pose proof (scanDeadlines_found [] (barrierCutoff s) now s.(pendingWakes) None false k g Hin eq_refl Hb) as H.
  destruct (scanDeadlines _ _ _ _ _ _) as [earliest hasReady]. cbn in H.
  destruct hasReady; [apply schedule_armed|]. destruct earliest; [apply schedule_armed|].
  destruct H as [[z Hz]|]; done.
Qed.

(** ** Active targets *)

Definition live (ds : list Dispatch) (d : nat) (x : Dispatch) : Prop :=
  ds !! d = Some x ∧ x.(finished) = false.

Record act_ok (active : list (string * ActiveHeartbeatWakeTarget)) (ds : list Dispatch) : Prop := {
  ao_keys : NoDup (JsMap.keys active);
  ao_live : ∀ k a, JsMap.get k active = Some a ↔
    ∃ x, live ds a.(abortController) x ∧ x.(d_target) = k ∧ x.(d_generation) = a.(generation);
  ao_index : ∀ d x, live ds d x → (x.(wakeIndex) < length x.(d_wakes))%nat;
  ao_bound : (length active ≤ 4)%nat;
  ao_global : GLOBAL_HEARTBEAT_WAKE_TARGET_KEY ∈ JsMap.keys active → length active = 1%nat;
}.

Lemma act_ok_new : act_ok [] [].
Proof.
  constructor; cbn; [constructor| |by intros d x [??]|lia|by intros ?%not_elem_of_nil].
  intros k a. split; [done|]. by intros (x & [? _] & _).
Qed.

Lemma live_active active ds d x :
  act_ok active ds → live ds d x →
  JsMap.get x.(d_target) active = Some {| generation := x.(d_generation); abortController := d |}.
Proof. intros Hok Hl. apply (ao_live _ _ Hok). exists x. done. Qed.

Lemma dispatch_alter (f : Dispatch → Dispatch) (d e : nat) (ds : list Dispatch) x :
  alter f d ds !! e = Some x ↔ ∃ y, ds !! e = Some y ∧ x = if decide (e = d) then f y else y.
Proof.
  destruct (decide (e = d)) as [->|Hne].
  - rewrite list_lookup_alter_eq. destruct (ds !! d) as [y|]; cbn; [|naive_solver].
    split; [intros [= <-]; eauto|by intros (? & [= <-] & ->)].
  - rewrite list_lookup_alter_ne by done. naive_solver.
Qed.

(** A change of a dispatch that its lock does not see. *)
Lemma act_ok_alter (f : Dispatch → Dispatch) (d : nat) active (ds : list Dispatch) :
  act_ok active ds →
  (∀ y, ds !! d = Some y → (f y).(finished) = y.(finished) ∧ (f y).(d_target) = y.(d_target) ∧
     (f y).(d_generation) = y.(d_generation) ∧
     (y.(finished) = false → ((f y).(wakeIndex) < length (f y).(d_wakes))%nat)) →
  act_ok active (alter f d ds).
Proof.
  intros [H1 H2 H3 H4 H5] Hf.
  assert (Hback : ∀ e x, live (alter f d ds) e x → ∃ y, live ds e y ∧ x.(d_target) = y.(d_target) ∧
    x.(d_generation) = y.(d_generation) ∧ (x.(wakeIndex) < length x.(d_wakes))%nat).
  { intros e x [(y & Hy & ->)%dispatch_alter Hx]. exists y. case_decide as He; [subst e|].
    - destruct (Hf y Hy) as (E1 & E2 & E3 & E4). rewrite E1 in Hx. rewrite E2, E3.
      split; [done|]. split; [done|]. split; [done|]. by apply E4.
    - split; [done|]. split; [done|]. split; [done|]. by eapply H3. }
  constructor; [done| |intros e x Hl; by apply Hback in Hl as (? & ? & ? & ? & ?)|done|done].
  intros k a. rewrite H2. split.
  - intros (x & [Hx Hl] & Ht & Hg). destruct (decide (a.(abortController) = d)) as [Hd|Hd].
    + rewrite Hd in Hx. destruct (Hf x Hx) as (E1 & E2 & E3 & _). exists (f x). split.
      * split; [|by rewrite E1]. apply dispatch_alter. exists x. rewrite Hd. by rewrite decide_True.
      * by rewrite E2, E3.
    + exists x. split; [|done]. split; [|done]. apply dispatch_alter. exists x. by rewrite decide_False.
  - intros (x & Hl & Ht & Hg). apply Hback in Hl as (y & Hy & E1 & E2 & _). exists y. by rewrite <-E1, <-E2.
Qed.

(** The end of a dispatch frees its target. *)
Lemma act_ok_end d x active ds :
  act_ok active ds → live ds d x →
  act_ok (JsMap.delete x.(d_target) active) (alter (λ x, x <| finished := true |>) d ds).
Proof.
  intros Hok Hlive. pose proof (live_active _ _ _ _ Hok Hlive) as Hx. destruct Hlive as [Hd Hf].
  destruct Hok as [H1 H2 H3 H4 H5].
  assert (Hback : ∀ e y, live (alter (λ x, x <| finished := true |>) d ds) e y → e ≠ d ∧ live ds e y).
  { intros e y [(z & Hz & ->)%dispatch_alter Hy]. by case_decide. }
  assert (Hlen : (length (JsMap.delete x.(d_target) active) ≤ length active)%nat) by apply JsMap.size_delete_le.
  constructor.
  - by apply JsMap.NoDup_keys_delete.
  - intros k a. rewrite JsMap.get_delete. split.
    + case_decide as Hk; [done|]. intros Ha. apply H2 in Ha as (y & [Hy Hyf] & Ht & Hg). exists y.
      split; [|done]. split; [|done]. apply dispatch_alter. exists y. split; [done|].
      rewrite decide_False; [done|]. intros E. rewrite E, Hd in Hy. injection Hy as <-. done.
    + intros (y & [Hne Hy]%Hback & Ht & Hg). assert (Ha : JsMap.get k active = Some a) by (apply H2; eauto).
      rewrite decide_False; [done|]. intros ->. rewrite Hx in Ha. by injection Ha as <-.
  - intros e y [_ Hy]%Hback. by eapply H3.
  - lia.
  - rewrite JsMap.keys_delete. intros [Hne Hin]%list_elem_of_filter. specialize (H5 Hin).
    assert (Hgl : is_Some (JsMap.get x.(d_target) active)) by (by rewrite Hx).
    apply JsMap.get_Some_keys in Hgl. destruct active as [|[k0 a0] [|]]; [done| |done].
    cbn in Hin, Hgl. apply list_elem_of_singleton in Hin as <-. apply list_elem_of_singleton in Hgl. done.
Qed.

(** A new dispatch takes its target. *)
Lemma act_ok_start x active ds :
  act_ok active ds → JsMap.get x.(d_target) active = None → x.(finished) = false →
  (x.(wakeIndex) < length x.(d_wakes))%nat → (length active < 4)%nat →
  GLOBAL_HEARTBEAT_WAKE_TARGET_KEY ∉ JsMap.keys active →
  (x.(d_target) = GLOBAL_HEARTBEAT_WAKE_TARGET_KEY → active = []) →
  act_ok (JsMap.set x.(d_target) {| generation := x.(d_generation); abortController := length ds |} active)
         (ds ++ [x]).
Proof.
  intros [H1 H2 H3 H4 H5] Hfree Hf Hi Hlt Hg0 Hg1.
  assert (Hback : ∀ e y, live (ds ++ [x]) e y → live ds e y ∧ e ≠ length ds ∨ e = length ds ∧ y = x).
  { intros e y [[Hy|[Hge Hy]]%lookup_app_Some Hyf].
    - left. split; [done|]. apply lookup_lt_Some in Hy. lia.
    - right. apply list_lookup_singleton_Some in Hy as [He <-]. split; [lia|done]. }
  rewrite (JsMap.set_fresh _ _ _ Hfree). constructor.
  - rewrite <-(JsMap.set_fresh _ _ _ Hfree). by apply JsMap.NoDup_keys_set.
  - intros k a. rewrite <-(JsMap.set_fresh _ _ _ Hfree), JsMap.get_set. split.
    + case_decide as Hk.
      * intros [= <-]. exists x. cbn. split; [|done]. split; [|done]. by apply list_lookup_middle.
      * intros Ha. apply H2 in Ha as (y & [Hy Hyf] & Ht & Hg). exists y. split; [|done]. split; [|done].
        by apply lookup_app_l_Some.
    + intros (y & [[Hy _]|[He ->]]%Hback & Ht & Hg).
      * assert (Ha : JsMap.get k active = Some a) by (apply H2; eauto).
        rewrite decide_False; [done|]. intros ->. congruence.
      * rewrite decide_True by done. rewrite Hg, <-He. by destruct a.
  - intros e y [[Hy _]|[_ ->]]%Hback; [by eapply H3|done].
  - rewrite length_app. cbn. lia.
  - unfold JsMap.keys. rewrite fmap_app, elem_of_app, length_app. cbn.
    intros [Hin|Hin]; [done|]. apply list_elem_of_singleton in Hin. by rewrite Hg1.
Qed.

(** ** The invariant *)

Record heart_ok (s : HeartbeatState) : Prop := {
  ho_pending : pending_ok s.(pendingWakes);
  ho_act : act_ok s.(activeWakeTargets) s.(dispatches);
}.

(** While a handler is registered, pending wakes have a timer or an active
    target that will look at them when it ends. *)
Definition armed (s : HeartbeatState) : Prop :=
  s.(handler) ≠ None → s.(pendingWakes) ≠ [] → s.(activeWakeTargets) ≠ [] ∨ s.(timer) ≠ None.

Lemma core_ok s s' : heart_ok s → same_core s s' → pending_ok s'.(pendingWakes) → heart_ok s'.
Proof. intros [Hp Ha] (_ & _ & E1 & E2) Hp'. constructor; [done|by rewrite E1, E2]. Qed.

Lemma core_live s s' d x : same_core s s' → live s.(dispatches) d x → live s'.(dispatches) d x.
Proof. intros (_ & _ & _ & E). by rewrite E. Qed.

Lemma live_armed s d x : heart_ok s → live s.(dispatches) d x → armed s.
Proof.
  intros Hok Hl _ _. left. pose proof (live_active _ _ _ _ (ho_act _ Hok) Hl) as H. intros E. by rewrite E in H.
Qed.

Lemma armed_schedule now d s :
  pending_ok s.(pendingWakes) → armed (match s.(pendingWakes) with [] => s | _ => schedulePendingWakes now d s end).
Proof.
  intros Hok. destruct s.(pendingWakes) as [|p m] eqn:E; [intros _ Hne; congruence|]. rewrite <-E in Hok.
  intros _ _. destruct (schedulePending_core now d s) as (_ & _ & -> & _).
  apply schedulePending_armed; [done|by rewrite E].
Qed.

Lemma ok_schedule now d s :
  heart_ok s → heart_ok (match s.(pendingWakes) with [] => s | _ => schedulePendingWakes now d s end).
Proof.
  intros Hok. destruct s.(pendingWakes) as [|p m] eqn:E; [done|].
  eapply core_ok; [done|apply schedulePending_core|]. rewrite schedulePending_pending. apply Hok.
Qed.

(** The guard of the [finally] always holds: the target is still this
    dispatch's own. *)
Lemma endDispatch_eq now d x s :
  heart_ok s → live s.(dispatches) d x →
  endDispatch now d x s =
    let s1 := s <| dispatches ::= alter (λ x, x <| finished := true |>) d |>
                <| activeWakeTargets ::= JsMap.delete x.(d_target) |> in
    match s1.(pendingWakes) with [] => s1 | _ => schedulePendingWakes now 0 s1 end.
Proof.
  intros Hok Hl. unfold endDispatch. cbn -[schedulePendingWakes].
  rewrite (live_active _ _ _ _ (ho_act _ Hok) Hl). cbn -[schedulePendingWakes]. by rewrite Z.eqb_refl.
Qed.

Lemma endDispatch_ok now d x s :
  heart_ok s → live s.(dispatches) d x →
  heart_ok (endDispatch now d x s) ∧ armed (endDispatch now d x s).
Proof.
  intros Hok Hl. rewrite endDispatch_eq by done. cbv zeta.
  match goal with |- context [match pendingWakes ?s1 with _ => _ end] => assert (Hs : heart_ok s1) end.
  { destruct Hok as [Hp Ha]. constructor; [done|]. by apply act_ok_end. }
  split; [by apply ok_schedule|]. apply armed_schedule. apply Hs.
Qed.

Lemma handOff_ok now l i s : heart_ok s → heart_ok (handOffPendingWakeBatch now l i s).
Proof.
  intros Hok. eapply core_ok; [done|apply handOff_core|]. rewrite handOff_pending. apply queue_all_ok, Hok.
Qed.

Lemma beginWake_ok now d x i s :
  heart_ok s → live s.(dispatches) d x →
  heart_ok (beginWake now d x i s) ∧ armed (beginWake now d x i s).
Proof.
  intros Hok Hl. unfold beginWake. destruct (Nat.ltb_spec i (length x.(d_wakes))) as [Hi|Hi]; [|by apply endDispatch_ok].
  destruct (_ =? _).
  - assert (Hl' : live (alter (λ x, x <| wakeIndex := i |>) d s.(dispatches)) d (x <| wakeIndex := i |>)).
    { destruct Hl as [Hd Hf]. split; [|done]. apply dispatch_alter. exists x. by rewrite decide_True. }
    assert (Hs : heart_ok (s <| dispatches ::= alter (λ x, x <| wakeIndex := i |>) d |>)).
    { destruct Hok as [Hp Ha]. constructor; [done|]. cbn. apply act_ok_alter; [done|]. intros y Hy. cbn.
      destruct Hl as [Hd _]. assert (y = x) as -> by congruence. done. }
    split; [done|]. by eapply live_armed.
  - apply endDispatch_ok; [by apply handOff_ok|]. by eapply core_live, Hl; apply handOff_core.
Qed.

Lemma finishTurn_ok now wall d o s :
  heart_ok s → armed s → heart_ok (finishTurn now wall d o s) ∧ armed (finishTurn now wall d o s).
Proof.
  intros Hok Ha. unfold finishTurn. destruct (s.(dispatches) !! d) as [x|] eqn:Ed; [|done].
  destruct x.(finished) eqn:Ef; [done|]. assert (Hl : live s.(dispatches) d x) by done.
  destruct (x.(d_wakes) !! x.(wakeIndex)) as [w|]; [|done]. destruct (_ =? _).
  - apply beginWake_ok; [|by eapply core_live, Hl; apply afterTurn_core].
    eapply core_ok; [done|apply afterTurn_core|]. apply afterTurn_ok, Hok.
  - apply endDispatch_ok; [by apply handOff_ok|]. by eapply core_live, Hl; apply handOff_core.
Qed.

Lemma startDispatch_eq now s k ws :
  ws ≠ [] →
  startDispatch now s (k, ws) =
    s <| dispatches ::= λ l, l ++ [{| d_generation := s.(handlerGeneration); d_target := k; d_wakes := ws;
                                      wakeIndex := 0; aborted := false; finished := false |}] |>
      <| activeWakeTargets ::= JsMap.set k
           {| generation := s.(handlerGeneration); abortController := length s.(dispatches) |} |>.
Proof.
  intros Hw. unfold startDispatch, beginWake. cbn. destruct ws as [|w ws]; [done|]. cbn. rewrite Z.eqb_refl.
  unfold HeartbeatState_eta. cbn. f_equal. rewrite alter_app_r_alt by done. by rewrite Nat.sub_diag.
Qed.

(** What a batch of due groups promises to the loop that starts it. *)
Definition batch_ok {A} (active : list (string * ActiveHeartbeatWakeTarget)) (batch : list (string * A)) : Prop :=
  NoDup batch.*1 ∧ (∀ k, k ∈ batch.*1 → JsMap.get k active = None) ∧
  (length active + length batch ≤ 4)%nat ∧
  (GLOBAL_HEARTBEAT_WAKE_TARGET_KEY ∈ batch.*1 → length batch = 1%nat ∧ active = []) ∧
  (batch ≠ [] → GLOBAL_HEARTBEAT_WAKE_TARGET_KEY ∉ JsMap.keys active).

Lemma startBatch_ok now batch s :
  heart_ok s → batch_ok s.(activeWakeTargets) batch → (∀ b, b ∈ batch → b.2 ≠ []) →
  let s' := foldl (startDispatch now) s batch in
  heart_ok s' ∧ s'.(pendingWakes) = s.(pendingWakes) ∧ s'.(timer) = s.(timer) ∧ s'.(handler) = s.(handler).
Proof.
  revert s. induction batch as [|[k ws] batch IH]; intros s Hok Hb Hne; cbv zeta; cbn [foldl]; [done|].
  destruct Hb as (Hnd & Hfree & Hlen & Hg & Hg0). cbn in Hnd, Hlen. apply NoDup_cons in Hnd as [Hk Hnd].
  assert (Hws : ws ≠ []) by (apply (Hne (k, ws)); apply elem_of_cons; by left).
  rewrite startDispatch_eq by done.
  set (x := {| d_generation := s.(handlerGeneration); d_target := k; d_wakes := ws;
               wakeIndex := 0; aborted := false; finished := false |}).
  assert (Hfk : JsMap.get k s.(activeWakeTargets) = None) by (apply Hfree; apply elem_of_cons; by left).
  assert (Hkeys : ∀ j, j ∈ batch.*1 → j ≠ GLOBAL_HEARTBEAT_WAKE_TARGET_KEY ∧ k ≠ GLOBAL_HEARTBEAT_WAKE_TARGET_KEY).
  { intros j Hj. assert (Hl2 : length batch ≠ 0%nat) by (destruct batch; [by apply not_elem_of_nil in Hj|done]).
    split; intros ->; (destruct Hg as [Hl _]; [apply elem_of_cons; first [by left|by right]|cbn in Hl; lia]). }
  edestruct IH as (H1 & H2 & H3 & H4); [| | |split_and!; [exact H1|exact H2|exact H3|exact H4]].
  - destruct Hok as [Hp Ha]. constructor; [done|]. cbn. apply (act_ok_start x); [done..| |lia| |].
    + cbn. destruct ws; [done|cbn; lia].
    + by apply Hg0.
    + cbn. intros Hkg. apply Hg. apply elem_of_cons. by left.
  - cbn. unfold batch_ok. rewrite (JsMap.set_fresh _ _ _ Hfk), length_app. cbn. split_and!; [done| |lia| |].
    + intros j Hj. rewrite <-(JsMap.set_fresh _ _ _ Hfk), JsMap.get_set_ne; [|intros ->; done].
      apply Hfree. apply elem_of_cons. by right.
    + intros Hj. by destruct (Hkeys _ Hj).
    + intros Hb. unfold JsMap.keys. rewrite fmap_app, elem_of_app. cbn.
      destruct batch as [|[j ?] ?]; [done|]. destruct (Hkeys j) as [_ Hkg]; [apply elem_of_cons; by left|].
      intros [Hin|Hin]; [by apply Hg0|]. apply list_elem_of_singleton in Hin. congruence.
  - intros b Hb. apply Hne. apply elem_of_cons. by right.
Qed.

(** ** The batch *)

Lemma takeLoop_cons maxGroups now active flush cutoff k g rest ready pending :
  takeLoop maxGroups now active flush cutoff ((k, g) :: rest) ready pending =
    if maxGroups <=? Z.of_nat (length ready) then (ready, pending)
    else if (JsMap.has k active || negb (reached g.(blockedUntilMs) now))
            || (bool_decide (k = GLOBAL_HEARTBEAT_WAKE_TARGET_KEY)
                && negb (bool_decide (active = []) && bool_decide (ready = [])))
    then takeLoop maxGroups now active flush cutoff rest ready pending
    else
      let take := takable k cutoff flush now in
      takeLoop maxGroups now active flush cutoff rest
        (if nonemptyGroup (filterGroup take g) then ready ++ [(k, filterGroup take g)] else ready)
        (if nonemptyGroup (filterGroup (λ w, negb (take w)) g)
         then JsMap.set k (filterGroup (λ w, negb (take w)) g) pending else JsMap.delete k pending).
Proof. unfold takeLoop; fold takeLoop. destruct (_ <=? _); [done|]. by destruct (_ || negb _), (_ && _). Qed.

(** The global target is only ever last, or has nothing to take. *)
Definition global_last (flush : bool) (cutoff : option Z) (now : Z)
    (entries : list (string * PendingWakeGroup)) : Prop :=
  ∀ l1 g l2, entries = l1 ++ (GLOBAL_HEARTBEAT_WAKE_TARGET_KEY, g) :: l2 →
    l2 = [] ∨ reached g.(blockedUntilMs) now = false ∨
    nonemptyGroup (filterGroup (takable GLOBAL_HEARTBEAT_WAKE_TARGET_KEY cutoff flush now) g) = false.

Lemma takeLoop_ok maxGroups now active flush cutoff entries ready pending :
  Z.of_nat (length active) + maxGroups ≤ 4 →
  GLOBAL_HEARTBEAT_WAKE_TARGET_KEY ∉ JsMap.keys active →
  NoDup (JsMap.keys entries) → (∀ k, k ∈ JsMap.keys entries → k ∉ ready.*1) →
  global_last flush cutoff now entries →
  NoDup ready.*1 → (∀ k, k ∈ ready.*1 → JsMap.get k active = None) →
  Z.of_nat (length ready) ≤ maxGroups →
  (GLOBAL_HEARTBEAT_WAKE_TARGET_KEY ∈ ready.*1 → length ready = 1%nat ∧ active = [] ∧ entries = []) →
  (∀ b, b ∈ ready → nonemptyGroup b.2 = true) → pending_ok pending →
  let res := takeLoop maxGroups now active flush cutoff entries ready pending in
  batch_ok active res.1 ∧ (∀ b, b ∈ res.1 → nonemptyGroup b.2 = true) ∧ pending_ok res.2.
Proof.
  intros Hmax Hga. revert ready pending. induction entries as [|[k g] entries IH];
    intros ready pending Hnd Hdis Hlast Hr Hfree Hlen Hg Hne Hp; cbv zeta.
  { unfold takeLoop. cbn. split; [|done]. unfold batch_ok. split_and!; [done..|lia|naive_solver|done]. }
  rewrite takeLoop_cons. destruct (Z.leb_spec maxGroups (Z.of_nat (length ready))) as [Hle|Hlt].
  { cbn. split; [|done]. unfold batch_ok. split_and!; [done..|lia|naive_solver|done]. }
  cbn in Hnd. apply NoDup_cons in Hnd as [Hk Hnd].
  assert (Hlast' : global_last flush cutoff now entries).
  { intros l1 g' l2 ->. by apply (Hlast ((k, g) :: l1)). }
  assert (Hg' : GLOBAL_HEARTBEAT_WAKE_TARGET_KEY ∉ ready.*1) by (intros Hin; by apply Hg in Hin as (_ & _ & ?)).
  assert (Hkr : k ∉ ready.*1) by (apply Hdis; apply elem_of_cons; by left).
  assert (Hdis' : ∀ j, j ∈ JsMap.keys entries → j ∉ ready.*1).
  { intros j Hj. apply Hdis. apply elem_of_cons. by right. }
  destruct ((_ || _) || _) eqn:Eskip; [by apply IH|].
  apply orb_false_iff in Eskip as [[Hka Hb]%orb_false_iff Hkg]. cbv zeta.
  assert (Hkn : JsMap.get k active = None).
  { apply JsMap.get_None_keys. rewrite JsMap.has_keys in Hka. by apply bool_decide_eq_false in Hka. }
  assert (Hp' : pending_ok (if nonemptyGroup (filterGroup (λ w, negb (takable k cutoff flush now w)) g)
     then JsMap.set k (filterGroup (λ w, negb (takable k cutoff flush now w)) g) pending
     else JsMap.delete k pending)).
  { destruct (nonemptyGroup _) eqn:E; [by apply pending_ok_set|by apply pending_ok_delete]. }
  destruct (nonemptyGroup (filterGroup (takable k cutoff flush now) g)) eqn:Er; [|by apply IH].
  apply IH; [done| |done| | | | | |done].
  - intros j Hj. rewrite fmap_app, elem_of_app. cbn. intros [Hin|Hin]; [by eapply Hdis'|].
    apply list_elem_of_singleton in Hin as ->. done.
  - rewrite fmap_app. cbn. apply NoDup_app. split; [done|]. split; [|apply NoDup_singleton].
    intros j Hj Hin. apply list_elem_of_singleton in Hin as ->. done.
  - intros j. rewrite fmap_app, elem_of_app. cbn. intros [Hin|Hin]; [by apply Hfree|].
    by apply list_elem_of_singleton in Hin as ->.
  - rewrite length_app. cbn. lia.
  - rewrite fmap_app, elem_of_app, length_app. cbn. intros [Hin|Hin]; [done|].
    apply list_elem_of_singleton in Hin as <-. rewrite bool_decide_true in Hkg by done.
    apply negb_false_iff, andb_true_iff in Hkg as [->%bool_decide_eq_true ->%bool_decide_eq_true].
    split_and!; [done..|]. destruct (Hlast [] g entries eq_refl) as [?|[?|?]]; [done| |congruence].
    by destruct (reached g.(blockedUntilMs) now).
  - intros b [Hin|Hin]%elem_of_app; [by apply Hne|]. by apply list_elem_of_singleton in Hin as ->.
Qed.

Lemma keepIf_none f slot : (∀ w, slot = Some w → f w = false) → keepIf f slot = None.
Proof. destruct slot as [w|]; [|done]. intros H. cbn. by rewrite H. Qed.

Lemma flush_ready s now :
  flushPendingCoalescing s now = true → isHeartbeatWakeTargetGroupReady (globalGroup s) now = true.
Proof.
  unfold flushPendingCoalescing, globalImmediate. destruct (globalGroup s) as [g|]; [|done]. cbn.
  destruct g.(event) as [w|] eqn:Ee; [|done]. destruct (bool_decide _); [|done].
  intros [[[_ Hb]%andb_true_iff Hr]%andb_true_iff Hn]%andb_true_iff. rewrite Hb. cbn.
  unfold groupWakes. rewrite Ee. rewrite !existsb_app. cbn. rewrite Hr, Hn. cbn. by rewrite !orb_true_r.
Qed.

Lemma not_ready_nothing g now cutoff :
  isHeartbeatWakeTargetGroupReady (Some g) now = false →
  reached g.(blockedUntilMs) now = false ∨
  nonemptyGroup (filterGroup (takable GLOBAL_HEARTBEAT_WAKE_TARGET_KEY cutoff false now) g) = false.
Proof.
  cbn. destruct (reached g.(blockedUntilMs) now); [|by left]. cbn. intros H. right.
  unfold groupWakes in H. rewrite !existsb_app in H.
  apply orb_false_iff in H as [H1 [H2 H3]%orb_false_iff]. unfold nonemptyGroup. cbn.
  rewrite !keepIf_none; [done|..]; intros w Hw; unfold takable; rewrite not_after_barrier_global; cbn.
  - rewrite Hw in H3. cbn in H3. by rewrite orb_false_r in H3.
  - rewrite Hw in H2. cbn in H2. by rewrite orb_false_r in H2.
  - rewrite Hw in H1. cbn in H1. by rewrite orb_false_r in H1.
Qed.

Lemma entries_in s now k g :
  (k, g) ∈ pendingEntries s now → (k, g) ∈ s.(pendingWakes).
Proof.
  unfold pendingEntries. destruct (isHeartbeatWakeTargetGroupReady _ _); [|done].
  destruct (flushPendingCoalescing s now).
  - intros [[_ ?]%list_elem_of_filter|[_ ?]%list_elem_of_filter]%elem_of_app; done.
  - unfold globalGroup. destruct (JsMap.get _ _) as [g0|] eqn:E; [|by intros ?%not_elem_of_nil].
    intros [= -> ->]%list_elem_of_singleton. by apply JsMap.get_elem.
Qed.

Lemma entries_NoDup s now : NoDup (JsMap.keys s.(pendingWakes)) → NoDup (JsMap.keys (pendingEntries s now)).
Proof.
  intros Hn. unfold pendingEntries. destruct (isHeartbeatWakeTargetGroupReady _ _); [|done].
  destruct (flushPendingCoalescing s now).
  - eapply NoDup_Permutation_proper; [|exact Hn]. unfold JsMap.keys. apply fmap_Permutation.
    etrans; [apply Permutation_app_comm|].
    apply (filter_app_complement (λ e : string * PendingWakeGroup, e.1 = GLOBAL_HEARTBEAT_WAKE_TARGET_KEY)).
  - destruct (globalGroup s); [apply NoDup_singleton|constructor].
Qed.

Lemma singleton_filter {A} (f : A → string) (k : string) (l : list A) :
  NoDup (f <$> l) → filter (λ e, f e = k) l = [] ∨ ∃ x, filter (λ e, f e = k) l = [x].
Proof.
  induction l as [|x l IH]; [by left|]. rewrite fmap_cons, filter_cons. intros [Hx Hn]%NoDup_cons.
  case_decide as Hk; [|by apply IH]. right. exists x. f_equal.
  assert (H : ∀ y, y ∉ filter (λ e, f e = k) l).
  { intros y [Hy Hin]%list_elem_of_filter. apply Hx. rewrite Hk, <-Hy. by apply list_elem_of_fmap_2. }
  destruct (filter _ l) as [|y r]; [done|]. exfalso. apply (H y), elem_of_cons. by left.
Qed.

Lemma entries_global_last s now :
  NoDup (JsMap.keys s.(pendingWakes)) →
  global_last (flushPendingCoalescing s now) (barrierCutoff s) now (pendingEntries s now).
Proof.
  intros Hn l1 g l2 E. unfold pendingEntries in E.
  destruct (isHeartbeatWakeTargetGroupReady (globalGroup s) now) eqn:Er.
  - destruct (flushPendingCoalescing s now) eqn:Ef.
    + left. destruct l2 as [|y l2 _] using rev_ind; [done|exfalso].
      assert (Hno : ∀ l3, filter (λ e : string * PendingWakeGroup, e.1 ≠ GLOBAL_HEARTBEAT_WAKE_TARGET_KEY) s.(pendingWakes)
                      ≠ l1 ++ (GLOBAL_HEARTBEAT_WAKE_TARGET_KEY, g) :: l3).
      { intros l3 H. assert (Hin : (GLOBAL_HEARTBEAT_WAKE_TARGET_KEY, g) ∈
          filter (λ e : string * PendingWakeGroup, e.1 ≠ GLOBAL_HEARTBEAT_WAKE_TARGET_KEY) s.(pendingWakes)).
        { rewrite H. apply elem_of_app. right. apply elem_of_cons. by left. }
        by apply list_elem_of_filter in Hin as [? _]. }
      destruct (singleton_filter fst GLOBAL_HEARTBEAT_WAKE_TARGET_KEY s.(pendingWakes) Hn) as [Hs|[x Hs]];
        rewrite Hs in E; [rewrite app_nil_r in E; by eapply Hno|].
      rewrite app_comm_cons, app_assoc in E. apply app_inj_tail in E as [E _]. by eapply Hno.
    + destruct (globalGroup s) as [g0|]; [|by destruct l1]. left.
      destruct l1 as [|? [|]]; cbn in E; [by injection E as _ <-|done|done].
  - right. assert (Ef : flushPendingCoalescing s now = false).
    { apply not_true_iff_false. intros H%flush_ready. congruence. }
    rewrite Ef. apply not_ready_nothing.
    assert (Hin : (GLOBAL_HEARTBEAT_WAKE_TARGET_KEY, g) ∈ s.(pendingWakes)).
    { rewrite E. apply elem_of_app. right. apply elem_of_cons. by left. }
    rewrite <-Er. unfold globalGroup. by rewrite (JsMap.elem_get _ _ _ Hn Hin).
Qed.

Lemma batchWakes_nonempty g : nonemptyGroup g = true → batchWakes g ≠ [].
Proof.
  destruct g as [t sw e b]. unfold batchWakes. cbn.
  destruct t, e; [destruct (eventFirst _ _)| | |destruct sw]; done.
Qed.

Lemma batch_ok_fmap {A B} (f : A → B) active (batch : list (string * A)) :
  batch_ok active batch → batch_ok active (prod_map id f <$> batch).
Proof.
  unfold batch_ok. assert (E : (prod_map id f <$> batch).*1 = batch.*1).
  { rewrite <-list_fmap_compose. by apply list_fmap_ext. }
  rewrite E, length_fmap. intros (? & ? & ? & ? & H). split_and!; [done..|]. intros Hne. apply H.
  by destruct batch.
Qed.

Lemma batch_ok_nil {A} active ds : act_ok active ds → batch_ok (A := A) active [].
Proof.
  intros Hok. unfold batch_ok. pose proof (ao_bound _ _ Hok). cbn.
  split_and!; [constructor|by intros k ?%not_elem_of_nil|lia|by intros ?%not_elem_of_nil|done].
Qed.

Lemma takeBatch_cases n now s batch s' :
  takePendingWakeBatch n now s = (batch, s') →
  (batch = [] ∧ s' = s ∧
     (n ≤ 0 ∨ globalActive s = true ∨ isHeartbeatWakeTargetGroupReady (globalGroup s) now = true)) ∨
  (0 < n ∧ globalActive s = false ∧
   ∃ ready pending, takeLoop n now s.(activeWakeTargets) (flushPendingCoalescing s now) (barrierCutoff s)
       (pendingEntries s now) [] s.(pendingWakes) = (ready, pending) ∧
     batch = (prod_map id batchWakes <$> ready) ∧ s' = s <| pendingWakes := pending |>).
Proof.
  unfold takePendingWakeBatch. destruct (Z.leb_spec n 0); [intros [= <- <-]; left; auto|].
  destruct (globalActive s) eqn:Ega; [intros [= <- <-]; left; auto|].
  destruct (_ && _) eqn:Erdy; [apply andb_true_iff in Erdy as [Erdy _]; intros [= <- <-]; left; auto|].
  destruct (takeLoop _ _ _ _ _ _ _ _) as [ready pending]. intros [= <- <-]. right. split_and!; [done..|eauto].
Qed.

Lemma takeBatch_ok now s batch s' :
  heart_ok s →
  takePendingWakeBatch (4 - Z.of_nat (JsMap.size s.(activeWakeTargets))) now s = (batch, s') →
  heart_ok s' ∧ batch_ok s.(activeWakeTargets) batch ∧ (∀ b, b ∈ batch → b.2 ≠ []) ∧
  s'.(activeWakeTargets) = s.(activeWakeTargets) ∧ s'.(timer) = s.(timer) ∧ s'.(handler) = s.(handler).
Proof.
  intros Hok [(-> & -> & _)|(_ & Ega & ready & pending & Eb & -> & ->)]%takeBatch_cases.
  { split; [done|]. split; [by eapply batch_ok_nil, Hok|]. split; [by intros b ?%not_elem_of_nil|done]. }
  pose proof (takeLoop_ok (4 - Z.of_nat (JsMap.size s.(activeWakeTargets))) now s.(activeWakeTargets)
    (flushPendingCoalescing s now) (barrierCutoff s) (pendingEntries s now) [] s.(pendingWakes)) as H.
  rewrite Eb in H. unfold globalActive in Ega. rewrite JsMap.has_keys in Ega. apply bool_decide_eq_false in Ega.
  pose proof (ao_bound _ _ (ho_act _ Hok)) as Hb. unfold JsMap.size in H.
  destruct H as (H1 & H2 & H3); [lia|done|apply entries_NoDup, Hok|by intros ? ? ?%not_elem_of_nil
    |apply entries_global_last, Hok|constructor|by intros ? ?%not_elem_of_nil|cbn; lia
    |by intros ?%not_elem_of_nil|by intros ? ?%not_elem_of_nil|apply Hok|].
  cbn in H1, H2, H3. split; [by constructor; [|apply Hok]|]. split; [by apply batch_ok_fmap|]. split; [|done].
  intros b Hin. apply list_elem_of_fmap in Hin as ([k g] & -> & Hin). by apply batchWakes_nonempty, (H2 (k, g)).
Qed.

Lemma timerFires_ok now s : heart_ok s → armed s → heart_ok (timerFires now s) ∧ armed (timerFires now s).
Proof.
  intros Hok Ha. unfold timerFires. destruct s.(timer) as [t|] eqn:Et; [|done].
  assert (Hok0 : heart_ok (s <| timer := None |>)) by (destruct Hok; by constructor).
  set (s0 := s <| timer := None |>) in *. cbv zeta. destruct s0.(handler) as [h|] eqn:Eh; [|by split; [|intros ?]].
  unfold MAX_CONCURRENT_HEARTBEAT_WAKE_TARGETS.
  destruct (takePendingWakeBatch _ now s0) as [batch s1] eqn:Eb.
  destruct (takeBatch_ok now s0 batch s1 Hok0 Eb) as (Hok1 & Hb & Hne & Eact & _ & _).
  rewrite <-Eact in Hb. destruct (startBatch_ok now batch s1 Hok1 Hb Hne) as (Hok2 & _).
  split; [by apply ok_schedule|]. apply armed_schedule, Hok2.
Qed.

Lemma abort_fold_ok gen (l : list (string * ActiveHeartbeatWakeTarget)) s :
  act_ok s.(activeWakeTargets) s.(dispatches) →
  let s' := foldl (λ s kv,
    if kv.2.(generation) =? gen
    then s <| dispatches ::= alter (λ x, x <| aborted := true |>) kv.2.(abortController) |> else s) s l in
  act_ok s'.(activeWakeTargets) s'.(dispatches) ∧ s'.(pendingWakes) = s.(pendingWakes) ∧
  s'.(handler) = s.(handler).
Proof.
  cbv zeta. revert s. induction l as [|[k a] l IH]; intros s Hok; cbn [foldl]; [done|]. cbn [snd].
  destruct (_ =? _); [|by apply IH].
  destruct (IH (s <| dispatches ::= alter (λ x, x <| aborted := true |>) a.(abortController) |>)) as (H1 & H2 & H3).
  - cbn. apply act_ok_alter; [done|]. intros y Hy. cbn. split_and!; [done..|]. intros Hf.
    by apply (ao_index _ _ Hok a.(abortController)).
  - by rewrite H2, H3.
Qed.

Lemma abort_ok gen s :
  act_ok s.(activeWakeTargets) s.(dispatches) →
  let s' := abortHeartbeatWakeGeneration gen s in
  act_ok s'.(activeWakeTargets) s'.(dispatches) ∧ s'.(pendingWakes) = s.(pendingWakes) ∧
  s'.(handler) = s.(handler).
Proof. apply abort_fold_ok. Qed.

Lemma register_schedule now s :
  heart_ok s →
  let s' := match s.(handler), s.(pendingWakes) with
            | Some _, _ :: _ => schedulePendingWakes now DEFAULT_COALESCE_MS s
            | _, _ => s
            end in
  heart_ok s' ∧ armed s'.
Proof.
  intros Hok. cbv zeta. destruct s.(handler) as [h|] eqn:Eh; [|split; [done|intros ?; congruence]].
  destruct s.(pendingWakes) as [|p m] eqn:Ep; [split; [done|intros _ ?; congruence]|]. split.
  - eapply core_ok; [done|apply schedulePending_core|]. rewrite schedulePending_pending. apply Hok.
  - intros _ _. destruct (schedulePending_core now DEFAULT_COALESCE_MS s) as (_ & _ & -> & _).
    apply schedulePending_armed; [apply Hok|by rewrite Ep].
Qed.

Lemma setHandler_ok now next s :
  heart_ok s → heart_ok (setHeartbeatWakeHandler now next s) ∧ armed (setHeartbeatWakeHandler now next s).
Proof.
  intros [Hp Ha]. unfold setHeartbeatWakeHandler. apply register_schedule.
  set (s0 := s <| handlerGeneration ::= λ g, g + 1 |> <| handler := next |>).
  destruct (abort_ok s.(handlerGeneration) s0 Ha) as (A1 & A2 & A3).
  assert (Hp' : pending_ok (abortHeartbeatWakeGeneration s.(handlerGeneration) s0).(pendingWakes)) by (by rewrite A2).
  constructor; [|destruct next; exact A1]. destruct next; [apply clear_ok|]; exact Hp'.
Qed.

Lemma dispose_ok gen next s : heart_ok s → armed s → heart_ok (disposeHandler gen next s) ∧ armed (disposeHandler gen next s).
Proof.
  intros [Hp Ha] Harm. unfold disposeHandler. destruct (negb _); [done|]. destruct (negb _); [done|].
  destruct (abort_ok gen s Ha) as (A1 & A2 & A3). split; [|intros Hh; exfalso; by apply Hh]. constructor; cbn; [by rewrite A2|exact A1].
Qed.

Lemma retry_heart_ok now p r s :
  heart_ok s → heart_ok (retryPendingWake now p r s) ∧ armed (retryPendingWake now p r s).
Proof.
  intros Hok. split; [eapply core_ok; [done|apply retry_core|apply retry_ok, Hok]|].
  intros _ _. right. destruct r as [delay defer]. apply schedule_armed.
Qed.

Lemma request_ok now w c s :
  heart_ok s → heart_ok (requestHeartbeat now w c s) ∧ armed (requestHeartbeat now w c s).
Proof.
  intros Hok. unfold requestHeartbeat. cbv zeta. split; [|intros _ _; right; apply schedule_armed].
  eapply core_ok; [done|etrans; [apply queue_core|apply schedule_core]|].
  rewrite schedule_pending. apply queue_ok, Hok.
Qed.

Inductive heart_reachable : HeartbeatState → Prop :=
| heart_new : heart_reachable initialHeartbeat
| heart_next e s : heart_reachable s → heart_reachable (heartbeatEvent e s).

Lemma heart_reachable_ok s : heart_reachable s → heart_ok s ∧ armed s.
Proof.
  induction 1 as [|e s _ [IH Ia]].
  - split; [|by intros ?]. constructor; [split; [constructor|done]|apply act_ok_new].
  - destruct e as [now w c|now wall w r at_|now next|gen next|now|now wall d o|b]; cbn [heartbeatEvent].
    + by apply request_ok.
    + by apply retry_heart_ok.
    + by apply setHandler_ok.
    + by apply dispose_ok.
    + by apply timerFires_ok.
    + by apply finishTurn_ok.
    + by destruct IH.
Qed.

(** ** The wakes of a group *)

Definition wakeJobs (w : PendingWakeReason) : list string := jobId <$> w.(tasks).

(** A wake pending for a target. *)
Definition pendingAt (m : list (string * PendingWakeGroup)) (k : string) (w : PendingWakeReason) : Prop :=
  ∃ g, JsMap.get k m = Some g ∧ w ∈ groupWakes g.

Lemma elem_of_groupWakes w g :
  w ∈ groupWakes g ↔ g.(task) = Some w ∨ g.(scheduled) = Some w ∨ g.(event) = Some w.
Proof.
  unfold groupWakes. rewrite !elem_of_app. destruct g as [[t|] [c|] [e|] b]; cbn;
    rewrite ?list_elem_of_singleton, ?elem_of_nil; naive_solver.
Qed.

Lemma setSlot_elem i w' w g : w ∈ groupWakes g → w ∈ groupWakes (setSlot i w' g) ∨ slotOf i g = Some w.
Proof. rewrite !elem_of_groupWakes. destruct i; cbn; naive_solver. Qed.

Lemma setSlot_new i w g : w ∈ groupWakes (setSlot i w g).
Proof. rewrite elem_of_groupWakes. destruct i; cbn; naive_solver. Qed.

Lemma setSlot_old i w' w g : w ∈ groupWakes (setSlot i w' g) → w = w' ∨ w ∈ groupWakes g.
Proof. rewrite !elem_of_groupWakes. destruct i; cbn; naive_solver. Qed.

Lemma slotOf_elem i w g : slotOf i g = Some w → w ∈ groupWakes g.
Proof. rewrite elem_of_groupWakes. destruct i; cbn; naive_solver. Qed.

Lemma filterGroup_split f w g :
  w ∈ groupWakes g →
  w ∈ groupWakes (filterGroup f g) ∨ w ∈ groupWakes (filterGroup (λ w, negb (f w)) g).
Proof.
  rewrite !elem_of_groupWakes. cbn. destruct (f w) eqn:E.
  - intros [->|[->| ->]]; cbn; rewrite E; cbn; naive_solver.
  - intros [->|[->| ->]]; cbn; rewrite E; cbn; naive_solver.
Qed.

Lemma filterGroup_elem f w g : w ∈ groupWakes (filterGroup f g) → w ∈ groupWakes g ∧ f w = true.
Proof.
  rewrite !elem_of_groupWakes. cbn.
  assert (H : ∀ slot, keepIf f slot = Some w → slot = Some w ∧ f w = true).
  { intros [v|]; cbn; [|done]. destruct (f v) eqn:E; [|done]. by intros [= ->]. }
  intros [Hw|[Hw|Hw]]; apply H in Hw as [-> ?]; naive_solver.
Qed.

Lemma nonempty_has g : nonemptyGroup g = true ↔ ∃ w, w ∈ groupWakes g.
Proof.
  setoid_rewrite elem_of_groupWakes. destruct g as [[] [] [] b]; cbn; naive_solver.
Qed.

(** *** Merging keeps the jobs *)

Lemma foldl_set_jobs ts (m : list (string * HeartbeatScheduledTask)) :
  (∀ k t, (k, t) ∈ m → t.(jobId) = k) → NoDup (JsMap.keys m) →
  let m' := foldl (λ m t, JsMap.set t.(jobId) t m) m ts in
  (∀ k t, (k, t) ∈ m' → t.(jobId) = k) ∧
  ∀ j, j ∈ JsMap.keys m' ↔ j ∈ JsMap.keys m ∨ j ∈ jobId <$> ts.
Proof.
  cbv zeta. revert m. induction ts as [|t ts IH]; intros m Hm Hn; cbn [foldl].
  { split; [done|]. intros j. cbn. rewrite elem_of_nil. tauto. }
  destruct (IH (JsMap.set t.(jobId) t m)) as [H1 H2].
  - intros k u Hin. assert (Hg : JsMap.get k (JsMap.set t.(jobId) t m) = Some u).
    { apply JsMap.elem_get; [by apply JsMap.NoDup_keys_set|done]. }
    rewrite JsMap.get_set in Hg. case_decide; [by injection Hg as <-|]. by eapply Hm, JsMap.get_elem.
  - by apply JsMap.NoDup_keys_set.
  - split; [done|]. intros j. rewrite H2, JsMap.elem_keys_set, fmap_cons, elem_of_cons. tauto.
Qed.

Lemma mergeTasks_jobs a b j :
  j ∈ jobId <$> mergeTasks a b ↔ j ∈ jobId <$> a ∨ j ∈ jobId <$> b.
Proof.
  unfold mergeTasks. rewrite merge_sort_Permutation.
  destruct (foldl_set_jobs (a ++ b) []) as [H1 H2]; [by intros ? ? ?%not_elem_of_nil|constructor|].
  set (m := foldl _ [] _) in *. clearbody m.
  assert (E : jobId <$> JsMap.values m = JsMap.keys m).
  { unfold JsMap.values, JsMap.keys. rewrite <-list_fmap_compose. apply list_fmap_ext.
    intros i [k t] Hi. cbn. by apply H1, list_elem_of_lookup_2 with i. }
  rewrite E, H2, fmap_app, elem_of_app. cbn. rewrite elem_of_nil. tauto.
Qed.

Lemma merge_jobs a b j :
  j ∈ wakeJobs (mergePendingWakeReasons a b) ↔ j ∈ wakeJobs a ∨ j ∈ wakeJobs b.
Proof.
  unfold wakeJobs. rewrite <-mergeTasks_jobs. unfold mergePendingWakeReasons. cbn.
  destruct (mergeTasks a.(tasks) b.(tasks)) as [|t ts] eqn:E; [|done].
  assert (H : ∀ j, j ∉ jobId <$> a.(tasks) ∧ j ∉ jobId <$> b.(tasks)).
  { intros i. split; intros Hi; assert (Hn : i ∈ jobId <$> mergeTasks a.(tasks) b.(tasks))
      by (apply mergeTasks_jobs; tauto); rewrite E in Hn; by apply not_elem_of_nil in Hn. }
  destruct (H j). cbn. rewrite elem_of_nil. by destruct (prefersNext a b).
Qed.

(** *** Queueing keeps the jobs *)

Lemma queue_at now p s k w j :
  (pendingAt s.(pendingWakes) k w ∧ j ∈ wakeJobs w ∨ k = paramsTarget p ∧ j ∈ jobId <$> p.(q_tasks)) →
  ∃ w', pendingAt (queuePendingWakeReason now p s).(pendingWakes) k w' ∧ j ∈ wakeJobs w'.
Proof.
  unfold queuePendingWakeReason. cbv zeta. set (s1 := match p.(q_enqueueSequence) with Some _ => s | None => _ end).
  assert (Es : s1.(pendingWakes) = s.(pendingWakes)) by (unfold s1; by destruct p.(q_enqueueSequence)).
  clearbody s1. cbn [pendingWakes update_field]. rewrite Es. cbn -[groupWakes].
  set (g0 := default emptyGroup (JsMap.get (paramsTarget p) s.(pendingWakes))).
  set (g1 := match p.(q_blockTargetUntilMs) with Some _ => _ | None => g0 end).
  set (next := makeWake _ _ p).
  assert (E1 : groupWakes g1 = groupWakes g0 ∧ slotOf p.(q_intent) g1 = slotOf p.(q_intent) g0).
  { unfold g1. destruct p.(q_blockTargetUntilMs); [|done]. by destruct p.(q_intent). }
  destruct E1 as [E1 E2]. clearbody g1. unfold pendingAt.
  set (nw := match slotOf p.(q_intent) g1 with None => next | Some previous => _ end).
  assert (Hn : ∀ i, i ∈ wakeJobs next ∨ (∃ v, slotOf p.(q_intent) g1 = Some v ∧ i ∈ wakeJobs v) → i ∈ wakeJobs nw).
  { intros i H. unfold nw. destruct (slotOf _ g1) as [v|].
    - apply merge_jobs. destruct H as [H|(? & [= ->] & H)]; tauto.
    - destruct H as [H|(? & ? & H)]; done. }
  intros [[(g & Hg & Hw) Hj]|[-> Hj]].
  - destruct (decide (k = paramsTarget p)) as [->|Hne].
    + assert (g0 = g) as <- by (unfold g0; by rewrite Hg).
      rewrite <-E1 in Hw. apply (setSlot_elem p.(q_intent) nw) in Hw as [Hw|Hs].
      * exists w. split; [|done]. eexists. split; [apply JsMap.get_set_eq|done].
      * exists nw. split; [|apply Hn; right; eauto]. eexists. split; [apply JsMap.get_set_eq|apply setSlot_new].
    + exists w. split; [|done]. exists g. by rewrite JsMap.get_set_ne.
  - exists nw. split; [|apply Hn; by left]. eexists. split; [apply JsMap.get_set_eq|apply setSlot_new].
Qed.

(** A job of some pending wake. *)
Definition pendingJob (s : HeartbeatState) (j : string) : Prop :=
  ∃ k w, pendingAt s.(pendingWakes) k w ∧ j ∈ wakeJobs w.

(** A job of a wake that a dispatch still has to finish. *)
Definition runningJob (s : HeartbeatState) (j : string) : Prop :=
  ∃ d x w, live s.(dispatches) d x ∧ w ∈ drop x.(wakeIndex) x.(d_wakes) ∧ j ∈ wakeJobs w.

Definition owesJob (s : HeartbeatState) (j : string) : Prop := pendingJob s j ∨ runningJob s j.

(** A target with pending or running work. *)
Definition busyTarget (s : HeartbeatState) (k : string) : Prop :=
  k ∈ JsMap.keys s.(pendingWakes) ∨ k ∈ JsMap.keys s.(activeWakeTargets).

Lemma queue_jobs now p s j :
  pendingJob s j ∨ j ∈ jobId <$> p.(q_tasks) → pendingJob (queuePendingWakeReason now p s) j.
Proof.
  intros [(k & w & Hp & Hj)|Hj].
  - destruct (queue_at now p s k w j) as (w' & ? & ?); [by left|]. by exists k, w'.
  - assert (Hp : ∃ w', pendingAt (queuePendingWakeReason now p s).(pendingWakes) (paramsTarget p) w' ∧ j ∈ wakeJobs w').
    { unfold queuePendingWakeReason. cbv zeta. cbn -[groupWakes]. unfold pendingAt.
      eexists. split; [eexists; split; [apply JsMap.get_set_eq|apply setSlot_new]|].
      destruct (slotOf _ _); [apply merge_jobs; by right|done]. }
    destruct Hp as (w' & ? & ?). by exists (paramsTarget p), w'.
Qed.

Lemma pendingJob_same s s' j : s'.(pendingWakes) = s.(pendingWakes) → pendingJob s j → pendingJob s' j.
Proof. unfold pendingJob. by intros ->. Qed.

Lemma retry_jobs now p r s j :
  pendingJob s j ∨ j ∈ jobId <$> p.(q_tasks) → pendingJob (retryPendingWake now p r s) j.
Proof.
  intros H. destruct r as [delay defer]. cbn [retryPendingWake]. cbv zeta.
  eapply pendingJob_same; [apply schedule_pending|]. by apply queue_jobs.
Qed.

Lemma queue_all_jobs now ws s j :
  pendingJob s j ∨ (∃ w, w ∈ ws ∧ j ∈ wakeJobs w) →
  pendingJob (foldl (λ s w, queuePendingWakeReason now (pendingParams w) s) s ws) j.
Proof.
  revert s. induction ws as [|v ws IH]; intros s H; cbn [foldl].
  - destruct H as [H|(w & ?%not_elem_of_nil & _)]; done.
  - apply IH. destruct H as [H|(w & [->|Hw]%elem_of_cons & Hj)]; [left; apply queue_jobs; by left| |eauto].
    left. apply queue_jobs. by right.
Qed.

Lemma handOff_jobs now l i s j :
  pendingJob s j ∨ (∃ w, w ∈ drop i l ∧ j ∈ wakeJobs w) → pendingJob (handOffPendingWakeBatch now l i s) j.
Proof. intros H. eapply pendingJob_same; [apply handOff_pending|]. by apply queue_all_jobs. Qed.

(** The wakes that a turn leaves pending. *)
Definition outcomeRetains (w : PendingWakeReason) (o : Outcome) : bool :=
  match o with
  | Thrown => true
  | Returned r => retainsWake w r
  end.

Lemma afterTurn_cases now wall w o s :
  (outcomeRetains w o = true ∧ ∃ r, afterTurn now wall w o s = retryPendingWake now (pendingParams w) r s) ∨
  (outcomeRetains w o = false ∧ afterTurn now wall w o s = s).
Proof.
  destruct o as [[|reason r|reason]|]; cbn [outcomeRetains retainsWake afterTurn];
    [by right| |by right|left; eauto].
  destruct (isRetryableHeartbeatSkipReason reason); [left; split; [done|eauto]|]. cbn [orb].
  destruct (isRetryableGuardSkipReason reason && guardRetains w); [left; eauto|by right].
Qed.

Lemma afterTurn_jobs now wall w o s j :
  pendingJob s j ∨ (outcomeRetains w o = true ∧ j ∈ wakeJobs w) → pendingJob (afterTurn now wall w o s) j.
Proof.
  intros H. destruct (afterTurn_cases now wall w o s) as [(_ & r & ->)|[E ->]].
  - apply retry_jobs. destruct H as [H|[_ H]]; [by left|by right].
  - destruct H as [H|[H _]]; [done|congruence].
Qed.

Lemma endDispatch_frame now d x s :
  heart_ok s → live s.(dispatches) d x →
  (endDispatch now d x s).(pendingWakes) = s.(pendingWakes) ∧
  (endDispatch now d x s).(dispatches) = alter (λ x, x <| finished := true |>) d s.(dispatches) ∧
  (endDispatch now d x s).(activeWakeTargets) = JsMap.delete x.(d_target) s.(activeWakeTargets).
Proof.
  intros Hok Hl. rewrite endDispatch_eq by done. cbv zeta.
  set (s1 := s <| dispatches ::= _ |> <| activeWakeTargets ::= _ |>).
  assert (E : (s1.(pendingWakes) = s.(pendingWakes)) ∧
    s1.(dispatches) = alter (λ x, x <| finished := true |>) d s.(dispatches) ∧
    s1.(activeWakeTargets) = JsMap.delete x.(d_target) s.(activeWakeTargets)) by done.
  clearbody s1. destruct s1.(pendingWakes) eqn:Ep; [by rewrite Ep|].
  destruct (schedulePending_core now 0 s1) as (_ & _ & -> & ->). rewrite schedulePending_pending, Ep. done.
Qed.

Lemma live_other (f : Dispatch → Dispatch) (ds : list Dispatch) d e x :
  e ≠ d → live ds e x → live (alter f d ds) e x.
Proof. intros Hne [He Hf]. split; [|done]. by rewrite list_lookup_alter_ne. Qed.

(** What a dispatch does not finish stays owed. *)
Lemma beginWake_jobs now d x i s j :
  heart_ok s → live s.(dispatches) d x → (x.(wakeIndex) ≤ i)%nat →
  pendingJob s j ∨ (∃ e y w, e ≠ d ∧ live s.(dispatches) e y ∧ w ∈ drop y.(wakeIndex) y.(d_wakes) ∧ j ∈ wakeJobs w) ∨
    (∃ w, w ∈ drop i x.(d_wakes) ∧ j ∈ wakeJobs w) →
  owesJob (beginWake now d x i s) j.
Proof.
  intros Hok Hl Hi H. unfold beginWake. destruct (Nat.ltb_spec i (length x.(d_wakes))) as [Hlt|Hge].
  - destruct (_ =? _).
    + destruct H as [H|[(e & y & w & Hne & He & Hw & Hj)|(w & Hw & Hj)]]; [by left| |].
      * right. exists e, y, w. split; [|done]. by apply live_other.
      * right. exists d, (x <| wakeIndex := i |>), w. split; [|done]. destruct Hl as [Hd Hf]. split; [|done].
        cbn. apply dispatch_alter. exists x. by rewrite decide_True.
    + assert (Hl' : live (handOffPendingWakeBatch now x.(d_wakes) i s).(dispatches) d x).
      { eapply core_live; [apply handOff_core|done]. }
      destruct (endDispatch_frame now d x _ (handOff_ok now x.(d_wakes) i s Hok) Hl') as (E1 & E2 & _).
      destruct H as [H|[(e & y & w & Hne & He & Hw & Hj)|H]].
      * left. eapply pendingJob_same; [exact E1|]. apply handOff_jobs. by left.
      * right. exists e, y, w. split; [|done]. rewrite E2. apply live_other; [done|].
        eapply core_live; [apply handOff_core|done].
      * left. eapply pendingJob_same; [exact E1|]. apply handOff_jobs. by right.
  - destruct (endDispatch_frame now d x s Hok Hl) as (E1 & E2 & _).
    destruct H as [H|[(e & y & w & Hne & He & Hw & Hj)|(w & Hw & _)]].
    + left. by eapply pendingJob_same.
    + right. exists e, y, w. split; [|done]. rewrite E2. by apply live_other.
    + rewrite drop_ge in Hw by done. by apply not_elem_of_nil in Hw.
Qed.

(** What the turn that ends with [o] leaves to do, of wake [i] and behind. *)
Lemma finishTurn_jobs now wall d x w o s j :
  heart_ok s → live s.(dispatches) d x → x.(d_wakes) !! x.(wakeIndex) = Some w →
  owesJob s j → ¬ (outcomeRetains w o = false ∧ j ∈ wakeJobs w) → owesJob (finishTurn now wall d o s) j.
Proof.
  intros Hok Hl Hw Ho Hnc. unfold finishTurn. destruct (Hl) as [Hd Hf]. rewrite Hd, Hf, Hw.
  assert (Hrest : pendingJob s j ∨
    (∃ e y v, e ≠ d ∧ live s.(dispatches) e y ∧ v ∈ drop y.(wakeIndex) y.(d_wakes) ∧ j ∈ wakeJobs v) ∨
    (outcomeRetains w o = true ∧ j ∈ wakeJobs w) ∨ (∃ v, v ∈ drop (S x.(wakeIndex)) x.(d_wakes) ∧ j ∈ wakeJobs v)).
  { destruct Ho as [Ho|(e & y & v & He & Hv & Hj)]; [by left|]. right.
    destruct (decide (e = d)) as [->|Hne]; [right|left; by exists e, y, v].
    assert (y = x) as -> by (destruct He; congruence). rewrite (drop_S _ _ _ Hw) in Hv.
    apply elem_of_cons in Hv as [->|Hv]; [left|right; eauto]. destruct (outcomeRetains w o); [done|]. tauto. }
  destruct (_ =? _).
  - assert (Hl' : live (afterTurn now wall w o s).(dispatches) d x).
    { eapply core_live; [apply afterTurn_core|done]. }
    apply beginWake_jobs; [|done|lia|].
    + eapply core_ok; [done|apply afterTurn_core|]. apply afterTurn_ok, Hok.
    + destruct Hrest as [H|[(e & y & v & Hne & He & Hv & Hj)|[H|H]]].
      * left. apply afterTurn_jobs. by left.
      * right; left. exists e, y, v. split; [done|]. split; [|done].
        eapply core_live; [apply afterTurn_core|done].
      * left. apply afterTurn_jobs. by right.
      * right; by right.
  - fold (outcomeRetains w o).
    set (n := if outcomeRetains w o then x.(wakeIndex) else S x.(wakeIndex)).
    assert (Hl' : live (handOffPendingWakeBatch now x.(d_wakes) n s).(dispatches) d x).
    { eapply core_live; [apply handOff_core|done]. }
    destruct (endDispatch_frame now d x _ (handOff_ok now x.(d_wakes) n s Hok) Hl') as (E1 & E2 & _).
    destruct Hrest as [H|[(e & y & v & Hne & He & Hv & Hj)|[[Hr H]|(v & Hv & Hj)]]].
    + left. eapply pendingJob_same; [exact E1|]. apply handOff_jobs. by left.
    + right. exists e, y, v. split; [|done]. rewrite E2. apply live_other; [done|].
      eapply core_live; [apply handOff_core|done].
    + left. eapply pendingJob_same; [exact E1|]. apply handOff_jobs. right. exists w. split; [|done].
      unfold n. rewrite Hr, (drop_S _ _ _ Hw). apply elem_of_cons. by left.
    + left. eapply pendingJob_same; [exact E1|]. apply handOff_jobs. right. exists v. split; [|done].
      unfold n. destruct (outcomeRetains w o); [|done]. rewrite (drop_S _ _ _ Hw). apply elem_of_cons. by right.
Qed.

(** *** Taking a batch keeps the wakes *)

Lemma takeLoop_wakes maxGroups now active flush cutoff entries ready pending k w :
  NoDup (JsMap.keys entries) → (∀ k g, (k, g) ∈ entries → JsMap.get k pending = Some g) →
  pendingAt pending k w ∨ (∃ g, (k, g) ∈ ready ∧ w ∈ groupWakes g) →
  let res := takeLoop maxGroups now active flush cutoff entries ready pending in
  pendingAt res.2 k w ∨ (∃ g, (k, g) ∈ res.1 ∧ w ∈ groupWakes g).
Proof.
  cbv zeta. revert ready pending. induction entries as [|[k0 g0] entries IH]; intros ready pending Hnd Hin H.
  { done. }
  rewrite takeLoop_cons. destruct (_ <=? _); [done|]. cbn in Hnd. apply NoDup_cons in Hnd as [Hk0 Hnd].
  assert (Hin' : ∀ k g, (k, g) ∈ entries → JsMap.get k pending = Some g).
  { intros k1 g1 H1. apply Hin. apply elem_of_cons. by right. }
  destruct (_ || _); [by apply IH|]. cbv zeta.
  set (take := takable k0 cutoff flush now).
  assert (Hg0 : JsMap.get k0 pending = Some g0) by (apply Hin, elem_of_cons; by left).
  apply IH; [done| |].
  - intros k1 g1 H1. assert (Hne : k1 ≠ k0).
    { intros ->. apply Hk0. apply list_elem_of_fmap. by exists (k0, g1). }
    destruct (nonemptyGroup _); [rewrite JsMap.get_set_ne by done|rewrite JsMap.get_delete_ne by done]; by apply Hin'.
  - destruct H as [(g & Hg & Hw)|(g & Hg & Hw)].
    + destruct (decide (k = k0)) as [->|Hne].
      * rewrite Hg0 in Hg. injection Hg as <-. apply (filterGroup_split take) in Hw as [Hw|Hw].
        -- right. exists (filterGroup take g0). split; [|done].
           assert (E : nonemptyGroup (filterGroup take g0) = true) by (apply nonempty_has; eauto).
           rewrite E. apply elem_of_app. right. by apply list_elem_of_singleton.
        -- left. assert (E : nonemptyGroup (filterGroup (λ w, negb (take w)) g0) = true) by (apply nonempty_has; eauto).
           rewrite E. eexists. split; [apply JsMap.get_set_eq|done].
      * left. exists g. split; [|done].
        destruct (nonemptyGroup _); [by rewrite JsMap.get_set_ne|by rewrite JsMap.get_delete_ne].
    + right. exists g. split; [|done]. destruct (nonemptyGroup _); [|done]. apply elem_of_app. by left.
Qed.

Lemma takeBatch_wakes now n s batch s' k w :
  pending_ok s.(pendingWakes) → takePendingWakeBatch n now s = (batch, s') →
  pendingAt s.(pendingWakes) k w →
  pendingAt s'.(pendingWakes) k w ∨ ∃ g, (k, batchWakes g) ∈ batch ∧ w ∈ groupWakes g.
Proof.
  intros [Hn _] [(-> & -> & _)|(_ & _ & ready & pending & Eb & -> & ->)]%takeBatch_cases Hp; [by left|].
  pose proof (takeLoop_wakes n now s.(activeWakeTargets) (flushPendingCoalescing s now) (barrierCutoff s)
    (pendingEntries s now) [] s.(pendingWakes) k w) as HL.
  rewrite Eb in HL. cbn in HL |- *. destruct HL as [HL|(g & Hg & Hw)].
  - by apply entries_NoDup.
  - intros k1 g1 H1. apply JsMap.elem_get; [done|]. by eapply entries_in.
  - by left.
  - by left.
  - right. exists g. split; [|done]. apply list_elem_of_fmap. by exists (k, g).
Qed.

Lemma batchWakes_jobs g w j :
  w ∈ groupWakes g → j ∈ wakeJobs w → ∃ w', w' ∈ batchWakes g ∧ j ∈ wakeJobs w'.
Proof.
  intros Hw Hj. apply elem_of_groupWakes in Hw. unfold batchWakes.
  destruct g.(task) as [t|], g.(scheduled) as [c|], g.(event) as [e|]; cbn;
    try destruct (eventFirst _ e); destruct Hw as [[= ->]|[[= ->]|[= ->]]];
    first
      [ solve [eexists; split; [apply elem_of_cons; by left|first [done|apply merge_jobs; tauto]]]
      | solve [eexists; split; [apply elem_of_cons; right; apply elem_of_cons; by left
                               |first [done|apply merge_jobs; tauto]]] ].
Qed.

(** The dispatches that a batch starts. *)
Definition started (s : HeartbeatState) (b : string * list PendingWakeReason) : Dispatch :=
  {| d_generation := s.(handlerGeneration); d_target := b.1; d_wakes := b.2; wakeIndex := 0;
     aborted := false; finished := false |}.

Lemma startBatch_frame now batch s :
  (∀ b, b ∈ batch → b.2 ≠ []) →
  let s' := foldl (startDispatch now) s batch in
  s'.(dispatches) = s.(dispatches) ++ (started s <$> batch) ∧
  (∀ k, k ∈ JsMap.keys s'.(activeWakeTargets) ↔ k ∈ JsMap.keys s.(activeWakeTargets) ∨ k ∈ batch.*1).
Proof.
  cbv zeta. revert s. induction batch as [|[k ws] batch IH]; intros s Hne; cbn [foldl].
  { rewrite app_nil_r. split; [done|]. intros k. cbn. rewrite elem_of_nil. tauto. }
  assert (Hws : ws ≠ []) by (apply (Hne (k, ws)); apply elem_of_cons; by left).
  rewrite startDispatch_eq by done.
  match goal with |- context [foldl _ ?s1 batch] => destruct (IH s1) as [E1 E2] end.
  { intros b Hb. apply Hne. apply elem_of_cons. by right. }
  rewrite E1. split.
  - cbn. rewrite <-app_assoc. done.
  - intros j. rewrite E2. etrans; [apply or_iff_compat_r, JsMap.elem_keys_set|].
    rewrite fmap_cons, elem_of_cons. cbn. tauto.
Qed.

Lemma pending_busy s k : k ∈ JsMap.keys s.(pendingWakes) → pending_ok s.(pendingWakes) → ∃ w, pendingAt s.(pendingWakes) k w.
Proof.
  intros [g Hg]%JsMap.get_Some_keys [_ Hne]. specialize (Hne _ _ Hg). apply nonempty_has in Hne as [w Hw]. by exists w, g.
Qed.

Lemma pendingAt_key m k w : pendingAt m k w → k ∈ JsMap.keys m.
Proof. intros (g & Hg & _). apply JsMap.get_Some_keys. eauto. Qed.

Lemma timer_work now s :
  heart_ok s →
  (∀ j, owesJob s j → owesJob (timerFires now s) j) ∧ (∀ k, busyTarget s k → busyTarget (timerFires now s) k).
Proof.
  intros Hok. unfold timerFires. destruct s.(timer) as [t|]; [|done]. cbv zeta.
  destruct (s <| timer := None |>).(handler) as [h|] eqn:Eh; [|done].
  assert (Hok0 : heart_ok (s <| timer := None |>)) by (destruct Hok; by constructor).
  assert (Hj : (∀ j, owesJob s j → owesJob (s <| timer := None |>) j) ∧
               (∀ k, busyTarget s k → busyTarget (s <| timer := None |>) k)) by done.
  revert Hok0 Hj. generalize (s <| timer := None |>). intros s0 Hok0 [Hj Hk]. clear Eh.
  unfold MAX_CONCURRENT_HEARTBEAT_WAKE_TARGETS. destruct (takePendingWakeBatch _ now s0) as [batch s1] eqn:Eb.
  destruct (takeBatch_ok now s0 batch s1 Hok0 Eb) as (Hok1 & Hb & Hne & Eact & _ & _).
  assert (Eds : s1.(dispatches) = s0.(dispatches)).
  { by apply takeBatch_cases in Eb as [(_ & -> & _)|(_ & _ & ? & ? & _ & _ & ->)]. }
  pose proof Hb as Hb'. rewrite <-Eact in Hb'.
  destruct (startBatch_ok now batch s1 Hok1 Hb' Hne) as (Hok2 & Ep & _).
  destruct (startBatch_frame now batch s1 Hne) as [Ed Ek]. cbv zeta in *.
  set (s2 := foldl (startDispatch now) s1 batch) in *. clearbody s2.
  assert (Hend : ∀ s3, s3 = match s2.(pendingWakes) with [] => s2 | _ => schedulePendingWakes now t.(timerDelay) s2 end →
    s3.(pendingWakes) = s2.(pendingWakes) ∧ s3.(dispatches) = s2.(dispatches) ∧ s3.(activeWakeTargets) = s2.(activeWakeTargets)).
  { intros s3 ->. destruct s2.(pendingWakes) eqn:E; [by rewrite E|]. rewrite schedulePending_pending.
    by destruct (schedulePending_core now t.(timerDelay) s2) as (_ & _ & -> & ->). }
  edestruct Hend as (F1 & F2 & F3); [done|]. split.
  - intros j Ho. apply Hj in Ho. unfold owesJob, pendingJob, runningJob. rewrite F1, F2, Ep, Ed, Eds.
    destruct Ho as [(k & w & Hp & Hw)|(d & x & w & [Hd Hf] & Hw)].
    + destruct (takeBatch_wakes now _ s0 batch s1 k w (ho_pending _ Hok0) Eb Hp) as [H|(g & Hg & Hwg)].
      * left. by exists k, w.
      * right. destruct (batchWakes_jobs g w j Hwg Hw) as (w' & Hw' & Hj').
        apply list_elem_of_lookup in Hg as [i Hi].
        exists (length s0.(dispatches) + i)%nat, (started s1 (k, batchWakes g)), w'. split; [|done].
        split; [|done]. rewrite lookup_app_r by lia. rewrite Nat.add_comm, Nat.add_sub. by rewrite list_lookup_fmap, Hi.
    + right. exists d, x, w. split; [|done]. split; [|done]. by apply lookup_app_l_Some.
  - intros k Hb0. apply Hk in Hb0. unfold busyTarget. rewrite F1, F3, Ep, Ek, Eact.
    destruct Hb0 as [Hp|Ha]; [|tauto]. destruct (pending_busy s0 k Hp (ho_pending _ Hok0)) as [w Hw].
    destruct (takeBatch_wakes now _ s0 batch s1 k w (ho_pending _ Hok0) Eb Hw) as [H|(g & Hg & _)].
    + left. by eapply pendingAt_key.
    + right; right. apply list_elem_of_fmap. by exists (k, batchWakes g).
Qed.

(** *** Every wake is kept under its own target *)

Definition wakeTarget (w : PendingWakeReason) : string := paramsTarget (pendingParams w).

Lemma normalizeTarget_idemp v :
  normalizeHeartbeatWakeTarget (normalizeHeartbeatWakeTarget v) = normalizeHeartbeatWakeTarget v.
Proof.
  unfold normalizeHeartbeatWakeTarget at 2 3. pose proof (js_trim_idemp (default EmptyString v)) as H.
  destruct (js_trim (default EmptyString v)) as [|c r]; [done|].
  unfold normalizeHeartbeatWakeTarget.
  change (default EmptyString (Some (String c r))) with (String c r). by rewrite H.
Qed.

Lemma makeWake_target now seq p : wakeTarget (makeWake now seq p) = paramsTarget p.
Proof. unfold wakeTarget, paramsTarget. cbn. by rewrite !normalizeTarget_idemp. Qed.

Lemma merge_target a b k : wakeTarget a = k → wakeTarget b = k → wakeTarget (mergePendingWakeReasons a b) = k.
Proof.
  unfold wakeTarget, paramsTarget, mergePendingWakeReasons. cbn. intros Ha Hb. by destruct (prefersNext a b).
Qed.

Record placed (s : HeartbeatState) : Prop := {
  pl_pending : ∀ k w, pendingAt s.(pendingWakes) k w → wakeTarget w = k;
  pl_running : ∀ d x w, live s.(dispatches) d x → w ∈ x.(d_wakes) → wakeTarget w = x.(d_target);
}.

Lemma queue_placed_pending now p s :
  (∀ k w, pendingAt s.(pendingWakes) k w → wakeTarget w = k) →
  ∀ k w, pendingAt (queuePendingWakeReason now p s).(pendingWakes) k w → wakeTarget w = k.
Proof.
  intros Hs k w (g & Hg & Hw). unfold queuePendingWakeReason in Hg. cbv zeta in Hg.
  set (s1 := match p.(q_enqueueSequence) with Some _ => s | None => _ end) in Hg.
  assert (Es : s1.(pendingWakes) = s.(pendingWakes)) by (unfold s1; by destruct p.(q_enqueueSequence)).
  clearbody s1. cbn [pendingWakes update_field] in Hg. cbn -[groupWakes] in Hg.
  rewrite Es, JsMap.get_set in Hg. case_decide as Hk; [subst k|apply Hs; by exists g]. injection Hg as <-.
  set (g0 := default emptyGroup (JsMap.get (paramsTarget p) s.(pendingWakes))) in *.
  assert (H0 : ∀ v, v ∈ groupWakes g0 → wakeTarget v = paramsTarget p).
  { intros v Hv. apply Hs. unfold g0 in Hv. destruct (JsMap.get _ _) as [g|] eqn:E; [by exists g|].
    by apply not_elem_of_nil in Hv. }
  assert (H1 : ∀ b v, v ∈ groupWakes (g0 <| blockedUntilMs := b |>) → wakeTarget v = paramsTarget p) by (intros b v; apply H0).
  set (g1 := match p.(q_blockTargetUntilMs) with Some _ => _ | None => g0 end) in *.
  assert (H2 : ∀ v, v ∈ groupWakes g1 → wakeTarget v = paramsTarget p).
  { unfold g1. destruct p.(q_blockTargetUntilMs); [apply H1|apply H0]. }
  apply setSlot_old in Hw as [->|Hw]; [|by apply H2].
  destruct (slotOf p.(q_intent) g1) as [v|] eqn:E; [|apply makeWake_target].
  apply merge_target; [|apply makeWake_target]. apply H2. by apply slotOf_elem in E.
Qed.

Lemma queue_placed now p s : placed s → placed (queuePendingWakeReason now p s).
Proof.
  intros [H1 H2]. constructor; [by apply queue_placed_pending|].
  destruct (queue_core now p s) as (_ & _ & _ & ->). exact H2.
Qed.

Lemma placed_same s s' :
  s'.(pendingWakes) = s.(pendingWakes) → s'.(dispatches) = s.(dispatches) → placed s → placed s'.
Proof. intros E1 E2 [H1 H2]. constructor; [by rewrite E1|by rewrite E2]. Qed.

Lemma schedule_placed now c s : placed s → placed (schedule now c s).
Proof. apply placed_same; [apply schedule_pending|by destruct (schedule_core now c s) as (_ & _ & _ & ->)]. Qed.

Lemma schedulePending_placed now d s : placed s → placed (schedulePendingWakes now d s).
Proof.
  destruct (schedulePending_cases now d s) as [->|[c ->]]; [done|apply schedule_placed].
Qed.

Lemma retry_placed now p r s : placed s → placed (retryPendingWake now p r s).
Proof. intros H. destruct r as [delay defer]. by apply schedule_placed, queue_placed. Qed.

Lemma handOff_placed now l i s : placed s → placed (handOffPendingWakeBatch now l i s).
Proof.
  intros H. unfold handOffPendingWakeBatch. generalize (drop i l). intros ws.
  assert (Hq : placed (foldl (λ s w, queuePendingWakeReason now (pendingParams w) s) s ws)).
  { revert s H. induction ws as [|w ws IH]; intros s H; [done|]. cbn [foldl]. by apply IH, queue_placed. }
  destruct (_ && _); [by apply schedulePending_placed|done].
Qed.

Lemma alter_placed (f : Dispatch → Dispatch) d s :
  placed s → (∀ y, (f y).(d_target) = y.(d_target) ∧ (f y).(d_wakes) = y.(d_wakes) ∧
                   ((f y).(finished) = false → y.(finished) = false)) →
  placed (s <| dispatches ::= alter f d |>).
Proof.
  intros [H1 H2] Hf. constructor; [exact H1|]. intros e x w [(y & Hy & ->)%dispatch_alter Hfin] Hw.
  destruct (Hf y) as (E1 & E2 & E3). case_decide; [|by eapply H2].
  rewrite E1. rewrite E2 in Hw. eapply H2; [split; [exact Hy|by apply E3]|done].
Qed.

Lemma endDispatch_placed now d x s : placed s → placed (endDispatch now d x s).
Proof.
  intros H. unfold endDispatch.
  assert (Hs : placed (s <| dispatches ::= alter (λ x, x <| finished := true |>) d |>)) by (by apply alter_placed).
  destruct (JsMap.get _ _) as [a|]; [|done]. destruct (_ =? _); [|done]. cbv zeta.
  match goal with |- placed match pendingWakes ?s1 with _ => _ end => assert (H1 : placed s1) by (by eapply placed_same, Hs); destruct s1.(pendingWakes) end;
    [done|by apply schedulePending_placed].
Qed.

Lemma beginWake_placed now d x i s : placed s → placed (beginWake now d x i s).
Proof.
  intros H. unfold beginWake. destruct (_ <? _)%nat; [|by apply endDispatch_placed].
  destruct (_ =? _); [by apply alter_placed|by apply endDispatch_placed, handOff_placed].
Qed.

Lemma afterTurn_placed now wall w o s : placed s → placed (afterTurn now wall w o s).
Proof.
  intros H. destruct (afterTurn_cases now wall w o s) as [(_ & r & ->)|[_ ->]]; [by apply retry_placed|done].
Qed.

Lemma finishTurn_placed now wall d o s : placed s → placed (finishTurn now wall d o s).
Proof.
  intros H. unfold finishTurn. destruct (s.(dispatches) !! d) as [x|]; [|done]. destruct x.(finished); [done|].
  destruct (_ !! _) as [w|]; [|done].
  destruct (_ =? _); [by apply beginWake_placed, afterTurn_placed|by apply endDispatch_placed, handOff_placed].
Qed.

Lemma takeLoop_back maxGroups now active flush cutoff entries ready pending (P : string → PendingWakeReason → Prop) :
  (∀ k g w, (k, g) ∈ entries → w ∈ groupWakes g → P k w) →
  (∀ k g w, (k, g) ∈ ready → w ∈ groupWakes g → P k w) → (∀ k w, pendingAt pending k w → P k w) →
  let res := takeLoop maxGroups now active flush cutoff entries ready pending in
  (∀ k g w, (k, g) ∈ res.1 → w ∈ groupWakes g → P k w) ∧ (∀ k w, pendingAt res.2 k w → P k w).
Proof.
  cbv zeta. revert ready pending. induction entries as [|[k0 g0] entries IH]; intros ready pending He Hr Hp; [done|].
  rewrite takeLoop_cons. destruct (_ <=? _); [done|].
  assert (He' : ∀ k g w, (k, g) ∈ entries → w ∈ groupWakes g → P k w).
  { intros k g w Hin. apply He, elem_of_cons. by right. }
  assert (H0 : ∀ f w, w ∈ groupWakes (filterGroup f g0) → P k0 w).
  { intros f w [Hw _]%filterGroup_elem. apply (He k0 g0); [apply elem_of_cons; by left|done]. }
  destruct (_ || _); [by apply IH|]. cbv zeta. apply IH; [done| |].
  - destruct (nonemptyGroup _); [|done]. intros k g w [Hin|Hin]%elem_of_app; [by apply Hr|].
    apply list_elem_of_singleton in Hin as [= -> ->]. apply H0.
  - intros k w (g & Hg & Hw). destruct (nonemptyGroup (filterGroup (λ w, negb _) g0)).
    + rewrite JsMap.get_set in Hg. case_decide as Hk; [subst k; injection Hg as <-; by eapply H0|apply Hp; by exists g].
    + rewrite JsMap.get_delete in Hg. case_decide; [done|]. apply Hp. by exists g.
Qed.

Lemma batchWakes_target g k :
  (∀ w, w ∈ groupWakes g → wakeTarget w = k) → ∀ w, w ∈ batchWakes g → wakeTarget w = k.
Proof.
  intros H. assert (Ht : ∀ w, g.(task) = Some w ∨ g.(scheduled) = Some w ∨ g.(event) = Some w → wakeTarget w = k).
  { intros w Hw. by apply H, elem_of_groupWakes. }
  unfold batchWakes. destruct g.(task) as [t|], g.(scheduled) as [c|], g.(event) as [e|]; cbn;
    try destruct (eventFirst _ e); intros w; rewrite ?elem_of_cons, ?elem_of_nil;
    intros; destruct_or?; subst; try done; try apply merge_target; apply Ht; tauto.
Qed.

Lemma timer_placed now s : placed s → pending_ok s.(pendingWakes) → placed (timerFires now s).
Proof.
  intros Hs Hok. unfold timerFires. destruct s.(timer) as [t|]; [|done]. cbv zeta.
  assert (Hs0 : placed (s <| timer := None |>)) by (destruct Hs; by constructor).
  destruct (s <| timer := None |>).(handler); [|done].
  assert (Hok0 : pending_ok (s <| timer := None |>).(pendingWakes)) by done.
  revert Hs0 Hok0. generalize (s <| timer := None |>). intros s0 Hs0 Hok0.
  destruct (takePendingWakeBatch _ now s0) as [batch s1] eqn:Eb.
  assert (H : placed s1 ∧ ∀ b w, b ∈ batch → w ∈ b.2 → wakeTarget w = b.1).
  { assert (Hnil : ∀ (b : string * list PendingWakeReason) w, b ∈ [] → w ∈ b.2 → wakeTarget w = b.1)
      by (intros b w ?%not_elem_of_nil; done).
    apply takeBatch_cases in Eb as [(-> & -> & _)|(_ & _ & ready & pending & Eb & -> & ->)]; [done|].
    destruct (takeLoop_back (MAX_CONCURRENT_HEARTBEAT_WAKE_TARGETS - Z.of_nat (JsMap.size s0.(activeWakeTargets)))
      now s0.(activeWakeTargets) (flushPendingCoalescing s0 now) (barrierCutoff s0) (pendingEntries s0 now) []
      s0.(pendingWakes) (λ k w, wakeTarget w = k)) as [B1 B2].
    - intros k g w Hin Hw. apply (pl_pending _ Hs0). exists g. split; [|done].
      apply JsMap.elem_get; [apply Hok0|by eapply entries_in].
    - by intros k g w ?%not_elem_of_nil.
    - apply (pl_pending _ Hs0).
    - rewrite Eb in B1, B2. cbn in B1, B2. split.
      + constructor; [exact B2|exact (pl_running _ Hs0)].
      + intros b w ([k g] & -> & Hin)%list_elem_of_fmap Hw. cbn in Hw |- *.
        eapply batchWakes_target; [|exact Hw]. intros v Hv. by eapply B1. }
  destruct H as [Hs1 Hb]. clear Eb.
  assert (Hs2 : placed (foldl (startDispatch now) s1 batch)).
  { revert s1 Hs1. induction batch as [|b batch IH]; intros s1 Hs1; cbn [foldl]; [done|].
    apply IH; [intros b' w Hin; apply Hb, elem_of_cons; by right|]. unfold startDispatch. apply beginWake_placed.
    destruct Hs1 as [P1 P2]. constructor; [exact P1|]. cbn. intros d x w [[Hx|[_ Hx]]%lookup_app_Some Hf] Hw.
    - by eapply P2.
    - apply list_lookup_singleton_Some in Hx as [_ <-]. cbn in Hw |- *. apply Hb; [apply elem_of_cons; by left|done]. }
  destruct (foldl (startDispatch now) s1 batch).(pendingWakes); [done|by apply schedulePending_placed].
Qed.

Lemma abort_fold_frame gen (l : list (string * ActiveHeartbeatWakeTarget)) s :
  (placed s →
   placed (foldl (λ s kv,
     if kv.2.(generation) =? gen
     then s <| dispatches ::= alter (λ x, x <| aborted := true |>) kv.2.(abortController) |> else s) s l)) ∧
  (∀ d x, live s.(dispatches) d x → ∃ b,
   live (foldl (λ s kv,
     if kv.2.(generation) =? gen
     then s <| dispatches ::= alter (λ x, x <| aborted := true |>) kv.2.(abortController) |> else s) s l).(dispatches)
     d (x <| aborted := b |>)).
Proof.
  revert s. induction l as [|[k a] l IH]; intros s; cbn [foldl].
  { split; [done|]. intros d x Hl. exists x.(aborted). by destruct x. }
  cbn [snd]. destruct (_ =? _); [|apply IH]. 
  destruct (IH (s <| dispatches ::= alter (λ x, x <| aborted := true |>) a.(abortController) |>)) as [I1 I2]. split.
  - intros H. apply I1. by apply alter_placed.
  - intros d x [Hd Hf]. destruct (decide (d = a.(abortController))) as [->|Hne].
    + destruct (I2 a.(abortController) (x <| aborted := true |>)) as [b Hb].
      { split; [|done]. cbn. apply dispatch_alter. exists x. by rewrite decide_True. }
      by exists b.
    + apply I2. cbn. by apply live_other.
Qed.

Lemma abort_frame gen s :
  (placed s → placed (abortHeartbeatWakeGeneration gen s)) ∧
  (∀ j, owesJob s j → owesJob (abortHeartbeatWakeGeneration gen s) j) ∧
  (abortHeartbeatWakeGeneration gen s).(pendingWakes) = s.(pendingWakes) ∧
  (abortHeartbeatWakeGeneration gen s).(activeWakeTargets) = s.(activeWakeTargets).
Proof.
  destruct (abort_fold_frame gen s.(activeWakeTargets) s) as [H1 H2].
  assert (H3 : ∀ (l : list (string * ActiveHeartbeatWakeTarget)) s,
    (foldl (λ s kv, if kv.2.(generation) =? gen
       then s <| dispatches ::= alter (λ x, x <| aborted := true |>) kv.2.(abortController) |> else s) s l).(pendingWakes)
       = s.(pendingWakes) ∧
    (foldl (λ s kv, if kv.2.(generation) =? gen
       then s <| dispatches ::= alter (λ x, x <| aborted := true |>) kv.2.(abortController) |> else s) s l).(activeWakeTargets)
       = s.(activeWakeTargets)).
  { intros l. induction l as [|[k a] l IH]; intros s1; cbn [foldl]; [done|]. cbn [snd].
    destruct (_ =? _); [|apply IH]. by destruct (IH (s1 <| dispatches ::= alter (λ x, x <| aborted := true |>) a.(abortController) |>)) as [-> ->]. }
  destruct (H3 s.(activeWakeTargets) s) as [H4 H5]. split; [exact H1|]. split; [|done].
  intros j [(k & w & Hp & Hj)|(d & x & w & Hl & Hw & Hj)].
  - left. exists k, w. unfold abortHeartbeatWakeGeneration. by rewrite H4.
  - right. destruct (H2 d x Hl) as [b Hb]. by exists d, (x <| aborted := b |>), w.
Qed.

Lemma clear_wakes g w :
  w ∈ groupWakes (clearGroupRetry g) ↔
  ∃ v, v ∈ groupWakes g ∧ w = v <| notBeforeMs := None |> <| retainedWork := false |>.
Proof.
  setoid_rewrite elem_of_groupWakes. destruct g as [[t|] [c|] [e|] b]; cbn; naive_solver.
Qed.

Lemma clear_frame s :
  (placed s → placed (clearPendingWakeRetryState s)) ∧
  (∀ j, owesJob s j → owesJob (clearPendingWakeRetryState s) j) ∧
  JsMap.keys (clearPendingWakeRetryState s).(pendingWakes) = JsMap.keys s.(pendingWakes).
Proof.
  split_and!; [| |apply keys_fmap_groups].
  - intros [H1 H2]. constructor; [|exact H2]. intros k w (g & Hg & Hw). cbn in Hg. rewrite get_fmap_groups in Hg.
    destruct (JsMap.get k _) as [g0|] eqn:E; [|done]. injection Hg as <-.
    apply clear_wakes in Hw as (v & Hv & ->). assert (Hk : wakeTarget v = k) by (apply H1; by exists g0). exact Hk.
  - intros j [(k & w & (g & Hg & Hw) & Hj)|H]; [left|by right].
    exists k, (w <| notBeforeMs := None |> <| retainedWork := false |>). split; [|done].
    exists (clearGroupRetry g). cbn. rewrite get_fmap_groups, Hg. split; [done|]. apply clear_wakes. eauto.
Qed.

Lemma setHandler_work now next s :
  (placed s → placed (setHeartbeatWakeHandler now next s)) ∧
  (∀ j, owesJob s j → owesJob (setHeartbeatWakeHandler now next s) j) ∧
  (∀ k, busyTarget s k → busyTarget (setHeartbeatWakeHandler now next s) k).
Proof.
  unfold setHeartbeatWakeHandler.
  set (s0 := s <| handlerGeneration ::= λ g, g + 1 |> <| handler := next |>).
  destruct (abort_frame s.(handlerGeneration) s0) as (A1 & A2 & A3 & A4).
  set (s1 := abortHeartbeatWakeGeneration s.(handlerGeneration) s0) in *.
  assert (B : ∃ s2, s2 = match next with Some _ => clearPendingWakeRetryState (s1 <| timer := None |>) | None => s1 end ∧
    (placed s1 → placed s2) ∧ (∀ j, owesJob s1 j → owesJob s2 j) ∧ (∀ k, busyTarget s1 k → busyTarget s2 k)).
  { eexists. split; [done|]. destruct next; [|done].
    destruct (clear_frame (s1 <| timer := None |>)) as (C1 & C2 & C3). split_and!.
    - intros H. apply C1. by eapply placed_same, H.
    - exact C2.
    - intros k [H|H]; [left; by rewrite C3|by right]. }
  destruct B as (s2 & E & B1 & B2 & B3). cbv zeta. rewrite <-E. clear E.
  assert (D : ∃ s3, s3 = match s2.(handler), s2.(pendingWakes) with
                         | Some _, _ :: _ => schedulePendingWakes now DEFAULT_COALESCE_MS s2 | _, _ => s2 end ∧
    s3.(pendingWakes) = s2.(pendingWakes) ∧ s3.(dispatches) = s2.(dispatches) ∧ s3.(activeWakeTargets) = s2.(activeWakeTargets)).
  { eexists. split; [done|]. destruct s2.(handler), s2.(pendingWakes) eqn:E; try by rewrite ?E.
    rewrite schedulePending_pending, E. by destruct (schedulePending_core now DEFAULT_COALESCE_MS s2) as (_ & _ & -> & ->). }
  destruct D as (s3 & <- & D1 & D2 & D3). split_and!.
  - intros H. eapply placed_same; [exact D1|exact D2|]. apply B1, A1. by eapply placed_same, H.
  - intros j H. assert (H2 : owesJob s2 j) by (apply B2, A2; exact H).
    unfold owesJob, pendingJob, runningJob in *. by rewrite D1, D2.
  - intros k H. assert (H2 : busyTarget s2 k).
    { apply B3. unfold busyTarget in *. by rewrite A3, A4. }
    unfold busyTarget in *. by rewrite D1, D3.
Qed.

Lemma reachable_placed s : heart_reachable s → placed s.
Proof.
  induction 1 as [|e s Hr IH].
  { constructor; [by intros k w (g & ? & _)|by intros d x w [??]]. }
  destruct (heart_reachable_ok s Hr) as [Hok _].
  destruct e as [now w c|now wall w r at_|now next|gen next|now|now wall d o|b]; cbn [heartbeatEvent].
  - by apply schedule_placed, queue_placed.
  - by apply retry_placed.
  - by apply setHandler_work.
  - unfold disposeHandler. destruct (negb _); [done|]. destruct (negb _); [done|].
    eapply placed_same; [| |apply (proj1 (abort_frame gen s)), IH]; done.
  - apply timer_placed; [done|apply Hok].
  - by apply finishTurn_placed.
  - by eapply placed_same, IH.
Qed.

(** *** A target stays busy until its work is done *)

Lemma retry_keys now p r s k :
  k ∈ JsMap.keys (retryPendingWake now p r s).(pendingWakes) ↔ k = paramsTarget p ∨ k ∈ JsMap.keys s.(pendingWakes).
Proof. destruct r as [delay defer]. cbn [retryPendingWake]. cbv zeta. rewrite schedule_pending, queue_keys. done. Qed.

Lemma handOff_keys now l i s k :
  k ∈ JsMap.keys s.(pendingWakes) ∨ (∃ w, w ∈ drop i l ∧ wakeTarget w = k) →
  k ∈ JsMap.keys (handOffPendingWakeBatch now l i s).(pendingWakes).
Proof.
  rewrite handOff_pending. generalize (drop i l). intros ws. revert s.
  induction ws as [|v ws IH]; intros s H; cbn [foldl].
  - by destruct H as [H|(w & ?%not_elem_of_nil & _)].
  - apply IH. destruct H as [H|(w & [->|Hw]%elem_of_cons & Hk)]; [left; apply queue_keys; by right| |eauto].
    left. apply queue_keys. by left.
Qed.

Lemma endDispatch_busy now d x s k :
  heart_ok s → live s.(dispatches) d x →
  k ∈ JsMap.keys s.(pendingWakes) ∨ k ∈ JsMap.keys s.(activeWakeTargets) ∧ k ≠ x.(d_target) →
  busyTarget (endDispatch now d x s) k.
Proof.
  intros Hok Hl H. destruct (endDispatch_frame now d x s Hok Hl) as (E1 & _ & E3).
  unfold busyTarget. rewrite E1, E3, JsMap.keys_delete, list_elem_of_filter. tauto.
Qed.

Lemma beginWake_busy now d x i s k :
  heart_ok s → placed s → live s.(dispatches) d x →
  k ∈ JsMap.keys s.(pendingWakes) ∨ (k ∈ JsMap.keys s.(activeWakeTargets) ∧ (k = x.(d_target) → i < length x.(d_wakes))%nat) →
  busyTarget (beginWake now d x i s) k.
Proof.
  intros Hok Hpl Hl H. unfold beginWake. destruct (Nat.ltb_spec i (length x.(d_wakes))) as [Hi|Hi].
  - destruct (_ =? _); [destruct H as [H|[H _]]; [by left|by right]|].
    apply endDispatch_busy; [by apply handOff_ok|by eapply core_live, Hl; apply handOff_core|].
    destruct (handOff_core now x.(d_wakes) i s) as (_ & _ & -> & _).
    destruct (decide (k = x.(d_target))) as [->|Hne]; [left|].
    + destruct (lookup_lt_is_Some_2 _ _ Hi) as [w Hw]. apply handOff_keys. right. exists w.
      rewrite (drop_S _ _ _ Hw). split; [apply elem_of_cons; by left|].
      eapply (pl_running _ Hpl); [done|by eapply list_elem_of_lookup_2].
    + destruct H as [H|[H _]]; [left; apply handOff_keys; by left|by right].
  - apply endDispatch_busy; [done..|]. destruct H as [H|[H Hlt]]; [by left|right]. split; [done|].
    intros E. specialize (Hlt E). lia.
Qed.

Lemma live_target_active s d x : heart_ok s → live s.(dispatches) d x → x.(d_target) ∈ JsMap.keys s.(activeWakeTargets).
Proof.
  intros Hok Hl. apply JsMap.get_Some_keys. by rewrite (live_active _ _ _ _ (ho_act _ Hok) Hl).
Qed.

Lemma finishTurn_busy now wall d x w o s k :
  heart_ok s → placed s → live s.(dispatches) d x → x.(d_wakes) !! x.(wakeIndex) = Some w →
  busyTarget s k → (k = x.(d_target) → outcomeRetains w o = true) → busyTarget (finishTurn now wall d o s) k.
Proof.
  intros Hok Hpl Hl Hw Hb Hr. unfold finishTurn. destruct (Hl) as [Hd Hf]. rewrite Hd, Hf, Hw.
  assert (Htw : wakeTarget w = x.(d_target)).
  { eapply (pl_running _ Hpl); [done|by eapply list_elem_of_lookup_2]. }
  destruct (_ =? _).
  - assert (Hk : k ∈ JsMap.keys (afterTurn now wall w o s).(pendingWakes) ∨
      k ∈ JsMap.keys (afterTurn now wall w o s).(activeWakeTargets) ∧ k ≠ x.(d_target)).
    { destruct (afterTurn_core now wall w o s) as (_ & _ & -> & _).
      destruct (afterTurn_cases now wall w o s) as [(_ & r & ->)|[E ->]].
      - rewrite retry_keys. fold (wakeTarget w). rewrite Htw. destruct Hb as [H|H]; [tauto|].
        destruct (decide (k = x.(d_target))); tauto.
      - destruct Hb as [H|H]; [by left|right]. split; [done|]. intros Hkt. specialize (Hr Hkt). congruence. }
    apply beginWake_busy; [|by apply afterTurn_placed|by eapply core_live, Hl; apply afterTurn_core|tauto].
    eapply core_ok; [done|apply afterTurn_core|]. apply afterTurn_ok, Hok.
  - fold (outcomeRetains w o).
    apply endDispatch_busy; [by apply handOff_ok|by eapply core_live, Hl; apply handOff_core|].
    destruct (handOff_core now x.(d_wakes) (if outcomeRetains w o then x.(wakeIndex) else S x.(wakeIndex)) s)
      as (_ & _ & -> & _).
    destruct (decide (k = x.(d_target))) as [->|Hne]; [left|].
    + rewrite Hr by done. apply handOff_keys. right. exists w. rewrite (drop_S _ _ _ Hw).
      split; [apply elem_of_cons; by left|done].
    + destruct Hb as [H|H]; [left; apply handOff_keys; by left|by right].
Qed.

(** C13: No two heartbeat turns run for one target.  In every reachable state,
    whatever requests, registrations, timers and turn ends came before: a
    target has at most one dispatch under way, also across a replaced
    handler; at most four targets run at once; the turn for all agents runs
    alone; and the lock of a target is always that of its own dispatch, so
    that the end of a dispatch frees exactly its target. *)
Theorem heartbeat_targets_exclusive s :
  heart_reachable s →
  (∀ d e x y, live s.(dispatches) d x → live s.(dispatches) e y → x.(d_target) = y.(d_target) → d = e) ∧
  (∀ ds, NoDup ds → (∀ d, d ∈ ds → ∃ x, live s.(dispatches) d x) → (length ds ≤ 4)%nat) ∧
  (∀ d e x y, live s.(dispatches) d x → live s.(dispatches) e y →
     x.(d_target) = GLOBAL_HEARTBEAT_WAKE_TARGET_KEY → d = e) ∧
  (∀ k a, JsMap.get k s.(activeWakeTargets) = Some a ↔
     ∃ x, live s.(dispatches) a.(abortController) x ∧ x.(d_target) = k ∧ x.(d_generation) = a.(generation)).
Proof.
  intros Hr. destruct (heart_reachable_ok s Hr) as [[_ Ha] _].
  assert (Huniq : ∀ d e x y, live s.(dispatches) d x → live s.(dispatches) e y → x.(d_target) = y.(d_target) → d = e).
  { intros d e x y Hx Hy E. pose proof (live_active _ _ _ _ Ha Hx) as H1. pose proof (live_active _ _ _ _ Ha Hy) as H2.
    rewrite E, H2 in H1. by injection H1 as _ ->. }
  split; [done|]. split; [|split; [|apply Ha]].
  - intros ds Hn Hds.
    set (f d := from_option d_target EmptyString (s.(dispatches) !! d)).
    assert (Hf : NoDup (f <$> ds)).
    { apply NoDup_fmap_2_strong; [|done]. intros d e Hd He E. destruct (Hds d Hd) as [x Hx], (Hds e He) as [y Hy].
      unfold f in E. rewrite (proj1 Hx), (proj1 Hy) in E. by eapply Huniq. }
    assert (Hsub : f <$> ds ⊆+ JsMap.keys s.(activeWakeTargets)).
    { apply NoDup_submseteq; [done|]. intros k (d & -> & Hd)%list_elem_of_fmap. destruct (Hds d Hd) as [x Hx].
      unfold f. rewrite (proj1 Hx). cbn. apply JsMap.get_Some_keys. by rewrite (live_active _ _ _ _ Ha Hx). }
    apply submseteq_length in Hsub. unfold JsMap.keys in Hsub. rewrite !length_fmap in Hsub.
    pose proof (ao_bound _ _ Ha). lia.
  - intros d e x y Hx Hy Hg. pose proof (live_active _ _ _ _ Ha Hx) as H1. pose proof (live_active _ _ _ _ Ha Hy) as H2.
    assert (Hl : length s.(activeWakeTargets) = 1%nat).
    { apply (ao_global _ _ Ha). rewrite <-Hg. apply JsMap.get_Some_keys. by rewrite H1. }
    destruct s.(activeWakeTargets) as [|[k a] [|]]; [done| |done]. cbn in H1, H2.
    destruct (decide (x.(d_target) = k)); [|done]. destruct (decide (y.(d_target) = k)); [|done].
    apply (Huniq d e x y Hx Hy). congruence.
Qed.

(** C15: Pending heartbeat work never sleeps for good.  In every reachable
    state with a registered handler and a pending wake, the timer is armed or
    some dispatch is under way, whatever the deadlines, busy targets and
    barriers are; so the same holds again when that dispatch ends. *)
Theorem heartbeat_rearmed s :
  heart_reachable s → s.(handler) ≠ None → s.(pendingWakes) ≠ [] →
  s.(timer) ≠ None ∨ ∃ d x, live s.(dispatches) d x.
Proof.
  intros Hr Hh Hp. destruct (heart_reachable_ok s Hr) as [[_ Ha] Harm].
  destruct (Harm Hh Hp) as [H|H]; [right|by left].
  destruct s.(activeWakeTargets) as [|[k a] l] eqn:E; [done|].
  assert (Hg : JsMap.get k s.(activeWakeTargets) = Some a) by (rewrite E; cbn; by rewrite decide_True).
  rewrite <-E in Ha. apply (ao_live _ _ Ha) in Hg as (x & Hx & _). eauto.
Qed.

(** What an event finishes: a turn that returned without a reason to retry. *)
Definition completedWake (e : HeartbeatEvent) (s : HeartbeatState) (k : string) (w : PendingWakeReason) : Prop :=
  match e with
  | EvTurn _ _ d (Returned r) =>
      ∃ x, live s.(dispatches) d x ∧ x.(d_wakes) !! x.(wakeIndex) = Some w ∧ x.(d_target) = k ∧
        retainsWake w r = false
  | _ => False
  end.

Lemma event_owes s e j :
  heart_reachable s → owesJob s j →
  owesJob (heartbeatEvent e s) j ∨ ∃ k w, completedWake e s k w ∧ j ∈ wakeJobs w.
Proof.
  intros Hr. destruct (heart_reachable_ok s Hr) as [Hok _].
  intros Ho. destruct e as [now wk c|now wall wk r at_|now next|gen next|now|now wall d o|b]; cbn [heartbeatEvent].
  + left. destruct Ho as [Ho|(d & x & w & Hl & Hw)].
    * left. eapply pendingJob_same; [apply schedule_pending|]. apply queue_jobs. by left.
    * right. exists d, x, w. split; [|done]. eapply core_live; [|done]. etrans; [apply queue_core|apply schedule_core].
  + left. destruct Ho as [Ho|(d & x & w & Hl & Hw)].
    * left. apply retry_jobs. by left.
    * right. exists d, x, w. split; [|done]. eapply core_live; [apply retry_core|done].
  + left. by apply setHandler_work.
  + left. unfold disposeHandler. destruct (negb _); [done|]. destruct (negb _); [done|].
    apply (proj1 (proj2 (abort_frame gen s))) in Ho. exact Ho.
  + left. by apply timer_work.
  + destruct (s.(dispatches) !! d) as [x|] eqn:Ed; [|left; unfold finishTurn; by rewrite Ed].
    destruct x.(finished) eqn:Ef; [left; unfold finishTurn; by rewrite Ed, Ef|].
    destruct (x.(d_wakes) !! x.(wakeIndex)) as [w|] eqn:Ew; [|left; unfold finishTurn; by rewrite Ed, Ef, Ew].
    assert (Hc : (outcomeRetains w o = false ∧ j ∈ wakeJobs w) ∨ ¬ (outcomeRetains w o = false ∧ j ∈ wakeJobs w)).
    { destruct (outcomeRetains w o); [right; by intros [? _]|].
      destruct (decide (j ∈ wakeJobs w)); [by left|right; by intros [_ ?]]. }
    destruct Hc as [[Hret Hj]|Hc]; [right|left; by eapply finishTurn_jobs].
    exists x.(d_target), w. split; [|done]. destruct o as [r|]; [|done]. by exists x.
  + by left.
Qed.

Lemma event_busy s e k :
  heart_reachable s → busyTarget s k → busyTarget (heartbeatEvent e s) k ∨ ∃ w, completedWake e s k w.
Proof.
  intros Hr. destruct (heart_reachable_ok s Hr) as [Hok _]. pose proof (reachable_placed s Hr) as Hpl.
  intros Hb. destruct e as [now wk c|now wall wk r at_|now next|gen next|now|now wall d o|b]; cbn [heartbeatEvent].
  + left. unfold busyTarget, requestHeartbeat. cbv zeta. rewrite schedule_pending, queue_keys.
    match goal with |- context [activeWakeTargets (schedule ?n ?c ?s1)] =>
      destruct (schedule_core n c s1) as (_ & _ & -> & _) end.
    match goal with |- context [activeWakeTargets (queuePendingWakeReason ?n ?p ?s1)] =>
      destruct (queue_core n p s1) as (_ & _ & -> & _) end.
    destruct Hb as [H|H]; [left; by right|by right].
  + left. unfold requestHeartbeatRetry, busyTarget. rewrite retry_keys.
    match goal with |- context [activeWakeTargets (retryPendingWake ?n ?p ?r ?s1)] =>
      destruct (retry_core n p r s1) as (_ & _ & -> & _) end.
    destruct Hb as [H|H]; [left; by right|by right].
  + left. by apply setHandler_work.
  + left. unfold disposeHandler. destruct (negb _); [done|]. destruct (negb _); [done|].
    destruct (abort_frame gen s) as (_ & _ & E3 & E4). unfold busyTarget in *. cbn. by rewrite E3, E4.
  + left. by apply timer_work.
  + destruct (s.(dispatches) !! d) as [x|] eqn:Ed; [|left; unfold finishTurn; by rewrite Ed].
    destruct x.(finished) eqn:Ef; [left; unfold finishTurn; by rewrite Ed, Ef|].
    destruct (x.(d_wakes) !! x.(wakeIndex)) as [w|] eqn:Ew; [|left; unfold finishTurn; by rewrite Ed, Ef, Ew].
    destruct (decide (k = x.(d_target) ∧ outcomeRetains w o = false)) as [[-> Hret]|Hc].
    * right. exists w. destruct o as [r|]; [|done]. by exists x.
    * left. eapply finishTurn_busy; [done..|]. intros ->. destruct (outcomeRetains w o); [done|]. tauto.
  + by left.
Qed.

(** C10: Heartbeat work is not lost.  Whatever happens - coalescing, batches,
    throws, busy and spacing skips, a replaced or disposed handler - a
    scheduled job that is owed stays owed until a turn that carried it returns
    without asking for a retry; a requested job is owed; and a target with
    pending or running work keeps some until such a turn of its own. *)
Theorem heartbeat_work_conserved s e :
  heart_reachable s →
  let s' := heartbeatEvent e s in
  (∀ j, owesJob s j → owesJob s' j ∨ ∃ k w, completedWake e s k w ∧ j ∈ wakeJobs w) ∧
  (∀ now wake c j, e = EvRequest now wake c → j ∈ jobId <$> wake.(r_tasks) → owesJob s' j) ∧
  (∀ k, busyTarget s k → busyTarget s' k ∨ ∃ w, completedWake e s k w).
Proof.
  intros Hr. cbv zeta. split_and!.
  - intros j. by apply event_owes.
  - intros now wk c j -> Hj. left. eapply pendingJob_same; [apply schedule_pending|]. apply queue_jobs. by right.
  - intros k. by apply event_busy.
Qed.

(** *** What a batch takes *)

Lemma takeLoop_ready maxGroups now active flush cutoff entries ready pending k g :
  (k, g) ∈ (takeLoop maxGroups now active flush cutoff entries ready pending).1 →
  (k, g) ∈ ready ∨ ∃ g0, (k, g0) ∈ entries ∧ JsMap.has k active = false ∧ reached g0.(blockedUntilMs) now = true ∧
    g = filterGroup (takable k cutoff flush now) g0.
Proof.
  revert ready pending. induction entries as [|[k0 g0] entries IH]; intros ready pending H; [by left|].
  rewrite takeLoop_cons in H. destruct (_ <=? _); [by left|].
  destruct ((_ || _) || _) eqn:E.
  - apply IH in H as [H|(g1 & H & ?)]; [by left|right]. exists g1. split; [apply elem_of_cons; by right|done].
  - apply orb_false_iff in E as [[E1 E2%negb_false_iff]%orb_false_iff _]. cbv zeta in H.
    apply IH in H as [H|(g1 & H & ?)]; [|right; exists g1; split; [apply elem_of_cons; by right|done]].
    destruct (nonemptyGroup (filterGroup (takable k0 cutoff flush now) g0)); [|by left].
    apply elem_of_app in H as [H|H]; [by left|right].
    apply list_elem_of_singleton in H as [= -> ->]. exists g0. split; [apply elem_of_cons; by left|done].
Qed.

Lemma takeLoop_length maxGroups now active flush cutoff entries ready pending :
  (length ready ≤ length (takeLoop maxGroups now active flush cutoff entries ready pending).1)%nat.
Proof.
  revert ready pending. induction entries as [|[k0 g0] entries IH]; intros ready pending; [done|].
  rewrite takeLoop_cons. destruct (_ <=? _); [done|]. destruct (_ || _); [apply IH|]. cbv zeta.
  destruct (nonemptyGroup (filterGroup (takable k0 cutoff flush now) g0)); [|apply IH].
  etrans; [|apply IH]. rewrite length_app. lia.
Qed.

Lemma takeLoop_other maxGroups now active flush cutoff entries ready pending k :
  k ∉ JsMap.keys entries →
  JsMap.get k (takeLoop maxGroups now active flush cutoff entries ready pending).2 = JsMap.get k pending.
Proof.
  revert ready pending. induction entries as [|[k0 g0] entries IH]; intros ready pending H; [done|].
  cbn in H. apply not_elem_of_cons in H as [Hne H]. rewrite takeLoop_cons. destruct (_ <=? _); [done|].
  destruct (_ || _); [by apply IH|]. cbv zeta. rewrite IH by done.
  destruct (nonemptyGroup (filterGroup (λ w, negb _) g0)); [by rewrite JsMap.get_set_ne|by rewrite JsMap.get_delete_ne].
Qed.

Lemma takeLoop_complete maxGroups now active flush cutoff entries ready pending k g w :
  NoDup (JsMap.keys entries) → (k, g) ∈ entries → k ≠ GLOBAL_HEARTBEAT_WAKE_TARGET_KEY →
  JsMap.has k active = false → reached g.(blockedUntilMs) now = true →
  let res := takeLoop maxGroups now active flush cutoff entries ready pending in
  Z.of_nat (length res.1) < maxGroups → pendingAt res.2 k w → takable k cutoff flush now w = false.
Proof.
  cbv zeta. intros Hnd Hin Hk Ha Hb. revert ready pending Hnd Hin.
  induction entries as [|[k0 g0] entries IH]; intros ready pending Hnd Hin Hlt Hp; [by apply not_elem_of_nil in Hin|].
  cbn in Hnd. apply NoDup_cons in Hnd as [Hk0 Hnd].
  pose proof (takeLoop_length maxGroups now active flush cutoff ((k0, g0) :: entries) ready pending) as Hlen.
  rewrite takeLoop_cons in Hlt, Hp, Hlen. destruct (Z.leb_spec maxGroups (Z.of_nat (length ready))); [lia|].
  apply elem_of_cons in Hin as [[= <- <-]|Hin].
  - rewrite Ha, Hb, bool_decide_false in Hp by done. cbn -[takeLoop filterGroup] in Hp.
    destruct Hp as (g1 & Hg & Hw). rewrite takeLoop_other in Hg by done.
    destruct (nonemptyGroup (filterGroup (λ w, negb _) g)).
    + rewrite JsMap.get_set_eq in Hg. injection Hg as <-. apply filterGroup_elem in Hw as [_ Hw].
      by apply negb_true_iff in Hw.
    + by rewrite JsMap.get_delete_eq in Hg.
  - destruct (_ || _); [by eapply IH|]. cbv zeta in Hlt, Hp. by eapply IH.
Qed.

Lemma merge_sequence a b c :
  a.(enqueueSequence) < c → b.(enqueueSequence) < c → (mergePendingWakeReasons a b).(enqueueSequence) < c.
Proof. unfold mergePendingWakeReasons. cbn. lia. Qed.

Lemma batchWakes_sequence g c :
  (∀ w, w ∈ groupWakes g → w.(enqueueSequence) < c) → ∀ w, w ∈ batchWakes g → w.(enqueueSequence) < c.
Proof.
  intros H. assert (Ht : ∀ w, g.(task) = Some w ∨ g.(scheduled) = Some w ∨ g.(event) = Some w → w.(enqueueSequence) < c).
  { intros w Hw. by apply H, elem_of_groupWakes. }
  unfold batchWakes. destruct g.(task) as [t|], g.(scheduled) as [c0|], g.(event) as [e|]; cbn;
    try destruct (eventFirst _ e); intros w; rewrite ?elem_of_cons, ?elem_of_nil;
    intros; destruct_or?; subst; try done; try apply merge_sequence; apply Ht; tauto.
Qed.

(** The wakes of a group that a batch takes are exactly the takable ones. *)
Lemma filterGroup_iff f w g : w ∈ groupWakes (filterGroup f g) ↔ w ∈ groupWakes g ∧ f w = true.
Proof.
  split; [apply filterGroup_elem|]. intros [[H|H]%(filterGroup_split f) Hf]; [done|].
  apply filterGroup_elem in H as [_ H]. by rewrite Hf in H.
Qed.

(** A timer that may take nothing. *)
Lemma empty_batch s n now :
  n ≤ 0 ∨ globalActive s = true ∨ isHeartbeatWakeTargetGroupReady (globalGroup s) now = true →
  (∀ k (ws : list PendingWakeReason), (k, ws) ∈ [] → k ∉ JsMap.keys s.(activeWakeTargets) ∧
     ∃ g0 g, JsMap.get k s.(pendingWakes) = Some g0 ∧ reached g0.(blockedUntilMs) now = true ∧ ws = batchWakes g ∧
       ∀ w, w ∈ groupWakes g ↔
         w ∈ groupWakes g0 ∧ takable k (barrierCutoff s) (flushPendingCoalescing s now) now w = true) ∧
  (n ≤ 4 - Z.of_nat (length s.(activeWakeTargets)) → ∀ ws : list PendingWakeReason,
     (GLOBAL_HEARTBEAT_WAKE_TARGET_KEY, ws) ∈ [] →
     [] = [(GLOBAL_HEARTBEAT_WAKE_TARGET_KEY, ws)] ∧ s.(activeWakeTargets) = []) ∧
  (∀ c k (ws : list PendingWakeReason) w, barrierCutoff s = Some c → (k, ws) ∈ [] →
     k ≠ GLOBAL_HEARTBEAT_WAKE_TARGET_KEY → w ∈ ws → w.(enqueueSequence) < c) ∧
  (isHeartbeatWakeTargetGroupReady (globalGroup s) now = false → globalActive s = false →
     Z.of_nat (length (@nil (string * list PendingWakeReason))) < n → ∀ k g0 w, JsMap.get k s.(pendingWakes) = Some g0 →
     k ≠ GLOBAL_HEARTBEAT_WAKE_TARGET_KEY → k ∉ JsMap.keys s.(activeWakeTargets) →
     reached g0.(blockedUntilMs) now = true → pendingAt s.(pendingWakes) k w →
     takable k (barrierCutoff s) (flushPendingCoalescing s now) now w = false).
Proof.
  intros H. split_and!; [by intros ? ? ?%not_elem_of_nil|by intros ? ? ?%not_elem_of_nil|by intros ? ? ? ? ? ?%not_elem_of_nil|].
  cbn. destruct H as [H|[H|H]]; [lia|congruence|congruence].
Qed.

(** The batch that a timer takes is what is due, and keeps the barriers.
    For every target in it, the target is idle and not blocked, and exactly
    its wakes that may run are taken; a wake for all agents is taken alone and
    only when nothing runs; no target's wake from behind a pending immediate
    wake for all is taken; and while no wake for all is due, a batch that is
    not full leaves no wake behind that could have been taken. *)
Theorem heartbeat_batch_due s n now batch s' :
  heart_reachable s → takePendingWakeBatch n now s = (batch, s') →
  (∀ k ws, (k, ws) ∈ batch → k ∉ JsMap.keys s.(activeWakeTargets) ∧
     ∃ g0 g, JsMap.get k s.(pendingWakes) = Some g0 ∧ reached g0.(blockedUntilMs) now = true ∧ ws = batchWakes g ∧
       ∀ w, w ∈ groupWakes g ↔
         w ∈ groupWakes g0 ∧ takable k (barrierCutoff s) (flushPendingCoalescing s now) now w = true) ∧
  (n ≤ 4 - Z.of_nat (length s.(activeWakeTargets)) → ∀ ws, (GLOBAL_HEARTBEAT_WAKE_TARGET_KEY, ws) ∈ batch →
     batch = [(GLOBAL_HEARTBEAT_WAKE_TARGET_KEY, ws)] ∧ s.(activeWakeTargets) = []) ∧
  (∀ c k ws w, barrierCutoff s = Some c → (k, ws) ∈ batch → k ≠ GLOBAL_HEARTBEAT_WAKE_TARGET_KEY → w ∈ ws →
     w.(enqueueSequence) < c) ∧
  (isHeartbeatWakeTargetGroupReady (globalGroup s) now = false → globalActive s = false →
     Z.of_nat (length batch) < n → ∀ k g0 w, JsMap.get k s.(pendingWakes) = Some g0 →
     k ≠ GLOBAL_HEARTBEAT_WAKE_TARGET_KEY → k ∉ JsMap.keys s.(activeWakeTargets) →
     reached g0.(blockedUntilMs) now = true → pendingAt s'.(pendingWakes) k w →
     takable k (barrierCutoff s) (flushPendingCoalescing s now) now w = false).
Proof.
  intros Hr Eb. destruct (heart_reachable_ok s Hr) as [[Hp Ha] _].
  apply takeBatch_cases in Eb as [(-> & -> & Hno)|(Hn & Ega & ready & pending & Eb & -> & ->)];
    [by apply empty_batch|].
  pose proof (entries_NoDup s now (proj1 Hp)) as Hnd.
  assert (Hent : ∀ k g, (k, g) ∈ pendingEntries s now → JsMap.get k s.(pendingWakes) = Some g).
  { intros k g Hin. apply JsMap.elem_get; [apply Hp|by eapply entries_in]. }
  pose proof (takeLoop_ready n now s.(activeWakeTargets) (flushPendingCoalescing s now) (barrierCutoff s)
    (pendingEntries s now) [] s.(pendingWakes)) as Hready.
  pose proof (takeLoop_complete n now s.(activeWakeTargets) (flushPendingCoalescing s now) (barrierCutoff s)
    (pendingEntries s now)) as Hcomp.
  pose proof (takeLoop_ok n now s.(activeWakeTargets) (flushPendingCoalescing s now) (barrierCutoff s)
    (pendingEntries s now) [] s.(pendingWakes)) as Hloop.
  specialize (Hcomp) with (ready := []) (pending := s.(pendingWakes)). cbv zeta in Hcomp, Hloop.
  rewrite Eb in Hready, Hcomp, Hloop. cbn [fst snd] in *.
  assert (Hr' : ∀ k ws, (k, ws) ∈ prod_map id batchWakes <$> ready → ∃ g0, JsMap.get k s.(pendingWakes) = Some g0 ∧
    JsMap.has k s.(activeWakeTargets) = false ∧ reached g0.(blockedUntilMs) now = true ∧
    ws = batchWakes (filterGroup (takable k (barrierCutoff s) (flushPendingCoalescing s now) now) g0)).
  { intros k ws ([k1 g1] & [= -> ->] & Hin)%list_elem_of_fmap.
    apply Hready in Hin as [?%not_elem_of_nil|(g0 & Hin & ? & ? & ->)]; [done|]. exists g0. split; [by apply Hent|done]. }
  unfold globalActive in Ega. rewrite JsMap.has_keys in Ega. apply bool_decide_eq_false in Ega.
  cbn [pendingWakes update_field].
  split_and!.
  - intros k ws (g0 & Hg & Hn' & Hb & ->)%Hr'. rewrite JsMap.has_keys in Hn'. apply bool_decide_eq_false in Hn'.
    split; [done|]. exists g0. eexists. split_and!; [done..|]. intros w. apply filterGroup_iff.
  - intros Hmax ws Hin. destruct Hloop as ((_ & _ & _ & Hg & _) & _); [lia|done|done|by intros ? ? ?%not_elem_of_nil
      |by apply entries_global_last, Hp|constructor|by intros ? ?%not_elem_of_nil|cbn; lia
      |by intros ?%not_elem_of_nil|by intros ? ?%not_elem_of_nil|done|].
    apply list_elem_of_fmap in Hin as ([k1 g1] & [= <- ->] & Hin).
    destruct Hg as [Hlen Hact]; [by apply (list_elem_of_fmap_2 fst) in Hin|]. split; [|done].
    destruct ready as [|y [|]]; [done| |done]. apply list_elem_of_singleton in Hin. by subst y.
  - intros c k ws w Hc (g0 & Hg & Hn2 & Hb & ->)%Hr' Hk. apply batchWakes_sequence. intros v [_ Hv]%filterGroup_elem.
    unfold takable in Hv. rewrite Hc in Hv. cbn in Hv. rewrite bool_decide_false in Hv by done. cbn in Hv.
    apply andb_true_iff in Hv as [[Hv _]%andb_true_iff _]. apply negb_true_iff in Hv. lia.
  - intros Hnr _ Hlen k g0 w Hg Hk Hna Hb Hpw. rewrite length_fmap in Hlen.
    eapply (Hcomp k g0); [done| |done| |done|done|done].
    + unfold pendingEntries. rewrite Hnr. by apply JsMap.get_elem.
    + rewrite JsMap.has_keys. by apply bool_decide_eq_false.
Qed.
End Heartbeat.

Lemma heartbeatRun_reachable (le : relation string) `{!RelDecision le} es :
  heart_reachable le (heartbeatRun le es).
Proof.
  unfold heartbeatRun. assert (H : ∀ s, heart_reachable le s → heart_reachable le (foldl (λ s e, heartbeatEvent le e s) s es)).
  { induction es as [|e es IH]; intros s Hs; cbn [foldl]; [done|]. by apply IH, heart_next. }
  apply H, heart_new.
Qed.

(** ** A run

    A job for agent [a], taken by the first timer; while its turn runs an
    immediate wake for all agents and another job for [a] arrive. *)
Definition sampleWake (intent : HeartbeatWakeIntent) (agent : option string) (jobs : list string) :
    HeartbeatWakeRequest :=
  {| r_source := Cron; r_intent := intent; r_reason := None; r_agentId := agent; r_sessionKey := None;
     r_heartbeat := None; r_scheduledEveryMs := None;
     r_tasks := (λ j, {| jobId := j; name := j; prompt := j |}) <$> jobs; r_retainedWork := false |}.

Definition sampleEvents : list HeartbeatEvent :=
  [EvSetHandler 0 (Some 1%nat); EvRequest 0 (sampleWake Task (Some "a") ["j"]) None; EvTimer 250;
   EvRequest 300 (sampleWake Immediate None []) None; EvRequest 310 (sampleWake Task (Some "b") ["k"]) None].

Example heartbeat_targets_exclusive_witness :
  let s := heartbeatRun string_le sampleEvents in
  (∃ x, live s.(dispatches) 0 x ∧ x.(d_target) = "a::") ∧
  ∀ d x, live s.(dispatches) d x → x.(d_target) = "a::" → d = 0%nat.
Proof.
  intros s. destruct (heartbeat_targets_exclusive string_le s (heartbeatRun_reachable string_le sampleEvents)) as (H & _).
  assert (H0 : ∃ x, live s.(dispatches) 0 x ∧ x.(d_target) = "a::") by (eexists; split; [split; vm_compute; reflexivity|done]).
  split; [exact H0|]. destruct H0 as (y & Hy & Ey). intros d x Hx Ex. apply (H d 0%nat x y Hx Hy). by rewrite Ex, Ey.
Defined.

Example heartbeat_rearmed_witness :
  let s := heartbeatRun string_le sampleEvents in
  s.(pendingWakes) ≠ [] ∧ (s.(timer) ≠ None ∨ ∃ d x, live s.(dispatches) d x).
Proof.
  intros s. assert (Hp : s.(pendingWakes) ≠ []) by (by vm_compute).
  split; [exact Hp|]. apply (heartbeat_rearmed string_le); [apply heartbeatRun_reachable|by vm_compute|exact Hp].
Defined.

(** The turn of [a] throws: its job is owed still. *)
Example heartbeat_work_conserved_witness :
  let s := heartbeatRun string_le sampleEvents in
  owesJob s "j" ∧ owesJob (heartbeatEvent string_le (EvTurn 320 0 0 Thrown) s) "j".
Proof.
  intros s. destruct (heartbeat_work_conserved string_le s (EvTurn 320 0 0 Thrown) (heartbeatRun_reachable string_le sampleEvents))
    as (H & _).
  assert (Ho : owesJob s "j").
  { right. exists 0%nat. eexists _, _. split; [split; vm_compute; reflexivity|].
    split; [vm_compute; by apply elem_of_cons; left|vm_compute; by apply elem_of_cons; left]. }
  split; [exact Ho|]. destruct (H "j" Ho) as [H1|(k & w & [] & _)]. exact H1.
Defined.

(** When the turn of [a] has ended, the wake for all agents is taken alone and
    the later job of [b] stays behind the barrier. *)
Example heartbeat_batch_due_witness :
  let s := heartbeatRun string_le (sampleEvents ++ [EvTurn 600 0 0 (Returned Ran)]) in
  let r := takePendingWakeBatch string_le 4 600 s in
  ∃ ws, r.1 = [("::", ws)] ∧ s.(activeWakeTargets) = [] ∧ JsMap.keys r.2.(pendingWakes) = ["b::"].
Proof.
  intros s r. destruct (heartbeat_batch_due string_le s 4 600 r.1 r.2) as (_ & H & _).
  - apply heartbeatRun_reachable.
  - unfold r. by destruct (takePendingWakeBatch _ _ _ _).
  - destruct r.1 as [|[k ws] l] eqn:E; [by vm_compute in E|].
    assert (Hk : k = "::") by (vm_compute in E; by injection E).
    destruct (H ltac:(vm_compute; discriminate) ws) as [H1 H2].
    { rewrite Hk. apply elem_of_cons. by left. }
    exists ws. split; [exact H1|]. split; [exact H2|by vm_compute].
Defined.
