(* ===== verification/ToolPairing.v ===== *)
(** * Pairing of tool calls and tool results

    Transcript repair before a replay: which tool result belongs to which tool
    call ([packages/agent-core/src/harness/session/tool-result-pairing.ts]),
    and the transcript in which every call is followed by its result
    ([src/agents/session-transcript-repair.ts], [repairToolUseResultPairing]).

    Messages are objects compared by identity: [ref] is the address of one,
    and every object spread in the source takes a fresh address from a counter.
    The occurrences of calls are mutable objects that several collections
    share, so they live in a heap and are named by their index.  Values of
    [unknown] type are represented by what the code asks of them; an entry of
    an array that is not an object is [None]. *)
From S2P Require Import Prelude JsCollections JsStrings.
Local Open Scope Z_scope.

(** ** Data *)

Record Block := {
  blockType : option string;
  blockId : option string;
  blockName : option string;
  blockText : option string
}.

Inductive Role := RoleUser | RoleAssistant | RoleToolResult | RoleOther (role : string).

#[export] Instance Role_eq_dec : EqDecision Role.
Proof. solve_decision. Defined.

(** [details] tells whether the field is present and, if so, whether it is an
    object with the marker of a synthetic result set. *)
Record AgentMessage := {
  ref : nat;
  role : Role;
  content : option (list (option Block));
  stopReason : option string;
  toolName : option string;
  toolCallId : option string;
  toolUseId : option string;
  tool_call_id : option string;
  tool_use_id : option string;
  callId : option string;
  call_id : option string;
  isError : bool;
  details : option bool;
  timestamp : Z
}.

#[export] Instance AgentMessage_eta : Eta AgentMessage := λ m,
  {| ref := m.(ref); role := m.(role); content := m.(content); stopReason := m.(stopReason);
     toolName := m.(toolName); toolCallId := m.(toolCallId); toolUseId := m.(toolUseId);
     tool_call_id := m.(tool_call_id); tool_use_id := m.(tool_use_id); callId := m.(callId);
     call_id := m.(call_id); isError := m.(isError); details := m.(details);
     timestamp := m.(timestamp) |}.

Record ToolCallLike := { callRef : string; callName : option string }.

Record ToolCallOccurrence := {
  o_id : string;
  o_name : option string;
  result : option AgentMessage;
  sourceResult : option AgentMessage
}.

#[export] Instance ToolCallOccurrence_eta : Eta ToolCallOccurrence := λ o,
  {| o_id := o.(o_id); o_name := o.(o_name); result := o.(result); sourceResult := o.(sourceResult) |}.

Record ToolResultRecord := {
  r_result : AgentMessage;
  r_source : AgentMessage;
  r_id : option string
}.

Record ToolUsePairingFrame := {
  startIndex : nat;
  endIndex : nat;
  assistant : AgentMessage;
  remainder : list AgentMessage;
  unclaimedResults : list ToolResultRecord;
  occurrences : list nat;
  failed : bool
}.

#[export] Instance ToolUsePairingFrame_eta : Eta ToolUsePairingFrame := λ f,
  {| startIndex := f.(startIndex); endIndex := f.(endIndex); assistant := f.(assistant);
     remainder := f.(remainder); unclaimedResults := f.(unclaimedResults);
     occurrences := f.(occurrences); failed := f.(failed) |}.

(** ** The queue of occurrences *)

Record ToolCallOccurrenceQueue (T : Type) := {
  pendingById : list (string * list T);
  pendingCount : Z
}.

Arguments pendingById {T}.
Arguments pendingCount {T}.

Definition createToolCallOccurrenceQueue {T} : ToolCallOccurrenceQueue T :=
  {| pendingById := []; pendingCount := 0 |}.

(** [push] on the list of [id], which is created where it is missing. *)
Definition pushTo {T} (id : string) (a : T) (m : list (string * list T)) : list (string * list T) :=
  JsMap.set id (default [] (JsMap.get id m) ++ [a]) m.

Definition queueAdd {T} (id : string) (a : T) (q : ToolCallOccurrenceQueue T) : ToolCallOccurrenceQueue T :=
  {| pendingById := pushTo id a q.(pendingById); pendingCount := q.(pendingCount) + 1 |}.

Definition queueClaim {T} (id : string) (q : ToolCallOccurrenceQueue T) :
    option T * ToolCallOccurrenceQueue T :=
  match JsMap.get id q.(pendingById) with
  | Some (a :: rest) =>
      (Some a,
       {| pendingById := match rest with
                         | [] => JsMap.delete id q.(pendingById)
                         | _ => JsMap.set id rest q.(pendingById)
                         end;
          pendingCount := q.(pendingCount) - 1 |})
  | _ => (None, q)
  end.

Definition queueClear {T} (q : ToolCallOccurrenceQueue T) : ToolCallOccurrenceQueue T :=
  createToolCallOccurrenceQueue.

(** ** Reading messages *)

Definition TOOL_CALL_TYPES : list string := ["toolCall"; "toolUse"; "functionCall"].

Definition blockToolCall (block : option Block) : list ToolCallLike :=
  match block with
  | None => []
  | Some b =>
      match b.(blockType), b.(blockId) with
      | Some t, Some id =>
          if bool_decide (t ∈ TOOL_CALL_TYPES) && negb (bool_decide (id = EmptyString))
          then [{| callRef := id; callName := b.(blockName) |}] else []
      | _, _ => []
      end
  end.

Definition extractToolCallsFromAssistant (message : AgentMessage) : list ToolCallLike :=
  match message.(content) with
  | None => []
  | Some blocks => blocks ≫= blockToolCall
  end.

Definition addResultId (ids : list string) (value : option string) : list string :=
  match value with
  | None => ids
  | Some v =>
      let id := js_trim v in
      if negb (bool_decide (id = EmptyString)) && negb (bool_decide (id ∈ ids)) then ids ++ [id] else ids
  end.

Definition extractToolResultIds (m : AgentMessage) : list string :=
  foldl addResultId []
    [m.(toolCallId); m.(toolUseId); m.(tool_call_id); m.(tool_use_id); m.(callId); m.(call_id)].

Definition extractToolResultId (m : AgentMessage) : option string := head (extractToolResultIds m).

Definition DEFAULT_MISSING_TOOL_RESULT_TEXT : string :=
  "[openclaw] missing tool result in session history; inserted synthetic error result for transcript repair.".

Definition makeMissingToolResult (fresh : nat) (now : Z) (id : string) (name text : option string) :
    AgentMessage :=
  {| ref := fresh; role := RoleToolResult;
     content := Some [Some {| blockType := Some "text"; blockId := None; blockName := None;
                              blockText := Some (default DEFAULT_MISSING_TOOL_RESULT_TEXT text) |}];
     stopReason := None; toolName := Some (default "unknown" name); toolCallId := Some id;
     toolUseId := None; tool_call_id := None; tool_use_id := None; callId := None; call_id := None;
     isError := true; details := Some true; timestamp := now |}.

Definition isMissingText (block : option Block) : bool :=
  match block with
  | None => false
  | Some b => bool_decide (b.(blockType) = Some "text")
              && bool_decide (b.(blockText) = Some DEFAULT_MISSING_TOOL_RESULT_TEXT)
  end.

Definition isSyntheticMissingToolResult (m : AgentMessage) : bool :=
  if negb m.(isError) then false
  else if bool_decide (m.(details) = Some true) then true
  else match m.(content) with None => false | Some blocks => existsb isMissingText blocks end.

(** A spread of [m] with another tool name, at the address [fresh]. *)
Definition renamed (fresh : nat) (name : string) (m : AgentMessage) : AgentMessage :=
  m <| ref := fresh |> <| toolName := Some name |>.

(** The message and the next fresh address. *)
Definition normalizeToolResultName (fresh : nat) (m : AgentMessage) (fallbackName : option string) :
    AgentMessage * nat :=
  match normalizeOptionalString m.(toolName) with
  | Some n => if bool_decide (m.(toolName) = Some n) then (m, fresh) else (renamed fresh n m, S fresh)
  | None =>
      match normalizeOptionalString fallbackName with
      | Some n => (renamed fresh n m, S fresh)
      | None => match m.(toolName) with
                | Some _ => (renamed fresh "unknown" m, S fresh)
                | None => (m, fresh)
                end
      end
  end.

Definition namesDiffer (a b : option string) : bool :=
  match normalizeOptionalString a, normalizeOptionalString b with
  | Some x, Some y => negb (bool_decide (x = y))
  | _, _ => false
  end.

Definition normalizeLegacyToolResultId (fresh : nat) (m : AgentMessage) (toolCalls : list ToolCallLike) :
    AgentMessage * nat :=
  match extractToolResultId m, toolCalls with
  | None, [toolCall] =>
      if namesDiffer m.(toolName) toolCall.(callName) then (m, fresh)
      else (m <| ref := fresh |> <| toolCallId := Some toolCall.(callRef) |> <| isError := true |>, S fresh)
  | _, _ => (m, fresh)
  end.

(** ** Classification *)

Definition isFrameStart (message : option AgentMessage) : bool :=
  match message with
  | None => false
  | Some m => bool_decide (m.(role) = RoleAssistant)
              && negb (bool_decide (extractToolCallsFromAssistant m = []))
  end.

(** The indexes of the assistant turns with calls, [i] being that of the head. *)
Fixpoint frameStartIndexes (i : nat) (messages : list (option AgentMessage)) : list nat :=
  match messages with
  | [] => []
  | m :: rest => (if isFrameStart m then [i] else []) ++ frameStartIndexes (S i) rest
  end.

Record FrameScan := {
  sc_heap : list ToolCallOccurrence;
  pending : ToolCallOccurrenceQueue nat;
  syntheticById : list (string * list nat);
  sc_remainder : list AgentMessage;
  sc_unclaimed : list ToolResultRecord;
  sc_duplicates : Z;
  sc_next : nat
}.

#[export] Instance FrameScan_eta : Eta FrameScan := λ s,
  {| sc_heap := s.(sc_heap); pending := s.(pending); syntheticById := s.(syntheticById);
     sc_remainder := s.(sc_remainder); sc_unclaimed := s.(sc_unclaimed);
     sc_duplicates := s.(sc_duplicates); sc_next := s.(sc_next) |}.

(** The two assignments that give a result to the occurrence [j]. *)
Definition assignResult (j : nat) (r source : AgentMessage) (heap : list ToolCallOccurrence)
    (fresh : nat) : list ToolCallOccurrence * nat :=
  match heap !! j with
  | None => (heap, fresh)
  | Some o =>
      let '(r', fresh') := normalizeToolResultName fresh r o.(o_name) in
      (alter (λ o, o <| result := Some r' |> <| sourceResult := Some source |>) j heap, fresh')
  end.

Definition resultOf (heap : list ToolCallOccurrence) (j : nat) : option AgentMessage :=
  heap !! j ≫= result.

Definition hasId (heap : list ToolCallOccurrence) (id : string) (j : nat) : bool :=
  match heap !! j with Some o => bool_decide (o.(o_id) = id) | None => false end.

(** A result that an occurrence takes from the queue. *)
Definition takeResult (j : nat) (normalized source : AgentMessage) (s : FrameScan) : FrameScan :=
  let '(cells, fresh) := assignResult j normalized source s.(sc_heap) s.(sc_next) in
  let s := s <| sc_heap := cells |> <| sc_next := fresh |> in
  match cells !! j with
  | Some o =>
      match o.(result) with
      | Some r => if isSyntheticMissingToolResult r
                  then s <| syntheticById ::= pushTo o.(o_id) j |> else s
      | None => s
      end
  | None => s
  end.

(** A second result for [id], which replaces a synthetic one if it is real. *)
Definition duplicateResult (id : string) (normalized source : AgentMessage) (s : FrameScan) : FrameScan :=
  let s := s <| sc_duplicates ::= λ n, n + 1 |> in
  if isSyntheticMissingToolResult normalized then s
  else match JsMap.get id s.(syntheticById) with
       | Some (j :: rest) =>
           let '(cells, fresh) := assignResult j normalized source s.(sc_heap) s.(sc_next) in
           s <| sc_heap := cells |> <| sc_next := fresh |> <| syntheticById ::= JsMap.set id rest |>
       | _ => s
       end.

Definition scanResult (preserveUnframed : bool) (toolCalls : list ToolCallLike) (occurrences : list nat)
    (m : AgentMessage) (s : FrameScan) : FrameScan :=
  let '(normalized, fresh) := normalizeLegacyToolResultId s.(sc_next) m toolCalls in
  let s := s <| sc_next := fresh |> in
  let unclaimed id :=
    let s := s <| sc_unclaimed ::= λ l, l ++ [{| r_result := normalized; r_source := m; r_id := id |}] |> in
    if preserveUnframed then s <| sc_remainder ::= λ l, l ++ [normalized] |> else s in
  match extractToolResultId normalized with
  | None => unclaimed None
  | Some id =>
      match queueClaim id s.(pending) with
      | (Some j, q) => takeResult j normalized m (s <| pending := q |>)
      | (None, _) =>
          if existsb (hasId s.(sc_heap) id) occurrences
          then duplicateResult id normalized m s
          else unclaimed (Some id)
      end
  end.

Definition scanMessage (preserveUnframed : bool) (toolCalls : list ToolCallLike) (occurrences : list nat)
    (s : FrameScan) (message : option AgentMessage) : FrameScan :=
  match message with
  | None => s
  | Some m => if bool_decide (m.(role) = RoleToolResult)
              then scanResult preserveUnframed toolCalls occurrences m s
              else s <| sc_remainder ::= λ l, l ++ [m] |>
  end.

Definition newOccurrence (c : ToolCallLike) : ToolCallOccurrence :=
  {| o_id := c.(callRef); o_name := c.(callName); result := None; sourceResult := None |}.

Record Classification := {
  frames : list ToolUsePairingFrame;
  heap : list ToolCallOccurrence;
  droppedDuplicateCount : Z;
  droppedOrphanCount : Z;
  nextRef : nat
}.

#[export] Instance Classification_eta : Eta Classification := λ c,
  {| frames := c.(frames); heap := c.(heap); droppedDuplicateCount := c.(droppedDuplicateCount);
     droppedOrphanCount := c.(droppedOrphanCount); nextRef := c.(nextRef) |}.

Definition isFailed (m : AgentMessage) : bool :=
  bool_decide (m.(stopReason) = Some "error") || bool_decide (m.(stopReason) = Some "aborted").

(** The scan of a frame, whose calls become the cells of the heap from its
    length on. *)
Definition scanStart (toolCalls : list ToolCallLike) (c : Classification) : FrameScan :=
  let base := length c.(heap) in
  {| sc_heap := c.(heap) ++ (newOccurrence <$> toolCalls);
     pending := foldl (λ q kc, queueAdd kc.2.(callRef) (base + kc.1)%nat q) createToolCallOccurrenceQueue
                  (imap pair toolCalls);
     syntheticById := []; sc_remainder := []; sc_unclaimed := [];
     sc_duplicates := c.(droppedDuplicateCount); sc_next := c.(nextRef) |}.

Definition scanFrame (preserveUnframed : bool) (messages : list (option AgentMessage))
    (c : Classification) (range : nat * nat) : Classification :=
  let '(start, stop) := range in
  match mjoin (messages !! start) with
  | None => c
  | Some m =>
      let toolCalls := extractToolCallsFromAssistant m in
      let occs := seq (length c.(heap)) (length toolCalls) in
      let body := take (stop - S start) (drop (S start) messages) in
      let s := foldl (scanMessage preserveUnframed toolCalls occs) (scanStart toolCalls c) body in
      {| frames := c.(frames) ++
           [{| startIndex := start; endIndex := stop; assistant := m; remainder := s.(sc_remainder);
               unclaimedResults := s.(sc_unclaimed); occurrences := occs; failed := isFailed m |}];
         heap := s.(sc_heap); droppedDuplicateCount := s.(sc_duplicates);
         droppedOrphanCount := c.(droppedOrphanCount); nextRef := s.(sc_next) |}
  end.

(** [result] is missing or synthetic. *)
Definition isUnresolved (r : option AgentMessage) : bool :=
  match r with None => true | Some m => isSyntheticMissingToolResult m end.

Definition noteUnresolved (heap : list ToolCallOccurrence) (m : list (string * list nat)) (j : nat) :
    list (string * list nat) :=
  match heap !! j with
  | Some o => if isUnresolved o.(result) then pushTo o.(o_id) j m else m
  | None => m
  end.

(** What may own the displaced result [rec]. *)
Definition candidatesFor (heap : list ToolCallOccurrence) (unresolvedById : list (string * list nat))
    (rec : ToolResultRecord) : list nat :=
  match rec.(r_id) with
  | None => []
  | Some id =>
      List.filter (λ j,
        match resultOf heap j with
        | None => true
        | Some r => isSyntheticMissingToolResult r && negb (isSyntheticMissingToolResult rec.(r_result))
        end) (default [] (JsMap.get id unresolvedById))
  end.

(** A displaced result of a frame: the remainder of the frame and the rest. *)
Definition placeUnclaimed (preserveUnframed : bool) (unresolvedById : list (string * list nat))
    (st : list AgentMessage * Classification) (rec : ToolResultRecord) :
    list AgentMessage * Classification :=
  let '(kept, c) := st in
  match candidatesFor c.(heap) unresolvedById rec with
  | [j] =>
      let dup := match resultOf c.(heap) j with Some _ => 1 | None => 0 end in
      let '(cells, fresh) := assignResult j rec.(r_result) rec.(r_source) c.(heap) c.(nextRef) in
      (if preserveUnframed
       then List.filter (λ m, negb (Nat.eqb m.(ref) rec.(r_result).(ref))) kept else kept,
       c <| heap := cells |> <| nextRef := fresh |> <| droppedDuplicateCount ::= λ n, n + dup |>)
  | _ => (kept, c <| droppedOrphanCount ::= λ n, n + if preserveUnframed then 0 else 1 |>)
  end.

Definition placeFrame (preserveUnframed : bool)
    (st : list (string * list nat) * list ToolUsePairingFrame * Classification) (f : ToolUsePairingFrame) :
    list (string * list nat) * list ToolUsePairingFrame * Classification :=
  let '(unresolvedById, done, c) := st in
  let unresolvedById := foldl (noteUnresolved c.(heap)) unresolvedById f.(occurrences) in
  let '(kept, c) := foldl (placeUnclaimed preserveUnframed unresolvedById) (f.(remainder), c)
                      f.(unclaimedResults) in
  (unresolvedById, done ++ [f <| remainder := kept |>], c).

(** The bounds of the frames: each ends where the next one starts. *)
Definition frameRanges (messages : list (option AgentMessage)) : list (nat * nat) :=
  let starts := frameStartIndexes 0 messages in
  zip starts (tail starts ++ [length messages]).

Definition classifyToolUseResultPairing (preserveUnframed : bool) (messages : list (option AgentMessage))
    (fresh : nat) : Classification :=
  let c := foldl (scanFrame preserveUnframed messages)
             {| frames := []; heap := []; droppedDuplicateCount := 0; droppedOrphanCount := 0; nextRef := fresh |}
             (frameRanges messages) in
  let '(_, fs, c) := foldl (placeFrame preserveUnframed) ([], [], c) c.(frames) in
  c <| frames := fs |>.

(** ** Repair *)

Record ToolUseResultPairingOptions := {
  dropErrored : bool;
  missingToolResultText : option string;
  preserveUnframedToolResults : bool
}.

#[export] Instance ToolUseResultPairingOptions_eta : Eta ToolUseResultPairingOptions := λ o,
  {| dropErrored := o.(dropErrored); missingToolResultText := o.(missingToolResultText);
     preserveUnframedToolResults := o.(preserveUnframedToolResults) |}.

Record ToolUseRepairReport := {
  messages : list (option AgentMessage);
  added : list AgentMessage;
  rp_duplicates : Z;
  rp_orphans : Z;
  moved : bool
}.

Record RepairState := {
  out : list AgentMessage;
  cursor : nat;
  orphans : Z;
  addedNow : list AgentMessage;
  repairRef : nat
}.

#[export] Instance RepairState_eta : Eta RepairState := λ s,
  {| out := s.(out); cursor := s.(cursor); orphans := s.(orphans); addedNow := s.(addedNow);
     repairRef := s.(repairRef) |}.

Definition pushUnframed (preserveUnframed : bool) (s : RepairState) (message : option AgentMessage) : RepairState :=
  match message with
  | None => s
  | Some m => if bool_decide (m.(role) = RoleToolResult) && negb preserveUnframed
              then s <| orphans ::= λ n, n + 1 |>
              else s <| out ::= λ l, l ++ [m] |>
  end.

Definition pushUnframedRange (preserveUnframed : bool) (messages : list (option AgentMessage)) (endIndex : nat)
    (s : RepairState) : RepairState :=
  (foldl (pushUnframed preserveUnframed) s (take (endIndex - s.(cursor)) (drop s.(cursor) messages)))
    <| cursor := Nat.max s.(cursor) endIndex |>.

(** One occurrence of a frame that is kept. *)
Definition emitOccurrence (now : Z) (text : option string) (isFailedFrame : bool)
    (heap : list ToolCallOccurrence) (s : RepairState) (j : nat) : RepairState :=
  match heap !! j with
  | None => s
  | Some o =>
      match o.(result) with
      | Some r => s <| out ::= λ l, l ++ [r] |>
      | None =>
          if isFailedFrame then s
          else
            let missing := makeMissingToolResult s.(repairRef) now o.(o_id) o.(o_name) text in
            s <| out ::= λ l, l ++ [missing] |> <| addedNow ::= λ l, l ++ [missing] |>
              <| repairRef ::= S |>
      end
  end.

Definition emitFrame (now : Z) (options : ToolUseResultPairingOptions) (messages : list (option AgentMessage))
    (heap : list ToolCallOccurrence) (s : RepairState) (f : ToolUsePairingFrame) : RepairState :=
  let s := (pushUnframedRange options.(preserveUnframedToolResults) messages f.(startIndex) s)
             <| cursor := f.(endIndex) |> in
  let s := if f.(failed) && options.(dropErrored) then s
           else foldl (emitOccurrence now options.(missingToolResultText) f.(failed) heap)
                  (s <| out ::= λ l, l ++ [f.(assistant)] |>) f.(occurrences) in
  s <| out ::= λ l, l ++ f.(remainder) |>.

Definition repairToolUseResultPairing (now : Z) (options : ToolUseResultPairingOptions)
    (messages : list (option AgentMessage)) (fresh : nat) : ToolUseRepairReport :=
  let preserveUnframed := options.(preserveUnframedToolResults) in
  let c := classifyToolUseResultPairing preserveUnframed messages fresh in
  let s := foldl (emitFrame now options messages c.(heap))
             {| out := []; cursor := 0; orphans := c.(droppedOrphanCount); addedNow := [];
                repairRef := c.(nextRef) |} c.(frames) in
  let s := pushUnframedRange preserveUnframed messages (length messages) s in
  let changed := negb (bool_decide ((λ m, Some m.(ref)) <$> s.(out) = fmap ref <$> messages)) in
  {| messages := if changed then Some <$> s.(out) else messages;
     added := s.(addedNow); rp_duplicates := c.(droppedDuplicateCount); rp_orphans := s.(orphans);
     moved := changed |}.

Definition sanitizeToolUseResultPairing (now : Z) (options : ToolUseResultPairingOptions)
    (history : list (option AgentMessage)) (fresh : nat) : list (option AgentMessage) :=
  (repairToolUseResultPairing now options history fresh).(messages).

Definition modelOptions (isOpenAIResponsesApi : bool) : ToolUseResultPairingOptions :=
  {| dropErrored := true;
     missingToolResultText := if isOpenAIResponsesApi then Some "aborted" else None;
     preserveUnframedToolResults := false |}.

Definition sanitizeToolUseResultPairingForModel (now : Z) (messages : list (option AgentMessage))
    (isOpenAIResponsesApi : bool) (fresh : nat) : list (option AgentMessage) :=
  sanitizeToolUseResultPairing now (modelOptions isOpenAIResponsesApi) messages fresh.

(** ** Other readers of the pairing *)

Definition stripDetails (fresh : nat) (message : option AgentMessage) : option AgentMessage * nat :=
  match message with
  | Some m =>
      if bool_decide (m.(role) = RoleToolResult) && bool_decide (is_Some m.(details))
      then (Some (m <| ref := fresh |> <| details := None |>), S fresh) else (message, fresh)
  | None => (message, fresh)
  end.

Definition stripToolResultDetails (messages : list (option AgentMessage)) (fresh : nat) :
    list (option AgentMessage) :=
  let '(out, next) := foldl (λ st m, let '(m', next) := stripDetails st.2 m in (st.1 ++ [m'], next))
                        ([], fresh) messages in
  if Nat.eqb next fresh then messages else out.

Inductive SessionTreeEntry :=
| MessageEntry (message : AgentMessage)
| OtherEntry.

Definition keepEntry (pairedResults : list nat) (entry : SessionTreeEntry) : bool :=
  match entry with
  | OtherEntry => false
  | MessageEntry m =>
      match m.(role) with
      | RoleUser | RoleAssistant => true
      | RoleToolResult => bool_decide (m.(ref) ∈ pairedResults)
      | RoleOther _ => false
      end
  end.

Definition entryMessages (entries : list SessionTreeEntry) : list AgentMessage :=
  entries ≫= λ e, match e with MessageEntry m => [m] | OtherEntry => [] end.

Definition selectResetKeptEntries (entries : list SessionTreeEntry) (fresh : nat) : list SessionTreeEntry :=
  let c := classifyToolUseResultPairing false (Some <$> entryMessages entries) fresh in
  let pairedResults := ref <$> omap sourceResult c.(heap) in
  List.filter (keepEntry pairedResults) entries.

(** ** Names, ids and copies *)

#[local] Arguments JsMap.set : simpl never.
#[local] Arguments JsMap.delete : simpl never.
#[local] Arguments queueClaim : simpl never.
#[local] Arguments extractToolResultIds : simpl never.

Definition isResult (m : AgentMessage) : bool := bool_decide (m.(role) = RoleToolResult).

Lemma js_trim_unknown : js_trim "unknown" = "unknown".
Proof. reflexivity. Qed.

(** A result whose name another normalisation leaves alone. *)
Definition nameSettled (name : option string) (r : AgentMessage) : Prop :=
  ∀ n, normalizeToolResultName n r name = (r, n).

(** What a normalised copy shares with its source. *)
Definition carries (s r : AgentMessage) : Prop :=
  r.(role) = s.(role) ∧ r.(content) = s.(content) ∧ r.(details) = s.(details) ∧ r.(timestamp) = s.(timestamp) ∧
  (extractToolResultId s = None ∨ extractToolResultId s = extractToolResultId r).

Lemma carries_refl m : carries m m.
Proof. split_and!; auto. Qed.

Lemma name_settled n m name : nameSettled name (normalizeToolResultName n m name).1.
Proof.
  intros k. destruct (normalizeToolResultName n m name) as [r n'] eqn:E0. cbn [fst]. revert E0.
  unfold normalizeToolResultName at 1. destruct (normalizeOptionalString m.(toolName)) as [x|] eqn:E.
  - apply normalizeOptional_trimmed in E as E'. case_bool_decide as H; intros [= <- <-]; unfold normalizeToolResultName.
    + by rewrite E, bool_decide_true.
    + cbn [toolName renamed update_field]. rewrite (normalizeOptional_fix x) by apply E'. by rewrite bool_decide_true.
  - destruct (normalizeOptionalString name) as [y|] eqn:Ey; [|destruct m.(toolName) as [z|] eqn:Ez];
      intros [= <- <-]; unfold normalizeToolResultName; cbn [toolName renamed update_field].
    + apply normalizeOptional_trimmed in Ey as []. by rewrite (normalizeOptional_fix y), bool_decide_true.
    + by rewrite (normalizeOptional_fix "unknown"), bool_decide_true.
    + by rewrite Ez, Ey.
Qed.

(** A normalisation returns the object itself or a copy at the fresh address. *)
Lemma name_copy n m name r n' :
  normalizeToolResultName n m name = (r, n') →
  (r = m ∧ n' = n ∨ r.(ref) = n ∧ n' = S n) ∧ extractToolResultId r = extractToolResultId m ∧ r.(role) = m.(role) ∧
  r.(content) = m.(content) ∧ r.(details) = m.(details) ∧ r.(timestamp) = m.(timestamp).
Proof.
  unfold normalizeToolResultName. destruct (normalizeOptionalString m.(toolName)).
  - case_bool_decide; intros [= <- <-]; split_and!; auto.
  - destruct (normalizeOptionalString name); [|destruct m.(toolName)]; intros [= <- <-]; split_and!; auto.
Qed.

Lemma legacy_copy n m calls r n' :
  normalizeLegacyToolResultId n m calls = (r, n') →
  (r = m ∧ n' = n ∨ r.(ref) = n ∧ n' = S n) ∧ carries m r ∧ (is_Some (extractToolResultId m) → r = m).
Proof.
  unfold normalizeLegacyToolResultId. destruct (extractToolResultId m) eqn:E; [intros [= <- <-]; split_and!; auto using carries_refl|].
  destruct calls as [|c [|]]; [intros [= <- <-]; split_and!; auto using carries_refl| |intros [= <- <-]; split_and!; auto using carries_refl].
  destruct (namesDiffer _ _); intros [= <- <-].
  - split_and!; auto using carries_refl.
  - split_and!; [by right| |by intros [? [=]]]. split_and!; auto.
Qed.

(** ** Cells of the heap *)

Section Identity.
(** The objects of the transcript and the first address that is not in use. *)
Variables (given : list AgentMessage) (fresh0 : nat).

Definition known (m : AgentMessage) : Prop := m ∈ given ∨ (fresh0 ≤ m.(ref))%nat.

Definition cell_ok (o : ToolCallOccurrence) : Prop :=
  match o.(result), o.(sourceResult) with
  | Some r, Some s =>
      r.(role) = RoleToolResult ∧ extractToolResultId r = Some o.(o_id) ∧ nameSettled o.(o_name) r ∧
      carries s r ∧ known r
  | None, None => True
  | _, _ => False
  end.

Definition cellCall (o : ToolCallOccurrence) : ToolCallLike := {| callRef := o.(o_id); callName := o.(o_name) |}.

Lemma hasId_lookup h id j : hasId h id j = true ↔ ∃ o, h !! j = Some o ∧ o.(o_id) = id.
Proof.
  unfold hasId. destruct (h !! j) as [o|].
  - rewrite bool_decide_eq_true. split; [by exists o|]. by intros (? & [= <-] & ?).
  - split; [done|]. by intros (? & ? & ?).
Qed.

(** What an assignment does to the heap. *)
Lemma assign_spec j r src h n h' n' id :
  assignResult j r src h n = (h', n') → hasId h id j = true → Forall cell_ok h →
  r.(role) = RoleToolResult → extractToolResultId r = Some id → carries src r → known r → (fresh0 ≤ n)%nat →
  Forall cell_ok h' ∧ cellCall <$> h' = cellCall <$> h ∧ (n ≤ n')%nat ∧
  ∃ o r', h !! j = Some o ∧ o.(o_id) = id ∧
    h' = alter (λ o, o <| result := Some r' |> <| sourceResult := Some src |>) j h ∧
    (normalizeToolResultName n r o.(o_name) = (r', n')).
Proof.
  intros Ha (o & Ho & Hid)%hasId_lookup Hok Hr He Hc Hk Hn. unfold assignResult in Ha. rewrite Ho in Ha.
  destruct (normalizeToolResultName n r o.(o_name)) as [r' n2] eqn:En. injection Ha as <- <-.
  pose proof (name_copy _ _ _ _ _ En) as (Hcp & E1 & E2 & E3 & E4 & E5).
  pose proof (name_settled n r o.(o_name)) as Hs. rewrite En in Hs. cbn in Hs.
  assert (Hn2 : (n ≤ n2)%nat) by (destruct Hcp as [[_ ->]|[_ ->]]; lia).
  split_and!; [| |done|by exists o, r'].
  - apply Forall_alter; [done|]. intros o' Ho' _. rewrite Ho in Ho'. injection Ho' as <-. cbn.
    split_and!; [congruence|congruence|done| |].
    + destruct Hc as (C1 & C2 & C3 & C4 & C5). split_and!; [congruence..|]. destruct C5; [by left|right; congruence].
    + destruct Hcp as [[-> _]|[Hr' _]]; [done|]. right. lia.
  - apply list_eq. intros i. rewrite !list_lookup_fmap, list_lookup_alter. case_decide; subst; [|done].
    by destruct (h !! i).
Qed.

Lemma omap_assign j o r' src (h : list ToolCallOccurrence) :
  h !! j = Some o →
  let h' := alter (λ o, o <| result := Some r' |> <| sourceResult := Some src |>) j h in
  option_list o.(sourceResult) ++ omap sourceResult h' ≡ₚ src :: omap sourceResult h.
Proof.
  intros (l1 & l2 & -> & ->)%list_elem_of_split_length. cbv zeta. rewrite alter_app_r_alt by lia.
  rewrite Nat.sub_diag. cbn [alter list_alter]. rewrite !omap_app. cbn.
  destruct o.(sourceResult) as [s0|]; cbn; solve_Permutation.
Qed.

(** ** The scan of a frame *)

Definition results (ms : list (option AgentMessage)) : list AgentMessage := List.filter isResult (omap id ms).
Definition others (ms : list (option AgentMessage)) : list AgentMessage :=
  List.filter (λ m, negb (isResult m)) (omap id ms).

Lemma results_app l k : results (l ++ k) = results l ++ results k.
Proof. unfold results. by rewrite omap_app, List.filter_app. Qed.

Lemma others_app l k : others (l ++ k) = others l ++ others k.
Proof. unfold others. by rewrite omap_app, List.filter_app. Qed.

(** A cell of [id] that still waits for a result. *)
Definition openCell (h : list ToolCallOccurrence) (id : string) (j : nat) : bool :=
  hasId h id j && negb (bool_decide (is_Some (resultOf h j))).

Definition record_ok (rec : ToolResultRecord) : Prop :=
  rec.(r_result).(role) = RoleToolResult ∧ rec.(r_id) = extractToolResultId rec.(r_result) ∧
  carries rec.(r_source) rec.(r_result) ∧ known rec.(r_result).

Record scan_ok (c : Classification) (calls : list ToolCallLike) (occs : list nat)
    (body : list (option AgentMessage)) (s : FrameScan) : Prop := {
  so_cells : Forall cell_ok s.(sc_heap);
  so_calls : cellCall <$> s.(sc_heap) = (cellCall <$> c.(heap)) ++ calls;
  so_pending id : default [] (JsMap.get id s.(pending).(pendingById)) = List.filter (openCell s.(sc_heap) id) occs;
  so_synthetic id l j : JsMap.get id s.(syntheticById) = Some l → j ∈ l →
    hasId s.(sc_heap) id j = true ∧ is_Some (resultOf s.(sc_heap) j);
  so_others : s.(sc_remainder) = others body;
  so_records : Forall record_ok s.(sc_unclaimed);
  so_count : ∃ dropped, results body ++ omap sourceResult c.(heap) ≡ₚ
    omap sourceResult s.(sc_heap) ++ (r_source <$> s.(sc_unclaimed)) ++ dropped ∧
    s.(sc_duplicates) = c.(droppedDuplicateCount) + Z.of_nat (length dropped);
  so_next : (fresh0 ≤ s.(sc_next))%nat
}.

(** An assignment closes its cell and no other. *)
Lemma alter_cells j o r' src (h : list ToolCallOccurrence) :
  h !! j = Some o →
  let h' := alter (λ o, o <| result := Some r' |> <| sourceResult := Some src |>) j h in
  (∀ id k, hasId h' id k = hasId h id k) ∧
  (∀ k, resultOf h' k = if decide (k = j) then Some r' else resultOf h k) ∧
  (∀ id k, openCell h' id k = openCell h id k && negb (Nat.eqb k j)).
Proof.
  intros Ho. cbv zeta.
  assert (H1 : ∀ id k, hasId (alter (λ o, o <| result := Some r' |> <| sourceResult := Some src |>) j h) id k = hasId h id k).
  { intros id k. unfold hasId. rewrite list_lookup_alter. case_decide; subst; [|done]. by rewrite Ho. }
  assert (H2 : ∀ k, resultOf (alter (λ o, o <| result := Some r' |> <| sourceResult := Some src |>) j h) k =
    if decide (k = j) then Some r' else resultOf h k).
  { intros k. unfold resultOf. rewrite list_lookup_alter. do 2 case_decide; subst; try done. by rewrite Ho. }
  split_and!; [done|done|]. intros id k. unfold openCell. rewrite H1, H2. case_decide as E.
  - subst. rewrite Nat.eqb_refl. rewrite bool_decide_true by done. cbn. by rewrite !andb_false_r.
  - apply Nat.eqb_neq in E. by rewrite E, andb_true_r.
Qed.

Lemma filter_ext_bool {A} (f g : A → bool) l : (∀ a, a ∈ l → f a = g a) → List.filter f l = List.filter g l.
Proof.
  induction l as [|a l IH]; intros H; [done|]. cbn. rewrite (H a) by (by left). by rewrite IH by (intros; apply H; by right).
Qed.

Lemma elem_filter {A} (f : A → bool) l a : a ∈ List.filter f l ↔ a ∈ l ∧ f a = true.
Proof. by rewrite !list_elem_of_In, List.filter_In. Qed.

Lemma filter_and {A} (f g : A → bool) l : List.filter (λ a, f a && g a) l = List.filter g (List.filter f l).
Proof. induction l as [|a l IH]; [done|]. cbn. destruct (f a); cbn; [|done]. by destruct (g a); rewrite IH. Qed.

Lemma filter_true {A} (f : A → bool) l : (∀ a, a ∈ l → f a = true) → List.filter f l = l.
Proof. intros H. rewrite (filter_ext_bool f (λ _, true)) by done. by apply List.filter_true. Qed.

(** A claim takes the first waiting cell, and the queue waits for the rest. *)
Lemma claim_some h occs q id j q' r' src :
  (∀ i, default [] (JsMap.get i q.(pendingById)) = List.filter (openCell h i) occs) → NoDup occs →
  queueClaim id q = (Some j, q') →
  hasId h id j = true ∧ resultOf h j = None ∧ j ∈ occs ∧
  ∀ o i, h !! j = Some o →
    default [] (JsMap.get i q'.(pendingById)) =
    List.filter (openCell (alter (λ o, o <| result := Some r' |> <| sourceResult := Some src |>) j h) i) occs.
Proof.
  intros Hq Hn Hc. pose proof (Hq id) as Hid. revert Hc. unfold queueClaim.
  destruct (JsMap.get id q.(pendingById)) as [[|k rest]|]; [done| |done]. intros [= -> <-]. cbn in Hid.
  assert (Hnd : NoDup (j :: rest)).
  { rewrite Hid. clear -Hn. induction occs as [|a l IH]; [constructor|]. apply NoDup_cons in Hn as [Ha Hn]. cbn.
    destruct (openCell h id a); [|by apply IH]. constructor; [|by apply IH].
    by intros [H _]%elem_filter. }
  assert (Hj : j ∈ occs ∧ openCell h id j = true).
  { assert (H : j ∈ List.filter (openCell h id) occs) by (rewrite <-Hid; by left).
    by apply elem_filter in H. }
  destruct Hj as [Hin Ho]. apply andb_true_iff in Ho as [Ho1 Ho2%negb_true_iff%bool_decide_eq_false].
  split_and!; [done| |done|]; [destruct (resultOf h j); [by destruct Ho2|done]|].
  intros o i Hj. destruct (alter_cells j o r' src h Hj) as (_ & _ & H3).
  rewrite (filter_ext_bool _ _ _ (λ k _, H3 i k)), filter_and, <-Hq. cbn [pendingById].
  apply NoDup_cons in Hnd as [Hjr _]. destruct (decide (i = id)) as [->|Hne].
  - transitivity rest; [destruct rest; by rewrite ?JsMap.get_delete_eq, ?JsMap.get_set_eq|].
    rewrite Hq, <-Hid. cbn. rewrite Nat.eqb_refl. cbn. symmetry. apply filter_true. intros k Hk.
    apply negb_true_iff, Nat.eqb_neq. by intros ->.
  - transitivity (default [] (JsMap.get i q.(pendingById)));
      [destruct rest; by rewrite ?JsMap.get_delete_ne, ?JsMap.get_set_ne|].
    symmetry. apply filter_true. intros k Hk. apply negb_true_iff, Nat.eqb_neq. intros ->.
    rewrite Hq in Hk. apply elem_filter in Hk as [_ [Hk _]%andb_true_iff].
    apply hasId_lookup in Hk as (x & E1 & E2), Ho1 as (y & E3 & E4). congruence.
Qed.

Lemma claim_none {T} id (q q' : ToolCallOccurrenceQueue T) :
  queueClaim id q = (None, q') → q' = q ∧ default [] (JsMap.get id q.(pendingById)) = [].
Proof. unfold queueClaim. destruct (JsMap.get id q.(pendingById)) as [[|k rest]|]; [|done|]; by intros [= <-]. Qed.

Lemma resultOf_source h j o : Forall cell_ok h → h !! j = Some o →
  (resultOf h j = None ∧ o.(sourceResult) = None) ∨ (is_Some (resultOf h j) ∧ is_Some o.(sourceResult)).
Proof.
  intros Hok Ho. pose proof (proj1 (Forall_lookup _ _) Hok j o Ho) as Hc. unfold resultOf. rewrite Ho. cbn.
  unfold cell_ok in Hc. destruct o.(result), o.(sourceResult); try done; [by right|by left].
Qed.

Lemma results_snoc body m : m.(role) = RoleToolResult →
  results (body ++ [Some m]) = results body ++ [m] ∧ others (body ++ [Some m]) = others body.
Proof.
  intros H. rewrite results_app, others_app. unfold results at 2, others at 2, isResult. cbn.
  rewrite bool_decide_true by done. cbn. by rewrite app_nil_r.
Qed.

Lemma others_snoc body m : m.(role) ≠ RoleToolResult →
  results (body ++ [Some m]) = results body ∧ others (body ++ [Some m]) = others body ++ [m].
Proof.
  intros H. rewrite results_app, others_app. unfold results at 2, others at 2, isResult. cbn.
  rewrite bool_decide_false by done. cbn. by rewrite app_nil_r.
Qed.

(** A tool result of the transcript behind its legacy normalisation. *)
Definition incoming (m nm : AgentMessage) : Prop :=
  m.(role) = RoleToolResult ∧ nm.(role) = RoleToolResult ∧ carries m nm ∧ known nm.

Lemma take_ok c calls occs body s m nm id j q n :
  scan_ok c calls occs body s → NoDup occs → incoming m nm → extractToolResultId nm = Some id →
  queueClaim id s.(pending) = (Some j, q) → (s.(sc_next) ≤ n)%nat →
  scan_ok c calls occs (body ++ [Some m]) (takeResult j nm m (s <| sc_next := n |> <| pending := q |>)).
Proof.
  intros Hs Hnd (Hm & Hr & Hc & Hk) He Hq Hn. pose proof (so_next _ _ _ _ _ Hs).
  destruct (results_snoc body m Hm) as [E1 E2].
  destruct (claim_some _ _ _ _ _ _ nm m (so_pending _ _ _ _ _ Hs) Hnd Hq) as (Hj & Hnone & Hin & _).
  unfold takeResult. cbn [sc_heap sc_next update_field].
  destruct (assignResult j nm m s.(sc_heap) n) as [h' n'] eqn:Ea.
  destruct (assign_spec _ _ _ _ _ _ _ id Ea Hj (so_cells _ _ _ _ _ Hs) Hr He Hc Hk) as (Hok' & Hcalls' & Hn' & o & r' & Ho & Hid & -> & Hnm);
    [lia|].
  destruct (claim_some _ _ _ _ _ _ r' m (so_pending _ _ _ _ _ Hs) Hnd Hq) as (_ & _ & _ & Hp).
  destruct (alter_cells j o r' m _ Ho) as (H1 & H2 & _).
  destruct (resultOf_source _ j o (so_cells _ _ _ _ _ Hs) Ho) as [[_ Hsrc]|[[? Hbad] _]]; [|congruence].
  pose proof (omap_assign j o r' m _ Ho) as Hom. rewrite Hsrc in Hom. cbn in Hom.
  rewrite list_lookup_alter, decide_True, Ho by done. cbn.
  assert (Hsy : ∀ i l k, JsMap.get i (if isSyntheticMissingToolResult r' then pushTo o.(o_id) j s.(syntheticById) else s.(syntheticById)) = Some l →
    k ∈ l → hasId (alter (λ o, o <| result := Some r' |> <| sourceResult := Some m |>) j s.(sc_heap)) i k = true ∧
    is_Some (resultOf (alter (λ o, o <| result := Some r' |> <| sourceResult := Some m |>) j s.(sc_heap)) k)).
  { intros i l k Hl Hkl. rewrite H1, H2.
    assert (Hold : hasId s.(sc_heap) i k = true ∧ is_Some (resultOf s.(sc_heap) k) ∨ (i = id ∧ k = j)).
    { destruct (isSyntheticMissingToolResult r'); [|left; by eapply so_synthetic].
      unfold pushTo in Hl. rewrite JsMap.get_set in Hl. case_decide as Ei; [|left; by eapply so_synthetic].
      injection Hl as <-. apply elem_of_app in Hkl as [Hkl|Hkl%list_elem_of_singleton]; [left|right; by subst].
      destruct (JsMap.get o.(o_id) s.(syntheticById)) as [l0|] eqn:El; [|by apply not_elem_of_nil in Hkl].
      subst i. by eapply so_synthetic. }
    destruct Hold as [[? ?]|[-> ->]]; [|by rewrite decide_True]. split; [done|]. by case_decide. }
  assert (Hcount : ∃ dropped, results (body ++ [Some m]) ++ omap sourceResult c.(heap) ≡ₚ
    omap sourceResult (alter (λ o, o <| result := Some r' |> <| sourceResult := Some m |>) j s.(sc_heap)) ++
      (r_source <$> s.(sc_unclaimed)) ++ dropped ∧
    s.(sc_duplicates) = c.(droppedDuplicateCount) + Z.of_nat (length dropped)).
  { destruct (so_count _ _ _ _ _ Hs) as (dropped & Hd & Hl). exists dropped. split; [|done].
    rewrite E1, Hom, <-!app_assoc. cbn. rewrite <-Permutation_middle, Hd. done. }
  destruct (isSyntheticMissingToolResult r'); constructor; cbn; try done.
  all: first [exact (eq_trans Hcalls' (so_calls _ _ _ _ _ Hs)) | exact (λ i, Hp o i Ho)
    | rewrite E2; apply Hs | apply Hs | lia].
Qed.

(** A result that is not taken: it is counted, and may replace a synthetic one. *)
Lemma count_dropped c calls occs body s m :
  scan_ok c calls occs body s → m.(role) = RoleToolResult →
  ∃ dropped, results (body ++ [Some m]) ++ omap sourceResult c.(heap) ≡ₚ
    m :: omap sourceResult s.(sc_heap) ++ (r_source <$> s.(sc_unclaimed)) ++ dropped ∧
    s.(sc_duplicates) = c.(droppedDuplicateCount) + Z.of_nat (length dropped).
Proof.
  intros Hs Hm. destruct (so_count _ _ _ _ _ Hs) as (dropped & Hd & Hl). exists dropped. split; [|done].
  destruct (results_snoc body m Hm) as [-> _]. rewrite <-app_assoc. cbn. by rewrite <-Permutation_middle, Hd.
Qed.

Lemma duplicate_ok c calls occs body s m nm id n :
  scan_ok c calls occs body s → incoming m nm → extractToolResultId nm = Some id → (s.(sc_next) ≤ n)%nat →
  scan_ok c calls occs (body ++ [Some m]) (duplicateResult id nm m (s <| sc_next := n |>)).
Proof.
  intros Hs (Hm & Hr & Hc & Hk) He Hn. pose proof (so_next _ _ _ _ _ Hs) as Hf.
  destruct (results_snoc body m Hm) as [_ E2].
  destruct (count_dropped _ _ _ _ _ m Hs Hm) as (dropped & Hd & Hl).
  assert (Hplain : ∀ sy, (∀ i l k, JsMap.get i sy = Some l → k ∈ l → hasId s.(sc_heap) i k = true ∧ is_Some (resultOf s.(sc_heap) k)) →
    scan_ok c calls occs (body ++ [Some m]) (s <| sc_next := n |> <| sc_duplicates ::= λ k, k + 1 |> <| syntheticById := sy |>)).
  { intros sy Hsy. constructor; cbn; try apply Hs; [exact Hsy|rewrite E2; apply Hs| |lia].
    exists (m :: dropped). rewrite Hd. cbn [length]. split; [solve_Permutation|lia]. }
  unfold duplicateResult. cbn [syntheticById update_field].
  assert (Hold := Hplain s.(syntheticById) (so_synthetic _ _ _ _ _ Hs)).
  destruct (isSyntheticMissingToolResult nm); [exact Hold|].
  destruct (JsMap.get id s.(syntheticById)) as [[|j rest]|] eqn:Eg; [exact Hold| |exact Hold].
  destruct (so_synthetic _ _ _ _ _ Hs id (j :: rest) j Eg) as [Hj Hsome]; [by left|].
  cbn [sc_heap sc_next update_field].
  destruct (assignResult j nm m s.(sc_heap) n) as [h' n'] eqn:Ea.
  destruct (assign_spec _ _ _ _ _ _ _ id Ea Hj (so_cells _ _ _ _ _ Hs) Hr He Hc Hk) as (Hok' & Hcalls' & Hn' & o & r' & Ho & Hid & -> & Hnm);
    [lia|].
  destruct (alter_cells j o r' m _ Ho) as (H1 & H2 & H3).
  destruct (resultOf_source _ j o (so_cells _ _ _ _ _ Hs) Ho) as [[Hbad _]|[_ [s0 Hs0]]];
    [rewrite Hbad in Hsome; by destruct Hsome|].
  pose proof (omap_assign j o r' m _ Ho) as Hom. rewrite Hs0 in Hom. cbn in Hom.
  constructor; cbn; try done.
  - exact (eq_trans Hcalls' (so_calls _ _ _ _ _ Hs)).
  - intros i. rewrite (so_pending _ _ _ _ _ Hs). apply filter_ext_bool. intros k _. rewrite H3.
    destruct (Nat.eqb_spec k j) as [->|]; [|by rewrite andb_true_r]. unfold openCell.
    rewrite bool_decide_true by done. cbn. by rewrite !andb_false_r.
  - intros i l k El Hkl. rewrite H1, H2. assert (Hk' : hasId s.(sc_heap) i k = true ∧ is_Some (resultOf s.(sc_heap) k)).
    { rewrite JsMap.get_set in El. case_decide as Ei; [|by eapply so_synthetic]. injection El as <-. subst i.
      eapply so_synthetic; [done|exact Eg|by right]. }
    destruct Hk' as [? ?]. split; [done|]. by case_decide.
  - rewrite E2. apply Hs.
  - apply Hs.
  - exists (s0 :: dropped). cbn [length]. split; [|lia]. rewrite Hd.
    change (alter _ j (sc_heap s)) with (alter (λ o, o <| result := Some r' |> <| sourceResult := Some m |>) j s.(sc_heap)).
    rewrite app_comm_cons, <-Hom. cbn. solve_Permutation.
  - lia.
Qed.

Lemma unclaimed_ok c calls occs body s m nm n :
  scan_ok c calls occs body s → incoming m nm → (s.(sc_next) ≤ n)%nat →
  scan_ok c calls occs (body ++ [Some m])
    (s <| sc_next := n |>
       <| sc_unclaimed ::= λ l, l ++ [{| r_result := nm; r_source := m; r_id := extractToolResultId nm |}] |>).
Proof.
  intros Hs (Hm & Hr & Hc & Hk) Hn. pose proof (so_next _ _ _ _ _ Hs) as Hf.
  destruct (results_snoc body m Hm) as [_ E2]. destruct (count_dropped _ _ _ _ _ m Hs Hm) as (dropped & Hd & Hl).
  constructor; cbn; try apply Hs.
  - rewrite E2. apply Hs.
  - apply Forall_app. split; [apply Hs|]. apply Forall_singleton. by split_and!.
  - exists dropped. split; [|done]. rewrite fmap_app, Hd. cbn. solve_Permutation.
  - lia.
Qed.

Lemma scanMessage_ok c calls occs body s message :
  scan_ok c calls occs body s → NoDup occs → (∀ m, message = Some m → m ∈ given) →
  scan_ok c calls occs (body ++ [message]) (scanMessage false calls occs s message).
Proof.
  intros Hs Hnd Hg. destruct message as [m|]; cbn.
  2:{ constructor; try apply Hs; [rewrite others_app; cbn; rewrite app_nil_r; apply Hs|].
      destruct (so_count _ _ _ _ _ Hs) as (d & Hd). exists d. rewrite results_app. cbn. by rewrite app_nil_r. }
  case_bool_decide as Hm.
  2:{ destruct (others_snoc body m Hm) as [E1 E2]. constructor; cbn; try apply Hs; [rewrite E2; f_equal; apply Hs|].
      rewrite E1. apply Hs. }
  unfold scanResult. destruct (normalizeLegacyToolResultId s.(sc_next) m calls) as [nm n] eqn:En.
  pose proof (legacy_copy _ _ _ _ _ En) as (Hcp & Hc & _). pose proof (so_next _ _ _ _ _ Hs) as Hf.
  assert (Hn : (s.(sc_next) ≤ n)%nat) by (destruct Hcp as [[_ ->]|[_ ->]]; lia).
  assert (Hin : incoming m nm).
  { split_and!; [done|by rewrite (proj1 Hc)|done|]. destruct Hcp as [[-> _]|[Hr _]]; [left; by apply Hg|right; lia]. }
  destruct (extractToolResultId nm) as [id|] eqn:Ei.
  2:{ pose proof (unclaimed_ok _ _ _ _ _ _ _ n Hs Hin Hn) as H. by rewrite Ei in H. }
  cbn [pending update_field]. destruct (queueClaim id s.(pending)) as [[j|] q] eqn:Eq.
  - by eapply take_ok.
  - cbn [sc_heap update_field]. destruct (existsb _ occs); [by apply duplicate_ok|].
    pose proof (unclaimed_ok _ _ _ _ _ _ _ n Hs Hin Hn) as H. by rewrite Ei in H.
Qed.

Lemma filter_fmap {A B} (f : B → bool) (g : A → B) l : List.filter f (g <$> l) = g <$> List.filter (f ∘ g) l.
Proof. induction l as [|a l IH]; [done|]. cbn. destruct (f (g a)); cbn; by rewrite IH. Qed.

Lemma queue_fold base l (q : ToolCallOccurrenceQueue nat) i :
  default [] (JsMap.get i (foldl (λ q (kc : nat * ToolCallLike), queueAdd kc.2.(callRef) (base + kc.1)%nat q) q l).(pendingById)) =
  default [] (JsMap.get i q.(pendingById)) ++
    ((λ kc, (base + kc.1)%nat) <$> List.filter (λ kc, bool_decide (kc.2.(callRef) = i)) l).
Proof.
  revert q. induction l as [|[k c] l IH]; intros q; cbn [foldl]; [by rewrite app_nil_r|]. rewrite IH. cbn.
  unfold pushTo. rewrite JsMap.get_set. case_decide as E.
  - subst. rewrite bool_decide_true by done. cbn. by rewrite <-app_assoc.
  - by rewrite bool_decide_false.
Qed.

Lemma seq_imap {A} base (l : list A) : seq base (length l) = (λ ka, (base + ka.1)%nat) <$> imap pair l.
Proof.
  apply list_eq. intros i. rewrite list_lookup_fmap, list_lookup_imap. destruct (l !! i) eqn:E; cbn.
  - apply lookup_lt_Some in E. by rewrite lookup_seq_lt.
  - apply lookup_ge_None in E. by rewrite lookup_seq_ge.
Qed.

Lemma scanStart_ok c calls :
  Forall cell_ok c.(heap) → (fresh0 ≤ c.(nextRef))%nat →
  scan_ok c calls (seq (length c.(heap)) (length calls)) [] (scanStart calls c).
Proof.
  intros Hok Hf. constructor; cbn; try done.
  - apply Forall_app. split; [done|]. apply Forall_forall. by intros o (k & -> & _)%list_elem_of_fmap.
  - rewrite fmap_app, <-list_fmap_compose. f_equal. rewrite <-(list_fmap_id calls) at 2.
    apply list_fmap_ext. by intros ? [].
  - intros i. rewrite queue_fold, seq_imap, filter_fmap. cbn. f_equal. apply filter_ext_bool.
    intros [k x] (k' & y & [= <- <-] & Hk)%elem_of_lookup_imap. cbn. unfold openCell, hasId, resultOf.
    rewrite !lookup_app_r by lia. rewrite Nat.add_comm, Nat.add_sub, list_lookup_fmap, Hk. cbn. by rewrite andb_true_r.
  - exists []. split; [|by rewrite Z.add_0_r]. rewrite omap_app, app_nil_r.
    assert (E : omap sourceResult (newOccurrence <$> calls) = []) by (induction calls; [done|]; done).
    by rewrite E, app_nil_r.
Qed.

(** The scan of one assistant turn [m] with what follows up to the next one. *)
Definition scanned (m : AgentMessage) (start : nat) (body : list (option AgentMessage)) (c : Classification) :
    Classification :=
  let calls := extractToolCallsFromAssistant m in
  let occs := seq (length c.(heap)) (length calls) in
  let s := foldl (scanMessage false calls occs) (scanStart calls c) body in
  {| frames := c.(frames) ++
       [{| startIndex := start; endIndex := start + S (length body); assistant := m;
           remainder := s.(sc_remainder); unclaimedResults := s.(sc_unclaimed); occurrences := occs;
           failed := isFailed m |}];
     heap := s.(sc_heap); droppedDuplicateCount := s.(sc_duplicates);
     droppedOrphanCount := c.(droppedOrphanCount); nextRef := s.(sc_next) |}.

Lemma scanFrame_range pre m body rest c :
  scanFrame false (pre ++ Some m :: body ++ rest) c (length pre, (length pre + S (length body))%nat) =
  scanned m (length pre) body c.
Proof.
  unfold scanFrame. rewrite list_lookup_middle by done. cbn [mjoin option_join].
  replace (length pre + S (length body) - S (length pre))%nat with (length body) by lia.
  replace (drop (S (length pre)) (pre ++ Some m :: body ++ rest)) with (body ++ rest).
  - by rewrite take_app_length.
  - rewrite (cons_middle (Some m)), app_assoc. rewrite drop_app_length'; [done|]. rewrite length_app. cbn. lia.
Qed.

Lemma scan_fold c calls occs body0 body s :
  scan_ok c calls occs body0 s → NoDup occs → (∀ m, Some m ∈ body → m ∈ given) →
  scan_ok c calls occs (body0 ++ body) (foldl (scanMessage false calls occs) s body).
Proof.
  revert body0 s. induction body as [|x body IH]; intros body0 s Hs Hnd Hg; cbn [foldl]; [by rewrite app_nil_r|].
  rewrite (cons_middle x), app_assoc. apply IH; [|done|intros m Hm; apply Hg; by right].
  apply scanMessage_ok; [done..|]. intros m ->. apply Hg. by left.
Qed.

(** ** The turns of a transcript *)

(** What stands before the first turn with calls, and every such turn with
    what follows it. *)
Fixpoint segments (ms : list (option AgentMessage)) :
    list (option AgentMessage) * list (AgentMessage * list (option AgentMessage)) :=
  match ms with
  | [] => ([], [])
  | x :: rest =>
      let '(pre, segs) := segments rest in
      match x with
      | Some m => if isFrameStart x then ([], (m, pre) :: segs) else (x :: pre, segs)
      | None => (x :: pre, segs)
      end
  end.

Definition flat (segs : list (AgentMessage * list (option AgentMessage))) : list (option AgentMessage) :=
  segs ≫= λ s, Some s.1 :: s.2.

Fixpoint ranges (k : nat) (segs : list (AgentMessage * list (option AgentMessage))) : list (nat * nat) :=
  match segs with
  | [] => []
  | (_, b) :: rest => (k, (k + S (length b))%nat) :: ranges (k + S (length b)) rest
  end.

(** Messages that start no turn with calls. *)
Definition plain (ms : list (option AgentMessage)) : Prop := Forall (λ x, isFrameStart x = false) ms.

Lemma segments_flat ms pre segs :
  segments ms = (pre, segs) →
  ms = pre ++ flat segs ∧ plain pre ∧ Forall (λ s, isFrameStart (Some s.1) = true ∧ plain s.2) segs.
Proof.
  revert pre segs. induction ms as [|x ms IH]; intros pre segs E; [injection E as <- <-; split_and!; by constructor|]. cbn in E.
  destruct (segments ms) as [p q]. destruct (IH p q eq_refl) as (-> & Hp & Hq).
  destruct x as [m|].
  - destruct (isFrameStart (Some m)) eqn:Ef; cbn in Ef; cbn -[isFrameStart] in E; rewrite ?Ef in E;
      injection E as <- <-; split_and!; auto; constructor; auto.
  - injection E as <- <-. split_and!; auto. by constructor.
Qed.

Lemma starts_ranges i ms pre segs :
  segments ms = (pre, segs) → frameStartIndexes i ms = (ranges (i + length pre) segs).*1.
Proof.
  revert i pre segs. induction ms as [|x ms IH]; intros i pre segs E; [by injection E as <- <-|]. cbn [frameStartIndexes].
  cbn -[isFrameStart] in E. destruct (segments ms) as [p q]. rewrite (IH (S i) p q eq_refl).
  destruct x as [m|]; [destruct (isFrameStart (Some m))|]; injection E as <- <-; cbn;
    rewrite ?Nat.add_0_r, ?Nat.add_succ_r; done.
Qed.

Lemma length_flat_cons m b segs : length (flat ((m, b) :: segs)) = (S (length b) + length (flat segs))%nat.
Proof. unfold flat. cbn. by rewrite length_app. Qed.

Lemma zip_ranges k segs :
  zip (ranges k segs).*1 (tail (ranges k segs).*1 ++ [(k + length (flat segs))%nat]) = ranges k segs.
Proof.
  revert k. induction segs as [|[m b] segs IH]; intros k; [done|]. rewrite length_flat_cons.
  specialize (IH (k + S (length b))%nat). destruct segs as [|[m' b'] segs]; [unfold flat; cbn; by rewrite Nat.add_0_r|].
  rewrite Nat.add_assoc. cbn [ranges fmap list_fmap tail app zip zip_with fst] in *. f_equal. exact IH.
Qed.

Lemma frameRanges_segments ms pre segs : segments ms = (pre, segs) → frameRanges ms = ranges (length pre) segs.
Proof.
  intros E. unfold frameRanges. rewrite (starts_ranges 0 _ _ _ E). cbn [Nat.add].
  destruct (segments_flat _ _ _ E) as [-> _]. rewrite length_app. apply zip_ranges.
Qed.

Definition callsOf (segs : list (AgentMessage * list (option AgentMessage))) : list ToolCallLike :=
  segs ≫= λ s, extractToolCallsFromAssistant s.1.

(** The frames that a scan makes of turns, from the index [k] of the transcript
    and the address [base] of the heap on. *)
Fixpoint frames_match (k base : nat) (segs : list (AgentMessage * list (option AgentMessage)))
    (fs : list ToolUsePairingFrame) : Prop :=
  match segs, fs with
  | [], [] => True
  | (m, b) :: segs, f :: fs =>
      let n := length (extractToolCallsFromAssistant m) in
      f.(startIndex) = k ∧ f.(endIndex) = (k + S (length b))%nat ∧ f.(assistant) = m ∧ f.(failed) = isFailed m ∧
      f.(remainder) = others b ∧ f.(occurrences) = seq base n ∧ Forall record_ok f.(unclaimedResults) ∧
      frames_match (k + S (length b)) (base + n) segs fs
  | _, _ => False
  end.

Definition unclaimedSources (fs : list ToolUsePairingFrame) : list AgentMessage :=
  fs ≫= λ f, r_source <$> f.(unclaimedResults).

Record scanned_all (k : nat) (segs : list (AgentMessage * list (option AgentMessage))) (c c' : Classification)
    (fs : list ToolUsePairingFrame) : Prop := {
  sa_cells : Forall cell_ok c'.(heap);
  sa_next : (fresh0 ≤ c'.(nextRef))%nat;
  sa_frames : c'.(frames) = c.(frames) ++ fs;
  sa_match : frames_match k (length c.(heap)) segs fs;
  sa_calls : cellCall <$> c'.(heap) = (cellCall <$> c.(heap)) ++ callsOf segs;
  sa_count : ∃ dropped, results (segs ≫= snd) ++ omap sourceResult c.(heap) ≡ₚ
    omap sourceResult c'.(heap) ++ unclaimedSources fs ++ dropped ∧
    c'.(droppedDuplicateCount) = c.(droppedDuplicateCount) + Z.of_nat (length dropped);
  sa_orphans : c'.(droppedOrphanCount) = c.(droppedOrphanCount)
}.

Lemma count_chain {A} (r1 r2 h0 h1 h2 u1 u2 d1 d2 : list A) :
  r1 ++ h0 ≡ₚ h1 ++ u1 ++ d1 → r2 ++ h1 ≡ₚ h2 ++ u2 ++ d2 →
  (r1 ++ r2) ++ h0 ≡ₚ h2 ++ (u1 ++ u2) ++ d1 ++ d2.
Proof.
  intros P1 P2. transitivity (r2 ++ (r1 ++ h0)); [solve_Permutation|]. rewrite P1.
  transitivity ((r2 ++ h1) ++ u1 ++ d1); [solve_Permutation|]. rewrite P2. solve_Permutation.
Qed.

Lemma scan_all segs pre c :
  Forall cell_ok c.(heap) → (fresh0 ≤ c.(nextRef))%nat → (∀ m, Some m ∈ flat segs → m ∈ given) →
  ∃ fs, scanned_all (length pre) segs c (foldl (scanFrame false (pre ++ flat segs)) c (ranges (length pre) segs)) fs.
Proof.
  revert pre c. induction segs as [|[m b] segs IH]; intros pre c Hok Hf Hg; cbn [ranges foldl].
  { exists []. constructor; cbn; try done; [by rewrite app_nil_r|by rewrite app_nil_r|].
    exists []. by rewrite app_nil_r, Z.add_0_r. }
  change (flat ((m, b) :: segs)) with (Some m :: b ++ flat segs) in *. rewrite scanFrame_range.
  set (calls := extractToolCallsFromAssistant m). set (occs := seq (length c.(heap)) (length calls)).
  pose proof (scan_fold c calls occs [] b (scanStart calls c) (scanStart_ok c calls Hok Hf) (NoDup_seq _ _)) as Hs.
  cbn [app] in Hs. set (s := foldl (scanMessage false calls occs) (scanStart calls c) b) in *.
  destruct Hs as [Hc1 Hc2 _ _ Ho Hr Hcnt Hn]; [intros x Hx; apply Hg; right; apply elem_of_app; by left|].
  assert (Hlen : length s.(sc_heap) = (length c.(heap) + length calls)%nat).
  { apply (f_equal length) in Hc2. by rewrite length_app, !length_fmap in Hc2. }
  destruct (IH (pre ++ Some m :: b) (scanned m (length pre) b c)) as [fs [F1 F2 F3 F4 F5 F6 F7]]; [done|done| |].
  { intros x Hx. apply Hg. right. apply elem_of_app. by right. }
  rewrite length_app in *. cbn [length] in *. rewrite <-app_assoc in *. cbn [app] in *.
  eexists (_ :: fs). constructor; [done|done| | | | |done].
  - rewrite F3. cbn. by rewrite <-app_assoc.
  - cbn [frames_match]. cbn [heap scanned] in F4. fold calls occs s in F4. rewrite Hlen in F4.
    split_and!; done.
  - rewrite F5. cbn [heap scanned]. fold calls occs s. rewrite Hc2, <-app_assoc. done.
  - destruct F6 as (d2 & P2 & L2), Hcnt as (d1 & P1 & L1). exists (d1 ++ d2). cbn [heap droppedDuplicateCount scanned] in *.
    fold calls occs s in P2, L2. split; [|rewrite length_app; lia].
    change (((m, b) :: segs) ≫= snd) with (b ++ (segs ≫= snd)). rewrite results_app.
    exact (count_chain _ _ _ _ _ _ _ _ _ P1 P2).
Qed.

(** ** Displaced results *)

Lemma hasId_calls h h' id j : cellCall <$> h' = cellCall <$> h → hasId h' id j = hasId h id j.
Proof.
  intros E. apply (f_equal (lookup j)) in E. rewrite !list_lookup_fmap in E. unfold hasId.
  destruct (h !! j) as [o|], (h' !! j) as [o'|]; try done. cbn in E. by injection E as -> _.
Qed.

(** The lists of unresolved occurrences are filed under their ids. *)
Definition filed (h : list ToolCallOccurrence) (m : list (string * list nat)) : Prop :=
  ∀ id l j, JsMap.get id m = Some l → j ∈ l → hasId h id j = true.

Lemma filed_note h m occs : filed h m → filed h (foldl (noteUnresolved h) m occs).
Proof.
  revert m. induction occs as [|j occs IH]; intros m H; [done|]. cbn [foldl]. apply IH. unfold noteUnresolved.
  destruct (h !! j) as [o|] eqn:Eo; [|done]. destruct (isUnresolved o.(result)); [|done].
  intros id l k Hl Hk. unfold pushTo in Hl. rewrite JsMap.get_set in Hl. case_decide as E; [|by eapply H].
  injection Hl as <-. subst id. apply elem_of_app in Hk as [Hk|Hk%list_elem_of_singleton].
  - destruct (JsMap.get o.(o_id) m) eqn:Em; [by eapply H|by apply not_elem_of_nil in Hk].
  - subst k. apply hasId_lookup. by exists o.
Qed.

(** The state between two displaced results: [all] results of the transcript
    are in the heap, in the sources [rest] still to place, or dropped. *)
Record placing (calls : list ToolCallLike) (all rest : list AgentMessage) (c : Classification) : Prop := {
  pl_cells : Forall cell_ok c.(heap);
  pl_next : (fresh0 ≤ c.(nextRef))%nat;
  pl_calls : cellCall <$> c.(heap) = calls;
  pl_count : ∃ dropped, all ≡ₚ omap sourceResult c.(heap) ++ rest ++ dropped ∧
    c.(droppedDuplicateCount) + c.(droppedOrphanCount) = Z.of_nat (length dropped)
}.

Lemma place_one calls all rest un kept c rec :
  placing calls all (rec.(r_source) :: rest) c → filed c.(heap) un → record_ok rec →
  ∃ c', placeUnclaimed false un (kept, c) rec = (kept, c') ∧ placing calls all rest c' ∧ filed c'.(heap) un.
Proof.
  intros [Hok Hf Hcalls (dropped & Hd & Hl)] Hfile (Hr & Hid & Hc & Hk).
  assert (Hdrop : placing calls all rest (c <| droppedOrphanCount ::= λ n, n + 1 |>)).
  { constructor; cbn; [done..|]. exists (rec.(r_source) :: dropped). cbn [length]. split; [|lia].
    rewrite Hd. solve_Permutation. }
  unfold placeUnclaimed. destruct (candidatesFor c.(heap) un rec) as [|j [|]] eqn:Ec; [by eexists| |by eexists].
  assert (Hj : ∃ id, rec.(r_id) = Some id ∧ hasId c.(heap) id j = true).
  { unfold candidatesFor in Ec. destruct rec.(r_id) as [id|]; [|done]. exists id. split; [done|].
    assert (H : j ∈ [j]) by (by left). rewrite <-Ec in H. apply elem_filter in H as [H _].
    destruct (JsMap.get id un) eqn:E; [by eapply Hfile|by apply not_elem_of_nil in H]. }
  destruct Hj as (id & Eid & Hj). rewrite Eid in Hid.
  destruct (assignResult j rec.(r_result) rec.(r_source) c.(heap) c.(nextRef)) as [h' n'] eqn:Ea.
  destruct (assign_spec _ _ _ _ _ _ _ id Ea Hj Hok Hr (eq_sym Hid) Hc Hk Hf) as (Hok' & Hcalls' & Hn' & o & r' & Ho & _ & -> & _).
  pose proof (omap_assign j o r' rec.(r_source) _ Ho) as Hom.
  set (h' := alter _ j c.(heap)) in *. eexists. split; [reflexivity|]. split; [constructor|].
  - done.
  - cbn. lia.
  - etrans; [exact Hcalls'|done].
  - cbn [heap update_field]. destruct (resultOf_source _ j o Hok Ho) as [[E1 E2]|[[r0 E1] [s0 E2]]]; rewrite E1; rewrite E2 in Hom; cbn in Hom.
    + exists dropped. split; [|cbn; lia]. rewrite Hd, Hom. solve_Permutation.
    + exists (s0 :: dropped). split; [|cbn; lia]. rewrite Hd.
      transitivity ((rec.(r_source) :: omap sourceResult c.(heap)) ++ rest ++ dropped); [solve_Permutation|].
      rewrite <-Hom. solve_Permutation.
  - intros i l k Hi Hkl. rewrite <-(Hfile i l k Hi Hkl). by apply hasId_calls.
Qed.

Lemma place_frame calls all rest un kept c recs :
  placing calls all ((r_source <$> recs) ++ rest) c → filed c.(heap) un → Forall record_ok recs →
  ∃ c', foldl (placeUnclaimed false un) (kept, c) recs = (kept, c') ∧ placing calls all rest c' ∧ filed c'.(heap) un.
Proof.
  revert c. induction recs as [|rec recs IH]; intros c Hp Hfile Hrec; cbn [foldl]; [by exists c|].
  apply Forall_cons in Hrec as [Hrec Hrest]. cbn in Hp.
  destruct (place_one _ _ _ _ kept _ _ Hp Hfile Hrec) as (c' & -> & Hp' & Hfile'). by apply IH.
Qed.

Lemma frame_eta (f : ToolUsePairingFrame) : f <| remainder := f.(remainder) |> = f.
Proof. by destruct f. Qed.

Lemma place_all calls all fs un done_ c :
  placing calls all (unclaimedSources fs) c → filed c.(heap) un → Forall (λ f, Forall record_ok f.(unclaimedResults)) fs →
  ∃ un' c', foldl (placeFrame false) (un, done_, c) fs = (un', done_ ++ fs, c') ∧ placing calls all [] c'.
Proof.
  revert un done_ c. induction fs as [|f fs IH]; intros un done_ c Hp Hfile Hrec; cbn [foldl].
  { exists un, c. by rewrite app_nil_r. }
  apply Forall_cons in Hrec as [Hrec Hrest]. unfold placeFrame at 2. 
  destruct (place_frame calls all (unclaimedSources fs) (foldl (noteUnresolved c.(heap)) un f.(occurrences)) f.(remainder) c
    f.(unclaimedResults)) as (c1 & -> & Hp1 & Hf1); [exact Hp|by apply filed_note|done|].
  rewrite frame_eta. destruct (IH (foldl (noteUnresolved c.(heap)) un f.(occurrences)) (done_ ++ [f]) c1) as (un' & c' & E & Hp'); [done..|].
  exists un', c'. rewrite E, <-app_assoc. done.
Qed.

Lemma match_records k base segs fs : frames_match k base segs fs → Forall (λ f, Forall record_ok f.(unclaimedResults)) fs.
Proof.
  revert k base fs. induction segs as [|[m b] segs IH]; intros k base [|f fs]; cbn; try done.
  intros (_ & _ & _ & _ & _ & _ & H & Hr). constructor; [done|by eapply IH].
Qed.

(** What the classification establishes. *)
Record classified (pre : list (option AgentMessage)) (segs : list (AgentMessage * list (option AgentMessage)))
    (c : Classification) : Prop := {
  cl_cells : Forall cell_ok c.(heap);
  cl_next : (fresh0 ≤ c.(nextRef))%nat;
  cl_calls : cellCall <$> c.(heap) = callsOf segs;
  cl_match : frames_match (length pre) 0 segs c.(frames);
  cl_count : ∃ dropped, results (segs ≫= snd) ≡ₚ omap sourceResult c.(heap) ++ dropped ∧
    c.(droppedDuplicateCount) + c.(droppedOrphanCount) = Z.of_nat (length dropped)
}.

Lemma classify_ok ms pre segs :
  segments ms = (pre, segs) → (∀ m, Some m ∈ ms → m ∈ given) →
  classified pre segs (classifyToolUseResultPairing false ms fresh0).
Proof.
  intros E Hg. unfold classifyToolUseResultPairing. rewrite (frameRanges_segments _ _ _ E).
  destruct (segments_flat _ _ _ E) as [Hms _].
  destruct (scan_all segs pre {| frames := []; heap := []; droppedDuplicateCount := 0; droppedOrphanCount := 0; nextRef := fresh0 |})
    as [fs [F1 F2 F3 F4 F5 F6 F7]]; [done|done| |].
  { intros m Hm. apply Hg. rewrite Hms. apply elem_of_app. by right. }
  rewrite <-Hms in *. set (c := foldl _ _ _) in *. cbn in F3, F4, F5, F6, F7.
  destruct F6 as (dropped & Hd & Hl). rewrite app_nil_r in Hd. rewrite F3.
  destruct (place_all (callsOf segs) (results (segs ≫= snd)) fs [] [] c) as (un' & c' & -> & [P1 P2 P3 (d & P4 & P5)]).
  - constructor; [done..|]. exists dropped. split; [done|]. lia.
  - by intros id l j H.
  - by eapply match_records.
  - constructor; try done. by exists d.
Qed.

(** ** What a repair writes *)

(** The results written for the cells of a turn, and those of them that were
    made up. *)
Inductive emits (now : Z) (text : option string) (isFailedFrame : bool) :
    list ToolCallOccurrence → list AgentMessage → list AgentMessage → Prop :=
| emits_nil : emits now text isFailedFrame [] [] []
| emits_result o r cells rs adds :
    o.(result) = Some r → emits now text isFailedFrame cells rs adds →
    emits now text isFailedFrame (o :: cells) (r :: rs) adds
| emits_skipped o cells rs adds :
    o.(result) = None → isFailedFrame = true → emits now text isFailedFrame cells rs adds →
    emits now text isFailedFrame (o :: cells) rs adds
| emits_missing n o cells rs adds :
    o.(result) = None → isFailedFrame = false → (fresh0 ≤ n)%nat → emits now text isFailedFrame cells rs adds →
    let missing := makeMissingToolResult n now o.(o_id) o.(o_name) text in
    emits now text isFailedFrame (o :: cells) (missing :: rs) (missing :: adds).

(** The output for turns whose occurrences are [cells]. *)
Inductive replay (now : Z) (options : ToolUseResultPairingOptions) :
    list (AgentMessage * list (option AgentMessage)) → list ToolCallOccurrence →
    list AgentMessage → list AgentMessage → Prop :=
| replay_nil : replay now options [] [] [] []
| replay_turn m b segs mine cells rs adds o a :
    cellCall <$> mine = extractToolCallsFromAssistant m →
    emits now options.(missingToolResultText) (isFailed m) mine rs adds →
    replay now options segs cells o a →
    replay now options ((m, b) :: segs) (mine ++ cells)
      ((if isFailed m && options.(dropErrored) then [] else m :: rs) ++ others b ++ o)
      ((if isFailed m && options.(dropErrored) then [] else adds) ++ a).

Lemma emit_cells now text bad h cells base s :
  drop base h = cells ++ drop (base + length cells) h → (fresh0 ≤ s.(repairRef))%nat →
  ∃ rs adds, emits now text bad cells rs adds ∧
    let s' := foldl (emitOccurrence now text bad h) s (seq base (length cells)) in
    s'.(out) = s.(out) ++ rs ∧ s'.(addedNow) = s.(addedNow) ++ adds ∧ s'.(cursor) = s.(cursor) ∧
    s'.(orphans) = s.(orphans) ∧ (fresh0 ≤ s'.(repairRef))%nat.
Proof.
  revert base s. induction cells as [|o cells IH]; intros base s Hd Hf; cbn [length seq foldl].
  { exists [], []. rewrite !app_nil_r. split; [constructor|done]. }
  assert (Ho : h !! base = Some o).
  { replace base with (base + 0)%nat by lia. rewrite <-lookup_drop, Hd. done. }
  assert (Hd' : drop (S base) h = cells ++ drop (S base + length cells) h).
  { replace (S base) with (base + 1)%nat at 1 by lia. rewrite <-drop_drop, Hd. cbn. by rewrite Nat.add_succ_r. }
  cbv zeta. remember (emitOccurrence now text bad h s base) as s1 eqn:Es. unfold emitOccurrence in Es.
  rewrite Ho in Es.
  destruct (IH (S base) s1 Hd') as (rs & adds & He & E1 & E2 & E3 & E4 & E5);
    [subst s1; destruct o.(result); [|destruct bad]; cbn; lia|].
  cbv zeta in *. destruct o.(result) as [r|] eqn:Er; [|destruct bad].
  - exists (r :: rs), adds. split; [by constructor|]. rewrite E1, E2, E3, E4.
    split_and!; [rewrite Es; cbn; by rewrite <-app_assoc|by rewrite Es..|done].
  - exists rs, adds. split; [by constructor|]. rewrite E1, E2, E3, E4. split_and!; [by rewrite Es..|done].
  - eexists (_ :: rs), (_ :: adds). split; [by apply emits_missing; [..|exact Hf|]|].
    rewrite E1, E2, E3, E4. split_and!; [rewrite Es; cbn; by rewrite <-app_assoc..|by rewrite Es|by rewrite Es|done].
Qed.

Lemma push_range l mid r s :
  s.(cursor) = length l →
  let s' := pushUnframedRange false (l ++ mid ++ r) (length l + length mid) s in
  s'.(out) = s.(out) ++ others mid ∧ s'.(orphans) = s.(orphans) + Z.of_nat (length (results mid)) ∧
  s'.(addedNow) = s.(addedNow) ∧ s'.(repairRef) = s.(repairRef) ∧ s'.(cursor) = (length l + length mid)%nat.
Proof.
  intros Hc. cbv zeta. unfold pushUnframedRange. rewrite Hc, Nat.add_comm, Nat.add_sub, drop_app_length, take_app_length.
  assert (H : ∀ t, let t' := foldl (pushUnframed false) t mid in
    t'.(out) = t.(out) ++ others mid ∧ t'.(orphans) = t.(orphans) + Z.of_nat (length (results mid)) ∧
    t'.(addedNow) = t.(addedNow) ∧ t'.(repairRef) = t.(repairRef)).
  { clear Hc. cbv zeta. induction mid as [|[m|] mid IH]; intros t; cbn [foldl]; [by rewrite app_nil_r, Z.add_0_r| |apply IH].
    destruct (IH (pushUnframed false t (Some m))) as (-> & -> & -> & ->). unfold others, results, isResult. cbn.
    case_bool_decide; cbn; rewrite <-?app_assoc; cbn; split_and!; try done; lia. }
  destruct (H s) as (E1 & E2 & E3 & E4). cbn. split_and!; [done..|lia].
Qed.

Lemma emitFrame_ok now opts l mid m b rest h mine f base s :
  opts.(preserveUnframedToolResults) = false → s.(cursor) = length l → (fresh0 ≤ s.(repairRef))%nat →
  f.(startIndex) = (length l + length mid)%nat → f.(endIndex) = (length l + length mid + S (length b))%nat →
  f.(assistant) = m → f.(failed) = isFailed m → f.(remainder) = others b → f.(occurrences) = seq base (length mine) →
  drop base h = mine ++ drop (base + length mine) h →
  ∃ rs adds, emits now opts.(missingToolResultText) (isFailed m) mine rs adds ∧
    let s' := emitFrame now opts (l ++ mid ++ rest) h s f in
    let gone := isFailed m && opts.(dropErrored) in
    s'.(out) = s.(out) ++ others mid ++ (if gone then [] else m :: rs) ++ others b ∧
    s'.(addedNow) = s.(addedNow) ++ (if gone then [] else adds) ∧
    s'.(orphans) = s.(orphans) + Z.of_nat (length (results mid)) ∧
    s'.(cursor) = (length l + length mid + S (length b))%nat ∧ (fresh0 ≤ s'.(repairRef))%nat.
Proof.
  intros Hopt Hc Hf Hs1 Hs2 Hm Hbad Hrem Hocc Hd. cbv zeta. unfold emitFrame. rewrite Hopt, Hs1, Hs2, Hm, Hbad, Hrem, Hocc.
  destruct (push_range l mid rest s Hc) as (P1 & P2 & P3 & P4 & P5).
  remember (pushUnframedRange false (l ++ mid ++ rest) (length l + length mid) s) as s1 eqn:Es1.
  destruct (emit_cells now opts.(missingToolResultText) (isFailed m) h mine base
    (s1 <| cursor := (length l + length mid + S (length b))%nat |> <| out ::= λ l, l ++ [m] |>) Hd)
    as (rs & adds & He & E1 & E2 & E3 & E4 & E5); [cbn; lia|].
  exists rs, adds. split; [done|]. destruct (isFailed m && opts.(dropErrored)).
  - cbn. rewrite P1, P2, P3, !app_nil_r, <-app_assoc. split_and!; try done. lia.
  - cbv zeta in *. remember (foldl _ _ _) as s2 eqn:Es2. cbn in E1, E2, E3, E4 |- *.
    rewrite E1, E2, E3, E4, P1, P2, P3, <-!app_assoc. split_and!; done.
Qed.

Lemma replay_all now opts segs fs l mid h cells base s :
  opts.(preserveUnframedToolResults) = false → s.(cursor) = length l → (fresh0 ≤ s.(repairRef))%nat →
  frames_match (length l + length mid) base segs fs → drop base h = cells → cellCall <$> cells = callsOf segs →
  let ms := l ++ mid ++ flat segs in
  ∃ o a, replay now opts segs cells o a ∧
    let s' := pushUnframedRange false ms (length ms) (foldl (emitFrame now opts ms h) s fs) in
    s'.(out) = s.(out) ++ others mid ++ o ∧ s'.(addedNow) = s.(addedNow) ++ a ∧
    s'.(orphans) = s.(orphans) + Z.of_nat (length (results mid)).
Proof.
  intros Hopt. revert fs l mid cells base s. induction segs as [|[m b] segs IH];
    intros [|f fs] l mid cells base s Hc Hf Hm Hd Hcalls; try done; cbv zeta; cbn [foldl].
  { exists [], []. destruct cells; [|done]. split; [constructor|]. rewrite !length_app. cbn [flat length].
    replace (length l + (length mid + length (flat [])))%nat with (length l + length mid)%nat by (unfold flat; cbn; lia).
    destruct (push_range l mid (flat []) s Hc) as (-> & -> & -> & _). by rewrite !app_nil_r. }
  cbn [frames_match] in Hm. destruct Hm as (M1 & M2 & M3 & M4 & M5 & M6 & _ & Hm).
  set (n := length (extractToolCallsFromAssistant m)) in *.
  change (callsOf ((m, b) :: segs)) with (extractToolCallsFromAssistant m ++ callsOf segs) in Hcalls.
  assert (Hsplit : ∃ mine more, cells = mine ++ more ∧ cellCall <$> mine = extractToolCallsFromAssistant m ∧ cellCall <$> more = callsOf segs).
  { apply fmap_app_inv in Hcalls as (x & y & -> & -> & ->). by exists x, y. }
  destruct Hsplit as (mine & more & -> & Hmine & Hmore).
  assert (Hn : length mine = n) by (unfold n; by rewrite <-Hmine, length_fmap).
  assert (Hd' : drop (base + n) h = more).
  { rewrite <-drop_drop, Hd, <-Hn. apply drop_app_length. }
  change (flat ((m, b) :: segs)) with (Some m :: b ++ flat segs).
  destruct (emitFrame_ok now opts l mid m b (Some m :: b ++ flat segs) h mine f base s) as (rs & adds & He & E1 & E2 & E3 & E4 & E5);
    try done; [by rewrite Hn|by rewrite Hn, Hd'|].
  cbv zeta in *. set (s1 := emitFrame _ _ _ _ s f) in *.
  destruct (IH fs (l ++ mid ++ Some m :: b) [] more (base + n)%nat s1) as (o & a & Hr & F1 & F2 & F3); try done.
  - rewrite E4, !length_app. cbn. lia.
  - replace (length (l ++ mid ++ Some m :: b) + length [])%nat with (length l + length mid + S (length b))%nat; [done|].
    rewrite !length_app. cbn. lia.
  - cbv zeta in *. eexists _, _. split; [by eapply replay_turn|].
    replace ((l ++ mid ++ Some m :: b) ++ [] ++ flat segs) with (l ++ mid ++ Some m :: b ++ flat segs) in *
      by (rewrite <-!app_assoc; done).
    rewrite F1, F2, F3, E1, E2, E3. rewrite <-!app_assoc. split_and!; [done..|cbn; lia].
Qed.

Lemma elem_others m (ms : list (option AgentMessage)) : m ∈ others ms → Some m ∈ ms.
Proof. intros [(x & Hx & E)%list_elem_of_omap _]%elem_filter. by rewrite <-E. Qed.

Lemma emits_known now text bad cells rs adds :
  emits now text bad cells rs adds → Forall cell_ok cells → Forall known rs.
Proof.
  induction 1; intros Hok; try apply Forall_cons in Hok as [Ho Hok]; [constructor|constructor; [|by apply IHemits]|by apply IHemits|constructor; [by right|by apply IHemits]].
  unfold cell_ok in Ho. rewrite H in Ho. destruct o.(sourceResult); [|done]. by destruct Ho as (_ & _ & _ & _ & ?).
Qed.

Lemma replay_known now opts segs cells o a :
  replay now opts segs cells o a → Forall cell_ok cells → (∀ m, Some m ∈ flat segs → m ∈ given) → Forall known o.
Proof.
  induction 1 as [|m b segs mine cells rs adds o a Hc He Hr IH]; intros Hok Hg; [constructor|].
  apply Forall_app in Hok as [Hmine Hok]. change (flat ((m, b) :: segs)) with (Some m :: b ++ flat segs) in Hg.
  apply Forall_app. split; [|apply Forall_app; split].
  - destruct (_ && _); [constructor|]. constructor; [left; apply Hg; by left|by eapply emits_known].
  - apply Forall_forall. intros x Hx%elem_others. left. apply Hg. right. apply elem_of_app. by left.
  - apply IH; [done|]. intros x Hx. apply Hg. right. apply elem_of_app. by right.
Qed.
End Identity.

(** The objects of a transcript: an address names one object, and [fresh] and
    the addresses behind it are free. *)
Record objects (ms : list (option AgentMessage)) (fresh : nat) : Prop := {
  ob_same a b : Some a ∈ ms → Some b ∈ ms → a.(ref) = b.(ref) → a = b;
  ob_fresh a : Some a ∈ ms → (a.(ref) < fresh)%nat
}.

Lemma elem_given (ms : list (option AgentMessage)) m : Some m ∈ ms ↔ m ∈ omap id ms.
Proof. rewrite list_elem_of_omap. unfold id. split; [by exists (Some m)|]. by intros (x & ? & ->). Qed.

(** The comparison of addresses is exact. *)
Lemma unchanged_same ms fresh o :
  objects ms fresh → Forall (known (omap id ms) fresh) o →
  (λ m, Some m.(ref)) <$> o = fmap ref <$> ms → ms = Some <$> o.
Proof.
  intros [Hs Hf] Hk E. apply list_eq. intros i. pose proof (f_equal (lookup i) E) as Ei.
  rewrite !list_lookup_fmap in *. destruct (o !! i) as [x|] eqn:Ex, (ms !! i) as [y|] eqn:Ey; cbn in *; try done.
  f_equal. injection Ei as Ei. destruct y as [y|]; [|done]. cbn in Ei. injection Ei as Ei. f_equal.
  apply list_elem_of_lookup_2 in Ey. pose proof (Hf y Ey) as Hy.
  pose proof (proj1 (Forall_lookup _ _) Hk i x Ex) as [Hx|Hx]; [|lia].
  apply Hs; [done|by apply elem_given|done].
Qed.

(** A repair that drops what it cannot place, as a whole. *)
Record repaired (now : Z) (opts : ToolUseResultPairingOptions) (ms : list (option AgentMessage)) (fresh : nat)
    (rep : ToolUseRepairReport) (pre : list (option AgentMessage))
    (segs : list (AgentMessage * list (option AgentMessage))) (c : Classification) (o : list AgentMessage) : Prop := {
  re_segments : segments ms = (pre, segs);
  re_class : classified (omap id ms) fresh pre segs c;
  re_replay : replay fresh now opts segs c.(heap) o rep.(added);
  re_messages : rep.(messages) = Some <$> (others pre ++ o);
  re_moved : rep.(moved) = negb (bool_decide ((λ m, Some m.(ref)) <$> (others pre ++ o) = fmap ref <$> ms));
  re_duplicates : rep.(rp_duplicates) = c.(droppedDuplicateCount);
  re_orphans : rep.(rp_orphans) = c.(droppedOrphanCount) + Z.of_nat (length (results pre))
}.

Lemma repair_ok now opts ms fresh :
  opts.(preserveUnframedToolResults) = false → objects ms fresh →
  ∃ pre segs o, repaired now opts ms fresh (repairToolUseResultPairing now opts ms fresh) pre segs
    (classifyToolUseResultPairing false ms fresh) o.
Proof.
  intros Hopt Hob. destruct (segments ms) as [pre segs] eqn:Eseg.
  destruct (segments_flat _ _ _ Eseg) as (Hms & _ & _).
  pose proof (classify_ok (omap id ms) fresh ms pre segs Eseg) as Hcl. unfold repairToolUseResultPairing. rewrite Hopt.
  set (c := classifyToolUseResultPairing false ms fresh) in *.
  specialize (Hcl (λ m H, proj1 (elem_given ms m) H)). pose proof Hcl as [C1 C2 C3 C4 C5].
  destruct (replay_all (omap id ms) fresh now opts segs c.(frames) [] pre c.(heap) c.(heap) 0
    {| out := []; cursor := 0; orphans := c.(droppedOrphanCount); addedNow := []; repairRef := c.(nextRef) |})
    as (o & a & Hr & E1 & E2 & E3); try done.
  cbv zeta in *. cbn [app] in *. rewrite <-Hms in *. cbn in E1, E2, E3. exists pre, segs, o.
  assert (Hk : Forall (known (omap id ms) fresh) (others pre ++ o)).
  { apply Forall_app. split.
    - apply Forall_forall. intros x Hx%elem_others. left. apply elem_given. rewrite Hms. apply elem_of_app. by left.
    - eapply replay_known; [done..|]. intros x Hx. apply elem_given. rewrite Hms. apply elem_of_app. by right. }
  constructor; cbn; try done; rewrite ?E1, ?E2, ?E3; try done.
  case_bool_decide as Hsame; cbn; [|done]. by apply (unchanged_same _ fresh).
Qed.

(** ** Transcripts in which every call is followed by its result *)

Section Paired.
(** When a result answers a call. *)
Variable answer : ToolCallLike → AgentMessage → Prop.

(** [strict] excludes turns that failed. *)
Inductive paired (strict : bool) : list AgentMessage → Prop :=
| paired_nil : paired strict []
| paired_other m l :
    isResult m = false → isFrameStart (Some m) = false → paired strict l → paired strict (m :: l)
| paired_turn m rs l :
    isFrameStart (Some m) = true → isFailed m = false →
    Forall2 answer (extractToolCallsFromAssistant m) rs → paired strict l → paired strict (m :: rs ++ l)
| paired_failed m calls rs l :
    strict = false → isFrameStart (Some m) = true → isFailed m = true →
    calls `sublist_of` extractToolCallsFromAssistant m → Forall2 answer calls rs →
    paired strict l → paired strict (m :: rs ++ l).

Lemma paired_others strict b l : plain b → paired strict l → paired strict (others b ++ l).
Proof.
  intros Hb Hl. induction Hb as [|[m|] b Hm Hb IH]; [done| |exact IH].
  unfold others. cbn. destruct (isResult m) eqn:E; cbn; [exact IH|]. by apply paired_other.
Qed.

Lemma emits_answer given fresh0 now text bad cells rs adds :
  emits fresh0 now text bad cells rs adds → Forall (cell_ok given fresh0) cells →
  (∀ o r, o ∈ cells → cell_ok given fresh0 o → o.(result) = Some r → answer (cellCall o) r) →
  (∀ n o, o ∈ cells → answer (cellCall o) (makeMissingToolResult n now o.(o_id) o.(o_name) text)) →
  ∃ calls, calls `sublist_of` (cellCall <$> cells) ∧ (bad = false → calls = cellCall <$> cells) ∧
    Forall2 answer calls rs.
Proof.
  intros He. induction He as [|o r cells rs adds Hr He IH|o cells rs adds Hr Hb He IH|n o cells rs adds Hr Hb Hn He IH];
    intros Hok H1 H2; [by exists []|..];
    apply Forall_cons in Hok as [Ho Hok];
    (destruct IH as (calls & Hs & Hall & H); [done|intros; apply H1; [by right|done..]|intros; apply H2; by right|]).
  - exists (cellCall o :: calls). split_and!; [by constructor|by intros ->%Hall|]. constructor; [|done]. apply H1; [by left|done..].
  - exists calls. split_and!; [by constructor|by subst|done].
  - exists (cellCall o :: calls). split_and!; [by constructor|by intros ->%Hall|]. constructor; [|done]. apply H2. by left.
Qed.

Lemma replay_paired given fresh0 now opts segs cells o a :
  replay fresh0 now opts segs cells o a → Forall (cell_ok given fresh0) cells →
  Forall (λ s, isFrameStart (Some s.1) = true ∧ plain s.2) segs →
  (∀ o r, o ∈ cells → cell_ok given fresh0 o → o.(result) = Some r → answer (cellCall o) r) →
  (∀ n o, o ∈ cells → answer (cellCall o) (makeMissingToolResult n now o.(o_id) o.(o_name) opts.(missingToolResultText))) →
  paired opts.(dropErrored) o.
Proof.
  intros Hr. induction Hr as [|m b segs mine cells rs adds o a Hc He Hr IH]; intros Hok Hseg H1 H2; [constructor|].
  apply Forall_app in Hok as [Hmine Hok]. apply Forall_cons in Hseg as [[Hm Hb] Hseg].
  assert (Hrest : paired opts.(dropErrored) (others b ++ o)).
  { apply paired_others; [done|]. apply IH; [done|done|..]; intros; [apply H1|apply H2]; try done; apply elem_of_app; by right. }
  destruct (emits_answer _ _ _ _ _ _ _ _ He Hmine) as (calls & Hs & Hall & Hans);
    [intros; apply H1; [apply elem_of_app; by left|done..]|intros; apply H2; apply elem_of_app; by left|].
  rewrite Hc in *. destruct (isFailed m) eqn:Ef; cbn [andb].
  - destruct opts.(dropErrored) eqn:Ed; [exact Hrest|]. by apply (paired_failed _ m calls).
  - rewrite (Hall eq_refl) in Hans. by apply paired_turn.
Qed.
End Paired.

(** A result answers the call it names; one that is made up names it as well,
    but where the id is not trimmed only literally. *)
Definition answers (c : ToolCallLike) (r : AgentMessage) : Prop :=
  r.(role) = RoleToolResult ∧
  (extractToolResultId r = Some c.(callRef) ∨
   isSyntheticMissingToolResult r = true ∧ r.(toolCallId) = Some c.(callRef)).


(** ** Nothing is lost *)

(** What stays of the messages that are no results. *)
Definition staying (drop : bool) (m : AgentMessage) : bool :=
  negb (drop && isFrameStart (Some m) && isFailed m).

Lemma omap_some (l : list AgentMessage) : omap id (Some <$> l) = l.
Proof.
  induction l as [|m l IH]; [done|]. change (omap id (Some <$> m :: l)) with (m :: omap id (Some <$> l)). by rewrite IH.
Qed.

Lemma others_fmap l : others (Some <$> l) = List.filter (λ m, negb (isResult m)) l.
Proof. unfold others. by rewrite omap_some. Qed.

Lemma results_fmap l : results (Some <$> l) = List.filter isResult l.
Proof. unfold results. by rewrite omap_some. Qed.

Lemma frameStart_other m : isFrameStart (Some m) = true → isResult m = false.
Proof. cbn. intros [H%bool_decide_eq_true _]%andb_true_iff. unfold isResult. by rewrite H. Qed.

Lemma emits_results given fresh0 now text bad cells rs adds :
  emits fresh0 now text bad cells rs adds → Forall (cell_ok given fresh0) cells →
  Forall (λ r, isResult r = true) rs ∧ rs ≡ₚ omap result cells ++ adds.
Proof.
  induction 1 as [|o r cells rs adds Hr He IH|o cells rs adds Hr Hb He IH|n o cells rs adds Hr Hb Hn He IH]; intros Hok; [done|..];
    apply Forall_cons in Hok as [Ho Hok]; destruct (IH Hok) as [H1 H2]; cbn; rewrite Hr; cbn.
  - split; [|by rewrite H2]. constructor; [|done]. unfold cell_ok in Ho. rewrite Hr in Ho.
    destruct o.(sourceResult); [|done]. unfold isResult. by rewrite bool_decide_true by apply Ho.
  - done.
  - split; [by constructor|]. by rewrite H2, Permutation_middle.
Qed.

Lemma filter_results rs : Forall (λ r, isResult r = true) rs →
  List.filter isResult rs = rs ∧ List.filter (λ m, negb (isResult m)) rs = [].
Proof. induction 1 as [|r rs Hr _ [IH1 IH2]]; [done|]. cbn. rewrite Hr. cbn. by rewrite IH1, IH2. Qed.

Lemma filter_plain drop b : plain b → List.filter (staying drop) (others b) = others b.
Proof.
  intros Hb. apply filter_true. intros m Hm%elem_others. pose proof (proj1 (Forall_forall _ _) Hb _ Hm) as H.
  unfold staying. by rewrite H, andb_false_r.
Qed.

Lemma replay_others given fresh0 now opts segs cells o a :
  replay fresh0 now opts segs cells o a → Forall (cell_ok given fresh0) cells →
  Forall (λ s, isFrameStart (Some s.1) = true ∧ plain s.2) segs →
  others (Some <$> o) = List.filter (staying opts.(dropErrored)) (others (flat segs)).
Proof.
  induction 1 as [|m b segs mine cells rs adds o a Hc He Hr IH]; intros Hok Hseg; [done|].
  apply Forall_app in Hok as [Hmine Hok]. apply Forall_cons in Hseg as [[Hm Hb] Hseg].
  destruct (emits_results _ _ _ _ _ _ _ _ He Hmine) as [Hrs _]. apply filter_results in Hrs as [_ Hrs].
  change (flat ((m, b) :: segs)) with ([Some m] ++ b ++ flat segs).
  rewrite !fmap_app, !others_app, !List.filter_app, IH, (filter_plain _ b Hb) by done. f_equal.
  - cbn [fst] in Hm. rewrite others_fmap. unfold others. cbn. rewrite (frameStart_other m Hm). cbn.
    unfold staying. rewrite Hm, andb_true_r, andb_comm. destruct (opts.(dropErrored) && isFailed m); cbn; [done|].
    by rewrite (frameStart_other m Hm), Hrs.
  - f_equal. rewrite others_fmap. apply filter_true. by intros x [_ ?]%elem_filter.
Qed.

Lemma results_others b : results (Some <$> others b) = [].
Proof.
  rewrite results_fmap. unfold others. induction (omap id b) as [|m l IH]; [done|]. cbn.
  destruct (isResult m) eqn:E; cbn; [done|]. by rewrite E.
Qed.

Lemma replay_results given fresh0 now opts segs cells o a :
  opts.(dropErrored) = false → replay fresh0 now opts segs cells o a → Forall (cell_ok given fresh0) cells →
  Forall (λ s, isFrameStart (Some s.1) = true ∧ plain s.2) segs →
  results (Some <$> o) ≡ₚ omap result cells ++ a.
Proof.
  intros Hd. induction 1 as [|m b segs mine cells rs adds o a Hc He Hr IH]; intros Hok Hseg; [done|].
  apply Forall_app in Hok as [Hmine Hok]. apply Forall_cons in Hseg as [[Hm Hb] Hseg].
  destruct (emits_results _ _ _ _ _ _ _ _ He Hmine) as [Hrs Hp]. apply filter_results in Hrs as [Hrs _].
  rewrite Hd, andb_false_r, !fmap_app, !results_app, results_others, IH by done.
  rewrite results_fmap. cbn in Hm |- *. rewrite (frameStart_other m Hm), Hrs, Hp, omap_app. solve_Permutation.
Qed.

Lemma cells_carry given fresh0 cells :
  Forall (cell_ok given fresh0) cells → Forall2 carries (omap sourceResult cells) (omap result cells).
Proof.
  induction 1 as [|o cells Ho _ IH]; [constructor|]. cbn. unfold cell_ok in Ho.
  destruct o.(result), o.(sourceResult); try done. constructor; [|done]. apply Ho.
Qed.

Lemma results_flat segs :
  Forall (λ s, isFrameStart (Some s.1) = true ∧ plain s.2) segs → results (flat segs) = results (segs ≫= snd).
Proof.
  induction 1 as [|[m b] segs [Hm _] _ IH]; [done|]. change (flat ((m, b) :: segs)) with ([Some m] ++ b ++ flat segs).
  change (((m, b) :: segs) ≫= snd) with (b ++ (segs ≫= snd)). rewrite !results_app, IH.
  unfold results at 1. cbn in Hm |- *. by rewrite (frameStart_other m Hm).
Qed.

Lemma emits_added fresh0 now text bad cells rs adds :
  emits fresh0 now text bad cells rs adds → Forall (λ r, isSyntheticMissingToolResult r = true) adds.
Proof. induction 1; [done|done|done|by constructor]. Qed.

Lemma replay_added fresh0 now opts segs cells o a :
  replay fresh0 now opts segs cells o a → Forall (λ r, isSyntheticMissingToolResult r = true) a.
Proof.
  induction 1; [done|]. apply Forall_app. split; [|done]. destruct (_ && _); [done|]. by eapply emits_added.
Qed.


(** ** A repaired transcript needs no repair *)

(** A result that stands for its call as it is. *)
Definition settled (c : ToolCallLike) (r : AgentMessage) : Prop :=
  r.(role) = RoleToolResult ∧ extractToolResultId r = Some c.(callRef) ∧ nameSettled c.(callName) r.

Definition full (c : ToolCallLike) (r : AgentMessage) : ToolCallOccurrence :=
  {| o_id := c.(callRef); o_name := c.(callName); result := Some r; sourceResult := Some r |}.

(** The scan after the results [rs1] of the calls [cs1]. *)
Record half_scanned (c : Classification) (cs1 : list ToolCallLike) (rs1 : list AgentMessage)
    (cs2 : list ToolCallLike) (s : FrameScan) : Prop := {
  hs_heap : s.(sc_heap) = c.(heap) ++ zip_with full cs1 rs1 ++ (newOccurrence <$> cs2);
  hs_remainder : s.(sc_remainder) = [];
  hs_unclaimed : s.(sc_unclaimed) = [];
  hs_duplicates : s.(sc_duplicates) = c.(droppedDuplicateCount);
  hs_next : s.(sc_next) = c.(nextRef)
}.

(** The next waiting cell is that of the next call. *)
Lemma claim_next (c : Classification) cs1 rs1 c0 cs2 (h : list ToolCallOccurrence) :
  length cs1 = length rs1 → h = c.(heap) ++ zip_with full cs1 rs1 ++ (newOccurrence <$> c0 :: cs2) →
  ∃ rest, List.filter (openCell h c0.(callRef)) (seq (length c.(heap)) (length (cs1 ++ c0 :: cs2))) =
    (length c.(heap) + length cs1)%nat :: rest.
Proof.
  intros Hlen ->. rewrite length_app, seq_app, List.filter_app. cbn [length seq List.filter].
  assert (Hz : length (zip_with full cs1 rs1) = length cs1) by (rewrite length_zip_with; lia).
  match goal with |- context [List.filter ?f (seq _ (length cs1)) ++ _] => assert (E : List.filter f (seq (length c.(heap)) (length cs1)) = []) end.
  { destruct (List.filter _ _) as [|k l] eqn:Ef; [done|]. exfalso.
    assert (Hk : k ∈ k :: l) by (by left). rewrite <-Ef in Hk. apply elem_filter in Hk as [Hk Ho].
    apply elem_of_seq in Hk. unfold openCell, resultOf in Ho. rewrite lookup_app_r, lookup_app_l in Ho by lia.
    destruct (zip_with full cs1 rs1 !! (k - length c.(heap))%nat) as [o|] eqn:Eo;
      [|apply lookup_ge_None in Eo; lia].
    apply lookup_zip_with_Some in Eo as (x & y & -> & _ & _). cbn in Ho. by rewrite andb_false_r in Ho. }
  rewrite E. cbn [app].
  unfold openCell at 1, hasId, resultOf. rewrite lookup_app_r by lia.
  replace (length c.(heap) + length cs1 - length c.(heap))%nat with (length (zip_with full cs1 rs1)) by lia.
  rewrite fmap_cons, list_lookup_middle by done. cbn. rewrite bool_decide_true by done. cbn. by eexists.
Qed.

Lemma scan_next given c cs1 rs1 c0 cs2 body r s :
  scan_ok given 0 c (cs1 ++ c0 :: cs2) (seq (length c.(heap)) (length (cs1 ++ c0 :: cs2))) body s →
  length cs1 = length rs1 → half_scanned c cs1 rs1 (c0 :: cs2) s → settled c0 r →
  half_scanned c (cs1 ++ [c0]) (rs1 ++ [r]) cs2
    (scanMessage false (cs1 ++ c0 :: cs2) (seq (length c.(heap)) (length (cs1 ++ c0 :: cs2))) s (Some r)).
Proof.
  intros Hs Hlen [Hh Hrem Hun Hdup Hnext] (Hrole & Hid & Hname). cbn. rewrite bool_decide_true by done. unfold scanResult.
  destruct (normalizeLegacyToolResultId s.(sc_next) r (cs1 ++ c0 :: cs2)) as [nm n] eqn:En.
  assert (Enm : nm = r ∧ n = s.(sc_next)).
  { unfold normalizeLegacyToolResultId in En. rewrite Hid in En. by injection En as <- <-. }
  destruct Enm as [-> ->]. rewrite Hid. cbn [pending sc_heap update_field].
  pose proof (so_pending _ _ _ _ _ _ _ Hs c0.(callRef)) as Hp.
  destruct (claim_next c cs1 rs1 c0 cs2 s.(sc_heap) Hlen Hh) as [rest Erest]. rewrite Erest in Hp.
  unfold queueClaim. destruct (JsMap.get c0.(callRef) s.(pending).(pendingById)) as [[|k l]|]; [done| |done].
  cbn in Hp. injection Hp as -> ->.
  set (j := (length c.(heap) + length cs1)%nat).
  assert (Hj : j = length (c.(heap) ++ zip_with full cs1 rs1)).
  { rewrite length_app, length_zip_with. unfold j. lia. }
  assert (Hcell : s.(sc_heap) !! j = Some (newOccurrence c0)).
  { rewrite Hh, app_assoc, Hj. by rewrite fmap_cons, list_lookup_middle. }
  unfold takeResult, assignResult. cbn [sc_heap sc_next update_field]. rewrite Hcell. cbn [o_name newOccurrence].
  rewrite Hname. rewrite list_lookup_alter, decide_True, Hcell by done. cbn [fmap option_fmap option_map result update_field].
  assert (E : alter (λ o, o <| result := Some r |> <| sourceResult := Some r |>) j s.(sc_heap) =
    c.(heap) ++ zip_with full (cs1 ++ [c0]) (rs1 ++ [r]) ++ (newOccurrence <$> cs2)).
  { rewrite Hh, !app_assoc, Hj, alter_app_r_alt, Nat.sub_diag by lia. rewrite <-!app_assoc. f_equal.
    rewrite zip_with_app by done. by rewrite <-app_assoc. }
  destruct (isSyntheticMissingToolResult r); constructor; cbn; done.
Qed.

Lemma scan_results given c cs1 rs1 cs2 rs2 body s :
  scan_ok given 0 c (cs1 ++ cs2) (seq (length c.(heap)) (length (cs1 ++ cs2))) body s →
  (∀ r, r ∈ rs2 → r ∈ given) → length cs1 = length rs1 → half_scanned c cs1 rs1 cs2 s → Forall2 settled cs2 rs2 →
  half_scanned c (cs1 ++ cs2) (rs1 ++ rs2) []
    (foldl (scanMessage false (cs1 ++ cs2) (seq (length c.(heap)) (length (cs1 ++ cs2)))) s (Some <$> rs2)).
Proof.
  intros Hs Hg Hlen Hh H. revert cs1 rs1 body s Hs Hlen Hh Hg.
  induction H as [|c0 r cs2 rs2 Hr H IH]; intros cs1 rs1 body s Hs Hlen Hh Hg; cbn [fmap list_fmap foldl].
  { by rewrite !app_nil_r in *. }
  pose proof (scan_next given _ _ _ _ _ _ _ _ Hs Hlen Hh Hr) as Hh'.
  pose proof (scanMessage_ok given 0 _ _ _ _ _ (Some r) Hs (NoDup_seq _ _)) as Hs'.
  rewrite (cons_middle c0 cs1 cs2), (cons_middle r rs1 rs2), !app_assoc in *.
  eapply IH; [apply Hs'; intros m [= <-]; apply Hg; by left|by rewrite !length_app, Hlen|exact Hh'|intros; apply Hg; by right].
Qed.

(** A turn with calls, its results, and the messages up to the next one. *)
Abbreviation turn := (AgentMessage * list AgentMessage * list AgentMessage)%type.

Definition turnSegment (t : turn) : AgentMessage * list (option AgentMessage) :=
  (t.1.1, Some <$> (t.1.2 ++ t.2)).

Definition turnCells (t : turn) : list ToolCallOccurrence :=
  zip_with full (extractToolCallsFromAssistant t.1.1) t.1.2.

Definition turnOk (t : turn) : Prop :=
  isFrameStart (Some t.1.1) = true ∧ isFailed t.1.1 = false ∧
  Forall2 settled (extractToolCallsFromAssistant t.1.1) t.1.2 ∧
  Forall (λ m, isResult m = false ∧ isFrameStart (Some m) = false) t.2.

Definition turnOut (t : turn) : list AgentMessage := t.1.1 :: t.1.2 ++ t.2.

Lemma scan_others calls occs q s :
  Forall (λ m, isResult m = false ∧ isFrameStart (Some m) = false) q →
  let s' := foldl (scanMessage false calls occs) s (Some <$> q) in
  s'.(sc_heap) = s.(sc_heap) ∧ s'.(sc_unclaimed) = s.(sc_unclaimed) ∧
  s'.(sc_duplicates) = s.(sc_duplicates) ∧ s'.(sc_next) = s.(sc_next).
Proof.
  cbv zeta. intros H. revert s. induction H as [|m q [Hm _] H IH]; intros s; [done|]. cbn [fmap list_fmap foldl].
  destruct (IH (scanMessage false calls occs s (Some m))) as (-> & -> & -> & ->). cbn.
  apply bool_decide_eq_false in Hm. by rewrite bool_decide_false.
Qed.

Lemma turn_scanned given t k c :
  Forall (cell_ok given 0) c.(heap) → (∀ r, r ∈ t.1.2 → r ∈ given) → turnOk t →
  let c' := scanned t.1.1 k (turnSegment t).2 c in
  c'.(heap) = c.(heap) ++ turnCells t ∧ c'.(droppedDuplicateCount) = c.(droppedDuplicateCount) ∧
  c'.(droppedOrphanCount) = c.(droppedOrphanCount) ∧
  ∃ f, c'.(frames) = c.(frames) ++ [f] ∧ f.(unclaimedResults) = [].
Proof.
  intros Hok Hg (Hm & Hbad & Hrs & Hq). destruct t as [[m rs] q]. cbn [fst snd turnSegment] in *. cbv zeta. unfold scanned.
  set (calls := extractToolCallsFromAssistant m) in *. rewrite fmap_app, foldl_app.
  pose proof (scan_results given c [] [] calls rs [] (scanStart calls c)) as H. cbn [app] in H.
  destruct H as [H1 H2 H3 H4 H5]; [apply scanStart_ok; [done|lia]|done|done|by constructor|done|].
  set (s := foldl _ _ (Some <$> rs)) in *.
  destruct (scan_others calls (seq (length c.(heap)) (length calls)) q s Hq) as (E1 & E2 & E3 & E4).
  cbn [heap droppedDuplicateCount droppedOrphanCount frames]. rewrite E1, E2, E3, H1, H3, H4. unfold turnCells. cbn [fst snd].
  rewrite app_nil_r. split_and!; [done..|]. eexists. by split.
Qed.

Lemma turn_cells_ok given t : turnOk t → Forall (cell_ok given 0) (turnCells t).
Proof.
  intros (_ & _ & H & _). unfold turnCells. induction H as [|c r cs rs (H1 & H2 & H3) _ IH]; [constructor|].
  constructor; [|done]. cbn. split_and!; [done..|apply carries_refl|right; lia].
Qed.

Lemma turns_scanned given turns pre c :
  Forall (cell_ok given 0) c.(heap) → (∀ t r, t ∈ turns → r ∈ t.1.2 → r ∈ given) → Forall turnOk turns →
  let c' := foldl (scanFrame false (pre ++ flat (turnSegment <$> turns))) c (ranges (length pre) (turnSegment <$> turns)) in
  c'.(heap) = c.(heap) ++ (turns ≫= turnCells) ∧ c'.(droppedDuplicateCount) = c.(droppedDuplicateCount) ∧
  c'.(droppedOrphanCount) = c.(droppedOrphanCount) ∧
  ∃ fs, c'.(frames) = c.(frames) ++ fs ∧ Forall (λ f, f.(unclaimedResults) = []) fs.
Proof.
  cbv zeta. intros Hok Hg H. revert pre c Hok Hg.
  induction H as [|t turns Ht H IH]; intros pre c Hok Hg; cbn [fmap list_fmap ranges foldl].
  { split_and!; [by rewrite app_nil_r|done..|]. exists []. by rewrite app_nil_r. }
  destruct (turnSegment t) as [m b] eqn:Et. change (flat ((m, b) :: (turnSegment <$> turns))) with (Some m :: b ++ flat (turnSegment <$> turns)).
  cbn [ranges foldl]. rewrite scanFrame_range.
  destruct (turn_scanned given t (length pre) c Hok) as (E1 & E2 & E3 & f & E4 & E5); [intros r Hr; eapply Hg; [by left|done]|done|].
  rewrite Et in *. assert (Hm : t.1.1 = m) by (by apply (f_equal fst) in Et). rewrite Hm in *. cbn [snd] in *.
  specialize (IH (pre ++ Some m :: b) (scanned m (length pre) b c)).
  rewrite length_app in IH. cbn [length] in IH. rewrite <-app_assoc in IH. cbn [app] in IH.
  destruct IH as (F1 & F2 & F3 & fs & F4 & F5).
  { rewrite E1. apply Forall_app. split; [done|by apply turn_cells_ok]. }
  { intros t' r Ht' Hr. eapply Hg; [by right|done]. }
  rewrite F1, F2, F3, E1, E2, E3, <-app_assoc. split_and!; [done..|].
  exists (f :: fs). rewrite F4, E4, <-app_assoc. split; [done|by constructor].
Qed.

Lemma place_nothing fs un done_ c :
  Forall (λ f, f.(unclaimedResults) = []) fs →
  ∃ un', foldl (placeFrame false) (un, done_, c) fs = (un', done_ ++ fs, c).
Proof.
  intros H. revert un done_. induction H as [|f fs Hf H IH]; intros un done_; cbn [foldl]; [exists un; by rewrite app_nil_r|].
  unfold placeFrame at 2. rewrite Hf. cbn [foldl]. rewrite frame_eta.
  destruct (IH (foldl (noteUnresolved c.(heap)) un f.(occurrences)) (done_ ++ [f])) as [un' E]. exists un'.
  by rewrite E, <-app_assoc.
Qed.

Lemma turns_classified ms p turns fresh :
  segments ms = (Some <$> p, turnSegment <$> turns) → Forall turnOk turns →
  let c := classifyToolUseResultPairing false ms fresh in
  c.(heap) = (turns ≫= turnCells) ∧ c.(droppedDuplicateCount) = 0 ∧ c.(droppedOrphanCount) = 0.
Proof.
  intros Es H. cbv zeta. unfold classifyToolUseResultPairing. rewrite (frameRanges_segments _ _ _ Es).
  destruct (segments_flat _ _ _ Es) as [Hms _].
  pose proof (turns_scanned (turns ≫= λ t, t.1.2) turns (Some <$> p)
    {| frames := []; heap := []; droppedDuplicateCount := 0; droppedOrphanCount := 0; nextRef := fresh |}) as Hs.
  rewrite <-Hms in Hs. destruct Hs as (E1 & E2 & E3 & fs & E4 & E5); [constructor| |done|].
  { intros t r Ht Hr. apply list_elem_of_bind. by exists t. }
  set (c := foldl _ _ _) in *. rewrite E4. cbn [app frames]. destruct (place_nothing fs [] [] c E5) as [un' ->]. cbn. done.
Qed.

Lemma emits_full fresh0 now text bad calls rs out_ adds :
  length calls = length rs → emits fresh0 now text bad (zip_with full calls rs) out_ adds → out_ = rs ∧ adds = [].
Proof.
  revert rs out_ adds. induction calls as [|c calls IH]; intros [|r rs] out_ adds Hlen H; try done; cbn in H; inversion H; subst; try done.
  destruct (IH rs rs0 adds) as [-> ->]; [cbn in Hlen; lia|done|]. by injection H2 as ->.
Qed.

Lemma replay_turns fresh0 now opts turns o a :
  Forall turnOk turns → replay fresh0 now opts (turnSegment <$> turns) (turns ≫= turnCells) o a →
  o = turns ≫= turnOut ∧ a = [].
Proof.
  intros H. revert o a. induction H as [|[[m rs] q] turns (Hm & Hbad & Hrs & Hq) H IH]; intros o a Hr.
  - cbn in Hr. inversion Hr; subst; try done. 
  - cbn [fst snd] in *.
    change ((m, rs, q) :: turns ≫= turnCells) with (zip_with full (extractToolCallsFromAssistant m) rs ++ (turns ≫= turnCells)) in Hr.
    cbn [fmap list_fmap] in Hr. inversion Hr as [|m' b segs mine cells rs' adds o' a' Hc He Hr' E1 E2 E3 E4]; subst.
    apply Forall2_length in Hrs as Hlen.
    assert (Hmine : mine = zip_with full (extractToolCallsFromAssistant m) rs ∧ cells = (turns ≫= turnCells)).
    { apply app_inj_1; [|done]. rewrite length_zip_with. apply (f_equal length) in Hc. rewrite length_fmap in Hc. lia. }
    destruct Hmine as [-> ->]. apply emits_full in He as [-> ->]; [|done]. destruct (IH _ _ Hr') as [-> ->].
    rewrite Hbad. cbn [andb app]. split; [|done]. change (((m, rs, q) :: turns) ≫= turnOut) with ((m :: rs ++ q) ++ (turns ≫= turnOut)).
    unfold turnSegment. cbn [snd fst]. rewrite others_fmap, List.filter_app.
    assert (Hr0 : Forall (λ r, isResult r = true) rs).
    { apply Forall_forall. intros r Hin. apply (Forall2_Forall_r _ (λ r, isResult r = true)) in Hrs; [by eapply Forall_forall in Hrs|].
      apply Forall_forall. intros c _ r' (Hrole & _). unfold isResult. by rewrite bool_decide_true. }
    destruct (filter_results rs Hr0) as [_ ->]. cbn [app].
    rewrite filter_true; [by rewrite <-!app_assoc|]. intros x Hx. eapply Forall_forall in Hq as [-> _]; [done|exact Hx].
Qed.

(** A strictly paired transcript, cut into turns. *)
Lemma paired_turns l :
  paired settled true l →
  ∃ p turns, l = p ++ (turns ≫= turnOut) ∧ segments (Some <$> l) = (Some <$> p, turnSegment <$> turns) ∧
    Forall turnOk turns ∧ Forall (λ m, isResult m = false ∧ isFrameStart (Some m) = false) p.
Proof.
  induction 1 as [|m l Hr Hm H (p & turns & -> & E & Hok & Hp)|m rs l Hm Hbad Hans H (p & turns & -> & E & Hok & Hp)|]; [|..|done].
  - exists [], []. repeat split; constructor.
  - exists (m :: p), turns. split_and!; [done| |done|by constructor].
    change (Some <$> m :: p ++ (turns ≫= turnOut)) with (Some m :: (Some <$> p ++ (turns ≫= turnOut))).
    cbn -[isFrameStart]. by rewrite E, Hm.
  - exists [], ((m, rs, p) :: turns). split_and!; [| |by constructor|constructor].
    + change (((m, rs, p) :: turns) ≫= turnOut) with ((m :: rs ++ p) ++ (turns ≫= turnOut)). cbn. by rewrite <-app_assoc.
    + change (Some <$> m :: rs ++ p ++ (turns ≫= turnOut)) with (Some m :: (Some <$> rs ++ p ++ (turns ≫= turnOut))).
      assert (Ers : segments (Some <$> rs ++ p ++ (turns ≫= turnOut)) = (Some <$> rs ++ p, turnSegment <$> turns)).
      { clear Hm Hbad. induction Hans as [|c r cs rs (Hrole & _) _ IH]; [exact E|].
        change (Some <$> (r :: rs) ++ ?k) with (Some r :: (Some <$> rs ++ k)). cbn -[isFrameStart]. rewrite IH.
        assert (Ef : isFrameStart (Some r) = false) by (cbn; by rewrite Hrole). by rewrite Ef. }
      cbn -[isFrameStart]. by rewrite Ers, Hm.
Qed.

Lemma repair_paired now opts l fresh :
  opts.(preserveUnframedToolResults) = false → paired settled true l →
  repairToolUseResultPairing now opts (Some <$> l) fresh =
  {| messages := Some <$> l; added := []; rp_duplicates := 0; rp_orphans := 0; moved := false |}.
Proof.
  intros Hopt Hl. destruct (paired_turns l Hl) as (p & turns & El & Es & Hok & Hp).
  destruct (turns_classified _ _ _ fresh Es Hok) as (C1 & C2 & C3).
  pose proof (classify_ok (omap id (Some <$> l)) fresh _ _ _ Es (λ m H, proj1 (elem_given _ m) H)) as [_ D2 D3 D4 _].
  unfold repairToolUseResultPairing. rewrite Hopt. set (c := classifyToolUseResultPairing false (Some <$> l) fresh) in *.
  destruct (segments_flat _ _ _ Es) as [Hms _].
  destruct (replay_all (omap id (Some <$> l)) fresh now opts (turnSegment <$> turns) c.(frames) [] (Some <$> p) c.(heap) c.(heap) 0
    {| out := []; cursor := 0; orphans := c.(droppedOrphanCount); addedNow := []; repairRef := c.(nextRef) |})
    as (o & a & Hr & E1 & E2 & E3); try done.
  cbv zeta in *. cbn [app] in *. rewrite <-Hms in *. rewrite C1 in Hr. destruct (replay_turns _ _ _ _ _ _ Hok Hr) as [-> ->].
  assert (Hpo : others (Some <$> p) = p).
  { rewrite others_fmap. apply filter_true. intros m Hm. by eapply Forall_forall in Hp as [-> _]. }
  assert (Hpr : results (Some <$> p) = []).
  { rewrite results_fmap. clear -Hp. induction Hp as [|m p [Hm _] _ IH]; [done|]. cbn. by rewrite Hm. }
  cbn [out addedNow orphans app] in E1, E2, E3. rewrite Hpo, <-El in E1. rewrite Hpr, Z.add_0_r in E3.
  rewrite E1, E2, E3, C2, C3. rewrite bool_decide_true; [done|]. by rewrite <-list_fmap_compose.
Qed.

(** A call whose id and name are as a repair of the inputs leaves them. *)
Definition tidyCall (c : ToolCallLike) : Prop :=
  js_trim c.(callRef) = c.(callRef) ∧ c.(callRef) ≠ EmptyString ∧
  ∀ n, c.(callName) = Some n → js_trim n = n ∧ n ≠ EmptyString.

Lemma missing_settled n now c text :
  tidyCall c → settled c (makeMissingToolResult n now c.(callRef) c.(callName) text).
Proof.
  intros (Ht & Hn & Hname). split_and!; [done| |].
  - unfold extractToolResultId, extractToolResultIds. cbn. rewrite Ht. by rewrite !bool_decide_false by (done || apply not_elem_of_nil).
  - intros k. unfold normalizeToolResultName. cbn [toolName makeMissingToolResult].
    assert (H : normalizeOptionalString (Some (default "unknown" c.(callName))) = Some (default "unknown" c.(callName))).
    { destruct c.(callName) as [x|]; cbn [default from_option id]; [destruct (Hname x eq_refl); by apply normalizeOptional_fix|reflexivity]. }
    rewrite H. by rewrite bool_decide_true.
Qed.


(** ** The tail kept by a reset *)

Lemma filter_Permutation {A} (f : A → bool) l k : l ≡ₚ k → List.filter f l ≡ₚ List.filter f k.
Proof.
  induction 1 as [|a l k H IH|a b l|l k j H1 IH1 H2 IH2]; cbn; [done| | |by etrans].
  - destruct (f a); by rewrite IH.
  - destruct (f a), (f b); try done. apply perm_swap.
Qed.

(** Filtering by the addresses of a part of a list gives that part. *)
Lemma filter_refs (kept rest : list AgentMessage) :
  NoDup (ref <$> kept ++ rest) →
  List.filter (λ m, bool_decide (m.(ref) ∈ ref <$> kept)) (kept ++ rest) = kept.
Proof.
  intros Hn. rewrite fmap_app in Hn. apply NoDup_app in Hn as (_ & Hn & _).
  rewrite List.filter_app, filter_true; [|intros m Hm; by apply bool_decide_eq_true, list_elem_of_fmap_2].
  assert (E : List.filter (λ m, bool_decide (m.(ref) ∈ ref <$> kept)) rest = []).
  { destruct (List.filter _ rest) as [|m l] eqn:Ef; [done|]. exfalso.
    assert (Hm : m ∈ m :: l) by (by left). rewrite <-Ef in Hm. apply elem_filter in Hm as [Hm Hk%bool_decide_eq_true].
    by apply (Hn _ Hk), list_elem_of_fmap_2. }
  by rewrite E, app_nil_r.
Qed.

Lemma entryMessages_filter pairedResults entries :
  results (Some <$> entryMessages (List.filter (keepEntry pairedResults) entries)) =
  List.filter (λ m, bool_decide (m.(ref) ∈ pairedResults)) (results (Some <$> entryMessages entries)).
Proof.
  rewrite !results_fmap. induction entries as [|[m|] entries IH]; [done| |exact IH]. cbn.
  change (entryMessages (MessageEntry m :: entries)) with (m :: entryMessages entries). unfold isResult in *. cbn.
  destruct m.(role) eqn:Er; cbn; rewrite ?bool_decide_false by done; try exact IH.
  - change (entryMessages (MessageEntry m :: ?k)) with (m :: entryMessages k). cbn. by rewrite Er, bool_decide_false.
  - change (entryMessages (MessageEntry m :: ?k)) with (m :: entryMessages k). cbn. by rewrite Er, bool_decide_false.
  - rewrite (bool_decide_true (RoleToolResult = _)) by done. cbn. destruct (bool_decide (m.(ref) ∈ pairedResults)) eqn:E; [|exact IH].
    change (entryMessages (MessageEntry m :: ?k)) with (m :: entryMessages k). cbn. rewrite Er, bool_decide_true by done.
    f_equal. exact IH.
Qed.

(** A reset keeps the results that a call owns, each once, and no other. *)
Theorem reset_keeps_owned entries fresh :
  NoDup (ref <$> entryMessages entries) →
  let c := classifyToolUseResultPairing false (Some <$> entryMessages entries) fresh in
  results (Some <$> entryMessages (selectResetKeptEntries entries fresh)) ≡ₚ omap sourceResult c.(heap).
Proof.
  intros Hn c. set (ms := Some <$> entryMessages entries) in *. destruct (segments ms) as [pre segs] eqn:Es.
  destruct (segments_flat _ _ _ Es) as (Hms & _ & Hseg).
  destruct (classify_ok (omap id ms) fresh ms pre segs Es (λ m H, proj1 (elem_given ms m) H)) as [_ _ _ _ (dropped & Hp & _)].
  fold c in Hp. unfold selectResetKeptEntries. fold ms c. rewrite entryMessages_filter. fold ms.
  assert (Hall : results ms ≡ₚ omap sourceResult c.(heap) ++ dropped ++ results pre).
  { rewrite Hms, results_app, (results_flat _ Hseg), Hp. solve_Permutation. }
  rewrite (filter_Permutation _ _ _ Hall), filter_refs; [done|]. rewrite <-Hall. unfold ms. rewrite results_fmap.
  clear -Hn. induction (entryMessages entries) as [|m l IH]; [constructor|]. cbn in *. apply NoDup_cons in Hn as [Hm Hn].
  destruct (isResult m); cbn; [|by apply IH]. constructor; [|by apply IH].
  intros (x & Hx & [Hin _]%elem_filter)%list_elem_of_fmap. apply Hm. rewrite Hx. by apply list_elem_of_fmap_2.
Qed.

(** ** A history

    Two calls answered out of order and past a user message, one answer given
    twice; a second turn repeats an id and stays unanswered; an orphan. *)
Definition sampleMessage (r : nat) (who : Role) (calls : list string) (answered : option string) : AgentMessage :=
  {| ref := r; role := who;
     content := Some ((λ id, Some {| blockType := Some "toolCall"; blockId := Some id; blockName := Some "read";
                                     blockText := None |}) <$> calls);
     stopReason := None; toolName := None; toolCallId := answered; toolUseId := None; tool_call_id := None;
     tool_use_id := None; callId := None; call_id := None; isError := false; details := None; timestamp := 0 |}.

Definition sampleHistory : list AgentMessage :=
  [sampleMessage 0 RoleUser [] None; sampleMessage 1 RoleAssistant ["a"; "b"] None;
   sampleMessage 2 RoleToolResult [] (Some "b"); sampleMessage 3 RoleUser [] None;
   sampleMessage 4 RoleToolResult [] (Some "a"); sampleMessage 5 RoleToolResult [] (Some "a");
   sampleMessage 6 RoleAssistant ["a"] None; sampleMessage 7 RoleToolResult [] (Some "z")].

Definition sampleOptions : ToolUseResultPairingOptions :=
  {| dropErrored := true; missingToolResultText := None; preserveUnframedToolResults := false |}.

Lemma objects_of l fresh :
  NoDup (ref <$> l) → Forall (λ r, (r < fresh)%nat) (ref <$> l) → objects (Some <$> l) fresh.
Proof.
  intros Hn Hf. split.
  - intros a b (x & [= ->] & [i Hi]%list_elem_of_lookup_1)%list_elem_of_fmap
      (y & [= ->] & [j Hj]%list_elem_of_lookup_1)%list_elem_of_fmap E.
    assert (i = j); [|congruence]. eapply NoDup_lookup; [exact Hn| |]; rewrite list_lookup_fmap; [rewrite Hi; reflexivity|rewrite Hj; cbn; congruence].
  - intros a (x & [= ->] & Hx)%list_elem_of_fmap. eapply Forall_forall in Hf; [exact Hf|by apply list_elem_of_fmap_2].
Qed.

Lemma sample_objects : objects (Some <$> sampleHistory) 20.
Proof. apply objects_of; [|repeat constructor]; by apply (bool_decide_unpack _); vm_compute. Qed.



Lemma sample_tidy m c : Some m ∈ Some <$> sampleHistory → c ∈ extractToolCallsFromAssistant m → tidyCall c.
Proof.
  intros (x & [= ->] & Hx)%list_elem_of_fmap Hc. unfold sampleHistory in Hx.
  repeat (apply elem_of_cons in Hx as [->|Hx]); try (by apply not_elem_of_nil in Hx);
    vm_compute in Hc; repeat (apply elem_of_cons in Hc as [->|Hc]); try (by apply not_elem_of_nil in Hc);
    split_and!; try reflexivity; try done; intros n [= <-]; by split.
Qed.


(** Ids are compared after trimming that of the result only: an answer to a
    call whose id has outer white space is dropped and one is made up. *)
Example untrimmed_id_loses_its_result :
  let rep := repairToolUseResultPairing 5 sampleOptions
    (Some <$> [sampleMessage 1 RoleAssistant [" a"] None; sampleMessage 2 RoleToolResult [] (Some " a")]) 20 in
  rep.(rp_orphans) = 1 ∧ length rep.(added) = 1%nat.
Proof. split; reflexivity. Qed.
