(* ===== verification/SessionKeys.v ===== *)
(** * Agent ids, account ids and session keys

    The names under which sessions are stored and turns are serialized
    ([src/routing/session-key.ts], [src/sessions/session-key-utils.ts],
    [src/routing/account-id.ts],
    [packages/normalization-core/src/agent-id.ts]): canonical ids, keys built
    for a main, direct, group or thread session, and the readers of keys.

    Regular expressions are unfolded into the functions that they compute.  An
    optional argument that is [undefined] or [null] is [None].  The two caches
    of normal forms are explicit states, which the lemmas show to be
    transparent; the other definitions use what they cache directly. *)
From Stdlib Require QArith.QArith.
From Stdlib Require Import Ascii.
From S2P Require Import Prelude JsCollections JsStrings.

(** ** Agent ids *)

Definition DEFAULT_AGENT_ID : string := "main".
Definition DEFAULT_MAIN_KEY : string := "main".
Definition DEFAULT_ACCOUNT_ID : string := "default".

Definition isAlnum (c : Ascii.ascii) : bool :=
  let n := Ascii.nat_of_ascii (js_lower_char c) in
  ((48 <=? n) && (n <=? 57) || (97 <=? n) && (n <=? 122))%nat.

(** [[a-z0-9_-]], in either case. *)
Definition isIdChar (c : Ascii.ascii) : bool :=
  isAlnum c || bool_decide (c = "_"%char) || bool_decide (c = "-"%char).

(** [VALID_ID_RE]. *)
Definition isValidId (s : string) : bool :=
  match s with
  | EmptyString => false
  | String c r =>
      isAlnum c && forallb isIdChar (String.list_ascii_of_string r) && (String.length r <=? 63)%nat
  end.

(** [replace(INVALID_CHARS_RE, '-')]: every run of other characters becomes one
    dash; [inRun] tells whether the run before the head has its dash. *)
Fixpoint replaceInvalid (inRun : bool) (s : string) : string :=
  match s with
  | EmptyString => EmptyString
  | String c r =>
      if isIdChar c then String c (replaceInvalid false r)
      else if inRun then replaceInvalid true r
      else String "-" (replaceInvalid true r)
  end.

Fixpoint dropLeadingDashes (s : string) : string :=
  match s with
  | String c r => if decide (c = "-"%char) then dropLeadingDashes r else s
  | EmptyString => EmptyString
  end.

Fixpoint dropTrailingDashes (s : string) : string :=
  match s with
  | EmptyString => EmptyString
  | String c r =>
      match dropTrailingDashes r with
      | EmptyString => if decide (c = "-"%char) then EmptyString else String c EmptyString
      | r' => String c r'
      end
  end.

Definition sanitizeId (normalized : string) : string :=
  str_take 64 (dropTrailingDashes (dropLeadingDashes (replaceInvalid false normalized))).

(** [None] is the error [unrepresentable]. *)
Definition normalizeAgentIdStrict (value : option string) : option string :=
  let trimmed := trimmedOrEmpty value in
  let normalized := normalizeLowercaseStringOrEmpty (Some trimmed) in
  if isValidId trimmed then Some normalized
  else match sanitizeId normalized with EmptyString => None | agentId => Some agentId end.

Definition normalizeAgentId (value : option string) : string :=
  default DEFAULT_AGENT_ID (normalizeAgentIdStrict value).

Definition isValidAgentId (value : option string) : bool :=
  let trimmed := trimmedOrEmpty value in
  negb (bool_decide (trimmed = EmptyString)) && isValidId trimmed.

Definition normalizeOptionalAgentId (value : option string) : option string :=
  match normalizeOptionalString value with
  | Some trimmed => Some (normalizeAgentId (Some trimmed))
  | None => None
  end.

Definition sanitizeAgentId (value : option string) : string := normalizeAgentId value.

(** ** Account ids *)

Definition isBlockedObjectKey (key : string) : bool :=
  bool_decide (key ∈ ["__proto__"; "prototype"; "constructor"]).

Definition canonicalizeAccountId (value : string) : string :=
  let normalized := normalizeLowercaseStringOrEmpty (Some value) in
  if isValidId value then normalized else sanitizeId normalized.

Definition normalizeCanonicalAccountId (value : string) : option string :=
  let canonical := canonicalizeAccountId value in
  if bool_decide (canonical = EmptyString) || isBlockedObjectKey canonical then None else Some canonical.

Definition ACCOUNT_ID_CACHE_MAX : jsnum := jsnum_of_Z 512.

Definition resolveCachedCanonicalAccountId (value : string) (cache : list (string * option string)) :
    option string * list (string * option string) :=
  match JsMap.get value cache with
  | Some normalized => (normalized, cache)
  | None =>
      let normalized := normalizeCanonicalAccountId value in
      (normalized, pruneMapToMaxSize (JsMap.set value normalized cache) ACCOUNT_ID_CACHE_MAX)
  end.

Definition normalizeOptionalAccountId (value : option string) : option string :=
  match trimmedOrEmpty value with
  | EmptyString => None
  | trimmed => normalizeCanonicalAccountId trimmed
  end.

Definition normalizeAccountId (value : option string) : string :=
  match trimmedOrEmpty value with
  | EmptyString => DEFAULT_ACCOUNT_ID
  | trimmed => default DEFAULT_ACCOUNT_ID (normalizeCanonicalAccountId trimmed)
  end.

(** ** Peer ids whose case is kept *)

Inductive PreserveSpan := Segment | Tail.

#[export] Instance PreserveSpan_eq_dec : EqDecision PreserveSpan.
Proof. solve_decision. Defined.

Record CasePreservingPeerDescriptor := {
  cp_channel : string;
  cp_peerKinds : list string;
  cp_span : PreserveSpan;
  cp_unscoped : bool
}.

Definition CASE_PRESERVING_PEERS : list CasePreservingPeerDescriptor :=
  [{| cp_channel := "signal"; cp_peerKinds := ["group"]; cp_span := Segment; cp_unscoped := true |};
   {| cp_channel := "matrix"; cp_peerKinds := ["channel"; "group"]; cp_span := Tail; cp_unscoped := true |}].

Definition findCasePreservingPeerDescriptor (channel peerKind : option string) :
    option CasePreservingPeerDescriptor :=
  let c := normalizeLowercaseStringOrEmpty channel in
  let k := normalizeLowercaseStringOrEmpty peerKind in
  list_first (λ d, bool_decide (d.(cp_channel) = c) && bool_decide (k ∈ d.(cp_peerKinds))) CASE_PRESERVING_PEERS.

Definition isCasePreservingPeer (channel peerKind : option string) : bool :=
  bool_decide (is_Some (findCasePreservingPeerDescriptor
    (Some (normalizeLowercaseStringOrEmpty channel)) (Some (normalizeLowercaseStringOrEmpty peerKind)))).

Definition normalizeSessionPeerId (channel peerKind peerId : option string) : string :=
  match trimmedOrEmpty peerId with
  | EmptyString => EmptyString
  | id => if isCasePreservingPeer channel peerKind then id else normalizeLowercaseStringOrEmpty (Some id)
  end.

(** The parts behind the wrappers [agent:<id>:] of a key. *)
Fixpoint skipAgentParts (parts : list string) : list string :=
  match parts with
  | p :: _ :: ((_ :: _) as rest) =>
      if bool_decide (normalizeOptionalLowercaseString (Some p) = Some "agent") then skipAgentParts rest else parts
  | _ => parts
  end.

Fixpoint skipBlankParts (parts : list string) : list string :=
  match parts with
  | p :: rest => match normalizeOptionalString (Some p) with None => skipBlankParts rest | Some _ => parts end
  | [] => []
  end.

Definition requiresFoldedSessionKeyAliasProof (sessionKey : option string) : bool :=
  match normalizeOptionalString sessionKey with
  | None => false
  | Some raw =>
      let parts := split_on ":" raw in
      let body := skipAgentParts parts in
      let body := if (length body <? length parts)%nat then skipBlankParts body else body in
      match findCasePreservingPeerDescriptor (body !! 0%nat) (body !! 1%nat) with
      | Some d => bool_decide (d.(cp_span) = Tail)
      | None => false
      end
  end.

(** ** Canonical keys *)

Record PreservedSpan := { sp_start : nat; sp_end : nat; sp_trim : bool }.

(** [startsWith] that ignores the case of [s]. *)
Definition starts_with_ci (p s : string) : bool := starts_with p (js_lower s).

Definition mayContainCasePreservingPeer (raw : string) : bool :=
  let folded := js_lower raw in
  existsb (λ d, includes (d.(cp_channel) +:+ ":") folded) CASE_PRESERVING_PEERS.

(** The characters up to the next colon. *)
Definition segmentOf (s : string) : string := default EmptyString (head (split_on ":" s)).

(** The matches of [(^|:)<channel>:<kind>:([^:]+)] in [s], which is the rest of
    the key at [pos]. *)
Fixpoint segmentSpans (fuel : nat) (prefix : string) (pos : nat) (s : string) : list PreservedSpan :=
  match fuel with
  | O => []
  | S fuel =>
      let head :=
        if bool_decide (pos = 0%nat) && starts_with_ci prefix s then Some (String.length prefix)
        else if starts_with_ci (":" +:+ prefix) s then Some (S (String.length prefix)) else None in
      let next := match s with
                  | EmptyString => []
                  | String _ r => segmentSpans fuel prefix (S pos) r
                  end in
      match head with
      | Some h =>
          let n := String.length (segmentOf (str_drop h s)) in
          if (n =? 0)%nat then next
          else {| sp_start := pos + h; sp_end := pos + h + n; sp_trim := true |} ::
               segmentSpans fuel prefix (pos + h + n) (str_drop (h + n) s)
      | None => next
      end
  end.

Definition threadMarker : string := ":thread:".

Definition collectTailSpan (raw : string) (tailStart : nat) : list PreservedSpan :=
  let len := String.length raw in
  if (len <=? tailStart)%nat then []
  else
    match last_index_of threadMarker (normalizeLowercaseStringOrEmpty (Some (str_drop tailStart raw))) with
    | None => [{| sp_start := tailStart; sp_end := len; sp_trim := false |}]
    | Some markerIndex =>
        let threadIdStart := (tailStart + markerIndex + String.length threadMarker)%nat in
        {| sp_start := tailStart; sp_end := tailStart + markerIndex; sp_trim := false |} ::
        if (threadIdStart <? len)%nat
        then [{| sp_start := threadIdStart; sp_end := len; sp_trim := false |}] else []
    end.

Fixpoint countColons (s : string) : nat :=
  match s with
  | String c r => if decide (c = ":"%char) then S (countColons r) else 0
  | EmptyString => 0
  end.

(** The length of one wrapper [agent:[^:]*:] in front of [s]. *)
Definition wrapperLength (s : string) : option nat :=
  if starts_with_ci "agent:" s then (λ i, (6 + i + 1)%nat) <$> index_of ":" (str_drop 6 s) else None.

(** What follows the first wrapper in [(?:agent:[^:]*:)+:*<prefix>]: the end of
    the match, with as many wrappers as possible. *)
Fixpoint scopedEnd (fuel : nat) (prefix : string) (pos : nat) (s : string) : option nat :=
  match fuel with
  | O => None
  | S fuel =>
      let here :=
        let n := countColons s in
        if starts_with_ci prefix (str_drop n s) then Some (pos + n + String.length prefix)%nat else None in
      match wrapperLength s with
      | Some w =>
          match scopedEnd fuel prefix (pos + w) (str_drop w s) with
          | Some e => Some e
          | None => here
          end
      | None => here
      end
  end.

Definition tailSpans (raw prefix : string) (unscoped : bool) : list PreservedSpan :=
  let scoped :=
    match wrapperLength raw with
    | Some w => scopedEnd (S (String.length raw)) prefix w (str_drop w raw)
    | None => None
    end in
  match scoped with
  | Some e => collectTailSpan raw e
  | None => if unscoped && starts_with_ci prefix raw then collectTailSpan raw (String.length prefix) else []
  end.

Definition collectCasePreservedSpans (raw : string) : list PreservedSpan :=
  CASE_PRESERVING_PEERS ≫= λ d, d.(cp_peerKinds) ≫= λ kind,
    let prefix := d.(cp_channel) +:+ ":" +:+ kind +:+ ":" in
    match d.(cp_span) with
    | Segment => segmentSpans (S (String.length raw)) prefix 0 raw
    | Tail => tailSpans raw prefix d.(cp_unscoped)
    end.

(** [toSorted] by the start, which is stable. *)
Fixpoint insertSpan (x : PreservedSpan) (l : list PreservedSpan) : list PreservedSpan :=
  match l with
  | [] => [x]
  | y :: r => if (x.(sp_start) <? y.(sp_start))%nat then x :: l else y :: insertSpan x r
  end.

Definition sortSpans (l : list PreservedSpan) : list PreservedSpan := foldl (λ s x, insertSpan x s) [] l.

(** The key from [cursor] on, lowered outside the spans. *)
Fixpoint emitSpans (raw : string) (cursor : nat) (spans : list PreservedSpan) : string :=
  match spans with
  | [] => normalizeLowercaseStringOrEmpty (Some (str_drop cursor raw))
  | x :: rest =>
      if (x.(sp_start) <? cursor)%nat then emitSpans raw cursor rest
      else
        let preserved := str_slice x.(sp_start) x.(sp_end) raw in
        normalizeLowercaseStringOrEmpty (Some (str_slice cursor x.(sp_start) raw)) +:+
        (if x.(sp_trim) then js_trim preserved else preserved) +:+
        emitSpans raw x.(sp_end) rest
  end.

Definition normalizeRawKey (raw : string) : string :=
  if mayContainCasePreservingPeer raw
  then emitSpans raw 0 (sortSpans (List.filter (λ x, (x.(sp_start) <? x.(sp_end))%nat) (collectCasePreservedSpans raw)))
  else js_lower raw.

Definition normalizeSessionKeyPreservingOpaquePeerIds (sessionKey : option string) : string :=
  match normalizeOptionalString sessionKey with
  | None => EmptyString
  | Some raw => normalizeRawKey raw
  end.

Definition NORMALIZED_SESSION_KEY_CACHE_MAX_ENTRIES : jsnum := jsnum_of_Z 2048.
Definition NORMALIZED_SESSION_KEY_CACHE_MAX_LENGTH : nat := 4096.

Definition readNormalizedSessionKeyCache (raw : string) (cache : list (string * string)) : option string :=
  if (String.length raw <=? NORMALIZED_SESSION_KEY_CACHE_MAX_LENGTH)%nat then JsMap.get raw cache else None.

Definition writeNormalizedSessionKeyCache (raw normalized : string) (cache : list (string * string)) :
    list (string * string) :=
  if (NORMALIZED_SESSION_KEY_CACHE_MAX_LENGTH <? String.length raw)%nat then cache
  else pruneMapToMaxSize (JsMap.set raw normalized cache) NORMALIZED_SESSION_KEY_CACHE_MAX_ENTRIES.

(** The normalisation with its cache. *)
Definition normalizeSessionKeyCached (sessionKey : option string) (cache : list (string * string)) :
    string * list (string * string) :=
  match normalizeOptionalString sessionKey with
  | None => (EmptyString, cache)
  | Some raw =>
      match readNormalizedSessionKeyCache raw cache with
      | Some cached => (cached, cache)
      | None => let normalized := normalizeRawKey raw in
                (normalized, writeNormalizedSessionKeyCache raw normalized cache)
      end
  end.

(** ** Reading keys *)

Record ParsedAgentSessionKey := { p_agentId : string; p_rest : string }.

Definition parseAgentSessionKey (sessionKey : option string) : option ParsedAgentSessionKey :=
  let raw := normalizeSessionKeyPreservingOpaquePeerIds sessionKey in
  if negb (starts_with "agent:" raw) then None
  else
    match index_of ":" (str_drop 6 raw) with
    | None => None
    | Some i =>
        let rest := str_drop (6 + i + 1) raw in
        match normalizeOptionalString (Some (str_take i (str_drop 6 raw))) with
        | None => None
        | Some agentId =>
            if bool_decide (rest = EmptyString) || starts_with ":" rest then None
            else Some {| p_agentId := agentId; p_rest := rest |}
        end
    end.

(** [^cron:[^:]+:run:[^:]+], followed by a colon or the end. *)
Definition isCronRunSessionKey (sessionKey : option string) : bool :=
  match parseAgentSessionKey sessionKey with
  | None => false
  | Some parsed =>
      match split_on ":" parsed.(p_rest) with
      | c :: job :: r :: run :: _ =>
          bool_decide (c = "cron") && negb (bool_decide (job = EmptyString)) && bool_decide (r = "run")
          && negb (bool_decide (run = EmptyString))
      | _ => false
      end
  end.

Definition runMarker : string := ":run:".

(** The base key and the run. *)
Definition parseCronRunScopeSuffix (sessionKey : option string) : option string * option string :=
  match normalizeOptionalString sessionKey with
  | None => (None, None)
  | Some raw =>
      let cron := match parseAgentSessionKey (Some raw) with
                  | None => false
                  | Some parsed =>
                      match split_on ":" parsed.(p_rest) with
                      | [c; job; r; run] =>
                          bool_decide (c = "cron") && negb (bool_decide (job = EmptyString)) && bool_decide (r = "run")
                          && negb (bool_decide (run = EmptyString))
                      | _ => false
                      end
                  end in
      match cron, last_index_of runMarker (js_lower raw) with
      | true, Some i => (Some (str_take i raw), Some (str_drop (i + String.length runMarker) raw))
      | _, _ => (Some raw, None)
      end
  end.

(** [value?.startsWith(p) === true] of the lowered trimmed [value]. *)
Definition loweredStartsWith (p : string) (value : option string) : bool :=
  match normalizeOptionalLowercaseString value with
  | Some v => starts_with p v
  | None => false
  end.

Definition isCronSessionKey (sessionKey : option string) : bool :=
  match parseAgentSessionKey sessionKey with
  | None => false
  | Some parsed => loweredStartsWith "cron:" (Some parsed.(p_rest))
  end.

Definition isSubagentSessionKey (sessionKey : option string) : bool :=
  match normalizeOptionalString sessionKey with
  | None => false
  | Some raw =>
      loweredStartsWith "subagent:" (Some raw)
      || loweredStartsWith "subagent:" (p_rest <$> parseAgentSessionKey (Some raw))
  end.

(** The matches of [(^|:)subagent:]; [first] holds at the start of the string. *)
Fixpoint subagentMatches (fuel : nat) (first : bool) (s : string) : nat :=
  match fuel with
  | O => 0
  | S fuel =>
      if first && starts_with "subagent:" s then S (subagentMatches fuel false (str_drop 9 s))
      else if starts_with ":subagent:" s then S (subagentMatches fuel false (str_drop 10 s))
      else match s with
           | EmptyString => 0
           | String _ r => subagentMatches fuel false r
           end
  end.

Definition getSubagentDepth (sessionKey : option string) : nat :=
  match normalizeOptionalLowercaseString sessionKey with
  | None => 0
  | Some raw =>
      let scoped := match parseAgentSessionKey (Some raw) with Some p => p.(p_rest) | None => raw end in
      subagentMatches (S (String.length scoped)) true (js_lower scoped)
  end.

Definition isAcpSessionKey (sessionKey : option string) : bool :=
  match normalizeOptionalString sessionKey with
  | None => false
  | Some raw =>
      starts_with "acp:" (normalizeLowercaseStringOrEmpty (Some raw))
      || loweredStartsWith "acp:" (p_rest <$> parseAgentSessionKey (Some raw))
  end.

Inductive DispatchKind := DispatchAgent | DispatchAcp.

(** [entryAcp]: the entry has an ACP binding. *)
Definition resolveSessionDispatchKind (sessionKey : option string) (entryAcp : bool) : DispatchKind :=
  if entryAcp || isAcpSessionKey sessionKey then DispatchAcp else DispatchAgent.

Record ParsedThreadSessionSuffix := { t_base : option string; t_threadId : option string }.

Definition parseThreadSessionSuffix (sessionKey : option string) : ParsedThreadSessionSuffix :=
  match normalizeOptionalString sessionKey with
  | None => {| t_base := None; t_threadId := None |}
  | Some raw =>
      match last_index_of threadMarker (normalizeLowercaseStringOrEmpty (Some raw)) with
      | None => {| t_base := Some raw; t_threadId := None |}
      | Some i =>
          {| t_base := Some (str_take i raw);
             t_threadId := normalizeOptionalString (Some (str_drop (i + String.length threadMarker) raw)) |}
      end
  end.

Record ParsedSessionDeliveryRoute := {
  dr_accountId : option string;
  dr_channel : string;
  dr_peerId : string;
  dr_peerKind : string;
  dr_threadId : option string
}.

Definition SESSION_DELIVERY_PEER_KINDS : list string := ["channel"; "direct"; "dm"; "group"].

Definition parseSessionDeliveryRoute (sessionKey : option string) : option ParsedSessionDeliveryRoute :=
  let parsedThread := parseThreadSessionSuffix sessionKey in
  match parseAgentSessionKey (match parsedThread.(t_base) with Some b => Some b | None => sessionKey end) with
  | None => None
  | Some parsed =>
      let parts := split_on ":" parsed.(p_rest) in
      let part i := default EmptyString (parts !! i) in
      if bool_decide (part 0%nat = "agent") || (length parts <? 3)%nat then None
      else
        match normalizeOptionalLowercaseString (Some (part 0%nat)) with
        | None => None
        | Some channel =>
            if (4 <=? length parts)%nat && bool_decide (part 2%nat ∈ ["direct"; "dm"]) then
              match normalizeOptionalString (Some (part 1%nat)), normalizeOptionalString (Some (part 3%nat)),
                    normalizeOptionalString (Some (join ":" (drop 3 parts))) with
              | Some accountId, Some _, Some peerId =>
                  Some {| dr_accountId := Some accountId; dr_channel := channel; dr_peerId := peerId;
                          dr_peerKind := part 2%nat; dr_threadId := parsedThread.(t_threadId) |}
              | _, _, _ => None
              end
            else
              match normalizeOptionalString (Some (part 2%nat)),
                    normalizeOptionalString (Some (join ":" (drop 2 parts))) with
              | Some _, Some peerId =>
                  if bool_decide (part 1%nat ∈ SESSION_DELIVERY_PEER_KINDS)
                  then Some {| dr_accountId := None; dr_channel := channel; dr_peerId := peerId;
                               dr_peerKind := part 1%nat; dr_threadId := parsedThread.(t_threadId) |}
                  else None
              | _, _ => None
              end
        end
  end.

Record RawSessionConversationRef := {
  cr_channel : string;
  cr_kind : string;
  cr_rawId : string;
  cr_prefix : string
}.

Definition parseRawSessionConversationRef (sessionKey : option string) : option RawSessionConversationRef :=
  match normalizeOptionalString sessionKey with
  | None => None
  | Some raw =>
      let rawParts := split_on ":" raw in
      let hasAgentWrapper :=
        bool_decide (normalizeOptionalLowercaseString (rawParts !! 0%nat) = Some "agent") in
      if hasAgentWrapper
         && (bool_decide (normalizeOptionalString (rawParts !! 1%nat) = None) || (length rawParts <? 3)%nat)
      then None
      else
        let bodyStartIndex := if hasAgentWrapper then 2%nat else 0%nat in
        let parts := drop bodyStartIndex rawParts in
        if bool_decide (normalizeOptionalLowercaseString (parts !! 0%nat) = Some "agent") then None
        else if (length parts <? 3)%nat || bool_decide (normalizeOptionalString (parts !! 2%nat) = None) then None
        else
          match normalizeOptionalLowercaseString (parts !! 0%nat), normalizeOptionalLowercaseString (parts !! 1%nat) with
          | Some channel, Some kind =>
              if negb (bool_decide (kind ∈ ["group"; "channel"])) then None
              else
                match normalizeOptionalString (Some (join ":" (drop 2 parts))),
                      normalizeOptionalString (Some (join ":" (take (bodyStartIndex + 2) rawParts))) with
                | Some rawId, Some prefix =>
                    Some {| cr_channel := channel; cr_kind := kind; cr_rawId := rawId; cr_prefix := prefix |}
                | _, _ => None
                end
          | _, _ => None
          end
  end.

(** [^(?:dashboard|subagent|internal-session-effects):incognito-[^:]+$] *)
Definition isIncognitoSessionKey (sessionKey : option string) : bool :=
  match js_lower (trimmedOrEmpty sessionKey) with
  | EmptyString => false
  | raw =>
      match split_on ":" raw with
      | [a; agent; owner; session] =>
          bool_decide (a = "agent") && negb (bool_decide (agent = EmptyString))
          && bool_decide (owner ∈ ["dashboard"; "subagent"; "internal-session-effects"])
          && starts_with "incognito-" session && (10 <? String.length session)%nat
      | _ => false
      end
  end.

(** ** Building keys *)

Inductive ChatType := Direct | Group | Channel.

#[export] Instance ChatType_eq_dec : EqDecision ChatType.
Proof. solve_decision. Defined.

Definition chatTypeName (k : ChatType) : string :=
  match k with Direct => "direct" | Group => "group" | Channel => "channel" end.

Definition normalizeChatType (raw : option string) : option ChatType :=
  match normalizeOptionalLowercaseString raw with
  | None => None
  | Some value =>
      if bool_decide (value ∈ ["direct"; "dm"]) then Some Direct
      else if bool_decide (value = "group") then Some Group
      else if bool_decide (value = "channel") then Some Channel
      else None
  end.

Inductive DmScope := DmMain | PerPeer | PerChannelPeer | PerAccountChannelPeer.
Inductive GroupScope := GroupMain | PerGroup.

#[export] Instance DmScope_eq_dec : EqDecision DmScope.
Proof. solve_decision. Defined.

#[export] Instance GroupScope_eq_dec : EqDecision GroupScope.
Proof. solve_decision. Defined.

Definition normalizeMainKey (value : option string) : string :=
  str_or (normalizeLowercaseStringOrEmpty value) DEFAULT_MAIN_KEY.

Definition buildAgentMainSessionKey (agentId mainKey : option string) : string :=
  "agent:" +:+ normalizeAgentId agentId +:+ ":" +:+ normalizeMainKey mainKey.

(** [identityLinks]: the canonical names with their linked ids, in the order of
    [Object.entries]; [None] for a value that is not an array. *)
Definition linkMatches (candidates : list string) (id : string) : bool :=
  let normalized := normalizeLowercaseStringOrEmpty (Some id) in
  negb (bool_decide (normalized = EmptyString)) && bool_decide (normalized ∈ candidates).

Fixpoint findLinkedName (candidates : list string) (links : list (string * option (list string))) : option string :=
  match links with
  | [] => None
  | (canonical, ids) :: rest =>
      match js_trim canonical, ids with
      | EmptyString, _ | _, None => findLinkedName candidates rest
      | canonicalName, Some ids =>
          if existsb (linkMatches candidates) ids then Some canonicalName else findLinkedName candidates rest
      end
  end.

Definition resolveLinkedDirectPeerId (identityLinks : option (list (string * option (list string))))
    (channel : string) (peerId : string) : option string :=
  match identityLinks, js_trim peerId with
  | None, _ | _, EmptyString => None
  | Some links, peerId =>
      let channel := normalizeLowercaseStringOrEmpty (Some channel) in
      let scoped := if bool_decide (channel = EmptyString) then EmptyString
                    else normalizeLowercaseStringOrEmpty (Some (channel +:+ ":" +:+ peerId)) in
      let candidates := List.filter (λ c, negb (bool_decide (c = EmptyString)))
                          [normalizeLowercaseStringOrEmpty (Some peerId); scoped] in
      match candidates with
      | [] => None
      | _ => findLinkedName candidates links
      end
  end.

Record PeerKeyParams := {
  k_agentId : option string;
  k_mainKey : option string;
  k_channel : string;
  k_accountId : option string;
  k_peerKind : option ChatType;
  k_peerId : option string;
  k_identityLinks : option (list (string * option (list string)));
  k_dmScope : option DmScope;
  k_groupScope : option GroupScope
}.

Definition keyChannel (channel : string) : string :=
  str_or (normalizeLowercaseStringOrEmpty (Some channel)) "unknown".

(** The peer of a direct session: the linked name if there is one, lowered. *)
Definition directPeer (p : PeerKeyParams) : string :=
  let peerId := trimmedOrEmpty p.(k_peerId) in
  let linked := match default DmMain p.(k_dmScope) with
                | DmMain => None
                | _ => resolveLinkedDirectPeerId p.(k_identityLinks) p.(k_channel) peerId
                end in
  normalizeLowercaseStringOrEmpty (Some (default peerId linked)).

Definition buildAgentPeerSessionKey (p : PeerKeyParams) : string :=
  let agent := "agent:" +:+ normalizeAgentId p.(k_agentId) +:+ ":" in
  let main := buildAgentMainSessionKey p.(k_agentId) p.(k_mainKey) in
  match default Direct p.(k_peerKind) with
  | Direct =>
      match default DmMain p.(k_dmScope), directPeer p with
      | DmMain, _ | _, EmptyString => main
      | PerAccountChannelPeer, peerId =>
          agent +:+ keyChannel p.(k_channel) +:+ ":" +:+ normalizeAccountId p.(k_accountId) +:+ ":direct:" +:+ peerId
      | PerChannelPeer, peerId => agent +:+ keyChannel p.(k_channel) +:+ ":direct:" +:+ peerId
      | PerPeer, peerId => agent +:+ "direct:" +:+ peerId
      end
  | kind =>
      if bool_decide (p.(k_groupScope) = Some GroupMain) then main
      else
        let peerId := str_or (normalizeSessionPeerId (Some p.(k_channel)) (Some (chatTypeName kind)) p.(k_peerId))
                        "unknown" in
        agent +:+ keyChannel p.(k_channel) +:+ ":" +:+ chatTypeName kind +:+ ":" +:+ peerId
  end.

Definition buildGroupHistoryKey (channel : string) (accountId : option string) (peerKind : ChatType)
    (peerId : string) : string :=
  let ch := str_or (normalizeLowercaseStringOrEmpty (Some channel)) "unknown" in
  ch +:+ ":" +:+ normalizeAccountId accountId +:+ ":" +:+ chatTypeName peerKind +:+ ":" +:+
  str_or (normalizeSessionPeerId (Some ch) (Some (chatTypeName peerKind)) (Some peerId)) "unknown".

(** The key of a thread and the parent key that is passed on. *)
Definition resolveThreadSessionKeys (baseSessionKey : string) (threadId parentSessionKey : option string)
    (useSuffix : option bool) (normalizeThreadId : option (string → string)) : string * option string :=
  match trimmedOrEmpty threadId with
  | EmptyString => (baseSessionKey, None)
  | threadId =>
      let normalizedThread := match normalizeThreadId with
                              | Some f => f threadId
                              | None => normalizeLowercaseStringOrEmpty (Some threadId)
                              end in
      (if default true useSuffix then baseSessionKey +:+ threadMarker +:+ normalizedThread else baseSessionKey,
       parentSessionKey)
  end.

(** ** Keys of requests and of the store *)

Inductive SessionKeyShape := Missing | AgentShape | LegacyOrAlias | MalformedAgent.

#[export] Instance SessionKeyShape_eq_dec : EqDecision SessionKeyShape.
Proof. solve_decision. Defined.

Definition classifySessionKeyShape (sessionKey : option string) : SessionKeyShape :=
  match trimmedOrEmpty sessionKey with
  | EmptyString => Missing
  | raw =>
      match parseAgentSessionKey (Some raw) with
      | Some _ => AgentShape
      | None => if starts_with "agent:" (normalizeLowercaseStringOrEmpty (Some raw)) then MalformedAgent
                else LegacyOrAlias
      end
  end.

Definition toAgentRequestSessionKey (storeKey : option string) : option string :=
  match trimmedOrEmpty storeKey with
  | EmptyString => None
  | raw => Some (match parseAgentSessionKey (Some raw) with Some p => p.(p_rest) | None => raw end)
  end.

Definition agentSessionKeysMatchByRequestKey (left right : option string) : bool :=
  match trimmedOrEmpty left, trimmedOrEmpty right with
  | EmptyString, _ | _, EmptyString => false
  | leftRaw, rightRaw =>
      bool_decide (leftRaw = rightRaw)
      || bool_decide (toAgentRequestSessionKey (Some leftRaw) = toAgentRequestSessionKey (Some rightRaw))
  end.

Definition toAgentStoreSessionKey (agentId requestKey mainKey : option string) : string :=
  let raw := trimmedOrEmpty requestKey in
  let lowered := normalizeLowercaseStringOrEmpty (Some raw) in
  if bool_decide (raw = EmptyString) || bool_decide (lowered = DEFAULT_MAIN_KEY)
  then buildAgentMainSessionKey agentId mainKey
  else
    match parseAgentSessionKey (Some raw) with
    | Some parsed => "agent:" +:+ parsed.(p_agentId) +:+ ":" +:+ parsed.(p_rest)
    | None =>
        let normalized := normalizeSessionKeyPreservingOpaquePeerIds (Some raw) in
        if starts_with "agent:" lowered then normalized
        else "agent:" +:+ normalizeAgentId agentId +:+ ":" +:+ normalized
    end.

(** The agent of a key; [inl] tells which error is thrown. *)
Inductive AgentIdError := MalformedKey | NoAgentId.

Definition resolveAgentIdFromSessionKey (sessionKey configuredDefaultAgentId : option string) :
    AgentIdError + string :=
  match parseAgentSessionKey sessionKey with
  | Some parsed => inr (normalizeAgentId (Some parsed.(p_agentId)))
  | None =>
      if bool_decide (classifySessionKeyShape sessionKey = MalformedAgent) then inl MalformedKey
      else match trimmedOrEmpty configuredDefaultAgentId with
           | EmptyString => inl NoAgentId
           | configuredDefault => inr (normalizeAgentId (Some configuredDefault))
           end
  end.

Definition isUnscopedSessionKeySentinel (sessionKey : option string) : bool :=
  bool_decide (normalizeLowercaseStringOrEmpty sessionKey ∈ ["global"; "unknown"]).

Definition scopeLegacySessionKeyToAgent (agentId sessionKey mainKey : option string) : option string :=
  match trimmedOrEmpty sessionKey with
  | EmptyString => None
  | raw =>
      match trimmedOrEmpty agentId with
      | EmptyString => Some raw
      | agent =>
          if bool_decide (classifySessionKeyShape (Some raw) = LegacyOrAlias)
          then Some (toAgentStoreSessionKey (Some agent) (Some raw) mainKey) else Some raw
      end
  end.

Inductive SessionScope := PerSender | Global.

Definition resolveEventSessionKey (sessionKey : string) (mainKey : option string) (scope : option SessionScope) :
    string :=
  match parseAgentSessionKey (Some sessionKey) with
  | Some parsed =>
      if isCronRunSessionKey (Some sessionKey) then
        match scope with
        | Some Global => "global"
        | _ => buildAgentMainSessionKey (Some parsed.(p_agentId)) mainKey
        end
      else sessionKey
  | None => sessionKey
  end.

(** What [scopedHeartbeatWakeOptions] adds to the options of a wake. *)
Inductive WakeScope := Unscoped | ScopedSession (sessionKey : string) | ScopedAgent (agentId : string).

Definition scopedHeartbeatWakeOptions (sessionKey : string) (mainKey : option string)
    (scope : option SessionScope) : WakeScope :=
  match parseAgentSessionKey (Some sessionKey) with
  | None => Unscoped
  | Some parsed =>
      if isCronRunSessionKey (Some sessionKey) then
        match scope with
        | Some Global => ScopedAgent parsed.(p_agentId)
        | _ => ScopedSession (buildAgentMainSessionKey (Some parsed.(p_agentId)) mainKey)
        end
      else ScopedSession sessionKey
  end.

(** ** Canonical ids *)

#[local] Arguments js_trim : simpl never.
#[local] Arguments String.append : simpl nomatch.

(** The characters of a canonical id. *)
Definition canonicalChar (c : ascii) : bool := isIdChar c && bool_decide (js_lower_char c = c).

Lemma canonical_facts c :
  (canonicalChar c = true → is_js_space c = false ∧ js_lower_char c = c ∧ c ≠ ":"%char ∧ isIdChar c = true) ∧
  isIdChar (js_lower_char c) = isIdChar c ∧ isAlnum (js_lower_char c) = isAlnum c ∧
  (isAlnum c = true → c ≠ "-"%char) ∧ (isAlnum c = true → isIdChar c = true).
Proof. destruct c as [[] [] [] [] [] [] [] []]; vm_compute; repeat split; try congruence. Qed.

Lemma str_all_lowered s : str_all isIdChar s = true → str_all canonicalChar (js_lower s) = true.
Proof.
  induction s as [|c s IH]; [done|]. cbn. intros [Hc Hs]%andb_true_iff. apply andb_true_iff. split; [|by apply IH].
  unfold canonicalChar. destruct (canonical_facts c) as (_ & -> & _). rewrite Hc, js_lower_char_idemp.
  by rewrite bool_decide_true.
Qed.

Lemma replaceInvalid_chars b s : js_lower s = s → str_all canonicalChar (replaceInvalid b s) = true.
Proof.
  revert b. induction s as [|c s IH]; intros b H; [done|]. cbn in H |- *. injection H as Hc H.
  destruct (isIdChar c) eqn:E; [cbn; rewrite IH by done|destruct b; cbn; by rewrite IH].
  unfold canonicalChar. rewrite E, Hc. by rewrite bool_decide_true.
Qed.

Lemma dropLeading_chars f s : str_all f s = true → str_all f (dropLeadingDashes s) = true.
Proof. induction s as [|c s IH]; [done|]. cbn. intros H. case_decide; [|done]. apply andb_true_iff in H as [_ H]. by apply IH. Qed.

Lemma dropTrailing_chars f s : str_all f s = true → str_all f (dropTrailingDashes s) = true.
Proof.
  induction s as [|c s IH]; [done|]. cbn. intros [Hc Hs]%andb_true_iff. specialize (IH Hs).
  destruct (dropTrailingDashes s) as [|d r]; [case_decide; cbn; [done|by rewrite Hc]|].
  change (str_all f (String c (String d r))) with (f c && str_all f (String d r)). by rewrite Hc, IH.
Qed.

Lemma dropLeading_head s : starts_with "-" (dropLeadingDashes s) = false.
Proof.
  induction s as [|c s IH]; [done|]. cbn [dropLeadingDashes]. case_decide; [done|].
  by rewrite starts_with_cons, decide_False by congruence.
Qed.

Lemma starts_with_dash c s : starts_with "-" (String c s) = bool_decide (c = "-"%char).
Proof.
  rewrite starts_with_cons. case_decide; [subst; rewrite bool_decide_true by done; by destruct s|].
  by rewrite bool_decide_false by congruence.
Qed.

Lemma dropTrailing_head s : starts_with "-" s = false → starts_with "-" (dropTrailingDashes s) = false.
Proof.
  destruct s as [|c s]; [done|]. rewrite starts_with_dash. intros H. cbn [dropTrailingDashes].
  destruct (dropTrailingDashes s) as [|d r]; [|by rewrite starts_with_dash].
  destruct (decide _); [done|]. by rewrite starts_with_dash.
Qed.

Lemma sanitizeId_ok s :
  js_lower s = s →
  str_all canonicalChar (sanitizeId s) = true ∧ starts_with "-" (sanitizeId s) = false ∧
  (String.length (sanitizeId s) ≤ 64)%nat.
Proof.
  intros H. unfold sanitizeId. split_and!; [| |apply str_take_length].
  - by apply str_all_take, dropTrailing_chars, dropLeading_chars, replaceInvalid_chars.
  - pose proof (dropTrailing_head _ (dropLeading_head (replaceInvalid false s))) as Hd.
    destruct (dropTrailingDashes _) as [|c r]; [done|]. rewrite starts_with_dash in Hd. cbn [str_take].
    by rewrite starts_with_dash.
Qed.

(** What every canonical id satisfies. *)
Record canonical (id : string) : Prop := {
  ca_nonempty : id ≠ EmptyString;
  ca_chars : str_all canonicalChar id = true;
  ca_head : starts_with "-" id = false;
  ca_length : (String.length id ≤ 64)%nat
}.

Lemma validId_canonical s : isValidId s = true → canonical (js_lower s).
Proof.
  destruct s as [|c s]; [done|]. unfold isValidId. rewrite str_all_list.
  intros [[Hc Hs]%andb_true_iff Hl%Nat.leb_le]%andb_true_iff.
  destruct (canonical_facts c) as (_ & H2 & H3 & H4 & H5). split.
  - done.
  - apply (str_all_lowered (String c s)). cbn. by rewrite (H5 Hc), Hs.
  - cbn [js_lower]. rewrite starts_with_dash. apply bool_decide_eq_false.
    by destruct (canonical_facts (js_lower_char c)) as (_ & _ & _ & H & _); apply H; rewrite H3.
  - rewrite js_lower_length. cbn. lia.
Qed.

Lemma canonical_colon id : canonical id → str_has ":" id = false.
Proof. intros H. eapply str_all_has; [apply H|done]. Qed.

Lemma canonical_lowered id : canonical id → lowered id.
Proof.
  intros H. split.
  - eapply str_all_trim; [|apply H]. intros c Hc. by apply canonical_facts in Hc as (? & _).
  - eapply str_all_lower; [|apply H]. intros c Hc. by apply canonical_facts in Hc as (_ & ? & _).
Qed.

Lemma canonical_defaults : canonical DEFAULT_AGENT_ID ∧ canonical DEFAULT_ACCOUNT_ID.
Proof. split; (split; [done|done|done|cbn; lia]). Qed.

Lemma normalizeAgentId_canonical_id v : canonical (normalizeAgentId v).
Proof.
  unfold normalizeAgentId, normalizeAgentIdStrict. rewrite normalizeLower_spec.
  assert (E : trimmedOrEmpty (Some (trimmedOrEmpty v)) = trimmedOrEmpty v) by apply js_trim_idemp. rewrite E.
  destruct (isValidId (trimmedOrEmpty v)) eqn:Ev; [by apply validId_canonical|].
  destruct (sanitizeId_ok (js_lower (trimmedOrEmpty v)) (js_lower_idemp _)) as (H1 & H2 & H3).
  destruct (sanitizeId (js_lower (trimmedOrEmpty v))) as [|c r]; [apply canonical_defaults|by split].
Qed.

Lemma normalizeAccountId_canonical v : canonical (normalizeAccountId v).
Proof.
  unfold normalizeAccountId. destruct (trimmedOrEmpty v) as [|c r] eqn:Et; [apply canonical_defaults|].
  unfold normalizeCanonicalAccountId. destruct (bool_decide _ || _) eqn:Eb; cbn [default from_option id]; [apply canonical_defaults|].
  apply orb_false_iff in Eb as [Hne%bool_decide_eq_false _].
  unfold canonicalizeAccountId in *. rewrite normalizeLower_spec in *.
  assert (E : trimmedOrEmpty (Some (String c r)) = String c r) by (rewrite <-Et; apply js_trim_idemp). rewrite E in *.
  destruct (isValidId (String c r)) eqn:Ev; [by apply validId_canonical|].
  destruct (sanitizeId_ok (js_lower (String c r)) (js_lower_idemp _)) as (H1 & H2 & H3). by split.
Qed.

Lemma replaceInvalid_id s : str_all canonicalChar s = true → replaceInvalid false s = s.
Proof.
  induction s as [|c s IH]; [done|]. cbn. intros [Hc Hs]%andb_true_iff.
  apply canonical_facts in Hc as (_ & _ & _ & ->). by rewrite IH.
Qed.

(** Agent ids come out canonical.  Whatever was given, the id is not
    empty, has at most 64 characters, all of them lower case letters, digits,
    underscores and dashes - so no colon that a key could be cut at - and does
    not start with a dash; and normalising it again changes nothing, provided
    it matches the pattern of valid ids or does not end in a dash. *)
Theorem agent_ids_canonical v :
  let agentId := normalizeAgentId v in
  agentId ≠ EmptyString ∧ (String.length agentId ≤ 64)%nat ∧
  str_all canonicalChar agentId = true ∧ starts_with "-" agentId = false ∧ str_has ":" agentId = false ∧
  (isValidId agentId = true ∨ dropTrailingDashes agentId = agentId → normalizeAgentId (Some agentId) = agentId).
Proof.
  intros agentId. pose proof (normalizeAgentId_canonical_id v) as Hc. fold agentId in Hc. destruct Hc as [H1 H2 H3 H4].
  assert (Hc : canonical agentId) by done. destruct (canonical_lowered _ Hc) as [Ht Hl].
  split_and!; [done..|by apply canonical_colon|]. intros Hfix.
  unfold normalizeAgentId, normalizeAgentIdStrict. rewrite normalizeLower_spec. unfold trimmedOrEmpty. cbn [default from_option id].
  rewrite !Ht, Hl. destruct (isValidId agentId) eqn:Ev; [done|]. destruct Hfix as [?|Hfix]; [done|].
  assert (Es : sanitizeId agentId = agentId).
  { unfold sanitizeId. rewrite replaceInvalid_id by done.
    replace (dropLeadingDashes agentId) with agentId; [rewrite Hfix; by apply str_take_all|].
    destruct agentId as [|c r]; [done|]. rewrite starts_with_dash in H3. apply bool_decide_eq_false in H3.
    cbn. by rewrite decide_False. }
  rewrite Es. by destruct agentId.
Qed.

(** The caches are transparent and bounded. *)
Lemma account_cache_transparent value cache :
  caches normalizeCanonicalAccountId cache →
  let '(r, cache') := resolveCachedCanonicalAccountId value cache in
  r = normalizeCanonicalAccountId value ∧ caches normalizeCanonicalAccountId cache' ∧
  (length cache' ≤ Nat.max (length cache) 512)%nat.
Proof.
  intros Hc. unfold resolveCachedCanonicalAccountId. destruct (JsMap.get value cache) eqn:E.
  - split_and!; [by apply Hc|done|lia].
  - split_and!; [done|by apply caches_set|].
    pose proof (prune_bound (JsMap.set value (normalizeCanonicalAccountId value) cache) 512). unfold ACCOUNT_ID_CACHE_MAX. lia.
Qed.

Lemma key_cache_transparent key cache :
  caches normalizeRawKey cache →
  let '(r, cache') := normalizeSessionKeyCached key cache in
  r = normalizeSessionKeyPreservingOpaquePeerIds key ∧ caches normalizeRawKey cache' ∧
  (length cache' ≤ Nat.max (length cache) 2048)%nat.
Proof.
  intros Hc. unfold normalizeSessionKeyCached, normalizeSessionKeyPreservingOpaquePeerIds.
  destruct (normalizeOptionalString key) as [raw|]; [|split_and!; [done|done|lia]].
  unfold readNormalizedSessionKeyCache, writeNormalizedSessionKeyCache.
  destruct (Nat.leb_spec (String.length raw) NORMALIZED_SESSION_KEY_CACHE_MAX_LENGTH) as [Hl|Hl].
  - destruct (JsMap.get raw cache) eqn:E; [split_and!; [by apply Hc|done|lia]|].
    destruct (Nat.ltb_spec NORMALIZED_SESSION_KEY_CACHE_MAX_LENGTH (String.length raw)); [lia|].
    split_and!; [done|by apply caches_set|].
    pose proof (prune_bound (JsMap.set raw (normalizeRawKey raw) cache) 2048). unfold NORMALIZED_SESSION_KEY_CACHE_MAX_ENTRIES. lia.
  - destruct (Nat.ltb_spec NORMALIZED_SESSION_KEY_CACHE_MAX_LENGTH (String.length raw)); [|lia]. split_and!; [done|done|lia].
Qed.

(** ** Keys that are read back *)

(** The part of a key behind its agent. *)
Record key_rest (rest : string) : Prop := {
  kr_lowered : lowered rest;
  kr_nonempty : rest ≠ EmptyString;
  kr_colon : starts_with ":" rest = false
}.

Definition agentKey (agentId rest : string) : string := "agent:" +:+ agentId +:+ ":" +:+ rest.

Lemma agentKey_lowered a rest : canonical a → key_rest rest → lowered (agentKey a rest).
Proof.
  intros Ha [[Ht Hl] Hn _]. pose proof (canonical_lowered a Ha) as [_ Hla]. split.
  - unfold agentKey. change ("agent:" +:+ a +:+ ":" +:+ rest) with (String "a" ("gent:" +:+ a +:+ ":" +:+ rest)).
    rewrite <-!str_app_assoc. change (String "a" (?x +:+ rest)) with (String "a" x +:+ rest). by apply js_trim_app.
  - unfold agentKey. by rewrite !js_lower_app, Hla, Hl.
Qed.

Lemma normalize_lowered key :
  lowered key → key ≠ EmptyString → mayContainCasePreservingPeer key = false →
  normalizeSessionKeyPreservingOpaquePeerIds (Some key) = key.
Proof.
  intros [Ht Hl] Hn Hm. unfold normalizeSessionKeyPreservingOpaquePeerIds. rewrite (normalizeOptional_fix key) by done.
  unfold normalizeRawKey. by rewrite Hm.
Qed.

Lemma parse_agentKey a rest :
  canonical a → key_rest rest → mayContainCasePreservingPeer (agentKey a rest) = false →
  parseAgentSessionKey (Some (agentKey a rest)) = Some {| p_agentId := a; p_rest := rest |}.
Proof.
  intros Ha Hr Hm. unfold parseAgentSessionKey. rewrite normalize_lowered; [|by apply agentKey_lowered|done|done].
  unfold agentKey. rewrite starts_with_app. cbn [negb].
  change (str_drop 6 ("agent:" +:+ ?x)) with x. change (":" +:+ rest) with (String ":" rest).
  rewrite index_of_char by (by apply canonical_colon). rewrite str_take_app.
  destruct (canonical_lowered a Ha) as [Ht _]. rewrite (normalizeOptional_fix a) by (done || apply Ha).
  assert (E : str_drop (6 + String.length a + 1) ("agent:" +:+ a +:+ String ":" rest) = rest).
  { replace ("agent:" +:+ a +:+ String ":" rest) with (("agent:" +:+ a +:+ ":") +:+ rest) by (by rewrite !str_app_assoc).
    replace (6 + String.length a + 1)%nat with (String.length ("agent:" +:+ a +:+ ":")); [apply str_drop_app|].
    rewrite !str_length_app. cbn. lia. }
  rewrite E. destruct Hr as [_ Hn Hc]. by rewrite bool_decide_false, Hc by done.
Qed.

Lemma trimmed_head c r : js_trim (String c r) = String c r → is_js_space c = false.
Proof.
  intros H. destruct (is_js_space c) eqn:E; [|done]. exfalso.
  assert (Hl : ∀ s, (String.length (js_trim s) ≤ String.length s)%nat).
  { intros s. unfold js_trim. trans (String.length (trim_start s)).
    - generalize (trim_start s) as x. induction x as [|k x IH]; [done|]. cbn. destruct (trim_end x); [|cbn in *; lia].
      destruct (is_js_space k); cbn; lia.
    - induction s as [|k s IH]; [done|]. cbn. destruct (is_js_space k); cbn; lia. }
  specialize (Hl r). apply (f_equal String.length) in H. unfold js_trim in *. cbn [trim_start] in H. rewrite E in H. cbn in H. lia.
Qed.

Lemma lowered_app a m b :
  lowered a → a ≠ EmptyString → js_lower m = m → lowered b → b ≠ EmptyString → lowered (a +:+ m +:+ b).
Proof.
  intros [Ha Hla] Hna Hm [Hb Hlb] Hnb. split; [|by rewrite !js_lower_app, Hla, Hm, Hlb].
  destruct a as [|c a]; [done|]. rewrite <-str_app_assoc.
  change (String c a +:+ m) with (String c (a +:+ m)). apply js_trim_app; [by eapply trimmed_head|done|done].
Qed.

Lemma str_or_lowered v d : lowered d → lowered (str_or (normalizeLowercaseStringOrEmpty v) d).
Proof. intros Hd. pose proof (normalizeLower_lowered v) as H. by destruct (normalizeLowercaseStringOrEmpty v). Qed.

Lemma keyChannel_ok ch : lowered (keyChannel ch) ∧ keyChannel ch ≠ EmptyString.
Proof. split; [by apply str_or_lowered|by apply str_or_nonempty]. Qed.

Definition kindOf (p : PeerKeyParams) : ChatType := default Direct p.(k_peerKind).

(** The peer that a key names. *)
Definition peerOf (p : PeerKeyParams) : string :=
  match kindOf p with
  | Direct => directPeer p
  | kind => str_or (normalizeSessionPeerId (Some p.(k_channel)) (Some (chatTypeName kind)) p.(k_peerId)) "unknown"
  end.

(** A conversation whose key can be read back: it has a key of its own, of
    characters and segments that the readers of keys leave alone. *)
Record deliverable (p : PeerKeyParams) : Prop := {
  dl_scope : match kindOf p with
             | Direct => p.(k_dmScope) = Some PerAccountChannelPeer ∧ directPeer p ≠ EmptyString
             | kind => p.(k_groupScope) ≠ Some GroupMain ∧
                       isCasePreservingPeer (Some p.(k_channel)) (Some (chatTypeName kind)) = false
             end;
  dl_channel : str_has ":" (keyChannel p.(k_channel)) = false ∧ keyChannel p.(k_channel) ≠ "agent";
  dl_peer : normalizeOptionalString (head (split_on ":" (peerOf p))) ≠ None ∧
            (kindOf p ≠ Direct → segmentOf (peerOf p) ∉ ["direct"; "dm"]);
  dl_case : mayContainCasePreservingPeer (buildAgentPeerSessionKey p) = false;
  dl_thread : last_index_of threadMarker (buildAgentPeerSessionKey p) = None
}.

(** What stands between the agent and the peer. *)
Definition middleOf (p : PeerKeyParams) : string :=
  match kindOf p with
  | Direct => ":" +:+ normalizeAccountId p.(k_accountId) +:+ ":direct:"
  | kind => ":" +:+ chatTypeName kind +:+ ":"
  end.

Lemma groupPeer_ok channel kind peerId :
  isCasePreservingPeer channel kind = false →
  lowered (str_or (normalizeSessionPeerId channel kind peerId) "unknown").
Proof.
  intros Hc. unfold normalizeSessionPeerId. destruct (trimmedOrEmpty peerId) as [|c r]; [done|].
  rewrite Hc. by apply str_or_lowered.
Qed.

Lemma peerOf_ok p : deliverable p → lowered (peerOf p) ∧ peerOf p ≠ EmptyString.
Proof.
  intros [Hs _ _ _ _]. unfold peerOf. destruct (kindOf p).
  - split; [apply normalizeLower_lowered|apply Hs].
  - split; [apply groupPeer_ok, Hs|by apply str_or_nonempty].
  - split; [apply groupPeer_ok, Hs|by apply str_or_nonempty].
Qed.

Lemma build_shape p :
  deliverable p →
  buildAgentPeerSessionKey p = agentKey (normalizeAgentId p.(k_agentId)) (keyChannel p.(k_channel) +:+ middleOf p +:+ peerOf p).
Proof.
  intros [Hs _ _ _ _]. unfold buildAgentPeerSessionKey, agentKey, middleOf, peerOf, kindOf in *.
  destruct (default Direct p.(k_peerKind)) eqn:Ek.
  - destruct Hs as [-> Hd]. cbn [default from_option id]. destruct (directPeer p) as [|c r]; [done|].
    by rewrite !str_app_assoc.
  - destruct Hs as [Hg _]. rewrite bool_decide_false by done. by rewrite !str_app_assoc.
  - destruct Hs as [Hg _]. rewrite bool_decide_false by done. by rewrite !str_app_assoc.
Qed.

Lemma middle_ok p : js_lower (middleOf p) = middleOf p.
Proof.
  unfold middleOf. destruct (kindOf p); [|done|done]. rewrite !js_lower_app.
  by destruct (canonical_lowered _ (normalizeAccountId_canonical p.(k_accountId))) as [_ ->].
Qed.

Lemma rest_ok p : deliverable p → key_rest (keyChannel p.(k_channel) +:+ middleOf p +:+ peerOf p).
Proof.
  intros Hd. destruct (keyChannel_ok p.(k_channel)) as [Hc Hn], (peerOf_ok p Hd) as [Hp Hpn]. split.
  - apply lowered_app; [done..|apply middle_ok|done|done].
  - by destruct (keyChannel p.(k_channel)).
  - destruct (dl_channel p Hd) as [Hcol _]. destruct (keyChannel p.(k_channel)) as [|c r]; [done|].
    change (String c r +:+ ?x) with (String c (r +:+ x)). rewrite starts_with_cons, decide_False; [done|].
    rewrite str_has_cons in Hcol. apply orb_false_iff in Hcol as [?%bool_decide_eq_false _]. done.
Qed.

(** The route that a reader should find. *)
Definition routeOf (p : PeerKeyParams) (threadId : option string) : ParsedSessionDeliveryRoute :=
  {| dr_accountId := match kindOf p with Direct => Some (normalizeAccountId p.(k_accountId)) | _ => None end;
     dr_channel := keyChannel p.(k_channel); dr_peerId := peerOf p; dr_peerKind := chatTypeName (kindOf p);
     dr_threadId := threadId |}.

Lemma normalizeOptional_lowered s : lowered s → s ≠ EmptyString →
  normalizeOptionalString (Some s) = Some s ∧ normalizeOptionalLowercaseString (Some s) = Some s.
Proof.
  intros [Ht Hl] Hn. unfold normalizeOptionalLowercaseString. rewrite normalizeOptional_fix by done. cbn. by rewrite Hl.
Qed.

(** The segments of the part behind the agent. *)
Lemma rest_parts p :
  deliverable p →
  split_on ":" (keyChannel p.(k_channel) +:+ middleOf p +:+ peerOf p) =
  keyChannel p.(k_channel) ::
  match kindOf p with
  | Direct => normalizeAccountId p.(k_accountId) :: "direct" :: split_on ":" (peerOf p)
  | kind => chatTypeName kind :: split_on ":" (peerOf p)
  end.
Proof.
  intros Hd. destruct (dl_channel p Hd) as [Hcol _]. unfold middleOf. destruct (kindOf p).
  - change ((":" +:+ ?a +:+ ":direct:") +:+ ?b) with (String ":" ((a +:+ ":direct:") +:+ b)).
    rewrite split_on_cut by done. f_equal. rewrite str_app_assoc.
    change (":direct:" +:+ ?b) with (String ":" ("direct" +:+ String ":" b)).
    rewrite split_on_cut by (apply canonical_colon, normalizeAccountId_canonical). by f_equal.
  - change ((":" +:+ ?a +:+ ":") +:+ ?b) with (String ":" (a +:+ String ":" b)). by rewrite !split_on_cut.
  - change ((":" +:+ ?a +:+ ":") +:+ ?b) with (String ":" (a +:+ String ":" b)). by rewrite !split_on_cut.
Qed.

Lemma no_thread_suffix key :
  lowered key → key ≠ EmptyString → last_index_of threadMarker key = None →
  parseThreadSessionSuffix (Some key) = {| t_base := Some key; t_threadId := None |}.
Proof.
  intros Hl Hn Hm. unfold parseThreadSessionSuffix. destruct (normalizeOptional_lowered key Hl Hn) as [-> _].
  by rewrite normalizeLower_fix, Hm.
Qed.

Lemma thread_suffix key t :
  lowered key → key ≠ EmptyString → lowered t → t ≠ EmptyString →
  last_index_of threadMarker ("thread:" +:+ t) = None →
  parseThreadSessionSuffix (Some (key +:+ threadMarker +:+ t)) = {| t_base := Some key; t_threadId := Some t |}.
Proof.
  intros Hl Hn Ht Htn Hm. assert (Hk : lowered (key +:+ threadMarker +:+ t)) by (by apply lowered_app).
  assert (Hkn : key +:+ threadMarker +:+ t ≠ EmptyString) by (by destruct key).
  unfold parseThreadSessionSuffix. destruct (normalizeOptional_lowered _ Hk Hkn) as [-> _].
  rewrite normalizeLower_fix by done. unfold threadMarker at 1 2. rewrite last_index_of_middle by done.
  rewrite str_take_app. f_equal. rewrite <-str_length_app, <-str_app_assoc, str_drop_app.
  by apply normalizeOptional_lowered.
Qed.

(** What a reader finds in a key, once its thread suffix is off. *)
Lemma delivery_base p sessionKey threadId :
  deliverable p →
  parseThreadSessionSuffix (Some sessionKey) = {| t_base := Some (buildAgentPeerSessionKey p); t_threadId := threadId |} →
  parseSessionDeliveryRoute (Some sessionKey) = Some (routeOf p threadId).
Proof.
  intros Hd Ht. unfold parseSessionDeliveryRoute. rewrite Ht. cbn [t_base t_threadId].
  pose proof (rest_ok p Hd) as Hrest. destruct (peerOf_ok p Hd) as [Hp Hpn], (keyChannel_ok p.(k_channel)) as [Hc Hcn].
  pose proof (dl_case p Hd) as Hcase. rewrite (build_shape p Hd) in *.
  rewrite (parse_agentKey _ _ (normalizeAgentId_canonical_id _) Hrest Hcase). cbn [p_rest]. rewrite (rest_parts p Hd).
  destruct (dl_channel p Hd) as [_ Hagent], (dl_peer p Hd) as [Hseg Hnot].
  destruct (split_on_cons ":" (peerOf p)) as (h & t & Eh). rewrite Eh in Hseg. cbn [head] in Hseg.
  destruct (normalizeOptionalString (Some h)) as [h'|] eqn:Eh'; [|done].
  destruct (normalizeOptional_lowered _ Hp Hpn) as [Ep _].
  pose proof (join_split ":" (peerOf p)) as Hj. rewrite Eh in Hj.
  unfold routeOf. destruct (kindOf p) eqn:Ek; rewrite Eh; cbn [lookup list_lookup default from_option id length].
  - rewrite bool_decide_false by done. cbn [orb Nat.ltb Nat.leb andb].
    destruct (normalizeOptional_lowered _ Hc Hcn) as [_ ->].
    rewrite (bool_decide_true ("direct" ∈ _)) by (by left). cbn [drop].
    pose proof (normalizeAccountId_canonical p.(k_accountId)) as Ha.
    destruct (normalizeOptional_lowered _ (canonical_lowered _ Ha) (ca_nonempty _ Ha)) as [-> _].
    by rewrite Eh', Hj, Ep.
  - assert (Hh : h ∉ ["direct"; "dm"]) by (unfold segmentOf in Hnot; rewrite Eh in Hnot; by apply Hnot).
    rewrite bool_decide_false by done. cbn [orb Nat.ltb Nat.leb].
    destruct (normalizeOptional_lowered _ Hc Hcn) as [_ ->].
    rewrite (bool_decide_false (h ∈ _)), andb_false_r by done. cbn [drop]. by rewrite Eh', Hj, Ep.
  - assert (Hh : h ∉ ["direct"; "dm"]) by (unfold segmentOf in Hnot; rewrite Eh in Hnot; by apply Hnot).
    rewrite bool_decide_false by done. cbn [orb Nat.ltb Nat.leb].
    destruct (normalizeOptional_lowered _ Hc Hcn) as [_ ->].
    rewrite (bool_decide_false (h ∈ _)), andb_false_r by done. cbn [drop]. by rewrite Eh', Hj, Ep.
Qed.



(** ** Examples *)

(** A direct chat with its own session per account, and a group. *)
Definition sampleDirect : PeerKeyParams :=
  {| k_agentId := Some "Support Bot"; k_mainKey := None; k_channel := "Telegram"; k_accountId := None;
     k_peerKind := None; k_peerId := Some " 4711 "; k_identityLinks := None;
     k_dmScope := Some PerAccountChannelPeer; k_groupScope := None |}.

Definition sampleGroup : PeerKeyParams :=
  {| k_agentId := Some "Support Bot"; k_mainKey := None; k_channel := "Telegram"; k_accountId := None;
     k_peerKind := Some Group; k_peerId := Some "-100:42"; k_identityLinks := None;
     k_dmScope := None; k_groupScope := None |}.

Lemma sample_deliverable : deliverable sampleDirect ∧ deliverable sampleGroup.
Proof.
  split; constructor; try (vm_compute; reflexivity).
  - split; [reflexivity|]. vm_compute. discriminate.
  - split; [reflexivity|]. vm_compute. discriminate.
  - split; [vm_compute; discriminate|]. by intros [].
  - split; [discriminate|reflexivity].
  - split; [reflexivity|]. vm_compute. discriminate.
  - split; [vm_compute; discriminate|]. intros _. apply (bool_decide_unpack _). reflexivity.
Qed.



(** An id that another normalisation changes: its last dash is only uncovered
    by the cut at 64 characters. *)
Example agent_id_not_stable :
  let long := "_" +:+ String.concat "" (repeat "a" 62) +:+ "-b" in
  normalizeAgentId (Some (normalizeAgentId (Some long))) ≠ normalizeAgentId (Some long).
Proof. vm_compute. discriminate. Qed.
