(* ===== verification/Routing.v ===== *)
(** * Route resolution

    Which agent and which session an inbound message belongs to
    ([src/routing/resolve-route.ts], [binding-scope.ts], [bindings.ts],
    [peer-kind-match.ts], [src/config/bindings.ts], and of
    [src/agents/agent-scope-config.ts] the roster and its default owner):
    bindings of the configuration, their index per channel and account, the
    tiers of precedence, and the two caches.

    A configuration is given with the identities of its parts, which the
    caches compare; a binding with the place it has in the source.  The key of
    the route cache is the array that the source prints as JSON.  Errors are
    values. *)
From stdpp Require Import sorting.
From Stdlib Require QArith.QArith.
From S2P Require Import Prelude JsCollections JsStrings SessionKeys.
Local Open Scope nat_scope.

(** ** Configuration *)

Record AgentEntry := { ae_id : option string; ae_default : bool }.

(** The roster: keyed entries or a list, either with values that are no
    objects ([None]), or a value of another shape. *)
Inductive Roster :=
| EntriesRoster (entries : list (string * option AgentEntry))
| ListRoster (entries : list (option AgentEntry))
| MalformedRoster.

Record BindingPeer := { bp_kind : option string; bp_id : option string }.

Record BindingMatch := {
  bm_channel : option string;
  bm_accountId : option string;
  bm_peer : option BindingPeer;
  bm_guildId : option string;
  bm_teamId : option string;
  bm_roles : option (list string)
}.

Record AgentBinding := {
  b_acp : bool;
  b_agentId : string;
  b_match : BindingMatch;
  b_dmScope : option DmScope;
  b_groupScope : option GroupScope
}.

Record SessionConfig := {
  s_dmScope : option DmScope;
  s_groupScope : option GroupScope;
  s_mainKey : option string;
  s_identityLinks : option (list (string * option (list string)))
}.

(** [c_ref] and the refs of the parts are identities; [c_retained] is the
    owner that a migration has left for this object. *)
Record OpenClawConfig := {
  c_ref : nat;
  c_agentsRef : nat;
  c_bindingsRef : nat;
  c_sessionRef : nat;
  c_roster : option Roster;
  c_explicit : bool;
  c_retained : option string;
  c_bindings : list AgentBinding;
  c_session : option SessionConfig
}.

Definition listAgentEntries (cfg : OpenClawConfig) : list AgentEntry :=
  match cfg.(c_roster) with
  | None => []
  | Some (EntriesRoster l) =>
      omap (λ ke, (λ e, {| ae_id := Some ke.1; ae_default := e.(ae_default) |}) <$> ke.2) l
  | Some (ListRoster l) => omap id l
  | Some MalformedRoster => []
  end.

Definition hasAgentRosterProperty (cfg : OpenClawConfig) : bool := bool_decide (is_Some cfg.(c_roster)).

Definition listAgentIds (cfg : OpenClawConfig) : list string :=
  match listAgentEntries cfg, hasAgentRosterProperty cfg with
  | [], false => [DEFAULT_AGENT_ID]
  | agents, _ => JsSet.of_list ((λ e, normalizeAgentId e.(ae_id)) <$> agents)
  end.

Definition tryResolveSoleAgentId (cfg : OpenClawConfig) : option string :=
  match listAgentEntries cfg with
  | [] => if hasAgentRosterProperty cfg then None else Some DEFAULT_AGENT_ID
  | [e] => Some (normalizeAgentId e.(ae_id))
  | _ => None
  end.

Inductive RouteError := NoAgents | AgentSelectionRequired (agentIds : list string).

Definition resolveSoleAgentId (cfg : OpenClawConfig) : RouteError + string :=
  match tryResolveSoleAgentId cfg with
  | Some sole => inr sole
  | None => match listAgentIds cfg with
            | [] => inl NoAgents
            | ids => inl (AgentSelectionRequired ids)
            end
  end.

Definition tryResolveRawLegacyDefaultAgentId (cfg : OpenClawConfig) : option string :=
  if cfg.(c_explicit) then None
  else match List.filter ae_default (listAgentEntries cfg) with
       | [e] => Some (normalizeAgentId e.(ae_id))
       | _ => None
       end.

Definition resolveDefaultAgentId (cfg : OpenClawConfig) : RouteError + string :=
  match tryResolveRawLegacyDefaultAgentId cfg with
  | Some id => inr id
  | None => resolveSoleAgentId cfg
  end.

Definition tryResolveDefaultAgentId (cfg : OpenClawConfig) : option string :=
  match tryResolveRawLegacyDefaultAgentId cfg with
  | Some id => Some id
  | None => tryResolveSoleAgentId cfg
  end.

Definition tryResolveLegacyCompatibilityAgentId (cfg : OpenClawConfig) : option string :=
  match cfg.(c_retained) with
  | Some retained =>
      if negb (bool_decide (retained = EmptyString)) && bool_decide (retained ∈ listAgentIds cfg)
      then Some retained else tryResolveDefaultAgentId cfg
  | None => tryResolveDefaultAgentId cfg
  end.

(** The route bindings: those that are not for ACP. *)
Definition listBindings (cfg : OpenClawConfig) : list AgentBinding :=
  List.filter (λ b, negb b.(b_acp)) cfg.(c_bindings).

(** ** Scopes *)

Definition peerKindMatches (bindingKind scopeKind : ChatType) : bool :=
  match bindingKind, scopeKind with
  | Group, Channel | Channel, Group => true
  | _, _ => bool_decide (bindingKind = scopeKind)
  end.

Definition normalizeRouteBindingId (value : option string) : string := trimmedOrEmpty value.

Definition normalizeRouteBindingRoles (value : option (list string)) : option (list string) :=
  match value with Some (r :: l) => Some (r :: l) | _ => None end.

Inductive NormalizedPeerConstraint :=
| PeerNone
| PeerInvalid
| PeerWildcard (kind : ChatType)
| PeerValid (kind : ChatType) (id : string).

Record NormalizedBindingMatch := {
  accountPattern : string;
  m_peer : NormalizedPeerConstraint;
  m_guildId : option string;
  m_teamId : option string;
  m_roles : option (list string)
}.

(** [s || null]. *)
Definition orNull (s : string) : option string := match s with EmptyString => None | _ => Some s end.

Definition normalizePeerConstraint (peer : option BindingPeer) : NormalizedPeerConstraint :=
  match peer with
  | None => PeerNone
  | Some p =>
      match normalizeChatType p.(bp_kind), normalizeRouteBindingId p.(bp_id) with
      | None, _ | _, EmptyString => PeerInvalid
      | Some kind, id => if bool_decide (id = "*") then PeerWildcard kind else PeerValid kind id
      end
  end.

Definition normalizeBindingMatch (m : BindingMatch) : NormalizedBindingMatch :=
  {| accountPattern := trimmedOrEmpty m.(bm_accountId); m_peer := normalizePeerConstraint m.(bm_peer);
     m_guildId := orNull (normalizeRouteBindingId m.(bm_guildId));
     m_teamId := orNull (normalizeRouteBindingId m.(bm_teamId));
     m_roles := normalizeRouteBindingRoles m.(bm_roles) |}.

Record RoutePeer := { rp_kind : ChatType; rp_id : string }.

#[export] Instance RoutePeer_eq_dec : EqDecision RoutePeer.
Proof. solve_decision. Defined.

Record BindingScope := {
  sc_peer : option RoutePeer;
  sc_guildId : string;
  sc_teamId : string;
  memberRoleIds : list string
}.

(** A missing constraint holds; the scopes of routes have no group space. *)
Definition scopeIdMatches (constraint : option string) (exact groupSpace : string) : bool :=
  match constraint with
  | None | Some EmptyString => true
  | Some c => bool_decide (c = exact) || bool_decide (c = groupSpace)
  end.

Definition hasAnyRouteBindingRole (roles memberRoleIds : list string) : bool :=
  existsb (λ role, bool_decide (role ∈ memberRoleIds)) roles.

Definition routeBindingScopeMatches (m : NormalizedBindingMatch) (scope : BindingScope) : bool :=
  let groupSpace := EmptyString in
  if negb (scopeIdMatches m.(m_guildId) (js_trim scope.(sc_guildId)) groupSpace) then false
  else if negb (scopeIdMatches m.(m_teamId) (js_trim scope.(sc_teamId)) groupSpace) then false
  else match normalizeRouteBindingRoles m.(m_roles) with
       | None => true
       | Some roles => hasAnyRouteBindingRole roles scope.(memberRoleIds)
       end.

Definition matchesBindingScope (m : NormalizedBindingMatch) (scope : BindingScope) : bool :=
  match m.(m_peer) with
  | PeerInvalid => false
  | PeerValid kind id =>
      match scope.(sc_peer) with
      | None => false
      | Some p => peerKindMatches kind p.(rp_kind) && bool_decide (p.(rp_id) = id) && routeBindingScopeMatches m scope
      end
  | PeerWildcard kind =>
      match scope.(sc_peer) with
      | None => false
      | Some p => peerKindMatches kind p.(rp_kind) && routeBindingScopeMatches m scope
      end
  | PeerNone => routeBindingScopeMatches m scope
  end.

(** ** Evaluated bindings *)

(** [order] is the identity of an evaluated binding. *)
Record EvaluatedBinding := {
  binding : AgentBinding;
  match_ : NormalizedBindingMatch;
  order : nat
}.

Record ChannelBindings := {
  byAccount : list (string * list EvaluatedBinding);
  byAnyAccount : list EvaluatedBinding
}.

(** [push] on the list of a key, which is created where it is missing. *)
Definition pushAt {K A} `{EqDecision K} (k : K) (a : A) (m : list (K * list A)) : list (K * list A) :=
  JsMap.set k (default [] (JsMap.get k m) ++ [a]) m.

Definition addToBucket (e : EvaluatedBinding) (bucket : ChannelBindings) : ChannelBindings :=
  if bool_decide (e.(match_).(accountPattern) = "*")
  then {| byAccount := bucket.(byAccount); byAnyAccount := bucket.(byAnyAccount) ++ [e] |}
  else {| byAccount := pushAt (normalizeAccountId (Some e.(match_).(accountPattern))) e bucket.(byAccount);
          byAnyAccount := bucket.(byAnyAccount) |}.

Fixpoint addBindings (order : nat) (bindings : list AgentBinding) (byChannel : list (string * ChannelBindings)) :
    list (string * ChannelBindings) :=
  match bindings with
  | [] => byChannel
  | b :: rest =>
      match normalizeLowercaseStringOrEmpty b.(b_match).(bm_channel) with
      | EmptyString => addBindings order rest byChannel
      | channel =>
          let e := {| binding := b; match_ := normalizeBindingMatch b.(b_match); order := order |} in
          let bucket := default {| byAccount := []; byAnyAccount := [] |} (JsMap.get channel byChannel) in
          addBindings (S order) rest (JsMap.set channel (addToBucket e bucket) byChannel)
      end
  end.

Definition buildEvaluatedBindingsByChannel (cfg : OpenClawConfig) : list (string * ChannelBindings) :=
  addBindings 0 (listBindings cfg) [].

Fixpoint mergeEvaluatedBindingsInSourceOrder (accountScoped : list EvaluatedBinding) :
    list EvaluatedBinding → list EvaluatedBinding :=
  fix go (anyAccount : list EvaluatedBinding) : list EvaluatedBinding :=
    match accountScoped, anyAccount with
    | [], _ => anyAccount
    | _, [] => accountScoped
    | a :: accountScoped', b :: anyAccount' =>
        if (a.(order) <=? b.(order)) then a :: mergeEvaluatedBindingsInSourceOrder accountScoped' anyAccount
        else b :: go anyAccount'
    end.

(** The bindings that apply to an account of a channel, in the order of the
    source. *)
Definition evaluatedBindings (cfg : OpenClawConfig) (channel accountId : string) : list EvaluatedBinding :=
  match JsMap.get channel (buildEvaluatedBindingsByChannel cfg) with
  | None => []
  | Some bucket =>
      mergeEvaluatedBindingsInSourceOrder (default [] (JsMap.get accountId bucket.(byAccount))) bucket.(byAnyAccount)
  end.

(** ** The index *)

Record EvaluatedBindingsIndex := {
  byPeer : list (string * list EvaluatedBinding);
  byPeerWildcard : list EvaluatedBinding;
  byGuildWithRoles : list (string * list EvaluatedBinding);
  byGuild : list (string * list EvaluatedBinding);
  byTeam : list (string * list EvaluatedBinding);
  ix_byAccount : list EvaluatedBinding;
  ix_byChannel : list EvaluatedBinding
}.

#[export] Instance EvaluatedBindingsIndex_eta : Eta EvaluatedBindingsIndex := λ x,
  {| byPeer := x.(byPeer); byPeerWildcard := x.(byPeerWildcard); byGuildWithRoles := x.(byGuildWithRoles);
     byGuild := x.(byGuild); byTeam := x.(byTeam); ix_byAccount := x.(ix_byAccount);
     ix_byChannel := x.(ix_byChannel) |}.

Definition peerLookupKeys (kind : ChatType) (id : string) : list string :=
  match kind with
  | Group => ["group:" +:+ id; "channel:" +:+ id]
  | Channel => ["channel:" +:+ id; "group:" +:+ id]
  | Direct => ["direct:" +:+ id]
  end.

Definition indexBinding (x : EvaluatedBindingsIndex) (e : EvaluatedBinding) : EvaluatedBindingsIndex :=
  match e.(match_).(m_peer) with
  | PeerValid kind id => x <| byPeer ::= λ m, foldl (λ m key, pushAt key e m) m (peerLookupKeys kind id) |>
  | PeerWildcard _ => x <| byPeerWildcard ::= λ l, l ++ [e] |>
  | _ =>
      match e.(match_).(m_guildId), e.(match_).(m_roles), e.(match_).(m_teamId) with
      | Some g, Some _, _ => x <| byGuildWithRoles ::= pushAt g e |>
      | Some g, None, _ => x <| byGuild ::= pushAt g e |>
      | None, _, Some t => x <| byTeam ::= pushAt t e |>
      | None, _, None =>
          if bool_decide (e.(match_).(accountPattern) = "*") then x <| ix_byChannel ::= λ l, l ++ [e] |>
          else x <| ix_byAccount ::= λ l, l ++ [e] |>
      end
  end.

Definition emptyIndex : EvaluatedBindingsIndex :=
  {| byPeer := []; byPeerWildcard := []; byGuildWithRoles := []; byGuild := []; byTeam := [];
     ix_byAccount := []; ix_byChannel := [] |}.

Definition buildEvaluatedBindingsIndex (bindings : list EvaluatedBinding) : EvaluatedBindingsIndex :=
  foldl indexBinding emptyIndex bindings.

(** A binding that [seen] holds already is skipped. *)
Definition collectOne (st : list nat * list EvaluatedBinding) (e : EvaluatedBinding) :
    list nat * list EvaluatedBinding :=
  if bool_decide (e.(order) ∈ st.1) then st else (st.1 ++ [e.(order)], st.2 ++ [e]).

Definition collectPeerIndexedBindings (index : EvaluatedBindingsIndex) (peer : option RoutePeer) :
    list EvaluatedBinding :=
  match peer with
  | None => []
  | Some p =>
      (foldl (λ st key, foldl collectOne st (default [] (JsMap.get key index.(byPeer))))
         ([], []) (peerLookupKeys p.(rp_kind) p.(rp_id))).2
  end.


(** ** The owner of a route *)

Record AgentLookupCache := {
  al_agentsRef : nat;
  byNormalizedId : list (string * string);
  fallbackSoleAgentId : option string
}.

Record EvaluatedBindingsCache := {
  ev_bindingsRef : nat;
  byChannel : list (string * ChannelBindings);
  byChannelAccount : list (string * list EvaluatedBinding);
  byChannelAccountIndex : list (string * EvaluatedBindingsIndex)
}.

#[export] Instance EvaluatedBindingsCache_eta : Eta EvaluatedBindingsCache := λ x,
  {| ev_bindingsRef := x.(ev_bindingsRef); byChannel := x.(byChannel); byChannelAccount := x.(byChannelAccount);
     byChannelAccountIndex := x.(byChannelAccountIndex) |}.

Inductive MatchedBy :=
| ByPeer | ByPeerParent | ByPeerWildcard | ByGuildRoles | ByGuild | ByTeam | ByAccount | ByChannel | ByDefault.

Inductive LastRoutePolicy := MainPolicy | SessionPolicy.

Record ResolvedAgentRoute := {
  r_agentId : string;
  r_channel : string;
  r_accountId : string;
  r_dmScope : DmScope;
  r_groupScope : GroupScope;
  r_sessionKey : string;
  r_mainSessionKey : string;
  lastRoutePolicy : LastRoutePolicy;
  matchedBy : MatchedBy
}.

(** The array that is printed as the key of a route: strings, and the sorted
    role ids. *)
Definition RouteKey := list (string + list string).

#[export] Instance RouteKey_eq_dec : EqDecision RouteKey.
Proof. unfold RouteKey. solve_decision. Defined.

Record ResolvedRouteCache := {
  rc_bindingsRef : nat;
  rc_agentsRef : nat;
  rc_sessionRef : nat;
  byKey : list (RouteKey * ResolvedAgentRoute)
}.

#[export] Instance ResolvedRouteCache_eta : Eta ResolvedRouteCache := λ x,
  {| rc_bindingsRef := x.(rc_bindingsRef); rc_agentsRef := x.(rc_agentsRef); rc_sessionRef := x.(rc_sessionRef);
     byKey := x.(byKey) |}.

(** The three weak maps of the module, by the identity of a configuration. *)
Record Caches := {
  agentLookupCacheByCfg : list (nat * AgentLookupCache);
  evaluatedBindingsCacheByCfg : list (nat * EvaluatedBindingsCache);
  resolvedRouteCacheByCfg : list (nat * ResolvedRouteCache)
}.

#[export] Instance Caches_eta : Eta Caches := λ x,
  {| agentLookupCacheByCfg := x.(agentLookupCacheByCfg); evaluatedBindingsCacheByCfg := x.(evaluatedBindingsCacheByCfg);
     resolvedRouteCacheByCfg := x.(resolvedRouteCacheByCfg) |}.

Definition emptyCaches : Caches :=
  {| agentLookupCacheByCfg := []; evaluatedBindingsCacheByCfg := []; resolvedRouteCacheByCfg := [] |}.

Definition MAX_EVALUATED_BINDINGS_CACHE_KEYS : nat := 2000.
Definition MAX_RESOLVED_ROUTE_CACHE_KEYS : nat := 4000.

Definition addAgent (m : list (string * string)) (agent : AgentEntry) : list (string * string) :=
  match trimmedOrEmpty agent.(ae_id) with
  | EmptyString => m
  | rawId => JsMap.set (normalizeAgentId (Some rawId)) (sanitizeAgentId (Some rawId)) m
  end.

Definition buildAgentLookup (cfg : OpenClawConfig) : AgentLookupCache :=
  {| al_agentsRef := cfg.(c_agentsRef); byNormalizedId := foldl addAgent [] (listAgentEntries cfg);
     fallbackSoleAgentId := tryResolveLegacyCompatibilityAgentId cfg |}.

Definition resolveAgentLookupCache (s : Caches) (cfg : OpenClawConfig) : Caches * AgentLookupCache :=
  let build := let next := buildAgentLookup cfg in
               (s <| agentLookupCacheByCfg ::= JsMap.set cfg.(c_ref) next |>, next) in
  match JsMap.get cfg.(c_ref) s.(agentLookupCacheByCfg) with
  | Some existing => if bool_decide (existing.(al_agentsRef) = cfg.(c_agentsRef)) then (s, existing) else build
  | None => build
  end.

Definition pickAgent (cfg : OpenClawConfig) (lookup : AgentLookupCache) (agentId : string) : RouteError + string :=
  match js_trim agentId with
  | EmptyString =>
      match lookup.(fallbackSoleAgentId) with
      | Some id => inr (sanitizeAgentId (Some id))
      | None => match resolveDefaultAgentId cfg with
                | inl e => inl e
                | inr id => inr (sanitizeAgentId (Some id))
                end
      end
  | trimmed =>
      let normalized := normalizeAgentId (Some trimmed) in
      match default EmptyString (JsMap.get normalized lookup.(byNormalizedId)) with
      | EmptyString =>
          if bool_decide (normalized = DEFAULT_AGENT_ID) then inr DEFAULT_AGENT_ID
          else match lookup.(byNormalizedId) with
               | [] => inr (sanitizeAgentId (Some trimmed))
               | m => inl (AgentSelectionRequired (JsMap.values m))
               end
      | resolved => inr resolved
      end
  end.

Definition pickFirstExistingAgentId (s : Caches) (cfg : OpenClawConfig) (agentId : string) :
    Caches * (RouteError + string) :=
  let '(s', lookup) := resolveAgentLookupCache s cfg in (s', pickAgent cfg lookup agentId).

(** ** The bindings of an account *)

Definition evaluatedCacheFor (s : Caches) (cfg : OpenClawConfig) : EvaluatedBindingsCache :=
  let fresh := {| ev_bindingsRef := cfg.(c_bindingsRef); byChannel := buildEvaluatedBindingsByChannel cfg;
                  byChannelAccount := []; byChannelAccountIndex := [] |} in
  match JsMap.get cfg.(c_ref) s.(evaluatedBindingsCacheByCfg) with
  | Some existing => if bool_decide (existing.(ev_bindingsRef) = cfg.(c_bindingsRef)) then existing else fresh
  | None => fresh
  end.

Definition tab : string := String (Ascii.ascii_of_nat 9) EmptyString.
Definition accountCacheKey (channel accountId : string) : string := channel +:+ tab +:+ accountId.

Definition bindingsFor (byChannel : list (string * ChannelBindings)) (channel accountId : string) :
    list EvaluatedBinding :=
  mergeEvaluatedBindingsInSourceOrder
    (default [] (b ← JsMap.get channel byChannel; JsMap.get accountId b.(byAccount)))
    (default [] (byAnyAccount <$> JsMap.get channel byChannel)).

Definition storeEvaluated (cacheKey : string) (evaluated : list EvaluatedBinding) (cache : EvaluatedBindingsCache) :
    EvaluatedBindingsCache :=
  let cache' := cache <| byChannelAccount ::= JsMap.set cacheKey evaluated |>
                      <| byChannelAccountIndex ::= JsMap.set cacheKey (buildEvaluatedBindingsIndex evaluated) |> in
  if MAX_EVALUATED_BINDINGS_CACHE_KEYS <? JsMap.size cache'.(byChannelAccount)
  then cache' <| byChannelAccount := [(cacheKey, evaluated)] |>
              <| byChannelAccountIndex := [(cacheKey, buildEvaluatedBindingsIndex evaluated)] |>
  else cache'.

Definition getEvaluatedBindingsForChannelAccount (s : Caches) (cfg : OpenClawConfig) (channel accountId : string) :
    Caches * list EvaluatedBinding :=
  let cache := evaluatedCacheFor s cfg in
  let cacheKey := accountCacheKey channel accountId in
  let keep c := s <| evaluatedBindingsCacheByCfg ::= JsMap.set cfg.(c_ref) c |> in
  match JsMap.get cacheKey cache.(byChannelAccount) with
  | Some hit => (keep cache, hit)
  | None =>
      let evaluated := bindingsFor cache.(byChannel) channel accountId in
      (keep (storeEvaluated cacheKey evaluated cache), evaluated)
  end.

Definition getEvaluatedBindingIndexForChannelAccount (s : Caches) (cfg : OpenClawConfig)
    (channel accountId : string) : Caches * EvaluatedBindingsIndex :=
  let '(s, bindings) := getEvaluatedBindingsForChannelAccount s cfg channel accountId in
  let cacheKey := accountCacheKey channel accountId in
  match JsMap.get cfg.(c_ref) s.(evaluatedBindingsCacheByCfg) with
  | None => (s, buildEvaluatedBindingsIndex bindings)
  | Some existing =>
      match JsMap.get cacheKey existing.(byChannelAccountIndex) with
      | Some indexed => (s, indexed)
      | None =>
          let built := buildEvaluatedBindingsIndex bindings in
          (s <| evaluatedBindingsCacheByCfg ::= JsMap.set cfg.(c_ref)
                  (existing <| byChannelAccountIndex ::= JsMap.set cacheKey built |>) |>, built)
      end
  end.

(** ** Routes *)

Record RouteInput := {
  in_cfg : OpenClawConfig;
  in_channel : string;
  in_defaultAgentId : option string;
  in_accountId : option string;
  in_peer : option RoutePeer;
  in_dmScope : option DmScope;
  in_groupScope : option GroupScope;
  in_parentPeer : option RoutePeer;
  in_guildId : option string;
  in_teamId : option string;
  in_memberRoleIds : option (list string)
}.

(** An input in the form that the resolution and the key of its cache use. *)
Record RouteQuery := {
  q_channel : string;
  q_defaultAgentId : string;
  q_accountId : string;
  q_peer : option RoutePeer;
  q_parentPeer : option RoutePeer;
  q_guildId : string;
  q_teamId : string;
  q_memberRoleIds : list string;
  q_dmScope : DmScope;
  q_groupScope : GroupScope
}.

Definition normalizeRoutePeer (peer : RoutePeer) : RoutePeer :=
  {| rp_kind := default peer.(rp_kind) (normalizeChatType (Some (chatTypeName peer.(rp_kind))));
     rp_id := normalizeRouteBindingId (Some peer.(rp_id)) |}.

Definition normalizeRouteInput (input : RouteInput) : RouteQuery :=
  let session := input.(in_cfg).(c_session) in
  let or {A} (a b : option A) (d : A) := match a, b with Some x, _ => x | None, Some x => x | _, _ => d end in
  {| q_channel := normalizeLowercaseStringOrEmpty (Some input.(in_channel));
     q_defaultAgentId := normalizeLowercaseStringOrEmpty input.(in_defaultAgentId);
     q_accountId := normalizeAccountId input.(in_accountId);
     q_peer := normalizeRoutePeer <$> input.(in_peer);
     q_parentPeer := normalizeRoutePeer <$> input.(in_parentPeer);
     q_guildId := normalizeRouteBindingId input.(in_guildId);
     q_teamId := normalizeRouteBindingId input.(in_teamId);
     q_memberRoleIds := default [] input.(in_memberRoleIds);
     q_dmScope := or input.(in_dmScope) (session ≫= s_dmScope) DmMain;
     q_groupScope := or input.(in_groupScope) (session ≫= s_groupScope) PerGroup |}.

Definition formatRouteCachePeer (peer : option RoutePeer) : string :=
  match peer with
  | None => "-"
  | Some p => match p.(rp_id) with
              | EmptyString => "-"
              | id => chatTypeName p.(rp_kind) +:+ ":" +:+ id
              end
  end.

Definition dmScopeName (scope : DmScope) : string :=
  match scope with
  | DmMain => "main"
  | PerPeer => "per-peer"
  | PerChannelPeer => "per-channel-peer"
  | PerAccountChannelPeer => "per-account-channel-peer"
  end.

Definition groupScopeName (scope : GroupScope) : string :=
  match scope with GroupMain => "main" | PerGroup => "per-group" end.

Definition string_leb (a b : string) : Prop := Is_true (String.leb a b).

#[export] Instance string_leb_dec : RelDecision string_leb := λ a b, _.

Definition toSorted (l : list string) : list string := merge_sort string_leb l.

Definition buildResolvedRouteCacheKey (q : RouteQuery) : RouteKey :=
  [inl q.(q_channel); inl q.(q_defaultAgentId); inl q.(q_accountId); inl (formatRouteCachePeer q.(q_peer));
   inl (formatRouteCachePeer q.(q_parentPeer)); inl q.(q_guildId); inl q.(q_teamId);
   inr (toSorted q.(q_memberRoleIds)); inl (dmScopeName q.(q_dmScope)); inl (groupScopeName q.(q_groupScope))].

Definition buildAgentSessionKey (p : PeerKeyParams) (peer : option RoutePeer) : string :=
  buildAgentPeerSessionKey
    {| k_agentId := p.(k_agentId); k_mainKey := Some (default DEFAULT_MAIN_KEY p.(k_mainKey));
       k_channel := str_or (normalizeLowercaseStringOrEmpty (Some p.(k_channel))) "unknown";
       k_accountId := p.(k_accountId); k_peerKind := Some (default Direct (rp_kind <$> peer));
       k_peerId := (λ p, str_or (normalizeRouteBindingId (Some p.(rp_id))) "unknown") <$> peer;
       k_identityLinks := p.(k_identityLinks); k_dmScope := p.(k_dmScope); k_groupScope := p.(k_groupScope) |}.

Definition deriveLastRoutePolicy (sessionKey mainSessionKey : string) : LastRoutePolicy :=
  if bool_decide (sessionKey = mainSessionKey) then MainPolicy else SessionPolicy.

Definition resolveInboundLastRouteSessionKey (route : ResolvedAgentRoute) (sessionKey : string) : string :=
  match route.(lastRoutePolicy) with MainPolicy => route.(r_mainSessionKey) | SessionPolicy => sessionKey end.

(** The route of an owner. *)
Definition routeFor (cfg : OpenClawConfig) (q : RouteQuery) (agentId : string) (by_ : MatchedBy)
    (dm : option DmScope) (group : option GroupScope) : ResolvedAgentRoute :=
  let effectiveDmScope := default q.(q_dmScope) dm in
  let effectiveGroupScope := default q.(q_groupScope) group in
  let mainKey := cfg.(c_session) ≫= s_mainKey in
  let sessionKey := buildAgentSessionKey
    {| k_agentId := Some agentId; k_mainKey := mainKey; k_channel := q.(q_channel);
       k_accountId := Some q.(q_accountId); k_peerKind := None; k_peerId := None;
       k_identityLinks := cfg.(c_session) ≫= s_identityLinks; k_dmScope := Some effectiveDmScope;
       k_groupScope := Some effectiveGroupScope |} q.(q_peer) in
  let mainSessionKey := normalizeLowercaseStringOrEmpty (Some (buildAgentMainSessionKey (Some agentId) mainKey)) in
  {| r_agentId := agentId; r_channel := q.(q_channel); r_accountId := q.(q_accountId);
     r_dmScope := effectiveDmScope; r_groupScope := effectiveGroupScope; r_sessionKey := sessionKey;
     r_mainSessionKey := mainSessionKey; lastRoutePolicy := deriveLastRoutePolicy sessionKey mainSessionKey;
     matchedBy := by_ |}.

(** The routes that are remembered for a configuration; other parts of it
    than before start over. *)
Definition resolveRouteCacheForConfig (s : Caches) (cfg : OpenClawConfig) : Caches * list (RouteKey * ResolvedAgentRoute) :=
  let renew := (s <| resolvedRouteCacheByCfg ::= JsMap.set cfg.(c_ref)
                    {| rc_bindingsRef := cfg.(c_bindingsRef); rc_agentsRef := cfg.(c_agentsRef);
                       rc_sessionRef := cfg.(c_sessionRef); byKey := [] |} |>, []) in
  match JsMap.get cfg.(c_ref) s.(resolvedRouteCacheByCfg) with
  | Some existing =>
      if bool_decide (existing.(rc_bindingsRef) = cfg.(c_bindingsRef)) &&
         bool_decide (existing.(rc_agentsRef) = cfg.(c_agentsRef)) &&
         bool_decide (existing.(rc_sessionRef) = cfg.(c_sessionRef))
      then (s, existing.(byKey)) else renew
  | None => renew
  end.

Definition rememberRoute (s : Caches) (cfg : OpenClawConfig) (key : RouteKey) (route : ResolvedAgentRoute) : Caches :=
  match JsMap.get cfg.(c_ref) s.(resolvedRouteCacheByCfg) with
  | None => s
  | Some cache =>
      let routes := JsMap.set key route cache.(byKey) in
      let routes := if MAX_RESOLVED_ROUTE_CACHE_KEYS <? JsMap.size routes then [(key, route)] else routes in
      s <| resolvedRouteCacheByCfg ::= JsMap.set cfg.(c_ref) (cache <| byKey := routes |>) |>
  end.

Definition choose (s : Caches) (cfg : OpenClawConfig) (q : RouteQuery) (cached : bool) (agentId : string)
    (by_ : MatchedBy) (dm : option DmScope) (group : option GroupScope) :
    Caches * (RouteError + ResolvedAgentRoute) :=
  let '(s, picked) := pickFirstExistingAgentId s cfg agentId in
  match picked with
  | inl e => (s, inl e)
  | inr resolvedAgentId =>
      let route := routeFor cfg q resolvedAgentId by_ dm group in
      (if cached then rememberRoute s cfg (buildResolvedRouteCacheKey q) route else s, inr route)
  end.

Record Tier := {
  tierBy : MatchedBy;
  enabled : bool;
  scopePeer : option RoutePeer;
  candidates : list EvaluatedBinding
}.

Definition nonempty (s : string) : bool := negb (bool_decide (s = EmptyString)).

(** A parent that has an id. *)
Definition parentScope (q : RouteQuery) : option RoutePeer :=
  match q.(q_parentPeer) with Some p => if nonempty p.(rp_id) then Some p else None | None => None end.

Definition tiers (q : RouteQuery) (index : EvaluatedBindingsIndex) : list Tier :=
  let peer := q.(q_peer) in
  let hasPeer := bool_decide (is_Some peer) in
  let bucketOf key (m : list (string * list EvaluatedBinding)) :=
    if nonempty key then default [] (JsMap.get key m) else [] in
  [ {| tierBy := ByPeer; enabled := hasPeer; scopePeer := peer; candidates := collectPeerIndexedBindings index peer |};
    {| tierBy := ByPeerParent; enabled := bool_decide (is_Some (parentScope q)); scopePeer := parentScope q;
       candidates := collectPeerIndexedBindings index q.(q_parentPeer) |};
    {| tierBy := ByPeerWildcard; enabled := hasPeer; scopePeer := peer; candidates := index.(byPeerWildcard) |};
    {| tierBy := ByGuildRoles; enabled := nonempty q.(q_guildId) && (0 <? length q.(q_memberRoleIds));
       scopePeer := peer; candidates := bucketOf q.(q_guildId) index.(byGuildWithRoles) |};
    {| tierBy := ByGuild; enabled := nonempty q.(q_guildId); scopePeer := peer;
       candidates := bucketOf q.(q_guildId) index.(byGuild) |};
    {| tierBy := ByTeam; enabled := nonempty q.(q_teamId); scopePeer := peer;
       candidates := bucketOf q.(q_teamId) index.(byTeam) |};
    {| tierBy := ByAccount; enabled := true; scopePeer := peer; candidates := index.(ix_byAccount) |};
    {| tierBy := ByChannel; enabled := true; scopePeer := peer; candidates := index.(ix_byChannel) |} ].

Definition scopeOf (q : RouteQuery) (peer : option RoutePeer) : BindingScope :=
  {| sc_peer := peer; sc_guildId := q.(q_guildId); sc_teamId := q.(q_teamId);
     memberRoleIds := JsSet.of_list q.(q_memberRoleIds) |}.

Fixpoint firstMatch (q : RouteQuery) (l : list Tier) : option (MatchedBy * AgentBinding) :=
  match l with
  | [] => None
  | tier :: l' =>
      if tier.(enabled) then
        match List.find (λ e, matchesBindingScope e.(match_) (scopeOf q tier.(scopePeer))) tier.(candidates) with
        | Some matched => Some (tier.(tierBy), matched.(binding))
        | None => firstMatch q l'
        end
      else firstMatch q l'
  end.

(** The owner where no binding matches. *)
Definition unboundAgentId (cfg : OpenClawConfig) (q : RouteQuery) : RouteError + string :=
  match q.(q_defaultAgentId), tryResolveLegacyCompatibilityAgentId cfg with
  | EmptyString, Some id => inr id
  | EmptyString, None => resolveDefaultAgentId cfg
  | id, _ => inr id
  end.

(** The resolution of what the cache of routes does not hold. *)
Definition resolveUncached (s : Caches) (cfg : OpenClawConfig) (q : RouteQuery) (cached : bool) :
    Caches * (RouteError + ResolvedAgentRoute) :=
  let '(s, _) := getEvaluatedBindingsForChannelAccount s cfg q.(q_channel) q.(q_accountId) in
  let '(s, index) := getEvaluatedBindingIndexForChannelAccount s cfg q.(q_channel) q.(q_accountId) in
  match firstMatch q (tiers q index) with
  | Some (by_, b) => choose s cfg q cached b.(b_agentId) by_ b.(b_dmScope) b.(b_groupScope)
  | None => match unboundAgentId cfg q with
            | inl e => (s, inl e)
            | inr id => choose s cfg q cached id ByDefault None None
            end
  end.

(** [shouldLogDebug] is the verbosity of the process, which turns the cache of
    routes off. *)
Definition resolveAgentRoute (shouldLogDebug : bool) (s : Caches) (input : RouteInput) :
    Caches * (RouteError + ResolvedAgentRoute) :=
  let cfg := input.(in_cfg) in
  let q := normalizeRouteInput input in
  let cached := negb shouldLogDebug && bool_decide (cfg.(c_session) ≫= s_identityLinks = None) in
  let '(s, routes) := if cached then resolveRouteCacheForConfig s cfg else (s, []) in
  match JsMap.get (buildResolvedRouteCacheKey q) routes with
  | Some cachedRoute => (s, inr cachedRoute)
  | None => resolveUncached s cfg q cached
  end.

Definition listExactDirectMessageBindingPeerIds (s : Caches) (cfg : OpenClawConfig) (channel : string)
    (accountId : option string) : Caches * list string :=
  let '(s, index) := getEvaluatedBindingIndexForChannelAccount s cfg
                       (normalizeLowercaseStringOrEmpty (Some channel)) (normalizeAccountId accountId) in
  (s, omap (λ key, if starts_with "direct:" key then Some (str_drop 7 key) else None)
        (JsMap.keys index.(byPeer))).

Definition resolveUnknownDirectMessageRoute (shouldLogDebug : bool) (s : Caches) (input : RouteInput) :
    Caches * (RouteError + ResolvedAgentRoute) :=
  resolveAgentRoute shouldLogDebug s
    {| in_cfg := input.(in_cfg); in_channel := input.(in_channel); in_defaultAgentId := input.(in_defaultAgentId);
       in_accountId := input.(in_accountId); in_peer := Some {| rp_kind := Direct; rp_id := EmptyString |};
       in_dmScope := input.(in_dmScope); in_groupScope := input.(in_groupScope); in_parentPeer := input.(in_parentPeer);
       in_guildId := input.(in_guildId); in_teamId := input.(in_teamId);
       in_memberRoleIds := input.(in_memberRoleIds) |}.

(** ** The reference

    For each kind of binding, in the order of precedence, the first binding of
    the configuration that applies to the account, is of the kind and admits
    the message. *)

Definition channelOf (b : AgentBinding) : string := normalizeLowercaseStringOrEmpty b.(b_match).(bm_channel).
Definition patternOf (b : AgentBinding) : string := accountPattern (normalizeBindingMatch b.(b_match)).

Definition scoped (accountId : string) (b : AgentBinding) : bool :=
  negb (bool_decide (patternOf b = "*")) && bool_decide (normalizeAccountId (Some (patternOf b)) = accountId).
Definition unscoped (b : AgentBinding) : bool := bool_decide (patternOf b = "*").

Definition appliesTo (channel accountId : string) (b : AgentBinding) : bool :=
  nonempty channel && bool_decide (channelOf b = channel) && (scoped accountId b || unscoped b).

Definition ofKind (kind : MatchedBy) (m : NormalizedBindingMatch) : bool :=
  match m.(m_peer), kind with
  | PeerValid _ _, (ByPeer | ByPeerParent) | PeerWildcard _, ByPeerWildcard => true
  | PeerValid _ _, _ | PeerWildcard _, _ => false
  | _, ByGuildRoles => bool_decide (is_Some m.(m_guildId)) && bool_decide (is_Some m.(m_roles))
  | _, ByGuild => bool_decide (is_Some m.(m_guildId)) && bool_decide (m.(m_roles) = None)
  | _, ByTeam => bool_decide (m.(m_guildId) = None) && bool_decide (is_Some m.(m_teamId))
  | _, ByAccount => bool_decide (m.(m_guildId) = None) && bool_decide (m.(m_teamId) = None) &&
                    negb (bool_decide (m.(accountPattern) = "*"))
  | _, ByChannel => bool_decide (m.(m_guildId) = None) && bool_decide (m.(m_teamId) = None) &&
                    bool_decide (m.(accountPattern) = "*")
  | _, _ => false
  end.

Definition precedence : list MatchedBy :=
  [ByPeer; ByPeerParent; ByPeerWildcard; ByGuildRoles; ByGuild; ByTeam; ByAccount; ByChannel].

Definition peerFor (q : RouteQuery) (kind : MatchedBy) : option RoutePeer :=
  match kind with ByPeerParent => parentScope q | _ => q.(q_peer) end.

Definition admits (q : RouteQuery) (kind : MatchedBy) (m : NormalizedBindingMatch) : bool :=
  ofKind kind m && matchesBindingScope m (scopeOf q (peerFor q kind)).

Fixpoint scanKinds (q : RouteQuery) (bindings : list AgentBinding) (kinds : list MatchedBy) :
    option (MatchedBy * AgentBinding) :=
  match kinds with
  | [] => None
  | kind :: kinds' =>
      match List.find (λ b, appliesTo q.(q_channel) q.(q_accountId) b && admits q kind (normalizeBindingMatch b.(b_match)))
              bindings with
      | Some b => Some (kind, b)
      | None => scanKinds q bindings kinds'
      end
  end.

Definition chooseOwner (cfg : OpenClawConfig) (q : RouteQuery) (agentId : string) (by_ : MatchedBy)
    (dm : option DmScope) (group : option GroupScope) : RouteError + ResolvedAgentRoute :=
  match pickAgent cfg (buildAgentLookup cfg) agentId with
  | inl e => inl e
  | inr id => inr (routeFor cfg q id by_ dm group)
  end.

Definition referenceRoute (input : RouteInput) : RouteError + ResolvedAgentRoute :=
  let cfg := input.(in_cfg) in
  let q := normalizeRouteInput input in
  match scanKinds q (listBindings cfg) precedence with
  | Some (by_, b) => chooseOwner cfg q b.(b_agentId) by_ b.(b_dmScope) b.(b_groupScope)
  | None => match unboundAgentId cfg q with
            | inl e => inl e
            | inr id => chooseOwner cfg q id ByDefault None None
            end
  end.

(** ** The evaluated bindings *)

(** The bindings with a channel, numbered. *)
Fixpoint evalAll (order : nat) (bindings : list AgentBinding) : list EvaluatedBinding :=
  match bindings with
  | [] => []
  | b :: rest =>
      match channelOf b with
      | EmptyString => evalAll order rest
      | _ => {| binding := b; match_ := normalizeBindingMatch b.(b_match); order := order |} :: evalAll (S order) rest
      end
  end.

Lemma evalAll_match o bs e : e ∈ evalAll o bs → e.(match_) = normalizeBindingMatch e.(binding).(b_match) ∧ o ≤ e.(order).
Proof.
  revert o; induction bs as [|b bs IH]; intros o; cbn; [by intros ?%elem_of_nil|].
  destruct (channelOf b); [apply IH|]. intros [->|H]%elem_of_cons; [split; [done|cbn; lia]|].
  apply IH in H as [? ?]. split; [done|lia].
Qed.

Lemma get_pushAt {K A} `{EqDecision K} (k k' : K) (a : A) m :
  default [] (JsMap.get k (pushAt k' a m)) = default [] (JsMap.get k m) ++ (if decide (k = k') then [a] else []).
Proof.
  unfold pushAt. rewrite JsMap.get_set. repeat case_decide; subst; try congruence; [done|by rewrite app_nil_r].
Qed.

Definition accountList (byChannel : list (string * ChannelBindings)) (channel accountId : string) : list EvaluatedBinding :=
  default [] (b ← JsMap.get channel byChannel; JsMap.get accountId b.(byAccount)).
Definition anyList (byChannel : list (string * ChannelBindings)) (channel : string) : list EvaluatedBinding :=
  default [] (byAnyAccount <$> JsMap.get channel byChannel).

Lemma addBindings_lists bs : ∀ o m channel accountId, channel ≠ EmptyString →
  accountList (addBindings o bs m) channel accountId =
    accountList m channel accountId ++
      List.filter (λ e, bool_decide (channelOf e.(binding) = channel) && scoped accountId e.(binding)) (evalAll o bs) ∧
  anyList (addBindings o bs m) channel =
    anyList m channel ++
      List.filter (λ e, bool_decide (channelOf e.(binding) = channel) && unscoped e.(binding)) (evalAll o bs).
Proof.
  induction bs as [|b bs IH]; intros o m channel accountId Hc; cbn [addBindings evalAll]; [by rewrite !app_nil_r|].
  change (normalizeLowercaseStringOrEmpty (bm_channel (b_match b))) with (channelOf b).
  destruct (channelOf b) as [|x y] eqn:Eb; [by apply IH|].
  match goal with |- context [JsMap.set ?c (addToBucket ?e ?k) m] =>
    destruct (IH (S o) (JsMap.set c (addToBucket e k) m) channel accountId Hc) as [-> ->] end.
  cbn [List.filter binding]. unfold accountList, anyList. rewrite !JsMap.get_set, Eb.
  destruct (decide (channel = String x y)) as [->|Hne].
  2:{ rewrite (bool_decide_eq_false_2 (_ = channel)) by congruence. done. }
  rewrite (bool_decide_eq_true_2 (_ = _)) by done. cbn [andb mbind option_bind fmap option_fmap option_map].
  destruct (JsMap.get (String x y) m) as [bucket|]; cbn [default from_option id mbind option_bind fmap option_fmap option_map];
    unfold addToBucket, scoped, unscoped; fold (patternOf b); cbn [match_]; fold (patternOf b);
    (case_bool_decide as Ep; cbn [byAccount byAnyAccount negb andb];
     [by rewrite <-?app_assoc|]);
    rewrite ?get_pushAt; cbn [default from_option id byAccount byAnyAccount];
    (case_decide as Ea;
     [rewrite (bool_decide_eq_true_2 (_ = accountId)) by done
     |rewrite (bool_decide_eq_false_2 (_ = accountId)) by congruence]);
    by rewrite <-?app_assoc, ?app_nil_r.
Qed.

Lemma merge_nil_r l : mergeEvaluatedBindingsInSourceOrder l [] = l.
Proof. by destruct l. Qed.

Lemma merge_nil_l l : mergeEvaluatedBindingsInSourceOrder [] l = l.
Proof. by destruct l. Qed.

(** Merging two disjoint selections of a list in the order of the source is
    selecting once. *)
Lemma merge_filter (P Q : EvaluatedBinding → bool) o bs :
  (∀ e, P e && Q e = false) →
  mergeEvaluatedBindingsInSourceOrder (List.filter P (evalAll o bs)) (List.filter Q (evalAll o bs)) =
    List.filter (λ e, P e || Q e) (evalAll o bs).
Proof.
  intros Hd. revert o; induction bs as [|b bs IH]; intros o; cbn [evalAll]; [done|].
  destruct (channelOf b); [apply IH|]. set (e := {| binding := b; match_ := _; order := o |}).
  assert (Hlt : ∀ F x, x ∈ List.filter F (evalAll (S o) bs) → o < x.(order)).
  { intros F x Hx. rewrite list_elem_of_In, filter_In, <-list_elem_of_In in Hx. destruct Hx as [Hx _].
    by apply evalAll_match in Hx as [_ ?]. }
  cbn [List.filter]. pose proof (Hd e) as He. rewrite <-IH.
  assert (order e = o) as Ho by done. clearbody e. destruct (P e), (Q e); cbn [orb]; try discriminate; [| |done].
  - destruct (List.filter Q _) as [|g G] eqn:EG; [by rewrite !merge_nil_r|].
    assert (o < g.(order)) by (apply (Hlt Q); rewrite EG; apply elem_of_cons; by left). cbn.
    by rewrite (proj2 (Nat.leb_le _ _)) by lia.
  - destruct (List.filter P _) as [|g G] eqn:EG; [by rewrite !merge_nil_l|].
    assert (o < g.(order)) by (apply (Hlt P); rewrite EG; apply elem_of_cons; by left). cbn.
    by rewrite (proj2 (Nat.leb_gt _ _)) by lia.
Qed.

Lemma filter_filter_and {A} (P Q : A → bool) l :
  List.filter P (List.filter Q l) = List.filter (λ x, Q x && P x) l.
Proof.
  induction l as [|x l IH]; [done|]. cbn. destruct (Q x); cbn; [|done]. destruct (P x); by rewrite ?IH.
Qed.

Lemma filter_same {A} (P Q : A → bool) l : (∀ x, x ∈ l → P x = Q x) → List.filter P l = List.filter Q l.
Proof. intros H. apply filter_ext_in. intros x Hx. apply H. by apply list_elem_of_In. Qed.

(** What the caches of an account hold. *)
Definition evaluatedFor (cfg : OpenClawConfig) (channel accountId : string) : list EvaluatedBinding :=
  bindingsFor (buildEvaluatedBindingsByChannel cfg) channel accountId.

Lemma nonempty_true s : nonempty s = true ↔ s ≠ EmptyString.
Proof. unfold nonempty. by rewrite negb_true_iff, bool_decide_eq_false. Qed.

Lemma evaluatedFor_filter cfg channel accountId :
  evaluatedFor cfg channel accountId =
    List.filter (λ e, appliesTo channel accountId e.(binding)) (evalAll 0 (listBindings cfg)).
Proof.
  unfold evaluatedFor, bindingsFor, buildEvaluatedBindingsByChannel. fold (accountList (addBindings 0 (listBindings cfg) []) channel accountId).
  fold (anyList (addBindings 0 (listBindings cfg) []) channel).
  destruct (decide (channel = EmptyString)) as [->|Hc].
  - assert (He : ∀ bs o m, JsMap.get EmptyString m = None → JsMap.get EmptyString (addBindings o bs m) = None).
    { induction bs as [|b bs IH]; intros o m Hm; cbn [addBindings]; [done|].
      destruct (normalizeLowercaseStringOrEmpty _); [by apply IH|]. apply IH. rewrite JsMap.get_set. by case_decide. }
    unfold accountList, anyList. rewrite He by done. cbn [mbind option_bind fmap option_fmap option_map default from_option id].
    rewrite merge_nil_r. symmetry. induction (evalAll _ _) as [|e l IH]; [done|]. done.
  - destruct (addBindings_lists (listBindings cfg) 0 [] channel accountId Hc) as [-> ->].
    change (accountList [] channel accountId) with (@nil EvaluatedBinding).
    change (anyList [] channel) with (@nil EvaluatedBinding). rewrite !app_nil_l, merge_filter.
    + apply filter_same. intros e _. unfold appliesTo. rewrite (proj2 (nonempty_true channel)) by done. cbn [andb].
      by rewrite andb_orb_distrib_r.
    + intros e. unfold scoped, unscoped. destruct (bool_decide (patternOf _ = _)); cbn; by rewrite ?andb_false_r.
Qed.

Lemma find_filter {A} (P Q : A → bool) l : List.find P (List.filter Q l) = List.find (λ x, Q x && P x) l.
Proof. induction l as [|x l IH]; [done|]. cbn. destruct (Q x); cbn; [|done]. by destruct (P x). Qed.

Lemma find_same {A} (P Q : A → bool) l : (∀ x, x ∈ l → P x = Q x) → List.find P l = List.find Q l.
Proof.
  induction l as [|x l IH]; intros H; [done|]. cbn. rewrite (H x) by (apply elem_of_cons; by left).
  destruct (Q x); [done|]. apply IH. intros y Hy. apply H, elem_of_cons. by right.
Qed.

(** Searching the evaluated bindings is searching the bindings. *)
Lemma find_evalAll (P : AgentBinding → bool) o bs : (∀ b, P b = true → nonempty (channelOf b) = true) →
  binding <$> List.find (λ e, P e.(binding)) (evalAll o bs) = List.find P bs.
Proof.
  intros HP. revert o; induction bs as [|b bs IH]; intros o; cbn [evalAll List.find]; [done|].
  destruct (channelOf b) eqn:Eb.
  - destruct (P b) eqn:Ep; [|by apply IH]. apply HP in Ep. by rewrite Eb in Ep.
  - cbn [List.find binding]. destruct (P b); [done|apply IH].
Qed.

(** ** The index *)

Definition plainPeer (e : EvaluatedBinding) : bool :=
  match e.(match_).(m_peer) with PeerValid _ _ | PeerWildcard _ => false | _ => true end.
Definition wildPeer (e : EvaluatedBinding) : bool :=
  match e.(match_).(m_peer) with PeerWildcard _ => true | _ => false end.
Definition keyedPeer (key : string) (e : EvaluatedBinding) : bool :=
  match e.(match_).(m_peer) with PeerValid kind id => bool_decide (key ∈ peerLookupKeys kind id) | _ => false end.
Definition guildRoles (g : string) (e : EvaluatedBinding) : bool :=
  plainPeer e && bool_decide (e.(match_).(m_guildId) = Some g) && bool_decide (is_Some e.(match_).(m_roles)).
Definition guildOnly (g : string) (e : EvaluatedBinding) : bool :=
  plainPeer e && bool_decide (e.(match_).(m_guildId) = Some g) && bool_decide (e.(match_).(m_roles) = None).
Definition teamOnly (t : string) (e : EvaluatedBinding) : bool :=
  plainPeer e && bool_decide (e.(match_).(m_guildId) = None) && bool_decide (e.(match_).(m_teamId) = Some t).

Lemma append_inj_l p a b : p +:+ a = p +:+ b → a = b.
Proof. induction p as [|c p IH]; [done|]. cbn. intros [= ?]. by apply IH. Qed.

Lemma peer_keys_agree kind id kind' id' key : key ∈ peerLookupKeys kind id →
  bool_decide (key ∈ peerLookupKeys kind' id') = peerKindMatches kind' kind && bool_decide (id = id').
Proof.
  intros Hk. apply eq_bool_prop_intro. rewrite bool_decide_spec, andb_True, bool_decide_spec.
  destruct kind, kind'; cbn [peerLookupKeys peerKindMatches] in *;
    rewrite ?elem_of_cons, ?elem_of_nil in *; unfold Is_true; try (case_bool_decide; [|congruence]);
    (split; [intros Hx; destruct_or!; subst; try discriminate; try done;
               (split; [done|first [by eapply append_inj_l | symmetry; by eapply append_inj_l]])
            |intros [? <-]; destruct_or!; subst; try done; tauto]).
Qed.

Lemma get_push_keys (key : string) kind id (e : EvaluatedBinding) m :
  default [] (JsMap.get key (foldl (λ m k, pushAt k e m) m (peerLookupKeys kind id))) =
    default [] (JsMap.get key m) ++ (if bool_decide (key ∈ peerLookupKeys kind id) then [e] else []).
Proof.
  assert (Hne : "group:" +:+ id ≠ "channel:" +:+ id) by done.
  destruct kind; cbn [peerLookupKeys foldl]; rewrite !get_pushAt, <-?app_assoc; f_equal;
    repeat case_decide; case_bool_decide as Hb; rewrite ?elem_of_cons, ?elem_of_nil in Hb; try done; exfalso;
    subst; try (by apply Hne); try tauto; try congruence.
Qed.

Lemma index_lists l : ∀ x,
  let y := foldl indexBinding x l in
  (∀ key, default [] (JsMap.get key y.(byPeer)) = default [] (JsMap.get key x.(byPeer)) ++ List.filter (keyedPeer key) l) ∧
  y.(byPeerWildcard) = x.(byPeerWildcard) ++ List.filter wildPeer l ∧
  (∀ g, default [] (JsMap.get g y.(byGuildWithRoles)) =
          default [] (JsMap.get g x.(byGuildWithRoles)) ++ List.filter (guildRoles g) l) ∧
  (∀ g, default [] (JsMap.get g y.(byGuild)) = default [] (JsMap.get g x.(byGuild)) ++ List.filter (guildOnly g) l) ∧
  (∀ t, default [] (JsMap.get t y.(byTeam)) = default [] (JsMap.get t x.(byTeam)) ++ List.filter (teamOnly t) l) ∧
  y.(ix_byAccount) = x.(ix_byAccount) ++ List.filter (λ e, ofKind ByAccount e.(match_)) l ∧
  y.(ix_byChannel) = x.(ix_byChannel) ++ List.filter (λ e, ofKind ByChannel e.(match_)) l.
Proof.
  induction l as [|e l IH]; intros x; cbn [foldl List.filter]; [split_and!; intros; by rewrite app_nil_r|].
  destruct (IH (indexBinding x e)) as (H1 & H2 & H3 & H4 & H5 & H6 & H7).
  split_and!; [intros k; rewrite H1|rewrite H2|intros k; rewrite H3|intros k; rewrite H4|intros k; rewrite H5|rewrite H6|rewrite H7];
    clear; unfold indexBinding, keyedPeer, wildPeer, guildRoles, guildOnly, teamOnly, plainPeer, ofKind;
    destruct (m_peer (match_ e)), (m_guildId (match_ e)), (m_roles (match_ e)), (m_teamId (match_ e));
    try case_bool_decide as Ep;
    cbn [byPeer byPeerWildcard byGuildWithRoles byGuild byTeam ix_byAccount ix_byChannel update_field andb negb];
    rewrite ?get_push_keys, ?get_pushAt, <-?app_assoc;
    repeat case_bool_decide; repeat case_decide; simplify_eq; cbn [andb negb app]; try done; try (by destruct_and?; naive_solver).
Qed.

Lemma index_of_bindings l :
  let y := buildEvaluatedBindingsIndex l in
  (∀ key, default [] (JsMap.get key y.(byPeer)) = List.filter (keyedPeer key) l) ∧
  y.(byPeerWildcard) = List.filter wildPeer l ∧
  (∀ g, default [] (JsMap.get g y.(byGuildWithRoles)) = List.filter (guildRoles g) l) ∧
  (∀ g, default [] (JsMap.get g y.(byGuild)) = List.filter (guildOnly g) l) ∧
  (∀ t, default [] (JsMap.get t y.(byTeam)) = List.filter (teamOnly t) l) ∧
  y.(ix_byAccount) = List.filter (λ e, ofKind ByAccount e.(match_)) l ∧
  y.(ix_byChannel) = List.filter (λ e, ofKind ByChannel e.(match_)) l.
Proof. exact (index_lists l emptyIndex). Qed.

(** Evaluated bindings that are told apart by their order. *)
Definition numbered (l : list EvaluatedBinding) : Prop := NoDup (order <$> l).

Lemma evalAll_numbered o bs : numbered (evalAll o bs).
Proof.
  unfold numbered. revert o; induction bs as [|b bs IH]; intros o; cbn [evalAll]; [constructor|].
  destruct (channelOf b); [apply IH|]. cbn. constructor; [|apply IH].
  intros (e & He & Hin)%list_elem_of_fmap. apply evalAll_match in Hin as [_ ?]. lia.
Qed.

Lemma filter_numbered P l : numbered l → numbered (List.filter P l).
Proof.
  unfold numbered. induction l as [|e l IH]; [done|]. cbn. intros [Hn Hl]%NoDup_cons. destruct (P e); [|by apply IH].
  cbn. apply NoDup_cons. split; [|by apply IH]. intros (x & Ex & Hx)%list_elem_of_fmap. apply Hn.
  rewrite list_elem_of_In, filter_In in Hx. destruct Hx as [Hx _]. apply list_elem_of_fmap. exists x.
  by rewrite list_elem_of_In.
Qed.

Lemma collect_seen l : ∀ seen out, (∀ e, e ∈ l → e.(order) ∈ seen) → foldl collectOne (seen, out) l = (seen, out).
Proof.
  induction l as [|e l IH]; intros seen out H; [done|]. cbn. unfold collectOne at 2. cbn.
  rewrite bool_decide_eq_true_2 by (apply H, elem_of_cons; by left). apply IH. intros x Hx. apply H, elem_of_cons. by right.
Qed.

Lemma collect_fresh l : ∀ seen out, NoDup (seen ++ (order <$> l)) →
  foldl collectOne (seen, out) l = (seen ++ (order <$> l), out ++ l).
Proof.
  induction l as [|e l IH]; intros seen out H; [by rewrite !app_nil_r|]. cbn in *. unfold collectOne at 2. cbn.
  rewrite bool_decide_eq_false_2.
  - rewrite IH; rewrite <-!app_assoc; done.
  - intros Hin. apply NoDup_app in H as (_ & Hd & _). apply (Hd _ Hin), elem_of_cons. by left.
Qed.

Definition peerCandidate (p : RoutePeer) (e : EvaluatedBinding) : bool :=
  match e.(match_).(m_peer) with
  | PeerValid kind id => peerKindMatches kind p.(rp_kind) && bool_decide (p.(rp_id) = id)
  | _ => false
  end.

(** The candidates of a peer are the bindings whose peer it matches. *)
Lemma collect_filter l p : numbered l →
  collectPeerIndexedBindings (buildEvaluatedBindingsIndex l) (Some p) =
    List.filter (peerCandidate p) l.
Proof.
  intros Hn. destruct (index_of_bindings l) as [Hp _]. cbn [collectPeerIndexedBindings].
  assert (Hk : ∀ key, key ∈ peerLookupKeys p.(rp_kind) p.(rp_id) →
    default [] (JsMap.get key (byPeer (buildEvaluatedBindingsIndex l))) =
    List.filter (peerCandidate p) l).
  { intros key Hin. rewrite Hp. apply filter_same. intros e _. unfold keyedPeer, peerCandidate. destruct (m_peer _); try done.
    by apply peer_keys_agree. }
  pose proof (filter_numbered (peerCandidate p) l Hn) as Hf.
  set (F := List.filter _ l) in *. unfold numbered in Hf. clear Hp.
  destruct (rp_kind p); cbn [peerLookupKeys foldl] in *;
    repeat rewrite Hk by (rewrite !elem_of_cons; tauto); rewrite (collect_fresh F) by done; cbn [app]; try done;
    rewrite collect_seen; try done; intros e He; apply list_elem_of_fmap; by exists e.
Qed.

(** ** Tiers *)

Lemma orNull_some v s : orNull v = Some s → s ≠ EmptyString ∧ s = v.
Proof. destruct v; [done|]. by intros [= <-]. Qed.

Lemma admits_ids m b scope : m = normalizeBindingMatch b → routeBindingScopeMatches m scope = true →
  (∀ g, m.(m_guildId) = Some g → g = js_trim scope.(sc_guildId) ∧ g ≠ EmptyString) ∧
  (∀ t, m.(m_teamId) = Some t → t = js_trim scope.(sc_teamId) ∧ t ≠ EmptyString) ∧
  (∀ r, m.(m_roles) = Some r → hasAnyRouteBindingRole r scope.(memberRoleIds) = true).
Proof.
  intros -> H. unfold routeBindingScopeMatches in H.
  assert (Hs : ∀ v c e, orNull v = Some c → scopeIdMatches (orNull v) e EmptyString = true → c = e ∧ c ≠ EmptyString).
  { intros v c e Hv Hm. rewrite Hv in Hm. apply orNull_some in Hv as [? _]. split; [|done].
    destruct c; [done|]. cbn [scopeIdMatches] in Hm. rewrite (bool_decide_eq_false_2 (_ = EmptyString)) in Hm by done.
    rewrite orb_false_r in Hm. by apply bool_decide_eq_true in Hm. }
  destruct (scopeIdMatches (m_guildId _) _ _) eqn:Eg; [|done].
  destruct (scopeIdMatches (m_teamId _) _ _) eqn:Et; [|done]. cbn [negb] in H. split_and!.
  - intros g Hg. by apply (Hs _ _ _ Hg).
  - intros t Ht. by apply (Hs _ _ _ Ht).
  - intros r Hr. rewrite Hr in H. cbn in Hr. unfold normalizeRouteBindingRoles in Hr, H. by destruct (bm_roles b) as [[|]|]; simplify_eq.
Qed.

Definition tierFind (q : RouteQuery) (t : Tier) : option EvaluatedBinding :=
  if t.(enabled) then List.find (λ e, matchesBindingScope e.(match_) (scopeOf q t.(scopePeer))) t.(candidates) else None.

Definition scanKind (q : RouteQuery) (kind : MatchedBy) (bindings : list AgentBinding) : option AgentBinding :=
  List.find (λ b, appliesTo q.(q_channel) q.(q_accountId) b && admits q kind (normalizeBindingMatch b.(b_match))) bindings.

Lemma firstMatch_scan q bindings ts kinds :
  Forall2 (λ t kind, t.(tierBy) = kind ∧ binding <$> tierFind q t = scanKind q kind bindings) ts kinds →
  firstMatch q ts = scanKinds q bindings kinds.
Proof.
  induction 1 as [|t kind ts kinds [<- Hf] _ IH]; [done|]. cbn [firstMatch scanKinds]. fold (scanKind q (tierBy t) bindings).
  rewrite <-Hf. unfold tierFind. destruct (enabled t); [|done]. by destruct (List.find _ _).
Qed.

(** A tier searches what the reference searches, when its condition and its
    candidates leave out only what is not admitted. *)
Lemma tier_scan cfg q t F :
  let evaluated := evaluatedFor cfg q.(q_channel) q.(q_accountId) in
  t.(candidates) = List.filter F evaluated → t.(scopePeer) = peerFor q t.(tierBy) →
  (∀ e, e.(match_) = normalizeBindingMatch e.(binding).(b_match) →
     matchesBindingScope e.(match_) (scopeOf q t.(scopePeer)) = true →
     ofKind t.(tierBy) e.(match_) = t.(enabled) && F e) →
  binding <$> tierFind q t = scanKind q t.(tierBy) (listBindings cfg).
Proof.
  intros ev Hc Hs Hk. unfold tierFind, scanKind. rewrite Hc. subst ev. rewrite evaluatedFor_filter, !find_filter.
  rewrite <-(find_evalAll _ 0).
  2:{ intros b [Ha _]%andb_prop. unfold appliesTo in Ha. apply andb_prop in Ha as [[Hn Hb]%andb_prop _].
      apply bool_decide_eq_true in Hb. by rewrite Hb. }
  destruct (enabled t) eqn:Een; [|symmetry; rewrite (find_same _ (λ _, false)); [by induction (evalAll _ _)|]].
  - f_equal. apply find_same. intros e He. apply evalAll_match in He as [He _]. unfold admits. rewrite <-He, <-Hs.
    specialize (Hk e He). destruct (matchesBindingScope _ _); [|by rewrite !andb_false_r]. rewrite (Hk eq_refl). cbn.
    by rewrite !andb_true_r.
  - intros e He. apply evalAll_match in He as [He _]. unfold admits. rewrite <-He, <-Hs. specialize (Hk e He).
    destruct (matchesBindingScope _ _); [|by rewrite !andb_false_r]. rewrite (Hk eq_refl). by rewrite andb_false_r.
Qed.

Lemma evaluatedFor_numbered cfg channel accountId : numbered (evaluatedFor cfg channel accountId).
Proof. rewrite evaluatedFor_filter. apply filter_numbered, evalAll_numbered. Qed.

Lemma peer_tier l peer : numbered l →
  collectPeerIndexedBindings (buildEvaluatedBindingsIndex l) peer =
    List.filter (λ e, match peer with Some p => peerCandidate p e | None => false end) l.
Proof.
  intros Hn. destruct peer as [p|]; [by apply collect_filter|].
  cbn [collectPeerIndexedBindings]. clear Hn. by induction l.
Qed.

Lemma matches_parts m scope : matchesBindingScope m scope = true →
  routeBindingScopeMatches m scope = true ∧
  match m.(m_peer) with
  | PeerValid kind id => ∃ p, scope.(sc_peer) = Some p ∧ peerKindMatches kind p.(rp_kind) && bool_decide (p.(rp_id) = id) = true
  | PeerWildcard _ => is_Some scope.(sc_peer)
  | _ => True
  end.
Proof.
  unfold matchesBindingScope. destruct (m_peer m); [done|done| |]; (destruct (sc_peer scope) as [p|]; [|done]).
  - intros [_ ?]%andb_prop. by split.
  - intros [H ?]%andb_prop. split; [done|]. by exists p.
Qed.

(** A query whose ids of spaces have no blanks around them. *)
Definition trimmedIds (q : RouteQuery) : Prop :=
  js_trim q.(q_guildId) = q.(q_guildId) ∧ js_trim q.(q_teamId) = q.(q_teamId).

Lemma roles_need_members roles members : hasAnyRouteBindingRole roles (JsSet.of_list members) = true → members ≠ [].
Proof. intros H ->. unfold hasAnyRouteBindingRole in H. cbn in H. by induction roles. Qed.

(** What the tiers of spaces leave out: a guild or a team that a binding wants
    is the one of the message. *)
Lemma space_tier q peer e : trimmedIds q → e.(match_) = normalizeBindingMatch e.(binding).(b_match) →
  matchesBindingScope e.(match_) (scopeOf q peer) = true →
  ofKind ByGuildRoles e.(match_) = nonempty q.(q_guildId) && (0 <? length q.(q_memberRoleIds)) && guildRoles q.(q_guildId) e ∧
  ofKind ByGuild e.(match_) = nonempty q.(q_guildId) && guildOnly q.(q_guildId) e ∧
  ofKind ByTeam e.(match_) = nonempty q.(q_teamId) && teamOnly q.(q_teamId) e.
Proof.
  intros [Hg Ht] He [Hs _]%matches_parts. destruct (admits_ids _ _ _ He Hs) as (Ag & At & Ar).
  cbn [scopeOf sc_guildId sc_teamId memberRoleIds] in *. rewrite Hg in Ag. rewrite Ht in At.
  assert (Hr : ∀ r, m_roles (match_ e) = Some r → (0 <? length (q_memberRoleIds q)) = true).
  { intros r Hr. apply Ar, roles_need_members in Hr. by destruct (q_memberRoleIds q). }
  set (members := 0 <? _) in *. clearbody members. clear Hs Ar. unfold guildRoles, guildOnly, teamOnly, plainPeer, ofKind.
  destruct (m_peer (match_ e)); cbn [andb]; rewrite ?andb_false_r; (split_and!; try done);
    destruct (m_guildId (match_ e)) as [g|]; cbn; rewrite ?andb_false_r; try done;
    try (destruct (Ag g eq_refl) as [-> Hne]; rewrite (proj2 (nonempty_true _) Hne), (bool_decide_eq_true_2 (Some _ = _)) by done);
    cbn [andb]; try done;
    first [destruct (m_roles (match_ e)) as [r|]; [by rewrite (Hr r eq_refl)|by rewrite andb_false_r]
          |destruct (m_teamId (match_ e)) as [t|]; [|by rewrite andb_false_r];
           destruct (At t eq_refl) as [-> Hne]; by rewrite (proj2 (nonempty_true _) Hne), (bool_decide_eq_true_2 (Some _ = _))].
Qed.

Lemma filter_when {A} (c : bool) (P : A → bool) l :
  (if c then List.filter P l else []) = List.filter (λ x, c && P x) l.
Proof. destruct c; [done|]. by induction l. Qed.

Lemma parent_kind m : ofKind ByPeerParent m = ofKind ByPeer m.
Proof. unfold ofKind. by destruct (m_peer m). Qed.

Lemma parentScope_peer q p : parentScope q = Some p → q.(q_parentPeer) = Some p.
Proof. unfold parentScope. destruct (q_parentPeer q); [|done]. by destruct (nonempty _). Qed.

Lemma peer_tiers q peer e : matchesBindingScope e.(match_) (scopeOf q peer) = true →
  ofKind ByPeer e.(match_) = bool_decide (is_Some peer) && match peer with Some p => peerCandidate p e | None => false end ∧
  ofKind ByPeerWildcard e.(match_) = bool_decide (is_Some peer) && wildPeer e.
Proof.
  intros [_ Hp]%matches_parts. cbn [scopeOf sc_peer] in Hp. unfold ofKind, peerCandidate, wildPeer.
  destruct (m_peer (match_ e)) as [| |kind|kind id].
  - destruct peer; split; done.
  - destruct peer; split; done.
  - destruct Hp as [p ->]. by split.
  - destruct Hp as (p & -> & Hk). by rewrite Hk.
Qed.

Lemma firstMatch_reference cfg q : trimmedIds q →
  firstMatch q (tiers q (buildEvaluatedBindingsIndex (evaluatedFor cfg q.(q_channel) q.(q_accountId)))) =
    scanKinds q (listBindings cfg) precedence.
Proof.
  intros Hq. apply firstMatch_scan. set (ev := evaluatedFor _ _ _).
  destruct (index_of_bindings ev) as (_ & Hw & Hgr & Hg & Ht & Ha & Hc).
  assert (Hn : numbered ev) by apply evaluatedFor_numbered.
  unfold tiers, precedence. rewrite Hgr, Hg, Ht, !peer_tier, Hw, Ha, Hc, !filter_when by done.
  repeat apply Forall2_cons_2; [..|constructor]; (split; [done|]);
    (eapply (tier_scan cfg q); [reflexivity|done|]); cbn [tierBy enabled scopePeer]; intros e He Hm;
    try (destruct (space_tier q _ e Hq He Hm) as (? & ? & ?)); try (destruct (peer_tiers q _ e Hm) as [? ?]);
    rewrite ?andb_assoc, ?andb_diag; try done.
  - match goal with H : ofKind ByPeer _ = _ |- _ => rewrite parent_kind, H end.
    destruct (parentScope q) as [p|] eqn:Ep; [by rewrite (parentScope_peer _ _ Ep)|done].
  - match goal with H : ofKind ByGuildRoles _ = _ |- _ => rewrite H end. by destruct (nonempty (q_guildId q)), (0 <? _).
Qed.

Lemma normalized_trimmed input : trimmedIds (normalizeRouteInput input).
Proof. split; cbn; unfold normalizeRouteBindingId, trimmedOrEmpty; apply js_trim_idemp. Qed.

(** ** Queries with the same key *)

Definition routeOfQuery (cfg : OpenClawConfig) (q : RouteQuery) : RouteError + ResolvedAgentRoute :=
  match scanKinds q (listBindings cfg) precedence with
  | Some (by_, b) => chooseOwner cfg q b.(b_agentId) by_ b.(b_dmScope) b.(b_groupScope)
  | None => match unboundAgentId cfg q with
            | inl e => inl e
            | inr id => chooseOwner cfg q id ByDefault None None
            end
  end.

(** The peer of a message has an id. *)
Definition knownPeer (q : RouteQuery) : Prop :=
  match q.(q_peer) with Some p => p.(rp_id) ≠ EmptyString | None => True end.

Record sameQuery (q q' : RouteQuery) : Prop := {
  sq_channel : q.(q_channel) = q'.(q_channel);
  sq_default : q.(q_defaultAgentId) = q'.(q_defaultAgentId);
  sq_account : q.(q_accountId) = q'.(q_accountId);
  sq_peer : q.(q_peer) = q'.(q_peer);
  sq_parent : parentScope q = parentScope q';
  sq_guild : q.(q_guildId) = q'.(q_guildId);
  sq_team : q.(q_teamId) = q'.(q_teamId);
  sq_roles : q.(q_memberRoleIds) ≡ₚ q'.(q_memberRoleIds);
  sq_dm : q.(q_dmScope) = q'.(q_dmScope);
  sq_group : q.(q_groupScope) = q'.(q_groupScope)
}.

Lemma formatPeer_inj p p' : formatRouteCachePeer p = formatRouteCachePeer p' →
  match p with Some x => nonempty x.(rp_id) | None => false end =
  match p' with Some x => nonempty x.(rp_id) | None => false end ∧
  (match p with Some x => nonempty x.(rp_id) | None => false end = true → p = p').
Proof.
  destruct p as [[k i]|], p' as [[k' i']|]; cbn [formatRouteCachePeer rp_id rp_kind]; [| | |done];
    try (destruct i as [|c i]); try (destruct i' as [|c' i']); try done; try (by destruct k); try (by destruct k').
  intros H. split; [done|]. intros _. f_equal. destruct k, k'; cbn in H; try discriminate; by injection H as -> ->.
Qed.

Lemma toSorted_perm l l' : toSorted l = toSorted l' → l ≡ₚ l'.
Proof.
  unfold toSorted. intros H. rewrite <-(merge_sort_Permutation string_leb l), <-(merge_sort_Permutation string_leb l'). by rewrite H.
Qed.

Lemma key_sameQuery q q' : knownPeer q → knownPeer q' →
  buildResolvedRouteCacheKey q = buildResolvedRouteCacheKey q' → sameQuery q q'.
Proof.
  intros Hq Hq' Hk. unfold buildResolvedRouteCacheKey in Hk. injection Hk as H1 H2 H3 Hp Hpp H6 H7 Hr Hd Hg.
  apply formatPeer_inj in Hp as [Ep Hp], Hpp as [Epp Hpp].
  split; try done.
  - unfold knownPeer in *. destruct (q_peer q) as [p|], (q_peer q') as [p'|]; try done.
    + by apply Hp, nonempty_true.
    + by rewrite (proj2 (nonempty_true _) Hq) in Ep.
    + by rewrite (proj2 (nonempty_true _) Hq') in Ep.
  - unfold parentScope. destruct (q_parentPeer q) as [p|], (q_parentPeer q') as [p'|]; try done.
    + rewrite <-Epp. destruct (nonempty (rp_id p)); [|done]. by specialize (Hpp eq_refl).
    + by rewrite Epp.
    + by rewrite <-Epp.
  - by apply toSorted_perm.
  - by destruct (q_dmScope q), (q_dmScope q').
  - by destruct (q_groupScope q), (q_groupScope q').
Qed.

Lemma roles_perm roles l l' : l ≡ₚ l' →
  hasAnyRouteBindingRole roles (JsSet.of_list l) = hasAnyRouteBindingRole roles (JsSet.of_list l').
Proof.
  intros H. unfold hasAnyRouteBindingRole. induction roles as [|r roles IH]; [done|]. cbn. rewrite IH. f_equal.
  apply bool_decide_ext. rewrite !JsSet.elem_of_of_list. by rewrite H.
Qed.

Lemma matches_sameQuery q q' kind m : sameQuery q q' →
  matchesBindingScope m (scopeOf q (peerFor q kind)) = matchesBindingScope m (scopeOf q' (peerFor q' kind)).
Proof.
  intros [_ _ _ Hp Hpp Hg Ht Hr _ _]. unfold matchesBindingScope, routeBindingScopeMatches, scopeOf.
  cbn [sc_peer sc_guildId sc_teamId memberRoleIds]. rewrite Hg, Ht.
  assert (peerFor q kind = peerFor q' kind) as -> by (by destruct kind).
  assert (∀ roles, hasAnyRouteBindingRole roles (JsSet.of_list (q_memberRoleIds q)) =
                   hasAnyRouteBindingRole roles (JsSet.of_list (q_memberRoleIds q'))) as Hroles.
  { intros roles. by apply roles_perm. }
  destruct (normalizeRouteBindingRoles (m_roles m)); [by rewrite Hroles|done].
Qed.

(** The route depends on what the key tells. *)
Lemma route_sameQuery cfg q q' : sameQuery q q' → routeOfQuery cfg q = routeOfQuery cfg q'.
Proof.
  intros Hs. assert (Hscan : ∀ kinds, scanKinds q (listBindings cfg) kinds = scanKinds q' (listBindings cfg) kinds).
  { induction kinds as [|kind kinds IH]; [done|]. cbn [scanKinds].
    rewrite (find_same _ (λ b, appliesTo q'.(q_channel) q'.(q_accountId) b && admits q' kind (normalizeBindingMatch b.(b_match)))).
    { by rewrite IH. }
    intros b _. unfold admits. by rewrite (sq_channel _ _ Hs), (sq_account _ _ Hs), (matches_sameQuery q q'). }
  unfold routeOfQuery. rewrite Hscan. unfold unboundAgentId, chooseOwner, routeFor.
  by rewrite (sq_channel _ _ Hs), (sq_account _ _ Hs), (sq_peer _ _ Hs), (sq_default _ _ Hs), (sq_dm _ _ Hs), (sq_group _ _ Hs).
Qed.

(** ** The caches *)

Lemma tab_apart (a b x y : string) : str_all canonicalChar x = true → str_all canonicalChar y = true →
  a +:+ tab +:+ x = b +:+ tab +:+ y → a = b ∧ x = y.
Proof.
  assert (Hm : ∀ p s z, str_all canonicalChar z = true → z ≠ p +:+ tab +:+ s).
  { induction p as [|c p IH]; intros s z Hz ->; cbn in Hz; [done|]. apply andb_prop in Hz as [_ Hz]. by apply (IH s _ Hz). }
  intros Hx Hy. revert b; induction a as [|c a IH]; intros [|d b]; cbn; intros H.
  - split; [done|]. by injection H.
  - injection H as _ H. by apply Hm in H.
  - injection H as _ H. symmetry in H. by apply Hm in H.
  - injection H as -> H. by apply IH in H as [-> ->].
Qed.

(** Configurations whose parts do not change under their identities. *)
Class Coherent (W : OpenClawConfig → Prop) : Prop := {
  coherent_agents a b : W a → W b → a.(c_ref) = b.(c_ref) → a.(c_agentsRef) = b.(c_agentsRef) →
    a.(c_roster) = b.(c_roster) ∧ a.(c_explicit) = b.(c_explicit) ∧ a.(c_retained) = b.(c_retained);
  coherent_bindings a b : W a → W b → a.(c_ref) = b.(c_ref) → a.(c_bindingsRef) = b.(c_bindingsRef) →
    a.(c_bindings) = b.(c_bindings);
  coherent_session a b : W a → W b → a.(c_ref) = b.(c_ref) → a.(c_sessionRef) = b.(c_sessionRef) →
    a.(c_session) = b.(c_session)
}.

(** What is computed from the roster. *)
Lemma roster_same a b : a.(c_roster) = b.(c_roster) → a.(c_explicit) = b.(c_explicit) → a.(c_retained) = b.(c_retained) →
  resolveDefaultAgentId a = resolveDefaultAgentId b ∧
  tryResolveLegacyCompatibilityAgentId a = tryResolveLegacyCompatibilityAgentId b ∧
  (a.(c_agentsRef) = b.(c_agentsRef) → buildAgentLookup a = buildAgentLookup b).
Proof.
  intros H1 H2 H3. assert (He : listAgentEntries a = listAgentEntries b) by (unfold listAgentEntries; by rewrite H1).
  assert (Hh : hasAgentRosterProperty a = hasAgentRosterProperty b) by (unfold hasAgentRosterProperty; by rewrite H1).
  assert (Hi : listAgentIds a = listAgentIds b) by (unfold listAgentIds; by rewrite He, Hh).
  assert (Hs : tryResolveSoleAgentId a = tryResolveSoleAgentId b) by (unfold tryResolveSoleAgentId; by rewrite He, Hh).
  assert (Hr : tryResolveRawLegacyDefaultAgentId a = tryResolveRawLegacyDefaultAgentId b).
  { unfold tryResolveRawLegacyDefaultAgentId. by rewrite H2, He. }
  assert (Hc : tryResolveLegacyCompatibilityAgentId a = tryResolveLegacyCompatibilityAgentId b).
  { unfold tryResolveLegacyCompatibilityAgentId, tryResolveDefaultAgentId. by rewrite H3, Hi, Hr, Hs. }
  split_and!; [|done|].
  - unfold resolveDefaultAgentId, resolveSoleAgentId. by rewrite Hr, Hs, Hi.
  - intros Ha. unfold buildAgentLookup. by rewrite Ha, He, Hc.
Qed.

Section caching.
Context (W : OpenClawConfig → Prop) `{!Coherent W}.

Record lookup_ok (ref : nat) (c : AgentLookupCache) : Prop := {
  lo_fresh cfg : W cfg → cfg.(c_ref) = ref → c.(al_agentsRef) = cfg.(c_agentsRef) → c = buildAgentLookup cfg
}.

Record evaluated_ok_for (cfg : OpenClawConfig) (c : EvaluatedBindingsCache) : Prop := {
  eo_channel : c.(byChannel) = buildEvaluatedBindingsByChannel cfg;
  eo_account channel accountId l : str_all canonicalChar accountId = true →
    JsMap.get (accountCacheKey channel accountId) c.(byChannelAccount) = Some l → l = evaluatedFor cfg channel accountId;
  eo_index channel accountId x : str_all canonicalChar accountId = true →
    JsMap.get (accountCacheKey channel accountId) c.(byChannelAccountIndex) = Some x →
    x = buildEvaluatedBindingsIndex (evaluatedFor cfg channel accountId)
}.

Definition evaluated_ok (ref : nat) (c : EvaluatedBindingsCache) : Prop :=
  ∀ cfg, W cfg → cfg.(c_ref) = ref → c.(ev_bindingsRef) = cfg.(c_bindingsRef) → evaluated_ok_for cfg c.

Definition routes_ok_for (cfg : OpenClawConfig) (routes : list (RouteKey * ResolvedAgentRoute)) : Prop :=
  ∀ q r, knownPeer q → JsMap.get (buildResolvedRouteCacheKey q) routes = Some r → routeOfQuery cfg q = inr r.

Definition routes_ok (ref : nat) (c : ResolvedRouteCache) : Prop :=
  ∀ cfg, W cfg → cfg.(c_ref) = ref → c.(rc_bindingsRef) = cfg.(c_bindingsRef) →
    c.(rc_agentsRef) = cfg.(c_agentsRef) → c.(rc_sessionRef) = cfg.(c_sessionRef) → routes_ok_for cfg c.(byKey).

Record caches_ok (s : Caches) : Prop := {
  co_lookup ref c : JsMap.get ref s.(agentLookupCacheByCfg) = Some c → lookup_ok ref c;
  co_evaluated ref c : JsMap.get ref s.(evaluatedBindingsCacheByCfg) = Some c → evaluated_ok ref c;
  co_routes ref c : JsMap.get ref s.(resolvedRouteCacheByCfg) = Some c → routes_ok ref c
}.

Lemma empty_caches_ok : caches_ok emptyCaches.
Proof. by split. Qed.

Lemma set_lookup_ok s ref c : caches_ok s → lookup_ok ref c → caches_ok (s <| agentLookupCacheByCfg ::= JsMap.set ref c |>).
Proof.
  intros [H1 H2 H3] Hc. split; cbn; [|done|done]. intros r x. rewrite JsMap.get_set. case_decide; [|by apply H1].
  by intros [= <-]; subst.
Qed.

Lemma set_evaluated_ok s ref c : caches_ok s → evaluated_ok ref c →
  caches_ok (s <| evaluatedBindingsCacheByCfg ::= JsMap.set ref c |>).
Proof.
  intros [H1 H2 H3] Hc. split; cbn; [done| |done]. intros r x. rewrite JsMap.get_set. case_decide; [|by apply H2].
  by intros [= <-]; subst.
Qed.

Lemma set_routes_ok s ref c : caches_ok s → routes_ok ref c →
  caches_ok (s <| resolvedRouteCacheByCfg ::= JsMap.set ref c |>).
Proof.
  intros [H1 H2 H3] Hc. split; cbn; [done|done|]. intros r x. rewrite JsMap.get_set. case_decide; [|by apply H3].
  by intros [= <-]; subst.
Qed.

Lemma pick_ok s cfg agentId : W cfg → caches_ok s →
  caches_ok (pickFirstExistingAgentId s cfg agentId).1 ∧
  (pickFirstExistingAgentId s cfg agentId).2 = pickAgent cfg (buildAgentLookup cfg) agentId.
Proof.
  intros HW Hs. unfold pickFirstExistingAgentId, resolveAgentLookupCache.
  assert (Hnew : caches_ok (s <| agentLookupCacheByCfg ::= JsMap.set cfg.(c_ref) (buildAgentLookup cfg) |>)).
  { apply set_lookup_ok; [done|]. split. intros b Hb Hr Ha.
    destruct (coherent_agents cfg b) as (? & ? & ?); [done..|]. by apply roster_same. }
  destruct (JsMap.get _ _) as [c|] eqn:Ec; [|done]. case_bool_decide as Hr; [|done].
  split; [done|]. cbn. by rewrite (lo_fresh _ _ (co_lookup _ Hs _ _ Ec) cfg).
Qed.

Lemma bindings_same a b : W a → W b → a.(c_ref) = b.(c_ref) → a.(c_bindingsRef) = b.(c_bindingsRef) →
  buildEvaluatedBindingsByChannel a = buildEvaluatedBindingsByChannel b.
Proof.
  intros Ha Hb Hr Hk. unfold buildEvaluatedBindingsByChannel, listBindings. by rewrite (coherent_bindings a b).
Qed.

Lemma evaluatedFor_same a b channel accountId :
  buildEvaluatedBindingsByChannel a = buildEvaluatedBindingsByChannel b →
  evaluatedFor a channel accountId = evaluatedFor b channel accountId.
Proof. unfold evaluatedFor. by intros ->. Qed.

(** What is right for one configuration is right for those with its identity
    and its bindings. *)
Lemma evaluated_ok_of cfg c : W cfg → c.(ev_bindingsRef) = cfg.(c_bindingsRef) → evaluated_ok_for cfg c →
  evaluated_ok cfg.(c_ref) c.
Proof.
  intros HW Hr [H1 H2 H3] b Hb Hrb Hk.
  assert (E : buildEvaluatedBindingsByChannel b = buildEvaluatedBindingsByChannel cfg) by (apply bindings_same; [done..|congruence]).
  split; [by rewrite E|..]; intros channel accountId; rewrite (evaluatedFor_same b cfg) by done; [apply H2|apply H3].
Qed.

Lemma evaluatedCacheFor_ok s cfg : W cfg → caches_ok s →
  evaluated_ok_for cfg (evaluatedCacheFor s cfg) ∧ (evaluatedCacheFor s cfg).(ev_bindingsRef) = cfg.(c_bindingsRef).
Proof.
  intros HW Hs. unfold evaluatedCacheFor.
  destruct (JsMap.get _ _) as [c|] eqn:Ec; [case_bool_decide as Hr|]; [|by repeat split..].
  split; [|done]. by apply (co_evaluated _ Hs _ _ Ec).
Qed.

Lemma set_account_ok cfg c channel accountId : evaluated_ok_for cfg c → str_all canonicalChar accountId = true →
  evaluated_ok_for cfg (storeEvaluated (accountCacheKey channel accountId) (evaluatedFor cfg channel accountId) c).
Proof.
  intros [H1 H2 H3] Ha. unfold storeEvaluated.
  destruct (_ <? _); split; try done; intros ch acc x Hacc; cbn [byChannelAccount byChannelAccountIndex update_field JsMap.get];
    rewrite ?JsMap.get_set; case_decide as Hk; try (by apply H2); try (by apply H3); try done;
    apply tab_apart in Hk as [-> ->]; try done; by intros [= <-].
Qed.

Lemma getEvaluated_ok s cfg channel accountId : W cfg → caches_ok s → str_all canonicalChar accountId = true →
  ∃ c, evaluated_ok_for cfg c ∧ c.(ev_bindingsRef) = cfg.(c_bindingsRef) ∧
    getEvaluatedBindingsForChannelAccount s cfg channel accountId =
      (s <| evaluatedBindingsCacheByCfg ::= JsMap.set cfg.(c_ref) c |>, evaluatedFor cfg channel accountId).
Proof.
  intros HW Hs Ha. destruct (evaluatedCacheFor_ok s cfg HW Hs) as [Hc Hr]. unfold getEvaluatedBindingsForChannelAccount.
  destruct (JsMap.get _ _) as [l|] eqn:El.
  - exists (evaluatedCacheFor s cfg). split_and!; [done..|]. by rewrite (eo_account _ _ Hc _ _ _ Ha El).
  - assert (E : bindingsFor (byChannel (evaluatedCacheFor s cfg)) channel accountId = evaluatedFor cfg channel accountId).
    { unfold evaluatedFor. by rewrite (eo_channel _ _ Hc). }
    rewrite E. eexists. split_and!; [by apply set_account_ok| |done].
    unfold storeEvaluated. by destruct (_ <? _).
Qed.

Lemma getIndex_ok s cfg channel accountId : W cfg → caches_ok s → str_all canonicalChar accountId = true →
  caches_ok (getEvaluatedBindingIndexForChannelAccount s cfg channel accountId).1 ∧
  (getEvaluatedBindingIndexForChannelAccount s cfg channel accountId).2 =
    buildEvaluatedBindingsIndex (evaluatedFor cfg channel accountId).
Proof.
  intros HW Hs Ha. unfold getEvaluatedBindingIndexForChannelAccount.
  destruct (getEvaluated_ok s cfg channel accountId HW Hs Ha) as (c & Hc & Hr & ->). cbn [evaluatedBindingsCacheByCfg update_field].
  assert (Hs' : caches_ok (s <| evaluatedBindingsCacheByCfg ::= JsMap.set cfg.(c_ref) c |>)).
  { apply set_evaluated_ok; [done|]. by apply evaluated_ok_of. }
  rewrite JsMap.get_set_eq. destruct (JsMap.get _ (byChannelAccountIndex c)) as [x|] eqn:Ex.
  - split; [done|]. by apply (eo_index _ _ Hc) in Ex.
  - split; [|done]. apply set_evaluated_ok; [done|]. apply evaluated_ok_of; [done|done|]. destruct Hc as [H1 H2 H3].
    split; [done|done|]. intros ch acc x Hacc. cbn [byChannelAccountIndex update_field]. rewrite JsMap.get_set.
    case_decide as Hk; [|by apply H3]. apply tab_apart in Hk as [-> ->]; [|done..]. by intros [= <-].
Qed.

Lemma routes_same a b q : W a → W b → a.(c_ref) = b.(c_ref) → a.(c_bindingsRef) = b.(c_bindingsRef) →
  a.(c_agentsRef) = b.(c_agentsRef) → a.(c_sessionRef) = b.(c_sessionRef) → routeOfQuery a q = routeOfQuery b q.
Proof.
  intros Ha Hb Hr Hbi Hag Hse. destruct (coherent_agents a b) as (E1 & E2 & E3); [done..|].
  destruct (roster_same a b E1 E2 E3) as (Hd & Hu & Hl). specialize (Hl Hag).
  assert (Hc : ∀ id by_ dm g, chooseOwner a q id by_ dm g = chooseOwner b q id by_ dm g).
  { intros. unfold chooseOwner, pickAgent, routeFor. by rewrite Hl, Hd, (coherent_session a b). }
  unfold routeOfQuery, unboundAgentId, listBindings. rewrite (coherent_bindings a b), Hu, Hd by done.
  destruct (scanKinds _ _ _) as [[? ?]|]; [apply Hc|]. destruct (q_defaultAgentId q); [|apply Hc].
  destruct (tryResolveLegacyCompatibilityAgentId b); [apply Hc|]. destruct (resolveDefaultAgentId b); [done|apply Hc].
Qed.

Lemma routes_ok_of cfg c : W cfg → c.(rc_bindingsRef) = cfg.(c_bindingsRef) → c.(rc_agentsRef) = cfg.(c_agentsRef) →
  c.(rc_sessionRef) = cfg.(c_sessionRef) → routes_ok_for cfg c.(byKey) → routes_ok cfg.(c_ref) c.
Proof.
  intros HW H1 H2 H3 H b Hb Hr Hb1 Hb2 Hb3 q r Hq Hg. rewrite (routes_same b cfg) by (done || congruence). by apply H.
Qed.

Lemma routeCache_ok s cfg : W cfg → caches_ok s →
  caches_ok (resolveRouteCacheForConfig s cfg).1 ∧ routes_ok_for cfg (resolveRouteCacheForConfig s cfg).2.
Proof.
  intros HW Hs. unfold resolveRouteCacheForConfig.
  assert (Hn : routes_ok_for cfg []) by done.
  destruct (JsMap.get _ _) as [c|] eqn:Ec; [destruct (_ && _) eqn:Er|]; cbn [fst snd].
  - split; [done|]. apply andb_prop in Er as [[R1 R2]%andb_prop R3]. apply bool_decide_eq_true in R1, R2, R3.
    by apply (co_routes _ Hs _ _ Ec).
  - split; [|done]. apply set_routes_ok; [done|]. by apply routes_ok_of.
  - split; [|done]. apply set_routes_ok; [done|]. by apply routes_ok_of.
Qed.

(** The routes of [cfg] are kept under its present parts. *)
Definition armed (s : Caches) (cfg : OpenClawConfig) : Prop :=
  ∃ c, JsMap.get cfg.(c_ref) s.(resolvedRouteCacheByCfg) = Some c ∧ c.(rc_bindingsRef) = cfg.(c_bindingsRef) ∧
    c.(rc_agentsRef) = cfg.(c_agentsRef) ∧ c.(rc_sessionRef) = cfg.(c_sessionRef).

Lemma routeCache_armed s cfg : armed (resolveRouteCacheForConfig s cfg).1 cfg.
Proof.
  unfold resolveRouteCacheForConfig, armed.
  destruct (JsMap.get (c_ref cfg) (resolvedRouteCacheByCfg s)) as [c|] eqn:Ec; [destruct (_ && _) eqn:Er|]; cbn.
  - apply andb_prop in Er as [[R1 R2]%andb_prop R3]. apply bool_decide_eq_true in R1, R2, R3. by exists c.
  - rewrite JsMap.get_set_eq. by eexists.
  - rewrite JsMap.get_set_eq. by eexists.
Qed.

Lemma remember_ok s cfg q r : W cfg → caches_ok s → armed s cfg → knownPeer q → routeOfQuery cfg q = inr r →
  caches_ok (rememberRoute s cfg (buildResolvedRouteCacheKey q) r).
Proof.
  intros HW Hs (c & Hc & R1 & R2 & R3) Hq Hr. unfold rememberRoute. rewrite Hc. apply set_routes_ok; [done|].
  apply routes_ok_of; [done..|]. cbn [byKey update_field].
  assert (Ho : routes_ok_for cfg (byKey c)) by (by apply (co_routes _ Hs _ _ Hc)).
  assert (Hk : ∀ q', knownPeer q' → buildResolvedRouteCacheKey q' = buildResolvedRouteCacheKey q → routeOfQuery cfg q' = inr r).
  { intros q' Hq' E. rewrite <-Hr. by apply route_sameQuery, key_sameQuery. }
  intros q' r' Hq'. destruct (_ <? _); cbn [JsMap.get]; [|rewrite JsMap.get_set]; case_decide; try done.
  - intros [= <-]. by apply Hk.
  - intros [= <-]. by apply Hk.
  - by apply Ho.
Qed.

Lemma getEvaluated_armed s cfg channel accountId : armed s cfg →
  armed (getEvaluatedBindingsForChannelAccount s cfg channel accountId).1 cfg ∧
  armed (getEvaluatedBindingIndexForChannelAccount s cfg channel accountId).1 cfg.
Proof.
  intros Ha. assert (H : ∀ s, armed s cfg → armed (getEvaluatedBindingsForChannelAccount s cfg channel accountId).1 cfg).
  { intros s' Hs'. unfold getEvaluatedBindingsForChannelAccount. by destruct (JsMap.get _ _). }
  split; [by apply H|]. unfold getEvaluatedBindingIndexForChannelAccount. specialize (H s Ha).
  destruct (getEvaluatedBindingsForChannelAccount s cfg channel accountId) as [s' l].
  destruct (JsMap.get _ _) as [c|]; [|done]. by destruct (JsMap.get _ _).
Qed.

Lemma pick_armed s cfg agentId : armed s cfg → armed (pickFirstExistingAgentId s cfg agentId).1 cfg.
Proof.
  intros Ha. unfold pickFirstExistingAgentId, resolveAgentLookupCache.
  destruct (JsMap.get (c_ref cfg) (agentLookupCacheByCfg s)); [|done]. by case_bool_decide.
Qed.

Lemma choose_ok s cfg q (cached : bool) agentId by_ dm g :
  W cfg → caches_ok s → (cached = true → armed s cfg) →
  routeOfQuery cfg q = chooseOwner cfg q agentId by_ dm g →
  (choose s cfg q cached agentId by_ dm g).2 = routeOfQuery cfg q ∧
  (knownPeer q → caches_ok (choose s cfg q cached agentId by_ dm g).1).
Proof.
  intros HW Hs Ha Hr. destruct (pick_ok s cfg agentId HW Hs) as [Hs' Hp]. unfold choose.
  assert (Ha' : cached = true → armed (pickFirstExistingAgentId s cfg agentId).1 cfg) by (intros; by apply pick_armed, Ha).
  destruct (pickFirstExistingAgentId s cfg agentId) as [s' picked]. cbn [fst snd] in *. unfold chooseOwner in Hr.
  rewrite <-Hp in Hr. destruct picked as [e|id]; [done|]. split; [done|]. intros Hq. cbn [fst].
  destruct cached; [|done]. by apply remember_ok; [..|apply Ha'| |].
Qed.

Lemma canonical_account v : str_all canonicalChar (normalizeAccountId v) = true.
Proof. by destruct (normalizeAccountId_canonical v). Qed.

Lemma uncached_ok s cfg q cached : W cfg → caches_ok s → (cached = true → armed s cfg) → trimmedIds q →
  str_all canonicalChar q.(q_accountId) = true →
  (resolveUncached s cfg q cached).2 = routeOfQuery cfg q ∧
  (knownPeer q → caches_ok (resolveUncached s cfg q cached).1).
Proof.
  intros HW Hs Ha Hq Hacc. unfold resolveUncached.
  destruct (getEvaluated_ok s cfg (q_channel q) (q_accountId q) HW Hs Hacc) as (c & Hc & Hr & E).
  assert (Ha1 : cached = true → armed (getEvaluatedBindingsForChannelAccount s cfg (q_channel q) (q_accountId q)).1 cfg).
  { intros. by apply getEvaluated_armed, Ha. }
  assert (Hs1 : caches_ok (getEvaluatedBindingsForChannelAccount s cfg (q_channel q) (q_accountId q)).1).
  { rewrite E. apply set_evaluated_ok; [done|]. by apply evaluated_ok_of. }
  destruct (getEvaluatedBindingsForChannelAccount _ _ _ _) as [s1 l]. cbn [fst snd] in *. clear E.
  destruct (getIndex_ok s1 cfg (q_channel q) (q_accountId q) HW Hs1 Hacc) as [Hs2 E2].
  assert (Ha2 : cached = true → armed (getEvaluatedBindingIndexForChannelAccount s1 cfg (q_channel q) (q_accountId q)).1 cfg).
  { intros. by apply getEvaluated_armed, Ha1. }
  destruct (getEvaluatedBindingIndexForChannelAccount _ _ _ _) as [s2 x]. cbn [fst snd] in *. subst x.
  rewrite firstMatch_reference by done. pose proof (eq_refl (routeOfQuery cfg q)) as Hroute. unfold routeOfQuery in Hroute at 2.
  destruct (scanKinds q (listBindings cfg) precedence) as [[by_ b]|]; [by apply choose_ok|].
  destruct (unboundAgentId cfg q) as [e|id]; [by rewrite Hroute|]. by apply choose_ok.
Qed.

Lemma resolve_ok v s input : W input.(in_cfg) → caches_ok s →
  (knownPeer (normalizeRouteInput input) ∨ s = emptyCaches) →
  (resolveAgentRoute v s input).2 = referenceRoute input ∧
  (knownPeer (normalizeRouteInput input) → caches_ok (resolveAgentRoute v s input).1).
Proof.
  intros HW Hs Hk. unfold resolveAgentRoute. set (cfg := in_cfg input) in *. set (q := normalizeRouteInput input) in *.
  change (referenceRoute input) with (routeOfQuery cfg q). set (cached := negb v && _). clearbody cached.
  assert (Hu : ∀ s, caches_ok s → (cached = true → armed s cfg) →
    (resolveUncached s cfg q cached).2 = routeOfQuery cfg q ∧ (knownPeer q → caches_ok (resolveUncached s cfg q cached).1)).
  { intros s' Hs' Ha. apply uncached_ok; [done..| |]; [apply normalized_trimmed|apply canonical_account]. }
  destruct cached; [|by apply Hu].
  destruct (routeCache_ok s cfg HW Hs) as [Hs1 Hr]. pose proof (routeCache_armed s cfg) as Ha.
  assert (Hkq : knownPeer q ∨ (resolveRouteCacheForConfig s cfg).2 = []) by (destruct Hk as [?| ->]; [left|right]; done).
  destruct (resolveRouteCacheForConfig s cfg) as [s1 routes]. cbn [fst snd] in *.
  destruct (JsMap.get _ routes) as [r|] eqn:Er; [|by apply Hu].
  destruct Hkq as [Hq| ->]; [|done]. cbn. split; [|done]. symmetry. by apply (Hr q).
Qed.
End caching.

#[export] Instance single_coherent cfg : Coherent (eq cfg).
Proof. split; by intros a b <- <-. Qed.

(** Calls of one process, one after the other. *)
Fixpoint runRoutes (s : Caches) (calls : list (bool * RouteInput)) : Caches * list (RouteError + ResolvedAgentRoute) :=
  match calls with
  | [] => (s, [])
  | (verbose, input) :: calls' =>
      let '(s, r) := resolveAgentRoute verbose s input in
      let '(s, rs) := runRoutes s calls' in (s, r :: rs)
  end.

(** C14: the resolution by index, by account and by tier gives the route of
    the reference: of the kinds of bindings in their order of precedence
    (peer, parent, wildcard, guild with roles, guild, team, account, channel)
    the first binding of the configuration, in the order of the configuration,
    that applies to the channel and account, is of that kind and admits the
    message; its owner is looked up the same way, and fails the same way. *)
Theorem route_is_first_by_precedence verbose input :
  (resolveAgentRoute verbose emptyCaches input).2 = referenceRoute input.
Proof.
  apply (@resolve_ok _ (single_coherent input.(in_cfg))); [done|by split|by right].
Qed.


(** ** Examples *)

Definition sampleBinding (agentId : string) (peer : option BindingPeer) (guild : option string) : AgentBinding :=
  {| b_acp := false; b_agentId := agentId;
     b_match := {| bm_channel := Some "Telegram"; bm_accountId := Some "*"; bm_peer := peer; bm_guildId := guild;
                   bm_teamId := None; bm_roles := None |};
     b_dmScope := None; b_groupScope := None |}.

Definition sampleConfig : OpenClawConfig :=
  {| c_ref := 0; c_agentsRef := 0; c_bindingsRef := 0; c_sessionRef := 0;
     c_roster := Some (ListRoster [Some {| ae_id := Some "main"; ae_default := true |};
                                   Some {| ae_id := Some "ops"; ae_default := false |}]);
     c_explicit := false; c_retained := None;
     c_bindings := [sampleBinding "main" None None;
                    sampleBinding "ops" (Some {| bp_kind := Some "dm"; bp_id := Some "*" |}) None];
     c_session := None |}.

(** The same object after a reload of its bindings. *)
Definition reloadedConfig : OpenClawConfig :=
  {| c_ref := 0; c_agentsRef := 0; c_bindingsRef := 1; c_sessionRef := 0; c_roster := sampleConfig.(c_roster);
     c_explicit := false; c_retained := None; c_bindings := [sampleBinding "main" None None]; c_session := None |}.

Definition sampleInput (cfg : OpenClawConfig) (peer : option RoutePeer) : RouteInput :=
  {| in_cfg := cfg; in_channel := "telegram"; in_defaultAgentId := None; in_accountId := None; in_peer := peer;
     in_dmScope := None; in_groupScope := None; in_parentPeer := None; in_guildId := None; in_teamId := None;
     in_memberRoleIds := None |}.

Definition alice : RoutePeer := {| rp_kind := Direct; rp_id := "alice" |}.

Lemma sample_coherent : Coherent (λ cfg, cfg = sampleConfig ∨ cfg = reloadedConfig).
Proof. split; intros a b [-> | ->] [-> | ->]; cbn; intros; done. Qed.

Definition ownerOf (r : RouteError + ResolvedAgentRoute) : string :=
  match r with inr r => r.(r_agentId) | inl _ => EmptyString end.


(** A call without a peer, then one for a peer that is not known: the second
    takes the first one's route out of the cache, though on its own it goes to
    the wildcard binding. *)
Example unknown_peer_takes_cached_route :
  let noPeer := sampleInput sampleConfig None in
  let unknown s := ownerOf (resolveUnknownDirectMessageRoute false s noPeer).2 in
  unknown emptyCaches = "ops" ∧ unknown (resolveAgentRoute false emptyCaches noPeer).1 = "main".
Proof. vm_compute. by split. Qed.
