(* ===== verification/CronSchedule.v ===== *)
(** * Schedules of automation jobs

    When a job runs next ([src/cron/schedule.ts], [schedule-number.ts],
    [stagger.ts], [parse.ts], and of [src/infra/format-time] and
    [src/shared/iso-time.ts] the calendar checks): one-shot instants, intervals
    with an anchor, and cron expressions with the corrections for the
    transitions of a time zone.

    The library that evaluates an expression, the clocks of time zones and
    [Date.parse] are operations of the class [CronEnv].  Instants are integral
    milliseconds; a throw is [inl].  The cache of expressions is modelled on
    its own, since an expression evaluates the same whether it was cached. *)
From Stdlib Require Import QArith.Qround Strings.Ascii.
From S2P Require Import Prelude JsCollections JsStrings NumberCoercion.
Local Open Scope Z_scope.

(** ** Instants *)

Definition MAX_DATE_TIMESTAMP_MS : Z := 8640000000000000.
Definition DAY_MS : Z := 86400000.

(** [asDateTimestampMs] on an integral instant. *)
Definition asDateTimestampMs (ms : Z) : option Z :=
  if Z.abs ms <=? MAX_DATE_TIMESTAMP_MS then Some ms else None.

(** [coerceFiniteScheduleNumber] of a number. *)
Definition coerceFiniteScheduleNumber (value : jsnum) : option QArith_base.Q :=
  asFiniteNumberInRange (JNum value)
    (mkRange (Some (QArith_base.inject_Z (- MAX_DATE_TIMESTAMP_MS))) (Some (QArith_base.inject_Z MAX_DATE_TIMESTAMP_MS))
       false false).

(** ** The libraries *)

(** An evaluated expression: [nextRun], [previousRuns(1, _)] and [match]. *)
Record Cron := {
  nextRun : Z → option Z;
  previousRun : Z → option Z;
  cronMatch : Z → bool
}.

(** [newCron] throws ([None]) where the expression or the zone is invalid;
    [offsetName] is the offset that [Intl] formats; [cronWall] and [intlWall]
    are the wall times of an instant as the library and as [Intl] see them,
    read as UTC. *)
Class CronEnv := {
  newCron : string → string → option Cron;
  offsetName : string → Z → string;
  cronWall : string → Z → Z;
  intlWall : string → Z → Z;
  systemZone : string;
  dateParse : string → option Z
}.

(** ** Absolute times *)

Fixpoint readDigits (n : nat) (acc : Z) (s : string) : option (Z * string) :=
  match n, s with
  | O, _ => Some (acc, s)
  | S n, String c r => match digit_value c with Some d => readDigits n (acc * 10 + d) r | None => None end
  | S _, EmptyString => None
  end.

(** The character [c] (or [c']) in front of [s]. *)
Definition readChar (c c' : Ascii.ascii) (s : string) : option string :=
  match s with
  | String x r => if bool_decide (x = c) || bool_decide (x = c') then Some r else None
  | EmptyString => None
  end.

Fixpoint spanDigits (s : string) : string * string :=
  match s with
  | String c r => match digit_value c with
                  | Some _ => let '(ds, rest) := spanDigits r in (String c ds, rest)
                  | None => (EmptyString, s)
                  end
  | EmptyString => (EmptyString, EmptyString)
  end.

Record IsoFields := {
  i_year : Z; i_month : Z; i_day : Z;
  i_time : bool;
  i_hour : Z; i_minute : Z; i_second : Z;
  i_fraction : string;
  i_zoned : bool
}.

Definition readYear (s : string) : option (Z * string) :=
  match s with
  | String c r =>
      if bool_decide (c = "+"%char) then readDigits 6 0 r
      else if bool_decide (c = "-"%char) then prod_map Z.opp id <$> readDigits 6 0 r
      else readDigits 4 0 s
  | EmptyString => None
  end.

(** [(?:[Zz]|[+-]\d{2}:?\d{2})?$]: whether there is a zone. *)
Definition readZone (s : string) : option bool :=
  match s with
  | EmptyString => Some false
  | String c r =>
      if bool_decide (c = "Z"%char) || bool_decide (c = "z"%char) then
        match r with EmptyString => Some true | _ => None end
      else if bool_decide (c = "+"%char) || bool_decide (c = "-"%char) then
        '(_, r) ← readDigits 2 0 r;
        '(_, r) ← readDigits 2 0 (default r (readChar ":" ":" r));
        match r with EmptyString => Some true | _ => None end
      else None
  end.

(** [(?::(\d{2})(\.\d+)?)?]: the seconds, the fraction and the rest. *)
Definition readSeconds (s : string) : option (Z * string * string) :=
  match readChar ":" ":" s with
  | None => Some (0, EmptyString, s)
  | Some r =>
      '(second, r) ← readDigits 2 0 r;
      match readChar "." "." r with
      | None => Some (second, EmptyString, r)
      | Some r => match spanDigits r with
                  | (EmptyString, _) => None
                  | (fraction, r) => Some (second, fraction, r)
                  end
      end
  end.

(** The match of [ISO_ABSOLUTE_RE]. *)
Definition readIso (s : string) : option IsoFields :=
  '(year, s) ← readYear s;
  s ← readChar "-" "-" s;
  '(month, s) ← readDigits 2 0 s;
  s ← readChar "-" "-" s;
  '(day, s) ← readDigits 2 0 s;
  match s with
  | EmptyString => Some {| i_year := year; i_month := month; i_day := day; i_time := false; i_hour := 0; i_minute := 0;
                           i_second := 0; i_fraction := EmptyString; i_zoned := false |}
  | _ =>
      s ← readChar "T" "t" s;
      '(hour, s) ← readDigits 2 0 s;
      s ← readChar ":" ":" s;
      '(minute, s) ← readDigits 2 0 s;
      '(second, fraction, s) ← readSeconds s;
      zoned ← readZone s;
      Some {| i_year := year; i_month := month; i_day := day; i_time := true; i_hour := hour; i_minute := minute;
              i_second := second; i_fraction := fraction; i_zoned := zoned |}
  end.

Definition isLeapYear (y : Z) : bool := ((y mod 4 =? 0) && negb (y mod 100 =? 0)) || (y mod 400 =? 0).

Definition daysInMonth (y m : Z) : Z :=
  if m =? 2 then if isLeapYear y then 29 else 28
  else if bool_decide (m ∈ [4; 6; 9; 11]) then 30 else 31.

(** The days from the epoch to a date of the proleptic Gregorian calendar. *)
Definition daysFromCivil (y m d : Z) : Z :=
  let y := if m <=? 2 then y - 1 else y in
  let era := y / 400 in
  let yoe := y - era * 400 in
  let doy := (153 * (m + (if 2 <? m then -3 else 9)) + 2) / 5 + d - 1 in
  let doe := yoe * 365 + yoe / 4 - yoe / 100 + doy in
  era * 146097 + doe - 719468.

Definition zeroFraction (fraction : string) : bool := str_all (λ c, bool_decide (c = "0"%char)) fraction.

(** The components survive a [Date] that rolls over what does not exist. *)
Definition hasValidIsoCalendarComponents (raw : string) : bool :=
  match readIso raw with
  | None => false
  | Some f =>
      let isEndOfDay := (f.(i_hour) =? 24) && (f.(i_minute) =? 0) && (f.(i_second) =? 0) && zeroFraction f.(i_fraction) in
      let hour := if isEndOfDay then 0 else f.(i_hour) in
      let millisecond := match readDigits 3 0 (f.(i_fraction) +:+ "000") with Some (ms, _) => ms | None => 0 end in
      let day := daysFromCivil f.(i_year) f.(i_month) f.(i_day) * DAY_MS in
      let instant := day + ((hour * 60 + f.(i_minute)) * 60 + f.(i_second)) * 1000 + millisecond in
      (1 <=? f.(i_month)) && (f.(i_month) <=? 12) && (1 <=? f.(i_day)) &&
      (f.(i_day) <=? daysInMonth f.(i_year) f.(i_month)) &&
      (hour <? 24) && (f.(i_minute) <? 60) && (f.(i_second) <? 60) &&
      bool_decide (is_Some (asDateTimestampMs day)) && bool_decide (is_Some (asDateTimestampMs instant))
  end.

(** [raw] has the form that was checked before. *)
Definition normalizeUtcIso (raw : string) : string :=
  match readIso raw with
  | Some f => if f.(i_zoned) then raw else if f.(i_time) then raw +:+ "Z" else raw +:+ "T00:00:00Z"
  | None => raw
  end.

Section schedule.
Context `{CronEnv}.

Definition parseAbsoluteTimeMs (input : string) : option Z :=
  match js_trim input with
  | EmptyString => None
  | raw =>
      match parse_unsigned raw with
      | Some _ => parseStrictPositiveInteger (JStr raw) ≫= asDateTimestampMs
      | None => if hasValidIsoCalendarComponents raw then dateParse (normalizeUtcIso raw) else None
      end
  end.

(** ** Cron expressions *)

(** The occurrence with the wall time of [instantMs] that comes first: the
    formatted wall time read back in the zone.  Only the years that
    [toISOString] writes with four digits are read. *)
Definition MIN_WALL_MS : Z := -62167219200000.
Definition MAX_WALL_MS : Z := 253402300799999.

Definition getTimeZoneOffsetMs (timezone : string) (utcMs : Z) : Z := intlWall timezone utcMs - utcMs.

Definition parseOffsetlessInTimeZone (timezone : string) (naiveMs : Z) : option Z :=
  if (MIN_WALL_MS <=? naiveMs) && (naiveMs <=? MAX_WALL_MS) then
    match List.filter (λ candidateMs, intlWall timezone candidateMs =? naiveMs)
            ((λ shiftMs, naiveMs - getTimeZoneOffsetMs timezone (naiveMs + shiftMs)) <$> [- DAY_MS; 0; DAY_MS]) with
    | [] => None
    | x :: l => Some (foldl Z.min x l)
    end
  else None.

Definition resolveFirstCronOccurrenceMs (timezone : string) (instantMs : Z) : option Z :=
  parseOffsetlessInTimeZone timezone (cronWall timezone instantMs).

Definition hasNearbyCronTimezoneTransition (timezone : string) (nowMs candidateMs : Z) : bool :=
  let currentOffset := offsetName timezone nowMs in
  let candidateOffset := offsetName timezone candidateMs in
  negb (bool_decide (currentOffset = candidateOffset)) ||
  negb (bool_decide (currentOffset = offsetName timezone (nowMs - DAY_MS))) ||
  negb (bool_decide (candidateOffset = offsetName timezone (candidateMs - DAY_MS))).

(** The offset of the library at a second. *)
Definition secondOffset (timezone : string) (second : Z) : Z := cronWall timezone (second * 1000) - second * 1000.

Fixpoint bisectOffset (fuel : nat) (timezone : string) (previousOffsetMs beforeSeconds afterSeconds : Z) : Z :=
  match fuel with
  | O => afterSeconds
  | S fuel =>
      if 1 <? afterSeconds - beforeSeconds then
        let middleSeconds := (beforeSeconds + afterSeconds) / 2 in
        if secondOffset timezone middleSeconds =? previousOffsetMs
        then bisectOffset fuel timezone previousOffsetMs middleSeconds afterSeconds
        else bisectOffset fuel timezone previousOffsetMs beforeSeconds middleSeconds
      else afterSeconds
  end.

(** The fuel is the distance, which every round shortens. *)
Definition findCronTimezoneTransitionMs (timezone : string) (firstMs lastMs : Z) : option Z :=
  let beforeSeconds := Z.min firstMs lastMs / 1000 in
  let afterSeconds := Z.max firstMs lastMs / 1000 in
  let previousOffsetMs := secondOffset timezone beforeSeconds in
  if previousOffsetMs =? secondOffset timezone afterSeconds then None
  else Some (bisectOffset (Z.to_nat (afterSeconds - beforeSeconds)) timezone previousOffsetMs
               beforeSeconds afterSeconds * 1000).

(** The search over transitions; [None] inside is the source's [undefined],
    [None] outside that the fuel did not suffice. *)
Fixpoint resolveCronRunAtTransitionMs (fuel : nat) (cron : Cron) (timezone : string) (transitionMs : Z) :
    option (option Z) :=
  match fuel with
  | O => None
  | S fuel =>
      match (if cron.(cronMatch) transitionMs then Some transitionMs else cron.(nextRun) transitionMs) with
      | None => Some None
      | Some candidateMs =>
          if cron.(cronMatch) candidateMs then Some (resolveFirstCronOccurrenceMs timezone candidateMs)
          else
            match findCronTimezoneTransitionMs timezone (candidateMs - DAY_MS) candidateMs with
            | None => Some None
            | Some nextTransitionMs =>
                if nextTransitionMs <=? transitionMs then Some None
                else resolveCronRunAtTransitionMs fuel cron timezone nextTransitionMs
            end
      end
  end.

Context (fuel : nat).

Definition runAtTransition (cron : Cron) (timezone : string) (transitionMs : Z) : option Z :=
  default None (resolveCronRunAtTransitionMs fuel cron timezone transitionMs).

Definition resolveNextCronOccurrenceMs (cron : Cron) (nowMs nextMs : Z) (timezone : string) : option Z :=
  if negb (cron.(cronMatch) nextMs) then
    findCronTimezoneTransitionMs timezone (nextMs - DAY_MS) nextMs ≫= runAtTransition cron timezone
  else
    match resolveFirstCronOccurrenceMs timezone nextMs with
    | None => None
    | Some firstOccurrenceMs =>
        if nowMs <? firstOccurrenceMs then Some firstOccurrenceMs
        else
          let '(transitionStartMs, transitionEndMs, overlapMs) :=
            match resolveFirstCronOccurrenceMs timezone nowMs with
            | Some firstCurrentOccurrenceMs =>
                if firstCurrentOccurrenceMs <? nowMs
                then (firstCurrentOccurrenceMs, nowMs, nowMs - firstCurrentOccurrenceMs)
                else (nowMs, nextMs, nextMs - firstOccurrenceMs)
            | None => (nowMs, nextMs, nextMs - firstOccurrenceMs)
            end in
          match findCronTimezoneTransitionMs timezone transitionStartMs transitionEndMs with
          | None => None
          | Some transitionMs => runAtTransition cron timezone (transitionMs + overlapMs)
          end
    end.

Definition resolveValidatedNextCronOccurrenceMs (cron : Cron) (nowMs candidateMs : Z) (timezone : string) : option Z :=
  if (nowMs <? candidateMs) && negb (hasNearbyCronTimezoneTransition timezone nowMs candidateMs) then Some candidateMs
  else match resolveNextCronOccurrenceMs cron nowMs candidateMs timezone with
       | Some normalizedMs => if nowMs <? normalizedMs then Some normalizedMs else None
       | None => None
       end.

(** ** The next and the previous run *)

Inductive CronSchedule :=
| At (at_ : string)
| Every (everyMs : jsnum) (anchorMs : option jsnum)
| CronExpr (expr : option string) (tz : option string) (staggerMs : option jsvalue)
| OnExit
| Stream (batchMs maxBatchBytes : option Z).

Inductive ScheduleError := ExprRequired | InvalidCron.

Definition resolveCronTimezone (tz : option string) : string :=
  match normalizeOptionalString tz with Some trimmed => trimmed | None => systemZone end.

(** [None] for a blank expression. *)
Definition resolveCronFromSchedule (expr tz : option string) : ScheduleError + option (Cron * string) :=
  match expr with
  | None => inl ExprRequired
  | Some e =>
      match js_trim e with
      | EmptyString => inr None
      | e => let timezone := resolveCronTimezone tz in
             match newCron e timezone with
             | None => inl InvalidCron
             | Some cron => inr (Some (cron, timezone))
             end
      end
  end.

(** An interval: the anchor while it lies ahead, and otherwise the first
    multiple of the interval behind now. *)
Definition nextEvery (everyMs : jsnum) (anchorMs : option jsnum) (nowMs : Z) : option Z :=
  match coerceFiniteScheduleNumber everyMs with
  | None => None
  | Some everyMsRaw =>
      let everyMs := Qfloor everyMsRaw in
      if everyMs <? 1 then None
      else
        let go (anchor : Z) :=
          if nowMs <? anchor then Some anchor
          else asDateTimestampMs (anchor + ((nowMs - anchor) / everyMs + 1) * everyMs) in
        match anchorMs with
        | None => go (0 `max` nowMs)
        | Some a =>
            match coerceFiniteScheduleNumber a with
            | None => None
            | Some anchorRaw =>
                if negb (QArith_base.Qle_bool (QArith_base.inject_Z 0) anchorRaw) then None else go (0 `max` Qfloor anchorRaw)
            end
        end
  end.

(** The start of the next day in UTC. *)
Definition tomorrow (nowMs : Z) : Z := (nowMs / DAY_MS + 1) * DAY_MS.

Definition nextCron (cron : Cron) (timezone : string) (nowMs : Z) : option Z :=
  match cron.(nextRun) nowMs with
  | None => None
  | Some nextMs =>
      match resolveValidatedNextCronOccurrenceMs cron nowMs nextMs timezone with
      | Some ms => Some ms
      | None =>
          if nowMs <? nextMs then None
          else
            let retry ms := cron.(nextRun) ms ≫= λ candidateMs,
                              resolveValidatedNextCronOccurrenceMs cron nowMs candidateMs timezone in
            match retry (nowMs / 1000 * 1000 + 1000) with
            | Some ms => Some ms
            | None => retry (tomorrow nowMs)
            end
      end
  end.

Definition computeNextRunAtMs (schedule : CronSchedule) (nowMs : Z) : ScheduleError + option Z :=
  match asDateTimestampMs nowMs with
  | None => inr None
  | Some _ =>
      match schedule with
      | At at_ => inr (match parseAbsoluteTimeMs at_ with
                       | Some atMs => if nowMs <? atMs then Some atMs else None
                       | None => None
                       end)
      | Every everyMs anchorMs => inr (nextEvery everyMs anchorMs nowMs)
      | OnExit | Stream _ _ => inr None
      | CronExpr expr tz _ =>
          match resolveCronFromSchedule expr tz with
          | inl e => inl e
          | inr None => inr None
          | inr (Some (cron, timezone)) => inr (nextCron cron timezone nowMs)
          end
      end
  end.

(** Walks back over the instants that the library invents for wall times that
    do not exist. *)
Fixpoint walkBack (fuel : nat) (cron : Cron) (timezone : string) (nowMs previousMs : Z) : option (option Z) :=
  match fuel with
  | O => None
  | S fuel =>
      if negb (cron.(cronMatch) previousMs) ||
         (nowMs <=? default previousMs (resolveFirstCronOccurrenceMs timezone previousMs))
      then
        match findCronTimezoneTransitionMs timezone (previousMs - DAY_MS) previousMs with
        | None => Some None
        | Some transitionMs =>
            let beforeTransition := transitionMs - 1000 in
            match (if cron.(cronMatch) beforeTransition then Some beforeTransition
                   else cron.(previousRun) beforeTransition) with
            | None => Some None
            | Some candidateMs =>
                if previousMs <=? candidateMs then Some None
                else walkBack fuel cron timezone nowMs candidateMs
            end
        end
      else Some (Some previousMs)
  end.

(** The end of a repeated interval that now lies in has later candidates. *)
Definition previousInOverlap (cron : Cron) (timezone : string) (nowMs : Z) (previousMs : option Z) : option Z :=
  match resolveFirstCronOccurrenceMs timezone nowMs with
  | Some firstCurrentOccurrenceMs =>
      if firstCurrentOccurrenceMs <? nowMs then
        match findCronTimezoneTransitionMs timezone firstCurrentOccurrenceMs nowMs with
        | Some transitionMs =>
            match cron.(previousRun) (transitionMs + nowMs - firstCurrentOccurrenceMs) with
            | Some candidateMs => Some candidateMs
            | None => previousMs
            end
        | None => previousMs
        end
      else previousMs
  | None => previousMs
  end.

Definition previousCron (cron : Cron) (timezone : string) (nowMs : Z) : option Z :=
  let previousMs := cron.(previousRun) nowMs in
  let plain := match previousMs with
               | Some ms => (ms <? nowMs) && negb (hasNearbyCronTimezoneTransition timezone nowMs ms)
               | None => false
               end in
  if plain then previousMs
  else
    match previousInOverlap cron timezone nowMs previousMs with
    | None => None
    | Some ms =>
        match default None (walkBack fuel cron timezone nowMs ms) with
        | None => None
        | Some ms =>
            match resolveFirstCronOccurrenceMs timezone ms with
            | Some normalizedMs => if normalizedMs <? nowMs then Some normalizedMs else None
            | None => None
            end
        end
    end.

Definition computePreviousRunAtMs (schedule : CronSchedule) (nowMs : Z) : ScheduleError + option Z :=
  match schedule, asDateTimestampMs nowMs with
  | CronExpr expr tz _, Some _ =>
      match resolveCronFromSchedule expr tz with
      | inl e => inl e
      | inr None => inr None
      | inr (Some (cron, timezone)) => inr (previousCron cron timezone nowMs)
      end
  | _, _ => inr None
  end.
End schedule.

(** ** The cache of expressions *)

Definition CRON_EVAL_CACHE_MAX : Z := 512.

(** The entry that is used moves to the end; a new one goes there once the
    oldest have made room. *)
Definition resolveCachedCron {V} (build : string * string → option V) (expr timezone : string)
    (cache : list ((string * string) * V)) : option V * list ((string * string) * V) :=
  let key := (timezone, expr) in
  match JsMap.get key cache with
  | Some cached => (Some cached, JsMap.set key cached (JsMap.delete key cache))
  | None =>
      let cache := pruneMapToMaxSize cache (jsnum_of_Z (CRON_EVAL_CACHE_MAX - 1)) in
      match build key with
      | Some next => (Some next, JsMap.set key next cache)
      | None => (None, cache)
      end
  end.

(** ** Staggering *)

Definition DEFAULT_TOP_OF_HOUR_STAGGER_MS : Z := 5 * 60 * 1000.

(** [split(/\s+/).filter(Boolean)]: the runs without white space. *)
Fixpoint splitSpaces (run : string) (s : string) : list string :=
  let close rest := match run with EmptyString => rest | _ => run :: rest end in
  match s with
  | EmptyString => close []
  | String c r => if is_js_space c then close (splitSpaces EmptyString r)
                  else splitSpaces (run +:+ String c EmptyString) r
  end.

Definition parseCronFields (expr : string) : list string := splitSpaces EmptyString (js_trim expr).

Definition allDigits (s : string) : bool := bool_decide (is_Some (parse_unsigned s)).

(** [HOUR_LIST_PART] *)
Definition isHourListPart (part : string) : bool :=
  let base b := bool_decide (b ∈ ["*"; "?"]) ||
                match split_on "-" b with
                | [d] => allDigits d
                | [d; e] => allDigits d && allDigits e
                | _ => false
                end in
  match split_on "/" part with
  | [b] => base b
  | [b; step] => base b && allDigits step
  | _ => false
  end.

Definition hasRecurringWildcardHour (field : string) : bool :=
  let parts := split_on "," field in
  forallb isHourListPart parts && existsb (λ part, starts_with "*" part || starts_with "?" part) parts.

Definition isRecurringTopOfHourCronExpr (expr : string) : bool :=
  match parseCronFields expr with
  | [minuteField; hourField; _; _; _] => bool_decide (minuteField = "0") && hasRecurringWildcardHour hourField
  | [secondField; minuteField; hourField; _; _; _] =>
      bool_decide (secondField = "0") && bool_decide (minuteField = "0") && hasRecurringWildcardHour hourField
  | _ => false
  end.

Definition normalizeCronStaggerMs (raw : option jsvalue) : option Z :=
  let numeric : jsnum :=
    match raw with
    | Some (JNum n) => n
    | Some (JStr s) => match js_trim s with
                       | EmptyString => NaN
                       | _ => match parseStrictNonNegativeInteger (JStr s) with
                              | Some z => jsnum_of_Z z
                              | None => NaN
                              end
                       end
    | _ => NaN
    end in
  match numeric with
  | Fin q => asSafeIntegerInRange (JNum (jsnum_of_Z (0 `max` Qfloor q))) None (Some MAX_DATE_TIMESTAMP_MS)
  | _ => None
  end.

Definition resolveDefaultCronStaggerMs (expr : string) : option Z :=
  if isRecurringTopOfHourCronExpr expr then Some DEFAULT_TOP_OF_HOUR_STAGGER_MS else None.

Definition resolveCronStaggerMs (expr : option string) (staggerMs : option jsvalue) : Z :=
  match normalizeCronStaggerMs staggerMs with
  | Some explicit => explicit
  | None => default 0 (resolveDefaultCronStaggerMs (default EmptyString expr))
  end.

(** ** Instants on their side of now *)

Lemma asDate_bounds ms t : asDateTimestampMs ms = Some t → t = ms ∧ Z.abs t ≤ MAX_DATE_TIMESTAMP_MS.
Proof. unfold asDateTimestampMs. destruct (Z.leb_spec (Z.abs ms) MAX_DATE_TIMESTAMP_MS); [|done]. by intros [= <-]. Qed.

Lemma after_step x e : 0 < e → 0 ≤ x → x < (x / e + 1) * e.
Proof. intros He Hx. pose proof (Z.mod_pos_bound x e He). pose proof (Z.div_mod x e ltac:(lia)). nia. Qed.

Section facts.
Context `{CronEnv} (fuel : nat).

Lemma nextEvery_future everyMs anchorMs nowMs t : nextEvery everyMs anchorMs nowMs = Some t → nowMs < t.
Proof.
  unfold nextEvery. destruct (coerceFiniteScheduleNumber everyMs) as [q|]; [|done]. set (e := Qfloor q).
  destruct (Z.ltb_spec e 1); [done|].
  assert (Hgo : ∀ anchor, (if nowMs <? anchor then Some anchor
      else asDateTimestampMs (anchor + ((nowMs - anchor) / e + 1) * e)) = Some t → nowMs < t).
  { intros a. destruct (Z.ltb_spec nowMs a); [by intros [= <-]|]. intros [-> _]%asDate_bounds.
    pose proof (after_step (nowMs - a) e). lia. }
  destruct anchorMs as [a|]; [|apply Hgo]. destruct (coerceFiniteScheduleNumber a); [|done].
  destruct (negb _); [done|apply Hgo].
Qed.

Lemma validated_future cron nowMs ms timezone t :
  resolveValidatedNextCronOccurrenceMs fuel cron nowMs ms timezone = Some t → nowMs < t.
Proof.
  unfold resolveValidatedNextCronOccurrenceMs. destruct (_ && _) eqn:E.
  - intros [= <-]. apply andb_prop in E as [E _]. by apply Z.ltb_lt.
  - destruct (resolveNextCronOccurrenceMs _ _ _ _ _) as [m|]; [|done].
    destruct (Z.ltb_spec nowMs m); [by intros [= <-]|done].
Qed.

Lemma nextCron_future cron timezone nowMs t : nextCron fuel cron timezone nowMs = Some t → nowMs < t.
Proof.
  unfold nextCron. destruct (nextRun cron nowMs) as [n|]; [|done].
  destruct (resolveValidatedNextCronOccurrenceMs fuel cron nowMs n timezone) as [m|] eqn:E.
  { intros [= <-]. by apply validated_future in E. }
  destruct (nowMs <? n); [done|].
  assert (Hr : ∀ ms t, (nextRun cron ms ≫= λ c, resolveValidatedNextCronOccurrenceMs fuel cron nowMs c timezone) = Some t → nowMs < t).
  { intros ms x (c & _ & Hc)%bind_Some. by apply validated_future in Hc. }
  cbv zeta. destruct (nextRun cron (nowMs / 1000 * 1000 + 1000) ≫= _) as [m|] eqn:E1.
  - intros [= <-]. by apply Hr in E1.
  - apply Hr.
Qed.

Lemma previousCron_past cron timezone nowMs t : previousCron fuel cron timezone nowMs = Some t → t < nowMs.
Proof.
  unfold previousCron. match goal with |- (if ?b then _ else _) = _ → _ => destruct b eqn:Ep end.
  { intros E. rewrite E in Ep. apply andb_prop in Ep as [Ep _]. by apply Z.ltb_lt. }
  destruct (previousInOverlap _ _ _ _) as [m|]; [|done]. destruct (default None _) as [x|]; [|done].
  destruct (resolveFirstCronOccurrenceMs timezone x) as [y|]; [|done]. destruct (Z.ltb_spec y nowMs); [by intros [= <-]|done].
Qed.

(** ** Transitions of a zone *)

Lemma bisect_spec timezone p n : ∀ before after, (Z.to_nat (after - before) ≤ n)%nat → before < after →
  secondOffset timezone before = p → secondOffset timezone after ≠ p →
  let s := bisectOffset n timezone p before after in
  before < s ≤ after ∧ secondOffset timezone (s - 1) = p ∧ secondOffset timezone s ≠ p.
Proof.
  induction n as [|n IH]; intros b a Hn Hlt Hb Ha; cbn [bisectOffset]; [lia|].
  destruct (Z.ltb_spec 1 (a - b)).
  2:{ replace (a - 1) with b by lia. split; [lia|done]. }
  pose proof (Z.div_mod (b + a) 2 ltac:(lia)) as Hd. pose proof (Z.mod_pos_bound (b + a) 2 ltac:(lia)).
  destruct (Z.eqb_spec (secondOffset timezone ((b + a) / 2)) p) as [Hm|Hm].
  - destruct (IH ((b + a) / 2) a) as (? & ? & ?); try done; lia.
  - destruct (IH b ((b + a) / 2)) as (? & ? & ?); try done; lia.
Qed.

Lemma transition_spec timezone x y t : findCronTimezoneTransitionMs timezone x y = Some t →
  ∃ s, t = s * 1000 ∧ Z.min x y / 1000 < s ≤ Z.max x y / 1000 ∧
    secondOffset timezone (s - 1) = secondOffset timezone (Z.min x y / 1000) ∧
    secondOffset timezone s ≠ secondOffset timezone (s - 1).
Proof.
  unfold findCronTimezoneTransitionMs. destruct (Z.eqb_spec (secondOffset timezone (Z.min x y / 1000))
    (secondOffset timezone (Z.max x y / 1000))) as [|Hne]; [done|]. intros [= <-]. eexists. split; [done|].
  assert (Hle : Z.min x y / 1000 ≤ Z.max x y / 1000) by (apply Z.div_le_mono; lia).
  assert (Z.min x y / 1000 ≠ Z.max x y / 1000) by congruence.
  destruct (bisect_spec timezone (secondOffset timezone (Z.min x y / 1000))
    (Z.to_nat (Z.max x y / 1000 - Z.min x y / 1000)) (Z.min x y / 1000) (Z.max x y / 1000)) as (? & Hp & ?);
    [lia|lia|done|congruence|]. rewrite Hp. done.
Qed.

(** The searches move on with every round; beyond the horizon of the library
    they end. *)
Lemma run_search_ends cron timezone hi : (∀ ms, hi ≤ ms → cron.(cronMatch) ms = false ∧ cron.(nextRun) ms = None) →
  ∀ n t, (Z.to_nat (hi - t) < n)%nat → is_Some (resolveCronRunAtTransitionMs n cron timezone t).
Proof.
  intros Hhi n. induction n as [|n IH]; intros t Hn; [lia|]. cbn [resolveCronRunAtTransitionMs].
  destruct (decide (hi ≤ t)) as [Ht|Ht].
  { destruct (Hhi t Ht) as [-> ->]. done. }
  destruct (if cronMatch cron t then _ else _) as [c|]; [|done]. destruct (cronMatch cron c); [done|].
  destruct (findCronTimezoneTransitionMs _ _ _) as [x|]; [|done]. destruct (Z.leb_spec x t); [done|]. apply IH. lia.
Qed.

Lemma walk_back_ends cron timezone nowMs lo :
  (∀ ms, ms ≤ lo → cron.(cronMatch) ms = false ∧ cron.(previousRun) ms = None) →
  ∀ n t, (Z.to_nat (t - lo) < n)%nat → is_Some (walkBack n cron timezone nowMs t).
Proof.
  intros Hlo n. induction n as [|n IH]; intros t Hn; [lia|]. cbn [walkBack]. destruct (_ || _); [|done].
  destruct (findCronTimezoneTransitionMs timezone (t - DAY_MS) t) as [x|] eqn:Ex; [|done].
  apply transition_spec in Ex as (s & -> & Hs & _). unfold DAY_MS in Hs.
  assert (s * 1000 ≤ t). { pose proof (Z.mul_div_le (Z.max (t - 86400000) t) 1000 ltac:(lia)). lia. }
  destruct (decide (t ≤ lo)).
  { destruct (Hlo (s * 1000 - 1000)) as [-> ->]; [lia|done]. }
  destruct (if cronMatch cron _ then _ else _) as [c|]; [|done]. destruct (Z.leb_spec t c); [done|]. apply IH. lia.
Qed.
End facts.

(** ** Theorems *)

Lemma coerce_int z : Z.abs z ≤ MAX_DATE_TIMESTAMP_MS → coerceFiniteScheduleNumber (jsnum_of_Z z) = Some (QArith_base.inject_Z z).
Proof.
  intros Hz. unfold coerceFiniteScheduleNumber, asFiniteNumberInRange, jsnum_of_Z.
  cbn [asFiniteNumber range_min range_max minExclusive maxExclusive]. unfold QArith_base.Qle_bool, QArith_base.inject_Z.
  cbn [QArith_base.Qnum QArith_base.Qden]. rewrite !Z.mul_1_r.
  by rewrite (proj2 (Z.leb_le (- _) z)), (proj2 (Z.leb_le z _)) by lia.
Qed.

(** A run is always on its side of now: whatever the schedule, the time
    zone and the library for expressions say, the next run lies strictly in the
    future and the previous one strictly in the past. *)
Theorem runs_on_their_side_of_now `{CronEnv} fuel schedule nowMs t :
  (computeNextRunAtMs fuel schedule nowMs = inr (Some t) → nowMs < t) ∧
  (computePreviousRunAtMs fuel schedule nowMs = inr (Some t) → t < nowMs).
Proof.
  unfold computeNextRunAtMs, computePreviousRunAtMs. destruct (asDateTimestampMs nowMs); [|by destruct schedule].
  destruct schedule as [at_|everyMs anchorMs|expr tz stagger| |]; split; try done.
  - destruct (parseAbsoluteTimeMs at_) as [a|]; [|done]. destruct (Z.ltb_spec nowMs a); [by intros [= <-]|done].
  - intros [= E]. by apply nextEvery_future in E.
  - destruct (resolveCronFromSchedule expr tz) as [e|[[cron timezone]|]]; try done. intros [= E]. by apply nextCron_future in E.
  - destruct (resolveCronFromSchedule expr tz) as [e|[[cron timezone]|]]; try done. intros [= E]. by apply previousCron_past in E.
Qed.

(** An interval runs on its grid: the next run is the least of the
    instants [anchor + k * every] that lie ahead of now, and there is none only
    if all of those lie beyond the last valid date. *)
Theorem interval_runs_on_grid `{CronEnv} fuel everyMs anchorMs nowMs :
  1 ≤ everyMs ≤ MAX_DATE_TIMESTAMP_MS → 0 ≤ anchorMs ≤ MAX_DATE_TIMESTAMP_MS → Z.abs nowMs ≤ MAX_DATE_TIMESTAMP_MS →
  match computeNextRunAtMs fuel (Every (jsnum_of_Z everyMs) (Some (jsnum_of_Z anchorMs))) nowMs with
  | inr (Some t) => nowMs < t ∧ (∃ k, 0 ≤ k ∧ t = anchorMs + k * everyMs) ∧
      ∀ k, 0 ≤ k → nowMs < anchorMs + k * everyMs → t ≤ anchorMs + k * everyMs
  | inr None => ∀ k, 0 ≤ k → nowMs < anchorMs + k * everyMs → MAX_DATE_TIMESTAMP_MS < anchorMs + k * everyMs
  | inl _ => False
  end.
Proof.
  intros He Ha Hn. unfold computeNextRunAtMs, asDateTimestampMs at 1. rewrite (proj2 (Z.leb_le _ _) Hn).
  unfold nextEvery. rewrite !coerce_int by lia. rewrite !Qfloor_Z. unfold QArith_base.Qle_bool, QArith_base.inject_Z.
  cbn [QArith_base.Qnum QArith_base.Qden]. rewrite !Z.mul_1_r, (proj2 (Z.ltb_ge everyMs 1)), (proj2 (Z.leb_le 0 anchorMs)) by lia.
  cbn [negb]. cbv zeta. rewrite (Z.max_r 0 anchorMs) by lia. destruct (Z.ltb_spec nowMs anchorMs).
  { split; [done|]. split; [exists 0; lia|]. intros k Hk _. nia. }
  set (n := (nowMs - anchorMs) / everyMs).
  pose proof (Z.mod_pos_bound (nowMs - anchorMs) everyMs ltac:(lia)) as Hm.
  pose proof (Z.div_mod (nowMs - anchorMs) everyMs ltac:(lia)) as Hd. fold n in Hd.
  assert (0 ≤ n) by (apply Z.div_pos; lia).
  assert (Hleast : ∀ k, 0 ≤ k → nowMs < anchorMs + k * everyMs → anchorMs + (n + 1) * everyMs ≤ anchorMs + k * everyMs).
  { intros k Hk Hlt. assert (n < k) by (apply (Z.mul_lt_mono_pos_l everyMs); lia). apply Z.add_le_mono_l, Z.mul_le_mono_nonneg_r; lia. }
  unfold asDateTimestampMs. destruct (Z.leb_spec (Z.abs (anchorMs + (n + 1) * everyMs)) MAX_DATE_TIMESTAMP_MS).
  - split; [nia|]. split; [exists (n + 1); split; [lia|done]|done].
  - intros k Hk Hlt. specialize (Hleast k Hk Hlt). nia.
Qed.

(** The searches for an occurrence end: a library that knows no
    occurrences before [lo] and from [hi] on, as Croner with its range of
    years, makes the walk over the transitions of a zone end with an answer
    in either direction, however the zone changes its offsets, and more fuel
    does not change the answer. *)
Theorem cron_searches_end `{CronEnv} cron timezone nowMs lo hi :
  (∀ ms, hi ≤ ms → cron.(cronMatch) ms = false ∧ cron.(nextRun) ms = None) →
  (∀ ms, ms ≤ lo → cron.(cronMatch) ms = false ∧ cron.(previousRun) ms = None) →
  ∀ t n, (Z.to_nat (hi - t) < n)%nat → (Z.to_nat (t - lo) < n)%nat →
    (∃ r, ∀ k, resolveCronRunAtTransitionMs (n + k) cron timezone t = Some r) ∧
    (∃ r, ∀ k, walkBack (n + k) cron timezone nowMs t = Some r).
Proof.
  intros Hhi Hlo t n Hn1 Hn2.
  destruct (run_search_ends cron timezone hi Hhi n t Hn1) as [r Hr].
  destruct (walk_back_ends cron timezone nowMs lo Hlo n t Hn2) as [r' Hr'].
  split; [exists r|exists r'].
  - clear - Hr. revert t Hr; induction n as [|n IH]; intros t Hr k; [done|]. cbn [Nat.add resolveCronRunAtTransitionMs] in *.
    destruct (if cronMatch cron t then _ else _) as [c|]; [|done]. destruct (cronMatch cron c); [done|].
    destruct (findCronTimezoneTransitionMs _ _ _) as [x|]; [|done]. destruct (x <=? t); [done|by apply IH].
  - clear - Hr'. revert t Hr'; induction n as [|n IH]; intros t Hr k; [done|]. cbn [Nat.add walkBack] in *.
    destruct (_ || _); [|done]. destruct (findCronTimezoneTransitionMs _ _ _) as [x|]; [|done].
    destruct (if cronMatch cron _ then _ else _) as [c|]; [|done]. destruct (t <=? c); [done|by apply IH].
Qed.

(** The cache keeps its bound, holds what the expressions evaluate to, and
    answers as if it were not there. *)
Definition cron_cache_ok {V} (build : string * string → option V) (cache : list ((string * string) * V)) : Prop :=
  NoDup (JsMap.keys cache) ∧ Z.of_nat (length cache) ≤ CRON_EVAL_CACHE_MAX ∧
  ∀ k v, JsMap.get k cache = Some v → build k = Some v.

Lemma cron_cache_transparent {V} (build : string * string → option V) expr timezone cache :
  cron_cache_ok build cache →
  (resolveCachedCron build expr timezone cache).1 = build (timezone, expr) ∧
  cron_cache_ok build (resolveCachedCron build expr timezone cache).2.
Proof.
  intros (Hn & Hl & Hc). unfold resolveCachedCron. set (key := (timezone, expr)).
  destruct (JsMap.get key cache) as [v|] eqn:Ev; cbn [fst snd].
  - split; [symmetry; by apply Hc|]. assert (Hnd : NoDup (JsMap.keys (JsMap.delete key cache))) by by apply JsMap.NoDup_keys_delete.
    assert (Hg : JsMap.get key (JsMap.delete key cache) = None) by apply JsMap.get_delete_eq.
    split_and!; [by apply JsMap.NoDup_keys_set| |].
    + rewrite JsMap.set_fresh by done. rewrite length_app. cbn [length].
      pose proof (JsMap.delete_Permutation key v cache Hn Ev) as Hp. apply Permutation_length in Hp. cbn [length] in Hp. lia.
    + intros k w. rewrite JsMap.get_set, JsMap.get_delete. case_decide; [intros [= <-]; subst; by apply Hc|]. by apply Hc.
  - set (pruned := pruneMapToMaxSize _ _).
    assert (Hpl : Z.of_nat (length pruned) ≤ CRON_EVAL_CACHE_MAX - 1) by (apply prune_bound; unfold CRON_EVAL_CACHE_MAX; lia).
    assert (Hpn : NoDup (JsMap.keys pruned)) by by apply prune_NoDup.
    assert (Hpc : ∀ k v, JsMap.get k pruned = Some v → build k = Some v) by (intros k v E; apply prune_get in E; eauto).
    destruct (build key) as [v|] eqn:Eb; cbn [fst snd]; (split; [done|]); split_and!; try done; try lia.
    + by apply JsMap.NoDup_keys_set.
    + pose proof (JsMap.size_set key v pruned) as Hs. unfold JsMap.size in Hs. case_decide; lia.
    + intros k w. rewrite JsMap.get_set. case_decide; [intros [= <-]; by subst|]. by apply Hpc.
Qed.

(** ** Examples *)

Definition HOUR : Z := 3600000.

(** A library that knows one expression, the full hours of the year 2000 in
    wall time, in a zone that skips the hour from 946710000000 on. *)
Definition gapAt : Z := 946710000000.
Definition gapWall (ms : Z) : Z := if ms <? gapAt then ms else ms + HOUR.

Definition hourly : Cron :=
  {| nextRun := λ ms, let t := (ms / HOUR + 1) * HOUR in
                      if (946684800000 <=? t) && (t <? 978307200000) then Some t else None;
     previousRun := λ ms, let t := ((ms - 1) / HOUR) * HOUR in
                      if (946684800000 <=? t) && (t <? 978307200000) then Some t else None;
     cronMatch := λ ms, (ms mod HOUR =? 0) && (946684800000 <=? ms) && (ms <? 978307200000) |}.

Definition sampleEnv : CronEnv :=
  {| newCron := λ expr _, if bool_decide (expr = "0 * * * *") then Some hourly else None;
     offsetName := λ _ ms, if ms <? gapAt then "GMT" else "GMT+01:00";
     cronWall := λ _, gapWall; intlWall := λ _, gapWall; systemZone := "UTC"; dateParse := λ _, None |}.

Definition hourlySchedule : CronSchedule := CronExpr (Some "0 * * * *") None None.

(** Around the gap, and in a quiet time. *)
Example runs_on_their_side_of_now_witness :
  (946708200000 < 946710000000 ∧ 946706400000 < 946708200000) ∧ 946728000000 < 946731600000.
Proof.
  split; [split|].
  - apply (proj1 (@runs_on_their_side_of_now sampleEnv 10 hourlySchedule 946708200000 946710000000)). vm_compute. reflexivity.
  - apply (proj2 (@runs_on_their_side_of_now sampleEnv 10 hourlySchedule 946708200000 946706400000)). vm_compute. reflexivity.
  - apply (proj1 (@runs_on_their_side_of_now sampleEnv 10 hourlySchedule 946728000000 946731600000)). vm_compute. reflexivity.
Defined.

Example interval_runs_on_grid_witness :
  @computeNextRunAtMs sampleEnv 10 (Every (jsnum_of_Z 60000) (Some (jsnum_of_Z 1000))) 61000 = inr (Some 121000) ∧
  ∀ k, 0 ≤ k → 61000 < 1000 + k * 60000 → 121000 ≤ 1000 + k * 60000.
Proof.
  split; [vm_compute; reflexivity|].
  exact (proj2 (proj2 (@interval_runs_on_grid sampleEnv 10 60000 1000 61000 ltac:(done) ltac:(done) ltac:(done)))).
Defined.

(** A library that knows one occurrence. *)
Definition once : Cron :=
  {| nextRun := λ ms, if ms <? 5 then Some 5 else None; previousRun := λ ms, if 5 <? ms then Some 5 else None;
     cronMatch := λ ms, ms =? 5 |}.

Example cron_searches_end_witness :
  (∃ r, ∀ k, @resolveCronRunAtTransitionMs sampleEnv (11 + k) once "UTC" (-3) = Some r) ∧
  (∃ r, ∀ k, @walkBack sampleEnv (11 + k) once "UTC" 20 9 = Some r).
Proof.
  assert (Hhi : ∀ ms, 6 ≤ ms → cronMatch once ms = false ∧ nextRun once ms = None).
  { intros ms Hms. cbn. by rewrite (proj2 (Z.eqb_neq _ _)), (proj2 (Z.ltb_ge _ _)) by lia. }
  assert (Hlo : ∀ ms, ms ≤ 4 → cronMatch once ms = false ∧ previousRun once ms = None).
  { intros ms Hms. cbn. by rewrite (proj2 (Z.eqb_neq _ _)), (proj2 (Z.ltb_ge _ _)) by lia. }
  split.
  - apply (proj1 (@cron_searches_end sampleEnv once "UTC" 20 4 6 Hhi Hlo (-3) 11 ltac:(cbn; lia) ltac:(cbn; lia))).
  - apply (proj2 (@cron_searches_end sampleEnv once "UTC" 20 4 6 Hhi Hlo 9 11 ltac:(cbn; lia) ltac:(cbn; lia))).
Defined.

Example stagger_examples :
  resolveCronStaggerMs (Some "0 * * * *") None = 300000 ∧ resolveCronStaggerMs (Some "0 9 * * 1") None = 0 ∧
  resolveCronStaggerMs (Some "0 0 */2,5-9/2 * * *") None = 300000 ∧
  resolveCronStaggerMs (Some "0 * * * *") (Some (JNum (jsnum_of_Z 0))) = 0.
Proof. vm_compute. done. Qed.

Example iso_examples :
  hasValidIsoCalendarComponents "2024-02-29T24:00:00.000Z" = true ∧ hasValidIsoCalendarComponents "2023-02-29" = false ∧
  hasValidIsoCalendarComponents "2024-01-01T10:30+0200" = true ∧ hasValidIsoCalendarComponents "2024-01-01T10:30:" = false ∧
  daysFromCivil 2000 3 1 = 11017 ∧ normalizeUtcIso "2024-01-01T10:30" = "2024-01-01T10:30Z".
Proof. vm_compute. done. Qed.
