(* ===== verification/CronJobs.v ===== *)
(** * The scheduling state of automation jobs

    What the scheduler keeps for a job and how it moves on
    ([src/cron/service/jobs-scheduling.ts], [auto-disable.ts],
    [timer-runnable.ts]): staggered slots, the backoff after errors, the repair
    of a tick, the recomputation of next runs, the automatic disabling, due and
    runnable jobs and the wake of the timer.

    Instants that a job stores are integral.  The hash of a job id, the ids of
    stream sources and the reservations of the process are arguments;
    notifications and warnings are a list that grows.  A schedule that throws
    is [inl]. *)
From Stdlib Require Import QArith.Qround.
From S2P Require Import Prelude JsCollections JsStrings NumberCoercion CronSchedule.
Local Open Scope Z_scope.

(** ** Jobs *)

Inductive RunStatus := StatusOk | StatusError | StatusSkipped.

#[export] Instance RunStatus_eq_dec : EqDecision RunStatus.
Proof. solve_decision. Defined.

Inductive PayloadKind := SystemEvent | AgentTurn | Command | Script | Heartbeat | SkillCollectionReview.

#[export] Instance PayloadKind_eq_dec : EqDecision PayloadKind.
Proof. solve_decision. Defined.

Inductive DisableReason := ConsecutiveFailures | ScheduleErrors.

Record AutoDisabled := { ad_reason : DisableReason; ad_atMs : Z; ad_consecutiveErrors : Z }.

(** The fields that the scheduler reads and writes. *)
Record CronJobState := {
  nextRunAtMs : option Z;
  scheduleActivatedAtMs : option Z;
  startupCatchupAtMs : option Z;
  pacedNextRunAtMs : option Z;
  forcePreservedNextRunAtMs : option Z;
  queuedAtMs : option Z;
  runningAtMs : option Z;
  lastRunAtMs : option Z;
  lastRunStatus : option RunStatus;
  lastStatus : option RunStatus;
  lastError : option string;
  lastDurationMs : option Z;
  consecutiveErrors : option Z;
  autoDisabled : option AutoDisabled;
  scheduleErrorCount : option Z;
  streamSourceIdentity : option string
}.

#[export] Instance CronJobState_eta : Eta CronJobState := λ x,
  {| nextRunAtMs := x.(nextRunAtMs); scheduleActivatedAtMs := x.(scheduleActivatedAtMs);
     startupCatchupAtMs := x.(startupCatchupAtMs); pacedNextRunAtMs := x.(pacedNextRunAtMs);
     forcePreservedNextRunAtMs := x.(forcePreservedNextRunAtMs); queuedAtMs := x.(queuedAtMs);
     runningAtMs := x.(runningAtMs); lastRunAtMs := x.(lastRunAtMs); lastRunStatus := x.(lastRunStatus);
     lastStatus := x.(lastStatus); lastError := x.(lastError); lastDurationMs := x.(lastDurationMs);
     consecutiveErrors := x.(consecutiveErrors); autoDisabled := x.(autoDisabled);
     scheduleErrorCount := x.(scheduleErrorCount); streamSourceIdentity := x.(streamSourceIdentity) |}.

Record CronJob := {
  j_id : string;
  j_enabled : option bool;
  j_createdAtMs : Z;
  j_schedule : CronSchedule;
  j_payload : PayloadKind;
  j_mainTarget : bool;
  j_wakeNow : bool;
  j_state : CronJobState
}.

#[export] Instance CronJob_eta : Eta CronJob := λ x,
  {| j_id := x.(j_id); j_enabled := x.(j_enabled); j_createdAtMs := x.(j_createdAtMs); j_schedule := x.(j_schedule);
     j_payload := x.(j_payload); j_mainTarget := x.(j_mainTarget); j_wakeNow := x.(j_wakeNow); j_state := x.(j_state) |}.

Definition isFiniteTimestamp (value : option Z) : bool :=
  match value with Some ms => bool_decide (is_Some (asDateTimestampMs ms)) | None => false end.

Definition hasScheduledNextRunAtMs (value : option Z) : bool :=
  isFiniteTimestamp value && (0 <? default 0 value).

Definition resolveJobLastRunStatus (job : CronJob) : option RunStatus :=
  match job.(j_state).(lastRunStatus) with Some s => Some s | None => job.(j_state).(lastStatus) end.

Definition isJobEnabled (job : CronJob) : bool := default true job.(j_enabled).

(** ** Backoff after errors *)

Definition DEFAULT_ERROR_BACKOFF_SCHEDULE_MS : list Z := [30000; 60000; 300000; 900000; 3600000].

Definition errorBackoffMs (consecutiveErrors : Z) : Z :=
  let idx := (consecutiveErrors - 1) `min` (Z.of_nat (length DEFAULT_ERROR_BACKOFF_SCHEDULE_MS) - 1) in
  default 30000 (DEFAULT_ERROR_BACKOFF_SCHEDULE_MS !! Z.to_nat (0 `max` idx)).

Definition resolveJobErrorBackoffUntilMs (job : CronJob) : option Z :=
  match resolveJobLastRunStatus job, job.(j_state).(lastRunAtMs) with
  | Some StatusError, Some lastRun =>
      if isFiniteTimestamp (Some lastRun) then
        let errors := match job.(j_state).(consecutiveErrors) with Some n => 1 `max` n | None => 1 end in
        let duration := match job.(j_state).(lastDurationMs) with Some d => 0 `max` d | None => 0 end in
        asDateTimestampMs (lastRun + duration + errorBackoffMs errors)
      else None
  | _, _ => None
  end.

(** ** Slots *)

Definition isCron (schedule : CronSchedule) : bool := match schedule with CronExpr _ _ _ => true | _ => false end.
Definition isAt (schedule : CronSchedule) : bool := match schedule with At _ => true | _ => false end.

Definition STAGGER_OFFSET_CACHE_MAX : Z := 4096.

Section jobs.
Context `{CronEnv} (fuel : nat) (jobHash : string → Z).

(** [jobHash] is the first word of the SHA-256 of the id. *)
Definition stableCronOffset (jobId : string) (staggerMs : Z) : Z := jobHash jobId mod staggerMs.

Definition resolveStableCronOffsetMs (jobId : string) (staggerMs : Z) : Z :=
  if staggerMs <=? 1 then 0 else stableCronOffset jobId staggerMs.

(** The same with the cache of offsets. *)
Definition resolveCachedCronOffsetMs (jobId : string) (staggerMs : Z) (cache : list ((Z * string) * Z)) :
    Z * list ((Z * string) * Z) :=
  if staggerMs <=? 1 then (0, cache)
  else match JsMap.get (staggerMs, jobId) cache with
       | Some cached => (cached, cache)
       | None => let offset := stableCronOffset jobId staggerMs in
                 (offset, JsMap.set (staggerMs, jobId) offset
                            (pruneMapToMaxSize cache (jsnum_of_Z (STAGGER_OFFSET_CACHE_MAX - 1))))
       end.

Definition jobOffset (job : CronJob) : Z :=
  match job.(j_schedule) with
  | CronExpr expr _ staggerMs => resolveStableCronOffsetMs job.(j_id) (resolveCronStaggerMs expr staggerMs)
  | _ => 0
  end.

(** Four attempts from a cursor that lies the offset behind. *)
Fixpoint staggeredNext (attempts : nat) (schedule : CronSchedule) (offsetMs nowMs cursorMs : Z) :
    ScheduleError + option Z :=
  match attempts with
  | O => inr None
  | S attempts =>
      match computeNextRunAtMs fuel schedule cursorMs with
      | inl e => inl e
      | inr None => inr None
      | inr (Some baseNext) =>
          let shifted := baseNext + offsetMs in
          if isFiniteTimestamp (Some shifted) && (nowMs <? shifted) then inr (Some shifted)
          else staggeredNext attempts schedule offsetMs nowMs ((cursorMs + 1) `max` (baseNext + 1000))
      end
  end.

Definition computeStaggeredCronNextRunAtMs (job : CronJob) (nowMs : Z) : ScheduleError + option Z :=
  let offsetMs := jobOffset job in
  if negb (isCron job.(j_schedule)) || (offsetMs <=? 0) then computeNextRunAtMs fuel job.(j_schedule) nowMs
  else staggeredNext 4 job.(j_schedule) offsetMs nowMs (0 `max` (nowMs - offsetMs)).

Fixpoint staggeredPrevious (attempts : nat) (schedule : CronSchedule) (offsetMs nowMs cursorMs : Z) :
    ScheduleError + option Z :=
  match attempts with
  | O => inr None
  | S attempts =>
      match computePreviousRunAtMs fuel schedule cursorMs with
      | inl e => inl e
      | inr None => inr None
      | inr (Some basePrevious) =>
          let shifted := basePrevious + offsetMs in
          if isFiniteTimestamp (Some shifted) && (shifted <=? nowMs) then inr (Some shifted)
          else staggeredPrevious attempts schedule offsetMs nowMs (0 `max` (basePrevious - 1000))
      end
  end.

Definition computeStaggeredCronPreviousRunAtMs (job : CronJob) (nowMs : Z) : ScheduleError + option Z :=
  let offsetMs := jobOffset job in
  if negb (isCron job.(j_schedule)) then inr None
  else if offsetMs <=? 0 then computePreviousRunAtMs fuel job.(j_schedule) nowMs
  else staggeredPrevious 4 job.(j_schedule) offsetMs nowMs (0 `max` (nowMs - offsetMs)).

Definition computeStaggeredCronPreviousRunAtOrBeforeMs (job : CronJob) (nowMs : Z) : ScheduleError + option Z :=
  match computeStaggeredCronPreviousRunAtMs job nowMs with
  | inl e => inl e
  | inr previous =>
      let probeMs := nowMs + 1000 in
      if negb (isFiniteTimestamp (Some probeMs)) then inr previous
      else match computeStaggeredCronPreviousRunAtMs job probeMs with
           | inl e => inl e
           | inr boundary =>
               if isFiniteTimestamp boundary && (default 0 boundary <=? nowMs) &&
                  (negb (isFiniteTimestamp previous) || (default 0 previous <? default 0 boundary))
               then inr boundary else inr previous
           end
  end.

Definition isStaggeredCronRunAtMs (job : CronJob) (runAtMs : Z) : ScheduleError + bool :=
  if negb (isCron job.(j_schedule)) || negb (isFiniteTimestamp (Some runAtMs)) then inr false
  else match computeStaggeredCronPreviousRunAtOrBeforeMs job runAtMs with
       | inl e => inl e
       | inr previous => inr (bool_decide (previous = Some runAtMs))
       end.

Definition isPendingErrorBackoffSlot (job : CronJob) (nextRunAtMs nowMs : Z) : bool :=
  match resolveJobErrorBackoffUntilMs job with
  | Some backoffUntilMs => (nowMs <? backoffUntilMs) && (nextRunAtMs <=? backoffUntilMs)
  | None => false
  end.

(** Whether a slot in the future is none of the schedule; an error of the
    schedule keeps the slot. *)
Definition shouldRepairFutureCronNextRunAtMs (job : CronJob) (nowMs : Z) : bool :=
  match job.(j_state).(nextRunAtMs) with
  | None => false
  | Some nextRun =>
      if negb (isCron job.(j_schedule)) || negb (hasScheduledNextRunAtMs (Some nextRun)) || (nextRun <=? nowMs) ||
         bool_decide (is_Some job.(j_state).(queuedAtMs)) || bool_decide (is_Some job.(j_state).(runningAtMs))
      then false
      else if isPendingErrorBackoffSlot job nextRun nowMs then false
      else match computeStaggeredCronNextRunAtMs job nowMs with
           | inr (Some naturalNext) =>
               if negb (isFiniteTimestamp (Some naturalNext)) then false
               else match isStaggeredCronRunAtMs job nextRun with
                    | inl _ | inr true => false
                    | inr false =>
                        if nextRun <? naturalNext then negb (bool_decide (job.(j_payload) = AgentTurn))
                        else if nextRun =? naturalNext then false
                        else match computeStaggeredCronNextRunAtMs job naturalNext with
                             | inr (Some following) =>
                                 let interval := following - naturalNext in
                                 isFiniteTimestamp (Some following) && (0 <? interval) && (following + interval <=? nextRun)
                             | _ => false
                             end
                    end
           | _ => false
           end
  end.

(** [coerced]: the anchor when it is a finite number. *)
Definition resolveEveryAnchorMs (anchorMs : option jsnum) (fallbackAnchorMs : Z) : Z :=
  match anchorMs ≫= coerceFiniteScheduleNumber with
  | Some q => 0 `max` Qfloor q
  | None => if isFiniteTimestamp (Some fallbackAnchorMs) then 0 `max` fallbackAnchorMs else 0
  end.

Definition hasInvalidExplicitEveryAnchor (anchorMs : option jsnum) : bool :=
  match anchorMs with
  | None => false
  | Some a => match coerceFiniteScheduleNumber a with
              | None => true
              | Some q => negb (QArith_base.Qle_bool (QArith_base.inject_Z 0) q)
              end
  end.

Definition fallbackAnchor (job : CronJob) (nowMs : Z) : Z :=
  if isFiniteTimestamp (Some job.(j_createdAtMs)) then job.(j_createdAtMs) else nowMs.

(** [isFiniteTimestamp(next) ? next : undefined] *)
Definition finiteOnly (next : option Z) : option Z := if isFiniteTimestamp next then next else None.

Definition nextEveryRun (job : CronJob) (everyMs : jsnum) (anchorMs : option jsnum) (nowMs : Z) :
    ScheduleError + option Z :=
  if hasInvalidExplicitEveryAnchor anchorMs then inr None
  else match coerceFiniteScheduleNumber everyMs with
       | None => inr None
       | Some everyMsRaw =>
           let every := Qfloor everyMsRaw in
           if every <? 1 then inr None
           else
             let anchor := resolveEveryAnchorMs anchorMs (fallbackAnchor job nowMs) in
             let onGrid :=
               match computeNextRunAtMs fuel (Every (jsnum_of_Z every) (Some (jsnum_of_Z anchor))) nowMs with
               | inl e => inl e
               | inr next => inr (finiteOnly next)
               end in
             match job.(j_state).(lastRunAtMs) with
             | Some lastRun =>
                 if isFiniteTimestamp (Some lastRun) && (anchor <=? lastRun) then
                   let nextFromLastRun := lastRun + every in
                   if negb (isFiniteTimestamp (Some nextFromLastRun)) then inr None
                   else if nowMs <? nextFromLastRun then inr (Some nextFromLastRun) else onGrid
                 else onGrid
             | None => onGrid
             end
       end.

(** A one-shot stays due until it succeeds, and is armed again by a later
    instant. *)
Definition nextAtRun (job : CronJob) (at_ : string) : option Z :=
  let atMs := parseAbsoluteTimeMs at_ in
  match resolveJobLastRunStatus job, job.(j_state).(lastRunAtMs) with
  | Some StatusOk, Some lastRun =>
      if lastRun =? 0 then atMs
      else match atMs with Some ms => if lastRun <? ms then Some ms else None | None => None end
  | _, _ => atMs
  end.

Definition computeJobNextRunAtMs (job : CronJob) (nowMs : Z) : ScheduleError + option Z :=
  if negb (isJobEnabled job) then inr None
  else match job.(j_schedule) with
       | Every everyMs anchorMs => nextEveryRun job everyMs anchorMs nowMs
       | At at_ => inr (nextAtRun job at_)
       | schedule =>
           match computeStaggeredCronNextRunAtMs job nowMs with
           | inl e => inl e
           | inr None => if isCron schedule then computeStaggeredCronNextRunAtMs job (nowMs / 1000 * 1000 + 1000)
                         else inr None
           | inr next => inr (finiteOnly next)
           end
       end.

Definition computeJobPreviousRunAtOrBeforeMs (job : CronJob) (nowMs : Z) : ScheduleError + option Z :=
  if negb (isJobEnabled job) || negb (isCron job.(j_schedule)) then inr None
  else match computeStaggeredCronPreviousRunAtOrBeforeMs job nowMs with
       | inl e => inl e
       | inr previous => inr (finiteOnly previous)
       end.

(** ** Automatic disabling *)

Inductive Notice := AutoDisabledNotice (jobId : string) (reason : DisableReason) (consecutiveErrors : Z).

Definition isSystemOwnedCronPayloadKind (kind : PayloadKind) : bool :=
  match kind with Heartbeat | SkillCollectionReview => true | _ => false end.

Definition autoDisableCronJob (job : CronJob) (reason : DisableReason) (atMs errors : Z) : CronJob * list Notice :=
  if isSystemOwnedCronPayloadKind job.(j_payload) then (job, [])
  else if negb (default false job.(j_enabled)) || bool_decide (is_Some job.(j_state).(autoDisabled)) then (job, [])
  else
    (job <| j_enabled := Some false |>
         <| j_state ::= λ st, st <| nextRunAtMs := None |>
              <| autoDisabled := Some {| ad_reason := reason; ad_atMs := atMs; ad_consecutiveErrors := errors |} |> |>,
     [AutoDisabledNotice job.(j_id) reason errors]).

Definition MAX_CONSECUTIVE_RUN_FAILURES : Z := 10.

Definition isInterval (schedule : CronSchedule) : bool := match schedule with Every _ _ => true | _ => false end.

Definition maybeAutoDisableCronJobAfterRunFailure (job : CronJob) (atMs : Z) : CronJob * list Notice :=
  let errors := default 0 job.(j_state).(consecutiveErrors) in
  if (negb (isCron job.(j_schedule)) && negb (isInterval job.(j_schedule))) || (errors <? MAX_CONSECUTIVE_RUN_FAILURES)
  then (job, []) else autoDisableCronJob job ConsecutiveFailures atMs errors.

Definition MAX_SCHEDULE_ERRORS : Z := 3.

(** [clockMs] is the clock when the error is recorded. *)
Definition recordScheduleComputeError (clockMs : Z) (errText : string) (job : CronJob) : CronJob * list Notice :=
  let errorCount := default 0 job.(j_state).(scheduleErrorCount) + 1 in
  let job := job <| j_state ::= λ st, st <| scheduleErrorCount := Some errorCount |> <| nextRunAtMs := None |>
                                         <| lastError := Some ("schedule error: " +:+ errText) |> |> in
  if MAX_SCHEDULE_ERRORS <=? errorCount then autoDisableCronJob job ScheduleErrors clockMs errorCount else (job, []).

(** The text of an error, as the logger formats it. *)
Context (errorText : ScheduleError → string).

Definition recomputeJobNextRunAtMs (clockMs : Z) (skipScheduleErrorHandling : bool) (job : CronJob) (nowMs : Z) :
    CronJob * bool * list Notice :=
  match computeJobNextRunAtMs job nowMs with
  | inl err =>
      if skipScheduleErrorHandling then (job, false, [])
      else let '(job, notices) := recordScheduleComputeError clockMs (errorText err) job in (job, true, notices)
  | inr newNext =>
      let newNext :=
        if negb (isAt job.(j_schedule)) && bool_decide (resolveJobLastRunStatus job = Some StatusError) &&
           isFiniteTimestamp job.(j_state).(lastRunAtMs)
        then match newNext, resolveJobErrorBackoffUntilMs job with
             | Some next, Some backoffFloor => Some (next `max` backoffFloor)
             | _, _ => newNext
             end
        else newNext in
      let moved := negb (bool_decide (job.(j_state).(nextRunAtMs) = newNext)) in
      let counted := negb (default 0 job.(j_state).(scheduleErrorCount) =? 0) in
      let job := job <| j_state ::= λ st, st <| nextRunAtMs := newNext |> |> in
      (if counted then job <| j_state ::= λ st, st <| scheduleErrorCount := None |> |> else job, moved || counted, [])
  end.

(** ** The repair of a tick *)

Definition CRON_STUCK_RUN_MS : Z := 2 * 60 * 60000.

Record Reservation := { markerAtMs : Z; preserveWhenDisabled : bool }.

(** The reservations of the process, the runs that are active in it, and the
    ids that stream sources get. *)
Record Process := {
  queuedRunReservationsByJobId : list (string * Reservation);
  isCronJobActive : string → bool;
  createCronStreamSourceIdentity : string → string
}.

Definition ownsCronRunMarker (proc : Process) (jobId : string) (marker : Z) (requireForce : bool) : bool :=
  match JsMap.get jobId proc.(queuedRunReservationsByJobId) with
  | Some r => (r.(markerAtMs) =? marker) && (negb requireForce || r.(preserveWhenDisabled))
  | None => false
  end.

Definition repairStreamIdentity (proc : Process) (job : CronJob) : CronJob * bool :=
  match job.(j_schedule), normalizeOptionalString job.(j_state).(streamSourceIdentity) with
  | Stream _ _, None =>
      (job <| j_state ::= λ st, st <| streamSourceIdentity := Some (proc.(createCronStreamSourceIdentity) job.(j_id)) |> |>, true)
  | _, _ => (job, false)
  end.

(** [schedule.anchorMs === normalized] *)
Definition anchorIs (anchorMs : option jsnum) (normalized : Z) : bool :=
  match anchorMs with Some (Fin q) => QArith_base.Qeq_bool q (QArith_base.inject_Z normalized) | _ => false end.

Definition repairAnchor (job : CronJob) (nowMs : Z) : CronJob * bool :=
  match job.(j_schedule) with
  | Every everyMs anchorMs =>
      if hasInvalidExplicitEveryAnchor anchorMs then (job, false)
      else
        let normalized := resolveEveryAnchorMs anchorMs (fallbackAnchor job nowMs) in
        if anchorIs anchorMs normalized then (job, false)
        else (job <| j_schedule := Every everyMs (Some (jsnum_of_Z normalized)) |>
                  <| j_state ::= λ st, st <| pacedNextRunAtMs := None |> <| forcePreservedNextRunAtMs := None |> |>, true)
  | _ => (job, false)
  end.

Definition repairDisabled (proc : Process) (job : CronJob) : CronJob * bool :=
  let st := job.(j_state) in
  let slots := bool_decide (is_Some st.(startupCatchupAtMs)) || bool_decide (is_Some st.(pacedNextRunAtMs)) ||
               bool_decide (is_Some st.(forcePreservedNextRunAtMs)) || bool_decide (is_Some st.(nextRunAtMs)) in
  let dropQueued := match st.(queuedAtMs) with
                    | Some q => negb (ownsCronRunMarker proc job.(j_id) q true)
                    | None => false
                    end in
  let dropRunning := match st.(runningAtMs) with
                     | Some r => negb (ownsCronRunMarker proc job.(j_id) r true) && negb (proc.(isCronJobActive) job.(j_id))
                     | None => false
                     end in
  (job <| j_state ::= λ st, st <| startupCatchupAtMs := None |> <| pacedNextRunAtMs := None |>
         <| forcePreservedNextRunAtMs := None |> <| nextRunAtMs := None |>
         <| queuedAtMs ::= λ q, if dropQueued then None else q |>
         <| runningAtMs ::= λ r, if dropRunning then None else r |> |>,
   slots || dropQueued || dropRunning).

Definition isStuck (proc : Process) (job : CronJob) (nowMs : Z) (marker : option Z) : bool :=
  match marker with
  | Some m => (CRON_STUCK_RUN_MS <? Z.abs (nowMs - m)) && negb (ownsCronRunMarker proc job.(j_id) m false)
  | None => false
  end.

(** The state of an enabled job: the new job, whether it changed, and whether
    the tick leaves it alone. *)
Definition repairEnabled (proc : Process) (job : CronJob) (nowMs : Z) : CronJob * bool * bool :=
  let badNext := bool_decide (is_Some job.(j_state).(nextRunAtMs)) &&
                 negb (hasScheduledNextRunAtMs job.(j_state).(nextRunAtMs)) in
  let job := if badNext then job <| j_state ::= λ st, st <| nextRunAtMs := None |> |> else job in
  let forced := job.(j_state).(forcePreservedNextRunAtMs) in
  let badForced := bool_decide (is_Some forced) &&
                   (negb (isFiniteTimestamp forced) || negb (bool_decide (forced = job.(j_state).(nextRunAtMs)))) in
  let job := if badForced then job <| j_state ::= λ st, st <| forcePreservedNextRunAtMs := None |> |> else job in
  let stuckQueued := isStuck proc job nowMs job.(j_state).(queuedAtMs) in
  let job := if stuckQueued then job <| j_state ::= λ st, st <| queuedAtMs := None |> |> else job in
  let changed := badNext || badForced || stuckQueued in
  if isStuck proc job nowMs job.(j_state).(runningAtMs) then
    let job := job <| j_state ::= λ st, st <| runningAtMs := None |> |> in
    let nextRun := job.(j_state).(nextRunAtMs) in
    let lastRun := job.(j_state).(lastRunAtMs) in
    let alreadyExecutedSlot := hasScheduledNextRunAtMs nextRun && isFiniteTimestamp lastRun &&
                               (default 0 nextRun <=? default 0 lastRun) in
    (job, true, negb alreadyExecutedSlot)
  else (job, changed, false).

Definition normalizeJobTickState (proc : Process) (job : CronJob) (nowMs : Z) : CronJob * bool * bool :=
  let '(job, c1) := repairStreamIdentity proc job in
  let '(job, c2) := repairAnchor job nowMs in
  if negb (isJobEnabled job) then let '(job, c3) := repairDisabled proc job in (job, c1 || c2 || c3, true)
  else let '(job, c3, skip) := repairEnabled proc job nowMs in (job, c1 || c2 || c3, skip).

(** ** Recomputation *)

Definition hasForcePreservedNextRun (st : CronJobState) : bool :=
  isFiniteTimestamp st.(forcePreservedNextRunAtMs) && hasScheduledNextRunAtMs st.(nextRunAtMs) &&
  bool_decide (st.(forcePreservedNextRunAtMs) = st.(nextRunAtMs)).

(** A tick recomputes what is missing, due or to be repaired. *)
Definition recomputeNextRunOf (clockMs : Z) (proc : Process) (nowMs : Z) (job : CronJob) : CronJob * bool * list Notice :=
  let '(job, changed, skip) := normalizeJobTickState proc job nowMs in
  if skip then (job, changed, [])
  else
    let st := job.(j_state) in
    let isDueOrMissing := negb (hasScheduledNextRunAtMs st.(nextRunAtMs)) || (default 0 st.(nextRunAtMs) <=? nowMs) in
    if negb (hasForcePreservedNextRun st) && (isDueOrMissing || shouldRepairFutureCronNextRunAtMs job nowMs)
    then let '(job, c, notices) := recomputeJobNextRunAtMs clockMs false job nowMs in (job, changed || c, notices)
    else (job, changed, []).

(** The jobs of a store, each with [f]; without a store nothing happens. *)
Fixpoint walkJobs (f : CronJob → CronJob * bool * list Notice) (jobs : list CronJob) : list CronJob * bool * list Notice :=
  match jobs with
  | [] => ([], false, [])
  | job :: rest =>
      let '(job, c, notices) := f job in
      let '(rest, c', notices') := walkJobs f rest in
      (job :: rest, c || c', notices ++ notices')
  end.

Definition recomputeNextRuns (clockMs : Z) (proc : Process) (nowMs : Z) (jobs : list CronJob) :=
  walkJobs (recomputeNextRunOf clockMs proc nowMs) jobs.

Record CronMaintenanceOptions := {
  recomputeExpired : bool;
  repairFutureCron : bool;
  preserveExpiredPacedNextRunJobId : option string;
  skipScheduleErrors : bool
}.

Definition hasPendingStartupCatchup (st : CronJobState) : bool :=
  isFiniteTimestamp st.(startupCatchupAtMs) && hasScheduledNextRunAtMs st.(nextRunAtMs) &&
  bool_decide (st.(startupCatchupAtMs) = st.(nextRunAtMs)).

Definition hasPendingPacedNextRun (opts : CronMaintenanceOptions) (job : CronJob) (nowMs : Z) : bool :=
  let st := job.(j_state) in
  isFiniteTimestamp st.(pacedNextRunAtMs) && hasScheduledNextRunAtMs st.(nextRunAtMs) &&
  bool_decide (st.(pacedNextRunAtMs) = st.(nextRunAtMs)) &&
  ((nowMs <? default 0 st.(pacedNextRunAtMs)) || bool_decide (opts.(preserveExpiredPacedNextRunJobId) = Some job.(j_id))).

(** Whether a slot that is past was run already or lies inside a backoff. *)
Definition isSettledSlot (job : CronJob) (nowMs : Z) : bool :=
  let next := default 0 job.(j_state).(nextRunAtMs) in
  let lastRun := job.(j_state).(lastRunAtMs) in
  (isFiniteTimestamp lastRun && (next <=? default 0 lastRun)) ||
  match resolveJobErrorBackoffUntilMs job with
  | Some backoffUntilMs => (nowMs <? backoffUntilMs) && (next <? backoffUntilMs)
  | None => false
  end.

Definition recomputeSingleJobForMaintenance (clockMs : Z) (proc : Process) (opts : CronMaintenanceOptions) (nowMs : Z)
    (job : CronJob) : CronJob * bool * list Notice :=
  let '(job, changed, skip) := normalizeJobTickState proc job nowMs in
  if skip then (job, changed, [])
  else
    let recomputeJob job changed :=
      let '(job, c, notices) := recomputeJobNextRunAtMs clockMs opts.(skipScheduleErrors) job nowMs in
      (job, changed || c, notices) in
    let forced := hasForcePreservedNextRun job.(j_state) in
    let catchup := hasPendingStartupCatchup job.(j_state) in
    let paced := hasPendingPacedNextRun opts job nowMs in
    let dropCatchup := bool_decide (is_Some job.(j_state).(startupCatchupAtMs)) && negb catchup in
    let dropPaced := bool_decide (is_Some job.(j_state).(pacedNextRunAtMs)) && negb paced in
    let job := if dropCatchup then job <| j_state ::= λ st, st <| startupCatchupAtMs := None |> |> else job in
    let job := if dropPaced then job <| j_state ::= λ st, st <| pacedNextRunAtMs := None |> |> else job in
    let changed := changed || dropCatchup || dropPaced in
    if negb (hasScheduledNextRunAtMs job.(j_state).(nextRunAtMs)) then recomputeJob job changed
    else if opts.(repairFutureCron) && negb catchup && negb paced && negb forced &&
            shouldRepairFutureCronNextRunAtMs job nowMs then recomputeJob job changed
    else if opts.(recomputeExpired) && negb catchup && negb forced &&
            (default 0 job.(j_state).(nextRunAtMs) <=? nowMs) &&
            bool_decide (job.(j_state).(queuedAtMs) = None) && bool_decide (job.(j_state).(runningAtMs) = None) &&
            isSettledSlot job nowMs then recomputeJob job changed
    else (job, changed, []).

Definition recomputeNextRunsForMaintenance (clockMs : Z) (proc : Process) (opts : CronMaintenanceOptions) (nowMs : Z)
    (jobs : list CronJob) :=
  walkJobs (recomputeSingleJobForMaintenance clockMs proc opts nowMs) jobs.

(** ** The wake of the timer *)

Record ScheduleSummary := { jobCount : nat; enabledCount : nat; nextWakeAtMs : option Z }.

Definition summarizeJob (sum : ScheduleSummary) (job : CronJob) : ScheduleSummary :=
  let nextRun := job.(j_state).(nextRunAtMs) in
  {| jobCount := S sum.(jobCount);
     enabledCount := if default false job.(j_enabled) then S sum.(enabledCount) else sum.(enabledCount);
     nextWakeAtMs :=
       if isJobEnabled job && hasScheduledNextRunAtMs nextRun
       then match sum.(nextWakeAtMs) with
            | None => nextRun
            | Some wake => Some (wake `min` default 0 nextRun)
            end
       else sum.(nextWakeAtMs) |}.

Definition summarizeCronJobSchedule (jobs : list CronJob) : ScheduleSummary :=
  foldl summarizeJob {| jobCount := 0; enabledCount := 0; nextWakeAtMs := None |} jobs.

(** ** Due and runnable jobs *)

Definition hasActiveCronRun (proc : Process) (job : CronJob) : bool :=
  bool_decide (is_Some job.(j_state).(queuedAtMs)) || bool_decide (is_Some job.(j_state).(runningAtMs)) ||
  proc.(isCronJobActive) job.(j_id).

Definition isJobDue (proc : Process) (job : CronJob) (nowMs : Z) (forced : bool) : bool :=
  if hasActiveCronRun proc job then false
  else if forced then true
  else isJobEnabled job && hasScheduledNextRunAtMs job.(j_state).(nextRunAtMs) &&
       (default 0 job.(j_state).(nextRunAtMs) <=? nowMs).

Definition hasMissedCronSlotSinceLastRun (job : CronJob) (nowMs : Z) : bool :=
  match job.(j_state).(lastRunAtMs) with
  | None => false
  | Some lastRun =>
      match computeJobPreviousRunAtOrBeforeMs job nowMs with
      | inr (Some previous) =>
          if previous <=? lastRun then false
          else match job.(j_state).(scheduleActivatedAtMs) with
               | None => true
               | Some activatedAtMs => activatedAtMs <? previous
               end
      | _ => false
      end
  end.

Definition HEARTBEAT_SKIP_DISABLED : string := "disabled".

Definition isScheduledTerminalOneShotRetry (job : CronJob) (status : RunStatus) (lastRun nextRun : option Z) : bool :=
  match isJobEnabled job, nextRun, lastRun with
  | true, Some next, Some last =>
      if next <=? last then false
      else match status with
           | StatusError => true
           | StatusSkipped => job.(j_mainTarget) && job.(j_wakeNow) &&
                              bool_decide (job.(j_state).(lastError) = Some HEARTBEAT_SKIP_DISABLED)
           | StatusOk => false
           end
  | _, _, _ => false
  end.

Definition isErrorBackoffPending (job : CronJob) (nowMs : Z) : bool :=
  if isAt job.(j_schedule) || negb (bool_decide (resolveJobLastRunStatus job = Some StatusError)) then false
  else match resolveJobErrorBackoffUntilMs job with Some until => nowMs <? until | None => false end.

Record RunnableOptions := { skipJobIds : list string; skipAtIfAlreadyRan : bool; allowCronMissedRunByLastRun : bool }.

(** A one-shot that has run: only its pending catch-up, a newer instant or a
    scheduled retry is left. *)
Definition isTerminalOneShotRunnable (job : CronJob) (at_ : string) (status : RunStatus) (nowMs : Z) : bool :=
  let next := job.(j_state).(nextRunAtMs) in
  let lastRun := job.(j_state).(lastRunAtMs) in
  if hasScheduledNextRunAtMs next && bool_decide (job.(j_state).(startupCatchupAtMs) = next) then default 0 next <=? nowMs
  else
    let newer := match lastRun, next with
                 | Some l, Some n => (l <? n) && bool_decide (parseAbsoluteTimeMs at_ = Some n)
                 | _, _ => false
                 end in
    if newer then default 0 next <=? nowMs
    else if isScheduledTerminalOneShotRetry job status lastRun next
    then match next with Some n => n <=? nowMs | None => false end
    else false.

Definition isRecurringRunnable (opts : RunnableOptions) (job : CronJob) (nowMs : Z) : bool :=
  let next := job.(j_state).(nextRunAtMs) in
  let lastRunStatus := resolveJobLastRunStatus job in
  if isErrorBackoffPending job nowMs then false
  else if hasScheduledNextRunAtMs next && (default 0 next <=? nowMs) then
    match job.(j_state).(lastRunAtMs) with
    | Some lastRun =>
        let alreadyCompletedDueCronSlot :=
          opts.(allowCronMissedRunByLastRun) && isCron job.(j_schedule) &&
          (bool_decide (lastRunStatus = Some StatusOk) || bool_decide (lastRunStatus = Some StatusSkipped)) &&
          (default 0 next <=? lastRun) in
        if negb alreadyCompletedDueCronSlot then true
        else match computeJobPreviousRunAtOrBeforeMs job nowMs with
             | inr (Some latest) => lastRun <? latest
             | _ => false
             end
    | None => true
    end
  else if negb opts.(allowCronMissedRunByLastRun) || negb (isCron job.(j_schedule)) then false
  else hasMissedCronSlotSinceLastRun job nowMs.

Definition isRunnableJob (proc : Process) (opts : RunnableOptions) (nowMs : Z) (job : CronJob) : bool :=
  let next := job.(j_state).(nextRunAtMs) in
  if negb (isJobEnabled job) then false
  else if bool_decide (job.(j_id) ∈ opts.(skipJobIds)) then false
  else if hasActiveCronRun proc job then false
  else if hasScheduledNextRunAtMs next && (nowMs <? default 0 next) &&
          (negb opts.(allowCronMissedRunByLastRun) || bool_decide (job.(j_state).(startupCatchupAtMs) = next)) then false
  else match opts.(skipAtIfAlreadyRan), job.(j_schedule), resolveJobLastRunStatus job with
       | true, At at_, Some status => isTerminalOneShotRunnable job at_ status nowMs
       | _, _, _ => isRecurringRunnable opts job nowMs
       end.

Definition collectRunnableJobs (proc : Process) (opts : RunnableOptions) (nowMs : Z) (jobs : list CronJob) : list CronJob :=
  List.filter (isRunnableJob proc opts nowMs) jobs.
End jobs.

(** ** Lemmas *)

(** What a repair of the tick leaves alone. *)
Record sameRun (job job' : CronJob) : Prop := {
  sr_id : job'.(j_id) = job.(j_id);
  sr_enabled : job'.(j_enabled) = job.(j_enabled);
  sr_payload : job'.(j_payload) = job.(j_payload);
  sr_auto : job'.(j_state).(autoDisabled) = job.(j_state).(autoDisabled);
  sr_lastRun : job'.(j_state).(lastRunAtMs) = job.(j_state).(lastRunAtMs);
  sr_status : resolveJobLastRunStatus job' = resolveJobLastRunStatus job;
  sr_duration : job'.(j_state).(lastDurationMs) = job.(j_state).(lastDurationMs);
  sr_errors : job'.(j_state).(consecutiveErrors) = job.(j_state).(consecutiveErrors);
  sr_count : job'.(j_state).(scheduleErrorCount) = job.(j_state).(scheduleErrorCount);
  sr_cron : isCron job.(j_schedule) = true → job'.(j_schedule) = job.(j_schedule);
  sr_at : isAt job'.(j_schedule) = isAt job.(j_schedule)
}.

#[export] Instance sameRun_refl : Reflexive sameRun.
Proof. by split. Qed.

#[export] Instance sameRun_trans : Transitive sameRun.
Proof.
  intros a b c [] []. split; try congruence. intros Hc. rewrite <-sr_cron0 by done. apply sr_cron1. by rewrite sr_cron0.
Qed.

Lemma sameRun_backoff job job' : sameRun job job' → resolveJobErrorBackoffUntilMs job' = resolveJobErrorBackoffUntilMs job.
Proof. intros []. unfold resolveJobErrorBackoffUntilMs. by rewrite sr_status0, sr_lastRun0, sr_errors0, sr_duration0. Qed.

Lemma hasScheduled_spec n : hasScheduledNextRunAtMs n = true ↔ ∃ ms, n = Some ms ∧ 0 < ms ≤ MAX_DATE_TIMESTAMP_MS.
Proof.
  unfold hasScheduledNextRunAtMs, isFiniteTimestamp, asDateTimestampMs. destruct n as [ms|]; cbn [default from_option id].
  - rewrite andb_true_iff, Z.ltb_lt. split.
    + intros [Hf Hp]. destruct (Z.leb_spec (Z.abs ms) MAX_DATE_TIMESTAMP_MS); [|done]. exists ms. split; [done|lia].
    + intros (x & [= <-] & Hx). destruct (Z.leb_spec (Z.abs ms) MAX_DATE_TIMESTAMP_MS); [split; [done|lia]|lia].
  - split; [done|]. by intros (? & ? & _).
Qed.

Section facts.
Context `{CronEnv} (fuel : nat) (jobHash : string → Z) (errorText : ScheduleError → string).

(** *** Slots lie ahead *)

Lemma staggeredNext_spec schedule offsetMs nowMs t n : ∀ cursorMs,
  staggeredNext fuel n schedule offsetMs nowMs cursorMs = inr (Some t) →
  nowMs < t ∧ ∃ c, computeNextRunAtMs fuel schedule c = inr (Some (t - offsetMs)).
Proof.
  induction n as [|n IH]; intros c; cbn [staggeredNext]; [done|].
  destruct (computeNextRunAtMs fuel schedule c) as [|[b|]] eqn:Eb; try done. destruct (_ && _) eqn:E; [|apply IH].
  intros [= <-]. apply andb_prop in E as [_ E]. apply Z.ltb_lt in E. split; [done|]. exists c.
  by replace (b + offsetMs - offsetMs) with b by lia.
Qed.

Lemma next_future schedule nowMs t : computeNextRunAtMs fuel schedule nowMs = inr (Some t) → nowMs < t.
Proof.
  unfold computeNextRunAtMs. destruct (asDateTimestampMs nowMs); [|done].
  destruct schedule as [at_|everyMs anchorMs|expr tz stagger| |]; try done.
  - destruct (parseAbsoluteTimeMs at_) as [a|]; [|done]. destruct (Z.ltb_spec nowMs a); [by intros [= <-]|done].
  - intros [= E]. by apply nextEvery_future in E.
  - destruct (resolveCronFromSchedule expr tz) as [e|[[cron timezone]|]]; try done. intros [= E]. by apply nextCron_future in E.
Qed.

Lemma staggered_spec job nowMs t : computeStaggeredCronNextRunAtMs fuel jobHash job nowMs = inr (Some t) →
  nowMs < t ∧ ∃ c, computeNextRunAtMs fuel job.(j_schedule) c = inr (Some (t - 0 `max` jobOffset jobHash job)).
Proof.
  unfold computeStaggeredCronNextRunAtMs. destruct (_ || _) eqn:E.
  - intros Ht. split; [by apply next_future in Ht|]. exists nowMs. rewrite Z.max_l; [by rewrite Z.sub_0_r|].
    apply orb_prop in E as [E|E]; [|by apply Z.leb_le]. unfold jobOffset. by destruct (j_schedule job).
  - apply orb_false_elim in E as [_ E]. apply Z.leb_gt in E. intros Ht. apply staggeredNext_spec in Ht.
    by rewrite Z.max_r by lia.
Qed.

Lemma finiteOnly_some next t : finiteOnly next = Some t → next = Some t.
Proof. unfold finiteOnly. by destruct (isFiniteTimestamp next). Qed.

Lemma second_ahead nowMs : nowMs < nowMs / 1000 * 1000 + 1000.
Proof. pose proof (Z.div_mod nowMs 1000). pose proof (Z.mod_pos_bound nowMs 1000). lia. Qed.

Lemma recurring_ahead job nowMs t : computeJobNextRunAtMs fuel jobHash job nowMs = inr (Some t) →
  isAt job.(j_schedule) = false → nowMs < t.
Proof.
  unfold computeJobNextRunAtMs. destruct (isJobEnabled job); [|done]. cbn [negb].
  assert (Hc : ∀ b, (match computeStaggeredCronNextRunAtMs fuel jobHash job nowMs with
    | inl e => inl e
    | inr None => if b : bool then computeStaggeredCronNextRunAtMs fuel jobHash job (nowMs / 1000 * 1000 + 1000) else inr None
    | inr next => inr (finiteOnly next) end) = inr (Some t) → nowMs < t).
  { intros b. destruct (computeStaggeredCronNextRunAtMs fuel jobHash job nowMs) as [|[x|]] eqn:E; [done| |].
    - intros [= Hx%finiteOnly_some]. injection Hx as ->. by apply staggered_spec in E as [? _].
    - destruct b; [|done]. intros [? _]%staggered_spec. pose proof (second_ahead nowMs). lia. }
  destruct (j_schedule job) as [|e a| | |] eqn:Es; cbn [isCron]; intros Ht Hat; try done; try (exact (Hc true Ht)); try (exact (Hc false Ht)).
  clear Hc. unfold nextEveryRun in Ht. destruct (hasInvalidExplicitEveryAnchor a); [done|].
  destruct (coerceFiniteScheduleNumber e) as [q|]; [|done]. destruct (Qfloor q <? 1); [done|].
  destruct (lastRunAtMs (j_state job)) as [l|]; [|clear Hat];
    [destruct (_ && _); [destruct (negb _); [done|];
       destruct (Z.ltb_spec nowMs (l + Qfloor q)); [by injection Ht as <-|]|]|];
    destruct (computeNextRunAtMs fuel (Every _ _) nowMs) as [|[x|]] eqn:Ex; try done;
    injection Ht as Hx%finiteOnly_some; injection Hx as ->; by apply next_future in Ex.
Qed.

(** *** The repair of a tick *)

Lemma repairStream_same proc job : sameRun job (repairStreamIdentity proc job).1 ∧
  (repairStreamIdentity proc job).1.(j_state).(nextRunAtMs) = job.(j_state).(nextRunAtMs) ∧
  (repairStreamIdentity proc job).1.(j_state).(queuedAtMs) = job.(j_state).(queuedAtMs) ∧
  (repairStreamIdentity proc job).1.(j_state).(runningAtMs) = job.(j_state).(runningAtMs).
Proof. unfold repairStreamIdentity. destruct (j_schedule job) eqn:Es; try done. by destruct (normalizeOptionalString _). Qed.

Lemma repairAnchor_same job nowMs : sameRun job (repairAnchor job nowMs).1 ∧
  (repairAnchor job nowMs).1.(j_state).(nextRunAtMs) = job.(j_state).(nextRunAtMs) ∧
  (repairAnchor job nowMs).1.(j_state).(queuedAtMs) = job.(j_state).(queuedAtMs) ∧
  (repairAnchor job nowMs).1.(j_state).(runningAtMs) = job.(j_state).(runningAtMs).
Proof.
  unfold repairAnchor. destruct (j_schedule job) eqn:Es; try done. destruct (hasInvalidExplicitEveryAnchor _); [done|].
  destruct (anchorIs _ _); [done|]. cbn. split; [|done]. split; try done; by rewrite Es.
Qed.

Lemma repairEnabled_same proc job nowMs : sameRun job (repairEnabled proc job nowMs).1.1.
Proof.
  unfold repairEnabled. destruct (bool_decide _ && _); destruct (bool_decide _ && _); cbv zeta;
    destruct (isStuck _ _ _ (queuedAtMs _)), (isStuck _ _ _ (runningAtMs _)); done.
Qed.

Definition noBadSlot (next : option Z) : Prop := next = None ∨ hasScheduledNextRunAtMs next = true.

Lemma repairEnabled_quiet proc job nowMs : noBadSlot job.(j_state).(nextRunAtMs) →
  job.(j_state).(queuedAtMs) = None → job.(j_state).(runningAtMs) = None →
  (repairEnabled proc job nowMs).2 = false ∧
  (repairEnabled proc job nowMs).1.1.(j_state).(nextRunAtMs) = job.(j_state).(nextRunAtMs) ∧
  (repairEnabled proc job nowMs).1.1.(j_state).(queuedAtMs) = None ∧
  (repairEnabled proc job nowMs).1.1.(j_state).(runningAtMs) = None.
Proof.
  intros Hn Hq Hr. unfold repairEnabled.
  replace (bool_decide (is_Some (nextRunAtMs (j_state job))) && _) with false
    by (destruct Hn as [-> | ->]; [done|by rewrite andb_false_r]). cbv zeta.
  destruct (bool_decide _ && _); cbn; rewrite Hq; cbn; rewrite Hr; by cbn.
Qed.

(** An enabled job with a slot and without markers keeps both. *)
Lemma tick_quiet proc job nowMs : isJobEnabled job = true → noBadSlot job.(j_state).(nextRunAtMs) →
  job.(j_state).(queuedAtMs) = None → job.(j_state).(runningAtMs) = None →
  ∃ job' c, normalizeJobTickState proc job nowMs = (job', c, false) ∧ sameRun job job' ∧
    job'.(j_state).(nextRunAtMs) = job.(j_state).(nextRunAtMs) ∧
    job'.(j_state).(queuedAtMs) = None ∧ job'.(j_state).(runningAtMs) = None.
Proof.
  intros He Hn Hq Hr. unfold normalizeJobTickState. destruct (repairStream_same proc job) as (S1 & N1 & Q1 & R1).
  destruct (repairStreamIdentity proc job) as [j1 c1]. cbn [fst] in *.
  destruct (repairAnchor_same j1 nowMs) as (S2 & N2 & Q2 & R2). destruct (repairAnchor j1 nowMs) as [j2 c2]. cbn [fst] in *.
  assert (S : sameRun job j2) by by etrans. assert (isJobEnabled j2 = true) as -> by (unfold isJobEnabled; by rewrite (sr_enabled _ _ S)).
  rewrite Q1, Hq in Q2. rewrite R1, Hr in R2. rewrite N1 in N2.
  destruct (repairEnabled_quiet proc j2 nowMs) as (E & N3 & Q3 & R3); [by rewrite N2|done..|].
  pose proof (repairEnabled_same proc j2 nowMs) as S3. cbn [negb].
  destruct (repairEnabled proc j2 nowMs) as [[j3 c3] skip]. cbn [fst snd] in *. subst skip.
  eexists _, _. split; [done|]. split; [by etrans|]. by rewrite N3, N2.
Qed.

(** *** Maintenance *)

Lemma settled_same job job' nowMs : sameRun job job' → job'.(j_state).(nextRunAtMs) = job.(j_state).(nextRunAtMs) →
  isSettledSlot job' nowMs = isSettledSlot job nowMs.
Proof. intros S N. unfold isSettledSlot. by rewrite N, (sr_lastRun _ _ S), (sameRun_backoff _ _ S). Qed.

Lemma no_repair_of_due job nowMs n : job.(j_state).(nextRunAtMs) = Some n → n ≤ nowMs →
  shouldRepairFutureCronNextRunAtMs fuel jobHash job nowMs = false.
Proof.
  intros Hn Hle. unfold shouldRepairFutureCronNextRunAtMs. rewrite Hn, (proj2 (Z.leb_le n nowMs)) by done.
  by rewrite orb_true_r.
Qed.

(** C21: Maintenance never drops a run that is due: an enabled job whose slot
    has come, that has no marker, has not run since and is not waiting out a
    backoff keeps its slot through every maintenance pass, with any options,
    and stays due (#13992). *)
Theorem due_slot_survives_maintenance clockMs proc opts nowMs job n :
  isJobEnabled job = true → job.(j_state).(nextRunAtMs) = Some n → hasScheduledNextRunAtMs (Some n) = true → n ≤ nowMs →
  hasActiveCronRun proc job = false → isSettledSlot job nowMs = false →
  let job' := (recomputeSingleJobForMaintenance fuel jobHash errorText clockMs proc opts nowMs job).1.1 in
  job'.(j_state).(nextRunAtMs) = Some n ∧ isJobDue proc job' nowMs false = true.
Proof.
  intros He Hn Hs Hle Ha Hset. unfold hasActiveCronRun in Ha. apply orb_false_elim in Ha as [[Hq Hr]%orb_false_elim Hact].
  apply bool_decide_eq_false, eq_None_not_Some in Hq, Hr.
  destruct (tick_quiet proc job nowMs) as (j1 & c & E & S & N1 & Q1 & R1); [done|rewrite Hn; by right|done..|].
  unfold recomputeSingleJobForMaintenance. rewrite E. cbv zeta.
  set (f1 := bool_decide _ && negb (hasPendingStartupCatchup _)).
  set (f2 := bool_decide _ && negb (hasPendingPacedNextRun _ _ _)).
  match goal with |- context [if f2 then ?a else ?b] => set (j3 := if f2 then a else b) end.
  assert (H3 : sameRun j1 j3 ∧ j3.(j_state).(nextRunAtMs) = Some n ∧ j3.(j_state).(queuedAtMs) = None ∧
               j3.(j_state).(runningAtMs) = None).
  { rewrite Hn in N1. subst j3. clearbody f1 f2. clear - N1 Q1 R1. destruct f1, f2; (split; [by split|]); by cbn. }
  clearbody j3 f1 f2. destruct H3 as (S3 & N3 & Q3 & R3). assert (S' : sameRun job j3) by by etrans.
  rewrite N3, Hs. cbn [negb]. rewrite (no_repair_of_due j3 nowMs n N3 Hle), andb_false_r.
  rewrite (settled_same job j3 nowMs S') by congruence. rewrite Hset, andb_false_r. cbn [fst]. split; [done|].
  unfold isJobDue, hasActiveCronRun, isJobEnabled. rewrite Q3, R3, (sr_id _ _ S'), Hact, N3, Hs, (sr_enabled _ _ S').
  unfold isJobEnabled in He. rewrite He. cbn. by apply Z.leb_le.
Qed.

Lemma backoff_after_error job until : resolveJobErrorBackoffUntilMs job = Some until →
  resolveJobLastRunStatus job = Some StatusError ∧ isFiniteTimestamp job.(j_state).(lastRunAtMs) = true.
Proof.
  unfold resolveJobErrorBackoffUntilMs. destruct (resolveJobLastRunStatus job) as [[]|]; try done.
  destruct (lastRunAtMs (j_state job)) as [l|]; [|done]. by destruct (isFiniteTimestamp (Some l)).
Qed.

(** The next run of a recurring job lies ahead of now and not before the
    end of the backoff: after a recomputation that did not fail, whatever the
    job ran into before. *)
Theorem next_run_waits_out_backoff clockMs skip job nowMs newNext t :
  isAt job.(j_schedule) = false → computeJobNextRunAtMs fuel jobHash job nowMs = inr newNext →
  (recomputeJobNextRunAtMs fuel jobHash errorText clockMs skip job nowMs).1.1.(j_state).(nextRunAtMs) = Some t →
  nowMs < t ∧ ∀ until, resolveJobErrorBackoffUntilMs job = Some until → until ≤ t.
Proof.
  intros Hat Hc. unfold recomputeJobNextRunAtMs. rewrite Hc, Hat. cbn [negb andb].
  assert (Hn : ∀ x, newNext = Some x → nowMs < x) by (intros x ->; by eapply recurring_ahead).
  set (final := if _ && _ then _ else newNext).
  assert (Hf : ∀ x, final = Some x → nowMs < x ∧ ∀ until, resolveJobErrorBackoffUntilMs job = Some until → until ≤ x).
  { intros x. subst final. destruct (resolveJobErrorBackoffUntilMs job) as [u|] eqn:Eu.
    - apply backoff_after_error in Eu as [-> ->]. cbn. destruct newNext as [y|]; [|done]. specialize (Hn y eq_refl).
      intros [= <-]. split; [lia|]. intros v [= <-]. lia.
    - intros Hx. split; [|done]. apply Hn. by destruct (_ && _), newNext. }
  clearbody final. destruct (negb (default 0 _ =? 0)); cbn; apply Hf.
Qed.

(** *** Schedules that do not evaluate *)

Definition brokenSchedule (schedule : CronSchedule) (e : ScheduleError) : Prop :=
  match schedule with CronExpr expr tz _ => resolveCronFromSchedule expr tz = inl e | _ => False end.

Lemma explicit_stagger_bounds raw z : normalizeCronStaggerMs raw = Some z → 0 ≤ z ≤ MAX_DATE_TIMESTAMP_MS.
Proof.
  unfold normalizeCronStaggerMs. set (numeric := match raw with Some (JNum n) => n | _ => _ end). clearbody numeric.
  destruct numeric as [q| | |]; try done. unfold asSafeIntegerInRange, safe_integer. cbn [asFiniteNumber jsnum_of_Z].
  rewrite Qfloor_Z. destruct (_ && _); [|done]. destruct (Z.ltb_spec MAX_DATE_TIMESTAMP_MS (0 `max` Qfloor q)); [done|].
  intros [= <-]. lia.
Qed.

Lemma stagger_bounds expr staggerMs : 0 ≤ resolveCronStaggerMs expr staggerMs ≤ MAX_DATE_TIMESTAMP_MS.
Proof.
  unfold resolveCronStaggerMs. destruct (normalizeCronStaggerMs staggerMs) as [z|] eqn:E; [by eapply explicit_stagger_bounds|].
  unfold resolveDefaultCronStaggerMs. destruct (isRecurringTopOfHourCronExpr _); done.
Qed.

Lemma offset_bounds job : 0 ≤ jobOffset jobHash job ≤ MAX_DATE_TIMESTAMP_MS.
Proof.
  unfold jobOffset. destruct (j_schedule job) as [| |expr tz st| |]; try (unfold MAX_DATE_TIMESTAMP_MS; lia).
  pose proof (stagger_bounds expr st). unfold resolveStableCronOffsetMs, stableCronOffset.
  destruct (Z.leb_spec (resolveCronStaggerMs expr st) 1); [lia|].
  pose proof (Z.mod_pos_bound (jobHash (j_id job)) (resolveCronStaggerMs expr st)). lia.
Qed.

Lemma broken_throws job nowMs e : brokenSchedule job.(j_schedule) e → isJobEnabled job = true →
  Z.abs nowMs ≤ MAX_DATE_TIMESTAMP_MS → computeJobNextRunAtMs fuel jobHash job nowMs = inl e.
Proof.
  intros Hb He Hn. unfold computeJobNextRunAtMs. rewrite He. cbn [negb].
  destruct (j_schedule job) as [| |expr tz st| |] eqn:Es; try done. cbn [brokenSchedule] in Hb.
  assert (Hc : ∀ ms, Z.abs ms ≤ MAX_DATE_TIMESTAMP_MS → computeNextRunAtMs fuel (CronExpr expr tz st) ms = inl e).
  { intros ms Hms. unfold computeNextRunAtMs, asDateTimestampMs. rewrite (proj2 (Z.leb_le _ _) Hms). by rewrite Hb. }
  unfold computeStaggeredCronNextRunAtMs. rewrite Es. pose proof (offset_bounds job). destruct (_ || _); [by rewrite Hc|].
  cbn [staggeredNext]. rewrite Hc; [done|lia].
Qed.

Fixpoint runTicks (proc : Process) (job : CronJob) (ticks : list (Z * Z)) : CronJob * list Notice :=
  match ticks with
  | [] => (job, [])
  | (clockMs, nowMs) :: rest =>
      let '(job, _, notices) := recomputeNextRunOf fuel jobHash errorText clockMs proc nowMs job in
      let '(job, notices') := runTicks proc job rest in (job, notices ++ notices')
  end.

(** An enabled job with a broken schedule after [k] errors. *)
Record failing (e : ScheduleError) (k : Z) (job : CronJob) : Prop := {
  fl_enabled : job.(j_enabled) = Some true;
  fl_broken : brokenSchedule job.(j_schedule) e;
  fl_payload : isSystemOwnedCronPayloadKind job.(j_payload) = false;
  fl_next : job.(j_state).(nextRunAtMs) = None;
  fl_queued : job.(j_state).(queuedAtMs) = None;
  fl_running : job.(j_state).(runningAtMs) = None;
  fl_auto : job.(j_state).(autoDisabled) = None;
  fl_count : default 0 job.(j_state).(scheduleErrorCount) = k
}.

Lemma failing_tick proc clockMs nowMs e k job : failing e k job → Z.abs nowMs ≤ MAX_DATE_TIMESTAMP_MS →
  let '(job', _, notices) := recomputeNextRunOf fuel jobHash errorText clockMs proc nowMs job in
  job'.(j_id) = job.(j_id) ∧
  if k <? 2 then failing e (k + 1) job' ∧ notices = []
  else job'.(j_enabled) = Some false ∧ job'.(j_state).(nextRunAtMs) = None ∧
       notices = [AutoDisabledNotice job.(j_id) ScheduleErrors (k + 1)].
Proof.
  intros [F1 F2 F3 F4 F5 F6 F7 F8] Hn.
  destruct (tick_quiet proc job nowMs) as (j1 & c & E & S & N1 & Q1 & R1); [unfold isJobEnabled; by rewrite F1|by left|done..|].
  unfold recomputeNextRunOf. rewrite E. cbv zeta. unfold hasForcePreservedNextRun. rewrite N1, F4. cbn [hasScheduledNextRunAtMs isFiniteTimestamp andb orb negb].
  rewrite andb_false_r. cbn [negb andb].
  assert (Hc : isCron job.(j_schedule) = true) by (unfold brokenSchedule in F2; by destruct (j_schedule job)).
  assert (Hb : brokenSchedule j1.(j_schedule) e) by (by rewrite (sr_cron _ _ S)).
  assert (Hen : isJobEnabled j1 = true) by (unfold isJobEnabled; by rewrite (sr_enabled _ _ S), F1).
  unfold recomputeJobNextRunAtMs. rewrite (broken_throws j1 nowMs e Hb Hen Hn). unfold recordScheduleComputeError.
  rewrite (sr_count _ _ S), F8. change MAX_SCHEDULE_ERRORS with 3.
  destruct (Z.ltb_spec k 2); destruct (Z.leb_spec 3 (k + 1)); try lia.
  - split; [apply S|]. split; [|done]. pose proof S as []. split; cbn; try done; by congruence.
  - unfold autoDisableCronJob. cbn. rewrite (sr_payload _ _ S), F3, (sr_enabled _ _ S), F1, (sr_auto _ _ S), F7. cbn.
    by rewrite (sr_id _ _ S).
Qed.

Lemma disabled_ticks proc ticks job : job.(j_enabled) = Some false → job.(j_state).(nextRunAtMs) = None →
  let '(job', notices) := runTicks proc job ticks in
  job'.(j_enabled) = Some false ∧ job'.(j_state).(nextRunAtMs) = None ∧ notices = [].
Proof.
  revert job; induction ticks as [|[clockMs nowMs] ticks IH]; intros job He Hn; [done|]. cbn [runTicks].
  unfold recomputeNextRunOf, normalizeJobTickState. destruct (repairStream_same proc job) as (S1 & N1 & _).
  destruct (repairStreamIdentity proc job) as [j1 c1]. cbn [fst] in *.
  destruct (repairAnchor_same j1 nowMs) as (S2 & N2 & _). destruct (repairAnchor j1 nowMs) as [j2 c2]. cbn [fst] in *.
  assert (S : sameRun job j2) by by etrans.
  assert (isJobEnabled j2 = false) as -> by (unfold isJobEnabled; by rewrite (sr_enabled _ _ S), He).
  cbn [negb]. destruct (repairDisabled proc j2) as [j3 c3] eqn:E3.
  assert (H3 : j_enabled j3 = Some false ∧ nextRunAtMs (j_state j3) = None).
  { unfold repairDisabled in E3. injection E3 as <- _. cbn. by rewrite (sr_enabled _ _ S), He. }
  specialize (IH j3 (proj1 H3) (proj2 H3)). by destruct (runTicks proc j3 ticks).
Qed.


(** *** The wake of the timer *)

Definition wakes (job : CronJob) : bool := isJobEnabled job && hasScheduledNextRunAtMs job.(j_state).(nextRunAtMs).
Definition jobSlot (job : CronJob) : Z := default 0 job.(j_state).(nextRunAtMs).

Lemma summarize_wake jobs : ∀ sum,
  match (foldl summarizeJob sum jobs).(nextWakeAtMs) with
  | Some w => (sum.(nextWakeAtMs) = Some w ∨ ∃ job, job ∈ jobs ∧ wakes job = true ∧ jobSlot job = w) ∧
              (∀ v, sum.(nextWakeAtMs) = Some v → w ≤ v) ∧ ∀ job, job ∈ jobs → wakes job = true → w ≤ jobSlot job
  | None => sum.(nextWakeAtMs) = None ∧ ∀ job, job ∈ jobs → wakes job = false
  end.
Proof.
  induction jobs as [|job jobs IH]; intros sum; cbn [foldl].
  { destruct (nextWakeAtMs sum) as [w|]; [|by split; [|intros ? ?%elem_of_nil]].
    split; [by left|]. split; [intros v [= <-]; lia|by intros ? ?%elem_of_nil]. }
  specialize (IH (summarizeJob sum job)).
  assert (Hs : nextWakeAtMs (summarizeJob sum job) = if wakes job then
    Some (match nextWakeAtMs sum with None => jobSlot job | Some v => v `min` jobSlot job end) else nextWakeAtMs sum).
  { unfold summarizeJob, wakes, jobSlot. cbn. destruct (_ && _) eqn:E; [|done]. apply andb_prop in E as [_ E].
    apply hasScheduled_spec in E as (ms & -> & _). by destruct (nextWakeAtMs sum). }
  rewrite Hs in IH. destruct (nextWakeAtMs (foldl _ _ _)) as [w|].
  - destruct IH as (H1 & H2 & H3). destruct (wakes job) eqn:Ew.
    + split; [|split].
      * destruct H1 as [[= <-]|(j & ? & ?)]; [|right; exists j; split; [|done]; apply elem_of_cons; by right].
        destruct (nextWakeAtMs sum) as [v|]; [destruct (Z.min_spec v (jobSlot job)) as [[? ->]|[? ->]]; [by left|]|];
          right; exists job; (split; [apply elem_of_cons; by left|done]).
      * intros v Hv. rewrite Hv in H2. specialize (H2 _ eq_refl). lia.
      * intros j [->|Hj]%elem_of_cons Hw; [|by apply H3]. specialize (H2 _ eq_refl).
        destruct (nextWakeAtMs sum); lia.
    + split; [|split; [done|]].
      * destruct H1 as [?|(j & ? & ?)]; [by left|right; exists j; split; [|done]; apply elem_of_cons; by right].
      * intros j [->|Hj]%elem_of_cons Hw; [congruence|by apply H3].
  - destruct IH as [H1 H2]. destruct (wakes job) eqn:Ew; [done|]. split; [done|].
    intros j [->|Hj]%elem_of_cons; [done|by apply H2].
Qed.

(** The timer sleeps past no job: the wake is the least slot among the
    enabled jobs that have one, there is none only if no job has one, and when
    a job is due the wake has come. *)
Theorem wake_is_least_slot proc nowMs jobs :
  match (summarizeCronJobSchedule jobs).(nextWakeAtMs) with
  | Some w => (∃ job, job ∈ jobs ∧ wakes job = true ∧ jobSlot job = w) ∧
              (∀ job, job ∈ jobs → wakes job = true → w ≤ jobSlot job) ∧
              ∀ job, job ∈ jobs → isJobDue proc job nowMs false = true → w ≤ nowMs
  | None => ∀ job, job ∈ jobs → wakes job = false ∧ isJobDue proc job nowMs false = false
  end.
Proof.
  assert (Hdue : ∀ job, isJobDue proc job nowMs false = true → wakes job = true ∧ jobSlot job ≤ nowMs).
  { intros job. unfold isJobDue. destruct (hasActiveCronRun _ _); [done|]. intros [Hw Hn]%andb_prop. split; [done|by apply Z.leb_le]. }
  pose proof (summarize_wake jobs {| jobCount := 0; enabledCount := 0; nextWakeAtMs := None |}) as Hs.
  unfold summarizeCronJobSchedule. destruct (nextWakeAtMs _) as [w|]; cbn in Hs.
  - destruct Hs as ([?|He] & _ & Hm); [done|]. split; [done|]. split; [done|]. intros job Hj [Hw Hl]%Hdue.
    specialize (Hm job Hj Hw). lia.
  - destruct Hs as [_ Hs]. intros job Hj. split; [by apply Hs|]. destruct (isJobDue _ _ _ _) eqn:E; [|done].
    apply Hdue in E as [E _]. by rewrite Hs in E.
Qed.

Definition dueBy (job : CronJob) (nowMs : Z) : Prop := ∃ n, job.(j_state).(nextRunAtMs) = Some n ∧ n ≤ nowMs.

Lemma scheduled_due job nowMs : hasScheduledNextRunAtMs job.(j_state).(nextRunAtMs) = true →
  (default 0 job.(j_state).(nextRunAtMs) <=? nowMs) = true → dueBy job nowMs.
Proof. intros (n & Hn & _)%hasScheduled_spec. unfold dueBy. rewrite Hn. intros Hd%Z.leb_le. eauto. Qed.

Lemma oneshot_due job at_ status nowMs : isTerminalOneShotRunnable job at_ status nowMs = true → dueBy job nowMs.
Proof.
  unfold isTerminalOneShotRunnable.
  destruct (hasScheduledNextRunAtMs _ && _) eqn:E1; [apply andb_prop in E1 as [? _]; by apply scheduled_due|].
  unfold dueBy. destruct (nextRunAtMs _) as [n|]; cbn zeta.
  - destruct (lastRunAtMs _) as [l|]; [destruct (l <? n), (bool_decide (parseAbsoluteTimeMs _ = _))|]; cbn [andb default]; try destruct (isScheduledTerminalOneShotRetry _ _ _ _); try done;
      intros Hd%Z.leb_le; eauto.
  - destruct (lastRunAtMs _); unfold isScheduledTerminalOneShotRetry; destruct (isJobEnabled job); done.
Qed.

Lemma recurring_due opts job nowMs : isRecurringRunnable fuel jobHash opts job nowMs = true →
  isErrorBackoffPending job nowMs = false ∧
  (dueBy job nowMs ∨
   (opts.(allowCronMissedRunByLastRun) = true ∧ isCron job.(j_schedule) = true ∧
    hasMissedCronSlotSinceLastRun fuel jobHash job nowMs = true)).
Proof.
  unfold isRecurringRunnable. destruct (isErrorBackoffPending job nowMs); [done|].
  destruct (hasScheduledNextRunAtMs _ && _) eqn:E1.
  { intros _. apply andb_prop in E1 as [? ?]. split; [done|]. left. by apply scheduled_due. }
  destruct (allowCronMissedRunByLastRun opts), (isCron _); cbn [negb orb]; try done. intros Hm. auto.
Qed.

(** What the scheduler runs may run: a job that it collects is enabled,
    not skipped, has no active run, has waited out its backoff unless it is a
    one-shot, and is due, or has missed a slot since its last run where missed
    slots are replayed. *)
Theorem runnable_jobs_may_run proc opts nowMs jobs job :
  job ∈ collectRunnableJobs fuel jobHash proc opts nowMs jobs →
  job ∈ jobs ∧ isJobEnabled job = true ∧ job.(j_id) ∉ opts.(skipJobIds) ∧ hasActiveCronRun proc job = false ∧
  (isAt job.(j_schedule) = false → resolveJobLastRunStatus job = Some StatusError →
     ∀ until, resolveJobErrorBackoffUntilMs job = Some until → until ≤ nowMs) ∧
  (dueBy job nowMs ∨
   (opts.(allowCronMissedRunByLastRun) = true ∧ isCron job.(j_schedule) = true ∧
    hasMissedCronSlotSinceLastRun fuel jobHash job nowMs = true)).
Proof.
  unfold collectRunnableJobs. rewrite list_elem_of_In, filter_In, <-list_elem_of_In. intros [Hin Hr]. split; [done|].
  unfold isRunnableJob in Hr. destruct (isJobEnabled job) eqn:He; [|done]. cbn [negb] in Hr.
  case_bool_decide as Hsk; [done|]. destruct (hasActiveCronRun proc job); [done|]. do 3 (split; [done|]).
  destruct (_ && _); [done|].
  assert (Hrec : isRecurringRunnable fuel jobHash opts job nowMs = true ∨ (isAt job.(j_schedule) = true ∧ dueBy job nowMs)).
  { destruct (skipAtIfAlreadyRan opts), (j_schedule job), (resolveJobLastRunStatus job); auto.
    right. split; [done|]. by eapply oneshot_due. }
  destruct Hrec as [[Hb Hd]%recurring_due|[Ha Hd]]; [|split; [by rewrite Ha|by left]]. split; [|done].
  intros Ha Hs until Hu. revert Hb. unfold isErrorBackoffPending. rewrite Ha, Hs, bool_decide_eq_true_2, Hu by done.
  cbn. apply Z.ltb_ge.
Qed.
End facts.


(** ** A job at work *)

Definition idleState : CronJobState :=
  {| nextRunAtMs := None; scheduleActivatedAtMs := None; startupCatchupAtMs := None; pacedNextRunAtMs := None;
     forcePreservedNextRunAtMs := None; queuedAtMs := None; runningAtMs := None; lastRunAtMs := None;
     lastRunStatus := None; lastStatus := None; lastError := None; lastDurationMs := None; consecutiveErrors := None;
     autoDisabled := None; scheduleErrorCount := None; streamSourceIdentity := None |}.

Definition reportJob : CronJob :=
  {| j_id := "report"; j_enabled := Some true; j_createdAtMs := 946684800000; j_schedule := hourlySchedule;
     j_payload := AgentTurn; j_mainTarget := false; j_wakeNow := false; j_state := idleState |}.

Definition quietProcess : Process :=
  {| queuedRunReservationsByJobId := []; isCronJobActive := λ _, false; createCronStreamSourceIdentity := λ i, i +:+ ":stream" |}.

Definition anyText (e : ScheduleError) : string := "it does not parse".
Definition fixedHash (jobId : string) : Z := 61000.

(** The slot at 8:00 with its offset of 61 seconds is due at 8:30. *)
Definition dueReport : CronJob := reportJob <| j_state ::= λ st, st <| nextRunAtMs := Some 946713661000 |> |>.

Definition repairAll : CronMaintenanceOptions :=
  {| recomputeExpired := true; repairFutureCron := true; preserveExpiredPacedNextRunJobId := None; skipScheduleErrors := false |}.

Example due_slot_survives_maintenance_witness :
  isJobDue quietProcess
    (@recomputeSingleJobForMaintenance sampleEnv 10 fixedHash anyText 946715400000 quietProcess repairAll 946715400000 dueReport).1.1
    946715400000 false = true.
Proof.
  apply (proj2 (@due_slot_survives_maintenance sampleEnv 10 fixedHash anyText 946715400000 quietProcess repairAll
                  946715400000 dueReport 946713661000 eq_refl eq_refl eq_refl ltac:(done) eq_refl eq_refl)).
Defined.

(** It failed for the fifth time at 8:30; the hour of its backoff ends after
    the slot at 9:01:01. *)
Definition failedReport : CronJob :=
  reportJob <| j_state ::= λ st, st <| lastRunAtMs := Some 946715400000 |> <| lastRunStatus := Some StatusError |>
                                    <| consecutiveErrors := Some 5 |> |>.

Example next_run_waits_out_backoff_witness : 946715400000 < 946719000000 ∧
  ∀ until, resolveJobErrorBackoffUntilMs failedReport = Some until → until ≤ 946719000000.
Proof.
  apply (@next_run_waits_out_backoff sampleEnv 10 fixedHash anyText 0 false failedReport 946715400000 (Some 946717261000) 946719000000);
    vm_compute; reflexivity.
Defined.

Definition brokenReport : CronJob := reportJob <| j_schedule := CronExpr (Some "every hour") None None |>.


Example runnable_jobs_may_run_witness :
  hasActiveCronRun quietProcess dueReport = false ∧ dueBy dueReport 946715400000.
Proof.
  destruct (@runnable_jobs_may_run sampleEnv 10 fixedHash quietProcess
              {| skipJobIds := ["other"]; skipAtIfAlreadyRan := true; allowCronMissedRunByLastRun := false |}
              946715400000 [reportJob; dueReport] dueReport) as (_ & _ & _ & Ha & _ & Hd).
  - vm_compute. left.
  - split; [exact Ha|]. by destruct Hd as [Hd|(? & ? & _)].
Defined.

(** A missing [enabled] counts as enabled, yet the automatic disabling reads it
    as disabled: such a job is never disabled. *)
Example missing_enabled_is_never_auto_disabled reason atMs errors :
  let job := reportJob <| j_enabled := None |> in
  isJobEnabled job = true ∧ autoDisableCronJob job reason atMs errors = (job, []).
Proof. done. Qed.
