(* ===== verification/Effects.v ===== *)
(** * Effectful code

    A small monad for code that reads and writes a state, throws, catches and
    may loop: a computation maps a state to an outcome and a state.  [OutOfFuel]
    is the outcome of a loop that was cut off, and is never caught.  [wp] is the
    weakest precondition with one postcondition for a returned value and one
    for a thrown error; [keeps] says that a computation moves the state only
    along a preorder, whichever way it ends. *)
From S2P Require Import Prelude.

(** An error is what the code asks of it: its identity, where somebody else
    created it, and its text. *)
Record JsError := { errorRef : option nat; errorText : string }.

Definition newError (text : string) : JsError := {| errorRef := None; errorText := text |}.

Inductive Outcome (A : Type) := Ret (a : A) | Throw (e : JsError) | OutOfFuel.

Arguments Ret {A} a.
Arguments Throw {A} e.
Arguments OutOfFuel {A}.

Definition Eff (S A : Type) := S → Outcome A * S.

#[export] Instance Eff_ret {S} : MRet (Eff S) := λ A a s, (Ret a, s).

#[export] Instance Eff_bind {S} : MBind (Eff S) := λ A B k m s,
  match m s with
  | (Ret a, s') => k a s'
  | (Throw e, s') => (Throw e, s')
  | (OutOfFuel, s') => (OutOfFuel, s')
  end.

Section effects.
Context {S : Type}.

Definition throw {A} (e : JsError) : Eff S A := λ s, (Throw e, s).
Definition stuck {A} : Eff S A := λ s, (OutOfFuel, s).
Definition gets {A} (f : S → A) : Eff S A := λ s, (Ret (f s), s).
Definition modify (f : S → S) : Eff S unit := λ s, (Ret tt, f s).

Definition tryCatch {A} (m : Eff S A) (h : JsError → Eff S A) : Eff S A := λ s,
  match m s with
  | (Throw e, s') => h e s'
  | r => r
  end.

(** [try { m } finally { f }] *)
Definition tryFinally {A} (m : Eff S A) (f : Eff S unit) : Eff S A := λ s,
  match m s with
  | (OutOfFuel, s') => (OutOfFuel, s')
  | (r, s') => match f s' with
               | (Ret _, s'') => (r, s'')
               | (Throw e, s'') => (Throw e, s'')
               | (OutOfFuel, s'') => (OutOfFuel, s'')
               end
  end.

(** Runs [g] on the state that [m] leaves, however it ends. *)
Definition after (g : S → S) {A} (m : Eff S A) : Eff S A := λ s, let '(r, s') := m s in (r, g s').

Fixpoint forEach {A} (f : A → Eff S unit) (l : list A) : Eff S unit :=
  match l with
  | [] => mret tt
  | a :: l => f a ;; forEach f l
  end.

Fixpoint mapEff {A B} (f : A → Eff S B) (l : list A) : Eff S (list B) :=
  match l with
  | [] => mret []
  | a :: l => b ← f a; bs ← mapEff f l; mret (b :: bs)
  end.

(** ** Weakest preconditions

    [T] is claimed of a loop that is cut off: [False] says that none is. *)

Definition wp (T : Prop) {A} (m : Eff S A) (Q : A → S → Prop) (E : JsError → S → Prop) (s : S) : Prop :=
  match m s with
  | (Ret a, s') => Q a s'
  | (Throw e, s') => E e s'
  | (OutOfFuel, _) => T
  end.

Lemma wp_ret T {A} (a : A) Q E s : Q a s → wp T (mret a) Q E s.
Proof. done. Qed.

Lemma wp_throw T {A} e (Q : A → S → Prop) (E : JsError → S → Prop) s : E e s → wp T (throw e) Q E s.
Proof. done. Qed.

Lemma wp_gets T {A} (f : S → A) Q E s : Q (f s) s → wp T (gets f) Q E s.
Proof. done. Qed.

Lemma wp_modify T f Q E s : Q tt (f s) → wp T (modify f) Q E s.
Proof. done. Qed.

Lemma wp_bind T {A B} (m : Eff S A) (k : A → Eff S B) Q E s : wp T m (λ a, wp T (k a) Q E) E s → wp T (m ≫= k) Q E s.
Proof. unfold wp, mbind, Eff_bind. by destruct (m s) as [[] s']. Qed.

Lemma wp_bind_inv T {A B} (m : Eff S A) (k : A → Eff S B) Q E s : wp T (m ≫= k) Q E s → wp T m (λ a, wp T (k a) Q E) E s.
Proof. unfold wp, mbind, Eff_bind. by destruct (m s) as [[] s']. Qed.

Lemma wp_mono T {A} (m : Eff S A) (Q Q' : A → S → Prop) (E E' : JsError → S → Prop) s :
  wp T m Q E s → (∀ a s', Q a s' → Q' a s') → (∀ e s', E e s' → E' e s') → wp T m Q' E' s.
Proof. unfold wp. destruct (m s) as [[] s']; auto. Qed.

Lemma wp_catch T {A} (m : Eff S A) h Q E s : wp T m Q (λ e, wp T (h e) Q E) s → wp T (tryCatch m h) Q E s.
Proof. unfold wp, tryCatch. by destruct (m s) as [[] s']. Qed.

Lemma wp_finally T {A} (m : Eff S A) f Q E s :
  wp T m (λ a, wp T f (λ _, Q a) E) (λ e, wp T f (λ _, E e) E) s → wp T (tryFinally m f) Q E s.
Proof. unfold wp, tryFinally. destruct (m s) as [[] s']; [..|done]; by destruct (f s') as [[] s'']. Qed.

Lemma wp_after T {A} g (m : Eff S A) Q E s : wp T m (λ a s', Q a (g s')) (λ e s', E e (g s')) s → wp T (after g m) Q E s.
Proof. unfold wp, after. by destruct (m s) as [[] s']. Qed.

Lemma wp_forEach T {A} (f : A → Eff S unit) (I : list A → S → Prop) E l s :
  I l s → (∀ a l' s', I (a :: l') s' → wp T (f a) (λ _, I l') E s') → wp T (forEach f l) (λ _, I []) E s.
Proof.
  intros Hi Hf. revert s Hi. induction l as [|a l IH]; intros s Hi; [done|]. cbn [forEach]. apply wp_bind.
  eapply wp_mono; [by apply Hf| |done]. cbn. intros _ s' Hi'. by apply IH.
Qed.

Lemma wp_return T {A} (m : Eff S A) Q E s a s' : wp T m Q E s → m s = (Ret a, s') → Q a s'.
Proof. unfold wp. intros Hw He. by rewrite He in Hw. Qed.

(** ** Steps along a preorder *)

Section keeps.
Context (R : S → S → Prop) `{!PreOrder R}.

Definition keeps {A} (m : Eff S A) : Prop := ∀ s, R s (m s).2.

Lemma keeps_ret {A} (a : A) : keeps (mret a).
Proof. intros s. by cbn. Qed.

Lemma keeps_throw {A} e : keeps (throw (A:=A) e).
Proof. intros s. by cbn. Qed.

Lemma keeps_stuck {A} : keeps (stuck (A:=A)).
Proof. intros s. by cbn. Qed.

Lemma keeps_gets {A} (f : S → A) : keeps (gets f).
Proof. intros s. by cbn. Qed.

Lemma keeps_modify f : (∀ s, R s (f s)) → keeps (modify f).
Proof. intros Hf s. apply Hf. Qed.

Lemma keeps_bind {A B} (m : Eff S A) (k : A → Eff S B) : keeps m → (∀ a, keeps (k a)) → keeps (m ≫= k).
Proof.
  intros Hm Hk s. specialize (Hm s). unfold mbind, Eff_bind. destruct (m s) as [[a| |] s']; [|done..].
  etrans; [exact Hm|apply Hk].
Qed.

Lemma keeps_catch {A} (m : Eff S A) h : keeps m → (∀ e, keeps (h e)) → keeps (tryCatch m h).
Proof.
  intros Hm Hh s. specialize (Hm s). unfold tryCatch. destruct (m s) as [[|e|] s']; [done| |done].
  etrans; [exact Hm|apply Hh].
Qed.

Lemma keeps_finally {A} (m : Eff S A) f : keeps m → keeps f → keeps (tryFinally m f).
Proof.
  intros Hm Hf s. specialize (Hm s). unfold tryFinally. destruct (m s) as [[a|e|] s']; cbn in Hm; [..|done];
    specialize (Hf s'); destruct (f s') as [[] s'']; cbn in *; by etrans.
Qed.

Lemma keeps_after {A} g (m : Eff S A) : keeps m → (∀ s, R s (g s)) → keeps (after g m).
Proof. intros Hm Hg s. specialize (Hm s). unfold after. destruct (m s) as [r s']. cbn in *. etrans; [exact Hm|apply Hg]. Qed.

Lemma keeps_forEach {A} (f : A → Eff S unit) l : (∀ a, keeps (f a)) → keeps (forEach f l).
Proof. intros Hf. induction l; [apply keeps_ret|]. cbn [forEach]. by apply keeps_bind. Qed.

Lemma keeps_wp {A} (m : Eff S A) s : keeps m → wp True m (λ _, R s) (λ _, R s) s.
Proof. intros Hm. specialize (Hm s). unfold wp. by destruct (m s) as [[] s']. Qed.
End keeps.

(** A postcondition together with the steps that lead to it. *)
Lemma wp_keeps T (R : S → S → Prop) {A} (m : Eff S A) Q E s : keeps R m → wp T m Q E s →
  wp T m (λ a s', Q a s' ∧ R s s') (λ e s', E e s' ∧ R s s') s.
Proof. intros Hm. specialize (Hm s). unfold wp. by destruct (m s) as [[] s']. Qed.
End effects.
