(* ===== verification/AgentMessages.v ===== *)
(** * Messages, events and hooks of the agent loop

    The data that the loop of an agent works on
    ([packages/agent-core/src/types.ts]), its pure functions on messages
    ([agent-loop.ts], [turn-interruption.ts], [reasoning.ts]), and the class of
    what surrounds it: the listeners, the provider, the tools and the hooks of a
    configuration.

    A value of unknown type that the code only passes on is a [Val].  Timestamps
    and usage are left out.  [ref] names the object of a message where somebody
    else made it; the objects that the loop makes have none. *)
From Stdlib Require Import Strings.Ascii.
From S2P Require Import Prelude JsStrings Effects.

Definition Val := string.

(** ** Messages *)

Inductive Part := PText (text : string) | PImage (image : Val).

Inductive Content := CString (text : string) | CParts (parts : list Part).

Record AgentToolCall := { tc_id : string; tc_name : string; tc_arguments : Val }.

Inductive Block := BText (text : string) | BThinking (thinking : Val) | BCall (call : AgentToolCall).

Inductive StopReason := ReasonStop | ReasonLength | ReasonToolUse | ReasonError | ReasonAborted.

#[export] Instance StopReason_eq_dec : EqDecision StopReason.
Proof. solve_decision. Defined.

Record AssistantMessage := {
  a_content : list Block;
  a_stopReason : StopReason;
  a_responseId : option string;
  a_turnId : option string;
  a_errorMessage : option string;
  a_model : string;
  a_network : bool;
  a_turnTainted : bool
}.

#[export] Instance AssistantMessage_eta : Eta AssistantMessage := λ m,
  {| a_content := m.(a_content); a_stopReason := m.(a_stopReason); a_responseId := m.(a_responseId);
     a_turnId := m.(a_turnId); a_errorMessage := m.(a_errorMessage); a_model := m.(a_model);
     a_network := m.(a_network); a_turnTainted := m.(a_turnTainted) |}.

Record ToolLoopIntervention := { i_toolCallId : string; i_reason : string; i_rest : Val }.

(** [details] of a result; [DValue] is what a tool or a hook gave. *)
Inductive Details :=
| DEmpty
| DAdmission
| DSteering
| DToolLoop (intervention : ToolLoopIntervention)
| DValue (v : Val).

(** [r_ack] is the acknowledgement that is attached to the object. *)
Record AgentToolResult := {
  r_content : list Part;
  r_details : Details;
  r_terminate : option bool;
  r_ack : option nat
}.

#[export] Instance AgentToolResult_eta : Eta AgentToolResult := λ r,
  {| r_content := r.(r_content); r_details := r.(r_details); r_terminate := r.(r_terminate); r_ack := r.(r_ack) |}.

(** [tr_network]: the content comes from the network. *)
Record ToolResultMessage := {
  tr_toolCallId : string;
  tr_toolName : string;
  tr_content : list Part;
  tr_details : Details;
  tr_isError : bool;
  tr_network : bool;
  tr_ack : option nat
}.

(** Every other role is [MCustom]; [network] and [tainted] are its metadata. *)
Inductive AgentMessage :=
| MUser (ref : option nat) (content : Content)
| MAssistant (ref : option nat) (m : AssistantMessage)
| MToolResult (ref : option nat) (m : ToolResultMessage)
| MCustom (ref : option nat) (role customType : string) (content : Content) (network tainted : bool).

Definition messageRef (m : AgentMessage) : option nat :=
  match m with MUser r _ | MAssistant r _ | MToolResult r _ | MCustom r _ _ _ _ _ => r end.

(** ** Configuration *)

Inductive ThinkingLevel := LevelOff | LevelMinimal | LevelLow | LevelMedium | LevelHigh | LevelXhigh | LevelMax.

(** [thinkingLevelMap.off]: absent, [null] or a level; the last fields tell
    which of the models with a contract of its own a model is. *)
Record Model := {
  model_id : string;
  model_anthropic : bool;
  model_bedrock : bool;
  model_offLevel : option (option ThinkingLevel);
  model_isFable5 : bool;
  model_isSonnet5 : bool;
  model_isOpus5 : bool
}.

Definition resolveAgentReasoningOption (model : Model) (thinkingLevel : ThinkingLevel) : option ThinkingLevel :=
  match thinkingLevel with
  | LevelOff =>
      let offFallback :=
        match model.(model_offLevel) with
        | Some (Some level) => Some level
        | _ => if (model.(model_anthropic) || model.(model_bedrock)) && model.(model_isFable5) then Some LevelLow else None
        end in
      match offFallback with
      | Some LevelOff | None =>
          if match model.(model_offLevel) with Some None => false | _ => true end ||
             (model.(model_anthropic) && (model.(model_isSonnet5) || model.(model_isOpus5)))
          then Some LevelOff else None
      | Some level => Some level
      end
  | level => Some level
  end.

Inductive ToolExecutionMode := Sequential | Parallel.

#[export] Instance ToolExecutionMode_eq_dec : EqDecision ToolExecutionMode.
Proof. solve_decision. Defined.

(** [t_preparer]: an execution in two phases is attached to the tool. *)
Record AgentTool := {
  t_ref : nat;
  t_name : string;
  t_executionMode : option ToolExecutionMode;
  t_hideFromChannelProgress : bool;
  t_network : bool;
  t_preparer : bool
}.

Record AgentContext := { c_systemPrompt : string; c_messages : list AgentMessage; c_tools : list AgentTool }.

#[export] Instance AgentContext_eta : Eta AgentContext := λ c,
  {| c_systemPrompt := c.(c_systemPrompt); c_messages := c.(c_messages); c_tools := c.(c_tools) |}.

Record AgentLoopConfig := {
  cfg_model : Model;
  cfg_thinkingLevel : option ThinkingLevel;
  cfg_reasoning : option ThinkingLevel;
  cfg_toolExecution : ToolExecutionMode
}.

#[export] Instance AgentLoopConfig_eta : Eta AgentLoopConfig := λ c,
  {| cfg_model := c.(cfg_model); cfg_thinkingLevel := c.(cfg_thinkingLevel); cfg_reasoning := c.(cfg_reasoning);
     cfg_toolExecution := c.(cfg_toolExecution) |}.

Record AgentLoopTurnUpdate := {
  u_context : option AgentContext;
  u_model : option Model;
  u_thinkingLevel : option ThinkingLevel
}.

(** ** Events *)

Inductive AgentEvent :=
| AgentStart
| AgentEnd (messages : list AgentMessage)
| TurnStart
| TurnEnd (message : AgentMessage) (toolResults : list ToolResultMessage)
| MessageStart (message : AgentMessage)
| MessageUpdate (message : AgentMessage)
| MessageEnd (message : AgentMessage)
| ToolExecutionStart (toolCallId toolName : string) (args : Val) (hide : bool)
| ToolExecutionEnd (toolCallId toolName : string) (result : AgentToolResult) (isError executionStarted argumentError hide : bool).

(** An event of the provider: the first one with its partial message, one in
    between, and the two that end a stream. *)
Inductive StreamEvent :=
| EvStart (partial : AssistantMessage)
| EvTextDelta (contentIndex : nat) (delta : string) (partial : option AssistantMessage)
| EvBlock (partial : AssistantMessage)
| EvTerminal.

(** ** Functions on messages *)

(** [content[contentIndex] = ...] on a copy; past the end the array has holes,
    which the model fills with empty text. *)
Definition appendTextDeltaToAssistantMessage (message : AssistantMessage) (contentIndex : nat) (delta : string) :
    AssistantMessage :=
  let content := message.(a_content) ++ replicate (S contentIndex - length message.(a_content)) (BText EmptyString) in
  let block := match message.(a_content) !! contentIndex with
               | Some (BText text) => BText (text +:+ delta)
               | _ => BText delta
               end in
  message <| a_content := <[contentIndex := block]> content |>.

Definition resolveAssistantMessageUpdate (event : StreamEvent) (currentMessage : AssistantMessage) : AssistantMessage :=
  match event with
  | EvTextDelta _ _ (Some partial) | EvBlock partial | EvStart partial => partial
  | EvTextDelta contentIndex delta None => appendTextDeltaToAssistantMessage currentMessage contentIndex delta
  | EvTerminal => currentMessage
  end.

Definition isCall (block : Block) : bool := match block with BCall _ => true | _ => false end.

Definition toolCallsOf (message : AssistantMessage) : list AgentToolCall :=
  omap (λ block, match block with BCall call => Some call | _ => None end) message.(a_content).

(** The state of a provider that depends on the content is left out. *)
Definition removeNonExecutableToolCalls (message : AssistantMessage) : AssistantMessage :=
  if bool_decide (message.(a_stopReason) = ReasonToolUse) then message
  else message <| a_content ::= List.filter (λ block, negb (isCall block)) |>.

Definition isNonBlank (s : option string) : bool :=
  match s with Some s => negb (bool_decide (js_trim s = EmptyString)) | None => false end.

Definition hasTurnIdentity (message : AssistantMessage) : bool :=
  negb (bool_decide (message.(a_stopReason) = ReasonToolUse)) || isNonBlank message.(a_responseId) ||
  isNonBlank message.(a_turnId).

(** [uuid] is the identity that a turn gets where it has none. *)
Definition ensureToolTurnIdentity (uuid : string) (message : AssistantMessage) : AssistantMessage :=
  if hasTurnIdentity message then message else message <| a_turnId := Some uuid |>.

Definition toolResultTaintsTurn (message : ToolResultMessage) : bool := message.(tr_network).

(** The first message from the end that decides: a user's, or one with a
    mark. *)
Fixpoint taintedFromEnd (reversed : list AgentMessage) : bool :=
  match reversed with
  | [] => false
  | MUser _ _ :: _ => false
  | MAssistant _ m :: rest => if m.(a_turnTainted) || m.(a_network) then true else taintedFromEnd rest
  | MToolResult _ m :: rest => if m.(tr_network) then true else taintedFromEnd rest
  | MCustom _ _ _ _ network tainted :: rest => if tainted || network then true else taintedFromEnd rest
  end.

Definition isActiveTurnTainted (messages : list AgentMessage) : bool := taintedFromEnd (reverse messages).

Definition withAssistantTurnTaint (message : AssistantMessage) (tainted : bool) : AssistantMessage :=
  if tainted then message <| a_turnTainted := true |> else message.

Definition createFailureMessage (model : Model) (error : JsError) (aborted : bool) : AssistantMessage :=
  {| a_content := [BText EmptyString]; a_stopReason := if aborted then ReasonAborted else ReasonError;
     a_responseId := None; a_turnId := None; a_errorMessage := Some error.(errorText); a_model := model.(model_id);
     a_network := false; a_turnTainted := false |}.

Definition NEW_LINE : string := String "010"%char EmptyString.
Definition BLANK_LINE : string := NEW_LINE +:+ NEW_LINE.

Definition TURN_ABORTED : string := "openclaw:turn-aborted".

Definition INTERRUPTED_TURN_GUIDANCE : string :=
  "<turn_aborted>" +:+ NEW_LINE +:+
  "The previous turn was interrupted. Any running background processes may still be active. If any tools or commands were aborted, they may have partially executed."
  +:+ NEW_LINE +:+ "</turn_aborted>".

Definition createInterruptedTurnMessage : AgentMessage :=
  MCustom None "custom" TURN_ABORTED (CString INTERRUPTED_TURN_GUIDANCE) false false.

Definition normalizeCoreContextMessage (message : AgentMessage) : AgentMessage :=
  match message with
  | MCustom _ role customType content _ _ =>
      if bool_decide (role = "custom") && bool_decide (customType = TURN_ABORTED)
      then MUser None (match content with CString text => CParts [PText text] | parts => parts end)
      else message
  | _ => message
  end.

Definition normalizeCoreContextMessages (messages : list AgentMessage) : list AgentMessage :=
  normalizeCoreContextMessage <$> messages.

(** ** What surrounds the loop *)

Inductive QueueMode := ModeAll | ModeOneAtATime.

Record BeforeToolCallResult := { block : bool; blockReason : option string }.

Record AfterToolCallResult := {
  ar_content : option (list Part);
  ar_details : option Details;
  ar_isError : option bool;
  ar_terminate : option bool
}.

(** [admitLifecycle]: callbacks for calls that start or are skipped come with
    the admission. *)
Record BatchAdmission := { admitIntervention : option ToolLoopIntervention; admitLifecycle : bool }.

(** How an execution in two phases answers its preparation: at once, or with the
    arguments it will run on. *)
Inductive Preparation :=
| PreparedResult (result : AgentToolResult) (isError : bool)
| PreparedError (error : JsError)
| PreparedReady (args : Val).

(** How such an execution begins: its body starts, or it ends before. *)
Inductive Beginning := BodyStarts | EndsEarly (result : JsError + AgentToolResult).

(** The hooks that may be missing. *)
Inductive Hook :=
| HookSteering
| HookFollowUp
| HookCancellation
| HookTransformContext
| HookPrepareNextTurn
| HookShouldStop
| HookDeferredTool
| HookBeforeToolBatch
| HookBeforeToolCall
| HookAfterToolCall
| HookAfterToolOutcome.

(** What the code calls, with the type of the answer.  An asynchronous call is
    one operation: what else happens until its promise settles is part of it.
    [Tick] is what happens at an [await] of the code's own functions. *)
Inductive Op : Type → Type :=
| Tick : Op unit
| EmitEvent (event : AgentEvent) : Op (option JsError)
| GetSteeringMessages : Op (JsError + list AgentMessage)
| GetFollowUpMessages : Op (JsError + list AgentMessage)
| ConsumeCancellation (message : AgentMessage) : Op bool
| TransformContext (messages : list AgentMessage) : Op (JsError + list AgentMessage)
| OpenStream (config : AgentLoopConfig) (ctx : AgentContext) : Op (JsError + unit)
| NextStreamEvent : Op (JsError + option StreamEvent)
| StreamResult : Op (JsError + AssistantMessage)
| Uuidv7 : Op string
| PrepareNextTurn (message : AssistantMessage) (toolResults : list ToolResultMessage) (ctx : AgentContext)
    (news : list AgentMessage) : Op (JsError + option AgentLoopTurnUpdate)
| ShouldStopAfterTurn (message : AssistantMessage) (toolResults : list ToolResultMessage) (ctx : AgentContext)
    (news : list AgentMessage) : Op (JsError + bool)
| ResolveDeferredTool (message : AssistantMessage) (c : AgentToolCall) (ctx : AgentContext) : Op (JsError + option AgentTool)
| PrepareArguments (tool : AgentTool) (args : Val) : Op (JsError + Val)
| ValidateToolArguments (tool : AgentTool) (c : AgentToolCall) : Op (JsError + Val)
| BeforeToolBatch (message : AssistantMessage) (calls : list (AgentToolCall * Val * AgentTool)) (ctx : AgentContext) :
    Op (JsError + option BatchAdmission)
| CommitReadyCall (toolCallId : string) (args : Val) : Op (option JsError)
| ReleaseSkippedCalls (toolCallIds : list string) : Op unit
| BeforeToolCall (message : AssistantMessage) (c : AgentToolCall) (args : Val) (ctx : AgentContext) :
    Op (JsError + option BeforeToolCallResult)
| PrepareExecution (tool : AgentTool) (c : AgentToolCall) (args : Val) : Op (JsError + Preparation)
| BeginExecution (index : nat) (tool : AgentTool) : Op Beginning
| StartTool (index : nat) (tool : AgentTool) (c : AgentToolCall) (args : Val) : Op unit
| ToolOutcome (index : nat) : Op (JsError + AgentToolResult)
| NextToWake (indices : list nat) : Op nat
| DisposeSource (index : nat) : Op unit
| AfterToolCall (message : AssistantMessage) (c : AgentToolCall) (args : Val) (result : AgentToolResult) (isError : bool)
    (ctx : AgentContext) : Op (JsError + option AfterToolCallResult)
| AfterToolOutcome (message : AssistantMessage) (c : AgentToolCall) (args : Val) (result : AgentToolResult)
    (isError executionStarted argumentError : bool) (ctx : AgentContext) : Op (JsError + option AfterToolCallResult).

(** A world, and how it answers.  The signal of the run is part of it. *)
Class LoopEnv (W : Type) := {
  perform : ∀ A, Op A → W → A * W;
  aborted : W → bool;
  abortReason : W → JsError;
  turnHandoff : W → bool;
  has : Hook → bool
}.

Arguments perform {W _ A} o w.

(** A signal that is aborted stays so. *)
Class AbortSticky (W : Type) `{LoopEnv W} : Prop :=
  aborted_sticky : ∀ A (o : Op A) (w : W), aborted w = true → aborted (perform o w).2 = true.
