(* ===== verification/ToolBatch.v ===== *)
(** * Tool calls of one assistant message

    How the calls of an assistant message are resolved, validated, admitted,
    executed in order or at once, skipped and answered
    ([packages/agent-core/src/agent-loop.ts], from [executeToolCalls] on).

    A call is named by its position among the calls of the message.  Besides the
    world, the state holds the context that the code shares with its hooks and a
    trace of what it did.  Updates of a running tool are not modelled. *)
From S2P Require Import Prelude JsStrings Effects AgentMessages.

(** ** State *)

Inductive Obs :=
| OEvent (event : AgentEvent)
| ORequest (messages : list AgentMessage)
| OCancelled (message : AgentMessage)
| OCommit (toolCallId : string)
| ORelease (toolCallIds : list string)
| OPrepared (index : nat)
| OBody (index : nat)
| ODispose (index : nat).

Inductive ResolvedToolCallOutcome := ResolvedTool (tool : option AgentTool) | ResolvedError (error : JsError).

Record PreparedToolCall := { p_index : nat; p_call : AgentToolCall; p_tool : AgentTool; p_args : Val }.

Record ImmediateToolCallOutcome := { im_result : AgentToolResult; im_isError : bool; im_argumentError : bool }.

Definition ValidatedToolCallOutcome : Type := PreparedToolCall + ImmediateToolCallOutcome.

Record LoopState (W : Type) := {
  world : W;
  trace : list Obs;
  context : AgentContext;
  newMessages : list AgentMessage;
  criticalToolLoopSeen : bool;
  resolved : list (nat * ResolvedToolCallOutcome);
  validated : list (nat * ValidatedToolCallOutcome);
  disposed : list nat
}.

Arguments world {W}.
Arguments trace {W}.
Arguments context {W}.
Arguments newMessages {W}.
Arguments criticalToolLoopSeen {W}.
Arguments resolved {W}.
Arguments validated {W}.
Arguments disposed {W}.

#[export] Instance LoopState_eta {W} : Eta (LoopState W) := λ s,
  {| world := s.(world); trace := s.(trace); context := s.(context); newMessages := s.(newMessages);
     criticalToolLoopSeen := s.(criticalToolLoopSeen); resolved := s.(resolved); validated := s.(validated);
     disposed := s.(disposed) |}.

Fixpoint lookupCall {A} (i : nat) (m : list (nat * A)) : option A :=
  match m with
  | [] => None
  | (j, a) :: m => if bool_decide (j = i) then Some a else lookupCall i m
  end.

(** What a finalized call is, on its way to a message. *)
Record FinalizedToolCallOutcome := {
  f_call : AgentToolCall;
  f_result : AgentToolResult;
  f_isError : bool;
  f_executionStarted : bool;
  f_argumentError : bool;
  f_hide : bool;
  f_network : bool
}.

#[export] Instance FinalizedToolCallOutcome_eta : Eta FinalizedToolCallOutcome := λ f,
  {| f_call := f.(f_call); f_result := f.(f_result); f_isError := f.(f_isError);
     f_executionStarted := f.(f_executionStarted); f_argumentError := f.(f_argumentError); f_hide := f.(f_hide);
     f_network := f.(f_network) |}.

Record ExecutedToolCallOutcome := {
  x_result : AgentToolResult;
  x_isError : bool;
  x_executionStarted : bool;
  x_callerCancelled : bool
}.

(** A prepared call that is ready to execute, with the arguments it runs on. *)
Record ReadyPreparedToolCall := { rd_prepared : PreparedToolCall; rd_args : Val }.

Inductive FinalizedToolCallEntry :=
| EntryFinal (finalized : FinalizedToolCallOutcome)
| EntryReady (ready : ReadyPreparedToolCall).

Record ExecutedToolCallBatch := {
  b_messages : list ToolResultMessage;
  b_steeringMessages : list AgentMessage;
  b_terminate : bool;
  b_terminateRun : bool;
  b_intervention : option ToolLoopIntervention;
  b_fatal : option JsError
}.

Definition TOOL_LOOP_RECOVERY_TERMINATED_MESSAGE : string :=
  "OpenClaw stopped this run because tool-loop recovery encountered another critical loop. No blocked tool action was executed.".
Definition STEERING_TOOL_SKIP_MESSAGE : string := "Skipped due to queued user message.".
Definition TOOL_ADMISSION_FAILURE_MESSAGE : string := "Tool execution was blocked before launch.".
Definition OPERATION_ABORTED : string := "Operation aborted".

Definition createErrorToolResult (message : string) (details : Details) : AgentToolResult :=
  {| r_content := [PText message]; r_details := details; r_terminate := None; r_ack := None |}.

Definition errorResult (error : JsError) : AgentToolResult := createErrorToolResult error.(errorText) DEmpty.

Definition quoted (s : string) : string := String (Ascii.ascii_of_nat 34) (s +:+ String (Ascii.ascii_of_nat 34) EmptyString).

Section batch.
Context `{LoopEnv W}.

Abbreviation M := (Eff (LoopState W)).

(** ** Calls on the world *)

Definition ask {A} (o : Op A) : M A := λ s, let '(a, w) := perform o s.(world) in (Ret a, s <| world := w |>).

(** A promise: its error is thrown. *)
Definition call {A} (o : Op (JsError + A)) : M A :=
  r ← ask o; match r with inl e => throw e | inr a => mret a end.

Definition isAborted : M bool := gets (λ s, aborted s.(world)).

Definition observe (o : Obs) : M unit := modify (λ s, s <| trace ::= λ t, t ++ [o] |>).

(** [await f()] on a function of the code. *)
Definition awaiting {A} (m : M A) : M A := after (λ s, s <| world ::= λ w, (perform Tick w).2 |>) m.

(** [await hook?.(...)]: a missing hook is [undefined]. *)
Definition awaitHook {A} (hook : Hook) (o : Op (JsError + option A)) : M (option A) :=
  if has hook then call o else ask Tick ;; mret None.

Definition emit (event : AgentEvent) : M unit :=
  observe (OEvent event) ;;
  failed ← ask (EmitEvent event);
  match failed with Some e => throw e | None => mret tt end.

Definition getSteeringAtCheckpoint : M (list AgentMessage) :=
  if has HookSteering then call GetSteeringMessages else mret [].

(** ** Resolution and validation *)

Definition hidesToolCallFromChannelProgress (i : nat) (c : AgentToolCall) : M bool :=
  gets (λ s,
    let tool := match lookupCall i s.(resolved) with
                | Some (ResolvedTool tool) => tool
                | _ => List.find (λ t, bool_decide (t.(t_name) = c.(tc_name))) s.(context).(c_tools)
                end in
    match tool with Some t => t.(t_hideFromChannelProgress) | None => false end).

Definition resolveToolCallTool (message : AssistantMessage) (i : nat) (c : AgentToolCall) : M ResolvedToolCallOutcome :=
  cached ← gets (λ s, lookupCall i s.(resolved));
  match cached with
  | Some resolution => mret resolution
  | None =>
      resolution ← tryCatch
        (shared ← gets context;
         match List.find (λ t, bool_decide (t.(t_name) = c.(tc_name))) shared.(c_tools) with
         | Some tool => mret (ResolvedTool (Some tool))
         | None =>
             resolvedTool ← awaitHook HookDeferredTool (ResolveDeferredTool message c shared);
             match resolvedTool with
             | Some tool =>
                 if bool_decide (tool.(t_name) = c.(tc_name)) then
                   modify (λ s, s <| context ::= λ k, k <| c_tools ::= λ l, l ++ [tool] |> |>) ;;
                   mret (ResolvedTool (Some tool))
                 else throw (newError ("Deferred tool resolver returned " +:+ quoted tool.(t_name) +:+ " for requested " +:+ quoted c.(tc_name)))
             | None => mret (ResolvedTool None)
             end
         end)
        (λ e, mret (ResolvedError e));
      modify (λ s, s <| resolved ::= λ l, (i, resolution) :: l |>) ;;
      mret resolution
  end.

Definition immediate (result : AgentToolResult) (argumentError : bool) : ImmediateToolCallOutcome :=
  {| im_result := result; im_isError := true; im_argumentError := argumentError |}.

Definition validateToolCallForBatchAdmission (message : AssistantMessage) (i : nat) (c : AgentToolCall) :
    M ValidatedToolCallOutcome :=
  resolution ← awaiting (resolveToolCallTool message i c);
  match resolution with
  | ResolvedError e =>
      stopped ← isAborted;
      mret (inr (immediate (if stopped : bool then createErrorToolResult OPERATION_ABORTED DEmpty else errorResult e) false))
  | ResolvedTool None =>
      mret (inr (immediate (createErrorToolResult ("Tool " +:+ c.(tc_name) +:+ " not found") DEmpty) false))
  | ResolvedTool (Some tool) =>
      prepared ← ask (PrepareArguments tool c.(tc_arguments));
      match prepared with
      | inl e => mret (inr (immediate (errorResult e) false))
      | inr arguments =>
          let preparedToolCall := {| tc_id := c.(tc_id); tc_name := c.(tc_name); tc_arguments := arguments |} in
          checked ← ask (ValidateToolArguments tool preparedToolCall);
          match checked with
          | inl e => mret (inr (immediate (errorResult e) true))
          | inr args => mret (inl {| p_index := i; p_call := c; p_tool := tool; p_args := args |})
          end
      end
  end.

(** The validation that the batch has, or a new one, which is not kept. *)
Definition prepareToolCall (message : AssistantMessage) (i : nat) (c : AgentToolCall) : M ValidatedToolCallOutcome :=
  cachedValidation ← gets (λ s, lookupCall i s.(validated));
  stopped ← isAborted;
  let abortedNow := mret (inr (immediate (createErrorToolResult OPERATION_ABORTED DEmpty) false)) in
  if stopped && bool_decide (cachedValidation = None) then abortedNow
  else
    validation ← match cachedValidation with
                 | Some v => mret v
                 | None => awaiting (validateToolCallForBatchAdmission message i c)
                 end;
    match validation with
    | inr outcome => mret (inr outcome)
    | inl prepared =>
        tryCatch
          (shared ← gets context;
           if has HookBeforeToolCall then
               before ← call (BeforeToolCall message c prepared.(p_args) shared);
               stopped ← isAborted;
               if stopped : bool then abortedNow
               else match before with
                    | Some b =>
                        if b.(block)
                        then mret (inr (immediate (createErrorToolResult (match b.(blockReason) with
                                                                          | Some (String _ _ as r) => r
                                                                          | _ => "Tool execution was blocked"
                                                                          end) DEmpty) false))
                        else mret (inl prepared)
                    | None => mret (inl prepared)
                    end
           else stopped ← isAborted; if stopped : bool then abortedNow else mret (inl prepared))
          (λ e, mret (inr (immediate (errorResult e) false)))
    end.

(** ** Outcomes *)

Definition overrideResult (result : AgentToolResult) (r : AfterToolCallResult) : AgentToolResult :=
  {| r_content := default result.(r_content) r.(ar_content);
     r_details := default result.(r_details) r.(ar_details);
     r_terminate := match r.(ar_terminate) with Some t => Some t | None => result.(r_terminate) end;
     r_ack := result.(r_ack) |}.

Definition finalizeToolCallOutcome (message : AssistantMessage) (fin : FinalizedToolCallOutcome) (args : Val) :
    M FinalizedToolCallOutcome :=
  if negb (has HookAfterToolOutcome) then mret fin
  else
      shared ← gets context;
      tryCatch
        (r ← call (AfterToolOutcome message fin.(f_call) args fin.(f_result) fin.(f_isError) fin.(f_executionStarted)
                     fin.(f_argumentError) shared);
         match r with
         | None => mret fin
         | Some r => mret (fin <| f_result := overrideResult fin.(f_result) r |>
                               <| f_isError := default fin.(f_isError) r.(ar_isError) |>)
         end)
        (λ e, mret (fin <| f_result := (errorResult e) <| r_terminate := fin.(f_result).(r_terminate) |> |>
                        <| f_isError := true |>)).

(** The hook for calls that ran. *)
Definition afterExecution (message : AssistantMessage) (p : PreparedToolCall) (executed : ExecutedToolCallOutcome)
    (finalArgs : Val) : M (AgentToolResult * bool) :=
  if executed.(x_executionStarted) && has HookAfterToolCall then
      shared ← gets context;
      tryCatch
        (r ← call (AfterToolCall message p.(p_call) finalArgs executed.(x_result) executed.(x_isError) shared);
         match r with
         | None => mret (executed.(x_result), executed.(x_isError))
         | Some r => mret (overrideResult executed.(x_result) r, default executed.(x_isError) r.(ar_isError))
         end)
        (λ e, mret (errorResult e, true))
  else mret (executed.(x_result), executed.(x_isError)).

Definition executedOutcome (p : PreparedToolCall) (executed : ExecutedToolCallOutcome) (r : AgentToolResult * bool) :
    FinalizedToolCallOutcome :=
  {| f_call := p.(p_call); f_result := r.1; f_isError := r.2; f_executionStarted := executed.(x_executionStarted);
     f_argumentError := false; f_hide := p.(p_tool).(t_hideFromChannelProgress);
     f_network := executed.(x_executionStarted) && negb executed.(x_callerCancelled) && p.(p_tool).(t_network) |}.

Definition finalizeExecutedToolCall (message : AssistantMessage) (p : PreparedToolCall)
    (executed : ExecutedToolCallOutcome) (finalArgs : Val) : M FinalizedToolCallOutcome :=
  r ← afterExecution message p executed finalArgs;
  awaiting (finalizeToolCallOutcome message (executedOutcome p executed r) finalArgs).

Definition emitToolExecutionEnd (fin : FinalizedToolCallOutcome) : M unit :=
  awaiting (emit (ToolExecutionEnd fin.(f_call).(tc_id) fin.(f_call).(tc_name) fin.(f_result) fin.(f_isError)
                    fin.(f_executionStarted) fin.(f_argumentError) fin.(f_hide))).

Definition createToolResultMessage (fin : FinalizedToolCallOutcome) : ToolResultMessage :=
  {| tr_toolCallId := fin.(f_call).(tc_id); tr_toolName := fin.(f_call).(tc_name);
     tr_content := fin.(f_result).(r_content); tr_details := fin.(f_result).(r_details);
     tr_isError := fin.(f_isError); tr_network := fin.(f_network); tr_ack := fin.(f_result).(r_ack) |}.

Definition emitToolResultMessage (m : ToolResultMessage) : M unit :=
  awaiting (emit (MessageStart (MToolResult None m)) ;; emit (MessageEnd (MToolResult None m))).

Definition emitStart (i : nat) (c : AgentToolCall) : M bool :=
  hide ← hidesToolCallFromChannelProgress i c;
  emit (ToolExecutionStart c.(tc_id) c.(tc_name) c.(tc_arguments) hide) ;;
  mret hide.

(** A call that did not start, with the reason why. *)
Definition unstartedOutcome (c : AgentToolCall) (hide : bool) (text : string) (details : Details) :
    FinalizedToolCallOutcome :=
  {| f_call := c; f_result := createErrorToolResult text details; f_isError := true; f_executionStarted := false;
     f_argumentError := false; f_hide := hide; f_network := false |}.

(** [started]: the arguments of a call whose start was emitted. *)
Definition completeUnstartedToolCall (message : AssistantMessage) (i : nat) (c : AgentToolCall) (started : option Val)
    (text : string) (details : Details) : M (FinalizedToolCallOutcome * ToolResultMessage) :=
  hide ← match started with
         | Some _ => hidesToolCallFromChannelProgress i c
         | None => emitStart i c
         end;
  fin ← awaiting (finalizeToolCallOutcome message (unstartedOutcome c hide text details)
                    (default c.(tc_arguments) started));
  emitToolExecutionEnd fin ;;
  mret (fin, createToolResultMessage fin).

(** ** Launching *)

(** Where the source calls [dispose]: the source of an execution is disposed of
    once. *)
Definition dispose (p : PreparedToolCall) : M unit :=
  gone ← gets (λ s, bool_decide (p.(p_index) ∈ s.(disposed)));
  if gone : bool then mret tt
  else
    modify (λ s, s <| disposed ::= λ l, p.(p_index) :: l |>) ;;
    if p.(p_tool).(t_preparer) then observe (ODispose p.(p_index)) ;; ask (DisposeSource p.(p_index)) else mret tt.

Definition notStarted (result : AgentToolResult) (isError : bool) : ExecutedToolCallOutcome :=
  {| x_result := result; x_isError := isError; x_executionStarted := false; x_callerCancelled := false |}.

Definition earlyOutcome (r : JsError + AgentToolResult) : ExecutedToolCallOutcome :=
  match r with inl e => notStarted (errorResult e) true | inr result => notStarted result false end.

(** The first phase of an execution: the arguments it will run on, or how it
    ended. *)
Definition prepareToolCallExecution (p : PreparedToolCall) : M (ReadyPreparedToolCall + ExecutedToolCallOutcome) :=
  if negb p.(p_tool).(t_preparer) then mret (inl {| rd_prepared := p; rd_args := p.(p_args) |})
  else
    r ← ask (PrepareExecution p.(p_tool) p.(p_call) p.(p_args));
    let disposed := observe (OPrepared p.(p_index)) ;; observe (ODispose p.(p_index)) ;; ask (DisposeSource p.(p_index)) in
    match r with
    | inl e => ask Tick ;; mret (inr (notStarted (errorResult e) true))
    | inr (PreparedError e) => disposed ;; ask Tick ;; mret (inr (notStarted (errorResult e) true))
    | inr (PreparedResult result isError) => disposed ;; ask Tick ;; mret (inr (notStarted result isError))
    | inr (PreparedReady args) => observe (OPrepared p.(p_index)) ;; mret (inl {| rd_prepared := p; rd_args := args |})
    end.

Definition prepareToolCallEntry (message : AssistantMessage) (i : nat) (c : AgentToolCall) : M FinalizedToolCallEntry :=
  hide ← emitStart i c;
  preparation ← awaiting (prepareToolCall message i c);
  match preparation with
  | inr im =>
      fin ← awaiting (finalizeToolCallOutcome message
        {| f_call := c; f_result := im.(im_result); f_isError := im.(im_isError); f_executionStarted := false;
           f_argumentError := im.(im_argumentError); f_hide := hide; f_network := false |} c.(tc_arguments));
      mret (EntryFinal fin)
  | inl p =>
      execution ← awaiting (prepareToolCallExecution p);
      match execution with
      | inr executed => fin ← awaiting (finalizeExecutedToolCall message p executed p.(p_args)); mret (EntryFinal fin)
      | inl ready => mret (EntryReady ready)
      end
  end.

(** How the launch of a call ends: its body runs, or it is over, or the
    admission refused it. *)
Inductive Launch := Launched | LaunchCompleted (executed : ExecutedToolCallOutcome) | LaunchRejected (error : JsError).

(** The callback at the start of a body: the admission is committed and the body
    starts at once. *)
Definition startBody (lifecycle : bool) (r : ReadyPreparedToolCall) : M Launch :=
  let p := r.(rd_prepared) in
  refused ← (if lifecycle then
               observe (OCommit p.(p_call).(tc_id)) ;; ask (CommitReadyCall p.(p_call).(tc_id) r.(rd_args))
             else mret None);
  match refused with
  | Some e => mret (LaunchRejected e)
  | None =>
      observe (OBody p.(p_index)) ;;
      ask (StartTool p.(p_index) p.(p_tool) p.(p_call) r.(rd_args)) ;;
      mret Launched
  end.

Definition launchOne (lifecycle : bool) (r : ReadyPreparedToolCall) : M Launch :=
  let p := r.(rd_prepared) in
  stopped ← isAborted;
  if stopped : bool then
    ask Tick ;; dispose p ;; mret (LaunchCompleted (notStarted (createErrorToolResult OPERATION_ABORTED DEmpty) true))
  else if p.(p_tool).(t_preparer) then
    beginning ← ask (BeginExecution p.(p_index) p.(p_tool));
    match beginning with
    | EndsEarly result => ask Tick ;; dispose p ;; mret (LaunchCompleted (earlyOutcome result))
    | BodyStarts => startBody lifecycle r
    end
  else startBody lifecycle r.

Record ParallelToolCallLaunches := {
  l_started : list ReadyPreparedToolCall;
  l_completed : list (ReadyPreparedToolCall * ExecutedToolCallOutcome);
  l_rejected : option (ReadyPreparedToolCall * JsError)
}.

#[export] Instance ParallelToolCallLaunches_eta : Eta ParallelToolCallLaunches := λ l,
  {| l_started := l.(l_started); l_completed := l.(l_completed); l_rejected := l.(l_rejected) |}.

(** One call after the other, each from the microtask that the start or the end
    of the one before it queues. *)
Fixpoint launchParallelToolCalls (lifecycle : bool) (ready : list ReadyPreparedToolCall)
    (result : ParallelToolCallLaunches) : M ParallelToolCallLaunches :=
  match ready with
  | [] => mret result
  | r :: ready =>
      launch ← launchOne lifecycle r;
      match launch with
      | LaunchRejected e => mret (result <| l_rejected := Some (r, e) |>)
      | Launched => ask Tick ;; launchParallelToolCalls lifecycle ready (result <| l_started ::= λ l, l ++ [r] |>)
      | LaunchCompleted x =>
          ask Tick ;; launchParallelToolCalls lifecycle ready (result <| l_completed ::= λ l, l ++ [(r, x)] |>)
      end
  end.

Definition noLaunches : ParallelToolCallLaunches := {| l_started := []; l_completed := []; l_rejected := None |}.

Definition sameError (e e' : JsError) : bool :=
  match e.(errorRef), e'.(errorRef) with Some a, Some b => bool_decide (a = b) | _, _ => false end.

(** The outcome of a body that started. *)
Definition awaitOutcome (p : PreparedToolCall) : M ExecutedToolCallOutcome :=
  r ← ask (ToolOutcome p.(p_index));
  stopped ← isAborted;
  reason ← gets (λ s, abortReason s.(world));
  ask Tick ;;
  dispose p ;;
  mret match r with
       | inr result => {| x_result := result; x_isError := false; x_executionStarted := true; x_callerCancelled := false |}
       | inl e => {| x_result := errorResult e; x_isError := true; x_executionStarted := true;
                     x_callerCancelled := stopped && sameError e reason |}
       end.

Definition shouldTerminateToolBatch (finalizedCalls : list FinalizedToolCallOutcome) : bool :=
  match finalizedCalls with
  | [] => false
  | _ => forallb (λ fin, bool_decide (fin.(f_result).(r_terminate) = Some true)) finalizedCalls
  end.

Definition validatedToolCallIds (calls : list (nat * AgentToolCall)) : M (list string) :=
  gets (λ s, omap (λ '(i, c), match lookupCall i s.(validated) with Some (inl _) => Some c.(tc_id) | _ => None end) calls).

(** Without a lifecycle nothing is released. *)
Definition releaseSkipped (lifecycle : bool) (ids : list string) : M unit :=
  if lifecycle then observe (ORelease ids) ;; ask (ReleaseSkippedCalls ids) else mret tt.

(** ** One call after the other *)

(** What the loop over the calls leaves: the results so far, and where the calls
    that do not start begin, the first of them possibly with its start
    emitted. *)
Record SequentialRun := {
  q_finalized : list FinalizedToolCallOutcome;
  q_messages : list ToolResultMessage;
  q_steering : list AgentMessage;
  q_skippedReady : option Val;
  q_skipped : list (nat * AgentToolCall);
  q_fatal : option JsError
}.

#[export] Instance SequentialRun_eta : Eta SequentialRun := λ q,
  {| q_finalized := q.(q_finalized); q_messages := q.(q_messages); q_steering := q.(q_steering);
     q_skippedReady := q.(q_skippedReady); q_skipped := q.(q_skipped); q_fatal := q.(q_fatal) |}.

(** The messages that wait, unless the run is aborted; then those seen before,
    which are none. *)
Definition pollSteering : M (list AgentMessage) :=
  stopped ← isAborted;
  if stopped : bool then mret [] else getSteeringAtCheckpoint.

Definition pushResult (fin : FinalizedToolCallOutcome) (m : ToolResultMessage) (q : SequentialRun) : SequentialRun :=
  q <| q_finalized ::= λ l, l ++ [fin] |> <| q_messages ::= λ l, l ++ [m] |>.

(** What became of one call: its outcome, a stop before its body because of
    steering messages, or the refusal of its admission. *)
Inductive SequentialStep :=
| StepFinal (fin : FinalizedToolCallOutcome)
| StepSteered (steering : list AgentMessage)
| StepFatal (error : JsError) (fin : FinalizedToolCallOutcome) (m : ToolResultMessage).

Definition runReady (message : AssistantMessage) (lifecycle : bool) (rest : list (nat * AgentToolCall))
    (r : ReadyPreparedToolCall) : M SequentialStep :=
  let p := r.(rd_prepared) in
  tryFinally
    (steering ← pollSteering;
     match steering with
     | _ :: _ => mret (StepSteered steering)
     | [] =>
         launches ← awaiting (launchParallelToolCalls lifecycle [r] noLaunches);
         match launches.(l_rejected) with
         | Some (_, e) =>
             ids ← validatedToolCallIds rest;
             releaseSkipped lifecycle ids ;;
             completed ← awaiting (completeUnstartedToolCall message p.(p_index) p.(p_call) (Some r.(rd_args))
                                     TOOL_ADMISSION_FAILURE_MESSAGE DAdmission);
             emitToolResultMessage completed.2 ;;
             mret (StepFatal e completed.1 completed.2)
         | None =>
             executed ← match launches.(l_completed) with
                        | (_, x) :: _ => mret x
                        | [] => match launches.(l_started) with
                                | _ :: _ => awaitOutcome p
                                | [] => throw (newError "Tool launch finished without an outcome")
                                end
                        end;
             fin ← awaiting (finalizeExecutedToolCall message p executed r.(rd_args));
             mret (StepFinal fin)
         end
     end)
    (dispose p).

Fixpoint sequentialLoop (message : AssistantMessage) (lifecycle : bool) (calls : list (nat * AgentToolCall))
    (q : SequentialRun) : M SequentialRun :=
  match calls with
  | [] => mret q
  | (i, c) :: rest =>
      steering ← pollSteering;
      match steering with
      | _ :: _ => mret (q <| q_steering := steering |> <| q_skipped := calls |>)
      | [] =>
          entry ← awaiting (prepareToolCallEntry message i c);
          step ← match entry with
                 | EntryFinal fin => mret (StepFinal fin)
                 | EntryReady r => runReady message lifecycle calls r
                 end;
          match step, entry with
          | StepSteered steering, EntryReady r =>
              mret (q <| q_steering := steering |> <| q_skippedReady := Some r.(rd_args) |> <| q_skipped := calls |>)
          | StepSteered steering, EntryFinal _ => mret (q <| q_steering := steering |> <| q_skipped := calls |>)
          | StepFatal e fin m, _ => mret (pushResult fin m q <| q_skipped := rest |> <| q_fatal := Some e |>)
          | StepFinal fin, _ =>
              emitToolExecutionEnd fin ;;
              let m := createToolResultMessage fin in
              emitToolResultMessage m ;;
              let q := pushResult fin m q in
              stopped ← isAborted;
              if stopped : bool then mret (q <| q_skipped := rest |>) else sequentialLoop message lifecycle rest q
          end
      end
  end.

Definition skipReason (fatal : option JsError) (steering : list AgentMessage) : string * Details :=
  match fatal, steering with
  | Some _, _ => (TOOL_ADMISSION_FAILURE_MESSAGE, DAdmission)
  | None, _ :: _ => (STEERING_TOOL_SKIP_MESSAGE, DSteering)
  | None, [] => (OPERATION_ABORTED, DEmpty)
  end.

(** The calls that did not start. *)
Fixpoint completeSkipped (message : AssistantMessage) (reason : string * Details) (ready : option Val)
    (calls : list (nat * AgentToolCall)) : M (list FinalizedToolCallOutcome * list ToolResultMessage) :=
  match calls with
  | [] => mret ([], [])
  | (i, c) :: rest =>
      completed ← awaiting (completeUnstartedToolCall message i c ready reason.1 reason.2);
      emitToolResultMessage completed.2 ;;
      others ← completeSkipped message reason None rest;
      mret (completed.1 :: others.1, completed.2 :: others.2)
  end.

Definition noRun : SequentialRun :=
  {| q_finalized := []; q_messages := []; q_steering := []; q_skippedReady := None; q_skipped := []; q_fatal := None |}.

Definition executeToolCallsSequential (message : AssistantMessage) (lifecycle : bool) (calls : list (nat * AgentToolCall)) :
    M ExecutedToolCallBatch :=
  q ← sequentialLoop message lifecycle calls noRun;
  stopped ← isAborted;
  steering ← (if bool_decide (q.(q_fatal) = None) && negb stopped && bool_decide (q.(q_steering) = []) &&
                 bool_decide (q.(q_skipped) = [])
              then getSteeringAtCheckpoint else mret q.(q_steering));
  (match steering with
   | [] => mret tt
   | _ => ids ← validatedToolCallIds q.(q_skipped); releaseSkipped lifecycle ids
   end) ;;
  others ← completeSkipped message (skipReason q.(q_fatal) steering) q.(q_skippedReady) q.(q_skipped);
  mret {| b_messages := q.(q_messages) ++ others.2; b_steeringMessages := steering;
          b_terminate := shouldTerminateToolBatch (q.(q_finalized) ++ others.1);
          b_terminateRun := false; b_intervention := None; b_fatal := q.(q_fatal) |}.

(** ** All calls at once *)

(** The entries that were prepared before the loop ended, and the error that
    ended it. *)
Fixpoint prepareEntries (message : AssistantMessage) (calls : list (nat * AgentToolCall))
    (entries : list FinalizedToolCallEntry) : M (list FinalizedToolCallEntry * option JsError) :=
  match calls with
  | [] => mret (entries, None)
  | (i, c) :: rest =>
      r ← tryCatch (entry ← awaiting (prepareToolCallEntry message i c); mret (inr entry)) (λ e, mret (inl e));
      match r with
      | inl e => mret (entries, Some e)
      | inr entry =>
          let entries := entries ++ [entry] in
          failed ← tryCatch (match entry with
                             | EntryFinal fin => emitToolExecutionEnd fin ;; mret None
                             | EntryReady _ => mret None
                             end) (λ e, mret (Some e));
          stopped ← isAborted;
          if bool_decide (is_Some failed) then mret (entries, failed)
          else if stopped : bool then mret (entries, None)
          else prepareEntries message rest entries
      end
  end.

Definition readyOf (entries : list FinalizedToolCallEntry) : list ReadyPreparedToolCall :=
  omap (λ entry, match entry with EntryReady r => Some r | EntryFinal _ => None end) entries.

Definition readyIndex (r : ReadyPreparedToolCall) : nat := r.(rd_prepared).(p_index).
Definition readyId (r : ReadyPreparedToolCall) : string := r.(rd_prepared).(p_call).(tc_id).

(** Calls that are ready and do not start: disposed of and completed. *)
Fixpoint completeReady (message : AssistantMessage) (reason : string * Details) (ready : list ReadyPreparedToolCall) :
    M (list (nat * FinalizedToolCallOutcome)) :=
  match ready with
  | [] => mret []
  | r :: rest =>
      let p := r.(rd_prepared) in
      dispose p ;;
      completed ← awaiting (completeUnstartedToolCall message p.(p_index) p.(p_call) (Some r.(rd_args)) reason.1 reason.2);
      others ← completeReady message reason rest;
      mret ((p.(p_index), completed.1) :: others)
  end.

Fixpoint finalizeCompleted (message : AssistantMessage) (completed : list (ReadyPreparedToolCall * ExecutedToolCallOutcome)) :
    M (list (nat * FinalizedToolCallOutcome)) :=
  match completed with
  | [] => mret []
  | (r, x) :: rest =>
      let p := r.(rd_prepared) in
      fin ← awaiting (finalizeExecutedToolCall message p x r.(rd_args));
      emitToolExecutionEnd fin ;;
      dispose p ;;
      others ← finalizeCompleted message rest;
      mret ((p.(p_index), fin) :: others)
  end.

(** A call whose body runs, and the [await] that it stands at. *)
Inductive TaskStage :=
| AwaitsOutcome
| AwaitsAfterCall (executed : ExecutedToolCallOutcome)
| AwaitsAfterOutcome (executed : ExecutedToolCallOutcome) (r : AgentToolResult * bool)
| AwaitsEnd (fin : FinalizedToolCallOutcome).

Definition Task : Type := ReadyPreparedToolCall * TaskStage.

Definition taskStep (message : AssistantMessage) (task : Task) : M (Task + FinalizedToolCallOutcome) :=
  let '(r, stage) := task in
  let p := r.(rd_prepared) in
  match stage with
  | AwaitsOutcome => x ← awaitOutcome p; mret (inl (r, AwaitsAfterCall x))
  | AwaitsAfterCall x => y ← afterExecution message p x r.(rd_args); mret (inl (r, AwaitsAfterOutcome x y))
  | AwaitsAfterOutcome x y =>
      fin ← awaiting (finalizeToolCallOutcome message (executedOutcome p x y) r.(rd_args));
      mret (inl (r, AwaitsEnd fin))
  | AwaitsEnd fin => emitToolExecutionEnd fin ;; dispose p ;; mret (inr fin)
  end.

Definition taskIndex (task : Task) : nat := readyIndex task.1.

(** The task that the world wakes, or else the first, between those before and
    those after it. *)
Fixpoint pickTask (i : nat) (before tasks : list Task) : option (list Task * Task * list Task) :=
  match tasks with
  | [] => None
  | t :: rest => if bool_decide (taskIndex t = i) then Some (before, t, rest) else pickTask i (before ++ [t]) rest
  end.

Definition wakeTask (i : nat) (tasks : list Task) : option (list Task * Task * list Task) :=
  match pickTask i [] tasks, tasks with
  | Some found, _ => Some found
  | None, t :: rest => Some ([], t, rest)
  | None, [] => None
  end.

(** [Promise.all] over the calls whose bodies run.  Each has four steps.  Where
    one throws, the wait is over; what the others still do after that is left
    out. *)
Fixpoint runTasks (fuel : nat) (message : AssistantMessage) (tasks : list Task)
    (results : list (nat * FinalizedToolCallOutcome)) : M (list (nat * FinalizedToolCallOutcome)) :=
  match tasks with
  | [] => mret results
  | _ =>
      match fuel with
      | O => stuck
      | S fuel =>
          i ← ask (NextToWake (taskIndex <$> tasks));
          match wakeTask i tasks with
          | None => mret results
          | Some (before, task, behind) =>
              r ← taskStep message task;
              match r with
              | inl task => runTasks fuel message (before ++ task :: behind) results
              | inr fin => runTasks fuel message (before ++ behind) (results ++ [(taskIndex task, fin)])
              end
          end
      end
  end.

Definition orderedFinalizedCalls (entries : list FinalizedToolCallEntry) (results : list (nat * FinalizedToolCallOutcome)) :
    list FinalizedToolCallOutcome :=
  omap (λ entry, match entry with
                 | EntryFinal fin => Some fin
                 | EntryReady r => lookupCall (readyIndex r) results
                 end) entries.

Fixpoint emitResults (finalized : list FinalizedToolCallOutcome) : M (list ToolResultMessage) :=
  match finalized with
  | [] => mret []
  | fin :: rest =>
      let m := createToolResultMessage fin in
      emitToolResultMessage m ;;
      ms ← emitResults rest;
      mret (m :: ms)
  end.

(** The calls that are ready run, unless the admission refuses one: then it and
    those after it are completed, and the error is kept. *)
Definition runReadyCalls (message : AssistantMessage) (lifecycle : bool) (entries : list FinalizedToolCallEntry)
    (tail : list (nat * AgentToolCall)) : M (list (nat * FinalizedToolCallOutcome) * option JsError) :=
  launched ← awaiting (launchParallelToolCalls lifecycle (readyOf entries) noLaunches);
  completed ← finalizeCompleted message launched.(l_completed);
  refused ← match launched.(l_rejected) with
            | None => mret []
            | Some (r, _) =>
                let unstarted := List.filter (λ r', readyIndex r <=? readyIndex r') (readyOf entries) in
                ids ← validatedToolCallIds tail;
                releaseSkipped lifecycle ((readyId <$> unstarted) ++ ids) ;;
                completeReady message (TOOL_ADMISSION_FAILURE_MESSAGE, DAdmission) unstarted
            end;
  finished ← runTasks (4 * length launched.(l_started)) message ((., AwaitsOutcome) <$> launched.(l_started)) [];
  mret (completed ++ refused ++ finished, snd <$> launched.(l_rejected)).

Definition parallelBody (message : AssistantMessage) (lifecycle : bool) (calls : list (nat * AgentToolCall))
    (entries : list FinalizedToolCallEntry) : M ExecutedToolCallBatch :=
  steering ← pollSteering;
  let tail := drop (length entries) calls in
  let skippedToolCallIds := match steering with
                            | [] => []
                            | _ => (readyId <$> readyOf entries) ++ ((λ x, x.2.(tc_id)) <$> tail)
                            end in
  (match skippedToolCallIds with [] => mret tt | _ => releaseSkipped lifecycle skippedToolCallIds end) ;;
  run ← match steering with
        | [] => runReadyCalls message lifecycle entries tail
        | _ => results ← completeReady message (STEERING_TOOL_SKIP_MESSAGE, DSteering) (readyOf entries);
               mret (results, None)
        end;
  let finalized := orderedFinalizedCalls entries run.1 in
  messages ← emitResults finalized;
  stopped ← isAborted;
  others ← (if stopped || bool_decide (is_Some run.2)
            then completeSkipped message (skipReason run.2 []) None tail else mret ([], []));
  mret {| b_messages := messages ++ others.2; b_steeringMessages := steering;
          b_terminate := shouldTerminateToolBatch (finalized ++ others.1);
          b_terminateRun := false; b_intervention := None; b_fatal := run.2 |}.

Definition executeToolCallsParallel (message : AssistantMessage) (lifecycle : bool) (calls : list (nat * AgentToolCall)) :
    M ExecutedToolCallBatch :=
  prepared ← prepareEntries message calls [];
  tryFinally
    match prepared.2 with
    | Some e => throw e
    | None => parallelBody message lifecycle calls prepared.1
    end
    (forEach (λ r, dispose r.(rd_prepared)) (readyOf prepared.1)).

(** ** The batch *)

Definition interventionText (terminal isTrigger : bool) (reason : string) : string :=
  match terminal, isTrigger with
  | true, true => reason +:+ BLANK_LINE +:+ "Critical tool-loop recovery failed because another critical loop was detected. This run is stopping now."
  | true, false => "This tool was not executed because another call in the batch repeated a critical tool loop. This run is stopping now."
  | false, true => reason +:+ BLANK_LINE +:+ "Do not repeat this exact tool action. Reassess the task. You may answer the user, ask for clarification, or continue with a different tool or different arguments."
  | false, false => "This tool was not executed because another call in the batch triggered critical tool-loop recovery. Reassess the task before choosing the next action."
  end.

Fixpoint completeInterventions (message : AssistantMessage) (intervention : ToolLoopIntervention) (terminal : bool)
    (calls : list (nat * AgentToolCall)) : M (list FinalizedToolCallOutcome * list ToolResultMessage) :=
  match calls with
  | [] => mret ([], [])
  | (i, c) :: rest =>
      hide ← emitStart i c;
      let isTrigger := bool_decide (c.(tc_id) = intervention.(i_toolCallId)) in
      args ← gets (λ s, match lookupCall i s.(validated) with Some (inl p) => p.(p_args) | _ => c.(tc_arguments) end);
      fin ← awaiting (finalizeToolCallOutcome message
        {| f_call := c;
           f_result := {| r_content := [PText (interventionText terminal isTrigger intervention.(i_reason))];
                          r_details := DToolLoop intervention; r_terminate := if terminal then Some true else None;
                          r_ack := None |};
           f_isError := true; f_executionStarted := false; f_argumentError := false; f_hide := hide;
           f_network := false |} args);
      emitToolExecutionEnd fin ;;
      let m := createToolResultMessage fin in
      emitToolResultMessage m ;;
      others ← completeInterventions message intervention terminal rest;
      mret (fin :: others.1, m :: others.2)
  end.

Definition completeToolLoopInterventionBatch (message : AssistantMessage) (intervention : ToolLoopIntervention)
    (terminal : bool) (calls : list (nat * AgentToolCall)) : M ExecutedToolCallBatch :=
  completed ← completeInterventions message intervention terminal calls;
  mret {| b_messages := completed.2; b_steeringMessages := [];
          b_terminate := terminal || shouldTerminateToolBatch completed.1; b_terminateRun := terminal;
          b_intervention := Some intervention; b_fatal := None |}.

Fixpoint validateCalls (message : AssistantMessage) (calls : list (nat * AgentToolCall)) : M unit :=
  match calls with
  | [] => mret tt
  | (i, c) :: rest =>
      stopped ← isAborted;
      if stopped : bool then mret tt
      else
        v ← awaiting (validateToolCallForBatchAdmission message i c);
        modify (λ s, s <| validated ::= λ l, (i, v) :: l |>) ;;
        validateCalls message rest
  end.

(** Whether one of the calls wants to run alone, as far as the resolution of the
    calls gets. *)
Fixpoint hasSequentialToolCall (message : AssistantMessage) (calls : list (nat * AgentToolCall)) : M bool :=
  match calls with
  | [] => mret false
  | (i, c) :: rest =>
      stopped ← isAborted;
      if stopped : bool then mret false
      else
        resolution ← awaiting (resolveToolCallTool message i c);
        match resolution with
        | ResolvedTool (Some tool) =>
            if bool_decide (tool.(t_executionMode) = Some Sequential) then mret true
            else hasSequentialToolCall message rest
        | _ => hasSequentialToolCall message rest
        end
  end.

Definition admittedCalls (validated : list (nat * ValidatedToolCallOutcome)) (calls : list (nat * AgentToolCall)) :
    list (AgentToolCall * Val * AgentTool) :=
  omap (λ '(i, c), match lookupCall i validated with Some (inl p) => Some (c, p.(p_args), p.(p_tool)) | _ => None end) calls.

(** The admission of the batch: an intervention, or whether a lifecycle comes
    with it. *)
Definition admitBatch (message : AssistantMessage) (calls : list (nat * AgentToolCall)) : M (ToolLoopIntervention + bool) :=
  if negb (has HookBeforeToolBatch) then mret (inr false)
  else
      validateCalls message calls ;;
      admitted ← gets (λ s, admittedCalls s.(validated) calls);
      stopped ← isAborted;
      match admitted with
      | [] => mret (inr false)
      | _ =>
          if stopped : bool then mret (inr false)
          else
            shared ← gets context;
            admission ← call (BeforeToolBatch message admitted shared);
            match admission with
            | None => mret (inr false)
            | Some a => match a.(admitIntervention) with Some i => mret (inl i) | None => mret (inr a.(admitLifecycle)) end
            end
      end.

Definition numbered (calls : list AgentToolCall) : list (nat * AgentToolCall) := imap (λ i c, (i, c)) calls.

Definition executeToolCalls (message : AssistantMessage) (config : AgentLoopConfig) (criticalSeen : bool) :
    M ExecutedToolCallBatch :=
  modify (λ s, s <| resolved := [] |> <| validated := [] |> <| disposed := [] |>) ;;
  let calls := numbered (toolCallsOf message) in
  admission ← admitBatch message calls;
  match admission with
  | inl intervention => awaiting (completeToolLoopInterventionBatch message intervention criticalSeen calls)
  | inr lifecycle =>
      alone ← (if bool_decide (config.(cfg_toolExecution) = Sequential) then mret true
               else hasSequentialToolCall message calls);
      if alone : bool then executeToolCallsSequential message lifecycle calls
      else executeToolCallsParallel message lifecycle calls
  end.
End batch.
