(* ===== verification/ToolBatchFacts.v ===== *)
(** * What a batch of tool calls does

    The program logic of the agent loop ([spec]: a weakest precondition over
    what a computation adds to the trace) and the facts about [executeToolCalls]
    in any world: every call is started, ended and answered once, in order, and
    the reported start of a body is true. *)
From S2P Require Import Prelude JsStrings Effects AgentMessages ToolBatch.

(** ** What a trace says *)

(** Messages that were committed, calls that were started and ended (with the
    reported start of the body), bodies that started, and the events that frame
    turns and the run. *)
Record Delta := {
  d_committed : list AgentMessage;
  d_starts : list string;
  d_ends : list (string * bool);
  d_bodies : list nat;
  d_requests : nat;
  d_cancelled : nat;
  d_frames : list AgentEvent
}.

Definition d_nil : Delta :=
  {| d_committed := []; d_starts := []; d_ends := []; d_bodies := []; d_requests := 0; d_cancelled := 0; d_frames := [] |}.

#[export] Instance Delta_eta : Eta Delta := λ d,
  {| d_committed := d.(d_committed); d_starts := d.(d_starts); d_ends := d.(d_ends); d_bodies := d.(d_bodies);
     d_requests := d.(d_requests); d_cancelled := d.(d_cancelled); d_frames := d.(d_frames) |}.

Definition d_app (a b : Delta) : Delta :=
  {| d_committed := a.(d_committed) ++ b.(d_committed); d_starts := a.(d_starts) ++ b.(d_starts);
     d_ends := a.(d_ends) ++ b.(d_ends); d_bodies := a.(d_bodies) ++ b.(d_bodies);
     d_requests := a.(d_requests) + b.(d_requests); d_cancelled := a.(d_cancelled) + b.(d_cancelled);
     d_frames := a.(d_frames) ++ b.(d_frames) |}.

Definition d_obs (o : Obs) : Delta :=
  match o with
  | OEvent (MessageEnd m) => d_nil <| d_committed := [m] |>
  | OEvent (ToolExecutionStart id _ _ _) => d_nil <| d_starts := [id] |>
  | OEvent (ToolExecutionEnd id _ _ _ started _ _) => d_nil <| d_ends := [(id, started)] |>
  | OEvent (AgentStart as e) | OEvent (AgentEnd _ as e) | OEvent (TurnStart as e) | OEvent (TurnEnd _ _ as e) =>
      d_nil <| d_frames := [e] |>
  | OBody i => d_nil <| d_bodies := [i] |>
  | ORequest _ => d_nil <| d_requests := 1%nat |>
  | OCancelled _ => d_nil <| d_cancelled := 1%nat |>
  | _ => d_nil
  end.

Fixpoint delta (tr : list Obs) : Delta :=
  match tr with [] => d_nil | o :: tr => d_app (d_obs o) (delta tr) end.

Lemma d_app_nil_l a : d_app d_nil a = a.
Proof. by destruct a. Qed.

Lemma d_app_nil_r a : d_app a d_nil = a.
Proof. destruct a. unfold d_app. cbn. by rewrite !app_nil_r, !Nat.add_0_r. Qed.

Lemma d_app_assoc a b c : d_app a (d_app b c) = d_app (d_app a b) c.
Proof. unfold d_app. cbn. by rewrite !app_assoc, !Nat.add_assoc. Qed.

Lemma delta_app a b : delta (a ++ b) = d_app (delta a) (delta b).
Proof. induction a as [|o a IH]; cbn; [by rewrite d_app_nil_l|]. by rewrite IH, d_app_assoc. Qed.

(** ** The program logic *)

Section logic.
Context `{LoopEnv W, !AbortSticky W}.

Abbreviation M := (Eff (LoopState W)).

(** A step of the code that adds [d] and leaves the validations and the messages
    of the run alone. *)
Record moves (d : Delta) (s s' : LoopState W) : Prop := {
  mv_trace : ∃ tr, s'.(trace) = s.(trace) ++ tr ∧ delta tr = d;
  mv_validated : s'.(validated) = s.(validated);
  mv_news : s'.(newMessages) = s.(newMessages);
  mv_seen : s'.(criticalToolLoopSeen) = s.(criticalToolLoopSeen);
  mv_messages : s'.(context).(c_messages) = s.(context).(c_messages);
  mv_aborted : aborted s.(world) = true → aborted s'.(world) = true
}.

Lemma moves_nil s : moves d_nil s s.
Proof. split; [exists []; by rewrite app_nil_r|done..]. Qed.

Lemma moves_trans a b s1 s2 s3 : moves a s1 s2 → moves b s2 s3 → moves (d_app a b) s1 s3.
Proof.
  intros [(t1 & E1 & D1) ? ? ? ? ?] [(t2 & E2 & D2) ? ? ? ? ?]. split; [|congruence..|auto].
  exists (t1 ++ t2). rewrite E2, E1, app_assoc, delta_app. by rewrite D1, D2.
Qed.

(** Relations that hold of such steps, and of one after the other. *)
Class Stepping (R : Delta → LoopState W → LoopState W → Prop) : Prop := {
  stepping_moves d s s' : moves d s s' → R d s s';
  stepping_trans a b s1 s2 s3 : R a s1 s2 → R b s2 s3 → R (d_app a b) s1 s3
}.

#[export] Instance moves_stepping : Stepping moves.
Proof. split; [done|apply moves_trans]. Qed.

(** [m] ends with a value that satisfies [Q], or throws an error that satisfies
    [X], of what it added and of the state it left, which [R] relates to the
    state before; [T] is what is known of a computation that runs out of fuel
    (none does, when it is [False]). *)
Definition Spec (R : Delta → LoopState W → LoopState W → Prop) (T : Prop) {A} (m : M A)
    (Q : A → Delta → LoopState W → Prop) (X : JsError → Delta → LoopState W → Prop) (s : LoopState W) : Prop :=
  wp T m (λ a s', ∃ d, R d s s' ∧ Q a d s') (λ e s', ∃ d, R d s s' ∧ X e d s') s.

Context {R : Delta → LoopState W → LoopState W → Prop} `{!Stepping R} {T : Prop}.

Lemma stepping_nil s : R d_nil s s.
Proof. apply stepping_moves, moves_nil. Qed.

Lemma spec_ret {A} (a : A) Q X s : Q a d_nil s → Spec R T (mret a) Q X s.
Proof. intros HQ. apply wp_ret. exists d_nil. split; [apply stepping_nil|done]. Qed.

Lemma spec_throw {A} e (Q : A → Delta → LoopState W → Prop) X s : X e d_nil s → Spec R T (throw e) Q X s.
Proof. intros HX. apply wp_throw. exists d_nil. split; [apply stepping_nil|done]. Qed.

Lemma spec_mono {A} (m : M A) (Q Q' : A → Delta → LoopState W → Prop) (X X' : JsError → Delta → LoopState W → Prop) s :
  Spec R T m Q X s → (∀ a d s', R d s s' → Q a d s' → Q' a d s') → (∀ e d s', R d s s' → X e d s' → X' e d s') →
  Spec R T m Q' X' s.
Proof.
  intros Hm HQ HX. eapply wp_mono; [exact Hm| |].
  - intros a s' (d & Hd & Hq). eauto.
  - intros e s' (d & Hd & Hx). eauto.
Qed.

Lemma spec_bind {A B} (m : M A) (k : A → M B) Q X s :
  Spec R T m (λ a d1 s1, R d1 s s1 → Spec R T (k a) (λ b d2, Q b (d_app d1 d2)) (λ e d2, X e (d_app d1 d2)) s1) X s →
  Spec R T (m ≫= k) Q X s.
Proof.
  intros Hm. apply wp_bind. eapply wp_mono; [exact Hm| |done]. cbn. intros a s1 (d1 & Hd1 & Hk).
  eapply wp_mono; [exact (Hk Hd1)| |]; cbn; intros b s2 (d2 & Hd2 & HQ); exists (d_app d1 d2);
    (split; [by eapply stepping_trans|done]).
Qed.

Lemma spec_catch {A} (m : M A) h Q X s :
  Spec R T m Q (λ e d1 s1, R d1 s s1 → Spec R T (h e) (λ b d2, Q b (d_app d1 d2)) (λ e d2, X e (d_app d1 d2)) s1) s →
  Spec R T (tryCatch m h) Q X s.
Proof.
  intros Hm. apply wp_catch. eapply wp_mono; [exact Hm|done|]. cbn. intros e s1 (d1 & Hd1 & Hk).
  eapply wp_mono; [exact (Hk Hd1)| |]; cbn; intros b s2 (d2 & Hd2 & HQ); exists (d_app d1 d2);
    (split; [by eapply stepping_trans|done]).
Qed.

Lemma spec_finally {A} (m : M A) f Q X s :
  Spec R T m (λ a d1 s1, R d1 s s1 → Spec R T f (λ _ d2, Q a (d_app d1 d2)) (λ e d2, X e (d_app d1 d2)) s1)
    (λ e d1 s1, R d1 s s1 → Spec R T f (λ _ d2, X e (d_app d1 d2)) (λ e d2, X e (d_app d1 d2)) s1) s →
  Spec R T (tryFinally m f) Q X s.
Proof.
  intros Hm. apply wp_finally. eapply wp_mono; [exact Hm| |]; cbn; intros a s1 (d1 & Hd1 & Hk);
    (eapply wp_mono; [exact (Hk Hd1)| |]); cbn; intros b s2 (d2 & Hd2 & HQ); exists (d_app d1 d2);
    (split; [by eapply stepping_trans|done]).
Qed.

Lemma spec_gets {A} (f : LoopState W → A) (Q : A → Delta → LoopState W → Prop) X s : Q (f s) d_nil s → Spec R T (gets f) Q X s.
Proof. intros HQ. apply wp_gets. exists d_nil. split; [apply stepping_nil|done]. Qed.

(** Changes of fields that no step speaks of. *)
Lemma spec_modify f (Q : unit → Delta → LoopState W → Prop) X s :
  R d_nil s (f s) → Q tt d_nil (f s) → Spec R T (modify f) Q X s.
Proof. intros Hm HQ. apply wp_modify. by exists d_nil. Qed.

Lemma moves_ask {A} (o : Op A) s : moves d_nil s (ask o s).2.
Proof.
  unfold ask. destruct (perform o (world s)) as [a w] eqn:E. cbn. split; [exists []; by rewrite app_nil_r|done..|].
  cbn. intros Ha. pose proof (aborted_sticky A o (world s) Ha) as Hs. by rewrite E in Hs.
Qed.

Lemma spec_ask {A} (o : Op A) (Q : A → Delta → LoopState W → Prop) X s :
  (∀ a s', moves d_nil s s' → Q a d_nil s') → Spec R T (ask o) Q X s.
Proof.
  intros HQ. pose proof (moves_ask o s) as Hm. unfold Spec, wp, ask in *. destruct (perform o (world s)) as [a w].
  exists d_nil. split; [by apply stepping_moves|]. by apply HQ.
Qed.

Lemma spec_observe o (Q : unit → Delta → LoopState W → Prop) X s :
  (∀ s', moves (d_obs o) s s' → Q tt (d_obs o) s') → Spec R T (observe o) Q X s.
Proof.
  intros HQ. assert (Hm : moves (d_obs o) s (s <| trace ::= λ t, t ++ [o] |>)).
  { split; [exists [o]; cbn; by rewrite d_app_nil_r|done..]. }
  exists (d_obs o). split; [by apply stepping_moves|]. by apply HQ.
Qed.

Lemma spec_call {A} (o : Op (JsError + A)) (Q : A → Delta → LoopState W → Prop) X s :
  (∀ a s', moves d_nil s s' → Q a d_nil s') → (∀ e s', moves d_nil s s' → X e d_nil s') → Spec R T (call o) Q X s.
Proof.
  intros HQ HX. apply spec_bind, spec_ask. intros [e|a] s' Hm _; [apply spec_throw|apply spec_ret]; rewrite d_app_nil_l; auto.
Qed.

Lemma spec_awaitHook {A} hook (o : Op (JsError + option A)) (Q : option A → Delta → LoopState W → Prop) X s :
  (∀ a s', moves d_nil s s' → Q a d_nil s') → (∀ e s', moves d_nil s s' → X e d_nil s') → Spec R T (awaitHook hook o) Q X s.
Proof.
  intros HQ HX. unfold awaitHook. destruct (has hook); [by apply spec_call|]. apply spec_bind, spec_ask.
  intros a s' Hm _. apply spec_ret. rewrite d_app_nil_l. auto.
Qed.

Lemma spec_awaiting {A} (m : M A) Q X s :
  Spec R T m (λ a d s', ∀ s'', moves d_nil s' s'' → Q a d s'') (λ e d s', ∀ s'', moves d_nil s' s'' → X e d s'') s →
  Spec R T (awaiting m) Q X s.
Proof.
  intros Hm. apply wp_after. eapply wp_mono; [exact Hm| |]; cbn; intros a s' (d & Hd & HQ); exists d;
    pose proof (moves_ask Tick s') as Ht; unfold ask in Ht; destruct (perform Tick (world s')); cbn in *;
    (split; [rewrite <-(d_app_nil_r d); eapply stepping_trans; [done|by apply stepping_moves]|by apply HQ]).
Qed.

Lemma spec_emit e (Q : unit → Delta → LoopState W → Prop) X s :
  (∀ s', moves (d_obs (OEvent e)) s s' → Q tt (d_obs (OEvent e)) s') →
  (∀ err s', moves (d_obs (OEvent e)) s s' → X err (d_obs (OEvent e)) s') → Spec R T (emit e) Q X s.
Proof.
  intros HQ HX. set (s1 := s <| trace ::= λ t, t ++ [OEvent e] |>).
  assert (H1 : moves (d_obs (OEvent e)) s s1) by (split; [exists [OEvent e]; cbn; by rewrite d_app_nil_r|done..]).
  pose proof (moves_ask (EmitEvent e) s1) as Ha. unfold Spec, wp, emit, observe, modify, mbind, Eff_bind. fold s1.
  unfold ask in *. destruct (perform (EmitEvent e) (world s1)) as [[err|] w]; cbn in Ha |- *;
    pose proof (moves_trans _ _ _ _ _ H1 Ha) as Hm; rewrite d_app_nil_r in Hm; exists (d_obs (OEvent e));
    (split; [by apply stepping_moves|auto]).
Qed.

(** What finer steps do, seen as coarser ones. *)
Lemma spec_inner (R' : Delta → LoopState W → LoopState W → Prop) {A} (m : M A) (Q Q' : A → Delta → LoopState W → Prop)
    (X' : JsError → Delta → LoopState W → Prop) s :
  (∀ d s s', R' d s s' → R d s s') → Spec R' T m Q (λ _ _ _, True) s →
  (∀ a d s', R' d s s' → Q a d s' → Q' a d s') → (∀ e d s', R' d s s' → X' e d s') → Spec R T m Q' X' s.
Proof.
  intros HR Hm HQ HX. eapply wp_mono; [exact Hm| |]; cbn; intros a s' (d & Hd & Hq); exists d; (split; [by apply HR|auto]).
Qed.
End logic.

Abbreviation spec := (Spec moves).

(** No claim about errors. *)
Abbreviation any := (λ _ _ _, True).

(** One primitive step. *)
Ltac step1 :=
  match goal with
  | |- Spec _ _ (mret _) _ _ _ => apply spec_ret
  | |- Spec _ _ (throw _) _ _ _ => apply spec_throw
  | |- Spec _ _ (gets _) _ _ _ => apply spec_gets
  | |- Spec _ _ isAborted _ _ _ => apply spec_gets
  | |- Spec _ _ (ask _) _ _ _ => apply spec_ask; intros ???
  | |- Spec _ _ (call _) _ _ _ => apply spec_call; intros ???
  | |- Spec _ _ (awaitHook _ _) _ _ _ => apply spec_awaitHook; intros ???
  | |- Spec _ _ (observe _) _ _ _ => apply spec_observe; intros ??
  | |- Spec _ _ (emit _) _ _ _ => apply spec_emit; [intros ??|intros ???]
  | |- Spec _ _ (awaiting _) _ _ _ => apply spec_awaiting
  | |- Spec _ _ (tryCatch _ _) _ _ _ => apply spec_catch
  | |- Spec _ _ (_ ≫= _) _ _ _ => apply spec_bind
  | |- moves _ _ _ → _ => intros ?
  | |- ?R ?d _ _ → Spec _ _ _ _ _ _ => lazymatch type of d with Delta => intros ? end
  | |- ∀ _, moves d_nil _ _ → _ => intros ??
  end; cbv beta; rewrite ?d_app_nil_l, ?d_app_nil_r; try exact I;
  try match goal with Hm : _ d_nil ?x ?x |- _ => clear Hm end.
Ltac steps := repeat step1.

(** A signal that was aborted is aborted at every later state. *)
Ltac follow_abort :=
  repeat match goal with
         | Ha : aborted (world ?s) = true, Hm : moves _ ?s ?s' |- _ =>
             lazymatch goal with
             | _ : aborted (world s') = true |- _ => fail
             | _ => pose proof (mv_aborted _ _ _ Hm Ha)
             end
         end.

(** ** Preparing calls *)

Section prepare.
Context `{LoopEnv W, !AbortSticky W} {T : Prop}.

Lemma moves_same (s s' : LoopState W) : s'.(trace) = s.(trace) → s'.(validated) = s.(validated) →
  s'.(newMessages) = s.(newMessages) → s'.(criticalToolLoopSeen) = s.(criticalToolLoopSeen) →
  s'.(context).(c_messages) = s.(context).(c_messages) → s'.(world) = s.(world) →
  moves d_nil s s'.
Proof. intros Ht ? ? ? ? Hw. split; [exists []; by rewrite app_nil_r|done..|by rewrite Hw]. Qed.

Lemma resolve_spec message i c s : spec T (resolveToolCallTool message i c) (λ _ d _, d = d_nil) any s.
Proof.
  unfold resolveToolCallTool. step1. step1. step1. destruct (lookupCall i _); [by steps|]. step1. step1. step1. step1. step1.
  destruct (List.find _ _) as [tool|].
  - steps. apply spec_modify; [by apply moves_same|]. by steps.
  - steps. destruct a as [tool|].
    + case_bool_decide.
      * step1. apply spec_modify; [by apply moves_same|]. steps. apply spec_modify; [by apply moves_same|]. by steps.
      * steps. apply spec_modify; [by apply moves_same|]. by steps.
    + steps. apply spec_modify; [by apply moves_same|]. by steps.
    + apply spec_modify; [by apply moves_same|]. by steps.
Qed.

(** [m] is known by a lemma. *)
Lemma spec_use {A} (m : Eff (LoopState W) A) (Q Q' : A → Delta → LoopState W → Prop)
    (X' : JsError → Delta → LoopState W → Prop) s :
  spec T m Q any s → (∀ a d s', moves d s s' → Q a d s' → Q' a d s') → (∀ e d s', moves d s s' → X' e d s') → spec T m Q' X' s.
Proof. intros Hm HQ HX. eapply spec_mono; [exact Hm|done|auto]. Qed.

Definition isOf (i : nat) (c : AgentToolCall) (p : PreparedToolCall) : Prop := p.(p_index) = i ∧ p.(p_call) = c.

Definition validOf (i : nat) (c : AgentToolCall) (v : ValidatedToolCallOutcome) : Prop :=
  match v with inl p => isOf i c p | inr _ => True end.

Lemma validate_spec message i c s :
  spec T (validateToolCallForBatchAdmission message i c) (λ v d _, d = d_nil ∧ validOf i c v) any s.
Proof.
  unfold validateToolCallForBatchAdmission. step1. step1. eapply spec_use; [apply resolve_spec| |done].
  cbv beta. intros resolution d s1 Hm -> s2 Hm2 _. destruct resolution as [[tool|]|e]; [|by steps|by steps].
  steps. destruct a as [e|arguments]; [by steps|]. steps. by destruct a as [e|args]; steps.
Qed.

(** The validations that the batch holds are those of its calls. *)
Definition validations (calls : list (nat * AgentToolCall)) (s : LoopState W) : Prop :=
  ∀ i c v, (i, c) ∈ calls → lookupCall i s.(validated) = Some v → validOf i c v.

Lemma validations_moves calls d s s' : moves d s s' → validations calls s → validations calls s'.
Proof. intros [] Hv i c v Hin. rewrite mv_validated0. by apply Hv. Qed.

Lemma prepare_spec message calls i c s : (i, c) ∈ calls → validations calls s →
  spec T (prepareToolCall message i c)
    (λ v d s', d = d_nil ∧ validOf i c v) any s.
Proof.
  intros Hin Hv. unfold prepareToolCall. step1. step1. step1. step1. step1. step1.
  destruct (_ && _); [by steps|]. specialize (Hv i c). destruct (lookupCall i (validated s)) as [v|].
  - specialize (Hv v Hin eq_refl). step1. step1. step1. destruct v as [p|outcome]; [|by steps].
    steps. destruct (has HookBeforeToolCall).
    + steps.
      * destruct (aborted _); [by steps|]. destruct a as [b|]; [destruct (block b)|]; by steps.
      * by steps.
    + steps. destruct (aborted _); by steps.
  - step1. step1. eapply spec_use; [apply validate_spec| |done]. cbv beta. intros v d s1 Hm [-> Hp] s2 Hm2 _.
    destruct v as [p|outcome]; [|by steps].
    steps. destruct (has HookBeforeToolCall).
    + steps.
      * destruct (aborted _); [by steps|]. destruct a as [b|]; [destruct (block b)|]; by steps.
      * by steps.
    + steps. destruct (aborted _); by steps.
Qed.

(** ** Outcomes *)

(** What the hooks on an outcome leave alone. *)
Definition sameOutcome (fin fin' : FinalizedToolCallOutcome) : Prop :=
  fin'.(f_call) = fin.(f_call) ∧ fin'.(f_executionStarted) = fin.(f_executionStarted) ∧ fin'.(f_network) = fin.(f_network).

Lemma finalize_spec message fin args s :
  spec T (finalizeToolCallOutcome message fin args) (λ fin' d _, d = d_nil ∧ sameOutcome fin fin') any s.
Proof.
  unfold finalizeToolCallOutcome. destruct (negb _); [by steps|]. steps; [|by steps]. destruct a; by steps.
Qed.

Lemma afterExecution_spec message p x args s : spec T (afterExecution message p x args) (λ _ d _, d = d_nil) any s.
Proof. unfold afterExecution. destruct (_ && _); [|by steps]. steps; [|by steps]. destruct a; by steps. Qed.

(** An outcome of call [c] whose body started, or did not. *)
Definition outcomeOf (c : AgentToolCall) (started : bool) (fin : FinalizedToolCallOutcome) : Prop :=
  fin.(f_call) = c ∧ fin.(f_executionStarted) = started.

Lemma finalizeExecuted_spec message p x args s :
  spec T (finalizeExecutedToolCall message p x args)
    (λ fin d _, d = d_nil ∧ outcomeOf p.(p_call) x.(x_executionStarted) fin) any s.
Proof.
  unfold finalizeExecutedToolCall. step1. eapply spec_use; [apply afterExecution_spec| |done]. cbv beta.
  intros r d s1 Hm -> _. step1. eapply spec_use; [apply finalize_spec| |done]. cbv beta.
  intros fin d s2 Hm2 [-> (Hc & Hs & _)] s3 Hm3. by repeat split.
Qed.

Lemma emitEnd_spec fin s :
  spec T (emitToolExecutionEnd fin) (λ _ d _, d = d_nil <| d_ends := [(fin.(f_call).(tc_id), fin.(f_executionStarted))] |>) any s.
Proof. unfold emitToolExecutionEnd. by steps. Qed.

Lemma emitResult_spec m s : spec T (emitToolResultMessage m) (λ _ d _, d = d_nil <| d_committed := [MToolResult None m] |>) any s.
Proof. unfold emitToolResultMessage. by steps. Qed.

Lemma emitStart_spec i c s : spec T (emitStart i c) (λ _ d _, d = d_nil <| d_starts := [c.(tc_id)] |>) any s.
Proof. unfold emitStart. unfold hidesToolCallFromChannelProgress. by steps. Qed.

(** What a call adds once it is over. *)
Definition endOf (x : nat * AgentToolCall) (bodies : list nat) : string * bool := (x.2.(tc_id), bool_decide (x.1 ∈ bodies)).

Lemma completeUnstarted_spec message i c started text details s :
  spec T (completeUnstartedToolCall message i c started text details)
    (λ r d _, d = d_nil <| d_starts := match started with Some _ => [] | None => [c.(tc_id)] end |>
                       <| d_ends := [(c.(tc_id), false)] |> ∧
              outcomeOf c false r.1 ∧ r.2 = createToolResultMessage r.1) any s.
Proof.
  unfold completeUnstartedToolCall. step1. eapply spec_use with
    (Q := λ _ d _, d = d_nil <| d_starts := match started with Some _ => [] | None => [c.(tc_id)] end |>); [|cbv beta|done].
  { destruct started; [unfold hidesToolCallFromChannelProgress; by steps|]. apply emitStart_spec. }
  intros hide d s1 Hm1 -> _. step1. step1. eapply spec_use; [apply finalize_spec| |done]. cbv beta.
  intros fin d s2 Hm2 [-> (Hc & Hs & _)] s3 Hm3 _. cbn in Hc, Hs. step1. eapply spec_use; [apply emitEnd_spec| |done].
  cbv beta. intros _ d s4 Hm4 -> _. steps. rewrite Hc, Hs. unfold d_app. cbn. by destruct started.
Qed.

Lemma dispose_spec p s : spec T (dispose p) (λ _ d _, d = d_nil) any s.
Proof.
  unfold dispose. steps. destruct (bool_decide _); [by steps|]. step1. apply spec_modify; [by apply moves_same|].
  cbv beta. intros _. destruct (t_preparer _); by steps.
Qed.

Lemma prepareExecution_spec p s :
  spec T (prepareToolCallExecution p)
    (λ r d _, d = d_nil ∧ match r with inl ready => ready.(rd_prepared) = p | inr x => x.(x_executionStarted) = false end)
    any s.
Proof.
  unfold prepareToolCallExecution. destruct (negb _); [by steps|]. steps. destruct a as [e|[]]; by steps.
Qed.

(** An entry of call [c]. *)
Definition entryOf (i : nat) (c : AgentToolCall) (entry : FinalizedToolCallEntry) : Prop :=
  match entry with EntryFinal fin => outcomeOf c false fin | EntryReady r => isOf i c r.(rd_prepared) end.

Lemma prepareEntry_spec message calls i c s : (i, c) ∈ calls → validations calls s →
  spec T (prepareToolCallEntry message i c)
    (λ entry d _, d = d_nil <| d_starts := [c.(tc_id)] |> ∧ entryOf i c entry) any s.
Proof.
  intros Hin Hv. unfold prepareToolCallEntry. step1. eapply spec_use; [apply emitStart_spec| |done]. cbv beta.
  intros hide d s1 Hm1 -> _. step1. step1. eapply spec_use; [eapply prepare_spec; [done|by eapply validations_moves]| |done].
  cbv beta. intros v d s2 Hm2 [-> Hp] s3 Hm3 _. destruct v as [p|im].
  - step1. step1. eapply spec_use; [apply prepareExecution_spec| |done]. cbv beta. intros r d s4 Hm4 [-> Hr] s5 Hm5 _.
    destruct r as [ready|x]; [steps; split; [done|]; by rewrite <-Hr in Hp|].
    step1. step1. eapply spec_use; [apply finalizeExecuted_spec| |done]. cbv beta. intros fin d s6 Hm6 [-> Hf] s7 Hm7 _.
    steps. split; [done|]. destruct Hp as [_ <-]. by rewrite Hr in Hf.
  - step1. step1. eapply spec_use; [apply finalize_spec| |done]. cbv beta. intros fin d s4 Hm4 [-> (Hc & Hs & _)] s5 Hm5 _.
    by steps.
Qed.

(** ** Launching *)

Definition bodiesOf (l : list nat) : Delta := d_nil <| d_bodies := l |>.

Lemma bodiesOf_app l k : d_app (bodiesOf l) (bodiesOf k) = bodiesOf (l ++ k).
Proof. done. Qed.

Definition launchAdds (r : ReadyPreparedToolCall) (launch : Launch) (d : Delta) : Prop :=
  match launch with
  | Launched => d = bodiesOf [readyIndex r]
  | LaunchCompleted x => d = d_nil ∧ x.(x_executionStarted) = false
  | LaunchRejected _ => d = d_nil
  end.

Lemma startBody_spec lifecycle r s : spec T (startBody lifecycle r) (λ launch d _, launchAdds r launch d) any s.
Proof.
  unfold startBody. step1. eapply spec_use with (Q := λ _ d _, d = d_nil); [|cbv beta|done].
  { destruct lifecycle; by steps. }
  intros [e|] d s1 Hm -> _; by steps.
Qed.

Lemma launchOne_spec lifecycle r s :
  spec T (launchOne lifecycle r) (λ launch d _, launchAdds r launch d ∧ (aborted s.(world) = true → d_bodies d = [])) any s.
Proof.
  unfold launchOne. steps. destruct (aborted (world s)).
  - steps. eapply spec_use; [apply dispose_spec| |done]. cbv beta. intros _ d s2 Hm2 -> _. by steps.
  - destruct (t_preparer _).
    + steps. destruct a as [|result].
      * eapply spec_use; [apply startBody_spec| |done]. cbv beta. intros launch d s2 Hm2 Hl. by rewrite !d_app_nil_l.
      * steps. eapply spec_use; [apply dispose_spec| |done]. cbv beta. intros _ d s2 Hm2 -> _. steps.
        split; [|done]. split; [done|]. by destruct result.
    + eapply spec_use; [apply startBody_spec| |done]. cbv beta. intros launch d s2 Hm2 Hl. by rewrite !d_app_nil_l.
Qed.

(** The calls that were launched, those that were over before their body, and
    the one that was refused. *)
Record launching (ready : list ReadyPreparedToolCall) (st : list ReadyPreparedToolCall)
    (cp : list (ReadyPreparedToolCall * ExecutedToolCallOutcome)) (rejected : option (ReadyPreparedToolCall * JsError)) :
    Prop := {
  ln_started : sublist st ready;
  ln_completed : Forall (λ x, x.2.(x_executionStarted) = false) cp;
  ln_all : match rejected with
           | None => st ++ cp.*1 ≡ₚ ready
           | Some (r, _) => ∃ pre post, ready = pre ++ r :: post ∧ st ++ cp.*1 ≡ₚ pre
           end
}.

Lemma launching_start r ready st cp rj : launching ready st cp rj → launching (r :: ready) (r :: st) cp rj.
Proof.
  intros [Hs Hc Ha]. split; [by constructor|done|]. destruct rj as [[r' e]|]; [|cbn; by constructor].
  destruct Ha as (pre & post & -> & Hp). exists (r :: pre), post. split; [done|]. cbn. by constructor.
Qed.

Lemma launching_complete r x ready st cp rj : x.(x_executionStarted) = false → launching ready st cp rj →
  launching (r :: ready) st ((r, x) :: cp) rj.
Proof.
  intros Hx [Hs Hc Ha]. split; [by constructor|by constructor|].
  destruct rj as [[r' e]|]; cbn [fmap list_fmap fst] in *.
  - destruct Ha as (pre & post & -> & Hp). exists (r :: pre), post. split; [done|]. by rewrite <-Permutation_middle, Hp.
  - by rewrite <-Permutation_middle, Ha.
Qed.

Lemma launch_spec lifecycle ready : ∀ result s, result.(l_rejected) = None →
  spec T (launchParallelToolCalls lifecycle ready result)
    (λ l d _, ∃ st cp, l.(l_started) = result.(l_started) ++ st ∧ l.(l_completed) = result.(l_completed) ++ cp ∧
       d = bodiesOf (readyIndex <$> st) ∧ launching ready st cp l.(l_rejected) ∧
       (aborted s.(world) = true → st = [])) any s.
Proof.
  induction ready as [|r ready IH]; intros result s Hr; cbn [launchParallelToolCalls].
  { step1. exists [], []. rewrite !app_nil_r, Hr. by repeat split. }
  step1. eapply spec_use; [apply launchOne_spec| |done]. cbv beta. intros launch d s1 Hm1 [Hl Hab] _.
  destruct launch as [|x|e]; cbn [launchAdds] in Hl; subst.
  - step1. step1. step1. eapply spec_use; [by apply IH| |done]. cbv beta.
    intros l d s2 Hm2 (st & cp & Es & Ec & -> & Hln & Hst). exists (r :: st), cp. rewrite !d_app_nil_l.
    cbn in Es, Ec. rewrite <-app_assoc in Es. split_and!; try done; [by apply launching_start|].
    intros Ha. by specialize (Hab Ha).
  - destruct Hl as [-> Hx]. step1. step1. step1. eapply spec_use; [by apply IH| |done]. cbv beta.
    intros l d s2 Hm2 (st & cp & Es & Ec & -> & Hln & Hst). exists st, ((r, x) :: cp). rewrite !d_app_nil_l.
    cbn in Es, Ec. rewrite <-app_assoc in Ec. split_and!; try done; [by apply launching_complete|].
    intros Ha. apply Hst. by follow_abort.
  - step1. exists [], []. cbn. rewrite !app_nil_r. split_and!; try done. split; [apply sublist_nil_l|done|]. by exists [], ready.
Qed.

Lemma awaitOutcome_spec p s : spec T (awaitOutcome p) (λ x d _, d = d_nil ∧ x.(x_executionStarted) = true) any s.
Proof.
  unfold awaitOutcome. steps. eapply spec_use; [apply dispose_spec| |done]. cbv beta. intros _ d s2 Hm2 -> _. steps.
  split; [done|]. by destruct a.
Qed.

Lemma releaseSkipped_spec lifecycle ids s : spec T (releaseSkipped lifecycle ids) (λ _ d _, d = d_nil) any s.
Proof. unfold releaseSkipped. destruct lifecycle; by steps. Qed.

(** ** Answers *)

(** Calls that were started, ended and answered once, in order: [ms] are their
    results, and a body ran exactly where the end of the call says so. *)
Record answered (calls : list (nat * AgentToolCall)) (ms : list ToolResultMessage) (d : Delta) : Prop := {
  an_committed : d.(d_committed) = MToolResult None <$> ms;
  an_answers : (λ m, (m.(tr_toolCallId), m.(tr_toolName))) <$> ms = (λ x, (x.2.(tc_id), x.2.(tc_name))) <$> calls;
  an_starts : d.(d_starts) = (λ x, x.2.(tc_id)) <$> calls;
  an_ends : d.(d_ends) ≡ₚ (λ x, endOf x d.(d_bodies)) <$> calls;
  an_bodies : sublist d.(d_bodies) calls.*1;
  an_frames : d.(d_frames) = [];
  an_requests : d.(d_requests) = 0%nat;
  an_cancelled : d.(d_cancelled) = 0%nat
}.

Lemma answered_nil : answered [] [] d_nil.
Proof. by split. Qed.

Lemma endOf_ext (l : list (nat * AgentToolCall)) b b' : (∀ x, x ∈ l → x.1 ∈ b ↔ x.1 ∈ b') → (λ x, endOf x b) <$> l = (λ x, endOf x b') <$> l.
Proof.
  intros Hb. apply list_fmap_ext. intros k x Hx%list_elem_of_lookup_2. unfold endOf. f_equal. apply bool_decide_ext. by apply Hb.
Qed.

Lemma answered_app c1 c2 ms1 ms2 d1 d2 : NoDup ((c1 ++ c2).*1) → answered c1 ms1 d1 → answered c2 ms2 d2 →
  answered (c1 ++ c2) (ms1 ++ ms2) (d_app d1 d2).
Proof.
  intros Hnd [] []. rewrite fmap_app, NoDup_app in Hnd. destruct Hnd as (_ & Hdis & _). split; cbn; try congruence; try lia.
  - by rewrite an_committed0, an_committed1, fmap_app.
  - by rewrite !fmap_app, an_answers0, an_answers1.
  - by rewrite an_starts0, an_starts1, fmap_app.
  - rewrite an_ends0, an_ends1, fmap_app. rewrite (endOf_ext c1 (d_bodies d1) (d_bodies d1 ++ d_bodies d2)), (endOf_ext c2 (d_bodies d2) (d_bodies d1 ++ d_bodies d2)); [done|..]; intros x Hx.
    + rewrite elem_of_app. split; [by right|]. intros [Hin|]; [|done].
      apply (elem_of_sublist _ _ _ Hin) in an_bodies0. destruct (Hdis _ an_bodies0). by apply list_elem_of_fmap_2.
    + rewrite elem_of_app. split; [by left|]. intros [|Hin]; [done|].
      apply (elem_of_sublist _ _ _ Hin) in an_bodies1. destruct (Hdis x.1); [by apply list_elem_of_fmap_2|done].
  - rewrite fmap_app. by apply sublist_app.
  - by rewrite an_frames0, an_frames1.
Qed.

Lemma answered_one i c fin (started : bool) : outcomeOf c started fin →
  answered [(i, c)] [createToolResultMessage fin]
    (d_app (d_nil <| d_starts := [c.(tc_id)] |>)
      (d_app (bodiesOf (if started then [i] else []))
        (d_app (d_nil <| d_ends := [(c.(tc_id), started)] |>)
               (d_nil <| d_committed := [MToolResult None (createToolResultMessage fin)] |>)))).
Proof.
  intros [<- <-]. destruct (f_executionStarted fin); split; try done; cbn.
  - unfold endOf. cbn. by rewrite bool_decide_eq_true_2 by set_solver.
  - apply sublist_nil_l.
Qed.

(** ** One call after the other *)

(** The calls of a batch: distinct positions, with their validations. *)
Record batchOf (calls : list (nat * AgentToolCall)) (s : LoopState W) : Prop := {
  bt_nodup : NoDup calls.*1;
  bt_valid : validations calls s
}.

Lemma batchOf_moves calls d s s' : moves d s s' → batchOf calls s → batchOf calls s'.
Proof. intros Hm []. split; [done|by eapply validations_moves]. Qed.

Lemma batchOf_sub calls calls' s : sublist calls' calls → batchOf calls s → batchOf calls' s.
Proof.
  intros Hs [Hn Hv]. split.
  - eapply sublist_NoDup; [exact Hn|]. by apply fmap_sublist.
  - intros i c v Hin. apply Hv. by eapply elem_of_sublist.
Qed.

Definition stepAdds (i : nat) (c : AgentToolCall) (step : SequentialStep) (d : Delta) : Prop :=
  match step with
  | StepFinal fin => ∃ started : bool, outcomeOf c started fin ∧ d = bodiesOf (if started then [i] else [])
  | StepSteered steering => steering ≠ [] ∧ d = d_nil
  | StepFatal _ fin m => outcomeOf c false fin ∧ m = createToolResultMessage fin ∧
                         d = d_nil <| d_ends := [(c.(tc_id), false)] |> <| d_committed := [MToolResult None m] |>
  end.

Lemma pollSteering_spec s : spec T pollSteering (λ steering d _, d = d_nil ∧ (aborted s.(world) = true → steering = [])) any s.
Proof.
  unfold pollSteering. steps. destruct (aborted (world s)); [by steps|]. unfold getSteeringAtCheckpoint.
  destruct (has _); by steps.
Qed.

Lemma runReady_spec message lifecycle rest i c r s : isOf i c r.(rd_prepared) →
  spec T (runReady message lifecycle rest r)
    (λ step d _, stepAdds i c step d ∧ (aborted s.(world) = true → d_bodies d = [])) any s.
Proof.
  intros [Hi Hc]. unfold runReady. apply spec_finally.
  assert (Hd : ∀ (step : SequentialStep) d s1, moves d s s1 → stepAdds i c step d ∧ (aborted s.(world) = true → d_bodies d = []) →
    moves d s s1 → spec T (dispose (rd_prepared r)) (λ _ d2 _, stepAdds i c step (d_app d d2) ∧
      (aborted s.(world) = true → d_bodies (d_app d d2) = [])) any s1).
  { intros step d s1 _ Hs _. eapply spec_use; [apply dispose_spec| |done]. cbv beta. intros _ d2 s2 _ ->. by rewrite d_app_nil_r. }
  eapply spec_mono with (Q := λ step d _, stepAdds i c step d ∧ (aborted s.(world) = true → d_bodies d = [])) (X := any).
  2: { intros step d s1 Hm Hs. by apply Hd. }
  2: { intros e d s1 Hm _ _. by eapply spec_use; [apply dispose_spec|done|done]. }
  step1. eapply spec_use; [apply pollSteering_spec| |done]. cbv beta. intros steering d s1 Hm1 [-> Hst] _.
  destruct steering as [|m ms]; [|by steps]. step1. step1. eapply spec_use; [by apply launch_spec| |done]. cbv beta.
  intros l d s2 Hm2 (st & cp & Es & Ec & -> & [Hs Hcp Hall] & Hab) s3 Hm3 _. cbn in Es, Ec.
  rewrite Es, Ec. destruct (l_rejected l) as [[r' e]|].
  - destruct Hall as (pre & post & Er & Hp). destruct pre as [|? [|??]]; try discriminate Er. injection Er as <- <-.
    apply Permutation_nil_r, app_eq_nil in Hp as [-> Hcp0]. unfold validatedToolCallIds. steps.
    eapply spec_use; [apply releaseSkipped_spec| |done]. cbv beta. intros _ d s4 Hm4 -> _. step1. step1.
    eapply spec_use; [apply completeUnstarted_spec| |done]. cbv beta. intros cpl d s5 Hm5 (-> & Ho & Em) s6 Hm6 _. step1.
    eapply spec_use; [apply emitResult_spec| |done]. cbv beta. intros _ d s7 Hm7 -> _. steps. rewrite Hc in *.
    by split; [split_and!|].
  - destruct cp as [|[r' x] [|??]].
    + cbn in Hall. rewrite app_nil_r in Hall. apply Permutation_singleton_r in Hall as ->. step1.
      eapply spec_use; [apply awaitOutcome_spec| |done]. cbv beta. intros x d s4 Hm4 [-> Hx] _. step1. step1.
      eapply spec_use; [apply finalizeExecuted_spec| |done]. cbv beta. intros fin d s5 Hm5 [-> Ho] s6 Hm6 _. steps.
      rewrite Hx, Hc in Ho. split; [exists true; split; [done|]; cbn; unfold readyIndex; by rewrite Hi|].
      intros Ha. specialize (Hab (mv_aborted _ _ _ Hm1 Ha)). done.
    + assert (st = []) as -> by (destruct st; [done|]; apply Permutation_length in Hall; cbn in Hall; rewrite length_app in Hall; cbn in Hall; lia).
      apply Forall_cons in Hcp as [Hx _]. cbn in Hx. steps.
      eapply spec_use; [apply finalizeExecuted_spec| |done]. cbv beta. intros fin d s5 Hm5 [-> Ho] s6 Hm6 _. steps.
      rewrite Hx, Hc in Ho. by split; [exists false|].
    + apply Permutation_length in Hall. cbn in Hall. rewrite length_app in Hall. cbn in Hall. lia.
Qed.

(** The loop has answered [done], and emitted the start of the first of the
    others where it says so. *)
Definition loopAdds (calls : list (nat * AgentToolCall)) (q q' : SequentialRun) (d : Delta) : Prop :=
  ∃ done ms d', calls = done ++ q'.(q_skipped) ∧ q'.(q_messages) = q.(q_messages) ++ ms ∧ answered done ms d' ∧
    match q'.(q_skippedReady), q'.(q_skipped) with
    | None, _ => d = d'
    | Some _, (_, c) :: _ => d = d_app d' (d_nil <| d_starts := [c.(tc_id)] |>)
    | Some _, [] => False
    end.

Lemma loopAdds_stop calls q q' : q'.(q_skipped) = calls → q'.(q_skippedReady) = None → q'.(q_messages) = q.(q_messages) →
  loopAdds calls q q' d_nil.
Proof. intros Hs Hr Hm. exists [], [], d_nil. rewrite Hs, Hr, Hm, app_nil_r. by split_and!. Qed.

Lemma loopAdds_cons i c rest q q1 q' m d1 d2 : NoDup ((i, c) :: rest).*1 → answered [(i, c)] [m] d1 →
  q1.(q_messages) = q.(q_messages) ++ [m] → loopAdds rest q1 q' d2 → loopAdds ((i, c) :: rest) q q' (d_app d1 d2).
Proof.
  intros Hn H1 Em (dn & ms & d' & -> & Em' & Ha & Hd). exists ((i, c) :: dn), (m :: ms), (d_app d1 d').
  split; [done|]. split; [by rewrite Em', Em, <-app_assoc|]. split.
  - apply (answered_app [(i, c)] dn [m] ms); [|done..].
    assert (Hs : sublist (((i, c) :: dn).*1) (((i, c) :: dn ++ q_skipped q').*1)).
    { apply fmap_sublist. rewrite app_comm_cons. by apply sublist_inserts_r. }
    by eapply sublist_NoDup.
  - destruct (q_skippedReady q'); [|by subst]. destruct (q_skipped q') as [|[]]; [done|]. subst. by rewrite d_app_assoc.
Qed.

Lemma sequentialLoop_spec message lifecycle calls : ∀ q s, batchOf calls s → q.(q_skipped) = [] → q.(q_skippedReady) = None →
  spec T (sequentialLoop message lifecycle calls q)
    (λ q' d _, loopAdds calls q q' d ∧ (aborted s.(world) = true → d_bodies d = [])) any s.
Proof.
  induction calls as [|[i c] rest IH]; intros q s Hb Hs Hr; cbn [sequentialLoop].
  { step1. split; [|done]. by apply loopAdds_stop. }
  step1. eapply spec_use; [apply pollSteering_spec| |done]. cbv beta. intros steering d s1 Hm1 [-> _] _.
  destruct steering as [|m ms]; [|step1; split; [by apply loopAdds_stop|done]].
  step1. step1. eapply spec_use; [eapply prepareEntry_spec; [by left|apply Hb || eapply validations_moves, Hb; done]| |done]; cbv beta.
  intros entry d s2 Hm2 [-> He] s3 Hm3 _. step1.
  eapply spec_use with (Q := λ step d _, (stepAdds i c step d ∧ (aborted s3.(world) = true → d_bodies d = [])) ∧
    match entry with EntryFinal fin => step = StepFinal fin | _ => True end); [|cbv beta|done].
  { destruct entry as [fin|r]; [step1; split; [split; [by exists false|done]|done]|].
    eapply spec_mono; [by apply runReady_spec|by auto|done]. }
  intros step d s4 Hm4 [[Hst Hbd] Hen] _.
  assert (Hab : aborted (world s) = true → d_bodies d = []) by (intros; follow_abort; auto).
  pose proof (bt_nodup _ _ Hb) as Hnd.
  destruct step as [fin|steering|e fin m]; cbn [stepAdds] in Hst.
  - destruct Hst as (started & Ho & ->). step1. eapply spec_use; [apply emitEnd_spec| |done]. cbv beta. intros _ d s5 Hm5 -> _.
    step1. eapply spec_use; [apply emitResult_spec| |done]. cbv beta. intros _ d s6 Hm6 -> _. step1. step1. step1.
    pose proof (answered_one i c fin started Ho) as H1. pose proof Ho as [Hc Hx]. subst c started.
    destruct (aborted (world s6)).
    + step1. split; [|intros Ha; specialize (Hab Ha); cbn in *; by rewrite Hab].
      exists [(i, f_call fin)], [createToolResultMessage fin]. eexists. cbn. rewrite Hr. by split_and!.
    + eapply spec_use; [apply IH; [|by rewrite ?Hs..]| |done].
      { eapply (batchOf_sub (_ :: rest)); [by apply sublist_cons|].
        repeat (eapply batchOf_moves; [eassumption|]). done. }
      cbv beta. intros q' d s7 Hm7 [Hl Hb7]. split.
      * rewrite ?d_app_nil_l. rewrite !d_app_assoc in H1. rewrite !d_app_assoc. by apply (loopAdds_cons _ _ _ _ _ _ _ _ _ Hnd H1 (eq_refl : q_messages (pushResult fin _ q) = _) Hl).
      * intros Ha. specialize (Hab Ha). cbn in Hab |- *. rewrite Hab. cbn. apply Hb7. by follow_abort.
  - destruct Hst as [Hne ->]. destruct entry as [fin|r]; [done|]. step1. split; [|done].
    exists [], [], d_nil. cbn. rewrite app_nil_r. by split_and!.
  - destruct Hst as (Ho & -> & ->). step1. split; [|done]. exists [(i, c)], [createToolResultMessage fin]. eexists. cbn. rewrite Hr.
    split_and!; try done. exact (answered_one i c fin false Ho).
Qed.

Lemma completeSkipped_spec message reason calls : ∀ ready s, NoDup calls.*1 → (ready ≠ None → calls ≠ []) →
  spec T (completeSkipped message reason ready calls)
    (λ r d _, answered calls r.2
       (d_app (match ready, calls with Some _, (_, c) :: _ => d_nil <| d_starts := [c.(tc_id)] |> | _, _ => d_nil end) d) ∧
       d_bodies d = []) any s.
Proof.
  induction calls as [|[i c] rest IH]; intros ready s Hn Hr; cbn [completeSkipped].
  { step1. destruct ready; [by destruct Hr|]. split; [apply answered_nil|done]. }
  step1. step1. eapply spec_use; [apply completeUnstarted_spec| |done]. cbv beta. intros cpl d s1 Hm1 (-> & Ho & Em) s2 Hm2 _.
  step1. eapply spec_use; [apply emitResult_spec| |done]. cbv beta. intros _ d s3 Hm3 -> _. step1.
  eapply spec_use; [apply IH; [by apply NoDup_cons in Hn as [_ Hn]|done]| |done]. cbv beta. intros r d s4 Hm4 [Ha Hb] _. step1.
  cbn. rewrite Hb. split; [|done]. rewrite d_app_nil_l in Ha. rewrite Em in *.
  pose proof (answered_app [(i, c)] rest _ _ _ _ Hn (answered_one i c cpl.1 false Ho) Ha) as Hall.
  destruct ready; exact Hall.
Qed.

Lemma loopAdds_answered calls q' others d d2 : NoDup calls.*1 → loopAdds calls noRun q' d →
  (∀ pre, pre = match q'.(q_skippedReady), q'.(q_skipped) with
                | Some _, (_, c) :: _ => d_nil <| d_starts := [c.(tc_id)] |>
                | _, _ => d_nil
                end → answered q'.(q_skipped) others (d_app pre d2)) →
  answered calls (q'.(q_messages) ++ others) (d_app d d2).
Proof.
  intros Hn (dn & ms & d' & -> & -> & Ha & Hd) Ho. cbn. specialize (Ho _ eq_refl).
  destruct (q_skippedReady q') as [v|].
  - destruct (q_skipped q') as [|[i c] rest]; [done|]. subst d. rewrite <-d_app_assoc. by apply answered_app.
  - subst d'. rewrite d_app_nil_l in Ho. by apply answered_app.
Qed.

(** [b] answers the calls. *)
Definition batchAdds (calls : list (nat * AgentToolCall)) (b : ExecutedToolCallBatch) (d : Delta) : Prop :=
  answered calls b.(b_messages) d.

Lemma sequential_spec message lifecycle calls s : batchOf calls s →
  spec T (executeToolCallsSequential message lifecycle calls)
    (λ b d _, batchAdds calls b d ∧ (aborted s.(world) = true → d_bodies d = [])) any s.
Proof.
  intros Hb. unfold executeToolCallsSequential. step1. eapply spec_use; [by apply sequentialLoop_spec| |done]. cbv beta.
  intros q d1 s1 Hm1 [Hl Hab] _. step1. step1. step1. step1.
  eapply spec_use with (Q := λ _ d _, d = d_nil); [|cbv beta|done].
  { destruct (_ && _ && _ && _); [|by steps]. unfold getSteeringAtCheckpoint. destruct (has _); by steps. }
  intros steering d s2 Hm2 -> _. step1. eapply spec_use with (Q := λ _ d _, d = d_nil); [|cbv beta|done].
  { destruct steering; [by steps|]. unfold validatedToolCallIds. steps.
    eapply spec_use; [apply releaseSkipped_spec| |done]. by intros _ ? ? _ ->. }
  intros _ d s3 Hm3 -> _. step1.
  assert (Hn : NoDup (q_skipped q).*1).
  { destruct Hl as (dn & ms & d' & Ec & _). eapply sublist_NoDup; [exact (bt_nodup _ _ Hb)|]. apply fmap_sublist.
    rewrite Ec. by apply sublist_inserts_l. }
  assert (Hr : q_skippedReady q ≠ None → q_skipped q ≠ []).
  { destruct Hl as (dn & ms & d' & _ & _ & _ & Hd). destruct (q_skippedReady q); [|done]. by destruct (q_skipped q). }
  eapply spec_use; [by apply completeSkipped_spec| |done]. cbv beta. intros others d s4 Hm4 [Ha Hbo] _. step1.
  rewrite ?d_app_nil_l. split; [|intros Hx; cbn; by rewrite Hbo, (Hab Hx)].
  unfold batchAdds. cbn. eapply loopAdds_answered; [exact (bt_nodup _ _ Hb)|done|]. by intros ? ->.
Qed.
End prepare.
