(* ===== verification/ParallelTools.v ===== *)
(** * All calls of a message at once, and whole batches

    The calls that are prepared in order and run together, and the contract of
    [executeToolCalls]: every call of the message is started, ended and answered
    once. *)
From Stdlib Require Import Sorting.Sorted.
From S2P Require Import Prelude JsStrings Effects AgentMessages ToolBatch ToolBatchFacts.

Section parallel.
Context `{LoopEnv W, !AbortSticky W} {T : Prop}.


(** The entries of [calls], and what their preparation added. *)
Definition entriesOf (calls : list (nat * AgentToolCall)) (es : list FinalizedToolCallEntry) : Prop :=
  Forall2 (λ x e, entryOf x.1 x.2 e) calls es.

Definition finalEnds (es : list FinalizedToolCallEntry) : list (string * bool) :=
  omap (λ e, match e with EntryFinal fin => Some (fin.(f_call).(tc_id), fin.(f_executionStarted)) | EntryReady _ => None end) es.

Definition entriesAdd (calls : list (nat * AgentToolCall)) (es : list FinalizedToolCallEntry) : Delta :=
  d_nil <| d_starts := (λ x, x.2.(tc_id)) <$> calls |> <| d_ends := finalEnds es |>.

Lemma prepareEntries_spec message all calls : ∀ es0 s, validations all s → sublist calls all →
  spec T (prepareEntries message calls es0)
    (λ r d s', r.2 = None → ∃ es done rest, r.1 = es0 ++ es ∧ calls = done ++ rest ∧ entriesOf done es ∧
       d = entriesAdd done es ∧ (rest ≠ [] → aborted s'.(world) = true)) any s.
Proof.
  induction calls as [|[i c] rest IH]; intros es0 s Hv Hs; cbn [prepareEntries].
  { step1. intros _. exists [], [], []. rewrite app_nil_r. split_and!; first [done|by constructor]. }
  assert (Hin : (i, c) ∈ all) by (eapply elem_of_sublist; [by left|exact Hs]).
  step1. step1. eapply spec_mono with (Q := λ r d _, match r with
      | inr e => d = d_nil <| d_starts := [c.(tc_id)] |> ∧ entryOf i c e | inl _ => True end) (X := any).
  { step1. step1. eapply spec_use; [by eapply prepareEntry_spec| |done]. cbv beta. intros e d s1 Hm1 [-> He] s2 Hm2 _. by steps. }
  2: { intros e d s1 _ _ _. steps. by intros ?. }
  intros [e|entry] d s1 Hm1; [intros _; steps; by intros ?|]. intros [-> He] _. step1.
  eapply spec_use with (Q := λ f d _, f = None → d = d_nil <| d_ends := finalEnds [entry] |>); [|cbv beta|done].
  { step1. destruct entry as [fin|r]; [|by step1]. eapply spec_mono with (Q := λ _ d _, d = d_nil <| d_ends := finalEnds [EntryFinal fin] |>) (X := any).
    - step1. eapply spec_use; [apply emitEnd_spec| |done]. cbv beta. intros _ d s2 Hm2 -> _. by step1.
    - by intros ? ? ? _ -> _.
    - intros e d s2 _ _ _. by steps. }
  intros failed d s2 Hm2 Hd _. step1. step1. step1. destruct failed as [e|]; cbn [is_Some bool_decide].
  { rewrite bool_decide_eq_true_2 by by eexists. by step1. }
  rewrite bool_decide_eq_false_2 by by intros [? ?]. rewrite (Hd eq_refl).
  destruct (aborted (world s2)) eqn:Ha.
  { step1. intros _. exists [entry], [(i, c)], rest. split_and!; try done. by repeat constructor. }
  eapply spec_use; [apply IH|..|done].
  { by do 2 (eapply validations_moves; [eassumption|]). }
  { etrans; [by apply sublist_cons|done]. }
  cbv beta. intros r d' s3 Hm3 Hr Hn. destruct (Hr Hn) as (es & dn & rest' & -> & -> & Hes & -> & Hab).
  exists (entry :: es), ((i, c) :: dn), rest'. rewrite <-app_assoc. split_and!; try done; [by constructor|].
  unfold entriesAdd, d_app. cbn. f_equal. destruct entry; done.
Qed.

(** Calls that ended, in some order, all with or all without a body. *)
Definition ended (started : bool) (rs : list ReadyPreparedToolCall) (results : list (nat * FinalizedToolCallOutcome))
    (d : Delta) : Prop :=
  ∃ rs', rs' ≡ₚ rs ∧ d = d_nil <| d_ends := (λ r, (readyId r, started)) <$> rs' |> ∧
    Forall2 (λ r x, x.1 = readyIndex r ∧ outcomeOf r.(rd_prepared).(p_call) started x.2) rs' results.

Lemma ended_cons started r fin rs results d : outcomeOf r.(rd_prepared).(p_call) started fin → ended started rs results d →
  ended started (r :: rs) ((readyIndex r, fin) :: results) (d_app (d_nil <| d_ends := [(readyId r, started)] |>) d).
Proof.
  intros Ho (rs' & Hp & -> & Hf). exists (r :: rs'). split_and!; [by constructor|done|by constructor].
Qed.

Lemma ended_nil started : ended started [] [] d_nil.
Proof. exists []. split_and!; [done|done|constructor]. Qed.

Lemma completeReady_spec message reason rs : ∀ s,
  spec T (completeReady message reason rs) (λ results d _, ended false rs results d) any s.
Proof.
  induction rs as [|r rs IH]; intros s; cbn [completeReady]; [step1; apply ended_nil|].
  step1. eapply spec_use; [apply dispose_spec| |done]. cbv beta. intros _ d s1 Hm1 -> _. step1. step1.
  eapply spec_use; [apply completeUnstarted_spec| |done]. cbv beta. intros cpl d s2 Hm2 (-> & Ho & _) s3 Hm3 _. step1.
  eapply spec_use; [apply IH| |done]. cbv beta. intros results d s4 Hm4 Hr _. step1. rewrite ?d_app_nil_l.
  exact (ended_cons false r cpl.1 rs results d Ho Hr).
Qed.

Lemma finalizeCompleted_spec message cp : ∀ s, Forall (λ x, x.2.(x_executionStarted) = false) cp →
  spec T (finalizeCompleted message cp) (λ results d _, ended false cp.*1 results d) any s.
Proof.
  induction cp as [|[r x] cp IH]; intros s Hc; cbn [finalizeCompleted]; [step1; apply ended_nil|].
  apply Forall_cons in Hc as [Hx Hc]. cbn in Hx. step1. step1.
  eapply spec_use; [apply finalizeExecuted_spec| |done]. cbv beta. intros fin d s1 Hm1 [-> Ho] s2 Hm2 _. rewrite Hx in Ho.
  pose proof Ho as [Hf Hb]. step1. eapply spec_use; [apply emitEnd_spec| |done]. cbv beta. intros _ d s3 Hm3 -> _. step1.
  eapply spec_use; [apply dispose_spec| |done]. cbv beta. intros _ d s4 Hm4 -> _. step1.
  eapply spec_use; [by apply IH| |done]. cbv beta. intros results d s5 Hm5 Hr _. step1. rewrite ?d_app_nil_l, Hf, Hb.
  exact (ended_cons false r fin cp.*1 results d Ho Hr).
Qed.

(** A task between its body and its end. *)
Definition taskOf (r : ReadyPreparedToolCall) (stage : TaskStage) : Prop :=
  match stage with
  | AwaitsOutcome => True
  | AwaitsAfterCall x | AwaitsAfterOutcome x _ => x.(x_executionStarted) = true
  | AwaitsEnd fin => outcomeOf r.(rd_prepared).(p_call) true fin
  end.

Definition stepsLeft (task : Task) : nat :=
  match task.2 with AwaitsOutcome => 4 | AwaitsAfterCall _ => 3 | AwaitsAfterOutcome _ _ => 2 | AwaitsEnd _ => 1 end.

Lemma taskStep_spec message r stage s : taskOf r stage →
  spec T (taskStep message (r, stage))
    (λ next d _, match next with
                 | inl task => d = d_nil ∧ task.1 = r ∧ taskOf r task.2 ∧ (stepsLeft task < stepsLeft (r, stage))%nat
                 | inr fin => d = d_nil <| d_ends := [(readyId r, true)] |> ∧ outcomeOf r.(rd_prepared).(p_call) true fin
                 end) any s.
Proof.
  intros Ht. unfold taskStep. destruct stage as [|x|x y|fin]; cbn [taskOf] in Ht.
  - step1. eapply spec_use; [apply awaitOutcome_spec| |done]. cbv beta. intros x d s1 Hm1 [-> Hx] _. step1.
    split_and!; [done..|]. cbn. lia.
  - step1. eapply spec_use; [apply afterExecution_spec| |done]. cbv beta. intros y d s1 Hm1 -> _. step1.
    split_and!; [done..|]. cbn. lia.
  - step1. step1. eapply spec_use; [apply finalize_spec| |done]. cbv beta. intros fin d s1 Hm1 [-> (Hc & Hs & _)] s2 Hm2 _.
    step1. cbn in Hc, Hs. rewrite Ht in Hs. split_and!; [done..|]. cbn. lia.
  - destruct Ht as [Hc Hs]. step1. eapply spec_use; [apply emitEnd_spec| |done]. cbv beta. intros _ d s1 Hm1 -> _.
    step1. eapply spec_use; [apply dispose_spec| |done]. cbv beta. intros _ d s2 Hm2 -> _. step1. by rewrite Hc, Hs.
Qed.

Lemma pickTask_some i before tasks b t a : pickTask i before tasks = Some (b, t, a) → before ++ tasks = b ++ t :: a.
Proof.
  revert before. induction tasks as [|u tasks IH]; intros before; cbn; [done|]. case_bool_decide.
  - by intros [= -> -> ->].
  - intros Hp%IH. by rewrite <-Hp, <-app_assoc.
Qed.

Lemma wakeTask_some i t tasks : ∃ b u a, wakeTask i (t :: tasks) = Some (b, u, a) ∧ t :: tasks = b ++ u :: a.
Proof.
  unfold wakeTask. destruct (pickTask i [] (t :: tasks)) as [[[b u] a]|] eqn:E.
  - exists b, u, a. split; [done|]. by apply pickTask_some in E.
  - by exists [], t, tasks.
Qed.

(** Steps that all the tasks have left. *)
Definition allSteps (tasks : list Task) : nat := sum_list_with stepsLeft tasks.

Lemma allSteps_middle b task e : allSteps (b ++ task :: e) = (stepsLeft task + allSteps (b ++ e))%nat.
Proof. unfold allSteps. rewrite !sum_list_with_app. cbn. lia. Qed.

Lemma ended_perm started rs rs' results d : rs ≡ₚ rs' → ended started rs results d → ended started rs' results d.
Proof. intros Hp (l & Hl & Hd). exists l. split; [by etrans|done]. Qed.

Lemma ended_snoc started r fin rs results d : outcomeOf r.(rd_prepared).(p_call) started fin → ended started rs results d →
  ended started (rs ++ [r]) (results ++ [(readyIndex r, fin)]) (d_app d (d_nil <| d_ends := [(readyId r, started)] |>)).
Proof.
  intros Ho (rs' & Hp & -> & Hf). exists (rs' ++ [r]). split_and!.
  - by rewrite Hp.
  - by unfold d_app; cbn; rewrite fmap_app.
  - apply Forall2_app; [done|]. apply Forall2_cons_2; [done|constructor].
Qed.

(** Whatever order the world wakes the tasks in, each ends once, within the
    fuel that the code gives. *)
Lemma runTasks_spec message fuel : ∀ (tasks : list Task) rs results d0 s, Forall (λ task, taskOf task.1 task.2) tasks →
  (allSteps tasks ≤ fuel)%nat → ended true rs results d0 →
  spec T (runTasks fuel message tasks results) (λ results d _, ended true (rs ++ tasks.*1) results (d_app d0 d)) any s.
Proof.
  induction fuel as [|fuel IH]; intros tasks rs results d0 s Ht Hf He; (destruct tasks as [|task tasks];
    [cbn [runTasks]; step1; cbn; rewrite app_nil_r; rewrite ?d_app_nil_r; done|]).
  { destruct task as [? []]; cbn in Hf; lia. }
  cbn [runTasks]. step1. step1. intros _. destruct (wakeTask_some a task tasks) as (b & [r stage] & e & -> & Ee).
  rewrite Ee in *. apply Forall_app in Ht as [Hb Ht]. apply Forall_cons in Ht as [Hr Ht]. rewrite allSteps_middle in Hf.
  step1. eapply spec_use; [by apply taskStep_spec| |done]. cbv beta. intros [[r' stage']|fin] d s1 Hm1.
  - intros (-> & Er & Hr' & Hlt) _. cbn in Er, Hr'. subst r'. eapply spec_use; [eapply IH with (rs := rs) (d0 := d0)| |done].
    + by apply Forall_app; split; [|constructor].
    + rewrite allSteps_middle. lia.
    + done.
    + cbv beta. intros results' d s2 Hm2. by rewrite ?d_app_nil_l, !fmap_app.
  - intros [-> Ho] _. eapply spec_use; [eapply IH with (rs := rs ++ [r])| |done].
    + by apply Forall_app.
    + assert (0 < stepsLeft (r, stage))%nat by (destruct stage; cbn; lia). lia.
    + by apply ended_snoc.
    + cbv beta. intros results' d s2 Hm2 Hend. rewrite ?d_app_nil_l. rewrite <-d_app_assoc in Hend. eapply ended_perm; [|done].
      rewrite !fmap_app, fmap_cons, <-app_assoc. cbn. by rewrite Permutation_middle.
Qed.

(** The calls [rs] are over: [results] has the outcome of each by its position,
    and a body ran for those in [bodies]. *)
Record finished (bodies : list nat) (rs : list ReadyPreparedToolCall) (results : list (nat * FinalizedToolCallOutcome))
    (ends : list (string * bool)) : Prop := {
  fi_keys : results.*1 ≡ₚ readyIndex <$> rs;
  fi_outcomes : ∀ r, r ∈ rs → ∃ fin, (readyIndex r, fin) ∈ results ∧
                  outcomeOf r.(rd_prepared).(p_call) (bool_decide (readyIndex r ∈ bodies)) fin;
  fi_ends : ends ≡ₚ (λ r, (readyId r, bool_decide (readyIndex r ∈ bodies))) <$> rs
}.

Lemma ended_finished started bodies rs results d :
  (∀ r, r ∈ rs → bool_decide (readyIndex r ∈ bodies) = started) → ended started rs results d →
  d = d_nil <| d_ends := d_ends d |> ∧ finished bodies rs results (d_ends d).
Proof.
  intros Hb (rs' & Hp & -> & Hf). split; [done|]. split; cbn.
  - rewrite <-Hp. clear Hb Hp. induction Hf as [|r x rs' results [Hx _] _ IH]; [done|]. cbn. rewrite Hx. by constructor.
  - intros r Hr. rewrite (Hb r Hr). rewrite <-Hp in Hr. clear Hb Hp. induction Hf as [|r' x rs' results [Hx Ho] _ IH]; [by apply elem_of_nil in Hr|].
    apply elem_of_cons in Hr as [->|Hr].
    + exists x.2. rewrite <-Hx. split; [destruct x; by left|done].
    + destruct (IH Hr) as (fin & Hin & Hfin). exists fin. split; [by right|done].
  - rewrite Hp. apply Permutation_refl'. apply list_fmap_ext. intros k r Hr%list_elem_of_lookup_2. by rewrite Hb.
Qed.

Lemma finished_app bodies rs1 rs2 results1 results2 ends1 ends2 : finished bodies rs1 results1 ends1 →
  finished bodies rs2 results2 ends2 → finished bodies (rs1 ++ rs2) (results1 ++ results2) (ends1 ++ ends2).
Proof.
  intros [Hk1 Ho1 He1] [Hk2 Ho2 He2]. split.
  - by rewrite !fmap_app, Hk1, Hk2.
  - intros r [Hr|Hr]%elem_of_app.
    + destruct (Ho1 r Hr) as (fin & Hin & Hf). exists fin. split; [apply elem_of_app; by left|done].
    + destruct (Ho2 r Hr) as (fin & Hin & Hf). exists fin. split; [apply elem_of_app; by right|done].
  - by rewrite fmap_app, He1, He2.
Qed.

Lemma finished_perm bodies rs rs' results ends : rs ≡ₚ rs' → finished bodies rs results ends → finished bodies rs' results ends.
Proof.
  intros Hp [Hk Ho He]. split.
  - by rewrite Hk, Hp.
  - intros r Hr. apply Ho. by rewrite Hp.
  - by rewrite He, Hp.
Qed.

Lemma lookupCall_in {A} i (a : A) results : NoDup results.*1 → (i, a) ∈ results → lookupCall i results = Some a.
Proof.
  induction results as [|[j b] results IH]; intros Hn Hin; [by apply elem_of_nil in Hin|].
  cbn in Hn. apply NoDup_cons in Hn as [Hj Hn]. cbn. case_bool_decide as Hij.
  - subst j. apply elem_of_cons in Hin as [[= ->]|Hin]; [done|]. destruct Hj. by apply (list_elem_of_fmap_2 fst) in Hin.
  - apply elem_of_cons in Hin as [[= <- _]|Hin]; [done|]. by apply IH.
Qed.

(** The calls from the refused one on. *)
Lemma from_refused pre r post : StronglySorted lt (readyIndex <$> pre ++ r :: post) →
  List.filter (λ r', (readyIndex r <=? readyIndex r')%nat) (pre ++ r :: post) = r :: post.
Proof.
  induction pre as [|p pre IH]; intros Hs; cbn [app fmap list_fmap] in Hs; apply StronglySorted_inv in Hs as [Hs Hf].
  - cbn. rewrite Nat.leb_refl. f_equal. clear Hs. induction post as [|q post IHp]; [done|]. cbn in Hf |- *.
    apply Forall_cons in Hf as [Hq Hf]. rewrite (proj2 (Nat.leb_le _ _)) by lia. f_equal. by apply IHp.
  - cbn. rewrite IH by done. rewrite Forall_fmap, Forall_app, Forall_cons in Hf. destruct Hf as (_ & Hr & _). cbn in Hr.
    by rewrite (proj2 (Nat.leb_gt _ _)) by lia.
Qed.

Lemma sorted_NoDup (l : list nat) : StronglySorted lt l → NoDup l.
Proof.
  induction 1 as [|x l Hs IH Hf]; constructor; [|done]. intros Hin. rewrite Forall_forall in Hf. specialize (Hf x Hin). lia.
Qed.

(** The calls that the launch left without a body. *)
Lemma launching_rest ready st cp rejected : StronglySorted lt (readyIndex <$> ready) → launching ready st cp rejected →
  ready ≡ₚ st ++ cp.*1 ++ match rejected with
                          | Some (r, _) => List.filter (λ r', (readyIndex r <=? readyIndex r')%nat) ready
                          | None => []
                          end.
Proof.
  intros Hs [_ _ Ha]. destruct rejected as [[r e]|]; [|by rewrite app_nil_r].
  destruct Ha as (pre & post & -> & Hp). rewrite from_refused by done. by rewrite app_assoc, Hp.
Qed.

Lemma bodies_apart st others ready : StronglySorted lt (readyIndex <$> ready) → ready ≡ₚ st ++ others →
  (∀ r, r ∈ st → bool_decide (readyIndex r ∈ readyIndex <$> st) = true) ∧
  (∀ r, r ∈ others → bool_decide (readyIndex r ∈ readyIndex <$> st) = false).
Proof.
  intros Hs Hp. apply sorted_NoDup in Hs. rewrite Hp, fmap_app, NoDup_app in Hs. destruct Hs as (_ & Hd & _). split.
  - intros r Hr. apply bool_decide_eq_true. by apply list_elem_of_fmap_2.
  - intros r Hr. apply bool_decide_eq_false. intros Hin. apply (Hd _ Hin). by apply list_elem_of_fmap_2.
Qed.

(** What a run of the calls that are ready adds. *)
Definition runAdds (ready : list ReadyPreparedToolCall) (results : list (nat * FinalizedToolCallOutcome)) (d : Delta) : Prop :=
  ∃ bodies ends, d = d_nil <| d_bodies := bodies |> <| d_ends := ends |> ∧ finished bodies ready results ends ∧
    sublist bodies (readyIndex <$> ready).

Lemma runReadyCalls_spec message lifecycle es tail s : StronglySorted lt (readyIndex <$> readyOf es) →
  spec T (runReadyCalls message lifecycle es tail)
    (λ run d _, runAdds (readyOf es) run.1 d ∧ (aborted s.(world) = true → d_bodies d = [])) any s.
Proof.
  intros Hs. unfold runReadyCalls. step1. step1. eapply spec_use; [by apply launch_spec| |done]. cbv beta.
  intros l d s1 Hm1 (st & cp & Est & Ecp & -> & Hln & Hab) s2 Hm2 _. cbn in Est, Ecp. rewrite Est, Ecp.
  pose proof (launching_rest _ _ _ _ Hs Hln) as Hall. pose proof (bodies_apart _ _ _ Hs Hall) as [Hin Hout].
  step1. eapply spec_use; [apply finalizeCompleted_spec, (ln_completed _ _ _ _ Hln)| |done]. cbv beta.
  intros completed d s3 Hm3 Hcp _. step1.
  eapply spec_use with (Q := λ results d _, ended false match l_rejected l with
      | Some (r, _) => List.filter (λ r', (readyIndex r <=? readyIndex r')%nat) (readyOf es) | None => [] end results d); [|cbv beta|done].
  { destruct (l_rejected l) as [[r e]|]; [|step1; apply ended_nil]. unfold validatedToolCallIds. steps.
    eapply spec_use; [apply releaseSkipped_spec| |done]. cbv beta. intros _ d4 s4 Hm4 -> _.
    eapply spec_use; [apply completeReady_spec| |done]. cbv beta. intros refused d5 s5 Hm5 Hr. by rewrite ?d_app_nil_l. }
  intros refused d4 s4 Hm4 Href _. step1.
  eapply spec_use; [eapply (runTasks_spec message _ ((., AwaitsOutcome) <$> st) [] [] d_nil)| |done]; [..|apply ended_nil|].
  { by apply Forall_fmap, Forall_true. }
  { unfold allSteps. clear. induction st; cbn in *; lia. }
  cbv beta. intros done d6 s6 Hm6 Hfin _. step1. rewrite d_app_nil_l in Hfin. cbn [app fst] in Hfin.
  rewrite <-list_fmap_compose in Hfin. change (fst ∘ (., AwaitsOutcome)) with (@id ReadyPreparedToolCall) in Hfin. rewrite list_fmap_id in Hfin.
  eapply ended_finished in Hcp as [-> Hcp]; [|intros r Hr; apply Hout; apply elem_of_app; by left].
  eapply ended_finished in Href as [-> Href]; [|intros r Hr; apply Hout; apply elem_of_app; by right].
  eapply ended_finished in Hfin as [-> Hfin]; [|exact Hin].
  split; [|intros Ha; cbn; by rewrite Hab]. exists (readyIndex <$> st), (d_ends d ++ d_ends d4 ++ d_ends d6). split_and!.
  - unfold d_app. cbn. by rewrite ?app_nil_r.
  - eapply finished_perm; [|apply finished_app; [exact Hcp|apply finished_app; [exact Href|exact Hfin]]].
    rewrite Hall. rewrite (Permutation_app_comm st), <-app_assoc. done.
  - apply fmap_sublist, Hln.
Qed.

(** Every entry has the outcome that [results] and [bodies] tell. *)
Definition settled (bodies : list nat) (results : list (nat * FinalizedToolCallOutcome)) (x : nat * AgentToolCall)
    (entry : FinalizedToolCallEntry) : Prop :=
  match entry with
  | EntryFinal fin => outcomeOf x.2 false fin ∧ x.1 ∉ bodies
  | EntryReady r => isOf x.1 x.2 r.(rd_prepared) ∧
      ∃ fin, lookupCall x.1 results = Some fin ∧ outcomeOf x.2 (bool_decide (x.1 ∈ bodies)) fin
  end.

Lemma readyOf_in r es : r ∈ readyOf es ↔ EntryReady r ∈ es.
Proof.
  unfold readyOf. rewrite list_elem_of_omap. split.
  - by intros ([|r'] & Hin & [= ->]).
  - intros Hin. by exists (EntryReady r).
Qed.

Lemma readyOf_sublist calls es : entriesOf calls es → sublist (readyIndex <$> readyOf es) calls.*1.
Proof.
  induction 1 as [|x e calls es He _ IH]; [done|]. cbn. destruct e as [fin|r]; [by constructor|].
  destruct He as [<- _]. by constructor.
Qed.

Lemma entries_settled calls es bodies results ends : NoDup calls.*1 → entriesOf calls es →
  sublist bodies (readyIndex <$> readyOf es) → finished bodies (readyOf es) results ends →
  Forall2 (settled bodies results) calls es.
Proof.
  intros Hn He Hb Hf. pose proof (readyOf_sublist _ _ He) as Hsub. destruct Hf as [Hk Ho _].
  assert (Hr : NoDup results.*1) by (rewrite Hk; by eapply sublist_NoDup).
  apply Forall2_same_length_lookup. split; [by eapply Forall2_length|]. intros k x e Hx Hek.
  pose proof (Forall2_lookup_lr _ _ _ _ _ _ He Hx Hek) as Hxe. destruct e as [fin|r]; cbn in Hxe |- *.
  - split; [done|]. intros Hin. apply (elem_of_sublist _ _ _ Hin) in Hb. apply list_elem_of_fmap in Hb as (r & Er & Hrin).
    apply readyOf_in, list_elem_of_lookup_1 in Hrin as (j & Hj). destruct (Forall2_lookup_r _ _ _ _ _ He Hj) as (y & Hy & Hyr).
    destruct Hyr as [Hyi _]. assert (k = j) as ->; [|congruence].
    eapply NoDup_lookup; [exact Hn|rewrite list_lookup_fmap, Hx; done|]. rewrite list_lookup_fmap, Hy. cbn.
    by rewrite Er, <-Hyi.
  - split; [done|]. destruct Hxe as [Hi Hc]. destruct (Ho r) as (fin & Hin & Hfin).
    { apply readyOf_in. by eapply list_elem_of_lookup_2. }
    unfold readyIndex in Hin, Hfin. rewrite Hi in Hin, Hfin. rewrite Hc in Hfin. exists fin. split; [by apply lookupCall_in|done].
Qed.

Lemma settled_outcomes calls es bodies results : Forall2 (settled bodies results) calls es →
  Forall2 (λ x fin, outcomeOf x.2 (bool_decide (x.1 ∈ bodies)) fin) calls (orderedFinalizedCalls es results).
Proof.
  induction 1 as [|x e calls es He _ IH]; [constructor|]. unfold orderedFinalizedCalls in *. cbn. destruct e as [fin|r]; cbn in He.
  - destruct He as [Ho Hb]. constructor; [|done]. by rewrite bool_decide_eq_false_2.
  - destruct He as [[Hi _] (fin & Hl & Ho)]. unfold readyIndex. rewrite Hi, Hl. by constructor.
Qed.

Lemma settled_ends calls es bodies results : Forall2 (settled bodies results) calls es →
  finalEnds es ++ ((λ r, (readyId r, bool_decide (readyIndex r ∈ bodies))) <$> readyOf es) ≡ₚ (λ x, endOf x bodies) <$> calls.
Proof.
  induction 1 as [|x e calls es He _ IH]; [done|]. destruct e as [fin|r]; cbn in He.
  - destruct He as [[Hc Hs] Hb]. assert (E : endOf x bodies = (tc_id (f_call fin), f_executionStarted fin)).
    { unfold endOf. rewrite bool_decide_eq_false_2 by done. by rewrite Hc, Hs. }
    rewrite fmap_cons, E. apply perm_skip, IH.
  - destruct He as [[Hi Hc] _]. assert (E : endOf x bodies = (readyId r, bool_decide (readyIndex r ∈ bodies))).
    { unfold endOf, readyId, readyIndex. by rewrite Hi, Hc. }
    rewrite fmap_cons, E. etrans; [symmetry; apply Permutation_middle|]. apply perm_skip, IH.
Qed.

Lemma emitResults_spec fins : ∀ s,
  spec T (emitResults fins)
    (λ ms d _, ms = createToolResultMessage <$> fins ∧ d = d_nil <| d_committed := MToolResult None <$> ms |>) any s.
Proof.
  induction fins as [|fin fins IH]; intros s; cbn [emitResults]; [by step1|].
  step1. eapply spec_use; [apply emitResult_spec| |done]. cbv beta. intros _ d s1 Hm1 -> _. step1.
  eapply spec_use; [apply IH| |done]. cbv beta. intros ms d s2 Hm2 [-> ->] _. by step1.
Qed.

Lemma answered_outcomes calls fins bodies starts ends :
  Forall2 (λ x fin, outcomeOf x.2 (bool_decide (x.1 ∈ bodies)) fin) calls fins →
  starts = (λ x, x.2.(tc_id)) <$> calls → ends ≡ₚ (λ x, endOf x bodies) <$> calls → sublist bodies calls.*1 →
  answered calls (createToolResultMessage <$> fins)
    (d_nil <| d_committed := MToolResult None <$> (createToolResultMessage <$> fins) |> <| d_starts := starts |>
           <| d_ends := ends |> <| d_bodies := bodies |>).
Proof.
  intros Hf -> He Hb. split; try done. clear He Hb. induction Hf as [|x fin calls fins [Hc _] _ IH]; [done|].
  cbn in IH |- *. rewrite Hc. f_equal. exact IH.
Qed.

Lemma sorted_sublist (l k : list nat) : sublist l k → StronglySorted lt k → StronglySorted lt l.
Proof.
  induction 1 as [|x l k Hs IH|x l k Hs IH]; intros Hk; [constructor|apply StronglySorted_inv in Hk as [Hk Hf]..].
  - constructor; [by apply IH|]. rewrite Forall_forall in Hf |- *. intros y Hy. apply Hf. by eapply elem_of_sublist.
  - by apply IH.
Qed.

Lemma runAdds_answered calls es results d : NoDup calls.*1 → entriesOf calls es → runAdds (readyOf es) results d →
  answered calls (createToolResultMessage <$> orderedFinalizedCalls es results)
    (d_app (entriesAdd calls es)
      (d_app d (d_nil <| d_committed := MToolResult None <$> (createToolResultMessage <$> orderedFinalizedCalls es results) |>))).
Proof.
  intros Hn He (bodies & ends & -> & Hf & Hb).
  pose proof (entries_settled _ _ _ _ _ Hn He Hb Hf) as Hset.
  pose proof (answered_outcomes calls _ bodies _ (finalEnds es ++ ends) (settled_outcomes _ _ _ _ Hset) eq_refl) as Ha.
  assert (Hends : finalEnds es ++ ends ≡ₚ (λ x, endOf x bodies) <$> calls).
  { rewrite (fi_ends _ _ _ _ Hf). by eapply settled_ends. }
  assert (Hsub : sublist bodies calls.*1) by (etrans; [exact Hb|by apply readyOf_sublist]).
  specialize (Ha Hends Hsub). unfold d_app. cbn. by rewrite ?app_nil_r.
Qed.

Lemma parallelBody_spec message lifecycle dn rest es s : StronglySorted lt (dn ++ rest).*1 → entriesOf dn es →
  (rest ≠ [] → aborted s.(world) = true) →
  spec T (parallelBody message lifecycle (dn ++ rest) es)
    (λ b d _, answered (dn ++ rest) b.(b_messages) (d_app (entriesAdd dn es) d) ∧
              (aborted s.(world) = true → d_bodies d = [])) any s.
Proof.
  intros Hs He Hab. assert (Hl : length es = length dn) by (symmetry; by eapply Forall2_length).
  assert (Hn : NoDup (dn ++ rest).*1) by by apply sorted_NoDup. assert (Hd : NoDup dn.*1).
  { eapply sublist_NoDup; [exact Hn|]. by apply fmap_sublist, sublist_inserts_r. }
  assert (Hr : NoDup rest.*1).
  { eapply sublist_NoDup; [exact Hn|]. by apply fmap_sublist, sublist_inserts_l. }
  assert (Hsr : StronglySorted lt (readyIndex <$> readyOf es)).
  { eapply sorted_sublist; [|exact Hs]. etrans; [by apply readyOf_sublist|]. by apply fmap_sublist, sublist_inserts_r. }
  unfold parallelBody. rewrite Hl, drop_app_length. step1. eapply spec_use; [apply pollSteering_spec| |done]. cbv beta.
  intros steering d s1 Hm1 [-> _] _. step1. eapply spec_use with (Q := λ _ d _, d = d_nil); [|cbv beta|done].
  { destruct (match steering with [] => _ | _ => _ end); [by step1|apply releaseSkipped_spec]. }
  intros _ d s2 Hm2 -> _. step1. eapply spec_use with
    (Q := λ run d _, runAdds (readyOf es) run.1 d ∧ (aborted s2.(world) = true → d_bodies d = [])); [|cbv beta|done].
  { destruct steering; [by apply runReadyCalls_spec|]. step1. eapply spec_use; [apply completeReady_spec| |done]. cbv beta.
    intros results d s3 Hm3 Hr3 _. step1. apply (ended_finished false []) in Hr3 as [-> Hr3]; [|done]. split; [|done].
    exists [], (d_ends d). split_and!; [done|done|apply sublist_nil_l]. }
  intros run d s3 Hm3 [Hrun Hb] _. step1. eapply spec_use; [apply emitResults_spec| |done]. cbv beta.
  intros ms dm s4 Hm4 [-> ->] _. step1. step1. step1. step1. eapply spec_use with
    (Q := λ others d _, answered rest others.2 d ∧ d_bodies d = []); [|cbv beta|done].
  { destruct (aborted (world s4)) eqn:Ha4; cbn [orb].
    - eapply spec_use; [by apply completeSkipped_spec| |done]. cbv beta. intros others d5 s5 Hm5 [Ha Hbo]. by rewrite d_app_nil_l in Ha.
    - assert (rest = []) as ->. { destruct rest; [done|]. specialize (Hab ltac:(done)). follow_abort. congruence. }
      case_bool_decide; cbn [completeSkipped]; step1; split; first [apply answered_nil|done]. }
  intros others d5 s5 Hm5 [Ho Hbo] _. step1. cbn [b_messages].
  rewrite ?d_app_nil_l. split; [|intros Ha; cbn; rewrite Hbo, (Hb ltac:(by follow_abort)); done].
  rewrite !d_app_assoc. apply answered_app; [done| |done]. rewrite <-!d_app_assoc. by apply runAdds_answered.
Qed.

Lemma parallel_spec message lifecycle calls s : StronglySorted lt calls.*1 → batchOf calls s →
  spec T (executeToolCallsParallel message lifecycle calls)
    (λ b d _, batchAdds calls b d ∧ (aborted s.(world) = true → d_bodies d = [])) any s.
Proof.
  intros Hs Hb. unfold executeToolCallsParallel. step1. eapply spec_use; [eapply (prepareEntries_spec _ calls); [apply Hb|done]| |done]. cbv beta.
  intros [es failed] d s1 Hm1 Hp _. cbn [fst snd] in Hp |- *.
  assert (Hf : ∀ l (Q : Delta → Prop) s', Q d_nil →
    spec T (forEach (λ r, dispose r.(rd_prepared)) l) (λ _ d _, Q d) any s').
  { intros l Q. induction l as [|r l IH]; intros s' HQ; cbn [forEach]; [by step1|]. step1.
    eapply spec_use; [apply dispose_spec| |done]. cbv beta. intros _ d' s2 Hm2 -> _. eapply spec_mono; [by apply IH|intros ? ? ? _ HQ'; by rewrite ?d_app_nil_l|done]. }
  apply spec_finally. destruct failed as [e|].
  { step1. intros _. eapply spec_mono; [by apply (Hf _ (λ _, True))|done|done]. }
  destruct (Hp eq_refl) as (es' & dn & rest & Ees & -> & He & -> & Hab). cbn in Ees. subst es'.
  eapply spec_mono; [by apply parallelBody_spec|..].
  - cbv beta. intros b d s2 Hm2 [Ha Hbd] _. apply (Hf _ (λ d2, batchAdds (dn ++ rest) b _ ∧ _)).
    rewrite d_app_nil_r. split; [exact Ha|]. intros Hx. cbn. apply Hbd. by follow_abort.
  - cbv beta. intros e d s2 Hm2 _ _. eapply spec_mono; [by apply (Hf _ (λ _, True))|done|done].
Qed.

(** ** Whole batches *)

(** A step of a batch that may add to its validations. *)
Record batchMoves (d : Delta) (s s' : LoopState W) : Prop := {
  bm_trace : ∃ tr, s'.(trace) = s.(trace) ++ tr ∧ delta tr = d;
  bm_news : s'.(newMessages) = s.(newMessages);
  bm_seen : s'.(criticalToolLoopSeen) = s.(criticalToolLoopSeen);
  bm_aborted : aborted s.(world) = true → aborted s'.(world) = true
}.

Lemma moves_batchMoves d s s' : moves d s s' → batchMoves d s s'.
Proof. by intros []. Qed.

#[export] Instance batchMoves_stepping : Stepping batchMoves.
Proof.
  split; [apply moves_batchMoves|].
  intros a b s1 s2 s3 [(t1 & E1 & D1) ? ? ?] [(t2 & E2 & D2) ? ? ?]. split; [|congruence..|auto].
  exists (t1 ++ t2). rewrite E2, E1, app_assoc, delta_app. by rewrite D1, D2.
Qed.

Lemma validate_keeps all message calls : ∀ s, sublist calls all → validations all s → NoDup all.*1 →
  Spec batchMoves T (validateCalls message calls) (λ _ d s', d = d_nil ∧ validations all s') any s.
Proof.
  induction calls as [|[i c] rest IH]; intros s Hs Hv Hn; cbn [validateCalls]; [by step1|].
  step1. step1. step1. destruct (aborted (world s)); [by step1|]. step1. step1.
  eapply (spec_inner moves); [apply moves_batchMoves|apply validate_spec| |done]. cbv beta.
  intros v d s1 Hm1 [-> Hvo] s2 Hm2 _. step1.
  assert (Hv2 : validations all s2) by (do 2 (eapply validations_moves; [eassumption|]); done).
  apply spec_modify; [split; [exists []; by rewrite app_nil_r|done..]|]. intros _.
  eapply spec_mono; [apply IH|..]; [by etrans; [apply sublist_cons|]| |done| |done].
  - intros j c' v' Hin. cbn. case_bool_decide as Hij; [|by apply Hv2]. intros [= ->]. subst j.
    assert (c' = c) as ->; [|done]. assert (Hic : (i, c) ∈ all) by (eapply elem_of_sublist; [by left|done]).
    apply list_elem_of_lookup_1 in Hin as (k & Hk), Hic as (l & Hl). assert (k = l) as ->; [|congruence].
    eapply (NoDup_lookup _ _ _ i Hn); rewrite list_lookup_fmap; [by rewrite Hk|by rewrite Hl].
  - cbv beta. intros _ d s3 _ [-> Hv3]. by rewrite ?d_app_nil_l.
Qed.

Lemma admitBatch_spec message calls s : validations calls s → NoDup calls.*1 →
  Spec batchMoves T (admitBatch message calls) (λ _ d s', d = d_nil ∧ validations calls s') any s.
Proof.
  intros Hv Hn. unfold admitBatch. destruct (negb _); [by step1|]. step1.
  eapply spec_mono; [by apply (validate_keeps calls)| |done]. cbv beta. intros _ d s1 Hm1 [-> Hv1] _.
  step1. step1. step1. step1. step1. step1. destruct (admittedCalls _ _) as [|]; [by step1|]. destruct (aborted _); [by step1|].
  do 5 step1. intros _.
  assert (validations calls s') by (by eapply validations_moves). destruct a as [a|]; [destruct (admitIntervention a)|]; by step1.
Qed.

Lemma hasSequential_spec message calls : ∀ s, spec T (hasSequentialToolCall message calls) (λ _ d _, d = d_nil) any s.
Proof.
  induction calls as [|[i c] rest IH]; intros s; cbn [hasSequentialToolCall]; [by step1|].
  step1. step1. step1. destruct (aborted (world s)); [by step1|]. step1. step1. eapply spec_use; [apply resolve_spec| |done].
  cbv beta. intros resolution d s1 Hm1 -> s2 Hm2 _.
  destruct resolution as [[tool|]|e]; [case_bool_decide; [by step1|]|..];
    (eapply spec_use; [apply IH|by intros ? ? ? _ ->|done]).
Qed.

Lemma completeInterventions_spec message intervention terminal calls : ∀ s, NoDup calls.*1 →
  spec T (completeInterventions message intervention terminal calls)
    (λ r d _, answered calls r.2 d ∧ d_bodies d = []) any s.
Proof.
  induction calls as [|[i c] rest IH]; intros s Hn; cbn [completeInterventions].
  { step1. split; [apply answered_nil|done]. }
  step1. eapply spec_use; [apply emitStart_spec| |done]. cbv beta. intros hide d s1 Hm1 -> _. step1. step1. step1. step1. step1.
  eapply spec_use; [apply finalize_spec| |done]. cbv beta. intros fin d s2 Hm2 [-> (Hc & Hs & _)] s3 Hm3 _. cbn in Hc, Hs.
  step1. eapply spec_use; [apply emitEnd_spec| |done]. cbv beta. intros _ d s4 Hm4 -> _. step1.
  eapply spec_use; [apply emitResult_spec| |done]. cbv beta. intros _ d s5 Hm5 -> _. step1.
  eapply spec_use; [apply IH; by apply NoDup_cons in Hn as [_ Hn]| |done]. cbv beta. intros r d s6 Hm6 [Ha Hb] _. step1.
  cbn. rewrite Hb. split; [|done]. rewrite Hc, Hs.
  pose proof (answered_app [(i, c)] rest _ _ _ _ Hn (answered_one i c fin false (conj Hc Hs)) Ha) as Hall. exact Hall.
Qed.

Lemma numbered_from n calls : StronglySorted lt (imap (λ i c, ((n + i)%nat, c)) calls : list (nat * AgentToolCall)).*1.
Proof.
  revert n. induction calls as [|c calls IH]; intros n; [constructor|]. cbn. constructor.
  - specialize (IH (S n)). erewrite imap_ext; [exact IH|]. intros i x _. cbn. f_equal. lia.
  - rewrite Forall_fmap, Forall_forall. intros x (i & y & -> & _)%elem_of_lookup_imap. cbn. lia.
Qed.

Lemma numbered_sorted calls : StronglySorted lt (numbered calls).*1.
Proof. apply (numbered_from 0). Qed.

Lemma numbered_calls calls : (numbered calls).*2 = calls.
Proof.
  unfold numbered. rewrite fmap_imap. rewrite (imap_ext _ (λ _, id)) by done.
  induction calls as [|c calls IH]; [done|]. rewrite imap_cons. by f_equal.
Qed.

Lemma numbered_indices calls : (numbered calls).*1 = seq 0 (length calls).
Proof. unfold numbered. rewrite fmap_imap, <-(list_fmap_id (seq _ _)), <-imap_seq_0. done. Qed.

(** Every call of the message is answered, whatever the world does; nothing runs
    once the run is aborted. *)
Lemma executeToolCalls_spec message config seen s :
  Spec batchMoves T (executeToolCalls message config seen)
    (λ b d _, answered (numbered (toolCallsOf message)) b.(b_messages) d ∧ (aborted s.(world) = true → d_bodies d = []))
    any s.
Proof.
  unfold executeToolCalls. set (calls := numbered (toolCallsOf message)). step1.
  assert (Hsort : StronglySorted lt calls.*1) by apply numbered_sorted. pose proof (sorted_NoDup _ Hsort) as Hn.
  apply spec_modify; [split; [exists []; by rewrite app_nil_r|done..]|]. intros _.
  step1. eapply spec_mono; [apply (admitBatch_spec message calls); [by intros i c v _|done]| |done]. cbv beta.
  intros admission d s1 Hm1 [-> Hv] _. destruct admission as [intervention|lifecycle].
  - step1. eapply (spec_inner moves) with (Q := λ b d _, answered calls b.(b_messages) d ∧ d_bodies d = []);
      [apply moves_batchMoves|..|done].
    { unfold completeToolLoopInterventionBatch. step1. eapply spec_use; [by apply completeInterventions_spec| |done]. cbv beta.
      intros r d s2 Hm2 Ha _. step1. cbn [b_messages]. exact Ha. }
    cbv beta. intros b d s2 Hm2 [Ha Hb] s3 Hm3. by rewrite ?d_app_nil_l.
  - step1. eapply (spec_inner moves) with (Q := λ _ d _, d = d_nil); [apply moves_batchMoves|..|done].
    { case_bool_decide; [by step1|apply hasSequential_spec]. }
    cbv beta. intros alone d s2 Hm2 -> _.
    assert (Hb : batchOf calls s2) by (split; [done|by eapply validations_moves]).
    assert (Hab : aborted s.(world) = true → aborted s2.(world) = true).
    { intros Ha. apply (mv_aborted _ _ _ Hm2), (bm_aborted _ _ _ Hm1). exact Ha. }
    destruct alone; (eapply (spec_inner moves); [apply moves_batchMoves|by first [apply sequential_spec|apply parallel_spec]| |done]);
      cbv beta; intros b d s3 Hm3 [Ha Hbd]; rewrite ?d_app_nil_l; (split; [exact Ha|auto]).
Qed.
End parallel.
