(* ===== verification/AgentLoop.v ===== *)
(** * The agent loop

    Turns of a model and its tools until nothing is left to do
    ([packages/agent-core/src/agent-loop.ts]): the stream of an assistant
    message, the loop over turns with its steering and follow-up messages, the
    abort checks, and the ends of a run.

    The loop ends only where the provider and the queues let it, so it takes
    fuel: one unit per pass. *)
From S2P Require Import Prelude JsStrings Effects AgentMessages ToolBatch.

Section loop.
Context `{LoopEnv W}.

Abbreviation M := (Eff (LoopState W)).

(** ** Messages of the run *)

Definition pushContext (m : AgentMessage) : M unit :=
  modify (λ s, s <| context ::= λ c, c <| c_messages ::= λ l, l ++ [m] |> |>).

Definition pushNew (m : AgentMessage) : M unit := modify (λ s, s <| newMessages ::= λ l, l ++ [m] |>).

Definition setLast {A} (a : A) (l : list A) : list A := removelast l ++ [a].

(** [context.messages[context.messages.length - 1] = m] *)
Definition replaceLast (m : AgentMessage) : M unit :=
  modify (λ s, s <| context ::= λ c, c <| c_messages ::= setLast m |> |>).

Definition consumeCancellation (m : AgentMessage) : M bool :=
  if negb (has HookCancellation) then mret false
  else cancelled ← ask (ConsumeCancellation m); if cancelled : bool then observe (OCancelled m) ;; mret true else mret false.

Definition appendInterruptedTurnMessage : M unit :=
  let m := createInterruptedTurnMessage in
  pushNew m ;; emit (MessageStart m) ;; emit (MessageEnd m).

(** ** The answer of the provider *)

Definition finalizeAssistantMessage (addedPartial turnTainted : bool) : M AssistantMessage :=
  result ← call StreamResult;
  let executable := removeNonExecutableToolCalls result in
  uuid ← (if hasTurnIdentity executable then mret EmptyString else ask Uuidv7);
  let finalMessage := withAssistantTurnTaint (ensureToolTurnIdentity uuid executable) turnTainted in
  (if addedPartial : bool then replaceLast (MAssistant None finalMessage)
   else pushContext (MAssistant None finalMessage) ;; emit (MessageStart (MAssistant None finalMessage))) ;;
  emit (MessageEnd (MAssistant None finalMessage)) ;;
  mret finalMessage.

(** One unit of fuel per event of the provider. *)
Fixpoint streamEvents (fuel : nat) (partialMessage : option AssistantMessage) (turnTainted : bool) : M AssistantMessage :=
  match fuel with
  | O => stuck
  | S fuel =>
      event ← call NextStreamEvent;
      match event with
      | None | Some EvTerminal => awaiting (finalizeAssistantMessage (bool_decide (is_Some partialMessage)) turnTainted)
      | Some (EvStart partial) =>
          pushContext (MAssistant None partial) ;;
          emit (MessageStart (MAssistant None partial)) ;;
          streamEvents fuel (Some partial) turnTainted
      | Some event =>
          match partialMessage with
          | None => streamEvents fuel None turnTainted
          | Some current =>
              let message := resolveAssistantMessageUpdate event current in
              replaceLast (MAssistant None message) ;;
              emit (MessageUpdate (MAssistant None message)) ;;
              streamEvents fuel (Some message) turnTainted
          end
      end
  end.

Definition streamAssistantResponse (fuel : nat) (config : AgentLoopConfig) (turnTainted : bool) : M AssistantMessage :=
  shared ← gets context;
  messages ← (if has HookTransformContext then call (TransformContext shared.(c_messages)) else mret shared.(c_messages));
  let messages := normalizeCoreContextMessages messages in
  observe (ORequest messages) ;;
  shared ← gets context;
  call (OpenStream config (shared <| c_messages := messages |>)) ;;
  streamEvents fuel None turnTainted.

(** ** The loop *)

Record LoopVars := {
  v_config : AgentLoopConfig;
  v_firstTurn : bool;
  v_turnOpen : bool;
  v_turnTainted : bool;
  v_hasMoreToolCalls : bool;
  v_pendingMessages : list AgentMessage
}.

#[export] Instance LoopVars_eta : Eta LoopVars := λ v,
  {| v_config := v.(v_config); v_firstTurn := v.(v_firstTurn); v_turnOpen := v.(v_turnOpen);
     v_turnTainted := v.(v_turnTainted); v_hasMoreToolCalls := v.(v_hasMoreToolCalls);
     v_pendingMessages := v.(v_pendingMessages) |}.

Definition emitAgentEnd : M unit := messages ← gets newMessages; emit (AgentEnd messages).

(** The outcome of an aborted run. *)
Definition endAborted (v : LoopVars) : M unit :=
  reason ← gets (λ s, abortReason s.(world));
  let abortedMessage := MAssistant None
    (withAssistantTurnTaint (createFailureMessage v.(v_config).(cfg_model) reason true) v.(v_turnTainted)) in
  pushNew abortedMessage ;;
  (if v.(v_turnOpen) then mret tt else emit TurnStart) ;;
  emit (MessageStart abortedMessage) ;;
  emit (MessageEnd abortedMessage) ;;
  emit (TurnEnd abortedMessage []) ;;
  handoff ← gets (λ s, turnHandoff s.(world));
  (if handoff : bool then mret tt else awaiting appendInterruptedTurnMessage) ;;
  emitAgentEnd.

(** [true] if the run is over. *)
Definition stopIfAborted (v : LoopVars) : M bool :=
  awaiting (stopped ← isAborted; if stopped : bool then endAborted v ;; mret true else mret false).

(** The messages that wait, before the next answer: whether one of them was
    injected, and whether the turn is still tainted. *)
Fixpoint injectMessages (messages : list AgentMessage) (tainted injected : bool) : M (bool * bool) :=
  match messages with
  | [] => mret (tainted, injected)
  | m :: rest =>
      cancelled ← consumeCancellation m;
      if cancelled : bool then injectMessages rest tainted injected
      else
        emit (MessageStart m) ;;
        cancelled ← consumeCancellation m;
        if cancelled : bool then injectMessages rest tainted injected
        else
          let tainted := match m with MUser _ _ => false | _ => tainted end in
          emit (MessageEnd m) ;;
          pushContext m ;;
          pushNew m ;;
          injectMessages rest tainted true
  end.

Inductive TurnResult := TurnFinished | TurnContinues (v : LoopVars).

(** Runs [k] unless the run is over. *)
Definition unlessAborted (v : LoopVars) (k : M TurnResult) : M TurnResult :=
  over ← stopIfAborted v; if over : bool then mret TurnFinished else k.

Definition applyTurnUpdate (u : AgentLoopTurnUpdate) (config : AgentLoopConfig) : AgentLoopConfig :=
  let nextModel := default config.(cfg_model) u.(u_model) in
  let nextThinkingLevel := match u.(u_thinkingLevel) with Some l => Some l | None => config.(cfg_thinkingLevel) end in
  let shouldResolveReasoning :=
    bool_decide (is_Some u.(u_thinkingLevel)) ||
    (bool_decide (is_Some u.(u_model)) && bool_decide (is_Some nextThinkingLevel)) in
  let nextReasoning := match shouldResolveReasoning, nextThinkingLevel with
                       | true, Some level => resolveAgentReasoningOption nextModel level
                       | _, _ => config.(cfg_reasoning)
                       end in
  config <| cfg_model := nextModel |> <| cfg_thinkingLevel := nextThinkingLevel |> <| cfg_reasoning := nextReasoning |>.

(** What follows the end of a turn: the next turn's context and configuration,
    the request to stop, and the messages that steer. *)
Definition betweenTurns (v : LoopVars) (message : AssistantMessage) (toolResults : list ToolResultMessage) : M TurnResult :=
  shared ← gets context;
  news ← gets newMessages;
  update ← awaitHook HookPrepareNextTurn (PrepareNextTurn message toolResults shared news);
  config ← match update with
           | None => mret v.(v_config)
           | Some u =>
               modify (λ s, s <| context ::= λ c, default c u.(u_context) |>) ;;
               mret (applyTurnUpdate u v.(v_config))
           end;
  let v := v <| v_config := config |> in
  unlessAborted v
    match v.(v_pendingMessages) with
    | _ :: _ => unlessAborted v (mret (TurnContinues v))
    | [] =>
        shared ← gets context;
        news ← gets newMessages;
        stop ← (if has HookShouldStop then call (ShouldStopAfterTurn message toolResults shared news)
                else ask Tick ;; mret false);
        if stop : bool then emitAgentEnd ;; mret TurnFinished
        else
          steering ← getSteeringAtCheckpoint;
          let v := v <| v_pendingMessages := steering |> in
          unlessAborted v (mret (TurnContinues v))
    end.

(** The second critical tool loop ends the run. *)
Definition endTerminated (v : LoopVars) : M TurnResult :=
  let failure := createFailureMessage v.(v_config).(cfg_model) (newError TOOL_LOOP_RECOVERY_TERMINATED_MESSAGE) false in
  let terminalMessage := MAssistant None (failure <| a_content := [BText TOOL_LOOP_RECOVERY_TERMINATED_MESSAGE] |>) in
  pushContext terminalMessage ;;
  pushNew terminalMessage ;;
  emit TurnStart ;;
  emit (MessageStart terminalMessage) ;;
  emit (MessageEnd terminalMessage) ;;
  emit (TurnEnd terminalMessage []) ;;
  emitAgentEnd ;;
  mret TurnFinished.

(** The rest of a turn once the assistant has answered. *)
Definition finishTurn (v : LoopVars) (message : AssistantMessage) (batch : ExecutedToolCallBatch) : M TurnResult :=
  emit (TurnEnd (MAssistant None message) batch.(b_messages)) ;;
  let v := v <| v_turnOpen := false |> in
  match batch.(b_fatal) with
  | Some e => throw e
  | None => unlessAborted v (if batch.(b_terminateRun) then endTerminated v else betweenTurns v message batch.(b_messages))
  end.

Definition noBatch : ExecutedToolCallBatch :=
  {| b_messages := []; b_steeringMessages := []; b_terminate := true; b_terminateRun := false; b_intervention := None;
     b_fatal := None |}.

(** The tools that a completed [toolUse] answer asks for. *)
Definition runTools (v : LoopVars) (message : AssistantMessage) : M (LoopVars * ExecutedToolCallBatch) :=
  if bool_decide (message.(a_stopReason) = ReasonToolUse) && negb (bool_decide (toolCallsOf message = [])) then
    seen ← gets criticalToolLoopSeen;
    batch ← awaiting (executeToolCalls message v.(v_config) seen);
    let v := v <| v_turnTainted ::= λ t, t || existsb toolResultTaintsTurn batch.(b_messages) |>
               <| v_hasMoreToolCalls := negb batch.(b_terminate) |>
               <| v_pendingMessages := batch.(b_steeringMessages) |> in
    (if bool_decide (is_Some batch.(b_intervention)) then modify (λ s, s <| criticalToolLoopSeen := true |>) else mret tt) ;;
    forEach (λ r, pushContext (MToolResult None r) ;; pushNew (MToolResult None r)) batch.(b_messages) ;;
    mret (v, batch)
  else mret (v <| v_hasMoreToolCalls := false |>, noBatch).

(** The answer of the assistant and what follows from it. *)
Definition answerTurn (fuel : nat) (v : LoopVars) : M TurnResult :=
  message ← awaiting (streamAssistantResponse fuel v.(v_config) v.(v_turnTainted));
  pushNew (MAssistant None message) ;;
  if bool_decide (message.(a_stopReason) = ReasonError) || bool_decide (message.(a_stopReason) = ReasonAborted) then
    emit (TurnEnd (MAssistant None message) []) ;;
    stopped ← isAborted;
    handoff ← gets (λ s, turnHandoff s.(world));
    (if bool_decide (message.(a_stopReason) = ReasonAborted) && stopped && negb handoff
     then awaiting appendInterruptedTurnMessage else mret tt) ;;
    emitAgentEnd ;;
    mret TurnFinished
  else
    ran ← runTools v message;
    finishTurn ran.1 message ran.2.

(** One pass of the inner loop. *)
Definition turn (fuel : nat) (v : LoopVars) : M TurnResult :=
  unlessAborted v
    (opened ← (if v.(v_firstTurn) then mret v.(v_turnOpen) else emit TurnStart ;; mret true);
     let v := v <| v_turnOpen := opened |> <| v_firstTurn := false |> in
     injection ← injectMessages v.(v_pendingMessages) v.(v_turnTainted) false;
     let waited := negb (bool_decide (v.(v_pendingMessages) = [])) in
     let v := v <| v_turnTainted := injection.1 |> <| v_pendingMessages := [] |> in
     if waited && negb injection.2 && negb v.(v_hasMoreToolCalls) then mret (TurnContinues v)
     else unlessAborted v (answerTurn fuel v)).

(** The messages that follow when the agent would stop; steering messages that
    came in the meantime count too. *)
Definition nextMessages : M (list AgentMessage) :=
  followUps ← (if has HookFollowUp then call GetFollowUpMessages else ask Tick ;; mret []);
  match followUps with [] => getSteeringAtCheckpoint | _ => mret followUps end.

(** [fuel] bounds the passes, [streamFuel] the events of one answer. *)
Fixpoint runLoop (fuel streamFuel : nat) (v : LoopVars) : M unit :=
  match fuel with
  | O => stuck
  | S fuel =>
      if v.(v_hasMoreToolCalls) || negb (bool_decide (v.(v_pendingMessages) = [])) then
        r ← turn streamFuel v;
        match r with
        | TurnFinished => mret tt
        | TurnContinues v => runLoop fuel streamFuel v
        end
      else
        pending ← nextMessages;
        match pending with
        | [] => emitAgentEnd
        | _ => runLoop fuel streamFuel (v <| v_pendingMessages := pending |> <| v_hasMoreToolCalls := true |>)
        end
  end.

Definition startLoop (fuel streamFuel : nat) (config : AgentLoopConfig) : M unit :=
  tainted ← gets (λ s, isActiveTurnTainted s.(context).(c_messages));
  pending ← getSteeringAtCheckpoint;
  runLoop fuel streamFuel
    {| v_config := config; v_firstTurn := true; v_turnOpen := true; v_turnTainted := tainted; v_hasMoreToolCalls := true;
       v_pendingMessages := pending |}.

(** ** The run *)

Fixpoint addPrompts (prompts : list AgentMessage) : M unit :=
  match prompts with
  | [] => mret tt
  | prompt :: rest =>
      cancelled ← consumeCancellation prompt;
      (if cancelled : bool then mret tt
       else
         emit (MessageStart prompt) ;;
         cancelled ← consumeCancellation prompt;
         if cancelled : bool then mret tt
         else emit (MessageEnd prompt) ;; pushContext prompt ;; pushNew prompt) ;;
      addPrompts rest
  end.

Definition runAgentLoopCore (fuel streamFuel : nat) (prompts : list AgentMessage) (config : AgentLoopConfig) :
    M (list AgentMessage) :=
  emit AgentStart ;;
  emit TurnStart ;;
  addPrompts prompts ;;
  news ← gets newMessages;
  if negb (bool_decide (prompts = [])) && bool_decide (news = []) then emit (AgentEnd []) ;; mret []
  else
    awaiting (startLoop fuel streamFuel config) ;;
    gets newMessages.

(** The copy of the context that a run works on; [recovery] is the budget that
    the runs of an agent share. *)
Definition initialState (w : W) (ctx : AgentContext) (recovery : bool) : LoopState W :=
  {| world := w; trace := []; context := ctx; newMessages := []; criticalToolLoopSeen := recovery; resolved := [];
     validated := []; disposed := [] |}.

Inductive ContinueError := NoMessages | LastIsAssistant.

Definition assertContinuableContext (ctx : AgentContext) : ContinueError + unit :=
  match last ctx.(c_messages) with
  | None => inl NoMessages
  | Some (MAssistant _ _) => inl LastIsAssistant
  | Some _ => inr tt
  end.

Definition runAgentLoop (fuel streamFuel : nat) (prompts : list AgentMessage) (config : AgentLoopConfig) :
    M (list AgentMessage) := runAgentLoopCore fuel streamFuel prompts config.

Definition runAgentLoopContinue (fuel streamFuel : nat) (config : AgentLoopConfig) (s : LoopState W) :
    ContinueError + Outcome (list AgentMessage) * LoopState W :=
  match assertContinuableContext s.(context) with
  | inl e => inl e
  | inr _ => inr (runAgentLoopCore fuel streamFuel [] config s)
  end.

(** The events that close the stream of a failed run. *)
Definition loopFailureEvents (config : AgentLoopConfig) (error : JsError) (isAborted handoff : bool) : list AgentEvent :=
  let failureMessage := MAssistant None (createFailureMessage config.(cfg_model) error isAborted) in
  let interruption := createInterruptedTurnMessage in
  let interrupted := isAborted && negb handoff in
  [MessageStart failureMessage; MessageEnd failureMessage; TurnEnd failureMessage []] ++
  (if interrupted then [MessageStart interruption; MessageEnd interruption] else []) ++
  [AgentEnd (failureMessage :: (if interrupted then [interruption] else []))].
End loop.
