(* ===== verification/AgentLoopFacts.v ===== *)
(** * What a run of the agent loop tells and returns

    Facts about [runAgentLoop] in any world: the messages it returns are those
    it announced, every tool call of them is followed by its results, content
    from the network marks the answers after it, the events of turns and of the
    run are in order, and an aborted run asks the provider nothing more. *)
From S2P Require Import Prelude JsStrings Effects AgentMessages ToolBatch ToolBatchFacts ParallelTools AgentLoop.

(** ** Orders of events and messages *)

(** Where a run is, as its events tell. *)
Inductive Phase := PhaseNew | PhaseIdle | PhaseOpen | PhaseEnded.

(** A turn may start again while it is open: the loop does so when all the
    messages that opened it were withdrawn. *)
Definition framePhase (p : Phase) (e : AgentEvent) : option Phase :=
  match p, e with
  | PhaseNew, AgentStart => Some PhaseIdle
  | PhaseIdle, TurnStart | PhaseOpen, TurnStart => Some PhaseOpen
  | PhaseOpen, TurnEnd _ _ => Some PhaseIdle
  | PhaseIdle, AgentEnd _ | PhaseOpen, AgentEnd _ => Some PhaseEnded
  | _, _ => None
  end.

Fixpoint phaseAfter (p : Phase) (events : list AgentEvent) : option Phase :=
  match events with
  | [] => Some p
  | e :: events => match framePhase p e with Some p => phaseAfter p events | None => None end
  end.

Lemma phaseAfter_app p l k : phaseAfter p (l ++ k) = match phaseAfter p l with Some p' => phaseAfter p' k | None => None end.
Proof. revert p. induction l as [|e l IH]; intros p; cbn; [done|]. destruct (framePhase p e); [apply IH|done]. Qed.

(** The calls of a message that the loop executes. *)
Definition callsAsked (m : AgentMessage) : list AgentToolCall :=
  match m with
  | MAssistant _ a => if bool_decide (a.(a_stopReason) = ReasonToolUse) then toolCallsOf a else []
  | _ => []
  end.

(** Every call is answered, in order, before anything else is said: [pending]
    are those that are not yet. *)
Fixpoint callsAnswered (pending : list AgentToolCall) (messages : list AgentMessage) : bool :=
  match messages, pending with
  | [], [] => true
  | MToolResult _ r :: messages, c :: pending =>
      bool_decide (r.(tr_toolCallId) = c.(tc_id)) && bool_decide (r.(tr_toolName) = c.(tc_name)) && callsAnswered pending messages
  | MToolResult _ _ :: _, [] => false
  | m :: messages, [] => callsAnswered (callsAsked m) messages
  | _, _ :: _ => false
  end.

(** The taint of the turn after [messages], if all the answers of tainted turns
    are marked.  The text that ends a run after its second tool loop is a
    constant and carries no mark. *)
Definition isTerminalMessage (a : AssistantMessage) : bool :=
  match a.(a_content) with [BText t] => bool_decide (t = TOOL_LOOP_RECOVERY_TERMINATED_MESSAGE) | _ => false end.

Fixpoint taintAfter (tainted : bool) (messages : list AgentMessage) : option bool :=
  match messages with
  | [] => Some tainted
  | MUser _ _ :: messages => taintAfter false messages
  | MToolResult _ r :: messages => taintAfter (tainted || r.(tr_network)) messages
  | MAssistant _ a :: messages =>
      if tainted && negb a.(a_turnTainted) && negb (isTerminalMessage a) then None else taintAfter tainted messages
  | MCustom _ _ _ _ _ _ :: messages => taintAfter tainted messages
  end.

Lemma taintAfter_app t l k : taintAfter t (l ++ k) = match taintAfter t l with Some t' => taintAfter t' k | None => None end.
Proof.
  revert t. induction l as [|m l IH]; intros t; cbn; [done|]. destruct m; try apply IH. destruct (_ && _); [done|apply IH].
Qed.

Lemma callsAnswered_app l k : ∀ pending, callsAnswered pending l = true → callsAnswered pending (l ++ k) = callsAnswered [] k.
Proof.
  induction l as [|m l IH]; intros pending; [by destruct pending|]. cbn. destruct m, pending; try done; intros Hl.
  - by apply IH.
  - by apply IH.
  - apply andb_true_iff in Hl as [-> Hl]. by apply IH.
  - by apply IH.
Qed.

(** What users and extensions say: no answers, no results. *)
Definition plain (m : AgentMessage) : bool := match m with MUser _ _ | MCustom _ _ _ _ _ _ => true | _ => false end.

Definition isUser (m : AgentMessage) : bool := match m with MUser _ _ => true | _ => false end.

Lemma plain_answered l : Forall (λ m, plain m = true) l → callsAnswered [] l = true.
Proof. induction 1 as [|m l Hm _ IH]; [done|]. by destruct m. Qed.

Lemma plain_taint l t : Forall (λ m, plain m = true) l → taintAfter t l = Some (t && negb (existsb isUser l)).
Proof.
  intros Hl. revert t. induction Hl as [|m l Hm _ IH]; intros t; cbn; [by rewrite andb_true_r|].
  destruct m; try done; cbn; by rewrite IH, andb_false_r.
Qed.

(** What an answer with its results is. *)
Lemma results_answered calls (ms : list ToolResultMessage) l :
  (λ m, (m.(tr_toolCallId), m.(tr_toolName))) <$> ms = (λ c, (c.(tc_id), c.(tc_name))) <$> calls →
  callsAnswered calls ((MToolResult None <$> ms) ++ l) = callsAnswered [] l.
Proof.
  revert calls. induction ms as [|m ms IH]; intros [|c calls]; try done. cbn. intros [= -> -> Hr].
  rewrite !bool_decide_eq_true_2 by done. by apply IH.
Qed.

Lemma results_taint t (ms : list ToolResultMessage) l :
  taintAfter t ((MToolResult None <$> ms) ++ l) = taintAfter (t || existsb toolResultTaintsTurn ms) l.
Proof.
  revert t. induction ms as [|m ms IH]; intros t; cbn; [by rewrite orb_false_r|]. rewrite IH. by rewrite orb_assoc.
Qed.

(** Queues that hold what users and extensions say. *)
Class PlainQueues (W : Type) `{LoopEnv W} : Prop := {
  plain_steering w ms w' : perform GetSteeringMessages w = (inr ms, w') → Forall (λ m, plain m = true) ms;
  plain_followUps w ms w' : perform GetFollowUpMessages w = (inr ms, w') → Forall (λ m, plain m = true) ms
}.

Section facts.
Context `{LoopEnv W, !AbortSticky W}.

(** Steps of a run. *)
Record turns (d : Delta) (s s' : LoopState W) : Prop := {
  tn_trace : ∃ tr, s'.(trace) = s.(trace) ++ tr ∧ delta tr = d;
  tn_aborted : aborted s.(world) = true → aborted s'.(world) = true
}.

Lemma batchMoves_turns d s s' : batchMoves d s s' → turns d s s'.
Proof. by intros []. Qed.

Lemma moves_turns d s s' : moves d s s' → turns d s s'.
Proof. by intros []. Qed.

#[export] Instance turns_stepping : Stepping turns.
Proof.
  split; [apply moves_turns|]. intros a b s1 s2 s3 [(t1 & E1 & D1) ?] [(t2 & E2 & D2) ?]. split; [|auto].
  exists (t1 ++ t2). rewrite E2, E1, app_assoc, delta_app. by rewrite D1, D2.
Qed.

Lemma turns_same (s s' : LoopState W) : s'.(trace) = s.(trace) → s'.(world) = s.(world) → turns d_nil s s'.
Proof. intros Ht Hw. split; [exists []; by rewrite app_nil_r|by rewrite Hw]. Qed.

Lemma spec_stuck (R : Delta → LoopState W → LoopState W → Prop) {A} (Q : A → Delta → LoopState W → Prop) X s :
  Spec R True stuck Q X s.
Proof. done. Qed.

(** ** Steps of the loop *)

(** What a step says: messages, frames of events, requests and bodies. *)
Definition says (ms : list AgentMessage) (fs : list AgentEvent) (d : Delta) : Prop :=
  d.(d_committed) = ms ∧ d.(d_frames) = fs.

Lemma says_app ms1 fs1 d1 ms2 fs2 d2 : says ms1 fs1 d1 → says ms2 fs2 d2 → says (ms1 ++ ms2) (fs1 ++ fs2) (d_app d1 d2).
Proof. intros [] []. split; cbn; congruence. Qed.

Lemma streamEvents_spec fuel tainted : ∀ partialMessage s,
  Spec batchMoves True (streamEvents fuel partialMessage tainted)
    (λ m d _, d = d_nil <| d_committed := [MAssistant None m] |> ∧ (tainted = true → a_turnTainted m = true)) any s.
Proof.
  assert (Hf : ∀ added s, Spec batchMoves True (finalizeAssistantMessage added tainted)
    (λ m d _, d = d_nil <| d_committed := [MAssistant None m] |> ∧ (tainted = true → a_turnTainted m = true)) any s).
  { intros added s. unfold finalizeAssistantMessage. step1. step1. step1. step1.
    eapply (spec_inner moves) with (Q := λ _ d _, d = d_nil); [apply moves_batchMoves|..|done].
    { destruct (hasTurnIdentity _); [by step1|]. by step1. }
    cbv beta. intros uuid d s1 Hm1 -> _. step1. eapply spec_mono with (Q := λ _ d _, d = d_nil) (X := any).
    { destruct added.
      - apply spec_modify; [|done]. split; [exists []; by rewrite app_nil_r|done..].
      - step1. apply spec_modify; [split; [exists []; by rewrite app_nil_r|done..]|]. intros _. by steps. }
    2: done.
    cbv beta. intros _ d s2 Hm2 -> _. steps. split; [done|]. intros ->. done. }
  induction fuel as [|fuel IH]; intros partialMessage s; cbn [streamEvents]; [apply spec_stuck|].
  step1. step1. step1. destruct a as [[partial|contentIndex dl partial|partial|]|].
  - step1. apply spec_modify; [split; [exists []; by rewrite app_nil_r|done..]|]. intros _. step1. step1. step1.
    eapply spec_mono; [apply IH|by intros ? ? ? _ H'; rewrite ?d_app_nil_l|done].
  - destruct partialMessage as [current|].
    + step1. apply spec_modify; [split; [exists []; by rewrite app_nil_r|done..]|]. intros _. step1. step1. step1.
      eapply spec_mono; [apply IH|by intros ? ? ? _ H'; rewrite ?d_app_nil_l|done].
    + eapply spec_mono; [apply IH|by intros ? ? ? _ H'; rewrite ?d_app_nil_l|done].
  - destruct partialMessage as [current|].
    + step1. apply spec_modify; [split; [exists []; by rewrite app_nil_r|done..]|]. intros _. step1. step1. step1.
      eapply spec_mono; [apply IH|by intros ? ? ? _ H'; rewrite ?d_app_nil_l|done].
    + eapply spec_mono; [apply IH|by intros ? ? ? _ H'; rewrite ?d_app_nil_l|done].
  - step1. eapply spec_mono; [apply Hf|by intros ? ? ? _ H' ? _; rewrite ?d_app_nil_l|done].
  - step1. eapply spec_mono; [apply Hf|by intros ? ? ? _ H' ? _; rewrite ?d_app_nil_l|done].
Qed.

Lemma stream_spec fuel config tainted s :
  Spec batchMoves True (streamAssistantResponse fuel config tainted)
    (λ m d _, d = d_nil <| d_committed := [MAssistant None m] |> <| d_requests := 1%nat |> ∧
              (tainted = true → a_turnTainted m = true)) any s.
Proof.
  unfold streamAssistantResponse. step1. step1. step1. step1.
  eapply (spec_inner moves) with (Q := λ _ d _, d = d_nil); [apply moves_batchMoves|..|done].
  { destruct (has _); by step1. }
  cbv beta. intros messages d s1 Hm1 -> _. steps. eapply spec_mono; [apply streamEvents_spec| |done]. cbv beta.
  by intros m d s4 _ [-> Ht].
Qed.

(** ** What queues give *)

(** Every value that [m] returns satisfies [P]. *)
Definition returns {A} (P : A → Prop) (m : Eff (LoopState W) A) : Prop :=
  ∀ s, match (m s).1 with Ret a => P a | _ => True end.

Lemma returns_ret {A} (P : A → Prop) a : P a → returns P (mret a).
Proof. by intros Ha s. Qed.

Lemma returns_bind {A B} (P : A → Prop) (Q : B → Prop) m (k : A → Eff (LoopState W) B) :
  returns P m → (∀ a, P a → returns Q (k a)) → returns Q (m ≫= k).
Proof.
  intros Hm Hk s. specialize (Hm s). unfold mbind, Eff_bind. destruct (m s) as [[a| |] s']; cbn in *; [by apply Hk|done..].
Qed.

Lemma returns_then {A B} (Q : B → Prop) m (k : A → Eff (LoopState W) B) : (∀ a, returns Q (k a)) → returns Q (m ≫= k).
Proof. intros Hk. apply (returns_bind (λ _, True)); [by intros s; destruct (m s) as [[] ?]|auto]. Qed.

Lemma returns_finally {A} (P : A → Prop) (m : Eff (LoopState W) A) f : returns P m → returns P (tryFinally m f).
Proof. intros Hm s. specialize (Hm s). unfold tryFinally. destruct (m s) as [[] s']; cbn in *; [..|done]; by destruct (f s') as [[] ?]. Qed.

Lemma returns_awaiting {A} (P : A → Prop) (m : Eff (LoopState W) A) : returns P m → returns P (awaiting m).
Proof. intros Hm s. specialize (Hm s). unfold awaiting, after. by destruct (m s). Qed.

Context `{!PlainQueues W}.

Definition allPlain : list AgentMessage → Prop := Forall (λ m, plain m = true).

Lemma returns_steering : returns allPlain getSteeringAtCheckpoint.
Proof.
  unfold getSteeringAtCheckpoint. destruct (has _); [|by apply returns_ret, Forall_nil_2]. intros s. unfold call, ask, mbind, Eff_bind.
  destruct (perform GetSteeringMessages (world s)) as [[e|ms] w] eqn:E; cbn; [done|]. by eapply plain_steering.
Qed.

Lemma returns_followUps : returns allPlain nextMessages.
Proof.
  unfold nextMessages. apply (returns_bind allPlain).
  - destruct (has _); [|by apply returns_then; intros; apply returns_ret, Forall_nil_2]. intros s. unfold call, ask, mbind, Eff_bind.
    destruct (perform GetFollowUpMessages (world s)) as [[e|ms] w] eqn:E; cbn; [done|]. by eapply plain_followUps.
  - intros [|m ms] Hms; [apply returns_steering|by apply returns_ret].
Qed.

Lemma returns_poll : returns allPlain pollSteering.
Proof. unfold pollSteering. apply returns_then. intros []; [by apply returns_ret, Forall_nil_2|apply returns_steering]. Qed.

Definition plainStep (step : SequentialStep) : Prop := match step with StepSteered ms => allPlain ms | _ => True end.

Lemma returns_runReady message lifecycle rest r : returns plainStep (runReady message lifecycle rest r).
Proof.
  unfold runReady. apply returns_finally. eapply returns_bind; [apply returns_poll|]. intros [|m ms] Hms; [|by apply returns_ret].
  apply returns_then. intros l. destruct (l_rejected l) as [[]|]; repeat (apply returns_then; intros); by apply returns_ret.
Qed.

Lemma returns_loop message lifecycle calls : ∀ q, allPlain q.(q_steering) →
  returns (λ q', allPlain q'.(q_steering)) (sequentialLoop message lifecycle calls q).
Proof.
  induction calls as [|[i c] rest IH]; intros q Hq; cbn [sequentialLoop]; [by apply returns_ret|].
  eapply returns_bind; [apply returns_poll|]. intros [|m ms] Hms; [|by apply returns_ret].
  apply returns_then. intros entry. apply (returns_bind plainStep).
  { destruct entry; [by apply returns_ret|apply returns_runReady]. }
  intros [fin|ms|e fin m] Hst; [|destruct entry; by apply returns_ret|by apply returns_ret].
  do 3 (apply returns_then; intros). case_match; [by apply returns_ret|by apply IH].
Qed.

Lemma returns_batch message config seen :
  returns (λ b, allPlain b.(b_steeringMessages)) (executeToolCalls message config seen).
Proof.
  unfold executeToolCalls. apply returns_then. intros _. apply returns_then. intros [intervention|lifecycle].
  { apply returns_awaiting. unfold completeToolLoopInterventionBatch. apply returns_then. intros r. by apply returns_ret, Forall_nil_2. }
  apply returns_then. intros [].
  - unfold executeToolCallsSequential. eapply returns_bind; [by apply returns_loop, Forall_nil_2|]. intros q Hq. apply returns_then. intros stopped.
    apply (returns_bind allPlain); [case_match; [apply returns_steering|by apply returns_ret]|]. intros ms Hms.
    do 2 (apply returns_then; intros). by apply returns_ret.
  - unfold executeToolCallsParallel. apply returns_then. intros prepared. apply returns_finally. destruct prepared.2; [by intros s|].
    unfold parallelBody. eapply returns_bind; [apply returns_poll|]. intros ms Hms. do 5 (apply returns_then; intros).
    by apply returns_ret.
Qed.

Lemma spec_returns {R : Delta → LoopState W → LoopState W → Prop} {T : Prop} {A} (P : A → Prop) (m : Eff (LoopState W) A)
    (Q : A → Delta → LoopState W → Prop) X s :
  returns P m → Spec R T m Q X s → Spec R T m (λ a d s', Q a d s' ∧ P a) X s.
Proof.
  intros Hr Hm. specialize (Hr s). unfold Spec, wp in *. destruct (m s) as [[a|e|] s']; cbn in Hr; [|done..].
  destruct Hm as (d & Hd & HQ). by exists d.
Qed.

(** ** From one point of a run to another *)

(** What was said is what the run returns so far, its calls are answered, its
    taint is kept, and the events are in order. *)
Record goes (p : Phase) (t : bool) (s : LoopState W) (p' : Phase) (t' : bool) (d : Delta) (s' : LoopState W) : Prop := {
  go_news : s'.(newMessages) = s.(newMessages) ++ d.(d_committed);
  go_answered : callsAnswered [] d.(d_committed) = true;
  go_phase : phaseAfter p d.(d_frames) = Some p';
  go_taint : taintAfter t d.(d_committed) = Some t'
}.

Lemma goes_trans p t s p1 t1 d1 s1 p2 t2 d2 s2 : goes p t s p1 t1 d1 s1 → goes p1 t1 s1 p2 t2 d2 s2 →
  goes p t s p2 t2 (d_app d1 d2) s2.
Proof.
  intros [N1 A1 P1 T1] [N2 A2 P2 T2]. split; cbn.
  - by rewrite N2, N1, app_assoc.
  - by rewrite callsAnswered_app.
  - by rewrite phaseAfter_app, P1.
  - by rewrite taintAfter_app, T1.
Qed.

Lemma goes_nil p t (s s' : LoopState W) : s'.(newMessages) = s.(newMessages) → goes p t s p t d_nil s'.
Proof. intros Hn. split; [by rewrite Hn, app_nil_r|done..]. Qed.

Lemma goes_quiet p t (s s' : LoopState W) d : d.(d_committed) = [] → d.(d_frames) = [] →
  s'.(newMessages) = s.(newMessages) → goes p t s p t d s'.
Proof. intros Ed Ef Hn. split; rewrite ?Ed, ?Ef; [by rewrite Hn, app_nil_r|done..]. Qed.

(** The end of a run: its last event carries its messages. *)
Definition over (p : Phase) (t : bool) (s : LoopState W) (d : Delta) (s' : LoopState W) : Prop :=
  ∃ t', goes p t s PhaseEnded t' d s' ∧ last d.(d_frames) = Some (AgentEnd s'.(newMessages)).

Lemma goes_over p t s p1 t1 d1 s1 d2 s2 : goes p t s p1 t1 d1 s1 → over p1 t1 s1 d2 s2 → over p t s (d_app d1 d2) s2.
Proof.
  intros H1 (t' & H2 & Hl). exists t'. split; [by eapply goes_trans|]. cbn. by rewrite last_app, Hl.
Qed.

Definition phaseOf (v : LoopVars) : Phase := if v.(v_turnOpen) then PhaseOpen else PhaseIdle.

Record loopOk (v : LoopVars) : Prop := {
  ok_first : v.(v_firstTurn) = true → v.(v_turnOpen) = true;
  ok_plain : allPlain v.(v_pendingMessages)
}.

(** What a turn leaves. *)
Definition leaves (p : Phase) (t : bool) (s : LoopState W) (r : TurnResult) (d : Delta) (s' : LoopState W) : Prop :=
  match r with
  | TurnFinished => over p t s d s'
  | TurnContinues v => goes p t s (phaseOf v) v.(v_turnTainted) d s' ∧ loopOk v
  end.

Lemma goes_leaves p t s p1 t1 d1 s1 r d2 s2 : goes p t s p1 t1 d1 s1 → leaves p1 t1 s1 r d2 s2 → leaves p t s r (d_app d1 d2) s2.
Proof. intros H1. destruct r as [|v]; cbn; [by apply goes_over|]. intros [H2 ?]. split; [by eapply goes_trans|done]. Qed.

Abbreviation run := (Spec turns True).

(** A step of a few known events. *)
Lemma pushNew_spec (T : Prop) m (Q : unit → Delta → LoopState W → Prop) X s :
  Q tt d_nil (s <| newMessages ::= λ l, l ++ [m] |>) → Spec turns T (pushNew m) Q X s.
Proof. intros HQ. apply spec_modify; [by apply turns_same|done]. Qed.

Lemma pushContext_spec (T : Prop) m (Q : unit → Delta → LoopState W → Prop) X s :
  Q tt d_nil (s <| context ::= λ c, c <| c_messages ::= λ l, l ++ [m] |> |>) → Spec turns T (pushContext m) Q X s.
Proof. intros HQ. apply spec_modify; [by apply turns_same|done]. Qed.
End facts.

(** Steps of the loop that the run's logic knows. *)
Ltac step2 :=
  first
    [ step1
    | match goal with
      | |- Spec turns _ (pushNew _) _ _ _ => apply pushNew_spec
      | |- Spec turns _ (pushContext _) _ _ _ => apply pushContext_spec
      | |- turns _ _ _ → _ => intros ?
      | |- ∀ _, moves _ _ _ → _ => intros ? ?
      end; cbv beta; rewrite ?d_app_nil_l, ?d_app_nil_r ].
Ltac steps2 := repeat step2.

(** The messages of the run after the steps since [s]. *)
Ltac follow_news :=
  repeat match goal with
         | Hm : moves _ ?s ?s' |- _ => let E := fresh "E" in pose proof (mv_news _ _ _ Hm) as E; cbn in E; clear Hm
         | Hm : turns _ _ _ |- _ => clear Hm
         end; cbn;
  repeat match goal with E : newMessages _ = _ |- _ => rewrite E end; rewrite <-?app_assoc, ?app_nil_r; cbn.

Section run.
Context `{LoopEnv W, !AbortSticky W, !PlainQueues W}.

Abbreviation run := (Spec turns True).

(** The failure of a run that is stopped is marked where its turn is tainted. *)
Lemma failure_taint t a : (t = true → a.(a_turnTainted) = true) → taintAfter t [MAssistant None a] = Some t.
Proof. intros Ha. cbn. destruct t; [|done]. by rewrite (Ha eq_refl). Qed.

Lemma failure_calls model e stopped ref : callsAsked (MAssistant ref (createFailureMessage model e stopped)) = [].
Proof. by destruct stopped. Qed.

Lemma over_now p t t' (s : LoopState W) d (s' : LoopState W) : s'.(newMessages) = s.(newMessages) ++ d.(d_committed) → callsAnswered [] d.(d_committed) = true →
  phaseAfter p d.(d_frames) = Some PhaseEnded → taintAfter t d.(d_committed) = Some t' →
  last d.(d_frames) = Some (AgentEnd s'.(newMessages)) → over p t s d s'.
Proof. intros. exists t'. by split; [split|]. Qed.

Lemma taint_failure (t : bool) a : t && negb (a_turnTainted (withAssistantTurnTaint a t)) = false.
Proof. by destruct t. Qed.

Lemma calls_failure model e stopped t ref :
  callsAsked (MAssistant ref (withAssistantTurnTaint (createFailureMessage model e stopped) t)) = [].
Proof. by destruct stopped, t. Qed.

Lemma endAborted_spec v s : run (endAborted v) (λ _ d s', over (phaseOf v) v.(v_turnTainted) s d s') any s.
Proof.
  unfold endAborted, emitAgentEnd, appendInterruptedTurnMessage. step2. step2. step2. set (m := withAssistantTurnTaint _ _).
  assert (Hc : callsAsked (MAssistant None m) = []) by apply calls_failure.
  assert (Ht : v_turnTainted v && negb (a_turnTainted m) = false) by apply taint_failure. clearbody m.
  unfold phaseOf. destruct (v_turnOpen v); steps2; destruct (turnHandoff _); steps2; apply over_now with (t' := v_turnTainted v).
  all: follow_news; try done.
  all: cbn in *; rewrite ?Hc, ?Ht; try done.
Qed.

(** [k] runs from the same point unless the run ends there. *)
Lemma unlessAborted_spec v k s :
  (∀ s', turns d_nil s s' → s'.(newMessages) = s.(newMessages) →
     run k (leaves (phaseOf v) v.(v_turnTainted) s') any s') →
  run (unlessAborted v k) (leaves (phaseOf v) v.(v_turnTainted) s) any s.
Proof.
  intros Hk. unfold unlessAborted. step1. unfold stopIfAborted. step1. step1. step1. step1. destruct (aborted (world s)) eqn:Ha.
  - step1. eapply spec_mono; [apply endAborted_spec| |done]. cbv beta. intros _ d s1 Hm1 Hover _. step1. intros s2 Hm2 _. step1.
    destruct Hover as (t' & [N A P T'] & Hl). exists t'. rewrite ?d_app_nil_l. split; [split|]; cbn; try done.
    + by rewrite (mv_news _ _ _ Hm2).
    + by rewrite (mv_news _ _ _ Hm2).
  - step1. intros s1 Hm1 Ht1. eapply spec_mono; [apply Hk; [done|by eapply mv_news]| |done]. cbv beta. intros r d s2 Hm2 Hl.
    rewrite ?d_app_nil_l. rewrite <-(d_app_nil_l d). eapply goes_leaves; [|exact Hl]. apply goes_nil. by eapply mv_news.
Qed.

Lemma consume_spec m s :
  run (consumeCancellation m)
    (λ r d s', d.(d_committed) = [] ∧ d.(d_frames) = [] ∧ s'.(newMessages) = s.(newMessages)) any s.
Proof.
  unfold consumeCancellation. destruct (negb _); [by step1|]. step1. step1. step1.
  destruct a; [|step1; by repeat split; eapply mv_news]. step1. step1. step1. step1. repeat split. by follow_news.
Qed.

(** What a run of injected messages adds. *)
Lemma injectMessages_spec messages : ∀ tainted injected s, allPlain messages →
  run (injectMessages messages tainted injected)
    (λ r d s', goes PhaseOpen tainted s PhaseOpen r.1 d s') any s.
Proof.
  induction messages as [|m rest IH]; intros tainted injected s Hp; cbn [injectMessages].
  { step1. by apply goes_nil. }
  apply Forall_cons in Hp as [Hm Hp]. step1. eapply spec_mono; [apply consume_spec| |done]. cbv beta. intros [] d1 s1 Hm1 (D1 & F1 & N1) _.
  { eapply spec_mono; [by apply IH| |done]. cbv beta. intros r d s2 _ Hr. eapply goes_trans; [by eapply (goes_quiet _ _ s s1)|done]. }
  step1. step1. step1. step1. eapply spec_mono; [apply consume_spec| |done]. cbv beta. intros [] d2 s2 Hm2 (D2 & F2 & N2) _.
  { eapply spec_mono; [by apply IH| |done]. cbv beta. intros r d s3 _ Hr. eapply goes_trans; [by eapply (goes_quiet _ _ s s1)|].
    eapply goes_trans; [eapply (goes_quiet _ _ s1 s'); [done..|by eapply mv_news]|].
    eapply goes_trans; [by eapply (goes_quiet _ _ s' s2)|done]. }
  step2. step2. step2. step2. step2. step2. step2. step2. step2.
  eapply spec_mono; [by apply IH| |done]. cbv beta. intros r d s4 _ Hr. rewrite ?d_app_nil_l.
  eapply goes_trans; [by eapply (goes_quiet _ _ s s1)|]. assert (newMessages s2 = newMessages s1).
  { rewrite N2. by eapply mv_news. }
  eapply goes_trans; [by eapply (goes_quiet _ _ s1 s2)|]. eapply goes_trans; [|exact Hr]. split; cbn; try by destruct m.
  follow_news. done.
Qed.

Lemma endTerminated_spec v s : v.(v_turnOpen) = false →
  run (endTerminated v) (leaves (phaseOf v) v.(v_turnTainted) s) any s.
Proof.
  intros Ho. unfold endTerminated, emitAgentEnd, phaseOf. rewrite Ho. set (a := _ <| a_content := _ |>).
  assert (Ha : isTerminalMessage a = true) by (unfold isTerminalMessage; cbn; by rewrite bool_decide_eq_true_2).
  assert (Hc : callsAsked (MAssistant None a) = []) by done. clearbody a.
  steps2. apply over_now with (t' := v_turnTainted v); follow_news; try done; cbn in *; rewrite ?Hc, ?Ha, ?andb_false_r; done.
Qed.

Lemma continue_spec v s : loopOk v →
  run (unlessAborted v (mret (TurnContinues v))) (leaves (phaseOf v) v.(v_turnTainted) s) any s.
Proof. intros Hv. apply unlessAborted_spec. intros s' _ Hn. step1. split; [by apply goes_nil|done]. Qed.

(** The messages that a turn found waiting, or those of the queue. *)
Lemma betweenTurns_spec v message results s : v.(v_turnOpen) = false → loopOk v →
  run (betweenTurns v message results) (leaves (phaseOf v) v.(v_turnTainted) s) any s.
Proof.
  intros Ho [Hf Hp]. assert (Hnf : v_firstTurn v = false).
  { destruct (v_firstTurn v); [|done]. specialize (Hf eq_refl). congruence. }
  unfold betweenTurns. do 7 step2. step2. step2. step2.
  eapply spec_mono with (Q := λ _ d s', d = d_nil ∧ newMessages s' = newMessages s) (X := any); [|cbv beta|done].
  { destruct a as [u|]; [|step2; split; [done|by follow_news]]. step1. apply spec_modify; [by apply turns_same|]. intros _.
    step2. split; [done|by follow_news]. }
  intros config d s2 Hm2 [-> N2] _. set (v2 := v <| v_config := config |>).
  assert (Hv2 : loopOk v2) by done. change (phaseOf v) with (phaseOf v2). change (v_turnTainted v) with (v_turnTainted v2).
  eapply spec_mono; [apply unlessAborted_spec|..|done]; [|cbv beta; intros r d s3 Hm3 Hl; eapply (goes_leaves _ _ _ _ _ _ s2);
    [by apply goes_nil|by rewrite ?d_app_nil_l]].
  assert (Ho2 : v_turnOpen v2 = false) by done. clearbody v2. intros s3 Hm3 N3.
  destruct (v_pendingMessages v2) as [|m ms] eqn:Epending; [|by apply continue_spec].
  do 7 step2.
  eapply spec_mono with (Q := λ _ d s', d = d_nil ∧ newMessages s' = newMessages s3) (X := any); [|cbv beta|done].
  { destruct (has _); steps2; (split; [done|by follow_news]). }
  intros stop d s4 Hm4 [-> N4] _. destruct stop.
  - unfold emitAgentEnd. steps2. apply over_now with (t' := v_turnTainted v2); unfold phaseOf; rewrite ?Ho2; follow_news; rewrite ?N4; done.
  - step1. eapply spec_mono with (Q := λ ms d s', (d = d_nil ∧ newMessages s' = newMessages s4) ∧ allPlain ms) (X := any); [|cbv beta|done].
    { apply (spec_returns allPlain _ (λ _ d s', d = d_nil ∧ newMessages s' = newMessages s4)); [apply returns_steering|].
      unfold getSteeringAtCheckpoint. destruct (has _); steps2; (split; [done|by follow_news]). }
    intros ms d s5 Hm5 [[-> N5] Hms] _. set (v3 := v2 <| v_pendingMessages := ms |>).
    assert (Hv3 : loopOk v3). { split; [|done]. cbn. apply Hv2. }
    change (phaseOf v2) with (phaseOf v3). change (v_turnTainted v2) with (v_turnTainted v3).
    eapply spec_mono; [by apply continue_spec| |done]. cbv beta. intros r d s6 Hm6 Hl. rewrite ?d_app_nil_l.
    rewrite <-(d_app_nil_l d). eapply (goes_leaves _ _ _ _ _ _ s5); [apply goes_nil; congruence|exact Hl].
Qed.

(** A continuation that starts at the point where the step before it ended. *)
Lemma from_here p t s s1 d (m : Eff (LoopState W) TurnResult) p1 t1 : goes p t s p1 t1 d s1 →
  run m (leaves p1 t1 s1) any s1 → run m (λ r d2, leaves p t s r (d_app d d2)) any s1.
Proof. intros Hg Hm. eapply spec_mono; [exact Hm| |done]. cbv beta. intros r d2 s2 _ Hl. by eapply goes_leaves. Qed.

Lemma finishTurn_spec v message batch s : loopOk v → v.(v_firstTurn) = false →
  run (finishTurn v message batch) (leaves PhaseOpen v.(v_turnTainted) s) any s.
Proof.
  intros [Hf Hp] Hnf. unfold finishTurn. step2. step2. step2. set (v1 := v <| v_turnOpen := false |>).
  assert (Hv1 : loopOk v1) by (split; [cbn; congruence|done]). assert (Ho1 : v_turnOpen v1 = false) by done.
  change (v_turnTainted v) with (v_turnTainted v1). clearbody v1.
  apply (from_here _ _ _ _ _ _ (phaseOf v1) (v_turnTainted v1)).
  { unfold phaseOf. rewrite Ho1. split; cbn; try done. rewrite app_nil_r. by eapply mv_news. }
  destruct (b_fatal batch); [by step1|]. apply unlessAborted_spec. intros s2 Hm2 N2.
  destruct (b_terminateRun batch); [by apply endTerminated_spec|by apply betweenTurns_spec].
Qed.

Lemma pushResults_spec rs : ∀ s,
  run (forEach (λ r, pushContext (MToolResult None r) ;; pushNew (MToolResult None r)) rs)
    (λ _ d s', d = d_nil ∧ s'.(newMessages) = s.(newMessages) ++ (MToolResult None <$> rs)) any s.
Proof.
  induction rs as [|r rs IH]; intros s; cbn [forEach]; [step1; by rewrite app_nil_r|]. do 6 step2.
  eapply spec_mono; [apply IH| |done]. cbv beta. intros _ d s' _ [-> N]. cbn in N. rewrite ?d_app_nil_l. split; [done|].
  by rewrite N, <-app_assoc.
Qed.

(** The tools of an answer: their results follow it. *)
Lemma runTools_spec v message s : loopOk v →
  run (runTools v message)
    (λ r d s', ∃ rs : list ToolResultMessage,
       d.(d_committed) = MToolResult None <$> rs ∧ d.(d_frames) = [] ∧
       s'.(newMessages) = s.(newMessages) ++ (MToolResult None <$> rs) ∧
       (λ m, (m.(tr_toolCallId), m.(tr_toolName))) <$> rs =
         (λ c, (c.(tc_id), c.(tc_name))) <$> callsAsked (MAssistant None message) ∧
       r.1.(v_turnTainted) = v.(v_turnTainted) || existsb toolResultTaintsTurn rs ∧
       r.1.(v_firstTurn) = v.(v_firstTurn) ∧ loopOk r.1) any s.
Proof.
  intros [Hf Hp]. unfold runTools, callsAsked. case_bool_decide as Hu; cbn [andb]; [case_bool_decide as Hc; cbn [negb]|].
  - step1. exists []. rewrite Hc, app_nil_r. cbn. by rewrite orb_false_r.
  - step2. step2. step2. step2. step2. eapply spec_mono with (X := any).
    { apply (spec_inner batchMoves) with (Q := λ b d _, answered (numbered (toolCallsOf message)) b.(b_messages) d ∧ allPlain b.(b_steeringMessages))
        (Q' := λ b d s1, (answered (numbered (toolCallsOf message)) b.(b_messages) d ∧ allPlain b.(b_steeringMessages)) ∧ newMessages s1 = newMessages s).
      - apply batchMoves_turns.
      - apply spec_returns; [apply returns_batch|]. eapply spec_mono; [apply executeToolCalls_spec| |done]. by intros b d s1 _ [Ha _].
      - intros b d s1 Hm1 Ha. split; [done|by eapply bm_news].
      - done. }
    2: done.
    cbv beta. intros b d s1 Hm1 [[Ha Hst] N1] s2 Hm2 _. step1.
    eapply spec_mono with (Q := λ _ d s', d = d_nil ∧ newMessages s' = newMessages s2) (X := any); [|cbv beta|done].
    { case_bool_decide; [|by step1]. apply spec_modify; [by apply turns_same|done]. }
    intros _ d3 s3 Hm3 [-> N3] _. step1. eapply spec_mono; [apply pushResults_spec| |done]. cbv beta.
    intros _ d4 s4 Hm4 [-> N4] _. step1. exists (b_messages b). cbn. rewrite ?app_nil_r.
    pose proof (an_answers _ _ _ Ha) as Hans. rewrite <-(numbered_calls (toolCallsOf message)), <-list_fmap_compose.
    split_and!; try done; [apply Ha|apply Ha|].
    rewrite N4, N3. by rewrite (mv_news _ _ _ Hm2), N1.
  - step1. exists []. rewrite app_nil_r. cbn. by rewrite orb_false_r.
Qed.

(** An answer with the results of its calls. *)
Lemma answer_goes t message rs d1 d2 (s s1 : LoopState W) : d1.(d_committed) = [MAssistant None message] → d1.(d_frames) = [] →
  (t = true → a_turnTainted message = true) → d2.(d_committed) = MToolResult None <$> rs → d2.(d_frames) = [] →
  s1.(newMessages) = (s.(newMessages) ++ [MAssistant None message]) ++ (MToolResult None <$> rs) →
  (λ m, (m.(tr_toolCallId), m.(tr_toolName))) <$> rs = (λ c, (c.(tc_id), c.(tc_name))) <$> callsAsked (MAssistant None message) →
  goes PhaseOpen t s PhaseOpen (t || existsb toolResultTaintsTurn rs) (d_app d1 d2) s1.
Proof.
  intros C1 F1 Ht C2 F2 N Ha. split; cbn [d_committed d_frames d_app]; rewrite ?C1, ?C2, ?F1, ?F2.
  - by rewrite N, <-app_assoc.
  - cbn [app callsAnswered]. rewrite <-(app_nil_r (MToolResult None <$> rs)). by rewrite results_answered.
  - done.
  - cbn [app taintAfter]. assert (t && negb (a_turnTainted message) = false) as -> by (destruct t; [by rewrite Ht|done]). cbn [andb].
    rewrite <-(app_nil_r (MToolResult None <$> rs)). by rewrite results_taint.
Qed.

Lemma answerTurn_spec fuel v s : loopOk v → v.(v_firstTurn) = false →
  run (answerTurn fuel v) (leaves PhaseOpen v.(v_turnTainted) s) any s.
Proof.
  intros Hv Hnf. unfold answerTurn. step1. step1. eapply (spec_inner batchMoves); [apply batchMoves_turns|apply stream_spec| |done].
  cbv beta. intros message d1 s1 Hm1 [-> Ht] s2 Hm2 _. step2. step2. step2.
  assert (N1 : newMessages s1 = newMessages s) by by eapply bm_news.
  assert (N2 : newMessages s2 = newMessages s) by (rewrite (mv_news _ _ _ Hm2); done).
  destruct (bool_decide (a_stopReason message = ReasonError) || bool_decide (a_stopReason message = ReasonAborted)) eqn:Hstop.
  - assert (Hc : callsAsked (MAssistant None message) = []).
    { unfold callsAsked. apply orb_true_iff in Hstop as [Hs|Hs]; apply bool_decide_eq_true in Hs; by rewrite Hs. }
    assert (Hmark : v_turnTainted v && negb (a_turnTainted message) = false) by (destruct (v_turnTainted v); [by rewrite Ht|done]).
    unfold emitAgentEnd, appendInterruptedTurnMessage. do 9 step2. step2. destruct (_ && _ && _); steps2;
      apply over_now with (t' := v_turnTainted v); follow_news; cbn in *; rewrite ?N2, ?N1, ?Hc, ?Hmark, <-?app_assoc; done.
  - step1. eapply spec_mono; [by apply runTools_spec| |done]. cbv beta.
    intros r d3 s3 Hm3 (rs & C & F & N & Ha & Et & Ef & Hok) _. cbn in N. rewrite N2 in N. rewrite ?d_app_nil_l.
    eapply spec_mono; [apply finishTurn_spec; [done|by rewrite Ef]| |done]. cbv beta. intros r' d4 s4 Hm4 Hl.
    rewrite ?d_app_nil_l, d_app_assoc. eapply goes_leaves; [|exact Hl]. rewrite Et. by eapply answer_goes.
Qed.

Lemma turn_spec fuel v s : loopOk v → run (turn fuel v) (leaves (phaseOf v) v.(v_turnTainted) s) any s.
Proof.
  intros [Hf Hp]. unfold turn. apply unlessAborted_spec. intros s1 Hm1 N1. step1.
  eapply spec_mono with (Q := λ o d s', o = true ∧ goes (phaseOf v) v.(v_turnTainted) s1 PhaseOpen v.(v_turnTainted) d s') (X := any); [|cbv beta|done].
  { destruct (v_firstTurn v).
    - step1. specialize (Hf eq_refl). split; [done|]. unfold phaseOf. rewrite Hf. by apply goes_nil.
    - steps2. split; [done|]. split; cbn; try done; [by rewrite app_nil_r; eapply mv_news|]. unfold phaseOf. by destruct (v_turnOpen v). }
  intros opened d s2 Hm2 [-> Hg] _. cbn [v_pendingMessages v_turnTainted v_hasMoreToolCalls].
  step1. eapply spec_mono; [by apply injectMessages_spec| |done]. cbv beta. intros injection d2 s3 Hm3 Hi _.
  pose proof (goes_trans _ _ _ _ _ _ _ _ _ _ _ Hg Hi) as Hgi. set (v1 := _ <| v_pendingMessages := [] |>).
  assert (Hv1 : loopOk v1) by (split; [done|apply Forall_nil_2]). assert (Hp1 : phaseOf v1 = PhaseOpen) by done.
  change injection.1 with (v_turnTainted v1) in Hgi. assert (Hnf : v_firstTurn v1 = false) by done. clearbody v1.
  destruct (_ && _ && _).
  - step1. rewrite <-(d_app_nil_r (d_app _ _)). eapply goes_leaves; [exact Hgi|]. split; [|done]. rewrite Hp1. by apply goes_nil.
  - rewrite <-Hp1 in Hgi. eapply spec_mono; [apply unlessAborted_spec|..|done].
    + intros s4 Hm4 N4. rewrite Hp1. by apply answerTurn_spec.
    + cbv beta. intros r d4 s4 Hm4 Hl. rewrite d_app_assoc. eapply goes_leaves; [exact Hgi|exact Hl].
Qed.

Lemma runLoop_spec fuel streamFuel : ∀ v s, loopOk v →
  run (runLoop fuel streamFuel v) (λ _ d s', over (phaseOf v) v.(v_turnTainted) s d s') any s.
Proof.
  induction fuel as [|fuel IH]; intros v s Hv; cbn [runLoop]; [apply spec_stuck|]. destruct (_ || _).
  - step1. eapply spec_mono; [by apply turn_spec| |done]. cbv beta. intros [|v2] d s1 Hm1 Hl _.
    + step1. exact Hl.
    + destruct Hl as [Hg Hok]. eapply spec_mono; [by apply IH| |done]. cbv beta. intros _ d2 s2 Hm2 Hover. by eapply goes_over.
  - step1. eapply spec_mono with (Q := λ ms d s', (d = d_nil ∧ newMessages s' = newMessages s) ∧ allPlain ms) (X := any); [|cbv beta|done].
    { apply (spec_returns allPlain _ (λ _ d s', d = d_nil ∧ newMessages s' = newMessages s)); [apply returns_followUps|].
      unfold nextMessages. step1. eapply spec_mono with (Q := λ _ d s', d = d_nil ∧ newMessages s' = newMessages s) (X := any); [|cbv beta|done].
      { destruct (has _); steps2; (split; [done|by follow_news]). }
      intros ms d s1 Hm1 [-> N1] _. destruct ms; [|by step1]. unfold getSteeringAtCheckpoint.
      destruct (has _); steps2; (split; [done|by follow_news]). }
    intros ms d s1 Hm1 [[-> N1] Hms] _. destruct ms as [|m ms].
    + unfold emitAgentEnd. steps2. apply over_now with (t' := v_turnTainted v); follow_news; rewrite ?N1; try done.
      unfold phaseOf. by destruct (v_turnOpen v).
    + eapply spec_mono; [apply IH| |done].
      { split; [apply Hv|done]. }
      cbv beta. intros _ d2 s2 Hm2 Hover. eapply goes_over; [|exact Hover]. by apply goes_nil.
Qed.

Lemma startLoop_spec fuel streamFuel config s :
  run (startLoop fuel streamFuel config)
    (λ _ d s', over PhaseOpen (isActiveTurnTainted s.(context).(c_messages)) s d s') any s.
Proof.
  unfold startLoop. step1. step1. step1. step1.
  eapply spec_mono with (Q := λ ms d s', (d = d_nil ∧ newMessages s' = newMessages s) ∧ allPlain ms) (X := any); [|cbv beta|done].
  { apply (spec_returns allPlain _ (λ _ d s', d = d_nil ∧ newMessages s' = newMessages s)); [apply returns_steering|].
    unfold getSteeringAtCheckpoint. destruct (has _); steps2; (split; [done|by follow_news]). }
  intros ms d s1 Hm1 [[-> N1] Hms] _. eapply spec_mono; [by apply runLoop_spec| |done]. cbv beta. intros _ d s2 Hm2 Hover.
  rewrite ?d_app_nil_l. rewrite <-(d_app_nil_l d). eapply goes_over; [|exact Hover]. by apply goes_nil.
Qed.

(** The prompts that were not withdrawn, in the context and in the messages of
    the run. *)
Lemma addPrompts_spec prompts : ∀ s, allPlain prompts →
  run (addPrompts prompts)
    (λ _ d s', allPlain d.(d_committed) ∧ d.(d_frames) = [] ∧ s'.(newMessages) = s.(newMessages) ++ d.(d_committed) ∧
       s'.(context).(c_messages) = s.(context).(c_messages) ++ d.(d_committed)) any s.
Proof.
  assert (Hc : ∀ m s, run (consumeCancellation m) (λ r d s', d.(d_committed) = [] ∧ d.(d_frames) = [] ∧
    s'.(newMessages) = s.(newMessages) ∧ s'.(context).(c_messages) = s.(context).(c_messages)) any s).
  { intros m s. unfold consumeCancellation. destruct (negb _); [by step1|]. step1. step1. step1.
    destruct a; [|step1; repeat split; by first [eapply mv_news|eapply mv_messages]]. step1. step1. step1. step1. repeat split.
    - by follow_news.
    - rewrite (mv_messages _ _ _ H2). by eapply mv_messages. }
  induction prompts as [|m rest IH]; intros s Hp; cbn [addPrompts].
  { step1. cbn. rewrite !app_nil_r. split_and!; [apply Forall_nil_2|done..]. }
  apply Forall_cons in Hp as [Hm Hp]. step1. eapply spec_mono; [apply Hc| |done]. cbv beta.
  intros cancelled d1 s1 Hm1 (D1 & F1 & N1 & C1) _. step1.
  eapply spec_mono with (Q := λ _ d s', (d_committed d = [] ∨ d_committed d = [m]) ∧ d_frames d = [] ∧
    newMessages s' = newMessages s1 ++ d_committed d ∧ c_messages (context s') = c_messages (context s1) ++ d_committed d) (X := any);
    [|cbv beta|done].
  { destruct cancelled; [step1; cbn; rewrite !app_nil_r; by split_and!; [left|..]|].
    step1. step1. step1. step1. eapply spec_mono; [apply Hc| |done]. cbv beta. intros [] d2 s2 Hm2 (D2 & F2 & N2 & C2) _.
    - step1. cbn. rewrite D2, F2, N2, C2, !app_nil_r, (mv_news _ _ _ H0), (mv_messages _ _ _ H0). split_and!; try done. by left.
    - steps2. cbn. rewrite D2, F2, (mv_news _ _ _ H2), N2, (mv_news _ _ _ H0), (mv_messages _ _ _ H2), C2, (mv_messages _ _ _ H0).
      split_and!; try done. by right. }
  intros _ d2 s2 Hm2 (D2 & F2 & N2 & C2) _. eapply spec_mono; [by apply IH| |done]. cbv beta.
  intros _ d3 s3 Hm3 (A3 & F3 & N3 & C3). cbn. rewrite D1, F1, F2, N3, C3, N2, C2, N1, C1, F3, <-!app_assoc. split_and!; try done.
  cbn [app]. apply Forall_app. split; [|done]. destruct D2 as [->| ->]; [apply Forall_nil_2|by apply Forall_cons].
Qed.

Lemma fromEnd_plain r k : allPlain r → taintedFromEnd k && negb (existsb isUser r) = true → taintedFromEnd (r ++ k) = true.
Proof.
  induction 1 as [|m r Hm _ IH]; cbn; [by rewrite andb_true_r|]. destruct m as [| | |ref role type content network tainted]; try done; cbn.
  - by rewrite andb_false_r.
  - intros Hk. destruct (tainted || network); [done|by apply IH].
Qed.

Lemma active_plain l ms : allPlain ms →
  isActiveTurnTainted l && negb (existsb isUser ms) = true → isActiveTurnTainted (l ++ ms) = true.
Proof.
  intros Hp Ha. unfold isActiveTurnTainted. rewrite reverse_app. apply fromEnd_plain.
  - by apply Forall_reverse.
  - assert (existsb isUser (reverse ms) = existsb isUser ms) as ->; [|done]. clear. induction ms as [|m ms IH]; [done|].
    rewrite reverse_cons, existsb_app, IH. cbn. by rewrite orb_false_r, orb_comm.
Qed.

Lemma taintAfter_less l : ∀ t t', (t = true → t' = true) → is_Some (taintAfter t' l) → is_Some (taintAfter t l).
Proof.
  induction l as [|m l IH]; intros t t' Ht; cbn; [by intros; eexists|]. destruct m.
  - by apply IH.
  - destruct t; [by rewrite Ht|]. cbn. destruct (_ && _); [by intros [? ?]|by apply IH].
  - apply IH. destruct t, t'; cbn; try done. by specialize (Ht eq_refl).
  - by apply IH.
Qed.

(** What a run returns. *)
Record runReturns (s : LoopState W) (messages : list AgentMessage) (d : Delta) (s' : LoopState W) : Prop := {
  rr_news : s'.(newMessages) = messages;
  rr_committed : d.(d_committed) = messages;
  rr_phase : phaseAfter PhaseNew d.(d_frames) = Some PhaseEnded;
  rr_last : last d.(d_frames) = Some (AgentEnd messages);
  rr_answered : callsAnswered [] messages = true;
  rr_taint : is_Some (taintAfter (isActiveTurnTainted s.(context).(c_messages)) messages)
}.

Lemma core_spec fuel streamFuel prompts config s : allPlain prompts → s.(newMessages) = [] →
  run (runAgentLoopCore fuel streamFuel prompts config) (runReturns s) any s.
Proof.
  intros Hp Hn. unfold runAgentLoopCore. step1. apply spec_emit; [intros s1 Hm1 _|done].
  step1. apply spec_emit; [intros s2 Hm2 _|done]. step1.
  eapply spec_mono; [by apply addPrompts_spec| |done]. cbv beta. intros _ d3 s3 Hm3 (A3 & F3 & N3 & C3) _.
  rewrite (mv_news _ _ _ Hm2), (mv_news _ _ _ Hm1), Hn in N3. rewrite (mv_messages _ _ _ Hm2), (mv_messages _ _ _ Hm1) in C3.
  step1. step1. step1. rewrite N3. cbn [app]. destruct (_ && bool_decide _) eqn:Hnone.
  - apply andb_true_iff in Hnone as [_ Hnone]. apply bool_decide_eq_true in Hnone. steps2. split; cbn; rewrite ?F3, ?Hnone; try done.
    + follow_news. by rewrite Hnone.
  - clear Hnone. step1. step1. eapply spec_mono; [apply startLoop_spec| |done]. cbv beta.
    intros _ d4 s4 Hm4 (t' & [N4 A4 P4 T4] & L4) s5 Hm5 _. step1. pose proof (mv_news _ _ _ Hm5) as N5.
    assert (Hall : newMessages s5 = d_committed d3 ++ d_committed d4) by (rewrite N5, N4, N3; done).
    rewrite ?d_app_nil_l. split; cbn; rewrite ?F3; cbn.
    + done.
    + by rewrite Hall.
    + done.
    + rewrite N5, <-L4. by destruct (d_frames d4).
    + rewrite Hall, callsAnswered_app; [done|]. by apply plain_answered.
    + rewrite Hall, taintAfter_app, plain_taint by done. eapply taintAfter_less; [|rewrite T4; by eexists].
      rewrite C3. by apply active_plain.
Qed.

(** ** Aborted runs *)

(** Nothing is asked of the provider and no tool is touched. *)
Definition quiet (d : Delta) : Prop := d.(d_requests) = 0%nat ∧ d.(d_bodies) = [] ∧ d.(d_starts) = [].

Lemma quiet_app d1 d2 : quiet d1 → quiet d2 → quiet (d_app d1 d2).
Proof. intros (R1 & B1 & S1) (R2 & B2 & S2). unfold quiet. cbn. by rewrite R1, R2, B1, B2, S1, S2. Qed.

Abbreviation ended := (Spec turns False).

Lemma endAborted_quiet v s : ended (endAborted v) (λ _ d _, quiet d) (λ _ d _, quiet d) s.
Proof.
  unfold endAborted, emitAgentEnd, appendInterruptedTurnMessage. step2. step2. step2. set (m := withAssistantTurnTaint _ _).
  clearbody m. destruct (v_turnOpen v); steps2; try (intros; by split_and!); destruct (turnHandoff _); steps2;
    intros; by split_and!.
Qed.

(** A loop that finds its run aborted ends within two passes. *)
Lemma aborted_loop fuel streamFuel v s : aborted s.(world) = true → (2 ≤ fuel)%nat →
  ended (runLoop fuel streamFuel v) (λ _ d _, quiet d) (λ _ d _, quiet d) s.
Proof.
  assert (Hstop : ∀ n v s, aborted s.(world) = true → v.(v_hasMoreToolCalls) || negb (bool_decide (v.(v_pendingMessages) = [])) = true →
    ended (runLoop (S n) streamFuel v) (λ _ d _, quiet d) (λ _ d _, quiet d) s).
  { intros n v0 s0 Ha Hv. cbn [runLoop]. rewrite Hv. unfold turn, unlessAborted, stopIfAborted. step1. step1. step1. step1.
    step1. step1. rewrite Ha. step1. eapply spec_mono; [apply endAborted_quiet| |].
    - cbv beta. intros _ d s1 _ Hq _. step1. intros s2 Hm2 _. step1. step1. by step1.
    - cbv beta. intros e d s1 _ Hq s2 Hm2. by rewrite ?d_app_nil_l. }
  intros Ha Hf. destruct fuel as [|[|fuel]]; [lia..|].
  destruct (v_hasMoreToolCalls v || negb (bool_decide (v_pendingMessages v = []))) eqn:Hv; [by apply Hstop|].
  cbn [runLoop]. rewrite Hv. step1. eapply spec_mono with (Q := λ _ d _, d = d_nil) (X := λ _ d _, d = d_nil).
  { unfold nextMessages, getSteeringAtCheckpoint. step1. destruct (has HookFollowUp); steps2; try done.
    - destruct a; [|by steps2]. destruct (has HookSteering); by steps2.
    - destruct (has HookSteering); by steps2. }
  2: by intros e d s1 _ ->.
  cbv beta. intros ms d s1 Hm1 -> _. rewrite ?d_app_nil_l. destruct ms as [|m ms].
  - unfold emitAgentEnd. steps2; by split_and!.
  - eapply spec_mono; [apply Hstop; [by apply (tn_aborted _ _ _ Hm1)|done]|..]; cbv beta; intros ? ? ? _ Hq; by rewrite ?d_app_nil_l.
Qed.
End run.
