(* ===== verification/LoopSteps.v ===== *)
(** * Steps that every computation of the loop keeps to

    A relation that the calls on the world keep, and changes of the state that
    touch no prepared execution, is kept by the computations that hold none;
    one that every change keeps is kept by the whole run. *)
From S2P Require Import Prelude JsStrings Effects AgentMessages ToolBatch AgentLoop.

(** ** What is held *)

(** Executions that were prepared, and that were disposed of. *)
Definition preparedIn (tr : list Obs) : list nat := omap (λ o, match o with OPrepared i => Some i | _ => None end) tr.
Definition disposedIn (tr : list Obs) : list nat := omap (λ o, match o with ODispose i => Some i | _ => None end) tr.

(** The events that were announced. *)
Definition eventsIn (tr : list Obs) : list AgentEvent := omap (λ o, match o with OEvent e => Some e | _ => None end) tr.

Definition calm (o : Obs) : bool := match o with OPrepared _ | ODispose _ | OEvent _ => false | _ => true end.

Definition sameResources {W} (s s' : LoopState W) : Prop :=
  preparedIn s'.(trace) = preparedIn s.(trace) ∧ disposedIn s'.(trace) = disposedIn s.(trace) ∧ s'.(disposed) = s.(disposed).

Create HintDb keep.

Lemma kept_awaiting `{LoopEnv W} (R : LoopState W → LoopState W → Prop) `{!PreOrder R} {A} (m : Eff (LoopState W) A) :
  (∀ s, R s (ask Tick s).2) → keeps R m → keeps R (awaiting m).
Proof.
  intros Ha Hm. apply (keeps_after R); [done|]. intros s. pose proof (Ha s) as Ht. unfold ask in Ht.
  cbn. destruct (perform Tick (world s)) as [[] w]. exact Ht.
Qed.

(** Goals [keeps R m], piece by piece. *)
Ltac keep1 :=
  lazymatch goal with
  | |- keeps ?R (_ ≫= _) => apply (keeps_bind R); [|intros ?]
  | |- keeps ?R (mret _) => apply (keeps_ret R)
  | |- keeps ?R (throw _) => apply (keeps_throw R)
  | |- keeps ?R stuck => apply (keeps_stuck R)
  | |- keeps ?R (gets _) => apply (keeps_gets R)
  | |- keeps ?R (tryCatch _ _) => apply (keeps_catch R); [|intros ?]
  | |- keeps ?R (tryFinally _ _) => apply (keeps_finally R)
  | |- keeps ?R (awaiting _) => apply (kept_awaiting R); [solve [eauto with keep]|]
  | |- keeps ?R (forEach _ _) => apply (keeps_forEach R); intros ?
  | |- keeps ?R (match ?x with _ => _ end) => destruct x
  | |- keeps ?R _ => first [done | solve [auto 6 with keep]]
  end.
Ltac keep := repeat keep1.

(** The events of what the loop itself made, and the operations other than to
    announce an event and to withdraw a message. *)
Definition ownEvent (e : AgentEvent) : bool := match e with MessageEnd m => bool_decide (messageRef m = None) | _ => true end.

Definition direct {A} (o : Op A) : bool := match o with EmitEvent _ | ConsumeCancellation _ => false | _ => true end.

Section observations.
Context `{LoopEnv W} (R : LoopState W → LoopState W → Prop) `{!PreOrder R}.
Context (R_calm : ∀ s s' : LoopState W, s'.(world) = s.(world) → sameResources s s' →
  eventsIn s'.(trace) = eventsIn s.(trace) → R s s').

Lemma kept_observe o : calm o = true → keeps R (observe o).
Proof.
  intros Ho. apply keeps_modify. intros s. apply R_calm; [done|..]; unfold sameResources, preparedIn, disposedIn, eventsIn; cbn;
    rewrite !omap_app; destruct o; try discriminate Ho; by split_and?; try apply app_nil_r.
Qed.
End observations.

#[export] Hint Extern 3 (_ = true) => reflexivity : keep.
#[export] Hint Resolve kept_observe : keep.

(** A relation that every operation keeps is kept by announcements and by
    withdrawals. *)
Section any_steps.
Context `{LoopEnv W} (R : LoopState W → LoopState W → Prop) `{!PreOrder R}.
Context (R_ask : ∀ A (o : Op A) s, R s (ask o s).2).
Context (R_calm : ∀ s s' : LoopState W, s'.(world) = s.(world) → sameResources s s' → R s s').

Lemma kept_ask {A} (o : Op A) : keeps R (ask o).
Proof. intros s. apply R_ask. Qed.
#[local] Hint Resolve kept_ask : keep.

Lemma kept_emit e : keeps R (emit e).
Proof.
  unfold emit. apply (keeps_bind R); [|intros _; keep]. apply keeps_modify. intros s. apply R_calm; [done|].
  unfold sameResources, preparedIn, disposedIn. cbn. by rewrite !omap_app, !app_nil_r.
Qed.

Lemma kept_consumeCancellation m : keeps R (consumeCancellation m).
Proof. unfold consumeCancellation. keep. Qed.
End any_steps.

#[export] Hint Resolve kept_ask kept_emit kept_consumeCancellation : keep.

Section calm_steps.
Context `{LoopEnv W} (R : LoopState W → LoopState W → Prop) `{!PreOrder R}.
Context (R_ask : ∀ A (o : Op A) s, direct o = true → R s (ask o s).2).
Context (R_emit : ∀ e, ownEvent e = true → keeps R (emit e)).
Context (R_calm : ∀ s s' : LoopState W, s'.(world) = s.(world) → sameResources s s' →
  eventsIn s'.(trace) = eventsIn s.(trace) → R s s').

Abbreviation kept := (keeps R).

#[local] Hint Extern 2 (keeps _ (emit _)) => apply R_emit; reflexivity : keep.

Lemma kept_direct {A} (o : Op A) : direct o = true → kept (ask o).
Proof. intros Ho s. by apply R_ask. Qed.

Lemma kept_modify (f : LoopState W → LoopState W) :
  (∀ s, (f s).(world) = s.(world) ∧ (f s).(trace) = s.(trace) ∧ (f s).(disposed) = s.(disposed)) → kept (modify f).
Proof.
  intros Hf. apply keeps_modify. intros s. destruct (Hf s) as (Ew & Et & Ed). apply R_calm; [done|..];
    unfold sameResources; by rewrite ?Et, ?Ed.
Qed.

#[local] Hint Resolve kept_direct : keep.
#[local] Hint Extern 2 (keeps _ (modify _)) => apply kept_modify; done : keep.

Lemma kept_call {A} (o : Op (JsError + A)) : direct o = true → kept (call o).
Proof. intros Ho. unfold call. keep. Qed.

Lemma kept_isAborted : kept isAborted.
Proof. unfold isAborted. keep. Qed.
#[local] Hint Resolve kept_call kept_isAborted : keep.

Lemma kept_awaitHook {A} hook (o : Op (JsError + option A)) : direct o = true → kept (awaitHook hook o).
Proof. intros Ho. unfold awaitHook. keep. Qed.
#[local] Hint Resolve kept_awaitHook : keep.

Lemma kept_getSteeringAtCheckpoint : kept (getSteeringAtCheckpoint).
Proof. unfold getSteeringAtCheckpoint. keep. Qed.
#[local] Hint Resolve kept_getSteeringAtCheckpoint : keep.

Lemma kept_resolveToolCallTool message i c : kept (resolveToolCallTool message i c).
Proof. unfold resolveToolCallTool. keep. Qed.
#[local] Hint Resolve kept_resolveToolCallTool : keep.

Lemma kept_validate message i c : kept (validateToolCallForBatchAdmission message i c).
Proof. unfold validateToolCallForBatchAdmission. keep. Qed.
#[local] Hint Resolve kept_validate : keep.

Lemma kept_prepareToolCall message i c : kept (prepareToolCall message i c).
Proof. unfold prepareToolCall. keep. Qed.
#[local] Hint Resolve kept_prepareToolCall : keep.

Lemma kept_finalizeToolCallOutcome message fin args : kept (finalizeToolCallOutcome message fin args).
Proof. unfold finalizeToolCallOutcome. keep. Qed.
#[local] Hint Resolve kept_finalizeToolCallOutcome : keep.

Lemma kept_afterExecution message p x args : kept (afterExecution message p x args).
Proof. unfold afterExecution. keep. Qed.
#[local] Hint Resolve kept_afterExecution : keep.

Lemma kept_finalizeExecutedToolCall message p x args : kept (finalizeExecutedToolCall message p x args).
Proof. unfold finalizeExecutedToolCall. keep. Qed.
#[local] Hint Resolve kept_finalizeExecutedToolCall : keep.

Lemma kept_emitToolExecutionEnd fin : kept (emitToolExecutionEnd fin).
Proof. unfold emitToolExecutionEnd. keep. Qed.
#[local] Hint Resolve kept_emitToolExecutionEnd : keep.

Lemma kept_emitToolResultMessage m : kept (emitToolResultMessage m).
Proof. unfold emitToolResultMessage. keep. Qed.
#[local] Hint Resolve kept_emitToolResultMessage : keep.

Lemma kept_hides i c : kept (hidesToolCallFromChannelProgress i c).
Proof. unfold hidesToolCallFromChannelProgress. keep. Qed.
#[local] Hint Resolve kept_hides : keep.

Lemma kept_emitStart i c : kept (emitStart i c).
Proof. unfold emitStart. keep. Qed.
#[local] Hint Resolve kept_emitStart : keep.

Lemma kept_completeUnstartedToolCall message i c started text details : kept (completeUnstartedToolCall message i c started text details).
Proof. unfold completeUnstartedToolCall. keep. Qed.
#[local] Hint Resolve kept_completeUnstartedToolCall : keep.

Lemma kept_startBody lifecycle r : kept (startBody lifecycle r).
Proof. unfold startBody. keep. Qed.
#[local] Hint Resolve kept_startBody : keep.

Lemma kept_validatedToolCallIds calls : kept (validatedToolCallIds calls).
Proof. unfold validatedToolCallIds. keep. Qed.
#[local] Hint Resolve kept_validatedToolCallIds : keep.

Lemma kept_releaseSkipped lifecycle ids : kept (releaseSkipped lifecycle ids).
Proof. unfold releaseSkipped. keep. Qed.
#[local] Hint Resolve kept_releaseSkipped : keep.

Lemma kept_pollSteering : kept (pollSteering).
Proof. unfold pollSteering. keep. Qed.
#[local] Hint Resolve kept_pollSteering : keep.

Lemma kept_completeSkipped message reason calls : ∀ ready, kept (completeSkipped message reason ready calls).
Proof. induction calls as [|x rest IH]; intros ready; cbn [completeSkipped]; keep. Qed.
#[local] Hint Resolve kept_completeSkipped : keep.

Lemma kept_emitResults finalized : kept (emitResults finalized).
Proof. induction finalized as [|x rest IH]; cbn [emitResults]; keep. Qed.
#[local] Hint Resolve kept_emitResults : keep.

Lemma kept_completeInterventions message intervention terminal calls : kept (completeInterventions message intervention terminal calls).
Proof. induction calls as [|x rest IH]; cbn [completeInterventions]; keep. Qed.
#[local] Hint Resolve kept_completeInterventions : keep.

Lemma kept_interventionBatch message intervention terminal calls : kept (completeToolLoopInterventionBatch message intervention terminal calls).
Proof. unfold completeToolLoopInterventionBatch. keep. Qed.
#[local] Hint Resolve kept_interventionBatch : keep.

Lemma kept_validateCalls message calls : kept (validateCalls message calls).
Proof. induction calls as [|x rest IH]; cbn [validateCalls]; keep. Qed.
#[local] Hint Resolve kept_validateCalls : keep.

Lemma kept_hasSequentialToolCall message calls : kept (hasSequentialToolCall message calls).
Proof. induction calls as [|x rest IH]; cbn [hasSequentialToolCall]; keep. Qed.
#[local] Hint Resolve kept_hasSequentialToolCall : keep.

Lemma kept_admitBatch message calls : kept (admitBatch message calls).
Proof. unfold admitBatch. keep. Qed.
#[local] Hint Resolve kept_admitBatch : keep.

Lemma kept_pushContext m : kept (pushContext m).
Proof. unfold pushContext. keep. Qed.
#[local] Hint Resolve kept_pushContext : keep.

Lemma kept_pushNew m : kept (pushNew m).
Proof. unfold pushNew. keep. Qed.
#[local] Hint Resolve kept_pushNew : keep.

Lemma kept_replaceLast m : kept (replaceLast m).
Proof. unfold replaceLast. keep. Qed.
#[local] Hint Resolve kept_replaceLast : keep.

Lemma kept_appendInterruptedTurnMessage : kept (appendInterruptedTurnMessage).
Proof. unfold appendInterruptedTurnMessage. keep. Qed.
#[local] Hint Resolve kept_appendInterruptedTurnMessage : keep.

Lemma kept_finalizeAssistantMessage added tainted : kept (finalizeAssistantMessage added tainted).
Proof. unfold finalizeAssistantMessage. keep. Qed.
#[local] Hint Resolve kept_finalizeAssistantMessage : keep.

Lemma kept_streamEvents fuel tainted : ∀ partial, kept (streamEvents fuel partial tainted).
Proof. induction fuel as [|fuel IH]; intros partial; cbn [streamEvents]; keep. Qed.
#[local] Hint Resolve kept_streamEvents : keep.

Lemma kept_stream fuel config tainted : kept (streamAssistantResponse fuel config tainted).
Proof. unfold streamAssistantResponse. keep. Qed.
#[local] Hint Resolve kept_stream : keep.

Lemma kept_emitAgentEnd : kept (emitAgentEnd).
Proof. unfold emitAgentEnd. keep. Qed.
#[local] Hint Resolve kept_emitAgentEnd : keep.

Lemma kept_endAborted v : kept (endAborted v).
Proof. unfold endAborted. keep. Qed.
#[local] Hint Resolve kept_endAborted : keep.

Lemma kept_stopIfAborted v : kept (stopIfAborted v).
Proof. unfold stopIfAborted. keep. Qed.
#[local] Hint Resolve kept_stopIfAborted : keep.


Lemma kept_betweenTurns v message results : kept (betweenTurns v message results).
Proof. unfold betweenTurns, unlessAborted. keep. Qed.
#[local] Hint Resolve kept_betweenTurns : keep.

Lemma kept_endTerminated v : kept (endTerminated v).
Proof. unfold endTerminated. keep. Qed.
#[local] Hint Resolve kept_endTerminated : keep.

Lemma kept_finishTurn v message batch : kept (finishTurn v message batch).
Proof. unfold finishTurn, unlessAborted. keep. Qed.
#[local] Hint Resolve kept_finishTurn : keep.

Lemma kept_nextMessages : kept (nextMessages).
Proof. unfold nextMessages. keep. Qed.
#[local] Hint Resolve kept_nextMessages : keep.

(** What others hand in. *)
Section inputs.
Context (R_input : ∀ e, keeps R (emit e)) (R_consume : ∀ m, keeps R (consumeCancellation m)).

#[local] Hint Resolve R_input R_consume : keep.

Lemma kept_injectMessages messages : ∀ tainted injected, kept (injectMessages messages tainted injected).
Proof. induction messages as [|x rest IH]; intros tainted injected; cbn [injectMessages]; keep. Qed.

Lemma kept_addPrompts prompts : kept (addPrompts prompts).
Proof. induction prompts as [|x rest IH]; cbn [addPrompts]; keep. Qed.
End inputs.
End calm_steps.

#[export] Hint Resolve kept_direct kept_call kept_isAborted kept_awaitHook
  kept_getSteeringAtCheckpoint kept_resolveToolCallTool kept_validate kept_prepareToolCall
  kept_finalizeToolCallOutcome kept_afterExecution kept_finalizeExecutedToolCall kept_emitToolExecutionEnd
  kept_emitToolResultMessage kept_hides kept_emitStart kept_completeUnstartedToolCall kept_startBody
  kept_validatedToolCallIds kept_releaseSkipped kept_pollSteering kept_completeSkipped kept_emitResults
  kept_completeInterventions kept_interventionBatch kept_validateCalls kept_hasSequentialToolCall
  kept_admitBatch kept_pushContext kept_pushNew kept_replaceLast
  kept_appendInterruptedTurnMessage kept_finalizeAssistantMessage kept_streamEvents kept_stream
  kept_emitAgentEnd kept_endAborted kept_stopIfAborted kept_injectMessages kept_betweenTurns kept_endTerminated
  kept_finishTurn kept_nextMessages kept_addPrompts : keep.

Section all_steps.
Context `{LoopEnv W} (R : LoopState W → LoopState W → Prop) `{!PreOrder R}.
Context (R_ask : ∀ A (o : Op A) s, direct o = true → R s (ask o s).2).
Context (R_emit : ∀ e, ownEvent e = true → keeps R (emit e)).
Context (R_all : ∀ s s' : LoopState W, s'.(world) = s.(world) → eventsIn s'.(trace) = eventsIn s.(trace) → R s s').

Abbreviation kept := (keeps R).

Lemma all_calm s s' : s'.(world) = s.(world) → sameResources s s' → eventsIn s'.(trace) = eventsIn s.(trace) → R s s'.
Proof. intros Hw _. by apply R_all. Qed.
#[local] Hint Resolve all_calm : keep.
#[local] Hint Extern 2 (keeps _ (emit _)) => apply R_emit; reflexivity : keep.

Lemma kept_any (f : LoopState W → LoopState W) :
  (∀ s, (f s).(world) = s.(world)) → (∀ s, eventsIn (f s).(trace) = eventsIn s.(trace)) → kept (modify f).
Proof. intros Hf He. apply keeps_modify. intros s. by apply R_all. Qed.

Lemma kept_note o : match o with OEvent _ => false | _ => true end = true → kept (observe o).
Proof.
  intros Ho. apply kept_any; [done|]. intros s. unfold eventsIn. cbn. rewrite omap_app. destruct o; try discriminate Ho; apply app_nil_r.
Qed.
#[local] Hint Extern 2 (keeps _ (modify _)) => apply kept_any; done : keep.
#[local] Hint Extern 2 (keeps _ (observe _)) => apply kept_note; reflexivity : keep.

Lemma kept_dispose p : kept (dispose p).
Proof. unfold dispose. keep. Qed.
#[local] Hint Resolve kept_dispose : keep.

Lemma kept_prepareToolCallExecution p : kept (prepareToolCallExecution p).
Proof. unfold prepareToolCallExecution. keep. Qed.
#[local] Hint Resolve kept_prepareToolCallExecution : keep.

Lemma kept_prepareToolCallEntry message i c : kept (prepareToolCallEntry message i c).
Proof. unfold prepareToolCallEntry. keep. Qed.
#[local] Hint Resolve kept_prepareToolCallEntry : keep.

Lemma kept_launchOne lifecycle r : kept (launchOne lifecycle r).
Proof. unfold launchOne. keep. Qed.
#[local] Hint Resolve kept_launchOne : keep.

Lemma kept_launch lifecycle ready : ∀ result, kept (launchParallelToolCalls lifecycle ready result).
Proof. induction ready as [|x rest IH]; intros result; cbn [launchParallelToolCalls]; keep. Qed.
#[local] Hint Resolve kept_launch : keep.

Lemma kept_awaitOutcome p : kept (awaitOutcome p).
Proof. unfold awaitOutcome. keep. Qed.
#[local] Hint Resolve kept_awaitOutcome : keep.

Lemma kept_runReady message lifecycle rest r : kept (runReady message lifecycle rest r).
Proof. unfold runReady. keep. Qed.
#[local] Hint Resolve kept_runReady : keep.

Lemma kept_sequentialLoop message lifecycle calls : ∀ q, kept (sequentialLoop message lifecycle calls q).
Proof. induction calls as [|x rest IH]; intros q; cbn [sequentialLoop]; keep. Qed.
#[local] Hint Resolve kept_sequentialLoop : keep.

Lemma kept_sequential message lifecycle calls : kept (executeToolCallsSequential message lifecycle calls).
Proof. unfold executeToolCallsSequential. keep. Qed.
#[local] Hint Resolve kept_sequential : keep.

Lemma kept_prepareEntries message calls : ∀ entries, kept (prepareEntries message calls entries).
Proof. induction calls as [|x rest IH]; intros entries; cbn [prepareEntries]; keep. Qed.
#[local] Hint Resolve kept_prepareEntries : keep.

Lemma kept_completeReady message reason ready : kept (completeReady message reason ready).
Proof. induction ready as [|x rest IH]; cbn [completeReady]; keep. Qed.
#[local] Hint Resolve kept_completeReady : keep.

Lemma kept_finalizeCompleted message completed : kept (finalizeCompleted message completed).
Proof. induction completed as [|x rest IH]; cbn [finalizeCompleted]; keep. Qed.
#[local] Hint Resolve kept_finalizeCompleted : keep.

Lemma kept_taskStep message task : kept (taskStep message task).
Proof. unfold taskStep. keep. Qed.
#[local] Hint Resolve kept_taskStep : keep.

Lemma kept_runTasks fuel message : ∀ tasks results, kept (runTasks fuel message tasks results).
Proof. induction fuel as [|fuel IH]; intros tasks results; cbn [runTasks]; keep. Qed.
#[local] Hint Resolve kept_runTasks : keep.

Lemma kept_runReadyCalls message lifecycle entries tail : kept (runReadyCalls message lifecycle entries tail).
Proof. unfold runReadyCalls. keep. Qed.
#[local] Hint Resolve kept_runReadyCalls : keep.

Lemma kept_parallelBody message lifecycle calls entries : kept (parallelBody message lifecycle calls entries).
Proof. unfold parallelBody. keep. Qed.
#[local] Hint Resolve kept_parallelBody : keep.

Lemma kept_parallel message lifecycle calls : kept (executeToolCallsParallel message lifecycle calls).
Proof. unfold executeToolCallsParallel. keep. Qed.
#[local] Hint Resolve kept_parallel : keep.

Lemma kept_executeToolCalls message config seen : kept (executeToolCalls message config seen).
Proof. unfold executeToolCalls. keep. Qed.
#[local] Hint Resolve kept_executeToolCalls : keep.

End all_steps.

#[export] Hint Resolve kept_dispose kept_prepareToolCallExecution kept_prepareToolCallEntry kept_launchOne kept_launch
  kept_awaitOutcome kept_runReady kept_sequentialLoop kept_sequential kept_prepareEntries kept_completeReady
  kept_finalizeCompleted kept_taskStep kept_runTasks kept_runReadyCalls kept_parallelBody kept_parallel
  kept_executeToolCalls : keep.

(** A run keeps to what its batches keep to. *)
Section run_steps.
Context `{LoopEnv W} (R : LoopState W → LoopState W → Prop) `{!PreOrder R}.
Context (R_ask : ∀ A (o : Op A) s, direct o = true → R s (ask o s).2).
Context (R_input : ∀ e, keeps R (emit e)) (R_consume : ∀ m, keeps R (consumeCancellation m)).
Context (R_calm : ∀ s s' : LoopState W, s'.(world) = s.(world) → sameResources s s' →
  eventsIn s'.(trace) = eventsIn s.(trace) → R s s').
Context (R_batch : ∀ message config seen, keeps R (executeToolCalls message config seen)).

Abbreviation kept := (keeps R).

#[local] Hint Extern 2 (keeps _ (modify _)) => apply kept_modify; [assumption|done] : keep.

Lemma kept_runTools v message : kept (runTools v message).
Proof. unfold runTools. keep. Qed.
#[local] Hint Resolve kept_runTools : keep.

Lemma kept_answerTurn fuel v : kept (answerTurn fuel v).
Proof. unfold answerTurn. keep. Qed.
#[local] Hint Resolve kept_answerTurn : keep.

Lemma kept_turn fuel v : kept (turn fuel v).
Proof. unfold turn, unlessAborted. keep. Qed.
#[local] Hint Resolve kept_turn : keep.

Lemma kept_runLoop fuel streamFuel : ∀ v, kept (runLoop fuel streamFuel v).
Proof. induction fuel as [|fuel IH]; intros v; cbn [runLoop]; keep. Qed.
#[local] Hint Resolve kept_runLoop : keep.

Lemma kept_startLoop fuel streamFuel config : kept (startLoop fuel streamFuel config).
Proof. unfold startLoop. keep. Qed.
#[local] Hint Resolve kept_startLoop : keep.

Lemma kept_core fuel streamFuel prompts config : kept (runAgentLoopCore fuel streamFuel prompts config).
Proof. unfold runAgentLoopCore. keep. Qed.
#[local] Hint Resolve kept_core : keep.
End run_steps.

#[export] Hint Resolve kept_runTools kept_answerTurn kept_turn kept_runLoop kept_startLoop kept_core : keep.
