(* ===== verification/AgentProgress.v ===== *)
(** * Runs that end

    What holds of every step of the world holds of every computation of the
    loop ([keeps]); so a run ends within its fuel when the provider, its streams
    and the queues run dry. *)
From S2P Require Import Prelude JsStrings Effects AgentMessages ToolBatch ToolBatchFacts ParallelTools AgentLoop LoopSteps.

(** ** Computations that are never cut off *)

Section ends.
Context `{LoopEnv W}.

Definition ends {A} (m : Eff (LoopState W) A) : Prop := ∀ s, (m s).1 ≠ OutOfFuel.

Lemma ends_ret {A} (a : A) : ends (mret a).
Proof. done. Qed.

Lemma ends_throw {A} e : ends (throw (A:=A) e).
Proof. done. Qed.

Lemma ends_gets {A} (f : LoopState W → A) : ends (gets f).
Proof. done. Qed.

Lemma ends_modify f : ends (modify f).
Proof. done. Qed.

Lemma ends_ask {A} (o : Op A) : ends (ask o).
Proof. intros s. unfold ask. by destruct (perform o (world s)). Qed.

Lemma ends_bind {A B} (m : Eff (LoopState W) A) (k : A → Eff (LoopState W) B) : ends m → (∀ a, ends (k a)) → ends (m ≫= k).
Proof.
  intros Hm Hk s. specialize (Hm s). unfold mbind, Eff_bind. destruct (m s) as [[a| |] s']; [apply Hk|done..].
Qed.

Lemma ends_awaiting {A} (m : Eff (LoopState W) A) : ends m → ends (awaiting m).
Proof. intros Hm s. specialize (Hm s). unfold awaiting, after. by destruct (m s). Qed.

Lemma ends_forEach {A} (f : A → Eff (LoopState W) unit) l : (∀ a, ends (f a)) → ends (forEach f l).
Proof. intros Hf. induction l; [done|]. cbn [forEach]. by apply ends_bind. Qed.
End ends.

Ltac end1 :=
  lazymatch goal with
  | |- ends (_ ≫= _) => apply ends_bind; [|intros ?]
  | |- ends (mret _) => apply ends_ret
  | |- ends (throw _) => apply ends_throw
  | |- ends (gets _) => apply ends_gets
  | |- ends isAborted => apply ends_gets
  | |- ends (modify _) => apply ends_modify
  | |- ends (observe _) => apply ends_modify
  | |- ends (pushNew _) => apply ends_modify
  | |- ends (pushContext _) => apply ends_modify
  | |- ends (replaceLast _) => apply ends_modify
  | |- ends (ask _) => apply ends_ask
  | |- ends (awaiting _) => apply ends_awaiting
  | |- ends (forEach _ _) => apply ends_forEach; intros ?
  | |- ends (match ?x with _ => _ end) => destruct x
  | |- ends _ => first [done | solve [auto with ends]]
  end.
Ltac finite := repeat end1.

Create HintDb ends.

Section runs_dry.
Context `{LoopEnv W, !AbortSticky W}.

Lemma ends_call {A} (o : Op (JsError + A)) : ends (call o).
Proof. unfold call. finite. Qed.
#[local] Hint Resolve ends_call : ends.

Lemma ends_awaitHook {A} hook (o : Op (JsError + option A)) : ends (awaitHook hook o).
Proof. unfold awaitHook. finite. Qed.
#[local] Hint Resolve ends_awaitHook : ends.

Lemma ends_emit event : ends (emit event).
Proof. unfold emit. finite. Qed.
#[local] Hint Resolve ends_emit : ends.

Lemma ends_steering : ends getSteeringAtCheckpoint.
Proof. unfold getSteeringAtCheckpoint. finite. Qed.
#[local] Hint Resolve ends_steering : ends.

Lemma ends_executeToolCalls message config seen : ends (executeToolCalls message config seen).
Proof.
  intros s. pose proof (executeToolCalls_spec (T := False) message config seen s) as Hs. unfold Spec, wp in Hs.
  by destruct (executeToolCalls message config seen s) as [[] ?].
Qed.
#[local] Hint Resolve ends_executeToolCalls : ends.

Lemma ends_endAborted v : ends (endAborted v).
Proof. unfold endAborted, appendInterruptedTurnMessage, emitAgentEnd. finite. Qed.
#[local] Hint Resolve ends_endAborted : ends.

Lemma ends_stopIfAborted v : ends (stopIfAborted v).
Proof. unfold stopIfAborted. finite. Qed.
#[local] Hint Resolve ends_stopIfAborted : ends.

Lemma ends_consume m : ends (consumeCancellation m).
Proof. unfold consumeCancellation. finite. Qed.
#[local] Hint Resolve ends_consume : ends.

Lemma ends_inject messages : ∀ tainted injected, ends (injectMessages messages tainted injected).
Proof. induction messages; intros; cbn [injectMessages]; finite. Qed.
#[local] Hint Resolve ends_inject : ends.

Lemma ends_betweenTurns v message results : ends (betweenTurns v message results).
Proof. unfold betweenTurns, unlessAborted, stopIfAborted, emitAgentEnd. finite. Qed.
#[local] Hint Resolve ends_betweenTurns : ends.

Lemma ends_finishTurn v message batch : ends (finishTurn v message batch).
Proof. unfold finishTurn, unlessAborted, stopIfAborted, endTerminated, emitAgentEnd. finite. Qed.
#[local] Hint Resolve ends_finishTurn : ends.

Lemma ends_runTools v message : ends (runTools v message).
Proof. unfold runTools. finite. Qed.
#[local] Hint Resolve ends_runTools : ends.

Lemma ends_nextMessages : ends nextMessages.
Proof. unfold nextMessages. finite. Qed.
#[local] Hint Resolve ends_nextMessages : ends.

Lemma ends_addPrompts prompts : ends (addPrompts prompts).
Proof. induction prompts; cbn [addPrompts]; finite. Qed.
#[local] Hint Resolve ends_addPrompts : ends.

Lemma ends_finalize added tainted : ends (finalizeAssistantMessage added tainted).
Proof. unfold finalizeAssistantMessage. finite. Qed.
#[local] Hint Resolve ends_finalize : ends.

(** ** What runs dry *)

(** Some measure of what the provider and the queues still have: no operation
    adds to it; an answer of the provider, an event of its stream and a
    withdrawal take from it. *)
Class RunsDry : Type := {
  budget : W → nat;
  budget_step A (o : Op A) w : (budget (perform o w).2 ≤ budget w)%nat;
  budget_stream config ctx w w' : perform (OpenStream config ctx) w = (inr tt, w') → (budget w' < budget w)%nat;
  budget_event e w w' : perform NextStreamEvent w = (inr (Some e), w') → e ≠ EvTerminal → (budget w' < budget w)%nat;
  budget_cancel m w w' : perform (ConsumeCancellation m) w = (true, w') → (budget w' < budget w)%nat
}.

Context `{!RunsDry}.

Definition left (s : LoopState W) : nat := budget s.(world).

(** [m] is not cut off, and returns [Q] of what is left. *)
Definition dries {A} (m : Eff (LoopState W) A) (Q : A → nat → Prop) (s : LoopState W) : Prop :=
  wp False m (λ a s', Q a (left s')) (λ _ _, True) s.

Definition less (s s' : LoopState W) : Prop := (left s' ≤ left s)%nat.

#[export] Instance less_preorder : PreOrder less.
Proof. split; [by intros s; unfold less|]. intros s1 s2 s3 H1 H2. unfold less in *. lia. Qed.

Lemma less_ask A (o : Op A) s : less s (ask o s).2.
Proof. unfold less, left, ask. pose proof (budget_step A o (world s)) as Ho. by destruct (perform o (world s)). Qed.

Lemma less_all (s s' : LoopState W) : s'.(world) = s.(world) → less s s'.
Proof. intros Hw. unfold less, left. by rewrite Hw. Qed.

Lemma less_calm (s s' : LoopState W) : s'.(world) = s.(world) → sameResources s s' → less s s'.
Proof. intros Hw _. by apply less_all. Qed.
#[local] Hint Resolve less_ask less_all less_calm less_preorder : keep.

Lemma less_batch message config seen : keeps less (executeToolCalls message config seen).
Proof. keep. Qed.
#[local] Hint Resolve less_batch : keep.

(** What is known to end and to take nothing back. *)
Lemma dries_bind {A B} (m : Eff (LoopState W) A) (k : A → Eff (LoopState W) B) Q s : ends m → keeps less m →
  (∀ a s', (left s' ≤ left s)%nat → dries (k a) Q s') → dries (m ≫= k) Q s.
Proof.
  intros He Hk Hq. apply wp_bind. specialize (He s). specialize (Hk s). unfold wp. destruct (m s) as [[a|e|] s']; [|done..].
  by apply Hq.
Qed.

Lemma dries_ends {A} (m : Eff (LoopState W) A) Q s : ends m → keeps less m → (∀ a n, (n ≤ left s)%nat → Q a n) → dries m Q s.
Proof.
  intros He Hk Hq. specialize (He s). specialize (Hk s). unfold dries, wp. destruct (m s) as [[a|e|] s']; [|done..]. by apply Hq.
Qed.

Lemma dries_use {A B} (m : Eff (LoopState W) A) (k : A → Eff (LoopState W) B) (P : A → nat → Prop) Q s : dries m P s →
  (∀ a s', P a (left s') → dries (k a) Q s') → dries (m ≫= k) Q s.
Proof. intros Hm Hk. apply wp_bind. eapply wp_mono; [exact Hm| |done]. cbn. intros a s' Ha. by apply Hk. Qed.

Lemma dries_mono {A} (m : Eff (LoopState W) A) (P Q : A → nat → Prop) s : dries m P s → (∀ a n, P a n → Q a n) → dries m Q s.
Proof. intros Hm Hq. eapply wp_mono; [exact Hm|auto|done]. Qed.

Lemma dries_ret {A} (a : A) (Q : A → nat → Prop) s : Q a (left s) → dries (mret a) Q s.
Proof. done. Qed.

Lemma dries_also {A} (m : Eff (LoopState W) A) Q s : keeps less m → dries m Q s → dries m (λ a n, n ≤ left s ∧ Q a n)%nat s.
Proof. intros Hk Hm. specialize (Hk s). unfold dries, wp in *. by destruct (m s) as [[] s']. Qed.

Lemma dries_awaiting {A} (m : Eff (LoopState W) A) (Q : A → nat → Prop) s :
  dries m (λ a n, ∀ n', (n' ≤ n)%nat → Q a n') s → dries (awaiting m) Q s.
Proof.
  intros Hm. apply wp_after. eapply wp_mono; [exact Hm| |done]. cbn. intros a s' Hq. apply Hq. unfold left. cbn. apply budget_step.
Qed.

(** A step that is not looked into. *)
Ltac pass := apply dries_bind; [by finite|by keep|intros ? ? ?].

Lemma streamEvents_dries fuel tainted : ∀ partial s, (left s < fuel)%nat →
  dries (streamEvents fuel partial tainted) (λ _ n, n ≤ left s)%nat s.
Proof.
  induction fuel as [|fuel IH]; intros partial s Hf; [lia|]. cbn [streamEvents].
  assert (Hfin : ∀ added s', (left s' ≤ left s)%nat →
    dries (awaiting (finalizeAssistantMessage added tainted)) (λ _ n, n ≤ left s)%nat s').
  { intros added s' Hs'. apply dries_ends; [by finite|by keep|]. intros a n Hn. lia. }
  assert (Hnext : ∀ partial' s', (left s' < left s)%nat → dries (streamEvents fuel partial' tainted) (λ _ n, n ≤ left s)%nat s').
  { intros partial' s' Hs'. eapply dries_mono; [apply IH; lia|]. cbn. lia. }
  apply (dries_use _ _ (λ r n, match r with None | Some EvTerminal => n ≤ left s | Some _ => n < left s end)%nat).
  { unfold dries, call, mbind, Eff_bind, wp, ask. pose proof (budget_step _ NextStreamEvent (world s)) as Hle.
    destruct (perform NextStreamEvent (world s)) as [[e|[e|]] w] eqn:E; cbn in Hle |- *; [done| |done].
    unfold left. cbn. destruct e; try done; by apply (budget_event _ _ _ E). }
  intros [[]|] s1 Hs1; [| | |by apply Hfin..].
  - pass. pass. apply Hnext. lia.
  - destruct partial; [pass; pass|]; apply Hnext; lia.
  - destruct partial; [pass; pass|]; apply Hnext; lia.
Qed.

Lemma stream_dries fuel config tainted s : (left s ≤ fuel)%nat →
  dries (streamAssistantResponse fuel config tainted) (λ _ n, n < left s)%nat s.
Proof.
  intros Hf. unfold streamAssistantResponse. pass. pass. pass. pass.
  apply (dries_use _ _ (λ _ n, n < left s)%nat).
  { unfold dries, call, mbind, Eff_bind, wp, ask. destruct (perform (OpenStream _ _) _) as [[e|[]] w] eqn:E; cbn; [done|].
    apply budget_stream in E. unfold left in *. cbn. lia. }
  intros _ s5 H5. eapply dries_mono; [apply streamEvents_dries; lia|]. cbn. lia.
Qed.

(** ** Passes of the loop *)

Lemma answerTurn_dries fuel v s : (left s ≤ fuel)%nat → dries (answerTurn fuel v) (λ _ n, n < left s)%nat s.
Proof.
  intros Hf. unfold answerTurn. apply (dries_use _ _ (λ _ n, n < left s)%nat).
  { apply dries_awaiting. eapply dries_mono; [by apply stream_dries|]. cbn. lia. }
  intros message s1 H1. apply dries_ends; [..|intros a n Hn; lia]; unfold appendInterruptedTurnMessage, emitAgentEnd.
  - by finite.
  - by keep.
Qed.

(** Messages that are all withdrawn take from the queues. *)
Lemma inject_dries messages : ∀ tainted s,
  dries (injectMessages messages tainted false) (λ r n, r.2 = false → messages ≠ [] → n < left s)%nat s.
Proof.
  assert (Hc : ∀ m s, dries (consumeCancellation m) (λ b n, if b then n < left s else n ≤ left s)%nat s).
  { intros m s. unfold consumeCancellation. destruct (negb _); [by apply dries_ret|]. unfold dries, wp, mbind, Eff_bind, ask.
    pose proof (budget_step _ (ConsumeCancellation m) (world s)) as Hle.
    destruct (perform (ConsumeCancellation m) (world s)) as [[] w] eqn:E; cbn; [|done]. by apply budget_cancel in E. }
  assert (Ht : ∀ messages tainted s, dries (injectMessages messages tainted true) (λ r n, r.2 = true) s).
  { clear Hc. intros l. induction l as [|m l IH]; intros tainted s; cbn [injectMessages]; [by apply dries_ret|].
    pass. destruct a; [apply IH|]. pass. pass. destruct a0; [apply IH|]. pass. pass. pass. apply IH. }
  assert (Hw : ∀ messages tainted s, dries (injectMessages messages tainted false) (λ r n, n ≤ left s)%nat s).
  { intros l tainted s. apply dries_ends; [by finite|by keep|]. auto. }
  induction messages as [|m l IH]; intros tainted s; cbn [injectMessages]; [by apply dries_ret|].
  eapply dries_use; [apply Hc|]. intros [] s1 H1; [eapply dries_mono; [apply Hw|]; cbn; lia|].
  pass. eapply dries_use; [apply Hc|]. intros [] s3 H3; [eapply dries_mono; [apply Hw|]; cbn; lia|].
  pass. pass. pass. eapply dries_mono; [apply Ht|]. cbn. congruence.
Qed.

Lemma turn_dries fuel v s : (left s ≤ fuel)%nat →
  dries (turn fuel v) (λ r n, match r with TurnContinues _ => n < left s | TurnFinished => True end)%nat s.
Proof.
  intros Hf. unfold turn, unlessAborted. pass. destruct a; [by apply dries_ret|]. pass. cbn [v_pendingMessages v_turnTainted v_hasMoreToolCalls].
  apply (dries_use _ _ (λ r n, n ≤ left s ∧ (r.2 = false → v_pendingMessages v ≠ [] → n < left s))%nat).
  { eapply dries_mono; [apply dries_also; [by keep|apply inject_dries]|]. cbn. intros r n [Hn Hr]. split; [lia|].
    intros Hr2 Hp. specialize (Hr Hr2 Hp). lia. }
  intros injection s3 [H3 Hw]. destruct (_ && _ && _) eqn:Hnone.
  - apply dries_ret. apply andb_true_iff in Hnone as [Hnone _]. apply andb_true_iff in Hnone as [Hp Hr].
    apply negb_true_iff in Hp, Hr. apply bool_decide_eq_false in Hp. by apply Hw.
  - pass. destruct a0; [by apply dries_ret|]. eapply dries_mono; [apply answerTurn_dries; lia|]. cbn. intros [] n Hn; [done|lia].
Qed.

(** Fuel for what is left: a pass that waits for messages, one that answers. *)
Lemma runLoop_dries fuel streamFuel : ∀ v s, (left s ≤ streamFuel)%nat →
  (2 * left s + (if v.(v_hasMoreToolCalls) || negb (bool_decide (v.(v_pendingMessages) = [])) then 1 else 2) ≤ fuel)%nat →
  dries (runLoop fuel streamFuel v) (λ _ _, True) s.
Proof.
  induction fuel as [|fuel IH]; intros v s Hs Hf; [destruct (_ || _); lia|]. cbn [runLoop]. destruct (_ || _).
  - eapply dries_use; [by apply turn_dries|]. intros [|v'] s' Hr; [by apply dries_ret|]. apply IH; [lia|].
    destruct (_ || _); lia.
  - pass. destruct a as [|m ms].
    + unfold emitAgentEnd. apply dries_ends; [..|done]; [by finite|by keep].
    + apply IH; [lia|]. cbn. lia.
Qed.

Lemma core_dries fuel streamFuel prompts config s : (left s ≤ streamFuel)%nat → (2 * left s + 1 ≤ fuel)%nat →
  dries (runAgentLoopCore fuel streamFuel prompts config) (λ _ _, True) s.
Proof.
  intros Hs Hf. unfold runAgentLoopCore. pass. pass. pass. pass. destruct (_ && _).
  - apply dries_ends; [..|done]; [by finite|by keep].
  - apply (dries_use _ _ (λ _ _, True)); [|intros _ s5 _; by apply dries_ret]. apply dries_awaiting.
    apply (dries_mono _ (λ _ _, True)); [|done]. unfold startLoop. pass. pass. apply runLoop_dries; [lia|]. cbn. lia.
Qed.

Lemma less_run fuel streamFuel prompts config : keeps less (runAgentLoop fuel streamFuel prompts config).
Proof. unfold runAgentLoop. keep. Qed.
End runs_dry.
