(* ===== verification/ToolResources.v ===== *)
(** * Executions in two phases are disposed of

    A tool may prepare an execution that holds resources until it is disposed
    of.  Every execution that a run prepares is disposed of exactly once, also
    when listeners and hooks throw. *)
From S2P Require Import Prelude JsStrings Effects AgentMessages ToolBatch ToolBatchFacts.
From S2P Require Import ParallelTools AgentLoop AgentLoopFacts LoopSteps AgentProgress.

Section resources.
Context `{LoopEnv W, !AbortSticky W}.

Lemma keeps_returns (R : LoopState W → LoopState W → Prop) `{!PreOrder R} {A B} (P : A → Prop) (m : Eff (LoopState W) A)
    (k : A → Eff (LoopState W) B) : keeps R m → returns P m → (∀ a, P a → keeps R (k a)) → keeps R (m ≫= k).
Proof.
  intros Hm Hr Hk s. specialize (Hm s). specialize (Hr s). unfold mbind, Eff_bind. destruct (m s) as [[a| |] s']; [|done..].
  etrans; [exact Hm|by apply Hk].
Qed.

(** ** Executions that are held *)

(** Every execution was disposed of. *)
Definition balanced (s : LoopState W) : Prop := preparedIn s.(trace) ≡ₚ disposedIn s.(trace).

Definition holders (rs : list ReadyPreparedToolCall) : list nat :=
  readyIndex <$> List.filter (λ r, r.(rd_prepared).(p_tool).(t_preparer)) rs.

Definition held (rs : list ReadyPreparedToolCall) (s : LoopState W) : list nat := filter (λ i, i ∉ s.(disposed)) (holders rs).

(** Of the executions of [rs], those that are not disposed of are held; no other
    is. *)
Definition accounted (rs : list ReadyPreparedToolCall) (s : LoopState W) : Prop :=
  preparedIn s.(trace) ≡ₚ disposedIn s.(trace) ++ held rs s.

(** Steps that may dispose of the executions of [rs]. *)
Record disposing (rs : list ReadyPreparedToolCall) (s s' : LoopState W) : Prop := {
  dp_accounted : accounted rs s → accounted rs s';
  dp_only : ∀ i, i ∈ s'.(disposed) → i ∈ s.(disposed) ∨ i ∈ readyIndex <$> rs;
  dp_more : ∀ i, i ∈ s.(disposed) → i ∈ s'.(disposed)
}.

#[export] Instance disposing_preorder rs : PreOrder (disposing rs).
Proof.
  split; [intros s; split; auto|]. intros s1 s2 s3 [A1 O1 M1] [A2 O2 M2]. split; [auto| |auto].
  intros i Hi. destruct (O2 i Hi) as [Hi2|]; [by apply O1|by right].
Qed.

Lemma disposing_same rs s s' : sameResources s s' → disposing rs s s'.
Proof. intros (Ep & Ed & Ex). split; unfold accounted, held; rewrite ?Ep, ?Ed, ?Ex; auto. Qed.

Lemma disposing_calm rs s s' : s'.(world) = s.(world) → sameResources s s' → disposing rs s s'.
Proof. intros _. apply disposing_same. Qed.

Lemma disposing_ask rs A (o : Op A) s : disposing rs s (ask o s).2.
Proof. apply disposing_same. unfold ask. by destruct (perform o (world s)). Qed.

Lemma held_once (l : list nat) i D : NoDup l → i ∈ l → i ∉ D → filter (λ j, j ∉ D) l ≡ₚ i :: filter (λ j, j ∉ i :: D) l.
Proof.
  intros Hn Hi HD. apply NoDup_Permutation; [by apply NoDup_filter| |].
  - constructor; [|by apply NoDup_filter]. rewrite list_elem_of_filter. set_solver.
  - intros x. rewrite elem_of_cons, !list_elem_of_filter, not_elem_of_cons. destruct (decide (x = i)); naive_solver.
Qed.

Lemma held_other (l : list nat) i D : i ∉ l → filter (λ j, j ∉ i :: D) l = filter (λ j, j ∉ D) l.
Proof.
  induction l as [|j l IH]; [done|]. rewrite not_elem_of_cons. intros [Hj Hi]. rewrite !filter_cons, IH by done.
  assert (E : j ∉ i :: D ↔ j ∉ D) by (rewrite not_elem_of_cons; naive_solver).
  destruct (decide (j ∉ i :: D)), (decide (j ∉ D)); tauto.
Qed.

Lemma holders_in rs r : NoDup (readyIndex <$> rs) → r ∈ rs →
  readyIndex r ∈ holders rs ↔ r.(rd_prepared).(p_tool).(t_preparer) = true.
Proof.
  intros Hn Hr. unfold holders. rewrite list_elem_of_fmap. split.
  - intros (r' & Ei & Hr'). apply list_elem_of_In, filter_In in Hr' as [Hr' Hp]. apply list_elem_of_In in Hr'.
    assert (r' = r) as ->; [|done]. apply list_elem_of_lookup_1 in Hr as (k & Hk), Hr' as (l & Hl).
    assert (k = l) as ->; [|congruence]. eapply (NoDup_lookup _ _ _ (readyIndex r) Hn); rewrite list_lookup_fmap; [by rewrite Hk|].
    rewrite Hl. cbn. by f_equal.
  - intros Hp. exists r. split; [done|]. apply list_elem_of_In, filter_In. split; [by apply list_elem_of_In|done].
Qed.

Lemma holders_NoDup rs : NoDup (readyIndex <$> rs) → NoDup (holders rs).
Proof.
  intros Hn. eapply sublist_NoDup; [exact Hn|]. apply fmap_sublist. clear. induction rs as [|r rs IH]; [done|]. cbn.
  destruct (t_preparer _); by constructor.
Qed.

(** Disposing of an execution of [rs], once or again. *)
Lemma disposing_dispose rs r : NoDup (readyIndex <$> rs) → r ∈ rs → keeps (disposing rs) (dispose r.(rd_prepared)).
Proof.
  intros Hn Hr s. pose proof (holders_in _ _ Hn Hr) as Hh. pose proof (holders_NoDup _ Hn) as Hhn. unfold readyIndex in Hh at 1.
  unfold dispose, gets, modify, observe, ask, mbind, Eff_bind. cbn. case_bool_decide as Hd; [reflexivity|].
  assert (Hin : p_index (rd_prepared r) ∈ readyIndex <$> rs) by by apply (list_elem_of_fmap_2 readyIndex).
  destruct (t_preparer (p_tool (rd_prepared r))) eqn:Ep; cbn.
  - destruct (perform (DisposeSource _) _) as [[] w]. split; cbn.
    + unfold accounted, held, preparedIn, disposedIn. cbn. rewrite !omap_app. cbn. rewrite app_nil_r. intros Ha. rewrite Ha.
      rewrite (held_once _ (p_index (rd_prepared r)) _ Hhn) by (done || by apply Hh). by rewrite <-app_assoc.
    + intros i [->|Hi]%elem_of_cons; auto.
    + intros i Hi. by right.
  - split; cbn.
    + unfold accounted, held. cbn. rewrite held_other; [done|]. intros Hx%Hh. congruence.
    + intros i [->|Hi]%elem_of_cons; auto.
    + intros i Hi. by right.
Qed.

(** ** Batches that dispose of what they prepared *)

Section batch.
Context (rs : list ReadyPreparedToolCall) (Hn : NoDup (readyIndex <$> rs)).

Abbreviation disposes := (keeps (disposing rs)).
#[local] Hint Resolve disposing_ask disposing_calm disposing_preorder : keep.
#[local] Hint Extern 1 (keeps _ (dispose _)) => apply disposing_dispose; [exact Hn|assumption] : keep.

Lemma disposes_startBody lifecycle r : disposes (startBody lifecycle r).
Proof. keep. Qed.

Lemma disposes_launchOne lifecycle r : r ∈ rs → disposes (launchOne lifecycle r).
Proof. intros Hr. unfold launchOne. keep. Qed.
#[local] Hint Resolve disposes_launchOne : keep.

Lemma disposes_launch lifecycle ready : (∀ r, r ∈ ready → r ∈ rs) →
  ∀ result, disposes (launchParallelToolCalls lifecycle ready result).
Proof.
  induction ready as [|r ready IH]; intros Hr result; cbn [launchParallelToolCalls]; [by keep|].
  assert (r ∈ rs) by (apply Hr; by left). assert (∀ result, disposes (launchParallelToolCalls lifecycle ready result)).
  { apply IH. intros r' Hr'. apply Hr. by right. }
  keep.
Qed.

Lemma disposes_awaitOutcome r : r ∈ rs → disposes (awaitOutcome r.(rd_prepared)).
Proof. intros Hr. unfold awaitOutcome. keep. Qed.
#[local] Hint Resolve disposes_awaitOutcome : keep.

Lemma disposes_runReady message lifecycle rest r : r ∈ rs → disposes (runReady message lifecycle rest r).
Proof.
  intros Hr. assert (∀ result, disposes (launchParallelToolCalls lifecycle [r] result)).
  { apply disposes_launch. by intros r' ->%list_elem_of_singleton. }
  unfold runReady. keep.
Qed.

Lemma disposes_completeReady message reason ready : (∀ r, r ∈ ready → r ∈ rs) → disposes (completeReady message reason ready).
Proof.
  induction ready as [|r ready IH]; intros Hr; cbn [completeReady]; [by keep|]. assert (r ∈ rs) by (apply Hr; by left).
  assert (disposes (completeReady message reason ready)) by (apply IH; intros r' Hr'; apply Hr; by right). keep.
Qed.

Lemma disposes_finalizeCompleted message completed : (∀ x, x ∈ completed → x.1 ∈ rs) → disposes (finalizeCompleted message completed).
Proof.
  induction completed as [|[r x] completed IH]; intros Hr; cbn [finalizeCompleted]; [by keep|].
  assert (r ∈ rs) by (apply (Hr (r, x)); by left).
  assert (disposes (finalizeCompleted message completed)) by (apply IH; intros r' Hr'; apply Hr; by right). keep.
Qed.

Lemma disposes_taskStep message task : task.1 ∈ rs → disposes (taskStep message task).
Proof. destruct task as [r []]; intros Hr; cbn [fst] in Hr; cbn [taskStep]; keep. Qed.

Lemma returns_taskStep message task : returns (λ next, match next with inl t => t.1 = task.1 | inr _ => True end) (taskStep message task).
Proof.
  destruct task as [r []]; cbn [taskStep]; repeat (apply returns_then; intros); by apply returns_ret.
Qed.

Lemma disposes_runTasks message fuel : ∀ (tasks : list Task) results, (∀ t, t ∈ tasks → t.1 ∈ rs) →
  disposes (runTasks fuel message tasks results).
Proof.
  induction fuel as [|fuel IH]; intros [|task tasks] results Ht; cbn [runTasks]; try by keep.
  apply (keeps_bind (disposing rs)); [by keep|]. intros i. destruct (wakeTask_some i task tasks) as (b & t & a & -> & Ee).
  rewrite Ee in Ht. assert (Hta : t.1 ∈ rs) by (apply Ht; set_solver).
  eapply keeps_returns; [by apply disposing_preorder|by apply disposes_taskStep|apply returns_taskStep|].
  intros [t'|fin] Ht'; apply IH; intros u Hu; [|apply Ht; set_solver].
  apply elem_of_app in Hu as [Hu|[->|Hu]%elem_of_cons]; [apply Ht; set_solver|by rewrite Ht'|apply Ht; set_solver].
Qed.

Definition within (l : ParallelToolCallLaunches) : Prop :=
  (∀ r, r ∈ l.(l_started) → r ∈ rs) ∧ (∀ x, x ∈ l.(l_completed) → x.1 ∈ rs).

Lemma returns_launch lifecycle ready : (∀ r, r ∈ ready → r ∈ rs) → ∀ result, within result →
  returns within (launchParallelToolCalls lifecycle ready result).
Proof.
  induction ready as [|r ready IH]; intros Hr result Hw; cbn [launchParallelToolCalls]; [by apply returns_ret|].
  assert (r ∈ rs) by (apply Hr; by left). assert (∀ r', r' ∈ ready → r' ∈ rs) by (intros r' Hr'; apply Hr; by right).
  destruct Hw as [Hs Hc]. apply returns_then. intros [|x|e]; [| |by apply returns_ret]; apply returns_then; intros _; apply IH; try done.
  - split; [cbn|done]. intros y [Hy|Hy%list_elem_of_singleton]%elem_of_app; subst; auto.
  - split; [done|cbn]. intros y [Hy|Hy%list_elem_of_singleton]%elem_of_app; subst; auto.
Qed.

Lemma disposes_runReadyCalls message lifecycle entries tail : (∀ r, r ∈ readyOf entries → r ∈ rs) →
  disposes (runReadyCalls message lifecycle entries tail).
Proof.
  intros Hr. unfold runReadyCalls. eapply keeps_returns; [by apply disposing_preorder|..].
  - apply kept_awaiting; [by apply disposing_preorder|apply disposing_ask|by apply disposes_launch].
  - apply returns_awaiting. apply returns_launch; [done|]. by split; intros ? ?%elem_of_nil.
  - intros l [Hs Hc]. pose proof (disposes_finalizeCompleted message _ Hc).
    assert (∀ fuel results, disposes (runTasks fuel message ((., AwaitsOutcome) <$> l_started l) results)).
    { intros fuel results. apply disposes_runTasks. intros t (r & -> & Hin)%list_elem_of_fmap. by apply Hs. }
    assert (∀ reason f, disposes (completeReady message reason (List.filter f (readyOf entries)))).
    { intros reason f. apply disposes_completeReady. intros r Hin. apply list_elem_of_In, filter_In in Hin as [Hin _].
      apply Hr. by apply list_elem_of_In. }
    keep.
Qed.

Lemma disposes_parallelBody message lifecycle calls entries : (∀ r, r ∈ readyOf entries → r ∈ rs) →
  disposes (parallelBody message lifecycle calls entries).
Proof.
  intros Hr. unfold parallelBody. pose proof (disposes_runReadyCalls message lifecycle entries) as Hrun.
  assert (∀ reason, disposes (completeReady message reason (readyOf entries))) by (intros; by apply disposes_completeReady).
  assert (∀ tail, disposes (runReadyCalls message lifecycle entries tail)) by (intros; by apply Hrun).
  keep.
Qed.
End batch.

(** ** Preparing *)

#[export] Instance same_preorder : PreOrder (sameResources (W := W)).
Proof.
  split; [done|]. intros s1 s2 s3 (P1 & D1 & X1) (P2 & D2 & X2). unfold sameResources. by rewrite P2, D2, X2.
Qed.

Lemma same_ask A (o : Op A) s : sameResources s (ask o s).2.
Proof. unfold ask. by destruct (perform o (world s)). Qed.

Lemma same_calm (s s' : LoopState W) : s'.(world) = s.(world) → sameResources s s' → sameResources s s'.
Proof. done. Qed.
#[local] Hint Resolve same_ask same_calm same_preorder : keep.

Lemma accounted_same rs s s' : sameResources s s' → accounted rs s → accounted rs s'.
Proof. intros Hs. apply disposing_same, Hs. Qed.

Lemma accounted_nil s : accounted [] s ↔ balanced s.
Proof. unfold accounted, balanced, held, holders. cbn. by rewrite app_nil_r. Qed.

(** What a computation that holds nothing does, with what is known of it. *)
Lemma calm_both {A} (m : Eff (LoopState W) A) Q s : keeps sameResources m → spec True m Q any s →
  wp True m (λ a s', sameResources s s' ∧ ∃ d, moves d s s' ∧ Q a d s') (λ _ s', sameResources s s') s.
Proof.
  intros Hk Hm. eapply wp_mono; [by apply (wp_keeps True sameResources)|..]; cbn; [|by intros e s' [_ ?]].
  intros a s' [Hq ?]. done.
Qed.

Lemma calm_wp {A} (m : Eff (LoopState W) A) s : keeps sameResources m →
  wp True m (λ _ s', sameResources s s') (λ _ s', sameResources s s') s.
Proof. intros Hk. by apply keeps_wp. Qed.

(** The state of the executions while calls are prepared: [rs] is prepared and
    [D] was disposed of. *)
Definition preparing (rs : list ReadyPreparedToolCall) (D : list nat) (s : LoopState W) : Prop :=
  accounted rs s ∧ s.(disposed) = D.

Lemma preparing_same rs D s s' : sameResources s s' → preparing rs D s → preparing rs D s'.
Proof. intros Hs [Ha Hd]. split; [by eapply accounted_same|]. destruct Hs as (_ & _ & ->). done. Qed.

Lemma holders_app rs rs' : holders (rs ++ rs') = holders rs ++ holders rs'.
Proof. unfold holders. by rewrite List.filter_app, fmap_app. Qed.

Lemma execution_prepares p rs s : p.(p_index) ∉ s.(disposed) → accounted rs s →
  wp True (prepareToolCallExecution p)
    (λ r s', s'.(disposed) = s.(disposed) ∧
       match r with inl ready => ready.(rd_prepared) = p ∧ accounted (rs ++ [ready]) s' | inr _ => accounted rs s' end)
    (λ _ _, False) s.
Proof.
  intros Hd Ha. unfold prepareToolCallExecution. destruct (t_preparer (p_tool p)) eqn:Ep; cbn [negb].
  - unfold wp, ask, observe, modify, mbind, Eff_bind. destruct (perform _ _) as [[e|[result isError|e|args]] w]; cbn.
    + destruct (perform Tick w) as [[] w2]. done.
    + destruct (perform (DisposeSource _) w) as [[] w2]. cbn. destruct (perform Tick w2) as [[] w3]. cbn. split; [done|].
      unfold accounted, held, preparedIn, disposedIn in *. cbn. rewrite !omap_app. cbn. rewrite Ha, !app_nil_r. by rewrite <-!app_assoc, (Permutation_app_comm [_]).
    + destruct (perform (DisposeSource _) w) as [[] w2]. cbn. destruct (perform Tick w2) as [[] w3]. cbn. split; [done|].
      unfold accounted, held, preparedIn, disposedIn in *. cbn. rewrite !omap_app. cbn. rewrite Ha, !app_nil_r. by rewrite <-!app_assoc, (Permutation_app_comm [_]).
    + split; [done|]. split; [done|]. unfold accounted, held, preparedIn, disposedIn in *. rewrite holders_app.
      assert (holders [{| rd_prepared := p; rd_args := args |}] = [p_index p]) as -> by (unfold holders; cbn; by rewrite Ep).
      rewrite filter_app, filter_cons_True by done. cbn. rewrite !omap_app. cbn. by rewrite Ha, ?app_nil_r, <-app_assoc.
  - cbn. split; [done|]. split; [done|]. unfold accounted, held in *. rewrite holders_app. unfold holders at 2. cbn.
    by rewrite Ep, app_nil_r.
Qed.

Lemma wp_and {A} (m : Eff (LoopState W) A) (Q1 Q2 : A → LoopState W → Prop) (E1 E2 : JsError → LoopState W → Prop) s :
  wp True m Q1 E1 s → wp True m Q2 E2 s → wp True m (λ a s', Q1 a s' ∧ Q2 a s') (λ e s', E1 e s' ∧ E2 e s') s.
Proof. unfold wp. by destruct (m s) as [[] s']. Qed.

(** A step that holds nothing, from a state of the preparation. *)
Lemma calm_bind {A B} (m : Eff (LoopState W) A) (k : A → Eff (LoopState W) B) Q rs D s : keeps sameResources m → preparing rs D s →
  (∀ a s', preparing rs D s' → wp True (k a) Q (λ _, preparing rs D) s') → wp True (m ≫= k) Q (λ _, preparing rs D) s.
Proof.
  intros Hm Hs Hk. apply wp_bind. eapply wp_mono; [by apply calm_wp| |]; cbn.
  - intros a s' Hsame. apply Hk. by eapply preparing_same.
  - intros e s' Hsame. by eapply preparing_same.
Qed.

Lemma calm_end {A} (m : Eff (LoopState W) A) (Q : A → LoopState W → Prop) rs D s : keeps sameResources m → preparing rs D s →
  (∀ a s', preparing rs D s' → Q a s') → wp True m Q (λ _, preparing rs D) s.
Proof.
  intros Hm Hs Hq. eapply wp_mono; [by apply calm_wp| |]; cbn.
  - intros a s' Hsame. apply Hq. by eapply preparing_same.
  - intros e s' Hsame. by eapply preparing_same.
Qed.

Lemma preparing_tick rs D s : preparing rs D s → preparing rs D (s <| world ::= λ w, (perform Tick w).2 |>).
Proof. intros [Ha Hd]. by split. Qed.

(** What an entry adds to what is held. *)
Definition entryHeld (i : nat) (rs : list ReadyPreparedToolCall) (D : list nat) (entry : FinalizedToolCallEntry) (s : LoopState W) :
    Prop :=
  match entry with
  | EntryReady r => readyIndex r = i ∧ preparing (rs ++ [r]) D s
  | EntryFinal _ => preparing rs D s
  end.

Lemma entry_prepares message calls i c rs D s : (i, c) ∈ calls → validations calls s → i ∉ D → preparing rs D s →
  wp True (prepareToolCallEntry message i c) (entryHeld i rs D) (λ _, preparing rs D) s.
Proof.
  intros Hin Hv HD Hs. unfold prepareToolCallEntry. apply wp_bind.
  eapply wp_mono; [apply (calm_both _ (λ _ d _, d = d_nil <| d_starts := [c.(tc_id)] |>)); [by keep|apply emitStart_spec]| |];
    cbn; [|intros e s' ?; by eapply preparing_same].
  intros hide s1 (Hs1 & d1 & Hm1 & _). pose proof (preparing_same _ _ _ _ Hs1 Hs) as H1. apply wp_bind, wp_after.
  eapply wp_mono; [apply (calm_both _ (λ v d s', d = d_nil ∧ validOf i c v)); [by keep|]| |]; cbn.
  { eapply prepare_spec; [exact Hin|]. by eapply validations_moves. }
  2: { intros e s' ?. apply preparing_tick. by eapply preparing_same. }
  intros v s2 (Hs2 & d2 & _ & _ & Hp). pose proof (preparing_tick _ _ _ (preparing_same _ _ _ _ Hs2 H1)) as H2.
  destruct v as [p|im]; [|apply (calm_bind _ _ _ rs D); [by keep|done|]; intros fin s3 H3; exact H3].
  destruct Hp as [Hi Hc]. apply wp_bind, wp_after. destruct H2 as [Ha2 Hd2].
  eapply wp_mono; [apply (execution_prepares p rs); [cbn in *; congruence|done]| |by intros ? ? ?]. cbn.
  intros [ready|x] s3 [Hd3 Hr].
  - destruct Hr as [Er Ha3]. split; [by rewrite <-Hi, <-Er|]. split; [exact Ha3|]. cbn in *; congruence.
  - apply (calm_bind _ _ _ rs D); [by keep|split; [exact Hr|]; cbn in *; congruence|]. intros fin s4 H4. exact H4.
Qed.

Lemma list_empty_filter (D l : list nat) : (∀ i, i ∈ l → ¬ (i ∉ D)) → filter (λ i, i ∉ D) l = [].
Proof.
  induction l as [|i l IH]; intros Hl; [done|]. rewrite filter_cons_False by (apply Hl; by left). apply IH.
  intros j Hj. apply Hl. by right.
Qed.

(** Once its executions are disposed of, nothing is held. *)
Lemma accounted_disposed rs s : accounted rs s → (∀ r, r ∈ rs → readyIndex r ∈ s.(disposed)) → balanced s.
Proof.
  intros Ha Hd. unfold accounted, balanced in *. rewrite Ha. replace (held rs s) with (@nil nat); [by rewrite app_nil_r|].
  symmetry. unfold held. apply list_empty_filter. intros i Hi. apply list_elem_of_fmap in Hi as (r & -> & Hr).
  apply list_elem_of_In, filter_In in Hr as [Hr _]. intros Hn. apply Hn, Hd. by apply list_elem_of_In.
Qed.

Lemma dispose_wp p s : wp True (dispose p) (λ _ s', p.(p_index) ∈ s'.(disposed)) (λ _ _, False) s.
Proof.
  unfold wp, dispose, gets, modify, observe, ask, mbind, Eff_bind. cbn. case_bool_decide as Hd; [done|].
  destruct (t_preparer _); cbn; [destruct (perform _ _) as [[] w]; cbn|]; by left.
Qed.

Lemma wp_any {A} (m : Eff (LoopState W) A) s : wp True m (λ _ _, True) (λ _ _, True) s.
Proof. unfold wp. by destruct (m s) as [[] s']. Qed.

Lemma finally_disposed {A} (m : Eff (LoopState W) A) p s :
  wp True (tryFinally m (dispose p)) (λ _ s', p.(p_index) ∈ s'.(disposed)) (λ _ s', p.(p_index) ∈ s'.(disposed)) s.
Proof.
  apply wp_finally. eapply wp_mono; [apply wp_any| |]; cbn; intros a s' _; (eapply wp_mono; [apply dispose_wp|auto|done]).
Qed.

(** One call after the other: whatever happens to a call, it is disposed of
    before the next. *)
Definition afterCall (i : nat) (s s' : LoopState W) : Prop := balanced s' ∧ ∀ j, j ∈ s'.(disposed) → j ∈ s.(disposed) ∨ j = i.

Lemma runReady_balanced message lifecycle rest r s : accounted [r] s →
  wp True (runReady message lifecycle rest r) (λ _, afterCall (readyIndex r) s) (λ _, afterCall (readyIndex r) s) s.
Proof.
  intros Ha. eapply wp_mono.
  { apply wp_and; [apply (keeps_wp (disposing [r])), disposes_runReady; [by apply NoDup_singleton|by left]|].
    apply finally_disposed. }
  all: cbn; intros a s' [[Ha' Ho _] Hd]; (split; [|intros j Hj; destruct (Ho j Hj) as [|Hj']; [by left|right; by apply list_elem_of_singleton in Hj']]).
  all: eapply accounted_disposed; [by apply Ha'|]; by intros r' ->%list_elem_of_singleton.
Qed.

Record fresh (calls : list (nat * AgentToolCall)) (s : LoopState W) : Prop := {
  fr_batch : batchOf calls s;
  fr_balanced : balanced s;
  fr_new : ∀ x, x ∈ calls → x.1 ∉ s.(disposed)
}.

Lemma balanced_same s s' : sameResources s s' → balanced s → balanced s'.
Proof. intros Hs Hb. apply accounted_nil. eapply accounted_same; [exact Hs|]. by apply accounted_nil. Qed.

Lemma fresh_same calls d s s' : sameResources s s' → moves d s s' → fresh calls s → fresh calls s'.
Proof.
  intros Hs Hm [Hb Hba Hn]. split; [by eapply batchOf_moves|by eapply balanced_same|]. destruct Hs as (_ & _ & Hd). by rewrite Hd.
Qed.

Lemma tick_moves s : moves d_nil s (s <| world ::= λ w, (perform Tick w).2 |>).
Proof. pose proof (moves_ask Tick s) as Hm. unfold ask in Hm. cbn. destruct (perform Tick (world s)) as [[] w]. exact Hm. Qed.

(** A calm step between two calls. *)
Lemma fresh_bind {A B} (m : Eff (LoopState W) A) (k : A → Eff (LoopState W) B) P calls s : keeps sameResources m →
  spec True m P any s → fresh calls s → (∀ a s', fresh calls s' → wp True (k a) (λ _, balanced) (λ _, balanced) s') →
  wp True (m ≫= k) (λ _, balanced) (λ _, balanced) s.
Proof.
  intros Hk Hm Hs Hnext. apply wp_bind. eapply wp_mono; [by apply (calm_both _ P)| |]; cbn.
  - intros a s' (Hs' & d & Hd & _). apply Hnext. by eapply fresh_same.
  - intros e s' Hs'. eapply balanced_same; [exact Hs'|apply Hs].
Qed.

Lemma fresh_next i c rest s s' d : fresh ((i, c) :: rest) s → moves d s s' → afterCall i s s' → fresh rest s'.
Proof.
  intros [[Hn Hv] _ Hnew] Hm [Hb Ho]. cbn in Hn. apply NoDup_cons in Hn as [Hi Hn]. split; [split|done|].
  - done.
  - eapply validations_moves; [exact Hm|]. intros j c' v Hin. apply Hv. by right.
  - intros x Hx Hd. destruct (Ho _ Hd) as [Hd'|Ei]; [by apply (Hnew x); [right|]|]. apply Hi. rewrite <-Ei.
    by apply list_elem_of_fmap_2.
Qed.

(** The preparation of a call that is next. *)
Lemma entry_fresh message i c rest s : fresh ((i, c) :: rest) s →
  wp True (awaiting (prepareToolCallEntry message i c))
    (λ entry s', (∃ d, moves d s s') ∧ entryOf i c entry ∧ entryHeld i [] s.(disposed) entry s')
    (λ _, balanced) s.
Proof.
  intros [[Hn Hv] Hb Hnew]. apply wp_after. assert (Hin : (i, c) ∈ (i, c) :: rest) by by left.
  eapply wp_mono; [apply wp_and; [by eapply prepareEntry_spec|]| |]; cbn.
  - apply (entry_prepares _ ((i, c) :: rest) _ _ [] s.(disposed)); [done|done|exact (Hnew (i, c) Hin)|]. split; [by apply accounted_nil|done].
  - intros entry s' [(d & Hd & _ & He) Hh]. split; [|split; [exact He|]].
    + exists (d_app d d_nil). eapply moves_trans; [exact Hd|apply tick_moves].
    + destruct entry; cbn in *; [by apply preparing_tick|]. destruct Hh as [? Hh]. split; [done|by apply preparing_tick].
  - intros e s' [_ [Ha _]]. by apply accounted_nil in Ha.
Qed.

Lemma sequentialLoop_balanced message lifecycle calls : ∀ q s, fresh calls s →
  wp True (sequentialLoop message lifecycle calls q) (λ _, balanced) (λ _, balanced) s.
Proof.
  induction calls as [|[i c] rest IH]; intros q s Hs; cbn [sequentialLoop]; [apply wp_ret, Hs|].
  eapply fresh_bind; [by keep|apply pollSteering_spec|exact Hs|]. intros steering s1 H1.
  destruct steering as [|m ms]; [|apply wp_ret, H1]. apply wp_bind.
  eapply wp_mono; [by eapply entry_fresh| |by intros e s' ?]. cbn. intros entry s2 ((d2 & Hm2) & He & Hh).
  apply wp_bind. eapply wp_mono with (Q := λ step s3, balanced s3 ∧ (match step, entry with StepFinal _, _ => fresh rest s3 | _, _ => True end))
    (E := λ _ s3, balanced s3).
  - destruct entry as [fin|r]; cbn in He, Hh.
    + destruct Hh as [Ha Hd]. apply accounted_nil in Ha. apply wp_ret. split; [done|]. eapply fresh_next; [exact H1|exact Hm2|].
      split; [done|]. rewrite Hd. auto.
    + destruct Hh as [Hi [Ha Hd]]. eapply wp_mono; [apply wp_and; [by apply (runReady_spec (T := True) _ _ _ i c)|by apply runReady_balanced]| |].
      * cbn. intros step s3 [(d3 & Hm3 & _) Hac]. split; [apply Hac|]. rewrite Hi in Hac. destruct step; try done.
        eapply fresh_next; [exact H1|by eapply moves_trans|]. split; [apply Hac|]. intros j Hj. rewrite <-Hd. by apply Hac.
      * cbn. intros e s3 [_ Hac]. apply Hac.
  - intros step s3 [Hb3 Hf]. destruct step as [fin|ms|e fin m]; [|by destruct entry; apply wp_ret|by apply wp_ret].
    eapply fresh_bind; [by keep|apply emitEnd_spec|exact Hf|]. intros _ s4 H4.
    eapply fresh_bind; [by keep|apply emitResult_spec|exact H4|]. intros _ s5 H5.
    apply wp_bind, wp_gets. destruct (aborted (world s5)); [apply wp_ret, H5|by apply IH].
  - by cbn.
Qed.

Lemma sequential_balanced message lifecycle calls s : fresh calls s →
  wp True (executeToolCallsSequential message lifecycle calls) (λ _, balanced) (λ _, balanced) s.
Proof.
  intros Hs. unfold executeToolCallsSequential. apply wp_bind. eapply wp_mono; [by apply sequentialLoop_balanced| |done]. cbn.
  intros q s1 Hb. eapply wp_mono; [apply calm_wp; by keep|..]; cbn; intros a s2 Hs2; by eapply balanced_same.
Qed.

(** All calls at once: what was prepared is held until the end. *)
Record gathering (calls : list (nat * AgentToolCall)) (rs : list ReadyPreparedToolCall) (s : LoopState W) : Prop := {
  ga_held : preparing rs [] s;
  ga_apart : NoDup ((readyIndex <$> rs) ++ calls.*1)
}.

Lemma readyOf_snoc es entry : readyOf (es ++ [entry]) = readyOf es ++ match entry with EntryReady r => [r] | EntryFinal _ => [] end.
Proof. unfold readyOf. rewrite omap_app. by destruct entry. Qed.

Lemma gathering_skip x rest rs s : gathering (x :: rest) rs s → gathering rest rs s.
Proof.
  intros [Hh Ha]. split; [done|]. eapply sublist_NoDup; [exact Ha|]. apply sublist_app; [done|]. cbn. by apply sublist_cons.
Qed.

Lemma gathering_take i c rest rs r s : readyIndex r = i → preparing (rs ++ [r]) [] s → NoDup ((readyIndex <$> rs) ++ ((i, c) :: rest).*1) →
  gathering rest (rs ++ [r]) s.
Proof. intros Hi Hh Hn. split; [done|]. rewrite fmap_app, <-app_assoc. cbn. by rewrite Hi. Qed.

Lemma prepareEntries_gathers message all calls : ∀ es s, sublist calls all → validations all s → gathering calls (readyOf es) s →
  wp True (prepareEntries message calls es)
    (λ r s', preparing (readyOf r.1) [] s' ∧ NoDup (readyIndex <$> readyOf r.1)) (λ _ _, False) s.
Proof.
  assert (Hdone : ∀ calls es s, gathering calls (readyOf es) s → preparing (readyOf es) [] s ∧ NoDup (readyIndex <$> readyOf es)).
  { intros l es s [Hh Ha]. split; [done|]. by apply NoDup_app in Ha as [? _]. }
  induction calls as [|[i c] rest IH]; intros es s Hs Hv Hg; cbn [prepareEntries]; [apply wp_ret; cbn; by eapply Hdone|].
  assert (Hin : (i, c) ∈ all) by (eapply elem_of_sublist; [by left|done]).
  apply wp_bind, wp_catch, wp_bind, wp_after. destruct Hg as [Hh Ha].
  eapply wp_mono; [apply wp_and; [by eapply prepareEntry_spec|by apply (entry_prepares _ all _ _ (readyOf es) []); [| |apply not_elem_of_nil|]]| |]; cbn.
  2: { intros e s1 [_ H1]. apply (Hdone ((i, c) :: rest) es). split; [by apply preparing_tick|done]. }
  intros entry s1 [(d1 & Hm1 & _) He]. match goal with |- wp _ _ _ _ ?x => set (s2 := x) end.
  assert (Hv2 : validations all s2) by (eapply validations_moves; [apply tick_moves|]; by eapply validations_moves).
  assert (Hg2 : gathering rest (readyOf (es ++ [entry])) s2).
  { rewrite readyOf_snoc. destruct entry as [fin|r]; cbn in He.
    - rewrite app_nil_r. apply (gathering_skip (i, c)). split; [by apply preparing_tick|done].
    - destruct He as [Hi He]. eapply gathering_take; [done|by apply preparing_tick|exact Ha]. }
  clearbody s2. apply wp_bind, wp_catch.
  eapply wp_mono with (Q := λ _ s3, validations all s3 ∧ gathering rest (readyOf (es ++ [entry])) s3)
    (E := λ _ s3, gathering rest (readyOf (es ++ [entry])) s3).
  - destruct entry as [fin|r]; [|by apply wp_ret]. apply wp_bind. destruct Hg2 as [Hh2 Ha2].
    eapply wp_mono; [apply (calm_both _ any); [by keep|eapply spec_use; [apply emitEnd_spec|done|done]]| |]; cbn.
    + intros _ s3 (Hsame & d & Hm & _). split; [by eapply validations_moves|]. split; [by eapply preparing_same|done].
    + intros e s3 Hsame. split; [by eapply preparing_same|done].
  - cbn. intros failed s3 [Hv3 Hg3]. apply wp_bind, wp_gets. case_bool_decide; [apply wp_ret; by eapply Hdone|].
    destruct (aborted _); [apply wp_ret; by eapply Hdone|]. apply IH; [|done..]. etrans; [by apply sublist_cons|done].
  - cbn. intros e s3 Hg3. by eapply Hdone.
Qed.

(** Disposing of all of them at the end. *)
Lemma disposeAll rs l : NoDup (readyIndex <$> rs) → (∀ r, r ∈ l → r ∈ rs) → ∀ s, accounted rs s →
  wp True (forEach (λ r, dispose r.(rd_prepared)) l)
    (λ _ s', accounted rs s' ∧ (∀ r, r ∈ l → readyIndex r ∈ s'.(disposed)) ∧ ∀ i, i ∈ s.(disposed) → i ∈ s'.(disposed))
    (λ _ _, False) s.
Proof.
  intros Hn. induction l as [|r l IH]; intros Hl s Ha; cbn [forEach].
  { apply wp_ret. split; [done|]. split; [by intros ? ?%elem_of_nil|auto]. }
  assert (Hr : r ∈ rs) by (apply Hl; by left). apply wp_bind.
  eapply wp_mono; [apply wp_and; [apply (keeps_wp (disposing rs)), disposing_dispose; done|apply dispose_wp]| |by intros ? ? [_ []]].
  cbn. intros _ s1 [[Hk _ Hmore] Hd]. eapply wp_mono; [apply IH; [by intros; apply Hl; right|by apply Hk]| |done]. cbn.
  intros _ s2 (Ha2 & Hall & Hm2). split; [done|]. split; [|auto]. intros r' [->|Hr']%elem_of_cons; [by apply Hm2|by apply Hall].
Qed.

Lemma parallel_balanced message lifecycle calls s : batchOf calls s → balanced s → s.(disposed) = [] →
  wp True (executeToolCallsParallel message lifecycle calls) (λ _, balanced) (λ _, balanced) s.
Proof.
  intros [Hn Hv] Hb Hd. unfold executeToolCallsParallel. apply wp_bind.
  eapply wp_mono; [apply (prepareEntries_gathers _ calls); [done|done|]| |done].
  { split; [|done]. split; [by apply accounted_nil|done]. }
  cbn. intros [es failed] s1 [[Ha _] Hnd]. cbn [fst snd] in *. set (rs := readyOf es) in *.
  assert (Hend : ∀ s2, accounted rs s2 → wp True (forEach (λ r, dispose r.(rd_prepared)) rs) (λ _, balanced) (λ _, balanced) s2).
  { intros s2 Ha2. eapply wp_mono; [by apply (disposeAll rs rs)| |done]. cbn. intros _ s3 (Ha3 & Hall & _).
    by eapply accounted_disposed. }
  apply wp_finally. eapply wp_mono with (Q := λ _, accounted rs) (E := λ _, accounted rs).
  - destruct failed as [e|]; [by apply wp_throw|]. eapply wp_mono; [apply (keeps_wp (disposing rs)), disposes_parallelBody; done| |];
      cbn; intros a s2 [Hk _ _]; by apply Hk.
  - cbn. intros b s2 Ha2. by apply Hend.
  - cbn. intros e s2 Ha2. by apply Hend.
Qed.

(** Whatever a batch does, it leaves nothing that it prepared. *)
Lemma executeToolCalls_balanced message config seen s : balanced s →
  wp True (executeToolCalls message config seen) (λ _, balanced) (λ _, balanced) s.
Proof.
  intros Hb. unfold executeToolCalls. set (calls := numbered (toolCallsOf message)). apply wp_bind, wp_modify.
  assert (Hs : NoDup calls.*1) by (apply sorted_NoDup, numbered_sorted).
  set (s0 := s <| resolved := [] |> <| validated := [] |> <| disposed := [] |>).
  assert (Hb0 : balanced s0) by exact Hb. assert (Hv0 : validations calls s0) by by intros i c v _. assert (Hd0 : s0.(disposed) = []) by done.
  clearbody s0. apply wp_bind. eapply wp_mono; [apply wp_and; [by apply (admitBatch_spec (T := True) message calls)|apply (calm_wp (admitBatch message calls)); by keep]| |].
  2: { cbn. intros e s1 [_ Hsame]. by eapply balanced_same. }
  cbn. intros admission s1 [(d1 & _ & _ & Hv1) Hsame1]. pose proof (balanced_same _ _ Hsame1 Hb0) as Hb1.
  assert (Hd1 : s1.(disposed) = []) by (destruct Hsame1 as (_ & _ & ->); done).
  destruct admission as [intervention|lifecycle].
  { eapply wp_mono; [apply calm_wp; by keep|..]; cbn; intros a s2 Hs2; by eapply balanced_same. }
  apply wp_bind. eapply wp_mono with (Q := λ _ s2, fresh calls s2 ∧ s2.(disposed) = []) (E := λ _, balanced).
  - assert (Hf1 : fresh calls s1) by (split; [done|done|]; rewrite Hd1; by intros x _ ?%elem_of_nil).
    case_bool_decide; [by apply wp_ret|]. eapply wp_mono; [apply (calm_both _ any); [by keep|]| |]; cbn.
    + eapply spec_use; [apply hasSequential_spec|done|done].
    + intros _ s2 (Hsame & d2 & Hm2 & _). split; [by eapply fresh_same|]. by destruct Hsame as (_ & _ & ->).
    + intros e s2 Hsame. by eapply balanced_same.
  - cbn. intros [] s2 [Hf Hd2]; [by apply sequential_balanced|]. apply parallel_balanced; [apply Hf|apply Hf|done].
  - done.
Qed.

Definition staysBalanced (s s' : LoopState W) : Prop := balanced s → balanced s'.

#[export] Instance staysBalanced_preorder : PreOrder staysBalanced.
Proof. split; unfold staysBalanced; [by intros s|]. intros s1 s2 s3. auto. Qed.

Lemma staysBalanced_ask A (o : Op A) s : staysBalanced s (ask o s).2.
Proof. unfold staysBalanced. apply balanced_same, same_ask. Qed.

Lemma staysBalanced_calm (s s' : LoopState W) : s'.(world) = s.(world) → sameResources s s' → staysBalanced s s'.
Proof. intros _ Hs. unfold staysBalanced. by apply balanced_same. Qed.

Lemma staysBalanced_batch message config seen : keeps staysBalanced (executeToolCalls message config seen).
Proof.
  intros s Hb. pose proof (executeToolCalls_balanced message config seen s Hb) as Hw. unfold wp in Hw.
  pose proof (ends_executeToolCalls message config seen s) as He. by destruct (executeToolCalls message config seen s) as [[] s'].
Qed.

#[local] Hint Resolve staysBalanced_ask staysBalanced_calm staysBalanced_batch staysBalanced_preorder : keep.

Lemma run_balanced fuel streamFuel prompts config : keeps staysBalanced (runAgentLoop fuel streamFuel prompts config).
Proof. unfold runAgentLoop. keep. Qed.
End resources.
