(* ===== verification/ScriptedWorld.v ===== *)
(** * A world that follows a script

    A provider with a list of answers, a queue of steering messages, tools that
    fetch from the network, and a signal that is aborted at a given time: the
    concrete world that the examples of the agent loop run in. *)
From S2P Require Import Prelude JsStrings Effects AgentMessages ToolBatch ToolBatchFacts AgentLoop AgentLoopFacts AgentProgress.

Record Script := {
  sc_answers : list AssistantMessage;
  sc_current : option AssistantMessage;
  sc_steering : list (list (option nat * string));
  sc_cancelled : list nat;
  sc_time : nat;
  sc_abortAt : option nat
}.

#[export] Instance Script_eta : Eta Script := λ w,
  {| sc_answers := w.(sc_answers); sc_current := w.(sc_current); sc_steering := w.(sc_steering);
     sc_cancelled := w.(sc_cancelled); sc_time := w.(sc_time);
     sc_abortAt := w.(sc_abortAt) |}.

Definition fetched : AgentToolResult := {| r_content := [PText "fetched"]; r_details := DEmpty; r_terminate := None; r_ack := None |}.

(** The answer of an operation, before the time passes. *)
Definition answerOf {A} (o : Op A) : Script → A * Script :=
  match o in Op A return Script → A * Script with
  | Tick => λ w, (tt, w)
  | EmitEvent _ => λ w, (None, w)
  | GetSteeringMessages => λ w,
      match w.(sc_steering) with
      | [] => (inr [], w)
      | poll :: rest => (inr ((λ '(ref, text), MUser ref (CString text)) <$> poll), w <| sc_steering := rest |>)
      end
  | GetFollowUpMessages => λ w, (inr [], w)
  | ConsumeCancellation m => λ w,
      match messageRef m with
      | Some r => if bool_decide (r ∈ w.(sc_cancelled)) then (true, w <| sc_cancelled ::= filter (λ x, x ≠ r) |>) else (false, w)
      | None => (false, w)
      end
  | TransformContext messages => λ w, (inr messages, w)
  | OpenStream _ _ => λ w,
      match w.(sc_answers) with
      | [] => (inl (newError "no answer"), w)
      | a :: rest => (inr tt, w <| sc_answers := rest |> <| sc_current := Some a |>)
      end
  | NextStreamEvent => λ w, (inr None, w)
  | StreamResult => λ w, match w.(sc_current) with Some a => (inr a, w) | None => (inl (newError "no answer"), w) end
  | Uuidv7 => λ w, ("turn", w)
  | PrepareNextTurn _ _ _ _ => λ w, (inr None, w)
  | ShouldStopAfterTurn _ _ _ _ => λ w, (inr false, w)
  | ResolveDeferredTool _ _ _ => λ w, (inr None, w)
  | PrepareArguments _ args => λ w, (inr args, w)
  | ValidateToolArguments _ c => λ w, (inr c.(tc_arguments), w)
  | BeforeToolBatch _ _ _ => λ w, (inr None, w)
  | CommitReadyCall _ _ => λ w, (None, w)
  | ReleaseSkippedCalls _ => λ w, (tt, w)
  | BeforeToolCall _ _ _ _ => λ w, (inr None, w)
  | PrepareExecution _ _ args => λ w, (inr (PreparedReady args), w)
  | BeginExecution _ _ => λ w, (BodyStarts, w)
  | StartTool _ _ _ _ => λ w, (tt, w)
  | ToolOutcome _ => λ w, (inr fetched, w)
  | NextToWake indices => λ w, (default 0%nat (last indices), w)
  | DisposeSource _ => λ w, (tt, w)
  | AfterToolCall _ _ _ _ _ _ => λ w, (inr None, w)
  | AfterToolOutcome _ _ _ _ _ _ _ _ => λ w, (inr None, w)
  end.

#[export] Instance script_env : LoopEnv Script := {
  perform A o w := let '(a, w) := answerOf o w in (a, w <| sc_time ::= S |>);
  aborted w := match w.(sc_abortAt) with Some t => (t <=? w.(sc_time))%nat | None => false end;
  abortReason _ := newError "Agent run aborted";
  turnHandoff _ := false;
  has _ := true
}.

Lemma answerOf_clock {A} (o : Op A) w :
  (answerOf o w).2.(sc_time) = w.(sc_time) ∧ (answerOf o w).2.(sc_abortAt) = w.(sc_abortAt) ∧
  (length (answerOf o w).2.(sc_answers) + length (answerOf o w).2.(sc_cancelled) ≤
     length w.(sc_answers) + length w.(sc_cancelled))%nat.
Proof.
  destruct o; cbn; try done.
  - by destruct (sc_steering w).
  - destruct (messageRef message); [|done]. case_bool_decide; [|done]. cbn. split_and!; try done.
    pose proof (length_filter (λ x, x ≠ n) (sc_cancelled w)). lia.
  - destruct (sc_answers w) eqn:E; cbn; rewrite ?E; split_and!; cbn; try done; lia.
  - by destruct (sc_current w).
Qed.

#[export] Instance script_sticky : AbortSticky Script.
Proof.
  intros A o w. cbn. pose proof (answerOf_clock o w) as (Et & Ea & _). destruct (answerOf o w) as [a w']. cbn in *.
  rewrite Et, Ea. destruct (sc_abortAt w); [|done]. rewrite !Nat.leb_le. lia.
Qed.

#[export] Instance script_plain : PlainQueues Script.
Proof.
  split; intros w ms w'; cbn; [|intros [= <- _]; constructor].
  destruct (sc_steering w) as [|poll rest]; intros [= <- _]; [constructor|]. apply Forall_fmap, Forall_true. by intros [].
Qed.

#[export] Instance script_dry : RunsDry (W := Script).
Proof.
  refine {| budget w := (length w.(sc_answers) + length w.(sc_cancelled))%nat |}.
  - intros A o w. cbn. pose proof (answerOf_clock o w) as (_ & _ & Hl). by destruct (answerOf o w).
  - intros config ctx w w'. cbn. destruct (sc_answers w); [by intros|]. intros [= <-]. cbn. lia.
  - intros e w w'. cbn. by intros [= ].
  - intros m w w'. cbn. destruct (messageRef m) as [r|]; [|by intros [= ]]. case_bool_decide as Hr; [|by intros [= ]].
    intros [= <-]. cbn. pose proof (length_filter_lt (λ x, x ≠ r) (sc_cancelled w) r Hr ltac:(naive_solver)). lia.
Defined.

(** ** An example *)

Definition fetchTool : AgentTool :=
  {| t_ref := 0; t_name := "fetch"; t_executionMode := None; t_hideFromChannelProgress := false; t_network := true;
     t_preparer := true |}.

Definition answerOfModel (blocks : list Block) (reason : StopReason) : AssistantMessage :=
  {| a_content := blocks; a_stopReason := reason; a_responseId := None; a_turnId := None; a_errorMessage := None;
     a_model := "model"; a_network := false; a_turnTainted := false |}.

Definition fetchCall (id : string) : AgentToolCall := {| tc_id := id; tc_name := "fetch"; tc_arguments := "{}" |}.

Definition twoFetches : AssistantMessage := answerOfModel [BCall (fetchCall "a"); BCall (fetchCall "b")] ReasonToolUse.

Definition script (abortAt : option nat) (steering : list (list (option nat * string))) (cancelled : list nat) : Script :=
  {| sc_answers := [twoFetches; answerOfModel [BText "done"] ReasonStop]; sc_current := None; sc_steering := steering;
     sc_cancelled := cancelled; sc_time := 0; sc_abortAt := abortAt |}.

Definition plainModel : Model :=
  {| model_id := "model"; model_anthropic := false; model_bedrock := false; model_offLevel := None;
     model_isFable5 := false; model_isSonnet5 := false; model_isOpus5 := false |}.

Definition sampleConfig (mode : ToolExecutionMode) : AgentLoopConfig :=
  {| cfg_model := plainModel; cfg_thinkingLevel := None; cfg_reasoning := None; cfg_toolExecution := mode |}.

Definition sampleContext : AgentContext := {| c_systemPrompt := EmptyString; c_messages := []; c_tools := [fetchTool] |}.

Definition samplePrompt : AgentMessage := MUser None (CString "look it up").

Definition sampleState (abortAt : option nat) (steering : list (list (option nat * string))) (cancelled : list nat) :
    LoopState Script := initialState (script abortAt steering cancelled) sampleContext false.

Definition sampleRun (mode : ToolExecutionMode) : Outcome (list AgentMessage) * LoopState Script :=
  runAgentLoop 5 2 [samplePrompt] (sampleConfig mode) (sampleState None [] []).

Definition returned (r : Outcome (list AgentMessage)) : list AgentMessage := match r with Ret ms => ms | _ => [] end.
