(* ===== verification/AgentRuns.v ===== *)
(** * What a run of the agent promises

    The contracts of [executeToolCalls] and of [runAgentLoop], in any world, and
    the scripted runs in which their hypotheses hold. *)
From S2P Require Import Prelude JsStrings Effects AgentMessages ToolBatch ToolBatchFacts ParallelTools.
From S2P Require Import AgentLoop AgentLoopFacts LoopSteps AgentProgress ToolResources ScriptedWorld.

Section contracts.
Context `{LoopEnv W, !AbortSticky W}.


Context (fuel streamFuel : nat) (config : AgentLoopConfig) (w : W) (ctx : AgentContext) (recovery : bool).

Lemma run_result `{!PlainQueues W} prompts messages s' : Forall (λ m, plain m = true) prompts →
  runAgentLoop fuel streamFuel prompts config (initialState w ctx recovery) = (Ret messages, s') →
  runReturns (initialState w ctx recovery) messages (delta s'.(trace)) s'.
Proof.
  intros Hp Hr. pose proof (core_spec fuel streamFuel prompts config (initialState w ctx recovery) Hp eq_refl) as Hs.
  destruct (wp_return _ _ _ _ _ _ _ Hs Hr) as (d & [(tr & Et & Ed) _] & Hret). cbn in Et. by rewrite Et, Ed.
Qed.

(** a run that returns has announced exactly the messages it returns, in
    that order; its first event is the start of the agent, its last the end of
    the agent with these messages, there is no other end; and between them every
    end of a turn follows a start of a turn. *)
Theorem run_returns_what_it_announced `{!PlainQueues W} prompts messages s' : Forall (λ m, plain m = true) prompts →
  runAgentLoop fuel streamFuel prompts config (initialState w ctx recovery) = (Ret messages, s') →
  d_committed (delta s'.(trace)) = messages ∧ s'.(newMessages) = messages ∧
  phaseAfter PhaseNew (d_frames (delta s'.(trace))) = Some PhaseEnded ∧
  last (d_frames (delta s'.(trace))) = Some (AgentEnd messages).
Proof. intros Hp Hr. by destruct (run_result _ _ _ Hp Hr). Qed.

(** C6: in the messages of a run, the calls of every answer that asks for tools
    are followed at once by their results, one per call, in the order of the
    calls; no result stands anywhere else. *)
Theorem run_answers_every_call `{!PlainQueues W} prompts messages s' : Forall (λ m, plain m = true) prompts →
  runAgentLoop fuel streamFuel prompts config (initialState w ctx recovery) = (Ret messages, s') →
  callsAnswered [] messages = true.
Proof. intros Hp Hr. by destruct (run_result _ _ _ Hp Hr). Qed.

(** once a tool has returned content from the network, or where the context
    was tainted from the start, every answer of the run carries the taint, until
    the user says something. *)
Theorem network_content_marks_the_turn `{!PlainQueues W} prompts messages s' : Forall (λ m, plain m = true) prompts →
  runAgentLoop fuel streamFuel prompts config (initialState w ctx recovery) = (Ret messages, s') →
  is_Some (taintAfter (isActiveTurnTainted ctx.(c_messages)) messages).
Proof. intros Hp Hr. by destruct (run_result _ _ _ Hp Hr). Qed.

(** C8: if the provider, its streams and the withdrawals run dry (a measure of
    the world that no operation raises and each answer, each event of a stream
    and each withdrawal lowers), a run with two passes per unit of it is never
    cut off: it returns or throws. *)
Theorem run_ends_when_the_world_runs_dry `{!RunsDry} prompts (s : LoopState W) :
  (2 * budget s.(world) + 1 ≤ fuel)%nat → (budget s.(world) ≤ streamFuel)%nat →
  (runAgentLoop fuel streamFuel prompts config s).1 ≠ OutOfFuel.
Proof.
  intros Hf Hs. pose proof (core_dries fuel streamFuel prompts config s Hs Hf) as Hd. unfold dries, wp in Hd.
  unfold runAgentLoop. by destruct (runAgentLoopCore _ _ _ _ _) as [[] ?].
Qed.

(** C19: from any point of the loop where the signal is aborted, the run ends
    within two passes, by returning or by an error of a hook or listener; it
    asks the provider nothing more, announces no call and starts no tool. *)
Theorem aborted_run_stops v (s : LoopState W) : aborted s.(world) = true → (2 ≤ fuel)%nat →
  let r := runLoop fuel streamFuel v s in
  r.1 ≠ OutOfFuel ∧ ∃ tr, r.2.(trace) = s.(trace) ++ tr ∧
    d_requests (delta tr) = 0%nat ∧ d_starts (delta tr) = [] ∧ d_bodies (delta tr) = [].
Proof.
  intros Ha Hf. pose proof (aborted_loop fuel streamFuel v s Ha Hf) as Hs. unfold Spec, wp in Hs.
  destruct (runLoop fuel streamFuel v s) as [[a|e|] s']; [..|done]; destruct Hs as (d & [(tr & Et & <-) _] & Hq & Hb & Hst);
    (split; [done|]); exists tr; by split_and!.
Qed.

(** C12: every execution that a run prepared has been disposed of exactly once
    when the run is over, also when a hook or a listener made it throw. *)
Theorem prepared_executions_are_disposed_once prompts :
  let s' := (runAgentLoop fuel streamFuel prompts config (initialState w ctx recovery)).2 in
  preparedIn s'.(trace) ≡ₚ disposedIn s'.(trace).
Proof. apply (run_balanced fuel streamFuel prompts config (initialState w ctx recovery)). unfold balanced. done. Qed.
End contracts.

(** ** Scripted runs *)

Definition sampleMessages : list AgentMessage := returned (sampleRun Parallel).1.

Definition sampleEnd : LoopState Script := (sampleRun Parallel).2.

Lemma sampleRun_returns :
  runAgentLoop 5 2 [samplePrompt] (sampleConfig Parallel) (initialState (script None [] []) sampleContext false) =
    (Ret sampleMessages, sampleEnd).
Proof. vm_compute. reflexivity. Qed.

Lemma samplePrompts_plain : Forall (λ m, plain m = true) [samplePrompt].
Proof. by repeat constructor. Qed.

(** Two calls run at once; the second body ends first. *)
Definition sampleBatch : Outcome ExecutedToolCallBatch * LoopState Script :=
  executeToolCalls twoFetches (sampleConfig Parallel) false (sampleState None [] []).


Lemma run_returns_what_it_announced_witness :
  length sampleMessages = 5%nat ∧
  d_committed (delta sampleEnd.(trace)) = sampleMessages ∧ sampleEnd.(newMessages) = sampleMessages ∧
  phaseAfter PhaseNew (d_frames (delta sampleEnd.(trace))) = Some PhaseEnded ∧
  last (d_frames (delta sampleEnd.(trace))) = Some (AgentEnd sampleMessages).
Proof.
  split; [vm_compute; reflexivity|].
  exact (run_returns_what_it_announced 5 2 (sampleConfig Parallel) (script None [] []) sampleContext false [samplePrompt]
    sampleMessages sampleEnd samplePrompts_plain sampleRun_returns).
Defined.

Lemma run_answers_every_call_witness : callsAsked (MAssistant None twoFetches) ≠ [] ∧ callsAnswered [] sampleMessages = true.
Proof.
  split; [vm_compute; congruence|].
  exact (run_answers_every_call 5 2 (sampleConfig Parallel) (script None [] []) sampleContext false [samplePrompt]
    sampleMessages sampleEnd samplePrompts_plain sampleRun_returns).
Defined.

(** The taint of the fetches reaches the last answer. *)
Lemma network_content_marks_the_turn_witness :
  taintAfter false sampleMessages = Some true ∧ is_Some (taintAfter (isActiveTurnTainted []) sampleMessages).
Proof.
  split; [vm_compute; reflexivity|].
  exact (network_content_marks_the_turn 5 2 (sampleConfig Parallel) (script None [] []) sampleContext false [samplePrompt]
    sampleMessages sampleEnd samplePrompts_plain sampleRun_returns).
Defined.

Lemma run_ends_when_the_world_runs_dry_witness :
  budget (script None [] []) = 2%nat ∧ (runAgentLoop 5 2 [samplePrompt] (sampleConfig Parallel) (sampleState None [] [])).1 ≠ OutOfFuel.
Proof.
  split; [reflexivity|].
  exact (run_ends_when_the_world_runs_dry 5 2 (sampleConfig Parallel) [samplePrompt] (sampleState None [] [])
    (le_n 5) (le_n 2)).
Defined.

(** An aborted run between two turns. *)
Definition sampleVars : LoopVars :=
  {| v_config := sampleConfig Parallel; v_firstTurn := false; v_turnOpen := false; v_turnTainted := true;
     v_hasMoreToolCalls := true; v_pendingMessages := [] |}.

Lemma aborted_run_stops_witness :
  aborted (world (sampleState (Some 0%nat) [] [])) = true ∧
  let r := runLoop 2 1 sampleVars (sampleState (Some 0%nat) [] []) in
  r.1 ≠ OutOfFuel ∧ ∃ tr, r.2.(trace) = [] ++ tr ∧
    d_requests (delta tr) = 0%nat ∧ d_starts (delta tr) = [] ∧ d_bodies (delta tr) = [].
Proof.
  split; [reflexivity|].
  exact (aborted_run_stops 2 1 sampleVars (sampleState (Some 0%nat) [] []) eq_refl ltac:(lia)).
Defined.

(** Two executions are prepared. *)
Lemma prepared_executions_are_disposed_once_witness :
  let s' := (runAgentLoop 5 2 [samplePrompt] (sampleConfig Parallel) (initialState (script None [] []) sampleContext false)).2 in
  preparedIn s'.(trace) = [0; 1]%nat ∧ preparedIn s'.(trace) ≡ₚ disposedIn s'.(trace).
Proof.
  split; [vm_compute; reflexivity|].
  exact (prepared_executions_are_disposed_once 5 2 (sampleConfig Parallel) (script None [] []) sampleContext false [samplePrompt]).
Defined.

(** A steering message that is withdrawn before it is injected has opened a turn
    that never ends: the run starts it and is over. *)
Definition withdrawnRun : Outcome (list AgentMessage) * LoopState Script :=
  runAgentLoop 5 3 [samplePrompt] (sampleConfig Parallel)
    (initialState {| sc_answers := [answerOfModel [BText "done"] ReasonStop]; sc_current := None;
                     sc_steering := [[]; [(Some 7%nat, "wait")]]; sc_cancelled := [7%nat]; sc_time := 0; sc_abortAt := None |}
       sampleContext false).

Definition turnEvents (events : list AgentEvent) : list bool :=
  omap (λ e, match e with TurnStart => Some true | TurnEnd _ _ => Some false | _ => None end) events.

Example withdrawn_steering_leaves_its_turn_open :
  is_Some (match withdrawnRun.1 with Ret ms => Some ms | _ => None end) ∧
  turnEvents (d_frames (delta withdrawnRun.2.(trace))) = [true; false; true].
Proof. vm_compute. split; [by eexists|reflexivity]. Qed.
