(* ===== verification/Agent.v ===== *)
(** * The agent

    The object that owns a transcript and runs the loop on it
    ([packages/agent-core/src/agent.ts]): its queues of steering and follow-up
    messages, the reducer of the events of a run, and the life of a run.  What
    callers may do to an agent while a run waits ([steer], [abort], ...) are
    commands, and the rest of the world is a class: every operation of the loop
    that the agent does not answer itself is answered from outside, together with
    the commands that arrive until it settles.

    The agent is a world of the loop, so the theorems on runs are theorems on
    agents.  Callers hand each message over once; the model numbers them as they
    come. *)
From Stdlib Require Import Strings.Ascii.
From S2P Require Import Prelude JsStrings Effects AgentMessages ToolBatch AgentLoop.

(** ** Messages of callers *)

Inductive InputBody :=
| InUser (content : Content)
| InCustom (role customType : string) (content : Content) (network tainted : bool).

Record Input := { in_ref : nat; in_body : InputBody }.

Definition inputMessage (i : Input) : AgentMessage :=
  match i.(in_body) with
  | InUser content => MUser (Some i.(in_ref)) content
  | InCustom role customType content network tainted => MCustom (Some i.(in_ref)) role customType content network tainted
  end.

(** ** PendingMessageQueue *)

Record PendingMessageQueue := {
  pq_messages : list Input;
  pq_inFlight : list Input;
  pq_cancelled : list nat;
  pq_mode : QueueMode
}.

#[export] Instance PendingMessageQueue_eta : Eta PendingMessageQueue := λ q,
  {| pq_messages := q.(pq_messages); pq_inFlight := q.(pq_inFlight); pq_cancelled := q.(pq_cancelled);
     pq_mode := q.(pq_mode) |}.

Definition newQueue (mode : QueueMode) : PendingMessageQueue :=
  {| pq_messages := []; pq_inFlight := []; pq_cancelled := []; pq_mode := mode |}.

(** The first element that satisfies [p], and the rest. *)
Fixpoint spliceFirst (p : Input → bool) (l : list Input) : option (Input * list Input) :=
  match l with
  | [] => None
  | i :: l => if p i then Some (i, l)
              else match spliceFirst p l with Some (j, rest) => Some (j, i :: rest) | None => None end
  end.

Definition enqueue (i : Input) (q : PendingMessageQueue) : PendingMessageQueue := q <| pq_messages ::= λ l, l ++ [i] |>.

Definition hasItems (q : PendingMessageQueue) : bool := negb (bool_decide (length q.(pq_messages) = 0%nat)).

Definition drain (q : PendingMessageQueue) : list Input * PendingMessageQueue :=
  let count := match q.(pq_mode) with ModeAll => length q.(pq_messages) | ModeOneAtATime => 1%nat end in
  let drained := take count q.(pq_messages) in
  (drained, q <| pq_messages := drop count q.(pq_messages) |> <| pq_inFlight ::= λ l, l ++ drained |>).

Definition isRef (r : nat) (i : Input) : bool := bool_decide (i.(in_ref) = r).

Definition without (r : nat) (l : list nat) : list nat := filter (λ x, x ≠ r) l.

Definition commit (r : nat) (q : PendingMessageQueue) : PendingMessageQueue :=
  let q := q <| pq_cancelled ::= without r |> in
  match spliceFirst (isRef r) q.(pq_inFlight) with
  | Some (_, rest) => q <| pq_inFlight := rest |>
  | None => q
  end.

Definition restore (q : PendingMessageQueue) : PendingMessageQueue :=
  q <| pq_messages := q.(pq_inFlight) ++ q.(pq_messages) |> <| pq_inFlight := [] |>.

Definition cancelFirst (p : Input → bool) (q : PendingMessageQueue) : option Input * PendingMessageQueue :=
  match spliceFirst p q.(pq_messages) with
  | Some (i, rest) => (Some i, q <| pq_messages := rest |>)
  | None =>
      match spliceFirst p q.(pq_inFlight) with
      | Some (i, rest) => (Some i, q <| pq_inFlight := rest |> <| pq_cancelled ::= λ l, i.(in_ref) :: l |>)
      | None => (None, q)
      end
  end.

Definition consumeCancellationOf (r : nat) (q : PendingMessageQueue) : bool * PendingMessageQueue :=
  (bool_decide (r ∈ q.(pq_cancelled)), q <| pq_cancelled ::= without r |>).

Definition clear (q : PendingMessageQueue) : PendingMessageQueue :=
  q <| pq_messages := [] |> <| pq_inFlight := [] |> <| pq_cancelled := [] |>.

(** ** The agent *)

(** The reason of an abort, once there is one, and whether it hands the turn
    over. *)
Record ActiveRun := { run_abort : option (JsError * bool) }.

Record Agent := {
  ag_systemPrompt : string;
  ag_model : Model;
  ag_thinkingLevel : ThinkingLevel;
  ag_tools : list AgentTool;
  ag_messages : list AgentMessage;
  ag_isStreaming : bool;
  ag_streamingMessage : option AgentMessage;
  ag_pendingToolCalls : list string;
  ag_errorMessage : option string;
  ag_steering : PendingMessageQueue;
  ag_followUps : PendingMessageQueue;
  ag_criticalToolLoopSeen : bool;
  ag_toolExecution : ToolExecutionMode;
  ag_activeRun : option ActiveRun;
  ag_skipInitialSteeringPoll : bool
}.

#[export] Instance Agent_eta : Eta Agent := λ a,
  {| ag_systemPrompt := a.(ag_systemPrompt); ag_model := a.(ag_model); ag_thinkingLevel := a.(ag_thinkingLevel);
     ag_tools := a.(ag_tools); ag_messages := a.(ag_messages); ag_isStreaming := a.(ag_isStreaming);
     ag_streamingMessage := a.(ag_streamingMessage); ag_pendingToolCalls := a.(ag_pendingToolCalls);
     ag_errorMessage := a.(ag_errorMessage); ag_steering := a.(ag_steering); ag_followUps := a.(ag_followUps);
     ag_criticalToolLoopSeen := a.(ag_criticalToolLoopSeen); ag_toolExecution := a.(ag_toolExecution);
     ag_activeRun := a.(ag_activeRun); ag_skipInitialSteeringPoll := a.(ag_skipInitialSteeringPoll) |}.

Definition DEFAULT_MODEL : Model :=
  {| model_id := "unknown"; model_anthropic := false; model_bedrock := false; model_offLevel := None;
     model_isFable5 := false; model_isSonnet5 := false; model_isOpus5 := false |}.

Record AgentOptions := {
  opt_systemPrompt : option string;
  opt_model : option Model;
  opt_thinkingLevel : option ThinkingLevel;
  opt_tools : option (list AgentTool);
  opt_messages : option (list AgentMessage);
  opt_steeringMode : option QueueMode;
  opt_followUpMode : option QueueMode;
  opt_toolExecution : option ToolExecutionMode
}.

Definition createAgent (o : AgentOptions) : Agent :=
  {| ag_systemPrompt := default EmptyString o.(opt_systemPrompt); ag_model := default DEFAULT_MODEL o.(opt_model);
     ag_thinkingLevel := default LevelOff o.(opt_thinkingLevel); ag_tools := default [] o.(opt_tools);
     ag_messages := default [] o.(opt_messages); ag_isStreaming := false; ag_streamingMessage := None;
     ag_pendingToolCalls := []; ag_errorMessage := None;
     ag_steering := newQueue (default ModeOneAtATime o.(opt_steeringMode));
     ag_followUps := newQueue (default ModeOneAtATime o.(opt_followUpMode)); ag_criticalToolLoopSeen := false;
     ag_toolExecution := default Parallel o.(opt_toolExecution); ag_activeRun := None;
     ag_skipInitialSteeringPoll := false |}.

Definition hasQueuedMessages (a : Agent) : bool := hasItems a.(ag_steering) || hasItems a.(ag_followUps).

(** What callers may do at any time; assignments go to the public state. *)
Inductive Command :=
| CSteer (body : InputBody)
| CFollowUp (body : InputBody)
| CCancelSteering (p : Input → bool)
| CClearSteering
| CClearFollowUps
| CAbort (reason : JsError) (handoff : bool)
| CSteeringMode (mode : QueueMode)
| CFollowUpMode (mode : QueueMode)
| CAssignModel (model : Model)
| CAssignThinkingLevel (level : ThinkingLevel)
| CAssignTools (tools : list AgentTool)
| CAssignMessages (messages : list AgentMessage).

(** What became of a message of a caller. *)
Inductive Fate := Accepted (r : nat) | Committed (r : nat) | Withdrawn (r : nat) | Cleared (r : nat).

(** [w_next] numbers the messages of callers.  [w_fates] and [w_trace] are what
    happened so far. *)
Record World (X : Type) := {
  w_agent : Agent;
  w_outside : X;
  w_next : nat;
  w_fates : list Fate;
  w_trace : list Obs
}.

Arguments w_agent {X}.
Arguments w_outside {X}.
Arguments w_next {X}.
Arguments w_fates {X}.
Arguments w_trace {X}.

#[export] Instance World_eta {X} : Eta (World X) := λ w,
  {| w_agent := w.(w_agent); w_outside := w.(w_outside); w_next := w.(w_next); w_fates := w.(w_fates);
     w_trace := w.(w_trace) |}.

(** What answers the loop outside of the agent, seeing the agent. *)
Class Outside (X : Type) := {
  answers : ∀ A, Op A → Agent → X → A * list Command * X;
  outsideHas : Hook → bool
}.

Arguments answers {X _ A} o a x.

Definition refsOf (l : list Input) : list nat := in_ref <$> l.

Section agent.
Context {X : Type}.

Definition onAgent (f : Agent → Agent) (w : World X) : World X := w <| w_agent ::= f |>.

Definition record (fates : list Fate) (w : World X) : World X := w <| w_fates ::= λ l, l ++ fates |>.

(** ** Commands *)

Definition abort (reason : JsError) (handoff : bool) (a : Agent) : Agent :=
  match a.(ag_activeRun) with
  | Some {| run_abort := None |} => a <| ag_activeRun := Some {| run_abort := Some (reason, handoff) |} |>
  | _ => a
  end.

Definition newInput (body : InputBody) (w : World X) : Input * World X :=
  ({| in_ref := w.(w_next); in_body := body |}, w <| w_next ::= S |>).

Definition applyCommand (w : World X) (c : Command) : World X :=
  match c with
  | CSteer body =>
      let '(i, w) := newInput body w in record [Accepted i.(in_ref)] (onAgent (λ a, a <| ag_steering ::= enqueue i |>) w)
  | CFollowUp body =>
      let '(i, w) := newInput body w in record [Accepted i.(in_ref)] (onAgent (λ a, a <| ag_followUps ::= enqueue i |>) w)
  | CCancelSteering p =>
      let '(found, q) := cancelFirst p w.(w_agent).(ag_steering) in
      record (match found with Some i => [Withdrawn i.(in_ref)] | None => [] end) (onAgent (λ a, a <| ag_steering := q |>) w)
  | CClearSteering =>
      let q := w.(w_agent).(ag_steering) in
      record (Cleared <$> refsOf (q.(pq_messages) ++ q.(pq_inFlight))) (onAgent (λ a, a <| ag_steering ::= clear |>) w)
  | CClearFollowUps =>
      let q := w.(w_agent).(ag_followUps) in
      record (Cleared <$> refsOf (q.(pq_messages) ++ q.(pq_inFlight))) (onAgent (λ a, a <| ag_followUps ::= clear |>) w)
  | CAbort reason handoff => onAgent (abort reason handoff) w
  | CSteeringMode mode => onAgent (λ a, a <| ag_steering ::= λ q, q <| pq_mode := mode |> |>) w
  | CFollowUpMode mode => onAgent (λ a, a <| ag_followUps ::= λ q, q <| pq_mode := mode |> |>) w
  | CAssignModel model => onAgent (λ a, a <| ag_model := model |>) w
  | CAssignThinkingLevel level => onAgent (λ a, a <| ag_thinkingLevel := level |>) w
  | CAssignTools tools => onAgent (λ a, a <| ag_tools := tools |>) w
  | CAssignMessages messages => onAgent (λ a, a <| ag_messages := messages |>) w
  end.

Definition applyCommands (cs : list Command) (w : World X) : World X := foldl applyCommand w cs.

(** ** Events *)

Definition commitIn (r : nat) (q : PendingMessageQueue) : list Fate :=
  match spliceFirst (isRef r) q.(pq_inFlight) with Some (i, _) => [Committed i.(in_ref)] | None => [] end.

(** [commit] on both queues; a message that the loop made is in none. *)
Definition commitMessage (m : AgentMessage) (w : World X) : World X :=
  match messageRef m with
  | Some r =>
      record (commitIn r w.(w_agent).(ag_steering) ++ commitIn r w.(w_agent).(ag_followUps))
        (onAgent (λ a, a <| ag_steering ::= commit r |> <| ag_followUps ::= commit r |>) w)
  | None => w
  end.

Definition nonEmpty (s : option string) : bool := match s with Some s => negb (bool_decide (s = EmptyString)) | None => false end.

Definition reduceEvent (event : AgentEvent) (w : World X) : World X :=
  match event with
  | AgentStart | TurnStart => w
  | MessageStart m | MessageUpdate m => onAgent (λ a, a <| ag_streamingMessage := Some m |>) w
  | MessageEnd m =>
      commitMessage m (onAgent (λ a, a <| ag_streamingMessage := None |> <| ag_messages ::= λ l, l ++ [m] |>) w)
  | ToolExecutionStart id _ _ _ =>
      onAgent (λ a, a <| ag_pendingToolCalls ::= λ l, if bool_decide (id ∈ l) then l else l ++ [id] |>) w
  | ToolExecutionEnd id _ _ _ _ _ _ => onAgent (λ a, a <| ag_pendingToolCalls ::= filter (λ x, x ≠ id) |>) w
  | TurnEnd (MAssistant _ m) _ =>
      if nonEmpty m.(a_errorMessage) then onAgent (λ a, a <| ag_errorMessage := m.(a_errorMessage) |>) w else w
  | TurnEnd _ _ => w
  | AgentEnd _ => onAgent (λ a, a <| ag_streamingMessage := None |>) w
  end.

(** ** The agent as the world of a run *)

Context `{Outside X}.

Definition consult {A} (o : Op A) (w : World X) : A * World X :=
  let '(a, commands, x) := answers o w.(w_agent) w.(w_outside) in (a, applyCommands commands (w <| w_outside := x |>)).

Definition drainSteering (w : World X) : list Input * World X :=
  if w.(w_agent).(ag_skipInitialSteeringPoll) then ([], onAgent (λ a, a <| ag_skipInitialSteeringPoll := false |>) w)
  else let '(drained, q) := drain w.(w_agent).(ag_steering) in (drained, onAgent (λ a, a <| ag_steering := q |>) w).

Definition drainFollowUps (w : World X) : list Input * World X :=
  let '(drained, q) := drain w.(w_agent).(ag_followUps) in (drained, onAgent (λ a, a <| ag_followUps := q |>) w).

(** The second queue is asked only if the first does not know the message. *)
Definition consumeQueuedMessageCancellation (m : AgentMessage) (w : World X) : bool * World X :=
  match messageRef m with
  | None => (false, w)
  | Some r =>
      let '(known, q) := consumeCancellationOf r w.(w_agent).(ag_steering) in
      let w := onAgent (λ a, a <| ag_steering := q |>) w in
      if known then (true, w)
      else
        let '(known, q) := consumeCancellationOf r w.(w_agent).(ag_followUps) in
        (known, onAgent (λ a, a <| ag_followUps := q |>) w)
  end.

(** [processEvents]: the reducer, then the listeners. *)
Definition deliverEvent (event : AgentEvent) (w : World X) : option JsError * World X :=
  let w := reduceEvent event w in
  match w.(w_agent).(ag_activeRun) with
  | None => (Some (newError "Agent listener invoked outside active run"), w)
  | Some _ => consult (EmitEvent event) w
  end.

Definition answerOf {A} (o : Op A) : World X → A * World X :=
  match o in Op A return World X → A * World X with
  | EmitEvent event => deliverEvent event
  | GetSteeringMessages => λ w, let '(drained, w) := drainSteering w in (inr (inputMessage <$> drained), w)
  | GetFollowUpMessages => λ w,
      let '(drained, w) := drainFollowUps w in (inr (inputMessage <$> drained), (consult Tick w).2)
  | ConsumeCancellation m => consumeQueuedMessageCancellation m
  | o => consult o
  end.

Definition abortOf (w : World X) : option (JsError * bool) := r ← w.(w_agent).(ag_activeRun); r.(run_abort).

#[export] Instance agent_env : LoopEnv (World X) := {
  perform A o w := answerOf o w;
  aborted w := bool_decide (is_Some (abortOf w));
  abortReason w := match abortOf w with Some (reason, _) => reason | None => newError "Agent run aborted" end;
  turnHandoff w := match abortOf w with Some (_, handoff) => handoff | None => false end;
  has hook := match hook with HookSteering | HookFollowUp | HookCancellation => true | _ => outsideHas hook end
}.

(** ** Runs *)

Abbreviation A := (Eff (World X)).

Definition createContextSnapshot (a : Agent) : AgentContext :=
  {| c_systemPrompt := a.(ag_systemPrompt); c_messages := a.(ag_messages); c_tools := a.(ag_tools) |}.

Definition createLoopConfig (a : Agent) : AgentLoopConfig :=
  {| cfg_model := a.(ag_model); cfg_thinkingLevel := Some a.(ag_thinkingLevel);
     cfg_reasoning := resolveAgentReasoningOption a.(ag_model) a.(ag_thinkingLevel);
     cfg_toolExecution := a.(ag_toolExecution) |}.

Definition pass : A unit := modify (λ w, (consult Tick w).2).

(** A run of the loop on the agent: its flag of critical tool loops is the
    agent's. *)
Definition onLoop {B} (m : Eff (LoopState (World X)) B) : A unit := λ w,
  let a := w.(w_agent) in
  let '(r, s) := m (initialState w (createContextSnapshot a) a.(ag_criticalToolLoopSeen)) in
  let w := onAgent (λ a, a <| ag_criticalToolLoopSeen := s.(criticalToolLoopSeen) |>) s.(world)
             <| w_trace ::= λ t, t ++ s.(trace) |> in
  (match r with Ret _ => Ret tt | Throw e => Throw e | OutOfFuel => OutOfFuel end, w).

Definition processEvents (event : AgentEvent) : A unit :=
  modify (λ w, w <| w_trace ::= λ t, t ++ [OEvent event] |>) ;;
  failed ← (λ w, let '(r, w) := deliverEvent event w in (Ret r, w));
  match failed with Some e => throw e | None => mret tt end.

Definition handleRunFailure (error : JsError) : A unit :=
  stopped ← gets (λ w, bool_decide (is_Some (abortOf w)));
  model ← gets (λ w, w.(w_agent).(ag_model));
  let failureMessage := createFailureMessage model error stopped in
  processEvents (MessageStart (MAssistant None failureMessage)) ;;
  processEvents (MessageEnd (MAssistant None failureMessage)) ;;
  processEvents (TurnEnd (MAssistant None failureMessage) []) ;;
  handoff ← gets (λ w, match abortOf w with Some (_, handoff) => handoff | None => false end);
  messages ← (if stopped && negb handoff then
                processEvents (MessageStart createInterruptedTurnMessage) ;;
                processEvents (MessageEnd createInterruptedTurnMessage) ;;
                pass ;;
                mret [MAssistant None failureMessage; createInterruptedTurnMessage]
              else mret [MAssistant None failureMessage]);
  processEvents (AgentEnd messages).

Definition finishRun : A unit :=
  modify (onAgent (λ a, a <| ag_steering ::= restore |> <| ag_followUps ::= restore |> <| ag_isStreaming := false |>
                          <| ag_streamingMessage := None |> <| ag_pendingToolCalls := [] |> <| ag_activeRun := None |>)).

Definition startRun : A unit :=
  modify (onAgent (λ a, a <| ag_activeRun := Some {| run_abort := None |} |> <| ag_isStreaming := true |>
                          <| ag_streamingMessage := None |> <| ag_errorMessage := None |>)).

Definition isActive (w : World X) : bool := bool_decide (is_Some w.(w_agent).(ag_activeRun)).

Definition runWithLifecycle (executor : A unit) : A unit :=
  active ← gets isActive;
  if active : bool then throw (newError "Agent is already processing.")
  else
    startRun ;;
    tryFinally (tryCatch (executor ;; pass) (λ e, pass ;; handleRunFailure e ;; pass)) finishRun.

(** ** What callers await *)

Context (fuel streamFuel : nat).

Definition runPromptMessages (messages : list AgentMessage) (skipInitialSteeringPoll : bool) : A unit :=
  runWithLifecycle
    (modify (onAgent (λ a, a <| ag_skipInitialSteeringPoll := skipInitialSteeringPoll |>)) ;;
     config ← gets (λ w, createLoopConfig w.(w_agent));
     onLoop (runAgentLoop fuel streamFuel messages config)).

(** The context has a message and does not end with an answer: the error of
    [assertContinuableContext] cannot happen. *)
Definition runContinuation : A unit :=
  runWithLifecycle
    (modify (onAgent (λ a, a <| ag_skipInitialSteeringPoll := false |>)) ;;
     config ← gets (λ w, createLoopConfig w.(w_agent));
     onLoop (λ s, match runAgentLoopContinue fuel streamFuel config s with
                  | inr r => r
                  | inl NoMessages => (Throw (newError "Cannot continue: no messages in context"), s)
                  | inl LastIsAssistant => (Throw (newError "Cannot continue from message role: assistant"), s)
                  end)).

Definition newInputs (bodies : list InputBody) : A (list Input) :=
  mapEff (λ body w, let '(i, w) := newInput body w in (Ret i, w)) bodies.

Definition prompt (bodies : list InputBody) : A unit :=
  active ← gets isActive;
  if active : bool then
    throw (newError "Agent is already processing a prompt. Use steer() or followUp() to queue messages, or wait for completion.")
  else
    modify (onAgent (λ a, a <| ag_criticalToolLoopSeen := false |>)) ;;
    inputs ← newInputs bodies;
    runPromptMessages (inputMessage <$> inputs) false.

Definition continueRun : A unit :=
  active ← gets isActive;
  if active : bool then throw (newError "Agent is already processing. Wait for completion before continuing.")
  else
    lastMessage ← gets (λ w, last w.(w_agent).(ag_messages));
    match lastMessage with
    | None => throw (newError "No messages to continue from")
    | Some m =>
        let fromQueues := match m with MAssistant _ _ | MToolResult _ _ => true | _ => false end in
        let isAnswer := match m with MAssistant _ _ => true | _ => false end in
        (* The steering poll of the next run is the only one that skips. *)
        queuedSteering ← (if fromQueues : bool then λ w, let '(l, q) := drain w.(w_agent).(ag_steering) in
                             (Ret l, onAgent (λ a, a <| ag_steering := q |>) w) else mret []);
        match queuedSteering with
        | _ :: _ => runPromptMessages (inputMessage <$> queuedSteering) true
        | [] =>
            queuedFollowUps ← (if fromQueues : bool then λ w, let '(l, w) := drainFollowUps w in (Ret l, w) else mret []);
            match queuedFollowUps with
            | _ :: _ => runPromptMessages (inputMessage <$> queuedFollowUps) false
            | [] => if isAnswer : bool then throw (newError "Cannot continue from message role: assistant") else runContinuation
            end
        end
    end.

Definition reset : World X → World X :=
  λ w, applyCommands [CClearSteering; CClearFollowUps]
    (onAgent (λ a, a <| ag_messages := [] |> <| ag_isStreaming := false |> <| ag_streamingMessage := None |>
                     <| ag_pendingToolCalls := [] |> <| ag_errorMessage := None |>
                     <| ag_criticalToolLoopSeen := false |>) w).
End agent.
