(* ===== verification/AgentQueues.v ===== *)
(** * What becomes of the messages of callers

    Every message that was accepted into a queue of an agent is waiting, in
    flight, committed to the transcript, withdrawn or cleared; and where nothing
    is cleared, one that was withdrawn is never announced and no message is
    announced twice, whatever callers do while runs wait. *)
From S2P Require Import Prelude JsStrings Effects AgentMessages ToolBatch AgentLoop LoopSteps Agent.

(** ** One queue *)

Lemma spliceFirst_perm p l i rest : spliceFirst p l = Some (i, rest) → l ≡ₚ i :: rest ∧ p i = true.
Proof.
  revert rest. induction l as [|j l IH]; intros rest; cbn; [done|]. destruct (p j) eqn:E; [by intros [= -> ->]|].
  destruct (spliceFirst p l) as [[k l']|]; [|done]. intros [= -> <-]. destruct (IH l' eq_refl) as [Hl ?].
  split; [|done]. rewrite Hl. apply Permutation_swap.
Qed.

Lemma spliceFirst_none p l : spliceFirst p l = None → Forall (λ i, p i = false) l.
Proof.
  induction l as [|j l IH]; cbn; [done|]. destruct (p j) eqn:E; [done|]. destruct (spliceFirst p l) as [[]|]; [done|].
  intros _. constructor; auto.
Qed.

Arguments refsOf : simpl never.

Lemma refs_cons i l : refsOf (i :: l) = i.(in_ref) :: refsOf l.
Proof. done. Qed.

Lemma refs_app l l' : refsOf (l ++ l') = refsOf l ++ refsOf l'.
Proof. apply fmap_app. Qed.

Lemma refs_perm l l' : l ≡ₚ l' → refsOf l ≡ₚ refsOf l'.
Proof. intros Hl. unfold refsOf. by rewrite Hl. Qed.

(** What a queue holds. *)
Definition owned (q : PendingMessageQueue) : list nat := refsOf (q.(pq_messages) ++ q.(pq_inFlight)).

Definition waiting (q : PendingMessageQueue) : list nat := refsOf q.(pq_messages).

Lemma owned_parts q : owned q = waiting q ++ refsOf q.(pq_inFlight).
Proof. apply refs_app. Qed.

Lemma owned_enqueue i q : owned (enqueue i q) ≡ₚ i.(in_ref) :: owned q.
Proof. rewrite !owned_parts. unfold waiting. cbn. rewrite refs_app, <-app_assoc. symmetry. apply Permutation_middle. Qed.

Lemma owned_drain q : owned (drain q).2 ≡ₚ owned q.
Proof.
  unfold owned, drain. cbn. apply refs_perm. rewrite (Permutation_app_comm (pq_inFlight q)), app_assoc.
  by rewrite (Permutation_app_comm (drop _ _)), take_drop.
Qed.

Lemma waiting_drain q : waiting q = refsOf (drain q).1 ++ waiting (drain q).2.
Proof. unfold waiting, drain. cbn. by rewrite <-refs_app, take_drop. Qed.

Lemma owned_restore q : owned (restore q) ≡ₚ owned q.
Proof. unfold owned, restore. cbn. rewrite app_nil_r. apply refs_perm, Permutation_app_comm. Qed.

Lemma commitIn_owned r q : owned q ≡ₚ omap (λ f, match f with Committed r => Some r | _ => None end) (commitIn r q) ++ owned (commit r q).
Proof.
  unfold commitIn, commit. cbn. destruct (spliceFirst (isRef r) (pq_inFlight q)) as [[i rest]|] eqn:E; cbn; [|done].
  apply spliceFirst_perm in E as [Hp _]. rewrite !owned_parts. unfold waiting. cbn. rewrite (refs_perm _ _ Hp), refs_cons.
  symmetry. apply Permutation_middle.
Qed.

Lemma waiting_commit r q : waiting (commit r q) = waiting q.
Proof. unfold commit. cbn. by destruct (spliceFirst _ _) as [[]|]. Qed.

Lemma cancelled_commit r q : pq_cancelled (commit r q) = without r (pq_cancelled q).
Proof. unfold commit. cbn. by destruct (spliceFirst _ _) as [[]|]. Qed.

Lemma cancelFirst_cases p q :
  match cancelFirst p q with
  | (Some i, q') => owned q ≡ₚ i.(in_ref) :: owned q' ∧ waiting q' ⊆ waiting q ∧
      (i.(in_ref) ∈ waiting q ∧ q'.(pq_cancelled) = q.(pq_cancelled) ∨ q'.(pq_cancelled) = i.(in_ref) :: q.(pq_cancelled))
  | (None, q') => q' = q
  end.
Proof.
  unfold cancelFirst. destruct (spliceFirst p (pq_messages q)) as [[i rest]|] eqn:E1.
  - apply spliceFirst_perm in E1 as [Hp _]. rewrite !owned_parts. unfold waiting. cbn.
    pose proof (refs_perm _ _ Hp) as Hr. rewrite refs_cons in Hr. split_and!.
    + by rewrite Hr.
    + intros x Hx. rewrite Hr. by right.
    + left. split; [|done]. rewrite Hr. by left.
  - destruct (spliceFirst p (pq_inFlight q)) as [[i rest]|] eqn:E2; [|done].
    apply spliceFirst_perm in E2 as [Hp _]. rewrite !owned_parts. unfold waiting. cbn. split_and!; [|done|by right].
    rewrite (refs_perm _ _ Hp), refs_cons. symmetry. apply Permutation_middle.
Qed.

Lemma without_spec r x l : x ∈ without r l ↔ x ∈ l ∧ x ≠ r.
Proof. unfold without. rewrite list_elem_of_filter. tauto. Qed.

(** ** The fates of messages *)

Definition accepted (fates : list Fate) : list nat := omap (λ f, match f with Accepted r => Some r | _ => None end) fates.
Definition committed (fates : list Fate) : list nat := omap (λ f, match f with Committed r => Some r | _ => None end) fates.
Definition withdrawn (fates : list Fate) : list nat := omap (λ f, match f with Withdrawn r => Some r | _ => None end) fates.
Definition cleared (fates : list Fate) : list nat := omap (λ f, match f with Cleared r => Some r | _ => None end) fates.

(** What the queues of an agent hold, and what they have for a next drain. *)
Definition queued (a : Agent) : list nat := owned a.(ag_steering) ++ owned a.(ag_followUps).
Definition waitingIn (a : Agent) : list nat := waiting a.(ag_steering) ++ waiting a.(ag_followUps).
Definition inFlightIn (a : Agent) : list nat := refsOf (a.(ag_steering).(pq_inFlight) ++ a.(ag_followUps).(pq_inFlight)).
Definition cancelledIn (a : Agent) : list nat := a.(ag_steering).(pq_cancelled) ++ a.(ag_followUps).(pq_cancelled).

Record Ledger {X} (w : World X) : Prop := {
  lg_conserved : accepted w.(w_fates) ≡ₚ queued w.(w_agent) ++ committed w.(w_fates) ++ withdrawn w.(w_fates) ++ cleared w.(w_fates);
  lg_once : NoDup (accepted w.(w_fates));
  lg_known : ∀ r, r ∈ accepted w.(w_fates) → (r < w.(w_next))%nat
}.

Lemma accepted_app l l' : accepted (l ++ l') = accepted l ++ accepted l'.
Proof. apply omap_app. Qed.
Lemma committed_app l l' : committed (l ++ l') = committed l ++ committed l'.
Proof. apply omap_app. Qed.
Lemma withdrawn_app l l' : withdrawn (l ++ l') = withdrawn l ++ withdrawn l'.
Proof. apply omap_app. Qed.
Lemma cleared_app l l' : cleared (l ++ l') = cleared l ++ cleared l'.
Proof. apply omap_app. Qed.

Create Rewrite HintDb fates.
Hint Rewrite accepted_app committed_app withdrawn_app cleared_app : fates.

Lemma cleared_fates (l : list nat) : accepted (Cleared <$> l) = [] ∧ committed (Cleared <$> l) = [] ∧
  withdrawn (Cleared <$> l) = [] ∧ cleared (Cleared <$> l) = l.
Proof. induction l as [|r l (IHa & IHc & IHw & IHl)]; [done|]. cbn. split_and!; try done. cbn in IHl. by f_equal. Qed.

Lemma commitIn_fates r q : accepted (commitIn r q) = [] ∧ withdrawn (commitIn r q) = [] ∧ cleared (commitIn r q) = [] ∧
  committed (commitIn r q) ⊆ [r].
Proof.
  unfold commitIn. destruct (spliceFirst _ _) as [[i rest]|] eqn:E; cbn; [|split_and!; set_solver].
  apply spliceFirst_perm in E as [_ Hi]. unfold isRef in Hi. apply bool_decide_eq_true in Hi. split_and!; set_solver.
Qed.

Section ledger.
Context {X : Type}.
Implicit Types w : World X.

(** Messages change hands, and none comes in. *)
Lemma ledger_moves w w' fates : w'.(w_fates) = w.(w_fates) ++ fates → w'.(w_next) = w.(w_next) → accepted fates = [] →
  queued w.(w_agent) ≡ₚ queued w'.(w_agent) ++ committed fates ++ withdrawn fates ++ cleared fates → Ledger w → Ledger w'.
Proof.
  intros Ef En Ea Hq [Hc Ho Hk]. split; rewrite Ef; autorewrite with fates; rewrite Ea, ?app_nil_r; [|done|by rewrite En].
  rewrite Hc, Hq. solve_Permutation.
Qed.

Lemma ledger_same w w' : w'.(w_fates) = w.(w_fates) → w'.(w_next) = w.(w_next) →
  queued w.(w_agent) ≡ₚ queued w'.(w_agent) → Ledger w → Ledger w'.
Proof. intros Ef En Hq. apply (ledger_moves _ _ []); [by rewrite Ef, app_nil_r|done|done|by rewrite app_nil_r]. Qed.

Lemma ledger_agent w f : queued w.(w_agent) ≡ₚ queued (f w.(w_agent)) → Ledger w → Ledger (onAgent f w).
Proof. intros Hq. by apply (ledger_same w). Qed.

Lemma ledger_accepts w w' : w'.(w_fates) = w.(w_fates) ++ [Accepted w.(w_next)] → w'.(w_next) = S w.(w_next) →
  queued w'.(w_agent) ≡ₚ w.(w_next) :: queued w.(w_agent) → Ledger w → Ledger w'.
Proof.
  intros Ef En Hq [Hc Ho Hk]. split; rewrite Ef, ?En; autorewrite with fates; cbn; rewrite ?app_nil_r.
  - rewrite Hc, Hq. solve_Permutation.
  - apply NoDup_app. split_and!; [done| |apply NoDup_singleton]. intros r Hr%Hk ->%list_elem_of_singleton. lia.
  - intros r [Hr%Hk| ->%list_elem_of_singleton]%elem_of_app; lia.
Qed.

Lemma queued_steering (a : Agent) q : queued (a <| ag_steering := q |>) = owned q ++ owned a.(ag_followUps).
Proof. done. Qed.

Lemma ledger_command w c : Ledger w → Ledger (applyCommand w c).
Proof.
  intros Hl. destruct c; cbn.
  - revert Hl. apply ledger_accepts; [done..|]. unfold queued. cbn. by rewrite owned_enqueue.
  - revert Hl. apply ledger_accepts; [done..|]. unfold queued. cbn. rewrite owned_enqueue. solve_Permutation.
  - pose proof (cancelFirst_cases p (ag_steering (w_agent w))) as Hp.
    destruct (cancelFirst p (ag_steering (w_agent w))) as [[i|] q]; revert Hl.
    + apply (ledger_moves _ _ [Withdrawn i.(in_ref)]); [done..|]. destruct Hp as (Hp & _). unfold queued. cbn.
      rewrite Hp. solve_Permutation.
    + subst q. apply (ledger_moves _ _ []); [done..|]. by rewrite app_nil_r.
  - revert Hl. destruct (cleared_fates (refsOf (pq_messages (ag_steering (w_agent w)) ++ pq_inFlight (ag_steering (w_agent w))))) as (Ea & Ec & Ew & El).
    eapply ledger_moves; [done|done|exact Ea|]. rewrite Ec, Ew, El. unfold queued. cbn. solve_Permutation.
  - revert Hl. destruct (cleared_fates (refsOf (pq_messages (ag_followUps (w_agent w)) ++ pq_inFlight (ag_followUps (w_agent w))))) as (Ea & Ec & Ew & El).
    eapply ledger_moves; [done|done|exact Ea|]. rewrite Ec, Ew, El. unfold queued. cbn. solve_Permutation.
  - apply ledger_agent; [|done]. unfold abort. by destruct (ag_activeRun _) as [[[]]|].
  - by apply ledger_agent.
  - by apply ledger_agent.
  - by apply ledger_agent.
  - by apply ledger_agent.
  - by apply ledger_agent.
  - by apply ledger_agent.
Qed.

Lemma ledger_commands w cs : Ledger w → Ledger (applyCommands cs w).
Proof. revert w. induction cs as [|c cs IH]; intros w Hl; [done|]. by apply IH, ledger_command. Qed.

Lemma ledger_reduce w e : Ledger w → Ledger (reduceEvent e w).
Proof.
  intros Hl. destruct e as [| | |m results|m|m|m| |]; cbn; try done; try by apply ledger_agent.
  - destruct m; try done. by destruct (nonEmpty _); [apply ledger_agent|].
  - unfold commitMessage. destruct (messageRef m) as [r|]; [|by apply ledger_agent].
    revert Hl. eapply ledger_moves; [done|done|..].
    + cbn. rewrite accepted_app. by destruct (commitIn_fates r (ag_steering (w_agent w))) as (-> & _), (commitIn_fates r (ag_followUps (w_agent w))) as (-> & _).
    + cbn. autorewrite with fates. destruct (commitIn_fates r (ag_steering (w_agent w))) as (_ & -> & -> & _), (commitIn_fates r (ag_followUps (w_agent w))) as (_ & -> & -> & _).
      unfold queued. cbn. rewrite (commitIn_owned r (ag_steering (w_agent w))), (commitIn_owned r (ag_followUps (w_agent w))) at 1.
      unfold committed. solve_Permutation.
Qed.

Context `{Outside X}.

Lemma ledger_consult {A} (o : Op A) w : Ledger w → Ledger (consult o w).2.
Proof.
  intros Hl. unfold consult. destruct (answers o (w_agent w) (w_outside w)) as [[a cs] x]. apply ledger_commands.
  revert Hl. by apply ledger_same.
Qed.

Lemma ledger_drainSteering w : Ledger w → Ledger (drainSteering w).2.
Proof.
  unfold drainSteering. destruct (ag_skipInitialSteeringPoll _); [by apply ledger_agent|].
  apply ledger_agent. unfold queued. cbn. by rewrite (owned_drain (ag_steering (w_agent w))).
Qed.

Lemma ledger_drainFollowUps w : Ledger w → Ledger (drainFollowUps w).2.
Proof. apply ledger_agent. unfold queued. cbn. by rewrite (owned_drain (ag_followUps (w_agent w))). Qed.

Lemma ledger_withdrawal m w : Ledger w → Ledger (consumeQueuedMessageCancellation m w).2.
Proof.
  unfold consumeQueuedMessageCancellation. destruct (messageRef m); [|done]. cbn. destruct (bool_decide _); by apply ledger_same.
Qed.

Lemma ledger_deliver e w : Ledger w → Ledger (deliverEvent e w).2.
Proof.
  intros Hl. unfold deliverEvent. pose proof (ledger_reduce _ e Hl). destruct (ag_activeRun _); [|done]. by apply ledger_consult.
Qed.

Lemma ledger_answer {A} (o : Op A) w : Ledger w → Ledger (answerOf o w).2.
Proof.
  intros Hl. destruct o; try by apply ledger_consult.
  - by apply ledger_deliver.
  - cbn. pose proof (ledger_drainSteering _ Hl). by destruct (drainSteering w).
  - cbn. apply ledger_consult. apply ledger_drainFollowUps, Hl.
  - by apply ledger_withdrawal.
Qed.

(** Steps of the loop keep the ledger. *)
Definition keepsLedger (s s' : LoopState (World X)) : Prop := Ledger s.(world) → Ledger s'.(world).

#[export] Instance keepsLedger_preorder : PreOrder keepsLedger.
Proof. split; [intros s Hl; exact Hl|]. intros s1 s2 s3 H1 H2 Hl. auto. Qed.

Lemma keepsLedger_ask A (o : Op A) s : keepsLedger s (ask o s).2.
Proof. intros Hl. pose proof (ledger_answer o _ Hl) as Ha. unfold ask. cbn. by destruct (answerOf o (world s)). Qed.

Lemma keepsLedger_all (s s' : LoopState (World X)) : s'.(world) = s.(world) → keepsLedger s s'.
Proof. intros Hw. unfold keepsLedger. by rewrite Hw. Qed.

Lemma keepsLedger_calm (s s' : LoopState (World X)) : s'.(world) = s.(world) → sameResources s s' → keepsLedger s s'.
Proof. intros Hw _. by apply keepsLedger_all. Qed.

#[local] Hint Resolve keepsLedger_ask keepsLedger_all keepsLedger_calm keepsLedger_preorder : keep.

Lemma keepsLedger_batch message config seen : keeps keepsLedger (executeToolCalls message config seen).
Proof. keep. Qed.
#[local] Hint Resolve keepsLedger_batch : keep.

Lemma keepsLedger_run fuel streamFuel prompts config : keeps keepsLedger (runAgentLoop fuel streamFuel prompts config).
Proof. unfold runAgentLoop. keep. Qed.

(** ** Calls of an agent *)

Definition ledgerStep (w w' : World X) : Prop := Ledger w → Ledger w'.

#[export] Instance ledgerStep_preorder : PreOrder ledgerStep.
Proof. split; [intros w Hl; exact Hl|]. intros w1 w2 w3 H1 H2 Hl. auto. Qed.
#[local] Hint Resolve ledgerStep_preorder : keep.

Lemma ledgerStep_agent (f : Agent → Agent) : (∀ a, queued (f a) ≡ₚ queued a) → keeps ledgerStep (modify (onAgent f)).
Proof. intros Hf. apply keeps_modify. intros w Hl. apply ledger_agent; [by rewrite Hf|done]. Qed.
#[local] Hint Extern 2 (keeps _ (modify (onAgent _))) => apply ledgerStep_agent; done : keep.

Lemma ledgerStep_pass : keeps ledgerStep pass.
Proof. apply keeps_modify. intros w Hl. by apply ledger_consult. Qed.

Lemma ledgerStep_process e : keeps ledgerStep (processEvents e).
Proof.
  unfold processEvents. keep.
  - apply keeps_modify. intros w Hl. by apply (ledger_same w).
  - intros w Hl. pose proof (ledger_deliver e _ Hl). by destruct (deliverEvent e w).
Qed.
#[local] Hint Resolve ledgerStep_pass ledgerStep_process : keep.

Lemma ledgerStep_failure e : keeps ledgerStep (handleRunFailure e).
Proof. unfold handleRunFailure. keep. Qed.
#[local] Hint Resolve ledgerStep_failure : keep.

Lemma ledgerStep_finish : keeps ledgerStep finishRun.
Proof.
  apply ledgerStep_agent. intros a. unfold queued. cbn. by rewrite !owned_restore.
Qed.
#[local] Hint Resolve ledgerStep_finish : keep.

Lemma ledgerStep_lifecycle executor : keeps ledgerStep executor → keeps ledgerStep (runWithLifecycle executor).
Proof. intros He. unfold runWithLifecycle, startRun. keep. Qed.

Lemma ledgerStep_loop {B} (m : Eff (LoopState (World X)) B) : keeps keepsLedger m → keeps ledgerStep (onLoop m).
Proof.
  intros Hm w Hl. unfold onLoop.
  specialize (Hm (initialState w (createContextSnapshot (w_agent w)) (ag_criticalToolLoopSeen (w_agent w))) Hl).
  destruct (m _) as [r s]. cbn in *. revert Hm. by apply ledger_same.
Qed.

Context (fuel streamFuel : nat).

Lemma ledgerStep_prompts messages skip : keeps ledgerStep (runPromptMessages fuel streamFuel messages skip).
Proof. apply ledgerStep_lifecycle. keep. apply ledgerStep_loop, keepsLedger_run. Qed.
#[local] Hint Resolve ledgerStep_prompts : keep.

Lemma ledgerStep_continuation : keeps ledgerStep (runContinuation fuel streamFuel).
Proof.
  apply ledgerStep_lifecycle. keep. apply ledgerStep_loop. intros s. unfold runAgentLoopContinue.
  destruct (assertContinuableContext _) as [[]|[]]; [intros Hl; exact Hl..|]. apply keepsLedger_run.
Qed.
#[local] Hint Resolve ledgerStep_continuation : keep.

Lemma ledger_newInput body w : Ledger w → Ledger (newInput body w).2.
Proof. intros [Hc Ho Hk]. split; cbn; [done..|]. intros r Hr%Hk. lia. Qed.

Lemma ledgerStep_newInputs bodies : keeps ledgerStep (newInputs bodies).
Proof.
  unfold newInputs. induction bodies as [|body bodies IH]; cbn [mapEff]; keep. intros w Hl. exact (ledger_newInput body w Hl).
Qed.
#[local] Hint Resolve ledgerStep_newInputs : keep.

Lemma ledgerStep_prompt bodies : keeps ledgerStep (prompt fuel streamFuel bodies).
Proof. unfold prompt. keep. Qed.

Lemma ledgerStep_continue : keeps ledgerStep (continueRun fuel streamFuel).
Proof.
  unfold continueRun. keep.
  - intros w Hl. apply ledger_agent; [|done]. unfold queued. cbn. by rewrite (owned_drain (ag_steering (w_agent w))).
  - intros w Hl. by apply ledger_drainFollowUps.
Qed.
End ledger.
