(* ===== verification/AgentDelivery.v ===== *)
(** * Messages of callers are delivered once

    The loop holds the messages that it drained until it announces them.  A
    message that it may still announce is not waiting in a queue, and if it was
    withdrawn the queue still knows; so a message that the loop announces was not
    withdrawn, and is announced once. *)
From S2P Require Import Prelude JsStrings Effects AgentMessages ToolBatch AgentLoop LoopSteps Agent AgentQueues.

(** The messages of callers that a trace announces. *)
Definition announced (tr : list Obs) : list nat :=
  omap (λ o, match o with OEvent (MessageEnd m) => messageRef m | _ => None end) tr.

Lemma announced_app tr tr' : announced (tr ++ tr') = announced tr ++ announced tr'.
Proof. apply omap_app. Qed.

Definition clears (c : Command) : bool := match c with CClearSteering | CClearFollowUps => true | _ => false end.

(** Callers that clear no queue. *)
Class Unclearing (X : Type) `{Outside X} : Prop :=
  unclearing : ∀ A (o : Op A) a (x : X), Forall (λ c, clears c = false) (snd (fst (answers o a x))).

Record Delivered {X} (w : World X) (tr : list Obs) : Prop := {
  dl_ledger : Ledger w;
  dl_uncleared : cleared w.(w_fates) = [];
  dl_once : NoDup (announced tr);
  dl_known r : r ∈ announced tr → (r < w.(w_next))%nat;
  dl_settled r : r ∈ announced tr → (r ∉ queued w.(w_agent)) ∧ r ∉ withdrawn w.(w_fates);
  dl_committed : committed w.(w_fates) ⊆ announced tr
}.

(** A message that the loop may still announce. *)
Record heldIn {X} (w : World X) (tr : list Obs) (r : nat) : Prop := {
  hd_known : (r < w.(w_next))%nat;
  hd_new : r ∉ announced tr;
  hd_taken : r ∉ waitingIn w.(w_agent);
  hd_withdrawn : r ∈ withdrawn w.(w_fates) → r ∈ cancelledIn w.(w_agent)
}.

Record Hands {X} (rs : list nat) (w : World X) (tr : list Obs) : Prop := {
  hs_delivered : Delivered w tr;
  hs_distinct : NoDup rs;
  hs_held r : r ∈ rs → heldIn w tr r
}.

Section delivery.
Context {X : Type}.
Implicit Types w : World X.

Lemma hands_nil w tr : Delivered w tr → Hands [] w tr.
Proof. intros Hd. split; [done|constructor|]. intros r Hr. by apply not_elem_of_nil in Hr. Qed.

Lemma hands_fewer rs rs' w tr : sublist rs rs' → Hands rs' w tr → Hands rs w tr.
Proof.
  intros Hs [Hd Hn Hh]. split; [done|by eapply sublist_NoDup|]. intros r Hr. apply Hh. by eapply elem_of_sublist.
Qed.

Lemma hands_perm rs rs' w tr : rs ≡ₚ rs' → Hands rs w tr → Hands rs' w tr.
Proof. intros Hp [Hd Hn Hh]. split; [done|by rewrite <-Hp|]. intros r. rewrite <-Hp. apply Hh. Qed.

Lemma queued_parts (a : Agent) : queued a ≡ₚ waitingIn a ++ inFlightIn a.
Proof. unfold waitingIn, queued, inFlightIn. rewrite !owned_parts, refs_app. solve_Permutation. Qed.

Lemma waiting_queued (a : Agent) : waitingIn a ⊆ queued a.
Proof. intros r. rewrite queued_parts, elem_of_app. by left. Qed.

Lemma ledger_queued w r : Ledger w → r ∈ queued w.(w_agent) → r ∈ accepted w.(w_fates).
Proof. intros [Hc _ _] Hr. rewrite Hc. set_solver. Qed.

(** What is queued was not withdrawn, and every message is queued once. *)
Lemma ledger_apart w : Ledger w → NoDup (queued w.(w_agent)) ∧
  (∀ r, r ∈ queued w.(w_agent) → r ∉ withdrawn w.(w_fates)) ∧ (∀ r, r ∈ queued w.(w_agent) → r ∉ committed w.(w_fates)).
Proof.
  intros [Hc Ho _]. rewrite Hc in Ho. apply NoDup_app in Ho as (Hn & Hd & _). split_and!; [done|..];
    intros r Hr%Hd Hr'; apply Hr; set_solver.
Qed.

(** Steps that announce nothing. *)
Lemma hands_step rs w w' new tr : w'.(w_fates) = w.(w_fates) ++ new → committed new = [] → cleared new = [] →
  (Ledger w → Ledger w') → (w.(w_next) ≤ w'.(w_next))%nat →
  (∀ r, r ∈ queued w'.(w_agent) → r ∈ queued w.(w_agent) ∨ (w.(w_next) ≤ r)%nat) →
  (∀ r, r ∈ waitingIn w'.(w_agent) → r ∈ waitingIn w.(w_agent) ∨ (w.(w_next) ≤ r)%nat) →
  (∀ r, r ∈ withdrawn new → r ∈ queued w.(w_agent) ∧ (r ∈ waitingIn w.(w_agent) ∨ r ∈ cancelledIn w'.(w_agent))) →
  (∀ r, r ∈ cancelledIn w.(w_agent) → r ∈ cancelledIn w'.(w_agent)) → Hands rs w tr → Hands rs w' tr.
Proof.
  intros Ef Ec El HL Hn Hq Hw Hx Hca [[DL DU DO DK DS DC] HN HH]. split; [|done|].
  - split; [auto|by rewrite Ef, cleared_app, El, app_nil_r|done| | |by rewrite Ef, committed_app, Ec, app_nil_r].
    + intros r Hr%DK. lia.
    + intros r Hr. destruct (DS r Hr) as [Hrq Hrw]. pose proof (DK r Hr) as Hk. split; [intros [?|?]%Hq; [done|lia]|].
      rewrite Ef, withdrawn_app, elem_of_app. intros [?|[??]%Hx]; done.
  - intros r [HK HA HT HW]%HH. split; [lia|done|intros [?|?]%Hw; [done|lia]|].
    rewrite Ef, withdrawn_app, elem_of_app. intros [?|[? [?|?]]%Hx]; auto. done.
Qed.

(** Steps that leave the queues and the books alone. *)
Lemma hands_same rs w w' tr : w'.(w_fates) = w.(w_fates) → w'.(w_next) = w.(w_next) →
  (∀ r, r ∈ waitingIn w'.(w_agent) → r ∈ waitingIn w.(w_agent)) → queued w.(w_agent) ≡ₚ queued w'.(w_agent) →
  (∀ r, r ∈ cancelledIn w.(w_agent) → r ∈ cancelledIn w'.(w_agent)) → Hands rs w tr → Hands rs w' tr.
Proof.
  intros Ef En Hw Hq Hc. apply (hands_step rs w w' []); [by rewrite app_nil_r|done|done|by apply ledger_same|by rewrite En|..|done].
  - intros r. rewrite <-Hq. auto.
  - auto.
  - intros r Hr. by apply not_elem_of_nil in Hr.
Qed.

Lemma hands_agent rs w f tr : waitingIn (f w.(w_agent)) = waitingIn w.(w_agent) → queued (f w.(w_agent)) = queued w.(w_agent) →
  cancelledIn (f w.(w_agent)) = cancelledIn w.(w_agent) → Hands rs w tr → Hands rs (onAgent f w) tr.
Proof. intros Hw Hq Hc. apply hands_same; cbn; [done|done|by rewrite Hw|by rewrite Hq|by rewrite Hc]. Qed.

Lemma cancelFirst_cancelled p q r : r ∈ pq_cancelled q → r ∈ pq_cancelled (cancelFirst p q).2.
Proof.
  pose proof (cancelFirst_cases p q) as Hc. destruct (cancelFirst p q) as [[i|] q']; cbn; [|by subst].
  destruct Hc as (_ & _ & [[_ ->]| ->]); [done|]. intros Hr. by right.
Qed.

Lemma hands_command rs w c tr : clears c = false → Hands rs w tr → Hands rs (applyCommand w c) tr.
Proof.
  intros Hc. destruct c; try discriminate Hc; cbn; try by apply hands_agent.
  - eapply (hands_step _ _ _ [Accepted _]); [done|done|done|apply (ledger_command w (CSteer body))|cbn; lia|..]; cbn.
    + intros r. unfold queued. cbn. rewrite owned_enqueue. cbn. set_unfold. naive_solver.
    + intros r. unfold waitingIn, waiting. cbn. rewrite refs_app. set_unfold. naive_solver.
    + intros r Hr. by apply not_elem_of_nil in Hr.
    + done.
  - eapply (hands_step _ _ _ [Accepted _]); [done|done|done|apply (ledger_command w (CFollowUp body))|cbn; lia|..]; cbn.
    + intros r. unfold queued. cbn. rewrite owned_enqueue. cbn. set_unfold. naive_solver.
    + intros r. unfold waitingIn, waiting. cbn. rewrite refs_app. set_unfold. naive_solver.
    + intros r Hr. by apply not_elem_of_nil in Hr.
    + done.
  - pose proof (ledger_command w (CCancelSteering p)) as HL. cbn in HL. revert HL.
    pose proof (cancelFirst_cases p (ag_steering (w_agent w))) as Hp.
    destruct (cancelFirst p (ag_steering (w_agent w))) as [[i|] q]; intros HL.
    + destruct Hp as (Hp & Hw & Hx). eapply (hands_step _ _ _ [Withdrawn _]); [done|done|done|exact HL|done|..]; unfold queued, waitingIn, cancelledIn; cbn.
      * intros r. rewrite Hp. set_solver.
      * intros r. set_solver.
      * intros r ->%list_elem_of_singleton. rewrite Hp. split; [set_solver|]. destruct Hx as [[? _]| ->]; set_solver.
      * intros r. destruct Hx as [[_ ->]| ->]; set_solver.
    + subst q. apply (hands_step _ _ _ []); [done..|exact HL|done|auto|auto| |done]. intros r Hr. by apply not_elem_of_nil in Hr.
  - apply hands_agent; unfold abort; by destruct (ag_activeRun _) as [[[]]|].
Qed.

Lemma hands_commands rs cs w tr : Forall (λ c, clears c = false) cs → Hands rs w tr → Hands rs (applyCommands cs w) tr.
Proof. intros Hc. revert w. induction Hc as [|c cs Hc _ IH]; intros w Hh; [done|]. by apply IH, hands_command. Qed.

Lemma hands_drained rs w w' drained tr : w'.(w_fates) = w.(w_fates) → w'.(w_next) = w.(w_next) →
  waitingIn w.(w_agent) ≡ₚ drained ++ waitingIn w'.(w_agent) → queued w.(w_agent) ≡ₚ queued w'.(w_agent) →
  cancelledIn w'.(w_agent) = cancelledIn w.(w_agent) → Hands rs w tr → Hands (rs ++ drained) w' tr.
Proof.
  intros Ef En Hw Hq Hc Hh.
  assert (Hh' : Hands rs w' tr) by (revert Hh; apply hands_same; [done|done|intros r; rewrite Hw; set_solver|done|by rewrite Hc]).
  destruct Hh as [[DL _ _ _ DS _] _ HH]. destruct Hh' as [HD' HN HH'].
  destruct (ledger_apart _ DL) as (Hqn & Hqw & _).
  assert (Hwn : NoDup (waitingIn (w_agent w))).
  { rewrite queued_parts in Hqn. by apply NoDup_app in Hqn as (? & _). }
  rewrite Hw in Hwn. apply NoDup_app in Hwn as (Hdn & Hdw & _).
  assert (Hdr : ∀ r, r ∈ drained → r ∈ queued (w_agent w)) by (intros r Hr; apply waiting_queued; rewrite Hw; set_solver).
  split; [done| |].
  - apply NoDup_app. split_and!; [done| |done]. intros r Hr Hd. apply (hd_taken _ _ _ (HH r Hr)). rewrite Hw. set_solver.
  - intros r [Hr|Hr]%elem_of_app; [by apply HH'|]. pose proof (Hdr r Hr) as Hrq. split.
    + rewrite En. by apply (lg_known _ DL), ledger_queued.
    + intros Ha%DS. by destruct Ha.
    + by apply Hdw.
    + rewrite Ef. intros Hx. by apply Hqw in Hrq.
Qed.

(** A message that was withdrawn is dropped; one that was not may be announced. *)
Lemma hands_withdrawal m r rs w tr : messageRef m = Some r → Hands (r :: rs) w tr →
  let x := consumeQueuedMessageCancellation m w in
  if x.1 : bool then Hands rs x.2 tr else Hands (r :: rs) x.2 tr ∧ r ∉ cancelledIn x.2.(w_agent).
Proof.
  intros Hm [HD HN HH]. unfold consumeQueuedMessageCancellation. rewrite Hm. cbn.
  apply NoDup_cons in HN as Hn. destruct Hn as [Hr Hn].
  assert (Hs : ∀ w', w'.(w_fates) = w.(w_fates) → w'.(w_next) = w.(w_next) → waitingIn w'.(w_agent) = waitingIn w.(w_agent) →
    queued w'.(w_agent) = queued w.(w_agent) → (∀ x, x ∈ cancelledIn w.(w_agent) → x ≠ r → x ∈ cancelledIn w'.(w_agent)) →
    Hands rs w' tr).
  { intros w' Ef En Ew Eq Hc. destruct HD as [DL DU DO DK DS DC]. split; [split|done|].
    - revert DL. apply ledger_same; [done|done|by rewrite Eq].
    - by rewrite Ef.
    - done.
    - by rewrite En.
    - by rewrite Eq, Ef.
    - by rewrite Ef.
    - intros x Hx. destruct (HH x) as [HK HA HT HW]; [by right|]. split; [by rewrite En|done|by rewrite Ew|].
      rewrite Ef. intros Hx'%HW. apply Hc; [done|]. intros ->. done. }
  case_bool_decide as H1; cbn.
  - apply Hs; [done..|]. intros x. unfold cancelledIn. cbn. rewrite !elem_of_app, without_spec. tauto.
  - case_bool_decide as H2; cbn.
    + apply Hs; [done..|]. intros x. unfold cancelledIn. cbn. rewrite !elem_of_app, !without_spec. tauto.
    + split; [|unfold cancelledIn; cbn; rewrite elem_of_app, !without_spec; tauto].
      assert (Hsame : Hands (r :: rs) w tr) by by split. revert Hsame. apply hands_same; [done..|].
      intros x. unfold cancelledIn. cbn. rewrite !elem_of_app, !without_spec. intros [Hx|Hx]; [left|right]; (split; [done|]);
        intros ->; done.
Qed.

Lemma commit_not_owned r q : NoDup (owned q) → r ∉ waiting q → r ∉ owned (commit r q).
Proof.
  intros Hn Hw Hr. pose proof (commitIn_owned r q) as Hc. rewrite Hc in Hn. unfold commitIn in *.
  destruct (spliceFirst (isRef r) (pq_inFlight q)) as [[i rest]|] eqn:E.
  - apply spliceFirst_perm in E as [_ Hi]. unfold isRef in Hi. apply bool_decide_eq_true in Hi. subst r.
    cbn in Hn. apply NoDup_cons in Hn as [Hn _]. done.
  - apply spliceFirst_none in E. rewrite owned_parts, waiting_commit, elem_of_app in Hr. destruct Hr as [?|Hr]; [done|].
    unfold commit in Hr. cbn in Hr. destruct (spliceFirst (isRef r) (pq_inFlight q)) as [[i rest]|] eqn:E'; cbn in Hr.
    + apply spliceFirst_perm in E' as [Hp Hi]. rewrite Hp in E. apply Forall_cons in E as [E _]. congruence.
    + apply list_elem_of_fmap in Hr as (i & -> & Hi). rewrite Forall_forall in E. specialize (E i Hi).
      unfold isRef in E. by rewrite bool_decide_eq_true_2 in E.
Qed.

Lemma hands_quiet rs w tr tr' : announced tr' = announced tr → Hands rs w tr → Hands rs w tr'.
Proof.
  intros Ea [[DL DU DO DK DS DC] HN HH]. split; [split|done|]; rewrite ?Ea; try done; intros r; rewrite ?Ea; auto.
  intros [HK HA HT HW]%HH. split; rewrite ?Ea; auto.
Qed.

(** The announcement of a message that was not withdrawn. *)
Lemma hands_announce m r rs w tr : messageRef m = Some r → r ∉ cancelledIn w.(w_agent) → Hands (r :: rs) w tr →
  Hands rs (reduceEvent (MessageEnd m) w) (tr ++ [OEvent (MessageEnd m)]).
Proof.
  intros Hm Hr [[DL DU DO DK DS DC] HN HH]. apply NoDup_cons in HN as [Hrs HN].
  pose proof (ledger_reduce w (MessageEnd m) DL) as DL'. destruct (HH r) as [HK HA HT HW]; [by left|].
  destruct (ledger_apart _ DL) as (Hqn & Hqw & _). unfold queued in Hqn. apply NoDup_app in Hqn as (Hqs & _ & Hqf).
  unfold reduceEvent, commitMessage in *. rewrite Hm in *. cbn in *.
  destruct (commitIn_fates r (ag_steering (w_agent w))) as (Sa & Sw & Sl & Sc),
    (commitIn_fates r (ag_followUps (w_agent w))) as (Fa & Fw & Fl & Fc).
  assert (Ean : announced (tr ++ [OEvent (MessageEnd m)]) = announced tr ++ [r]) by (rewrite announced_app; cbn; by rewrite Hm).
  assert (Hq : ∀ x, x ∈ owned (commit r (ag_steering (w_agent w))) ++ owned (commit r (ag_followUps (w_agent w))) →
    x ∈ queued (w_agent w) ∧ x ≠ r).
  { intros x Hx. unfold queued. rewrite (commitIn_owned r (ag_steering (w_agent w))), (commitIn_owned r (ag_followUps (w_agent w))).
    split; [set_solver|]. intros ->. unfold waitingIn in HT. apply not_elem_of_app in HT as [HT1 HT2].
    apply elem_of_app in Hx as [Hx|Hx]; revert Hx; by apply commit_not_owned. }
  split; [split|done|]; cbn; autorewrite with fates; rewrite ?Sw, ?Fw, ?Sl, ?Fl, ?app_nil_r, ?Ean.
  - done.
  - done.
  - apply NoDup_app. split_and!; [done| |apply NoDup_singleton]. intros x Hx ->%list_elem_of_singleton. done.
  - intros x [Hx|Hx]%elem_of_app; [by apply DK|apply list_elem_of_singleton in Hx as ->; done].
  - intros x Hx. split.
    + intros [Hxq Hxr]%Hq. apply elem_of_app in Hx as [Hx| ->%list_elem_of_singleton]; [|done]. by destruct (DS x Hx).
    + apply elem_of_app in Hx as [Hx| ->%list_elem_of_singleton]; [by destruct (DS x Hx)|]. intros Hx%HW. done.
  - intros x. set_unfold. naive_solver.
  - intros x Hx. destruct (HH x) as [HK' HA' HT' HW']; [by right|]. split; cbn; [done|..].
    + rewrite Ean. intros [?| ->%list_elem_of_singleton]%elem_of_app; done.
    + unfold waitingIn in *. cbn. by rewrite !waiting_commit.
    + autorewrite with fates. rewrite Sw, Fw, !app_nil_r. intros Hxw%HW'. unfold cancelledIn in *. cbn.
      rewrite !cancelled_commit. rewrite elem_of_app, !without_spec. assert (x ≠ r) by (intros ->; done). set_solver.
Qed.

(** Every other event. *)
Lemma hands_reduce rs e w tr : ownEvent e = true → Hands rs w tr → Hands rs (reduceEvent e w) (tr ++ [OEvent e]).
Proof.
  intros He Hh.
  assert (Hq : Hands rs w (tr ++ [OEvent e])).
  { revert Hh. apply hands_quiet. rewrite announced_app. destruct e; cbn; rewrite ?app_nil_r; try done.
    cbn in He. apply bool_decide_eq_true in He. by rewrite He, app_nil_r. }
  clear Hh. destruct e as [| | |m results|m|m|m| |]; cbn; try done; try by apply hands_agent.
  - destruct m; try done. by destruct (nonEmpty _); [apply hands_agent|].
  - cbn in He. apply bool_decide_eq_true in He. unfold commitMessage. rewrite He. by apply hands_agent.
Qed.

Context `{Unclearing X}.

Lemma hands_consult {A} (o : Op A) rs w tr : Hands rs w tr → Hands rs (consult o w).2 tr.
Proof.
  intros Hh. unfold consult. pose proof (unclearing A o (w_agent w) (w_outside w)) as Hu.
  destruct (answers o (w_agent w) (w_outside w)) as [[a cs] x]. apply hands_commands; [exact Hu|]. by revert Hh; apply hands_same.
Qed.

Lemma hands_deliver e rs w tr : Hands rs (reduceEvent e w) tr → Hands rs (deliverEvent e w).2 tr.
Proof. intros Hh. unfold deliverEvent. destruct (ag_activeRun _); [by apply hands_consult|done]. Qed.

Lemma hands_drainSteering rs w tr : Hands rs w tr → Hands (rs ++ refsOf (drainSteering w).1) (drainSteering w).2 tr.
Proof.
  intros Hh. unfold drainSteering. destruct (ag_skipInitialSteeringPoll _).
  - cbn. change (refsOf []) with (@nil nat). rewrite app_nil_r. by apply hands_agent.
  - revert Hh. apply hands_drained; [done..| | |done]; unfold waitingIn, queued; cbn.
    + by rewrite (waiting_drain (ag_steering (w_agent w))), <-app_assoc.
    + by rewrite (owned_drain (ag_steering (w_agent w))).
Qed.

Lemma hands_drainFollowUps rs w tr : Hands rs w tr → Hands (rs ++ refsOf (drainFollowUps w).1) (drainFollowUps w).2 tr.
Proof.
  apply hands_drained; [done..| | |done]; unfold waitingIn, queued; cbn.
  - rewrite (waiting_drain (ag_followUps (w_agent w))). solve_Permutation.
  - by rewrite (owned_drain (ag_followUps (w_agent w))).
Qed.

Lemma hands_direct {A} (o : Op A) rs w tr : direct o = true → Hands rs w tr → Hands rs (answerOf o w).2 tr.
Proof.
  intros Ho Hh. destruct o; try discriminate Ho; try by apply hands_consult.
  - cbn. pose proof (hands_drainSteering _ _ _ Hh) as Hd. destruct (drainSteering w) as [l w']. cbn in *.
    revert Hd. apply hands_fewer. by apply sublist_inserts_r.
  - cbn. apply hands_consult. pose proof (hands_drainFollowUps _ _ _ Hh) as Hd.
    revert Hd. apply hands_fewer. by apply sublist_inserts_r.
Qed.
End delivery.
