(* ===== verification/AgentHands.v ===== *)
(** * What a run holds in its hands

    The messages that the computations of the loop drain, pass on and announce:
    a run announces none that was withdrawn, and none twice. *)
From S2P Require Import Prelude JsStrings Effects AgentMessages ToolBatch AgentLoop LoopSteps.
From S2P Require Import Agent AgentQueues AgentDelivery.

Section hands.
Context {X : Type} `{Unclearing X}.
Implicit Types w : World X.
Context (tr0 : list Obs).

(** ** The hands of the loop *)


Definition loopHands (rs : list nat) (s : LoopState (World X)) : Prop := Hands rs s.(world) (tr0 ++ s.(trace)).

(** Steps that keep what is in hand. *)
Definition frame (s s' : LoopState (World X)) : Prop := ∀ rs, loopHands rs s → loopHands rs s'.

#[export] Instance frame_preorder : PreOrder frame.
Proof. split; [intros s rs Hh; exact Hh|]. intros s1 s2 s3 H1 H2 rs Hh. auto. Qed.

Lemma announced_events tr tr' : eventsIn tr' = eventsIn tr → announced tr' = announced tr.
Proof.
  assert (E : ∀ l, announced l = omap (λ e, match e with MessageEnd m => messageRef m | _ => None end) (eventsIn l)).
  { unfold announced, eventsIn. intros l. induction l as [|o l IH]; [done|]. destruct o as [[]| | | | | | |]; cbn; rewrite ?IH; reflexivity. }
  intros Hl. by rewrite !E, Hl.
Qed.

Lemma frame_all s s' : s'.(world) = s.(world) → eventsIn s'.(trace) = eventsIn s.(trace) → frame s s'.
Proof.
  intros Ew Ee rs. unfold loopHands. rewrite Ew. apply hands_quiet. rewrite !announced_app. by rewrite (announced_events _ _ Ee).
Qed.

Lemma frame_calm s s' : s'.(world) = s.(world) → sameResources s s' → eventsIn s'.(trace) = eventsIn s.(trace) → frame s s'.
Proof. intros Ew _. by apply frame_all. Qed.

Lemma frame_ask A (o : Op A) s : direct o = true → frame s (ask o s).2.
Proof.
  intros Ho rs Hh. pose proof (hands_direct o _ _ _ Ho Hh) as Hd. unfold ask, loopHands. cbn. by destruct (answerOf o (world s)).
Qed.

Lemma emit_hands e rs rs' s : loopHands rs s →
  (∀ w tr, Hands rs w tr → Hands rs' (reduceEvent e w) (tr ++ [OEvent e])) → loopHands rs' (emit e s).2.
Proof.
  intros Hh He. pose proof (hands_deliver _ _ _ _ (He _ _ Hh)) as Hd. unfold emit, observe, modify, ask, mbind, Eff_bind, loopHands in *.
  cbn. rewrite <-app_assoc in Hd. destruct (deliverEvent e (world s)) as [[] w]; exact Hd.
Qed.

Lemma frame_emit e : ownEvent e = true → keeps frame (emit e).
Proof. intros He s rs Hh. eapply emit_hands; [exact Hh|]. intros w tr. by apply hands_reduce. Qed.

#[local] Hint Resolve frame_preorder frame_all frame_calm frame_ask frame_emit : keep.
#[local] Hint Extern 2 (keeps frame (modify _)) => apply keeps_modify; intros ?; apply frame_all; done : keep.

(** A computation that hands out the messages [out]. *)
Definition carries {A} (out : A → list AgentMessage) (m : Eff (LoopState (World X)) A) : Prop :=
  ∀ rs s, loopHands rs s → wp True m (λ a, loopHands (rs ++ omap messageRef (out a))) (λ _, loopHands []) s.

Lemma loopHands_nil rs s : loopHands rs s → loopHands [] s.
Proof. apply hands_fewer, sublist_nil_l. Qed.

Lemma frame_wp {A} (m : Eff (LoopState (World X)) A) (Q : A → LoopState (World X) → Prop) rs s : keeps frame m → loopHands rs s →
  (∀ a s', loopHands rs s' → Q a s') → wp True m Q (λ _, loopHands []) s.
Proof.
  intros Hm Hh HQ. eapply wp_mono; [by apply (keeps_wp frame)|..]; cbn; [auto|].
  intros e s' Hf. eapply loopHands_nil. by apply Hf.
Qed.

Lemma carries_none {A} (m : Eff (LoopState (World X)) A) out : keeps frame m → (∀ a, out a = []) → carries out m.
Proof. intros Hm Ho rs s Hh. eapply frame_wp; [done|exact Hh|]. intros a s'. by rewrite Ho, app_nil_r. Qed.

Lemma carries_ret {A} (a : A) out : out a = [] → carries out (mret a).
Proof. intros Ho rs s Hh. apply wp_ret. by rewrite Ho, app_nil_r. Qed.

Lemma carries_throw {A} e (out : A → list AgentMessage) : carries out (throw e).
Proof. intros rs s Hh. by eapply wp_throw, loopHands_nil. Qed.

Lemma carries_bind {A B} (m : Eff (LoopState (World X)) A) (k : A → Eff (LoopState (World X)) B) out : keeps frame m →
  (∀ a, carries out (k a)) → carries out (m ≫= k).
Proof. intros Hm Hk rs s Hh. apply wp_bind. eapply frame_wp; [done|exact Hh|]. intros a s' Hh'. by apply Hk. Qed.

(** After a computation that hands messages out, or none. *)
Lemma carries_after {A B} (m : Eff (LoopState (World X)) A) (k : A → Eff (LoopState (World X)) B) out out' : carries out m →
  (∀ a, out a = [] → carries out' (k a)) → (∀ a, out a ≠ [] → keeps frame (k a)) →
  (∀ a b s s', out a ≠ [] → k a s = (Ret b, s') → out' b = out a) → carries out' (m ≫= k).
Proof.
  intros Hm Hk Hf Ho rs s Hh. apply wp_bind. eapply wp_mono; [by apply Hm| |done]. cbn. intros a s1 H1.
  destruct (decide (out a = [])) as [E|E].
  - rewrite E, app_nil_r in H1. by apply Hk.
  - pose proof (frame_wp (k a) (λ _, loopHands (rs ++ omap messageRef (out a))) _ _ (Hf a E) H1 (λ _ _ H, H)) as Hw.
    pose proof (Ho a) as Hb. unfold wp in *. destruct (k a s1) as [[b|e|] s2] eqn:Ek; [|done..]. by rewrite (Hb b _ _ E Ek).
Qed.

Lemma carries_finally {A} (m : Eff (LoopState (World X)) A) f out : carries out m → keeps frame f → carries out (tryFinally m f).
Proof.
  intros Hm Hf rs s Hh. apply wp_finally. eapply wp_mono; [by apply Hm|..]; cbn.
  - intros a s' H'. eapply frame_wp; [exact Hf|exact H'|]. auto.
  - intros e s' H'. eapply frame_wp; [exact Hf|exact H'|]. auto.
Qed.

Lemma carries_awaiting {A} (m : Eff (LoopState (World X)) A) out : carries out m → carries out (awaiting m).
Proof.
  intros Hm rs s Hh. apply wp_after. eapply wp_mono; [by apply Hm|..]; cbn.
  - intros a s' H'. exact (hands_direct Tick _ _ _ eq_refl H').
  - intros e s' H'. exact (hands_direct Tick _ _ _ eq_refl H').
Qed.

Lemma refs_inputs l : omap messageRef (inputMessage <$> l) = refsOf l.
Proof. induction l as [|i l IH]; [done|]. rewrite refs_cons. destruct i as [r []]; cbn; f_equal; exact IH. Qed.

(** ** Batches hand out the steering messages that they drained *)

Lemma carries_steering : carries id getSteeringAtCheckpoint.
Proof.
  intros rs s Hh. unfold getSteeringAtCheckpoint. cbn [has agent_env]. unfold call, ask, wp, mbind, Eff_bind. cbn.
  pose proof (hands_drainSteering _ _ _ Hh) as Hd. destruct (drainSteering (world s)) as [l w]. cbn in *.
  by rewrite refs_inputs.
Qed.

Lemma carries_poll : carries id pollSteering.
Proof.
  apply carries_bind; [by keep|]. intros []; [by apply carries_ret|]. apply carries_steering.
Qed.

Definition steeredBy (step : SequentialStep) : list AgentMessage := match step with StepSteered ms => ms | _ => [] end.

Lemma carries_runReady message lifecycle rest r : carries steeredBy (runReady message lifecycle rest r).
Proof.
  unfold runReady. apply carries_finally; [|by keep]. apply (carries_after _ _ id); [apply carries_poll|..].
  - intros [|m steering] Hs; [|done]. apply carries_bind; [by keep|]. intros launches. destruct (l_rejected launches) as [[r' e]|].
    + apply carries_bind; [by keep|]. intros ids. apply carries_bind; [by keep|]. intros _. apply carries_bind; [by keep|].
      intros [fin m]. apply carries_bind; [by keep|]. intros _. by apply carries_ret.
    + apply carries_bind; [by keep|]. intros x. apply carries_bind; [by keep|]. intros fin. by apply carries_ret.
  - intros [|m steering] Hs; [done|]. keep.
  - intros [|m steering] b s s' Hs; [done|]. by intros [= <- _].
Qed.
#[local] Hint Resolve carries_runReady : keep.

Lemma carries_sequentialLoop message lifecycle calls : ∀ q, q.(q_steering) = [] →
  carries q_steering (sequentialLoop message lifecycle calls q).
Proof.
  induction calls as [|[i c] rest IH]; intros q Hq; cbn [sequentialLoop]; [by apply carries_ret|].
  apply (carries_after _ _ id); [apply carries_poll|..].
  2: { intros [|m l] Hs; [done|]. by keep. }
  2: { intros [|m l] b s s' Hs; [done|]. by intros [= <- _]. }
  intros [|m l] Hs; [|done]. apply carries_bind; [by keep|]. intros entry.
  apply (carries_after _ _ steeredBy).
  - destruct entry as [fin|r]; [by apply carries_ret|apply carries_runReady].
  - intros [fin|ms|e fin m] Hm.
    + apply carries_bind; [by keep|]. intros _. apply carries_bind; [by keep|]. intros _. apply carries_bind; [by keep|].
      intros []; [by apply carries_ret|by apply IH].
    + cbn in Hm. subst ms. destruct entry; by apply carries_ret.
    + by apply carries_ret.
  - intros [fin|ms|e fin m] Hm; try done. destruct entry; keep.
  - intros [fin|ms|e fin m] b s s' Hm; try done. destruct entry; by intros [= <- _].
Qed.

Lemma carries_sequential message lifecycle calls : carries b_steeringMessages (executeToolCallsSequential message lifecycle calls).
Proof.
  unfold executeToolCallsSequential. intros rs s Hh. apply wp_bind.
  eapply wp_mono; [by apply (carries_sequentialLoop message lifecycle calls noRun)| |done]. cbn. intros q s1 H1.
  apply wp_bind. eapply frame_wp; [by keep|exact H1|]. intros stopped s2 H2. apply wp_bind.
  assert (Hp : wp True (if bool_decide (q_fatal q = None) && negb stopped && bool_decide (q_steering q = []) &&
      bool_decide (q_skipped q = []) then getSteeringAtCheckpoint else mret (q_steering q))
    (λ l, loopHands (rs ++ omap messageRef l)) (λ _, loopHands []) s2).
  { destruct (_ && _) eqn:E; [|by apply wp_ret]. rewrite !andb_true_iff, !bool_decide_eq_true in E.
    destruct E as [[_ E] _]. rewrite E in H2. cbn in H2. rewrite app_nil_r in H2. by apply carries_steering. }
  eapply wp_mono; [exact Hp| |done]. cbn. intros steering s3 H3. clear Hp.
  apply wp_bind. eapply frame_wp; [by destruct steering; keep|exact H3|]. intros _ s4 H4.
  apply wp_bind. eapply frame_wp; [by keep|exact H4|]. intros others s5 H5. by apply wp_ret.
Qed.

Lemma carries_parallelBody message lifecycle calls entries :
  carries b_steeringMessages (parallelBody message lifecycle calls entries).
Proof.
  intros rs s Hh. unfold parallelBody. apply wp_bind. eapply wp_mono; [by apply carries_poll| |done]. cbn.
  intros steering s1 H1. apply wp_bind. eapply frame_wp; [destruct steering; keep|exact H1|]. clear H1. intros _ s2 H2.
  apply wp_bind. eapply frame_wp; [destruct steering; keep|exact H2|]. clear H2. intros run s3 H3.
  apply wp_bind. eapply frame_wp; [by keep|exact H3|]. clear H3. intros messages s4 H4.
  apply wp_bind. eapply frame_wp; [by keep|exact H4|]. clear H4. intros stopped s5 H5.
  apply wp_bind. eapply frame_wp; [by keep|exact H5|]. clear H5. intros others s6 H6. by apply wp_ret.
Qed.

Lemma carries_parallel message lifecycle calls : carries b_steeringMessages (executeToolCallsParallel message lifecycle calls).
Proof.
  apply carries_bind; [by keep|]. intros [entries failed]. apply carries_finally; [|by keep]. cbn.
  destruct failed; [apply carries_throw|apply carries_parallelBody].
Qed.

Lemma carries_intervention message intervention terminal calls :
  carries b_steeringMessages (completeToolLoopInterventionBatch message intervention terminal calls).
Proof. apply carries_bind; [by keep|]. intros completed. by apply carries_ret. Qed.

Lemma carries_batch message config seen : carries b_steeringMessages (executeToolCalls message config seen).
Proof.
  apply carries_bind; [by keep|]. intros _. apply carries_bind; [by keep|]. intros [intervention|lifecycle].
  - apply carries_awaiting, carries_intervention.
  - apply carries_bind; [by keep|]. intros []; [apply carries_sequential|apply carries_parallel].
Qed.

(** ** Messages leave the hands when they are announced, or dropped *)

Lemma consume_hands m rs s : loopHands (omap messageRef [m] ++ rs) s →
  wp True (consumeCancellation m)
    (λ b s', if b : bool then loopHands rs s'
             else loopHands (omap messageRef [m] ++ rs) s' ∧ ∀ r, messageRef m = Some r → r ∉ cancelledIn s'.(world).(w_agent))
    (λ _, loopHands []) s.
Proof.
  intros Hh. unfold consumeCancellation. cbn [has agent_env negb]. unfold ask, wp, mbind, Eff_bind, observe, modify.
  change (perform (ConsumeCancellation m) (world s)) with (consumeQueuedMessageCancellation m (world s)).
  cbn in Hh. destruct (messageRef m) as [r|] eqn:Em.
  - pose proof (hands_withdrawal m r rs _ _ Em Hh) as Hw. cbn zeta in Hw.
    destruct (consumeQueuedMessageCancellation m (world s)) as [[] w]; cbn in *; rewrite ?Em.
    + revert Hw. apply hands_quiet. cbn [trace]. rewrite !announced_app. change (announced [OCancelled m]) with (@nil nat).
      by rewrite app_nil_r.
    + destruct Hw as [Hw Hr]. split; [exact Hw|]. by intros ? [= <-].
  - unfold consumeQueuedMessageCancellation. rewrite Em. cbn. rewrite Em. split; [exact Hh|done].
Qed.

(** The announcement of a message, right after it was found not to be
    withdrawn. *)
Lemma announce_hands m rs s : loopHands (omap messageRef [m] ++ rs) s →
  (∀ r, messageRef m = Some r → r ∉ cancelledIn s.(world).(w_agent)) → loopHands rs (emit (MessageEnd m) s).2.
Proof.
  intros Hh Hr. cbn in Hh. destruct (messageRef m) as [r|] eqn:Em.
  - pose proof (hands_announce m r rs _ _ Em (Hr r eq_refl) Hh) as Ha.
    pose proof (hands_deliver (MessageEnd m) _ _ _ Ha) as Hd.
    unfold emit, observe, modify, ask, mbind, Eff_bind, loopHands in *. cbn -[reduceEvent deliverEvent] in *. rewrite <-app_assoc in Hd.
    destruct (deliverEvent (MessageEnd m) (world s)) as [[] w]; exact Hd.
  - cbn in Hh. apply (frame_emit (MessageEnd m)); [|exact Hh]. cbn. by rewrite Em.
Qed.

Lemma inject_hands ms : ∀ tainted injected s, loopHands (omap messageRef ms) s →
  wp True (injectMessages ms tainted injected) (λ _, loopHands []) (λ _, loopHands []) s.
Proof.
  induction ms as [|m ms IH]; intros tainted injected s Hh; cbn [injectMessages]; [by apply wp_ret|].
  change (m :: ms) with ([m] ++ ms) in Hh. rewrite omap_app in Hh.
  apply wp_bind. eapply wp_mono; [by apply consume_hands| |done]. cbn beta. intros [] s1 H1; [by apply IH|].
  destruct H1 as [H1 _]. apply wp_bind. eapply frame_wp; [by keep|exact H1|]. clear H1. intros _ s2 H2.
  apply wp_bind. eapply wp_mono; [by apply consume_hands| |done]. cbn beta. intros [] s3 H3; [by apply IH|].
  destruct H3 as [H3 Hr]. apply wp_bind. pose proof (announce_hands m _ _ H3 Hr) as H4.
  unfold wp. destruct (emit (MessageEnd m) s3) as [[a|e|] s4]; [|by eapply loopHands_nil|done]. cbn in H4.
  apply wp_bind. eapply frame_wp; [by keep|exact H4|]. clear H4. intros _ s5 H5.
  apply wp_bind. eapply frame_wp; [by keep|exact H5|]. clear H5. intros _ s6 H6. by apply IH.
Qed.

Lemma prompts_hands ms : ∀ s, loopHands (omap messageRef ms) s →
  wp True (addPrompts ms) (λ _, loopHands []) (λ _, loopHands []) s.
Proof.
  induction ms as [|m ms IH]; intros s Hh; cbn [addPrompts]; [by apply wp_ret|].
  change (m :: ms) with ([m] ++ ms) in Hh. rewrite omap_app in Hh.
  apply wp_bind. eapply wp_mono; [by apply consume_hands| |done]. cbn beta. intros cancelled s1 H1. apply wp_bind.
  apply (wp_mono True _ (λ _, loopHands (omap messageRef ms)) _ (λ _, loopHands [])); [|intros _; apply IH|done].
  destruct cancelled; [by apply wp_ret|]. destruct H1 as [H1 _].
  apply wp_bind. eapply frame_wp; [by keep|exact H1|]. clear H1. intros _ s2 H2.
  apply wp_bind. eapply wp_mono; [by apply consume_hands| |done]. cbn beta. intros [] s3 H3; [by apply wp_ret|].
  destruct H3 as [H3 Hr]. apply wp_bind. pose proof (announce_hands m _ _ H3 Hr) as H4.
  unfold wp at 1. destruct (emit (MessageEnd m) s3) as [[a|e|] s4]; [|by eapply loopHands_nil|done]. cbn in H4.
  eapply frame_wp; [by keep|exact H4|]. auto.
Qed.

(** ** Turns *)

Definition turnHands (r : TurnResult) (s : LoopState (World X)) : Prop :=
  match r with TurnFinished => loopHands [] s | TurnContinues v => loopHands (omap messageRef v.(v_pendingMessages)) s end.

Abbreviation passes := (λ m s, wp True m turnHands (λ _, loopHands []) s).

Lemma unless_hands v k rs s : loopHands rs s → (∀ s', loopHands rs s' → passes k s') → passes (unlessAborted v k) s.
Proof.
  intros Hh Hk. unfold unlessAborted. apply wp_bind. eapply frame_wp; [by keep|exact Hh|].
  intros [] s' H'; [|by apply Hk]. apply wp_ret. by eapply loopHands_nil.
Qed.

Lemma between_hands v message results s : loopHands (omap messageRef v.(v_pendingMessages)) s →
  passes (betweenTurns v message results) s.
Proof.
  intros Hh. unfold betweenTurns. apply wp_bind, wp_gets, wp_bind, wp_gets, wp_bind.
  eapply frame_wp; [by keep|exact Hh|]. clear Hh. intros update s1 H1. apply wp_bind.
  eapply frame_wp; [by destruct update; keep|exact H1|]. clear H1. intros config s2 H2.
  eapply unless_hands; [exact H2|]. clear H2. intros s3 H3.
  change (v_pendingMessages (v <| v_config := config |>)) with (v_pendingMessages v).
  destruct (v_pendingMessages v) as [|m l] eqn:Ep.
  - apply wp_bind, wp_gets, wp_bind, wp_gets, wp_bind. eapply frame_wp; [by keep|exact H3|]. clear H3. intros [] s4 H4.
    + apply wp_bind. eapply frame_wp; [by keep|exact H4|]. intros _ s5 H5. by apply wp_ret.
    + apply wp_bind. eapply wp_mono; [by apply carries_steering| |done]. cbn. intros steering s5 H5.
      eapply unless_hands; [exact H5|]. intros s6 H6. by apply wp_ret.
  - eapply unless_hands; [exact H3|]. intros s4 H4. apply wp_ret. cbn. by rewrite Ep.
Qed.

Lemma finish_hands v message batch s : loopHands (omap messageRef v.(v_pendingMessages)) s → passes (finishTurn v message batch) s.
Proof.
  intros Hh. unfold finishTurn. apply wp_bind. eapply frame_wp; [by keep|exact Hh|]. clear Hh. intros _ s1 H1.
  destruct (b_fatal batch) as [e|]; [by eapply wp_throw, loopHands_nil|]. eapply unless_hands; [exact H1|].
  intros s2 H2. destruct (b_terminateRun batch); [|by apply between_hands].
  unfold endTerminated. repeat (apply wp_bind; eapply frame_wp; [by keep|eassumption|]; intros ???).
  by eapply wp_ret, loopHands_nil.
Qed.

Lemma tools_hands v message s : v.(v_pendingMessages) = [] → loopHands [] s →
  wp True (runTools v message) (λ r, loopHands (omap messageRef r.1.(v_pendingMessages))) (λ _, loopHands []) s.
Proof.
  intros Hv Hh. unfold runTools. destruct (_ && _); [|by apply wp_ret; cbn; rewrite Hv]. apply wp_bind, wp_gets, wp_bind.
  eapply wp_mono; [by apply (carries_awaiting _ _ (carries_batch _ _ _))| |done]. cbn. intros batch s1 H1.
  apply wp_bind. eapply frame_wp; [by destruct (bool_decide _); keep|exact H1|]. clear H1. intros _ s2 H2.
  apply wp_bind. eapply frame_wp; [by keep|exact H2|]. intros _ s3 H3. by apply wp_ret.
Qed.

Lemma answer_hands streamFuel v s : v.(v_pendingMessages) = [] → loopHands [] s → passes (answerTurn streamFuel v) s.
Proof.
  intros Hv Hh. unfold answerTurn. apply wp_bind. eapply frame_wp; [by keep|exact Hh|]. clear Hh. intros message s1 H1.
  apply wp_bind. eapply frame_wp; [by keep|exact H1|]. clear H1. intros _ s2 H2. destruct (_ || _).
  - repeat (apply wp_bind; eapply frame_wp; [by keep|eassumption|]; intros ???). by apply wp_ret.
  - apply wp_bind. eapply wp_mono; [by apply tools_hands| |done]. cbn. intros ran s3. apply finish_hands.
Qed.

Lemma turn_hands streamFuel v s : loopHands (omap messageRef v.(v_pendingMessages)) s → passes (turn streamFuel v) s.
Proof.
  intros Hh. unfold turn. eapply unless_hands; [exact Hh|]. clear Hh. intros s1 H1.
  apply wp_bind. eapply frame_wp; [by keep|exact H1|]. clear H1. intros opened s2 H2.
  apply wp_bind. eapply wp_mono; [by apply inject_hands| |done]. cbn beta. intros injection s3 H3.
  destruct (_ && _); [by apply wp_ret|]. eapply unless_hands; [exact H3|]. intros s4. by apply answer_hands.
Qed.

Lemma carries_nextMessages : carries id nextMessages.
Proof.
  unfold nextMessages. cbn [has agent_env]. apply (carries_after _ _ id).
  - intros rs s Hh. unfold call, ask, wp, mbind, Eff_bind.
    change (perform GetFollowUpMessages (world s)) with
      (let '(drained, w) := drainFollowUps (world s) in
       (inr (inputMessage <$> drained) : JsError + list AgentMessage, (consult Tick w).2)).
    pose proof (hands_drainFollowUps _ _ _ Hh) as Hd. destruct (drainFollowUps (world s)) as [l w]. cbn in *.
    rewrite refs_inputs. by apply hands_consult.
  - intros [|m l] Hl; [apply carries_steering|done].
  - intros [|m l] Hl; [done|]. by keep.
  - intros [|m l] b s s' Hl; [done|]. by intros [= <- _].
Qed.

Lemma loop_hands fuel streamFuel : ∀ v s, loopHands (omap messageRef v.(v_pendingMessages)) s →
  wp True (runLoop fuel streamFuel v) (λ _, loopHands []) (λ _, loopHands []) s.
Proof.
  induction fuel as [|fuel IH]; intros v s Hh; cbn [runLoop]; [done|]. destruct (v_hasMoreToolCalls v || _) eqn:Em.
  - apply wp_bind. eapply wp_mono; [by apply turn_hands| |done]. intros [|v'] s1 H1; [by apply wp_ret|by apply IH].
  - apply orb_false_iff in Em as [_ Em]. apply negb_false_iff, bool_decide_eq_true in Em. rewrite Em in Hh.
    apply wp_bind. eapply wp_mono; [by apply carries_nextMessages| |done]. cbn. intros [|m l] s1 H1.
    + eapply frame_wp; [by keep|exact H1|]. auto.
    + by apply IH.
Qed.

Lemma run_hands fuel streamFuel prompts config s : loopHands (omap messageRef prompts) s →
  wp True (runAgentLoop fuel streamFuel prompts config) (λ _, loopHands []) (λ _, loopHands []) s.
Proof.
  intros Hh. unfold runAgentLoop, runAgentLoopCore. apply wp_bind. eapply frame_wp; [by keep|exact Hh|]. clear Hh. intros _ s1 H1.
  apply wp_bind. eapply frame_wp; [by keep|exact H1|]. clear H1. intros _ s2 H2.
  apply wp_bind. eapply wp_mono; [by apply prompts_hands| |done]. cbn beta. intros _ s3 H3. apply wp_bind, wp_gets. destruct (_ && _).
  - apply wp_bind. eapply frame_wp; [by keep|exact H3|]. intros _ s4 H4. by apply wp_ret.
  - apply wp_bind, wp_after. unfold startLoop. apply wp_bind, wp_gets, wp_bind.
    eapply wp_mono; [by apply carries_steering| |]; cbn.
    + intros pending s4 H4. eapply wp_mono; [by apply loop_hands|..]; cbn; intros a s5 H5; exact (hands_direct Tick _ _ _ eq_refl H5).
    + intros e s4 H4. exact (hands_direct Tick _ _ _ eq_refl H4).
Qed.
End hands.
