(* ===== verification/AgentCalls.v ===== *)
(** * Calls of an agent

    What prompts, continuations and commands leave behind: an idle agent, the
    transcript as it was followed by what the run announced, and every message
    of a caller delivered once. *)
From S2P Require Import Prelude JsStrings Effects AgentMessages ToolBatch AgentLoop LoopSteps.
From S2P Require Import Agent AgentQueues AgentDelivery AgentHands.

(** ** What a run does not touch *)

Section runs.
Context {X : Type} `{Outside X}.

(** The part of the world that commands and operations leave alone. *)
Definition settledPart (w : World X) : list Obs * bool := (w.(w_trace), isActive w).

Lemma settled_command w c : settledPart (applyCommand w c) = settledPart w.
Proof.
  destruct c; try done; cbn.
  - by destruct (cancelFirst p (ag_steering (w_agent w))) as [[i|] q].
  - unfold settledPart, isActive, abort, onAgent. cbn. destruct (ag_activeRun (w_agent w)) as [[[|]]|] eqn:E; cbn; by rewrite ?E.
Qed.

Lemma settled_commands w cs : settledPart (applyCommands cs w) = settledPart w.
Proof. revert w. induction cs as [|c cs IH]; intros w; [done|]. cbn. unfold applyCommands in IH. by rewrite IH, settled_command. Qed.

Lemma settled_consult {A} (o : Op A) w : settledPart (consult o w).2 = settledPart w.
Proof. unfold consult. destruct (answers o (w_agent w) (w_outside w)) as [[a cs] x]. exact (settled_commands _ cs). Qed.

Lemma settled_reduce e w : settledPart (reduceEvent e w) = settledPart w.
Proof.
  destruct e as [| | |m results|m|m|m| |]; try done; cbn.
  - destruct m; try done. by destruct (nonEmpty _).
  - unfold commitMessage. by destruct (messageRef m).
Qed.

Lemma settled_deliver e w : settledPart (deliverEvent e w).2 = settledPart w.
Proof. unfold deliverEvent. destruct (ag_activeRun _); [rewrite settled_consult|]; apply settled_reduce. Qed.

Lemma settled_answer {A} (o : Op A) w : settledPart (answerOf o w).2 = settledPart w.
Proof.
  destruct o; try apply settled_consult; try done.
  - apply settled_deliver.
  - cbn. unfold drainSteering. by destruct (ag_skipInitialSteeringPoll _).
  - cbn -[consult]. by rewrite settled_consult.
  - cbn. unfold consumeQueuedMessageCancellation. destruct (messageRef _); [|done]. cbn. by destruct (bool_decide _).
Qed.

Definition untouched (s s' : LoopState (World X)) : Prop := settledPart s'.(world) = settledPart s.(world).

#[export] Instance untouched_preorder : PreOrder untouched.
Proof. split; [done|]. intros s1 s2 s3 E1 E2. unfold untouched in *. congruence. Qed.

Lemma untouched_ask A (o : Op A) s : untouched s (ask o s).2.
Proof. pose proof (settled_answer o (world s)) as Ha. unfold untouched, ask. cbn. by destruct (answerOf o (world s)). Qed.

Lemma untouched_all (s s' : LoopState (World X)) : s'.(world) = s.(world) → untouched s s'.
Proof. intros Ew. unfold untouched. by rewrite Ew. Qed.

Lemma untouched_calm (s s' : LoopState (World X)) : s'.(world) = s.(world) → sameResources s s' → untouched s s'.
Proof. intros Ew _. by apply untouched_all. Qed.

#[local] Hint Resolve untouched_ask untouched_all untouched_calm untouched_preorder : keep.

Lemma untouched_batch message config seen : keeps untouched (executeToolCalls message config seen).
Proof. keep. Qed.
#[local] Hint Resolve untouched_batch : keep.

Lemma untouched_run fuel streamFuel prompts config : keeps untouched (runAgentLoop fuel streamFuel prompts config).
Proof. unfold runAgentLoop. keep. Qed.
End runs.

(** ** Messages are delivered once *)

Section delivered.
Context {X : Type} `{Unclearing X}.
Implicit Types w : World X.

Definition worldHands (rs : list nat) w : Prop := Hands rs w w.(w_trace).

(** [m] starts with [rs] in hand, and ends with nothing. *)
Definition delivers {B} (rs : list nat) (m : Eff (World X) B) : Prop :=
  ∀ w, worldHands rs w → wp True m (λ _, worldHands []) (λ _, worldHands []) w.

Definition holdsOn (w w' : World X) : Prop := ∀ rs, worldHands rs w → worldHands rs w'.

#[export] Instance holdsOn_preorder : PreOrder holdsOn.
Proof. split; [intros w rs Hh; exact Hh|]. intros w1 w2 w3 H1 H2 rs Hh. auto. Qed.
#[local] Hint Resolve holdsOn_preorder : keep.

Lemma worldHands_nil rs w : worldHands rs w → worldHands [] w.
Proof. apply hands_fewer, sublist_nil_l. Qed.

Lemma holds_wp {B} (m : Eff (World X) B) (Q : B → World X → Prop) rs w : keeps holdsOn m → worldHands rs w →
  (∀ b w', worldHands rs w' → Q b w') → wp True m Q (λ _, worldHands []) w.
Proof.
  intros Hm Hh HQ. eapply wp_mono; [by apply (keeps_wp holdsOn)|..]; cbn; [auto|].
  intros e w' Hf. eapply worldHands_nil. by apply Hf.
Qed.

Lemma holdsOn_agent f : (∀ a, waitingIn (f a) = waitingIn a ∧ queued (f a) = queued a ∧ cancelledIn (f a) = cancelledIn a) →
  keeps holdsOn (modify (onAgent f)).
Proof.
  intros Hf. apply keeps_modify. intros w rs. destruct (Hf (w_agent w)) as (Ew & Eq & Ec). by apply hands_agent.
Qed.
#[local] Hint Extern 2 (keeps _ (modify (onAgent _))) => apply holdsOn_agent; done : keep.

Lemma worldHands_settled rs w w' : settledPart w' = settledPart w → Hands rs w' w.(w_trace) → worldHands rs w'.
Proof. unfold worldHands, settledPart. by intros [= -> _]. Qed.

Lemma holdsOn_consult {B} (o : Op B) w : holdsOn w (consult o w).2.
Proof. intros rs Hh. eapply worldHands_settled; [apply settled_consult|]. by apply hands_consult. Qed.

Lemma holdsOn_pass : keeps holdsOn pass.
Proof. apply keeps_modify. intros w. apply holdsOn_consult. Qed.

Lemma reduce_trace e w t : reduceEvent e (w <| w_trace := t |>) = (reduceEvent e w) <| w_trace := t |>.
Proof.
  destruct e as [| | |[] ?|?|?|m| |]; try done; cbn.
  - by destruct (nonEmpty _).
  - unfold commitMessage. by destruct (messageRef m).
Qed.

Lemma process_world e w : (processEvents e w).2 = (deliverEvent e (w <| w_trace := w.(w_trace) ++ [OEvent e] |>)).2.
Proof.
  unfold processEvents, modify, mbind, Eff_bind. cbn -[deliverEvent]. by destruct (deliverEvent e _) as [[] ?].
Qed.

Lemma holdsOn_process e : ownEvent e = true → keeps holdsOn (processEvents e).
Proof.
  intros He w rs Hh. rewrite process_world. pose proof (hands_reduce _ _ _ _ He Hh) as Hr.
  set (w1 := w <| w_trace := w.(w_trace) ++ [OEvent e] |>).
  assert (Hr1 : Hands rs (reduceEvent e w1) (w_trace w1)).
  { revert Hr. subst w1. rewrite reduce_trace. by apply hands_same. }
  eapply worldHands_settled; [apply settled_deliver|]. by apply hands_deliver.
Qed.
#[local] Hint Resolve holdsOn_pass : keep.
#[local] Hint Extern 2 (keeps _ (processEvents _)) => apply holdsOn_process; reflexivity : keep.

Lemma holdsOn_failure e : keeps holdsOn (handleRunFailure e).
Proof. unfold handleRunFailure. keep. Qed.
#[local] Hint Resolve holdsOn_failure : keep.

Lemma finish_hands_nil w : worldHands [] w → worldHands [] (onAgent (λ a, a <| ag_steering ::= restore |> <| ag_followUps ::= restore |>) w).
Proof.
  intros [[DL DU DO DK DS DC] _ _]. assert (Eq : ∀ a, queued (a <| ag_steering ::= restore |> <| ag_followUps ::= restore |>) ≡ₚ queued a).
  { intros a. unfold queued. cbn. by rewrite !owned_restore. }
  apply hands_nil. split; [apply ledger_agent; [by rewrite Eq|done]|done|done|done| |done].
  intros r Hr. destruct (DS r Hr) as [Hq Hw]. split; [|done]. intros Hx. apply Hq. rewrite <-(Eq (w_agent w)). exact Hx.
Qed.

Lemma delivers_finish w : worldHands [] w → wp True finishRun (λ _, worldHands []) (λ _, worldHands []) w.
Proof.
  intros Hh. apply finish_hands_nil in Hh. unfold finishRun. apply wp_modify. revert Hh. unfold worldHands. by apply hands_same.
Qed.

Lemma delivers_lifecycle rs executor : delivers rs executor → delivers rs (runWithLifecycle executor).
Proof.
  intros He w Hh. unfold runWithLifecycle. apply wp_bind, wp_gets. destruct (isActive w); [by eapply wp_throw, worldHands_nil|].
  apply wp_bind. eapply holds_wp; [unfold startRun; by keep|exact Hh|]. intros _ w1 H1. apply wp_finally.
  assert (Hm : wp True (tryCatch (executor ;; pass) (λ e, pass ;; handleRunFailure e ;; pass)) (λ _, worldHands []) (λ _, worldHands []) w1).
  { apply wp_catch, wp_bind. eapply wp_mono; [by apply He|..]; cbn beta.
    - intros _ w2 H2. eapply wp_mono; [by apply (keeps_wp holdsOn), holdsOn_pass|..]; cbn; [auto|].
      intros e w3 H3. eapply holds_wp; [by keep|by apply H3|]. auto.
    - intros e w2 H2. eapply holds_wp; [by keep|exact H2|]. auto. }
  eapply wp_mono; [exact Hm|..]; cbn beta; intros; by apply delivers_finish.
Qed.

Lemma delivers_loop {B} rs (m : Eff (LoopState (World X)) B) :
  (∀ tr0 s, loopHands tr0 rs s → wp True m (λ _, loopHands tr0 []) (λ _, loopHands tr0 []) s) → keeps untouched m →
  delivers rs (onLoop m).
Proof.
  intros Hm Hu w Hh. unfold onLoop, wp.
  set (s0 := initialState w _ _). assert (H0' : loopHands (w_trace w) rs s0).
  { unfold loopHands. subst s0. cbn. by rewrite app_nil_r. }
  specialize (Hm _ _ H0'). specialize (Hu s0). unfold wp in Hm. destruct (m s0) as [r s]. cbn in Hu.
  assert (Et : w_trace (world s) = w_trace w) by (unfold untouched, settledPart in Hu; cbn in Hu; congruence).
  assert (Hw : loopHands (w_trace w) [] s → worldHands [] (onAgent (λ a, a <| ag_criticalToolLoopSeen := criticalToolLoopSeen s |>) (world s)
    <| w_trace ::= λ t, t ++ trace s |>)).
  { unfold loopHands, worldHands. cbn. rewrite Et. by apply hands_same. }
  destruct r; [exact (Hw Hm)..|done].
Qed.

Context (fuel streamFuel : nat).

Lemma delivers_prompts messages skip : delivers (omap messageRef messages) (runPromptMessages fuel streamFuel messages skip).
Proof.
  apply delivers_lifecycle. intros w Hh. apply wp_bind. eapply holds_wp; [by keep|exact Hh|]. intros _ w1 H1.
  apply wp_bind, wp_gets. apply (delivers_loop (omap messageRef messages)); [|apply untouched_run|exact H1].
  intros tr0 s. apply run_hands.
Qed.

Lemma delivers_continuation : delivers [] (runContinuation fuel streamFuel).
Proof.
  apply delivers_lifecycle. intros w Hh. apply wp_bind. eapply holds_wp; [by keep|exact Hh|]. intros _ w1 H1.
  apply wp_bind, wp_gets. apply (delivers_loop []); [..|exact H1].
  - intros tr0 s Hs. unfold runAgentLoopContinue, wp. destruct (assertContinuableContext _) as [[]|[]]; try exact Hs.
    apply (run_hands tr0 fuel streamFuel [] _ s Hs).
  - intros s. unfold runAgentLoopContinue. destruct (assertContinuableContext _) as [[]|[]]; [reflexivity..|].
    apply untouched_run.
Qed.

Lemma newInput_hands rs body w : worldHands rs w → worldHands (rs ++ [w.(w_next)]) (newInput body w).2.
Proof.
  intros [[DL DU DO DK DS DC] HN HH]. unfold newInput. cbn. split; [split; cbn; try done|..].
  - by apply (ledger_newInput body).
  - intros r Hr%DK. lia.
  - apply NoDup_app. split_and!; [done| |apply NoDup_singleton]. intros r Hr ->%list_elem_of_singleton.
    pose proof (hd_known _ _ _ (HH _ Hr)). lia.
  - intros r [Hr| ->%list_elem_of_singleton]%elem_of_app.
    + destruct (HH r Hr) as [HK HA HT HW]. split; cbn; [lia|done..].
    + split; cbn; [lia| | |].
      * intros Hr%DK. lia.
      * intros Hr%waiting_queued. apply ledger_queued in Hr; [|done]. apply (lg_known _ DL) in Hr. lia.
      * intros Hr. assert (Ha : w_next w ∈ accepted (w_fates w)) by (rewrite (lg_conserved _ DL); set_solver).
        apply (lg_known _ DL) in Ha. lia.
Qed.

Lemma newInputs_hands bodies : ∀ rs w, worldHands rs w →
  wp True (newInputs bodies) (λ l, worldHands (rs ++ refsOf l)) (λ _, worldHands []) w.
Proof.
  induction bodies as [|body bodies IH]; intros rs w Hh.
  - apply wp_ret. change (refsOf []) with (@nil nat). by rewrite app_nil_r.
  - unfold newInputs. cbn [mapEff]. apply wp_bind.
    refine ((_ : wp True (b ← newInputs bodies; mret ({| in_ref := w_next w; in_body := body |} :: b)) _ _ (newInput body w).2)).
    pose proof (newInput_hands _ body _ Hh) as H1. apply wp_bind. eapply wp_mono; [by apply (IH _ _ H1)| |done]. cbn beta.
    intros l w2 H2. apply wp_ret. rewrite <-app_assoc in H2. exact H2.
Qed.

Lemma delivers_prompt bodies : delivers [] (prompt fuel streamFuel bodies).
Proof.
  intros w Hh. unfold prompt. apply wp_bind, wp_gets. destruct (isActive w); [by apply wp_throw|].
  apply wp_bind. eapply holds_wp; [by keep|exact Hh|]. intros _ w1 H1. apply wp_bind.
  eapply wp_mono; [by apply newInputs_hands| |done]. cbn. intros l w2 H2. rewrite <-refs_inputs in H2. by apply delivers_prompts.
Qed.

Lemma delivers_continue : delivers [] (continueRun fuel streamFuel).
Proof.
  intros w Hh. unfold continueRun. apply wp_bind, wp_gets. destruct (isActive w); [by apply wp_throw|].
  apply wp_bind, wp_gets. destruct (last (ag_messages (w_agent w))) as [m|]; [|by apply wp_throw].
  set (fromQueues := match m with MAssistant _ _ | MToolResult _ _ => true | _ => false end). clearbody fromQueues.
  apply wp_bind. apply (wp_mono True _ (λ l, worldHands (refsOf l)) _ (λ _, worldHands [])); [| |done].
  { destruct fromQueues; [|by apply wp_ret]. unfold wp. cbn. revert Hh. unfold worldHands.
    apply (hands_drained [] _ _ (refsOf (drain (ag_steering (w_agent w))).1)); [done..| | |done]; unfold waitingIn, queued; cbn.
    - by rewrite (waiting_drain (ag_steering (w_agent w))), <-app_assoc.
    - by rewrite (owned_drain (ag_steering (w_agent w))). }
  clear w Hh. intros [|i l] w Hh; [|rewrite <-refs_inputs in Hh; by apply delivers_prompts].
  apply wp_bind. apply (wp_mono True _ (λ l, worldHands (refsOf l)) _ (λ _, worldHands [])); [| |done].
  { destruct fromQueues; [|by apply wp_ret]. pose proof (hands_drainFollowUps _ _ _ Hh) as Hd. exact Hd. }
  clear w Hh. intros [|i l] w Hh; [|rewrite <-refs_inputs in Hh; by apply delivers_prompts].
  destruct m; try (by apply delivers_continuation); by apply wp_throw.
Qed.
End delivered.
