(* ===== verification/AgentLife.v ===== *)
(** * The life of a run

    A run extends the transcript of its agent by what it announces, ends when
    the outside runs dry, and leaves the agent idle. *)
From S2P Require Import Prelude JsStrings Effects AgentMessages ToolBatch ToolBatchFacts AgentLoop AgentLoopFacts.
From S2P Require Import LoopSteps AgentProgress AgentRuns Agent AgentQueues AgentDelivery AgentHands AgentCalls.

(** ** The agent as a world *)

Section instances.
Context {X : Type} `{Outside X}.
Implicit Types w : World X.

(** Aborts last while a run is active. *)
Definition abortStays (w w' : World X) : Prop := is_Some (abortOf w) → is_Some (abortOf w').

Lemma abortStays_command w c : abortStays w (applyCommand w c).
Proof.
  unfold abortStays, abortOf. destruct c; try done; cbn.
  - by destruct (cancelFirst p (ag_steering (w_agent w))) as [[i|] q].
  - unfold abort. destruct (ag_activeRun (w_agent w)) as [[[|]]|] eqn:E; cbn; rewrite ?E; cbn; eauto.
Qed.

Lemma abortStays_commands w cs : abortStays w (applyCommands cs w).
Proof. revert w. induction cs as [|c cs IH]; intros w Hw; [done|]. by apply IH, abortStays_command. Qed.

Lemma abortStays_consult {A} (o : Op A) w : abortStays w (consult o w).2.
Proof.
  intros Hw. unfold consult. destruct (answers o (w_agent w) (w_outside w)) as [[a cs] x].
  apply (abortStays_commands _ cs). exact Hw.
Qed.

Lemma abortStays_reduce e w : abortStays w (reduceEvent e w).
Proof.
  unfold abortStays. destruct e as [| | |[] ?|?|?|m| |]; try done; cbn; [by destruct (nonEmpty _)|].
  unfold commitMessage. by destruct (messageRef m).
Qed.

Lemma abortStays_answer {A} (o : Op A) w : abortStays w (answerOf o w).2.
Proof.
  destruct o; try apply abortStays_consult; unfold abortStays.
  - cbn. unfold deliverEvent. intros Hw%(abortStays_reduce event). by destruct (ag_activeRun _); [apply abortStays_consult|].
  - cbn. unfold drainSteering. by destruct (ag_skipInitialSteeringPoll _).
  - cbn -[consult]. intros Hw. by apply abortStays_consult.
  - cbn. unfold consumeQueuedMessageCancellation. destruct (messageRef message); [|done]. cbn. by destruct (bool_decide _).
Qed.

#[export] Instance agent_sticky : AbortSticky (World X).
Proof.
  intros A o w. cbn. rewrite !bool_decide_eq_true. apply abortStays_answer.
Qed.

Lemma inputs_plain l : Forall (λ m, plain m = true) (inputMessage <$> l).
Proof. apply Forall_fmap, Forall_true. by intros [r []]. Qed.

#[export] Instance agent_plain : PlainQueues (World X).
Proof.
  split; intros w ms w'; cbn -[consult].
  - destruct (drainSteering w) as [l w1]. intros [= <- _]. apply inputs_plain.
  - intros [= <- _]. apply inputs_plain.
Qed.

(** ** Outsides that run dry *)

Definition withdraws (c : Command) : bool := match c with CCancelSteering _ => true | _ => false end.

Definition withdrawals (cs : list Command) : nat := length (List.filter withdraws cs).

Arguments withdrawals : simpl never.

(** What the provider and the callers still have to say: answers, events of a
    stream, withdrawals. *)
Class OutsideDry : Type := {
  obudget : X → nat;
  odry A (o : Op A) a x : (obudget (answers o a x).2 + withdrawals (answers o a x).1.2 ≤ obudget x)%nat;
  odry_stream config ctx a x cs x' : answers (OpenStream config ctx) a x = (inr tt, cs, x') →
    (obudget x' + withdrawals cs < obudget x)%nat;
  odry_event e a x cs x' : answers NextStreamEvent a x = (inr (Some e), cs, x') → e ≠ EvTerminal →
    (obudget x' + withdrawals cs < obudget x)%nat
}.

Definition pendingCancels (w : World X) : nat := length (cancelledIn w.(w_agent)).

Lemma cancels_command w c :
  (pendingCancels (applyCommand w c) ≤ pendingCancels w + if withdraws c then 1 else 0)%nat.
Proof.
  unfold pendingCancels, cancelledIn. destruct c; cbn; rewrite ?length_app; cbn; try lia.
  - pose proof (cancelFirst_cases p (ag_steering (w_agent w))) as Hc.
    destruct (cancelFirst p (ag_steering (w_agent w))) as [[i|] q]; cbn; rewrite ?length_app; [|subst; lia].
    destruct Hc as (_ & _ & [[_ ->]| ->]); cbn; lia.
  - unfold abort. destruct (ag_activeRun (w_agent w)) as [[[|]]|]; cbn; rewrite ?length_app; lia.
Qed.

Lemma cancels_commands w cs : (pendingCancels (applyCommands cs w) ≤ pendingCancels w + withdrawals cs)%nat.
Proof.
  revert w. induction cs as [|c cs IH]; intros w; [cbn; lia|].
  pose proof (IH (applyCommand w c)) as IH'. unfold applyCommands in *. cbn. pose proof (cancels_command w c).
  unfold withdrawals in *. cbn. destruct (withdraws c); cbn; lia.
Qed.

Lemma without_length r l : (length (without r l) ≤ length l)%nat.
Proof. apply length_filter. Qed.

Lemma cancels_reduce e w : (pendingCancels (reduceEvent e w) ≤ pendingCancels w)%nat.
Proof.
  unfold pendingCancels, cancelledIn. destruct e as [| | |[] ?|?|?|m| |]; cbn; try done; [by destruct (nonEmpty _)|].
  unfold commitMessage. destruct (messageRef m); [|done]. cbn. rewrite !cancelled_commit, !length_app.
  pose proof (without_length n (pq_cancelled (ag_steering (w_agent w)))). pose proof (without_length n (pq_cancelled (ag_followUps (w_agent w)))). lia.
Qed.

Context `{!OutsideDry}.

Definition worldBudget (w : World X) : nat := (obudget w.(w_outside) + pendingCancels w)%nat.

Lemma outside_commands w cs : w_outside (applyCommands cs w) = w_outside w.
Proof.
  revert w. induction cs as [|c cs IH]; intros w; [done|]. cbn. unfold applyCommands in IH. rewrite IH. destruct c; try done. cbn.
  by destruct (cancelFirst p (ag_steering (w_agent w))) as [[i|] q].
Qed.

Lemma outside_reduce e w : w_outside (reduceEvent e w) = w_outside w.
Proof.
  destruct e as [| | |[] ?|?|?|m| |]; try done; cbn; [by destruct (nonEmpty _)|]. unfold commitMessage. by destruct (messageRef m).
Qed.

Lemma budget_consult {A} (o : Op A) w a cs x : answers o w.(w_agent) w.(w_outside) = (a, cs, x) →
  (worldBudget (consult o w).2 ≤ obudget x + withdrawals cs + pendingCancels w)%nat.
Proof.
  intros E. unfold consult, worldBudget. rewrite E. cbn. rewrite outside_commands. cbn.
  pose proof (cancels_commands (w <| w_outside := x |>) cs) as Hc. unfold pendingCancels in *. cbn in *. lia.
Qed.

Lemma budget_consults {A} (o : Op A) w : (worldBudget (consult o w).2 ≤ worldBudget w)%nat.
Proof.
  destruct (answers o (w_agent w) (w_outside w)) as [[a cs] x] eqn:E. pose proof (budget_consult o w _ _ _ E).
  pose proof (odry A o (w_agent w) (w_outside w)) as Hd. rewrite E in Hd. cbn in Hd. unfold worldBudget in *. lia.
Qed.

Lemma budget_reduce e w : (worldBudget (reduceEvent e w) ≤ worldBudget w)%nat.
Proof. unfold worldBudget. rewrite outside_reduce. pose proof (cancels_reduce e w). lia. Qed.

Lemma budget_withdrawal m w : let r := consumeQueuedMessageCancellation m w in
  (worldBudget r.2 ≤ worldBudget w)%nat ∧ (r.1 = true → worldBudget r.2 < worldBudget w)%nat.
Proof.
  unfold consumeQueuedMessageCancellation. destruct (messageRef m) as [r|]; [|done]. cbn.
  assert (Hl : ∀ l, r ∈ l → (length (without r l) < length l)%nat).
  { intros l Hr. apply (length_filter_lt (λ x, x ≠ r) l r Hr). naive_solver. }
  unfold worldBudget, pendingCancels, cancelledIn.
  pose proof (without_length r (pq_cancelled (ag_steering (w_agent w)))).
  pose proof (without_length r (pq_cancelled (ag_followUps (w_agent w)))).
  case_bool_decide as Hs; cbn; [pose proof (Hl _ Hs); rewrite !length_app; lia|].
  case_bool_decide as Hf; cbn; rewrite !length_app; [pose proof (Hl _ Hf)|]; split; try done; lia.
Qed.

#[export] Instance agent_dry : RunsDry (W := World X).
Proof.
  refine {| budget := worldBudget |}.
  - intros A o w. destruct o; try apply budget_consults; cbn -[consult].
    + unfold deliverEvent. pose proof (budget_reduce event w). destruct (ag_activeRun _); [|done].
      pose proof (budget_consults (EmitEvent event) (reduceEvent event w)). lia.
    + unfold drainSteering. by destruct (ag_skipInitialSteeringPoll _).
    + etrans; [apply budget_consults|]. done.
    + apply (budget_withdrawal message w).
  - intros config ctx w w' E. cbn -[consult] in E. pose proof (odry_stream config ctx (w_agent w) (w_outside w)) as Hs.
    destruct (answers (OpenStream config ctx) (w_agent w) (w_outside w)) as [[a cs] x] eqn:Ea.
    pose proof (budget_consult _ w _ _ _ Ea) as Hb. rewrite E in Hb. unfold consult in E. rewrite Ea in E. injection E as -> _.
    specialize (Hs cs x eq_refl). cbn in Hb. unfold worldBudget in *. lia.
  - intros e w w' E Hne. cbn -[consult] in E. pose proof (odry_event e (w_agent w) (w_outside w)) as Hs.
    destruct (answers NextStreamEvent (w_agent w) (w_outside w)) as [[a cs] x] eqn:Ea.
    pose proof (budget_consult _ w _ _ _ Ea) as Hb. rewrite E in Hb. unfold consult in E. rewrite Ea in E. injection E as -> _.
    specialize (Hs cs x eq_refl Hne). cbn in Hb. unfold worldBudget in *. lia.
  - intros m w w' E. destruct (budget_withdrawal m w) as [_ Hb]. cbn in E. rewrite E in Hb. by apply Hb.
Defined.
End instances.

(** ** The transcript *)

Definition assigns (c : Command) : bool := match c with CAssignMessages _ => true | _ => false end.

(** Callers that do not replace the transcript. *)
Class Unassigning (X : Type) `{Outside X} : Prop :=
  unassigning : ∀ A (o : Op A) a (x : X), Forall (λ c, assigns c = false) (snd (fst (answers o a x))).

Definition endedIn (es : list AgentEvent) : list AgentMessage :=
  omap (λ e, match e with MessageEnd m => Some m | _ => None end) es.

Section transcript.
Context {X : Type} `{Unassigning X}.
Implicit Types w : World X.

Abbreviation messagesOf := (λ w, w.(w_agent).(ag_messages)).

Lemma messages_commands w cs : Forall (λ c, assigns c = false) cs → messagesOf (applyCommands cs w) = messagesOf w.
Proof.
  intros Hc. revert w. induction Hc as [|c cs Hc _ IH]; intros w; [done|]. cbn. unfold applyCommands in IH. rewrite IH.
  destruct c; try discriminate Hc; try done; cbn.
  - by destruct (cancelFirst p (ag_steering (w_agent w))) as [[i|] q].
  - unfold abort. by destruct (ag_activeRun (w_agent w)) as [[[|]]|].
Qed.

Lemma messages_consult {A} (o : Op A) w : messagesOf (consult o w).2 = messagesOf w.
Proof.
  unfold consult. pose proof (unassigning A o (w_agent w) (w_outside w)) as Hu.
  destruct (answers o (w_agent w) (w_outside w)) as [[a cs] x]. exact (messages_commands _ cs Hu).
Qed.

Lemma messages_reduce e w : messagesOf (reduceEvent e w) = messagesOf w ++ endedIn [e].
Proof.
  destruct e as [| | |[] ?|?|?|m| |]; cbn; rewrite ?app_nil_r; try done; [by destruct (nonEmpty _)|].
  unfold commitMessage. by destruct (messageRef m).
Qed.

Lemma messages_deliver e w : messagesOf (deliverEvent e w).2 = messagesOf w ++ endedIn [e].
Proof. unfold deliverEvent. destruct (ag_activeRun _); [rewrite messages_consult|]; apply messages_reduce. Qed.

Lemma messages_direct {A} (o : Op A) w : direct o = true → messagesOf (answerOf o w).2 = messagesOf w.
Proof.
  intros Ho. destruct o; try discriminate Ho; try apply messages_consult.
  - cbn. unfold drainSteering. by destruct (ag_skipInitialSteeringPoll _).
  - cbn -[consult]. by rewrite messages_consult.
Qed.

(** The messages that a run announces go to the transcript, and nothing else
    does. *)
Definition grows (s s' : LoopState (World X)) : Prop := ∃ es, eventsIn s'.(trace) = eventsIn s.(trace) ++ es ∧
  messagesOf s'.(world) = messagesOf s.(world) ++ endedIn es.

Lemma endedIn_app es es' : endedIn (es ++ es') = endedIn es ++ endedIn es'.
Proof. apply omap_app. Qed.

#[export] Instance grows_preorder : PreOrder grows.
Proof.
  split; [intros s; exists []; by rewrite !app_nil_r|]. intros s1 s2 s3 (es1 & E1 & M1) (es2 & E2 & M2). exists (es1 ++ es2).
  by rewrite E2, E1, M2, M1, endedIn_app, !app_assoc.
Qed.

Lemma grows_ask A (o : Op A) s : direct o = true → grows s (ask o s).2.
Proof.
  intros Ho. pose proof (messages_direct o (world s) Ho) as Hm. exists []. unfold ask. cbn.
  destruct (answerOf o (world s)). cbn in *. by rewrite !app_nil_r.
Qed.

Lemma grows_emit e : keeps grows (emit e).
Proof.
  intros s. pose proof (messages_deliver e (world s)) as Hm. exists [e]. unfold emit, observe, modify, ask, mbind, Eff_bind.
  cbn -[deliverEvent endedIn]. destruct (deliverEvent e (world s)) as [[] w]; cbn -[endedIn] in *; (split; [|done]);
    unfold eventsIn; by rewrite omap_app.
Qed.

Lemma grows_consume m : keeps grows (consumeCancellation m).
Proof.
  intros s. exists []. rewrite !app_nil_r. unfold consumeCancellation. cbn [has agent_env negb].
  unfold ask, mbind, Eff_bind, observe, modify.
  change (perform (ConsumeCancellation m) (world s)) with (consumeQueuedMessageCancellation m (world s)).
  assert (Hm : messagesOf (consumeQueuedMessageCancellation m (world s)).2 = messagesOf (world s)).
  { unfold consumeQueuedMessageCancellation. destruct (messageRef m); [|done]. cbn. by destruct (bool_decide _). }
  destruct (consumeQueuedMessageCancellation m (world s)) as [[] w]; cbn in *; (split; [|done]); [|done].
  unfold eventsIn. rewrite omap_app. apply app_nil_r.
Qed.

Lemma grows_all (s s' : LoopState (World X)) : s'.(world) = s.(world) → eventsIn s'.(trace) = eventsIn s.(trace) → grows s s'.
Proof. intros Ew Ee. exists []. by rewrite Ew, Ee, !app_nil_r. Qed.

Lemma grows_calm (s s' : LoopState (World X)) : s'.(world) = s.(world) → sameResources s s' →
  eventsIn s'.(trace) = eventsIn s.(trace) → grows s s'.
Proof. intros Ew _. by apply grows_all. Qed.

#[local] Hint Resolve grows_ask grows_emit grows_consume grows_all grows_calm grows_preorder : keep.

Lemma grows_batch message config seen : keeps grows (executeToolCalls message config seen).
Proof. keep. Qed.
#[local] Hint Resolve grows_batch : keep.

Lemma grows_run fuel streamFuel prompts config : keeps grows (runAgentLoop fuel streamFuel prompts config).
Proof. unfold runAgentLoop. keep. Qed.

(** ** What calls leave *)

Definition grew (w w' : World X) : Prop := ∃ es, eventsIn w'.(w_trace) = eventsIn w.(w_trace) ++ es ∧
  messagesOf w' = messagesOf w ++ endedIn es.

#[export] Instance grew_preorder : PreOrder grew.
Proof.
  split; [intros w; exists []; by rewrite !app_nil_r|]. intros w1 w2 w3 (es1 & E1 & M1) (es2 & E2 & M2). exists (es1 ++ es2).
  by rewrite E2, E1, M2, M1, endedIn_app, !app_assoc.
Qed.
#[local] Hint Resolve grew_preorder : keep.

Lemma grew_same w w' : w_trace w' = w_trace w → messagesOf w' = messagesOf w → grew w w'.
Proof. intros Et Em. exists []. by rewrite Et, Em, !app_nil_r. Qed.

Lemma grew_agent f : (∀ a, ag_messages (f a) = ag_messages a) → keeps grew (modify (onAgent f)).
Proof. intros Hf. apply keeps_modify. intros w. apply grew_same; [done|apply Hf]. Qed.
#[local] Hint Extern 2 (keeps _ (modify (onAgent _))) => apply grew_agent; done : keep.

Lemma trace_consult {A} (o : Op A) w : w_trace (consult o w).2 = w_trace w.
Proof. pose proof (settled_consult o w) as Hs. unfold settledPart in Hs. congruence. Qed.

Lemma grew_pass : keeps grew pass.
Proof. apply keeps_modify. intros w. apply grew_same; [apply trace_consult|apply messages_consult]. Qed.

Lemma process_grows e w : eventsIn (w_trace (processEvents e w).2) = eventsIn w.(w_trace) ++ [e] ∧
  messagesOf (processEvents e w).2 = messagesOf w ++ endedIn [e].
Proof.
  rewrite process_world. set (w1 := w <| w_trace := w_trace w ++ [OEvent e] |>). split; [|by rewrite messages_deliver].
  pose proof (settled_deliver e w1) as Hs. unfold settledPart in Hs. injection Hs as -> _. unfold eventsIn. cbn. by rewrite omap_app.
Qed.

Lemma grew_process e : keeps grew (processEvents e).
Proof. intros w. exists [e]. apply process_grows. Qed.
#[local] Hint Resolve grew_pass grew_process : keep.

Lemma grew_failure e : keeps grew (handleRunFailure e).
Proof. unfold handleRunFailure. keep. Qed.
#[local] Hint Resolve grew_failure : keep.

Lemma grew_lifecycle executor : keeps grew executor → keeps grew (runWithLifecycle executor).
Proof. intros He. unfold runWithLifecycle, startRun, finishRun. keep. Qed.

Lemma grew_loop {B} (m : Eff (LoopState (World X)) B) : keeps grows m → keeps untouched m → keeps grew (onLoop m).
Proof.
  intros Hg Hu w. unfold onLoop. set (s0 := initialState w _ _). specialize (Hg s0). specialize (Hu s0).
  destruct (m s0) as [r s]. destruct Hg as (es & Ee & Em). unfold untouched, settledPart in Hu. injection Hu as Hu _.
  cbn in *. exists es. cbn. rewrite Hu. split; [|done]. unfold eventsIn in *. by rewrite omap_app, Ee.
Qed.

Context (fuel streamFuel : nat).

Lemma grew_prompts messages skip : keeps grew (runPromptMessages fuel streamFuel messages skip).
Proof. apply grew_lifecycle. keep. apply grew_loop; [apply grows_run|apply untouched_run]. Qed.
#[local] Hint Resolve grew_prompts : keep.

Lemma grew_newInputs bodies : keeps grew (newInputs bodies).
Proof. unfold newInputs. induction bodies; cbn [mapEff]; keep. intros w. by apply grew_same. Qed.
#[local] Hint Resolve grew_newInputs : keep.

Lemma grew_prompt bodies : keeps grew (prompt fuel streamFuel bodies).
Proof. unfold prompt. keep. Qed.

(** ** Runs that return *)

(** The record of a run that failed. *)
Definition failedIn (new : list AgentMessage) : Prop := ∃ a, MAssistant None a ∈ new ∧
  (a.(a_stopReason) = ReasonError ∨ a.(a_stopReason) = ReasonAborted) ∧ is_Some a.(a_errorMessage).

Lemma failure_recorded e w w' : handleRunFailure e w = (Ret tt, w') →
  ∃ new, messagesOf w' = messagesOf w ++ new ∧ failedIn new.
Proof.
  intros Hr. apply (wp_return True (handleRunFailure e) (λ _ w', ∃ new, messagesOf w' = messagesOf w ++ new ∧ failedIn new)
    (λ _ _, True) w tt w'); [|exact Hr]. clear Hr w'. unfold handleRunFailure. apply wp_bind, wp_gets, wp_bind, wp_gets, wp_bind.
  set (fm := createFailureMessage _ _ _).
  assert (Hf : ∀ es, failedIn (endedIn [MessageEnd (MAssistant None fm)] ++ es)).
  { intros es. exists fm. split_and!; [by left| |by eexists]. subst fm. cbn. destruct (bool_decide _); auto. }
  assert (Hg : ∀ A (m : Eff (World X) A) (Q : A → World X → Prop) w0, keeps grew m → (∀ a w1, grew w0 w1 → Q a w1) → wp True m Q (λ _ _, True) w0).
  { intros A m Q w0 Hm HQ. eapply wp_mono; [by apply (keeps_wp grew)|..]; cbn; auto. }
  pose proof (process_grows (MessageStart (MAssistant None fm)) w) as [_ M1]. unfold wp at 1.
  destruct (processEvents (MessageStart (MAssistant None fm)) w) as [[[]| |] w1]; [|done..]. apply wp_bind.
  pose proof (process_grows (MessageEnd (MAssistant None fm)) w1) as [_ M2]. unfold wp at 1.
  destruct (processEvents (MessageEnd (MAssistant None fm)) w1) as [[[]| |] w2]; [|done..].
  cbn -[endedIn] in M1, M2. rewrite app_nil_r in M1. rewrite M1 in M2.
  apply Hg; [keep|]. intros _ w3 (es & _ & M3). exists (endedIn [MessageEnd (MAssistant None fm)] ++ endedIn es).
  split; [|apply Hf]. by rewrite M3, M2, app_assoc.
Qed.

Lemma committed_events tr : d_committed (delta tr) = endedIn (eventsIn tr).
Proof. induction tr as [|[[]| | | | | | |] tr IH]; cbn in *; rewrite ?IH; reflexivity. Qed.

Lemma loop_answers prompts config w w' : Forall (λ m, plain m = true) prompts →
  onLoop (runAgentLoop fuel streamFuel prompts config) w = (Ret tt, w') →
  ∃ new, messagesOf w' = messagesOf w ++ new ∧ callsAnswered [] new = true.
Proof.
  intros Hp. unfold onLoop.
  pose proof (grows_run fuel streamFuel prompts config (initialState w (createContextSnapshot (w_agent w)) (ag_criticalToolLoopSeen (w_agent w)))) as Hg.
  destruct (runAgentLoop fuel streamFuel prompts config _) as [[ms|e|] s] eqn:E; intros [= <-].
  pose proof (run_result _ _ _ _ _ _ _ _ _ Hp E) as Hr. destruct Hg as (es & Ee & Em). exists ms. split; [|by apply Hr].
  cbn in Ee, Em |- *. rewrite Em. f_equal. by rewrite <-(rr_committed _ _ _ _ Hr), committed_events, Ee.
Qed.

Lemma lifecycle_returns executor (P : list AgentMessage → Prop) w w' :
  (∀ w1 w2, messagesOf w1 = messagesOf w → executor w1 = (Ret tt, w2) → ∃ new, messagesOf w2 = messagesOf w1 ++ new ∧ P new) →
  keeps grew executor → runWithLifecycle executor w = (Ret tt, w') →
  ∃ new, messagesOf w' = messagesOf w ++ new ∧ (P new ∨ failedIn new).
Proof.
  intros He Hk. unfold runWithLifecycle. unfold gets, mbind, Eff_bind. destruct (isActive w); [done|]. unfold startRun, modify at 1.
  set (w1 := onAgent _ w). assert (M1 : messagesOf w1 = messagesOf w) by done. unfold tryFinally, tryCatch.
  pose proof (Hk w1) as Hw2. specialize (He w1). destruct (executor w1) as [[[]|e|] w2]; [..|done].
  - destruct (He w2 M1 eq_refl) as (new & M2 & Hn). cbn -[consult onAgent]. intros [= <-]. exists new.
    split; [|by left]. cbn. by rewrite messages_consult, M2, M1.
  - cbn -[consult handleRunFailure onAgent].
    destruct (handleRunFailure e (consult Tick w2).2) as [[[]|e'|] w3] eqn:Ef; [|done..].
    apply failure_recorded in Ef as (new & M3 & Hf). cbn -[consult onAgent]. intros [= <-].
    destruct Hw2 as (es & _ & M2). exists (endedIn es ++ new). split.
    + clear M1. cbn in *. by rewrite messages_consult, M3, messages_consult, M2, app_assoc.
    + right. destruct Hf as (a & Ha & ?). exists a. split; [set_solver|done].
Qed.

(** A prompt that is taken: the transcript goes on with answered calls, or with
    the record of the failure. *)
Lemma prompts_return l skip w w' : runPromptMessages fuel streamFuel (inputMessage <$> l) skip w = (Ret tt, w') →
  ∃ new, messagesOf w' = messagesOf w ++ new ∧ (callsAnswered [] new = true ∨ failedIn new).
Proof.
  apply (lifecycle_returns _ (λ new, callsAnswered [] new = true)).
  - intros w1 w2 M1. unfold modify, gets, mbind, Eff_bind. cbn -[onLoop].
    intros (new & ? & ?)%loop_answers; [by exists new|apply inputs_plain].
  - keep. apply grew_loop; [apply grows_run|apply untouched_run].
Qed.
End transcript.

(** ** Calls that end *)

(** No run: what belongs to runs is gone. *)
Record Idle (a : Agent) : Prop := {
  idle_run : a.(ag_activeRun) = None;
  idle_streaming : a.(ag_isStreaming) = false;
  idle_message : a.(ag_streamingMessage) = None;
  idle_calls : a.(ag_pendingToolCalls) = [];
  idle_flight : inFlightIn a = []
}.

Section life.
Context {X : Type} `{Outside X} `{!OutsideDry}.
Implicit Types w : World X.

(** A computation that is not cut off. *)
Abbreviation total m w := (wp False m (λ _ _, True) (λ _ _, True) w).

(** One that is not cut off and leaves the agent idle. *)
Definition settles {B} (m : Eff (World X) B) (w : World X) : Prop :=
  wp False m (λ _ w', Idle w'.(w_agent)) (λ _ w', Idle w'.(w_agent)) w.

Lemma process_total e w : total (processEvents e) w.
Proof. unfold processEvents, wp, mbind, Eff_bind. cbn. by destruct (deliverEvent _ _) as [[|] ?]. Qed.

Lemma process_then {B} e (k : unit → Eff (World X) B) w : (∀ w', total (k tt) w') → total (processEvents e ≫= k) w.
Proof. intros Hk. apply wp_bind. eapply wp_mono; [apply process_total| |done]. intros [] w' _. apply Hk. Qed.

Lemma failure_total e w : total (handleRunFailure e) w.
Proof.
  unfold handleRunFailure. apply wp_bind, wp_gets, wp_bind, wp_gets. do 3 (apply process_then; intros ?).
  apply wp_bind, wp_gets. apply wp_bind. apply (wp_mono False _ (λ _ _, True) _ (λ _ _, True)); [|intros; apply process_total|done].
  destruct (_ && _); [|by apply wp_ret]. do 2 (apply process_then; intros ?). apply wp_bind. by apply wp_modify, wp_ret.
Qed.

Lemma finish_idle w : Idle (finishRun w).2.(w_agent).
Proof. by split. Qed.

Lemma lifecycle_settles executor w : isActive w = false → total executor (startRun w).2 → settles (runWithLifecycle executor) w.
Proof.
  intros Ha He. unfold settles, runWithLifecycle. apply wp_bind, wp_gets. rewrite Ha. apply wp_bind, wp_modify, wp_finally.
  apply (wp_mono False _ (λ _ _, True) _ (λ _ _, True)); [|intros; apply finish_idle|intros; apply finish_idle].
  apply wp_catch, wp_bind. eapply wp_mono; [exact He| |]; cbn beta; intros ? w1 _; [by apply wp_modify|].
  apply wp_bind, wp_modify, wp_bind. eapply wp_mono; [apply failure_total| |done]. intros ? w2 _. by apply wp_modify.
Qed.

Lemma loop_total {B} (m : Eff (LoopState (World X)) B) w :
  dries m (λ _ _, True) (initialState w (createContextSnapshot w.(w_agent)) w.(w_agent).(ag_criticalToolLoopSeen)) →
  total (onLoop m) w.
Proof. unfold dries, wp, onLoop. by destruct (m _) as [[] s]. Qed.

Context (fuel streamFuel : nat).

(** Fuel for all that is said. *)
Definition enough (w : World X) : Prop := (worldBudget w ≤ streamFuel ∧ 2 * worldBudget w + 1 ≤ fuel)%nat.

Lemma prompts_settle messages skip w : isActive w = false → enough w → settles (runPromptMessages fuel streamFuel messages skip) w.
Proof.
  intros Ha [Hs Hf]. apply lifecycle_settles; [done|]. apply wp_bind, wp_modify, wp_bind, wp_gets, loop_total. by apply core_dries.
Qed.

Lemma continuation_settles w : isActive w = false → enough w → settles (runContinuation fuel streamFuel) w.
Proof.
  intros Ha [Hs Hf]. apply lifecycle_settles; [done|]. apply wp_bind, wp_modify, wp_bind, wp_gets, loop_total.
  unfold runAgentLoopContinue. unfold dries, wp. destruct (assertContinuableContext _) as [[]|[]]; [done..|].
  by apply core_dries.
Qed.

Lemma newInputs_total bodies : ∀ w, isActive w = false → enough w →
  wp False (newInputs bodies) (λ _ w', isActive w' = false ∧ enough w') (λ _ _, False) w.
Proof.
  induction bodies as [|body bodies IH]; intros w Ha He; [by apply wp_ret|]. unfold newInputs. cbn [mapEff]. apply wp_bind.
  unfold wp at 1. cbn. apply wp_bind. eapply wp_mono; [by apply IH| |done]. intros l w' Hw. by apply wp_ret.
Qed.

(** A prompt of an agent without a run. *)
Lemma prompt_settles bodies w : isActive w = false → enough w → settles (prompt fuel streamFuel bodies) w.
Proof.
  intros Ha He. unfold settles, prompt. apply wp_bind, wp_gets. rewrite Ha. apply wp_bind, wp_modify, wp_bind.
  eapply wp_mono; [by apply newInputs_total| |done]. cbn beta. intros l w' [Ha' He']. by apply prompts_settle.
Qed.

Lemma idle_inactive w : Idle w.(w_agent) → isActive w = false.
Proof. intros [Hr]. unfold isActive. by rewrite Hr. Qed.

Definition ready w : Prop := Idle w.(w_agent) ∧ enough w.

(** Messages for the next run, or none; nothing else moves. *)
Lemma drained_then {B} (d : Eff (World X) (list Input)) (k : Eff (World X) B) (run : list Input → Eff (World X) B) w :
  wp False d (λ l w', isActive w' = false ∧ enough w' ∧ (l = [] → Idle w'.(w_agent))) (λ _ _, False) w →
  (∀ l w', isActive w' = false → enough w' → settles (run l) w') → (∀ w', ready w' → settles k w') →
  settles (l ← d; match l with [] => k | _ :: _ => run l end) w.
Proof.
  intros Hd Hr Hk. apply wp_bind. eapply wp_mono; [exact Hd| |done]. cbn beta.
  intros [|i l] w' (Ha & He & Hi); [apply Hk; split; auto|by apply Hr].
Qed.

Lemma no_flight a : inFlightIn a = [] → pq_inFlight (ag_steering a) = [] ∧ pq_inFlight (ag_followUps a) = [].
Proof. unfold inFlightIn, refsOf. intros Hf%fmap_nil_inv. by apply app_nil in Hf. Qed.

Lemma drain_empty q : pq_inFlight q = [] → (drain q).1 = [] → pq_inFlight (drain q).2 = [].
Proof. intros Hq Hd. cbn in *. by rewrite Hq, Hd. Qed.

(** A queue is drained if [b]. *)
Lemma maybe_drain (b : bool) (d : Eff (World X) (list Input)) (queue : Agent → PendingMessageQueue)
    (set : PendingMessageQueue → Agent → Agent) w : ready w →
  (∀ w, d w = (Ret (drain (queue w.(w_agent))).1, onAgent (set (drain (queue w.(w_agent))).2) w)) →
  (∀ q, ag_activeRun (set q w.(w_agent)) = ag_activeRun w.(w_agent)) →
  cancelledIn (set (drain (queue w.(w_agent))).2 w.(w_agent)) = cancelledIn w.(w_agent) →
  ((drain (queue w.(w_agent))).1 = [] → Idle (set (drain (queue w.(w_agent))).2 w.(w_agent))) →
  wp False (if b then d else mret []) (λ l w', isActive w' = false ∧ enough w' ∧ (l = [] → Idle w'.(w_agent))) (λ _ _, False) w.
Proof.
  intros [Hi He] Hd Hr Hc Hn. destruct b; [|apply wp_ret; auto using idle_inactive]. unfold wp. rewrite Hd.
  split_and!; [|unfold enough, worldBudget, pendingCancels in *; cbn -[drain]; by rewrite Hc|exact Hn].
  pose proof (idle_inactive w Hi) as Ha. unfold isActive in *. cbn -[drain]. by rewrite Hr.
Qed.

Lemma continue_settles w : ready w → settles (continueRun fuel streamFuel) w.
Proof.
  intros Hw. unfold settles, continueRun. apply wp_bind, wp_gets. rewrite (idle_inactive w); [|apply Hw].
  apply wp_bind, wp_gets. destruct (last (ag_messages (w_agent w))) as [m|]; [|apply wp_throw, Hw].
  set (b := match m with MAssistant _ _ | MToolResult _ _ => true | _ => false end). clearbody b.
  apply (drained_then _ _ (λ l, runPromptMessages fuel streamFuel (inputMessage <$> l) true)).
  - apply (maybe_drain _ _ ag_steering (λ q a, a <| ag_steering := q |>)); try done.
    destruct Hw as [[? ? ? ? [Hs Hf]%no_flight] _]. intros Hd%(drain_empty _ Hs). split; try done. unfold inFlightIn. cbn in *.
    by rewrite Hd, Hf.
  - intros l w' Ha He. by apply prompts_settle.
  - clear w Hw. intros w Hw. apply (drained_then _ _ (λ l, runPromptMessages fuel streamFuel (inputMessage <$> l) false)).
    + apply (maybe_drain _ _ ag_followUps (λ q a, a <| ag_followUps := q |>)); try done.
      destruct Hw as [[? ? ? ? [Hs Hf]%no_flight] _]. intros Hd%(drain_empty _ Hf). split; try done. unfold inFlightIn. cbn in *.
      by rewrite Hd, Hs.
    + intros l w' Ha He. by apply prompts_settle.
    + clear w Hw. intros w [Hi He]. destruct m; try (apply continuation_settles; [by apply idle_inactive|done]); by apply wp_throw.
Qed.

(** ** What calls spend *)

Definition spends w w' : Prop := (worldBudget w' ≤ worldBudget w)%nat.

#[export] Instance spends_preorder : PreOrder spends.
Proof. split; [by intros w; unfold spends|]. intros w1 w2 w3 H1 H2. unfold spends in *. lia. Qed.
#[local] Hint Resolve spends_preorder : keep.

Lemma spends_agent f : (∀ a, cancelledIn (f a) = cancelledIn a) → keeps spends (modify (onAgent f)).
Proof. intros Hf. apply keeps_modify. intros w. unfold spends, worldBudget, pendingCancels. cbn. by rewrite Hf. Qed.
#[local] Hint Extern 2 (keeps _ (modify (onAgent _))) => apply spends_agent; done : keep.

Lemma spends_pass : keeps spends pass.
Proof. apply keeps_modify. intros w. apply budget_consults. Qed.

Lemma spends_process e : keeps spends (processEvents e).
Proof.
  intros w. rewrite process_world. set (w1 := w <| w_trace := _ |>). exact (budget_step _ (EmitEvent e) w1).
Qed.
#[local] Hint Resolve spends_pass spends_process : keep.

Lemma spends_failure e : keeps spends (handleRunFailure e).
Proof. unfold handleRunFailure. keep. Qed.
#[local] Hint Resolve spends_failure : keep.

Lemma spends_lifecycle executor : keeps spends executor → keeps spends (runWithLifecycle executor).
Proof. intros He. unfold runWithLifecycle, startRun, finishRun. keep. Qed.

Lemma spends_loop {B} (m : Eff (LoopState (World X)) B) : keeps less m → keeps spends (onLoop m).
Proof.
  intros Hm w. unfold onLoop. set (s0 := initialState w _ _). specialize (Hm s0). by destruct (m s0).
Qed.

Lemma spends_prompts messages skip : keeps spends (runPromptMessages fuel streamFuel messages skip).
Proof. apply spends_lifecycle. keep. apply spends_loop, less_run. Qed.

Lemma spends_continuation : keeps spends (runContinuation fuel streamFuel).
Proof.
  apply spends_lifecycle. keep. apply spends_loop. intros s. unfold runAgentLoopContinue.
  destruct (assertContinuableContext _) as [[]|[]]; [reflexivity..|]. apply less_run.
Qed.
#[local] Hint Resolve spends_prompts spends_continuation : keep.

Lemma spends_newInputs bodies : keeps spends (newInputs bodies).
Proof. unfold newInputs. induction bodies; cbn [mapEff]; keep. intros w. exact (le_n _). Qed.
#[local] Hint Resolve spends_newInputs : keep.

Lemma spends_prompt bodies : keeps spends (prompt fuel streamFuel bodies).
Proof. unfold prompt. keep. Qed.

Lemma spends_continue : keeps spends (continueRun fuel streamFuel).
Proof. unfold continueRun. keep; intros w; exact (le_n _). Qed.
End life.
