(* ===== verification/ScriptedOutside.v ===== *)
(** * An outside that follows a script

    The provider, the tools and the listeners of [ScriptedWorld], and callers
    that give their orders at given times: the concrete outside that the
    examples of the agent run in. *)
From S2P Require Import Prelude JsStrings Effects AgentMessages ToolBatch AgentLoop ScriptedWorld Agent.
From S2P Require Import AgentDelivery AgentLife.

(** What callers may ask for. *)
Class Orders (O : Type) := orderCommand : O → Command.

#[export] Instance command_orders : Orders Command := λ c, c.

(** Orders that neither clear a queue nor replace the transcript. *)
Inductive Order :=
| OSteer (text : string)
| OFollowUp (text : string)
| OWithdraw (r : nat)
| OAbort (reason : string) (handoff : bool).

#[export] Instance order_orders : Orders Order := λ o,
  match o with
  | OSteer text => CSteer (InUser (CString text))
  | OFollowUp text => CFollowUp (InUser (CString text))
  | OWithdraw r => CCancelSteering (isRef r)
  | OAbort reason handoff => CAbort (newError reason) handoff
  end.

Record Scene (O : Type) := { sn_script : Script; sn_orders : list (nat * O) }.

Arguments sn_script {O}.
Arguments sn_orders {O}.

(** [o] is due after [t] consultations. *)
Definition due {O} (t : nat) (o : nat * O) : bool := bool_decide (o.1 = t).

#[export] Instance scene_outside {O} `{Orders O} : Outside (Scene O) := {
  answers A o _ x :=
    let '(r, s) := ScriptedWorld.answerOf o x.(sn_script) in
    let now := s.(sc_time) in
    (r, orderCommand ∘ snd <$> List.filter (due now) x.(sn_orders),
     {| sn_script := s <| sc_time ::= S |>; sn_orders := List.filter (λ o, negb (due now o)) x.(sn_orders) |});
  outsideHas _ := true
}.

Lemma order_commands {O} `{Orders O} (P : Command → Prop) : (∀ o, P (orderCommand o)) →
  ∀ A (o : Op A) a (x : Scene O), Forall P (answers o a x).1.2.
Proof.
  intros Hp A o a x. cbn. destruct (ScriptedWorld.answerOf o (sn_script x)). cbn. apply Forall_fmap, Forall_true.
  intros y. apply Hp.
Qed.

#[export] Instance scene_unclearing : Unclearing (Scene Order).
Proof. intros A o a x. apply (order_commands (λ c, clears c = false)). by intros []. Qed.

#[export] Instance scene_unassigning : Unassigning (Scene Order).
Proof. intros A o a x. apply (order_commands (λ c, assigns c = false)). by intros []. Qed.

(** The answers that are left, and the orders. *)
Definition sceneBudget {O} (x : Scene O) : nat := (length x.(sn_script).(sc_answers) + length x.(sn_orders))%nat.

Lemma orders_split {O} (p : O → bool) (l : list O) :
  length l = (length (List.filter p l) + length (List.filter (λ o, negb (p o)) l))%nat.
Proof. induction l as [|o l IH]; [done|]. cbn. destruct (p o); cbn; lia. Qed.

Lemma withdrawals_length cs : (withdrawals cs ≤ length cs)%nat.
Proof. apply List.filter_length_le. Qed.

Lemma scene_budget {O} `{Orders O} {A} (o : Op A) a (x : Scene O) :
  (sceneBudget (answers o a x).2 + withdrawals (answers o a x).1.2 ≤
     length (ScriptedWorld.answerOf o x.(sn_script)).2.(sc_answers) + length x.(sn_orders))%nat.
Proof.
  cbn. destruct (ScriptedWorld.answerOf o (sn_script x)) as [r s]. cbn. unfold sceneBudget. cbn.
  rewrite (orders_split (due (sc_time s)) (sn_orders x)).
  etrans; [apply Nat.add_le_mono_l, withdrawals_length|]. rewrite length_fmap. lia.
Qed.

Lemma answers_fewer {A} (o : Op A) s : (length (ScriptedWorld.answerOf o s).2.(sc_answers) ≤ length s.(sc_answers))%nat.
Proof.
  destruct o; cbn; try done.
  - by destruct (sc_steering s).
  - destruct (messageRef message); [|done]. by case_bool_decide.
  - destruct (sc_answers s) eqn:E; cbn; rewrite ?E; cbn; lia.
  - by destruct (sc_current s).
Qed.

#[export] Instance scene_dry {O} `{Orders O} : OutsideDry (X := Scene O).
Proof.
  refine {| obudget := sceneBudget |}.
  - intros A o a x. pose proof (scene_budget o a x). pose proof (answers_fewer o (sn_script x)). unfold sceneBudget in *. lia.
  - intros config ctx a x cs x' E. pose proof (scene_budget (OpenStream config ctx) a x) as Hb. rewrite E in Hb.
    assert (Hs : (length (ScriptedWorld.answerOf (OpenStream config ctx) x.(sn_script)).2.(sc_answers) < length x.(sn_script).(sc_answers))%nat).
    { revert E. cbn. destruct (sc_answers (sn_script x)); cbn; [by intros [= ]|lia]. }
    unfold sceneBudget in *. cbn [fst snd] in Hb. lia.
  - intros e a x cs x'. cbn. by intros [= ].
Defined.

(** ** A stage *)

Definition stage {O} (answers : list AssistantMessage) (orders : list (nat * O)) : Scene O :=
  {| sn_script := {| sc_answers := answers; sc_current := None; sc_steering := []; sc_cancelled := []; sc_time := 0;
                     sc_abortAt := None |}; sn_orders := orders |}.

Definition sampleAgent : Agent :=
  createAgent {| opt_systemPrompt := None; opt_model := Some plainModel; opt_thinkingLevel := None;
                 opt_tools := Some [fetchTool]; opt_messages := None; opt_steeringMode := None; opt_followUpMode := None;
                 opt_toolExecution := None |}.

Definition opening {O} (x : Scene O) : World (Scene O) :=
  {| w_agent := sampleAgent; w_outside := x; w_next := 0; w_fates := []; w_trace := [] |}.

(** Messages of users in a transcript: who they are from. *)
Definition usersIn (l : list AgentMessage) : list (option nat) :=
  omap (λ m, match m with MUser r _ => Some r | _ => None end) l.
