(* ===== verification/AgentPromises.v ===== *)
(** * What an agent promises

    For every sequence of calls and whatever callers do while a run waits: no
    message of a caller is lost or delivered twice, a withdrawn one is never
    delivered, a prompt ends and leaves the agent idle, and the transcript is
    extended by what the run announced. *)
From S2P Require Import Prelude JsStrings Effects AgentMessages ToolBatch AgentLoop AgentLoopFacts LoopSteps ScriptedWorld.
From S2P Require Import Agent AgentQueues AgentDelivery AgentHands AgentCalls AgentLife ScriptedOutside.

(** ** Calls *)

Inductive Call :=
| CallPrompt (bodies : list InputBody)
| CallContinue
| CallCommand (c : Command)
| CallReset.

(** Calls that clear no queue. *)
Definition clearsNothing (c : Call) : bool :=
  match c with CallPrompt _ | CallContinue => true | CallCommand c => negb (clears c) | CallReset => false end.

(** Nothing was asked of the agent. *)
Record Fresh {X} (w : World X) : Prop := {
  fresh_queues : queued w.(w_agent) = [];
  fresh_fates : w.(w_fates) = [];
  fresh_trace : w.(w_trace) = []
}.

Section calls.
Context {X : Type} `{Outside X} (fuel streamFuel : nat).
Implicit Types w : World X.

Definition call (c : Call) : Eff (World X) unit :=
  match c with
  | CallPrompt bodies => prompt fuel streamFuel bodies
  | CallContinue => continueRun fuel streamFuel
  | CallCommand c => modify (λ w, applyCommand w c)
  | CallReset => modify reset
  end.

(** Callers go on after a call that was rejected. *)
Definition calls (cs : list Call) : Eff (World X) unit := forEach (λ c, tryCatch (call c) (λ _, mret tt)) cs.

(** Calls that start with [P] and [n] more of something, and end with [P]. *)
Lemma calls_wp T (P : World X → Prop) (ok : Call → Prop) cs :
  (∀ w c, ok c → P w → wp T (call c) (λ _, P) (λ _, P) w) → Forall ok cs → ∀ w, P w → wp T (calls cs) (λ _, P) (λ _, P) w.
Proof.
  intros Hc Hok. unfold calls. induction Hok as [|c cs Hk _ IH]; intros w Hw; [done|]. cbn [forEach].
  apply wp_bind, wp_catch. eapply wp_mono; [by apply (Hc w c)|..]; cbn beta; [by intros _|]. intros _ w' Hw'. apply wp_ret. by apply IH.
Qed.

Lemma ledgerStep_call c : keeps ledgerStep (call c).
Proof.
  destruct c; unfold call.
  - apply ledgerStep_prompt.
  - apply ledgerStep_continue.
  - apply keeps_modify. intros w Hl. by apply ledger_command.
  - apply keeps_modify. intros w Hl. unfold reset. apply ledger_commands. by apply ledger_agent.
Qed.

Lemma ledgerStep_calls cs : keeps ledgerStep (calls cs).
Proof. apply keeps_forEach; [apply _|]. intros c. apply keeps_catch; [apply _|apply ledgerStep_call|]. intros _. apply keeps_ret, _. Qed.

Lemma fresh_ledger w : Fresh w → Ledger w.
Proof.
  intros [Hq Hf Ht]. split; rewrite Hf; cbn; [by rewrite Hq|constructor|]. intros r Hr. by apply not_elem_of_nil in Hr.
Qed.


Section delivered.
Context `{!Unclearing X}.

Lemma delivered_call w c : clearsNothing c = true → worldHands [] w → wp True (call c) (λ _, worldHands []) (λ _, worldHands []) w.
Proof.
  destruct c; unfold call; intros Hc Hw; [..|discriminate Hc].
  - by apply delivers_prompt.
  - by apply delivers_continue.
  - apply negb_true_iff in Hc. apply wp_modify. unfold worldHands. pose proof (settled_command w c) as Hs.
    injection Hs as -> _. by apply (hands_commands _ [c]); [repeat constructor|].
Qed.

Lemma fresh_hands w : Fresh w → worldHands [] w.
Proof.
  intros Hf. pose proof (fresh_ledger w Hf) as Hl. destruct Hf as [Hq Hf Ht]. apply hands_nil. rewrite Ht.
  split; rewrite ?Hf; try done; [constructor|by intros r Hr%not_elem_of_nil..].
Qed.

Lemma announced_is_committed w tr : Delivered w tr →
  filter (.∈ accepted w.(w_fates)) (announced tr) ≡ₚ committed w.(w_fates).
Proof.
  intros [Hl Hu Ho _ Hs Hc]. pose proof (lg_conserved _ Hl) as Ha. rewrite Hu, app_nil_r in Ha.
  pose proof (lg_once _ Hl) as Hn. rewrite Ha in Hn. apply NoDup_app in Hn as (_ & _ & Hn). apply NoDup_app in Hn as (Hn & _ & _).
  apply NoDup_Permutation; [by apply NoDup_filter|done|]. intros r. rewrite list_elem_of_filter, Ha, !elem_of_app. split.
  - intros [[Hq|[Hr|Hw]] Hr']; [|done|]; by destruct (Hs r Hr').
  - intros Hr. split; [by auto|by apply Hc].
Qed.

(** C1: while nobody clears a queue, no message is announced to the transcript
    twice, and every message that callers queued waits in a queue, is held by a
    run, was announced, or was withdrawn, and only one of these: a withdrawn
    message is never announced, also when a run had already drained it. *)
Theorem queued_messages_are_delivered_once cs w : Fresh w → Forall (λ c, clearsNothing c = true) cs →
  (calls cs w).1 = Ret tt → let w' := (calls cs w).2 in
  NoDup (announced w'.(w_trace)) ∧ NoDup (accepted w'.(w_fates)) ∧
  accepted w'.(w_fates) ≡ₚ waitingIn w'.(w_agent) ++ inFlightIn w'.(w_agent) ++
    filter (.∈ accepted w'.(w_fates)) (announced w'.(w_trace)) ++ withdrawn w'.(w_fates).
Proof.
  intros Hf%fresh_hands Hok Hr w'. assert (Hw : worldHands [] w').
  { pose proof (calls_wp True (worldHands []) _ cs delivered_call Hok w Hf) as Hw. unfold wp in Hw. subst w'.
    destruct (calls cs w) as [[]]; try discriminate Hr. exact Hw. }
  destruct Hw as [Hd _ _]. pose proof (dl_ledger _ _ Hd) as Hl. split_and!; [apply Hd|apply Hl|].
  rewrite (announced_is_committed _ _ Hd). etrans; [apply (lg_conserved _ Hl)|].
  by rewrite (dl_uncleared _ _ Hd), app_nil_r, queued_parts, <-app_assoc.
Qed.
End delivered.

(** ** Calls end *)

Section ending.
Context `{!OutsideDry}.

Definition atRest (w : World X) : Prop := ready fuel streamFuel w.

Lemma atRest_agent w w' : (worldBudget w' ≤ worldBudget w)%nat → Idle w'.(w_agent) →
  atRest w → atRest w'.
Proof. unfold atRest, ready, enough. intros Hb Hi [_ [Hs Hf]]. split; [done|]. lia. Qed.

Lemma idle_command w c : Idle w.(w_agent) → Idle (applyCommand w c).(w_agent).
Proof.
  intros [Hr Hs Hm Hc [Hf Hg]%no_flight]. unfold inFlightIn.
  destruct c; try (split; try done; unfold inFlightIn; cbn; by rewrite ?Hf, ?Hg).
  - cbn. unfold cancelFirst. rewrite Hf. cbn. destruct (spliceFirst p _) as [[i rest]|]; split; try done; unfold inFlightIn; cbn;
      by rewrite Hf, Hg.
  - cbn. unfold abort. rewrite Hr. split; try done. unfold inFlightIn. by rewrite Hf, Hg.
Qed.

Lemma budget_command w c : Idle w.(w_agent) → (worldBudget (applyCommand w c) ≤ worldBudget w)%nat.
Proof.
  intros [_ _ _ _ [Hf _]%no_flight]. unfold worldBudget. pose proof (outside_commands w [c]) as Ho. cbn in Ho. rewrite Ho.
  apply Nat.add_le_mono_l. pose proof (cancels_command w c) as Hc. destruct c; cbn [withdraws] in Hc; try lia.
  clear Hc. unfold pendingCancels, cancelledIn. cbn. unfold cancelFirst. rewrite Hf. cbn.
  by destruct (spliceFirst p _) as [[i rest]|].
Qed.

Lemma atRest_command w c : atRest w → atRest (applyCommand w c).
Proof.
  intros Hw. eapply atRest_agent; [apply budget_command|apply idle_command|exact Hw]; apply Hw.
Qed.

Lemma call_settles w c : atRest w → wp False (call c) (λ _, atRest) (λ _, atRest) w.
Proof.
  intros Hw. destruct c; unfold call.
  - eapply wp_mono; [apply (wp_keeps False spends); [apply spends_prompt|apply prompt_settles; [apply idle_inactive|]; apply Hw]|..]; cbn beta;
      intros ? w' [Hi Hs]; (eapply atRest_agent; [exact Hs|exact Hi|exact Hw]).
  - eapply wp_mono; [apply (wp_keeps False spends); [apply spends_continue|by apply continue_settles]|..]; cbn beta;
      intros ? w' [Hi Hs]; (eapply atRest_agent; [exact Hs|exact Hi|exact Hw]).
  - apply wp_modify. by apply atRest_command.
  - apply wp_modify. unfold reset. apply (atRest_command _ CClearFollowUps), (atRest_command _ CClearSteering).
    apply (atRest_agent w); [exact (le_n _)| |exact Hw]. by destruct Hw as [[] _].
Qed.

(** C7: with fuel for what the provider and the callers still have to say, every
    call comes back, accepted or rejected, and leaves an agent without a run: not
    streaming, with no tool call pending and no message held back. *)
Theorem calls_end_with_an_idle_agent cs w : Idle w.(w_agent) → (worldBudget w ≤ streamFuel)%nat →
  (2 * worldBudget w + 1 ≤ fuel)%nat → (calls cs w).1 = Ret tt ∧ Idle (calls cs w).2.(w_agent).
Proof.
  intros Hi Hs Hf. assert (Hw : wp False (calls cs) (λ _, atRest) (λ _ _, False) w).
  { revert w Hi Hs Hf. induction cs as [|c cs IH]; intros w Hi Hs Hf; [by apply wp_ret|]. unfold calls. cbn [forEach].
    apply wp_bind, wp_catch. eapply wp_mono; [by apply call_settles|..]; cbn beta; [intros [] w' [Hi' [Hs' Hf']]; by apply IH|].
    intros e w' [Hi' [Hs' Hf']]. apply wp_ret. by apply IH. }
  unfold wp in Hw. destruct (calls cs w) as [[[]| |] w']; [|done..]. split; [done|apply Hw].
Qed.
End ending.

(** ** The transcript grows by what is announced *)

Section growth.
Context `{!Unassigning X}.

Lemma newInputs_messages bodies : ∀ w,
  wp True (newInputs bodies) (λ _ w', ag_messages w'.(w_agent) = ag_messages w.(w_agent)) (λ _ _, True) w.
Proof.
  induction bodies as [|body bodies IH]; intros w; [by apply wp_ret|]. unfold newInputs. cbn [mapEff].
  apply wp_bind. unfold wp at 1. cbn. apply wp_bind. eapply wp_mono; [apply IH| |done]. intros l w' Hw. by apply wp_ret.
Qed.

Lemma prompt_returns bodies w w' : prompt fuel streamFuel bodies w = (Ret tt, w') →
  ∃ new, ag_messages w'.(w_agent) = ag_messages w.(w_agent) ++ new ∧ (callsAnswered [] new = true ∨ failedIn new).
Proof.
  intros Hr. refine (wp_return True (prompt fuel streamFuel bodies) (λ _ w', ∃ new, ag_messages w'.(w_agent) =
    ag_messages w.(w_agent) ++ new ∧ (callsAnswered [] new = true ∨ failedIn new)) (λ _ _, True) w tt w' _ Hr).
  unfold prompt. apply wp_bind, wp_gets. destruct (isActive w); [by apply wp_throw|]. apply wp_bind, wp_modify, wp_bind.
  eapply wp_mono; [apply newInputs_messages| |done]. cbn beta. intros l w1 Hm. unfold wp.
  destruct (runPromptMessages fuel streamFuel (inputMessage <$> l) false w1) as [[[]| |] w2] eqn:E; [|done..].
  apply prompts_return in E as (new & Em & Hn). exists new. by rewrite Em, Hm.
Qed.

(** C9: a prompt that is taken extends the transcript by the messages whose end
    it announced, in their order, and by nothing else; and these are messages in
    which every tool call is answered, or they record the failure of the run with
    its error. *)
Theorem prompt_extends_the_transcript bodies w w' : prompt fuel streamFuel bodies w = (Ret tt, w') →
  ∃ es, eventsIn w'.(w_trace) = eventsIn w.(w_trace) ++ es ∧
    ag_messages w'.(w_agent) = ag_messages w.(w_agent) ++ endedIn es ∧
    (callsAnswered [] (endedIn es) = true ∨ failedIn (endedIn es)).
Proof.
  intros Hr. destruct (grew_prompt fuel streamFuel bodies w) as (es & Ee & Em). rewrite Hr in Ee, Em. exists es.
  split_and!; [done..|]. destruct (prompt_returns _ _ _ Hr) as (new & En & Hn). cbn in Em. rewrite Em in En.
  by apply app_inv_head in En as ->.
Qed.
End growth.
End calls.

(** ** A performance *)

Definition answers_done : list AssistantMessage :=
  twoFetches :: replicate 4 (answerOfModel [BText "done"] ReasonStop).

(** Callers steer, queue a message for the end, and withdraw a message after the
    run drained it. *)
Definition played : World (Scene Order) :=
  opening (stage answers_done [(5%nat, OSteer "and this"); (6%nat, OSteer "or that"); (9%nat, OFollowUp "then this");
                               (66%nat, OWithdraw 2)]).

Definition playedCalls : list Call :=
  [CallCommand (CSteer (InUser (CString "first"))); CallPrompt [InUser (CString "look it up")]].

Definition afterPlay : World (Scene Order) := (calls 19 9 playedCalls played).2.

Lemma played_fresh : Fresh played.
Proof. by split. Qed.


Lemma queued_messages_are_delivered_once_witness :
  announced (w_trace afterPlay) = [1; 0; 3; 4]%nat ∧ withdrawn (w_fates afterPlay) = [2]%nat ∧
  let w' := (calls 19 9 playedCalls played).2 in
  NoDup (announced w'.(w_trace)) ∧ NoDup (accepted w'.(w_fates)) ∧
  accepted w'.(w_fates) ≡ₚ waitingIn w'.(w_agent) ++ inFlightIn w'.(w_agent) ++
    filter (.∈ accepted w'.(w_fates)) (announced w'.(w_trace)) ++ withdrawn w'.(w_fates).
Proof.
  split; [vm_compute; reflexivity|]. split; [vm_compute; reflexivity|].
  refine (queued_messages_are_delivered_once 19 9 playedCalls played played_fresh _ _).
  - by repeat constructor.
  - vm_compute. reflexivity.
Defined.

Lemma calls_end_with_an_idle_agent_witness :
  worldBudget played = 9%nat ∧ (calls 19 9 playedCalls played).1 = Ret tt ∧ Idle (calls 19 9 playedCalls played).2.(w_agent).
Proof.
  split; [reflexivity|].
  refine (calls_end_with_an_idle_agent 19 9 playedCalls played _ _ _); [by split|..]; vm_compute; lia.
Defined.

(** A run of one answer whose listeners go on. *)
Definition shortPlay : World (Scene Order) := opening (stage [answerOfModel [BText "done"] ReasonStop] []).

Lemma shortPlay_returns : prompt 3 1 [InUser (CString "hi")] shortPlay = (Ret tt, (prompt 3 1 [InUser (CString "hi")] shortPlay).2).
Proof. vm_compute. reflexivity. Qed.

Lemma prompt_extends_the_transcript_witness :
  let w' := (prompt 3 1 [InUser (CString "hi")] shortPlay).2 in
  length (ag_messages w'.(w_agent)) = 2%nat ∧
  ∃ es, eventsIn w'.(w_trace) = eventsIn shortPlay.(w_trace) ++ es ∧
    ag_messages w'.(w_agent) = ag_messages shortPlay.(w_agent) ++ endedIn es ∧
    (callsAnswered [] (endedIn es) = true ∨ failedIn (endedIn es)).
Proof.
  split; [vm_compute; reflexivity|].
  exact (prompt_extends_the_transcript 3 1 [InUser (CString "hi")] shortPlay _ shortPlay_returns).
Defined.

(** ** A withdrawal that is forgotten *)

(** A steering message that a run has drained is withdrawn, then the queue is
    cleared: clearing forgets that the message was withdrawn, and the run
    announces it. *)
Definition forgetful : World (Scene Command) :=
  opening (stage answers_done [(5%nat, CSteer (InUser (CString "no"))); (38%nat, CCancelSteering (isRef 1));
                               (38%nat, CClearSteering)]).

Example cleared_withdrawal_is_delivered :
  let w' := (calls 30 30 [CallPrompt [InUser (CString "look it up")]] forgetful).2 in
  withdrawn (w_fates w') = [1]%nat ∧ cleared (w_fates w') = [] ∧ announced (w_trace w') = [0; 1]%nat.
Proof. vm_compute. split_and!; reflexivity. Qed.
