(* ===== verification/Truncate.v ===== *)
(** * Truncation of tool output

    Lines, bytes and characters of output that is cut to a size
    ([packages/agent-core/src/harness/utils/truncate.ts]).  Strings are lists of
    UTF-16 code units; limits are integers.  [utf8] is the reference: the UTF-8
    encoding, with the replacement character for a surrogate without a partner. *)
From S2P Require Import Prelude Utf16 NumberCoercion.
Local Open Scope Z_scope.

Definition DEFAULT_MAX_LINES : Z := 2000.
Definition DEFAULT_MAX_BYTES : Z := 50 * 1024.
Definition GREP_MAX_LINE_LENGTH : Z := 500.

(** ** The encoding *)

Definition REPLACEMENT : Z := 65533.

(** The code points of a string. *)
Fixpoint codePoints (text : jsstr) : list Z :=
  match text with
  | [] => []
  | u :: r =>
      if isHighSurrogate u then
        match r with
        | v :: r' => if isLowSurrogate v then (65536 + (u - 55296) * 1024 + (v - 56320)) :: codePoints r'
                     else REPLACEMENT :: codePoints r
        | [] => [REPLACEMENT]
        end
      else (if isLowSurrogate u then REPLACEMENT else u) :: codePoints r
  end.

Definition encode (c : Z) : list Z :=
  if c <=? 127 then [c]
  else if c <=? 2047 then [192 + c / 64; 128 + c mod 64]
  else if c <=? 65535 then [224 + c / 4096; 128 + c / 64 mod 64; 128 + c mod 64]
  else [240 + c / 262144; 128 + c / 4096 mod 64; 128 + c / 64 mod 64; 128 + c mod 64].

Definition utf8 (text : jsstr) : list Z := codePoints text ≫= encode.

(** ** Counting *)

Definition NEWLINE : Z := 10.

(** [text.split(sep)] for a separator of one code unit. *)
Fixpoint js_split (sep : Z) (text : jsstr) : list jsstr :=
  match text with
  | [] => [[]]
  | u :: r =>
      if u =? sep then [] :: js_split sep r
      else match js_split sep r with
           | l :: ls => (u :: l) :: ls
           | [] => [[u]]
           end
  end.

Definition splitLinesForCounting (content : jsstr) : list jsstr :=
  if js_length content =? 0 then []
  else
    let lines := js_split NEWLINE content in
    if bool_decide (last content = Some NEWLINE) then removelast lines else lines.

Fixpoint findFirstNonAscii (content : jsstr) : Z :=
  match content with
  | [] => -1
  | u :: r => if 127 <? u then 0 else let index := findFirstNonAscii r in if index =? -1 then -1 else 1 + index
  end.

(** The loop of [utf8ByteLength]. *)
Fixpoint countBytes (content : jsstr) : Z :=
  match content with
  | [] => 0
  | u :: r =>
      if u <=? 127 then 1 + countBytes r
      else if u <=? 2047 then 2 + countBytes r
      else if isHighSurrogate u then
        match r with
        | v :: r' => if isLowSurrogate v then 4 + countBytes r' else 3 + countBytes r
        | [] => 3
        end
      else 3 + countBytes r
  end.

(** Without the [Buffer] of the runtime, whose [byteLength] is the length of
    [utf8]. *)
Definition utf8ByteLength (content : jsstr) : Z :=
  let firstNonAscii := findFirstNonAscii content in
  if firstNonAscii =? -1 then js_length content
  else firstNonAscii + countBytes (drop (Z.to_nat firstNonAscii) content).

Fixpoint replaceUnpairedSurrogates (content : jsstr) : jsstr :=
  match content with
  | [] => []
  | u :: r =>
      if isHighSurrogate u then
        match r with
        | v :: r' => if isLowSurrogate v then u :: v :: replaceUnpairedSurrogates r'
                     else REPLACEMENT :: replaceUnpairedSurrogates r
        | [] => [REPLACEMENT]
        end
      else (if isLowSurrogate u then REPLACEMENT else u) :: replaceUnpairedSurrogates r
  end.

(** ** Results *)

Inductive TruncatedBy := ByLines | ByBytes.

#[export] Instance TruncatedBy_eq_dec : EqDecision TruncatedBy.
Proof. solve_decision. Defined.

Record TruncationResult := {
  content : jsstr;
  truncated : bool;
  truncatedBy : option TruncatedBy;
  totalLines : Z;
  totalBytes : Z;
  outputLines : Z;
  outputBytes : Z;
  lastLinePartial : bool;
  firstLineExceedsLimit : bool;
  maxLines : Z;
  maxBytes : Z
}.

Record TruncationOptions := { opt_maxLines : option Z; opt_maxBytes : option Z }.

Record ResolvedTruncationInput := {
  in_lines : list jsstr;
  in_totalLines : Z;
  in_totalBytes : Z;
  in_maxLines : Z;
  in_maxBytes : Z
}.

Definition resolveTruncationInput (text : jsstr) (options : TruncationOptions) : ResolvedTruncationInput :=
  let lines := splitLinesForCounting text in
  {| in_lines := lines; in_totalLines := Z.of_nat (length lines); in_totalBytes := utf8ByteLength text;
     in_maxLines := default DEFAULT_MAX_LINES options.(opt_maxLines);
     in_maxBytes := default DEFAULT_MAX_BYTES options.(opt_maxBytes) |}.

Definition buildTruncationResult (input : ResolvedTruncationInput) (text : jsstr) (cut : bool) (by_ : option TruncatedBy)
    (lines : Z) (bytes : option Z) (partial exceeds : bool) : TruncationResult :=
  {| content := text; truncated := cut; truncatedBy := by_; totalLines := input.(in_totalLines);
     totalBytes := input.(in_totalBytes); outputLines := lines; outputBytes := default (utf8ByteLength text) bytes;
     lastLinePartial := partial; firstLineExceedsLimit := exceeds; maxLines := input.(in_maxLines);
     maxBytes := input.(in_maxBytes) |}.

(** [l.slice(0, stop)]; a negative [stop] counts from the end. *)
Definition sliceTo {A} (stop : Z) (l : list A) : list A :=
  take (Z.to_nat (if stop <? 0 then Z.of_nat (length l) + stop else stop)) l.

(** ** From the head *)

(** The lines that fit behind [i] lines of [count] bytes, their bytes, and
    whether the bytes stopped the loop. *)
Fixpoint headLoop (maxBytes : Z) (i : nat) (count : Z) (lines : list jsstr) : list jsstr * Z * bool :=
  match lines with
  | [] => ([], count, false)
  | line :: rest =>
      let lineBytes := utf8ByteLength line + (if (0 <? i)%nat then 1 else 0) in
      if maxBytes <? count + lineBytes then ([], count, true)
      else let '(out, count, stopped) := headLoop maxBytes (S i) (count + lineBytes) rest in (line :: out, count, stopped)
  end.

Definition within (input : ResolvedTruncationInput) : bool :=
  (input.(in_totalLines) <=? input.(in_maxLines)) && (input.(in_totalBytes) <=? input.(in_maxBytes)).

Definition unchanged (input : ResolvedTruncationInput) (text : jsstr) : TruncationResult :=
  buildTruncationResult input text false None input.(in_totalLines) (Some input.(in_totalBytes)) false false.

(** Which limit a loop met that kept [kept] lines of [count] bytes. *)
Definition limitMet (input : ResolvedTruncationInput) (kept : nat) (count : Z) (stopped : bool) : TruncatedBy :=
  if (input.(in_maxLines) <? input.(in_totalLines)) && (input.(in_maxLines) <=? Z.of_nat kept) && (count <=? input.(in_maxBytes))
  then ByLines
  else if stopped then ByBytes
  else if input.(in_maxLines) <? input.(in_totalLines) then ByLines else ByBytes.

Definition truncateHead (text : jsstr) (options : TruncationOptions) : TruncationResult :=
  let input := resolveTruncationInput text options in
  if within input then unchanged input text
  else if match head input.(in_lines) with Some l => input.(in_maxBytes) <? utf8ByteLength l | None => false end then
    buildTruncationResult input [] true (Some ByBytes) 0 (Some 0) false true
  else
    let '(out, count, stopped) := headLoop input.(in_maxBytes) 0 0 (sliceTo input.(in_maxLines) input.(in_lines)) in
    buildTruncationResult input (js_join [NEWLINE] out) true (Some (limitMet input (length out) count stopped))
      (Z.of_nat (length out)) None false false.

(** ** From the tail *)

(** Characters from the end: the reversed output, and whether a surrogate in it
    has no partner. *)
Fixpoint fromEnd (maxBytes outputBytes : Z) (rev : jsstr) : jsstr * bool :=
  match rev with
  | [] => ([], false)
  | u :: rest =>
      let single bytes unpaired :=
        if maxBytes <? outputBytes + bytes then ([], false)
        else let '(out, needs) := fromEnd maxBytes (outputBytes + bytes) rest in (u :: out, unpaired || needs) in
      if isLowSurrogate u then
        match rest with
        | v :: rest' =>
            if isHighSurrogate v then
              if maxBytes <? outputBytes + 4 then ([], false)
              else let '(out, needs) := fromEnd maxBytes (outputBytes + 4) rest' in (u :: v :: out, needs)
            else single 3 true
        | [] => single 3 true
        end
      else if isHighSurrogate u then single 3 true
      else single (if u <=? 127 then 1 else if u <=? 2047 then 2 else 3) false
  end.

Definition truncateStringToBytesFromEnd (str : jsstr) (maxBytes : Z) : jsstr :=
  if maxBytes <=? 0 then []
  else let '(out, needsReplacement) := fromEnd maxBytes 0 (reverse str) in
       if needsReplacement : bool then replaceUnpairedSurrogates (reverse out) else reverse out.

(** The lines that fit before [kept], from the last on; [rev] are the lines in
    reverse.  Also the bytes, whether they stopped the loop, and whether the one
    line is cut. *)
Fixpoint tailLoop (maxLines maxBytes : Z) (kept : list jsstr) (count : Z) (rev : list jsstr) : list jsstr * Z * bool * bool :=
  match rev with
  | [] => (kept, count, false, false)
  | line :: rest =>
      if Z.of_nat (length kept) <? maxLines then
        let lineBytes := utf8ByteLength line + (match kept with [] => 0 | _ => 1 end) in
        if maxBytes <? count + lineBytes then
          match kept with
          | [] => let truncatedLine := truncateStringToBytesFromEnd line maxBytes in
                  ([truncatedLine], utf8ByteLength truncatedLine, true, true)
          | _ => (kept, count, true, false)
          end
        else tailLoop maxLines maxBytes (line :: kept) (count + lineBytes) rest
      else (kept, count, false, false)
  end.

Definition truncateTail (text : jsstr) (options : TruncationOptions) : TruncationResult :=
  let input := resolveTruncationInput text options in
  if within input then unchanged input text
  else
    let '(out, count, stopped, partial) := tailLoop input.(in_maxLines) input.(in_maxBytes) [] 0 (reverse input.(in_lines)) in
    buildTruncationResult input (js_join [NEWLINE] out) true (Some (limitMet input (length out) count stopped))
      (Z.of_nat (length out)) None partial false.

(** ** Display lines and sizes *)

Definition TRUNCATED_SUFFIX : jsstr := lit "... [truncated]".

Definition truncateLine (line : jsstr) (maxChars : option Z) : jsstr * bool :=
  let maxChars := default GREP_MAX_LINE_LENGTH maxChars in
  if js_length line <=? maxChars then (line, false)
  else
    let cut := if (maxChars <? js_length line) && unit_is isHighSurrogate line (maxChars - 1) && unit_is isLowSurrogate line maxChars
               then maxChars - 1 else maxChars in
    (sliceTo cut line ++ TRUNCATED_SUFFIX, true).

Definition digits (n : Z) : jsstr := lit (show_int n).

(** [(bytes / unit).toFixed(1)]: the nearest tenth, the larger of two. *)
Definition toFixed1 (bytes unit_ : Z) : jsstr :=
  let tenths := (20 * bytes + unit_) / (2 * unit_) in digits (tenths / 10) ++ lit "." ++ digits (tenths mod 10).

Definition formatSize (bytes : Z) : jsstr :=
  if bytes <? 1024 then digits bytes ++ lit "B"
  else if bytes <? 1024 * 1024 then toFixed1 bytes 1024 ++ lit "KB"
  else toFixed1 bytes (1024 * 1024) ++ lit "MB".

(** ** Characters

    A string is read one character at a time: a pair of surrogates, or a single
    code unit. *)

Definition pairs (u : Z) (r : jsstr) : bool :=
  isHighSurrogate u && match r with v :: _ => isLowSurrogate v | [] => false end.

Lemma char_ind (P : jsstr → Prop) : P [] → (∀ u r, pairs u r = false → P r → P (u :: r)) →
  (∀ u v r, isHighSurrogate u = true → isLowSurrogate v = true → P r → P (u :: v :: r)) → ∀ text, P text.
Proof.
  intros H0 H1 H2 text. remember (length text) as n eqn:E. revert text E.
  induction n as [n IH] using lt_wf_ind. intros [|u r] ->; [done|]. cbn in IH. destruct (pairs u r) eqn:Ep.
  - unfold pairs in Ep. destruct r as [|v r]; [by rewrite andb_false_r in Ep|].
    apply andb_true_iff in Ep as [Hu Hv]. apply H2; [done..|]. eapply (IH (length r)); [cbn; lia|done].
  - apply H1; [done|]. eapply (IH (length r)); [lia|done].
Qed.

Definition unitBytes (u : Z) : Z := if u <=? 127 then 1 else if u <=? 2047 then 2 else 3.

Lemma surrogate_range u : (isHighSurrogate u = true → 55296 ≤ u ≤ 56319) ∧ (isLowSurrogate u = true → 56320 ≤ u ≤ 57343).
Proof. unfold isHighSurrogate, isLowSurrogate. lia. Qed.

Lemma countBytes_single u r : pairs u r = false → countBytes (u :: r) = unitBytes u + countBytes r.
Proof.
  unfold pairs, unitBytes. cbn. intros Hp. repeat case_match; simplify_eq/=; try lia.
Qed.

Lemma countBytes_pair u v r : isHighSurrogate u = true → isLowSurrogate v = true → countBytes (u :: v :: r) = 4 + countBytes r.
Proof.
  intros Hu Hv. pose proof (proj1 (surrogate_range u) Hu). cbn. rewrite Hu, Hv.
  destruct (Z.leb_spec u 127); [lia|]. by destruct (Z.leb_spec u 2047); [lia|].
Qed.

Lemma codePoints_single u r : pairs u r = false →
  codePoints (u :: r) = (if isHighSurrogate u || isLowSurrogate u then REPLACEMENT else u) :: codePoints r.
Proof.
  unfold pairs. cbn. intros Hp. destruct (isHighSurrogate u) eqn:Hu; cbn in *; [|done].
  destruct r as [|v r]; [done|]. by rewrite Hp.
Qed.

Lemma replace_single u r : pairs u r = false → replaceUnpairedSurrogates (u :: r) =
  (if isHighSurrogate u || isLowSurrogate u then REPLACEMENT else u) :: replaceUnpairedSurrogates r.
Proof.
  unfold pairs. cbn. intros Hp. destruct (isHighSurrogate u) eqn:Hu; cbn in *; [|done].
  destruct r as [|v r]; [done|]. by rewrite Hp.
Qed.

Lemma well_formed_single u r : pairs u r = false →
  well_formed (u :: r) = negb (isHighSurrogate u || isLowSurrogate u) && well_formed r.
Proof.
  unfold pairs. cbn. intros Hp. destruct (isHighSurrogate u) eqn:Hu; cbn in *; [|done].
  destruct r as [|v r]; [done|]. by rewrite Hp.
Qed.

Lemma clean_pairs u r l2 : clean_cut (u :: r) l2 → pairs u r = false → pairs u (r ++ l2) = false.
Proof.
  unfold pairs. destruct r as [|v r]; [|done]. unfold clean_cut. cbn. destruct l2 as [|v l2]; [done|]. cbn. by intros ->.
Qed.

Lemma clean_tail u r l2 : r ≠ [] → clean_cut (u :: r) l2 → clean_cut r l2.
Proof. unfold clean_cut. by destruct r. Qed.

Lemma clean_nil l2 : clean_cut [] l2.
Proof. done. Qed.

Lemma clean_single u r l2 : clean_cut (u :: r) l2 → clean_cut r l2.
Proof. destruct r; [intros _; apply clean_nil|by apply clean_tail]. Qed.

Lemma countBytes_app l1 l2 : clean_cut l1 l2 → countBytes (l1 ++ l2) = countBytes l1 + countBytes l2.
Proof.
  induction l1 as [|u r Hp IH|u v r Hu Hv IH] using char_ind; intros Hc.
  - done.
  - cbn [app]. rewrite !countBytes_single by auto using clean_pairs. rewrite IH; [lia|]. by eapply clean_single.
  - cbn [app]. rewrite !countBytes_pair by done. rewrite IH; [lia|]. by do 2 eapply clean_single.
Qed.

Lemma well_formed_app l1 l2 : clean_cut l1 l2 → well_formed (l1 ++ l2) = well_formed l1 && well_formed l2.
Proof.
  induction l1 as [|u r Hp IH|u v r Hu Hv IH] using char_ind; intros Hc.
  - done.
  - cbn [app]. rewrite !well_formed_single by auto using clean_pairs. rewrite IH; [by rewrite andb_assoc|]. by eapply clean_single.
  - cbn. rewrite Hu, Hv. cbn. apply IH. by do 2 eapply clean_single.
Qed.

(** ** Bytes *)

Lemma countBytes_nonneg l : 0 ≤ countBytes l.
Proof.
  induction l as [|u r Hp IH|u v r Hu Hv IH] using char_ind; [done|..].
  - rewrite countBytes_single by done. unfold unitBytes. repeat case_match; lia.
  - rewrite countBytes_pair by done. lia.
Qed.

Definition ascii (u : Z) : Prop := u ≤ 127.

Lemma countBytes_ascii l : Forall ascii l → countBytes l = js_length l.
Proof.
  unfold js_length, ascii. induction 1 as [|u l Hu _ IH]; [done|]. cbn. destruct (Z.leb_spec u 127); [|lia]. rewrite IH. lia.
Qed.

Lemma firstNonAscii_spec l : let i := findFirstNonAscii l in
  (i = -1 ∧ Forall ascii l) ∨ (0 ≤ i ∧ Forall ascii (take (Z.to_nat i) l) ∧ (Z.to_nat i ≤ length l)%nat).
Proof.
  unfold ascii. induction l as [|u l IH]; [left; split; [done|constructor]|]. cbn. destruct (Z.ltb_spec 127 u) as [Hu|Hu].
  - right. split_and!; [lia|constructor|lia].
  - destruct IH as [[-> Hf]|(Hi & Hf & Hl)].
    + left. split; [done|by constructor].
    + right. destruct (Z.eqb_spec (findFirstNonAscii l) (-1)); [lia|].
      replace (Z.to_nat (1 + findFirstNonAscii l)) with (S (Z.to_nat (findFirstNonAscii l))) by lia.
      split_and!; [lia|by constructor|lia].
Qed.

Lemma clean_ascii l1 l2 : Forall ascii l1 → clean_cut l1 l2.
Proof.
  intros Hf. unfold clean_cut. destruct (last l1) as [u|] eqn:E; [|done]. destruct (head l2); [|done].
  apply last_Some_elem_of in E. rewrite Forall_forall in Hf. specialize (Hf _ E). unfold ascii in Hf.
  destruct (isHighSurrogate u) eqn:Hu; [|done]. pose proof (proj1 (surrogate_range u) Hu). lia.
Qed.

Lemma byteLength_count l : utf8ByteLength l = countBytes l.
Proof.
  unfold utf8ByteLength. pose proof (firstNonAscii_spec l) as [[-> Hf]|(Hi & Hf & Hl)]; cbn; [by rewrite countBytes_ascii|].
  destruct (Z.eqb_spec (findFirstNonAscii l) (-1)) as [|_]; [lia|]. set (k := Z.to_nat (findFirstNonAscii l)) in *.
  transitivity (countBytes (take k l ++ drop k l)); [|by rewrite take_drop]. rewrite countBytes_app by by apply clean_ascii. rewrite (countBytes_ascii (take k l)) by done.
  unfold js_length. rewrite length_take. lia.
Qed.

(** A code unit. *)
Definition isUnit (u : Z) : Prop := 0 ≤ u ≤ 65535.

Lemma encode_length c : length (encode c) = Z.to_nat (if c <=? 127 then 1 else if c <=? 2047 then 2 else if c <=? 65535 then 3 else 4).
Proof. unfold encode. by repeat case_match. Qed.

Lemma countBytes_utf8 l : Forall isUnit l → countBytes l = Z.of_nat (length (utf8 l)).
Proof.
  unfold utf8. induction l as [|u r Hp IH|u v r Hu Hv IH] using char_ind; intros Hf; [done|..].
  - apply Forall_cons in Hf as [Hr Hf]. rewrite countBytes_single, codePoints_single, IH by done. cbn. rewrite length_app, encode_length.
    unfold isUnit in Hr. unfold unitBytes. destruct (isHighSurrogate u || isLowSurrogate u) eqn:E.
    + assert (55296 ≤ u) by (destruct (surrogate_range u); apply orb_true_iff in E as [E|E]; intuition lia).
      unfold REPLACEMENT. destruct (Z.leb_spec u 127), (Z.leb_spec u 2047); cbn; lia.
    + destruct (Z.leb_spec u 127), (Z.leb_spec u 2047), (Z.leb_spec u 65535); lia.
  - apply Forall_cons in Hf as [_ [_ Hf]%Forall_cons]. rewrite countBytes_pair, IH by done. cbn. rewrite Hu, Hv. cbn.
    rewrite length_app, encode_length. pose proof (proj1 (surrogate_range u) Hu). pose proof (proj2 (surrogate_range v) Hv).
    repeat case_match; lia.
Qed.

(** ** Lines *)

Definition linesBytes (lines : list jsstr) : Z := countBytes (js_join [NEWLINE] lines).

(** The bytes of lines behind others. *)
Fixpoint tailCost (lines : list jsstr) : Z := match lines with [] => 0 | l :: lines => countBytes l + 1 + tailCost lines end.

Lemma clean_newline l r : clean_cut l (NEWLINE :: r).
Proof. unfold clean_cut. destruct (last l); [|done]. cbn. apply andb_false_r. Qed.

Lemma linesBytes_cons l ls : linesBytes (l :: ls) = countBytes l + tailCost ls.
Proof.
  unfold linesBytes. revert l. induction ls as [|l' ls IH]; intros l; [cbn; lia|].
  change (js_join [NEWLINE] (l :: l' :: ls)) with (l ++ NEWLINE :: js_join [NEWLINE] (l' :: ls)).
  rewrite countBytes_app by apply clean_newline. rewrite (countBytes_single NEWLINE) by done. rewrite IH. change (unitBytes NEWLINE) with 1. change (tailCost (l' :: ls)) with (countBytes l' + 1 + tailCost ls). lia.
Qed.

Lemma tailCost_nonneg ls : 0 ≤ tailCost ls.
Proof. induction ls as [|l ls IH]; cbn; [lia|]. pose proof (countBytes_nonneg l). lia. Qed.

Lemma tailCost_app a b : tailCost (a ++ b) = tailCost a + tailCost b.
Proof. induction a as [|l a IH]; cbn; [done|]. lia. Qed.

Lemma linesBytes_push l ls : linesBytes (l :: ls) = countBytes l + (match ls with [] => 0 | _ => 1 end) + linesBytes ls.
Proof. rewrite linesBytes_cons. destruct ls as [|l' ls]; [unfold linesBytes; cbn; lia|]. rewrite linesBytes_cons. cbn. lia. Qed.

Lemma linesBytes_suffix a b : linesBytes b ≤ linesBytes (a ++ b).
Proof.
  induction a as [|l a IH]; cbn [app]; [done|]. rewrite linesBytes_push. pose proof (countBytes_nonneg l). case_match; lia.
Qed.

(** ** The loops *)

Definition costFrom (i : nat) (ls : list jsstr) : Z :=
  match ls with [] => 0 | l :: ls => countBytes l + (if (0 <? i)%nat then 1 else 0) + tailCost ls end.

Lemma cost_first ls : costFrom 0 ls = linesBytes ls.
Proof. destruct ls as [|l ls]; [done|]. rewrite linesBytes_cons. cbn. lia. Qed.

Lemma cost_next i ls : costFrom (S i) ls = tailCost ls.
Proof. by destruct ls. Qed.

(** What a loop keeps: [k] lines from the start, as many as fit. *)
Record headKept (maxB : Z) (i : nat) (count : Z) (lines : list jsstr) (k : nat) (r : list jsstr * Z * bool) : Prop := {
  hk_some : (k ≤ length lines)%nat;
  hk_out : r.1.1 = take k lines;
  hk_count : r.1.2 = count + costFrom i (take k lines);
  hk_fits : count ≤ maxB → r.1.2 ≤ maxB;
  hk_stopped : r.2 = bool_decide (k < length lines)%nat;
  hk_most k' : (k < k')%nat → (k' ≤ length lines)%nat → maxB < count + costFrom i (take k' lines)
}.

Lemma headLoop_kept maxB lines : ∀ i count, ∃ k, headKept maxB i count lines k (headLoop maxB i count lines).
Proof.
  induction lines as [|line lines IH]; intros i count.
  { exists 0%nat. split; cbn; try done; [lia|]. intros k' Hk Hl. lia. }
  cbn [headLoop]. rewrite byteLength_count. set (n := countBytes line + (if (0 <? i)%nat then 1 else 0)).
  assert (Hcost : ∀ k, costFrom i (take (S k) (line :: lines)) = n + tailCost (take k lines)) by done.
  destruct (Z.ltb_spec maxB (count + n)) as [Hn|Hn].
  - exists 0%nat. split; cbn; try done; [lia|lia|]. intros [|k'] Hk _; [lia|]. rewrite Hcost. pose proof (tailCost_nonneg (take k' lines)). lia.
  - destruct (IH (S i) (count + n)) as (k & [Hs Ho Hc Hf Hst Hm]). destruct (headLoop _ _ _ lines) as [[out c] st]. cbn [fst snd] in *.
    rewrite cost_next in Hc. exists (S k). split; cbn [fst snd length]; rewrite ?Hcost.
    + lia.
    + by rewrite Ho.
    + lia.
    + intros _. by apply Hf.
    + rewrite Hst. apply bool_decide_ext. lia.
    + intros [|k'] Hk Hl; [lia|]. specialize (Hm k' ltac:(lia) ltac:(lia)). rewrite cost_next in Hm. rewrite Hcost. lia.
Qed.

(** The lines in front of [kept] that a loop from the end keeps. *)
Record tailKept (maxL maxB : Z) (kept rev : list jsstr) (k : nat) (out : list jsstr) (count : Z) : Prop := {
  tk_some : (k ≤ length rev)%nat;
  tk_out : out = reverse (take k rev) ++ kept;
  tk_count : count = linesBytes out;
  tk_fits : count ≤ maxB;
  tk_lines : Z.of_nat (length kept) ≤ maxL → Z.of_nat (length out) ≤ maxL;
  tk_most k' : (k < k')%nat → (k' ≤ length rev)%nat →
    maxL < Z.of_nat (length kept + k') ∨ maxB < linesBytes (reverse (take k' rev) ++ kept)
}.

Lemma reverse_take_cons (line : jsstr) k rest kept :
  reverse (take (S k) (line :: rest)) ++ kept = reverse (take k rest) ++ line :: kept.
Proof. change (take (S k) (line :: rest)) with (line :: take k rest). by rewrite reverse_cons, <-app_assoc. Qed.

Lemma tailKept_none maxL maxB kept rev count : count = linesBytes kept → count ≤ maxB →
  (∀ k', (0 < k')%nat → (k' ≤ length rev)%nat → maxL < Z.of_nat (length kept + k') ∨ maxB < linesBytes (reverse (take k' rev) ++ kept)) →
  tailKept maxL maxB kept rev 0 kept count.
Proof. intros Hc Hf Hm. split; try done. lia. Qed.

Lemma tailLoop_kept maxL maxB rev : ∀ kept count, count = linesBytes kept → count ≤ maxB →
  let '(out, c, _, partial) := tailLoop maxL maxB kept count rev in
  if partial : bool then
    kept = [] ∧ 0 < maxL ∧ ∃ line rest, rev = line :: rest ∧ maxB < countBytes line ∧
      out = [truncateStringToBytesFromEnd line maxB] ∧ c = countBytes (truncateStringToBytesFromEnd line maxB)
  else ∃ k, tailKept maxL maxB kept rev k out c.
Proof.
  induction rev as [|line rest IH]; intros kept count Hc Hf; cbn [tailLoop].
  { exists 0%nat. apply tailKept_none; [done..|]. cbn. lia. }
  destruct (Z.ltb_spec (Z.of_nat (length kept)) maxL) as [Hl|Hl].
  2: { exists 0%nat. apply tailKept_none; [done..|]. lia. }
  rewrite !byteLength_count. pose proof (linesBytes_push line kept) as Hp.
  set (n := countBytes line + match kept with [] => 0 | _ => 1 end) in *. destruct (Z.ltb_spec maxB (count + n)) as [Hn|Hn].
  - assert (Hm : ∀ k', (0 < k')%nat → maxB < linesBytes (reverse (take k' (line :: rest)) ++ kept)).
    { intros [|k'] Hk; [lia|]. rewrite reverse_take_cons. pose proof (linesBytes_suffix (reverse (take k' rest)) (line :: kept)). lia. }
    destruct kept as [|l kept]; [|exists 0%nat; apply tailKept_none; auto].
    split_and!; [done|cbn in Hl; lia|]. exists line, rest. split_and!; try done.
    subst count. change (linesBytes []) with 0 in Hn. lia.
  - specialize (IH (line :: kept) (count + n) ltac:(lia) ltac:(lia)).
    destruct (tailLoop maxL maxB (line :: kept) (count + n) rest) as [[[out c] st] []]; [by destruct IH|].
    destruct IH as (k & [Hs Ho Hc' Hf' Hl' Hm]). exists (S k). split; try done.
    + cbn. lia.
    + by rewrite reverse_take_cons.
    + intros _. apply Hl'. cbn. lia.
    + intros [|k'] Hk Hk'; [lia|]. rewrite reverse_take_cons. cbn in Hk'. specialize (Hm k' ltac:(lia) ltac:(lia)). cbn in Hm.
      replace (length kept + S k')%nat with (S (length kept + k')) by lia. exact Hm.
Qed.

(** ** Characters from the end *)

(** What the loop keeps: the last [n] code units, as many as fit without
    splitting a pair. *)
Record endKept (maxB count : Z) (rev : jsstr) (n : nat) (r : jsstr * bool) : Prop := {
  ek_some : (n ≤ length rev)%nat;
  ek_out : r.1 = take n rev;
  ek_fits : count ≤ maxB → count + countBytes (reverse (take n rev)) ≤ maxB;
  ek_needs : r.2 = negb (well_formed (reverse (take n rev)));
  ek_clean : clean_cut (reverse (drop n rev)) (reverse (take n rev));
  ek_most m : (n < m)%nat → (m ≤ length rev)%nat → clean_cut (reverse (drop m rev)) (reverse (take m rev)) →
    maxB < count + countBytes (reverse (take m rev))
}.

(** [u] is no second half of a pair with what is before it in [rest]. *)
Definition alone (u : Z) (rest : jsstr) : Prop := isLowSurrogate u = true → match rest with v :: _ => isHighSurrogate v = false | [] => True end.

Lemma clean_alone u rest m : alone u rest → clean_cut (reverse (take m rest)) [u].
Proof.
  unfold alone, clean_cut. intros Hu. rewrite last_reverse. destruct rest as [|v rest]; [by rewrite take_nil|].
  destruct m as [|m]; [done|]. cbn. destruct (isLowSurrogate u) eqn:E; [rewrite Hu by done; done|]. apply andb_false_r.
Qed.

Lemma clean_weaken l1 l2 l3 : clean_cut l1 (l2 ++ l3) → l2 ≠ [] → clean_cut l1 l2.
Proof. unfold clean_cut. by destruct l2. Qed.

Lemma clean_extend l1 l2 l3 : clean_cut l1 l2 → l2 ≠ [] → clean_cut l1 (l2 ++ l3).
Proof. unfold clean_cut. by destruct l2. Qed.

Lemma reverse_nil_iff {A} (l : list A) : reverse l = [] ↔ l = [].
Proof. split; [|by intros ->]. intros E. rewrite <-(reverse_involutive l), E. done. Qed.

(** A character of [cs] units and [b] bytes in front of what the loop keeps of the
    [rest]; [lead] is its first unit. *)
Lemma fromEnd_push maxB count cs b rest n (r : jsstr * bool) : cs ≠ [] →
  (∀ m, clean_cut (reverse (take m rest)) (reverse cs)) → countBytes (reverse cs) = b →
  clean_cut (reverse rest) (reverse cs) →
  (∀ m, (0 < m)%nat → (m < length cs)%nat → ¬ clean_cut (reverse (drop m (cs ++ rest))) (reverse (take m (cs ++ rest)))) →
  count + b ≤ maxB → endKept maxB (count + b) rest n r →
  endKept maxB count (cs ++ rest) (length cs + n) (cs ++ r.1, negb (well_formed (reverse cs)) || r.2).
Proof.
  intros Hne Hcl Hb Hcut Hin Hfit [Hs Ho Hf Hn Hc Hm].
  assert (Ht : ∀ k, take (length cs + k) (cs ++ rest) = cs ++ take k rest) by (intros; by rewrite take_app_add).
  assert (Hd : ∀ k, drop (length cs + k) (cs ++ rest) = drop k rest) by (intros; by rewrite drop_app_add).
  split; cbn [fst snd]; rewrite ?Ht, ?Hd, ?reverse_app.
  - rewrite length_app. lia.
  - by rewrite Ho.
  - intros _. rewrite countBytes_app by apply Hcl. specialize (Hf Hfit). lia.
  - rewrite well_formed_app by apply Hcl. rewrite Hn. by destruct (well_formed (reverse cs)), (well_formed _).
  - destruct n as [|n]; [cbn; by rewrite drop_0|]. destruct rest as [|v rest]; [by apply clean_nil|].
    apply clean_extend; [exact Hc|]. rewrite reverse_nil_iff. done.
  - intros m Hlt Hle Hclean. destruct (decide (m < length cs)%nat) as [Hlc|Hlc]; [by destruct (Hin m); [lia|..]|].
    assert (E : (m = length cs + (m - length cs))%nat) by lia. rewrite E in Hclean |- *. rewrite Ht, Hd in *. rewrite reverse_app in *.
    rewrite countBytes_app by apply Hcl. rewrite length_app in Hle.
    assert (Hm' : maxB < count + b + countBytes (reverse (take (m - length cs) rest))); [|lia].
    apply Hm; [lia..|]. destruct (take (m - length cs) rest) eqn:Et; [by unfold clean_cut; case_match|].
    eapply clean_weaken; [exact Hclean|]. rewrite reverse_nil_iff. done.
Qed.

Lemma fromEnd_stop maxB count cs b rest : cs ≠ [] → (∀ m, clean_cut (reverse (take m rest)) (reverse cs)) →
  countBytes (reverse cs) = b →
  (∀ m, (0 < m)%nat → (m < length cs)%nat → ¬ clean_cut (reverse (drop m (cs ++ rest))) (reverse (take m (cs ++ rest)))) →
  maxB < count + b → endKept maxB count (cs ++ rest) 0 ([], false).
Proof.
  intros Hne Hcl Hb Hin Hfit. split; cbn [fst snd take]; try done.
  - lia.
  - intros Hc. change (countBytes _) with 0. lia.
  - unfold clean_cut. cbn. by case_match.
  - intros m Hlt Hle Hclean. destruct (decide (m < length cs)%nat) as [Hlc|Hlc]; [by destruct (Hin m); [lia|..]|].
    replace m with (length cs + (m - length cs))%nat by lia. rewrite take_app_add, reverse_app, countBytes_app by apply Hcl.
    pose proof (countBytes_nonneg (reverse (take (m - length cs) rest))). lia.
Qed.

Lemma low_not_high u : isLowSurrogate u = true → isHighSurrogate u = false.
Proof. intros Hu. destruct (isHighSurrogate u) eqn:E; [|done]. apply high_not_low in E. congruence. Qed.

Lemma countBytes_one u : countBytes [u] = unitBytes u.
Proof. rewrite countBytes_single by (unfold pairs; apply andb_false_r). cbn. lia. Qed.

Lemma unitBytes_surrogate u : 55296 ≤ u → unitBytes u = 3.
Proof. intros Hu. unfold unitBytes. repeat case_match; lia. Qed.

Lemma fromEnd_kept maxB rev : ∀ count, ∃ n, endKept maxB count rev n (fromEnd maxB count rev).
Proof.
  remember (length rev) as k eqn:Ek. revert rev Ek. induction k as [k IH] using lt_wf_ind. intros [|u rest] -> count.
  { exists 0%nat. split; try done; [intros Hc; change (countBytes _) with 0; lia|]. cbn. lia. }
  assert (Hsingle : ∀ b unpaired, alone u rest → countBytes [u] = b → unpaired = negb (well_formed [u]) →
    ∃ n, endKept maxB count (u :: rest) n (if maxB <? count + b then ([], false)
      else let '(out, needs) := fromEnd maxB (count + b) rest in (u :: out, unpaired || needs))).
  { intros b unpaired Ha Hb ->. destruct (Z.ltb_spec maxB (count + b)) as [Hlt|Hge].
    - exists 0%nat. apply (fromEnd_stop maxB count [u] b rest); try done; [intros; by apply clean_alone|]. cbn. lia.
    - destruct (IH (length rest) ltac:(cbn; lia) rest eq_refl (count + b)) as (n & Hk).
      pose proof (fromEnd_push maxB count [u] b rest n (fromEnd maxB (count + b) rest) ltac:(done) (λ m, clean_alone u rest m Ha) Hb) as Hp.
      exists (1 + n)%nat. destruct (fromEnd maxB (count + b) rest) as [out needs]. apply Hp; [|cbn; lia|lia|exact Hk].
      rewrite <-(firstn_all rest). by apply clean_alone. }
  cbn [fromEnd]. cbn zeta. destruct (isLowSurrogate u) eqn:Hu.
  - pose proof (low_not_high u Hu) as Hh. pose proof (proj2 (surrogate_range u) Hu) as Hr.
    assert (Hb : countBytes [u] = 3) by (rewrite countBytes_one; apply unitBytes_surrogate; lia).
    assert (Hw : well_formed [u] = false) by (cbn; by rewrite Hh, Hu).
    destruct rest as [|v rest']; [apply Hsingle; [by intros ?|done|by rewrite Hw]|]. destruct (isHighSurrogate v) eqn:Hv.
    2: { apply Hsingle; [by intros ?|done|by rewrite Hw]. }
    clear Hsingle. pose proof (high_not_low v Hv) as Hvl. change (u :: v :: rest') with ([u; v] ++ rest').
    assert (Hcl : ∀ l, clean_cut l [v; u]) by (intros l; unfold clean_cut; destruct (last l); [|done]; cbn; by rewrite Hvl, andb_false_r).
    assert (Hb4 : countBytes (reverse [u; v]) = 4) by (change (reverse [u; v]) with [v; u]; by rewrite countBytes_pair).
    assert (Hin : ∀ m, (0 < m)%nat → (m < length [u; v])%nat →
      ¬ clean_cut (reverse (drop m ([u; v] ++ rest'))) (reverse (take m ([u; v] ++ rest')))).
    { intros m ? Hm. assert (m = 1%nat) as -> by (cbn in Hm; lia). change (drop 1 _) with (v :: rest').
      unfold clean_cut. rewrite last_reverse. cbn. by rewrite Hv, Hu. }
    destruct (Z.ltb_spec maxB (count + 4)) as [Hlt|Hge].
    + exists 0%nat. by apply (fromEnd_stop maxB count [u; v] 4 rest').
    + destruct (IH (length rest') ltac:(cbn; lia) rest' eq_refl (count + 4)) as (n & Hk). exists (2 + n)%nat.
      pose proof (fromEnd_push maxB count [u; v] 4 rest' n (fromEnd maxB (count + 4) rest') ltac:(done) (λ m, Hcl _) Hb4 (Hcl _) Hin Hge Hk) as Hp.
      destruct (fromEnd maxB (count + 4) rest') as [out needs]. cbn in Hp |- *. rewrite Hv, Hu in Hp. exact Hp.
  - assert (Ha : alone u rest) by (intros ?; congruence). destruct (isHighSurrogate u) eqn:Hh.
    + pose proof (proj1 (surrogate_range u) Hh). apply Hsingle; [done| |cbn; by rewrite Hh].
      rewrite countBytes_one. apply unitBytes_surrogate. lia.
    + apply Hsingle; [done| |cbn; by rewrite Hh, Hu]. apply countBytes_one.
Qed.

(** ** Replacement *)

Lemma replace_facts l : countBytes (replaceUnpairedSurrogates l) = countBytes l ∧
  well_formed (replaceUnpairedSurrogates l) = true ∧ (well_formed l = true → replaceUnpairedSurrogates l = l).
Proof.
  assert (Hu : ∀ x r, (isHighSurrogate x || isLowSurrogate x) = false → pairs x r = false).
  { intros x r Hx. unfold pairs. by apply orb_false_iff in Hx as [-> _]. }
  induction l as [|u r Hp (IHb & IHw & IHe)|u v r Hu' Hv (IHb & IHw & IHe)] using char_ind; [done|..].
  - rewrite (countBytes_single u r), replace_single, (well_formed_single u r) by done.
    destruct (isHighSurrogate u || isLowSurrogate u) eqn:E; cbn [negb andb].
    + rewrite countBytes_single, well_formed_single, IHb, IHw by by apply Hu. split_and!; [|done..].
      assert (55296 ≤ u) by (destruct (surrogate_range u); apply orb_true_iff in E as [E|E]; intuition lia).
      by rewrite (unitBytes_surrogate u).
    + rewrite countBytes_single, well_formed_single, IHb, IHw, E by by apply Hu. split_and!; [done..|]. intros Hw. by rewrite IHe.
  - assert (E : replaceUnpairedSurrogates (u :: v :: r) = u :: v :: replaceUnpairedSurrogates r) by (cbn; by rewrite Hu', Hv).
    rewrite E, !countBytes_pair, IHb by done. cbn. rewrite Hu', Hv. cbn. split_and!; [done..|]. intros Hw. by rewrite IHe.
Qed.

(** [out] is the end of [line] from [i] on: no longer one fits, and no pair is
    split. *)
Record LastPart (maxB : Z) (line out : jsstr) (i : nat) : Prop := {
  lp_out : out = replaceUnpairedSurrogates (drop i line);
  lp_clean : clean_cut (take i line) (drop i line);
  lp_fits : 0 ≤ maxB → countBytes (drop i line) ≤ maxB;
  lp_longest j : (j < i)%nat → (i ≤ length line)%nat → clean_cut (take j line) (drop j line) → maxB < countBytes (drop j line)
}.

Lemma unitBytes_pos u : 0 < unitBytes u.
Proof. unfold unitBytes. repeat case_match; lia. Qed.

Lemma countBytes_pos l : l ≠ [] → 0 < countBytes l.
Proof.
  destruct l as [|u r|u v r] using char_ind; intros Hl; [done|..].
  - rewrite countBytes_single by done. pose proof (unitBytes_pos u). pose proof (countBytes_nonneg r). lia.
  - rewrite countBytes_pair by done. pose proof (countBytes_nonneg r). lia.
Qed.

Lemma lastPart_kept line maxB : ∃ i, LastPart maxB line (truncateStringToBytesFromEnd line maxB) i.
Proof.
  unfold truncateStringToBytesFromEnd. destruct (Z.leb_spec maxB 0) as [Hm|Hm].
  - exists (length line). split; rewrite ?drop_all; try done.
    + unfold clean_cut. cbn. by case_match.
    + intros j Hj _ _. pose proof (countBytes_pos (drop j line)) as Hp. rewrite <-length_zero_iff_nil, length_drop in Hp. lia.
  - destruct (fromEnd_kept maxB (reverse line) 0) as (n & [Hs Ho Hf Hn Hc Hmost]). rewrite length_reverse in Hs, Hmost.
    exists (length line - n)%nat. destruct (fromEnd maxB 0 (reverse line)) as [out needs]. cbn in Ho, Hn.
    assert (Ht : ∀ k, reverse (take k (reverse line)) = drop (length line - k) line) by (intros k; by rewrite take_reverse, reverse_involutive).
    assert (Hd : ∀ k, reverse (drop k (reverse line)) = take (length line - k) line) by (intros k; by rewrite drop_reverse, reverse_involutive).
    rewrite Ht in Hf, Hn. rewrite Ht, Hd in Hc. split; [|done|intros _; apply Hf; lia|].
    + subst needs. rewrite Ho, Ht. destruct (well_formed (drop (length line - n) line)) eqn:E; [|done]. cbn. symmetry. by apply replace_facts.
    + intros j Hj _ Hcj. specialize (Hmost (length line - j)%nat ltac:(lia) ltac:(lia)). rewrite Ht, Hd in Hmost.
      replace (length line - (length line - j))%nat with j in Hmost by lia. by apply Hmost.
Qed.

(** ** Properties *)

(** The count of bytes is the length of the UTF-8 encoding of the string. *)
Theorem byte_count_is_utf8_length text : Forall isUnit text → utf8ByteLength text = Z.of_nat (length (utf8 text)).
Proof. intros Hu. rewrite byteLength_count. by apply countBytes_utf8. Qed.

Section truncations.
Context (text : jsstr) (options : TruncationOptions).

Definition linesOf : list jsstr := splitLinesForCounting text.

(** Output that is within the limits is handed on as it is. *)
Record Untouched (r : TruncationResult) : Prop := {
  un_cut : r.(truncated) = negb ((r.(totalLines) <=? r.(maxLines)) && (r.(totalBytes) <=? r.(maxBytes)));
  un_content : r.(truncated) = false → r.(content) = text ∧ r.(truncatedBy) = None;
  un_bytes : r.(outputBytes) = utf8ByteLength r.(content)
}.

Lemma byteLength_nil : utf8ByteLength [] = 0.
Proof. done. Qed.

Lemma unchanged_untouched input : within input = true → input.(in_totalBytes) = utf8ByteLength text →
  Untouched (unchanged input text).
Proof. unfold within. intros Hw Hb. split; cbn; rewrite ?Hw; done. Qed.

Lemma built_untouched input out by_ lines bytes partial exceeds : within input = false →
  default (utf8ByteLength out) bytes = utf8ByteLength out → Untouched (buildTruncationResult input out true by_ lines bytes partial exceeds).
Proof. unfold within. intros Hw Hb. split; cbn; rewrite ?Hw; done. Qed.

Lemma head_untouched : Untouched (truncateHead text options).
Proof.
  unfold truncateHead. set (input := resolveTruncationInput text options).
  destruct (within input) eqn:E; [by apply unchanged_untouched|].
  destruct (match head _ with Some l => _ | None => false end); [by apply built_untouched|].
  destruct (headLoop _ _ _ _) as [[out count] st]. by apply built_untouched.
Qed.

Lemma tail_untouched : Untouched (truncateTail text options).
Proof.
  unfold truncateTail. set (input := resolveTruncationInput text options).
  destruct (within input) eqn:E; [by apply unchanged_untouched|].
  destruct (tailLoop _ _ _ _ _) as [[[out count] st] partial]. by apply built_untouched.
Qed.

(** [kept] are [k] lines that fit into the limits of [r]; the count of bytes is
    theirs. *)
Record Fits (r : TruncationResult) (kept : list jsstr) : Prop := {
  ft_content : r.(content) = js_join [NEWLINE] kept;
  ft_lines : r.(outputLines) = Z.of_nat (length kept) ∧ r.(outputLines) ≤ r.(maxLines);
  ft_bytes : r.(outputBytes) = linesBytes kept ∧ r.(outputBytes) ≤ r.(maxBytes)
}.

(** The limit that a loop met, where [0 < maxLines]. *)
Lemma limit_by_lines input kept count stopped : 0 < input.(in_maxLines) → count ≤ input.(in_maxBytes) →
  Z.of_nat kept ≤ input.(in_maxLines) →
  (stopped = false → Z.of_nat kept = input.(in_maxLines) `min` input.(in_totalLines)) →
  limitMet input kept count stopped = ByLines ↔ Z.of_nat kept = input.(in_maxLines) ∧ input.(in_maxLines) < input.(in_totalLines).
Proof.
  unfold limitMet. intros HL HB Hk Hs. rewrite (proj2 (Z.leb_le count _)) by done.
  destruct (Z.ltb_spec input.(in_maxLines) input.(in_totalLines)), (Z.leb_spec input.(in_maxLines) (Z.of_nat kept)); cbn;
    [split; intros; [lia|done]|destruct stopped; [split; [done|lia]|specialize (Hs eq_refl); split; intros; [lia|done]]|..];
    destruct stopped; split; intros; try done; lia.
Qed.

(** C32: output that exceeds its limits is cut from the head to as many complete
    lines as fit both limits, and no line more would fit; what limit was met, and
    whether the first line alone is too long, is told. *)
Theorem head_keeps_the_lines_that_fit : let r := truncateHead text options in
  0 < r.(maxLines) → 0 ≤ r.(maxBytes) → Untouched r ∧ (r.(truncated) = true → ∃ k, Fits r (take k linesOf) ∧
    (∀ k', (k < k')%nat → (k' ≤ length linesOf)%nat → r.(maxLines) < Z.of_nat k' ∨ r.(maxBytes) < linesBytes (take k' linesOf)) ∧
    (r.(truncatedBy) = Some ByLines ↔ Z.of_nat k = r.(maxLines) ∧ r.(maxLines) < r.(totalLines)) ∧
    (r.(firstLineExceedsLimit) = true ↔ ∃ l ls, linesOf = l :: ls ∧ r.(maxBytes) < utf8ByteLength l)).
Proof.
  intros r HL HB. split; [apply head_untouched|]. revert HL HB. subst r. unfold truncateHead, linesOf.
  set (input := resolveTruncationInput text options). change (splitLinesForCounting text) with (in_lines input).
  assert (Ht : in_totalLines input = Z.of_nat (length (in_lines input))) by done. clearbody input.
  destruct (within input) eqn:Ew; [done|]. destruct (match head _ with Some l => _ | None => false end) eqn:Ef.
  - cbn. intros HL HB _. destruct (in_lines input) as [|l ls]; [done|]. cbn in Ef. apply Z.ltb_lt in Ef. exists 0%nat.
    split_and!; [split; cbn; split_and?; try done; lia|..].
    + intros [|k'] Hk _; [lia|]. right. change (take (S k') (l :: ls)) with (l :: take k' ls). rewrite linesBytes_cons. rewrite byteLength_count in Ef.
      pose proof (tailCost_nonneg (take k' ls)). lia.
    + split; [done|lia].
    + split; [|done]. intros _. by exists l, ls.
  - destruct (headLoop_kept (in_maxBytes input) (sliceTo (in_maxLines input) (in_lines input)) 0 0) as (k & [Hs Ho Hc Hf Hst Hm]).
    destruct (headLoop _ _ _ _) as [[out count] st]. cbn in Hs, Ho, Hc, Hf, Hst |- *. intros HL HB _. exists k.
    unfold sliceTo in *. destruct (Z.ltb_spec (in_maxLines input) 0); [lia|]. rewrite length_take in Hs, Hst, Hm.
    rewrite take_take, (Nat.min_l k) in Ho, Hc by lia. rewrite cost_first in Hc. specialize (Hf ltac:(lia)). subst out.
    split_and!; [split; cbn; rewrite ?length_take, ?byteLength_count; split_and?; try done; unfold linesBytes in *; lia|..].
    + intros k' Hk Hl. destruct (decide (k' ≤ Z.to_nat (in_maxLines input))%nat); [right|left; lia].
      specialize (Hm k' Hk ltac:(lia)). rewrite take_take, (Nat.min_l k'), cost_first in Hm by lia. lia.
    + rewrite length_take, Nat.min_l by lia. rewrite (inj_iff Some). apply limit_by_lines; try lia.
      intros ->. symmetry in Hst. apply bool_decide_eq_false in Hst. lia.
    + split; [done|]. intros (l & ls & El & Hl). rewrite El in Ef. cbn in Ef. apply Z.ltb_ge in Ef. lia.
Qed.

(** output that exceeds its limits is cut from the tail to as many complete
    last lines as fit both limits; only where the last line alone is too long, its
    end is kept, as long as fits without splitting a character, and what is kept
    is a well-formed string within the bytes. *)
Theorem tail_keeps_the_lines_that_fit : let r := truncateTail text options in
  0 < r.(maxLines) → 0 ≤ r.(maxBytes) → Untouched r ∧ (r.(truncated) = true →
    if r.(lastLinePartial) then
      ∃ l i, last linesOf = Some l ∧ r.(maxBytes) < utf8ByteLength l ∧ LastPart r.(maxBytes) l r.(content) i ∧
        r.(outputBytes) ≤ r.(maxBytes) ∧ well_formed r.(content) = true
    else
      ∃ k, Fits r (drop k linesOf) ∧ ∀ k', (k' < k)%nat → (k ≤ length linesOf)%nat →
        r.(maxLines) < Z.of_nat (length linesOf - k') ∨ r.(maxBytes) < linesBytes (drop k' linesOf)).
Proof.
  intros r HL HB. split; [apply tail_untouched|]. revert HL HB. subst r. unfold truncateTail, linesOf.
  set (input := resolveTruncationInput text options). change (splitLinesForCounting text) with (in_lines input). clearbody input.
  destruct (within input) eqn:Ew; [done|]. set (lines := in_lines input).
  assert (Ht : ∀ m, reverse (take m (reverse lines)) = drop (length lines - m) lines) by (intros m; by rewrite take_reverse, reverse_involutive).
  intros HL HB _. assert (HB' : 0 ≤ in_maxBytes input) by (revert HB; by destruct (tailLoop _ _ _ _ _) as [[[out c] st] partial]).
  pose proof (tailLoop_kept (in_maxLines input) (in_maxBytes input) (reverse lines) [] 0 eq_refl HB') as Hk.
  destruct (tailLoop _ _ _ _ _) as [[[out c] st] []]; cbn in HL, HB |- *.
  - destruct Hk as (_ & _ & l & rest & El & Hl & -> & _). destruct (lastPart_kept l (in_maxBytes input)) as (i & Hi).
    exists l, i. cbn [js_join]. rewrite !byteLength_count. split_and!; try done.
    + rewrite <-(reverse_involutive lines), El, last_reverse. done.
    + rewrite (lp_out _ _ _ _ Hi), (proj1 (replace_facts _)). by apply (lp_fits _ _ _ _ Hi).
    + rewrite (lp_out _ _ _ _ Hi). apply replace_facts.
  - destruct Hk as (m & [Hs Ho Hc Hf Hl Hm]). rewrite app_nil_r, Ht in Ho. subst out. rewrite length_reverse in Hs, Hm.
    exists (length lines - m)%nat. specialize (Hl ltac:(cbn; lia)). split.
    + split; cbn; rewrite ?byteLength_count; split_and?; try done. unfold linesBytes in Hc. lia.
    + intros k' Hk' _. specialize (Hm (length lines - k')%nat ltac:(lia) ltac:(lia)). rewrite app_nil_r, Ht in Hm.
      replace (length lines - (length lines - k'))%nat with k' in Hm by lia. exact Hm.
Qed.
End truncations.

(** ** Samples *)

(** Two lines, and one that ends in a pair and half of one. *)
Definition sampleOutput : jsstr := lit "ab" ++ [NEWLINE] ++ lit "cde" ++ [NEWLINE] ++ [233; 55357; 56832; 56832] ++ lit "z".

Definition limits (lines bytes : Z) : TruncationOptions := {| opt_maxLines := Some lines; opt_maxBytes := Some bytes |}.

Lemma byte_count_is_utf8_length_witness :
  utf8 (drop 7 sampleOutput) = [195; 169; 240; 159; 152; 128; 239; 191; 189; 122] ∧
  utf8ByteLength sampleOutput = Z.of_nat (length (utf8 sampleOutput)).
Proof.
  split; [vm_compute; reflexivity|]. apply (byte_count_is_utf8_length sampleOutput).
  unfold isUnit. repeat constructor; vm_compute; congruence.
Defined.

Lemma head_keeps_the_lines_that_fit_witness : let r := truncateHead sampleOutput (limits 3 8) in
  r.(content) = lit "ab" ++ [NEWLINE] ++ lit "cde" ∧
  Untouched sampleOutput r ∧ (r.(truncated) = true → ∃ k, Fits r (take k (linesOf sampleOutput)) ∧
    (∀ k', (k < k')%nat → (k' ≤ length (linesOf sampleOutput))%nat →
      r.(maxLines) < Z.of_nat k' ∨ r.(maxBytes) < linesBytes (take k' (linesOf sampleOutput))) ∧
    (r.(truncatedBy) = Some ByLines ↔ Z.of_nat k = r.(maxLines) ∧ r.(maxLines) < r.(totalLines)) ∧
    (r.(firstLineExceedsLimit) = true ↔ ∃ l ls, linesOf sampleOutput = l :: ls ∧ r.(maxBytes) < utf8ByteLength l)).
Proof.
  split; [vm_compute; reflexivity|].
  apply (head_keeps_the_lines_that_fit sampleOutput (limits 3 8)); vm_compute; congruence.
Defined.

(** Seven bytes hold the last line without its first two characters. *)
Lemma tail_keeps_the_lines_that_fit_witness : let r := truncateTail sampleOutput (limits 3 7) in
  r.(content) = [REPLACEMENT; 122] ∧
  Untouched sampleOutput r ∧ (r.(truncated) = true →
    if r.(lastLinePartial) then
      ∃ l i, last (linesOf sampleOutput) = Some l ∧ r.(maxBytes) < utf8ByteLength l ∧ LastPart r.(maxBytes) l r.(content) i ∧
        r.(outputBytes) ≤ r.(maxBytes) ∧ well_formed r.(content) = true
    else
      ∃ k, Fits r (drop k (linesOf sampleOutput)) ∧ ∀ k', (k' < k)%nat → (k ≤ length (linesOf sampleOutput))%nat →
        r.(maxLines) < Z.of_nat (length (linesOf sampleOutput) - k') ∨ r.(maxBytes) < linesBytes (drop k' (linesOf sampleOutput))).
Proof.
  split; [vm_compute; reflexivity|].
  apply (tail_keeps_the_lines_that_fit sampleOutput (limits 3 7)); vm_compute; congruence.
Defined.

(** A cut line counts as a line of the output. *)
Example partial_line_is_counted : let r := truncateTail (lit "abcdef") (limits 3 2) in
  r.(lastLinePartial) = true ∧ r.(content) = lit "ef" ∧ r.(outputLines) = 1.
Proof. vm_compute. by split_and!. Qed.

Example sizes_read : formatSize 1023 = lit "1023B" ∧ formatSize 1587 = lit "1.5KB" ∧ formatSize 3000000 = lit "2.9MB".
Proof. vm_compute. by split_and!. Qed.

(** A line is not cut through a pair. *)
Example line_keeps_pairs : truncateLine (drop 7 sampleOutput) (Some 2) = ([233] ++ TRUNCATED_SUFFIX, true).
Proof. vm_compute. reflexivity. Qed.
