(* ===== verification/SessionContext.v ===== *)
(** * The context of a session

    Entries of a session branch and the messages that a model sees of them
    ([packages/agent-core/src/harness/session/session.ts]): what is behind the
    last compaction or reset, what that boundary kept, and the summary.

    Timestamps are left out.  A message has an address where a caller made its
    object.  Values of unknown type are represented by what the code asks of
    them. *)
From S2P Require Import Prelude JsCollections Utf16.
From S2P Require ToolPairing.
Local Open Scope Z_scope.

(** ** Messages *)

(** A block of user or tool content: its type, its text, and its content where
    that is a string. *)
Record ContentBlock := { cb_type : string; cb_text : option jsstr; cb_content : option jsstr }.

Inductive Content := CString (text : jsstr) | CBlocks (blocks : list ContentBlock).

(** Of the arguments of a call: the first string among [path], [file_path] and
    [filePath], and the JSON text. *)
Record CallArguments := { arg_path : option string; arg_json : jsstr }.

Inductive AssistantBlock :=
| BText (text : jsstr)
| BThinking (thinking : jsstr)
| BCall (id name : string) (arguments : CallArguments).

Inductive ContextUsage := UsageAvailable (totalTokens : Z) | UsageUnavailable.

#[export] Instance ContextUsage_eq_dec : EqDecision ContextUsage.
Proof. solve_decision. Defined.

Record Usage := {
  u_contextUsage : option ContextUsage;
  u_totalTokens : Z;
  u_input : Z;
  u_output : Z;
  u_cacheRead : Z;
  u_cacheWrite : Z
}.

(** [as_checkpoint]: the replay state of the provider is bound to the prefix. *)
Record AssistantMessage := {
  as_content : list AssistantBlock;
  as_stopReason : string;
  as_usage : option Usage;
  as_cli : bool;
  as_provider : string;
  as_model : string;
  as_checkpoint : bool
}.

#[export] Instance AssistantMessage_eta : Eta AssistantMessage := λ a,
  {| as_content := a.(as_content); as_stopReason := a.(as_stopReason); as_usage := a.(as_usage); as_cli := a.(as_cli);
     as_provider := a.(as_provider); as_model := a.(as_model); as_checkpoint := a.(as_checkpoint) |}.

(** [tr_synthetic]: the marker of a result that a repair inserted.  [tr_patches]
    are the added and the modified paths in the details of the message and of its
    blocks. *)
Record ToolResultMessage := {
  tr_toolCallId : string;
  tr_toolName : string;
  tr_content : Content;
  tr_isError : bool;
  tr_synthetic : bool;
  tr_patches : list (list string * list string)
}.

Inductive Body :=
| MUser (content : Content)
| MAssistant (a : AssistantMessage)
| MToolResult (r : ToolResultMessage)
| MBashExecution (command output : jsstr) (excludeFromContext : bool)
| MCustom (customType : string) (content : Content) (excludeFromContext : bool)
| MBranchSummary (summary : jsstr) (fromId : string)
| MCompactionSummary (summary : jsstr) (tokensBefore : Z).

(** [m_prelude]: the mark of history that a reset kept. *)
Record AgentMessage := { m_ref : option nat; m_body : Body; m_prelude : bool }.

#[export] Instance AgentMessage_eta : Eta AgentMessage := λ m,
  {| m_ref := m.(m_ref); m_body := m.(m_body); m_prelude := m.(m_prelude) |}.

Definition made (body : Body) : AgentMessage := {| m_ref := None; m_body := body; m_prelude := false |}.

Definition isExcluded (m : AgentMessage) : bool :=
  match m.(m_body) with MBashExecution _ _ e | MCustom _ _ e => e | _ => false end.

(** ** Entries *)

Record CompactionDetails := { readFiles : list string; modifiedFiles : list string }.

(** The entries without a message or a boundary that the context looks at are
    changes of the level and of the model. *)
Inductive EntryData :=
| EMessage (m : AgentMessage)
| ECustomMessage (customType : string) (content : Content)
| EBranchSummary (summary : jsstr) (fromId : string) (details : option CompactionDetails) (fromHook : bool)
| ECompaction (summary : jsstr) (firstKeptEntryId : string) (tokensBefore : Z) (details : option CompactionDetails) (fromHook : bool)
| EReset (firstKeptEntryId : option string)
| EThinkingLevelChange (thinkingLevel : string)
| EModelChange (provider modelId : string)
| EOther.

Record SessionTreeEntry := { e_id : string; e_data : EntryData }.

Record SessionContext := {
  messages : list AgentMessage;
  thinkingLevel : string;
  model : option (string * string)
}.

Definition projectSessionEntryMessage (entry : SessionTreeEntry) : option AgentMessage :=
  match entry.(e_data) with
  | EMessage m => if isExcluded m then None else Some m
  | ECustomMessage customType content => Some (made (MCustom customType content false))
  | EBranchSummary summary fromId _ _ => Some (made (MBranchSummary summary fromId))
  | ECompaction summary _ tokensBefore _ _ => Some (made (MCompactionSummary summary tokensBefore))
  | _ => None
  end.

(** A message that is changed is a copy. *)
Definition stripStalePrefixReplay (m : AgentMessage) : AgentMessage :=
  match m.(m_body) with
  | MAssistant a => if a.(as_checkpoint) then m <| m_ref := None |> <| m_body := MAssistant (a <| as_checkpoint := false |>) |> else m
  | _ => m
  end.

Definition contextMessage (prefixWasRewritten : bool) (entry : SessionTreeEntry) : list AgentMessage :=
  match entry.(e_data) with
  | ECompaction _ _ _ _ _ => []
  | EBranchSummary [] _ _ _ => []
  | _ =>
      match projectSessionEntryMessage entry with
      | Some m => [if prefixWasRewritten then stripStalePrefixReplay m else m]
      | None => []
      end
  end.

Definition resetKeptMessage (entry : SessionTreeEntry) : list AgentMessage :=
  match entry.(e_data) with
  | EMessage m =>
      match m.(m_body) with
      | MUser _ | MAssistant _ => [(stripStalePrefixReplay m) <| m_ref := None |> <| m_prelude := true |>]
      | MToolResult _ => [m]
      | _ => []
      end
  | _ => []
  end.

(** ** What a reset keeps *)

(** What the pairing of calls and results asks of a message. *)
Definition pairingView (m : AgentMessage) : ToolPairing.AgentMessage :=
  let block (b : AssistantBlock) : option ToolPairing.Block :=
    match b with
    | BCall id name _ => Some {| ToolPairing.blockType := Some "toolCall"; ToolPairing.blockId := Some id;
                                 ToolPairing.blockName := Some name; ToolPairing.blockText := None |}
    | BText _ => Some {| ToolPairing.blockType := Some "text"; ToolPairing.blockId := None;
                         ToolPairing.blockName := None; ToolPairing.blockText := None |}
    | BThinking _ => Some {| ToolPairing.blockType := Some "thinking"; ToolPairing.blockId := None;
                             ToolPairing.blockName := None; ToolPairing.blockText := None |}
    end in
  let view role content stop name id err synthetic :=
    {| ToolPairing.ref := default 0%nat m.(m_ref); ToolPairing.role := role; ToolPairing.content := content;
       ToolPairing.stopReason := stop; ToolPairing.toolName := name; ToolPairing.toolCallId := id;
       ToolPairing.toolUseId := None; ToolPairing.tool_call_id := None; ToolPairing.tool_use_id := None;
       ToolPairing.callId := None; ToolPairing.call_id := None; ToolPairing.isError := err;
       ToolPairing.details := if synthetic : bool then Some true else None; ToolPairing.timestamp := 0 |} in
  match m.(m_body) with
  | MUser _ => view ToolPairing.RoleUser None None None None false false
  | MAssistant a => view ToolPairing.RoleAssistant (Some (block <$> a.(as_content))) (Some a.(as_stopReason)) None None false false
  | MToolResult r =>
      view ToolPairing.RoleToolResult None None (Some r.(tr_toolName)) (Some r.(tr_toolCallId)) r.(tr_isError) r.(tr_synthetic)
  | _ => view (ToolPairing.RoleOther "other") None None None None false false
  end.

Definition entryView (entry : SessionTreeEntry) : ToolPairing.SessionTreeEntry :=
  match entry.(e_data) with
  | EMessage m => ToolPairing.MessageEntry (pairingView m)
  | _ => ToolPairing.OtherEntry
  end.

(** An address that no message has. *)
Definition freshRef (entries : list ToolPairing.SessionTreeEntry) : nat :=
  S (foldr Nat.max 0%nat (ToolPairing.ref <$> ToolPairing.entryMessages entries)).

Definition selectResetKeptEntries (entries : list SessionTreeEntry) : list SessionTreeEntry :=
  let views := entryView <$> entries in
  let c := ToolPairing.classifyToolUseResultPairing false (Some <$> ToolPairing.entryMessages views) (freshRef views) in
  let pairedResults := ToolPairing.ref <$> omap ToolPairing.sourceResult c.(ToolPairing.heap) in
  List.filter (λ e, ToolPairing.keepEntry pairedResults (entryView e)) entries.

(** ** The context *)

Definition isBoundary (entry : SessionTreeEntry) : bool :=
  match entry.(e_data) with ECompaction _ _ _ _ _ | EReset _ => true | _ => false end.

Definition boundaryFirstKept (entry : SessionTreeEntry) : option string :=
  match entry.(e_data) with ECompaction _ firstKept _ _ _ => Some firstKept | EReset firstKept => firstKept | _ => None end.

(** [entries.findIndex((entry) => entry.id === id)] *)
Fixpoint indexOf (id : option string) (entries : list SessionTreeEntry) : option nat :=
  match entries with
  | [] => None
  | e :: r => if bool_decide (Some e.(e_id) = id) then Some 0%nat else S <$> indexOf id r
  end.

(** [entries.slice(from, to)] *)
Definition slice {A} (from to : nat) (l : list A) : list A := take (to - from) (drop from l).

Record ContextState := { cs_thinkingLevel : string; cs_model : option (string * string); cs_boundary : option SessionTreeEntry }.

#[export] Instance ContextState_eta : Eta ContextState := λ s,
  {| cs_thinkingLevel := s.(cs_thinkingLevel); cs_model := s.(cs_model); cs_boundary := s.(cs_boundary) |}.

Definition readState (s : ContextState) (entry : SessionTreeEntry) : ContextState :=
  match entry.(e_data) with
  | EThinkingLevelChange level => s <| cs_thinkingLevel := level |>
  | EModelChange provider modelId => s <| cs_model := Some (provider, modelId) |>
  | EMessage m => match m.(m_body) with
                  | MAssistant a => s <| cs_model := Some (a.(as_provider), a.(as_model)) |>
                  | _ => s
                  end
  | ECompaction _ _ _ _ _ | EReset _ => s <| cs_boundary := Some entry |>
  | _ => s
  end.

Definition isReset (entry : SessionTreeEntry) : bool := match entry.(e_data) with EReset _ => true | _ => false end.

Definition boundaryMessages (boundary : SessionTreeEntry) (pathEntries : list SessionTreeEntry) : list AgentMessage :=
  let summary := if isReset boundary then [] else match projectSessionEntryMessage boundary with Some m => [m] | None => [] end in
  let boundaryIdx := indexOf (Some boundary.(e_id)) pathEntries in
  let keptEntries :=
    match indexOf (boundaryFirstKept boundary) pathEntries, boundaryIdx with
    | Some firstKeptIdx, Some boundaryIdx =>
        if (firstKeptIdx <? boundaryIdx)%nat then slice firstKeptIdx boundaryIdx pathEntries else []
    | _, _ => []
    end in
  summary ++
  (if isReset boundary then selectResetKeptEntries keptEntries ≫= resetKeptMessage else keptEntries ≫= contextMessage true) ++
  (drop (match boundaryIdx with Some i => S i | None => 0%nat end) pathEntries ≫= contextMessage false).

Definition buildSessionContext (pathEntries : list SessionTreeEntry) : SessionContext :=
  let s := foldl readState {| cs_thinkingLevel := "off"; cs_model := None; cs_boundary := None |} pathEntries in
  {| messages := match s.(cs_boundary) with
                 | Some boundary => boundaryMessages boundary pathEntries
                 | None => pathEntries ≫= contextMessage false
                 end;
     thinkingLevel := s.(cs_thinkingLevel); model := s.(cs_model) |}.
