(* ===== verification/Compaction.v ===== *)
(** * Compaction

    What of a session is summarised and what is kept
    ([packages/agent-core/src/harness/compaction/compaction.ts], [utils.ts],
    [packages/normalization-core/src/cjk-chars.ts]): estimates of tokens, the
    cut, the preparation of a summary, the files that it names and its bound.

    Token counts are integers; the scaled budget is a rational.  The provider
    that writes summaries is a parameter, and the texts of its prompts are left
    out. *)
From Stdlib Require Import QArith Qminmax.
From stdpp Require Import sorting.
From S2P Require Import Prelude JsCollections JsStrings Utf16 NumberCoercion Truncate Effects SessionContext.
Local Open Scope Z_scope.

(** ** Estimates *)

Definition CHARS_PER_TOKEN_ESTIMATE : Z := 4.

Definition inRanges (ranges : list (Z * Z)) (c : Z) : bool := existsb (λ r, (r.1 <=? c) && (c <=? r.2)) ranges.

Definition COMMON_CJK : list (Z * Z) :=
  [(0xB7, 0xB7); (0x3000, 0x319F); (0x4E00, 0x9FA5); (0xAC00, 0xD7AF); (0xFF01, 0xFF60)].
Definition RARE_BMP_CJK : list (Z * Z) :=
  [(0x1100, 0x11FF); (0x2E80, 0x2FFF); (0x31A0, 0x4DFF); (0x9FA6, 0x9FFF); (0xA000, 0xA4FF); (0xA700, 0xA707);
   (0xA960, 0xA97F); (0xD7B0, 0xD7FF); (0xF900, 0xFAFF)].
Definition TWO_TOKEN_CJK : list (Z * Z) :=
  [(0x2C7, 0x2C7); (0x2C9, 0x2CB); (0x2D9, 0x2D9); (0x2EA, 0x2EB); (0xFE10, 0xFE4F); (0xFF61, 0xFFDC); (0xFFE0, 0xFFE6);
   (0x305, 0x305); (0x323, 0x323)].
Definition THREE_TOKEN_SUPPLEMENTARY_CJK : list (Z * Z) := [(0x1D360, 0x1D371)].
Definition SUPPLEMENTARY_CJK : list (Z * Z) :=
  [(0x16FE0, 0x16FFF); (0x1AFF0, 0x1AFFF); (0x1B000, 0x1B16F); (0x1F200, 0x1F2FF); (0x20000, 0x2FA1F); (0x30000, 0x3347F)].
Definition SPECIAL_CJK : list (Z * Z) :=
  [(0x2C7, 0x2C7); (0x2C9, 0x2CB); (0x2D9, 0x2D9); (0x2EA, 0x2EB); (0x1100, 0x11FF); (0x2E80, 0x2FFF); (0x31A0, 0x4DFF);
   (0x9FA6, 0x9FFF); (0xA000, 0xA4FF); (0xA700, 0xA707); (0xA960, 0xA97F); (0xD7B0, 0xD7FF); (0xF900, 0xFAFF);
   (0xFE10, 0xFE4F); (0xFF61, 0xFFDC); (0xFFE0, 0xFFE6); (0x16FE0, 0x16FFF); (0x1AFF0, 0x1AFFF); (0x1B000, 0x1B16F);
   (0x1D360, 0x1D371); (0x1F200, 0x1F2FF); (0x20000, 0x2FA1F); (0x30000, 0x3347F); (0x305, 0x305); (0x323, 0x323)].

(** [(text.match(pattern) ?? []).length]: a pattern matches one code point, and
    no pattern matches a surrogate without a partner. *)
Definition countMatches (ranges : list (Z * Z)) (text : jsstr) : Z :=
  Z.of_nat (length (List.filter (inRanges ranges) (codePoints text))).

Definition estimateStringChars (text : jsstr) : Z :=
  if negb (existsb (λ u, 127 <? u) text) then js_length text
  else
    let commonEstimate := js_length text + countMatches COMMON_CJK text * (CHARS_PER_TOKEN_ESTIMATE - 1) in
    if negb (existsb (inRanges SPECIAL_CJK) (codePoints text)) then commonEstimate
    else commonEstimate + countMatches RARE_BMP_CJK text * (CHARS_PER_TOKEN_ESTIMATE * 3 - 1)
         + countMatches TWO_TOKEN_CJK text * (CHARS_PER_TOKEN_ESTIMATE * 2 - 1)
         + countMatches THREE_TOKEN_SUPPLEMENTARY_CJK text * (CHARS_PER_TOKEN_ESTIMATE * 3 - 2)
         + countMatches SUPPLEMENTARY_CJK text * (CHARS_PER_TOKEN_ESTIMATE * 4 - 2).

Definition isToolResultBlock (b : ContentBlock) : bool :=
  bool_decide (b.(cb_type) = "toolResult") || bool_decide (b.(cb_type) = "tool_result").

Definition getCompactionContentBlockText (b : ContentBlock) : jsstr :=
  match b.(cb_text) with
  | Some (u :: r) => if bool_decide (b.(cb_type) = "text") || isToolResultBlock b then u :: r
                     else []
  | _ => if isToolResultBlock b then default [] b.(cb_content) else []
  end.

Definition IMAGE_OMISSION : jsstr := lit "[image data omitted from summary input]".
Definition OTHER_OMISSION : jsstr := lit "[non-text data omitted from summary input]".

Definition blockOmission (b : ContentBlock) : list jsstr :=
  if negb (bool_decide (b.(cb_type) = "text")) && bool_decide (getCompactionContentBlockText b = []) then
    [if bool_decide (b.(cb_type) = "image") then IMAGE_OMISSION else OTHER_OMISSION]
  else [].

(** The text, and what is said of blocks that are left out. *)
Definition getCompactionContent (content : Content) : jsstr * jsstr :=
  match content with
  | CString text => (text, [])
  | CBlocks blocks => (blocks ≫= getCompactionContentBlockText, js_join [NEWLINE] (JsSet.of_list (blocks ≫= blockOmission)))
  end.

Definition IMAGE_BLOCK_TOKENS : Z := 2000.
Definition IMAGE_BLOCK_CHARS : Z := IMAGE_BLOCK_TOKENS * CHARS_PER_TOKEN_ESTIMATE.

Definition countContentChars (content : Content) : Z :=
  let '(text, omissionText) := getCompactionContent content in
  let images := match content with
                | CString _ => 0
                | CBlocks blocks => Z.of_nat (length (List.filter (λ b, bool_decide (b.(cb_type) = "image")) blocks))
                end in
  let omissionChars := match omissionText with [] => 0 | _ => js_length omissionText + 17 end in
  estimateStringChars text + images * IMAGE_BLOCK_CHARS + omissionChars.

Definition blockChars (b : AssistantBlock) : Z :=
  match b with
  | BText text => estimateStringChars text
  | BThinking thinking => estimateStringChars thinking
  | BCall _ name arguments => estimateStringChars (lit name) + estimateStringChars arguments.(arg_json)
  end.

(** [Math.ceil(chars / CHARS_PER_TOKEN_ESTIMATE)] *)
Definition tokensOf (chars : Z) : Z := - (- chars / CHARS_PER_TOKEN_ESTIMATE).

Definition estimateTokens (m : AgentMessage) : Z :=
  if isExcluded m then 0
  else
    match m.(m_body) with
    | MAssistant a => tokensOf (foldl (λ n b, n + blockChars b) 0 a.(as_content))
    | MUser content | MCustom _ content _ => tokensOf (countContentChars content)
    | MToolResult r => tokensOf (countContentChars r.(tr_content))
    | MBashExecution command output _ => tokensOf (estimateStringChars command + estimateStringChars output)
    | MBranchSummary summary _ | MCompactionSummary summary _ => tokensOf (estimateStringChars summary)
    end.

Definition tokensIn (ms : list AgentMessage) : Z := foldl (λ n m, n + estimateTokens m) 0 ms.

(** ** Usage *)

Definition calculateContextTokens (u : Usage) : Z :=
  match u.(u_contextUsage) with
  | Some (UsageAvailable total) => total
  | _ => if u.(u_totalTokens) =? 0 then u.(u_input) + u.(u_output) + u.(u_cacheRead) + u.(u_cacheWrite) else u.(u_totalTokens)
  end.

Definition getAssistantUsage (m : AgentMessage) : option Usage :=
  match m.(m_body) with
  | MAssistant a =>
      if bool_decide (a.(as_stopReason) = "aborted") || bool_decide (a.(as_stopReason) = "error") then None
      else match a.(as_usage) with
           | Some u => if 0 <? calculateContextTokens u then Some u else None
           | None => None
           end
  | _ => None
  end.

Definition isUnavailableContextBarrier (m : AgentMessage) : bool :=
  match m.(m_body) with
  | MAssistant a =>
      match a.(as_usage) with
      | None => false
      | Some u =>
          match u.(u_contextUsage) with
          | None => a.(as_cli)
          | Some UsageUnavailable => calculateContextTokens u =? 0
          | Some (UsageAvailable _) => false
          end
      end
  | _ => false
  end.

(** From the last message on; the messages behind the one that is found. *)
Fixpoint lastUsage (rev after_ : list AgentMessage) : option (Usage * list AgentMessage) :=
  match rev with
  | [] => None
  | m :: rev =>
      if isUnavailableContextBarrier m then None
      else match getAssistantUsage m with
           | Some u => if bool_decide (u.(u_contextUsage) = Some UsageUnavailable) then lastUsage rev (m :: after_)
                       else Some (u, after_)
           | None => lastUsage rev (m :: after_)
           end
  end.

(** All tokens, and those that the provider has reported. *)
Definition estimateContextTokens (ms : list AgentMessage) : Z * Z :=
  match lastUsage (reverse ms) [] with
  | None => (tokensIn ms, 0)
  | Some (u, trailing) => (calculateContextTokens u + tokensIn trailing, calculateContextTokens u)
  end.

Record CompactionSettings := { enabled : bool; reserveTokens : Z; keepRecentTokens : Z }.

(** [contextWindow] is [None] where it is not finite. *)
Definition shouldCompact (contextTokens : Z) (contextWindow : option Z) (settings : CompactionSettings) : bool :=
  match contextWindow with
  | Some w => if negb settings.(enabled) || (w <=? 0) then false else w - settings.(reserveTokens) <? contextTokens
  | None => false
  end.

(** ** The cut *)

Definition getMessageFromEntryForCompaction (entry : SessionTreeEntry) : option AgentMessage :=
  match entry.(e_data) with ECompaction _ _ _ _ _ => None | _ => projectSessionEntryMessage entry end.

Definition isCutPointMessage (m : AgentMessage) : bool := match m.(m_body) with MToolResult _ => false | _ => true end.

Definition isTurnStartMessage (m : AgentMessage) : bool :=
  match m.(m_body) with MAssistant _ | MToolResult _ => false | _ => true end.

Definition isTurnStartEntry (entry : SessionTreeEntry) : bool :=
  match getMessageFromEntryForCompaction entry with Some m => isTurnStartMessage m | None => false end.

Definition isCutPointEntry (entry : SessionTreeEntry) : bool :=
  match getMessageFromEntryForCompaction entry with Some m => isCutPointMessage m | None => false end.

(** [p(entries[i])], where there is one. *)
Definition entryIs (p : SessionTreeEntry → bool) (entries : list SessionTreeEntry) (i : nat) : bool :=
  match entries !! i with Some e => p e | None => false end.

Definition findValidCutPoints (entries : list SessionTreeEntry) (startIndex endIndex : nat) : list nat :=
  List.filter (entryIs isCutPointEntry entries) (seq startIndex (endIndex - startIndex)).

(** From [entryIndex] down to [startIndex]; [None] stands for [-1]. *)
Definition findTurnStartIndex (entries : list SessionTreeEntry) (entryIndex startIndex : nat) : option nat :=
  List.find (entryIs isTurnStartEntry entries) (reverse (seq startIndex (S entryIndex - startIndex))).

Record CutPointResult := { firstKeptEntryIndex : nat; turnStartIndex : option nat; isSplitTurn : bool }.

(** The index at which the tokens from the end reach [keepRecentTokens]. *)
Fixpoint budgetIndex (entries : list SessionTreeEntry) (keepRecentTokens : Q) (accumulatedTokens : Z) (indices : list nat) : option nat :=
  match indices with
  | [] => None
  | i :: rest =>
      match entries !! i ≫= getMessageFromEntryForCompaction with
      | None => budgetIndex entries keepRecentTokens accumulatedTokens rest
      | Some m =>
          let accumulatedTokens := accumulatedTokens + estimateTokens m in
          if Qle_bool keepRecentTokens (inject_Z accumulatedTokens) then Some i
          else budgetIndex entries keepRecentTokens accumulatedTokens rest
      end
  end.

Definition isMessageEntry (entry : SessionTreeEntry) : bool := match entry.(e_data) with EMessage _ => true | _ => false end.

(** Entries that hold neither a message nor a boundary go with what follows. *)
Definition stopsCut (entry : SessionTreeEntry) : bool :=
  isBoundary entry || isMessageEntry entry || bool_decide (is_Some (getMessageFromEntryForCompaction entry)).

Fixpoint overMetadata (entries : list SessionTreeEntry) (startIndex cutIndex : nat) : nat :=
  match cutIndex with
  | O => O
  | S prev =>
      if (startIndex <? cutIndex)%nat then
        match entries !! prev with
        | None => cutIndex
        | Some e => if stopsCut e then cutIndex else overMetadata entries startIndex prev
        end
      else cutIndex
  end.

(** [None]: the error that the cut references no entry. *)
Definition findCutPoint (entries : list SessionTreeEntry) (startIndex endIndex : nat) (keepRecentTokens : Q) : option CutPointResult :=
  let cutPoints := findValidCutPoints entries startIndex endIndex in
  match cutPoints with
  | [] => Some {| firstKeptEntryIndex := startIndex; turnStartIndex := None; isSplitTurn := false |}
  | firstCutIndex :: _ =>
      let chosen :=
        match budgetIndex entries keepRecentTokens 0 (reverse (seq startIndex (endIndex - startIndex))) with
        | None => firstCutIndex
        | Some i => match List.find (λ c, (i <=? c)%nat) cutPoints with
                    | Some cutPoint => cutPoint
                    | None => List.last cutPoints firstCutIndex
                    end
        end in
      let cutIndex := overMetadata entries startIndex chosen in
      match entries !! cutIndex with
      | None => None
      | Some cutEntry =>
          let startsTurn := isTurnStartEntry cutEntry in
          let turnStart := if startsTurn then None else findTurnStartIndex entries cutIndex startIndex in
          Some {| firstKeptEntryIndex := cutIndex; turnStartIndex := turnStart;
                  isSplitTurn := negb startsTurn && bool_decide (is_Some turnStart) |}
      end
  end.

(** ** Files *)

(** The name behind the prefix of a server. *)
Definition normalizeFileToolName (value : string) : string :=
  let name := js_lower value in
  let from := if starts_with "mcp__" name then 5%nat else 0%nat in
  match index_of "__" (str_drop from name) with
  | None => name
  | Some separator => str_drop (from + separator + 2) name
  end.

Record FileOperations := { fo_read : list string; fo_written : list string; fo_edited : list string }.

#[export] Instance FileOperations_eta : Eta FileOperations := λ f,
  {| fo_read := f.(fo_read); fo_written := f.(fo_written); fo_edited := f.(fo_edited) |}.

Definition createFileOps : FileOperations := {| fo_read := []; fo_written := []; fo_edited := [] |}.

Definition addFilePaths (paths target : list string) : list string := foldl (λ s p, JsSet.add p s) target paths.

Definition mergeSummaryFileOperations (details : CompactionDetails) (f : FileOperations) : FileOperations :=
  f <| fo_read ::= addFilePaths details.(readFiles) |> <| fo_edited ::= addFilePaths details.(modifiedFiles) |>.

Definition extractFromBlock (f : FileOperations) (b : AssistantBlock) : FileOperations :=
  match b with
  | BCall _ name arguments =>
      match arguments.(arg_path) with
      | None | Some EmptyString => f
      | Some path =>
          let tool := normalizeFileToolName name in
          if bool_decide (tool = "read") then f <| fo_read ::= JsSet.add path |>
          else if bool_decide (tool = "write") then f <| fo_written ::= JsSet.add path |>
          else if bool_decide (tool = "edit") then f <| fo_edited ::= JsSet.add path |>
          else f
      end
  | _ => f
  end.

Definition extractFileOpsFromMessage (f : FileOperations) (m : AgentMessage) : FileOperations :=
  match m.(m_body) with
  | MToolResult r =>
      if bool_decide (normalizeFileToolName r.(tr_toolName) = "apply_patch") then
        foldl (λ f '(added, modified), f <| fo_written ::= addFilePaths added |> <| fo_edited ::= addFilePaths modified |>)
          f r.(tr_patches)
      else f
  | MAssistant a => foldl extractFromBlock f a.(as_content)
  | _ => f
  end.

Definition toSorted (l : list string) : list string := merge_sort string_le l.

Definition computeFileLists (f : FileOperations) : CompactionDetails :=
  let modified := JsSet.of_list (f.(fo_edited) ++ f.(fo_written)) in
  {| readFiles := toSorted (List.filter (λ p, negb (JsSet.has p modified)) f.(fo_read)); modifiedFiles := toSorted modified |}.

Definition MAX_FILE_OPS_SECTION_CHARS : Z := 2000.
Definition MAX_FILE_OPS_LIST_CHARS : Z := 900.

Definition overflowLine (count : nat) : jsstr := lit "...and " ++ lit (show_int (Z.of_nat count)) ++ lit " more" ++ [NEWLINE].

Fixpoint boundedLines (maxChars usedChars : Z) (files : list string) : list jsstr :=
  match files with
  | [] => []
  | file :: rest =>
      let line := lit file ++ [NEWLINE] in
      let overflow := match rest with [] => [] | _ => overflowLine (length rest) end in
      if maxChars <? usedChars + js_length line + js_length overflow then
        if usedChars + js_length (overflowLine (length files)) <=? maxChars then [overflowLine (length files)] else []
      else line :: boundedLines maxChars (usedChars + js_length line) rest
  end.

Definition formatBoundedFileList (tag : string) (files : list string) (maxChars : Z) : jsstr :=
  match files with
  | [] => []
  | _ =>
      if maxChars <=? 0 then []
      else
        let openTag := lit "<" ++ lit tag ++ lit ">" ++ [NEWLINE] in
        let closeTag := [NEWLINE] ++ lit "</" ++ lit tag ++ lit ">" in
        match boundedLines maxChars (js_length openTag + js_length closeTag) files with
        | [] => []
        | lines => openTag ++ trimEnd (concat lines) ++ closeTag
        end
  end.

Definition formatFileOperations (read modified : list string) : jsstr :=
  let sections := List.filter (λ s, negb (bool_decide (s = [])))
    [formatBoundedFileList "read-files" read MAX_FILE_OPS_LIST_CHARS;
     formatBoundedFileList "modified-files" modified MAX_FILE_OPS_LIST_CHARS] in
  match sections with
  | [] => []
  | _ =>
      let joined := [NEWLINE; NEWLINE] ++ js_join [NEWLINE; NEWLINE] sections in
      if MAX_FILE_OPS_SECTION_CHARS <? js_length joined then sliceTo MAX_FILE_OPS_SECTION_CHARS joined else joined
  end.

(** ** Preparation *)

Record CompactionPreparation := {
  firstKeptEntryId : string;
  messagesToSummarize : list AgentMessage;
  turnPrefixMessages : list AgentMessage;
  splitsTurn : bool;
  tokensBefore : Z;
  previousSummary : option jsstr;
  previousSummaryDetails : option CompactionDetails;
  fileOps : FileOperations;
  settings : CompactionSettings
}.

Inductive PrepareResult :=
| NothingToCompact
| InvalidSession
| CutPointError
| Prepared (p : CompactionPreparation).

Definition messagesOf (entries : list SessionTreeEntry) : list AgentMessage := omap getMessageFromEntryForCompaction entries.

(** The last boundary of a path, and its index. *)
Fixpoint lastBoundary (entries : list SessionTreeEntry) : option (nat * SessionTreeEntry) :=
  match entries with
  | [] => None
  | e :: r => match lastBoundary r with
              | Some (i, b) => Some (S i, b)
              | None => if isBoundary e then Some (0%nat, e) else None
              end
  end.

(** What compaction starts from: the entries and the index of the first that may
    be summarised, messages that a reset kept, the previous summary. *)
Record CompactionStart := {
  st_entries : list SessionTreeEntry;
  st_start : nat;
  st_prelude : list AgentMessage;
  st_previous : option SessionTreeEntry
}.

Definition compactionStart (pathEntries : list SessionTreeEntry) : CompactionStart :=
  match lastBoundary pathEntries with
  | None => {| st_entries := pathEntries; st_start := 0; st_prelude := []; st_previous := None |}
  | Some (i, boundary) =>
      let firstKeptIndex := indexOf (boundaryFirstKept boundary) pathEntries in
      if isReset boundary then
        {| st_entries := drop (S i) pathEntries; st_start := 0;
           st_prelude := match firstKeptIndex with
                         | Some k => messagesOf (selectResetKeptEntries (slice k i pathEntries))
                         | None => []
                         end;
           st_previous := None |}
      else {| st_entries := pathEntries; st_start := default (S i) firstKeptIndex; st_prelude := []; st_previous := Some boundary |}
  end.

(** Tokens to keep, in the units of the estimate. *)
Definition scaledKeepRecentTokens (settings : CompactionSettings) (usageTokens totalEstimated preludeTokens : Z) : Q :=
  let triggerUnitScale :=
    if 0 <? totalEstimated then
      Qmin (inject_Z (1 `max` settings.(keepRecentTokens))) (Qmax 1 (inject_Z usageTokens / inject_Z totalEstimated))
    else 1%Q in
  Qmin (inject_Z MAX_SAFE_INTEGER) (inject_Z settings.(keepRecentTokens) / triggerUnitScale + inject_Z preludeTokens).

(** An empty path, one that was reset, or one whose compaction is owned by a
    hook: the boundary of the current turn. *)
Definition nothingSince (pathEntries : list SessionTreeEntry) : bool :=
  match last pathEntries with
  | None => true
  | Some lastEntry => match lastEntry.(e_data) with
                      | EReset _ => true
                      | ECompaction _ _ _ _ fromHook => fromHook
                      | _ => false
                      end
  end.

Definition summaryOf (entry : SessionTreeEntry) : option jsstr :=
  match entry.(e_data) with ECompaction summary _ _ _ _ => Some summary | _ => None end.

(** The files of a compaction that is not owned by a hook. *)
Definition detailsOf (entry : SessionTreeEntry) : option CompactionDetails :=
  match entry.(e_data) with ECompaction _ _ _ details false => details | _ => None end.

Definition extractFileOperations (ms : list AgentMessage) (previous : option SessionTreeEntry) : FileOperations :=
  foldl extractFileOpsFromMessage (match previous ≫= detailsOf with
                                   | Some details => mergeSummaryFileOperations details createFileOps
                                   | None => createFileOps
                                   end) ms.

Definition prepareCompaction (pathEntries : list SessionTreeEntry) (settings : CompactionSettings) : PrepareResult :=
  if nothingSince pathEntries then NothingToCompact
  else
    let start := compactionStart pathEntries in
    let contextMessages := (buildSessionContext pathEntries).(messages) in
    let '(tokensBefore, usageTokens) := estimateContextTokens contextMessages in
    let keepRecentTokens :=
      scaledKeepRecentTokens settings usageTokens (tokensIn contextMessages) (tokensIn start.(st_prelude)) in
    match findCutPoint start.(st_entries) start.(st_start) (length start.(st_entries)) keepRecentTokens with
    | None => CutPointError
    | Some cut =>
        let firstKeptId := match start.(st_entries) !! cut.(firstKeptEntryIndex) with Some e => e.(e_id) | None => EmptyString end in
        if bool_decide (firstKeptId = EmptyString) then InvalidSession
        else
          let turnStart := default 0%nat cut.(turnStartIndex) in
          let historyEnd := if cut.(isSplitTurn) then turnStart else cut.(firstKeptEntryIndex) in
          let toSummarize := start.(st_prelude) ++ messagesOf (slice start.(st_start) historyEnd start.(st_entries)) in
          let turnPrefix :=
            if cut.(isSplitTurn) then messagesOf (slice turnStart cut.(firstKeptEntryIndex) start.(st_entries)) else [] in
          if bool_decide (toSummarize = []) && bool_decide (turnPrefix = []) then NothingToCompact
          else
            Prepared {| firstKeptEntryId := firstKeptId; messagesToSummarize := toSummarize; turnPrefixMessages := turnPrefix;
                        splitsTurn := cut.(isSplitTurn); tokensBefore := tokensBefore;
                        previousSummary := start.(st_previous) ≫= summaryOf;
                        previousSummaryDetails := start.(st_previous) ≫= detailsOf;
                        fileOps := foldl extractFileOpsFromMessage (extractFileOperations toSummarize start.(st_previous)) turnPrefix;
                        settings := settings |}
    end.

(** ** The summary *)

Definition MAX_COMPACTION_SUMMARY_CHARS : Z := 16000.
Definition SUMMARY_TRUNCATED_MARKER : jsstr := [NEWLINE; NEWLINE] ++ lit "[Compaction summary truncated to fit budget]".

Definition ends_with16 (suffix s : jsstr) : bool := bool_decide (drop (length s - length suffix) s = suffix).

Definition capCompactionSummary (summary : jsstr) (maxChars : Z) (preservedSuffix : jsstr) : jsstr :=
  if (maxChars <=? 0) || (js_length summary <=? maxChars) then summary
  else
    let suffix := if ends_with16 preservedSuffix summary then preservedSuffix else [] in
    if maxChars <? js_length SUMMARY_TRUNCATED_MARKER + js_length suffix then truncateUtf16Safe summary maxChars
    else
      let budget := maxChars - js_length SUMMARY_TRUNCATED_MARKER - js_length suffix in
      let prefix := take (length summary - length suffix) summary in
      truncateUtf16Safe prefix budget ++ SUMMARY_TRUNCATED_MARKER ++ suffix.

Inductive PromptKind := SummarizationPrompt | UpdatePrompt | TurnPrefixPrompt.

(** [None] for the limit of a model without one. *)
Record SummaryRequest := {
  sr_prompt : PromptKind;
  sr_messages : list AgentMessage;
  sr_customInstructions : option jsstr;
  sr_previousSummary : option jsstr;
  sr_maxTokens : Z
}.

(** How a completion stopped, and the texts of its blocks. *)
Inductive SummaryStop := StopAborted | StopError | StopOther.

Record SummaryResponse := { sp_stop : SummaryStop; sp_texts : list jsstr }.

Inductive CompactionErrorCode := CodeAborted | CodeSummarizationFailed | CodeInvalidSession | CodeInvalidSummaryOutput.

Definition extractSummaryText (response : SummaryResponse) : option jsstr :=
  let summary := js_join [NEWLINE] response.(sp_texts) in
  match js_trim16 summary with [] => None | _ => Some summary end.

Record CompactionResult := {
  cr_summary : jsstr;
  cr_firstKeptEntryId : string;
  cr_tokensBefore : Z;
  cr_details : CompactionDetails
}.

Section compact.
Context {W : Type} (complete : SummaryRequest → W → SummaryResponse * W).

Abbreviation C A := (W → (CompactionErrorCode + A) * W).

Definition runSummarizationCompletion (request : SummaryRequest) : C jsstr := λ w,
  let '(response, w) := complete request w in
  (match response.(sp_stop) with
   | StopAborted => inl CodeAborted
   | StopError => inl CodeSummarizationFailed
   | StopOther => match extractSummaryText response with Some summary => inr summary | None => inl CodeInvalidSummaryOutput end
   end, w).

(** [Math.min] with the limit of the model, where it has one. *)
Definition limited (tokens modelMaxTokens : Z) : Z := if 0 <? modelMaxTokens then tokens `min` modelMaxTokens else tokens.

(** [previousSummary] is used where it is not empty. *)
Definition generateSummary (ms : list AgentMessage) (modelMaxTokens reserveTokens : Z) (customInstructions previousSummary : option jsstr) : C jsstr :=
  runSummarizationCompletion
    {| sr_prompt := match previousSummary with Some (_ :: _) => UpdatePrompt | _ => SummarizationPrompt end;
       sr_messages := ms; sr_customInstructions := customInstructions;
       sr_previousSummary := match previousSummary with Some (u :: r) => Some (u :: r) | _ => None end;
       sr_maxTokens := limited (4 * reserveTokens / 5) modelMaxTokens |}.

Definition NO_PRIOR_HISTORY : jsstr := lit "No prior history.".
Definition TURN_CONTEXT_HEADER : jsstr :=
  [NEWLINE; NEWLINE] ++ lit "---" ++ [NEWLINE; NEWLINE] ++ lit "**Turn Context (split turn):**" ++ [NEWLINE; NEWLINE].

(** The previous summary without the files that were appended to it. *)
Definition preservedPreviousSummary (p : CompactionPreparation) : option jsstr :=
  let previousFileOperations :=
    match p.(previousSummaryDetails) with Some d => formatFileOperations d.(readFiles) d.(modifiedFiles) | None => [] end in
  match previousFileOperations, p.(previousSummary) with
  | _ :: _, Some s => if ends_with16 previousFileOperations s then Some (take (length s - length previousFileOperations) s) else Some s
  | _, previous => previous
  end.

(** The summary of [compact], of its parts. *)
Definition assembleSummary (history latestContext fileOperations : jsstr) : jsstr :=
  let preservedHistoryChars := js_length history `min` (MAX_COMPACTION_SUMMARY_CHARS / 2) in
  let latestContextBudget :=
    MAX_COMPACTION_SUMMARY_CHARS - js_length SUMMARY_TRUNCATED_MARKER - js_length fileOperations - preservedHistoryChars in
  let latestContext := capCompactionSummary latestContext latestContextBudget [] ++ fileOperations in
  capCompactionSummary (history ++ latestContext) MAX_COMPACTION_SUMMARY_CHARS latestContext.

Definition summarizesTurnPrefix (p : CompactionPreparation) : bool :=
  p.(splitsTurn) && negb (bool_decide (p.(turnPrefixMessages) = [])).

Definition summarizeHistory (p : CompactionPreparation) (modelMaxTokens : Z) (customInstructions : option jsstr) : C jsstr :=
  if negb (bool_decide (p.(messagesToSummarize) = [])) || negb (summarizesTurnPrefix p) then
    generateSummary p.(messagesToSummarize) modelMaxTokens p.(settings).(reserveTokens) customInstructions p.(previousSummary)
  else λ w, (inr (default NO_PRIOR_HISTORY (preservedPreviousSummary p)), w).

Definition summarizeTurnPrefix (p : CompactionPreparation) (modelMaxTokens : Z) (customInstructions : option jsstr) : C jsstr :=
  runSummarizationCompletion
    {| sr_prompt := TurnPrefixPrompt; sr_messages := p.(turnPrefixMessages); sr_customInstructions := customInstructions;
       sr_previousSummary := None; sr_maxTokens := limited (p.(settings).(reserveTokens) / 2) modelMaxTokens |}.

Definition compact (p : CompactionPreparation) (modelMaxTokens : Z) (customInstructions : option jsstr) : C CompactionResult := λ w,
  if bool_decide (p.(firstKeptEntryId) = EmptyString) then (inl CodeInvalidSession, w)
  else
    let '(historyResult, w) := summarizeHistory p modelMaxTokens customInstructions w in
    match historyResult with
    | inl e => (inl e, w)
    | inr history =>
        let '(prefixResult, w) :=
          if summarizesTurnPrefix p then summarizeTurnPrefix p modelMaxTokens customInstructions w else (inr [], w) in
        match prefixResult with
        | inl e => (inl e, w)
        | inr turnPrefix =>
            let latestContext := if summarizesTurnPrefix p then TURN_CONTEXT_HEADER ++ turnPrefix else [] in
            let details := computeFileLists p.(fileOps) in
            let fileOperations := formatFileOperations details.(readFiles) details.(modifiedFiles) in
            (inr {| cr_summary := assembleSummary history latestContext fileOperations;
                    cr_firstKeptEntryId := p.(firstKeptEntryId); cr_tokensBefore := p.(tokensBefore); cr_details := details |}, w)
        end
    end.
End compact.
