(* ===== verification/CompactionFacts.v ===== *)
(** * Facts on the cut and the context

    Boundaries and their indices, the part of a path that a cut keeps, and the
    bare messages of entries: without the marks that the context puts on them. *)
From Stdlib Require Import QArith.
From S2P Require Import Prelude Utf16 SessionContext Compaction.
Local Open Scope nat_scope.

Lemma take_slice {A} (a b c : nat) (l : list A) : a ≤ b → b ≤ c → slice a b l ++ slice b c l = slice a c l.
Proof.
  intros Hab Hbc. unfold slice. replace (c - a) with ((b - a) + (c - b)) by lia. rewrite <-take_take_drop. f_equal.
  rewrite drop_drop. do 2 f_equal. lia.
Qed.

Lemma slice_rest {A} (a b : nat) (l : list A) : a ≤ b → slice a b l ++ drop b l = drop a l.
Proof. intros Hab. unfold slice. rewrite <-(take_drop (b - a) (drop a l)) at 2. f_equal. rewrite drop_drop. f_equal. lia. Qed.

Lemma slice_all {A} (a b : nat) (l : list A) : length l ≤ b → slice a b l = drop a l.
Proof. intros Hb. unfold slice. apply take_ge. rewrite length_drop. lia. Qed.

Lemma lookup_slice {A} (a b i : nat) (l : list A) x : slice a b l !! i = Some x ↔ l !! (a + i) = Some x ∧ i < b - a.
Proof. unfold slice. rewrite lookup_take_Some, lookup_drop. done. Qed.

(** ** Boundaries *)

Lemma boundary_read path : ∀ s, (foldl readState s path).(cs_boundary) =
  match lastBoundary path with Some (_, b) => Some b | None => s.(cs_boundary) end.
Proof.
  induction path as [|e path IH]; intros s; [done|]. cbn. rewrite IH. destruct (lastBoundary path) as [[i b]|]; [done|].
  unfold readState, isBoundary. destruct e as [id []]; try done. cbn. by destruct (m_body m).
Qed.

Lemma lastBoundary_some path i b : lastBoundary path = Some (i, b) →
  path !! i = Some b ∧ isBoundary b = true ∧ Forall (λ e, isBoundary e = false) (drop (S i) path).
Proof.
  revert i. induction path as [|e path IH]; intros i; [done|]. cbn. destruct (lastBoundary path) as [[j b']|] eqn:E.
  - intros [= <- ->]. destruct (IH j eq_refl) as (? & ? & ?). by split_and!.
  - destruct (isBoundary e) eqn:Eb; [|done]. intros [= <- <-]. split_and!; [done..|]. clear IH Eb. rewrite drop_0.
    induction path as [|e' path IH]; [constructor|]. cbn in E. destruct (lastBoundary path) as [[]|]; [done|].
    destruct (isBoundary e') eqn:E'; [done|]. constructor; [done|by apply IH].
Qed.

Lemma lastBoundary_snoc path c : isBoundary c = true → lastBoundary (path ++ [c]) = Some (length path, c).
Proof. intros Hc. induction path as [|e path IH]; cbn; [by rewrite Hc|]. by rewrite IH. Qed.

(** ** Indices *)

Lemma indexOf_lookup id path k : indexOf (Some id) path = Some k → ∃ e, path !! k = Some e ∧ e.(e_id) = id.
Proof.
  revert k. induction path as [|e path IH]; intros k; [done|]. cbn. case_bool_decide as He.
  - intros [= <-]. injection He as He. by exists e.
  - destruct (indexOf (Some id) path) as [j|]; [|done]. intros [= <-]. destruct (IH j eq_refl) as (e' & ? & ?). by exists e'.
Qed.

Lemma indexOf_none path : indexOf None path = None.
Proof. induction path as [|e path IH]; [done|]. cbn. by rewrite IH. Qed.

Lemma indexOf_some id path k : indexOf id path = Some k → ∃ i e, id = Some i ∧ path !! k = Some e ∧ e.(e_id) = i.
Proof.
  destruct id as [i|]; [|by rewrite indexOf_none]. intros (e & ? & ?)%indexOf_lookup. by exists i, e.
Qed.

Lemma indexOf_at path k e : NoDup (e_id <$> path) → path !! k = Some e → indexOf (Some e.(e_id)) path = Some k.
Proof.
  revert k. induction path as [|e' path IH]; intros k; [done|]. cbn. intros [Hn Hd]%NoDup_cons Hk. destruct k as [|k]; cbn in Hk.
  - injection Hk as ->. by rewrite bool_decide_true.
  - case_bool_decide as He; [|by rewrite (IH k)]. injection He as He. destruct Hn. rewrite He.
    apply list_elem_of_fmap_2, (list_elem_of_lookup_2 _ k), Hk.
Qed.

(** ** Bare messages *)

Definition bareOne (m : AgentMessage) : list AgentMessage :=
  match m.(m_body) with
  | MBranchSummary [] _ => []
  | _ => [(stripStalePrefixReplay m) <| m_ref := None |> <| m_prelude := false |>]
  end.

(** Messages without their marks and addresses, and without empty summaries of branches. *)
Definition bare (ms : list AgentMessage) : list AgentMessage := ms ≫= bareOne.

Lemma bare_app l l' : bare (l ++ l') = bare l ++ bare l'.
Proof. apply bind_app. Qed.

Lemma strip_strip m : stripStalePrefixReplay (stripStalePrefixReplay m) = stripStalePrefixReplay m.
Proof.
  destruct m as [r [|a| | | | |] p]; try done. unfold stripStalePrefixReplay. cbn. destruct (as_checkpoint a) eqn:E; cbn; [done|by rewrite E].
Qed.

Lemma bareOne_strip m : bareOne (stripStalePrefixReplay m) = bareOne m.
Proof.
  unfold bareOne. rewrite strip_strip. destruct m as [r [|a| | | | |] p]; try done. unfold stripStalePrefixReplay. cbn.
  by destruct (as_checkpoint a).
Qed.

Lemma bareOne_prelude m r b : bareOne (m <| m_ref := r |> <| m_prelude := b |>) = bareOne m.
Proof. destruct m as [r' [|a| | | |s|] p]; try done. unfold bareOne, stripStalePrefixReplay. cbn. by destruct (as_checkpoint a). Qed.

(** The bare messages of an entry, for the context and for a summary. *)
Definition bareEntry (e : SessionTreeEntry) : list AgentMessage :=
  match getMessageFromEntryForCompaction e with Some m => bareOne m | None => [] end.

Lemma bare_context rewritten entries : bare (entries ≫= contextMessage rewritten) = entries ≫= bareEntry.
Proof.
  unfold bare. induction entries as [|e entries IH]; [done|]. cbn. rewrite bind_app, IH. f_equal. clear IH.
  unfold contextMessage, bareEntry, getMessageFromEntryForCompaction, projectSessionEntryMessage. destruct e as [id d]. cbn.
  destruct d as [m| |[|]| | | | |]; cbn; try done; destruct rewritten; try done.
  - destruct (isExcluded m); cbn; [done|]. by rewrite app_nil_r, bareOne_strip.
  - destruct (isExcluded m); cbn; [done|]. by rewrite app_nil_r.
Qed.

Lemma bare_messages entries : bare (messagesOf entries) = entries ≫= bareEntry.
Proof.
  unfold bare, messagesOf. induction entries as [|e entries IH]; [done|]. cbn. unfold bareEntry at 1.
  destruct (getMessageFromEntryForCompaction e); cbn in *; by rewrite IH.
Qed.

(** The entries that a reset keeps are user messages, answers and results. *)
Lemma bare_reset entries : bare (selectResetKeptEntries entries ≫= resetKeptMessage) = selectResetKeptEntries entries ≫= bareEntry.
Proof.
  unfold selectResetKeptEntries. set (paired := ToolPairing.ref <$> _). clearbody paired. unfold bare.
  induction entries as [|e entries IH]; [done|]. cbn. destruct (ToolPairing.keepEntry paired (entryView e)) eqn:Ek; [|exact IH].
  cbn. rewrite bind_app, IH. f_equal. clear IH. unfold resetKeptMessage, bareEntry, getMessageFromEntryForCompaction,
    projectSessionEntryMessage, entryView in *. destruct e as [id d]. destruct d as [m| | | | | | |]; try done.
  cbn in Ek. cbn [e_data]. unfold isExcluded. unfold pairingView in Ek.
  destruct (m_body m); try discriminate Ek; cbn [mbind list_bind]; rewrite app_nil_r, ?bareOne_prelude, ?bareOne_strip; done.
Qed.

Lemma bareEntry_boundary e : isBoundary e = true → bareEntry e = [].
Proof. by destruct e as [id []]. Qed.

(** ** The cut *)

Lemma messages_app l l' : messagesOf (l ++ l') = messagesOf l ++ messagesOf l'.
Proof. apply omap_app. Qed.

Lemma messages_nil l : messagesOf l = [] ↔ Forall (λ e, getMessageFromEntryForCompaction e = None) l.
Proof.
  unfold messagesOf. induction l as [|e l IH]; [by split; [constructor|]|]. rewrite Forall_cons, <-IH. cbn.
  destruct (getMessageFromEntryForCompaction e); cbn; naive_solver.
Qed.

Lemma entryIs_true p entries i : entryIs p entries i = true ↔ ∃ e, entries !! i = Some e ∧ p e = true.
Proof. unfold entryIs. destruct (entries !! i); naive_solver. Qed.

(** Moving over metadata: what is passed holds no message and no boundary. *)
Lemma over_spec entries start cut : let r := overMetadata entries start cut in
  r ≤ cut ∧ (start ≤ cut → start ≤ r) ∧ Forall (λ e, stopsCut e = false) (slice r cut entries).
Proof.
  induction cut as [|prev IH]; cbn [overMetadata].
  - split_and!; [done|done|]. unfold slice. by rewrite Nat.sub_diag.
  - assert (Hsame : Forall (λ e, stopsCut e = false) (slice (S prev) (S prev) entries)) by (unfold slice; by rewrite Nat.sub_diag).
    destruct (Nat.ltb_spec start (S prev)); [|by split_and!]. destruct (entries !! prev) as [e|] eqn:Ee; [|by split_and!].
    destruct (stopsCut e) eqn:Es; [by split_and!|]. destruct IH as (Hle & Hst & Hf).
    split_and!; [lia|intros; apply Hst; lia|]. rewrite <-(take_slice _ prev) by lia. apply Forall_app. split; [done|].
    unfold slice. replace (S prev - prev) with 1 by lia. rewrite (drop_S _ _ _ Ee). cbn. by repeat constructor.
Qed.

(** What the code says of a cut. *)
Record CutSpec (entries : list SessionTreeEntry) (start : nat) (r : CutPointResult) (c : nat) : Prop := {
  cut_range : start ≤ r.(firstKeptEntryIndex) ≤ c;
  cut_point : entryIs isCutPointEntry entries c = true;
  cut_passed : Forall (λ e, stopsCut e = false) (slice r.(firstKeptEntryIndex) c entries);
  cut_split : if r.(isSplitTurn) then ∃ t, r.(turnStartIndex) = Some t ∧ start ≤ t < r.(firstKeptEntryIndex) ∧
                entryIs isTurnStartEntry entries t = true ∧
                (∀ j, t < j → j ≤ r.(firstKeptEntryIndex) → entryIs isTurnStartEntry entries j = false)
              else r.(turnStartIndex) = None
}.

Lemma descending_find p (a n : nat) t : List.find p (reverse (seq a n)) = Some t →
  p t = true ∧ a ≤ t < a + n ∧ ∀ j, t < j → j < a + n → p j = false.
Proof.
  induction n as [|n IH]; [done|]. rewrite seq_S, reverse_app. change (reverse [a + n]) with [a + n]. cbn.
  destruct (p (a + n)) eqn:Ep.
  - intros [= <-]. split_and!; [done|lia..].
  - intros Hf. destruct (IH Hf) as (? & ? & Hn). split_and!; [done|lia|lia|]. intros j Hj Hl. destruct (decide (j = a + n)) as [->|]; [done|].
    apply Hn; lia.
Qed.

(** The cut point that is chosen. *)
Definition chosenCut (entries : list SessionTreeEntry) (start stop : nat) (keep : Q) (first : nat) (cutPoints : list nat) : nat :=
  match budgetIndex entries keep 0 (reverse (seq start (stop - start))) with
  | None => first
  | Some i => match List.find (λ c, i <=? c) cutPoints with Some c => c | None => List.last cutPoints first end
  end.

Lemma last_in (x d : nat) l : List.last (x :: l) d ∈ x :: l.
Proof. revert x. induction l as [|y l IH]; intros x; [by left|]. right. apply IH. Qed.

Lemma chosen_in entries start stop keep first rest : chosenCut entries start stop keep first (first :: rest) ∈ first :: rest.
Proof.
  unfold chosenCut. destruct (budgetIndex _ _ _ _) as [i|]; [|by left]. destruct (List.find _ _) as [c|] eqn:E; [|apply last_in].
  apply find_some in E as [E _]. by apply list_elem_of_In.
Qed.

Lemma valid_cut entries start stop c : c ∈ findValidCutPoints entries start stop → start ≤ c < stop ∧ entryIs isCutPointEntry entries c = true.
Proof.
  unfold findValidCutPoints. intros Hc%list_elem_of_In%filter_In. destruct Hc as [Hc%in_seq Hp]. split; [lia|done].
Qed.

Lemma findCutPoint_some entries start keep first rest : findValidCutPoints entries start (length entries) = first :: rest →
  let c := chosenCut entries start (length entries) keep first (first :: rest) in
  ∃ r, findCutPoint entries start (length entries) keep = Some r ∧ r.(firstKeptEntryIndex) = overMetadata entries start c ∧
    CutSpec entries start r c.
Proof.
  intros Hv c. assert (Hc : c ∈ findValidCutPoints entries start (length entries)) by (rewrite Hv; apply chosen_in).
  apply valid_cut in Hc as [Hr Hp]. destruct (over_spec entries start c) as (Hle & Hst & Hf). specialize (Hst ltac:(lia)).
  unfold findCutPoint. rewrite Hv. fold (chosenCut entries start (length entries) keep first (first :: rest)). fold c.
  destruct (entries !! overMetadata entries start c) as [e|] eqn:Ee; [|apply lookup_ge_None in Ee; lia].
  eexists. split; [done|]. split; [done|]. split; cbn; try done. destruct (isTurnStartEntry e) eqn:Et; cbn; [done|].
  destruct (findTurnStartIndex _ _ _) as [t|] eqn:Ef; [|by rewrite bool_decide_false by by intros [? ?]].
  rewrite bool_decide_true by by eexists. exists t. apply descending_find in Ef as (Ht & Hlt & Hn). split_and!; try done; try lia.
  - destruct (decide (t = overMetadata entries start c)) as [->|]; [|lia].
    apply entryIs_true in Ht as (e' & Ee' & Ht). congruence.
  - intros j Hj Hjc. apply Hn; lia.
Qed.

Lemma findCutPoint_none entries start keep : findValidCutPoints entries start (length entries) = [] →
  findCutPoint entries start (length entries) keep = Some {| firstKeptEntryIndex := start; turnStartIndex := None; isSplitTurn := false |}.
Proof. intros Hv. unfold findCutPoint. by rewrite Hv. Qed.

(** ** The budget *)

Local Open Scope Z_scope.

Lemma tokensIn_from ms : ∀ n, foldl (λ n m, n + estimateTokens m) n ms = n + tokensIn ms.
Proof.
  unfold tokensIn. induction ms as [|m ms IH]; intros n; cbn; [lia|]. rewrite IH, (IH (0 + _)). lia.
Qed.

Lemma tokensIn_cons m ms : tokensIn (m :: ms) = estimateTokens m + tokensIn ms.
Proof. unfold tokensIn at 1. cbn. by rewrite tokensIn_from. Qed.

Lemma tokensIn_app l l' : tokensIn (l ++ l') = tokensIn l + tokensIn l'.
Proof. induction l as [|m l IH]; [done|]. cbn [app]. rewrite !tokensIn_cons, IH. lia. Qed.

Lemma estimateStringChars_nonneg text : 0 ≤ estimateStringChars text.
Proof.
  unfold estimateStringChars, js_length, countMatches, CHARS_PER_TOKEN_ESTIMATE. destruct (negb _); [lia|]. destruct (negb _); lia.
Qed.

Lemma tokensOf_nonneg chars : 0 ≤ chars → 0 ≤ tokensOf chars.
Proof. unfold tokensOf, CHARS_PER_TOKEN_ESTIMATE. intros Hc. pose proof (Z.div_le_upper_bound (- chars) 4 0). lia. Qed.

Lemma contentChars_nonneg content : 0 ≤ countContentChars content.
Proof.
  unfold countContentChars. destruct (getCompactionContent content) as [text omission]. pose proof (estimateStringChars_nonneg text).
  unfold IMAGE_BLOCK_CHARS, IMAGE_BLOCK_TOKENS, CHARS_PER_TOKEN_ESTIMATE, js_length. destruct content, omission; lia.
Qed.

Lemma estimateTokens_nonneg m : 0 ≤ estimateTokens m.
Proof.
  unfold estimateTokens. destruct (isExcluded m); [done|]. pose proof estimateStringChars_nonneg as Hs.
  destruct (m_body m); apply tokensOf_nonneg; auto using contentChars_nonneg; [|by apply Z.add_nonneg_nonneg].
  assert (Hb : ∀ b, 0 ≤ blockChars b) by (intros []; cbn; auto using Z.add_nonneg_nonneg).
  assert (Hf : ∀ l n, 0 ≤ n → 0 ≤ foldl (λ n b, n + blockChars b) n l); [|by apply Hf].
  intros l. induction l as [|b l IH]; intros n Hn; [done|]. cbn. apply IH. specialize (Hb b). lia.
Qed.

Lemma tokensIn_nonneg ms : 0 ≤ tokensIn ms.
Proof. induction ms as [|m ms IH]; [done|]. rewrite tokensIn_cons. pose proof (estimateTokens_nonneg m). lia. Qed.

(** Tokens of the entries from [i] on. *)
Definition tailTokens (entries : list SessionTreeEntry) (i : nat) : Z := tokensIn (messagesOf (drop i entries)).

Lemma tailTokens_at entries i e : entries !! i = Some e →
  tailTokens entries i = (match getMessageFromEntryForCompaction e with Some m => estimateTokens m | None => 0 end) + tailTokens entries (S i).
Proof.
  unfold tailTokens. intros He. rewrite (drop_S _ _ _ He). unfold messagesOf. cbn.
  destruct (getMessageFromEntryForCompaction e); cbn; [apply tokensIn_cons|done].
Qed.

Lemma tailTokens_less entries i j : (i ≤ j)%nat → tailTokens entries j ≤ tailTokens entries i.
Proof.
  intros Hij. unfold tailTokens. rewrite <-(slice_rest i j) by done. rewrite messages_app, tokensIn_app.
  pose proof (tokensIn_nonneg (messagesOf (slice i j entries))). lia.
Qed.

(** The index that the budget reaches: the tail is enough there, and not behind. *)
Lemma budget_spec entries start keep n : (start + n ≤ length entries)%nat →
  match budgetIndex entries keep (tailTokens entries (start + n)) (reverse (seq start n)) with
  | Some i => (start ≤ i < start + n)%nat ∧ (keep <= inject_Z (tailTokens entries i))%Q ∧
      is_Some (entries !! i ≫= getMessageFromEntryForCompaction) ∧
      (¬ (keep <= inject_Z (tailTokens entries (S i)))%Q ∨ tailTokens entries (S i) = tailTokens entries (start + n))
  | None => True
  end.
Proof.
  induction n as [|n IH]; intros Hn; [done|]. rewrite seq_S, reverse_app. change (reverse [(start + n)%nat]) with [(start + n)%nat].
  cbn [app budgetIndex]. replace (start + S n)%nat with (S (start + n)) by lia.
  destruct (lookup_lt_is_Some_2 entries (start + n)) as [e He]; [lia|]. pose proof (tailTokens_at _ _ _ He) as Ht.
  rewrite He. cbn [mbind option_bind]. specialize (IH ltac:(lia)).
  destruct (getMessageFromEntryForCompaction e) as [m|] eqn:Em; cbn in Ht |- *.
  - rewrite Z.add_comm, <-Ht. destruct (Qle_bool keep _) eqn:Eq.
    + apply Qle_bool_iff in Eq. split_and!; [lia|lia|done|by rewrite He; cbn; rewrite Em; eexists|by right].
    + assert (Hlt : ¬ (keep <= inject_Z (tailTokens entries (start + n)))%Q) by (intros Hc%Qle_bool_iff; congruence).
      destruct (budgetIndex _ _ _ _) as [i|]; [|done]. destruct IH as (Hr & Hk & Hm & Hs). split_and!; [lia|lia|done..|].
      left. destruct Hs as [Hs|Hs]; [done|by rewrite Hs].
  - assert (Ht' : tailTokens entries (S (start + n)) = tailTokens entries (start + n)) by lia. rewrite Ht'.
    destruct (budgetIndex _ _ _ _) as [i|]; [|done]. destruct IH as (Hr & Hk & Hm & Hs). split_and!; [lia|lia|done..].
Qed.

(** Where the budget is not reached. *)
Lemma budget_none entries start keep n : (start + n ≤ length entries)%nat →
  budgetIndex entries keep (tailTokens entries (start + n)) (reverse (seq start n)) = None →
  tailTokens entries start = tailTokens entries (start + n) ∨ ¬ (keep <= inject_Z (tailTokens entries start))%Q.
Proof.
  induction n as [|n IH]; intros Hn; [left; f_equal; lia|]. rewrite seq_S, reverse_app. change (reverse [(start + n)%nat]) with [(start + n)%nat].
  cbn [app budgetIndex]. replace (start + S n)%nat with (S (start + n)) by lia.
  destruct (lookup_lt_is_Some_2 entries (start + n)) as [e He]; [lia|]. pose proof (tailTokens_at _ _ _ He) as Ht.
  rewrite He. cbn [mbind option_bind]. specialize (IH ltac:(lia)).
  destruct (getMessageFromEntryForCompaction e) as [m|]; cbn in Ht |- *.
  - rewrite Z.add_comm, <-Ht. destruct (Qle_bool keep _) eqn:Eq; [done|]. intros Hb. right. destruct (IH Hb) as [He'|?]; [|done].
    rewrite He'. intros Hc%Qle_bool_iff. congruence.
  - assert (tailTokens entries (S (start + n)) = tailTokens entries (start + n)) as -> by lia. exact IH.
Qed.

(** ** What a cut keeps *)

Local Open Scope nat_scope.

Lemma messages_between (P : AgentMessage → bool) entries a b :
  (∀ i e m, a ≤ i < b → entries !! i = Some e → getMessageFromEntryForCompaction e = Some m → P m = false) →
  Forall (λ m, P m = false) (messagesOf (slice a b entries)).
Proof.
  intros Hb. apply Forall_forall. intros m (e & He & Hm)%list_elem_of_omap. apply list_elem_of_lookup_1 in He as [i Hi].
  apply lookup_slice in Hi as [Hi Hr]. apply (Hb (a + i) e m); [lia|done..].
Qed.

Lemma messages_at p entries i : (∀ e, p e = true → is_Some (getMessageFromEntryForCompaction e)) → entryIs p entries i = true →
  ∃ e m, entries !! i = Some e ∧ p e = true ∧ getMessageFromEntryForCompaction e = Some m ∧
    messagesOf (drop i entries) = m :: messagesOf (drop (S i) entries).
Proof.
  intros Hp (e & He & Hpe)%entryIs_true. destruct (Hp e Hpe) as [m Hm]. exists e, m. split_and!; [done..|].
  rewrite (drop_S _ _ _ He). unfold messagesOf. cbn. by rewrite Hm.
Qed.

Lemma cutPoint_message e : isCutPointEntry e = true → is_Some (getMessageFromEntryForCompaction e).
Proof. unfold isCutPointEntry. by destruct (getMessageFromEntryForCompaction e). Qed.

Lemma turnStart_message e : isTurnStartEntry e = true → is_Some (getMessageFromEntryForCompaction e).
Proof. unfold isTurnStartEntry. by destruct (getMessageFromEntryForCompaction e). Qed.

Lemma turnStart_cut m : isTurnStartMessage m = true → isCutPointMessage m = true.
Proof. unfold isTurnStartMessage, isCutPointMessage. by destruct (m_body m). Qed.

(** At a cut point a message starts that is no tool result. *)
Lemma at_cut entries c : entryIs isCutPointEntry entries c = true →
  ∃ m, messagesOf (drop c entries) = m :: messagesOf (drop (S c) entries) ∧ isCutPointMessage m = true.
Proof.
  intros (e & m & _ & Hp & Hm & ->)%(messages_at _ _ _ cutPoint_message). exists m. split; [done|].
  unfold isCutPointEntry in Hp. by rewrite Hm in Hp.
Qed.

(** What the cut passed over holds no message. *)
Lemma kept_from_cut entries start r c : CutSpec entries start r c →
  messagesOf (drop (firstKeptEntryIndex r) entries) = messagesOf (drop c entries).
Proof.
  intros [Hr _ Hp _]. rewrite <-(slice_rest (firstKeptEntryIndex r) c) by lia. rewrite messages_app.
  rewrite (proj2 (messages_nil _)); [done|]. eapply Forall_impl; [exact Hp|]. intros e. unfold stopsCut. cbn.
  destruct (getMessageFromEntryForCompaction e); [|done]. by rewrite bool_decide_true, orb_true_r by by eexists.
Qed.

(** Between cut points there are only tool results. *)
Lemma results_between entries start stop a b : start ≤ a → b ≤ stop →
  (∀ c, c ∈ findValidCutPoints entries start stop → ¬ a ≤ c < b) →
  Forall (λ m, isCutPointMessage m = false) (messagesOf (slice a b entries)).
Proof.
  intros Ha Hb Hn. apply messages_between. intros i e m Hi He Hm. destruct (isCutPointMessage m) eqn:Ep; [|done].
  destruct (Hn i); [|done]. unfold findValidCutPoints. apply list_elem_of_In, filter_In. rewrite in_seq. split; [lia|].
  unfold entryIs. rewrite He. unfold isCutPointEntry. by rewrite Hm.
Qed.

(** The prefix of a split turn is the start of one turn. *)
Lemma split_prefix entries start r c t : CutSpec entries start r c → isSplitTurn r = true → turnStartIndex r = Some t →
  ∃ m ms, messagesOf (slice t (firstKeptEntryIndex r) entries) = m :: ms ∧ isTurnStartMessage m = true ∧
    Forall (λ m, isTurnStartMessage m = false) ms.
Proof.
  intros [_ _ _ Hs] Hsp Ht. rewrite Hsp in Hs. destruct Hs as (t' & Ht' & Hr & Hst & Hn). assert (t' = t) as -> by congruence.
  apply (messages_at _ _ _ turnStart_message) in Hst as (e & m & He & Hp & Hm & _).
  exists m, (messagesOf (slice (S t) (firstKeptEntryIndex r) entries)).
  unfold isTurnStartEntry in Hp. rewrite Hm in Hp. split_and!; [|done|].
  - rewrite <-(take_slice t (S t)) by lia. rewrite messages_app. unfold slice at 1. rewrite (drop_S _ _ _ He).
    replace (S t - t) with 1 by lia. unfold messagesOf. cbn. by rewrite Hm.
  - apply messages_between. intros i e' m' Hi He' Hm'. pose proof (Hn i ltac:(lia) ltac:(lia)) as Hi'.
    unfold entryIs, isTurnStartEntry in Hi'. by rewrite He', Hm' in Hi'.
Qed.

(** ** Calls and their results *)

Definition callsOf (a : AssistantMessage) : list string := a.(as_content) ≫= λ b, match b with BCall id _ _ => [id] | _ => [] end.

(** The results of each answer's calls follow it at once. *)
Fixpoint resultsFollow (pending : list string) (ms : list AgentMessage) : bool :=
  match ms with
  | [] => bool_decide (pending = [])
  | m :: ms =>
      match m.(m_body) with
      | MToolResult r => bool_decide (r.(tr_toolCallId) ∈ pending) &&
                         resultsFollow (List.filter (λ id, negb (bool_decide (id = r.(tr_toolCallId)))) pending) ms
      | MAssistant a => bool_decide (pending = []) && resultsFollow (callsOf a) ms
      | _ => bool_decide (pending = []) && resultsFollow [] ms
      end
  end.

Lemma follow_cut pending m ms : isCutPointMessage m = true → resultsFollow pending (m :: ms) = true → pending = [].
Proof. unfold isCutPointMessage. cbn. by destruct (m_body m); intros ? [?%bool_decide_eq_true ?]%andb_true_iff. Qed.

Lemma follow_rest l l' : ∀ pending, resultsFollow pending l = true → resultsFollow pending (l ++ l') = true → resultsFollow [] l' = true.
Proof.
  induction l as [|m l IH]; intros pending; cbn [app resultsFollow].
  - by intros ->%bool_decide_eq_true.
  - destruct (m_body m); intros [_ Hl]%andb_true_iff [_ Hr]%andb_true_iff; by eapply IH.
Qed.

Lemma follow_split l m l' : isCutPointMessage m = true → ∀ pending, resultsFollow pending (l ++ m :: l') = true →
  resultsFollow pending l = true ∧ resultsFollow [] (m :: l') = true.
Proof.
  intros Hm. induction l as [|x l IH]; intros pending; cbn [app].
  - intros Hf. pose proof (follow_cut _ _ _ Hm Hf) as ->. done.
  - cbn [resultsFollow]. destruct (m_body x); intros [-> Hr]%andb_true_iff; by apply IH.
Qed.
