(* ===== verification/CompactionPromises.v ===== *)
(** * What compaction promises

    A compaction neither loses nor repeats a message of the context, does not
    part a tool result from its call, keeps about as much as it was told to, and
    writes a summary within its bound. *)
From Stdlib Require Import QArith.
From S2P Require Import Prelude Utf16 Truncate SessionContext Compaction CompactionFacts.
Local Open Scope nat_scope.

(** ** A prepared compaction *)

(** The parts of a preparation: the cut [r] of [start] and the first kept entry. *)
Record PreparedAs (start : CompactionStart) (p : CompactionPreparation) (keep : Q) (r : CutPointResult) (fk : SessionTreeEntry) : Prop := {
  pa_cut : findCutPoint start.(st_entries) start.(st_start) (length start.(st_entries)) keep = Some r;
  pa_first : start.(st_entries) !! r.(firstKeptEntryIndex) = Some fk;
  pa_id : p.(firstKeptEntryId) = fk.(e_id);
  pa_summarized : p.(messagesToSummarize) = start.(st_prelude) ++
    messagesOf (slice start.(st_start) (if r.(isSplitTurn) then default 0 r.(turnStartIndex) else r.(firstKeptEntryIndex)) start.(st_entries));
  pa_prefix : p.(turnPrefixMessages) = if r.(isSplitTurn) then
    messagesOf (slice (default 0 r.(turnStartIndex)) r.(firstKeptEntryIndex) start.(st_entries)) else [];
  pa_some : p.(messagesToSummarize) = [] → p.(turnPrefixMessages) ≠ [];
  pa_previous : p.(previousSummary) = start.(st_previous) ≫= summaryOf;
  pa_split : p.(splitsTurn) = r.(isSplitTurn)
}.

Definition budgetOf (path : list SessionTreeEntry) (settings : CompactionSettings) : Q :=
  scaledKeepRecentTokens settings (estimateContextTokens (buildSessionContext path).(messages)).2
    (tokensIn (buildSessionContext path).(messages)) (tokensIn (compactionStart path).(st_prelude)).

Lemma prepared_as path settings p : prepareCompaction path settings = Prepared p →
  nothingSince path = false ∧ ∃ r fk, PreparedAs (compactionStart path) p (budgetOf path settings) r fk.
Proof.
  unfold prepareCompaction, budgetOf. destruct (nothingSince path); [done|]. destruct (estimateContextTokens _) as [before usage]. cbn [snd].
  set (keep := scaledKeepRecentTokens _ _ _ _). set (start := compactionStart path). intros Hp. split; [done|].
  destruct (findCutPoint _ _ _ _) as [r|] eqn:Ec; [|done]. exists r. destruct (start.(st_entries) !! _) as [fk|] eqn:Ef; [|done].
  exists fk. case_bool_decide; [done|]. destruct (bool_decide _ && bool_decide _) eqn:En; [done|]. injection Hp as <-.
  split; try done. cbn. intros Hs Ht. rewrite Hs, Ht in En. done.
Qed.

Section prepared.
Context (start : CompactionStart) (p : CompactionPreparation) (keep : Q) (r : CutPointResult) (fk : SessionTreeEntry).
Context (Hp : PreparedAs start p keep r fk).

Lemma cut_after_start : st_start start ≤ firstKeptEntryIndex r.
Proof.
  pose proof (pa_cut _ _ _ _ _ Hp) as Hc. destruct (findValidCutPoints (st_entries start) (st_start start) (length (st_entries start))) as [|f l] eqn:E.
  - rewrite findCutPoint_none in Hc by done. injection Hc as <-. done.
  - destruct (findCutPoint_some _ _ keep _ _ E) as (r' & Hc' & _ & Hs). rewrite Hc in Hc'. injection Hc' as <-. apply Hs.
Qed.

(** What is summarised: the prelude and everything from the start to the cut. *)
Lemma summarized_all : messagesToSummarize p ++ turnPrefixMessages p =
  st_prelude start ++ messagesOf (slice (st_start start) (firstKeptEntryIndex r) (st_entries start)).
Proof.
  rewrite (pa_summarized _ _ _ _ _ Hp), (pa_prefix _ _ _ _ _ Hp), <-app_assoc. f_equal.
  destruct (isSplitTurn r) eqn:Es; [|apply app_nil_r]. pose proof (pa_cut _ _ _ _ _ Hp) as Hc.
  destruct (findValidCutPoints (st_entries start) (st_start start) (length (st_entries start))) as [|f l] eqn:E.
  - rewrite findCutPoint_none in Hc by done. injection Hc as <-. done.
  - destruct (findCutPoint_some _ _ keep _ _ E) as (r' & Hc' & _ & [_ _ _ Hs]). rewrite Hc in Hc'. injection Hc' as <-.
    rewrite Es in Hs. destruct Hs as (t & Et & Ht & _). rewrite Et. cbn [default from_option id]. rewrite <-messages_app. rewrite (take_slice _ t) by lia. done.
Qed.
End prepared.

(** ** The context before and after *)

(** The boundary of a path kept entries that precede it. *)
Definition boundaryLooksBack (path : list SessionTreeEntry) : Prop :=
  ∀ i b k, lastBoundary path = Some (i, b) → indexOf (boundaryFirstKept b) path = Some k → k < i.

(** The summary that heads a context. *)
Definition headedBy (previous : option jsstr) (head : list AgentMessage) : Prop :=
  match previous with
  | Some summary => ∃ tokens, head = [made (MCompactionSummary summary tokens)]
  | None => head = []
  end.

Lemma context_of path : (buildSessionContext path).(messages) =
  match lastBoundary path with Some (_, b) => boundaryMessages b path | None => path ≫= contextMessage false end.
Proof. unfold buildSessionContext. cbn. rewrite boundary_read. by destruct (lastBoundary path) as [[]|]. Qed.

(** The context of a path is the previous summary and what a compaction starts
    from. *)
Lemma context_before path : NoDup (e_id <$> path) → boundaryLooksBack path →
  let start := compactionStart path in
  ∃ head prior, (buildSessionContext path).(messages) = head ++ prior ∧ headedBy (st_previous start ≫= summaryOf) head ∧
    bare prior = bare (st_prelude start ++ messagesOf (drop (st_start start) (st_entries start))).
Proof.
  intros Hn Hb. rewrite context_of. unfold compactionStart. destruct (lastBoundary path) as [[i b]|] eqn:El.
  2: { exists [], (path ≫= contextMessage false). cbn. rewrite drop_0. split_and!; [done..|]. by rewrite bare_context, bare_messages. }
  destruct (lastBoundary_some _ _ _ El) as (Hi & Hib & _). pose proof (indexOf_at _ _ _ Hn Hi) as Hidx.
  unfold boundaryMessages. rewrite Hidx. destruct (isReset b) eqn:Er; cbn -[Nat.ltb].
  - exists []. eexists. split_and!; [done..|]. rewrite drop_0, !bare_app, bare_context, bare_messages. f_equal.
    destruct (indexOf (boundaryFirstKept b) path) as [k|] eqn:Ek; [|done].
    rewrite (proj2 (Nat.ltb_lt k i)) by by apply (Hb i b). by rewrite bare_reset, bare_messages.
  - destruct b as [id []]; try discriminate Hib; try discriminate Er. cbn -[Nat.ltb]. eexists [_]. eexists. split_and!; [done|by eexists|].
    rewrite bare_app, !bare_context, bare_messages. rewrite <-bind_app.
    destruct (indexOf (Some firstKeptEntryId) path) as [k|] eqn:Ek; [|done]. pose proof (Hb i _ k El Ek) as Hk. cbn -[Nat.ltb].
    rewrite (proj2 (Nat.ltb_lt k i) Hk), <-(slice_rest k i path) by lia. rewrite (drop_S _ _ _ Hi), !bind_app.
    f_equal.
Qed.

(** The entry that a compaction appends. *)
Definition compactionEntry (id : string) (summary : jsstr) (p : CompactionPreparation) (details : option CompactionDetails)
    (fromHook : bool) : SessionTreeEntry :=
  {| e_id := id; e_data := ECompaction summary p.(firstKeptEntryId) p.(tokensBefore) details fromHook |}.

Lemma start_is_rest path : ∃ o, (compactionStart path).(st_entries) = drop o path.
Proof.
  unfold compactionStart. destruct (lastBoundary path) as [[i b]|]; [|by exists 0].
  destruct (isReset b); [by exists (S i)|by exists 0].
Qed.

Lemma context_after path id summary firstKept tokens details fromHook k fk :
  let c := {| e_id := id; e_data := ECompaction summary firstKept tokens details fromHook |} in
  NoDup (e_id <$> path ++ [c]) → path !! k = Some fk → firstKept = fk.(e_id) →
  (buildSessionContext (path ++ [c])).(messages) = made (MCompactionSummary summary tokens) :: (drop k path ≫= contextMessage true).
Proof.
  intros c Hn Hk ->. rewrite context_of, (lastBoundary_snoc path c) by done. unfold boundaryMessages.
  assert (Hc : (path ++ [c]) !! length path = Some c) by (by rewrite lookup_app_r, Nat.sub_diag).
  rewrite (indexOf_at _ _ _ Hn Hc). cbn [boundaryFirstKept c e_data].
  assert (Hl : k < length path) by (by eapply lookup_lt_Some).
  rewrite (indexOf_at _ k fk Hn) by by rewrite lookup_app_l. rewrite (proj2 (Nat.ltb_lt _ _) Hl). cbn -[slice]. f_equal.
  rewrite drop_ge by (rewrite length_app; cbn; lia). cbn. rewrite app_nil_r. f_equal. unfold slice.
  rewrite drop_app_le by lia. apply take_app_length'. by rewrite length_drop.
Qed.

(** C23: a compaction summarises a part of the context and keeps the rest: the
    context before it is the previous summary and then, up to copies, marks of replay
    and empty summaries of branches, the messages that are summarised, those of
    the prefix of the turn, and those that follow the new summary, each once and
    in order; and something is summarised. *)
Theorem compaction_keeps_or_summarizes path settings p id summary details fromHook :
  prepareCompaction path settings = Prepared p → boundaryLooksBack path →
  let c := compactionEntry id summary p details fromHook in
  NoDup (e_id <$> path ++ [c]) →
  ∃ head prior kept, (buildSessionContext path).(messages) = head ++ prior ∧ headedBy p.(previousSummary) head ∧
    (buildSessionContext (path ++ [c])).(messages) = made (MCompactionSummary summary p.(tokensBefore)) :: kept ∧
    bare prior = bare (p.(messagesToSummarize) ++ p.(turnPrefixMessages)) ++ bare kept ∧
    p.(messagesToSummarize) ++ p.(turnPrefixMessages) ≠ [].
Proof.
  intros (_ & r & fk & Hp)%prepared_as Hb c Hn.
  assert (Hn' : NoDup (e_id <$> path)) by (rewrite fmap_app in Hn; by apply NoDup_app in Hn as [? _]).
  destruct (context_before path Hn' Hb) as (head & prior & Hctx & Hhead & Hbare).
  destruct (start_is_rest path) as (o & Ho). pose proof (pa_first _ _ _ _ _ Hp) as Hfk. rewrite Ho, lookup_drop in Hfk.
  exists head, prior, (drop (o + firstKeptEntryIndex r) path ≫= contextMessage true). split_and!; [done|..].
  - by rewrite (pa_previous _ _ _ _ _ Hp).
  - by apply (context_after _ _ _ _ _ _ _ _ fk), (pa_id _ _ _ _ _ Hp).
  - rewrite Hbare, (summarized_all _ _ _ _ _ Hp), bare_context, !bare_app, !bare_messages, <-app_assoc. f_equal.
    rewrite <-(slice_rest (st_start (compactionStart path)) (firstKeptEntryIndex r)) by apply (cut_after_start _ _ _ _ _ Hp).
    rewrite bind_app. f_equal. rewrite Ho, drop_drop. done.
  - intros [Hs Ht]%app_nil. by apply (pa_some _ _ _ _ _ Hp).
Qed.

(** ** The bound of a summary *)

Lemma js_length_app (a b : jsstr) : (js_length (a ++ b) = js_length a + js_length b)%Z.
Proof. unfold js_length. rewrite length_app. lia. Qed.

Lemma ends_with_app (a b : jsstr) : ends_with16 b (a ++ b) = true.
Proof. unfold ends_with16. apply bool_decide_true. rewrite length_app. apply drop_app_length'. lia. Qed.

Lemma ends_with_length suffix s : ends_with16 suffix s = true → (js_length suffix ≤ js_length s)%Z.
Proof. unfold ends_with16, js_length. intros He%bool_decide_eq_true. rewrite <-He, length_drop. lia. Qed.

Local Open Scope Z_scope.

Lemma js_length_nonneg (a : jsstr) : 0 ≤ js_length a.
Proof. unfold js_length. lia. Qed.

(** A capped summary is within its bound. *)
Lemma cap_length summary maxChars suffix : 0 < maxChars → js_length (capCompactionSummary summary maxChars suffix) ≤ maxChars.
Proof.
  intros Hm. unfold capCompactionSummary. rewrite (proj2 (Z.leb_gt _ _) Hm). cbn [orb]. destruct (Z.leb_spec (js_length summary) maxChars); [done|].
  set (s := if ends_with16 suffix summary then suffix else []). destruct (Z.ltb_spec maxChars (js_length SUMMARY_TRUNCATED_MARKER + js_length s)).
  - pose proof (truncateUtf16Safe_length summary maxChars). lia.
  - rewrite !js_length_app. pose proof (truncateUtf16Safe_length (take (length summary - length s) summary)
      (maxChars - js_length SUMMARY_TRUNCATED_MARKER - js_length s)). lia.
Qed.

(** What a safe truncation keeps: all, or all but one unit of what fits. *)
Definition keptUnits (text : jsstr) (maxLen : Z) : nat := Z.to_nat (if js_length text <=? maxLen then maxLen else maxLen - 1).

Lemma prefix_take_le {A} (n m : nat) (l : list A) : (n ≤ m)%nat → take n l `prefix_of` take m l.
Proof. intros Hn. replace (take n l) with (take n (take m l)); [apply prefix_take|]. rewrite take_take. f_equal. lia. Qed.

Lemma truncate_keeps (text : jsstr) maxLen : 0 ≤ maxLen → take (keptUnits text maxLen) text `prefix_of` truncateUtf16Safe text maxLen.
Proof.
  intros Hm. unfold keptUnits. destruct (Z.leb_spec (js_length text) maxLen).
  - unfold truncateUtf16Safe. rewrite Z.max_r by done. rewrite (proj2 (Z.leb_le _ _)) by done. apply prefix_take.
  - rewrite truncateUtf16Safe_prefix by done. apply prefix_take_le. case_match; lia.
Qed.

(** A summary with a suffix that leaves room for the marker keeps the suffix, and
    what fits of the rest. *)
Lemma cap_keeps body suffix maxChars : 0 ≤ maxChars - js_length SUMMARY_TRUNCATED_MARKER - js_length suffix →
  ∃ kept, capCompactionSummary (body ++ suffix) maxChars suffix = kept ++ suffix ∧
    take (keptUnits body (maxChars - js_length SUMMARY_TRUNCATED_MARKER - js_length suffix)) body `prefix_of` kept.
Proof.
  intros Hm. pose proof (js_length_nonneg suffix). assert (js_length SUMMARY_TRUNCATED_MARKER = 46) by done.
  unfold capCompactionSummary. rewrite (proj2 (Z.leb_gt maxChars 0)) by lia. cbn [orb].
  destruct (js_length (body ++ suffix) <=? maxChars). { exists body. split; [done|apply prefix_take]. }
  rewrite ends_with_app. rewrite (proj2 (Z.ltb_ge _ _)) by lia. rewrite length_app, Nat.add_sub, take_app_length.
  eexists. rewrite app_assoc. split; [done|]. etrans; [by apply truncate_keeps; lia|]. by apply prefix_app_r.
Qed.

Lemma fileOperations_length read modified : js_length (formatFileOperations read modified) ≤ MAX_FILE_OPS_SECTION_CHARS.
Proof.
  unfold formatFileOperations. set (sections := List.filter _ _). clearbody sections. destruct sections as [|s l]; [done|].
  destruct (Z.ltb_spec MAX_FILE_OPS_SECTION_CHARS (js_length ([NEWLINE; NEWLINE] ++ js_join [NEWLINE; NEWLINE] (s :: l)))); [|done].
  unfold sliceTo, js_length. rewrite length_take. unfold MAX_FILE_OPS_SECTION_CHARS. cbn [Z.ltb Z.compare]. lia.
Qed.

(** A summary of its parts: its bound, what it ends in, what it keeps. *)
Lemma assemble_bounds history latest files : js_length files ≤ MAX_FILE_OPS_SECTION_CHARS →
  js_length (assembleSummary history latest files) ≤ MAX_COMPACTION_SUMMARY_CHARS ∧
  ∃ kept, assembleSummary history latest files = kept ++ files ∧ take (Z.to_nat 7999) history `prefix_of` kept.
Proof.
  intros Hf. unfold assembleSummary. assert (Hm : js_length SUMMARY_TRUNCATED_MARKER = 46) by done. rewrite Hm.
  unfold MAX_FILE_OPS_SECTION_CHARS, MAX_COMPACTION_SUMMARY_CHARS in *. set (budget := 16000 - 46 - js_length files - _).
  assert (Hb : 0 < budget ∧ budget + js_length files ≤ 15954 - js_length history `min` 8000) by (unfold budget; change (16000 / 2) with 8000; lia).
  pose proof (cap_length latest budget [] (proj1 Hb)) as Hl. set (late := capCompactionSummary latest budget []) in *.
  split; [by apply cap_length|]. destruct (cap_keeps history (late ++ files) 16000) as (kept & Hk & Hp).
  { rewrite Hm, js_length_app. pose proof (js_length_nonneg history). lia. }
  exists (kept ++ late). rewrite Hk, app_assoc. split; [done|]. apply prefix_app_r.
  rewrite Hm, js_length_app in Hp. unfold keptUnits in Hp. set (m := 16000 - 46 - _) in Hp.
  assert (Hmm : js_length history `min` 8000 ≤ m) by (unfold m; lia).
  destruct (Z.leb_spec (js_length history) m); (etrans; [|exact Hp]); [|apply prefix_take_le; lia].
  rewrite (take_ge history (Z.to_nat m)) by (unfold js_length in *; lia). apply prefix_take.
Qed.

(** a summary keeps its bound, however long what the provider writes: a
    compaction that succeeds gives the preparation's cut and a summary of at most
    sixteen thousand units, which ends in the bounded list of the files that were
    read and modified and begins with at least the first half less one of what
    the history's summary says. *)
Theorem summary_is_bounded {W} (complete : SummaryRequest → W → SummaryResponse * W) p maxTokens custom w r w' :
  compact complete p maxTokens custom w = (inr r, w') →
  let files := formatFileOperations (readFiles (cr_details r)) (modifiedFiles (cr_details r)) in
  cr_firstKeptEntryId r = firstKeptEntryId p ∧ js_length (cr_summary r) ≤ MAX_COMPACTION_SUMMARY_CHARS ∧
  js_length files ≤ MAX_FILE_OPS_SECTION_CHARS ∧
  ∃ history body w1, summarizeHistory complete p maxTokens custom w = (inr history, w1) ∧ cr_summary r = body ++ files ∧
    take (Z.to_nat (MAX_COMPACTION_SUMMARY_CHARS / 2 - 1)) history `prefix_of` body.
Proof.
  unfold compact. case_bool_decide; [done|]. destruct (summarizeHistory _ _ _ _ _) as [[|history] w1]; [done|].
  destruct (if summarizesTurnPrefix p then _ else _) as [[|turnPrefix] w2]; [done|]. intros [= <- <-]. cbn [cr_summary cr_details cr_firstKeptEntryId].
  pose proof (fileOperations_length (readFiles (computeFileLists (fileOps p))) (modifiedFiles (computeFileLists (fileOps p)))) as Hf.
  destruct (assemble_bounds history (if summarizesTurnPrefix p then TURN_CONTEXT_HEADER ++ turnPrefix else []) _ Hf) as (Hl & body & Hb & Hh).
  split_and!; [done..|]. by exists history, body, w1.
Qed.

(** ** The cut between summary and rest *)

Local Open Scope nat_scope.

(** The kept entries are those behind the cut. *)
Lemma kept_entries path settings p k fk : prepareCompaction path settings = Prepared p → NoDup (e_id <$> path) →
  path !! k = Some fk → fk.(e_id) = firstKeptEntryId p →
  ∃ r fk', PreparedAs (compactionStart path) p (budgetOf path settings) r fk' ∧
    drop k path = drop (firstKeptEntryIndex r) (st_entries (compactionStart path)).
Proof.
  intros (_ & r & fk' & Hp)%prepared_as Hn Hk Hid. exists r, fk'. split; [done|].
  destruct (start_is_rest path) as (o & Ho). pose proof (pa_first _ _ _ _ _ Hp) as Hf. rewrite Ho, lookup_drop in Hf.
  pose proof (indexOf_at _ _ _ Hn Hf) as Hi. rewrite <-(pa_id _ _ _ _ _ Hp), <-Hid, (indexOf_at _ _ _ Hn Hk) in Hi.
  injection Hi as ->. by rewrite Ho, drop_drop.
Qed.

(** The two kinds of a cut: none of the entries may be cut at, or one is chosen. *)
Lemma cut_cases start keep r : findCutPoint (st_entries start) (st_start start) (length (st_entries start)) keep = Some r →
  (firstKeptEntryIndex r = st_start start ∧ isSplitTurn r = false ∧
     Forall (λ m, isCutPointMessage m = false) (messagesOf (drop (st_start start) (st_entries start)))) ∨
  (∃ first rest, findValidCutPoints (st_entries start) (st_start start) (length (st_entries start)) = first :: rest ∧
     CutSpec (st_entries start) (st_start start) r (chosenCut (st_entries start) (st_start start) (length (st_entries start)) keep first (first :: rest))).
Proof.
  intros Hc. destruct (findValidCutPoints _ _ _) as [|first rest] eqn:Ev.
  - left. rewrite findCutPoint_none in Hc by done. injection Hc as <-. split_and!; [done..|].
    rewrite <-(slice_all _ (length (st_entries start))) by done. apply (results_between _ (st_start start) (length (st_entries start))); [done..|].
    intros c. rewrite Ev. by intros ?%elem_of_nil.
  - right. exists first, rest. split; [done|]. destruct (findCutPoint_some _ _ keep _ _ Ev) as (r' & Hc' & _ & Hs). by simplify_eq.
Qed.

Lemma follow_results ms : Forall (λ m, isCutPointMessage m = false) ms → resultsFollow [] ms = true → ms = [].
Proof. intros [|m l Hm _]; [done|]. cbn. unfold isCutPointMessage in Hm. by destruct (m_body m). Qed.

(** C24: compaction does not part a tool result from its call: when every
    answer's calls are followed by their results in what a compaction starts from,
    they are in each of its parts, the history to summarise, the prefix of a split
    turn and the messages that are kept; and the prefix of a split turn begins
    with the message that starts the turn, the only one in it. *)
Theorem compaction_keeps_results_with_calls path settings p k fk :
  prepareCompaction path settings = Prepared p → NoDup (e_id <$> path) →
  path !! k = Some fk → fk.(e_id) = firstKeptEntryId p →
  let kept := messagesOf (drop k path) in
  resultsFollow [] (st_prelude (compactionStart path)) = true →
  resultsFollow [] (messagesToSummarize p ++ turnPrefixMessages p ++ kept) = true →
  resultsFollow [] (messagesToSummarize p) = true ∧ resultsFollow [] (turnPrefixMessages p) = true ∧ resultsFollow [] kept = true ∧
  if splitsTurn p then ∃ m ms, turnPrefixMessages p = m :: ms ∧ isTurnStartMessage m = true ∧ Forall (λ m, isTurnStartMessage m = false) ms
  else turnPrefixMessages p = [].
Proof.
  intros Hprep Hn Hk Hid kept Hpre Hall. destruct (kept_entries _ _ _ _ _ Hprep Hn Hk Hid) as (r & fk' & Hp & Hkept).
  unfold kept in *. rewrite Hkept in *. clear kept Hkept Hprep Hk Hid. pose proof (pa_summarized _ _ _ _ _ Hp) as Hs.
  rewrite (pa_prefix _ _ _ _ _ Hp), (pa_split _ _ _ _ _ Hp) in *.
  destruct (cut_cases _ _ _ (pa_cut _ _ _ _ _ Hp)) as [(Hr & Hsp & Hf)|(first & rest & _ & Hc)].
  - rewrite Hsp, Hr in *. unfold slice in Hs. rewrite Nat.sub_diag, take_0, app_nil_r in Hs. rewrite Hs in *. cbn [app] in Hall.
    rewrite (follow_results _ Hf (follow_rest _ _ _ Hpre Hall)). done.
  - rewrite (kept_from_cut _ _ _ _ Hc) in *. destruct (at_cut _ _ (cut_point _ _ _ _ Hc)) as (m & Hm & Hcut). rewrite Hm in *.
    rewrite app_assoc in Hall. apply follow_split in Hall as [Hall ->]; [|done]. destruct (isSplitTurn r) eqn:Hsp.
    + pose proof (cut_split _ _ _ _ Hc) as Ht. rewrite Hsp in Ht. destruct Ht as (t & Ht & _). rewrite Ht in *. cbn [default from_option id] in *.
      destruct (split_prefix _ _ _ _ _ Hc Hsp Ht) as (m' & ms & He & Hm' & Hms). rewrite He in *.
      apply follow_split in Hall as [-> ->]; [|by apply turnStart_cut]. split_and!; [done..|]. by exists m', ms.
    + rewrite app_nil_r in Hall. rewrite Hall. done.
Qed.

(** ** The budget that is kept *)

Lemma in_filter_seq P a n x : x ∈ List.filter P (seq a n) ↔ P x = true ∧ a ≤ x < a + n.
Proof. rewrite list_elem_of_In, filter_In, in_seq. naive_solver. Qed.

(** The first of ascending indices from [i] on, and the last. *)
Lemma find_first P i a n : match List.find (λ c, i <=? c) (List.filter P (seq a n)) with
  | Some c => i ≤ c ∧ ∀ x, x ∈ List.filter P (seq a n) → i ≤ x → c ≤ x
  | None => ∀ x, x ∈ List.filter P (seq a n) → x < i
  end.
Proof.
  revert a. induction n as [|n IH]; intros a; cbn; [by intros x ?%elem_of_nil|]. specialize (IH (S a)).
  destruct (P a) eqn:Ep; cbn; [|exact IH]. destruct (Nat.leb_spec i a).
  - split; [done|]. intros x [->|Hx%in_filter_seq]%elem_of_cons _; lia.
  - destruct (List.find _ _) as [c|]; [|intros x [->|Hx]%elem_of_cons; [done|by apply IH]].
    destruct IH as (? & Hl). split_and!; [done|]. intros x [->|Hx]%elem_of_cons ?; [lia|by apply Hl].
Qed.

Lemma last_greatest P a n d x : x ∈ List.filter P (seq a n) → x ≤ List.last (List.filter P (seq a n)) d.
Proof.
  induction n as [|n IH]; [by intros ?%elem_of_nil|]. rewrite seq_S, List.filter_app. cbn. destruct (P (a + n)).
  - rewrite last_last. intros [Hx%in_filter_seq| ->%list_elem_of_singleton]%elem_of_app; lia.
  - by rewrite app_nil_r.
Qed.

Definition isResult (m : AgentMessage) : Prop := isCutPointMessage m = false.

(** What is kept at the chosen cut [c]: behind its message less than the budget,
    or nothing that counts, or only results; together with the results before it
    the budget is reached, unless there is nothing else before it. *)
Lemma chosen_budget entries start keep first rest : start ≤ length entries →
  findValidCutPoints entries start (length entries) = first :: rest →
  let c := chosenCut entries start (length entries) keep first (first :: rest) in
  let after := messagesOf (drop (S c) entries) in
  ((tokensIn after <= 0)%Z ∨ ¬ (keep <= inject_Z (tokensIn after))%Q ∨ Forall isResult after) ∧
  ∃ i, start ≤ i ≤ c ∧ Forall isResult (messagesOf (slice i c entries)) ∧
    ((keep <= inject_Z (tokensIn (messagesOf (slice i c entries)) + tokensIn (messagesOf (drop c entries))))%Q ∨ i = start).
Proof.
  intros Hlen Hv c after. assert (Hc : c ∈ findValidCutPoints entries start (length entries)) by (rewrite Hv; apply chosen_in).
  apply valid_cut in Hc as [Hc _]. assert (Hcd : c = chosenCut entries start (length entries) keep first (first :: rest)) by done.
  clearbody c. unfold chosenCut in Hcd.
  pose proof (budget_spec entries start keep (length entries - start) ltac:(lia)) as Hb.
  replace (start + (length entries - start)) with (length entries) in Hb by lia.
  assert (H0 : tailTokens entries (length entries) = 0%Z) by (unfold tailTokens; by rewrite drop_all). rewrite H0 in Hb.
  assert (Hres : ∀ a b, start ≤ a → b ≤ length entries → (∀ x, x ∈ first :: rest → ¬ a ≤ x < b) →
    Forall isResult (messagesOf (slice a b entries))) by (intros a b ? ? Hn; apply (results_between _ start (length entries)); [done..|by rewrite Hv]).
  assert (Htail : ∀ a b, a ≤ b → (tokensIn (messagesOf (slice a b entries)) + tokensIn (messagesOf (drop b entries)) = tailTokens entries a)%Z)
    by (intros a b ?; by rewrite <-tokensIn_app, <-messages_app, slice_rest).
  pose proof (budget_none entries start keep (length entries - start) ltac:(lia)) as Hno.
  replace (start + (length entries - start)) with (length entries) in Hno by lia. rewrite H0 in Hno.
  pose proof Hv as Hf. unfold findValidCutPoints in Hf. destruct (budgetIndex _ _ _ _) as [i|].
  - clear Hno. destruct Hb as (Hi & Hk & _ & Hs). pose proof (find_first (entryIs isCutPointEntry entries) i start (length entries - start)) as Hfi.
    rewrite Hf in Hfi. destruct (List.find _ _) as [c0|]; subst c.
    + destruct Hfi as [Hic Hleast]. pose proof (tailTokens_less entries (S i) (S c0) ltac:(lia)) as Hle. split.
      * destruct Hs as [Hs|Hs]; [right; left|left; unfold after; fold (tailTokens entries (S c0)); lia].
        intros Hc'. apply Hs. eapply Qle_trans; [exact Hc'|]. by rewrite <-Zle_Qle.
      * exists i. split_and!; [lia|lia| |left; by rewrite Htail]. apply Hres; [lia..|]. intros x Hx Hx'. specialize (Hleast x Hx). lia.
    + pose proof (last_greatest (entryIs isCutPointEntry entries) start (length entries - start) first) as Hg. rewrite Hf in Hg.
      split.
      * right. right. unfold after. rewrite <-(slice_all _ (length entries)) by done. apply Hres; [lia|done|]. intros x Hx Hx'. specialize (Hg x Hx). lia.
      * exists (List.last (first :: rest) first). split_and!; [lia|done| |left]. { unfold slice. rewrite Nat.sub_diag. constructor. }
        rewrite Htail by done. eapply Qle_trans; [exact Hk|]. rewrite <-Zle_Qle. apply tailTokens_less. apply Nat.lt_le_incl, Hfi, last_in.
  - subst c. pose proof (find_first (entryIs isCutPointEntry entries) 0 start (length entries - start)) as Hfi. rewrite Hf in Hfi. cbn in Hfi.
    split.
    + pose proof (tailTokens_less entries start (S first) ltac:(lia)) as Hle. unfold after. fold (tailTokens entries (S first)).
      destruct (Hno eq_refl) as [Hz|Hz]; [left; lia|right; left]. intros Hc'. apply Hz. eapply Qle_trans; [exact Hc'|]. by rewrite <-Zle_Qle.
    + exists start. split_and!; [done|lia| |by right]. apply Hres; [done|lia|]. intros x Hx Hx'. destruct Hfi as [_ Hl]. specialize (Hl x Hx). lia.
Qed.

(** C25: compaction keeps about as much as it is told to: what is kept begins
    with a message that is no tool result; behind it there is less than the budget,
    or only tool results; and with the results at the end of what is summarised it
    reaches the budget, unless these results, and what an earlier reset kept, are
    all that is summarised. *)
Theorem compaction_keeps_the_budget path settings p k fk :
  prepareCompaction path settings = Prepared p → NoDup (e_id <$> path) →
  path !! k = Some fk → fk.(e_id) = firstKeptEntryId p →
  let kept := messagesOf (drop k path) in
  let keep := budgetOf path settings in
  existsb isCutPointMessage kept = true →
  ∃ m after before results, kept = m :: after ∧ isCutPointMessage m = true ∧
    messagesToSummarize p ++ turnPrefixMessages p = before ++ results ∧ Forall isResult results ∧
    ((tokensIn after <= 0)%Z ∨ ¬ (keep <= inject_Z (tokensIn after))%Q ∨ Forall isResult after) ∧
    ((keep <= inject_Z (tokensIn (results ++ kept)))%Q ∨ before = st_prelude (compactionStart path)).
Proof.
  intros Hprep Hn Hk Hid kept keep Hex. destruct (kept_entries _ _ _ _ _ Hprep Hn Hk Hid) as (r & fk' & Hp & Hkept).
  unfold kept in *. rewrite Hkept in *. clear kept Hkept. fold keep in Hp.
  destruct (cut_cases _ _ _ (pa_cut _ _ _ _ _ Hp)) as [(Hr & _ & Hf)|(first & rest & Hv & Hc)].
  - rewrite Hr in Hex. apply existsb_exists in Hex as (m & Hm%list_elem_of_In & Hcut). rewrite Forall_forall in Hf. by rewrite (Hf m Hm) in Hcut.
  - pose proof (kept_from_cut _ _ _ _ Hc) as Hkc. destruct (at_cut _ _ (cut_point _ _ _ _ Hc)) as (m & Hm & Hcut).
    assert (Hlen : st_start (compactionStart path) ≤ length (st_entries (compactionStart path))).
    { pose proof (lookup_lt_Some _ _ _ (pa_first _ _ _ _ _ Hp)). pose proof (cut_after_start _ _ _ _ _ Hp). lia. }
    destruct (chosen_budget _ _ keep _ _ Hlen Hv) as (Hafter & i & Hi & Hres & Hbud). set (c := chosenCut _ _ _ _ _ _) in *.
    exists m, (messagesOf (drop (S c) (st_entries (compactionStart path)))),
      (st_prelude (compactionStart path) ++ messagesOf (slice (st_start (compactionStart path)) i (st_entries (compactionStart path)))),
      (messagesOf (slice i c (st_entries (compactionStart path)))).
    split_and!; [by rewrite Hkc|done| |done|done|].
    + rewrite (summarized_all _ _ _ _ _ Hp), <-app_assoc, <-messages_app, take_slice by lia. f_equal.
      apply (app_inv_tail (messagesOf (drop c (st_entries (compactionStart path))))). rewrite <-Hkc at 1.
      pose proof (cut_range _ _ _ _ Hc). by rewrite <-!messages_app, !slice_rest by lia.
    + destruct Hbud as [Hb| ->]; [left; by rewrite tokensIn_app, Hkc|right]. unfold slice. by rewrite Nat.sub_diag, take_0, app_nil_r.
Qed.

(** ** A session *)

Definition userEntry (id : string) (text : string) : SessionTreeEntry := {| e_id := id; e_data := EMessage (made (MUser (CString (lit text)))) |}.

Definition answer (content : list AssistantBlock) : AgentMessage :=
  made (MAssistant {| as_content := content; as_stopReason := "stop"; as_usage := None; as_cli := false; as_provider := "p"; as_model := "m";
                      as_checkpoint := false |}).

Definition answerEntry (id : string) (content : list AssistantBlock) : SessionTreeEntry := {| e_id := id; e_data := EMessage (answer content) |}.

Definition resultEntry (id call text : string) : SessionTreeEntry :=
  {| e_id := id; e_data := EMessage (made (MToolResult {| tr_toolCallId := call; tr_toolName := "read"; tr_content := CString (lit text);
       tr_isError := false; tr_synthetic := false; tr_patches := [] |})) |}.

(** A session that was compacted once, whose turn goes on. *)
Definition sessionPath : list SessionTreeEntry :=
  [userEntry "u0" "old"; userEntry "u1" "look at the file";
   {| e_id := "c1"; e_data := ECompaction (lit "It began.") "u1" 90 None false |};
   answerEntry "a1" [BText (lit "reading"); BCall "x" "read" {| arg_path := Some "f"%string; arg_json := lit "{path:f}" |}];
   resultEntry "t1" "x" "what the file says"; answerEntry "a2" [BText (lit "it says this and that")];
   userEntry "u2" "and the other file?"; answerEntry "a3" [BText (lit "the same")]].

Definition sessionSettings : CompactionSettings := {| enabled := true; reserveTokens := 100; keepRecentTokens := 10 |}.

Ltac nodup := refine (bool_decide_unpack (dec := NoDup_dec _) _ _); vm_compute; exact I.

Lemma session_looks_back : boundaryLooksBack sessionPath.
Proof. intros i b k [= <- <-]. vm_compute. intros [= <-]. lia. Qed.

Lemma compaction_keeps_or_summarizes_witness : ∃ p, prepareCompaction sessionPath sessionSettings = Prepared p ∧
  ∃ head prior kept, (buildSessionContext sessionPath).(messages) = head ++ prior ∧ headedBy p.(previousSummary) head ∧
    (buildSessionContext (sessionPath ++ [compactionEntry "c2" (lit "More.") p None false])).(messages) =
      made (MCompactionSummary (lit "More.") p.(tokensBefore)) :: kept ∧
    bare prior = bare (p.(messagesToSummarize) ++ p.(turnPrefixMessages)) ++ bare kept ∧
    p.(messagesToSummarize) ++ p.(turnPrefixMessages) ≠ [].
Proof.
  eexists. split; [vm_compute; reflexivity|].
  apply (compaction_keeps_or_summarizes sessionPath sessionSettings _ "c2" (lit "More.") None false);
    [vm_compute; reflexivity|exact session_looks_back|nodup].
Defined.

Lemma compaction_keeps_results_with_calls_witness : ∃ p fk, prepareCompaction sessionPath sessionSettings = Prepared p ∧
  sessionPath !! 5%nat = Some fk ∧ fk.(e_id) = firstKeptEntryId p ∧
  let kept := messagesOf (drop 5 sessionPath) in
  resultsFollow [] (messagesToSummarize p) = true ∧ resultsFollow [] (turnPrefixMessages p) = true ∧ resultsFollow [] kept = true ∧
  if splitsTurn p then ∃ m ms, turnPrefixMessages p = m :: ms ∧ isTurnStartMessage m = true ∧ Forall (λ m, isTurnStartMessage m = false) ms
  else turnPrefixMessages p = [].
Proof.
  do 2 eexists. split; [vm_compute; reflexivity|]. split; [reflexivity|]. split; [reflexivity|].
  apply (compaction_keeps_results_with_calls sessionPath sessionSettings _ 5 (answerEntry "a2" [BText (lit "it says this and that")]));
    [vm_compute; reflexivity|nodup|reflexivity..|vm_compute; reflexivity|vm_compute; reflexivity].
Defined.

Lemma compaction_keeps_the_budget_witness : ∃ p fk, prepareCompaction sessionPath sessionSettings = Prepared p ∧
  sessionPath !! 5%nat = Some fk ∧ fk.(e_id) = firstKeptEntryId p ∧
  let kept := messagesOf (drop 5 sessionPath) in
  let keep := budgetOf sessionPath sessionSettings in
  ∃ m after before results, kept = m :: after ∧ isCutPointMessage m = true ∧
    messagesToSummarize p ++ turnPrefixMessages p = before ++ results ∧ Forall isResult results ∧
    ((tokensIn after <= 0)%Z ∨ ¬ (keep <= inject_Z (tokensIn after))%Q ∨ Forall isResult after) ∧
    ((keep <= inject_Z (tokensIn (results ++ kept)))%Q ∨ before = st_prelude (compactionStart sessionPath)).
Proof.
  do 2 eexists. split; [vm_compute; reflexivity|]. split; [reflexivity|]. split; [reflexivity|].
  apply (compaction_keeps_the_budget sessionPath sessionSettings _ 5 (answerEntry "a2" [BText (lit "it says this and that")]));
    [vm_compute; reflexivity|nodup|reflexivity..|vm_compute; reflexivity].
Defined.

(** A provider that always writes the same. *)
Definition alwaysSummarizes (_ : SummaryRequest) (calls : nat) : SummaryResponse * nat :=
  ({| sp_stop := StopOther; sp_texts := [lit "The file was read."] |}, S calls).

Lemma summary_is_bounded_witness : ∃ p r, prepareCompaction sessionPath sessionSettings = Prepared p ∧
  compact alwaysSummarizes p 0 None 0%nat = (inr r, 1%nat) ∧
  let files := formatFileOperations (readFiles (cr_details r)) (modifiedFiles (cr_details r)) in
  cr_firstKeptEntryId r = firstKeptEntryId p ∧ (js_length (cr_summary r) <= MAX_COMPACTION_SUMMARY_CHARS)%Z ∧
  (js_length files <= MAX_FILE_OPS_SECTION_CHARS)%Z ∧
  ∃ history body w1, summarizeHistory alwaysSummarizes p 0 None 0%nat = (inr history, w1) ∧ cr_summary r = body ++ files ∧
    take (Z.to_nat (MAX_COMPACTION_SUMMARY_CHARS / 2 - 1)) history `prefix_of` body.
Proof.
  do 2 eexists. split; [vm_compute; reflexivity|]. split; [vm_compute; reflexivity|].
  apply (summary_is_bounded alwaysSummarizes _ 0 None 0%nat _ 1%nat). vm_compute. reflexivity.
Defined.

(** A cut in front of a turn counts as one that splits the turn before it when an
    entry without a message precedes it. *)
Example cut_at_metadata_splits :
  findCutPoint [userEntry "u0" "old"; answerEntry "a0" [BText (lit "done")]; {| e_id := "m0"; e_data := EModelChange "p" "m" |};
    userEntry "u1" "look at the file"; answerEntry "a1" [BText (lit "reading")]] 0 5 4 =
    Some {| firstKeptEntryIndex := 2; turnStartIndex := Some 0; isSplitTurn := true |} ∧
  findCutPoint [userEntry "u0" "old"; answerEntry "a0" [BText (lit "done")];
    userEntry "u1" "look at the file"; answerEntry "a1" [BText (lit "reading")]] 0 4 4 =
    Some {| firstKeptEntryIndex := 2; turnStartIndex := None; isSplitTurn := false |}.
Proof. split; reflexivity. Qed.
