(* ===== verification/Retry.v ===== *)
(** * Retries

    Backoff, waits that can be aborted, the supervisor of a connection's retries
    and the runner that retries a call ([packages/retry/src/index.ts]).

    Delays are rationals, and the infinite cap is [None].  Powers of two are
    exact: the runner is asked for fewer than 1024 attempts.  What a caller
    passes (the call, the waits, the draws of [Math.random]) is a computation on
    the caller's world; only the attempts are counted here, so nothing takes
    fuel. *)
From Stdlib Require Import QArith Qminmax Qround.
From S2P Require Import Prelude Effects.
Local Open Scope Z_scope.

Definition MAX_TIMER_TIMEOUT_MS : Z := 2147000000.

(** [Math.round] *)
Definition js_round (q : Q) : Z := Qfloor (q + (1 # 2)).

(** ** Backoff *)

Record BackoffPolicy := { initialMs : Q; maxMs : Q; factor : Q; bp_jitter : Q }.

#[export] Instance BackoffPolicy_eta : Eta BackoffPolicy := λ p,
  {| initialMs := p.(initialMs); maxMs := p.(maxMs); factor := p.(factor); bp_jitter := p.(bp_jitter) |}.

(** [draw]: the value of [Math.random()]. *)
Definition computeBackoff (policy : BackoffPolicy) (attempt : Z) (draw : Q) : Q :=
  let base := Qmin policy.(maxMs) (policy.(initialMs) * Qpower policy.(factor) ((attempt - 1) `max` 0)) in
  let jitter := (base * policy.(bp_jitter) * draw)%Q in
  Qmin policy.(maxMs) (inject_Z (js_round (base + jitter))).

Definition computeBackoffSchedule (scheduleMs : list Z) (attempt : Z) : Z :=
  let index := (attempt - 1) `min` (Z.of_nat (length scheduleMs) - 1) in
  if attempt <=? 0 then 0 else if index <? 0 then 0 else default 0 (scheduleMs !! Z.to_nat index).

(** ** Waits *)

(** A wait, as its promise and its timer stand. *)
Inductive SleepOutcome := Waiting | Woken | Aborted.

Record Sleep := { sl_timer : option Z; sl_listening : bool; sl_outcome : SleepOutcome }.

(** The timer is set for at least one millisecond, within the range of timers. *)
Definition sleepWithAbort (ms : jsnum) (aborted : bool) : Sleep :=
  match ms with
  | Fin q =>
      if Qle_bool q 0 then {| sl_timer := None; sl_listening := false; sl_outcome := Woken |}
      else if aborted then {| sl_timer := None; sl_listening := false; sl_outcome := Aborted |}
      else {| sl_timer := Some ((Qfloor q `max` 1) `min` MAX_TIMER_TIMEOUT_MS); sl_listening := true; sl_outcome := Waiting |}
  | _ => {| sl_timer := None; sl_listening := false; sl_outcome := Woken |}
  end.

(** A cleared timer does not fire, and a removed listener is not called. *)
Definition onTimer (s : Sleep) : Sleep :=
  match s.(sl_timer) with
  | Some _ => {| sl_timer := None; sl_listening := false; sl_outcome := Woken |}
  | None => s
  end.

Definition onAbort (s : Sleep) : Sleep :=
  if s.(sl_listening) then
    match s.(sl_outcome) with
    | Waiting => {| sl_timer := None; sl_listening := false; sl_outcome := Aborted |}
    | _ => s
    end
  else s.

(** ** The supervisor *)

(** Controllers are numbered as they are made; [sv_aborted] are those aborted. *)
Record RetrySupervisor := {
  sv_attempts : Z;
  nextDelayOverrideMs : option Q;
  sv_initialMs : Q;
  pendingAbort : option nat;
  sv_made : nat;
  sv_aborted : list nat
}.

#[export] Instance RetrySupervisor_eta : Eta RetrySupervisor := λ s,
  {| sv_attempts := s.(sv_attempts); nextDelayOverrideMs := s.(nextDelayOverrideMs); sv_initialMs := s.(sv_initialMs);
     pendingAbort := s.(pendingAbort); sv_made := s.(sv_made); sv_aborted := s.(sv_aborted) |}.

Definition newSupervisor (policy : BackoffPolicy) : RetrySupervisor :=
  {| sv_attempts := 0; nextDelayOverrideMs := None; sv_initialMs := policy.(initialMs); pendingAbort := None; sv_made := 0; sv_aborted := [] |}.

Definition cancelRetry (s : RetrySupervisor) : RetrySupervisor :=
  match s.(pendingAbort) with
  | Some c => s <| sv_aborted ::= λ l, c :: l |> <| pendingAbort := None |>
  | None => s
  end.

Definition resetRetry (initial : Q) (s : RetrySupervisor) : RetrySupervisor :=
  (cancelRetry s) <| sv_attempts := 0 |> <| sv_initialMs := initial |> <| nextDelayOverrideMs := None |>.

(** A granted retry: its number, its delay and the controller of its signal. *)
Record Granted := { g_attempt : Z; g_delayMs : Q; g_signal : nat }.

(** [maxAttempts] is [None] for infinity. *)
Definition nextRetry (policy : BackoffPolicy) (maxAttempts : option Q) (draw : Q) (s : RetrySupervisor) : option Granted * RetrySupervisor :=
  let override := s.(nextDelayOverrideMs) in
  let s := s <| nextDelayOverrideMs := None |> in
  let s := match override with None => s <| sv_attempts ::= Z.succ |> | Some _ => s end in
  if match override, maxAttempts with None, Some m => Qceiling m <? s.(sv_attempts) | _, _ => false end then (None, s)
  else
    let attempt := s.(sv_attempts) `max` 1 in
    let delayMs := match override with
                   | Some d => d
                   | None => computeBackoff (policy <| initialMs := s.(sv_initialMs) |>) attempt draw
                   end in
    let s := cancelRetry s in
    (Some {| g_attempt := attempt; g_delayMs := delayMs; g_signal := s.(sv_made) |},
     s <| pendingAbort := Some s.(sv_made) |> <| sv_made ::= S |>).

(** ** Configuration *)

Inductive Jitter := Fraction (q : Q) | FullJitter.

Record RetryConfig := { attempts : Z; minDelayMs : Z; maxDelayMs : Z; cfg_jitter : Jitter }.

(** What a caller gives: numbers of any kind, or nothing. *)
Inductive JitterArg := JitterNumber (n : jsnum) | JitterFull.

Record RetryOverrides := {
  o_attempts : option jsnum;
  o_minDelayMs : option jsnum;
  o_maxDelayMs : option jsnum;
  o_jitter : option JitterArg
}.

Definition DEFAULT_RETRY_CONFIG : RetryConfig := {| attempts := 3; minDelayMs := 300; maxDelayMs := 30000; cfg_jitter := Fraction 0 |}.

Definition finiteOf (value : option jsnum) : option Q := match value with Some (Fin q) => Some q | _ => None end.

(** With the bound [min], the only one that is given. *)
Definition clampNumber (value : option jsnum) (fallback : jsnum) (min : Q) : jsnum :=
  match finiteOf value with
  | None => fallback
  | Some next => Fin (Qmax next min)
  end.

Definition resolveAttemptCount (value : option jsnum) (fallback : Z) : Z :=
  1 `max` js_round (default (inject_Z fallback) (finiteOf value)).

Definition resolveRetryDelayMs (value : jsnum) : Z :=
  let finite := match value with PosInf => inject_Z MAX_TIMER_TIMEOUT_MS | Fin q => q | _ => 0%Q end in
  (js_round finite `max` 0) `min` MAX_TIMER_TIMEOUT_MS.

Definition resolveJitterConfig (value : option JitterArg) (fallback : Jitter) : Jitter :=
  match value with
  | Some JitterFull => FullJitter
  | Some (JitterNumber n) => match finiteOf (Some n) with Some q => Fraction (Qmin (Qmax q 0) 1) | None => fallback end
  | None => fallback
  end.

Definition resolveRetryConfig (defaults : RetryConfig) (o : RetryOverrides) : RetryConfig :=
  let min := resolveRetryDelayMs (clampNumber o.(o_minDelayMs) (jsnum_of_Z defaults.(minDelayMs)) 0) in
  {| attempts := resolveAttemptCount o.(o_attempts) defaults.(attempts);
     minDelayMs := min;
     maxDelayMs := min `max` resolveRetryDelayMs (clampNumber o.(o_maxDelayMs) (jsnum_of_Z defaults.(maxDelayMs)) 0);
     cfg_jitter := resolveJitterConfig o.(o_jitter) defaults.(cfg_jitter) |}.

(** ** The runner *)

Inductive JitterMode := Symmetric | Positive.

Record RetryDelayContext := { rc_attempt : Z; rc_maxAttempts : Z; rc_err : JsError }.

Record RetryInfo := { ri_context : RetryDelayContext; ri_delayMs : Q }.

(** What a caller of the runner gives, on the caller's world. *)
Record RetryOptions (W T : Type) := {
  ro_config : RetryOverrides;
  ro_fn : Eff W T;
  ro_shouldRetry : JsError → Z → Eff W bool;
  ro_retryAfterMs : JsError → Eff W (option jsnum);
  ro_retryAfterMaxDelayMs : option jsnum;
  ro_delayMs : RetryDelayContext → Eff W (option jsnum);
  ro_onRetry : RetryInfo → Eff W unit;
  ro_random : Eff W Q;
  ro_sleep : Q → Eff W unit;
  ro_createFailure : list JsError → JsError
}.

Arguments ro_config {W T}. Arguments ro_fn {W T}. Arguments ro_shouldRetry {W T}. Arguments ro_retryAfterMs {W T}.
Arguments ro_retryAfterMaxDelayMs {W T}. Arguments ro_delayMs {W T}. Arguments ro_onRetry {W T}. Arguments ro_random {W T}.
Arguments ro_sleep {W T}. Arguments ro_createFailure {W T}.

(** [Math.min(q, cap)] *)
Definition capped (q : Q) (cap : option Q) : Q := match cap with Some c => Qmin q c | None => q end.

Section runner.
Context {W T : Type} (options : RetryOptions W T).

Definition applyJitter (delayMs : Q) (jitter : Jitter) (mode : JitterMode) : Eff W Q :=
  match jitter with
  | FullJitter =>
      r ← options.(ro_random);
      mret (match mode with
            | Symmetric => inject_Z (0 `max` js_round (delayMs * ((1 # 2) + r * (1 # 2))))
            | Positive => inject_Z (0 `max` Qceiling (delayMs * (1 + r)))
            end)
  | Fraction jitter =>
      if Qle_bool jitter 0 then mret (match mode with Positive => inject_Z (Qceiling delayMs) | Symmetric => delayMs end)
      else
        fraction ← options.(ro_random);
        let offset := match mode with Positive => (fraction * jitter)%Q | Symmetric => ((fraction * 2 - 1) * jitter)%Q end in
        let raw := (delayMs * (1 + offset))%Q in
        mret (inject_Z (0 `max` match mode with Positive => Qceiling raw | Symmetric => js_round raw end))
  end.

Definition resolved : RetryConfig := resolveRetryConfig DEFAULT_RETRY_CONFIG options.(ro_config).

Definition maxDelayCap : option Q := if 0 <? resolved.(maxDelayMs) then Some (inject_Z resolved.(maxDelayMs)) else None.

Definition retryAfterCap : option Q :=
  match options.(ro_retryAfterMaxDelayMs) with
  | None => maxDelayCap
  | Some v =>
      Some (inject_Z (resolved.(minDelayMs) `max`
        resolveRetryDelayMs (clampNumber (Some v) (match maxDelayCap with Some c => Fin c | None => PosInf end) 0)))
  end.

(** The delay behind a failed attempt, of the hint and the configured delay. *)
Definition delayOf (attempt : Z) (hint configured : option jsnum) : Eff W Q :=
  let retryAfterMs := finiteOf hint in
  let minDelay := inject_Z resolved.(minDelayMs) in
  let baseDelay :=
    match retryAfterMs with
    | Some h => Qmax h minDelay
    | None => match configured with
              | None => inject_Z (resolved.(minDelayMs) * 2 ^ (attempt - 1))
              | Some c => Qmax (inject_Z (resolveRetryDelayMs c)) minDelay
              end
    end in
  let delayCap := match retryAfterMs with Some _ => retryAfterCap | None => maxDelayCap end in
  let canHonorRetryAfter := match retryAfterMs with Some h => match delayCap with Some c => Qle_bool h c | None => true end | None => false end in
  let wantsPositiveDraw :=
    match resolved.(cfg_jitter) with
    | FullJitter => negb (bool_decide (is_Some retryAfterMs)) || canHonorRetryAfter
    | Fraction _ => canHonorRetryAfter
    end in
  delay ← applyJitter (capped baseDelay delayCap) resolved.(cfg_jitter) (if wantsPositiveDraw then Positive else Symmetric);
  mret (capped (Qmax delay minDelay) delayCap).

Definition afterFailure (attempt : Z) (err : JsError) : Eff W unit :=
  let context := {| rc_attempt := attempt; rc_maxAttempts := resolved.(attempts); rc_err := err |} in
  hint ← options.(ro_retryAfterMs) err;
  configured ← options.(ro_delayMs) context;
  delay ← delayOf attempt hint configured;
  options.(ro_onRetry) {| ri_context := context; ri_delayMs := delay |} ;;
  if Qle_bool delay 0 then mret tt else options.(ro_sleep) delay.

(** [count] attempts from [attempt] on. *)
Fixpoint retryLoop (count : nat) (attempt : Z) (attemptErrors : list JsError) : Eff W T :=
  match count with
  | O => throw (options.(ro_createFailure) attemptErrors)
  | S rest =>
      tryCatch options.(ro_fn) (λ err,
        let attemptErrors := attemptErrors ++ [err] in
        if resolved.(attempts) <=? attempt then throw (options.(ro_createFailure) attemptErrors)
        else
          again ← options.(ro_shouldRetry) err attempt;
          if again : bool then afterFailure attempt err ;; retryLoop rest (attempt + 1) attemptErrors
          else throw (options.(ro_createFailure) attemptErrors))
  end.

Definition retryAsync : Eff W T := retryLoop (Z.to_nat resolved.(attempts)) 1 [].

(** The form with a number of attempts: the delay doubles. *)
Fixpoint retryTimes (count : nat) (index : Z) (attempts : Z) (initialDelayMs : Z) (attemptErrors : list JsError) : Eff W T :=
  match count with
  | O => throw (options.(ro_createFailure) attemptErrors)
  | S rest =>
      tryCatch options.(ro_fn) (λ err,
        let attemptErrors := attemptErrors ++ [err] in
        if index =? attempts - 1 then throw (options.(ro_createFailure) attemptErrors)
        else
          options.(ro_sleep) (inject_Z (resolveRetryDelayMs (jsnum_of_Z (initialDelayMs * 2 ^ index)))) ;;
          retryTimes rest (index + 1) attempts initialDelayMs attemptErrors)
  end.

Definition retryAsyncTimes (attemptsGiven : jsnum) (initialDelayMs : Z) : Eff W T :=
  let attempts := resolveAttemptCount (Some attemptsGiven) DEFAULT_RETRY_CONFIG.(attempts) in
  retryTimes (Z.to_nat attempts) 0 attempts initialDelayMs [].
End runner.
