(* ===== verification/RetryPromises.v ===== *)
(** * What retries promise

    Delays stay within their bounds and honour the hint of a server; a run makes
    its attempts in order until one succeeds or it may not go on; waits settle
    once; and a supervisor has at most one retry pending. *)
From Stdlib Require Import QArith Qminmax Qround Lqa.
From S2P Require Import Prelude Effects Retry.
Local Open Scope Z_scope.

(** ** Numbers *)

Lemma round_low q : (q - (1 # 2) <= inject_Z (js_round q))%Q.
Proof. unfold js_round. pose proof (Qlt_floor (q + (1 # 2))) as Hf. rewrite inject_Z_plus in Hf. change (inject_Z 1) with 1%Q in Hf. lra. Qed.

Lemma round_high q : (inject_Z (js_round q) <= q + (1 # 2))%Q.
Proof. unfold js_round. apply Qfloor_le. Qed.

Lemma inject_max a b : (inject_Z a <= inject_Z (a `max` b))%Q ∧ (inject_Z b <= inject_Z (a `max` b))%Q.
Proof. rewrite <-!Zle_Qle. lia. Qed.

Lemma delayMs_range v : 0 ≤ resolveRetryDelayMs v ≤ MAX_TIMER_TIMEOUT_MS.
Proof. unfold resolveRetryDelayMs, MAX_TIMER_TIMEOUT_MS. lia. Qed.

Lemma config_range defaults o : let c := resolveRetryConfig defaults o in
  1 ≤ attempts c ∧ 0 ≤ minDelayMs c ≤ maxDelayMs c ∧ maxDelayMs c ≤ MAX_TIMER_TIMEOUT_MS.
Proof.
  cbn. unfold resolveAttemptCount.
  pose proof (delayMs_range (clampNumber (o_minDelayMs o) (jsnum_of_Z (minDelayMs defaults)) 0)).
  pose proof (delayMs_range (clampNumber (o_maxDelayMs o) (jsnum_of_Z (maxDelayMs defaults)) 0)). lia.
Qed.

(** [q] is at most the cap. *)
Definition under (q : Q) (cap : option Q) : Prop := match cap with Some c => (q <= c)%Q | None => True end.

Lemma capped_under q cap : under (capped q cap) cap.
Proof. destruct cap as [c|]; [|done]. apply Q.le_min_r. Qed.

Lemma capped_low q m cap : (m <= q)%Q → under m cap → (m <= capped q cap)%Q.
Proof. destruct cap as [c|]; [|done]. intros. by apply Q.min_glb. Qed.

Lemma capped_high q cap : (capped q cap <= q)%Q.
Proof. destruct cap as [c|]; [apply Q.le_min_l|apply Qle_refl]. Qed.

(** ** Delays *)

(** The draws of a source of randomness are in the unit interval. *)
Definition drawsUnit {W} (random : Eff W Q) : Prop := ∀ w, wp True random (λ r _, (0 <= r <= 1)%Q) (λ _ _, True) w.

Section delays.
Context {W T : Type} (options : RetryOptions W T).
Context (Hr : drawsUnit options.(ro_random)).

Lemma jitter_draw {A} (k : Q → Eff W A) (Q : A → Prop) w : (∀ r, (0 <= r <= 1)%Q → ∀ w, wp True (k r) (λ a _, Q a) (λ _ _, True) w) →
  wp True (r ← options.(ro_random); k r) (λ a _, Q a) (λ _ _, True) w.
Proof. intros Hk. apply wp_bind. eapply wp_mono; [apply Hr| |done]. cbn. intros r w' Hr'. by apply Hk. Qed.

(** Positive jitter does not shorten a delay. *)
Lemma positive_jitter d j w : (0 <= d)%Q → wp True (applyJitter options d j Positive) (λ x _, (d <= x)%Q) (λ _ _, True) w.
Proof.
  intros Hd. unfold applyJitter. destruct j as [q|].
  - destruct (Qle_bool q 0) eqn:Eq; [apply wp_ret, Qle_ceiling|]. apply (jitter_draw _ (λ x, (d <= x)%Q)). intros r Hr' w'. apply wp_ret.
    assert (Hq : (0 < q)%Q) by (apply Qnot_le_lt; intros Hc%Qle_bool_iff; congruence).
    assert (Hp : (0 <= r * q)%Q) by nra. eapply Qle_trans; [|apply inject_max]. eapply Qle_trans; [|apply Qle_ceiling]. nra.
  - apply (jitter_draw _ (λ x, (d <= x)%Q)). intros r Hr' w'. apply wp_ret.
    eapply Qle_trans; [|apply inject_max]. eapply Qle_trans; [|apply Qle_ceiling]. nra.
Qed.

(** Symmetric jitter spreads a delay by its fraction. *)
Lemma symmetric_jitter d q w : (0 <= d)%Q → (0 <= q)%Q →
  wp True (applyJitter options d (Fraction q) Symmetric) (λ x _, (d * (1 - q) - (1 # 2) <= x)%Q ∧ ((q <= 0)%Q → x == d)%Q ∧ (x <= d * (1 + q) + (1 # 2))%Q) (λ _ _, True) w.
Proof.
  intros Hd Hq. unfold applyJitter. destruct (Qle_bool q 0) eqn:Eq.
  - apply Qle_bool_iff in Eq. apply wp_ret. split_and!; [nra|intros; lra|nra].
  - apply (jitter_draw _ (λ x, _)). intros r Hr' w'. apply wp_ret.
    assert (Hq' : (0 < q)%Q) by (apply Qnot_le_lt; intros Hc%Qle_bool_iff; congruence).
    set (raw := (d * (1 + (r * 2 - 1) * q))%Q). pose proof (round_low raw). pose proof (round_high raw).
    assert (- q <= (r * 2 - 1) * q /\ (r * 2 - 1) * q <= q)%Q as [? ?] by nra.
    assert (d * (1 - q) <= raw /\ raw <= d * (1 + q))%Q as [? ?] by (unfold raw; nra). split_and!.
    + eapply Qle_trans; [|apply inject_max]. lra.
    + intros. lra.
    + unfold Z.max. destruct (0 ?= js_round raw) eqn:Ez; [|lra|].
      * change (inject_Z 0) with 0%Q. nra.
      * change (inject_Z 0) with 0%Q. nra.
Qed.

Lemma resolved_range : 1 ≤ attempts (resolved options) ∧ 0 ≤ minDelayMs (resolved options) ≤ maxDelayMs (resolved options).
Proof. pose proof (config_range DEFAULT_RETRY_CONFIG (ro_config options)) as Hc. cbn zeta in Hc. unfold resolved. lia. Qed.

Lemma min_under_cap : under (inject_Z (minDelayMs (resolved options))) (maxDelayCap options) ∧
  under (inject_Z (minDelayMs (resolved options))) (retryAfterCap options).
Proof.
  pose proof resolved_range as Hr'. assert (Hm : under (inject_Z (minDelayMs (resolved options))) (maxDelayCap options)).
  { unfold maxDelayCap. destruct (0 <? maxDelayMs (resolved options)); [|done]. cbn. rewrite <-Zle_Qle. lia. }
  split; [done|]. unfold retryAfterCap. destruct (ro_retryAfterMaxDelayMs options); [|done]. apply inject_max.
Qed.

Lemma fraction_nonneg q : cfg_jitter (resolved options) = Fraction q → (0 <= q)%Q.
Proof.
  unfold resolved, resolveRetryConfig, resolveJitterConfig. cbn.
  destruct (o_jitter (ro_config options)) as [[[]|]|]; cbn; intros [= <-]; try lra.
  apply Q.min_glb; [apply Q.le_max_r|lra].
Qed.

(** The final clamp of a delay. *)
Definition clampDelay (cap : option Q) (delay : Q) : Q := capped (Qmax delay (inject_Z (minDelayMs (resolved options)))) cap.

Lemma clamp_bounds cap delay : under (inject_Z (minDelayMs (resolved options))) cap →
  (inject_Z (minDelayMs (resolved options)) <= clampDelay cap delay)%Q ∧ under (clampDelay cap delay) cap ∧
  (∀ h, under h cap → (h <= delay)%Q → (h <= clampDelay cap delay)%Q) ∧
  (∀ b, (inject_Z (minDelayMs (resolved options)) <= b)%Q → (delay <= b)%Q → (clampDelay cap delay <= b)%Q).
Proof.
  intros Hc. unfold clampDelay. split_and!.
  - apply capped_low; [apply Q.le_max_r|done].
  - apply capped_under.
  - intros h Hh Hd. apply capped_low; [|done]. eapply Qle_trans; [exact Hd|apply Q.le_max_l].
  - intros b Hm Hd. eapply Qle_trans; [apply capped_high|]. by apply Q.max_lub.
Qed.

(** The delay doubles from the least one on, up to the cap. *)
Definition exponentialDelay (attempt : Z) : Q := capped (inject_Z (minDelayMs (resolved options) * 2 ^ (attempt - 1))) (maxDelayCap options).

Lemma exponential_low attempt : 1 ≤ attempt → (inject_Z (minDelayMs (resolved options)) <= exponentialDelay attempt)%Q.
Proof.
  intros Ha. apply capped_low, min_under_cap. rewrite <-Zle_Qle. pose proof resolved_range.
  assert (0 < 2 ^ (attempt - 1)) by (apply Z.pow_pos_nonneg; lia). nia.
Qed.
End delays.

(** the delay before a retry is at least the least delay and at most the
    cap; a hint of the server that the cap admits is never undercut; and without a
    hint or a configured delay it is the least delay doubled for every attempt, up
    to the cap, give or take the fraction of the jitter and rounding. *)
Theorem retry_delay_is_bounded {W T} (options : RetryOptions W T) attempt hint configured w :
  drawsUnit (ro_random options) → 1 ≤ attempt →
  wp True (delayOf options attempt hint configured) (λ d _,
    let cap := match finiteOf hint with Some _ => retryAfterCap options | None => maxDelayCap options end in
    (inject_Z (minDelayMs (resolved options)) <= d)%Q ∧ under d cap ∧
    (∀ h, finiteOf hint = Some h → under h cap → (h <= d)%Q) ∧
    (∀ q, finiteOf hint = None → configured = None → cfg_jitter (resolved options) = Fraction q →
      let base := exponentialDelay options attempt in
      (base * (1 - q) - (1 # 2) <= d)%Q ∧ (d <= base * (1 + q) + (1 # 2))%Q ∧ ((q <= 0)%Q → d == base)%Q)) (λ _ _, True) w.
Proof.
  intros Hr Ha. destruct (min_under_cap options) as [Hm1 Hm2]. unfold delayOf.
  set (cap := match finiteOf hint with Some _ => retryAfterCap options | None => maxDelayCap options end).
  assert (Hm : under (inject_Z (minDelayMs (resolved options))) cap) by (unfold cap; by case_match).
  assert (H0 : (0 <= inject_Z (minDelayMs (resolved options)))%Q) by (change 0%Q with (inject_Z 0); rewrite <-Zle_Qle; apply resolved_range).
  set (base := match finiteOf hint with Some h => Qmax h _ | None => _ end). set (mode := if (_ : bool) then Positive else Symmetric).
  assert (Hbase : (0 <= capped base cap)%Q).
  { apply (Qle_trans _ (inject_Z (minDelayMs (resolved options)))); [done|]. apply capped_low; [|done]. unfold base.
    destruct (finiteOf hint); [apply Q.le_max_r|]. destruct configured; [apply Q.le_max_r|].
    eapply Qle_trans; [by apply (exponential_low options attempt)|apply capped_high]. }
  apply wp_bind. apply (wp_mono _ _ (λ x _, (mode = Positive → (capped base cap <= x)%Q) ∧
    (∀ q, mode = Symmetric → cfg_jitter (resolved options) = Fraction q →
      (capped base cap * (1 - q) - (1 # 2) <= x)%Q ∧ ((q <= 0)%Q → x == capped base cap)%Q ∧ (x <= capped base cap * (1 + q) + (1 # 2))%Q)) _ (λ _ _, True)); [| |done].
  { destruct mode; [|eapply wp_mono; [by apply positive_jitter| |done]; by intros].
    destruct (cfg_jitter (resolved options)) as [q|] eqn:Ej.
    - eapply wp_mono; [apply (symmetric_jitter _ Hr _ q); [done|by apply (fraction_nonneg options)]| |done]. cbn. intros x _ Hx.
      split; [done|]. by intros q' _ [= <-].
    - unfold applyJitter. apply wp_bind. eapply wp_mono; [apply Hr| |done]. cbn. intros r s' _. split; [done|]. by intros. }
  cbn beta. intros x s' [Hpos Hsym]. apply wp_ret. destruct (clamp_bounds options cap x Hm) as (Hlow & Hcap & Hhint & Hhigh). split_and!; [done|done|..].
  - intros h Hh Hu. apply Hhint; [done|]. eapply Qle_trans; [|apply Hpos].
    + apply capped_low; [|done]. unfold base. rewrite Hh. apply Q.le_max_l.
    + unfold mode. rewrite Hh. assert (match cap with Some c => Qle_bool h c | None => true end = true) as ->.
      { destruct cap as [c|]; [|done]. by apply Qle_bool_iff. }
      destruct (cfg_jitter (resolved options)); [done|]. by rewrite orb_true_r.
  - intros q Hh Hcf Hj. assert (Hcb : capped base cap = exponentialDelay options attempt) by (unfold base, cap; by rewrite Hh, Hcf).
    rewrite Hcb in *. pose proof (fraction_nonneg options q Hj) as Hq. pose proof (exponential_low options attempt Ha) as He.
    destruct (Hsym q) as (Hl & Hz & Hu); [unfold mode; by rewrite Hh, Hj|done|].
    assert (Hbc : under (exponentialDelay options attempt) cap) by (rewrite <-Hcb; apply capped_under). split_and!.
    + eapply Qle_trans; [|apply (Hhint (exponentialDelay options attempt * (1 - q) - (1 # 2))%Q); [|exact Hl]]; [apply Qle_refl|].
      destruct cap; [|done]. cbn in *. nra.
    + apply Hhigh; [nra|exact Hu].
    + intros Hq0. specialize (Hz Hq0). apply Qle_antisym; [apply Hhigh; [done|lra]|apply Hhint; [done|lra]].
Qed.

(** ** A run of the runner *)

(** What is written down of a run: attempts, refusals to go on, delays that are
    announced and waits, and what a caller's code threw other than the call. *)
Inductive Entry (T : Type) := Attempted (r : JsError + T) | Refused (e : JsError) | Told (i : RetryInfo) | Slept (d : Q) | Broke (e : JsError).

Arguments Attempted {T}. Arguments Refused {T}. Arguments Told {T}. Arguments Slept {T}. Arguments Broke {T}.

Section journal.
Context {U T : Type}.

Abbreviation W := (list (Entry T) * U)%type.

(** A caller's computation that writes [before] first, what [record] says of its
    value, and what it throws. *)
Definition noting {A} (before : list (Entry T)) (record : A → list (Entry T)) (thrown : JsError → Entry T) (m : Eff U A) : Eff W A := λ w,
  match m w.2 with
  | (Ret a, u) => (Ret a, (w.1 ++ before ++ record a, u))
  | (Throw e, u) => (Throw e, (w.1 ++ before ++ [thrown e], u))
  | (OutOfFuel, u) => (OutOfFuel, (w.1 ++ before, u))
  end.

Definition quietly {A} (m : Eff U A) : Eff W A := noting [] (λ _, []) Broke m.

(** The options of a caller, with all that happens written down. *)
Definition noted (o : RetryOptions U T) : RetryOptions W T :=
  {| ro_config := ro_config o;
     ro_fn := noting [] (λ a, [Attempted (inr a)]) (λ e, Attempted (inl e)) (ro_fn o);
     ro_shouldRetry := λ e n, noting [] (λ b, if b : bool then [] else [Refused e]) Broke (ro_shouldRetry o e n);
     ro_retryAfterMs := λ e, quietly (ro_retryAfterMs o e);
     ro_retryAfterMaxDelayMs := ro_retryAfterMaxDelayMs o;
     ro_delayMs := λ c, quietly (ro_delayMs o c);
     ro_onRetry := λ i, noting [Told i] (λ _, []) Broke (ro_onRetry o i);
     ro_random := quietly (ro_random o);
     ro_sleep := λ d, noting [Slept d] (λ _, []) Broke (ro_sleep o d);
     ro_createFailure := ro_createFailure o |}.

(** A computation of the caller that does not come back. *)
Definition hangs (o : RetryOptions U T) : Prop :=
  ∃ u u', ro_fn o u = (OutOfFuel, u') ∨ (∃ e n, ro_shouldRetry o e n u = (OutOfFuel, u')) ∨ (∃ e, ro_retryAfterMs o e u = (OutOfFuel, u')) ∨
    (∃ c, ro_delayMs o c u = (OutOfFuel, u')) ∨ (∃ i, ro_onRetry o i u = (OutOfFuel, u')) ∨ ro_random o u = (OutOfFuel, u') ∨
    (∃ d, ro_sleep o d u = (OutOfFuel, u')).

Lemma wp_noting X {A} before record thrown (m : Eff U A) Q E (w : W) :
  (∀ u', m w.2 = (OutOfFuel, u') → X) → (∀ a u, Q a (w.1 ++ before ++ record a, u)) → (∀ e u, E e (w.1 ++ before ++ [thrown e], u)) →
  wp X (noting before record thrown m) Q E w.
Proof. unfold wp, noting. intros Hh Hq He. destruct (m w.2) as [[a|e|] u'] eqn:Em; [apply Hq|apply He|by eapply Hh]. Qed.

Lemma wp_quietly X {A} (m : Eff U A) Q E (w : W) :
  (∀ u', m w.2 = (OutOfFuel, u') → X) → (∀ a u, Q a (w.1, u)) → (∀ e u, E e (w.1 ++ [Broke e], u)) → wp X (quietly m) Q E w.
Proof. intros Hh Hq He. apply wp_noting; [done| |done]. intros. cbn. rewrite app_nil_r. apply Hq. Qed.

Definition attemptsOf (l : list (Entry T)) : list (JsError + T) := omap (λ x, match x with Attempted r => Some r | _ => None end) l.
Definition toldOf (l : list (Entry T)) : list RetryInfo := omap (λ x, match x with Told i => Some i | _ => None end) l.
Definition sleptOf (l : list (Entry T)) : list Q := omap (λ x, match x with Slept d => Some d | _ => None end) l.

(** What the announced retries say: failure after failure, counted from one. *)
Definition contextsFor (maxAttempts : Z) (errors : list JsError) : list RetryDelayContext :=
  imap (λ k e, {| rc_attempt := Z.of_nat k + 1; rc_maxAttempts := maxAttempts; rc_err := e |}) errors.

(** A journal in which every failure was followed by its retry's announcement and,
    where the delay is positive, by the wait. *)
Record Retried (o : RetryOptions U T) (l : list (Entry T)) (errors : list JsError) : Prop := {
  rt_attempts : attemptsOf l = inl <$> errors;
  rt_told : ri_context <$> toldOf l = contextsFor (attempts (resolved (noted o))) errors;
  rt_slept : sleptOf l = List.filter (λ d, negb (Qle_bool d 0)) (ri_delayMs <$> toldOf l);
  rt_low : Forall (λ i, (inject_Z (minDelayMs (resolved (noted o))) <= ri_delayMs i)%Q) (toldOf l)
}.

(** How a run with failures [errors] ends: with a success, with the failure that
    is made of the errors, or with what the caller's own code threw. *)
Definition EndsWell (o : RetryOptions U T) (r : Outcome T) (l : list (Entry T)) : Prop :=
  let max := attempts (resolved (noted o)) in
  match r with
  | Ret a => ∃ l0 errors, l = l0 ++ [Attempted (inr a)] ∧ Retried o l0 errors ∧ Z.of_nat (length errors) < max
  | Throw e =>
      (∃ l0 errors, l = l0 ++ [Broke e] ∧ attemptsOf l0 = inl <$> errors ∧ Z.of_nat (length errors) < max) ∨
      (∃ l0 errors e0 l1, l = l0 ++ Attempted (inl e0) :: l1 ∧ Retried o l0 errors ∧ e = ro_createFailure o (errors ++ [e0]) ∧
         (l1 = [] ∧ Z.of_nat (length errors) + 1 = max ∨ l1 = [Refused e0] ∧ Z.of_nat (length errors) + 1 < max))
  | OutOfFuel => hangs o
  end.

Section run.
Context (o : RetryOptions U T).

Lemma noted_delay attempt hint configured (w : W) : wp (hangs o) (delayOf (noted o) attempt hint configured)
  (λ d w', w'.1 = w.1 ∧ (inject_Z (minDelayMs (resolved (noted o))) <= d)%Q) (λ e w', w'.1 = w.1 ++ [Broke e]) w.
Proof.
  unfold delayOf. set (cap := match finiteOf hint with Some _ => _ | None => _ end). set (base := capped _ _). set (mode := if (_ : bool) then Positive else Symmetric).
  assert (Hm : under (inject_Z (minDelayMs (resolved (noted o)))) cap) by (unfold cap; case_match; apply min_under_cap).
  apply wp_bind, (wp_mono _ _ (λ _ w', w'.1 = w.1) _ (λ e w', w'.1 = w.1 ++ [Broke e])); [| |done].
  - assert (Hd : ∀ (k : Q → Q), wp (hangs o) (r ← ro_random (noted o); mret (k r)) (λ _ w', w'.1 = w.1) (λ e w', w'.1 = w.1 ++ [Broke e]) w).
    { intros k. apply wp_bind, wp_quietly; [|by intros; apply wp_ret|done]. intros u' Hu. exists w.2, u'. naive_solver. }
    unfold applyJitter. destruct (cfg_jitter _); [|apply Hd]. destruct (Qle_bool _ _); [by apply wp_ret|apply Hd].
  - cbn beta. intros d w' Hw. apply wp_ret. cbn beta. split; [done|]. exact (proj1 (clamp_bounds (noted o) cap d Hm)).
Qed.

Definition waitFor (d : Q) : list (Entry T) := if Qle_bool d 0 then [] else [Slept d].

Lemma noted_after attempt err (w : W) : wp (hangs o) (afterFailure (noted o) attempt err)
  (λ _ w', ∃ d, w'.1 = w.1 ++ Told {| ri_context := {| rc_attempt := attempt; rc_maxAttempts := attempts (resolved (noted o)); rc_err := err |}; ri_delayMs := d |} :: waitFor d ∧
     (inject_Z (minDelayMs (resolved (noted o))) <= d)%Q)
  (λ e w', ∃ l, w'.1 = w.1 ++ l ++ [Broke e] ∧ attemptsOf l = []) w.
Proof.
  unfold afterFailure. apply wp_bind, wp_quietly; [intros u' Hu; exists w.2, u'; naive_solver| |intros e u; by exists []]. intros hint u.
  apply wp_bind, wp_quietly; [intros u' Hu; exists u, u'; naive_solver| |intros e u'; by exists []]. intros configured u'.
  apply wp_bind. eapply wp_mono; [apply noted_delay| |intros e w' Hw; by exists []]. cbn beta. intros d w' [Hw Hd]. cbn [fst] in Hw.
  apply wp_bind, wp_noting; [intros u'' Hu; exists w'.2, u''; naive_solver| |intros e u''; rewrite Hw; by eexists [_]]. intros [] u''. rewrite Hw.
  unfold waitFor. destruct (Qle_bool d 0) eqn:Eq; [apply wp_ret; exists d; by rewrite Eq|].
  apply wp_noting; [intros u3 Hu; exists u'', u3; naive_solver|intros [] u3; exists d; rewrite Eq; split; [|done]; cbn [fst]; by rewrite <-!app_assoc|].
  intros e u3. eexists [_; _]. cbn [fst]. rewrite <-!app_assoc. done.
Qed.

Lemma attempts_app l l' : attemptsOf (l ++ l') = attemptsOf l ++ attemptsOf l'.
Proof. apply omap_app. Qed.

Lemma contexts_snoc n errors e : contextsFor n (errors ++ [e]) =
  contextsFor n errors ++ [{| rc_attempt := Z.of_nat (length errors) + 1; rc_maxAttempts := n; rc_err := e |}].
Proof. unfold contextsFor. rewrite imap_app. cbn. by rewrite Nat.add_0_r. Qed.

Lemma retried_step l errors e d :
  Retried o l errors → (inject_Z (minDelayMs (resolved (noted o))) <= d)%Q →
  Retried o (l ++ Attempted (inl e) :: Told {| ri_context := {| rc_attempt := Z.of_nat (length errors) + 1; rc_maxAttempts := attempts (resolved (noted o)); rc_err := e |}; ri_delayMs := d |} :: waitFor d) (errors ++ [e]).
Proof.
  intros [Ha Ht Hs Hl] Hd. assert (Hw : attemptsOf (waitFor d) = [] ∧ toldOf (waitFor d) = []) by (unfold waitFor; by case_match). destruct Hw as [Hw1 Hw2].
  assert (Htold : toldOf (l ++ Attempted (inl e) :: Told {| ri_context := {| rc_attempt := Z.of_nat (length errors) + 1; rc_maxAttempts := attempts (resolved (noted o)); rc_err := e |}; ri_delayMs := d |} :: waitFor d) =
    toldOf l ++ [{| ri_context := {| rc_attempt := Z.of_nat (length errors) + 1; rc_maxAttempts := attempts (resolved (noted o)); rc_err := e |}; ri_delayMs := d |}]).
  { unfold toldOf in *. rewrite omap_app. cbn. by rewrite Hw2. }
  split.
  - rewrite attempts_app, Ha, fmap_app. cbn. unfold attemptsOf in Hw1. by rewrite Hw1.
  - by rewrite Htold, fmap_app, Ht, contexts_snoc.
  - rewrite Htold, fmap_app, List.filter_app, <-Hs. unfold sleptOf. rewrite omap_app. cbn. f_equal. unfold waitFor. by destruct (Qle_bool d 0).
  - rewrite Htold. apply Forall_app. split; [done|]. by constructor.
Qed.

Lemma loop_ends_well count : ∀ errors (w : W), Retried o w.1 errors →
  Z.of_nat (length errors) + Z.of_nat (S count) = attempts (resolved (noted o)) →
  wp (hangs o) (retryLoop (noted o) (S count) (Z.of_nat (length errors) + 1) errors)
    (λ a w', EndsWell o (Ret a) w'.1) (λ e w', EndsWell o (Throw e) w'.1) w.
Proof.
  induction count as [|count IH]; intros errors w Hr Hc; (cbn [retryLoop]; apply wp_catch, wp_noting;
    [intros u' Hu; exists w.2, u'; naive_solver|intros a u; exists w.1, errors; cbn [fst app]; split_and!; [done..|lia]|]); intros e u; cbn [fst app].
  - rewrite (proj2 (Z.leb_le _ _)) by lia. apply wp_throw. right. exists w.1, errors, e, []. split_and!; [done..|left; split; [done|lia]].
  - rewrite (proj2 (Z.leb_gt _ _)) by lia. apply wp_bind, wp_noting; [intros u' Hu; exists u, u'; naive_solver| |].
    2: { intros e' u'. left. exists (w.1 ++ [Attempted (inl e)]), (errors ++ [e]). split_and!; [done| |rewrite length_app; cbn [length]; lia].
         by rewrite attempts_app, (rt_attempts _ _ _ Hr), fmap_app. }
    intros [] u'.
    + apply wp_bind. eapply wp_mono; [apply noted_after| |].
      2: { cbn [fst app]. intros e' w' (l & Hl & Hn). left. exists (w.1 ++ [Attempted (inl e)] ++ l), (errors ++ [e]). rewrite app_nil_r in Hl.
           split_and!; [rewrite Hl; by rewrite <-!app_assoc| |rewrite length_app; cbn [length]; lia].
           by rewrite !attempts_app, Hn, (rt_attempts _ _ _ Hr), fmap_app. }
      cbn [fst app]. intros _ w' (d & Hl & Hd). rewrite app_nil_r, <-app_assoc in Hl. cbn [app] in Hl.
      replace (Z.of_nat (length errors) + 1 + 1) with (Z.of_nat (length (errors ++ [e])) + 1) by (rewrite length_app; cbn [length]; lia).
      apply IH; [rewrite Hl; by apply retried_step|rewrite length_app; cbn [length]; lia].
    + apply wp_throw. right. exists w.1, errors, e, [Refused e]. cbn [fst app]. rewrite <-app_assoc. split_and!; [done..|right; split; [done|lia]].
Qed.
End run.
End journal.

(** C26: a run makes attempts until one succeeds, the caller refuses another, the
    attempts are used up or the caller's own code throws: it gives the value of the
    attempt that succeeded, or the failure made of the errors of all attempts in
    order; every failure before the last is announced with its number and a delay
    that is at least the least delay, and waited for where that is positive; and it
    comes back if the caller's code does. *)
Theorem retry_makes_its_attempts {U T} (o : RetryOptions U T) u :
  let '(r, (journal, _)) := retryAsync (noted o) ([], u) in EndsWell o r journal.
Proof.
  destruct (resolved_range (noted o)) as [Ha _]. unfold retryAsync.
  destruct (Z.to_nat (attempts (resolved (noted o)))) as [|count] eqn:En; [lia|].
  assert (Hr : Retried o ([] : list (Entry T)) []) by (by split).
  pose proof (loop_ends_well o count [] ([], u) Hr ltac:(cbn [length]; lia)) as Hw. unfold wp in Hw. cbn [length] in Hw. change (Z.of_nat 0 + 1) with 1 in Hw.
  destruct (retryLoop (noted o) (S count) 1 [] ([], u)) as [[a|e|] [l u']]; exact Hw.
Qed.

(** ** The supervisor of retries *)

(** What a connection does with its supervisor. *)
Inductive SupervisorOp := OpNext (draw : Q) | OpOverride (d : option Q) | OpCancel | OpReset (initial : Q).

(** A supervisor with every retry that it granted and, since it was last reset, the
    numbers of those whose delay was not overridden. *)
Record Watched := { wt_supervisor : RetrySupervisor; wt_granted : list Granted; wt_own : list Z }.

Section supervisor.
Context (policy : BackoffPolicy) (maxAttempts : option Q).

Definition watch (w : Watched) (op : SupervisorOp) : Watched :=
  let s := w.(wt_supervisor) in
  match op with
  | OpNext draw =>
      match nextRetry policy maxAttempts draw s with
      | (None, s') => {| wt_supervisor := s'; wt_granted := w.(wt_granted); wt_own := w.(wt_own) |}
      | (Some g, s') => {| wt_supervisor := s'; wt_granted := w.(wt_granted) ++ [g];
                           wt_own := match s.(nextDelayOverrideMs) with None => w.(wt_own) ++ [g.(g_attempt)] | Some _ => w.(wt_own) end |}
      end
  | OpOverride d => {| wt_supervisor := s <| nextDelayOverrideMs := d |>; wt_granted := w.(wt_granted); wt_own := w.(wt_own) |}
  | OpCancel => {| wt_supervisor := cancelRetry s; wt_granted := w.(wt_granted); wt_own := w.(wt_own) |}
  | OpReset initial => {| wt_supervisor := resetRetry initial s; wt_granted := w.(wt_granted); wt_own := [] |}
  end.

Definition watched : list SupervisorOp → Watched := foldl watch {| wt_supervisor := newSupervisor policy; wt_granted := []; wt_own := [] |}.

(** The number of retries granted for a number of attempts. *)
Definition grants (attempts : Z) : Z := match maxAttempts with Some m => attempts `min` (0 `max` Qceiling m) | None => attempts end.

Record Supervised (w : Watched) : Prop := {
  su_signals : g_signal <$> w.(wt_granted) = seq 0 w.(wt_supervisor).(sv_made);
  su_aborted : ∀ c, (c < w.(wt_supervisor).(sv_made))%nat → c ∈ w.(wt_supervisor).(sv_aborted) ∨ w.(wt_supervisor).(pendingAbort) = Some c;
  su_pending : ∀ c, w.(wt_supervisor).(pendingAbort) = Some c → c ∉ w.(wt_supervisor).(sv_aborted) ∧ (c < w.(wt_supervisor).(sv_made))%nat;
  su_made : ∀ c, c ∈ w.(wt_supervisor).(sv_aborted) → (c < w.(wt_supervisor).(sv_made))%nat;
  su_attempts : 0 ≤ w.(wt_supervisor).(sv_attempts);
  su_own : w.(wt_own) = seqZ 1 (grants w.(wt_supervisor).(sv_attempts))
}.

(** Cancelling aborts the retry that is pending. *)
Lemma cancel_spec s : let s' := cancelRetry s in pendingAbort s' = None ∧ sv_attempts s' = sv_attempts s ∧ sv_made s' = sv_made s ∧
  nextDelayOverrideMs s' = nextDelayOverrideMs s ∧ sv_initialMs s' = sv_initialMs s ∧
  ∀ c, c ∈ sv_aborted s' ↔ c ∈ sv_aborted s ∨ pendingAbort s = Some c.
Proof.
  unfold cancelRetry. destruct (pendingAbort s) as [c|] eqn:Ep; cbn; split_and!; try done; intros c'; try rewrite elem_of_cons; naive_solver.
Qed.

(** A retry that is granted is the only one pending. *)
Lemma next_spec draw s : let '(r, s') := nextRetry policy maxAttempts draw s in
  nextDelayOverrideMs s' = None ∧
  match r with
  | None => nextDelayOverrideMs s = None ∧ (∃ m, maxAttempts = Some m ∧ Qceiling m < sv_attempts s + 1) ∧ sv_attempts s' = sv_attempts s + 1 ∧
      sv_made s' = sv_made s ∧ pendingAbort s' = pendingAbort s ∧ sv_aborted s' = sv_aborted s
  | Some g => g_signal g = sv_made s ∧ sv_made s' = S (sv_made s) ∧ pendingAbort s' = Some (sv_made s) ∧
      (∀ c, c ∈ sv_aborted s' ↔ c ∈ sv_aborted s ∨ pendingAbort s = Some c) ∧ g_attempt g = sv_attempts s' `max` 1 ∧
      match nextDelayOverrideMs s with
      | None => sv_attempts s' = sv_attempts s + 1 ∧ (∀ m, maxAttempts = Some m → sv_attempts s + 1 ≤ Qceiling m)
      | Some _ => sv_attempts s' = sv_attempts s
      end
  end.
Proof.
  unfold nextRetry. cbn [nextDelayOverrideMs].
  assert (Hgo : ∀ s1, pendingAbort s1 = pendingAbort s → sv_aborted s1 = sv_aborted s → sv_made s1 = sv_made s → nextDelayOverrideMs s1 = None →
    let s2 := cancelRetry s1 in nextDelayOverrideMs s2 = None ∧ sv_made s2 = sv_made s ∧ sv_attempts s2 = sv_attempts s1 ∧
    (∀ c, c ∈ sv_aborted s2 ↔ c ∈ sv_aborted s ∨ pendingAbort s = Some c)).
  { intros s1 H1 H2 H3 H4. destruct (cancel_spec s1) as (_ & Ha & Hm & Ho & _ & Hc). rewrite H1, H2 in Hc. cbn. by rewrite Ho, Hm, H3, H4. }
  destruct (nextDelayOverrideMs s) as [d|].
  - destruct (Hgo (s <| nextDelayOverrideMs := None |>)) as (Ho & Hm & Ha & Hc); [done..|]. cbn in *. by rewrite Hm, Ha.
  - destruct (Hgo (s <| nextDelayOverrideMs := None |> <| sv_attempts ::= Z.succ |>)) as (Ho & Hm & Ha & Hc); [done..|]. cbn -[Qceiling] in *. destruct maxAttempts as [m|].
    + destruct (Z.ltb_spec (Qceiling m) (Z.succ (sv_attempts s))); cbn -[Qceiling]; [split_and!; try done; try lia; exists m; split; [done|lia]|].
      rewrite Hm, Ha. split_and!; try done; try lia. intros m' [= <-]; lia.
    + rewrite Hm, Ha. split_and!; try done; lia.
Qed.

Lemma watched_supervised ops : Supervised (watched ops).
Proof.
  unfold watched. assert (Hs : Supervised {| wt_supervisor := newSupervisor policy; wt_granted := []; wt_own := [] |}).
  { split; cbn; try done; [lia|by intros c ?%elem_of_nil|]. unfold grants. destruct maxAttempts; [|done]. by rewrite Z.min_l by lia. }
  revert Hs. generalize {| wt_supervisor := newSupervisor policy; wt_granted := []; wt_own := [] |}.
  induction ops as [|op ops IH]; intros w Hs; [done|]. cbn [foldl]. apply IH. clear IH ops.
  destruct w as [s granted own], Hs as [Hsig Hab Hpe Hma Hat Hown]. cbn in *.
  destruct (cancel_spec s) as (Hp & Ha & Hm & _ & _ & Hc).
  assert (Hcan : ∀ c, (c < sv_made s)%nat → c ∈ sv_aborted (cancelRetry s)) by (intros c Hlt; rewrite Hc; by apply Hab).
  destruct op as [draw|d| |initial]; cbn -[nextRetry].
  - pose proof (next_spec draw s) as Hn. destruct (nextRetry policy maxAttempts draw s) as [[g|] s'].
    + destruct Hn as (_ & Hg & Hm' & Hp' & Hc' & Hga & Hat'). split; cbn; rewrite ?Hm', ?Hp'.
      * rewrite fmap_app, Hsig, seq_S. cbn. by rewrite Hg.
      * intros c Hlt. rewrite Hc'. destruct (decide (c = sv_made s)) as [->|]; [by right|]. left. apply Hab. lia.
      * intros c [= <-]. rewrite Hc'. split; [|lia]. intros [Hx|Hx]; [apply Hma in Hx|apply Hpe in Hx as [_ Hx]]; lia.
      * intros c [Hx|Hx]%Hc'; [apply Hma in Hx|apply Hpe in Hx as [_ Hx]]; lia.
      * case_match; [lia|]. destruct Hat' as [-> _]. lia.
      * destruct (nextDelayOverrideMs s); [by rewrite Hat'|]. destruct Hat' as [Hat' Hle]. rewrite Hown, Hga, Hat', Z.max_l by lia.
        assert (Hgr : grants (sv_attempts s) = sv_attempts s ∧ grants (sv_attempts s + 1) = sv_attempts s + 1).
        { unfold grants. destruct maxAttempts as [m|]; [|done]. specialize (Hle m eq_refl). lia. }
        destruct Hgr as [-> ->]. rewrite seqZ_app by lia. f_equal. by rewrite Z.add_comm.
    + destruct Hn as (_ & _ & (m & Hmax & Hlt) & Hat' & Hm' & Hp' & Hab'). split; cbn; rewrite ?Hm', ?Hp', ?Hab'; try done; [lia|].
      rewrite Hown, Hat'. unfold grants. rewrite Hmax. f_equal. lia.
  - by split.
  - split; cbn; rewrite ?Hp, ?Ha, ?Hm; try done; [by left; apply Hcan|]. intros c [Hx|Hx]%Hc; [by apply Hma|by apply Hpe].
  - split; cbn; rewrite ?Hp, ?Hm; try done; [by left; apply Hcan| |]. { intros c [Hx|Hx]%Hc; [by apply Hma|by apply Hpe]. }
    unfold grants. destruct maxAttempts; [|done]. by rewrite Z.min_l by lia.
Qed.

(** C35: whatever a connection does, its supervisor has at most one retry pending:
    every other retry that it granted is aborted, and no pending one is; and since
    the last reset it grants retries of its own in order, from the first up to the
    number that it may. *)
Theorem supervisor_has_one_retry_pending ops : let w := watched ops in let s := wt_supervisor w in
  NoDup (g_signal <$> wt_granted w) ∧
  (∀ g, g ∈ wt_granted w → (g_signal g ∈ sv_aborted s ↔ pendingAbort s ≠ Some (g_signal g))) ∧
  wt_own w = seqZ 1 (Z.of_nat (length (wt_own w))) ∧
  match maxAttempts with Some m => Z.of_nat (length (wt_own w)) ≤ 0 `max` Qceiling m | None => True end.
Proof.
  intros w s. destruct (watched_supervised ops) as [Hsig Hab Hpe Hma Hat Hown]. fold w in Hsig, Hab, Hpe, Hma, Hat, Hown. fold s in Hsig, Hab, Hpe, Hma, Hat, Hown.
  assert (Hl : length (wt_own w) = Z.to_nat (grants (sv_attempts s))) by (by rewrite Hown, length_seqZ).
  assert (Hg0 : 0 ≤ grants (sv_attempts s)) by (unfold grants; destruct maxAttempts; lia). split_and!.
  - rewrite Hsig. apply NoDup_seq.
  - intros g Hg. assert (Hlt : (g_signal g < sv_made s)%nat).
    { apply (list_elem_of_fmap_2 g_signal) in Hg. rewrite Hsig in Hg. apply elem_of_seq in Hg. lia. }
    destruct (Hab _ Hlt) as [Hx|Hx]; [|rewrite Hx; split; [by apply Hpe in Hx as [? _]|done]].
    split; [|done]. intros _ Hx'. by apply Hpe in Hx' as [? _].
  - rewrite Hl, Z2Nat.id by done. exact Hown.
  - rewrite Hl, Z2Nat.id by done. unfold grants. destruct maxAttempts; [lia|done].
Qed.
End supervisor.

(** ** Waits *)

(** A wait that has settled stays as it is; its timer is within the range of timers. *)
Lemma wait_settles_once s events : sl_outcome s ≠ Waiting → sl_timer s = None → sl_listening s = false →
  foldl (λ s (e : bool), if e then onTimer s else onAbort s) s events = s.
Proof. intros _ Ht Hl. induction events as [|[] events IH]; [done|..]; cbn; [unfold onTimer; by rewrite Ht|unfold onAbort; by rewrite Hl]. Qed.

Lemma wait_settles ms aborted e : let s := sleepWithAbort ms aborted in let s' := if e : bool then onTimer s else onAbort s in
  sl_outcome s' ≠ Waiting ∧ sl_timer s' = None ∧ sl_listening s' = false.
Proof. cbn. unfold sleepWithAbort. destruct ms as [q| | |]; [destruct (Qle_bool q 0); [by destruct e|destruct aborted; by destruct e]|by destruct e..]. Qed.

(** ** Examples *)

(** A call that fails twice before it succeeds, with a hint of a second. *)
Definition flaky : RetryOptions nat string :=
  {| ro_config := {| o_attempts := Some (jsnum_of_Z 4); o_minDelayMs := None; o_maxDelayMs := None; o_jitter := Some (JitterNumber (Fin (1 # 4))) |};
     ro_fn := λ n, (if (n <? 2)%nat then Throw (newError "busy") else Ret "done"%string, S n);
     ro_shouldRetry := λ _ _, mret true;
     ro_retryAfterMs := λ _, mret (Some (jsnum_of_Z 1000));
     ro_retryAfterMaxDelayMs := None;
     ro_delayMs := λ _, mret None;
     ro_onRetry := λ _, mret tt;
     ro_random := mret (1 # 2)%Q;
     ro_sleep := λ _, mret tt;
     ro_createFailure := λ errors, default (newError "Retry failed") (last errors) |}.

Example flaky_run : let '(r, (journal, _)) := retryAsync (noted flaky) ([], 0%nat) in
  r = Ret "done"%string ∧ sleptOf journal = [inject_Z 1125; inject_Z 1125].
Proof. vm_compute. done. Qed.

Lemma retry_delay_is_bounded_witness : wp True (delayOf flaky 1 (Some (jsnum_of_Z 1000)) None) (λ d _,
    let hint := Some (jsnum_of_Z 1000) in
    let cap := match finiteOf hint with Some _ => retryAfterCap flaky | None => maxDelayCap flaky end in
    (inject_Z (minDelayMs (resolved flaky)) <= d)%Q ∧ under d cap ∧
    (∀ h, finiteOf hint = Some h → under h cap → (h <= d)%Q) ∧
    (∀ q, finiteOf hint = None → None = @None jsnum → cfg_jitter (resolved flaky) = Fraction q →
      let base := exponentialDelay flaky 1 in
      (base * (1 - q) - (1 # 2) <= d)%Q ∧ (d <= base * (1 + q) + (1 # 2))%Q ∧ ((q <= 0)%Q → d == base)%Q)) (λ _ _, True) 0%nat.
Proof.
  apply (retry_delay_is_bounded flaky 1 (Some (jsnum_of_Z 1000)) None 0%nat); [|lia]. intros w. cbn. split; lra.
Defined.
