(* ===== verification/EventStream.v ===== *)
(** * Event streams

    The stream that carries a model's answer from a provider to its consumers
    ([packages/llm-core/src/utils/event-stream.ts]): events pushed and taken in
    order, a final result that is awaited apart, and the array that is compacted
    behind the events that were taken.

    A consumer is a run of the stream's iterator: it asks for an event, is given
    one or waits, and asks again when it has got one.  An iterator that waits is
    named by its consumer. *)
From S2P Require Import Prelude.
Local Open Scope nat_scope.

(** ** The stream *)

(** The promise of the final result. *)
Inductive FinalResult (R : Type) := ResultPending | ResultIs (r : R) | ResultMissing.

Arguments ResultPending {R}. Arguments ResultIs {R}. Arguments ResultMissing {R}.

(** What a consumer is told: an event, or that the stream is over. *)
Inductive Delivery (T : Type) := Item (event : T) | Over.

Arguments Item {T}. Arguments Over {T}.

Record EventStream (T R : Type) := {
  es_queue : list T;
  es_queueHead : nat;
  es_waiting : list nat;
  es_done : bool;
  es_resultSettled : bool;
  es_result : FinalResult R
}.

Arguments es_queue {T R}. Arguments es_queueHead {T R}. Arguments es_waiting {T R}. Arguments es_done {T R}.
Arguments es_resultSettled {T R}. Arguments es_result {T R}.

#[export] Instance EventStream_eta {T R} : Eta (EventStream T R) := λ s,
  {| es_queue := s.(es_queue); es_queueHead := s.(es_queueHead); es_waiting := s.(es_waiting); es_done := s.(es_done);
     es_resultSettled := s.(es_resultSettled); es_result := s.(es_result) |}.

Definition newStream {T R} : EventStream T R :=
  {| es_queue := []; es_queueHead := 0; es_waiting := []; es_done := false; es_resultSettled := false; es_result := ResultPending |}.

Section stream.
Context {T R : Type} (isComplete : T → bool) (extractResult : T → R).

(** A promise that is settled stays as it is. *)
Definition settleWith (r : FinalResult R) (s : EventStream T R) : EventStream T R :=
  match s.(es_result) with
  | ResultPending => s <| es_result := r |>
  | _ => s
  end.

(** A waiting iterator gets the event; otherwise it is queued. *)
Definition push (event : T) (s : EventStream T R) : list (nat * Delivery T) * EventStream T R :=
  if s.(es_done) then ([], s)
  else
    let s := if isComplete event then settleWith (ResultIs (extractResult event)) (s <| es_done := true |> <| es_resultSettled := true |>) else s in
    match s.(es_waiting) with
    | waiter :: rest => ([(waiter, Item event)], s <| es_waiting := rest |>)
    | [] => ([], s <| es_queue ::= λ q, q ++ [event] |>)
    end.

Definition endStream (result : option R) (s : EventStream T R) : list (nat * Delivery T) * EventStream T R :=
  let s := s <| es_done := true |> in
  let s := match result with
           | Some r => settleWith (ResultIs r) (s <| es_resultSettled := true |>)
           | None => if s.(es_resultSettled) then s else settleWith ResultMissing (s <| es_resultSettled := true |>)
           end in
  ((λ waiter, (waiter, Over)) <$> s.(es_waiting), s <| es_waiting := [] |>).

(** One step of the iterator of [consumer]. *)
Definition takeNext (consumer : nat) (s : EventStream T R) : list (nat * Delivery T) * EventStream T R :=
  match s.(es_queue) !! s.(es_queueHead) with
  | Some event =>
      let s := s <| es_queueHead ::= S |> in
      let s := if (1024 <=? s.(es_queueHead)) && (length s.(es_queue) <=? s.(es_queueHead) * 2)
               then s <| es_queue ::= drop s.(es_queueHead) |> <| es_queueHead := 0 |> else s in
      ([(consumer, Item event)], s)
  | None => if s.(es_done) then ([(consumer, Over)], s) else ([], s <| es_waiting ::= λ l, l ++ [consumer] |>)
  end.

(** What producers and consumers do. *)
Inductive StreamOp := OpPush (event : T) | OpEnd (result : option R) | OpNext (consumer : nat).

Definition streamStep (op : StreamOp) : EventStream T R → list (nat * Delivery T) * EventStream T R :=
  match op with
  | OpPush event => push event
  | OpEnd result => endStream result
  | OpNext consumer => takeNext consumer
  end.

(** All deliveries of a sequence of operations, and the stream behind it. *)
Fixpoint streamRun (ops : list StreamOp) (s : EventStream T R) : list (nat * Delivery T) * EventStream T R :=
  match ops with
  | [] => ([], s)
  | op :: ops => let '(out, s) := streamStep op s in let '(rest, s) := streamRun ops s in (out ++ rest, s)
  end.

(** ** What a stream is *)

(** Events in the order of their pushes, a position that deliveries move on, and
    consumers served in the order in which they asked. *)
Record Fifo := { f_pending : list T; f_waiting : list nat; f_closed : bool; f_result : FinalResult R }.

Definition fifoSettle (r : FinalResult R) (old : FinalResult R) : FinalResult R := match old with ResultPending => r | _ => old end.

Definition fifoStep (op : StreamOp) (f : Fifo) : list (nat * Delivery T) * Fifo :=
  match op with
  | OpPush event =>
      if f.(f_closed) then ([], f)
      else
        let result := if isComplete event then fifoSettle (ResultIs (extractResult event)) f.(f_result) else f.(f_result) in
        match f.(f_waiting) with
        | c :: rest => ([(c, Item event)], {| f_pending := f.(f_pending); f_waiting := rest; f_closed := isComplete event; f_result := result |})
        | [] => ([], {| f_pending := f.(f_pending) ++ [event]; f_waiting := []; f_closed := isComplete event; f_result := result |})
        end
  | OpEnd result =>
      ((λ c, (c, Over)) <$> f.(f_waiting),
       {| f_pending := f.(f_pending); f_waiting := []; f_closed := true;
          f_result := fifoSettle (match result with Some r => ResultIs r | None => ResultMissing end) f.(f_result) |})
  | OpNext c =>
      match f.(f_pending) with
      | event :: rest => ([(c, Item event)], {| f_pending := rest; f_waiting := f.(f_waiting); f_closed := f.(f_closed); f_result := f.(f_result) |})
      | [] => if f.(f_closed) then ([(c, Over)], f)
              else ([], {| f_pending := []; f_waiting := f.(f_waiting) ++ [c]; f_closed := false; f_result := f.(f_result) |})
      end
  end.

Fixpoint fifoRun (ops : list StreamOp) (f : Fifo) : list (nat * Delivery T) * Fifo :=
  match ops with
  | [] => ([], f)
  | op :: ops => let '(out, f) := fifoStep op f in let '(rest, f) := fifoRun ops f in (out ++ rest, f)
  end.

Definition newFifo : Fifo := {| f_pending := []; f_waiting := []; f_closed := false; f_result := ResultPending |}.

(** The stream represents the queue. *)
Record Represents (s : EventStream T R) (f : Fifo) : Prop := {
  rp_pending : f.(f_pending) = drop s.(es_queueHead) s.(es_queue);
  rp_head : s.(es_queueHead) ≤ length s.(es_queue);
  rp_waiting : f.(f_waiting) = s.(es_waiting);
  rp_closed : f.(f_closed) = s.(es_done);
  rp_result : f.(f_result) = s.(es_result);
  rp_settled : s.(es_resultSettled) = match s.(es_result) with ResultPending => false | _ => true end
}.

Lemma step_represents op s f : Represents s f →
  (streamStep op s).1 = (fifoStep op f).1 ∧ Represents (streamStep op s).2 (fifoStep op f).2.
Proof.
  intros Hrep. pose proof Hrep as [Hp Hh Hw Hc Hr Hs]. destruct op as [event|result|c]; cbn [streamStep fifoStep].
  - unfold push. rewrite Hc, Hw, Hr. destruct (es_done s) eqn:Ed; [by split|].
    destruct (isComplete event) eqn:Ec; [unfold settleWith|]; cbn.
    + destruct (es_result s) eqn:Er; cbn; destruct (es_waiting s) eqn:Ew; cbn; (split; [done|]); split; cbn; try done; rewrite ?Er; try done;
        rewrite ?length_app, ?drop_app_le by done; cbn; try lia; by rewrite Hp.
    + destruct (es_waiting s) eqn:Ew; cbn; (split; [done|]); split; cbn; rewrite ?Hs; try done; rewrite ?length_app, ?drop_app_le by done; cbn; try lia; by rewrite ?Hp, ?Ew.
  - unfold endStream, settleWith. rewrite Hw, Hr. destruct result as [r|]; cbn; [|rewrite Hs]; destruct (es_result s) eqn:Er; cbn; rewrite ?Er; (split; [done|]); split; cbn; try done; by rewrite ?Er.
  - unfold takeNext. rewrite Hp. destruct (es_queue s !! es_queueHead s) as [event|] eqn:Eq.
    + rewrite (drop_S _ _ _ Eq). cbn -[Nat.leb]. pose proof (lookup_lt_Some _ _ _ Eq).
      destruct ((1024 <=? S (es_queueHead s)) && _); (split; [done|]); split; cbn; try done; try lia.
    + apply lookup_ge_None in Eq. rewrite drop_ge by done. rewrite Hc. destruct (es_done s) eqn:Ed; cbn; (split; [done|]); split; cbn; try done; by rewrite ?drop_ge, ?Hw, ?Hc, ?Hp.
Qed.

Lemma run_represents ops : ∀ s f, Represents s f →
  (streamRun ops s).1 = (fifoRun ops f).1 ∧ Represents (streamRun ops s).2 (fifoRun ops f).2.
Proof.
  induction ops as [|op ops IH]; intros s f Hr; [done|]. cbn. destruct (step_represents op s f Hr) as [Ho Hr'].
  destruct (streamStep op s) as [out s'], (fifoStep op f) as [out' f']. cbn in Ho, Hr'. subst out'. destruct (IH _ _ Hr') as [Ho' Hr''].
  destruct (streamRun ops s'), (fifoRun ops f'). cbn in *. by subst.
Qed.

(** The events of deliveries, whoever got them. *)
Definition itemsOf (out : list (nat * Delivery T)) : list T := omap (λ d, match d.2 with Item e => Some e | Over => None end) out.

(** The events that a stream accepts: up to the first that completes it, and none
    behind its end. *)
Fixpoint accepted (ops : list StreamOp) : list T :=
  match ops with
  | [] => []
  | OpPush e :: ops => e :: (if isComplete e then [] else accepted ops)
  | OpEnd _ :: _ => []
  | OpNext _ :: ops => accepted ops
  end.

(** What comes first: the result of the completing event, that of the end, or none. *)
Fixpoint firstResult (ops : list StreamOp) : FinalResult R :=
  match ops with
  | [] => ResultPending
  | OpPush e :: ops => if isComplete e then ResultIs (extractResult e) else firstResult ops
  | OpEnd (Some r) :: _ => ResultIs r
  | OpEnd None :: _ => ResultMissing
  | OpNext _ :: ops => firstResult ops
  end.

Definition served (f : Fifo) : Prop := f.(f_waiting) = [] ∨ f.(f_pending) = [].

Lemma over_items (l : list nat) : itemsOf ((λ c, (c, Over)) <$> l) = [].
Proof. induction l; [done|]. exact IHl. Qed.

Lemma items_app out out' : itemsOf (out ++ out') = itemsOf out ++ itemsOf out'.
Proof. apply omap_app. Qed.

Lemma fifo_run ops : ∀ f, served f → (f_closed f = false → f_result f = ResultPending) → (f_closed f = true → f_result f ≠ ResultPending) →
  let '(out, f') := fifoRun ops f in
  itemsOf out ++ f_pending f' = f_pending f ++ (if f_closed f then [] else accepted ops) ∧ served f' ∧
  f_result f' = (if f_closed f then f_result f else firstResult ops).
Proof.
  induction ops as [|op ops IH]; intros f Hs Ho Hc; cbn [fifoRun].
  { cbn. split_and!; [case_match; by rewrite app_nil_r|done|]. destruct (f_closed f); auto. }
  assert (Hstep : let '(out, f1) := fifoStep op f in served f1 ∧ (f_closed f1 = false → f_result f1 = ResultPending) ∧ (f_closed f1 = true → f_result f1 ≠ ResultPending) ∧
    itemsOf out ++ f_pending f1 ++ (if f_closed f1 then [] else accepted ops) = f_pending f ++ (if f_closed f then [] else accepted (op :: ops)) ∧
    (if f_closed f1 then f_result f1 else firstResult ops) = (if f_closed f then f_result f else firstResult (op :: ops))).
  { clear IH. destruct f as [p w c r]. unfold served in *. cbn in *. destruct op as [e|res|n]; cbn.
    - destruct c; cbn; [by split_and!; auto|]. rewrite (Ho eq_refl).
      destruct Hs as [-> | ->]; [|destruct w]; cbn; destruct (isComplete e); cbn; split_and!; rewrite <-?app_assoc, ?app_nil_r; try done; auto.
    - destruct c; cbn; rewrite over_items; [|rewrite (Ho eq_refl)]; (split_and!; [by left|done|..]); try done; try (by destruct res).
      + intros _. destruct r; [by destruct (Hc eq_refl)|done..].
      + destruct r; [by destruct (Hc eq_refl)|done..].
    - destruct p as [|e p]; [|by destruct Hs as [-> |]; [split_and!; auto|]]. destruct c; cbn; split_and!; auto. }
  destruct (fifoStep op f) as [out f1]. destruct Hstep as (Hs1 & Ho1 & Hc1 & Hi & Hr). specialize (IH f1 Hs1 Ho1 Hc1).
  destruct (fifoRun ops f1) as [out' f2]. destruct IH as (Hi' & Hs2 & Hr'). split_and!; [|done|by rewrite Hr', Hr].
  by rewrite items_app, <-app_assoc, Hi', Hi.
Qed.

Lemma new_represents : Represents newStream newFifo.
Proof. by split. Qed.

(** C27: whatever producers and consumers do in whatever order, a stream delivers
    the events that it accepts once each and in their order: those up to the one
    that completes it or to its end; what was not delivered waits in its array, and
    no consumer waits while something does; and its final result is that of the
    completing event or of the end, whichever came first, or the error that there
    is none. *)
Theorem stream_delivers_in_order_once ops :
  let '(out, s) := streamRun ops newStream in
  let undelivered := drop (es_queueHead s) (es_queue s) in
  itemsOf out ++ undelivered = accepted ops ∧ (es_waiting s = [] ∨ undelivered = []) ∧ es_result s = firstResult ops.
Proof.
  destruct (run_represents ops _ _ new_represents) as [Ho [Hp _ Hw _ Hr _]].
  pose proof (fifo_run ops newFifo (or_introl eq_refl) (λ _, eq_refl) ltac:(done)) as Hf.
  destruct (streamRun ops newStream) as [out s], (fifoRun ops newFifo) as [out' f]. cbn in *. subst out'.
  unfold served in Hf. by rewrite Hp, Hw, Hr in Hf.
Qed.
End stream.

(** ** Examples *)

(** The event that completes a stream wakes one iterator; another that waits is
    told only by an end. *)
Example completion_wakes_one : let ops := [OpNext 1; OpNext 2; OpPush 7] in
  let '(out, s) := streamRun (λ e, e =? 7) (λ e, e) ops (newStream (T:=nat) (R:=nat)) in
  out = [(1, Item 7)] ∧ es_done s = true ∧ es_waiting s = [2].
Proof. done. Qed.
