(* ===== verification/BranchSummary.v ===== *)
(** * Summaries of branches

    What is summarised when a session leaves a branch
    ([packages/agent-core/src/harness/compaction/branch-summarization.ts]): the
    entries that the new branch does not have, and the newest of their messages
    that fit a budget.  The provider is a parameter, as for compaction. *)
From S2P Require Import Prelude Utf16 Truncate SessionContext Compaction CompactionFacts.
Local Open Scope Z_scope.

(** ** The entries of the branch that is left *)

Section collect.
Context {E : Type} (entryId : E → string).

(** [branch.findIndex((entry) => entry.id === id)] *)
Fixpoint branchIndex (id : string) (branch : list E) : option nat :=
  match branch with
  | [] => None
  | e :: r => if bool_decide (entryId e = id) then Some 0%nat else S <$> branchIndex id r
  end.

Definition collectEntriesForBranchSummaryFromBranches (oldBranch targetBranch : list E) : list E * option string :=
  let oldPath := entryId <$> oldBranch in
  let commonAncestorId := entryId <$> List.find (λ e, bool_decide (entryId e ∈ oldPath)) (reverse targetBranch) in
  let firstSummarizedIndex :=
    match commonAncestorId with
    | None => 0%nat
    | Some id => match branchIndex id oldBranch with Some i => S i | None => 0%nat end
    end in
  (drop firstSummarizedIndex oldBranch, commonAncestorId).
End collect.

(** ** Messages within a budget *)

Record BranchPreparation := { bp_messages : list AgentMessage; bp_fileOps : FileOperations; bp_totalTokens : Z }.

Definition branchDetails (entry : SessionTreeEntry) : option CompactionDetails :=
  match entry.(e_data) with EBranchSummary _ _ details false => details | _ => None end.

Definition isSummaryEntry (entry : SessionTreeEntry) : bool :=
  match entry.(e_data) with ECompaction _ _ _ _ _ | EBranchSummary _ _ _ _ => true | _ => false end.

(** From the last entry on, with the messages taken so far. *)
Fixpoint takeNewest (tokenBudget : Z) (rev : list SessionTreeEntry) (p : BranchPreparation) : BranchPreparation :=
  match rev with
  | [] => p
  | entry :: rest =>
      match projectSessionEntryMessage entry with
      | None => takeNewest tokenBudget rest p
      | Some m =>
          let fileOps := extractFileOpsFromMessage p.(bp_fileOps) m in
          let tokens := estimateTokens m in
          let taken := {| bp_messages := m :: p.(bp_messages); bp_fileOps := fileOps; bp_totalTokens := p.(bp_totalTokens) + tokens |} in
          if (0 <? tokenBudget) && (tokenBudget <? p.(bp_totalTokens) + tokens) then
            if isSummaryEntry entry && (10 * p.(bp_totalTokens) <? 9 * tokenBudget) then taken
            else {| bp_messages := p.(bp_messages); bp_fileOps := fileOps; bp_totalTokens := p.(bp_totalTokens) |}
          else takeNewest tokenBudget rest taken
      end
  end.

Definition prepareBranchEntries (entries : list SessionTreeEntry) (tokenBudget : Z) : BranchPreparation :=
  let fileOps := foldl (λ f e, match branchDetails e with Some d => mergeSummaryFileOperations d f | None => f end) createFileOps entries in
  takeNewest tokenBudget (reverse entries) {| bp_messages := []; bp_fileOps := fileOps; bp_totalTokens := 0 |}.

(** ** The summary *)

Definition BRANCH_SUMMARY_PREAMBLE : jsstr :=
  lit "The user explored a different conversation branch before returning here." ++ [NEWLINE] ++
  lit "Summary of that exploration:" ++ [NEWLINE; NEWLINE].

Inductive BranchInstructions := BranchPrompt | BranchPromptWithFocus (focus : jsstr) | BranchReplaced (instructions : jsstr).

Record BranchRequest := { br_messages : list AgentMessage; br_instructions : BranchInstructions; br_maxTokens : Z }.

(** Numbers of the model are [0] where it has none. *)
Record BranchOptions := {
  bo_contextWindow : Z;
  bo_maxTokens : Z;
  bo_customInstructions : option jsstr;
  bo_replaceInstructions : bool;
  bo_reserveTokens : option Z
}.

Record BranchSummaryResult := { bs_summary : jsstr; bs_readFiles : list string; bs_modifiedFiles : list string }.

Inductive BranchSummaryErrorCode := BranchAborted | BranchSummarizationFailed.

Definition contextWindowOf (o : BranchOptions) : Z := if o.(bo_contextWindow) =? 0 then 128000 else o.(bo_contextWindow).

Definition maxSummaryOutputTokens (o : BranchOptions) : Z :=
  2048 `min` (1 `max` (contextWindowOf o / 4)) `min` (if 0 <? o.(bo_maxTokens) then o.(bo_maxTokens) else 2048).

Definition branchTokenBudget (o : BranchOptions) : Z :=
  let contextWindow := contextWindowOf o in
  let reserveTokens := default 16384 o.(bo_reserveTokens) in
  let usableReserveTokens := if reserveTokens <? contextWindow then reserveTokens else contextWindow / 2 in
  let effectiveReserveTokens := maxSummaryOutputTokens o `max` usableReserveTokens in
  1 `max` (contextWindow - effectiveReserveTokens).

Definition NO_CONTENT : jsstr := lit "No content to summarize".

Section generate.
Context {W : Type} (complete : BranchRequest → W → SummaryResponse * W).

Definition generateBranchSummary (entries : list SessionTreeEntry) (o : BranchOptions) : W → (BranchSummaryErrorCode + BranchSummaryResult) * W := λ w,
  let p := prepareBranchEntries entries (branchTokenBudget o) in
  match p.(bp_messages) with
  | [] => (inr {| bs_summary := NO_CONTENT; bs_readFiles := []; bs_modifiedFiles := [] |}, w)
  | ms =>
      let instructions := match o.(bo_customInstructions) with
                          | Some (u :: r) => if o.(bo_replaceInstructions) then BranchReplaced (u :: r) else BranchPromptWithFocus (u :: r)
                          | _ => BranchPrompt
                          end in
      let '(response, w) := complete {| br_messages := ms; br_instructions := instructions; br_maxTokens := maxSummaryOutputTokens o |} w in
      (match response.(sp_stop) with
       | StopAborted => inl BranchAborted
       | StopError => inl BranchSummarizationFailed
       | StopOther =>
           match extractSummaryText response with
           | None => inl BranchSummarizationFailed
           | Some summaryText =>
               let details := computeFileLists p.(bp_fileOps) in
               inr {| bs_summary := BRANCH_SUMMARY_PREAMBLE ++ summaryText ++ formatFileOperations details.(readFiles) details.(modifiedFiles);
                      bs_readFiles := details.(readFiles); bs_modifiedFiles := details.(modifiedFiles) |}
           end
       end, w)
  end.
End generate.

(** ** What is taken *)

Definition branchMessages (entries : list SessionTreeEntry) : list AgentMessage := omap projectSessionEntryMessage entries.

(** A taken part of messages: the newest, as many as fit, but for a summary that is
    taken as the last when nine tenths are not used. *)
Record Taken (budget : Z) (entries : list SessionTreeEntry) (p : BranchPreparation) : Prop := {
  tk_total : p.(bp_totalTokens) = tokensIn p.(bp_messages);
  tk_fits : p.(bp_totalTokens) ≤ budget ∨
    ∃ e m ms, e ∈ entries ∧ isSummaryEntry e = true ∧ projectSessionEntryMessage e = Some m ∧ p.(bp_messages) = m :: ms ∧ 10 * tokensIn ms < 9 * budget;
  tk_most : ∃ dropped, branchMessages entries = dropped ++ p.(bp_messages) ∧
    ∀ older m, dropped = older ++ [m] → budget < estimateTokens m + p.(bp_totalTokens)
}.

Lemma branchMessages_app l l' : branchMessages (l ++ l') = branchMessages l ++ branchMessages l'.
Proof. apply omap_app. Qed.

Lemma takeNewest_taken budget rev : 0 < budget → ∀ newer p, bp_totalTokens p = tokensIn (bp_messages p) → bp_totalTokens p ≤ budget →
  branchMessages newer = bp_messages p → Taken budget (reverse rev ++ newer) (takeNewest budget rev p).
Proof.
  intros Hb. induction rev as [|e rev IH]; intros newer p Ht Hle Hn; cbn [takeNewest].
  { split; [done|by left|]. exists []. split; [done|]. by intros [] m. }
  rewrite reverse_cons, <-app_assoc. destruct (projectSessionEntryMessage e) as [m|] eqn:Em.
  - assert (Hn' : branchMessages ([e] ++ newer) = m :: bp_messages p) by (rewrite branchMessages_app, Hn; cbn; by rewrite Em).
    rewrite (proj2 (Z.ltb_lt _ _) Hb). cbn [andb]. destruct (Z.ltb_spec budget (bp_totalTokens p + estimateTokens m)) as [Hover|Hfit].
    + pose proof (estimateTokens_nonneg m) as Hm0. destruct (isSummaryEntry e && (10 * bp_totalTokens p <? 9 * budget)) eqn:Es.
      * apply andb_true_iff in Es as [Es Ht9%Z.ltb_lt]. split; cbn [bp_totalTokens bp_messages].
        -- rewrite tokensIn_cons, Ht. lia.
        -- right. exists e, m, (bp_messages p). split_and!; [|done..|by rewrite <-Ht]. apply elem_of_app. right. by left.
        -- exists (branchMessages (reverse rev)). rewrite branchMessages_app, Hn'. split; [done|]. intros older m' _. pose proof (estimateTokens_nonneg m'). lia.
      * split; cbn [bp_totalTokens bp_messages]; [done|by left|]. exists (branchMessages (reverse rev) ++ [m]). rewrite branchMessages_app, Hn', <-app_assoc.
        split; [done|]. intros older m' [_ [= ->]]%app_inj_tail. lia.
    + apply IH; cbn [bp_totalTokens bp_messages]; [rewrite tokensIn_cons, Ht; lia|lia|exact Hn'].
  - apply IH; [done..|]. rewrite branchMessages_app. cbn. by rewrite Em.
Qed.

Lemma branch_budget o : 2 ≤ contextWindowOf o → 0 < branchTokenBudget o ∧ branchTokenBudget o + maxSummaryOutputTokens o ≤ contextWindowOf o.
Proof.
  intros Hw. unfold branchTokenBudget, maxSummaryOutputTokens. pose proof (Z.div_le_upper_bound (contextWindowOf o) 2 (contextWindowOf o - 1)).
  pose proof (Z.div_le_upper_bound (contextWindowOf o) 4 (contextWindowOf o - 1)).
  destruct (default 16384 (bo_reserveTokens o) <? contextWindowOf o) eqn:Er; [apply Z.ltb_lt in Er|]; lia.
Qed.


Definition branchOptions : BranchOptions :=
  {| bo_contextWindow := 8; bo_maxTokens := 0; bo_customInstructions := None; bo_replaceInstructions := false; bo_reserveTokens := None |}.

Definition branchEntries : list SessionTreeEntry :=
  [{| e_id := "a"; e_data := EMessage (made (MUser (CString (lit "a long question")))) |};
   {| e_id := "b"; e_data := ECompaction (lit "what was before this") "a" 9 None false |};
   {| e_id := "c"; e_data := EMessage (made (MUser (CString (lit "short")))) |}].


(** The example takes the summary although it exceeds the budget. *)
Example branch_summary_over_budget : let p := prepareBranchEntries branchEntries (branchTokenBudget branchOptions) in
  length (bp_messages p) = 2%nat ∧ branchTokenBudget branchOptions = 4 ∧ bp_totalTokens p = 7.
Proof. vm_compute. done. Qed.

(** ** Branches of a tree *)

Lemma branchIndex_in {E} (entryId : E → string) pre e post : entryId e ∉ entryId <$> pre →
  branchIndex entryId (entryId e) (pre ++ e :: post) = Some (length pre).
Proof.
  induction pre as [|x pre IH]; cbn; intros Hn; [by rewrite bool_decide_true|]. apply not_elem_of_cons in Hn as [Hx Hn].
  rewrite bool_decide_false by congruence. by rewrite IH.
Qed.

Lemma find_behind {A} (P : A → bool) l l' : List.find P l = None → List.find P (l ++ l') = List.find P l'.
Proof. induction l as [|a l IH]; [done|]. cbn. by destruct (P a). Qed.

(** Of two branches that part behind a common path, the old branch's own entries
    are summarised, and the ancestor is the end of that path. *)
Lemma collect_own_entries {E} (entryId : E → string) common old target : NoDup (entryId <$> common ++ old) →
  (∀ e, e ∈ target → entryId e ∉ entryId <$> common ++ old) →
  collectEntriesForBranchSummaryFromBranches entryId (common ++ old) (common ++ target) = (old, entryId <$> last common).
Proof.
  intros Hn Ht. unfold collectEntriesForBranchSummaryFromBranches. rewrite reverse_app.
  assert (Hf : List.find (λ e, bool_decide (entryId e ∈ entryId <$> common ++ old)) (reverse target) = None).
  { destruct (List.find _ _) as [e|] eqn:Ef; [|done]. apply find_some in Ef as [He%list_elem_of_In Hb%bool_decide_eq_true].
    rewrite elem_of_reverse in He. by destruct (Ht e He). }
  rewrite (find_behind _ _ _ Hf). destruct common as [|e common _] using rev_ind; [done|].
  rewrite reverse_app, last_snoc. change (reverse [e]) with [e]. cbn [app List.find fmap].
  rewrite bool_decide_true by (rewrite !fmap_app, !elem_of_app; left; right; by left). cbn.
  rewrite <-app_assoc in Hn |- *. cbn [app] in *. rewrite branchIndex_in.
  - f_equal. rewrite drop_app_ge by lia. by replace (S (length common) - length common)%nat with 1%nat by lia.
  - rewrite fmap_app in Hn. apply NoDup_app in Hn as (_ & Hd & _). intros Hin. apply (Hd _ Hin). by left.
Qed.
