(* ===== verification/ToolCallGrammar.v ===== *)
(** * The grammar of tool calls written as text

    Some models write a tool call into their answer instead of making it.  The
    scanner of XML-like calls ([packages/tool-call-repair/src/grammar.ts]):
    [<function=name>], [[name]] on a line of its own, or [[tool:name]], with
    parameters behind it.

    A text is a list of code units and a position counts them.  Upper case is
    folded for ASCII letters: no other unit has a letter of a marker as its lower
    case.  Offsets at which a line break counts as structural are a predicate;
    that one was used is not recorded. *)
From S2P Require Import Prelude Utf16.
Local Open Scope nat_scope.

(** ** Characters *)

Definition inRange (lo hi u : Z) : bool := (lo <=? u)%Z && (u <=? hi)%Z.

Definition isAlphanumeric (u : Z) : bool := inRange 65 90 u || inRange 97 122 u || inRange 48 57 u.

(** [A-Za-z0-9_-] *)
Definition isPlainTextToolNameChar (u : Z) : bool := isAlphanumeric u || (u =? 95)%Z || (u =? 45)%Z.

(** [A-Za-z0-9_.:-] *)
Definition isXmlishNameChar (u : Z) : bool := isPlainTextToolNameChar u || (u =? 46)%Z || (u =? 58)%Z.

Definition CR : Z := 13.
Definition LF : Z := 10.
Definition isHorizontal (u : Z) : bool := (u =? 32)%Z || (u =? 9)%Z.

(** The length of the longest prefix of characters that satisfy [p]. *)
Fixpoint prefixLen (p : Z → bool) (l : jsstr) : nat :=
  match l with
  | [] => 0
  | u :: r => if p u then S (prefixLen p r) else 0
  end.

(** [while (index < text.length && p(text[index])) index += 1] *)
Definition skipWhile (p : Z → bool) (text : jsstr) (start : nat) : nat := start + prefixLen p (drop start text).

Definition skipHorizontalWhitespace : jsstr → nat → nat := skipWhile isHorizontal.
Definition skipLineIndentation : jsstr → nat → nat := skipWhile (λ u, is_space_unit u && negb (u =? CR)%Z && negb (u =? LF)%Z).
Definition skipWhitespace : jsstr → nat → nat := skipWhile is_space_unit.

(** [text[i] === u] *)
Definition unitIs (text : jsstr) (i : nat) (u : Z) : bool := bool_decide (text !! i = Some u).

Definition consumeLineBreak (text : jsstr) (start : nat) : option nat :=
  if unitIs text start CR then Some (if unitIs text (S start) LF then start + 2 else start + 1)
  else if unitIs text start LF then Some (start + 1)
  else None.

Definition consumeStructuralLineBreakAfterHorizontalWhitespace (breaks : nat → bool) (text : jsstr) (start : nat) : option nat :=
  let right := skipHorizontalWhitespace text start in
  match consumeLineBreak text right with
  | Some actual => Some actual
  | None => List.find breaks (seq start (S right - start))
  end.

(** ** Markers *)

Definition FUNCTION_OPEN : jsstr := lit "<function=".
Definition FUNCTION_CLOSE : jsstr := lit "</function>".
Definition PARAMETER_OPEN : jsstr := lit "<parameter=".
Definition PARAMETER_CLOSE : jsstr := lit "</parameter>".

Definition lowerUnit (u : Z) : Z := if inRange 65 90 u then (u + 32)%Z else u.

(** [text.slice(cursor, cursor + marker.length).toLowerCase()] *)
Definition foldedAt (text : jsstr) (cursor : nat) (marker : jsstr) : jsstr := lowerUnit <$> take (length marker) (drop cursor text).

Definition startsWithAsciiMarkerIgnoreCase (text : jsstr) (cursor : nat) (marker : jsstr) : bool := bool_decide (foldedAt text cursor marker = marker).

Definition isAsciiMarkerPrefixIgnoreCase (text : jsstr) (cursor : nat) (marker : jsstr) : bool :=
  let rest := foldedAt text cursor marker in
  (length rest <? length marker) && bool_decide (take (length rest) marker = rest).

(** The first position from [start] on at which [marker], which begins with a
    [<], is found. *)
Definition indexOfAsciiMarkerIgnoreCase (text : jsstr) (marker : jsstr) (start : nat) : option nat :=
  List.find (λ cursor, unitIs text cursor 60 && startsWithAsciiMarkerIgnoreCase text cursor marker) (seq start (length text - start)).

(** ** The scanner *)

Record Span := { sp_from : nat; sp_to : nat }.

Inductive XmlishSyntax := FunctionSyntax | NamedBracket | ToolBracket.

#[export] Instance XmlishSyntax_eq_dec : EqDecision XmlishSyntax.
Proof. solve_decision. Defined.

Record XmlishParameter := { xp_name : Span; xp_value : Span }.

Record XmlishCandidate := {
  xc_syntax : XmlishSyntax;
  xc_name : Span;
  xc_nameComplete : bool;
  xc_parameters : list XmlishParameter;
  xc_payload : option Span;
  xc_activeParameterOpenEnd : option nat
}.

Inductive XmlishScan :=
| XmlInvalid (at_ : nat) (candidate : option XmlishCandidate)
| XmlPrefix (candidate : option XmlishCandidate) (completeEnd : option nat)
| XmlComplete (candidate : XmlishCandidate) (payload : Span) (end_ : nat).

(** The end of a name, of at most 121 characters. *)
Definition nameEndAt (p : Z → bool) (text : jsstr) (start : nat) : nat := start + (prefixLen p (drop start text) `min` 121).

Definition opened (syntax : XmlishSyntax) (name : Span) (nameComplete : bool) : XmlishCandidate :=
  {| xc_syntax := syntax; xc_name := name; xc_nameComplete := nameComplete; xc_parameters := []; xc_payload := None; xc_activeParameterOpenEnd := None |}.

(** What opens a call: its syntax, its name and where its body starts. *)
Record XmlishOpening := { xo_syntax : XmlishSyntax; xo_name : Span; xo_bodyStart : nat }.

Definition scanFunctionOpening (text : jsstr) (start : nat) : XmlishScan + XmlishOpening :=
  if negb (startsWithAsciiMarkerIgnoreCase text start FUNCTION_OPEN) && negb (isAsciiMarkerPrefixIgnoreCase text start FUNCTION_OPEN) then
    inl (XmlInvalid start None)
  else if length text - start <? length FUNCTION_OPEN then inl (XmlPrefix None None)
  else
    let nameStart := start + length FUNCTION_OPEN in
    let cursor := nameEndAt isXmlishNameChar text nameStart in
    let name := {| sp_from := nameStart; sp_to := cursor |} in
    if 120 <? cursor - nameStart then inl (XmlInvalid cursor None)
    else if cursor =? length text then inl (XmlPrefix (Some (opened FunctionSyntax name false)) None)
    else if (cursor =? nameStart) || negb (unitIs text cursor 62) then inl (XmlInvalid cursor None)
    else inr {| xo_syntax := FunctionSyntax; xo_name := name; xo_bodyStart := S cursor |}.

Definition TOOL : jsstr := lit "tool".

(** Behind the name of a bracket. *)
Definition closeBracket (breaks : nat → bool) (text : jsstr) (syntax : XmlishSyntax) (name : Span) : XmlishScan + XmlishOpening :=
  let cursor := name.(sp_to) in
  if cursor =? length text then inl (XmlPrefix (Some (opened syntax name false)) None)
  else if (name.(sp_from) =? name.(sp_to)) || negb (unitIs text cursor 93) then inl (XmlInvalid cursor None)
  else
    let cursor := S cursor in
    if bool_decide (syntax = NamedBracket) then
      if cursor =? length text then inl (XmlPrefix (Some (opened syntax name true)) None)
      else match consumeStructuralLineBreakAfterHorizontalWhitespace breaks text cursor with
           | None => inl (XmlInvalid cursor None)
           | Some afterLineBreak => inr {| xo_syntax := syntax; xo_name := name; xo_bodyStart := afterLineBreak |}
           end
    else inr {| xo_syntax := syntax; xo_name := name; xo_bodyStart := cursor |}.

Definition scanBracketName (breaks : nat → bool) (text : jsstr) (start : nat) : XmlishScan + XmlishOpening :=
  let firstNameStart := S start in
  let cursor := nameEndAt isPlainTextToolNameChar text firstNameStart in
  if 120 <? cursor - firstNameStart then inl (XmlInvalid cursor None)
  else
    let firstName := take (cursor - firstNameStart) (drop firstNameStart text) in
    if (cursor =? length text) && bool_decide (take (length firstName) TOOL = firstName) then inl (XmlPrefix None None)
    else if unitIs text cursor 58 && bool_decide (firstName = TOOL) then
      let nameStart := S cursor in
      let cursor := nameEndAt isPlainTextToolNameChar text nameStart in
      if 120 <? cursor - nameStart then inl (XmlInvalid cursor None)
      else closeBracket breaks text ToolBracket {| sp_from := nameStart; sp_to := cursor |}
    else closeBracket breaks text NamedBracket {| sp_from := firstNameStart; sp_to := cursor |}.

Definition scanOpening (breaks : nat → bool) (text : jsstr) (start : nat) : XmlishScan + XmlishOpening :=
  if unitIs text start 60 then scanFunctionOpening text start
  else if unitIs text start 91 then scanBracketName breaks text start
  else inl (XmlInvalid start None).

Section body.
Context (text : jsstr) (o : XmlishOpening).

Definition bodyCandidate (parameters : list XmlishParameter) (payloadEnd : nat) (active : option nat) : XmlishCandidate :=
  {| xc_syntax := o.(xo_syntax); xc_name := o.(xo_name); xc_nameComplete := true; xc_parameters := parameters;
     xc_payload := Some {| sp_from := o.(xo_bodyStart); sp_to := payloadEnd |}; xc_activeParameterOpenEnd := active |}.

Definition bodyComplete (parameters : list XmlishParameter) (payloadEnd end_ : nat) : XmlishScan :=
  XmlComplete (bodyCandidate parameters payloadEnd None) {| sp_from := o.(xo_bodyStart); sp_to := payloadEnd |} end_.

(** [lastParameterEnd] is [None] while there is no parameter. *)
Definition bodyPrefix (parameters : list XmlishParameter) (lastParameterEnd : option nat) (payloadEnd : nat) (active : option nat) : XmlishScan :=
  XmlPrefix (Some (bodyCandidate parameters payloadEnd active))
    (if bool_decide (o.(xo_syntax) = ToolBracket) then lastParameterEnd else None).

(** [count] bounds the parameters. *)
Fixpoint scanBody (count : nat) (cursor : nat) (parameters : list XmlishParameter) (lastParameterEnd : option nat) : option XmlishScan :=
  match count with
  | O => None
  | S count =>
      let isTool := bool_decide (o.(xo_syntax) = ToolBracket) in
      let markerStart := skipWhitespace text cursor in
      let invalid := XmlInvalid markerStart (Some (bodyCandidate parameters markerStart None)) in
      if markerStart =? length text then
        Some (match lastParameterEnd with
              | Some e => if isTool then bodyComplete parameters e e else XmlPrefix (Some (bodyCandidate parameters (length text) None)) None
              | None => XmlPrefix (Some (bodyCandidate parameters (length text) None)) None
              end)
      else if startsWithAsciiMarkerIgnoreCase text markerStart FUNCTION_CLOSE then
        Some (if negb (bool_decide (o.(xo_syntax) = FunctionSyntax)) && bool_decide (parameters = []) then invalid
              else bodyComplete parameters markerStart (markerStart + length FUNCTION_CLOSE))
      else if isAsciiMarkerPrefixIgnoreCase text markerStart FUNCTION_CLOSE then Some (bodyPrefix parameters lastParameterEnd markerStart None)
      else if startsWithAsciiMarkerIgnoreCase text markerStart PARAMETER_OPEN then
        let nameStart := markerStart + length PARAMETER_OPEN in
        let nameEnd := nameEndAt isXmlishNameChar text nameStart in
        if 120 <? nameEnd - nameStart then Some invalid
        else if nameEnd =? length text then Some (bodyPrefix parameters lastParameterEnd markerStart None)
        else if (nameEnd =? nameStart) || negb (unitIs text nameEnd 62) then Some invalid
        else
          let valueStart := S nameEnd in
          match indexOfAsciiMarkerIgnoreCase text PARAMETER_CLOSE valueStart with
          | None => Some (bodyPrefix parameters lastParameterEnd (length text) (Some valueStart))
          | Some closeStart =>
              let end_ := closeStart + length PARAMETER_CLOSE in
              let p := {| xp_name := {| sp_from := nameStart; sp_to := nameEnd |}; xp_value := {| sp_from := valueStart; sp_to := closeStart |} |} in
              scanBody count end_ (parameters ++ [p]) (Some end_)
          end
      else if isAsciiMarkerPrefixIgnoreCase text markerStart PARAMETER_OPEN then Some (bodyPrefix parameters lastParameterEnd markerStart None)
      else Some (match lastParameterEnd with
                 | Some e => if isTool then bodyComplete parameters e e else invalid
                 | None => invalid
                 end)
  end.
End body.

(** [None] stands for a loop that is cut off. *)
Definition scanXmlishToolCall (breaks : nat → bool) (text : jsstr) (start : nat) : option XmlishScan :=
  match scanOpening breaks text start with
  | inl scan => Some scan
  | inr o => scanBody text o (S (length text)) o.(xo_bodyStart) [] None
  end.
