(* ===== verification/ToolCallPayload.v ===== *)
(** * Tool calls written as text

    The scanner of calls with a JSON object, the scan of either kind, the parser of
    answers that are nothing but calls, and the removal of calls from what a user
    sees ([packages/tool-call-repair/src/payload.ts], [contracts.ts]).

    The parser of JSON objects, the names that are allowed and the ranges that are
    protected are parameters.  The count of UTF-8 bytes is that of Truncate, which
    is the length of the encoding. *)
From S2P Require Import Prelude JsCollections Utf16 Truncate ToolCallGrammar.
Local Open Scope nat_scope.

(** ** The scanner of JSON calls *)

Definition END_TOOL_REQUEST : jsstr := lit "[END_TOOL_REQUEST]".
Definition HARMONY_CHANNEL_MARKER : jsstr := lit "<|channel|>".
Definition HARMONY_MESSAGE_MARKER : jsstr := lit "<|message|>".
Definition HARMONY_CALL_MARKER : jsstr := lit "<|call|>".
Definition HARMONY_CHANNELS : list jsstr := [lit "commentary"; lit "analysis"; lit "final"].

Inductive JsonSyntax := HarmonySyntax | JsonNamedBracket | JsonToolBracket.

#[export] Instance JsonSyntax_eq_dec : EqDecision JsonSyntax.
Proof. solve_decision. Defined.

Record JsonState := { js_depth : Z; js_escaped : bool; js_inString : bool }.

Record JsonCandidate := {
  jc_syntax : JsonSyntax;
  jc_name : Span;
  jc_nameComplete : bool;
  jc_payload : option Span;
  jc_json : option JsonState
}.

Inductive JsonScan :=
| JsonInvalid (at_ : nat) (candidate : option JsonCandidate)
| JsonPrefix (candidate : option JsonCandidate)
| JsonComplete (candidate : JsonCandidate) (payload : Span) (end_ : nat).

Record JsonOpening := { jo_cursor : nat; jo_syntax : JsonSyntax; jo_name : Span }.

(** [text.startsWith(literal, start)] *)
Definition startsWithAt (text : jsstr) (start : nat) (literal : jsstr) : bool := bool_decide (take (length literal) (drop start text) = literal).

Definition isLiteralPrefixAt (text : jsstr) (start : nat) (literal : jsstr) : bool :=
  let rest := drop start text in
  (length rest <? length literal) && bool_decide (take (length rest) literal = rest).

Definition MAX_PLAIN_TEXT_TOOL_NAME_CHARS : nat := 120.

Definition scanToolNameEnd (text : jsstr) (start : nat) : option nat :=
  let n := prefixLen isPlainTextToolNameChar (drop start text) in
  if MAX_PLAIN_TEXT_TOOL_NAME_CHARS <? n then None else Some (start + n).

Definition candidateOf (syntax : JsonSyntax) (name : Span) (nameComplete : bool) (payload : option Span) (json : option JsonState) : JsonCandidate :=
  {| jc_syntax := syntax; jc_name := name; jc_nameComplete := nameComplete; jc_payload := payload; jc_json := json |}.

Definition TOOL_PREFIX : jsstr := lit "tool:".

Definition isSpaceOrTab (text : jsstr) (i : nat) : bool := unitIs text i 32 || unitIs text i 9.

Definition scanBracketOpening (breaks : nat → bool) (text : jsstr) (start : nat) : JsonScan + JsonOpening :=
  let isTool := startsWithAt text (S start) TOOL_PREFIX in
  if negb isTool && isLiteralPrefixAt text (S start) TOOL_PREFIX then inl (JsonPrefix None)
  else
    let syntax := if isTool then JsonToolBracket else JsonNamedBracket in
    let nameStart := if isTool then S start + length TOOL_PREFIX else S start in
    match scanToolNameEnd text nameStart with
    | None => inl (JsonInvalid (nameStart + MAX_PLAIN_TEXT_TOOL_NAME_CHARS) None)
    | Some nameEnd =>
        let name := {| sp_from := nameStart; sp_to := nameEnd |} in
        if nameEnd =? length text then
          inl (JsonPrefix (if nameStart =? nameEnd then None else Some (candidateOf syntax name false None None)))
        else if (nameStart =? nameEnd) || negb (unitIs text nameEnd 93) then inl (JsonInvalid nameEnd None)
        else
          let cursor := S nameEnd in
          let value := candidateOf syntax name true None None in
          if bool_decide (syntax = JsonNamedBracket) then
            let horizontalEnd := skipHorizontalWhitespace text cursor in
            if horizontalEnd =? length text then inl (JsonPrefix (Some value))
            else match consumeStructuralLineBreakAfterHorizontalWhitespace breaks text cursor with
                 | None => inl (JsonInvalid horizontalEnd (Some value))
                 | Some afterLineBreak => inr {| jo_cursor := afterLineBreak; jo_syntax := syntax; jo_name := name |}
                 end
          else inr {| jo_cursor := cursor; jo_syntax := syntax; jo_name := name |}
    end.

(** Behind the name of a Harmony header. *)
Definition scanHarmonyCode (text : jsstr) (name : Span) : JsonScan + JsonOpening :=
  let value := Some (candidateOf HarmonySyntax name true None None) in
  let cursor := skipHorizontalWhitespace text name.(sp_to) in
  if negb (startsWithAt text cursor (lit "code")) then
    inl (if isLiteralPrefixAt text cursor (lit "code") then JsonPrefix value else JsonInvalid cursor value)
  else
    let cursor := skipWhitespace text (cursor + 4) in
    if startsWithAt text cursor HARMONY_MESSAGE_MARKER then
      inr {| jo_cursor := skipWhitespace text (cursor + length HARMONY_MESSAGE_MARKER); jo_syntax := HarmonySyntax; jo_name := name |}
    else if isLiteralPrefixAt text cursor HARMONY_MESSAGE_MARKER then inl (JsonPrefix value)
    else if unitIs text cursor 60 then inl (JsonInvalid cursor value)
    else inr {| jo_cursor := cursor; jo_syntax := HarmonySyntax; jo_name := name |}.

Definition scanHarmonyTarget (text : jsstr) (start : nat) : JsonScan + JsonOpening :=
  let cursor := skipHorizontalWhitespace text start in
  if negb (startsWithAt text cursor (lit "to=")) then
    inl (if isLiteralPrefixAt text cursor (lit "to=") then JsonPrefix None else JsonInvalid cursor None)
  else
    let nameStart := cursor + 3 in
    match scanToolNameEnd text nameStart with
    | None => inl (JsonInvalid (nameStart + MAX_PLAIN_TEXT_TOOL_NAME_CHARS) None)
    | Some nameEnd =>
        let name := {| sp_from := nameStart; sp_to := nameEnd |} in
        if nameEnd =? length text then
          inl (JsonPrefix (if nameStart =? nameEnd then None else Some (candidateOf HarmonySyntax name false None None)))
        else if (nameStart =? nameEnd) || negb (isSpaceOrTab text nameEnd) then inl (JsonInvalid nameEnd None)
        else scanHarmonyCode text name
    end.

Definition scanHarmonyChannel (text : jsstr) (cursor : nat) : JsonScan + JsonOpening :=
  match List.find (startsWithAt text cursor) HARMONY_CHANNELS with
  | None => inl (if existsb (isLiteralPrefixAt text cursor) HARMONY_CHANNELS then JsonPrefix None else JsonInvalid cursor None)
  | Some channel =>
      let cursor := cursor + length channel in
      if cursor =? length text then inl (JsonPrefix None)
      else if negb (isSpaceOrTab text cursor) then inl (JsonInvalid cursor None)
      else scanHarmonyTarget text cursor
  end.

Definition scanHarmonyOpening (text : jsstr) (start : nat) : JsonScan + JsonOpening :=
  if startsWithAt text start HARMONY_CHANNEL_MARKER then scanHarmonyChannel text (start + length HARMONY_CHANNEL_MARKER)
  else if isLiteralPrefixAt text start HARMONY_CHANNEL_MARKER then inl (JsonPrefix None)
  else if unitIs text start 60 then inl (JsonInvalid start None)
  else scanHarmonyChannel text start.

(** The object from its brace on: the position behind it, or the state at the end
    of the text. *)
Fixpoint scanJsonObject (l : jsstr) (index : nat) (s : JsonState) : nat * JsonState * bool :=
  match l with
  | [] => (index, s, false)
  | u :: r =>
      if s.(js_inString) then
        scanJsonObject r (S index)
          (if s.(js_escaped) then {| js_depth := s.(js_depth); js_escaped := false; js_inString := true |}
           else if (u =? 92)%Z then {| js_depth := s.(js_depth); js_escaped := true; js_inString := true |}
           else {| js_depth := s.(js_depth); js_escaped := false; js_inString := negb (u =? 34)%Z |})
      else if (u =? 34)%Z then scanJsonObject r (S index) {| js_depth := s.(js_depth); js_escaped := s.(js_escaped); js_inString := true |}
      else if (u =? 123)%Z then scanJsonObject r (S index) {| js_depth := s.(js_depth) + 1; js_escaped := s.(js_escaped); js_inString := false |}
      else if (u =? 125)%Z then
        let s := {| js_depth := s.(js_depth) - 1; js_escaped := s.(js_escaped); js_inString := false |} in
        if (s.(js_depth) =? 0)%Z then (S index, s, true) else scanJsonObject r (S index) s
      else scanJsonObject r (S index) s
  end.

(** The first of [closings] that the text has at [at_], or that its end may still
    become; [atEnd] is whether an empty rest may. *)
Fixpoint matchClosing (text : jsstr) (at_ : nat) (closings : list jsstr) : option (option jsstr) :=
  match closings with
  | [] => None
  | closing :: rest =>
      if startsWithAt text at_ closing then Some (Some closing)
      else if (at_ <? length text) && isLiteralPrefixAt text at_ closing then Some None
      else matchClosing text at_ rest
  end.

Definition spanText (text : jsstr) (s : Span) : jsstr := take (s.(sp_to) - s.(sp_from)) (drop s.(sp_from) text).

Definition scanPlainTextJsonToolCall (breaks : nat → bool) (text : jsstr) (start : nat) : JsonScan :=
  match (if unitIs text start 91 then scanBracketOpening breaks text start else scanHarmonyOpening text start) with
  | inl scan => scan
  | inr o =>
      let value := candidateOf o.(jo_syntax) o.(jo_name) true None None in
      let payloadStart := skipWhitespace text o.(jo_cursor) in
      if payloadStart =? length text then JsonPrefix (Some value)
      else if negb (unitIs text payloadStart 123) then JsonInvalid payloadStart (Some value)
      else
        let '(jsonEnd, state, closed) := scanJsonObject (drop payloadStart text) payloadStart {| js_depth := 0; js_escaped := false; js_inString := false |} in
        let payload := {| sp_from := payloadStart; sp_to := jsonEnd |} in
        let withPayload := candidateOf o.(jo_syntax) o.(jo_name) true (Some payload) (Some state) in
        if negb closed then JsonPrefix (Some withPayload)
        else
          let closingStart := skipWhitespace text jsonEnd in
          let closeName := lit "[/" ++ spanText text o.(jo_name) ++ lit "]" in
          let complete := JsonComplete value payload in
          if bool_decide (o.(jo_syntax) = JsonNamedBracket) then
            if closingStart =? length text then JsonPrefix (Some withPayload)
            else match matchClosing text closingStart [END_TOOL_REQUEST; closeName] with
                 | Some (Some closing) => complete (closingStart + length closing)
                 | Some None => JsonPrefix (Some withPayload)
                 | None => JsonInvalid closingStart (Some withPayload)
                 end
          else match matchClosing text closingStart [HARMONY_CALL_MARKER; END_TOOL_REQUEST; closeName] with
               | Some (Some closing) => complete (closingStart + length closing)
               | Some None => JsonPrefix (Some withPayload)
               | None => complete jsonEnd
               end
  end.

Definition DEFAULT_MAX_PLAIN_TEXT_TOOL_PAYLOAD_BYTES : Z := 256000.

Definition utf8ByteLengthWithinLimit (text : jsstr) (start end_ : nat) (maxBytes : Z) : option Z :=
  if (maxBytes <? Z.of_nat end_ - Z.of_nat start)%Z then None
  else let byteLength := utf8ByteLength (take (end_ - start) (drop start text)) in
       if (byteLength <=? maxBytes)%Z then Some byteLength else None.

(** ** The scan of either kind *)

(** The names that may be called: exact, and beginnings of one. *)
Record NameMatcher := { hasExactName : jsstr → bool; hasNamePrefix : jsstr → bool }.

(** What both scanners tell: how they ended, and of the call what is known. *)
Inductive BranchKind := BranchComplete (end_ : nat) | BranchPrefix | BranchInvalid (at_ : nat).

Record BranchValue := { bv_name : Span; bv_nameComplete : bool; bv_payload : option Span }.

Record ScanBranch := { sb_kind : BranchKind; sb_value : option BranchValue }.

Definition xmlishValue (c : XmlishCandidate) : BranchValue :=
  {| bv_name := c.(xc_name); bv_nameComplete := c.(xc_nameComplete); bv_payload := c.(xc_payload) |}.

Definition xmlishBranch (scan : XmlishScan) : ScanBranch :=
  match scan with
  | XmlInvalid at_ c => {| sb_kind := BranchInvalid at_; sb_value := xmlishValue <$> c |}
  | XmlPrefix c _ => {| sb_kind := BranchPrefix; sb_value := xmlishValue <$> c |}
  | XmlComplete c _ end_ => {| sb_kind := BranchComplete end_; sb_value := Some (xmlishValue c) |}
  end.

Definition jsonValue (c : JsonCandidate) (payload : option Span) : BranchValue :=
  {| bv_name := c.(jc_name); bv_nameComplete := c.(jc_nameComplete); bv_payload := payload |}.

Definition jsonBranch (scan : JsonScan) : ScanBranch :=
  match scan with
  | JsonInvalid at_ c => {| sb_kind := BranchInvalid at_; sb_value := (λ c, jsonValue c c.(jc_payload)) <$> c |}
  | JsonPrefix c => {| sb_kind := BranchPrefix; sb_value := (λ c, jsonValue c c.(jc_payload)) <$> c |}
  | JsonComplete c payload end_ => {| sb_kind := BranchComplete end_; sb_value := Some (jsonValue c (Some payload)) |}
  end.

(** A loop that is cut off does not happen. *)
Definition xmlishScan (breaks : nat → bool) (text : jsstr) (start : nat) : XmlishScan :=
  default (XmlPrefix None None) (scanXmlishToolCall breaks text start).

Definition completeEndOf (scan : XmlishScan) : option nat := match scan with XmlPrefix _ e => e | _ => None end.

Inductive ScanKind := ScanComplete (end_ : nat) | ScanPrefix (completeEnd : option nat) | ScanInvalid (at_ : nat).

Record ToolCallScan := {
  ts_kind : ScanKind;
  ts_next : nat;
  ts_overCap : bool;
  ts_payloadStart : option nat;
  ts_matchesXmlish : bool;
  ts_matchesJson : bool
}.

Section scan.
Context {A : Type} (safeParseJsonRecord : jsstr → option A).

Definition parseJsonArguments (text : jsstr) (payload : Span) : option A := safeParseJsonRecord (spanText text payload).

Definition accepts (matcher : option NameMatcher) (text : jsstr) (b : ScanBranch) : bool :=
  match b.(sb_value) with
  | None => match b.(sb_kind) with BranchPrefix => true | _ => false end
  | Some v =>
      match matcher with
      | None => true
      | Some m => (if v.(bv_nameComplete) then m.(hasExactName) else m.(hasNamePrefix)) (spanText text v.(bv_name))
      end
  end.

Definition overCap (text : jsstr) (maxPayloadBytes : Z) (payload : option Span) : bool :=
  match payload with
  | Some p => negb (bool_decide (is_Some (utf8ByteLengthWithinLimit text p.(sp_from) p.(sp_to) maxPayloadBytes)))
  | None => false
  end.

(** The payload of a branch that is accepted. *)
Definition acceptedPayload (accepted : bool) (b : ScanBranch) : option Span := if accepted then b.(sb_value) ≫= bv_payload else None.

Definition scanPlainTextToolCall (matcher : option NameMatcher) (maxPayloadBytes : Z) (breaks : nat → bool) (text : jsstr) (start : nat) : ToolCallScan :=
  let xmlish := xmlishScan breaks text start in
  let xb := xmlishBranch xmlish in
  let jb := jsonBranch (scanPlainTextJsonToolCall breaks text start) in
  let xml := accepts matcher text xb in
  let json := accepts matcher text jb in
  let xmlPayload := acceptedPayload xml xb in
  let jsonPayload := acceptedPayload json jb in
  let xmlOverCap := overCap text maxPayloadBytes xmlPayload in
  let jsonOverCap := overCap text maxPayloadBytes jsonPayload in
  let result kind next over payload :=
    {| ts_kind := kind; ts_next := next; ts_overCap := over; ts_payloadStart := sp_from <$> payload; ts_matchesXmlish := xml; ts_matchesJson := json |} in
  let neither :=
    let xmlPrefix := xml && match xb.(sb_kind) with BranchPrefix => true | _ => false end in
    let jsonPrefix := json && match jb.(sb_kind) with BranchPrefix => true | _ => false end in
    if xmlPrefix || jsonPrefix then
      let payload := if xmlPrefix then xmlPayload else jsonPayload in
      result (ScanPrefix (completeEndOf xmlish)) (length text) (overCap text maxPayloadBytes payload) payload
    else
      let next := S start in
      let next := if xml then next `max` match xb.(sb_kind) with BranchInvalid at_ => at_ | _ => length text end else next in
      let next := if json then next `max` match jb.(sb_kind) with BranchComplete e => e | BranchInvalid at_ => at_ | BranchPrefix => length text end else next in
      result (ScanInvalid next) next false None in
  let invalidOverCap :=
    match xb.(sb_kind), xmlOverCap, jb.(sb_kind), jsonOverCap with
    | BranchInvalid at_, true, _, _ => result (ScanInvalid at_) at_ true xmlPayload
    | _, _, BranchInvalid at_, true => result (ScanInvalid at_) at_ true jsonPayload
    | _, _, _, _ => neither
    end in
  let jsonComplete :=
    match json, jb.(sb_kind), jsonPayload with
    | true, BranchComplete e, Some payload =>
        if jsonOverCap || bool_decide (is_Some (parseJsonArguments text payload)) then result (ScanComplete e) e jsonOverCap (Some payload)
        else result (ScanInvalid e) e false (Some payload)
    | _, _, _ => invalidOverCap
    end in
  match xml, xb.(sb_kind) with
  | true, BranchComplete e => result (ScanComplete e) e xmlOverCap xmlPayload
  | _, _ => jsonComplete
  end.

(** ** The parser *)

Inductive CallArguments := JsonArguments (a : A) | XmlArguments (parameters : list (jsstr * jsstr)).

Record ToolCallBlock := { tb_arguments : CallArguments; tb_end : nat; tb_name : jsstr; tb_raw : jsstr; tb_start : nat }.

Record ParseOptions := { po_allowedToolNames : option (list jsstr); po_maxPayloadBytes : option Z }.

Definition nameAllowed (o : ParseOptions) (name : jsstr) : bool :=
  match o.(po_allowedToolNames) with Some names => bool_decide (name ∈ names) | None => true end.

Definition withinCap (o : ParseOptions) (text : jsstr) (payload : Span) : bool :=
  negb (overCap text (default DEFAULT_MAX_PLAIN_TEXT_TOOL_PAYLOAD_BYTES o.(po_maxPayloadBytes)) (Some payload)).

Definition blockOf (text : jsstr) (start end_ : nat) (name : jsstr) (arguments : CallArguments) : ToolCallBlock :=
  {| tb_arguments := arguments; tb_end := end_; tb_name := name; tb_raw := take (end_ - start) (drop start text); tb_start := start |}.

Definition parsePlainTextToolCallBlockAt (o : ParseOptions) (breaks : nat → bool) (text : jsstr) (start : nat) : option ToolCallBlock :=
  match scanPlainTextJsonToolCall breaks text start with
  | JsonComplete c payload end_ =>
      let name := spanText text c.(jc_name) in
      if nameAllowed o name && withinCap o text payload then
        a ← parseJsonArguments text payload;
        Some (blockOf text start end_ name (JsonArguments a))
      else None
  | _ => None
  end.

(** [value.replace(/(?:\r\n|[\r\n])$/u, '')] *)
Definition dropFinalLineBreak (value : jsstr) : jsstr :=
  match reverse value with
  | u :: v :: r => if (u =? LF)%Z && (v =? CR)%Z then reverse r else if (u =? LF)%Z || (u =? CR)%Z then reverse (v :: r) else value
  | [u] => if (u =? LF)%Z || (u =? CR)%Z then [] else value
  | [] => []
  end.

Definition extractXmlishParameterValue (breaks : nat → bool) (text : jsstr) (start end_ : nat) : jsstr :=
  let value := take (end_ - start) (drop start text) in
  let value :=
    match consumeLineBreak text (skipHorizontalWhitespace text start) with
    | Some _ => value
    | None => match consumeStructuralLineBreakAfterHorizontalWhitespace breaks text start with
              | Some boundary => take (boundary - start) value ++ [LF] ++ drop (boundary - start) value
              | None => value
              end
    end in
  match consumeLineBreak value 0 with
  | None => value
  | Some payloadStart => dropFinalLineBreak (drop payloadStart value)
  end.

(** Of parameters with one name the last counts; in which order the record lists
    its names is not modelled. *)
Definition parseXmlishPlainTextToolCallBlockAt (o : ParseOptions) (breaks : nat → bool) (text : jsstr) (start : nat) : option ToolCallBlock :=
  match xmlishScan breaks text start with
  | XmlComplete c payload end_ =>
      let name := spanText text c.(xc_name) in
      if nameAllowed o name && withinCap o text payload then
        let args := foldl (λ m p, JsMap.set (spanText text p.(xp_name))
          (extractXmlishParameterValue breaks text p.(xp_value).(sp_from) p.(xp_value).(sp_to)) m) [] c.(xc_parameters) in
        Some (blockOf text start end_ name (XmlArguments args))
      else None
  | _ => None
  end.

Definition parsePlainTextToolCallBlockAtAnySyntax (o : ParseOptions) (breaks : nat → bool) (text : jsstr) (start : nat) : option ToolCallBlock :=
  match parsePlainTextToolCallBlockAt o breaks text start with
  | Some block => Some block
  | None => parseXmlishPlainTextToolCallBlockAt o breaks text start
  end.

(** [count] bounds the blocks; [None] stands for a loop that is cut off, [Some None]
    for a text that is something else. *)
Fixpoint parseBlocks (o : ParseOptions) (breaks : nat → bool) (text : jsstr) (count : nat) (cursor : nat) (blocks : list ToolCallBlock) : option (option (list ToolCallBlock)) :=
  if cursor <? length text then
    match count with
    | O => None
    | S count =>
        match parsePlainTextToolCallBlockAtAnySyntax o breaks text cursor with
        | None => Some None
        | Some block => parseBlocks o breaks text count (skipWhitespace text block.(tb_end)) (blocks ++ [block])
        end
    end
  else Some (match blocks with [] => None | _ => Some blocks end).

Definition parseStandalonePlainTextToolCallBlocks (o : ParseOptions) (breaks : nat → bool) (text : jsstr) : option (option (list ToolCallBlock)) :=
  parseBlocks o breaks text (length text) (skipWhitespace text 0) [].

(** ** Removal from visible text *)

Definition isOffsetInProtectedRanges (offset : nat) (ranges : list Span) : bool :=
  existsb (λ r, (r.(sp_from) <=? offset) && (offset <? r.(sp_to))) ranges.

Definition noBreaks (_ : nat) : bool := false.

Definition visibleScan (text : jsstr) (start : nat) : ToolCallScan :=
  scanPlainTextToolCall None DEFAULT_MAX_PLAIN_TEXT_TOOL_PAYLOAD_BYTES noBreaks text start.

(** Where a scan lets a block end. *)
Definition removableEnd (k : ScanKind) : option nat := match k with ScanComplete e => Some e | ScanPrefix e => e | ScanInvalid _ => None end.

(** Further blocks, with nothing but indentation before them. *)
Fixpoint adjacentBlocks (ranges : list Span) (text : jsstr) (count : nat) (blockEnd : nat) : option nat :=
  match count with
  | O => None
  | S count =>
      let adjacentStart := skipLineIndentation text blockEnd in
      if isOffsetInProtectedRanges adjacentStart ranges then Some blockEnd
      else match removableEnd (visibleScan text adjacentStart).(ts_kind) with
           | Some e => if e <=? blockEnd then Some blockEnd else adjacentBlocks ranges text count e
           | None => Some blockEnd
           end
  end.

Definition isLineStart (text : jsstr) (index : nat) : bool := (index =? 0) || unitIs text (index - 1) LF || unitIs text (index - 1) CR.

(** The text that is kept from [index] on, where [cursor] is the end of what was
    handled. *)
Fixpoint stripLoop (ranges : list Span) (text : jsstr) (count : nat) (cursor index : nat) : option jsstr :=
  if index <? length text then
    match count with
    | O => None
    | S count =>
        if negb (isLineStart text index) then stripLoop ranges text count cursor (S index)
        else
          let blockStart := skipLineIndentation text index in
          if isOffsetInProtectedRanges blockStart ranges then stripLoop ranges text count cursor (S index)
          else
            let scan := visibleScan text blockStart in
            match scan.(ts_kind) with
            | ScanInvalid _ => stripLoop ranges text count cursor (S index `max` scan.(ts_next))
            | kind =>
                match removableEnd kind with
                | None => Some (drop cursor text)
                | Some blockEnd =>
                    match adjacentBlocks ranges text (S (length text)) blockEnd with
                    | None => None
                    | Some blockEnd =>
                        let lineBreakStart := skipLineIndentation text blockEnd in
                        let next := if lineBreakStart =? length text then lineBreakStart else default blockEnd (consumeLineBreak text lineBreakStart) in
                        rest ← stripLoop ranges text count next next;
                        Some (take (index - cursor) (drop cursor text) ++ rest)
                    end
                end
            end
    end
  else Some (drop cursor text).

(** [/\[(?:tool:)?[A-Za-z0-9_-]+\]/.test(text)] *)
Definition hasBracketName (text : jsstr) : bool :=
  existsb (λ i, unitIs text i 91 &&
    (let at_ start := let n := prefixLen isPlainTextToolNameChar (drop start text) in (0 <? n) && unitIs text (start + n) 93 in
     at_ (S i) || (startsWithAt text (S i) TOOL_PREFIX && at_ (S i + length TOOL_PREFIX)))) (seq 0 (length text)).

(** The start of a line behind its indentation, for the two other patterns. *)
Definition lineStarts (text : jsstr) : list nat := skipLineIndentation text <$> List.filter (isLineStart text) (seq 0 (S (length text))).

Definition hasHarmonyHeader (text : jsstr) : bool :=
  existsb (λ i,
    let at_ start := existsb (λ c, startsWithAt text start c &&
      (let behind := start + length c in let next := skipHorizontalWhitespace text behind in (behind <? next) && startsWithAt text next (lit "to="))) HARMONY_CHANNELS in
    at_ i || (startsWithAt text i HARMONY_CHANNEL_MARKER && at_ (i + length HARMONY_CHANNEL_MARKER))) (lineStarts text).

Definition hasFunctionOpen (text : jsstr) : bool := existsb (λ i, startsWithAsciiMarkerIgnoreCase text i FUNCTION_OPEN) (lineStarts text).

Definition stripPlainTextToolCallBlocks (resolveProtectedRanges : jsstr → list Span) (text : jsstr) : option jsstr :=
  if negb (hasBracketName text) && negb (hasHarmonyHeader text) && negb (hasFunctionOpen text) then Some text
  else stripLoop (resolveProtectedRanges text) text (length text) 0 0.
End scan.
