(* ===== verification/ToolCallFacts.v ===== *)
(** * Facts on scanning tool calls

    Positions move forward and stay within the text, and the loops of the scanners
    end. *)
From S2P Require Import Prelude Utf16 Truncate ToolCallGrammar ToolCallPayload.
Local Open Scope nat_scope.

(** ** Positions *)

Lemma prefixLen_le p l : prefixLen p l ≤ length l.
Proof. induction l as [|u l IH]; [done|]. cbn. case_match; lia. Qed.

Lemma prefixLen_all p l : Forall (λ u, p u = true) (take (prefixLen p l) l).
Proof. induction l as [|u l IH]; cbn; [done|]. destruct (p u) eqn:Ep; [by constructor|constructor]. Qed.

Lemma skipWhile_ge p text start : start ≤ skipWhile p text start.
Proof. unfold skipWhile. lia. Qed.

Lemma skipWhile_le p text start : start ≤ length text → skipWhile p text start ≤ length text.
Proof. unfold skipWhile. pose proof (prefixLen_le p (drop start text)) as H. rewrite length_drop in H. lia. Qed.

Lemma nameEnd_bounds p text start : start ≤ length text → start ≤ nameEndAt p text start ≤ length text.
Proof. unfold nameEndAt. pose proof (prefixLen_le p (drop start text)) as H. rewrite length_drop in H. lia. Qed.

Lemma unitIs_lt text i u : unitIs text i u = true → i < length text.
Proof. unfold unitIs. intros H%bool_decide_eq_true. by eapply lookup_lt_Some. Qed.

Lemma startsAt_le text start marker : startsWithAsciiMarkerIgnoreCase text start marker = true → start + length marker ≤ length text ∨ marker = [].
Proof.
  unfold startsWithAsciiMarkerIgnoreCase, foldedAt. intros H%bool_decide_eq_true. apply (f_equal length) in H.
  rewrite length_fmap, length_take, length_drop in H. destruct marker; [by right|left]. cbn [length] in *. lia.
Qed.

Lemma startsWith_le text start literal : startsWithAt text start literal = true → start + length literal ≤ length text ∨ literal = [].
Proof.
  unfold startsWithAt. intros H%bool_decide_eq_true. apply (f_equal length) in H.
  rewrite length_take, length_drop in H. destruct literal; [by right|left]. cbn [length] in *. lia.
Qed.

Lemma lineBreak_bounds text start next : consumeLineBreak text start = Some next → start < next ≤ length text.
Proof.
  unfold consumeLineBreak. destruct (unitIs text start CR) eqn:Ec; [|destruct (unitIs text start LF) eqn:El; [|done]].
  - apply unitIs_lt in Ec. destruct (unitIs text (S start) LF) eqn:El; [apply unitIs_lt in El|]; intros [= <-]; lia.
  - apply unitIs_lt in El. intros [= <-]. lia.
Qed.

Lemma structural_bounds breaks text start next : start ≤ length text →
  consumeStructuralLineBreakAfterHorizontalWhitespace breaks text start = Some next → start ≤ next ≤ length text.
Proof.
  intros Hs. unfold consumeStructuralLineBreakAfterHorizontalWhitespace.
  pose proof (skipWhile_ge isHorizontal text start). pose proof (skipWhile_le isHorizontal text start Hs). unfold skipHorizontalWhitespace.
  destruct (consumeLineBreak _ _) as [a|] eqn:Ec; [apply lineBreak_bounds in Ec; intros [= <-]; lia|].
  intros Hf. apply find_some in Hf as [Hf _]. apply in_seq in Hf. lia.
Qed.

Lemma indexOf_bounds text marker start i : indexOfAsciiMarkerIgnoreCase text marker start = Some i →
  start ≤ i ∧ startsWithAsciiMarkerIgnoreCase text i marker = true.
Proof. intros Hf. apply find_some in Hf as [Hi [_ Hm]%andb_true_iff]. apply in_seq in Hi. split; [lia|done]. Qed.

(** ** XML-like calls *)

(** Where an opening is, its name and its body. *)
Record OpenedAt (text : jsstr) (start : nat) (o : XmlishOpening) : Prop := {
  oa_body : start < o.(xo_bodyStart) ≤ length text;
  oa_name : start < o.(xo_name).(sp_from) < o.(xo_name).(sp_to) ∧ o.(xo_name).(sp_to) < length text;
  oa_length : o.(xo_name).(sp_to) - o.(xo_name).(sp_from) ≤ 120
}.

Lemma function_opened text start o : scanFunctionOpening text start = inr o → OpenedAt text start o.
Proof.
  unfold scanFunctionOpening. destruct (negb _ && negb _); [done|]. destruct (Nat.ltb_spec (length text - start) (length FUNCTION_OPEN)) as [|Hl]; [done|].
  assert (Hf : length FUNCTION_OPEN = 10) by done. rewrite Hf in *. set (nameStart := start + 10).
  pose proof (nameEnd_bounds isXmlishNameChar text nameStart ltac:(unfold nameStart; lia)) as Hn. set (cursor := nameEndAt _ _ _) in *.
  destruct (Nat.ltb_spec 120 (cursor - nameStart)); [done|]. destruct (Nat.eqb_spec cursor (length text)); [done|].
  destruct (Nat.eqb_spec cursor nameStart); [done|]. destruct (unitIs text cursor 62); [|done]. intros [= <-]. split; cbn; unfold nameStart in *; lia.
Qed.

Lemma bracket_opened breaks text start syntax name o : closeBracket breaks text syntax name = inr o →
  start < sp_from name ≤ sp_to name → sp_to name ≤ length text → sp_to name - sp_from name ≤ 120 → OpenedAt text start o.
Proof.
  unfold closeBracket. intros H Hn Hl H120. destruct (Nat.eqb_spec (sp_to name) (length text)); [done|].
  destruct (Nat.eqb_spec (sp_from name) (sp_to name)); [done|]. destruct (unitIs text (sp_to name) 93); [|done]. cbn [orb negb] in H.
  destruct (bool_decide (syntax = NamedBracket)); [|injection H as <-; split; cbn; lia].
  destruct (S (sp_to name) =? length text); [done|]. destruct (consumeStructural _ _ _) as [next|] eqn:Ec || idtac.
  all: destruct (consumeStructuralLineBreakAfterHorizontalWhitespace breaks text (S (sp_to name))) as [a|] eqn:Ea; [|done].
  all: apply structural_bounds in Ea; [|lia]; injection H as <-; split; cbn; lia.
Qed.

Lemma opening_opened breaks text start o : scanOpening breaks text start = inr o → OpenedAt text start o.
Proof.
  unfold scanOpening. destruct (unitIs text start 60); [apply function_opened|]. destruct (unitIs text start 91) eqn:Eb; [|done].
  apply unitIs_lt in Eb. unfold scanBracketName. pose proof (nameEnd_bounds isPlainTextToolNameChar text (S start) ltac:(lia)) as Hn.
  set (cursor := nameEndAt _ _ _) in *. destruct (Nat.ltb_spec 120 (cursor - S start)); [done|]. destruct (_ && bool_decide _); [done|].
  destruct (unitIs text cursor 58 && _) eqn:Ec.
  - apply andb_true_iff in Ec as [Ec _]. apply unitIs_lt in Ec. pose proof (nameEnd_bounds isPlainTextToolNameChar text (S cursor) ltac:(lia)) as Hn'.
    set (cursor' := nameEndAt _ _ (S cursor)) in *. destruct (Nat.ltb_spec 120 (cursor' - S cursor)); [done|].
    intros Ho. apply (bracket_opened _ _ start _ _ _ Ho); cbn [sp_from sp_to]; lia.
  - intros Ho. apply (bracket_opened _ _ start _ _ _ Ho); cbn [sp_from sp_to]; lia.
Qed.

(** What a scan of a body tells. *)
Definition BodyScanned (text : jsstr) (o : XmlishOpening) (scan : XmlishScan) : Prop :=
  match scan with
  | XmlComplete c payload end_ => xc_name c = o.(xo_name) ∧ xc_nameComplete c = true ∧ o.(xo_bodyStart) ≤ end_ ≤ length text
  | XmlPrefix _ (Some e) => o.(xo_bodyStart) ≤ e ≤ length text
  | _ => True
  end.

Lemma body_scanned text o count : ∀ cursor parameters last, o.(xo_bodyStart) ≤ cursor ≤ length text →
  (∀ e, last = Some e → o.(xo_bodyStart) ≤ e ≤ length text) → length text - cursor < count →
  ∃ scan, scanBody text o count cursor parameters last = Some scan ∧ BodyScanned text o scan.
Proof.
  induction count as [|count IH]; intros cursor parameters last Hc Hl Hn; [lia|]. cbn [scanBody].
  pose proof (skipWhile_ge is_space_unit text cursor) as Hw. pose proof (skipWhile_le is_space_unit text cursor (proj2 Hc)) as Hw'.
  unfold skipWhitespace. set (markerStart := skipWhile _ _ _) in *.
  assert (Hp : ∀ e a, BodyScanned text o (bodyPrefix o parameters last e a)).
  { intros e a. unfold bodyPrefix. cbn. destruct (bool_decide _); [|done]. destruct last; [auto|done]. }
  assert (Hdone : ∀ e k, o.(xo_bodyStart) ≤ e ≤ length text → BodyScanned text o (bodyComplete o parameters k e)) by (intros e k He; split; [done|split; [done|exact He]]).
  destruct (Nat.eqb_spec markerStart (length text)).
  { eexists. split; [done|]. destruct last as [le|]; [|done]. destruct (bool_decide _); [by apply Hdone, Hl|done]. }
  destruct (startsWithAsciiMarkerIgnoreCase text markerStart FUNCTION_CLOSE) eqn:Ef.
  { eexists. split; [done|]. destruct (_ && bool_decide _); [done|]. apply Hdone. apply startsAt_le in Ef as [Ef|Ef]; [lia|done]. }
  destruct (isAsciiMarkerPrefixIgnoreCase text markerStart FUNCTION_CLOSE); [eexists; split; [done|apply Hp]|].
  destruct (startsWithAsciiMarkerIgnoreCase text markerStart PARAMETER_OPEN) eqn:Eo.
  - apply startsAt_le in Eo as [Eo|Eo]; [|done].
    pose proof (nameEnd_bounds isXmlishNameChar text _ Eo) as Hne. set (nameEnd := nameEndAt _ _ _) in *. clearbody nameEnd.
    destruct (120 <? _); [by eexists|]. destruct (Nat.eqb_spec nameEnd (length text)); [eexists; split; [done|apply Hp]|].
    destruct (_ || _); [by eexists|]. destruct (indexOfAsciiMarkerIgnoreCase _ _ _) as [closeStart|] eqn:Ei; [|eexists; split; [done|apply Hp]].
    apply indexOf_bounds in Ei as [Hi Hm]. apply startsAt_le in Hm as [Hm|Hm]; [|done]. assert (length PARAMETER_CLOSE = 12) by done.
    apply IH; [lia|intros e [= <-]; lia|lia].
  - destruct (isAsciiMarkerPrefixIgnoreCase text markerStart PARAMETER_OPEN); [eexists; split; [done|apply Hp]|].
    eexists. split; [done|]. destruct last as [le|]; [|done]. destruct (bool_decide _); [by apply Hdone, Hl|done].
Qed.

(** The scan comes back, and what it finds lies in the text. *)
Definition XmlScanned (text : jsstr) (start : nat) (scan : XmlishScan) : Prop :=
  match scan with
  | XmlComplete c _ end_ => start < end_ ≤ length text ∧ start < sp_from (xc_name c) ∧ sp_from (xc_name c) < sp_to (xc_name c) ≤ length text ∧ sp_to (xc_name c) - sp_from (xc_name c) ≤ 120
  | XmlPrefix _ (Some e) => start < e ≤ length text
  | _ => True
  end.

(** An opening alone is no call. *)
Lemma xmlishOpening_open breaks text start scan : scanOpening breaks text start = inl scan →
  match scan with XmlComplete _ _ _ | XmlPrefix _ (Some _) => False | _ => True end.
Proof.
  unfold scanOpening, scanFunctionOpening, scanBracketName, closeBracket. intros H. repeat case_match; by simplify_eq.
Qed.

Lemma opening_scanned breaks text start scan : scanOpening breaks text start = inl scan → XmlScanned text start scan.
Proof. intros Ho%xmlishOpening_open. by destruct scan as [|? [|]|]. Qed.

Lemma xmlish_scanned breaks text start : scanXmlishToolCall breaks text start = Some (xmlishScan breaks text start) ∧
  XmlScanned text start (xmlishScan breaks text start).
Proof.
  unfold xmlishScan, scanXmlishToolCall. destruct (scanOpening breaks text start) as [scan|o] eqn:Eo; [split; [done|by eapply opening_scanned]|].
  apply opening_opened in Eo as [Hb Hn H120].
  destruct (body_scanned text o (S (length text)) (xo_bodyStart o) [] None) as (scan & -> & Hs); [lia|done|lia|]. split; [done|]. cbn.
  destruct scan as [|c [e|]|c payload e]; cbn in *; [done|lia|done|]. destruct Hs as (-> & _ & He). lia.
Qed.

(** ** JSON calls *)

Lemma jsonObject_end l : ∀ index s, let '(e, _, closed) := scanJsonObject l index s in index ≤ e ≤ index + length l.
Proof.
  induction l as [|u l IH]; intros index s; cbn [scanJsonObject length]; [lia|].
  assert (Hn : ∀ s', let '(e, _, closed) := scanJsonObject l (S index) s' in index ≤ e ≤ index + S (length l)).
  { intros s'. specialize (IH (S index) s'). destruct (scanJsonObject l (S index) s') as [[e ?] ?]. lia. }
  destruct (js_inString s); [apply Hn|]. destruct (u =? 34)%Z; [apply Hn|]. destruct (u =? 123)%Z; [apply Hn|].
  destruct (u =? 125)%Z; [|apply Hn]. cbn zeta. destruct (_ =? 0)%Z; [lia|apply Hn].
Qed.

Lemma matchClosing_le text at_ closings closing : matchClosing text at_ closings = Some (Some closing) → closing ≠ [] → at_ + length closing ≤ length text.
Proof.
  induction closings as [|c closings IH]; [done|]. cbn. destruct (startsWithAt text at_ c) eqn:Es; [|destruct (_ && _); [done|apply IH]].
  intros [= <-] Hne. by apply startsWith_le in Es as [Es|Es].
Qed.

Record JsonOpenedAt (text : jsstr) (start : nat) (o : JsonOpening) : Prop := {
  ja_cursor : start < o.(jo_cursor) ≤ length text;
  ja_name : start < o.(jo_name).(sp_from) ∧ o.(jo_name).(sp_from) < o.(jo_name).(sp_to) ≤ length text;
  ja_length : o.(jo_name).(sp_to) - o.(jo_name).(sp_from) ≤ 120
}.

Lemma toolName_bounds text start e : start ≤ length text → scanToolNameEnd text start = Some e → start ≤ e ≤ length text ∧ e - start ≤ 120.
Proof.
  unfold scanToolNameEnd, MAX_PLAIN_TEXT_TOOL_NAME_CHARS. intros Hs. pose proof (prefixLen_le isPlainTextToolNameChar (drop start text)) as Hp.
  rewrite length_drop in Hp. destruct (Nat.ltb_spec 120 (prefixLen isPlainTextToolNameChar (drop start text))); [done|]. intros [= <-]. lia.
Qed.

Lemma jsonBracket_opened breaks text start o : unitIs text start 91 = true → scanBracketOpening breaks text start = inr o → JsonOpenedAt text start o.
Proof.
  intros Hb%unitIs_lt. unfold scanBracketOpening. assert (Hl : length TOOL_PREFIX = 5) by done.
  destruct (_ && isLiteralPrefixAt _ _ _); [done|]. set (nameStart := if _ : bool then _ else _).
  assert (Hn : start < nameStart ≤ length text).
  { unfold nameStart. destruct (startsWithAt text (S start) TOOL_PREFIX) eqn:Es; [|lia]. apply startsWith_le in Es as [Es|Es]; [lia|done]. }
  set (syntax := if _ : bool then JsonToolBracket else JsonNamedBracket). clearbody syntax nameStart.
  destruct (scanToolNameEnd text nameStart) as [e|] eqn:Ee; [|done]. apply toolName_bounds in Ee; [|lia].
  destruct (Nat.eqb_spec e (length text)); [done|]. destruct (Nat.eqb_spec nameStart e); [done|]. destruct (unitIs text e 93); [|done]. cbn [orb negb].
  destruct (bool_decide (syntax = JsonNamedBracket)); [|intros [= <-]; split; cbn [jo_cursor jo_name sp_from sp_to]; lia].
  destruct (_ =? _); [done|]. destruct (consumeStructuralLineBreakAfterHorizontalWhitespace _ _ _) as [a|] eqn:Ea; [|done].
  apply structural_bounds in Ea; [|lia]. intros [= <-]. split; cbn [jo_cursor jo_name sp_from sp_to]; lia.
Qed.

Lemma harmonyCode_opened text start name o : start < sp_from name < sp_to name → sp_to name ≤ length text → sp_to name - sp_from name ≤ 120 →
  scanHarmonyCode text name = inr o → JsonOpenedAt text start o.
Proof.
  intros Hn Hl H120. unfold scanHarmonyCode, skipHorizontalWhitespace, skipWhitespace.
  pose proof (skipWhile_ge isHorizontal text (sp_to name)). set (cursor := skipWhile isHorizontal _ _) in *.
  destruct (startsWithAt text cursor (lit "code")) eqn:Es; [|done]. cbn [negb]. apply startsWith_le in Es as [Es|Es]; [|done].
  change (length (lit "code")) with 4 in Es. pose proof (skipWhile_ge is_space_unit text (cursor + 4)). pose proof (skipWhile_le is_space_unit text (cursor + 4) Es).
  set (c2 := skipWhile is_space_unit text (cursor + 4)) in *. clearbody cursor c2.
  destruct (startsWithAt text c2 HARMONY_MESSAGE_MARKER) eqn:Em.
  - apply startsWith_le in Em as [Em|Em]; [|done]. pose proof (skipWhile_ge is_space_unit text (c2 + length HARMONY_MESSAGE_MARKER)).
    pose proof (skipWhile_le is_space_unit text (c2 + length HARMONY_MESSAGE_MARKER) Em). intros [= <-]. split; cbn [jo_cursor jo_name]; [|lia..]. split; [|done]. change (length HARMONY_MESSAGE_MARKER) with 11 in *. lia.
  - destruct (isLiteralPrefixAt _ _ _); [done|]. destruct (unitIs text c2 60); [done|]. intros [= <-]. split; cbn [jo_cursor jo_name]; [|lia..]. split; [|done]. lia.
Qed.

Lemma harmony_opened text start o : scanHarmonyOpening text start = inr o → JsonOpenedAt text start o.
Proof.
  assert (Hch : ∀ c, start ≤ c → scanHarmonyChannel text c = inr o → JsonOpenedAt text start o).
  { intros c Hc. unfold scanHarmonyChannel. destruct (List.find _ _) as [channel|] eqn:Ef; [|done]. apply find_some in Ef as [Hin Hs].
    apply startsWith_le in Hs as [Hs| ->]; [|by repeat destruct Hin as [Hin|Hin]].
    assert (0 < length channel) by (repeat (destruct Hin as [<-|Hin]; [cbn; lia|]); done).
    destruct (Nat.eqb_spec (c + length channel) (length text)); [done|]. destruct (isSpaceOrTab text (c + length channel)); [|done]. cbn [negb].
    unfold scanHarmonyTarget, skipHorizontalWhitespace. pose proof (skipWhile_ge isHorizontal text (c + length channel)). set (c2 := skipWhile _ _ _) in *. clearbody c2.
    destruct (startsWithAt text c2 (lit "to=")) eqn:Et; [|done]. cbn [negb]. apply startsWith_le in Et as [Et|Et]; [|done]. change (length (lit "to=")) with 3 in Et.
    destruct (scanToolNameEnd text (c2 + 3)) as [e|] eqn:Ee; [|done]. apply toolName_bounds in Ee; [|done].
    destruct (Nat.eqb_spec e (length text)); [done|]. destruct (Nat.eqb_spec (c2 + 3) e); [done|]. destruct (isSpaceOrTab text e); [|done].
    apply harmonyCode_opened; cbn [sp_from sp_to]; lia. }
  unfold scanHarmonyOpening. destruct (startsWithAt text start HARMONY_CHANNEL_MARKER); [apply Hch; lia|].
  destruct (isLiteralPrefixAt _ _ _); [done|]. destruct (unitIs text start 60); [done|]. by apply Hch.
Qed.

Definition JsonScanned (text : jsstr) (start : nat) (scan : JsonScan) : Prop :=
  match scan with
  | JsonComplete c payload end_ => start < end_ ≤ length text ∧ start < sp_from (jc_name c) ∧ sp_from (jc_name c) < sp_to (jc_name c) ≤ length text ∧ sp_to (jc_name c) - sp_from (jc_name c) ≤ 120
  | _ => True
  end.

(** An opening alone is no call. *)
Lemma jsonOpening_open breaks text start c payload e :
  (if unitIs text start 91 then scanBracketOpening breaks text start else scanHarmonyOpening text start) ≠ inl (JsonComplete c payload e).
Proof.
  intros Eo. destruct (unitIs text start 91).
  - unfold scanBracketOpening in Eo. repeat case_match; simplify_eq.
  - unfold scanHarmonyOpening, scanHarmonyChannel, scanHarmonyTarget, scanHarmonyCode in Eo. repeat case_match; simplify_eq.
Qed.

Lemma json_scanned breaks text start : JsonScanned text start (scanPlainTextJsonToolCall breaks text start).
Proof.
  unfold scanPlainTextJsonToolCall. destruct (if unitIs text start 91 then scanBracketOpening breaks text start else scanHarmonyOpening text start) as [scan|o] eqn:Eo.
  { destruct scan; [done..|]. by apply jsonOpening_open in Eo. }
  assert (Ho : JsonOpenedAt text start o) by (destruct (unitIs text start 91) eqn:Eb; [by eapply jsonBracket_opened|by apply harmony_opened]).
  destruct Ho as [Hc Hn H120]. unfold skipWhitespace. pose proof (skipWhile_ge is_space_unit text (jo_cursor o)). pose proof (skipWhile_le is_space_unit text (jo_cursor o) (proj2 Hc)).
  set (payloadStart := skipWhile _ _ _) in *. clearbody payloadStart. destruct (_ =? _); [done|]. destruct (unitIs text payloadStart 123); [|done]. cbn [negb].
  pose proof (jsonObject_end (drop payloadStart text) payloadStart {| js_depth := 0; js_escaped := false; js_inString := false |}) as Hj.
  destruct (scanJsonObject _ _ _) as [[jsonEnd state] closed]. rewrite length_drop in Hj. destruct closed; [|done]. cbn [negb].
  pose proof (skipWhile_ge is_space_unit text jsonEnd). set (closingStart := skipWhile _ _ _) in *. clearbody closingStart.
  assert (Hd : ∀ e, jsonEnd ≤ e ≤ length text → JsonScanned text start (JsonComplete (candidateOf (jo_syntax o) (jo_name o) true None None) {| sp_from := payloadStart; sp_to := jsonEnd |} e)).
  { intros e He. split_and!; cbn; lia. }
  assert (Hm : ∀ cs closing, Forall (λ c, c ≠ []) cs → matchClosing text closingStart cs = Some (Some closing) → jsonEnd ≤ closingStart + length closing ≤ length text).
  { intros cs closing Hcs Hm. split; [lia|]. eapply matchClosing_le; [exact Hm|]. clear -Hm Hcs. induction Hcs; cbn in Hm; [done|]. repeat case_match; simplify_eq; auto. }
  destruct (bool_decide _).
  - destruct (_ =? _); [done|]. destruct (matchClosing _ _ _) as [[closing|]|] eqn:Em; [|done..]. apply Hd. eapply Hm; [|exact Em]. by repeat constructor.
  - destruct (matchClosing _ _ _) as [[closing|]|] eqn:Em; [|done|apply Hd; lia]. apply Hd. eapply Hm; [|exact Em]. by repeat constructor.
Qed.

(** ** Either kind *)

Section scans.
Context {A : Type} (safeParseJsonRecord : jsstr → option A).

Lemma scan_removable matcher maxBytes breaks text start e :
  removableEnd (ts_kind (scanPlainTextToolCall safeParseJsonRecord matcher maxBytes breaks text start)) = Some e → start < e ≤ length text.
Proof.
  destruct (xmlish_scanned breaks text start) as [_ Hx]. pose proof (json_scanned breaks text start) as Hj. unfold scanPlainTextToolCall.
  set (x := xmlishScan breaks text start) in *. set (j := scanPlainTextJsonToolCall breaks text start) in *. clearbody x j.
  assert (Hce : ∀ e, completeEndOf x = Some e → start < e ≤ length text).
  { intros e' He. destruct x as [|c [e0|]|]; try done. cbn in *. by injection He as ->. }
  assert (Hxc : ∀ e, sb_kind (xmlishBranch x) = BranchComplete e → start < e ≤ length text) by (intros e' He; destruct x; try done; injection He as <-; apply Hx).
  assert (Hjc : ∀ e, sb_kind (jsonBranch j) = BranchComplete e → start < e ≤ length text) by (intros e' He; destruct j; try done; injection He as <-; apply Hj).
  cbn zeta. destruct (accepts matcher text (xmlishBranch x)) eqn:Ea; destruct (sb_kind (xmlishBranch x)) as [e0| |a0] eqn:Ek;
    destruct (accepts matcher text (jsonBranch j)) eqn:Eb; destruct (sb_kind (jsonBranch j)) as [e1| |a1] eqn:El; cbn [andb orb ts_kind];
    repeat case_match; cbn [removableEnd ts_kind]; intros ?; simplify_eq; auto.
Qed.

(** A block of the parser: its place, its name and its text. *)
Record BlockAt (o : ParseOptions) (text : jsstr) (start : nat) (b : ToolCallBlock (A:=A)) : Prop := {
  ba_end : start < tb_end b ≤ length text;
  ba_start : tb_start b = start;
  ba_raw : tb_raw b = take (tb_end b - start) (drop start text);
  ba_name : nameAllowed o (tb_name b) = true;
  ba_length : 0 < length (tb_name b) ≤ 120
}.

Lemma spanText_length text s : sp_from s < sp_to s → sp_to s ≤ length text → length (spanText text s) = sp_to s - sp_from s.
Proof. intros Hs Hl. unfold spanText. rewrite length_take, length_drop. lia. Qed.

Lemma blockAt_any o breaks text start b : parsePlainTextToolCallBlockAtAnySyntax safeParseJsonRecord o breaks text start = Some b → BlockAt o text start b.
Proof.
  assert (Hb : ∀ e name args, start < e ≤ length text → nameAllowed o name = true → 0 < length name ≤ 120 → BlockAt o text start (blockOf text start e name args)) by (by intros; split).
  assert (Hs : ∀ s, sp_from s < sp_to s ≤ length text → sp_to s - sp_from s ≤ 120 → 0 < length (spanText text s) ≤ 120) by (intros s Hs ?; rewrite spanText_length; lia).
  unfold parsePlainTextToolCallBlockAtAnySyntax. destruct (parsePlainTextToolCallBlockAt _ _ _ _ _) as [b'|] eqn:Ej.
  - intros [= ->]. unfold parsePlainTextToolCallBlockAt in Ej. pose proof (json_scanned breaks text start) as Hj.
    destruct (scanPlainTextJsonToolCall breaks text start) as [| |c payload e]; [done..|]. destruct (nameAllowed _ _ && _) eqn:En; [|done]. apply andb_true_iff in En as [En _].
    destruct (parseJsonArguments _ _ _); [|done]. injection Ej as <-. destruct Hj as (? & ? & ? & ?). apply Hb; [done..|by apply Hs].
  - unfold parseXmlishPlainTextToolCallBlockAt. pose proof (xmlish_scanned breaks text start) as [_ Hx].
    destruct (xmlishScan breaks text start) as [| |c payload e]; [done..|]. destruct (nameAllowed _ _ && _) eqn:En; [|done]. apply andb_true_iff in En as [En _].
    intros [= <-]. destruct Hx as (? & ? & ? & ?). apply Hb; [done..|by apply Hs].
Qed.
End scans.

(** ** The patterns that are tried first *)

Lemma horizontal_more text at_ : isSpaceOrTab text at_ = true → at_ < skipHorizontalWhitespace text at_.
Proof.
  unfold isSpaceOrTab, unitIs, skipHorizontalWhitespace, skipWhile. intros H.
  assert (∃ u, text !! at_ = Some u ∧ isHorizontal u = true) as (u & Hu & Hh).
  { apply orb_true_iff in H as [H%bool_decide_eq_true|H%bool_decide_eq_true]; by eexists. }
  rewrite (drop_S _ _ _ Hu). cbn. rewrite Hh. lia.
Qed.

(** A call in brackets, or a Harmony header, or the start of a function. *)
Definition bracketAt (text : jsstr) (i : nat) : bool :=
  unitIs text i 91 &&
    (let at_ start := let n := prefixLen isPlainTextToolNameChar (drop start text) in (0 <? n) && unitIs text (start + n) 93 in
     at_ (S i) || (startsWithAt text (S i) TOOL_PREFIX && at_ (S i + length TOOL_PREFIX))).

Definition harmonyAt (text : jsstr) (i : nat) : bool :=
  let at_ start := existsb (λ c, startsWithAt text start c &&
    (let behind := start + length c in let next := skipHorizontalWhitespace text behind in (behind <? next) && startsWithAt text next (lit "to="))) HARMONY_CHANNELS in
  at_ i || (startsWithAt text i HARMONY_CHANNEL_MARKER && at_ (i + length HARMONY_CHANNEL_MARKER)).

Definition openingAt (text : jsstr) (i : nat) : bool := bracketAt text i || harmonyAt text i || startsWithAsciiMarkerIgnoreCase text i FUNCTION_OPEN.

Lemma opening_fast text index : isLineStart text index = true → index ≤ length text → openingAt text (skipLineIndentation text index) = true →
  hasBracketName text || hasHarmonyHeader text || hasFunctionOpen text = true.
Proof.
  intros Hl Hi. assert (Hin : In (skipLineIndentation text index) (lineStarts text)).
  { unfold lineStarts. apply in_map, filter_In. split; [apply in_seq; lia|done]. }
  unfold openingAt. intros [[Hb|Hh]%orb_true_iff|Hf]%orb_true_iff; apply orb_true_iff.
  - left. apply orb_true_iff. left. apply existsb_exists. eexists. split; [|exact Hb]. apply andb_true_iff in Hb as [Hb%unitIs_lt _]. apply in_seq. lia.
  - left. apply orb_true_iff. right. apply existsb_exists. by eexists.
  - right. apply existsb_exists. by eexists.
Qed.

Lemma close_bracketed breaks text syntax name o : closeBracket breaks text syntax name = inr o → sp_from name ≤ sp_to name →
  sp_from name < sp_to name ∧ unitIs text (sp_to name) 93 = true.
Proof.
  unfold closeBracket. intros H Hn. destruct (_ =? length text); [done|]. destruct (Nat.eqb_spec (sp_from name) (sp_to name)); [done|].
  destruct (unitIs text (sp_to name) 93); [|done]. split; [lia|done].
Qed.

(** A name that is short enough is whole. *)
Lemma nameEnd_whole p text start : (120 <? nameEndAt p text start - start) = false → nameEndAt p text start = start + prefixLen p (drop start text).
Proof. unfold nameEndAt. intros ?%Nat.ltb_ge. lia. Qed.

Lemma tool_prefix text start : take 4 (drop start text) = TOOL → unitIs text (start + 4) 58 = true → startsWithAt text start TOOL_PREFIX = true.
Proof.
  intros Ht Hc. apply bool_decide_eq_true in Hc. rewrite <-lookup_drop in Hc. apply bool_decide_eq_true.
  change (length TOOL_PREFIX) with 5. by rewrite (take_S_r _ _ _ Hc), Ht.
Qed.

Lemma xmlish_openingAt breaks text start o : scanOpening breaks text start = inr o → openingAt text start = true.
Proof.
  unfold scanOpening, openingAt. destruct (unitIs text start 60).
  - unfold scanFunctionOpening. intros Ho. apply orb_true_iff. right.
    destruct (startsWithAsciiMarkerIgnoreCase text start FUNCTION_OPEN) eqn:Ef; [done|]. cbn [negb andb] in Ho.
    destruct (isAsciiMarkerPrefixIgnoreCase text start FUNCTION_OPEN) eqn:Ep; [|done]. cbn [negb] in Ho. unfold isAsciiMarkerPrefixIgnoreCase in Ep.
    apply andb_true_iff in Ep as [Ep _]. apply Nat.ltb_lt in Ep. unfold foldedAt in Ep. rewrite length_fmap, length_take, length_drop in Ep. destruct (Nat.ltb_spec (length text - start) (length FUNCTION_OPEN)); [done|lia].
  - destruct (unitIs text start 91) eqn:Eb; [|done]. unfold scanBracketName. destruct (120 <? _) eqn:E1; [done|]. apply nameEnd_whole in E1.
    pose proof (prefixLen_le isPlainTextToolNameChar (drop (S start) text)) as Hl. rewrite length_drop in Hl.
    rewrite E1 in *. set (n := prefixLen _ _) in *. replace (S start + n - S start) with n by lia. destruct (_ && bool_decide _); [done|].
    intros Ho. rewrite <-orb_assoc. apply orb_true_iff. left. unfold bracketAt. rewrite Eb. cbn [andb]. fold n. apply orb_true_iff.
    destruct (unitIs text (S start + n) 58 && _) eqn:Et.
    + right. apply andb_true_iff in Et as [Ec Et]. apply bool_decide_eq_true in Et. assert (n = 4) as Hn.
      { apply (f_equal length) in Et. rewrite length_take, length_drop in Et. change (length TOOL) with 4 in Et. lia. }
      clearbody n. subst n. rewrite (tool_prefix _ _ Et Ec). destruct (120 <? _) eqn:E2; [done|]. apply nameEnd_whole in E2. rewrite E2 in Ho.
      apply close_bracketed in Ho as [Hlt H93]; cbn [sp_from sp_to] in *; [|lia]. change (S start + length TOOL_PREFIX) with (S start + 5).
      replace (S (S start + 4)) with (S start + 5) in * by lia. cbn [andb]. cbn zeta. rewrite H93, andb_true_r. apply Nat.ltb_lt. lia.
    + left. apply close_bracketed in Ho; cbn [sp_from sp_to] in *; [|lia]. apply andb_true_iff. split; [apply Nat.ltb_lt; lia|apply Ho].
Qed.

Lemma jsonName_closed {B C : Type} text from n (x y : B) r (o : C) :
  (if from + n =? length text then inl x else if (from =? from + n) || negb (unitIs text (from + n) 93) then inl y else r) = inr o →
  (0 <? n) && unitIs text (from + n) 93 = true.
Proof.
  destruct (_ =? length text); [done|]. destruct (Nat.eqb_spec from (from + n)); [done|].
  destruct (unitIs text (from + n) 93); [|done]. intros _. rewrite andb_true_r. apply Nat.ltb_lt. lia.
Qed.

Lemma json_openingAt breaks text start o :
  (if unitIs text start 91 then scanBracketOpening breaks text start else scanHarmonyOpening text start) = inr o → openingAt text start = true.
Proof.
  unfold openingAt. intros Ho. apply orb_true_iff. left. apply orb_true_iff. destruct (unitIs text start 91) eqn:Eb.
  - left. unfold bracketAt. rewrite Eb. cbn [andb]. unfold scanBracketOpening in Ho. destruct (_ && isLiteralPrefixAt _ _ _); [done|].
    unfold scanToolNameEnd in Ho. apply orb_true_iff. destruct (startsWithAt text (S start) TOOL_PREFIX); [right|left]; destruct (_ <? _); try done.
    all: by apply jsonName_closed in Ho.
  - right. assert (Hch : ∀ c, scanHarmonyChannel text c = inr o → existsb (λ channel, startsWithAt text c channel &&
      (let behind := c + length channel in let next := skipHorizontalWhitespace text behind in (behind <? next) && startsWithAt text next (lit "to="))) HARMONY_CHANNELS = true).
    { intros c. unfold scanHarmonyChannel, scanHarmonyTarget. destruct (List.find _ _) as [channel|] eqn:Ef; [|done]. apply find_some in Ef as [Hin Hs].
      destruct (_ =? length text); [done|]. destruct (isSpaceOrTab text (c + length channel)) eqn:Esp; [|done]. cbn [negb]. intros H. apply existsb_exists. exists channel.
      split; [done|]. rewrite Hs. cbn [andb]. cbn zeta. apply andb_true_iff. split; [|by destruct (startsWithAt text _ (lit "to="))]. apply Nat.ltb_lt. by apply horizontal_more. }
    unfold scanHarmonyOpening in Ho. unfold harmonyAt. apply orb_true_iff. destruct (startsWithAt text start HARMONY_CHANNEL_MARKER); [right; by apply Hch|].
    destruct (isLiteralPrefixAt _ _ _); [done|]. destruct (unitIs text start 60); [done|]. left. by apply Hch.
Qed.

(** What can be removed opens a call. *)
Lemma removable_openingAt {A : Type} (safeParseJsonRecord : jsstr → option A) matcher maxBytes breaks text start e :
  removableEnd (ts_kind (scanPlainTextToolCall safeParseJsonRecord matcher maxBytes breaks text start)) = Some e → openingAt text start = true.
Proof.
  intros Hr. destruct (openingAt text start) eqn:Eo; [done|]. exfalso. unfold scanPlainTextToolCall in Hr.
  assert (Hx : match xmlishScan breaks text start with XmlComplete _ _ _ | XmlPrefix _ (Some _) => False | _ => True end).
  { unfold xmlishScan, scanXmlishToolCall. destruct (scanOpening breaks text start) as [scan|o] eqn:Es; [|apply xmlish_openingAt in Es; congruence].
    cbn. by eapply xmlishOpening_open. }
  assert (Hj : match scanPlainTextJsonToolCall breaks text start with JsonComplete _ _ _ => False | _ => True end).
  { unfold scanPlainTextJsonToolCall. destruct (if unitIs text start 91 then _ else _) as [scan|o] eqn:Es; [|apply json_openingAt in Es; congruence].
    destruct scan; [done..|]. by apply jsonOpening_open in Es. }
  destruct (xmlishScan breaks text start) as [|? [|]|]; try done; destruct (scanPlainTextJsonToolCall breaks text start); try done.
  all: revert Hr; cbn; repeat case_match; cbn; done.
Qed.
