(* ===== verification/ToolCallRepair.v ===== *)
(** * What the repair of tool calls promises

    The parser reads a text that is nothing but calls, and exactly such a text;
    what is removed from a visible text is calls on lines of their own, outside the
    protected ranges; and a call that is written is read back. *)
From S2P Require Import Prelude JsCollections Utf16 Truncate ToolCallGrammar ToolCallPayload ToolCallFacts.
Local Open Scope nat_scope.

(** ** Texts of calls *)

Section parse.
Context {A : Type} (safeParseJsonRecord : jsstr → option A) (o : ParseOptions) (breaks : nat → bool) (text : jsstr).

(** From a position on the text is calls, with white space around them. *)
Inductive CallsFrom : nat → list (ToolCallBlock (A:=A)) → Prop :=
| calls_end cursor : length text ≤ skipWhitespace text cursor → CallsFrom cursor []
| calls_more cursor b bs : skipWhitespace text cursor < length text →
    parsePlainTextToolCallBlockAtAnySyntax safeParseJsonRecord o breaks text (skipWhitespace text cursor) = Some b →
    BlockAt o text (skipWhitespace text cursor) b → CallsFrom (tb_end b) bs → CallsFrom cursor (b :: bs).

(** What a run of the parser answers that has read [blocks] up to [cursor]. *)
Definition Reads (cursor : nat) (blocks : list (ToolCallBlock (A:=A))) (r : option (list (ToolCallBlock (A:=A)))) : Prop :=
  ∀ bs, r = Some bs ↔ ∃ more, bs = blocks ++ more ∧ bs ≠ [] ∧ CallsFrom cursor more.

Lemma reads_end cursor blocks : length text ≤ skipWhitespace text cursor → Reads cursor blocks (match blocks with [] => None | _ => Some blocks end).
Proof.
  intros Hge bs. split.
  - intros Hr. exists []. rewrite app_nil_r. destruct blocks; [done|]. injection Hr as <-. split_and!; [done..|by apply calls_end].
  - intros (more & -> & Hne & Hm). inversion Hm; subst; [|lia]. rewrite app_nil_r in *. by destruct blocks.
Qed.

Lemma parseBlocks_spec count : ∀ cursor blocks, length text - skipWhitespace text cursor ≤ count →
  ∃ r, parseBlocks safeParseJsonRecord o breaks text count (skipWhitespace text cursor) blocks = Some r ∧ Reads cursor blocks r.
Proof.
  induction count as [|count IH]; intros cursor blocks Hc; cbn [parseBlocks]; destruct (Nat.ltb_spec (skipWhitespace text cursor) (length text)) as [Hlt|Hge]; try lia.
  1,3: (eexists; split; [done|by apply reads_end]).
  destruct (parsePlainTextToolCallBlockAtAnySyntax _ _ _ _ _) as [b|] eqn:Eb.
  - pose proof (blockAt_any _ _ _ _ _ _ Eb) as Hb. pose proof (ba_end _ _ _ _ Hb) as He. pose proof (skipWhile_ge is_space_unit text (tb_end b)) as Hs.
    destruct (IH (tb_end b) (blocks ++ [b])) as (r & Hr & Hbs); [unfold skipWhitespace in *; lia|]. exists r. split; [done|]. intros bs. rewrite (Hbs bs). split.
    + intros (more & -> & Hne & Hm). exists (b :: more). rewrite <-app_assoc. split_and!; [done|by destruct blocks|]. by apply calls_more.
    + intros (more & -> & Hne & Hm). inversion Hm as [|? b' more' ? Eb' ? Hm']; subst; [lia|]. assert (b' = b) as -> by congruence.
      exists more'. rewrite <-app_assoc. by split_and!.
  - exists None. split; [done|]. intros bs. split; [done|]. intros (more & -> & Hne & Hm). inversion Hm; subst; [lia|congruence].
Qed.

End parse.

(** ** What is removed from a visible text *)

Section strip.
Context {A : Type} (safeParseJsonRecord : jsstr → option A) (ranges : list Span) (text : jsstr).

Abbreviation callEnd start := (removableEnd (ts_kind (visibleScan safeParseJsonRecord text start))).

Definition protectedAt (start : nat) : Prop := isOffsetInProtectedRanges start ranges = true.

(** Calls one behind another, with nothing but indentation between them. *)
Inductive Run : nat → nat → Prop :=
| run_one start e : callEnd start = Some e → Run start e
| run_more start m e : Run start m → ¬ protectedAt (skipLineIndentation text m) → callEnd (skipLineIndentation text m) = Some e → Run start e.

(** Behind a call: its line break, or the end of the text. *)
Definition behind (e : nat) : nat :=
  let lineEnd := skipLineIndentation text e in
  if lineEnd =? length text then lineEnd else default e (consumeLineBreak text lineEnd).

(** What may be cut out: the calls of a line that are not protected. *)
Definition Cut (a b : nat) : Prop :=
  isLineStart text a = true ∧ ¬ protectedAt (skipLineIndentation text a) ∧ ∃ e, Run (skipLineIndentation text a) e ∧ b = behind e.

Fixpoint CutsFrom (from : nat) (cuts : list (nat * nat)) : Prop :=
  match cuts with
  | [] => True
  | (a, b) :: cuts => from ≤ a ∧ a < b ≤ length text ∧ Cut a b ∧ CutsFrom b cuts
  end.

(** The text without the cuts. *)
Fixpoint keepOutside (from : nat) (cuts : list (nat * nat)) : jsstr :=
  match cuts with
  | [] => drop from text
  | (a, b) :: cuts => take (a - from) (drop from text) ++ keepOutside b cuts
  end.

Lemma callEnd_bounds start e : callEnd start = Some e → start < e ≤ length text.
Proof. apply scan_removable. Qed.

Lemma run_bounds start e : Run start e → start < e ≤ length text.
Proof.
  induction 1 as [start e He|start m e _ IH _ He]; apply callEnd_bounds in He; [done|].
  pose proof (skipWhile_ge (λ u, is_space_unit u && negb (u =? CR)%Z && negb (u =? LF)%Z) text m). unfold skipLineIndentation in *. lia.
Qed.

Lemma behind_bounds e : e ≤ length text → e ≤ behind e ≤ length text.
Proof.
  intros He. unfold behind. pose proof (skipWhile_ge (λ u, is_space_unit u && negb (u =? CR)%Z && negb (u =? LF)%Z) text e).
  pose proof (skipWhile_le (λ u, is_space_unit u && negb (u =? CR)%Z && negb (u =? LF)%Z) text e He). unfold skipLineIndentation.
  destruct (Nat.eqb_spec (skipWhile (λ u, is_space_unit u && negb (u =? CR)%Z && negb (u =? LF)%Z) text e) (length text)); [lia|].
  destruct (consumeLineBreak _ _) as [next|] eqn:Ec; cbn; [apply lineBreak_bounds in Ec; lia|lia].
Qed.

Lemma adjacent_run count : ∀ start e, Run start e → length text - e < count →
  ∃ e', adjacentBlocks safeParseJsonRecord ranges text count e = Some e' ∧ Run start e'.
Proof.
  induction count as [|count IH]; intros start e Hr Hc; [lia|]. cbn [adjacentBlocks]. pose proof (run_bounds _ _ Hr).
  destruct (isOffsetInProtectedRanges _ _) eqn:Ep; [by exists e|]. destruct (callEnd (skipLineIndentation text e)) as [e'|] eqn:Ee; [|by exists e].
  destruct (Nat.leb_spec e' e); [by exists e|]. apply IH; [|apply callEnd_bounds in Ee; lia]. eapply run_more; [exact Hr| |exact Ee]. unfold protectedAt. congruence.
Qed.

(** The first call from a position on: no line before it opens one, nor a malformed
    candidate that reaches over it. *)
Definition FirstCall (from index : nat) : Prop :=
  from ≤ index ∧ isLineStart text index = true ∧ ¬ protectedAt (skipLineIndentation text index) ∧ is_Some (callEnd (skipLineIndentation text index)) ∧
  ∀ j, from ≤ j < index → isLineStart text j = true → ¬ protectedAt (skipLineIndentation text j) →
    ∃ at_, ts_kind (visibleScan safeParseJsonRecord text (skipLineIndentation text j)) = ScanInvalid at_ ∧
           ts_next (visibleScan safeParseJsonRecord text (skipLineIndentation text j)) ≤ index.

(** The cuts from a position on, where a first call is the first cut. *)
Definition CutsOf (cursor index : nat) (r : option jsstr) : Prop :=
  ∃ cuts, r = Some (keepOutside cursor cuts) ∧ CutsFrom cursor cuts ∧ ∀ i, FirstCall index i → ∃ b more, cuts = (i, b) :: more.

Lemma firstCall_lt from index : FirstCall from index → index < length text.
Proof.
  intros (_ & _ & _ & [e He] & _). apply callEnd_bounds in He.
  pose proof (skipWhile_ge (λ u, is_space_unit u && negb (u =? CR)%Z && negb (u =? LF)%Z) text index). unfold skipLineIndentation in He. lia.
Qed.

Lemma cutsOf_mono cursor index index' r : (∀ i, FirstCall index i → FirstCall index' i) → CutsOf cursor index' r → CutsOf cursor index r.
Proof. intros Hi (cuts & Hr & Hc & Hf). exists cuts. split_and!; auto. Qed.

(** Past a position that opens no call. *)
Lemma cutsOf_skip cursor index next r : index < next →
  (isLineStart text index = true → ¬ protectedAt (skipLineIndentation text index) →
     callEnd (skipLineIndentation text index) = None ∧ next ≤ S index `max` ts_next (visibleScan safeParseJsonRecord text (skipLineIndentation text index))) →
  (next = S index ∨ isLineStart text index = true ∧ ¬ protectedAt (skipLineIndentation text index)) →
  CutsOf cursor next r → CutsOf cursor index r.
Proof.
  intros Hlt Hno Hcase. apply cutsOf_mono. intros i (Hi & Hl & Hp & [e He] & Hb). assert (index ≠ i) by (intros ->; destruct (Hno Hl Hp); congruence).
  assert (next ≤ i). { destruct Hcase as [->|[Hl' Hp']]; [lia|]. destruct (Hno Hl' Hp') as [_ Hn]. destruct (Hb index) as (? & _ & ?); [lia|done..|lia]. }
  split_and!; [done..|by exists e|]. intros j Hj. apply Hb. lia.
Qed.

Lemma cutsOf_here cursor index count e : (∀ next, index < next → length text - next ≤ count → CutsOf next next (stripLoop safeParseJsonRecord ranges text count next next)) →
  length text - index ≤ S count → cursor ≤ index → isLineStart text index = true → ¬ protectedAt (skipLineIndentation text index) → callEnd (skipLineIndentation text index) = Some e →
  CutsOf cursor index
    match adjacentBlocks safeParseJsonRecord ranges text (S (length text)) e with
    | None => None
    | Some blockEnd => rest ← stripLoop safeParseJsonRecord ranges text count (behind blockEnd) (behind blockEnd); Some (take (index - cursor) (drop cursor text) ++ rest)
    end.
Proof.
  intros IH Hc Hci Hl Hp He. pose proof (callEnd_bounds _ _ He) as Hb. destruct (adjacent_run (S (length text)) _ e (run_one _ _ He)) as (e' & -> & Hr); [lia|].
  pose proof (run_bounds _ _ Hr) as Hre. pose proof (behind_bounds e' (proj2 Hre)) as Hbe.
  pose proof (skipWhile_ge (λ u, is_space_unit u && negb (u =? CR)%Z && negb (u =? LF)%Z) text index) as Hsk. fold (skipLineIndentation text index) in Hsk.
  destruct (IH (behind e')) as (cuts & -> & Hcuts & _); [lia..|]. exists ((index, behind e') :: cuts). split_and!; [done| |].
  - cbn. split_and!; [done|lia|lia| |done]. split_and!; [done..|by exists e'].
  - intros i (Hi & _ & _ & _ & Hf). destruct (decide (index = i)) as [->|]; [by eexists _, _|].
    destruct (Hf index) as (at_ & Hk & _); [lia|done..|]. by rewrite Hk in He.
Qed.

Lemma strip_cuts count : ∀ cursor index, cursor ≤ index → length text - index ≤ count →
  CutsOf cursor index (stripLoop safeParseJsonRecord ranges text count cursor index).
Proof.
  induction count as [|count IH]; intros cursor index Hci Hc; cbn [stripLoop]; destruct (Nat.ltb_spec index (length text)) as [Hlt|]; try lia.
  1,3: (exists []; split_and!; [done..|]; intros i Hi; pose proof (firstCall_lt _ _ Hi); destruct Hi; lia).
  destruct (isLineStart text index) eqn:El; cbn [negb]; [|apply (cutsOf_skip _ _ (S index)); [lia|congruence|by left|apply IH; lia]].
  destruct (isOffsetInProtectedRanges _ _) eqn:Ep.
  { apply (cutsOf_skip _ _ (S index)); [lia|unfold protectedAt; congruence|by left|apply IH; lia]. }
  assert (Hp : ¬ protectedAt (skipLineIndentation text index)) by (unfold protectedAt; congruence).
  pose proof (λ e, cutsOf_here cursor index count e (λ next _, IH next next ltac:(lia)) ltac:(lia) Hci El Hp) as Hcut.
  assert (Hskip : ∀ next, index < next → callEnd (skipLineIndentation text index) = None →
    next ≤ S index `max` ts_next (visibleScan safeParseJsonRecord text (skipLineIndentation text index)) →
    CutsOf cursor next (stripLoop safeParseJsonRecord ranges text count cursor next) → CutsOf cursor index (stripLoop safeParseJsonRecord ranges text count cursor next)).
  { intros next Hn Hno Hle. apply cutsOf_skip; [done|by intros|by right]. }
  cbn zeta. destruct (ts_kind (visibleScan safeParseJsonRecord text (skipLineIndentation text index))) as [e|[e|]|at_] eqn:Ek; cbn [removableEnd] in *.
  - by apply (Hcut e).
  - by apply (Hcut e).
  - exists []. split_and!; [done..|]. intros i (Hi & _ & _ & Hs & Hf). destruct (decide (index = i)) as [<-|].
    + rewrite Ek in Hs. by destruct Hs.
    + destruct (Hf index) as (at_ & Hk & _); [lia|done..|congruence].
  - apply Hskip; [lia|done|lia|apply IH; lia].
Qed.

Lemma fastPath_first index : hasBracketName text || hasHarmonyHeader text || hasFunctionOpen text = false → ¬ FirstCall 0 index.
Proof.
  intros Hno Hf. pose proof (firstCall_lt _ _ Hf). destruct Hf as (_ & Hl & _ & [e He] & _). apply removable_openingAt in He.
  pose proof (opening_fast text index Hl ltac:(lia) He). congruence.
Qed.
End strip.

