(* ===== verification/ProtectionFastPath.v ===== *)
(** * Code fences while a text streams in

    Whether a candidate stands in a code region, decided from the fences alone
    ([packages/tool-call-repair/src/protection-fast-path.ts]): the state that is
    carried from text to text, and the answer for the line starts of the text that
    comes in.  The state gives up for good where it cannot tell; it never says
    more than the state of the whole text, and the answer at a line start is the
    fence in which that state leaves the line. *)
From S2P Require Import Prelude Utf16 Truncate ToolCallGrammar.
Local Open Scope nat_scope.

Definition BACKTICK : Z := 96.
Definition TILDE : Z := 126.
Definition SPACE : Z := 32.

Record ProtectionScanState := {
  ps_fenceChar : option Z;
  ps_fenceLength : nat;
  ps_paragraphAmbiguous : bool;
  ps_structuralUnknown : bool;
  ps_partialLine : jsstr
}.

Definition createProtectionScanState : ProtectionScanState :=
  {| ps_fenceChar := None; ps_fenceLength := 0; ps_paragraphAmbiguous := false; ps_structuralUnknown := false; ps_partialLine := [] |}.

Definition withFence (s : ProtectionScanState) (c : option Z) (n : nat) : ProtectionScanState :=
  {| ps_fenceChar := c; ps_fenceLength := n; ps_paragraphAmbiguous := ps_paragraphAmbiguous s; ps_structuralUnknown := ps_structuralUnknown s; ps_partialLine := ps_partialLine s |}.
Definition withAmbiguous (s : ProtectionScanState) (b : bool) : ProtectionScanState :=
  {| ps_fenceChar := ps_fenceChar s; ps_fenceLength := ps_fenceLength s; ps_paragraphAmbiguous := b; ps_structuralUnknown := ps_structuralUnknown s; ps_partialLine := ps_partialLine s |}.
Definition withUnknown (s : ProtectionScanState) : ProtectionScanState :=
  {| ps_fenceChar := ps_fenceChar s; ps_fenceLength := ps_fenceLength s; ps_paragraphAmbiguous := ps_paragraphAmbiguous s; ps_structuralUnknown := true; ps_partialLine := ps_partialLine s |}.
Definition withPartial (s : ProtectionScanState) (l : jsstr) : ProtectionScanState :=
  {| ps_fenceChar := ps_fenceChar s; ps_fenceLength := ps_fenceLength s; ps_paragraphAmbiguous := ps_paragraphAmbiguous s; ps_structuralUnknown := ps_structuralUnknown s; ps_partialLine := l |}.

(** ** Lines *)

(** [/^ {0,3}(`{3,}|~{3,})/]: the indentation, the delimiter and the length of its
    run. *)
Definition FENCE_OPEN (line : jsstr) : option (nat * Z * nat) :=
  let indent := prefixLen (Z.eqb SPACE) line in
  match drop indent line with
  | c :: _ =>
      let run := prefixLen (Z.eqb c) (drop indent line) in
      if (indent <=? 3) && ((c =? BACKTICK)%Z || (c =? TILDE)%Z) && (3 <=? run) then Some (indent, c, run) else None
  | [] => None
  end.

(** [/^ {0,3}(`{3,}|~{3,})[ \t]*$/] *)
Definition FENCE_CLOSE (line : jsstr) : option (Z * nat) :=
  '(indent, c, run) ← FENCE_OPEN line;
  if forallb isHorizontal (drop (indent + run) line) then Some (c, run) else None.

(** [/^[ \t]*$/] *)
Definition BLANK_LINE (line : jsstr) : bool := forallb isHorizontal line.

(** [/`{3,}|~{3,}/] *)
Definition UNCLASSIFIED_FENCE_DELIMITER (line : jsstr) : bool :=
  existsb (λ i, existsb (λ c, 3 <=? prefixLen (Z.eqb c) (drop i line)) [BACKTICK; TILDE]) (seq 0 (length line)).

(** [(?:\s|$)] *)
Definition spaceOrEnd (l : jsstr) : bool := match l with [] => true | u :: _ => is_space_unit u end.

(** [/^(?: {0,3}(?:>|[-*+](?:\s|$)|\d{1,9}[.)](?:\s|$))| {4,}| *\t)/] *)
Definition UNMODELED_BLOCK_START (line : jsstr) : bool :=
  let indent := prefixLen (Z.eqb SPACE) line in
  let rest := drop indent line in
  ((indent <=? 3) &&
     (match rest with
      | u :: r => (u =? 62)%Z || (((u =? 45)%Z || (u =? 42)%Z || (u =? 43)%Z) && spaceOrEnd r)
      | [] => false
      end ||
      (let digits := prefixLen (inRange 48 57) rest in
       inRange 1 9 (Z.of_nat digits) &&
       match drop digits rest with u :: r => ((u =? 46)%Z || (u =? 41)%Z) && spaceOrEnd r | [] => false end))) ||
  (4 <=? indent) ||
  match rest with u :: _ => (u =? 9)%Z | [] => false end.

Definition applyLine (s : ProtectionScanState) (line : jsstr) : ProtectionScanState :=
  if s.(ps_structuralUnknown) then s
  else match s.(ps_fenceChar) with
  | Some fence =>
      match FENCE_CLOSE line with
      | Some (c, run) => if (c =? fence)%Z && (s.(ps_fenceLength) <=? run) then withFence s None 0 else s
      | None => s
      end
  | None =>
      if BLANK_LINE line then withAmbiguous s false
      else match FENCE_OPEN line with
      | Some (indent, c, run) =>
          let infoString := drop (indent + run) line in
          if s.(ps_paragraphAmbiguous) || negb (indent + run =? run) || ((c =? BACKTICK)%Z && bool_decide (BACKTICK ∈ infoString))
          then withUnknown s
          else withFence s (Some (if (c =? TILDE)%Z then TILDE else BACKTICK)) run
      | None =>
          if UNCLASSIFIED_FENCE_DELIMITER line then withUnknown s
          else if bool_decide (BACKTICK ∈ line) || UNMODELED_BLOCK_START line then withAmbiguous s true
          else s
      end
  end.

(** [line.replace(/\r$/, '')] *)
Definition dropFinalCR (line : jsstr) : jsstr :=
  match last line with Some u => if (u =? CR)%Z then removelast line else line | None => line end.

(** [/\r(?!\n)/] *)
Fixpoint BARE_CARRIAGE_RETURN (text : jsstr) : bool :=
  match text with
  | [] => false
  | u :: r => ((u =? CR)%Z && negb (bool_decide (head r = Some LF))) || BARE_CARRIAGE_RETURN r
  end.

(** The text at its line feeds: the lines that one ends, and what follows the last. *)
Fixpoint splitLines (text : jsstr) : list jsstr * jsstr :=
  match text with
  | [] => ([], [])
  | u :: r =>
      let '(lines, rest) := splitLines r in
      if (u =? LF)%Z then ([] :: lines, rest)
      else match lines with
           | [] => ([], u :: rest)
           | line :: lines => ((u :: line) :: lines, rest)
           end
  end.

(** ** Text that comes in *)

Definition advanceProtectionScanState (s : ProtectionScanState) (text : jsstr) : ProtectionScanState :=
  match text with
  | [] => s
  | _ =>
      if BARE_CARRIAGE_RETURN text then withUnknown s
      else match splitLines text with
           | ([], _) => withPartial s (s.(ps_partialLine) ++ text)
           | (line :: lines, rest) =>
               withPartial (foldl (λ s line, applyLine s (dropFinalCR line)) (applyLine s (dropFinalCR (s.(ps_partialLine) ++ line))) lines) rest
           end
  end.

(** The line starts of the text from [lineStart] on with their verdicts, where
    [lines] and [rest] are what is left of it; [None] where a full parse is
    needed. *)
Fixpoint lineVerdicts (s : ProtectionScanState) (lineStart : nat) (lines : list jsstr) (rest : jsstr) : option (list (Z * bool)) :=
  let lineStartAbsolute := (Z.of_nat lineStart - Z.of_nat (length s.(ps_partialLine)))%Z in
  match lines with
  | [] =>
      match rest, s.(ps_partialLine) with
      | [], [] => Some []
      | _, _ => match s.(ps_fenceChar) with Some _ => Some [(lineStartAbsolute, true)] | None => None end
      end
  | line :: lines =>
      let whole := dropFinalCR (s.(ps_partialLine) ++ line) in
      let probe := applyLine s whole in
      here ← match s.(ps_fenceChar) with
             | Some _ => Some [(lineStartAbsolute, true)]
             | None =>
                 if probe.(ps_paragraphAmbiguous) || probe.(ps_structuralUnknown) then None
                 else match (match probe.(ps_fenceChar) with Some _ => FENCE_OPEN whole | None => None end) with
                      | Some (indent, _, _) => Some [(lineStartAbsolute, false); ((lineStartAbsolute + Z.of_nat indent)%Z, true)]
                      | None => Some [(lineStartAbsolute, false)]
                      end
             end;
      if probe.(ps_paragraphAmbiguous) || probe.(ps_structuralUnknown) then None
      else
        more ← lineVerdicts (withPartial probe []) (lineStart + length line + 1) lines rest;
        Some (here ++ more)
  end.

Definition resolveProtectionFastPath (carried : ProtectionScanState) (incoming : jsstr) : option (list (Z * bool)) :=
  if carried.(ps_paragraphAmbiguous) || carried.(ps_structuralUnknown) then None
  else if BARE_CARRIAGE_RETURN incoming then None
  else let '(lines, rest) := splitLines incoming in lineVerdicts carried 0 lines rest.

(** The function that is returned, with its cursor: the line starts ahead of it and
    the last verdict. *)
Record VerdictCursor := { vc_ahead : list (Z * bool); vc_isProtected : bool }.

Definition verdictCursor (lineStarts : list (Z * bool)) : VerdictCursor := {| vc_ahead := lineStarts; vc_isProtected := false |}.

Fixpoint advanceCursor (ahead : list (Z * bool)) (isProtected : bool) (offset : Z) : VerdictCursor :=
  match ahead with
  | (start, verdict) :: more => if (offset <? start)%Z then {| vc_ahead := ahead; vc_isProtected := isProtected |} else advanceCursor more verdict offset
  | [] => {| vc_ahead := []; vc_isProtected := isProtected |}
  end.

Definition askVerdict (c : VerdictCursor) (offset : Z) : VerdictCursor * bool :=
  let c := advanceCursor c.(vc_ahead) c.(vc_isProtected) offset in (c, c.(vc_isProtected)).

Definition askVerdicts (c : VerdictCursor) (offsets : list Z) : list bool :=
  (foldl (λ '(c, answers) offset, let '(c, answer) := askVerdict c offset in (c, answers ++ [answer])) (c, []) offsets).2.
