(* ===== verification/ProtectionFacts.v ===== *)
(** * What the tracker of code fences promises

    Texts that come in pieces leave the state of the whole text or none at all, and
    the answers at line starts are the fences of that state. *)
From Stdlib Require Import Sorted.
From S2P Require Import Prelude Utf16 Truncate ToolCallGrammar ProtectionFastPath.
Local Open Scope nat_scope.

(** ** Lines and their text *)

Definition endLine (line : jsstr) : jsstr := line ++ [LF].
Definition joinLines (lines : list jsstr) (rest : jsstr) : jsstr := mjoin (endLine <$> lines) ++ rest.

Lemma joinLines_cons line lines rest : joinLines (line :: lines) rest = line ++ LF :: joinLines lines rest.
Proof. unfold joinLines, endLine. cbn. by rewrite <-!app_assoc. Qed.

Lemma splitLines_join text : joinLines (splitLines text).1 (splitLines text).2 = text.
Proof.
  induction text as [|u r IH]; [done|]. cbn [splitLines]. destruct (splitLines r) as [lines rest]. cbn in IH.
  destruct (Z.eqb_spec u LF) as [->|]; [|destruct lines]; rewrite <-IH; unfold joinLines, endLine; cbn; by rewrite <-?app_assoc.
Qed.

(** What two texts leave, one behind the other. *)
Definition joinSplit (a b : list jsstr * jsstr) : list jsstr * jsstr :=
  match b.1 with
  | [] => (a.1, a.2 ++ b.2)
  | line :: lines => (a.1 ++ (a.2 ++ line) :: lines, b.2)
  end.

Lemma splitLines_app a b : splitLines (a ++ b) = joinSplit (splitLines a) (splitLines b).
Proof.
  unfold joinSplit. induction a as [|u r IH]; [cbn; by destruct (splitLines b) as [[|? ?] ?]|]. cbn [app splitLines]. rewrite IH.
  destruct (splitLines b) as [[|line' lines'] rest'], (splitLines r) as [lines rest]; cbn; destruct (u =? LF)%Z; try done; by destruct lines.
Qed.

Lemma splitLines_snoc text : splitLines (text ++ [LF]) = ((splitLines text).1 ++ [(splitLines text).2], []).
Proof. rewrite splitLines_app. unfold joinSplit. cbn. by rewrite app_nil_r. Qed.

Lemma bareReturn_app a b : BARE_CARRIAGE_RETURN a = false → BARE_CARRIAGE_RETURN (a ++ b) = BARE_CARRIAGE_RETURN b.
Proof.
  induction a as [|u r IH]; [done|]. cbn. intros [Hu Hr]%orb_false_iff. rewrite (IH Hr). destruct (u =? CR)%Z; [|done]. cbn in *.
  destruct r; cbn in *; [done|]. by rewrite Hu.
Qed.

(** A text up to a line feed is as good as the whole. *)
Lemma bareReturn_line a b : BARE_CARRIAGE_RETURN (a ++ LF :: b) = BARE_CARRIAGE_RETURN (a ++ [LF]) || BARE_CARRIAGE_RETURN b.
Proof.
  induction a as [|u r IH]; [done|]. cbn. rewrite IH, orb_assoc. by destruct r.
Qed.

(** ** The state *)

Lemma applyLine_partial s p line : applyLine (withPartial s p) line = withPartial (applyLine s line) p.
Proof. unfold applyLine. cbn. repeat case_match; done. Qed.

Lemma withPartial_twice s p q : withPartial (withPartial s p) q = withPartial s q.
Proof. done. Qed.

Lemma withPartial_same s : withPartial s (ps_partialLine s) = s.
Proof. by destruct s. Qed.

Lemma applyLine_keeps s line : ps_partialLine (applyLine s line) = ps_partialLine s.
Proof. unfold applyLine. repeat case_match; done. Qed.

Definition applyLines : ProtectionScanState → list jsstr → ProtectionScanState := foldl (λ s line, applyLine s (dropFinalCR line)).

Lemma applyLines_partial lines : ∀ s p, applyLines (withPartial s p) lines = withPartial (applyLines s lines) p.
Proof. induction lines as [|line lines IH]; [done|]. intros s p. cbn. rewrite applyLine_partial. apply IH. Qed.

Lemma applyLine_unknown s line : ps_structuralUnknown s = true → applyLine s line = s.
Proof. intros Hu. unfold applyLine. by rewrite Hu. Qed.

Lemma applyLines_unknown lines : ∀ s, ps_structuralUnknown s = true → applyLines s lines = s.
Proof. induction lines as [|line lines IH]; [done|]. intros s Hu. cbn. rewrite applyLine_unknown by done. by apply IH. Qed.

(** The state behind a text without bare carriage returns. *)
Lemma advance_lines s text : BARE_CARRIAGE_RETURN text = false → advanceProtectionScanState s text =
  match splitLines text with
  | ([], rest) => withPartial s (ps_partialLine s ++ rest)
  | (line :: lines, rest) => withPartial (applyLines (applyLine s (dropFinalCR (ps_partialLine s ++ line))) lines) rest
  end.
Proof.
  intros Hb. unfold advanceProtectionScanState. destruct text as [|u r]; [cbn; rewrite app_nil_r; by destruct s|]. rewrite Hb.
  pose proof (splitLines_join (u :: r)) as Hj. destruct (splitLines (u :: r)) as [[|line lines] rest]; [|done]. cbn in Hj. by rewrite Hj.
Qed.

Lemma advance_unknown s text : ps_structuralUnknown s = true → ps_structuralUnknown (advanceProtectionScanState s text) = true.
Proof.
  intros Hu. destruct (BARE_CARRIAGE_RETURN text) eqn:Hb; [unfold advanceProtectionScanState; rewrite Hb; by destruct text|].
  rewrite advance_lines by done. destruct (splitLines text) as [[|line lines] rest]; [done|]. rewrite applyLine_unknown, applyLines_unknown by done. done.
Qed.

Lemma advance_bare s text : BARE_CARRIAGE_RETURN text = true → ps_structuralUnknown (advanceProtectionScanState s text) = true.
Proof. intros Hb. unfold advanceProtectionScanState. rewrite Hb. by destruct text. Qed.

(** Two texts are one. *)
Lemma advance_app s a b : BARE_CARRIAGE_RETURN a = false → BARE_CARRIAGE_RETURN b = false →
  advanceProtectionScanState (advanceProtectionScanState s a) b = advanceProtectionScanState s (a ++ b).
Proof.
  intros Ha Hb. rewrite !advance_lines; [|by rewrite ?bareReturn_app..]. rewrite splitLines_app. unfold joinSplit.
  destruct (splitLines b) as [[|line' lines'] rest'], (splitLines a) as [[|line lines] rest]; cbn [fst snd app withPartial ps_partialLine].
  - by rewrite app_assoc.
  - done.
  - rewrite !applyLine_partial, !applyLines_partial. by rewrite <-app_assoc.
  - unfold applyLines. rewrite !foldl_app. cbn [foldl]. fold applyLines. rewrite !applyLine_partial.
    by rewrite applyLines_partial, withPartial_twice.
Qed.

(** C34: however a text comes in, the carried state has either given up on it for
    good or is the state of the whole text. *)
Theorem chunks_leave_whole_state_or_none (s : ProtectionScanState) (chunks : list jsstr) :
  ps_structuralUnknown (foldl advanceProtectionScanState s chunks) = true ∨
  foldl advanceProtectionScanState s chunks = advanceProtectionScanState s (mjoin chunks).
Proof.
  revert s. induction chunks as [|c chunks IH]; intros s; [by right|]. cbn [foldl]. destruct (IH (advanceProtectionScanState s c)) as [Hu|Hs]; [by left|].
  rewrite Hs. destruct (BARE_CARRIAGE_RETURN c) eqn:Hc; [left; by apply advance_unknown, advance_bare|].
  destruct (BARE_CARRIAGE_RETURN (mjoin chunks)) eqn:Hm; [left; by apply advance_bare|]. right. by apply advance_app.
Qed.

(** ** The answers *)

(** Whether a line is in a code region: a fence is open, or the line opens one. *)
Definition fencedAt (s : ProtectionScanState) (line : jsstr) : bool := bool_decide (is_Some (ps_fenceChar s)) || bool_decide (is_Some (FENCE_OPEN line)).

(** The line that begins a text. *)
Definition headLine (lines : list jsstr) (rest : jsstr) : jsstr := dropFinalCR (default rest (head lines)).

(** The state behind lines that continue the one that is carried. *)
Definition linesFrom (s : ProtectionScanState) (lines : list jsstr) : ProtectionScanState :=
  match lines with [] => s | line :: lines => applyLines (applyLine s (dropFinalCR (ps_partialLine s ++ line))) lines end.

Lemma fenced_partial s p line : fencedAt (withPartial s p) line = fencedAt s line.
Proof. done. Qed.

Lemma linesFrom_fresh s lines : linesFrom (withPartial s []) lines = withPartial (applyLines s lines) [].
Proof. destruct lines as [|line lines]; [done|]. cbn. by rewrite applyLine_partial, applyLines_partial. Qed.

Lemma fence_not_blank line x : FENCE_OPEN line = Some x → BLANK_LINE line = false.
Proof.
  unfold FENCE_OPEN. destruct (drop _ line) as [|c r] eqn:Ed; [done|]. destruct (_ && _ && _) eqn:Ec; [|done]. intros _.
  destruct (BLANK_LINE line) eqn:Eb; [|done]. exfalso. unfold BLANK_LINE in Eb. rewrite forallb_forall in Eb.
  assert (Hc : isHorizontal c = true). { apply Eb. rewrite <-(take_drop (prefixLen (Z.eqb SPACE) line) line), Ed. apply in_or_app. right. by left. }
  apply andb_true_iff in Ec as [Ec _]. apply andb_true_iff in Ec as [_ Ec]. apply orb_true_iff in Ec as [->%Z.eqb_eq| ->%Z.eqb_eq]; done.
Qed.

(** A fence that is told apart opens at the start of its line. *)
Lemma probe_fenced s line indent c n : ps_fenceChar s = None → ps_structuralUnknown s = false → ps_structuralUnknown (applyLine s line) = false →
  FENCE_OPEN line = Some (indent, c, n) → is_Some (ps_fenceChar (applyLine s line)) ∧ indent = 0.
Proof.
  unfold applyLine. intros -> Hu. rewrite Hu. intros Ha Hf. rewrite (fence_not_blank _ _ Hf), Hf in *.
  destruct (ps_paragraphAmbiguous s); [done|]. destruct (Nat.eqb_spec (indent + n) n); [|done]. cbn [negb orb] in *. destruct (_ && _); [done|]. split; [by eexists|lia].
Qed.

(** The entries of one line, and what is left of them. *)
Lemma verdicts_line s from line lines rest starts : lineVerdicts s from (line :: lines) rest = Some starts → ps_structuralUnknown s = false →
  let probe := applyLine s (dropFinalCR (ps_partialLine s ++ line)) in
  ps_structuralUnknown probe = false ∧ ∃ more, lineVerdicts (withPartial probe []) (from + length line + 1) lines rest = Some more ∧
  ∀ p offset, (Z.of_nat from - Z.of_nat (length (ps_partialLine s)) ≤ offset)%Z →
    advanceCursor starts p offset = advanceCursor more (fencedAt s (dropFinalCR (ps_partialLine s ++ line))) offset.
Proof.
  intros Hv Hu. cbn zeta. cbn [lineVerdicts] in Hv. set (whole := dropFinalCR _) in *.
  destruct (ps_paragraphAmbiguous (applyLine s whole) || ps_structuralUnknown (applyLine s whole)) eqn:Ep.
  { exfalso. destruct (ps_fenceChar s); [done|]. done. }
  apply orb_false_iff in Ep as [_ Ep]. split; [done|]. unfold fencedAt.
  destruct (ps_fenceChar s) as [fence|] eqn:Ef.
  - cbn in Hv. destruct (lineVerdicts _ _ lines rest) as [more|]; [|done]. injection Hv as <-. exists more. split; [done|]. intros p offset Ho.
    cbn. destruct (Z.ltb_spec offset (Z.of_nat from - Z.of_nat (length (ps_partialLine s)))%Z); [lia|done].
  - destruct (FENCE_OPEN whole) as [[[indent c] n]|] eqn:Eo.
    + destruct (probe_fenced _ _ _ _ _ Ef Hu Ep Eo) as [[f Hf] ->]. rewrite Hf in Hv. cbn in Hv.
      destruct (lineVerdicts _ _ lines rest) as [more|]; [|done]. injection Hv as <-. exists more. split; [done|]. intros p offset Ho. cbn.
      rewrite Z.add_0_r. by destruct (Z.ltb_spec offset (Z.of_nat from - Z.of_nat (length (ps_partialLine s)))%Z); [lia|].
    + assert (Hn : match ps_fenceChar (applyLine s whole) with Some _ => @None (nat * Z * nat) | None => None end = None) by (by destruct (ps_fenceChar (applyLine s whole))).
      rewrite Hn in Hv. cbn in Hv. destruct (lineVerdicts _ _ lines rest) as [more|]; [|done]. injection Hv as <-. exists more. split; [done|]. intros p offset Ho. cbn.
      by destruct (Z.ltb_spec offset (Z.of_nat from - Z.of_nat (length (ps_partialLine s)))%Z); [lia|].
Qed.

(** What is still ahead of a line does not change its answer. *)
Lemma verdicts_ahead s from lines rest starts p offset : lineVerdicts s from lines rest = Some starts →
  (offset < Z.of_nat from - Z.of_nat (length (ps_partialLine s)))%Z → vc_isProtected (advanceCursor starts p offset) = p.
Proof.
  intros Hv Ho. assert (starts = [] ∨ ∃ v more, starts = ((Z.of_nat from - Z.of_nat (length (ps_partialLine s)))%Z, v) :: more) as [->|(v & more & ->)]; [|done|].
  { destruct lines as [|line lines]; cbn in Hv.
    - destruct rest, (ps_partialLine s), (ps_fenceChar s); simplify_eq; eauto.
    - destruct (ps_fenceChar s); cbn in Hv; [destruct (_ || _); [done|]|destruct (_ || _); [done|]; destruct (match ps_fenceChar (applyLine _ _) with Some _ => _ | None => _ end) as [[[? ?] ?]|]; cbn in Hv];
        (destruct (lineVerdicts _ _ lines rest); [|done]; injection Hv as <-; right; by eexists _, _). }
  cbn. destruct (Z.ltb_spec offset (Z.of_nat from - Z.of_nat (length (ps_partialLine s)))%Z); [done|lia].
Qed.

Lemma verdicts_at l1 : ∀ s from l2 rest starts p, lineVerdicts s from (l1 ++ l2) rest = Some starts → ps_structuralUnknown s = false →
  (l2 ≠ [] ∨ rest ≠ []) → (l1 ≠ [] ∨ ps_partialLine s = []) →
  vc_isProtected (advanceCursor starts p (Z.of_nat (from + length (joinLines l1 [])))) = fencedAt (linesFrom s l1) (headLine l2 rest).
Proof.
  induction l1 as [|line l1 IH]; intros s from l2 rest starts p Hv Hu Hne Hp.
  - destruct Hp as [|Hp]; [done|]. cbn [app linesFrom joinLines mjoin length] in *. change (length (joinLines [] [])) with 0. rewrite Nat.add_0_r.
    destruct l2 as [|line l2].
    + destruct Hne as [|Hne]; [done|]. cbn in Hv. rewrite Hp in Hv. destruct rest; [done|]. unfold fencedAt. destruct (ps_fenceChar s); [|done]. injection Hv as <-.
      cbn. rewrite Z.sub_0_r, Z.ltb_irrefl. done.
    + destruct (verdicts_line _ _ _ _ _ _ Hv Hu) as (_ & more & Hm & Ha). rewrite Hp in *. rewrite Ha by (cbn; lia). cbn [app]. eapply verdicts_ahead; [exact Hm|]. cbn. lia.
  - destruct (verdicts_line _ _ _ _ _ _ Hv Hu) as (Hu' & more & Hm & Ha). fold (app (A:=jsstr)) in Hm.
    assert (Hl : from + length (joinLines (line :: l1) []) = from + length line + 1 + length (joinLines l1 [])).
    { rewrite joinLines_cons, length_app. cbn [length]. lia. }
    rewrite Ha by lia. rewrite Hl, (IH _ _ _ _ _ _ Hm); [|done..|by right]. by rewrite linesFrom_fresh, fenced_partial.
Qed.

Lemma headLine_at text lines rest : splitLines text = (lines, rest) → text ≠ [] → lines ≠ [] ∨ rest ≠ [].
Proof. intros Hs Hne. pose proof (splitLines_join text) as Hj. rewrite Hs in Hj. destruct lines, rest; [by cbn in Hj|by right|by left|by left]. Qed.

(** The state that the text before a line leaves. *)
Lemma advance_before s before : BARE_CARRIAGE_RETURN (before ++ [LF]) = false →
  advanceProtectionScanState s (before ++ [LF]) = withPartial (linesFrom s ((splitLines before).1 ++ [(splitLines before).2])) [].
Proof.
  intros Hb. rewrite advance_lines, splitLines_snoc by done. unfold linesFrom. by destruct (splitLines before) as [[|line lines] rest].
Qed.

(** Where a line of the text that comes in starts. *)
Definition LineStartIn (carried : ProtectionScanState) (incoming : jsstr) (offset : nat) : Prop :=
  offset < length incoming ∧ if offset is S before then incoming !! before = Some LF else ps_partialLine carried = [].

Definition lineAt (incoming : jsstr) (offset : nat) : jsstr := let '(lines, rest) := splitLines (drop offset incoming) in headLine lines rest.

Lemma fast_path_at carried incoming starts offset p : resolveProtectionFastPath carried incoming = Some starts → LineStartIn carried incoming offset →
  vc_isProtected (advanceCursor starts p (Z.of_nat offset)) = fencedAt (advanceProtectionScanState carried (take offset incoming)) (lineAt incoming offset).
Proof.
  unfold resolveProtectionFastPath. destruct (ps_paragraphAmbiguous carried || ps_structuralUnknown carried) eqn:Eu; [done|]. apply orb_false_iff in Eu as [_ Eu].
  destruct (BARE_CARRIAGE_RETURN incoming) eqn:Eb; [done|]. intros Hv [Hlt Hs]. unfold lineAt. destruct offset as [|before].
  - rewrite drop_0, take_0. destruct (splitLines incoming) as [lines rest] eqn:El. apply headLine_at in El; [|intros ->; cbn in Hlt; lia].
    exact (verdicts_at [] _ _ _ _ _ p Hv Eu El (or_intror Hs)).
  - rewrite <-(take_drop_middle _ _ _ Hs) in Eb. rewrite bareReturn_line in Eb. apply orb_false_iff in Eb as [Eb _].
    rewrite (take_S_r _ _ _ Hs), advance_before by done. rewrite fenced_partial.
    destruct (splitLines (drop (S before) incoming)) as [lines rest] eqn:El. pose proof El as Hne. apply headLine_at in Hne; [|intros Hd%(f_equal length); rewrite length_drop in Hd; cbn in Hd; lia].
    set (l1 := (splitLines (take before incoming)).1 ++ [(splitLines (take before incoming)).2]).
    assert (Hl : splitLines incoming = (l1 ++ lines, rest)).
    { rewrite <-(take_drop (S before) incoming), (take_S_r _ _ _ Hs), splitLines_app, splitLines_snoc, El. unfold joinSplit. cbn. by destruct lines; rewrite ?app_nil_r. }
    rewrite Hl in Hv. assert (Hj : length (joinLines l1 []) = S before).
    { pose proof (splitLines_join (take before incoming ++ [LF])) as Hj. rewrite splitLines_snoc in Hj. cbn [fst snd] in Hj. fold l1 in Hj. rewrite Hj, length_app, length_take. cbn. lia. }
    rewrite <-Hj. change (length (joinLines l1 [])) with (0 + length (joinLines l1 [])).
    apply (verdicts_at _ _ _ _ _ _ _ Hv Eu Hne). left. unfold l1. by destruct (splitLines (take before incoming)).1.
Qed.

(** ** The cursor *)

Lemma cursor_again ahead : ∀ p a b, (a ≤ b)%Z → let c := advanceCursor ahead p a in advanceCursor (vc_ahead c) (vc_isProtected c) b = advanceCursor ahead p b.
Proof.
  induction ahead as [|[start v] more IH]; intros p a b Hab; [done|]. cbn. destruct (Z.ltb_spec a start); [done|]. destruct (Z.ltb_spec b start); [lia|]. by apply IH.
Qed.

Lemma cursor_answers offsets : ∀ ahead p last answers, Forall (λ o, (last ≤ o)%Z) offsets → StronglySorted Z.le offsets →
  (foldl (λ '(c, answers) offset, let '(c, answer) := askVerdict c offset in (c, answers ++ [answer])) (advanceCursor ahead p last, answers) offsets).2 =
  answers ++ ((λ o, vc_isProtected (advanceCursor ahead p o)) <$> offsets).
Proof.
  induction offsets as [|o offsets IH]; intros ahead p last answers Hl Hs; [by rewrite app_nil_r|]. inversion Hl; subst. inversion Hs; subst.
  cbn [foldl]. cbn [askVerdict]. unfold askVerdict. rewrite cursor_again by done. rewrite IH by done. by rewrite <-app_assoc.
Qed.

Lemma cursor_is_lookup starts offsets : StronglySorted Z.le offsets →
  askVerdicts (verdictCursor starts) offsets = (λ o, vc_isProtected (advanceCursor starts false o)) <$> offsets.
Proof.
  intros Hs. destruct offsets as [|o offsets]; [done|]. inversion Hs; subst. unfold askVerdicts. cbn [foldl]. unfold askVerdict at 2. cbn [verdictCursor vc_ahead vc_isProtected].
  by rewrite cursor_answers.
Qed.

(** C33: when the fast path answers, then at the line starts of the text that comes
    in, asked from left to right, it says whether a fence is open in the state that
    all the text before the line leaves, or the line opens one. *)
Theorem fast_path_answers_fences (carried : ProtectionScanState) (incoming : jsstr) (starts : list (Z * bool)) (offsets : list nat)
    (Hr : resolveProtectionFastPath carried incoming = Some starts) (Ho : Forall (LineStartIn carried incoming) offsets) (Hs : StronglySorted Z.le (Z.of_nat <$> offsets)) :
  askVerdicts (verdictCursor starts) (Z.of_nat <$> offsets) =
  (λ offset, fencedAt (advanceProtectionScanState carried (take offset incoming)) (lineAt incoming offset)) <$> offsets.
Proof.
  rewrite cursor_is_lookup by done. rewrite <-list_fmap_compose. clear Hs. induction Ho as [|o offsets Hl _ IH]; [done|]. rewrite !fmap_cons, IH. f_equal.
  by apply fast_path_at.
Qed.

Definition fencedText : jsstr := lit "```" ++ [LF] ++ lit "[read]" ++ [LF] ++ lit "```" ++ [LF] ++ lit "[read]" ++ [LF].

Lemma fast_path_answers_fences_witness : ∃ starts, resolveProtectionFastPath createProtectionScanState fencedText = Some starts ∧
  askVerdicts (verdictCursor starts) [0; 4; 11; 15]%Z = [true; true; true; false].
Proof.
  eexists. split; [vm_compute; reflexivity|].
  refine (eq_trans (fast_path_answers_fences createProtectionScanState fencedText _ [0; 4; 11; 15] _ _ _) _).
  - vm_compute. reflexivity.
  - repeat constructor; cbn; lia.
  - repeat constructor; cbn; lia.
  - vm_compute. reflexivity.
Defined.
