(* ===== verification/ToolCallPromote.v ===== *)
(** * Promoting tool calls written as text

    An answer whose text is nothing but calls becomes one that makes these calls
    ([packages/tool-call-repair/src/promote.ts]).  Blocks carry the fields that the
    code reads; the rest of a block is a type, and the other fields of a message are
    left as they are.  The events carry the message too, which is the same for all.
    The factory of a call gets the number of calls made before it, for the
    identifiers that it draws. *)
From S2P Require Import Prelude Utf16 Truncate ToolCallGrammar ToolCallPayload.
Local Open Scope nat_scope.

(** The fields of a content block; [None] for one that is no string. *)
Record ContentRecord {R : Type} := { cr_type : option jsstr; cr_text : option jsstr; cr_partialArgs : option jsstr; cr_rest : R }.
Arguments ContentRecord : clear implicits.

Section promote.
Context {A R : Type} (safeParseJsonRecord : jsstr → option A).

(** A block of the content, [None] if it is no record. *)
Inductive PromotionContent := PromotionText (text : jsstr) | PromotionBlocks (blocks : list (option (ContentRecord R))) | PromotionOther.

Record PromotionMessage := { pm_role : option jsstr; pm_stopReason : option jsstr; pm_content : PromotionContent }.

Record PromotionOptions := {
  pr_allowedStopReasons : option (list (option jsstr));
  pr_allowedToolNames : list jsstr;
  pr_createToolCallBlock : nat → ToolCallBlock (A:=A) → jsstr → ContentRecord R;
  pr_isRetainableNonTextBlock : option (ContentRecord R → bool);
  pr_requireAssistantRole : bool;
  pr_resolveProtectedRanges : option (jsstr → list Span);
  pr_resolveToolName : option (jsstr → list jsstr → option jsstr)
}.

(** The message with its new content and stop reason, and where kept blocks went. *)
Record MessageProjection := {
  mp_role : option jsstr;
  mp_stopReason : option jsstr;
  mp_content : list (ContentRecord R);
  mp_sourceToProjected : list (nat * nat)
}.

Definition resolveExactToolName (rawName : jsstr) (allowedToolNames : list jsstr) : option jsstr :=
  if bool_decide (rawName ∈ allowedToolNames) then Some rawName else None.

(** [options.resolveToolName ?? resolveExactToolName], and no name is empty. *)
Definition resolveName (o : PromotionOptions) (rawName : jsstr) : option jsstr :=
  name ← default resolveExactToolName o.(pr_resolveToolName) rawName o.(pr_allowedToolNames);
  if bool_decide (name = []) then None else Some name.

(** The loop over the parsed calls, after [made] calls of the message. *)
Fixpoint createBlocks (o : PromotionOptions) (made : nat) (parsed : list (ToolCallBlock (A:=A))) : option (list (ContentRecord R)) :=
  match parsed with
  | [] => Some []
  | block :: parsed =>
      name ← resolveName o block.(tb_name);
      let call := o.(pr_createToolCallBlock) made block name in
      calls ← createBlocks o (S made) parsed;
      Some (call :: calls)
  end.

Definition rangesOf (o : PromotionOptions) (text : jsstr) : list Span := match o.(pr_resolveProtectedRanges) with Some resolve => resolve text | None => [] end.

Definition createPromotedToolCallBlocks (o : PromotionOptions) (made : nat) (text : jsstr) (breaks : nat → bool) : option (list (ContentRecord R)) :=
  match parseStandalonePlainTextToolCallBlocks safeParseJsonRecord {| po_allowedToolNames := None; po_maxPayloadBytes := None |} breaks text with
  | Some (Some parsedBlocks) =>
      if existsb (λ block, isOffsetInProtectedRanges block.(tb_start) (rangesOf o text)) parsedBlocks then None
      else createBlocks o made parsedBlocks
  | _ => None
  end.

(** The ends of all parts but the last. *)
Fixpoint partEnds (offset : nat) (parts : list jsstr) : list nat :=
  match parts with
  | part :: (_ :: _) as more => offset + length part :: partEnds (offset + length part) more
  | _ => []
  end.

Definition lineBreakOffsets (parts : list jsstr) (offset : nat) : bool :=
  bool_decide (offset ∈ partEnds 0 parts) && negb (offset =? length (mjoin parts)).

Definition createPromotedToolCallBlocksFromTextParts (o : PromotionOptions) (made : nat) (textParts : list jsstr) : option (list (ContentRecord R)) :=
  let text := mjoin textParts in
  if forallb is_space_unit text then Some []
  else createPromotedToolCallBlocks o made text (lineBreakOffsets textParts).

(** The walk over the content blocks. *)
Record Projecting := {
  pj_content : list (ContentRecord R);
  pj_map : list (nat * nat);
  pj_made : nat;
  pj_textParts : list jsstr
}.

Definition flushTextParts (o : PromotionOptions) (p : Projecting) : option Projecting :=
  toolCalls ← createPromotedToolCallBlocksFromTextParts o p.(pj_made) p.(pj_textParts);
  Some {| pj_content := p.(pj_content) ++ toolCalls; pj_map := p.(pj_map); pj_made := p.(pj_made) + length toolCalls; pj_textParts := [] |}.

Definition isRetainable (o : PromotionOptions) (block : ContentRecord R) : bool :=
  match o.(pr_isRetainableNonTextBlock) with Some f => f block | None => false end.

Definition projectBlock (o : PromotionOptions) (sourceIndex : nat) (block : option (ContentRecord R)) (p : Projecting) : option Projecting :=
  blockRecord ← block;
  if bool_decide (blockRecord.(cr_type) = Some (lit "text")) then
    text ← blockRecord.(cr_text);
    Some {| pj_content := p.(pj_content); pj_map := p.(pj_map); pj_made := p.(pj_made); pj_textParts := p.(pj_textParts) ++ [text] |}
  else
    p ← flushTextParts o p;
    if isRetainable o blockRecord then
      Some {| pj_content := p.(pj_content) ++ [blockRecord]; pj_map := p.(pj_map) ++ [(sourceIndex, length p.(pj_content))]; pj_made := p.(pj_made); pj_textParts := p.(pj_textParts) |}
    else None.

Fixpoint projectBlocks (o : PromotionOptions) (sourceIndex : nat) (blocks : list (option (ContentRecord R))) (p : Projecting) : option Projecting :=
  match blocks with
  | [] => flushTextParts o p
  | block :: blocks => p ← projectBlock o sourceIndex block p; projectBlocks o (S sourceIndex) blocks p
  end.

Definition startProjecting : Projecting := {| pj_content := []; pj_map := []; pj_made := 0; pj_textParts := [] |}.

(** [message] is [None] if it is no record. *)
Definition projectStandalonePlainTextToolCallMessage (o : PromotionOptions) (message : option PromotionMessage) : option MessageProjection :=
  messageRecord ← message;
  if (length o.(pr_allowedToolNames) =? 0) ||
     (o.(pr_requireAssistantRole) && negb (bool_decide (messageRecord.(pm_role) = Some (lit "assistant")))) ||
     match o.(pr_allowedStopReasons) with Some reasons => negb (bool_decide (messageRecord.(pm_stopReason) ∈ reasons)) | None => false end
  then None
  else
    let projection content map := Some {| mp_role := messageRecord.(pm_role); mp_stopReason := Some (lit "toolUse"); mp_content := content; mp_sourceToProjected := map |} in
    match messageRecord.(pm_content) with
    | PromotionText text => toolCalls ← createPromotedToolCallBlocks o 0 text noBreaks; projection toolCalls []
    | PromotionBlocks blocks =>
        p ← projectBlocks o 0 blocks startProjecting;
        if p.(pj_made) =? 0 then None else projection p.(pj_content) p.(pj_map)
    | PromotionOther => None
    end.

(** ** The events of the promoted calls *)

Inductive PromotionEvent :=
| ToolCallStart (contentIndex : nat)
| ToolCallDelta (contentIndex : nat) (delta : jsstr)
| ToolCallEnd (contentIndex : nat) (toolCall : ContentRecord R).

Definition blockEvents (contentIndex : nat) (block : option (ContentRecord R)) : list PromotionEvent :=
  match block with
  | Some toolCall =>
      if bool_decide (toolCall.(cr_type) = Some (lit "toolCall")) then
        [ToolCallStart contentIndex; ToolCallDelta contentIndex (default (lit "{}") toolCall.(cr_partialArgs)); ToolCallEnd contentIndex toolCall]
      else []
  | None => []
  end.

Definition createPromotedPlainTextToolCallEvents (content : PromotionContent) : list PromotionEvent :=
  match content with PromotionBlocks blocks => mjoin (imap blockEvents blocks) | _ => [] end.
End promote.
Arguments PromotionMessage : clear implicits.
Arguments PromotionOptions : clear implicits.
Arguments MessageProjection : clear implicits.
Arguments PromotionContent : clear implicits.
