(* ===== verification/ToolCallPromises.v ===== *)
(** * What promoting calls promises

    A message is promoted exactly if it is eligible and each run of its texts is
    blank or nothing but calls that may be made; the calls take the place of the
    run, and every kept block is found where the map says. *)
From S2P Require Import Prelude Utf16 Truncate ToolCallGrammar ToolCallPayload ToolCallFacts ToolCallRepair ToolCallPromote.
Local Open Scope nat_scope.

Section promises.
Context {A R : Type} (safeParseJsonRecord : jsstr → option A) (o : PromotionOptions A R).

Abbreviation anyTool := {| po_allowedToolNames := None; po_maxPayloadBytes := None |}.

(** The text is calls whose names resolve, none of them protected; they are made in
    order. *)
Definition CallsMade (made : nat) (text : jsstr) (breaks : nat → bool) (calls : list (ContentRecord R)) : Prop :=
  ∃ blocks names, blocks ≠ [] ∧ CallsFrom safeParseJsonRecord anyTool breaks text 0 blocks ∧
    Forall (λ b, ¬ protectedAt (rangesOf o text) (tb_start b)) blocks ∧
    Forall2 (λ b name, resolveName o (tb_name b) = Some name) blocks names ∧
    calls = imap (λ i '(b, name), pr_createToolCallBlock o (made + i) b name) (zip blocks names).

(** The calls of a run of texts. *)
Definition RunCalls (made : nat) (texts : list jsstr) (calls : list (ContentRecord R)) : Prop :=
  if forallb is_space_unit (mjoin texts) then calls = [] else CallsMade made (mjoin texts) (lineBreakOffsets texts) calls.

(** From block [i] on, with the texts of the run before it, after [made] calls and
    [at_] blocks of the new content: the rest of the content, where its kept blocks
    went, and how many calls there are in all. *)
Inductive Projects : list jsstr → nat → nat → nat → list (option (ContentRecord R)) → list (ContentRecord R) → list (nat * nat) → nat → Prop :=
| projects_end texts i made at_ calls : RunCalls made texts calls → Projects texts i made at_ [] calls [] (made + length calls)
| projects_text texts i made at_ b text blocks content map total : cr_type b = Some (lit "text") → cr_text b = Some text →
    Projects (texts ++ [text]) (S i) made at_ blocks content map total → Projects texts i made at_ (Some b :: blocks) content map total
| projects_kept texts i made at_ b calls blocks content map total : cr_type b ≠ Some (lit "text") → isRetainable o b = true → RunCalls made texts calls →
    Projects [] (S i) (made + length calls) (S (at_ + length calls)) blocks content map total →
    Projects texts i made at_ (Some b :: blocks) (calls ++ b :: content) ((i, at_ + length calls) :: map) total.

Lemma createBlocks_spec blocks : ∀ made calls, createBlocks o made blocks = Some calls ↔
  ∃ names, Forall2 (λ b name, resolveName o (tb_name b) = Some name) blocks names ∧
    calls = imap (λ i '(b, name), pr_createToolCallBlock o (made + i) b name) (zip blocks names).
Proof.
  induction blocks as [|b blocks IH]; intros made calls; cbn [createBlocks].
  - split; [intros [= <-]; by exists []|]. intros (names & Hn & ->). by inversion Hn.
  - assert (Hs : ∀ names, imap ((λ i '(b, name), pr_createToolCallBlock o (made + i) b name) ∘ S) (zip blocks names) =
      imap (λ i '(b, name), pr_createToolCallBlock o (S made + i) b name) (zip blocks names)).
    { intros names. apply imap_ext. intros i [b' n'] _. cbn. by rewrite Nat.add_succ_r. }
    split.
    + destruct (resolveName o (tb_name b)) as [name|] eqn:En; [|done]. cbn. destruct (createBlocks o (S made) blocks) as [more|] eqn:Em; [|done]. intros [= <-].
      apply IH in Em as (names & Hn & ->). exists (name :: names). split; [by constructor|]. cbn. by rewrite Nat.add_0_r, Hs.
    + intros (names & Hn & ->). inversion Hn as [|? name ? names' Hb Hn']; subst. rewrite Hb. cbn.
      rewrite (proj2 (IH (S made) (imap (λ i '(b, name), pr_createToolCallBlock o (S made + i) b name) (zip blocks names')))); [|by exists names']. by rewrite Nat.add_0_r, Hs.
Qed.

Lemma created_spec made text breaks calls : createPromotedToolCallBlocks safeParseJsonRecord o made text breaks = Some calls ↔ CallsMade made text breaks calls.
Proof.
  unfold createPromotedToolCallBlocks, parseStandalonePlainTextToolCallBlocks, CallsMade.
  destruct (parseBlocks_spec safeParseJsonRecord anyTool breaks text (length text) 0 []) as (r & -> & Hr); [lia|].
  assert (Hpr : ∀ blocks : list (ToolCallBlock (A:=A)), existsb (λ b, isOffsetInProtectedRanges (tb_start b) (rangesOf o text)) blocks = false ↔
    Forall (λ b, ¬ protectedAt (rangesOf o text) (tb_start b)) blocks).
  { unfold protectedAt. induction blocks as [|b blocks IH]; cbn; [done|]. rewrite Forall_cons, <-IH. destruct (isOffsetInProtectedRanges _ _); cbn; intuition congruence. }
  split.
  - destruct r as [blocks|]; [|done]. destruct (existsb _ blocks) eqn:Ep; [done|]. intros (names & Hn & ->)%createBlocks_spec.
    destruct (proj1 (Hr blocks) eq_refl) as (more & -> & Hne & Hm). exists more, names. by rewrite <-Hpr.
  - intros (blocks & names & Hne & Hc & Hp & Hn & ->). rewrite (proj2 (Hr blocks)) by by exists blocks. rewrite (proj2 (Hpr blocks) Hp).
    apply createBlocks_spec. by exists names.
Qed.

Lemma flush_spec p q : flushTextParts safeParseJsonRecord o p = Some q ↔ ∃ calls, RunCalls (pj_made p) (pj_textParts p) calls ∧
  q = {| pj_content := pj_content p ++ calls; pj_map := pj_map p; pj_made := pj_made p + length calls; pj_textParts := [] |}.
Proof.
  unfold flushTextParts, createPromotedToolCallBlocksFromTextParts, RunCalls. destruct (forallb is_space_unit (mjoin (pj_textParts p))).
  - cbn. split; [intros [= <-]; by exists []|]. by intros (calls & -> & ->).
  - split.
    + destruct (createPromotedToolCallBlocks _ _ _ _ _) as [calls|] eqn:Ec; [|done]. intros [= <-]. apply created_spec in Ec. by exists calls.
    + intros (calls & Hc%created_spec & ->). by rewrite Hc.
Qed.

Lemma projectBlocks_spec blocks : ∀ i p q, projectBlocks safeParseJsonRecord o i blocks p = Some q ↔
  ∃ content map, Projects (pj_textParts p) i (pj_made p) (length (pj_content p)) blocks content map (pj_made q) ∧
    pj_content q = pj_content p ++ content ∧ pj_map q = pj_map p ++ map ∧ pj_textParts q = [].
Proof.
  induction blocks as [|block blocks IH]; intros i p q; cbn [projectBlocks].
  - rewrite flush_spec. split.
    + intros (calls & Hc & ->). exists calls, []. cbn. split_and!; [by constructor|done|by rewrite app_nil_r|done].
    + intros (content & map & Hp & Hc & Hm & Ht). inversion Hp; subst. exists content. split; [done|]. rewrite app_nil_r in Hm. destruct q; cbn in *. congruence.
  - destruct block as [b|]; [|split; [done|intros (? & ? & Hp & _); by inversion Hp]]. unfold projectBlock. cbn [mbind option_bind].
    destruct (decide (cr_type b = Some (lit "text"))) as [Ht|Ht]; [rewrite bool_decide_true by done|rewrite bool_decide_false by done].
    + destruct (cr_text b) as [text|] eqn:Ex; cbn [mbind option_bind].
      * rewrite IH. cbn. split; intros (content & map & Hp & Hr); exists content, map; (split; [|done]); [by eapply projects_text|].
        inversion Hp; subst; [congruence|done].
      * split; [done|]. intros (? & ? & Hp & _). inversion Hp; subst; congruence.
    + split.
      * destruct (flushTextParts safeParseJsonRecord o p) as [p'|] eqn:Ef; [|done]. cbn. destruct (isRetainable o b) eqn:Er; [|done]. cbn. rewrite IH. cbn.
        intros (content & map & Hp & Hc & Hm & Hx). apply flush_spec in Ef as (calls & Hcalls & ->). cbn in *.
        exists (calls ++ b :: content), ((i, length (pj_content p) + length calls) :: map). rewrite <-!app_assoc in *. rewrite !length_app, Nat.add_assoc, Nat.add_1_r in *.
        split_and!; [by apply projects_kept|done..].
      * intros (content & map & Hp & Hc & Hm & Hx). inversion Hp as [|? ? ? ? ? text ? ? ? ? Hb|? ? ? ? ? calls ? content' map' ? _ Hr Hcalls Hmore]; subst; [done|].
        rewrite (proj2 (flush_spec p _)) by by exists calls. cbn. rewrite Hr. cbn. apply IH. cbn. exists content', map'. rewrite !length_app. cbn [length]. rewrite Nat.add_1_r, Hc, Hm, <-!app_assoc.
        split_and!; done.
Qed.

(** Where a kept block went. *)
Lemma projects_map texts i made at_ blocks content map total : Projects texts i made at_ blocks content map total →
  ∀ s t, (s, t) ∈ map → i ≤ s ∧ at_ ≤ t ∧ ∃ b, blocks !! (s - i) = Some (Some b) ∧ content !! (t - at_) = Some b ∧ isRetainable o b = true.
Proof.
  induction 1 as [|texts i made at_ b text blocks content map total _ _ _ IH|texts i made at_ b calls blocks content map total _ Hr _ _ IH]; intros s t Hin.
  - by apply elem_of_nil in Hin.
  - destruct (IH s t Hin) as (Hs & Ht & b' & Hb & Hc & Hr). split; [lia|]. split; [done|]. exists b'. replace (s - i) with (S (s - S i)) by lia. done.
  - apply elem_of_cons in Hin as [[= -> ->]|Hin].
    + split; [lia|]. split; [lia|]. exists b. rewrite Nat.sub_diag. replace (at_ + length calls - at_) with (length calls + 0) by lia. rewrite lookup_app_r by lia. by rewrite Nat.add_0_r, Nat.sub_diag.
    + destruct (IH s t Hin) as (Hs & Ht & b' & Hb & Hc & Hr'). split; [lia|]. split; [lia|]. exists b'. replace (s - i) with (S (s - S i)) by lia. split; [done|].
      rewrite lookup_app_r by lia. by replace (t - at_ - length calls) with (S (t - S (at_ + length calls))) by lia.
Qed.

(** Whether a message may be promoted at all. *)
Definition Eligible (m : PromotionMessage R) : Prop :=
  pr_allowedToolNames o ≠ [] ∧ (pr_requireAssistantRole o = true → pm_role m = Some (lit "assistant")) ∧
  ∀ reasons, pr_allowedStopReasons o = Some reasons → pm_stopReason m ∈ reasons.

(** The content that replaces a content. *)
Definition Promoted (content : PromotionContent R) (new : list (ContentRecord R)) (map : list (nat * nat)) : Prop :=
  match content with
  | PromotionText text => CallsMade 0 text noBreaks new ∧ map = []
  | PromotionBlocks blocks => ∃ total, total ≠ 0 ∧ Projects [] 0 0 0 blocks new map total
  | PromotionOther => False
  end.

Lemma eligible_spec m : (length (pr_allowedToolNames o) =? 0) ||
     (pr_requireAssistantRole o && negb (bool_decide (pm_role m = Some (lit "assistant")))) ||
     match pr_allowedStopReasons o with Some reasons => negb (bool_decide (pm_stopReason m ∈ reasons)) | None => false end = false ↔ Eligible m.
Proof.
  unfold Eligible. rewrite !orb_false_iff, andb_false_iff, negb_false_iff, bool_decide_eq_true. rewrite Nat.eqb_neq, length_zero_iff_nil.
  destruct (pr_allowedStopReasons o) as [reasons|]; [rewrite negb_false_iff, bool_decide_eq_true|]; destruct (pr_requireAssistantRole o); naive_solver.
Qed.

Lemma projected_blocks blocks content map :
  (∃ q, projectBlocks safeParseJsonRecord o 0 blocks startProjecting = Some q ∧ pj_made q ≠ 0 ∧ pj_content q = content ∧ pj_map q = map) ↔
  Promoted (PromotionBlocks blocks) content map.
Proof.
  cbn. split.
  - intros (q & Hq & Hne & <- & <-). apply projectBlocks_spec in Hq as (content & map & Hp & -> & -> & _). by exists (pj_made q).
  - intros (total & Hne & Hp). exists {| pj_content := content; pj_map := map; pj_made := total; pj_textParts := [] |}. split_and!; [|done..].
    apply projectBlocks_spec. by exists content, map.
Qed.

Lemma promotion_spec m p : projectStandalonePlainTextToolCallMessage safeParseJsonRecord o (Some m) = Some p ↔
  Eligible m ∧ mp_role p = pm_role m ∧ mp_stopReason p = Some (lit "toolUse") ∧ Promoted (pm_content m) (mp_content p) (mp_sourceToProjected p).
Proof.
  unfold projectStandalonePlainTextToolCallMessage. cbn [mbind option_bind]. rewrite <-eligible_spec. destruct (_ || _ || _); [naive_solver|].
  destruct p as [role reason content map]. cbn [mp_role mp_stopReason mp_content mp_sourceToProjected]. destruct (pm_content m) as [text|blocks|]; [| |naive_solver].
  - cbn [Promoted]. rewrite <-created_spec. destruct (createPromotedToolCallBlocks _ _ _ _ _); cbn; naive_solver.
  - rewrite <-projected_blocks. destruct (projectBlocks safeParseJsonRecord o 0 blocks startProjecting) as [q|]; cbn; [|naive_solver].
    destruct (Nat.eqb_spec (pj_made q) 0); naive_solver.
Qed.

(** C30: a message is promoted exactly if it is eligible, each run of its texts is
    blank or nothing but unprotected calls with allowed names, its other blocks are
    kept ones and there is a call at all; the calls then stand where their texts
    stood, in order, the message stops for the use of tools, and the map tells where
    each kept block is found. *)
Theorem promotion_replaces_texts_by_calls (m : PromotionMessage R) (p : MessageProjection R) :
  (projectStandalonePlainTextToolCallMessage safeParseJsonRecord o (Some m) = Some p ↔
     Eligible m ∧ mp_role p = pm_role m ∧ mp_stopReason p = Some (lit "toolUse") ∧ Promoted (pm_content m) (mp_content p) (mp_sourceToProjected p)) ∧
  (projectStandalonePlainTextToolCallMessage safeParseJsonRecord o (Some m) = Some p →
     ∀ source target, (source, target) ∈ mp_sourceToProjected p →
     ∃ blocks b, pm_content m = PromotionBlocks blocks ∧ blocks !! source = Some (Some b) ∧ mp_content p !! target = Some b ∧ isRetainable o b = true).
Proof.
  split; [apply promotion_spec|]. intros (_ & _ & _ & Hp)%promotion_spec s t Hin. destruct (pm_content m) as [text|blocks|]; [|destruct Hp as (total & _ & Hp)|done].
  - destruct Hp as [_ Hmap]. rewrite Hmap in Hin. by apply elem_of_nil in Hin.
  - destruct (projects_map _ _ _ _ _ _ _ _ Hp s t Hin) as (_ & _ & b & Hb & Hc & Hr). rewrite !Nat.sub_0_r in *. by exists blocks, b.
Qed.
End promises.
